(* ===== verification/_CoqProject ===== *)
-Q . S2P
Prelude.v
Effects.v
Pressure.v
LogTier.v
LogEvict.v
Turns.v
Pool.v
Wake.v
Calendar.v
Text.v
PeerAuth.v
Http.v
Kv.v
WakeIndex.v
Cron.v
Queue.v
InputGate.v
Restore.v
Bytes.v
LogWire.v
Follower.v
FollowerFacts.v
Bundle.v
LogRecovery.v
Lz4.v
Ltx.v
Codec.v
Image.v
Compact.v
Levels.v
Paged.v
Wal.v
Epochs.v
EpochGc.v
Export.v
ExportOrder.v
ExportFacts.v
Types.v
Policies.v
Rebalance.v
Drain.v
CoreState.v
CoreOps.v
Activation.v
Alarms.v
OutputGate.v
NodeLease.v
Ingress.v
Resolution.v
Shedding.v
Lifecycle.v
Handoff.v
Machine.v
Samples.v
Validate.v
Gaps.v
Frame.v
Occupancy.v
GateFlow.v
Ownership.v
OpIds.v
Cluster.v
Lease.v
