(* ===== verification/Prelude.v ===== *)
(** * A verification library for celld

    celld runs cells, each a JavaScript worker with a SQLite database of its
    own, on a fleet of nodes that share one object-store bucket.  The bucket
    holds the owner record of every cell, the leases of the nodes and the LTX
    files a database is rebuilt from.  Between two uploads an acknowledged write
    is kept by the followers of the node's log.

    ** How the program works together

    - The decision core ([crates/logic/lib.rs], [types.rs], [output_gate.rs]) is
      a state machine: an event goes in, effects come out, and the shell in
      [crates/celld] carries the effects out.  It decides who owns a cell, when
      a cell starts and stops, and when an output may leave.
    - The policies beside it ([crates/logic/*.rs]) are pure functions and small
      machines the shell steps: pressure, log tier, follower eviction, drain,
      rebalancing, queues, cron, the wake index, the input gate.
    - The storage engine ([crates/ltx]) writes, compacts, lists and restores LTX
      files; an epoch of a cell is a prefix of the bucket.
    - The node log ([crates/celld/node_log.rs]) ships entries to followers, which
      commit them to disk; when the node dies another one seals the followers,
      gathers what they hold and puts it in the bucket.
    - The change export ([crates/logic/export.rs]) labels commits with the
      transaction that captured them.

    ** The files

    A module is named after what it models and opens with a comment that names
    the source.  Definitions keep the names of the source.  Files are listed in
    the order they build.

    Foundations:
    - [Prelude]: machine integers, results, sorted maps and lists; [Effects]: the
      decision monad and its weakest precondition; [Text]: the string library;
      [Bytes]: byte strings and integers in them; [Calendar]: civil dates.

    Decision core, [crates/logic]:
    - [Types], [CoreState]: the data; [CoreOps]: shared operations; [Activation],
      [Alarms], [OutputGate], [NodeLease], [Ingress], [Resolution], [Shedding],
      [Lifecycle], [Handoff], [Machine]: every handler, one definition per
      function, [on_event] being the step; [Validate]: the consistency check of
      debug builds; [Samples]: concrete runs.
    - [Frame] (what every transition preserves), [Occupancy] (no panic, and the
      residency counter), [GateFlow] (outputs leave once and after their proof),
      [Ownership] (where an epoch comes from), [OpIds] (operation ids are
      fresh), [Lease] (authority ends before the lease), [Gaps] (runs the
      consistency check rejects).
    - [Cluster]: any number of nodes over the bucket's owner records
      ([ownership_store.rs], [bucket.rs]); the fleet refines a ledger that gives
      each epoch to one node.

    Policies: [Pressure], [LogTier], [LogEvict], [Turns] and [Pool]
    ([pool.rs], [isolate.rs]), [Wake], [WakeIndex], [Cron], [Queue],
    [InputGate], [Policies], [Rebalance], [Drain], [Http], [Kv], [PeerAuth].

    Storage, [crates/ltx]: [Lz4], [Ltx], [Codec] (the file format), [Image]
    (databases from files), [Compact] and [Levels] (compaction), [Restore] (the
    plan), [Paged] (restore by pages), [Wal] (the log SQLite writes), [Epochs]
    and [EpochGc] (chains of epochs and their collection), [Bundle].

    Node log, [crates/celld/node_log.rs]: [LogWire] (frames, requests, committed
    batches, the stream server), [Follower] (the store of a follower),
    [FollowerFacts] (its invariant over failures and stops), [LogRecovery] (the
    recovery pass, over [Bundle]).

    Change export: [Export] (the operations), [ExportOrder] (generations),
    [ExportFacts] (the labels are exact).

    ** State and operations

    A handler of the core is a computation of [Effects.M]: it reads and replaces
    the state, emits effects and can end in [Panic].  Other components pass
    their state explicitly.  Errors are [result] or [option]; an [option] that
    stands for a panic says so.  Machine integers are [N] or [Z] with the
    wrapping, saturating or checked operation the source uses.  Where the order
    of operations matters (the pool, the turns, the drain token, the fleet, the
    epochs, a follower) the operations are constructors of a step relation, and
    the theorems are about every reachable state.

    ** What the theorems show

    - Ownership: two nodes never run a cell at the same epoch; the fleet refines
      the ledger; authority ends before the lease; claims follow reads.
    - Outputs: an output is released only after its durability proof, and none
      is lost or given twice.
    - The core itself: no event makes it panic, permits stay within their
      ceilings, operation ids are fresh.
    - Acknowledged writes: a follower keeps what it reported through failed file
      operations and stops of the machine ([FollowerFacts.reported_kept]); a
      sealed epoch accepts nothing ([FollowerFacts.seal_fences]); and a recovery
      that seals without declaring a loss has every acknowledged entry in the
      bucket ([LogRecovery.acknowledged_recovered]).
    - Storage: round trips of the file format, the block compressor, bundles and
      the append stream; decoding any bytes ends in an error or a well-formed
      file; restores, whole or by pages, rebuild the database; compaction keeps
      what files stand for and makes progress; collection of epochs is invisible
      to a restore; the page map of a write-ahead log is exact.
    - Change export: labels are exact, positions complete, captures release.
    - Policies: evictions rest on evidence, turns are fair, pool slots are freed
      only when nothing holds them, balancing settles, drain tokens do not
      overlap, replays are refused, authorities are fenced, cron finds the first
      occurrence.

    Each of these that has hypotheses has a witness that applies it to a
    concrete run.

    ** Fuel

    A recursion that is not structural takes fuel, and its callers give a bound
    on the number of rounds: the length of the input that each round shortens
    (decoders, [Bundle.rows_loop], [Follower.decode_run], the block compressor),
    the number of waiting lanes ([Turns]), of queued commits ([Export]), of
    listed files (planner, chains).  Theorems that a result is produced are
    stated with that fuel: [Wire.stream_served] with one round more than there
    are frames, for any input.

    ** What is assumed

    Code that is not in the repository is a parameter, with the laws the code
    relies on as named hypotheses; each theorem with such a hypothesis has a
    witness with concrete functions.
    - [lz4_flex] and [crc_fast]: the class [Codec.Lz4FlexLaws].
    - HMAC and SHA-256: 32 bytes long ([PeerAuth], [Follower]); that a torn write
      has no valid digest is part of what a stop may leave ([crashed],
      [fault_ok]).
    - The object store: listings, reads and conditional writes as the sections
      of [Levels], [Paged], [Epochs], [Drain] and [Cluster] state them; a token
      names one version.
    - The file system: a directory lists its files in some order, a synced file
      keeps its bytes and can be read, a rename replaces a file whole.
    - Contracts between components: the writers of an epoch ([writes_ok],
      [settled]), the streams of a residency ([allowed]), the leader that gives
      each sequence of an epoch one entry ([honest]), the record that never goes
      back ([record_next], which the mutations of [LogTier] satisfy), the rows of
      a session that come with or after the rows below them ([chained]), waiters
      that resume once granted ([Turns]), one observation of a slot being atomic
      ([Pool]), clocks that advance together ([Lease]).
    A stop in [FollowerFacts] is a stop of the machine.  A restart of the process
    alone, between a failed directory sync and a retransmission, breaks the
    guarantee; [restart_confirms_unsynced] is the run.

    ** Not modelled

    - The effects of the shell: actor, runtimes, timers, channels and HTTP
      handlers ([actor.rs] but for the choice of a successor, [runtime.rs],
      [control_plane.rs], [main.rs] and the command line).  They are I/O and task
      scheduling around the decisions modelled here.
    - The JavaScript engine and its bindings, and SQL ([js.rs], [storage.rs],
      [db.rs], [paged_vfs.rs]): the behaviour is V8's and SQLite's.
    - The clients of the bucket ([client/*.rs] but for the epoch chain): file and
      HTTP calls, parameters of the models that use them.
    - The leader's side of the node log: lanes, windows and hedging of the
      shipper, the upkeep of its own record, the bundle index and its collection.
      Recovery's claim, heartbeat and checkpoints, and the merge of uploaded rows
      into one file.  These are timers and requests, whose decisions are in
      [LogTier] and [LogEvict].
    - The pipeline that delivers the change export, telemetry and benchmarks.
    - Text of log lines and metrics everywhere. *)

From stdpp Require Export prelude gmap strings sorting.

#[global] Open Scope N_scope.

(** Facts shared by the components, for [eauto]. *)
Create HintDb celld.

(** ** Machine integers

    An unsigned [u64], [u32] or [usize] is an [N], a signed [i64] is a [Z].
    Rust's saturating operations are written out; [saturating_sub] on an
    unsigned type is the truncated subtraction of [N]. *)

Definition u16_max : N := 65535.
Definition u32_max : N := 4294967295.
Definition u64_max : N := 18446744073709551615.
Definition i64_min : Z := (-9223372036854775808)%Z.
Definition i64_max : Z := 9223372036854775807%Z.

Definition sat_add (a b : N) : N := N.min (a + b) u64_max.
Definition sat_sub (a b : N) : N := a - b.
Definition sat_mul (a b : N) : N := N.min (a * b) u64_max.

(** An unchecked [u64] addition and subtraction in the release profile. *)
Definition wrap_add (a b : N) : N := (a + b) mod 18446744073709551616.
Definition wrap_sub (a b : N) : N := if b <=? a then a - b else a + 18446744073709551616 - b.

(** [u64::checked_add]. *)
Definition checked_add (a b : N) : option N :=
  if a + b <=? u64_max then Some (a + b) else None.

(** [u64::checked_sub]. *)
Definition checked_sub (a b : N) : option N :=
  if b <=? a then Some (a - b) else None.

Lemma checked_add_Some a b c : checked_add a b = Some c → c = a + b ∧ c ≤ u64_max.
Proof. unfold checked_add. destruct (N.leb_spec (a + b) u64_max); intros [= <-]; lia. Qed.

Lemma checked_sub_Some a b c : checked_sub a b = Some c → a = b + c.
Proof. unfold checked_sub. destruct (N.leb_spec b a); intros [= <-]; lia. Qed.

Lemma checked_sub_None a b : checked_sub a b = None → a < b.
Proof. unfold checked_sub. destruct (N.leb_spec b a); [done|]. lia. Qed.

(** [i64::saturating_add]. *)
Definition sat_add_i64 (a b : Z) : Z := Z.max i64_min (Z.min i64_max (a + b)%Z).

(** Rust's [Result]. *)
Inductive result (A E : Type) :=
| Ok (a : A)
| Err (e : E).
Arguments Ok {A E} a.
Arguments Err {A E} e.

#[global] Instance result_eq_dec {A E} `{EqDecision A, EqDecision E} : EqDecision (result A E).
Proof. solve_decision. Defined.

Definition is_ok {A E} (r : result A E) : bool :=
  match r with Ok _ => true | Err _ => false end.

Definition result_map {A B E} (f : A → B) (r : result A E) : result B E :=
  match r with Ok a => Ok (f a) | Err e => Err e end.

Definition result_map_err {A E F} (f : E → F) (r : result A E) : result A F :=
  match r with Ok a => Ok a | Err e => Err (f e) end.

(** The [?] operator on a [Result]. *)
Declare Scope celld_scope.
Delimit Scope celld_scope with celld.
Notation "x '←?' e ; k" := (match e with Ok x => k | Err err => Err err end)
  (at level 20, e at level 100, k at level 200, only parsing) : celld_scope.
#[global] Open Scope celld_scope.

Lemma result_bind_Ok {A B E} (e : result A E) (k : A → result B E) b :
  match e with Ok x => k x | Err err => Err err end = Ok b ↔ ∃ a, e = Ok a ∧ k a = Ok b.
Proof. destruct e; naive_solver. Qed.

(** [Option::ok_or_else]. *)
Definition ok_or {A E} (o : option A) (e : E) : result A E :=
  match o with Some a => Ok a | None => Err e end.

(** [Option::is_some], [Option::is_some_and] and [Option::is_none_or]. *)
Definition is_some {A} (o : option A) : bool :=
  match o with Some _ => true | None => false end.

Definition is_some_and {A} (f : A → bool) (o : option A) : bool :=
  match o with Some a => f a | None => false end.

Definition is_none_or {A} (f : A → bool) (o : option A) : bool :=
  match o with Some a => f a | None => true end.

(** [Option::is_none] on collections and [is_empty]. *)
Definition is_empty_set {K} `{Countable K} (X : gset K) : bool := bool_decide (X = ∅).

(** [Iterator::min] on timestamps. *)
Definition min_of (l : list Z) : option Z :=
  match l with [] => None | x :: l => Some (foldl Z.min x l) end.

Lemma foldl_min_spec l x : foldl Z.min x l ∈ x :: l ∧ ∀ y, y ∈ x :: l → (foldl Z.min x l ≤ y)%Z.
Proof.
  revert x. induction l as [|z l IH]; intros x; simpl.
  - split; [left|]. intros y ->%list_elem_of_singleton. done.
  - destruct (IH (Z.min x z)) as [Hin Hle]. split.
    + apply elem_of_cons in Hin as [->|Hin]; [|set_solver]. destruct (Z.min_spec x z) as [[_ ->]|[_ ->]]; set_solver.
    + pose proof (Hle (Z.min x z) ltac:(left)). intros y [->|[->|Hy]%elem_of_cons]%elem_of_cons; [lia|lia|].
      apply Hle. by right.
Qed.

Lemma min_of_spec l :
  match min_of l with Some m => m ∈ l ∧ ∀ y, y ∈ l → (m ≤ y)%Z | None => l = [] end.
Proof. destruct l as [|x l]; [done|]. apply foldl_min_spec. Qed.

Lemma StronglySorted_filter {A} (R : A → A → Prop) (P : A → Prop) `{∀ x, Decision (P x)} l :
  StronglySorted R l → StronglySorted R (filter P l).
Proof.
  induction 1 as [|x l Hs IH Hx]; [constructor|]. rewrite filter_cons. case_decide; [|done]. constructor; [done|].
  rewrite Forall_forall in *. intros y [_ Hy]%list_elem_of_filter. by apply Hx.
Qed.

(** [Iterator::filter] with a boolean test. *)
Lemma filter_id {A} (P : A → Prop) `{∀ x, Decision (P x)} l : Forall P l → filter P l = l.
Proof. induction 1 as [|x l Hx _ IH]; [done|]. by rewrite filter_cons_True, IH. Qed.

Lemma filter_none {A} (P : A → Prop) `{∀ x, Decision (P x)} l : Forall (λ x, ¬ P x) l → filter P l = [].
Proof. induction 1 as [|x l Hx _ IH]; [done|]. by rewrite filter_cons_False. Qed.

Lemma filter_cons_bool {A} (f : A → bool) x l :
  filter (λ y, f y) (x :: l) = if f x then x :: filter (λ y, f y) l else filter (λ y, f y) l.
Proof. rewrite filter_cons. by destruct (f x); case_decide. Qed.

(** The characters of code points 58, [:], 45, [-], and 47, [/]. *)
Definition char_colon : Ascii.ascii := Ascii.ascii_of_N 58.
Definition char_dash : Ascii.ascii := Ascii.ascii_of_N 45.
Definition char_slash : Ascii.ascii := Ascii.ascii_of_N 47.

(** The bytes of a text, and FNV-1a over bytes. *)
Definition bytes_of (s : string) : list N := Ascii.N_of_ascii <$> String.list_ascii_of_string s.
Definition fnv_step (hash byte : N) : N := (N.lxor hash byte * 1099511628211) mod 18446744073709551616.
Definition fnv1a (l : list N) : N := foldl fnv_step 14695981039346656037 l.

(** [str::split_once] on a character. *)
Fixpoint split_once (sep : Ascii.ascii) (s : string) : option (string * string) :=
  match s with
  | EmptyString => None
  | String a s =>
      if Ascii.eqb a sep then Some (EmptyString, s)
      else '(l, r) ← split_once sep s; Some (String a l, r)
  end.

(** ** Ordered iteration

    A [BTreeMap] is a [gmap] and a [BTreeSet] a [gset]; the code iterates both
    in key order, which [items] and [members] make explicit. *)

Class KeyOrder (K : Type) := {
  key_le : relation K;
  key_le_dec :: RelDecision key_le;
  key_le_total :: Total key_le;
  key_le_trans :: Transitive key_le;
  key_le_anti :: AntiSymm (=) key_le;
}.

#[global] Instance N_key_order : KeyOrder N.
Proof. refine {| key_le := N.le |}; try apply _. Defined.

#[global] Instance string_key_order : KeyOrder string.
Proof. refine {| key_le := String.le |}; apply _. Defined.

Definition key_lt {K} `{KeyOrder K} (a b : K) : Prop := ¬ key_le b a.
#[global] Instance key_lt_dec {K} `{KeyOrder K} : RelDecision key_lt.
Proof. intros a b. unfold key_lt. apply _. Defined.

Section ordered.
Context {K : Type} `{Countable K} `{!KeyOrder K} {V : Type}.

Definition item_le (a b : K * V) : Prop := key_le a.1 b.1.
#[global] Instance item_le_dec : RelDecision item_le.
Proof. intros a b. unfold item_le. apply _. Defined.

(** [BTreeMap::iter], [keys] and [values]. *)
Definition items (m : gmap K V) : list (K * V) := merge_sort item_le (map_to_list m).
Definition keys (m : gmap K V) : list K := (items m).*1.
Definition values (m : gmap K V) : list V := (items m).*2.

(** [BTreeSet::iter]. *)
Definition members (X : gset K) : list K := merge_sort key_le (elements X).

Lemma elem_of_items (m : gmap K V) k v : (k, v) ∈ items m ↔ m !! k = Some v.
Proof. unfold items. rewrite merge_sort_Permutation. apply elem_of_map_to_list. Qed.

Lemma elem_of_members (X : gset K) k : k ∈ members X ↔ k ∈ X.
Proof. unfold members. rewrite merge_sort_Permutation. apply elem_of_elements. Qed.

Lemma elem_of_keys (m : gmap K V) k : k ∈ keys m ↔ is_Some (m !! k).
Proof.
  unfold keys. rewrite list_elem_of_fmap. split.
  - intros ([k' v] & -> & Hin). apply elem_of_items in Hin. by eexists.
  - intros [v Hv]. exists (k, v). by rewrite elem_of_items.
Qed.

Lemma elem_of_values (m : gmap K V) v : v ∈ values m ↔ ∃ k, m !! k = Some v.
Proof.
  unfold values. rewrite list_elem_of_fmap. split.
  - intros ([k v'] & -> & Hin). exists k. by apply elem_of_items.
  - intros [k Hk]. exists (k, v). by rewrite elem_of_items.
Qed.

Lemma length_items (m : gmap K V) : length (items m) = size m.
Proof. unfold items. rewrite merge_sort_Permutation. apply length_map_to_list. Qed.

Lemma NoDup_keys (m : gmap K V) : NoDup (keys m).
Proof. unfold keys, items. rewrite merge_sort_Permutation. apply NoDup_fst_map_to_list. Qed.

(** The iteration is in key order: its first key is the least one of the map,
    its last the greatest. *)
#[local] Instance item_le_total : Total item_le.
Proof. intros a b. apply key_le_total. Qed.

#[local] Instance item_le_trans : Transitive item_le.
Proof. intros a b c. apply key_le_trans. Qed.

Lemma items_sorted (m : gmap K V) : StronglySorted item_le (items m).
Proof. apply StronglySorted_merge_sort; apply _. Qed.

Lemma key_le_refl (k : K) : key_le k k.
Proof. destruct (key_le_total k k); done. Qed.

Lemma keys_head_le (m : gmap K V) k ks k' v : keys m = k :: ks → m !! k' = Some v → key_le k k'.
Proof.
  unfold keys. pose proof (items_sorted m) as Hs. intros E Hv. apply elem_of_items in Hv.
  destruct (items m) as [|x l]; [done|]. injection E as <- _.
  apply StronglySorted_cons in Hs as [Hf _]. rewrite Forall_forall in Hf.
  apply elem_of_cons in Hv as [<-|Hv]; [apply key_le_refl|by apply (Hf _ Hv)].
Qed.

Lemma items_last_le (m : gmap K V) x k' v :
  last (items m) = Some x → m !! k' = Some v → m !! x.1 = Some x.2 ∧ key_le k' x.1.
Proof.
  intros (l & E)%last_Some Hv. pose proof (items_sorted m) as Hs. split.
  - apply elem_of_items. rewrite E. destruct x. set_solver.
  - apply elem_of_items in Hv. rewrite E in Hs, Hv. apply elem_of_app in Hv as [Hv|Hv].
    + by apply (StronglySorted_app_1_elem_of _ _ _ _ _ Hs Hv), list_elem_of_singleton.
    + apply list_elem_of_singleton in Hv as <-. apply key_le_refl.
Qed.

(** The iteration of a map built from a list in strict key order is the list. *)
Definition item_lt (a b : K * V) : Prop := key_lt a.1 b.1.

#[local] Instance item_lt_trans : Transitive item_lt.
Proof.
  intros a b c Hab Hbc Hca. destruct (key_le_total a.1 b.1) as [H1|H1]; [|by apply Hab].
  destruct (key_le_total b.1 c.1) as [H2|H2]; [|by apply Hbc].
  apply Hab. by trans c.1.
Qed.

#[local] Instance item_lt_anti : AntiSymm (=) item_lt.
Proof. intros a b Hab Hba. exfalso. destruct (key_le_total a.1 b.1); [by apply Hba|by apply Hab]. Qed.

Lemma strictly_sorted (l : list (K * V)) : StronglySorted item_le l → NoDup l.*1 → StronglySorted item_lt l.
Proof.
  induction 1 as [|x l Hl IH Hx]; intros Hnd; [constructor|]. apply NoDup_cons in Hnd as [Hnx Hnd].
  constructor; [by apply IH|]. rewrite Forall_forall in Hx |- *. intros y Hy Hle. apply Hnx.
  assert (x.1 = y.1) as -> by (apply (anti_symm key_le); [by apply Hx|done]). by apply list_elem_of_fmap_2.
Qed.

Lemma items_list_to_map (l : list (K * V)) : StronglySorted item_lt l → items (list_to_map l) = l.
Proof.
  intros Hs. assert (NoDup l.*1) as Hnd.
  { clear -Hs. induction Hs as [|x l Hl IH Hx]; [constructor|]. constructor; [|done].
    intros (y & E & Hy)%list_elem_of_fmap. rewrite Forall_forall in Hx. apply (Hx y Hy). rewrite E.
    apply key_le_refl. }
  apply (Sorted_unique item_lt).
  - apply StronglySorted_Sorted, strictly_sorted; [apply items_sorted|apply NoDup_keys].
  - by apply StronglySorted_Sorted.
  - unfold items. rewrite merge_sort_Permutation. by apply map_to_list_to_map.
Qed.
End ordered.

(** Set sizes as machine counts. *)
Section set_size.
Context {K : Type} `{Countable K}.
Implicit Types X Y : gset K.

Lemma N_size_difference X Y : N.of_nat (size (X ∖ Y)) ≤ N.of_nat (size X).
Proof. assert (size (X ∖ Y) ≤ size X)%nat by (apply subseteq_size; set_solver). lia. Qed.

Lemma N_size_filter (P : K → Prop) `{∀ x, Decision (P x)} X :
  N.of_nat (size (filter P X)) ≤ N.of_nat (size X).
Proof. assert (size (filter P X) ≤ size X)%nat by (apply subseteq_size; set_solver). lia. Qed.

Lemma N_size_insert (k : K) X : N.of_nat (size ({[k]} ∪ X)) ≤ N.of_nat (size X) + 1.
Proof.
  destruct (decide (k ∈ X)).
  - replace ({[k]} ∪ X) with X by set_solver. lia.
  - rewrite size_union, size_singleton by set_solver. lia.
Qed.
End set_size.

(** [get_mut] of a present key is an insertion. *)
Lemma alter_Some {K V} `{Countable K} (f : V → V) (m : gmap K V) k v :
  m !! k = Some v → alter f k m = <[k := f v]> m.
Proof.
  intros E. apply map_eq. intros j. rewrite lookup_alter, lookup_insert.
  case_decide; [subst; by rewrite E|done].
Qed.

(** [Iterator::find] and [Iterator::any]/[all] on lists are [list_find]-free
    boolean versions, so that they compute. *)
Fixpoint find_first {A} (f : A → bool) (l : list A) : option A :=
  match l with
  | [] => None
  | x :: l => if f x then Some x else find_first f l
  end.

Lemma find_first_Some {A} (f : A → bool) l x :
  find_first f l = Some x → x ∈ l ∧ f x = true.
Proof.
  induction l as [|y l IH]; simpl; [done|].
  destruct (f y) eqn:E; intros Heq; [simplify_eq; split; [left|done]|].
  destruct (IH Heq) as [? ?]. split; [by right|done].
Qed.

Lemma find_first_None {A} (f : A → bool) l :
  find_first f l = None → ∀ x, x ∈ l → f x = false.
Proof.
  induction l as [|y l IH]; simpl; [by intros _ x Hx%elem_of_nil|].
  destruct (f y) eqn:E; [done|]. intros Hn x [->|Hx]%elem_of_cons; auto.
Qed.

(** [Iterator::min_by]: the first of the minimal elements. *)
Definition min_by {A} (lt : A → A → bool) (l : list A) : option A :=
  match l with
  | [] => None
  | x :: l => Some (foldl (λ best y, if lt y best then y else best) x l)
  end.

(** [Iterator::max_by]: the last of the maximal elements. *)
Definition max_by {A} (lt : A → A → bool) (l : list A) : option A :=
  match l with
  | [] => None
  | x :: l => Some (foldl (λ best y, if lt y best then best else y) x l)
  end.

Lemma foldl_choice_elem_of {A} (c : A → A → bool) (l : list A) x :
  foldl (λ best y, if c y best then y else best) x l ∈ x :: l.
Proof.
  revert x. induction l as [|y l IH]; intros x; simpl; [left|].
  destruct (c y x).
  - right. apply IH.
  - specialize (IH x). apply elem_of_cons in IH as [->|?]; [left|by right; right].
Qed.

Lemma foldl_keep_elem_of {A} (c : A → A → bool) (l : list A) x :
  foldl (λ best y, if c y best then best else y) x l ∈ x :: l.
Proof.
  revert x. induction l as [|y l IH]; intros x; simpl; [left|].
  destruct (c y x).
  - specialize (IH x). apply elem_of_cons in IH as [->|?]; [left|by right; right].
  - right. apply IH.
Qed.

Lemma min_by_elem_of {A} lt (l : list A) x : min_by lt l = Some x → x ∈ l.
Proof. destruct l; simpl; [done|]. intros [= <-]. apply foldl_choice_elem_of. Qed.

(** The lexicographic comparison of a chain of keys ([Ordering::then_with]). *)
Definition then_with (a b : comparison) : comparison :=
  match a with Eq => b | _ => a end.

Definition compare_bool (a b : bool) : comparison :=
  match a, b with
  | false, true => Lt
  | true, false => Gt
  | _, _ => Eq
  end.

(** [None] sorts before every [Some]. *)
Definition compare_option {A} (cmp : A → A → comparison) (a b : option A) : comparison :=
  match a, b with
  | None, None => Eq
  | None, Some _ => Lt
  | Some _, None => Gt
  | Some a, Some b => cmp a b
  end.

Definition is_lt (c : comparison) : bool := match c with Lt => true | _ => false end.
Definition is_gt (c : comparison) : bool := match c with Gt => true | _ => false end.

(** A stable sort by a comparison function ([slice::sort_by]). *)
Definition cmp_le {A} (cmp : A → A → comparison) (a b : A) : Prop := is_gt (cmp a b) = false.
#[global] Instance cmp_le_dec {A} (cmp : A → A → comparison) : RelDecision (cmp_le cmp).
Proof. intros a b. unfold cmp_le. apply _. Defined.

Fixpoint insert_by {A} (cmp : A → A → comparison) (x : A) (l : list A) : list A :=
  match l with
  | [] => [x]
  | y :: l' => if is_lt (cmp x y) then x :: l else y :: insert_by cmp x l'
  end.

Definition sort_by {A} (cmp : A → A → comparison) (l : list A) : list A :=
  foldl (λ acc x, insert_by cmp x acc) [] l.

Lemma insert_by_Permutation {A} (cmp : A → A → comparison) x l :
  insert_by cmp x l ≡ₚ x :: l.
Proof.
  induction l as [|y l IH]; simpl; [done|].
  destruct (is_lt (cmp x y)); [done|]. rewrite IH. constructor.
Qed.

Lemma sort_by_Permutation {A} (cmp : A → A → comparison) l : sort_by cmp l ≡ₚ l.
Proof.
  unfold sort_by. rewrite <-(app_nil_r l) at 2. generalize (@nil A).
  induction l as [|x l IH]; intros acc; simpl; [done|].
  rewrite IH, insert_by_Permutation. by rewrite Permutation_middle.
Qed.

Lemma insert_by_sorted {A} (cmp : A → A → comparison) (R : relation A) `{!Transitive R} x l :
  (∀ a b, is_lt (cmp a b) = true → R a b) → (∀ a b, is_lt (cmp a b) = false → R b a) →
  StronglySorted R l → StronglySorted R (insert_by cmp x l).
Proof.
  intros Hlt Hge. induction l as [|y l IH]; intros Hs; cbn [insert_by]; [by repeat constructor|].
  pose proof Hs as [Hs' Hy]%StronglySorted_inv. destruct (is_lt (cmp x y)) eqn:E.
  - constructor; [done|]. constructor; [by apply Hlt|]. eapply Forall_impl; [exact Hy|]. intros z Hz. by trans y; [apply Hlt|].
  - constructor; [by apply IH|]. rewrite insert_by_Permutation. constructor; [by apply Hge|done].
Qed.

Lemma sort_by_sorted {A} (cmp : A → A → comparison) (R : relation A) `{!Transitive R} l :
  (∀ a b, is_lt (cmp a b) = true → R a b) → (∀ a b, is_lt (cmp a b) = false → R b a) →
  StronglySorted R (sort_by cmp l).
Proof.
  intros Hlt Hge. unfold sort_by. assert (StronglySorted R (@nil A)) as Hnil by constructor. revert Hnil.
  generalize (@nil A). induction l as [|x l IH]; intros acc Hacc; [done|]. cbn. apply IH. by apply insert_by_sorted.
Qed.
