(* ===== verification/Effects.v ===== *)
(** * The decision monad

    A handler of the decision core takes the state by mutable reference and
    returns a vector of effects.  It is a computation [M S E A]: it reads and
    replaces the state, appends effects, and can stop in two ways.
    [Exhausted] is the checked increment of a 64-bit counter running out
    ([checked_add(1).expect(..)]); [Panic] is any other [expect],
    [unreachable!] or [unwrap] that fails.

    [wp] is the judgement the invariants are proved with: the computation,
    run from [s], ends in a state that satisfies the postcondition and emits
    only effects that satisfy [PE]; whether a [Panic] is acceptable is the
    parameter [np]. *)

From S2P Require Import Prelude.

Inductive outcome (S E A : Type) :=
| Done (a : A) (s : S) (es : list E)
| Exhausted
| Panic.
Arguments Done {S E A} a s es.
Arguments Exhausted {S E A}.
Arguments Panic {S E A}.

Definition is_done {S E A} (o : outcome S E A) : bool :=
  match o with Done _ _ _ => true | _ => false end.

Definition M (S E A : Type) : Type := S → outcome S E A.

#[global] Instance M_ret {S E} : MRet (M S E) := λ A a s, Done a s [].

#[global] Instance M_bind {S E} : MBind (M S E) := λ A B f m s,
  match m s with
  | Done a s1 es1 =>
      match f a s1 with
      | Done b s2 es2 => Done b s2 (es1 ++ es2)
      | Exhausted => Exhausted
      | Panic => Panic
      end
  | Exhausted => Exhausted
  | Panic => Panic
  end.

Section primitives.
Context {S E : Type}.

Definition gets {A} (f : S → A) : M S E A := λ s, Done (f s) s [].
Definition get : M S E S := λ s, Done s s [].
Definition modify (f : S → S) : M S E unit := λ s, Done tt (f s) [].
Definition emit (e : E) : M S E unit := λ s, Done tt s [e].
Definition panic {A} : M S E A := λ _, Panic.
Definition exhausted {A} : M S E A := λ _, Exhausted.

(** [if c { m }]. *)
Definition when (c : bool) (m : M S E unit) : M S E unit := if c then m else mret tt.

(** [if let Some(x) = o { f(x) }]. *)
Definition with_some {A} (o : option A) (f : A → M S E unit) : M S E unit :=
  match o with Some a => f a | None => mret tt end.

(** [for x in l { f(x) }]. *)
Fixpoint for_each {A} (l : list A) (f : A → M S E unit) : M S E unit :=
  match l with
  | [] => mret tt
  | x :: l => f x ;; for_each l f
  end.

(** A loop that carries a value: [for x in l { acc = f(acc, x) }]. *)
Fixpoint fold_each {A B} (l : list A) (acc : B) (f : B → A → M S E B) : M S E B :=
  match l with
  | [] => mret acc
  | x :: l => acc ← f acc x; fold_each l acc f
  end.

(** [while f() {}]: run until the body answers [false]; running out of fuel
    is a [Panic], so that a result is never a truncated loop. *)
Fixpoint repeat_while (fuel : nat) (f : M S E bool) : M S E unit :=
  match fuel with
  | O => panic
  | Datatypes.S fuel => b ← f; if (b : bool) then repeat_while fuel f else mret tt
  end.

(** Run a computation and keep its effects for later. *)
Definition captured {A} (c : M S E A) : M S E (A * list E) := λ s,
  match c s with
  | Done a s' es => Done (a, es) s' []
  | Exhausted => Exhausted
  | Panic => Panic
  end.
End primitives.

(** ** The judgement *)

Definition wp {S E A} (np : Prop) (PE : E → Prop) (m : M S E A)
    (Q : A → S → Prop) (s : S) : Prop :=
  match m s with
  | Done a s' es => Q a s' ∧ Forall PE es
  | Exhausted => True
  | Panic => np
  end.

Section wp.
Context {S E : Type} {np : Prop} {PE : E → Prop}.
Implicit Types s : S.

Lemma wp_ret {A} (a : A) (Q : A → S → Prop) s : Q a s → wp np PE (mret a) Q s.
Proof. intros ?. split; [done|constructor]. Qed.

Lemma wp_bind {A B} (m : M S E A) (f : A → M S E B) (Q : B → S → Prop) s :
  wp np PE m (λ a s', wp np PE (f a) Q s') s → wp np PE (m ≫= f) Q s.
Proof.
  unfold wp, mbind, M_bind. destruct (m s) as [a s1 es1| |]; [|done|done].
  intros [H1 H2]. destruct (f a s1) as [b s2 es2| |]; [|done|done].
  destruct H1. split; [done|]. by apply Forall_app.
Qed.

Lemma wp_mono {A} (m : M S E A) (Q R : A → S → Prop) s :
  wp np PE m Q s → (∀ a s', Q a s' → R a s') → wp np PE m R s.
Proof.
  unfold wp. destruct (m s) as [a s1 es1| |]; [|done|done].
  intros [? ?] HQR. split; [by apply HQR|done].
Qed.

Lemma wp_gets {A} (f : S → A) (Q : A → S → Prop) s : Q (f s) s → wp np PE (gets f) Q s.
Proof. intros ?. split; [done|constructor]. Qed.

Lemma wp_get (Q : S → S → Prop) s : Q s s → wp np PE get Q s.
Proof. intros ?. split; [done|constructor]. Qed.

Lemma wp_modify (f : S → S) (Q : unit → S → Prop) s :
  Q tt (f s) → wp np PE (modify f) Q s.
Proof. intros ?. split; [done|constructor]. Qed.

Lemma wp_emit (e : E) (Q : unit → S → Prop) s : PE e → Q tt s → wp np PE (emit e) Q s.
Proof. intros ??. split; [done|]. by repeat constructor. Qed.

Lemma wp_panic {A} (Q : A → S → Prop) s : np → wp np PE panic Q s.
Proof. done. Qed.

Lemma wp_exhausted {A} (Q : A → S → Prop) s : wp np PE exhausted Q s.
Proof. done. Qed.

Lemma wp_captured {A} (c : M S E A) (Q : A * list E → S → Prop) s :
  wp np PE c (λ a s', ∀ es, Forall PE es → Q (a, es) s') s →
  wp np PE (captured c) Q s.
Proof.
  unfold wp, captured. destruct (c s) as [a s1 es1| |]; [|done|done].
  intros [HQ Hes]. split; [by apply HQ|constructor].
Qed.

Lemma wp_for_each {A} (I : S → Prop) (l : list A) (f : A → M S E unit)
    (Q : unit → S → Prop) s :
  I s →
  (∀ x s', x ∈ l → I s' → wp np PE (f x) (λ _, I) s') →
  (∀ s', I s' → Q tt s') →
  wp np PE (for_each l f) Q s.
Proof.
  intros HI Hf HQ. revert s HI. induction l as [|x l IH]; intros s HI; simpl.
  { apply wp_ret. by apply HQ. }
  apply wp_bind. eapply wp_mono; [apply Hf; [left|done]|].
  intros [] s' HI'. apply IH; [|done]. intros y s'' Hy HI''. apply Hf; [by right|done].
Qed.

Lemma wp_fold_each {A B} (I : B → S → Prop) (l : list A) (acc : B)
    (f : B → A → M S E B) (Q : B → S → Prop) s :
  I acc s →
  (∀ b x s', x ∈ l → I b s' → wp np PE (f b x) I s') →
  (∀ b s', I b s' → Q b s') →
  wp np PE (fold_each l acc f) Q s.
Proof.
  intros HI Hf HQ. revert acc s HI. induction l as [|x l IH]; intros acc s HI; simpl.
  { apply wp_ret. by apply HQ. }
  apply wp_bind. eapply wp_mono; [apply Hf; [left|done]|].
  intros b s' HI'. apply IH; [|done]. intros b' y s'' Hy HI''. apply Hf; [by right|done].
Qed.

(** A loop whose fuel exceeds a measure that every turn decreases. *)
Lemma wp_repeat_while (I : S → Prop) (measure : S → nat) (f : M S E bool)
    (Q : unit → S → Prop) fuel s :
  I s → (measure s < fuel)%nat →
  (∀ s', I s' →
    wp np PE f (λ b s'', I s'' ∧ (b = true → measure s'' < measure s')%nat) s') →
  (∀ s', I s' → Q tt s') →
  wp np PE (repeat_while fuel f) Q s.
Proof.
  intros HI Hm Hf HQ. revert s HI Hm.
  induction fuel as [|fuel IH]; intros s HI Hm; simpl; [lia|].
  apply wp_bind. eapply wp_mono; [by apply Hf|].
  intros [] s' [HI' Hlt]; simpl.
  - apply IH; [done|]. specialize (Hlt eq_refl). lia.
  - apply wp_ret. by apply HQ.
Qed.

(** The same loop where a stop for want of fuel is acceptable. *)
Lemma wp_repeat_while_partial (I : S → Prop) (f : M S E bool)
    (Q : unit → S → Prop) fuel s :
  np → I s → (∀ s', I s' → wp np PE f (λ _, I) s') → (∀ s', I s' → Q tt s') →
  wp np PE (repeat_while fuel f) Q s.
Proof.
  intros Hnp HI Hf HQ. revert s HI.
  induction fuel as [|fuel IH]; intros s HI; simpl; [done|].
  apply wp_bind. eapply wp_mono; [by apply Hf|].
  intros [] s' HI'; simpl; [by apply IH|]. apply wp_ret. by apply HQ.
Qed.
End wp.

(** What the judgement says of a run that returned. *)
Lemma wp_done {S E A} np (PE : E → Prop) (m : M S E A) Q s a s' es :
  wp np PE m Q s → m s = Done a s' es → Q a s' ∧ Forall PE es.
Proof. unfold wp. intros H Hm. by rewrite Hm in H. Qed.

Lemma wp_conj {S E A} (np np' : Prop) (PE PE' : E → Prop) (m : M S E A) Q Q' s :
  wp np PE m Q s → wp np' PE' m Q' s →
  wp (np ∧ np') (λ e, PE e ∧ PE' e) m (λ a s', Q a s' ∧ Q' a s') s.
Proof.
  unfold wp. destruct (m s) as [a s1 es1| |]; [|done|done].
  intros [? ?] [? ?]. split; [done|]. by apply Forall_and.
Qed.

Lemma wp_weaken {S E A} (np np' : Prop) (PE PE' : E → Prop) (m : M S E A)
    (Q Q' : A → S → Prop) s :
  wp np PE m Q s → (np → np') → (∀ e, PE e → PE' e) → (∀ a s', Q a s' → Q' a s') →
  wp np' PE' m Q' s.
Proof.
  unfold wp. destruct (m s) as [a s1 es1| |]; [|done|by auto].
  intros [? ?] ? HPE HQ. split; [by apply HQ|]. by eapply Forall_impl.
Qed.

(** Emitting a list of effects. *)
Lemma for_each_emit {S E} (es : list E) (s : S) : for_each es emit s = Done tt s es.
Proof.
  induction es as [|e es IH]; [done|]. simpl. unfold mbind, M_bind. simpl. by rewrite IH.
Qed.

(** The judgement with the whole effect list in the postcondition. *)
Definition wpe {S E A} (np : Prop) (m : M S E A) (Q : A → S → list E → Prop) (s : S) : Prop :=
  match m s with
  | Done a s' es => Q a s' es
  | Exhausted => True
  | Panic => np
  end.

Lemma wpe_bind {S E A B} np (m : M S E A) (f : A → M S E B) Q s :
  wpe np m (λ a s1 es1, wpe np (f a) (λ b s2 es2, Q b s2 (es1 ++ es2)) s1) s →
  wpe np (m ≫= f) Q s.
Proof.
  unfold wpe, mbind, M_bind. destruct (m s) as [a s1 es1| |]; [|done|done].
  by destruct (f a s1).
Qed.

Lemma wpe_mono {S E A} np (m : M S E A) (Q R : A → S → list E → Prop) s :
  wpe np m Q s → (∀ a s' es, Q a s' es → R a s' es) → wpe np m R s.
Proof. unfold wpe. destruct (m s); eauto. Qed.

Lemma wp_wpe {S E A} np (PE : E → Prop) (m : M S E A) Q s :
  wp np PE m Q s → wpe np m (λ a s' es, Q a s' ∧ Forall PE es) s.
Proof. done. Qed.

Lemma wpe_done {S E A} np (m : M S E A) Q s a s' es :
  wpe np m Q s → m s = Done a s' es → Q a s' es.
Proof. unfold wpe. intros H Hm. by rewrite Hm in H. Qed.

(** The judgement where the postcondition may rely on the effects emitted: a
    run whose effects all satisfy [EM] ends in [Q], and its effects satisfy
    [PE]. *)
Definition wpr {S E A} (EM PE : E → Prop) (m : M S E A) (Q : A → S → Prop) (s : S) : Prop :=
  match m s with
  | Done a s' es => Forall EM es → Q a s' ∧ Forall PE es
  | _ => True
  end.

Section wpr.
Context {S E : Type} {EM PE : E → Prop}.
Implicit Types s : S.

Lemma wpr_ret {A} (a : A) (Q : A → S → Prop) s : Q a s → wpr EM PE (mret a) Q s.
Proof. intros ? _. split; [done|constructor]. Qed.

Lemma wpr_bind {A B} (m : M S E A) (f : A → M S E B) (Q : B → S → Prop) s :
  wpr EM PE m (λ a s', wpr EM PE (f a) Q s') s → wpr EM PE (m ≫= f) Q s.
Proof.
  unfold wpr, mbind, M_bind. destruct (m s) as [a s1 es1| |]; [|done|done].
  intros H. destruct (f a s1) as [b s2 es2| |] eqn:Ef; [|done|done].
  intros [H1 H2]%Forall_app. destruct (H H1) as [Hf He].
  destruct (Hf H2). split; [done|]. by apply Forall_app.
Qed.

Lemma wpr_mono {A} (m : M S E A) (Q R : A → S → Prop) s :
  wpr EM PE m Q s → (∀ a s', Q a s' → R a s') → wpr EM PE m R s.
Proof.
  unfold wpr. destruct (m s) as [a s1 es1| |]; [|done|done].
  intros H HQR He. destruct (H He). auto.
Qed.

Lemma wpr_gets {A} (f : S → A) (Q : A → S → Prop) s : Q (f s) s → wpr EM PE (gets f) Q s.
Proof. intros ? _. split; [done|constructor]. Qed.

Lemma wpr_get (Q : S → S → Prop) s : Q s s → wpr EM PE get Q s.
Proof. intros ? _. split; [done|constructor]. Qed.

Lemma wpr_modify (f : S → S) (Q : unit → S → Prop) s : Q tt (f s) → wpr EM PE (modify f) Q s.
Proof. intros ? _. split; [done|constructor]. Qed.

Lemma wpr_emit (e : E) (Q : unit → S → Prop) s :
  PE e → (EM e → Q tt s) → wpr EM PE (emit e) Q s.
Proof. intros ? HQ He. inversion He; subst. split; [auto|by repeat constructor]. Qed.

Lemma wpr_for_each {A} (I : S → Prop) (l : list A) (f : A → M S E unit) (Q : unit → S → Prop) s :
  I s → (∀ x s', x ∈ l → I s' → wpr EM PE (f x) (λ _, I) s') → (∀ s', I s' → Q tt s') →
  wpr EM PE (for_each l f) Q s.
Proof.
  intros HI Hf HQ. revert s HI. induction l as [|x l IH]; intros s HI; simpl.
  { apply wpr_ret. by apply HQ. }
  apply wpr_bind. eapply wpr_mono; [apply Hf; [left|done]|].
  intros [] s' HI'. apply IH; [|done]. intros y s'' Hy. apply Hf. by right.
Qed.

Lemma wpr_fold_each {A B} (I : B → S → Prop) (l : list A) (acc : B) (f : B → A → M S E B)
    (Q : B → S → Prop) s :
  I acc s → (∀ b x s', x ∈ l → I b s' → wpr EM PE (f b x) I s') → (∀ b s', I b s' → Q b s') →
  wpr EM PE (fold_each l acc f) Q s.
Proof.
  intros HI Hf HQ. revert acc s HI. induction l as [|x l IH]; intros acc s HI; simpl.
  { apply wpr_ret. by apply HQ. }
  apply wpr_bind. eapply wpr_mono; [apply Hf; [left|done]|].
  intros b s' HI'. apply IH; [|done]. intros b' y s'' Hy. apply Hf. by right.
Qed.

Lemma wpr_repeat_while (I : S → Prop) (f : M S E bool) (Q : unit → S → Prop) fuel s :
  I s → (∀ s', I s' → wpr EM PE f (λ _, I) s') → (∀ s', I s' → Q tt s') →
  wpr EM PE (repeat_while fuel f) Q s.
Proof.
  intros HI Hf HQ. revert s HI. induction fuel as [|fuel IH]; intros s HI; simpl; [done|].
  apply wpr_bind. eapply wpr_mono; [by apply Hf|].
  intros [] s' HI'; simpl; [by apply IH|]. apply wpr_ret. by apply HQ.
Qed.

(** A captured computation whose effects are emitted after [f], and one whose
    effects are emitted at once. *)
Lemma wpr_captured {A} (c : M S E A) (f : A → M S E unit) (Q : unit → S → Prop) s :
  wpr EM PE c (λ a s', wpr EM PE (f a) Q s') s →
  wpr EM PE ('(a, es) ← captured c; f a ;; for_each es emit) Q s.
Proof.
  unfold wpr, captured, mbind, M_bind. destruct (c s) as [a s1 es1| |]; [|done|done]. simpl.
  destruct (f a s1) as [[] s2 es2| |]; [|done|done]. simpl. rewrite for_each_emit. simpl.
  intros H [H2 H1]%Forall_app. destruct (H H1) as [Hf He]. destruct (Hf H2).
  split; [done|]. by apply Forall_app.
Qed.

Lemma wpr_replayed {A B} (c : M S E A) (k : list E → M S E B) (Q : B → S → Prop) s :
  wpr EM PE c (λ _ s', ∀ es, wpr EM PE (k es) Q s') s →
  wpr EM PE ('(_, es) ← captured c; for_each es emit ;; k es) Q s.
Proof.
  unfold wpr, captured, mbind, M_bind. destruct (c s) as [a s1 es1| |]; [|done|done]. simpl.
  rewrite for_each_emit. destruct (k es1 s1) as [b s2 es2| |] eqn:Ek; [|done|done]. simpl.
  intros H [H1 H2]%Forall_app. destruct (H H1) as [Hf He]. specialize (Hf es1). rewrite Ek in Hf.
  destruct (Hf H2). split; [done|]. by apply Forall_app.
Qed.
End wpr.

Ltac wpr_step :=
  cbv beta;
  lazymatch goal with
  | |- wpr _ _ (mbind _ _) _ _ => apply wpr_bind
  | |- wpr _ _ (mret _) _ _ => apply wpr_ret
  | |- wpr _ _ (gets _) _ _ => apply wpr_gets
  | |- wpr _ _ get _ _ => apply wpr_get
  | |- wpr _ _ (modify _) _ _ => apply wpr_modify
  | |- wpr _ _ (emit _) _ _ => apply wpr_emit; [|intros ?]
  | |- wpr _ _ panic _ _ => exact I
  | |- wpr _ _ exhausted _ _ => exact I
  | |- wpr _ _ (when _ _) _ _ => unfold when
  | |- wpr _ _ (with_some _ _) _ _ => unfold with_some
  | |- wpr _ _ (let _ := _ in _) _ _ => cbv zeta
  | |- wpr _ _ (match ?x with _ => _ end) _ _ => destruct x eqn:?
  end.

(** [record_set eta proj r v] builds the record [r] with field [proj] replaced
    by [v]; [eta r] is the record rebuilt from its projections. *)
Ltac record_set eta proj r v :=
  let body := eval cbv beta delta [eta] in (eta r) in
  lazymatch eval pattern (proj r) in body with
  | ?F _ => let b := eval cbv beta in (F v) in exact b
  end.

(** ** Proof steps

    [wp_step] takes one syntactic step of the computation under the judgement;
    [wp_call H] uses the specification [H] of the function called. *)

Ltac wp_step :=
  cbv beta;
  lazymatch goal with
  | |- wp _ _ (mbind _ _) _ _ => apply wp_bind
  | |- wp _ _ (mret _) _ _ => apply wp_ret
  | |- wp _ _ (gets _) _ _ => apply wp_gets
  | |- wp _ _ get _ _ => apply wp_get
  | |- wp _ _ (modify _) _ _ => apply wp_modify
  | |- wp _ _ (emit _) _ _ => apply wp_emit
  | |- wp _ _ (captured _) _ _ => apply wp_captured
  | |- wp _ _ panic _ _ => apply wp_panic
  | |- wp _ _ exhausted _ _ => apply wp_exhausted
  | |- wp _ _ (when _ _) _ _ => unfold when
  | |- wp _ _ (with_some _ _) _ _ => unfold with_some
  | |- wp _ _ (let _ := _ in _) _ _ => cbv zeta
  | |- wp _ _ (match ?x with _ => _ end) _ _ => destruct x eqn:?
  end.

Ltac wp_steps := repeat wp_step.

Ltac wp_call H := eapply wp_mono; [eapply H|cbv beta].
