(* ===== verification/Pressure.v ===== *)
(** * Memory pressure: the shedding latches and the residency budgets

    Models [crates/logic/pressure.rs]: the watermarks, a resource sample, the
    hysteresis latches [classify] folds a sample into, the measurement a walk
    down works against, and the budget for cells pinned by outbound sockets. *)

From S2P Require Import Prelude.

Record PressureConfig := mkPressureConfig {
  high_bytes : option N;
  rss_hard_bytes : option N;
}.

Record Latches := mkLatches {
  l_memory : bool;
  l_rss_hard : bool;
}.

Definition Latches_default : Latches := mkLatches false false.

Inductive Metric := InUse | Rss.

Record Load := mkLoad {
  resident_cells : N;
  rss_bytes : N;
  in_use_bytes : N;
  cgroup_working_set_bytes : option N;
  cgroup_current_bytes : option N;
  container_reserved_bytes : N;
}.

#[global] Instance PressureConfig_eq_dec : EqDecision PressureConfig.
Proof. solve_decision. Defined.
#[global] Instance Latches_eq_dec : EqDecision Latches.
Proof. solve_decision. Defined.
#[global] Instance Metric_eq_dec : EqDecision Metric.
Proof. solve_decision. Defined.
#[global] Instance Load_eq_dec : EqDecision Load.
Proof. solve_decision. Defined.

(** [Load::memory_bytes]. *)
Definition memory_bytes (l : Load) : N :=
  let allocator_slack := sat_sub (rss_bytes l) (in_use_bytes l) in
  let cgroup_in_use := sat_sub (default 0 (cgroup_working_set_bytes l)) allocator_slack in
  sat_add (N.max (in_use_bytes l) cgroup_in_use) (container_reserved_bytes l).

(** [Load::hard_bytes]. *)
Definition hard_bytes (l : Load) : N :=
  sat_add (default (rss_bytes l) (cgroup_current_bytes l)) (container_reserved_bytes l).

(** [Load::rollout_hard_bytes]. *)
Definition rollout_hard_bytes (l : Load) : N :=
  sat_add
    (match cgroup_working_set_bytes l with
     | None => default (rss_bytes l) (cgroup_current_bytes l)
     | Some working_set => N.max working_set (rss_bytes l)
     end)
    (container_reserved_bytes l).

(** [Load::metric_bytes]. *)
Definition metric_bytes (l : Load) (metric : Metric) : N :=
  match metric with
  | InUse => memory_bytes l
  | Rss => hard_bytes l
  end.

(** The reported reason, [SHED_RSS_HARD] or [SHED_MEMORY]. *)
Inductive ShedReason := ShedMemory | ShedRssHard.

Definition usable (bytes : N) : option N := if 0 <? bytes then Some bytes else None.

(** [u64::checked_mul(5)] then a division by four, [u64::MAX] on overflow. *)
Definition cap_fallback (high : N) : N :=
  if high * 5 <=? u64_max then high * 5 / 4 else u64_max.

(** [PressureConfig::from_limits]. *)
Definition from_limits (total_memory_bytes max_rss_mb : option N) : PressureConfig :=
  let high :=
    match max_rss_mb with
    | None => total ← total_memory_bytes; usable (total / 5 * 4)
    | Some 0 => None
    | Some megabytes => usable (sat_mul megabytes (1024 * 1024))
    end in
  let hard :=
    high ← high;
    let cap := default (cap_fallback high)
                 (total ← total_memory_bytes; usable (total / 100 * 95)) in
    usable cap in
  mkPressureConfig high hard.

(** [PressureConfig::ceiling_above_cap]. *)
Definition ceiling_above_cap (c : PressureConfig) : bool :=
  match high_bytes c, rss_hard_bytes c with
  | Some high, Some cap => cap <=? high
  | _, _ => false
  end.

(** [PressureConfig::low_watermark]. *)
Definition low_watermark (ceiling : N) : N := sat_mul ceiling 4 / 5.

(** The closure [over] of [PressureConfig::classify]. *)
Definition over (ceiling : option N) (sample : N) (latched : bool) : bool :=
  is_some_and (λ c, (c <=? sample) || (latched && (low_watermark c <? sample))) ceiling.

(** [PressureConfig::classify]. *)
Definition classify (c : PressureConfig) (s : Load) (was : Latches) : Latches * option ShedReason :=
  let latches := {|
    l_memory := over (high_bytes c) (memory_bytes s) (l_memory was);
    l_rss_hard := over (rss_hard_bytes c) (hard_bytes s) (l_rss_hard was) |} in
  (latches,
    if l_rss_hard latches then Some ShedRssHard
    else if l_memory latches then Some ShedMemory
    else None).

(** [PressureConfig::has_headroom]. *)
Definition has_headroom (c : PressureConfig) (sample : Load) : bool :=
  let below ceiling bytes := is_none_or (λ ceiling, bytes <=? low_watermark ceiling) ceiling in
  below (high_bytes c) (memory_bytes sample) && below (rss_hard_bytes c) (rollout_hard_bytes sample).

(** [PressureConfig::resume_line]. *)
Definition resume_line (c : PressureConfig) (metric : Metric) : option N :=
  low_watermark <$> match metric with InUse => high_bytes c | Rss => rss_hard_bytes c end.

(** [PressureConfig::walk_metric]. *)
Definition walk_metric (latches : Latches) : Metric := if l_memory latches then InUse else Rss.

(** [PressureConfig::release_target]. *)
Definition release_target (resident : N) : N := sat_sub resident (N.max (resident / 10) 1).

Definition MAX_OUTBOUND_PIN_PERCENT : N := 50.

(** [may_pin_outbound]. *)
Definition may_pin_outbound (pinned_cells : N) (ceiling : option N) : bool :=
  is_none_or (λ cap, pinned_cells <? N.max (sat_mul cap MAX_OUTBOUND_PIN_PERCENT / 100) 1) ceiling.
