(* ===== verification/LogTier.v ===== *)
(** * The replicated log tier

    Models [crates/logic/log_tier.rs]: the log record and its conditional
    mutations, a follower's fragment with its seal mark, the write-all ack
    rule, recovery, the takeover gate and the ship ledger. *)

From S2P Require Import Prelude.

Inductive LogState := LogOpen | LogRecovering | LogSealed.
#[global] Instance LogState_eq_dec : EqDecision LogState.
Proof. solve_decision. Defined.

Record LogRecord := mkLogRecord {
  lr_epoch : N;
  lr_ensemble : gset string;
  lr_tiered : N;
  lr_bucket_complete : bool;
  lr_state : LogState;
  lr_claimant : option string;
  lr_claimed_ms : option N;
}.

(** [create_record]. *)
Definition create_record (ensemble : gset string) (bucket_end : N) : option LogRecord :=
  if is_empty_set ensemble then None
  else Some (mkLogRecord 1 ensemble bucket_end false LogOpen None None).

Record FollowerLog := mkFollowerLog {
  fragment_epoch : N;
  fl_base : N;
  fl_end : N;
  sealed_to : N;
}.

(** [FollowerLog::join]. *)
Definition join (fragment_epoch base : N) : FollowerLog := mkFollowerLog fragment_epoch base base 0.

(** [FollowerLog::accept_append]; the boolean is the code's answer. *)
Definition accept_append (f : FollowerLog) (epoch offset : N) : bool * FollowerLog :=
  if negb (epoch =? fragment_epoch f) || (epoch <=? sealed_to f) || negb (offset =? wrap_add (fl_end f) 1)
  then (false, f)
  else (true, mkFollowerLog (fragment_epoch f) (fl_base f) offset (sealed_to f)).

(** [FollowerLog::seal]. *)
Definition seal (f : FollowerLog) (epoch : N) : N * FollowerLog :=
  let f' := if sealed_to f <? epoch
            then mkFollowerLog (fragment_epoch f) (fl_base f) (fl_end f) epoch else f in
  (fl_end f', f').

(** [FollowerLog::truncate]. *)
Definition truncate (f : FollowerLog) (tiered : N) : FollowerLog :=
  if fl_base f <? tiered
  then mkFollowerLog (fragment_epoch f) tiered (fl_end f) (sealed_to f) else f.

Record LeaderView := mkLeaderView {
  lv_epoch : N;
  lv_ensemble : gset string;
}.

(** [ack_fleet_allowed]. *)
Definition ack_fleet_allowed (view : LeaderView) (ends : gmap string N) (next : N) : bool :=
  negb (is_empty_set (lv_ensemble view)) &&
  forallb (λ member, is_some_and (λ e, next <=? e) (ends !! member)) (members (lv_ensemble view)).

Record ReconfigPlan := mkReconfigPlan {
  tier_through : N;
  rp_record : LogRecord;
}.

(** [plan_reconfigure]. *)
Definition plan_reconfigure (current : LogRecord) (log_end : N) (ensemble : gset string) :
    option ReconfigPlan :=
  if bool_decide (lr_state current ≠ LogOpen) || is_empty_set ensemble
     || bool_decide (ensemble = lr_ensemble current)
  then None
  else Some (mkReconfigPlan log_end
    (mkLogRecord (wrap_add (lr_epoch current) 1) ensemble log_end false LogOpen None None)).

(** [start_recovery]. *)
Definition start_recovery (r : LogRecord) (claimant : string) (now_ms : N) : option LogRecord :=
  if bool_decide (lr_state r ≠ LogOpen) then None
  else Some (mkLogRecord (lr_epoch r) (lr_ensemble r) (lr_tiered r) (lr_bucket_complete r)
    LogRecovering (Some claimant) (Some now_ms)).

(** [recovery_claimed_by]. *)
Definition recovery_claimed_by (r : LogRecord) (claimant : string) : bool :=
  bool_decide (lr_state r = LogRecovering) && bool_decide (lr_claimant r = Some claimant).

(** [recovery_claim_live]. *)
Definition recovery_claim_live (r : LogRecord) (now_ms stale_after_ms : N) : bool :=
  bool_decide (lr_state r = LogRecovering) && is_some (lr_claimant r) &&
  is_some_and (λ claimed, sat_sub now_ms claimed <? stale_after_ms) (lr_claimed_ms r).

(** [refresh_recovery]. *)
Definition refresh_recovery (r : LogRecord) (claimant : string) (now_ms : N) : option LogRecord :=
  if negb (recovery_claimed_by r claimant) then None
  else Some (mkLogRecord (lr_epoch r) (lr_ensemble r) (lr_tiered r) (lr_bucket_complete r)
    (lr_state r) (lr_claimant r) (Some now_ms)).

(** [take_over_recovery]. *)
Definition take_over_recovery (r : LogRecord) (claimant : string) (now_ms stale_after_ms : N) :
    option LogRecord :=
  if bool_decide (lr_state r ≠ LogRecovering) || recovery_claim_live r now_ms stale_after_ms
  then None
  else Some (mkLogRecord (lr_epoch r) (lr_ensemble r) (lr_tiered r) (lr_bucket_complete r)
    (lr_state r) (Some claimant) (Some now_ms)).

(** [certify]. *)
Definition certify (tiered sealed_end : N) : N := N.max tiered sealed_end.

(** [finish_recovery]. *)
Definition finish_recovery (r : LogRecord) (cert : N) : option LogRecord :=
  if bool_decide (lr_state r ≠ LogRecovering) then None
  else Some (mkLogRecord (lr_epoch r) (lr_ensemble r) cert (lr_bucket_complete r)
    LogSealed None None).

Inductive TakeoverGate := BucketComplete | RecoverFirst.

(** [takeover_gate]. *)
Definition takeover_gate (r : option LogRecord) : TakeoverGate :=
  match r with
  | None => BucketComplete
  | Some r => if bool_decide (lr_state r = LogSealed) then BucketComplete else RecoverFirst
  end.

Inductive MaintainStep := CreateFresh | Reopen (epoch : N) | MaintainWait.

(** [maintain_step]. *)
Definition maintain_step (r : option LogRecord) : MaintainStep :=
  match r with
  | None => CreateFresh
  | Some r => if bool_decide (lr_state r = LogRecovering) then MaintainWait
              else Reopen (wrap_add (lr_epoch r) 1)
  end.

(** [graceful_seal_allowed]. *)
Definition graceful_seal_allowed (r : LogRecord) (epoch : N)
    (batch_in_flight per_cell_complete : bool) : bool :=
  bool_decide (lr_state r = LogOpen) && (lr_epoch r =? epoch)
  && negb batch_in_flight && per_cell_complete.

(** [bundle_credit_allowed]. *)
Definition bundle_credit_allowed (r : option LogRecord) (epoch : N) : bool :=
  is_some_and (λ r, (lr_epoch r =? epoch) && bool_decide (lr_state r = LogOpen)) r.

(** [bundle_deletable]. *)
Definition bundle_deletable (rows : list (N * N)) : bool :=
  forallb (λ row, row.1 <=? row.2) rows.

(** [fragment_closed]. *)
Definition fragment_closed (r : LogRecord) (fragment_epoch : N) : bool :=
  (fragment_epoch <? lr_epoch r)
  || ((lr_epoch r =? fragment_epoch) && bool_decide (lr_state r = LogSealed)).

(** [may_reconfigure]. *)
Definition may_reconfigure (batch_in_flight all_shipped_covered : bool) : bool :=
  negb batch_in_flight && all_shipped_covered.

(** [ShipLedger]. *)
Record ShipLedger (Batch : Type) := mkShipLedger {
  sl_epoch : N;
  covered_seq : N;
  outstanding : list (N * Batch);
}.
Arguments mkShipLedger {Batch}.
Arguments sl_epoch {Batch}.
Arguments covered_seq {Batch}.
Arguments outstanding {Batch}.

(** [ShipLedger::default]. *)
Definition ledger_default {Batch} : ShipLedger Batch := mkShipLedger 0 0 [].

(** [ShipLedger::observe_epoch]. *)
Definition observe_epoch {Batch} (l : ShipLedger Batch) (epoch : N) : ShipLedger Batch :=
  if negb (epoch =? sl_epoch l) then mkShipLedger epoch 0 [] else l.

(** [ShipLedger::shipped]. *)
Definition shipped {Batch} (l : ShipLedger Batch) (last_seq : N) (batch : Batch) : ShipLedger Batch :=
  mkShipLedger (sl_epoch l) (covered_seq l) (outstanding l ++ [(last_seq, batch)]).

(** The [while let] of [ShipLedger::advance]: the covered prefix, folded into
    the watermark, and what is left of the queue. *)
Fixpoint advance_loop {Batch} (covered : Batch → bool) (seq : N) (q : list (N * Batch)) :
    N * list (N * Batch) :=
  match q with
  | (last_seq, batch) :: q' => if covered batch then advance_loop covered last_seq q' else (seq, q)
  | [] => (seq, [])
  end.

(** [ShipLedger::advance]. *)
Definition advance {Batch} (covered : Batch → bool) (l : ShipLedger Batch) : ShipLedger Batch :=
  let (seq, q) := advance_loop covered (covered_seq l) (outstanding l) in
  mkShipLedger (sl_epoch l) seq q.

Inductive Shortfall := NoPeer | NoEligiblePeer.

(** [fleet_shortfall]. *)
Definition fleet_shortfall (live_peers now_ms : N) (last_ms : option N) (interval_ms : N) :
    option Shortfall :=
  if is_some_and (λ last, sat_sub now_ms last <? interval_ms) last_ms then None
  else Some (if live_peers =? 0 then NoPeer else NoEligiblePeer).
