(* ===== verification/LogEvict.v ===== *)
(** * Eviction of gray followers

    Models [crates/logic/log_evict.rs] and the poll that executes it,
    [evict_gray_followers] of [crates/celld/node_log.rs]: the latency windows
    of an ensemble's followers, the verdict with its evidence, the rate cap, the
    quarantine, the hedge deadline and the idle probes.

    The tracker keeps pruned deques and one clock per member.  The
    specification reads everything off the history of operations instead; the
    refinement theorem says that on clocks that do not run backwards the two
    give the same verdict, so an eviction is always backed by evidence in the
    history. *)

From S2P Require Import Prelude.

Module Evict.

Definition PROBE_FAILURES_TO_DEGRADE : N := 3.

Record EvictionPolicy := mkEvictionPolicy {
  budget_ms : N;
  sibling_factor : N;
  sustain_ms : N;
  backstop_ms : N;
  quarantine_ms : N;
  min_swap_interval_ms : N;
  window_ms : N;
  min_samples : N;
  hedge_floor_ms : N;
  hedge_factor : N;
}.

(** [EvictionPolicy::default]. *)
Definition default_policy : EvictionPolicy :=
  mkEvictionPolicy 25 4 2000 1500 300000 10000 3000 5 250 4.

Inductive Verdict := Healthy | Suspect | Evict.
#[global] Instance Verdict_eq_dec : EqDecision Verdict.
Proof. solve_decision. Defined.

Record VerdictDetail := mkVerdictDetail {
  vd_rule : string;
  vd_outstanding_ms : N;
  vd_own_median_ms : option N;
  vd_samples : N;
  vd_sibling_median_ms : option N;
  vd_threshold_ms : N;
  vd_suspect_ms : N;
}.

Record MemberHealth := mkMemberHealth {
  samples : list (N * N);
  outstanding_since : option N;
  suspect_since : option N;
  last_probe_failed_ms : option N;
  mh_probe_failures : N;
}.

(** [MemberHealth::default]. *)
Definition no_health : MemberHealth := mkMemberHealth [] None None None 0.

Definition set_samples (l : list (N * N)) (h : MemberHealth) : MemberHealth :=
  mkMemberHealth l (outstanding_since h) (suspect_since h) (last_probe_failed_ms h) (mh_probe_failures h).
Definition set_suspect (s : option N) (h : MemberHealth) : MemberHealth :=
  mkMemberHealth (samples h) (outstanding_since h) s (last_probe_failed_ms h) (mh_probe_failures h).

(** [MemberHealth::prune]: the loop pops expired samples off the front. *)
Fixpoint prune_samples (now_ms window : N) (l : list (N * N)) : list (N * N) :=
  match l with
  | [] => []
  | (at_ms, ms) :: rest =>
      if sat_add at_ms window <? now_ms then prune_samples now_ms window rest else l
  end.

Definition prune (now_ms window : N) (h : MemberHealth) : MemberHealth :=
  set_samples (prune_samples now_ms window (samples h)) h.

(** The upper median of a window of samples. *)
Definition median_of (l : list (N * N)) : option N :=
  merge_sort N.le l.*2 !! (length l / 2)%nat.

(** [MemberHealth::median_ms]. *)
Definition median_ms (h : MemberHealth) : option N := median_of (samples h).

Record FollowerHealth := mkFollowerHealth {
  fh_members : gmap string MemberHealth;
  quarantined_until : gmap string N;
  last_swap_ms : option N;
}.

(** [FollowerHealth::default]. *)
Definition no_followers : FollowerHealth := mkFollowerHealth ∅ ∅ None.

Definition set_members (m : gmap string MemberHealth) (f : FollowerHealth) : FollowerHealth :=
  mkFollowerHealth m (quarantined_until f) (last_swap_ms f).

(** The entry [members.entry(member).or_default()] and the member read
    through it. *)
Definition entry (member : string) (f : FollowerHealth) : MemberHealth :=
  default no_health (fh_members f !! member).
Definition set_entry (member : string) (h : MemberHealth) (f : FollowerHealth) : FollowerHealth :=
  set_members (<[member := h]> (fh_members f)) f.

(** [FollowerHealth::reset]. *)
Definition reset (f : FollowerHealth) : FollowerHealth := set_members ∅ f.

(** [FollowerHealth::append_started]. *)
Definition append_started (member : string) (now_ms : N) (f : FollowerHealth) : FollowerHealth :=
  let h := entry member f in
  set_entry member
    (mkMemberHealth (samples h) (Some (default now_ms (outstanding_since h))) (suspect_since h)
       (last_probe_failed_ms h) (mh_probe_failures h)) f.

(** [FollowerHealth::append_completed]. *)
Definition append_completed (member : string) (now_ms latency_ms : N) (f : FollowerHealth) : FollowerHealth :=
  let h := entry member f in
  set_entry member
    (mkMemberHealth (samples h ++ [(now_ms, latency_ms)]) None (suspect_since h)
       (last_probe_failed_ms h) 0) f.

(** [FollowerHealth::probe_failed]; the boolean is the code's answer. *)
Definition probe_failed (member : string) (now_ms : N) (f : FollowerHealth) : bool * FollowerHealth :=
  let h := entry member f in
  let failures := N.min (mh_probe_failures h + 1) u32_max in
  (PROBE_FAILURES_TO_DEGRADE <=? failures,
   set_entry member
     (mkMemberHealth (samples h) None (suspect_since h) (Some now_ms) failures) f).

(** [FollowerHealth::probe_failures] and [FollowerHealth::sample_count]. *)
Definition probe_failures (member : string) (f : FollowerHealth) : N :=
  default 0 (mh_probe_failures <$> fh_members f !! member).
Definition sample_count (member : string) (f : FollowerHealth) : N :=
  default 0 ((λ h, N.of_nat (length (samples h))) <$> fh_members f !! member).

(** The sibling scan of [verdict_detailed]: each sibling in turn is pruned in
    place, and those with samples give their median. *)
Fixpoint sibling_medians (policy : EvictionPolicy) (now_ms : N) (siblings : list string)
    (m : gmap string MemberHealth) : list N * gmap string MemberHealth :=
  match siblings with
  | [] => ([], m)
  | sibling :: rest =>
      match m !! sibling with
      | None => sibling_medians policy now_ms rest m
      | Some h =>
          let h' := prune now_ms (window_ms policy) h in
          let '(medians, m') := sibling_medians policy now_ms rest (<[sibling := h']> m) in
          (option_list (median_ms h') ++ medians, m')
      end
  end.

Definition min_opt (l : list N) : option N := min_by N.ltb l.

(** The siblings the scan keeps. *)
Definition others (member : string) (siblings : list string) : list string :=
  filter (λ s, s ≠ member) siblings.

(** [VerdictDetail::default] with the sibling's median. *)
Definition no_detail (sibling : option N) : VerdictDetail := mkVerdictDetail EmptyString 0 None 0 sibling 0 0.

Definition threshold (policy : EvictionPolicy) (sibling : option N) : N :=
  N.max (default 0 ((λ median, sat_mul median (sibling_factor policy)) <$> sibling)) (budget_ms policy).

(** The part of [verdict_detailed] after the member's entry is found: the
    verdict, its evidence and the entry it leaves. *)
Definition judge (policy : EvictionPolicy) (member : string) (siblings : list string) (now_ms : N)
    (sibling_median : option N) (h : MemberHealth) : Verdict * VerdictDetail * MemberHealth :=
  let outstanding := default 0 ((λ since, sat_sub now_ms since) <$> outstanding_since h) in
  if is_some (outstanding_since h) && (backstop_ms policy <=? outstanding)
  then (Evict, mkVerdictDetail "backstop" outstanding None 0 sibling_median 0 0, h)
  else
    let h := prune now_ms (window_ms policy) h in
    let count := N.of_nat (length (samples h)) in
    let detail own threshold suspect rule :=
      mkVerdictDetail rule outstanding own count sibling_median threshold suspect in
    match median_ms h with
    | None => (Healthy, detail None 0 0 EmptyString, h)
    | Some own_median =>
        if count <? min_samples policy
        then (Healthy, detail (Some own_median) 0 0 EmptyString, set_suspect None h)
        else if negb (is_some sibling_median) && negb (bool_decide (others member siblings = []))
        then (Healthy, detail (Some own_median) 0 0 EmptyString, set_suspect None h)
        else
          let threshold := threshold policy sibling_median in
          if own_median <=? threshold
          then (Healthy, detail (Some own_median) threshold 0 EmptyString, set_suspect None h)
          else
            let since := default now_ms (suspect_since h) in
            let suspect := sat_sub now_ms since in
            if sustain_ms policy <=? suspect
            then (Evict, detail (Some own_median) threshold suspect "sustain", set_suspect (Some since) h)
            else (Suspect, detail (Some own_median) threshold suspect EmptyString, set_suspect (Some since) h)
    end.

(** [FollowerHealth::verdict_detailed]. *)
Definition verdict_detailed (policy : EvictionPolicy) (member : string) (siblings : list string)
    (now_ms : N) (f : FollowerHealth) : Verdict * VerdictDetail * FollowerHealth :=
  let '(medians, m) := sibling_medians policy now_ms (others member siblings) (fh_members f) in
  let sibling_median := min_opt medians in
  match m !! member with
  | None => (Healthy, no_detail sibling_median, set_members m f)
  | Some h =>
      let '(v, d, h') := judge policy member siblings now_ms sibling_median h in
      (v, d, set_members (<[member := h']> m) f)
  end.

(** [FollowerHealth::verdict]. *)
Definition verdict (policy : EvictionPolicy) (member : string) (siblings : list string)
    (now_ms : N) (f : FollowerHealth) : Verdict * FollowerHealth :=
  let '(v, _, f') := verdict_detailed policy member siblings now_ms f in (v, f').

(** [FollowerHealth::evicted]. *)
Definition evicted (member : string) (now_ms : N) (f : FollowerHealth) : FollowerHealth :=
  mkFollowerHealth (delete member (fh_members f)) (quarantined_until f) (Some now_ms).

(** [FollowerHealth::append_incapable]. *)
Definition append_incapable (policy : EvictionPolicy) (member : string) (now_ms : N) (f : FollowerHealth) : FollowerHealth :=
  mkFollowerHealth (delete member (fh_members f))
    (<[member := sat_add now_ms (quarantine_ms policy)]> (quarantined_until f)) (last_swap_ms f).

(** [FollowerHealth::swap_allowed]. *)
Definition swap_allowed (policy : EvictionPolicy) (now_ms : N) (f : FollowerHealth) : bool :=
  is_none_or (λ last, min_swap_interval_ms policy <=? sat_sub now_ms last) (last_swap_ms f).

(** [FollowerHealth::hedge_deadline_ms]. *)
Definition hedge_deadline_ms (policy : EvictionPolicy) (now_ms : N) (f : FollowerHealth) : N * FollowerHealth :=
  let m := prune now_ms (window_ms policy) <$> fh_members f in
  let worst := foldl N.max 0 (values m ≫= λ h, (samples h).*2) in
  let cap := sat_mul (backstop_ms policy / 3) 2 in
  let floor := N.min (hedge_floor_ms policy) cap in
  (N.min cap (N.max floor (sat_mul (hedge_factor policy) worst)), set_members m f).

(** [FollowerHealth::quarantined]. *)
Definition quarantined (candidate : string) (now_ms : N) (f : FollowerHealth) : bool :=
  is_some_and (λ until, now_ms <? until) (quarantined_until f !! candidate).

(** [FollowerHealth::correlated_stall]. *)
Definition correlated_stall (policy : EvictionPolicy) (members : list string) (now_ms : N) (f : FollowerHealth) : bool :=
  (2 <=? N.of_nat (length members)) &&
  forallb (λ member,
    is_some_and (λ since, backstop_ms policy <=? sat_sub now_ms since)
      (fh_members f !! member ≫= outstanding_since)) members.

(** [FollowerHealth::probe_due]. *)
Definition probe_due (member : string) (now_ms quiet_ms : N) (f : FollowerHealth) : bool :=
  match fh_members f !! member with
  | None => true
  | Some h =>
      if is_some (outstanding_since h) then false
      else
        let quiet at_ms := sat_add at_ms quiet_ms <? now_ms in
        is_none_or (λ s, quiet s.1) (last (samples h)) && is_none_or quiet (last_probe_failed_ms h)
  end.

(** The loop of [evict_gray_followers] over the ensemble: verdicts in order,
    up to the first member to evict, which leaves with the swap stamped. *)
Fixpoint evict_first (policy : EvictionPolicy) (ensemble members : list string) (now_ms : N)
    (f : FollowerHealth) : option (string * VerdictDetail) * FollowerHealth :=
  match members with
  | [] => (None, f)
  | member :: rest =>
      let '(v, f1) := verdict policy member ensemble now_ms f in
      if bool_decide (v = Evict)
      then let '(_, d, f2) := verdict_detailed policy member ensemble now_ms f1 in
           (Some (member, d), evicted member now_ms f2)
      else evict_first policy ensemble rest now_ms f1
  end.

Inductive Poll := PollQuiet | PollStalled | PollEvicted (member : string) (d : VerdictDetail).

(** [evict_gray_followers] on an active shipper with these members:
    [PollStalled] suspects the node itself, and every answer but [PollQuiet]
    degrades the shipper. *)
Definition evict_gray_followers (policy : EvictionPolicy) (ensemble : list string) (now_ms : N)
    (f : FollowerHealth) : Poll * FollowerHealth :=
  if correlated_stall policy ensemble now_ms f then (PollStalled, f)
  else if negb (swap_allowed policy now_ms f) then (PollQuiet, f)
  else match evict_first policy ensemble ensemble now_ms f with
       | (Some (member, d), f') => (PollEvicted member d, f')
       | (None, f') => (PollQuiet, f')
       end.

(** ** The verdict read off the history *)

(** The operations the executor performs, in the order it takes the lock. *)
Inductive Op :=
| Started (member : string) (now_ms : N)
| Completed (member : string) (now_ms latency_ms : N)
| ProbeFailed (member : string) (now_ms : N)
| Incapable (member : string) (now_ms : N)
| Evicted (member : string) (now_ms : N)
| Reset
| Hedged (now_ms : N)
| Judged (member : string) (siblings : list string) (now_ms : N).

Definition op_time (op : Op) : option N :=
  match op with
  | Started _ t | Completed _ t _ | ProbeFailed _ t | Incapable _ t | Evicted _ t | Hedged t
  | Judged _ _ t => Some t
  | Reset => None
  end.

Definition perform (policy : EvictionPolicy) (op : Op) (f : FollowerHealth) : FollowerHealth :=
  match op with
  | Started member t => append_started member t f
  | Completed member t latency => append_completed member t latency f
  | ProbeFailed member t => (probe_failed member t f).2
  | Incapable member t => append_incapable policy member t f
  | Evicted member t => evicted member t f
  | Reset => reset f
  | Hedged t => (hedge_deadline_ms policy t f).2
  | Judged member siblings t => (verdict_detailed policy member siblings t f).2
  end.

(** A history, newest operation first, and the tracker after it. *)
Abbreviation history := (list Op).
Definition run (policy : EvictionPolicy) (h : history) : FollowerHealth := foldr (perform policy) no_followers h.

(** The times of a history do not exceed [now_ms] and do not run backwards. *)
Fixpoint ordered (now_ms : N) (h : history) : Prop :=
  match h with
  | [] => True
  | op :: h => match op_time op with Some t => t ≤ now_ms ∧ ordered t h | None => ordered now_ms h end
  end.

(** Whether an operation forgets a member. *)
Definition forgets (member : string) (op : Op) : bool :=
  match op with
  | Incapable m _ | Evicted m _ => bool_decide (m = member)
  | Reset => true
  | _ => false
  end.

(** The completed appends of a member since it was last forgotten, oldest
    first. *)
Fixpoint recorded (member : string) (h : history) : list (N * N) :=
  match h with
  | [] => []
  | op :: h =>
      if forgets member op then []
      else match op with
           | Completed m t latency =>
               if bool_decide (m = member) then recorded member h ++ [(t, latency)] else recorded member h
           | _ => recorded member h
           end
  end.

(** When the append that is still out went out. *)
Fixpoint outstanding (member : string) (h : history) : option N :=
  match h with
  | [] => None
  | op :: h =>
      if forgets member op then None
      else match op with
           | Started m t =>
               if bool_decide (m = member) then Some (default t (outstanding member h)) else outstanding member h
           | Completed m _ _ | ProbeFailed m _ =>
               if bool_decide (m = member) then None else outstanding member h
           | _ => outstanding member h
           end
  end.

(** The appends that completed within the window. *)
Definition window (policy : EvictionPolicy) (member : string) (now_ms : N) (h : history) : list (N * N) :=
  filter (λ s, now_ms ≤ sat_add s.1 (window_ms policy)) (recorded member h).

(** The fastest sibling with samples in the window. *)
Definition fastest (policy : EvictionPolicy) (member : string) (siblings : list string) (now_ms : N) (h : history) : option N :=
  min_opt (omap (λ s, median_of (window policy s now_ms h)) (others member siblings)).

Inductive Assessment := Stalled | Unmeasured | Acquitted | Over.
#[global] Instance Assessment_eq_dec : EqDecision Assessment.
Proof. solve_decision. Defined.

(** What the history says of a member: its append is out past the backstop,
    nothing completed in the window, there is no case against it, or its
    median is over the threshold. *)
Definition assess (policy : EvictionPolicy) (member : string) (siblings : list string) (now_ms : N) (h : history) : Assessment :=
  if is_some_and (λ since, backstop_ms policy <=? sat_sub now_ms since) (outstanding member h) then Stalled
  else
    let w := window policy member now_ms h in
    let sibling := fastest policy member siblings now_ms h in
    match median_of w with
    | None => Unmeasured
    | Some own =>
        if (N.of_nat (length w) <? min_samples policy)
           || (negb (is_some sibling) && negb (bool_decide (others member siblings = [])))
           || (own <=? threshold policy sibling)
        then Acquitted else Over
    end.

(** The first of the judgements that found the member over the threshold,
    since it was last acquitted or forgotten. *)
Fixpoint clock (policy : EvictionPolicy) (member : string) (h : history) : option N :=
  match h with
  | [] => None
  | op :: h =>
      if forgets member op then None
      else match op with
           | Judged m siblings t =>
               if bool_decide (m = member) then
                 match assess policy member siblings t h with
                 | Over => Some (default t (clock policy member h))
                 | Acquitted => None
                 | Stalled | Unmeasured => clock policy member h
                 end
               else clock policy member h
           | _ => clock policy member h
           end
  end.

(** The verdict the history dictates. *)
Definition spec_verdict (policy : EvictionPolicy) (member : string) (siblings : list string) (now_ms : N) (h : history) : Verdict :=
  match assess policy member siblings now_ms h with
  | Stalled => Evict
  | Over => if sustain_ms policy <=? sat_sub now_ms (default now_ms (clock policy member h)) then Evict else Suspect
  | Unmeasured | Acquitted => Healthy
  end.

(** ** The tracker follows the history *)

(** A pruned deque against the full record: what was dropped had expired. *)
Definition expired (policy : EvictionPolicy) (now_ms : N) (s : N * N) : Prop :=
  sat_add s.1 (window_ms policy) < now_ms.

Record follows (policy : EvictionPolicy) (now_ms : N) (h : history) (member : string) (e : MemberHealth) : Prop := {
  fo_samples : ∃ dropped, recorded member h = dropped ++ samples e ∧ Forall (expired policy now_ms) dropped;
  fo_outstanding : outstanding_since e = outstanding member h;
  fo_clock : suspect_since e = clock policy member h;
}.

Definition tracks (policy : EvictionPolicy) (now_ms : N) (h : history) (f : FollowerHealth) : Prop :=
  ∀ member, follows policy now_ms h member (entry member f).

Lemma sat_add_mono a b c : a ≤ b → sat_add a c ≤ sat_add b c.
Proof. unfold sat_add. lia. Qed.

Definition time_or (now_ms : N) (op : Op) : N := default now_ms (op_time op).

Lemma ordered_cons now op h : ordered now (op :: h) → time_or now op ≤ now ∧ ordered (time_or now op) h.
Proof. unfold time_or. simpl. destruct (op_time op); simpl; [done|]. by split. Qed.

Lemma recorded_sorted member now h : ordered now h → StronglySorted N.le (recorded member h).*1 ∧ Forall (λ s, s.1 ≤ now) (recorded member h).
Proof.
  revert now. induction h as [|op h IH]; intros now Ho; [split; constructor|].
  apply ordered_cons in Ho as [Ht Ho]. destruct (IH _ Ho) as [IHs IHf].
  assert (Forall (λ s, s.1 ≤ now) (recorded member h)) by (eapply Forall_impl; [done|]; simpl; lia).
  simpl. destruct (forgets member op); [split; constructor|].
  destruct op as [|m t' l| | | | | |]; try done. case_bool_decide; [|done]. unfold time_or in *; simpl in *.
  rewrite fmap_app; simpl. split.
  - apply StronglySorted_app_2; [|done|repeat constructor]. intros x1 x2 Hx1 ->%list_elem_of_singleton.
    apply list_elem_of_fmap in Hx1 as (s & -> & Hs). by apply (proj1 (Forall_forall _ _) IHf).
  - apply Forall_app; split; [done|]. by repeat constructor.
Qed.

Lemma prune_filter policy now l : StronglySorted N.le l.*1 →
  prune_samples now (window_ms policy) l = filter (λ s, now ≤ sat_add s.1 (window_ms policy)) l.
Proof.
  induction l as [|[a ms] l IH]; intros Hs; [done|]. rewrite fmap_cons in Hs. apply StronglySorted_inv in Hs as [Hs Hf]. simpl.
  destruct (N.ltb_spec (sat_add a (window_ms policy)) now) as [Hlt|Hge].
  - rewrite filter_cons_False by (simpl; lia). auto.
  - rewrite filter_cons_True by (simpl; lia). f_equal.
    symmetry. apply filter_id. apply (proj1 (Forall_fmap _ _ _)) in Hf.
    eapply Forall_impl; [exact Hf|]. intros [b ms'] Hb; simpl in *.
    pose proof (sat_add_mono a b (window_ms policy) Hb). lia.
Qed.

Lemma prune_idem now w l : prune_samples now w (prune_samples now w l) = prune_samples now w l.
Proof.
  induction l as [|[a ms] l IH]; [done|]. simpl. destruct (sat_add a w <? now) eqn:E; [done|]. simpl. by rewrite E.
Qed.

Lemma prune_dropped now w l : ∃ dropped, l = dropped ++ prune_samples now w l ∧ Forall (λ s, sat_add s.1 w < now) dropped.
Proof.
  induction l as [|[a ms] l IH]; [by exists []|]. simpl. destruct (N.ltb_spec (sat_add a w) now) as [Hlt|Hge].
  - destruct IH as (d & Hd & Hf). exists ((a, ms) :: d). simpl. rewrite <-Hd. by split; [|constructor].
  - by exists [].
Qed.

(** A pruned deque is the window. *)
Lemma follows_window policy now h member e :
  follows policy now h member e → ordered now h →
  prune_samples now (window_ms policy) (samples e) = window policy member now h.
Proof.
  intros [(d & Hd & Hf) _ _] Ho. destruct (recorded_sorted member now h Ho) as [Hs _].
  unfold window. rewrite Hd in *. rewrite fmap_app in Hs. apply StronglySorted_app in Hs as (_ & _ & Hs).
  rewrite filter_app, (filter_none _ d), (prune_filter policy) by
    (done || (eapply Forall_impl; [exact Hf|]; unfold expired; simpl; lia)).
  done.
Qed.

Lemma follows_later policy now now' h member e :
  follows policy now h member e → now ≤ now' → follows policy now' h member e.
Proof.
  intros [(d & Hd & Hf) ? ?] Hle. split; [|done..]. exists d. split; [done|].
  eapply Forall_impl; [exact Hf|]. unfold expired. lia.
Qed.

Lemma follows_prune policy now h member e :
  follows policy now h member e → follows policy now h member (prune now (window_ms policy) e).
Proof.
  intros [(d & Hd & Hf) ? ?]. split; [|done..]. simpl.
  destruct (prune_dropped now (window_ms policy) (samples e)) as (d' & Hd' & Hf').
  exists (d ++ d'). rewrite <-(assoc_L (++)), <-Hd'. split; [done|]. by apply Forall_app.
Qed.

(** The median the sibling scan reads, which pruning does not change. *)
Definition scanned (policy : EvictionPolicy) (now_ms : N) (m : gmap string MemberHealth) (s : string) : option N :=
  median_of (prune_samples now_ms (window_ms policy) (samples (default no_health (m !! s)))).

Lemma scanned_pruned policy now m x e (l : list string) :
  m !! x = Some e →
  omap (scanned policy now (<[x := prune now (window_ms policy) e]> m)) l = omap (scanned policy now m) l.
Proof.
  intros Hx. induction l as [|s l IH]; [done|]. csimpl. rewrite IH.
  assert (scanned policy now (<[x := prune now (window_ms policy) e]> m) s = scanned policy now m s) as ->; [|done].
  unfold scanned. destruct (decide (s = x)) as [->|Hn]; [|by rewrite lookup_insert_ne].
  rewrite lookup_insert_eq, Hx. simpl. by rewrite prune_idem.
Qed.

(** The sibling scan prunes the siblings and reads their windows. *)
Lemma sibling_medians_spec policy now siblings m medians m' :
  sibling_medians policy now siblings m = (medians, m') →
  medians = omap (scanned policy now m) siblings
  ∧ ∀ s, m' !! s = (if bool_decide (s ∈ siblings) then prune now (window_ms policy) <$> m !! s else m !! s).
Proof.
  revert m medians m'. induction siblings as [|x rest IH]; intros m medians m' E; simpl in E.
  { injection E as <- <-. split; [done|]. intros s. by rewrite bool_decide_eq_false_2 by apply not_elem_of_nil. }
  destruct (m !! x) as [e|] eqn:Ex; cycle 1.
  { apply IH in E as [-> Hm]. split; [by csimpl; unfold scanned at 2; rewrite Ex|]. intros s. rewrite Hm.
    destruct (decide (s = x)) as [->|Hn].
    - rewrite Ex. by repeat case_bool_decide.
    - by rewrite (bool_decide_ext (s ∈ x :: rest) (s ∈ rest)) by (rewrite elem_of_cons; naive_solver). }
  destruct (sibling_medians policy now rest _) as [ms m1] eqn:Er. injection E as <- <-.
  apply IH in Er as [-> Hm]. split.
  - rewrite scanned_pruned by done. unfold median_ms. csimpl. unfold scanned at 2. rewrite Ex. simpl.
    by destruct (median_of _).
  - intros s. rewrite Hm. destruct (decide (s = x)) as [->|Hn].
    + rewrite lookup_insert_eq, Ex. rewrite (bool_decide_eq_true_2 (x ∈ x :: rest)) by constructor.
      case_bool_decide; [|done]. simpl. unfold prune, set_samples. simpl. by rewrite prune_idem.
    + rewrite lookup_insert_ne by done.
      by rewrite (bool_decide_ext (s ∈ x :: rest) (s ∈ rest)) by (rewrite elem_of_cons; naive_solver).
Qed.

(** The evidence of an eviction names its rule. *)
Definition rule_of (a : Assessment) (v : Verdict) : string :=
  match v, a with
  | Evict, Stalled => "backstop"
  | Evict, _ => "sustain"
  | _, _ => EmptyString
  end.

Lemma judge_spec policy now h member siblings e v d e' :
  follows policy now h member e → ordered now h →
  judge policy member siblings now (fastest policy member siblings now h) e = (v, d, e') →
  v = spec_verdict policy member siblings now h
  ∧ vd_rule d = rule_of (assess policy member siblings now h) v
  ∧ follows policy now (Judged member siblings now :: h) member e'.
Proof.
  intros Hf Ho. pose proof (follows_window _ _ _ _ _ Hf Ho) as Hw.
  pose proof (follows_prune _ _ _ _ _ Hf) as [Hp Hpo Hpc]. destruct Hf as [Hs Hout Hclk].
  unfold judge, spec_verdict, assess, median_ms.
  assert (∀ b, is_some (outstanding_since e) && (b <=? default 0 ((λ since, sat_sub now since) <$> outstanding_since e))
    = is_some_and (λ since, b <=? sat_sub now since) (outstanding member h)) as ->
    by (intros; rewrite Hout; by destruct (outstanding member h)).
  (assert (∀ e0 c, (∃ dropped, recorded member h = dropped ++ samples e0 ∧ Forall (expired policy now) dropped) →
    outstanding_since e0 = outstanding member h →
    match assess policy member siblings now h with
    | Over => Some (default now (clock policy member h)) | Acquitted => None | _ => clock policy member h end = c →
    follows policy now (Judged member siblings now :: h) member (set_suspect c e0)) as Hset by
    (intros e0 c H1 H2 H3; split; simpl; rewrite ?bool_decide_eq_true_2 by done; done)).
  assert (∀ e0, e0 = set_suspect (suspect_since e0) e0) as Heta by (by intros []).
  unfold assess in Hset. revert Hset.
  destruct (is_some_and _ (outstanding member h)); intros Hset.
  { intros [= <- <- <-]. split; [done|]. split; [done|]. rewrite (Heta e). by apply Hset. }
  simpl. rewrite Hw. destruct (median_of (window policy member now h)) as [own|] eqn:Em; cycle 1.
  { intros [= <- <- <-]. split; [done|]. split; [done|]. rewrite (Heta (prune _ _ _)). by apply Hset. }
  destruct (N.of_nat (length _) <? min_samples policy); simpl in *.
  { intros [= <- <- <-]. split; [done|]. split; [done|]. by apply Hset. }
  destruct (negb (is_some _) && negb _); simpl in *.
  { intros [= <- <- <-]. split; [done|]. split; [done|]. by apply Hset. }
  destruct (own <=? _); simpl in *.
  { intros [= <- <- <-]. split; [done|]. split; [done|]. by apply Hset. }
  rewrite Hclk. destruct (sustain_ms policy <=? _); intros [= <- <- <-]; (split; [done|]); (split; [done|]); by apply Hset.
Qed.

Lemma judge_absent policy member siblings now sibling :
  judge policy member siblings now sibling no_health = (Healthy, no_detail sibling, no_health).
Proof. done. Qed.

(** An operation on one member leaves what the history says of the others. *)
Definition concerns (member : string) (op : Op) : bool :=
  match op with
  | Started m _ | Completed m _ _ | ProbeFailed m _ | Incapable m _ | Evicted m _ | Judged m _ _ =>
      bool_decide (m = member)
  | Reset => true
  | Hedged _ => false
  end.

Lemma follows_frame policy now op h member e :
  concerns member op = false → follows policy now h member e → follows policy now (op :: h) member e.
Proof.
  intros Hc [Hs Ho Hk]. split; simpl.
  all: destruct op; simpl in *; rewrite ?Hc; done.
Qed.

Lemma entry_set member member' e f :
  entry member (set_entry member' e f) = if bool_decide (member = member') then e else entry member f.
Proof.
  unfold entry, set_entry. simpl. case_bool_decide as Hm; [subst; by rewrite lookup_insert_eq|].
  by rewrite lookup_insert_ne.
Qed.

(** A step that rewrites the entry of the one member it concerns. *)
Lemma tracks_set policy now op h f member e :
  tracks policy now h f → (∀ m, m ≠ member → concerns m op = false) →
  follows policy now (op :: h) member e → tracks policy now (op :: h) (set_entry member e f).
Proof.
  intros Ht Hc He m. rewrite entry_set. case_bool_decide as Hm; [by subst|]. by apply follows_frame; auto.
Qed.

(** A step that forgets a member. *)
Lemma tracks_delete policy now op h f f' member :
  tracks policy now h f → fh_members f' = delete member (fh_members f) →
  forgets member op = true → (∀ m, m ≠ member → concerns m op = false) → tracks policy now (op :: h) f'.
Proof.
  intros Ht Hd Hf Hc m. unfold entry. rewrite Hd. destruct (decide (m = member)) as [->|Hn].
  - rewrite lookup_delete_eq. split; simpl; rewrite Hf; [|done..]. by exists [].
  - rewrite lookup_delete_ne by done. apply follows_frame; [auto|]. apply Ht.
Qed.

Lemma others_member member siblings : member ∉ others member siblings.
Proof. unfold others. rewrite list_elem_of_filter. naive_solver. Qed.

(** The scan of a tracker that follows the history finds the fastest sibling. *)
Lemma scan_fastest policy now h f member siblings medians m :
  tracks policy now h f → ordered now h →
  sibling_medians policy now (others member siblings) (fh_members f) = (medians, m) →
  min_opt medians = fastest policy member siblings now h
  ∧ m !! member = fh_members f !! member
  ∧ tracks policy now h (set_members m f).
Proof.
  intros Ht Ho E. apply sibling_medians_spec in E as [-> Hm]. split_and!.
  - unfold fastest. apply (f_equal min_opt). clear Hm. induction (others member siblings) as [|s l IH]; [done|]. csimpl. rewrite IH.
    unfold scanned at 1. fold (entry s f). by rewrite (follows_window _ _ h s _ (Ht s) Ho).
  - rewrite Hm, bool_decide_eq_false_2 by apply others_member. done.
  - intros s. unfold entry. simpl. rewrite Hm. specialize (Ht s). unfold entry in Ht.
    destruct (fh_members f !! s) as [e|]; case_bool_decide; simpl in *; try done. by apply follows_prune.
Qed.

Lemma verdict_tracks policy now h f member siblings v d f' :
  tracks policy now h f → ordered now h →
  verdict_detailed policy member siblings now f = (v, d, f') →
  v = spec_verdict policy member siblings now h
  ∧ vd_rule d = rule_of (assess policy member siblings now h) v
  ∧ tracks policy now (Judged member siblings now :: h) f'.
Proof.
  intros Ht Ho. unfold verdict_detailed.
  destruct (sibling_medians _ _ _ _) as [medians m] eqn:E.
  destruct (scan_fastest _ _ _ _ _ _ _ _ Ht Ho E) as (-> & Hm & Ht').
  destruct (judge policy member siblings now (fastest policy member siblings now h) (entry member (set_members m f)))
    as [[v0 d0] e0] eqn:Ej.
  destruct (judge_spec _ _ _ _ _ _ _ _ _ (Ht' member) Ho Ej) as (Hv & Hd & Hfol).
  pose proof (tracks_set policy now (Judged member siblings now) h (set_members m f) member e0 Ht'
    ltac:(intros ? ?; simpl; by rewrite bool_decide_eq_false_2) Hfol) as Hset.
  unfold entry in Ej. simpl in Ej. destruct (m !! member) as [e|] eqn:Em; simpl in Ej.
  - rewrite Ej. intros [= <- <- <-]. done.
  - rewrite judge_absent in Ej. injection Ej as <- <- <-. intros [= <- <- <-]. split; [done|]. split; [done|].
    intros s. specialize (Hset s). rewrite entry_set in Hset. case_bool_decide as Hs; [|done].
    subst s. unfold entry. simpl. by rewrite Em.
Qed.

Lemma perform_tracks policy now op h f :
  ordered now (op :: h) → tracks policy (time_or now op) h f → tracks policy (time_or now op) (op :: h) (perform policy op f).
Proof.
  intros [Hle Ho]%ordered_cons Ht.
  assert (∀ m m' : string, m ≠ m' → bool_decide (m' = m) = false) as Hne by (intros; by rewrite bool_decide_eq_false_2).
  destruct op as [m t|m t l|m t|m t|m t| |t|m siblings t]; unfold time_or in *; simpl in *.
  - apply tracks_set; [done|simpl; eauto|]. destruct (Ht m) as [Hs Hout Hc].
    split; simpl; rewrite ?bool_decide_eq_true_2 by done; [done|by rewrite Hout|done].
  - apply tracks_set; [done|simpl; eauto|]. destruct (Ht m) as [(d & Hd & Hf) Hout Hc].
    split; simpl; rewrite ?bool_decide_eq_true_2 by done; [|done|done].
    exists d. by rewrite Hd, <-(assoc_L (++)).
  - apply tracks_set; [done|simpl; eauto|]. destruct (Ht m) as [Hs Hout Hc].
    split; simpl; rewrite ?bool_decide_eq_true_2 by done; done.
  - eapply (tracks_delete policy t _ h f _ m); simpl; auto using bool_decide_eq_true_2.
  - eapply (tracks_delete policy t _ h f _ m); simpl; auto using bool_decide_eq_true_2.
  - intros s. unfold entry. simpl. rewrite lookup_empty. split; simpl; [|done..]. by exists [].
  - intros s. apply follows_frame; [done|]. specialize (Ht s). unfold entry in *. simpl. rewrite lookup_fmap.
    destruct (fh_members f !! s); simpl in *; [by apply follows_prune|done].
  - destruct (verdict_detailed policy m siblings t f) as [[v d] f'] eqn:E.
    by destruct (verdict_tracks _ _ _ _ _ _ _ _ _ Ht Ho E) as (_ & _ & Ht').
Qed.

Lemma run_tracks policy now h : ordered now h → tracks policy now h (run policy h).
Proof.
  revert now. induction h as [|op h IH]; intros now Ho m.
  - unfold entry. simpl. rewrite lookup_empty. split; simpl; [|done..]. by exists [].
  - eapply follows_later; [|by destruct (ordered_cons _ _ _ Ho)].
    eapply perform_tracks; [done|]. apply IH. by destruct (ordered_cons _ _ _ Ho).
Qed.

(** ** The evidence of an eviction *)

(** No operation of [h1], performed after [h0], forgets the member or acquits
    it. *)
Fixpoint unacquitted (policy : EvictionPolicy) (member : string) (h1 h0 : history) : Prop :=
  match h1 with
  | [] => True
  | op :: h1 =>
      forgets member op = false
      ∧ match op with
        | Judged m siblings t => m = member → assess policy member siblings t (h1 ++ h0) ≠ Acquitted
        | _ => True
        end
      ∧ unacquitted policy member h1 h0
  end.

Lemma clock_evidence policy member h since :
  clock policy member h = Some since →
  ∃ h1 siblings h0, h = h1 ++ Judged member siblings since :: h0
    ∧ assess policy member siblings since h0 = Over
    ∧ unacquitted policy member h1 (Judged member siblings since :: h0).
Proof.
  induction h as [|op h IH]; [done|]. cbn [clock].
  destruct (forgets member op) eqn:Ef; [done|]. intros Hc.
  assert (clock policy member h = Some since
    ∧ (∀ m siblings t, op = Judged m siblings t → m = member → assess policy member siblings t h ≠ Acquitted)
    ∨ ∃ siblings, op = Judged member siblings since ∧ assess policy member siblings since h = Over) as [[Hk Hj]|(sibs & -> & Ha)].
  { destruct op as [| | | | | | |m sibs t]; try (left; naive_solver). case_bool_decide; [subst|left; naive_solver].
    destruct (assess policy member sibs t h) eqn:Ea; try done; [left; split; [done|]; intros ? ? ? [= <- <- <-]; congruence..|].
    destruct (clock policy member h); simpl in Hc; injection Hc as ->; [left; split; [done|]; intros ? ? ? [= <- <- <-]; congruence|].
    right. by exists sibs. }
  - destruct (IH Hk) as (h1 & sibs & h0 & -> & Ha & Hu). exists (op :: h1), sibs, h0.
    split; [done|]. split; [done|]. split; [done|]. split; [|done]. destruct op; eauto.
  - by exists [], sibs, h.
Qed.

(** What an eviction of [member] at [now_ms] rests on: an append that has been
    out since [since], or a median over the threshold now and at a judgement
    [sustain_ms] ago, with no acquittal between. *)
Definition evidence (policy : EvictionPolicy) (member : string) (siblings : list string) (now_ms : N)
    (h : history) (rule : string) : Prop :=
  (rule = "backstop" ∧ ∃ since, outstanding member h = Some since ∧ backstop_ms policy ≤ now_ms - since)
  ∨ (rule = "sustain" ∧ assess policy member siblings now_ms h = Over
     ∧ (sustain_ms policy = 0 ∨ ∃ h1 earlier since h0,
          h = h1 ++ Judged member earlier since :: h0
          ∧ sustain_ms policy ≤ now_ms - since
          ∧ assess policy member earlier since h0 = Over
          ∧ unacquitted policy member h1 (Judged member earlier since :: h0))).

Lemma spec_evidence policy member siblings now h :
  spec_verdict policy member siblings now h = Evict →
  evidence policy member siblings now h (rule_of (assess policy member siblings now h) Evict).
Proof.
  unfold spec_verdict. destruct (assess policy member siblings now h) eqn:Ea; try done.
  - intros _. left. split; [done|]. unfold assess in Ea.
    destruct (outstanding member h) as [since|]; simpl in Ea.
    + destruct (N.leb_spec (backstop_ms policy) (sat_sub now since)); [by exists since|]. by repeat case_match.
    + by repeat case_match.
  - destruct (N.leb_spec (sustain_ms policy) (sat_sub now (default now (clock policy member h)))) as [Hs|]; [|done].
    intros _. right. split; [done|]. split; [done|]. unfold sat_sub in Hs.
    destruct (clock policy member h) as [since|] eqn:Ec; simpl in Hs; [|left; lia].
    right. destruct (clock_evidence _ _ _ _ Ec) as (h1 & sibs & h0 & -> & Ha & Hu). by exists h1, sibs, since, h0.
Qed.

(** ** Polls *)

(** Judging any member of the ensemble now leaves what the history says of
    them, and the verdict. *)
Lemma assess_judged policy member siblings now h m sibs t :
  assess policy member siblings now (Judged m sibs t :: h) = assess policy member siblings now h.
Proof. done. Qed.

Lemma spec_judged policy member ensemble now h m :
  spec_verdict policy member ensemble now (Judged m ensemble now :: h) = spec_verdict policy member ensemble now h.
Proof.
  unfold spec_verdict. rewrite assess_judged. destruct (assess policy member ensemble now h) eqn:Ea; try done.
  cbn [clock forgets]. case_bool_decide; [|done]. by rewrite Ea.
Qed.

Lemma verdict_run policy now h member siblings v d f' :
  ordered now h → verdict_detailed policy member siblings now (run policy h) = (v, d, f') →
  v = spec_verdict policy member siblings now h
  ∧ vd_rule d = rule_of (assess policy member siblings now h) v
  ∧ f' = run policy (Judged member siblings now :: h).
Proof.
  intros Ho E. destruct (verdict_tracks _ _ _ _ _ _ _ _ _ (run_tracks policy now h Ho) Ho E) as (Hv & Hd & _).
  split; [done|]. split; [done|]. simpl. by rewrite E.
Qed.

(** The loop of a poll is a run of judgements that ends, where it evicts, with
    the eviction of a member its history convicts. *)
Lemma evict_first_spec policy ensemble members now h r f' :
  ordered now h → evict_first policy ensemble members now (run policy h) = (r, f') →
  match r with
  | Some (member, d) =>
      member ∈ members ∧ spec_verdict policy member ensemble now h = Evict
      ∧ vd_rule d = rule_of (assess policy member ensemble now h) Evict
      ∧ ∃ js, ordered now (js ++ h) ∧ f' = run policy (Evicted member now :: js ++ h)
  | None => ∃ js, ordered now (js ++ h) ∧ f' = run policy (js ++ h)
  end.
Proof.
  revert h. induction members as [|m rest IH]; intros h Ho; simpl.
  { intros [= <- <-]. by exists []. }
  unfold verdict. destruct (verdict_detailed policy m ensemble now (run policy h)) as [[v d1] f1] eqn:E1.
  destruct (verdict_run _ _ _ _ _ _ _ _ Ho E1) as (-> & _ & ->).
  assert (ordered now (Judged m ensemble now :: h)) as Ho1 by done.
  case_bool_decide as Hv.
  - destruct (verdict_detailed policy m ensemble now (run policy (Judged m ensemble now :: h))) as [[v2 d2] f2] eqn:E2.
    destruct (verdict_run _ _ _ _ _ _ _ _ Ho1 E2) as (-> & Hd & ->). rewrite spec_judged, Hv, assess_judged in Hd.
    intros [= <- <-]. split; [constructor|]. split; [done|]. split; [done|].
    by exists [Judged m ensemble now; Judged m ensemble now].
  - intros E. apply (IH _ Ho1) in E. destruct r as [[m' d']|].
    + destruct E as (Hin & Hs & Hd & js & Hjo & ->). rewrite spec_judged in Hs. rewrite assess_judged in Hd.
      split; [by constructor|]. split; [done|]. split; [done|].
      exists (js ++ [Judged m ensemble now]). by rewrite <-(assoc_L (++)).
    + destruct E as (js & Hjo & ->). exists (js ++ [Judged m ensemble now]). by rewrite <-(assoc_L (++)).
Qed.

(** The tracker remembers the newest eviction. *)
Lemma last_swap_newest policy now h member t :
  ordered now h → Evicted member t ∈ h → ∃ last, last_swap_ms (run policy h) = Some last ∧ t ≤ last ∧ last ≤ now.
Proof.
  revert now. induction h as [|op h IH]; intros now Ho Hin; [by apply elem_of_nil in Hin|].
  destruct (ordered_cons _ _ _ Ho) as [Hle Ho'].
  apply elem_of_cons in Hin as [<-|Hin]; [by exists t|].
  destruct (IH _ Ho' Hin) as (last & Hl & Ht & Hn). change (run policy (op :: h)) with (perform policy op (run policy h)).
  destruct op as [| | | |m t'| | |m sibs t']; simpl in *; try (exists last; split; [done|]; lia).
  - unfold time_or in *. simpl in *. exists t'. split; [done|]. lia.
  - exists last. split; [|lia]. unfold verdict_detailed. repeat case_match; done.
Qed.

(** A poll performs operations of the history, so polls compose. *)
Lemma poll_is_run policy ensemble now h :
  ordered now h → ∃ ops, ordered now (ops ++ h) ∧ (evict_gray_followers policy ensemble now (run policy h)).2 = run policy (ops ++ h).
Proof.
  intros Ho. unfold evict_gray_followers. destruct (correlated_stall _ _ _ _); [by exists []|].
  destruct (negb _); [by exists []|].
  destruct (evict_first policy ensemble ensemble now (run policy h)) as [[[m d]|] f'] eqn:E;
    pose proof (evict_first_spec _ _ _ _ _ _ _ Ho E) as Hs; simpl in *.
  - destruct Hs as (_ & _ & _ & js & Hj & ->). by exists (Evicted m now :: js).
  - done.
Qed.


(** Followers [a] and [b]: [a] answers in 60 ms, [b] in 5 ms, five times each
    at [t]. *)
Definition slow_round (t : N) : history :=
  replicate 5 (Completed "a" t 60) ++ replicate 5 (Completed "b" t 5).


(** The suspect clock survives a window that empties: a member judged over the
    threshold at one instant, silent for a minute and found healthy meanwhile,
    is evicted by the sustain rule on its first slow window after that. *)
Lemma stale_clock_evicts :
  let quiet := Judged "a" ["a"; "b"] 60000 :: Judged "a" ["a"; "b"] 0 :: slow_round 0 in
  let h := slow_round 61000 ++ quiet in
  spec_verdict default_policy "a" ["a"; "b"] 60000 (Judged "a" ["a"; "b"] 0 :: slow_round 0) = Healthy
  ∧ window default_policy "a" 60000 quiet = []
  ∧ ∃ d f', evict_gray_followers default_policy ["a"; "b"] 61000 (run default_policy h) = (PollEvicted "a" d, f')
      ∧ vd_rule d = "sustain" ∧ vd_suspect_ms d = 61000.
Proof. split; [done|]. split; [done|]. vm_compute. by eexists _, _. Qed.

(** The last member of an ensemble is judged against the absolute budget alone. *)
Lemma sole_member_evicted :
  let h := replicate 5 (Completed "a" 2000 30) ++ Judged "a" ["a"] 0 :: replicate 5 (Completed "a" 0 30) in
  ∃ d f', evict_gray_followers default_policy ["a"] 2000 (run default_policy h) = (PollEvicted "a" d, f')
    ∧ vd_rule d = "sustain" ∧ vd_sibling_median_ms d = None.
Proof. vm_compute. by eexists _, _. Qed.

(** The hedge fires before the backstop evicts, whatever was measured. *)
Lemma hedge_below_backstop policy now f :
  0 < backstop_ms policy → (hedge_deadline_ms policy now f).1 < backstop_ms policy.
Proof.
  intros Hb. unfold hedge_deadline_ms. simpl. apply N.min_lt_iff. left. unfold sat_mul.
  pose proof (N.Div0.mul_div_le (backstop_ms policy) 3). lia.
Qed.

End Evict.
