(* ===== verification/Turns.v ===== *)
(** * Turns of one isolate

    Models [TurnScheduler] of [crates/celld/pool.rs]: one turn at a time runs in
    an isolate, and the lanes of its cells take turns round robin.  The
    schedule is the code's record; waiters are numbered, and a waiter is [open]
    while the receiving half of its channel exists.

    The scheduler runs as a step relation over arrivals, cancellations, grants
    that are resumed and turns that end.  A lane that waits is served after at
    most as many turns as lanes stand before it, and while anyone waits a turn
    is running or about to.  Both rest on a granted waiter being resumed; a
    waiter that is dropped between the grant and its resumption takes the token
    with it. *)

From S2P Require Import Prelude.

Module Turns.

Inductive TurnLane := Stateless | CellLane (scope : string).
#[global] Instance TurnLane_eq_dec : EqDecision TurnLane.
Proof. solve_decision. Defined.
#[global] Program Instance TurnLane_countable : Countable TurnLane :=
  inj_countable' (λ l, match l with Stateless => None | CellLane s => Some s end)
    (λ o, match o with None => Stateless | Some s => CellLane s end) _.
Next Obligation. by intros []. Qed.

Record TurnSchedule := mkTurnSchedule {
  current : option TurnLane;
  ready : list TurnLane;
  waiting : gmap TurnLane (list nat);
}.

(** [TurnScheduler::acquire] up to its await: [true] is the permit at once,
    [false] a channel queued in the lane. *)
Definition acquire (lane : TurnLane) (waiter : nat) (s : TurnSchedule) : bool * TurnSchedule :=
  match current s with
  | None => (true, mkTurnSchedule (Some lane) (ready s) (waiting s))
  | Some _ =>
      let ready' := if negb (is_some (waiting s !! lane)) && negb (bool_decide (current s = Some lane))
                    then ready s ++ [lane] else ready s in
      (false, mkTurnSchedule (current s) ready'
                (<[lane := default [] (waiting s !! lane) ++ [waiter]]> (waiting s)))
  end.

(** The loop of [TurnScheduler::release]: [None] is one of its panics, and the
    grant names the waiter whose channel took the message. *)
Fixpoint release_loop (fuel : nat) (is_open : nat → bool) (ready : list TurnLane)
    (waiting : gmap TurnLane (list nat)) : option (option nat * TurnSchedule) :=
  match fuel with
  | O => None
  | S fuel =>
      match ready with
      | [] => Some (None, mkTurnSchedule None [] waiting)
      | lane :: ready =>
          match waiting !! lane with
          | Some (w :: rest) =>
              let keep_lane := negb (bool_decide (rest = [])) in
              let waiting' := if keep_lane then <[lane := rest]> waiting else delete lane waiting in
              if is_open w then Some (Some w, mkTurnSchedule (Some lane) ready waiting')
              else release_loop fuel is_open (if keep_lane then ready ++ [lane] else ready) waiting'
          | _ => None
          end
      end
  end.

(** The waiters still queued, and one more for the last look at [ready]. *)
Definition queued (waiting : gmap TurnLane (list nat)) : nat :=
  map_fold (λ _ l n, length l + n)%nat 0%nat waiting.
Definition release_fuel (waiting : gmap TurnLane (list nat)) : nat := S (queued waiting).

(** What the loop of [release] starts from. *)
Definition requeue (lane : TurnLane) (s : TurnSchedule) : list TurnLane :=
  if is_some_and (λ l, negb (bool_decide (l = []))) (waiting s !! lane) then ready s ++ [lane] else ready s.

(** [TurnScheduler::release]. *)
Definition release (is_open : nat → bool) (s : TurnSchedule) : option (option nat * TurnSchedule) :=
  match current s with
  | None => None
  | Some lane => release_loop (release_fuel (waiting s)) is_open (requeue lane s) (waiting s)
  end.

(** ** The scheduler and its callers *)

Record Sched := mkSched {
  sched : TurnSchedule;
  (** the waiters whose receiver exists and holds no message *)
  open : gset nat;
  (** the waiter whose channel took the token and has not been polled since *)
  granted : option nat;
  (** the turn that runs *)
  running : option nat;
}.

Definition idle : Sched := mkSched (mkTurnSchedule None [] ∅) ∅ None None.

Inductive Event :=
| Arrive (lane : TurnLane) (waiter : nat)
| Cancel (waiter : nat)
| Resume (waiter : nat)
| Finish (next : option nat)
| DropGranted (waiter : nat).

(** The waiters queued anywhere. *)
Definition is_queued (w : nat) (s : TurnSchedule) : Prop := ∃ lane l, waiting s !! lane = Some l ∧ w ∈ l.

Inductive step : Sched → Event → Sched → Prop :=
| step_arrive s lane w b sc :
    w ∉ open s → granted s ≠ Some w → running s ≠ Some w → ¬ is_queued w (sched s) →
    acquire lane w (sched s) = (b, sc) →
    step s (Arrive lane w)
      (if b then mkSched sc (open s) (granted s) (Some w) else mkSched sc ({[w]} ∪ open s) (granted s) (running s))
(** the future of a waiter is dropped before its channel took the token *)
| step_cancel s w :
    w ∈ open s →
    step s (Cancel w) (mkSched (sched s) (open s ∖ {[w]}) (granted s) (running s))
| step_resume s w :
    granted s = Some w →
    step s (Resume w) (mkSched (sched s) (open s) None (Some w))
(** a turn ends, also by being dropped while it runs, and its permit releases *)
| step_finish s w g sc :
    running s = Some w → release (λ w, bool_decide (w ∈ open s)) (sched s) = Some (g, sc) →
    step s (Finish g) (mkSched sc (open s ∖ option_to_set g) g None)
(** the future of a waiter is dropped after its channel took the token *)
| step_drop_granted s w :
    granted s = Some w →
    step s (DropGranted w) (mkSched (sched s) (open s) None (running s)).

Inductive run : Sched → list Event → Sched → Prop :=
| run_nil s : run s [] s
| run_cons s e s' es s'' : step s e s' → run s' es s'' → run s (e :: es) s''.

(** ** The invariant of the schedule *)

Record schedule_ok (s : TurnSchedule) : Prop := {
  so_nodup : NoDup (ready s);
  so_waiters : ∀ lane, lane ∈ ready s → is_Some (waiting s !! lane);
  so_nonempty : ∀ lane l, waiting s !! lane = Some l → l ≠ [];
  so_listed : ∀ lane, is_Some (waiting s !! lane) → lane ∈ ready s ∨ current s = Some lane;
  so_current : ∀ lane, current s = Some lane → lane ∉ ready s;
  so_idle : current s = None → waiting s = ∅;
}.

(** The state of the loop: every ready lane has waiters and every lane with
    waiters is ready. *)
Record loop_ok (ready : list TurnLane) (waiting : gmap TurnLane (list nat)) : Prop := {
  lo_nodup : NoDup ready;
  lo_iff : ∀ lane, lane ∈ ready ↔ is_Some (waiting !! lane);
  lo_nonempty : ∀ lane l, waiting !! lane = Some l → l ≠ [];
}.

Lemma acquire_ok lane w s b s' : schedule_ok s → acquire lane w s = (b, s') → schedule_ok s'.
Proof.
  intros [Hnd Hw Hne Hl Hc Hi]. unfold acquire. destruct (current s) as [c|] eqn:Ec; intros [= <- <-].
  - split; simpl.
    + case_match eqn:E; [|done]. apply andb_true_iff in E as [E1 _]. apply NoDup_app. split; [done|]. split; [|apply NoDup_singleton].
      intros x Hx ->%list_elem_of_singleton. destruct (Hw _ Hx) as [l Hl']. by rewrite Hl' in E1.
    + intros x Hx. destruct (decide (x = lane)) as [->|Hn]; [by rewrite lookup_insert_eq|]. rewrite lookup_insert_ne by done.
      apply Hw. case_match; [|done]. apply elem_of_app in Hx as [|?%list_elem_of_singleton]; done.
    + intros x l [[<- <-]|[_ ?]]%lookup_insert_Some; [|eauto]. by destruct (default [] _).
    + intros x Hx. destruct (decide (x = lane)) as [->|Hn].
      * destruct (waiting s !! lane) as [l|] eqn:El; simpl.
        -- destruct (Hl lane) as [|]; [eauto| |right; congruence]. by left.
        -- case_bool_decide; simpl; [by right|]. left. apply elem_of_app. right. by left.
      * rewrite lookup_insert_ne in Hx by done. destruct (Hl x Hx) as [|]; [left|right; congruence].
        case_match; [apply elem_of_app; by left|done].
    + intros x [= <-]. case_match eqn:E; [|eauto]. rewrite not_elem_of_app. split; [eauto|].
      intros ->%list_elem_of_singleton. apply andb_true_iff in E as [_ E]. by rewrite bool_decide_eq_true_2 in E.
    + done.
  - rewrite Hi in * by done. split; simpl; try done.
    + intros x [l Hx]. by rewrite lookup_empty in Hx.
    + intros x [= <-] Hx. destruct (Hw lane Hx) as [l El]. by rewrite lookup_empty in El.
Qed.

Lemma queued_split lane l m : m !! lane = Some l → queued m = (length l + queued (delete lane m))%nat.
Proof. intros Hl. unfold queued. rewrite (map_fold_delete_L _ _ lane l m) by (done || intros; lia). done. Qed.

(** The lane popped by the loop loses its first waiter. *)
Definition popped (lane : TurnLane) (rest : list nat) (waiting : gmap TurnLane (list nat)) : gmap TurnLane (list nat) :=
  if negb (bool_decide (rest = [])) then <[lane := rest]> waiting else delete lane waiting.

Lemma popped_queued lane w rest m : m !! lane = Some (w :: rest) → queued m = S (queued (popped lane rest m)).
Proof.
  intros Hl. rewrite (queued_split _ _ _ Hl). unfold popped. case_bool_decide as Hr; simpl.
  - by subst.
  - rewrite (queued_split lane rest (<[lane := rest]> m)) by apply lookup_insert_eq. by rewrite delete_insert_eq.
Qed.

Lemma popped_other lane rest m x : x ≠ lane → popped lane rest m !! x = m !! x.
Proof. intros Hn. unfold popped. case_match; [by rewrite lookup_insert_ne|by rewrite lookup_delete_ne]. Qed.

Lemma popped_same lane rest m : popped lane rest m !! lane = if bool_decide (rest = []) then None else Some rest.
Proof. unfold popped. case_bool_decide; simpl; [apply lookup_delete_eq|apply lookup_insert_eq]. Qed.

Definition keep (lane : TurnLane) (rest : list nat) (ready : list TurnLane) : list TurnLane :=
  if negb (bool_decide (rest = [])) then ready ++ [lane] else ready.

Lemma loop_ok_next lane w rest ready m :
  loop_ok (lane :: ready) m → m !! lane = Some (w :: rest) → loop_ok (keep lane rest ready) (popped lane rest m).
Proof.
  intros [[Hnl Hnd]%NoDup_cons Hiff Hne] Hl. split.
  - unfold keep. case_match; [|done]. apply NoDup_app. split; [done|]. split; [|apply NoDup_singleton].
    by intros x Hx ->%list_elem_of_singleton.
  - intros x. specialize (Hiff x). rewrite elem_of_cons in Hiff. unfold keep. destruct (decide (x = lane)) as [->|Hn].
    + rewrite popped_same. case_bool_decide; simpl.
      * split; [done|by intros []].
      * rewrite elem_of_app, list_elem_of_singleton. split; [by eauto|by right].
    + rewrite popped_other by done. rewrite <-Hiff.
      case_match; [rewrite elem_of_app, list_elem_of_singleton|]; naive_solver.
  - intros x l. destruct (decide (x = lane)) as [->|Hn].
    + rewrite popped_same. case_bool_decide; [done|]. by intros [= <-].
    + rewrite popped_other by done. apply Hne.
Qed.

Lemma loop_ok_granted lane w rest ready m :
  loop_ok (lane :: ready) m → m !! lane = Some (w :: rest) →
  schedule_ok (mkTurnSchedule (Some lane) ready (popped lane rest m)).
Proof.
  intros Hok Hl. pose proof (loop_ok_next _ _ _ _ _ Hok Hl) as [_ Hiff Hne].
  destruct Hok as [[Hnl Hnd]%NoDup_cons _ _]. unfold keep in Hiff. split; simpl; try done.
  - intros x Hx. apply Hiff. case_match; [apply elem_of_app; by left|done].
  - intros x Hx. apply Hiff in Hx. case_match; [|by left]. apply elem_of_app in Hx as [| ->%list_elem_of_singleton]; [by left|by right].
  - by intros x [= <-].
Qed.

(** What the loop answers: it never panics, and ends in a good schedule whose
    queues came from the old one. *)
Lemma release_loop_ok fuel is_open ready m :
  loop_ok ready m → (queued m < fuel)%nat →
  ∃ g s', release_loop fuel is_open ready m = Some (g, s') ∧ schedule_ok s'
    ∧ (∀ lane l, waiting s' !! lane = Some l → ∃ l0, m !! lane = Some (l0 ++ l))
    ∧ match g with
      | Some w => is_open w = true ∧ is_Some (current s') ∧ ∃ lane l, m !! lane = Some l ∧ w ∈ l
      | None => current s' = None
      end.
Proof.
  revert ready m. induction fuel as [|fuel IH]; intros ready m Hok Hf; [lia|]. simpl.
  destruct ready as [|lane ready].
  { eexists None, _. split; [done|]. destruct Hok as [_ Hiff _].
    assert (m = ∅) as ->.
    { apply map_eq. intros x. rewrite lookup_empty. destruct (m !! x) eqn:E; [|done]. 
      exfalso. apply (not_elem_of_nil x), Hiff. by rewrite E. }
    split; [|by split; [intros ? ?; rewrite lookup_empty|]].
    split; simpl; try done; first [apply NoDup_nil_2|by intros ? ?%elem_of_nil|intros ? [? ?]; simplify_map_eq|by intros ? ?; rewrite lookup_empty]. }
  destruct (proj1 (lo_iff _ _ Hok lane) ltac:(left)) as [[|w rest] Hl]; [by destruct (lo_nonempty _ _ Hok _ _ Hl)|].
  rewrite Hl. fold (popped lane rest m) (keep lane rest ready). destruct (is_open w) eqn:Ho.
  - eexists (Some w), _. split; [done|]. split; [by eapply loop_ok_granted|]. split; simpl.
    + intros x l Hx. destruct (decide (x = lane)) as [->|Hn].
      * rewrite popped_same in Hx. case_bool_decide; [done|]. injection Hx as <-. by exists [w].
      * rewrite popped_other in Hx by done. by exists [].
    + split; [done|]. split; [by eexists|]. exists lane, (w :: rest). split; [done|left].
  - rewrite (popped_queued _ _ _ _ Hl) in Hf.
    destruct (IH (keep lane rest ready) (popped lane rest m)) as (g & s' & E & Hs & Hq & Hg);
      [by eapply loop_ok_next|lia|].
    assert (∀ x l, popped lane rest m !! x = Some l → ∃ l0, m !! x = Some (l0 ++ l)) as Hsub.
    { intros x l Hx. destruct (decide (x = lane)) as [->|Hn].
      - rewrite popped_same in Hx. case_bool_decide; [done|]. injection Hx as <-. by exists [w].
      - rewrite popped_other in Hx by done. by exists []. }
    exists g, s'. split; [done|]. split; [done|]. split.
    + intros x l (l0 & Hx)%Hq. apply Hsub in Hx as (l1 & Hx). exists (l1 ++ l0). by rewrite <-(assoc_L (++)).
    + destruct g as [v|]; [|done]. destruct Hg as (Hv & Hc & x & l & Hx & Hin). split; [done|]. split; [done|].
      apply Hsub in Hx as (l1 & Hx). exists x, (l1 ++ l). split; [done|]. apply elem_of_app. by right.
Qed.

(** A lane whose first waiter is open is served, or comes closer. *)
Lemma release_loop_fair fuel is_open l1 lane l2 m w rest g s' :
  loop_ok (l1 ++ lane :: l2) m → m !! lane = Some (w :: rest) → is_open w = true →
  release_loop fuel is_open (l1 ++ lane :: l2) m = Some (g, s') →
  g = Some w ∨ ∃ l1' l2', ready s' = l1' ++ lane :: l2' ∧ (length l1' < length l1)%nat
                 ∧ waiting s' !! lane = Some (w :: rest) ∧ current s' ≠ Some lane.
Proof.
  revert l1 l2 m. induction fuel as [|fuel IH]; intros l1 l2 m Hok Hl Ho; [done|]. simpl.
  destruct l1 as [|x l1]; simpl.
  { rewrite Hl, Ho. intros [= <- _]. by left. }
  change ((x :: l1) ++ lane :: l2) with (x :: (l1 ++ lane :: l2)) in Hok.
  assert (x ≠ lane) as Hne.
  { intros ->. destruct Hok as [Hnd _ _]. apply NoDup_cons in Hnd as [Hin _]. destruct Hin. apply elem_of_app. right. left. }
  destruct (proj1 (lo_iff _ _ Hok x) ltac:(left)) as [[|v rest'] Hx]; [by destruct (lo_nonempty _ _ Hok _ _ Hx)|].
  rewrite Hx. fold (popped x rest' m) (keep x rest' (l1 ++ lane :: l2)). destruct (is_open v).
  - intros [= <- <-]. right. exists l1, l2. simpl. split; [done|]. split; [lia|]. split; [by rewrite popped_other|congruence].
  - intros E. pose proof (loop_ok_next _ _ _ _ _ Hok Hx) as Hok'.
    assert (∃ l2', keep x rest' (l1 ++ lane :: l2) = l1 ++ lane :: l2') as [l2' Hk].
    { unfold keep. case_match; [|by exists l2]. exists (l2 ++ [x]). by rewrite <-(assoc_L (++)). }
    rewrite Hk in E, Hok'.
    destruct (IH l1 l2' (popped x rest' m) Hok' ltac:(by rewrite popped_other) Ho E) as [|(l1' & l3 & Hr & Hlen & Hw)].
    + by left.
    + right. exists l1', l3. split; [done|]. split; [lia|done].
Qed.

Lemma release_start_ok s lane : schedule_ok s → current s = Some lane → loop_ok (requeue lane s) (waiting s).
Proof.
  intros [Hnd Hw Hne Hl Hc Hi] Hcur. unfold requeue. split; [| |done].
  - case_match; [|done]. apply NoDup_app. split; [done|]. split; [|apply NoDup_singleton].
    intros x Hx ->%list_elem_of_singleton. by eapply Hc.
  - intros x. split; intros Hx.
    + destruct (is_some_and _ _) eqn:E; [|auto]. apply elem_of_app in Hx as [| ->%list_elem_of_singleton]; [auto|].
      destruct (waiting s !! lane); [by eexists|done].
    + destruct (Hl x Hx) as [Hr|Hx']; [case_match; [apply elem_of_app; by left|done]|].
      assert (x = lane) as -> by congruence. destruct Hx as [l El]. rewrite El. simpl.
      rewrite bool_decide_eq_false_2 by eauto. simpl. apply elem_of_app. right. by left.
Qed.

Lemma release_ok is_open s :
  schedule_ok s → is_Some (current s) →
  ∃ g s', release is_open s = Some (g, s') ∧ schedule_ok s' ∧ (is_Some g ↔ is_Some (current s'))
    ∧ (∀ w, is_queued w s' → is_queued w s) ∧ (∀ w, g = Some w → is_open w = true ∧ is_queued w s).
Proof.
  intros Hs [lane Hc]. unfold release. rewrite Hc.
  destruct (release_loop_ok (release_fuel (waiting s)) is_open (requeue lane s) (waiting s)) as (g & s' & E & Hs' & Hq & Hg).
  { by apply release_start_ok. } { unfold release_fuel. lia. }
  exists g, s'. split; [done|]. split; [done|]. split; [|split].
  - destruct g; [naive_solver|]. rewrite Hg. done.
  - intros w (x & l & (l0 & Hx)%Hq & Hin). exists x, (l0 ++ l). split; [done|]. apply elem_of_app. by right.
  - intros w ->. destruct Hg as (Ho & _ & Hin). by split.
Qed.

(** ** Runs in which granted waiters are resumed *)

Definition resumed (es : list Event) : Prop := Forall (λ e, ∀ w, e ≠ DropGranted w) es.

(** The token is with one granted or running turn, or nobody has it. *)
Record turns_ok (s : Sched) : Prop := {
  to_sched : schedule_ok (sched s);
  to_token : match granted s, running s with
             | Some _, Some _ => False
             | None, None => current (sched s) = None
             | _, _ => is_Some (current (sched s))
             end;
}.

Lemma turns_step s e s' : turns_ok s → step s e s' → (∀ w, e ≠ DropGranted w) → turns_ok s'.
Proof.
  intros [Hs Ht] Hstep Hd.
  destruct Hstep as [s lane w b sc Ho Hg Hr Hq E|s w Hw|s w Hg|s w g sc Hr E|s w Hg]; [| | | |by destruct (Hd w)].
  - pose proof (acquire_ok _ _ _ _ _ Hs E) as Hs'. unfold acquire in E.
    destruct (current (sched s)) eqn:Ec; injection E as <- <-; split; simpl; try done.
    destruct (granted s), (running s); try done; by destruct Ht.
  - by split.
  - split; simpl; [done|]. rewrite Hg in Ht. by destruct (running s).
  - assert (is_Some (current (sched s))) as Hc by (rewrite Hr in Ht; by destruct (granted s)).
    destruct (release_ok (λ w, bool_decide (w ∈ open s)) (sched s) Hs Hc) as (g' & sc' & E' & Hs' & Hiff & _).
    rewrite E in E'. injection E' as <- <-. split; simpl; [done|]. destruct g; [by apply Hiff|].
    destruct (current sc) eqn:Ec; [|done]. by destruct (proj2 Hiff ltac:(eauto)).
Qed.

Lemma turns_run s es s' : turns_ok s → run s es s' → resumed es → turns_ok s'.
Proof.
  intros Hs Hr. revert Hs. induction Hr as [s|s e s' es s'' He _ IH]; intros Hs Hd; [done|].
  apply Forall_cons in Hd as [Hd Hes]. apply IH; [|done]. by eapply turns_step.
Qed.

Lemma idle_ok : turns_ok idle.
Proof.
  split; simpl; [|done]. split; simpl; try done; first [apply NoDup_nil_2|by intros ? ?%elem_of_nil|intros ? [? ?]; simplify_map_eq|by intros ? ?; rewrite lookup_empty].
Qed.

(** The first waiter of a ready lane, with at most [i] lanes before it. *)
Definition stands (i : nat) (lane : TurnLane) (w : nat) (s : Sched) : Prop :=
  w ∈ open s ∧ (∃ rest, waiting (sched s) !! lane = Some (w :: rest))
  ∧ ∃ l1 l2, ready (sched s) = l1 ++ lane :: l2 ∧ (length l1 ≤ i)%nat.

Definition is_finish (e : Event) : bool := match e with Finish _ => true | _ => false end.
Definition finishes (es : list Event) : nat := length (filter (λ e, is_finish e = true) es).

Lemma stands_step i lane w s e s' :
  turns_ok s → stands i lane w s → step s e s' → e ≠ Cancel w → e ≠ Finish (Some w) → (∀ v, e ≠ DropGranted v) →
  if is_finish e then (0 < i)%nat ∧ stands (i - 1) lane w s' else stands i lane w s'.
Proof.
  intros [Hs Ht] (Hop & (rest & Hw) & l1 & l2 & Hr & Hi) Hstep Hnc Hnf Hnd.
  destruct Hstep as [s x v b sc Ho Hg Hru Hq E|s v Hv|s v Hg|s v g sc Hru E|s v Hg]; simpl; [| | | |by destruct (Hnd v)].
  - unfold acquire in E. destruct (current (sched s)) eqn:Ec; injection E as <- <-; simpl; cycle 1.
    { rewrite (so_idle _ Hs Ec) in Hw. by rewrite lookup_empty in Hw. }
    split; [set_solver|]. simpl. split.
    + destruct (decide (x = lane)) as [->|Hn]; [|rewrite lookup_insert_ne by done; eauto].
      rewrite lookup_insert_eq, Hw. simpl. eauto.
    + destruct (negb _ && negb _); [|eauto]. rewrite Hr. exists l1, (l2 ++ [x]). by rewrite <-(assoc_L (++)).
  - split; [|split; [by exists rest|by exists l1, l2]]. simpl. apply elem_of_difference. split; [done|]. intros ->%elem_of_singleton. done.
  - split; [done|]. split; [by exists rest|by exists l1, l2].
  - unfold release in E. destruct (current (sched s)) as [c|] eqn:Ec; [|done].
    pose proof (release_start_ok _ _ Hs Ec) as Hok.
    assert (∃ l2', requeue c (sched s) = l1 ++ lane :: l2') as [l2' Hq].
    { unfold requeue. rewrite Hr. destruct (is_some_and _ _); [|eauto]. exists (l2 ++ [c]). by rewrite <-(assoc_L (++)). }
    rewrite Hq in *.
    destruct (release_loop_fair _ _ _ _ _ _ _ _ _ _ Hok Hw (bool_decide_eq_true_2 _ Hop) E) as [->|(l1' & l3 & Hr' & Hlen & Hw' & _)]; [done|].
    split; [lia|]. split; [|split; [eauto|]]; simpl.
    { apply elem_of_difference. split; [done|]. destruct g; simpl; [|set_solver]. intros ->%elem_of_singleton. done. }
    exists l1', l3. split; [done|]. lia.
Qed.

Lemma stands_run i lane w s es s' :
  turns_ok s → stands i lane w s → run s es s' → resumed es → Cancel w ∉ es → Finish (Some w) ∉ es →
  (finishes es ≤ i)%nat ∧ stands (i - finishes es) lane w s'.
Proof.
  intros Hs Hst Hr. revert i Hs Hst. induction Hr as [s|s e s' es s'' He _ IH]; intros i Hs Hst Hd Hc Hf.
  { unfold finishes. simpl. rewrite Nat.sub_0_r. split; [lia|done]. }
  apply Forall_cons in Hd as [Hd Hes]. apply not_elem_of_cons in Hc as [Hc Hces]. apply not_elem_of_cons in Hf as [Hf Hfes].
  pose proof (stands_step _ _ _ _ _ _ Hs Hst He (not_eq_sym Hc) (not_eq_sym Hf) Hd) as Hnext.
  pose proof (turns_step _ _ _ Hs He Hd) as Hs'. unfold finishes in *. simpl in *.
  destruct (is_finish e) eqn:Ee.
  - rewrite filter_cons_True by done. simpl. destruct Hnext as [Hi Hst'].
    destruct (IH _ Hs' Hst' Hes Hces Hfes) as [Hle Hst'']. split; [lia|].
    by replace (i - S (length (filter (λ e, is_finish e = true) es)))%nat
      with (i - 1 - length (filter (λ e, is_finish e = true) es))%nat by lia.
  - rewrite filter_cons_False by congruence. by apply IH.
Qed.


(** Three cells ask for a turn in order; the first runs. *)
Definition lane_a : TurnLane := CellLane "a".
Definition lane_b : TurnLane := CellLane "b".
Definition lane_c : TurnLane := CellLane "c".

Lemma step_arrive_wait s lane w sc :
  w ∉ open s → granted s ≠ Some w → running s ≠ Some w → ¬ is_queued w (sched s) →
  acquire lane w (sched s) = (false, sc) →
  step s (Arrive lane w) (mkSched sc ({[w]} ∪ open s) (granted s) (running s)).
Proof. intros H1 H2 H3 H4 H5. apply (step_arrive s lane w false sc H1 H2 H3 H4 H5). Qed.

Lemma step_arrive_run s lane w sc :
  w ∉ open s → granted s ≠ Some w → running s ≠ Some w → ¬ is_queued w (sched s) →
  acquire lane w (sched s) = (true, sc) → step s (Arrive lane w) (mkSched sc (open s) (granted s) (Some w)).
Proof. intros H1 H2 H3 H4 H5. apply (step_arrive s lane w true sc H1 H2 H3 H4 H5). Qed.

Definition three_wait : Sched :=
  mkSched (mkTurnSchedule (Some lane_a) [lane_b; lane_c] (<[lane_c := [2%nat]]> (<[lane_b := [1%nat]]> ∅)))
    ({[2%nat]} ∪ ({[1%nat]} ∪ ∅)) None (Some 0%nat).

Lemma three_wait_run : run idle [Arrive lane_a 0; Arrive lane_b 1; Arrive lane_c 2] three_wait.
Proof.
  eapply run_cons; [eapply step_arrive_run; [set_solver|done|done| |done]|].
  { intros (lane & l & Hl & _). simpl in Hl. by rewrite lookup_empty in Hl. }
  eapply run_cons; [eapply step_arrive_wait; [set_solver|done|done| |done]|].
  { intros (lane & l & Hl & _). simpl in Hl. by rewrite lookup_empty in Hl. }
  eapply run_cons; [eapply step_arrive_wait; [set_solver|done|done| |reflexivity]|].
  { intros (lane & l & Hl & Hin). simpl in Hl. apply lookup_insert_Some in Hl as [[_ <-]|[_ Hl]]; [set_solver|].
    by rewrite lookup_empty in Hl. }
  apply run_nil.
Qed.


(** A waiter dropped between the message in its channel and its next poll
    strands the token: no turn ever runs in the isolate again, and every waiter
    that is queued or arrives waits forever. *)
Lemma stranded_run s es s' :
  is_Some (current (sched s)) → granted s = None → running s = None → run s es s' →
  is_Some (current (sched s')) ∧ granted s' = None ∧ running s' = None.
Proof.
  intros Hc Hg Hr Hrun. revert Hc Hg Hr. induction Hrun as [s|s e s' es s'' He _ IH]; intros Hc Hg Hr; [done|].
  apply IH; destruct He as [s lane w b sc _ _ _ _ E|s w _|s w Hg'|s w g sc Hr' _|s w Hg']; simpl in *; try congruence;
    unfold acquire in E; destruct (current (sched s)) eqn:Ec; (by destruct Hc) || (injection E as <- <-; simpl; done).
Qed.

Lemma dropped_grant_strands :
  ∃ s, run idle [Arrive lane_a 0; Arrive lane_b 1; Arrive lane_c 2; Finish (Some 1%nat); DropGranted 1] s
    ∧ 2%nat ∈ open s ∧ waiting (sched s) !! lane_c = Some [2%nat]
    ∧ ∀ es s', run s es s' → granted s' = None ∧ running s' = None.
Proof.
  destruct (release (λ w, bool_decide (w ∈ open three_wait)) (sched three_wait)) as [[g sc]|] eqn:E; [|by vm_compute in E].
  assert (g = Some 1%nat ∧ current sc = Some lane_b ∧ waiting sc !! lane_c = Some [2%nat]) as (-> & Hc & Hw)
    by (vm_compute in E; by injection E as <- <-).
  exists (mkSched sc (open three_wait ∖ option_to_set (Some 1%nat)) None None). split; [|split; [|split; [done|]]].
  - assert (∀ s1 s2 s3 l1 l2, run s1 l1 s2 → run s2 l2 s3 → run s1 (l1 ++ l2) s3) as Happ.
    { intros s1 s2 s3 l1 l2 H1 H2. induction H1; [done|]. econstructor; eauto. }
    apply (Happ _ _ _ [Arrive lane_a 0; Arrive lane_b 1; Arrive lane_c 2] _ three_wait_run).
    eapply run_cons; [by eapply (step_finish three_wait 0%nat)|]. eapply run_cons; [by eapply step_drop_granted|]. apply run_nil.
  - simpl. set_solver.
  - intros es s' Hr. eapply (stranded_run _ es s') in Hr; [|simpl; by rewrite Hc|done|done]. tauto.
Qed.

End Turns.
