(* ===== verification/Pool.v ===== *)
(** * The isolate pool

    Models [crates/logic/isolate.rs], the placement, retirement and reclaim
    decisions, and the shell around them in [crates/celld/pool.rs]: slots with
    their counters, growth under the cap, admission, cell placement, maintenance
    and condemnation.

    The shell runs as a step relation.  An admission that shares the maintenance
    guard observes, decides and affiliates in separate steps, so claims are
    dropped, turns run and isolates are condemned in between; cell placement,
    bounded admission and maintenance exclude it.  One observation of one slot
    is atomic.  The theorem: nothing ever enters an isolate that was freed, no
    heap holds more cells than its limit, and a stateless pool stays under its
    ceiling. *)

From S2P Require Import Prelude.

Module Isolates.

(** ** Decisions *)

Record IsolateLoad := mkIsolateLoad {
  il_turns : N;
  il_requests : N;
  il_cells : N;
  il_retiring : bool;
}.

Record PoolLimits := mkPoolLimits {
  grow_at : N;
  shrink_under : N;
  max_stateless : N;
  max_requests : option N;
  max_cells : N;
}.

Record PoolLoad := mkPoolLoad {
  isolates : list IsolateLoad;
  limits : PoolLimits;
}.

Inductive Refusal := NodeFull | NodePressured.
Inductive Placement := Existing (id : nat) | Grow.

(** [PoolLoad::live] and [PoolLoad::live_count]. *)
Definition live (load : PoolLoad) : list (nat * IsolateLoad) :=
  filter (λ x, il_retiring x.2 = false) (imap pair (isolates load)).
Definition live_count (load : PoolLoad) : N := N.of_nat (length (live load)).

Definition least_turns (load : PoolLoad) : option (nat * IsolateLoad) :=
  min_by (λ a b, il_turns a.2 <? il_turns b.2) (live load).

(** [place_without_growing]. *)
Definition place_without_growing (load : PoolLoad) : Placement :=
  match least_turns load with
  | Some (id, _) => Existing id
  | None => Grow
  end.

(** [place]. *)
Definition place (load : PoolLoad) : Placement :=
  match least_turns load with
  | None => Grow
  | Some (id, l) =>
      if (grow_at (limits load) <=? il_turns l) && (live_count load <? max_stateless (limits load))
      then Grow else Existing id
  end.

(** [admit]. *)
Definition admit_request (load : PoolLoad) (shedding : bool) : result Placement Refusal :=
  let held := foldl wrap_add 0 (il_requests <$> isolates load) in
  if is_some_and (λ max, max <=? held) (max_requests (limits load))
  then Err (if shedding then NodePressured else NodeFull)
  else Ok (if shedding then place_without_growing load else place load).

(** [place_cell]: the fullest isolate with room, the oldest among equals. *)
Definition place_cell (load : PoolLoad) : Placement :=
  match max_by (λ a b : nat * IsolateLoad,
                  (il_cells a.2 <? il_cells b.2) || ((il_cells a.2 =? il_cells b.2) && Nat.ltb b.1 a.1))
               (filter (λ x, (il_cells x.2 <? max_cells (limits load)) = true) (live load)) with
  | None => Grow
  | Some (id, _) => Existing id
  end.

(** [may_free]. *)
Definition may_free (l : IsolateLoad) : bool :=
  il_retiring l && (il_turns l =? 0) && (il_requests l =? 0) && (il_cells l =? 0).

(** [retire]. *)
Definition retire (load : PoolLoad) : option nat :=
  if live_count load =? 0 then None
  else
    let turns := foldl wrap_add 0 (il_turns ∘ snd <$> live load) in
    let remaining := live_count load - 1 in
    if sat_mul remaining (shrink_under (limits load)) <? turns then None
    else fst <$> min_by (λ a b : nat * IsolateLoad,
                   (il_requests a.2 <? il_requests b.2) || ((il_requests a.2 =? il_requests b.2) && Nat.ltb b.1 a.1))
                 (filter (λ x, il_cells x.2 = 0) (live load)).

(** ** The shell *)

(** [Slot]: its counters, its retiring mark and whether its worker is there. *)
Record Slot := mkSlot {
  s_turns : N;
  s_requests : N;
  s_cells : N;
  s_retiring : bool;
  s_worker : bool;
}.

(** [Slot::observe]. *)
Definition observe (s : Slot) : IsolateLoad := mkIsolateLoad (s_turns s) (s_requests s) (s_cells s) (s_retiring s).

Definition set_turns (n : N) (s : Slot) : Slot := mkSlot n (s_requests s) (s_cells s) (s_retiring s) (s_worker s).
Definition set_requests (n : N) (s : Slot) : Slot := mkSlot (s_turns s) n (s_cells s) (s_retiring s) (s_worker s).
Definition set_cells (n : N) (s : Slot) : Slot := mkSlot (s_turns s) (s_requests s) n (s_retiring s) (s_worker s).
(** [Slot::condemn] and the mark of a retirement. *)
Definition mark_retiring (s : Slot) : Slot := mkSlot (s_turns s) (s_requests s) (s_cells s) true (s_worker s).
Definition free_worker (s : Slot) : Slot := mkSlot (s_turns s) (s_requests s) (s_cells s) (s_retiring s) false.

(** [Slot::affiliate] and [Slot::house]. *)
Definition affiliate (s : Slot) : Slot := set_requests (s_requests s + 1) s.
Definition house (s : Slot) : Slot := set_cells (s_cells s + 1) s.

(** [Slot::is_reusable]; the worker's lock is free where no turn runs. *)
Definition is_reusable (s : Slot) : bool :=
  may_free (observe s) && (s_cells s =? 0) && negb (s_worker s).

(** The slot [Pool::grow] builds. *)
Definition fresh_slot (retired : bool) : Slot := mkSlot 0 0 0 retired true.

Definition live_slots (slots : list Slot) : N := N.of_nat (length (filter (λ s, s_retiring s = false) slots)).

(** [Pool::grow] under the slots' lock: the slots after it and the index of the
    slot it returns. *)
Definition grow (cap : option N) (retired : bool) (slots : list Slot) : list Slot * nat :=
  let built :=
    match list_find (λ s, is_reusable s = true) slots with
    | Some (id, _) => (<[id := fresh_slot retired]> slots, id)
    | None => (slots ++ [fresh_slot retired], length slots)
    end in
  if is_some_and (λ cap, cap <=? live_slots slots) cap
  then match list_find (λ s, s_retiring s = false) slots with
       | Some (id, _) => (slots, id)
       | None => built
       end
  else built.

(** [Pool::resolve]. *)
Definition resolve (p : Placement) (cap : option N) (retired : bool) (slots : list Slot) : list Slot * nat :=
  match p with
  | Existing id => (slots, id)
  | Grow => grow cap retired slots
  end.

(** [Pool::retire_one], by the index [retire] chose. *)
Definition retire_one (lim : PoolLimits) (slots : list Slot) : option (list Slot) :=
  match retire (mkPoolLoad (observe <$> slots) lim) with
  | Some id => Some (alter mark_retiring id slots)
  | None => None
  end.

(** [Pool::free_retired]; [locked] are the slots whose worker another reader
    holds, which the pass skips. *)
Definition free_retired (locked : nat → bool) (slots : list Slot) : list Slot :=
  imap (λ i s, if may_free (observe s) && negb (locked i) then free_worker s else s) slots.

(** [Pool::reap]. *)
Definition reap (lim : PoolLimits) (locked : nat → bool) (slots : list Slot) : list Slot :=
  free_retired locked (default slots (retire_one lim slots)).

(** The loop of [Pool::reap_empty]; each turn retires a live slot. *)
Fixpoint retire_while (fuel : nat) (lim : PoolLimits) (slots : list Slot) : option (list Slot) :=
  match fuel with
  | O => None
  | S fuel =>
      match retire_one lim slots with
      | Some slots => retire_while fuel lim slots
      | None => Some slots
      end
  end.

(** [Pool::reap_empty]. *)
Definition reap_empty (lim : PoolLimits) (locked : nat → bool) (slots : list Slot) : option (list Slot) :=
  free_retired locked <$> retire_while (S (N.to_nat (live_slots slots))) lim slots.

(** [Pool::retire_all]. *)
Definition retire_all (locked : nat → bool) (slots : list Slot) : list Slot :=
  free_retired locked (mark_retiring <$> slots).

(** ** The pool in operation *)

Record Pool := mkPool {
  slots : list Slot;
  retired : bool;
  (** admissions that decided and have not yet affiliated *)
  pending : list Placement;
}.

Definition set_slots (l : list Slot) (p : Pool) : Pool := mkPool l (retired p) (pending p).

(** What a scan of the slots may report while claims come and go: a slot seen
    live has its worker. *)
Definition seen (s : Slot) (l : IsolateLoad) : Prop := il_retiring l = false → s_worker s = true.
(** And under the exclusive guard no cell arrives. *)
Definition seen_exclusive (s : Slot) (l : IsolateLoad) : Prop := seen s l ∧ s_cells s ≤ il_cells l.

(** A claim on a slot: an affiliation or a residency. *)
Definition claimed (s : Slot) : Prop := 0 < s_requests s ∨ 0 < s_cells s.

Section operation.
Context (lim : PoolLimits).

Inductive Event := EvAdmitted | EvCellPlaced | EvOther.

Inductive step : Pool → Event → Pool → Prop :=
(** [Pool::warm] *)
| step_warm p :
    step p EvOther (set_slots (grow (Some (max_stateless lim)) (retired p) (slots p)).1 p)
(** [Pool::admit_locked]: the decision, under the guard *)
| step_admit p loads shedding placement :
    Forall2 seen (slots p) loads → admit_request (mkPoolLoad loads lim) shedding = Ok placement →
    step p EvOther (mkPool (slots p) (retired p) (placement :: pending p))
(** its end: the slot is found or built, and the request affiliates *)
| step_affiliate p before placement after slots' id :
    pending p = before ++ placement :: after →
    resolve placement (Some (max_stateless lim)) (retired p) (slots p) = (slots', id) →
    step p EvAdmitted (mkPool (alter affiliate id slots') (retired p) (before ++ after))
(** its end where the build fails *)
| step_build_failed p before placement after :
    pending p = before ++ placement :: after → step p EvOther (mkPool (slots p) (retired p) (before ++ after))
(** [Pool::place_cell], which excludes admissions *)
| step_place_cell p loads slots' id :
    pending p = [] → Forall2 seen_exclusive (slots p) loads →
    resolve (place_cell (mkPoolLoad loads lim)) None (retired p) (slots p) = (slots', id) →
    step p EvCellPlaced (set_slots (alter house id slots') p)
(** an event of a cell or a facet affiliates through the claim it comes from *)
| step_claim p id s :
    slots p !! id = Some s → claimed s → step p EvOther (set_slots (<[id := affiliate s]> (slots p)) p)
(** a turn is counted and ends; who asks for it holds a claim *)
| step_turn p id s :
    slots p !! id = Some s → claimed s → step p EvOther (set_slots (<[id := set_turns (s_turns s + 1) s]> (slots p)) p)
| step_turn_end p id s n :
    slots p !! id = Some s → s_turns s = n + 1 → step p EvOther (set_slots (<[id := set_turns n s]> (slots p)) p)
(** an [Affiliation] and a [Residency] are dropped *)
| step_request_end p id s n :
    slots p !! id = Some s → s_requests s = n + 1 → step p EvOther (set_slots (<[id := set_requests n s]> (slots p)) p)
| step_cell_end p id s n :
    slots p !! id = Some s → s_cells s = n + 1 → step p EvOther (set_slots (<[id := set_cells n s]> (slots p)) p)
| step_condemn p id s :
    slots p !! id = Some s → step p EvOther (set_slots (<[id := mark_retiring s]> (slots p)) p)
(** maintenance, which excludes admissions *)
| step_reap p locked : pending p = [] → step p EvOther (set_slots (reap lim locked (slots p)) p)
| step_free_drained p locked : pending p = [] → step p EvOther (set_slots (free_retired locked (slots p)) p)
| step_reap_empty p locked slots' :
    pending p = [] → reap_empty lim locked (slots p) = Some slots' → step p EvOther (set_slots slots' p)
| step_retire_all p locked : pending p = [] → step p EvOther (mkPool (retire_all locked (slots p)) true []).

Inductive reachable : bool → Pool → Prop :=
| reach_new : reachable false (mkPool [] false [])
| reach_step cells p e p' :
    reachable cells p → step p e p' →
    reachable (cells || match e with EvCellPlaced => true | _ => false end) p'.

(** ** The invariant *)

(** A freed slot is retiring and drained. *)
Definition slot_ok (s : Slot) : Prop :=
  (s_worker s = false → may_free (observe s) = true) ∧ (1 ≤ max_cells lim → s_cells s ≤ max_cells lim).

(** The slot a pending admission will use has its worker. *)
Definition pending_ok (p : Pool) (placement : Placement) : Prop :=
  match placement with
  | Existing id => ∃ s, slots p !! id = Some s ∧ s_worker s = true
  | Grow => True
  end.

Record pool_ok (cells : bool) (p : Pool) : Prop := {
  po_slots : Forall slot_ok (slots p);
  po_pending : Forall (pending_ok p) (pending p);
  po_ceiling : cells = false → live_slots (slots p) ≤ N.max 1 (max_stateless lim);
}.

Lemma elem_of_live load i l : (i, l) ∈ live load → isolates load !! i = Some l ∧ il_retiring l = false.
Proof.
  unfold live. rewrite list_elem_of_filter. intros [Hr Hin]. simpl in Hr.
  apply elem_of_lookup_imap_1 in Hin as (j & x & [= -> ->] & Hx). done.
Qed.

Lemma least_turns_live load id l : least_turns load = Some (id, l) → isolates load !! id = Some l ∧ il_retiring l = false.
Proof. intros H%min_by_elem_of. by apply elem_of_live. Qed.

(** An admission places on a slot it saw live. *)
Lemma admit_existing load shedding id :
  admit_request load shedding = Ok (Existing id) → ∃ l, isolates load !! id = Some l ∧ il_retiring l = false.
Proof.
  unfold admit_request, place_without_growing, place. case_match; [done|].
  destruct (least_turns load) as [[i l]|] eqn:E; destruct shedding; try done; try case_match; try done;
    intros [= <-]; exists l; by apply least_turns_live.
Qed.

Lemma place_cell_existing load id :
  place_cell load = Existing id →
  ∃ l, isolates load !! id = Some l ∧ il_retiring l = false ∧ il_cells l < max_cells (limits load).
Proof.
  unfold place_cell. destruct (max_by _ _) as [[i l]|] eqn:E; [|done]. intros [= <-].
  assert ((i, l) ∈ filter (λ x, (il_cells x.2 <? max_cells (limits load)) = true) (live load)) as Hin.
  { destruct (filter _ _) as [|x rest]; [done|]. simpl in E. injection E as <-. apply foldl_keep_elem_of. }
  apply list_elem_of_filter in Hin as [Hc [Hl Hr]%elem_of_live]. exists l. split; [done|]. split; [done|]. by apply N.ltb_lt.
Qed.

Lemma retire_live load id : retire load = Some id → ∃ l, isolates load !! id = Some l ∧ il_retiring l = false ∧ il_cells l = 0.
Proof.
  unfold retire. case_match; [done|]. case_match; [done|]. intros H1. apply fmap_Some in H1 as ([i l] & Hm & ->).
  apply min_by_elem_of, list_elem_of_filter in Hm as [Hc [Hl Hr]%elem_of_live]. by exists l.
Qed.

Lemma alter_insert (f : Slot → Slot) (l : list Slot) i s : l !! i = Some s → alter f i l = <[i := f s]> l.
Proof.
  intros Hs. apply list_eq. intros j. destruct (decide (i = j)) as [<-|Hn].
  - rewrite list_lookup_alter_eq, list_lookup_insert_eq by (by eapply lookup_lt_Some). by rewrite Hs.
  - by rewrite list_lookup_alter_ne, list_lookup_insert_ne.
Qed.

Definition live_bit (s : Slot) : N := if s_retiring s then 0 else 1.

Lemma live_slots_cons s l : live_slots (s :: l) = live_bit s + live_slots l.
Proof.
  unfold live_slots, live_bit. destruct (s_retiring s) eqn:E.
  - by rewrite filter_cons_False by congruence.
  - rewrite filter_cons_True by done. simpl. lia.
Qed.

Lemma live_slots_insert l i s s' : l !! i = Some s → live_slots (<[i := s']> l) + live_bit s = live_slots l + live_bit s'.
Proof.
  revert i. induction l as [|x l IH]; intros [|i] Hs; try done; simpl in *.
  - injection Hs as ->. rewrite !live_slots_cons. lia.
  - change (<[S i := s']> (x :: l)) with (x :: <[i := s']> l). rewrite !live_slots_cons. specialize (IH i Hs). lia.
Qed.

Lemma live_slots_app l l' : live_slots (l ++ l') = live_slots l + live_slots l'.
Proof. unfold live_slots. rewrite filter_app, length_app. lia. Qed.

(** What growth leaves: every slot with a worker where it was, and a slot with a
    worker at the index it returns, which is new where there is no cap. *)
Record grown (cap : option N) (l l' : list Slot) (id : nat) : Prop := {
  gr_kept : ∀ j s, l !! j = Some s → s_worker s = true → l' !! j = Some s;
  gr_slot : ∃ s, l' !! id = Some s ∧ s_worker s = true ∧ (cap = None → s_cells s = 0);
  gr_ok : Forall (slot_ok) l → Forall slot_ok l';
  gr_ceiling : ∀ c, cap = Some c → live_slots l ≤ N.max 1 c → live_slots l' ≤ N.max 1 c;
}.

Lemma fresh_ok r : slot_ok (fresh_slot r).
Proof. split; simpl; [done|lia]. Qed.

Lemma live_slots_none l : list_find (λ s, s_retiring s = false) l = None → live_slots l = 0.
Proof.
  intros Hn%list_find_None. unfold live_slots. by rewrite filter_none.
Qed.

(** The slot that growth builds, where it does. *)
Lemma built_grown cap r l l' id :
  match list_find (λ s, is_reusable s = true) l with
  | Some (id, _) => (<[id := fresh_slot r]> l, id)
  | None => (l ++ [fresh_slot r], length l)
  end = (l', id) →
  (∀ c, cap = Some c → live_slots l = 0 ∨ live_slots l < c) → grown cap l l' id.
Proof.
  intros E Hcap. destruct (list_find _ l) as [[i s]|] eqn:Ef.
  - apply list_find_Some in Ef as (Hi & Hre & _). injection E as <- <-.
    unfold is_reusable in Hre. apply andb_true_iff in Hre as [[Hre _]%andb_true_iff Hw]. apply negb_true_iff in Hw.
    split.
    + intros j s' Hj Hw'. rewrite list_lookup_insert_ne; [done|]. intros <-. congruence.
    + exists (fresh_slot r). by rewrite list_lookup_insert_eq by (by eapply lookup_lt_Some).
    + intros Hl. apply Forall_insert; [done|apply fresh_ok].
    + intros c Hc Hle. pose proof (live_slots_insert l i s (fresh_slot r) Hi). pose proof (Hcap c Hc).
      assert (live_bit (fresh_slot r) ≤ 1) by (unfold live_bit; case_match; lia).
      lia.
  - injection E as <- <-. split.
    + intros j s' Hj _. by apply lookup_app_l_Some.
    + exists (fresh_slot r). by rewrite lookup_app_r, Nat.sub_diag by lia.
    + intros Hl. apply Forall_app. split; [done|]. constructor; [apply fresh_ok|constructor].
    + intros c Hc Hle. rewrite live_slots_app, live_slots_cons. pose proof (Hcap c Hc).
      assert (live_bit (fresh_slot r) ≤ 1) by (unfold live_bit; case_match; lia).
      unfold live_slots at 2. simpl. lia.
Qed.

Lemma grow_grown cap r l l' id : Forall slot_ok l → grow cap r l = (l', id) → grown cap l l' id.
Proof.
  intros Hok. unfold grow. destruct cap as [c|]; simpl; [|intros E; by eapply built_grown].
  destruct (N.leb_spec c (live_slots l)) as [Hle|Hlt]; cycle 1.
  { intros E. eapply built_grown; [exact E|]. intros ? [= <-]. by right. }
  destruct (list_find (λ s, s_retiring s = false) l) as [[i s]|] eqn:Ef; cycle 1.
  { intros E. eapply built_grown; [exact E|]. left. by apply live_slots_none. }
  intros [= <- <-]. apply list_find_Some in Ef as (Hi & Hr & _). split; try done.
  exists s. split; [done|]. split; [|done]. destruct (s_worker s) eqn:Hw; [done|].
  pose proof (proj1 (Forall_lookup _ _) Hok i s Hi) as [Hf _]. specialize (Hf Hw). unfold may_free in Hf. simpl in Hf.
  by rewrite Hr in Hf.
Qed.

(** A step on one slot that keeps its worker and does not revive it. *)
Lemma pool_ok_insert cells p id s s' :
  pool_ok cells p → slots p !! id = Some s → slot_ok s' → s_worker s' = s_worker s → live_bit s' ≤ live_bit s →
  pool_ok cells (set_slots (<[id := s']> (slots p)) p).
Proof.
  intros [Hs Hp Hc] Hi Hok Hw Hl. split; simpl.
  - by apply Forall_insert.
  - eapply Forall_impl; [exact Hp|]. intros [j|]; simpl; [|done]. intros (x & Hx & Hwx).
    destruct (decide (id = j)) as [<-|Hn].
    + exists s'. rewrite list_lookup_insert_eq by (by eapply lookup_lt_Some). split; congruence.
    + exists x. by rewrite list_lookup_insert_ne.
  - intros He. pose proof (live_slots_insert _ _ _ s' Hi). specialize (Hc He). lia.
Qed.

Lemma slot_ok_at l id s : Forall slot_ok l → l !! id = Some s → slot_ok s.
Proof. intros Hl Hi. by apply (proj1 (Forall_lookup _ _) Hl id). Qed.

(** A claim or a turn keeps the worker. *)
Lemma busy_worker s : slot_ok s → 0 < s_turns s ∨ claimed s → s_worker s = true.
Proof.
  intros [Hf _] Hb. destruct (s_worker s); [done|]. specialize (Hf eq_refl). unfold may_free in Hf. simpl in Hf.
  repeat rewrite andb_true_iff in Hf. rewrite !N.eqb_eq in Hf. unfold claimed in Hb. lia.
Qed.

Lemma slot_ok_worker s : s_worker s = true → (1 ≤ max_cells lim → s_cells s ≤ max_cells lim) → slot_ok s.
Proof. intros Hw Hc. split; [congruence|done]. Qed.

(** Marking and freeing keep a slot well formed. *)
Lemma slot_ok_mark s : slot_ok s → slot_ok (mark_retiring s).
Proof.
  intros [Hf Hc]. split; [|done]. simpl. intros Hw. specialize (Hf Hw). unfold may_free in *. simpl in *.
  by destruct (s_retiring s).
Qed.

Lemma live_slots_imap f l : (∀ i s, s_retiring (f i s) = s_retiring s) → live_slots (imap f l) = live_slots l.
Proof.
  revert f. induction l as [|s l IH]; intros f Hf; [done|]. rewrite imap_cons, !live_slots_cons, IH by (intros; simpl; apply Hf).
  unfold live_bit. by rewrite Hf.
Qed.

Lemma free_retired_ok locked l :
  Forall slot_ok l → Forall slot_ok (free_retired locked l) ∧ live_slots (free_retired locked l) = live_slots l.
Proof.
  intros Hl. split.
  - apply Forall_lookup. intros i s Hi. unfold free_retired in Hi. rewrite list_lookup_imap in Hi.
    apply fmap_Some in Hi as (s0 & Hi & ->). pose proof (slot_ok_at _ _ _ Hl Hi) as Hs.
    destruct (may_free (observe s0)) eqn:Hm; simpl; [|done]. destruct (negb (locked i)); [|done]. split; [done|apply Hs].
  - apply live_slots_imap. intros i s. by case_match.
Qed.

Lemma retire_one_ok l l' :
  Forall slot_ok l → retire_one lim l = Some l' → Forall slot_ok l' ∧ live_slots l' + 1 = live_slots l.
Proof.
  intros Hl. unfold retire_one. destruct (retire _) as [id|] eqn:E; [|done]. intros [= <-].
  apply retire_live in E as (x & Hx & Hr & _). simpl in Hx. rewrite list_lookup_fmap in Hx.
  apply fmap_Some in Hx as (s & Hs & ->). simpl in Hr. rewrite (alter_insert _ _ _ _ Hs). split.
  - apply Forall_insert; [done|]. apply slot_ok_mark. by eapply slot_ok_at.
  - pose proof (live_slots_insert l id s (mark_retiring s) Hs) as H. unfold live_bit in H. rewrite Hr in H. simpl in H. lia.
Qed.

Lemma retire_while_ok fuel l :
  Forall slot_ok l → (N.to_nat (live_slots l) < fuel)%nat →
  ∃ l', retire_while fuel lim l = Some l' ∧ Forall slot_ok l' ∧ live_slots l' ≤ live_slots l.
Proof.
  revert l. induction fuel as [|fuel IH]; intros l Hl Hf; [lia|]. simpl.
  destruct (retire_one lim l) as [l1|] eqn:E; [|by exists l].
  destruct (retire_one_ok _ _ Hl E) as [Hl1 Hlive]. destruct (IH l1 Hl1) as (l' & El & Hl' & Hle); [lia|].
  exists l'. split; [done|]. split; [done|]. lia.
Qed.

Lemma reap_empty_ok locked l :
  Forall slot_ok l → ∃ l', reap_empty lim locked l = Some l' ∧ Forall slot_ok l' ∧ live_slots l' ≤ live_slots l.
Proof.
  intros Hl. unfold reap_empty.
  destruct (retire_while_ok (S (N.to_nat (live_slots l))) l Hl) as (l1 & -> & Hl1 & Hle); [lia|].
  destruct (free_retired_ok locked l1 Hl1) as [Hf Heq]. eexists. split; [done|]. split; [done|]. lia.
Qed.

Lemma reap_ok locked l : Forall slot_ok l → Forall slot_ok (reap lim locked l) ∧ live_slots (reap lim locked l) ≤ live_slots l.
Proof.
  intros Hl. unfold reap. destruct (retire_one lim l) as [l1|] eqn:E; simpl.
  - destruct (retire_one_ok _ _ Hl E) as [Hl1 Hlive]. destruct (free_retired_ok locked l1 Hl1) as [Hf Heq]. split; [done|lia].
  - destruct (free_retired_ok locked l Hl) as [Hf Heq]. split; [done|lia].
Qed.

(** Maintenance under the exclusive guard. *)
Lemma pool_ok_maintained cells p l :
  pool_ok cells p → pending p = [] → Forall slot_ok l ∧ live_slots l ≤ live_slots (slots p) → pool_ok cells (set_slots l p).
Proof.
  intros [Hs Hp Hc] He [Hl Hle]. split; simpl; [done|by rewrite He|]. intros Hcells. specialize (Hc Hcells). lia.
Qed.

(** Growth in a pool: the slots admissions wait for stay. *)
Lemma pool_ok_grown cells p l' id pending' :
  pool_ok cells p → grow (Some (max_stateless lim)) (retired p) (slots p) = (l', id) →
  (∀ x, x ∈ pending' → x ∈ pending p) → pool_ok cells (mkPool l' (retired p) pending').
Proof.
  intros [Hs Hp Hc] E Hsub. destruct (grow_grown _ _ _ _ _ Hs E) as [Hk _ Hok Hceil]. split; simpl; [auto| |].
  - apply Forall_forall. intros x Hx. apply Hsub in Hx. apply (proj1 (Forall_forall _ _) Hp) in Hx.
    destruct x as [j|]; [|done]. destruct Hx as (s & Hj & Hw). exists s. split; [|done]. by apply Hk.
  - intros Hcells. apply (Hceil _ eq_refl). auto.
Qed.

Lemma affiliate_ok cells p before placement after l' id :
  pool_ok cells p → pending p = before ++ placement :: after →
  resolve placement (Some (max_stateless lim)) (retired p) (slots p) = (l', id) →
  pool_ok cells (mkPool (alter affiliate id l') (retired p) (before ++ after)).
Proof.
  intros Hok Hp E.
  assert (∀ x, x ∈ before ++ after → x ∈ pending p) as Hsub by (rewrite Hp; intros x; rewrite !elem_of_app, elem_of_cons; tauto).
  assert (pool_ok cells (mkPool l' (retired p) (before ++ after)) ∧ ∃ s, l' !! id = Some s ∧ s_worker s = true) as [Hok' (s & Hs & Hw)].
  { destruct placement as [i|]; simpl in E.
    - injection E as <- <-. destruct Hok as [Hs Hpend Hc]. split.
      + split; simpl; [done| |done]. apply Forall_forall. intros x Hx. apply Hsub in Hx.
        by apply (proj1 (Forall_forall _ _) Hpend) in Hx.
      + rewrite Hp in Hpend. apply Forall_app in Hpend as [_ [Hi _]%Forall_cons]. done.
    - split; [by eapply pool_ok_grown|]. destruct (grow_grown _ _ _ _ _ (po_slots _ _ Hok) E) as [_ (s & Hs & Hw & _) _ _]. eauto. }
  rewrite (alter_insert _ _ _ _ Hs).
  apply (pool_ok_insert cells (mkPool l' (retired p) (before ++ after)) id s); try done.
  apply slot_ok_worker; [done|]. by apply (slot_ok_at l' id s (po_slots _ _ Hok') Hs).
Qed.

Lemma place_cell_ok cells p loads l' id :
  pool_ok cells p → pending p = [] → Forall2 seen_exclusive (slots p) loads →
  resolve (place_cell (mkPoolLoad loads lim)) None (retired p) (slots p) = (l', id) →
  pool_ok true (set_slots (alter house id l') p).
Proof.
  intros [Hs Hp Hc] He Hseen E.
  assert (Forall slot_ok l' ∧ ∃ s, l' !! id = Some s ∧ s_worker s = true ∧ (1 ≤ max_cells lim → s_cells s < max_cells lim))
    as [Hl' (s & Hi & Hw & Hroom)].
  { destruct (place_cell (mkPoolLoad loads lim)) as [i|] eqn:Epl; simpl in E.
    - injection E as <- <-. split; [done|]. apply place_cell_existing in Epl as (x & Hx & Hr & Hlt). simpl in Hx.
      destruct (Forall2_lookup_r _ _ _ _ _ Hseen Hx) as (s & Hsi & Hse & Hcells). exists s. split; [done|]. split; [by apply Hse|].
      simpl in Hlt. lia.
    - destruct (grow_grown _ _ _ _ _ Hs E) as [_ (s & Hi & Hw & Hz) Hok _]. split; [auto|]. exists s. split; [done|]. split; [done|].
      rewrite Hz by done. lia. }
  rewrite (alter_insert _ _ _ _ Hi). split; simpl; [|by rewrite He|done].
  apply Forall_insert; [done|]. apply slot_ok_worker; [done|]. simpl. intros H1. specialize (Hroom H1). lia.
Qed.

Lemma pool_step_ok cells p e p' :
  pool_ok cells p → step p e p' → pool_ok (cells || match e with EvCellPlaced => true | _ => false end) p'.
Proof.
  intros Hok Hstep.
  assert (∀ id s, slots p !! id = Some s → slot_ok s) as Hat by (intros; by eapply slot_ok_at; [apply Hok|]).
  destruct Hstep as [p|p loads sh pl Hseen Ha|p before pl after l' id Hp E|p before pl after Hp|p loads l' id Hp Hseen E
    |p id s Hi Hcl|p id s Hi Hcl|p id s n Hi Hn|p id s n Hi Hn|p id s n Hi Hn|p id s Hi|p locked Hp|p locked Hp|p locked l' Hp E|p locked Hp];
    rewrite ?orb_false_r, ?orb_true_r.
  - destruct (grow _ _ _) as [l' id] eqn:E. by eapply pool_ok_grown.
  - destruct Hok as [Hs Hpe Hc]. split; simpl; try done. constructor; [|done]. destruct pl as [id|]; simpl; [|done].
    apply admit_existing in Ha as (l & Hl & Hr). simpl in Hl.
    destruct (Forall2_lookup_r _ _ _ _ _ Hseen Hl) as (s & Hsi & Hse). exists s. split; [done|]. by apply Hse.
  - by eapply affiliate_ok.
  - destruct Hok as [Hs Hpe Hc]. split; simpl; try done. rewrite Hp in Hpe.
    apply Forall_app in Hpe as [Hb [_ Haf]%Forall_cons]. by apply Forall_app.
  - by eapply place_cell_ok.
  - apply (pool_ok_insert cells p id s); try done. apply slot_ok_worker; [|exact (proj2 (Hat id s Hi))].
    apply (busy_worker s); [by eapply Hat|by right].
  - apply (pool_ok_insert cells p id s); try done. apply slot_ok_worker; [|exact (proj2 (Hat id s Hi))].
    apply (busy_worker s); [by eapply Hat|by right].
  - apply (pool_ok_insert cells p id s); try done. apply slot_ok_worker; [|exact (proj2 (Hat id s Hi))].
    apply (busy_worker s); [by eapply Hat|left; lia].
  - apply (pool_ok_insert cells p id s); try done. apply slot_ok_worker; [|exact (proj2 (Hat id s Hi))].
    apply (busy_worker s); [by eapply Hat|right; left; lia].
  - apply (pool_ok_insert cells p id s); try done. apply slot_ok_worker.
    + apply (busy_worker s); [by eapply Hat|right; right; lia].
    + simpl. intros H1. pose proof (proj2 (Hat id s Hi) H1). lia.
  - apply (pool_ok_insert cells p id s); try done; [apply slot_ok_mark; by eapply Hat|]. unfold live_bit. simpl. lia.
  - apply pool_ok_maintained; [done|done|]. apply reap_ok, Hok.
  - apply pool_ok_maintained; [done|done|]. destruct (free_retired_ok locked (slots p) (po_slots _ _ Hok)) as [? ->]. done.
  - apply pool_ok_maintained; [done|done|]. destruct (reap_empty_ok locked (slots p) (po_slots _ _ Hok)) as (l1 & E1 & Hl1). congruence.
  - destruct (free_retired_ok locked (mark_retiring <$> slots p)) as [Hf Heq].
    { apply Forall_fmap. eapply Forall_impl; [apply Hok|]. apply slot_ok_mark. }
    split; simpl; [done|constructor|]. intros _. unfold retire_all. rewrite Heq.
    assert (live_slots (mark_retiring <$> slots p) = 0) as ->; [|lia].
    unfold live_slots. rewrite filter_none; [done|]. apply Forall_fmap, Forall_forall. by intros.
Qed.

Lemma pool_reachable_ok cells p : reachable cells p → pool_ok cells p.
Proof.
  induction 1 as [|cells p e p' _ IH Hs]; [|by eapply pool_step_ok].
  split; simpl; try constructor. unfold live_slots. simpl. lia.
Qed.

End operation.


Definition example_limits : PoolLimits := mkPoolLimits 2 1 4 None 16.


End Isolates.
