(* ===== verification/Wake.v ===== *)
(** * Alarm publications and the retirement frontier

    Models [crates/logic/wake.rs]: the identity of an alarm installation, the
    snapshot that carries it through the core, the retirement certificate and
    the bounded cache of confirmed publications. *)

From S2P Require Import Prelude.

(** [PublicationId], ordered by epoch and then by sequence. *)
Record PublicationId := mkPublicationId {
  pub_epoch : N;
  pub_sequence : N;
}.

#[global] Instance PublicationId_eq_dec : EqDecision PublicationId.
Proof. solve_decision. Defined.

Definition PublicationId_compare (a b : PublicationId) : comparison :=
  then_with (pub_epoch a ?= pub_epoch b) (pub_sequence a ?= pub_sequence b).

Definition pub_ltb (a b : PublicationId) : bool := is_lt (PublicationId_compare a b).

Record AlarmSource := mkAlarmSource {
  src_id : PublicationId;
  src_position : N;
}.

#[global] Instance AlarmSource_eq_dec : EqDecision AlarmSource.
Proof. solve_decision. Defined.

Record AlarmSnapshot := mkAlarmSnapshot {
  snap_at_ms : option Z;
  snap_source : option AlarmSource;
}.

#[global] Instance AlarmSnapshot_eq_dec : EqDecision AlarmSnapshot.
Proof. solve_decision. Defined.

(** [AlarmSnapshot::without_wake]. *)
Definition without_wake (at_ms : option Z) : AlarmSnapshot := mkAlarmSnapshot at_ms None.

(** [AlarmSnapshot::committed]. *)
Definition committed (at_ms : option Z) (source : AlarmSource) : AlarmSnapshot :=
  mkAlarmSnapshot at_ms (Some source).

(** [AlarmSnapshot::same_installation]. *)
Definition same_installation (a b : AlarmSnapshot) : bool :=
  bool_decide (snap_at_ms a = snap_at_ms b)
  && bool_decide (src_id <$> snap_source a = src_id <$> snap_source b).
