(* ===== verification/Calendar.v ===== *)
(** * Civil dates

    Models the date arithmetic of [crates/logic/wake.rs] ([civil_from_days],
    [days_from_civil]) and the month lengths of [crates/logic/cron.rs], and
    proves it to be the proleptic Gregorian calendar: the algorithm that counts
    eras of 400 years from a first of March agrees, day by day, with the
    calendar that steps from one date to the next.

    Days are [i64] and stay far from its ends: both callers divide a
    millisecond timestamp first.  Rust's [/] truncates, and is [Z.quot]. *)

From S2P Require Import Prelude.

#[local] Open Scope Z_scope.

(** A civil date: year, month and day of the month. *)
Abbreviation date := (Z * Z * Z)%type.

(** [civil_from_days]. *)
Definition civil_from_days (z : Z) : date :=
  let z := z + 719468 in
  let era := (if 0 <=? z then z else z - 146096) ÷ 146097 in
  let doe := z - era * 146097 in
  let yoe := (doe - doe ÷ 1460 + doe ÷ 36524 - doe ÷ 146096) ÷ 365 in
  let doy := doe - (365 * yoe + yoe ÷ 4 - yoe ÷ 100) in
  let mp := (5 * doy + 2) ÷ 153 in
  let d := doy - (153 * mp + 2) ÷ 5 + 1 in
  let m := if mp <? 10 then mp + 3 else mp - 9 in
  (yoe + era * 400 + (if m <=? 2 then 1 else 0), m, d).

(** [days_from_civil]. *)
Definition days_from_civil (y m d : Z) : Z :=
  let y := y - (if m <=? 2 then 1 else 0) in
  let era := (if 0 <=? y then y else y - 399) ÷ 400 in
  let yoe := y - era * 400 in
  let mp := if 2 <? m then m - 3 else m + 9 in
  let doy := (153 * mp + 2) ÷ 5 + d - 1 in
  era * 146097 + yoe * 365 + yoe ÷ 4 - yoe ÷ 100 + doy - 719468.

(** The test for a leap year in [days_in_month]. *)
Definition leap (year : Z) : bool :=
  (Z.rem year 4 =? 0) && (negb (Z.rem year 100 =? 0) || (Z.rem year 400 =? 0)).

(** [days_in_month]. *)
Definition days_in_month (year month : Z) : Z :=
  if (month =? 1) || (month =? 3) || (month =? 5) || (month =? 7)
     || (month =? 8) || (month =? 10) || (month =? 12) then 31
  else if (month =? 4) || (month =? 6) || (month =? 9) || (month =? 11) then 30
  else if leap year then 29 else 28.

(** ** The reference calendar *)

Definition next_date (x : date) : date :=
  let '(y, m, d) := x in
  if d <? days_in_month y m then (y, m, d + 1)
  else if m <? 12 then (y, m + 1, 1)
  else (y + 1, 1, 1).

Definition valid_date (x : date) : Prop :=
  let '(y, m, d) := x in 1 ≤ m ≤ 12 ∧ 1 ≤ d ≤ days_in_month y m.

(** ** Years of an era

    An era is 400 years that start on a first of March.  [year_start y] is the
    day of the era on which its year [y] starts. *)

Definition year_start (y : Z) : Z := 365 * y + y / 4 - y / 100 + y / 400.

Definition year_length (y : Z) : Z := year_start (y + 1) - year_start y.

Definition year_of (doe : Z) : Z :=
  (doe - doe / 1460 + doe / 36524 - doe / 146096) / 365.

(** The year within the era, checked on the first and the last day of each. *)
Definition year_of_ends (y : Z) : bool :=
  (year_of (year_start y) =? y) && (year_of (year_start (y + 1) - 1) =? y).

Lemma year_of_ends_all : forallb year_of_ends (seqZ 0 400) = true.
Proof. vm_compute. reflexivity. Qed.

(** What a check over a range of integers shows. *)
Lemma forallb_seqZ (f : Z → bool) a n x :
  forallb f (seqZ a n) = true → a ≤ x < a + n → f x = true.
Proof.
  intros H Hx. apply (proj1 (forallb_forall _ _) H).
  apply list_elem_of_In, elem_of_seqZ. lia.
Qed.

Lemma year_of_start y : 0 ≤ y < 400 → year_of (year_start y) = y.
Proof.
  intros Hy. pose proof (forallb_seqZ _ _ _ y year_of_ends_all ltac:(lia)) as H.
  apply andb_prop in H as [H _]. lia.
Qed.

Lemma year_of_last y : 0 ≤ y < 400 → year_of (year_start (y + 1) - 1) = y.
Proof.
  intros Hy. pose proof (forallb_seqZ _ _ _ y year_of_ends_all ltac:(lia)) as H.
  apply andb_prop in H as [_ H]. lia.
Qed.

Lemma year_of_mono a b : 0 ≤ a ≤ b → b < 146097 → year_of a ≤ year_of b.
Proof.
  intros Hab Hb. apply Z.div_le_mono; [lia|].
  assert (∀ n : nat, a + Z.of_nat n < 146097 →
            a - a / 1460 + a / 36524 - a / 146096 ≤
            (a + Z.of_nat n) - (a + Z.of_nat n) / 1460 + (a + Z.of_nat n) / 36524
            - (a + Z.of_nat n) / 146096) as H.
  { induction n as [|n IH]; intros Hn; [rewrite Z.add_0_r; lia|].
    etrans; [apply IH; lia|]. remember (a + Z.of_nat n) as x.
    replace (a + Z.of_nat (S n)) with (x + 1) by lia.
    assert (0 ≤ x < 146096) by lia. Z.to_euclidean_division_equations. lia. }
  specialize (H (Z.to_nat (b - a))). rewrite Z2Nat.id in H by lia.
  replace (a + (b - a)) with b in H by lia. apply H. lia.
Qed.

Lemma year_start_mono y y' : y ≤ y' → year_start y ≤ year_start y'.
Proof. unfold year_start. intros. Z.to_euclidean_division_equations. lia. Qed.

(** The year found is the one that contains the day. *)
Lemma year_of_bounds doe :
  0 ≤ doe < 146097 →
  0 ≤ year_of doe < 400 ∧ year_start (year_of doe) ≤ doe < year_start (year_of doe + 1).
Proof.
  intros Hd.
  assert (0 ≤ year_of doe) as H0.
  { etrans; [|apply (year_of_mono 0); lia]. done. }
  assert (year_of doe ≤ 399) as H1.
  { etrans; [apply (year_of_mono _ 146096); lia|]. done. }
  split; [lia|]. split.
  - destruct (Z.le_gt_cases (year_start (year_of doe)) doe) as [|Hlt]; [done|].
    destruct (decide (year_of doe = 0)) as [E|]; [rewrite E in Hlt; change (year_start 0) with 0 in Hlt; lia|].
    pose proof (year_of_last (year_of doe - 1) ltac:(lia)) as H.
    replace (year_of doe - 1 + 1) with (year_of doe) in H by lia.
    pose proof (year_of_mono doe (year_start (year_of doe) - 1) ltac:(lia)) as Hm.
    pose proof (year_start_mono (year_of doe) 400 ltac:(lia)) as Hs. change (year_start 400) with 146097 in Hs.
    lia.
  - destruct (Z.lt_ge_cases doe (year_start (year_of doe + 1))) as [|Hge]; [done|].
    destruct (decide (year_of doe = 399)) as [E|].
    { rewrite E in Hge. change (year_start (399 + 1)) with 146097 in Hge. lia. }
    pose proof (year_of_start (year_of doe + 1) ltac:(lia)) as H.
    assert (0 ≤ year_start (year_of doe + 1)) by (unfold year_start; Z.to_euclidean_division_equations; lia).
    pose proof (year_of_mono (year_start (year_of doe + 1)) doe ltac:(lia) ltac:(lia)). lia.
Qed.

Lemma year_of_unique y doe :
  0 ≤ y < 400 → year_start y ≤ doe < year_start (y + 1) → year_of doe = y.
Proof.
  intros Hy Hd.
  assert (0 ≤ year_start y) by (unfold year_start; Z.to_euclidean_division_equations; lia).
  pose proof (year_start_mono (y + 1) 400 ltac:(lia)) as Hs. change (year_start 400) with 146097 in Hs.
  pose proof (year_of_mono (year_start y) doe ltac:(lia) ltac:(lia)) as H1.
  pose proof (year_of_mono doe (year_start (y + 1) - 1) ltac:(lia) ltac:(lia)) as H2.
  rewrite year_of_start in H1 by done. rewrite year_of_last in H2 by done. lia.
Qed.

(** ** Days of a year

    The month and the day, from the day of a year that starts in March. *)

Definition month_of (doy : Z) : Z :=
  let mp := (5 * doy + 2) / 153 in if mp <? 10 then mp + 3 else mp - 9.

Definition day_of (doy : Z) : Z := doy - (153 * ((5 * doy + 2) / 153) + 2) / 5 + 1.

(** The date at day [doy] of year [y] of era [era]. *)
Definition date_at (era y doy : Z) : date :=
  (y + era * 400 + (if month_of doy <=? 2 then 1 else 0), month_of doy, day_of doy).

Lemma civil_date_at z :
  ∃ era y doy,
    z + 719468 = era * 146097 + year_start y + doy ∧ 0 ≤ y < 400 ∧ 0 ≤ doy < year_length y
    ∧ civil_from_days z = date_at era y doy.
Proof.
  set (w := z + 719468). set (era := w / 146097). set (doe := w mod 146097).
  assert (0 ≤ doe < 146097) as Hdoe by (apply Z.mod_pos_bound; lia).
  destruct (year_of_bounds doe Hdoe) as [Hy Hs].
  exists era, (year_of doe), (doe - year_start (year_of doe)).
  split_and!; [subst era doe; Z.to_euclidean_division_equations; lia|lia|lia|lia|unfold year_length; lia|].
  unfold civil_from_days, date_at, month_of, day_of. fold w.
  assert ((if 0 <=? w then w else w - 146096) ÷ 146097 = era) as ->.
  { subst era. destruct (Z.leb_spec 0 w); Z.to_euclidean_division_equations; lia. }
  assert (w - era * 146097 = doe) as ->.
  { subst era doe. Z.to_euclidean_division_equations. lia. }
  assert ((doe - doe ÷ 1460 + doe ÷ 36524 - doe ÷ 146096) ÷ 365 = year_of doe) as ->.
  { unfold year_of. rewrite !(Z.quot_div_nonneg doe) by lia.
    apply Z.quot_div_nonneg; [|lia]. Z.to_euclidean_division_equations. lia. }
  assert (doe - (365 * year_of doe + year_of doe ÷ 4 - year_of doe ÷ 100)
          = doe - year_start (year_of doe)) as ->.
  { unfold year_start. rewrite !Z.quot_div_nonneg by lia.
    rewrite (Z.div_small (year_of doe) 400) by lia. lia. }
  set (doy := doe - year_start (year_of doe)) in *.
  assert (0 ≤ doy) by lia.
  rewrite (Z.quot_div_nonneg (5 * doy + 2)) by lia.
  rewrite (Z.quot_div_nonneg (153 * _ + 2)) by (Z.to_euclidean_division_equations; lia). done.
Qed.

Lemma year_length_range y : year_length y = 365 ∨ year_length y = 366.
Proof. unfold year_length, year_start. Z.to_euclidean_division_equations. lia. Qed.

Lemma year_start_range y : 0 ≤ y ≤ 400 → 0 ≤ year_start y ≤ 146097.
Proof. unfold year_start. intros. Z.to_euclidean_division_equations. lia. Qed.

(** Every day is at one place of one year of one era. *)
Lemma civil_from_parts era y doy :
  0 ≤ y < 400 → 0 ≤ doy < year_length y →
  civil_from_days (era * 146097 + year_start y + doy - 719468) = date_at era y doy.
Proof.
  intros Hy Hd. set (z := era * 146097 + year_start y + doy - 719468).
  destruct (civil_date_at z) as (era' & y' & doy' & Hz & Hy' & Hd' & ->).
  subst z. unfold year_length in *.
  pose proof (year_start_range y ltac:(lia)). pose proof (year_start_range (y + 1) ltac:(lia)).
  pose proof (year_start_range y' ltac:(lia)). pose proof (year_start_range (y' + 1) ltac:(lia)).
  assert (era = era') as <- by lia.
  pose proof (year_of_unique y (year_start y + doy) Hy ltac:(lia)) as E.
  pose proof (year_of_unique y' (year_start y + doy) Hy' ltac:(lia)) as E'.
  assert (y = y') as <- by congruence. by assert (doy = doy') as <- by lia.
Qed.

Lemma rem_eqb a b : b ≠ 0 → (Z.rem a b =? 0) = (a mod b =? 0).
Proof. intros Hb. apply eq_bool_prop_intro. rewrite !Is_true_true, !Z.eqb_eq, Z.rem_divide, Z.mod_divide; done. Qed.

(** The year that ends in February of [y + 1] has a leap day where that civil
    year is a leap year. *)
Lemma leap_length era y :
  0 ≤ y < 400 → leap (y + era * 400 + 1) = (year_length y =? 366).
Proof.
  intros Hy. unfold leap. rewrite !rem_eqb by lia. unfold year_length, year_start.
  repeat match goal with |- context [?a =? ?b] => destruct (Z.eqb_spec a b) end;
    simpl; try done; exfalso; Z.to_euclidean_division_equations; lia.
Qed.

(** The days of a year of [365] or [366] days, checked one by one: the month
    lengths, the step to the next day, and the first of January. *)
Definition month_length (l : bool) (m : Z) : Z :=
  if m =? 2 then if l then 29 else 28 else days_in_month 0 m.

Definition step_ok (l : bool) (doy : Z) : bool :=
  let m := month_of doy in
  let d := day_of doy in
  (1 <=? m) && (m <=? 12) && (1 <=? d) && (d <=? month_length l m) &&
  (if doy + 1 =? (if l then 366 else 365) then (m =? 2) && (d =? month_length l m)
   else if d <? month_length l m then (month_of (doy + 1) =? m) && (day_of (doy + 1) =? d + 1)
   else (day_of (doy + 1) =? 1)
        && (if m <? 12 then (month_of (doy + 1) =? m + 1) && negb (m =? 2)
            else month_of (doy + 1) =? 1)).

Lemma step_ok_all (l : bool) : forallb (step_ok l) (seqZ 0 (if l then 366 else 365)) = true.
Proof. by destruct l; vm_compute. Qed.

Lemma step_ok_at (l : bool) doy : 0 ≤ doy < (if l then 366 else 365) → step_ok l doy = true.
Proof. intros Hd. apply (forallb_seqZ _ _ _ _ (step_ok_all l)). lia. Qed.

Lemma days_in_month_length era y doy :
  0 ≤ y < 400 → 1 ≤ month_of doy ≤ 12 →
  days_in_month (y + era * 400 + (if month_of doy <=? 2 then 1 else 0)) (month_of doy)
  = month_length (year_length y =? 366) (month_of doy).
Proof.
  intros Hy Hm. unfold month_length. destruct (Z.eqb_spec (month_of doy) 2) as [->|Hm2].
  - change (2 <=? 2) with true. cbv iota. unfold days_in_month. cbn [Z.eqb orb Pos.eqb].
    by rewrite leap_length.
  - generalize (month_of doy) at 1 as b. intros b.
    generalize (y + era * 400 + (if b <=? 2 then 1 else 0)). intros Y. clear b.
    generalize dependent (month_of doy). intros m Hm Hm2.
    assert (m = 1 ∨ m = 3 ∨ m = 4 ∨ m = 5 ∨ m = 6 ∨ m = 7 ∨ m = 8 ∨ m = 9 ∨ m = 10 ∨ m = 11 ∨ m = 12)
      as Hc by lia.
    by repeat destruct Hc as [->|Hc]; [..|subst m].
Qed.

Ltac bools := repeat match goal with
  | H : (_ && _)%bool = true |- _ => apply andb_prop in H as [? ?]
  | H : (_ <=? _) = true |- _ => apply Z.leb_le in H
  | H : (_ =? _) = true |- _ => apply Z.eqb_eq in H
  | H : negb _ = true |- _ => apply negb_true_iff in H
  | H : (_ =? _) = false |- _ => apply Z.eqb_neq in H
  end.

Lemma date_at_valid era y doy :
  0 ≤ y < 400 → 0 ≤ doy < year_length y → valid_date (date_at era y doy).
Proof.
  intros Hy Hd. pose proof (year_length_range y) as Hl.
  pose proof (step_ok_at (year_length y =? 366) doy) as H.
  destruct (Z.eqb_spec (year_length y) 366) as [E|E];
    (specialize (H ltac:(lia)); unfold step_ok in H; bools;
     unfold date_at, valid_date; rewrite days_in_month_length by done; rewrite ?E;
     split; [done|]; split; [done|]).
  - by change (366 =? 366) with true.
  - by rewrite (proj2 (Z.eqb_neq _ _) E).
Qed.

(** Within a year the calendar steps from day to day. *)
Lemma next_date_within era y doy :
  0 ≤ y < 400 → 0 ≤ doy → doy + 1 < year_length y →
  next_date (date_at era y doy) = date_at era y (doy + 1).
Proof.
  intros Hy H0 Hd. pose proof (year_length_range y) as Hl.
  set (l := year_length y =? 366).
  assert (year_length y = if l then 366 else 365) as El.
  { subst l. destruct (Z.eqb_spec (year_length y) 366); lia. }
  pose proof (step_ok_at l doy ltac:(lia)) as H. unfold step_ok in H. bools.
  unfold date_at, next_date. rewrite days_in_month_length by lia. fold l.
  destruct (Z.eqb_spec (doy + 1) (if l then 366 else 365)); [lia|].
  destruct (day_of doy <? month_length l (month_of doy)); bools.
  { by replace (month_of (doy + 1)) with (month_of doy); replace (day_of (doy + 1)) with (day_of doy + 1). }
  destruct (Z.ltb_spec (month_of doy) 12); bools.
  - replace (month_of (doy + 1)) with (month_of doy + 1). replace (day_of (doy + 1)) with 1.
    f_equal. f_equal. destruct (Z.leb_spec (month_of doy) 2), (Z.leb_spec (month_of doy + 1) 2); lia.
  - replace (month_of (doy + 1)) with 1. replace (day_of (doy + 1)) with 1.
    f_equal. f_equal. change (1 <=? 2) with true. destruct (Z.leb_spec (month_of doy) 2); lia.
Qed.

Lemma next_date_end era y :
  0 ≤ y < 400 →
  next_date (date_at era y (year_length y - 1)) = (y + era * 400 + 1, 3, 1).
Proof.
  intros Hy. pose proof (year_length_range y) as Hl.
  set (l := year_length y =? 366).
  assert (year_length y = if l then 366 else 365) as El.
  { subst l. destruct (Z.eqb_spec (year_length y) 366); lia. }
  rewrite El. set (doy := (if l then 366 else 365) - 1).
  assert (month_of doy = 2 ∧ day_of doy = month_length l 2) as [Em Ed] by (subst doy; by destruct l).
  unfold date_at, next_date. rewrite days_in_month_length by (rewrite ?Em; lia). fold l.
  rewrite Em, Ed. rewrite Z.ltb_irrefl. done.
Qed.

(** The date of the next day is the next date. *)
Lemma civil_step z : civil_from_days (z + 1) = next_date (civil_from_days z).
Proof.
  destruct (civil_date_at z) as (era & y & doy & Hz & Hy & Hd & ->).
  destruct (decide (doy + 1 < year_length y)).
  { rewrite next_date_within by lia. rewrite <- civil_from_parts by lia. f_equal. lia. }
  assert (doy = year_length y - 1) as -> by lia. rewrite next_date_end by done.
  pose proof (year_length_range (y + 1)). unfold year_length in Hz, Hd.
  destruct (decide (y = 399)) as [->|].
  - replace (z + 1) with ((era + 1) * 146097 + year_start 0 + 0 - 719468).
    2:{ change (year_start (399 + 1)) with 146097 in Hz. change (year_start 399) with 145731 in Hz.
        change (year_start 0) with 0. lia. }
    rewrite civil_from_parts; [|lia|by vm_compute]. unfold date_at.
    change (month_of 0) with 3. change (day_of 0) with 1. change (3 <=? 2) with false. cbv iota.
    f_equal. f_equal. lia.
  - replace (z + 1) with (era * 146097 + year_start (y + 1) + 0 - 719468) by lia.
    rewrite civil_from_parts by lia. unfold date_at.
    change (month_of 0) with 3. change (day_of 0) with 1. change (3 <=? 2) with false. cbv iota.
    f_equal. f_equal. lia.
Qed.

(** ** From a date back to its day *)

Lemma month_day_doy : forallb (λ doy,
  let m := month_of doy in
  (153 * (if 2 <? m then m - 3 else m + 9) + 2) ÷ 5 + day_of doy - 1 =? doy) (seqZ 0 366) = true.
Proof. by vm_compute. Qed.

Lemma days_from_date_at era y doy :
  0 ≤ y < 400 → 0 ≤ doy < year_length y →
  let '(Y, m, d) := date_at era y doy in
  days_from_civil Y m d = era * 146097 + year_start y + doy - 719468.
Proof.
  intros Hy Hd. pose proof (year_length_range y) as Hl.
  pose proof (forallb_seqZ _ _ _ doy month_day_doy ltac:(lia)) as Hm. cbv beta zeta in Hm.
  apply Z.eqb_eq in Hm. unfold date_at, days_from_civil. rewrite Hm.
  set (b := if month_of doy <=? 2 then 1 else 0).
  replace (y + era * 400 + b - b) with (y + era * 400) by lia.
  assert ((if 0 <=? y + era * 400 then y + era * 400 else y + era * 400 - 399) ÷ 400 = era) as ->.
  { destruct (Z.leb_spec 0 (y + era * 400)); Z.to_euclidean_division_equations; lia. }
  replace (y + era * 400 - era * 400) with y by lia.
  rewrite !Z.quot_div_nonneg by lia. unfold year_start. rewrite (Z.div_small y 400) by lia. lia.
Qed.

(** Reading a date back gives the day it came from. *)
Lemma civil_days z :
  let '(y, m, d) := civil_from_days z in
  days_from_civil y m d = z ∧ valid_date (y, m, d).
Proof.
  destruct (civil_date_at z) as (era & y & doy & Hz & Hy & Hd & ->).
  pose proof (days_from_date_at era y doy Hy Hd) as H.
  pose proof (date_at_valid era y doy Hy Hd) as Hv.
  destruct (date_at era y doy) as [[Y m] d]. split; [lia|done].
Qed.

(** The dates a four-digit year covers. *)
Lemma days_in_month_le y m : days_in_month y m ≤ 31.
Proof. unfold days_in_month. repeat case_match; lia. Qed.

Lemma civil_year_range z :
  0 ≤ z < 2932897 → let '(y, m, d) := civil_from_days z in 1970 ≤ y ≤ 9999.
Proof.
  intros Hz. pose proof (civil_days z) as H. destruct (civil_from_days z) as [[y m] d].
  destruct H as [Hd (Hm & Hdd)]. pose proof (days_in_month_le y m).
  unfold days_from_civil in Hd.
  destruct (Z.leb_spec m 2), (Z.ltb_spec 2 m); try lia;
  match goal with H : context [0 <=? ?x] |- _ => destruct (Z.leb_spec 0 x) end;
  Z.to_euclidean_division_equations; lia.
Qed.

(** Dates in the order of the calendar. *)
Definition date_lt (a b : date) : Prop :=
  let '(y, m, d) := a in
  let '(y', m', d') := b in
  y < y' ∨ y = y' ∧ (m < m' ∨ m = m' ∧ d < d').

Lemma date_lt_trans a b c : date_lt a b → date_lt b c → date_lt a c.
Proof. destruct a as [[??]?], b as [[??]?], c as [[??]?]. simpl. lia. Qed.

Lemma next_date_lt x : date_lt x (next_date x).
Proof. destruct x as [[y m] d]. unfold next_date. repeat case_match; simpl; lia. Qed.

Lemma civil_lt z z' : z < z' → date_lt (civil_from_days z) (civil_from_days z').
Proof.
  intros Hz. replace z' with (z + Z.of_nat (S (Z.to_nat (z' - z - 1)))) by lia.
  induction (Z.to_nat (z' - z - 1)) as [|n IH].
  { rewrite civil_step. apply next_date_lt. }
  replace (z + Z.of_nat (S (S n))) with (z + Z.of_nat (S n) + 1) by lia.
  rewrite civil_step. eapply date_lt_trans; [done|apply next_date_lt].
Qed.

(** The date of a day number is the Gregorian calendar: day zero is the
    first of January 1970, the date of the next day is the next date, for every
    day before and after it, and a date leads back to its day. *)
Theorem civil_calendar :
  civil_from_days 0 = (1970, 1, 1)
  ∧ (∀ z, civil_from_days (z + 1) = next_date (civil_from_days z))
  ∧ ∀ z, let '(y, m, d) := civil_from_days z in days_from_civil y m d = z ∧ valid_date (y, m, d).
Proof. split_and!; [reflexivity|apply civil_step|apply civil_days]. Qed.
