(* ===== verification/Text.v ===== *)
(** * Text

    What the code uses of Rust's string library: slices, splits, trims, the
    formatting of integers in a radix with zero padding, and the parsers of
    [str::parse] and [from_str_radix].  A [&str] is the sequence of its UTF-8
    bytes, so that [len] and the byte offsets of [get] are the source's. *)

From S2P Require Import Prelude.

(** ** Digits *)

(** The character of a digit, lower case above nine. *)
Definition digit_char (d : N) : Ascii.ascii :=
  Ascii.ascii_of_N (if d <? 10 then 48 + d else 87 + d).

(** [char::to_digit]. *)
Definition digit_value (base : N) (c : Ascii.ascii) : option N :=
  let n := Ascii.N_of_ascii c in
  let v := if (48 <=? n) && (n <=? 57) then Some (n - 48)
           else if (97 <=? n) && (n <=? 122) then Some (n - 87)
           else if (65 <=? n) && (n <=? 90) then Some (n - 55)
           else None in
  v ← v; if v <? base then Some v else None.

(** The digits of [n], most significant first, without leading zeros. *)
Fixpoint radix_loop (fuel : nat) (base n : N) (acc : string) : string :=
  match fuel with
  | O => acc
  | S fuel =>
      let acc := String (digit_char (n mod base)) acc in
      if n / base =? 0 then acc else radix_loop fuel base (n / base) acc
  end.

Definition radix (base n : N) : string := radix_loop (N.to_nat (N.log2 n) + 2) base n "".

Fixpoint zeros (n : nat) : string :=
  match n with O => "" | S n => String (digit_char 0) (zeros n) end.

(** [format!("{:0w}")] of an unsigned number in a radix. *)
Definition padded (base : N) (w : nat) (n : N) : string :=
  let s := radix base n in zeros (w - String.length s) +:+ s.

(** The last [w] digits of [n]. *)
Fixpoint fixed (base : N) (w : nat) (n : N) (acc : string) : string :=
  match w with
  | O => acc
  | S w => fixed base w (n / base) (String (digit_char (n mod base)) acc)
  end.

(** The value of a run of digits read after [acc]. *)
Fixpoint digits_value (base acc : N) (s : string) : option N :=
  match s with
  | EmptyString => Some acc
  | String c s => d ← digit_value base c; digits_value base (acc * base + d) s
  end.

(** The unsigned parsers: an optional plus sign and a non-empty run of digits
    that fits the type. *)
Definition parse_unsigned (base bound : N) (s : string) : option N :=
  let digits s := match s with "" => None | _ => n ← digits_value base 0 s; if n <=? bound then Some n else None end in
  match s with
  | String c rest => if Ascii.eqb c (Ascii.ascii_of_N 43) then digits rest else digits s
  | "" => None
  end.

Definition parse_u32 : string → option N := parse_unsigned 10 u32_max.
Definition u64_from_hex : string → option N := parse_unsigned 16 u64_max.

(** [str::parse::<i64>]. *)
Definition parse_i64 (s : string) : option Z :=
  match s with
  | String c rest =>
      if Ascii.eqb c char_dash then
        match rest with
        | "" => None
        | _ => n ← digits_value 10 0 rest; if (i64_min <=? - Z.of_N n)%Z then Some (- Z.of_N n)%Z else None
        end
      else Z.of_N <$> parse_unsigned 10 (Z.to_N i64_max) s
  | "" => None
  end.

(** ** Slices *)

(** [str::is_char_boundary]: an end, or a byte that does not continue a character. *)
Definition is_char_boundary (i : nat) (s : string) : bool :=
  match String.get i s with
  | Some c => let n := Ascii.N_of_ascii c in (n <? 128) || (192 <=? n)
  | None => Nat.eqb i (String.length s)
  end.

(** [str::get(a..b)]. *)
Definition str_get (a b : nat) (s : string) : option string :=
  if Nat.leb a b && is_char_boundary a s && is_char_boundary b s then Some (String.substring a (b - a) s)
  else None.

(** [str::strip_prefix]. *)
Fixpoint strip_prefix (p s : string) : option string :=
  match p, s with
  | EmptyString, _ => Some s
  | String a p, String b s => if Ascii.eqb a b then strip_prefix p s else None
  | _, _ => None
  end.

(** [str::strip_suffix]. *)
Definition strip_suffix (p s : string) : option string :=
  let n := (String.length s - String.length p)%nat in
  if Nat.leb (String.length p) (String.length s) && String.eqb (String.substring n (String.length p) s) p
  then Some (String.substring 0 n s) else None.

(** [str::split] on a character. *)
Fixpoint split (sep : Ascii.ascii) (s : string) : list string :=
  match s with
  | EmptyString => [""]
  | String a s =>
      if Ascii.eqb a sep then "" :: split sep s
      else match split sep s with p :: ps => String a p :: ps | [] => [String a ""] end
  end.

(** [str::trim_end_matches] on a character. *)
Fixpoint trim_end (c : Ascii.ascii) (s : string) : string :=
  match s with
  | EmptyString => ""
  | String a s =>
      match trim_end c s with
      | "" => if Ascii.eqb a c then "" else String a ""
      | s => String a s
      end
  end.

(** [bytes().all(..)]. *)
Fixpoint all_bytes (f : N → bool) (s : string) : bool :=
  match s with
  | EmptyString => true
  | String a s => f (Ascii.N_of_ascii a) && all_bytes f s
  end.

(** [u8::is_ascii_alphanumeric]. *)
Definition is_ascii_alphanumeric (b : N) : bool :=
  ((48 <=? b) && (b <=? 57)) || ((65 <=? b) && (b <=? 90)) || ((97 <=? b) && (b <=? 122)).

(** ** Lemmas *)

#[global] Arguments String.append !_ _ / : simpl nomatch.

Lemma app_empty_r s : s +:+ "" = s.
Proof. induction s; simpl; congruence. Qed.

Lemma app_assoc_string (a b c : string) : (a +:+ b) +:+ c = a +:+ (b +:+ c).
Proof. induction a; simpl; congruence. Qed.

Lemma length_app_string a b : String.length (a +:+ b) = (String.length a + String.length b)%nat.
Proof. induction a; simpl; congruence. Qed.

Lemma ascii_N_embedding n : n < 256 → Ascii.N_of_ascii (Ascii.ascii_of_N n) = n.
Proof. apply Ascii.N_ascii_embedding. Qed.

Lemma digit_value_char base d : d < base → base ≤ 36 → digit_value base (digit_char d) = Some d.
Proof.
  intros Hd Hb. unfold digit_value, digit_char.
  destruct (N.ltb_spec d 10) as [H|H]; rewrite ascii_N_embedding by lia.
  - rewrite (proj2 (N.leb_le 48 _)), (proj2 (N.leb_le _ 57)) by lia. simpl.
    replace (48 + d - 48) with d by lia. by rewrite (proj2 (N.ltb_lt _ _) Hd).
  - rewrite (proj2 (N.leb_le 48 _)), (proj2 (N.leb_gt _ 57)) by lia. simpl.
    rewrite (proj2 (N.leb_le 97 _)), (proj2 (N.leb_le _ 122)) by lia. simpl.
    replace (87 + d - 87) with d by lia. by rewrite (proj2 (N.ltb_lt _ _) Hd).
Qed.

Lemma fixed_app base w n acc : fixed base w n acc = fixed base w n "" +:+ acc.
Proof.
  revert n acc. induction w as [|w IH]; intros n acc; simpl; [done|].
  rewrite IH, (IH _ (String _ "")), app_assoc_string. done.
Qed.

Lemma length_fixed base w n : String.length (fixed base w n "") = w.
Proof.
  revert n. induction w as [|w IH]; intros n; simpl; [done|].
  rewrite fixed_app, length_app_string, IH. simpl. lia.
Qed.

Lemma fixed_split base j k n acc :
  0 < base → fixed base (j + k) n acc = fixed base j (n / base ^ N.of_nat k) (fixed base k n acc).
Proof.
  intros Hb. revert n acc. induction k as [|k IH]; intros n acc.
  { rewrite Nat.add_0_r, N.pow_0_r, N.div_1_r. done. }
  rewrite Nat.add_succ_r. simpl. rewrite IH, N.Div0.div_div. f_equal.
  by rewrite Nat2N.inj_succ, N.pow_succ_r'.
Qed.

Lemma fixed_zero base j acc : 0 < base → fixed base j 0 acc = zeros j +:+ acc.
Proof.
  intros Hb. revert acc. induction j as [|j IH]; intros acc; simpl; [done|].
  rewrite N.Div0.div_0_l, N.Div0.mod_0_l, IH.
  clear IH. induction j; simpl; congruence.
Qed.

(** Leading zeros pad a number to a width it fits in. *)
Lemma fixed_pad base j k n :
  0 < base → n < base ^ N.of_nat k → fixed base (j + k) n "" = zeros j +:+ fixed base k n "".
Proof. intros Hb Hn. by rewrite fixed_split, N.div_small, fixed_zero. Qed.

Lemma radix_loop_fixed fuel base n acc :
  2 ≤ base → n < 2 ^ N.of_nat fuel →
  ∃ k, radix_loop (S fuel) base n acc = fixed base (S k) n acc
       ∧ n < base ^ N.of_nat (S k) ∧ (k = 0%nat ∨ base ^ N.of_nat k ≤ n).
Proof.
  intros Hb. revert n acc. induction fuel as [|fuel IH]; intros n acc Hn; simpl.
  { exists 0%nat. change (2 ^ N.of_nat 0) with 1 in Hn. change (N.of_nat 1) with 1.
    assert (n / base = 0) as -> by (apply N.div_small; lia). simpl. rewrite N.pow_1_r. split; [done|lia]. }
  destruct (N.eqb_spec (n / base) 0) as [E|E].
  { exists 0%nat. apply N.div_small_iff in E; [|lia]. change (N.of_nat 1) with 1.
    rewrite N.pow_1_r. auto. }
  assert (n / base < 2 ^ N.of_nat fuel) as Hd.
  { rewrite Nat2N.inj_succ, N.pow_succ_r' in Hn. apply N.Div0.div_lt_upper_bound. nia. }
  destruct (IH (n / base) (String (digit_char (n mod base)) acc) Hd) as (k & Hk & Hlt & Hge).
  exists (S k). simpl in Hk |- *. rewrite Hk. split; [done|].
  pose proof (N.div_mod n base ltac:(lia)) as Hm. pose proof (N.mod_lt n base ltac:(lia)).
  rewrite !Nat2N.inj_succ, !N.pow_succ_r' in *. split; [nia|right].
  destruct Hge as [->|Hge].
  2:{ etrans; [apply N.mul_le_mono_l, Hge|]. by apply N.Div0.mul_div_le. }
  change (N.of_nat 0) with 0. rewrite N.pow_0_r.
  destruct (N.lt_ge_cases n base); [by rewrite N.div_small in E|lia].
Qed.

(** A number that fits its width is printed with exactly that many digits. *)
Lemma radix_fixed base n :
  2 ≤ base → ∃ k, radix base n = fixed base (S k) n "" ∧ n < base ^ N.of_nat (S k) ∧ (k = 0%nat ∨ base ^ N.of_nat k ≤ n).
Proof.
  intros Hb. unfold radix.
  destruct (radix_loop_fixed (N.to_nat (N.log2 n) + 1) base n "" Hb) as (k & Hk & Hlt & Hge).
  { rewrite Nat2N.inj_add, N2Nat.id. change (N.of_nat 1) with 1. rewrite N.add_1_r.
    destruct (decide (n = 0)) as [->|]; [done|]. apply N.log2_spec. lia. }
  exists k. by rewrite Nat.add_succ_r, Hk.
Qed.

Lemma padded_fixed base w n :
  2 ≤ base → n < base ^ N.of_nat (S w) → padded base (S w) n = fixed base (S w) n "".
Proof.
  intros Hb Hn. unfold padded. destruct (radix_fixed base n Hb) as (k & -> & Hlt & Hge). rewrite length_fixed.
  assert (k ≤ w)%nat as Hkw.
  { destruct Hge as [->|Hge]; [lia|]. assert (N.of_nat k < N.of_nat (S w)); [|lia].
    apply (N.pow_lt_mono_r_iff base); lia. }
  rewrite <- fixed_pad by (done || lia). f_equal. lia.
Qed.

Lemma digits_value_app base acc a b :
  digits_value base acc (a +:+ b) = n ← digits_value base acc a; digits_value base n b.
Proof.
  revert acc. induction a as [|c a IH]; intros acc; simpl; [done|].
  destruct (digit_value base c); simpl; [apply IH|done].
Qed.

Lemma digits_value_fixed base w n acc :
  2 ≤ base ≤ 36 →
  digits_value base acc (fixed base w n "") = Some (acc * base ^ N.of_nat w + n mod base ^ N.of_nat w).
Proof.
  intros Hb. revert n acc. induction w as [|w IH]; intros n acc; simpl.
  { rewrite N.pow_0_r, N.mod_1_r. f_equal. lia. }
  rewrite fixed_app, digits_value_app, IH. simpl.
  rewrite digit_value_char by (try apply N.mod_lt; lia). simpl. f_equal.
  rewrite Nat2N.inj_succ, N.pow_succ_r', N.Div0.mod_mul_r. ring.
Qed.

Lemma fixed_nonempty base w n : ∃ c s, fixed base (S w) n "" = String c s.
Proof.
  destruct (fixed base (S w) n "") as [|c s] eqn:E; [|eauto].
  pose proof (length_fixed base (S w) n) as H. by rewrite E in H.
Qed.

(** The characters of digits are alphanumeric. *)
Lemma all_bytes_app f a b : all_bytes f (a +:+ b) = all_bytes f a && all_bytes f b.
Proof. induction a as [|c a IH]; simpl; [done|]. rewrite IH. apply andb_assoc. Qed.

Lemma all_bytes_fixed (f : N → bool) base w n :
  0 < base ≤ 16 →
  (∀ b, 48 ≤ b ≤ 57 ∨ 97 ≤ b ≤ 102 → f b = true) → all_bytes f (fixed base w n "") = true.
Proof.
  intros Hb Hf. revert n. induction w as [|w IH]; intros n; simpl; [done|].
  rewrite fixed_app, all_bytes_app, IH. simpl. rewrite andb_true_r.
  assert (n mod base < 16) as Hd by (eapply N.lt_le_trans; [apply N.mod_lt|]; lia).
  revert Hd. generalize (n mod base). intros d Hd. apply Hf. unfold digit_char.
  destruct (N.ltb_spec d 10); rewrite ascii_N_embedding; lia.
Qed.

Lemma get_ascii i s :
  all_bytes (λ b, b <? 128) s = true → is_char_boundary i s = Nat.leb i (String.length s).
Proof.
  unfold is_char_boundary. revert i. induction s as [|c s IH]; intros [|i]; cbn [String.get all_bytes String.length].
  - done.
  - done.
  - intros [Hc _]%andb_prop. by rewrite Hc.
  - intros [_ Hs]%andb_prop. change (Nat.leb (S i) (S (String.length s))) with (Nat.leb i (String.length s)).
    rewrite <- (IH i Hs). done.
Qed.

(** Every byte of an ASCII text is a boundary. *)
Lemma str_get_ascii a b s :
  all_bytes (λ b, b <? 128) s = true →
  str_get a b s = if Nat.leb a b && Nat.leb b (String.length s) then Some (String.substring a (b - a) s) else None.
Proof.
  intros Hs. unfold str_get. rewrite !get_ascii by done.
  destruct (Nat.leb_spec a b), (Nat.leb_spec a (String.length s)), (Nat.leb_spec b (String.length s)); try done; lia.
Qed.

Lemma split_app sep a b :
  all_bytes (λ c, negb (c =? Ascii.N_of_ascii sep)) a = true →
  split sep (a +:+ String sep b) = a :: split sep b.
Proof.
  induction a as [|c a IH]; simpl; [by rewrite Ascii.eqb_refl|].
  intros [Hc Ha]%andb_prop. destruct (Ascii.eqb_spec c sep) as [->|]; [by rewrite N.eqb_refl in Hc|].
  by rewrite IH.
Qed.

Lemma split_last sep a :
  all_bytes (λ c, negb (c =? Ascii.N_of_ascii sep)) a = true → split sep a = [a].
Proof.
  induction a as [|c a IH]; simpl; [done|].
  intros [Hc Ha]%andb_prop. destruct (Ascii.eqb_spec c sep) as [->|]; [by rewrite N.eqb_refl in Hc|].
  by rewrite IH.
Qed.

Lemma strip_prefix_app p s : strip_prefix p (p +:+ s) = Some s.
Proof. induction p as [|c p IH]; simpl; [done|]. by rewrite Ascii.eqb_refl. Qed.

Lemma strip_prefix_Some p s r : strip_prefix p s = Some r → s = p +:+ r.
Proof.
  revert s. induction p as [|c p IH]; intros [|b s]; simpl; try naive_solver.
  destruct (Ascii.eqb_spec c b) as [->|]; [|done]. intros H. by rewrite (IH _ H).
Qed.

Lemma substring_app_l a b : String.substring 0 (String.length a) (a +:+ b) = a.
Proof. induction a as [|c a IH]; simpl; [by destruct b|]. by rewrite IH. Qed.

Lemma substring_full s : String.substring 0 (String.length s) s = s.
Proof. rewrite <- (app_empty_r s) at 2. apply substring_app_l. Qed.

Lemma substring_app_r a b n : String.substring (String.length a) n (a +:+ b) = String.substring 0 n b.
Proof. induction a as [|c a IH]; simpl; [done|]. apply IH. Qed.

Lemma strip_suffix_app p s : strip_suffix p (s +:+ p) = Some s.
Proof.
  unfold strip_suffix. rewrite length_app_string.
  replace (String.length s + String.length p - String.length p)%nat with (String.length s) by lia.
  rewrite substring_app_r, substring_full, substring_app_l, String.eqb_refl, andb_true_r.
  by rewrite (proj2 (Nat.leb_le _ _)) by lia.
Qed.

Lemma substring_split n s :
  (n ≤ String.length s)%nat → String.substring 0 n s +:+ String.substring n (String.length s - n) s = s.
Proof.
  revert n. induction s as [|c s IH]; intros [|n] Hn; simpl in *; try lia; [done|by rewrite substring_full|].
  by rewrite IH by lia.
Qed.

Lemma strip_suffix_Some p s r : strip_suffix p s = Some r → s = r +:+ p.
Proof.
  unfold strip_suffix. destruct (Nat.leb_spec (String.length p) (String.length s)); [|done]. cbn [andb].
  destruct (String.eqb_spec (String.substring (String.length s - String.length p) (String.length p) s) p) as [E|]; [|done].
  intros [= <-]. rewrite <-E at 2. rewrite <-(substring_split (String.length s - String.length p) s) at 1 by lia.
  f_equal. f_equal; lia.
Qed.

Lemma list_ascii_app a b :
  String.list_ascii_of_string (a +:+ b) = String.list_ascii_of_string a ++ String.list_ascii_of_string b.
Proof. induction a as [|c a IH]; simpl; [done|]. by rewrite IH. Qed.

Lemma split_once_app sep a b :
  all_bytes (λ c, negb (c =? Ascii.N_of_ascii sep)) a = true →
  split_once sep (a +:+ String sep b) = Some (a, b).
Proof.
  induction a as [|c a IH]; simpl; [by rewrite Ascii.eqb_refl|].
  intros [Hc Ha]%andb_prop. destruct (Ascii.eqb_spec c sep) as [->|]; [by rewrite N.eqb_refl in Hc|].
  by rewrite IH.
Qed.

Lemma split_once_Some sep s a b : split_once sep s = Some (a, b) → s = a +:+ String sep b.
Proof.
  revert a. induction s as [|c s IH]; intros a; simpl; [done|].
  destruct (Ascii.eqb_spec c sep) as [->|]; [intros [= <- <-]; done|].
  destruct (split_once sep s) as [[l r]|]; simpl; [|done]. intros [= <- ->]. simpl.
  by rewrite (IH l eq_refl).
Qed.

(** Digits are neither signs nor separators. *)
Lemma fixed_no_byte base w n b :
  0 < base ≤ 16 → b < 48 → all_bytes (λ c, negb (c =? b)) (fixed base w n "") = true.
Proof.
  intros Hb Hlt. apply all_bytes_fixed; [done|]. intros c Hc.
  apply negb_true_iff, N.eqb_neq. lia.
Qed.

Lemma fixed_head_no_byte base w n b c s :
  0 < base ≤ 16 → b < 48 → fixed base w n "" = String c s → Ascii.eqb c (Ascii.ascii_of_N b) = false.
Proof.
  intros Hb Hlt E. pose proof (fixed_no_byte base w n b Hb Hlt) as H. rewrite E in H. simpl in H.
  apply andb_prop in H as [H _]. apply Ascii.eqb_neq. intros ->.
  by rewrite ascii_N_embedding, N.eqb_refl in H by lia.
Qed.

Lemma parse_unsigned_bound base bound s n : parse_unsigned base bound s = Some n → n ≤ bound.
Proof.
  unfold parse_unsigned. intros H. repeat case_match; try done; destruct (digits_value _ _ _); try done; cbn in H;
    destruct (N.leb_spec n0 bound); naive_solver.
Qed.

Lemma parse_unsigned_fixed base bound w n :
  2 ≤ base ≤ 16 → n < base ^ N.of_nat (S w) → n ≤ bound →
  parse_unsigned base bound (fixed base (S w) n "") = Some n.
Proof.
  intros Hb Hn Hle. unfold parse_unsigned.
  pose proof (digits_value_fixed base (S w) n 0 ltac:(lia)) as Hv.
  rewrite N.mod_small, N.mul_0_l, N.add_0_l in Hv by done.
  destruct (fixed_nonempty base w n) as (c & s & E). rewrite E in *.
  rewrite (fixed_head_no_byte base (S w) n 43 c s) by (done || lia).
  rewrite Hv. simpl. by rewrite (proj2 (N.leb_le _ _) Hle).
Qed.

Lemma parse_i64_fixed w n :
  n < 10 ^ N.of_nat (S w) → n ≤ Z.to_N i64_max → parse_i64 (fixed 10 (S w) n "") = Some (Z.of_N n).
Proof.
  intros Hn Hle. unfold parse_i64.
  pose proof (parse_unsigned_fixed 10 (Z.to_N i64_max) w n ltac:(lia) Hn Hle) as H.
  destruct (fixed_nonempty 10 w n) as (c & s & E). rewrite E in *.
  change char_dash with (Ascii.ascii_of_N 45).
  rewrite (fixed_head_no_byte 10 (S w) n 45 c s) by (done || lia). by rewrite H.
Qed.

(** ** Order

    Texts of one length compare part by part, and digits as numbers. *)

Lemma compare_app a b s t :
  String.length a = String.length b →
  String.compare (a +:+ s) (b +:+ t) = then_with (String.compare a b) (String.compare s t).
Proof.
  revert b. induction a as [|c a IH]; intros [|d b]; simpl; try done.
  intros [= E]. destruct (Ascii.compare c d); [by apply IH|done..].
Qed.

Lemma compare_refl_string s : String.compare s s = Eq.
Proof. pose proof (String.compare_antisym s s) as H. by destruct (String.compare s s). Qed.

Lemma compare_digits x y :
  x < 16 → y < 16 → Ascii.compare (digit_char x) (digit_char y) = (x ?= y).
Proof.
  intros Hx Hy. unfold Ascii.compare, digit_char.
  destruct (N.ltb_spec x 10), (N.ltb_spec y 10); rewrite !ascii_N_embedding by lia;
    destruct (N.compare_spec x y); try (apply N.compare_eq_iff; lia);
    try (apply N.compare_lt_iff; lia); apply N.compare_gt_iff; lia.
Qed.

Lemma compare_parts (base qa ra qb rb : N) :
  ra < base → rb < base →
  (base * qa + ra ?= base * qb + rb) = then_with (qa ?= qb) (ra ?= rb).
Proof.
  intros Ha Hb. destruct (N.compare_spec qa qb) as [->|E|E]; simpl.
  - destruct (N.compare_spec ra rb);
      [apply N.compare_eq_iff|apply N.compare_lt_iff|apply N.compare_gt_iff]; lia.
  - apply N.compare_lt_iff. nia.
  - apply N.compare_gt_iff. nia.
Qed.

Lemma compare_div_mod base a b :
  0 < base → (a ?= b) = then_with (a / base ?= b / base) (a mod base ?= b mod base).
Proof.
  intros Hb. rewrite <- (compare_parts base) by (apply N.mod_lt; lia).
  by rewrite <- !N.div_mod by lia.
Qed.

Lemma compare_fixed base w a b :
  0 < base ≤ 16 → a < base ^ N.of_nat w → b < base ^ N.of_nat w →
  String.compare (fixed base w a "") (fixed base w b "") = (a ?= b).
Proof.
  intros Hb. revert a b. induction w as [|w IH]; intros a b Ha Hb'.
  { change (base ^ N.of_nat 0) with 1 in *. by assert (a = 0) as -> by lia; assert (b = 0) as -> by lia. }
  cbn [fixed]. rewrite (fixed_app _ _ (a / base)), (fixed_app _ _ (b / base)).
  rewrite compare_app by (by rewrite !length_fixed).
  rewrite Nat2N.inj_succ, N.pow_succ_r' in *.
  rewrite IH by (apply N.Div0.div_lt_upper_bound; done). rewrite (compare_div_mod base a b) by lia.
  f_equal. simpl. rewrite compare_digits by (eapply N.lt_le_trans; [apply N.mod_lt|]; lia).
  by destruct (a mod base ?= b mod base).
Qed.
