(* ===== verification/PeerAuth.v ===== *)
(** * Authentication between peers

    Models [crates/logic/peer.rs], the predicates, and [crates/celld/peer_auth.rs]:
    the hexadecimal codec, the canonical text of a request, [signed_headers],
    [verify] and its replay cache.  HMAC-SHA256 and SHA-256 are other packages;
    they are arguments of the definitions that use them.

    The theorems: what a node signs its target accepts; an accepted request
    carries a signature over all of its fields, which the canonical text keeps
    apart; and a request is accepted once. *)

From S2P Require Import Prelude Text.

Module Peer.

(** ** The predicates *)

(** [valid_identity], which [machine::validate_node_name] asks. *)
Definition valid_identity (id : string) : bool :=
  negb (bool_decide (id = "")) && Nat.leb (String.length id) 128
  && negb (bool_decide (id = ".")) && negb (bool_decide (id = ".."))
  && all_bytes (λ b, is_ascii_alphanumeric b || (b =? 95) || (b =? 45) || (b =? 46)) id.

(** [within_clock_window]. *)
Definition within_clock_window (now timestamp window : N) : bool :=
  (if now <? timestamp then timestamp - now else now - timestamp) <=? window.

(** [replay_entry_expired]. *)
Definition replay_entry_expired (now seen_ms retention : N) : bool := retention <? sat_sub now seen_ms.

(** ** Hexadecimal *)

Abbreviation bytes := (list N).

(** [hex_nibble]. *)
Definition hex_nibble (v : N) : option N :=
  if (48 <=? v) && (v <=? 57) then Some (v - 48)
  else if (97 <=? v) && (v <=? 102) then Some (v - 97 + 10)
  else None.

(** [encode_hex]. *)
Fixpoint encode_hex (l : bytes) : string :=
  match l with
  | [] => ""
  | b :: l => String (digit_char (N.shiftr b 4)) (String (digit_char (N.land b 15)) (encode_hex l))
  end.

(** The loop of [decode_hex] over the pairs. *)
Fixpoint decode_pairs (s : string) : option bytes :=
  match s with
  | String a (String b s) =>
      hi ← hex_nibble (Ascii.N_of_ascii a);
      lo ← hex_nibble (Ascii.N_of_ascii b);
      rest ← decode_pairs s;
      Some (N.lor (N.shiftl hi 4) lo :: rest)
  | _ => Some []
  end.

(** [decode_hex::<N>]. *)
Definition decode_hex (n : nat) (s : string) : option bytes :=
  if Nat.eqb (String.length s) (n * 2) then decode_pairs s else None.

(** ** Signing *)

Definition PROTOCOL_VERSION_TEXT : string := "5".
Definition DOMAIN : string := "cells-peer-request-v1".
Definition CLOCK_WINDOW_MS : N := 30000.
Definition REPLAY_RETENTION_MS : N := CLOCK_WINDOW_MS * 2.
Definition MAX_REPLAY_ENTRIES : N := 1000000.

(** The headers a request carries, as [header] reads them. *)
Record Headers := mkHeaders {
  h_version : option string;
  h_source : option string;
  h_target : option string;
  h_timestamp : option string;
  h_nonce : option string;
  h_body_sha256 : option string;
  h_signature : option string;
}.

Record CanonicalRequest := mkCanonicalRequest {
  c_method : string;
  c_path_and_query : string;
  c_body_hash : string;
  c_source : string;
  c_target : string;
  c_timestamp : N;
  c_nonce : string;
}.

Definition newline : Ascii.ascii := Ascii.ascii_of_N 10.
Definition then_line (a b : string) : string := a +:+ String newline b.

(** The text [PeerAuth::mac] authenticates. *)
Definition canonical (r : CanonicalRequest) : string :=
  then_line DOMAIN (then_line PROTOCOL_VERSION_TEXT (then_line (c_method r) (then_line (c_path_and_query r)
    (then_line (c_body_hash r) (then_line (c_source r) (then_line (c_target r)
      (then_line (radix 10 (c_timestamp r)) (c_nonce r)))))))).

Inductive VerifyError := Unauthorized | WrongTarget | IncompatibleVersion | Replay | ReplayCapacity.

Record ReplayCache := mkReplayCache {
  entries : gmap bytes N;
  checks : N;
}.

Definition no_entries : ReplayCache := mkReplayCache ∅ 0.

(** The occasional purge of the cache. *)
Definition purged (now checks : N) (m : gmap bytes N) : gmap bytes N :=
  if (checks mod 1024 =? 0) || (MAX_REPLAY_ENTRIES <=? N.of_nat (size m))
  then filter (λ e, replay_entry_expired now e.2 REPLAY_RETENTION_MS = false) m
  else m.

(** The end of [PeerAuth::verify], under the cache's lock. *)
Definition admit_nonce (now : N) (nonce : bytes) (c : ReplayCache) : result unit VerifyError * ReplayCache :=
  let checks := sat_add (checks c) 1 in
  let kept := purged now checks (entries c) in
  if is_some (kept !! nonce) then (Err Replay, mkReplayCache kept checks)
  else if MAX_REPLAY_ENTRIES <=? N.of_nat (size kept) then (Err ReplayCapacity, mkReplayCache kept checks)
  else (Ok tt, mkReplayCache (<[nonce := now]> kept) checks).

(** One request as it arrives at a node. *)
Record Request := mkRequest {
  r_method : string;
  r_path_and_query : string;
  r_headers : Headers;
  r_body : bytes;
}.

Section crypto.
Context (hmac_sha256 : bytes → string → bytes) (sha256 : bytes → bytes).

(** [PeerAuth::signed_headers_parts] at a clock reading and a nonce. *)
Definition signed_headers (key : bytes) (source method path_and_query : string) (body : bytes) (target : string)
    (timestamp : N) (nonce : bytes) : option Headers :=
  if negb (valid_identity target) then None
  else
    let nonce := encode_hex nonce in
    let body_hash := encode_hex (sha256 body) in
    let signature := encode_hex (hmac_sha256 key
      (canonical (mkCanonicalRequest method path_and_query body_hash source target timestamp nonce))) in
    Some (mkHeaders (Some PROTOCOL_VERSION_TEXT) (Some source) (Some target) (Some (radix 10 timestamp))
            (Some nonce) (Some body_hash) (Some signature)).

(** What [verify] checks before it takes the cache's lock: the request it
    authenticated and its nonce. *)
Definition authenticate (key : bytes) (expected_target : string) (now : N) (r : Request)
    : result (CanonicalRequest * bytes) VerifyError :=
  let h := r_headers r in
  match h_version h with
  | None => Err Unauthorized
  | Some version =>
      if negb (bool_decide (version = PROTOCOL_VERSION_TEXT)) then Err IncompatibleVersion
      else
        source ←? ok_or (h_source h) Unauthorized;
        target ←? ok_or (h_target h) Unauthorized;
        if negb (valid_identity source) || negb (valid_identity target) then Err Unauthorized
        else
          timestamp ←? ok_or (h_timestamp h ≫= parse_unsigned 10 u64_max) Unauthorized;
          if negb (within_clock_window now timestamp CLOCK_WINDOW_MS) then Err Unauthorized
          else
            nonce_text ←? ok_or (h_nonce h) Unauthorized;
            nonce ←? ok_or (decode_hex 16 nonce_text) Unauthorized;
            claimed ←? ok_or (h_body_sha256 h) Unauthorized;
            let body_hash := encode_hex (sha256 (r_body r)) in
            if negb (bool_decide (claimed = body_hash)) then Err Unauthorized
            else
              signature ←? ok_or (h_signature h ≫= decode_hex 32) Unauthorized;
              let request := mkCanonicalRequest (r_method r) (r_path_and_query r) body_hash source target timestamp nonce_text in
              if negb (bool_decide (hmac_sha256 key (canonical request) = signature)) then Err Unauthorized
              else if negb (bool_decide (target = expected_target)) then Err WrongTarget
              else Ok (request, nonce)
  end.

(** [PeerAuth::verify] at a clock reading. *)
Definition verify (key : bytes) (expected_target : string) (now : N) (r : Request) (c : ReplayCache)
    : result unit VerifyError * ReplayCache :=
  match authenticate key expected_target now r with
  | Err e => (Err e, c)
  | Ok (_, nonce) => admit_nonce now nonce c
  end.

(** The verifications of one process, in the order of the cache's lock. *)
Fixpoint verify_all (key : bytes) (expected_target : string) (arrivals : list (N * Request)) (c : ReplayCache)
    : list (result unit VerifyError) * ReplayCache :=
  match arrivals with
  | [] => ([], c)
  | (now, r) :: arrivals =>
      let '(answer, c) := verify key expected_target now r c in
      let '(answers, c) := verify_all key expected_target arrivals c in
      (answer :: answers, c)
  end.

End crypto.

(** ** The hexadecimal round trip *)

Lemma hex_nibble_digit d : d < 16 → hex_nibble (Ascii.N_of_ascii (digit_char d)) = Some d.
Proof.
  intros Hd. unfold digit_char, hex_nibble.
  destruct (N.ltb_spec d 10) as [H|H]; rewrite ascii_N_embedding by lia.
  - rewrite (proj2 (N.leb_le 48 (48 + d))), (proj2 (N.leb_le (48 + d) 57)) by lia. simpl. f_equal. lia.
  - rewrite (proj2 (N.leb_gt (87 + d) 57)), andb_false_r by lia.
    rewrite (proj2 (N.leb_le 97 (87 + d))), (proj2 (N.leb_le (87 + d) 102)) by lia. simpl. f_equal. lia.
Qed.

Lemma nibbles_byte b : N.lor (N.shiftl (N.shiftr b 4) 4) (N.land b 15) = b.
Proof.
  change 15 with (N.ones 4). apply N.bits_inj. intros i. rewrite N.lor_spec, N.land_spec.
  destruct (N.lt_ge_cases i 4) as [Hi|Hi].
  - rewrite N.shiftl_spec_low, N.ones_spec_low by done. by rewrite andb_true_r.
  - rewrite N.shiftl_spec_high', N.shiftr_spec', N.ones_spec_high by done.
    rewrite andb_false_r, orb_false_r. f_equal. lia.
Qed.

Lemma decode_pairs_encode l : Forall (λ b, b < 256) l → decode_pairs (encode_hex l) = Some l.
Proof.
  induction 1 as [|b l Hb _ IH]; [done|].
  assert (N.shiftr b 4 < 16) as Hhi by (rewrite N.shiftr_div_pow2; by apply N.Div0.div_lt_upper_bound).
  assert (N.land b 15 < 16) as Hlo by (change 15 with (N.ones 4); rewrite N.land_ones; by apply N.mod_lt).
  cbn [encode_hex decode_pairs]. rewrite (hex_nibble_digit _ Hhi), (hex_nibble_digit _ Hlo), IH. simpl.
  by rewrite nibbles_byte.
Qed.

Lemma length_encode_hex l : String.length (encode_hex l) = (length l * 2)%nat.
Proof. induction l as [|b l IH]; simpl; [done|]. lia. Qed.

Lemma decode_encode_hex n l : length l = n → Forall (λ b, b < 256) l → decode_hex n (encode_hex l) = Some l.
Proof. intros Hn Hl. unfold decode_hex. rewrite length_encode_hex, Hn, Nat.eqb_refl. by apply decode_pairs_encode. Qed.

(** ** The canonical text keeps its fields apart *)

Definition one_line (s : string) : bool := all_bytes (λ c, negb (c =? Ascii.N_of_ascii newline)) s.

Definition well_formed (r : CanonicalRequest) : Prop :=
  one_line (c_method r) = true ∧ one_line (c_path_and_query r) = true ∧ one_line (c_body_hash r) = true
  ∧ one_line (c_source r) = true ∧ one_line (c_target r) = true ∧ one_line (c_nonce r) = true.

Lemma radix_line n : one_line (radix 10 n) = true.
Proof. destruct (radix_fixed 10 n ltac:(lia)) as (k & -> & _). by apply fixed_no_byte. Qed.

Lemma canonical_fields r :
  well_formed r →
  split newline (canonical r) =
    [DOMAIN; PROTOCOL_VERSION_TEXT; c_method r; c_path_and_query r; c_body_hash r; c_source r; c_target r;
     radix 10 (c_timestamp r); c_nonce r].
Proof.
  intros (H1 & H2 & H3 & H4 & H5 & H6). unfold canonical, then_line.
  rewrite !split_app by (done || apply radix_line). by rewrite split_last.
Qed.

Lemma radix_inj n m : radix 10 n = radix 10 m → n = m.
Proof.
  intros E. destruct (radix_fixed 10 n ltac:(lia)) as (k & Hk & Hn & _). destruct (radix_fixed 10 m ltac:(lia)) as (j & Hj & Hm & _).
  pose proof (digits_value_fixed 10 (S k) n 0 ltac:(lia)) as E1. pose proof (digits_value_fixed 10 (S j) m 0 ltac:(lia)) as E2.
  rewrite <-Hk, E, Hj, E2 in E1. rewrite !N.mod_small in E1 by done. injection E1 as E1. lia.
Qed.

(** Two requests with the same authenticated text are the same request. *)
Lemma canonical_inj r r' : well_formed r → well_formed r' → canonical r = canonical r' → r = r'.
Proof.
  intros Hr Hr' E. pose proof (canonical_fields r Hr) as E1. rewrite E, (canonical_fields r' Hr') in E1.
  destruct r, r'; simpl in *. injection E1 as -> -> -> -> -> E1 ->. by rewrite (radix_inj _ _ E1).
Qed.

(** ** The replay cache *)

Lemma purged_keeps now checks m seen t :
  m !! seen = Some t → now - t ≤ REPLAY_RETENTION_MS → purged now checks m !! seen = Some t.
Proof.
  intros Hs Ht. unfold purged. destruct (_ || _); [|done]. apply map_lookup_filter_Some. split; [done|]. simpl.
  unfold replay_entry_expired, sat_sub. by apply N.ltb_ge.
Qed.

(** A nonce leaves the cache only when its retention has passed. *)
Lemma admit_nonce_keeps now nonce c seen t answer c' :
  admit_nonce now nonce c = (answer, c') → entries c !! seen = Some t → now - t ≤ REPLAY_RETENTION_MS →
  entries c' !! seen = Some t.
Proof.
  intros E Hs Ht. unfold admit_nonce in E. pose proof (purged_keeps now (sat_add (checks c) 1) _ _ _ Hs Ht) as Hk.
  revert E Hk. generalize (purged now (sat_add (checks c) 1) (entries c)). intros kept E Hk.
  destruct (kept !! nonce) as [t'|] eqn:En; simpl in E; [by injection E as _ <-|].
  case_match; injection E as _ <-; simpl; [done|]. rewrite lookup_insert_ne; [done|]. congruence.
Qed.

Lemma admit_nonce_Ok now nonce c c' : admit_nonce now nonce c = (Ok tt, c') → entries c' !! nonce = Some now.
Proof.
  unfold admit_nonce. case_match; [done|]. case_match; [done|]. intros [= <-]. apply lookup_insert_eq.
Qed.

Section replay.
Context (hmac_sha256 : bytes → string → bytes) (sha256 : bytes → bytes).
Notation verify := (verify hmac_sha256 sha256).
Notation verify_all := (verify_all hmac_sha256 sha256).

(** What an authenticated request satisfied. *)
Lemma authenticate_Ok key target now r request nonce :
  authenticate hmac_sha256 sha256 key target now r = Ok (request, nonce) →
  (h_nonce (r_headers r) ≫= decode_hex 16) = Some nonce
  ∧ (h_timestamp (r_headers r) ≫= parse_unsigned 10 u64_max) = Some (c_timestamp request)
  ∧ within_clock_window now (c_timestamp request) CLOCK_WINDOW_MS = true
  ∧ (h_signature (r_headers r) ≫= decode_hex 32) = Some (hmac_sha256 key (canonical request))
  ∧ c_method request = r_method r ∧ c_path_and_query request = r_path_and_query r
  ∧ c_body_hash request = encode_hex (sha256 (r_body r)) ∧ c_target request = target.
Proof.
  unfold authenticate. destruct (h_version _); [|done]. case_match; [done|].
  destruct (h_source _); simpl; [|done]. destruct (h_target _); simpl; [|done]. case_match; [done|].
  destruct (h_timestamp _ ≫= _) eqn:Ets; simpl; [|done].
  destruct (within_clock_window _ _ _) eqn:Ew; simpl; [|done].
  destruct (h_nonce _) eqn:En; simpl; [|done]. destruct (decode_hex 16 _) eqn:Ed; simpl; [|done].
  destruct (h_body_sha256 _); simpl; [|done]. case_match; [done|].
  destruct (h_signature _ ≫= _) eqn:Es; simpl; [|done].
  case_match eqn:Hm; [done|]. case_match eqn:Ht; [done|].
  apply negb_false_iff, bool_decide_eq_true in Hm, Ht. intros Heq. by simplify_eq.
Qed.

Lemma verify_keeps key target now r c seen t answer c' :
  verify key target now r c = (answer, c') → entries c !! seen = Some t → now - t ≤ REPLAY_RETENTION_MS →
  entries c' !! seen = Some t.
Proof.
  unfold Peer.verify. destruct (authenticate _ _ _ _ _ _) as [[? ?]|]; [|by intros [= _ <-]]. apply admit_nonce_keeps.
Qed.

Lemma verify_all_keeps key target arrivals c seen t answers c' :
  verify_all key target arrivals c = (answers, c') → entries c !! seen = Some t →
  Forall (λ a : N * Request, a.1 - t ≤ REPLAY_RETENTION_MS) arrivals → entries c' !! seen = Some t.
Proof.
  revert c answers. induction arrivals as [|[now r] arrivals IH]; intros c answers E Hs Hf; simpl in E.
  { by injection E as _ <-. }
  apply Forall_cons in Hf as [Hn Hf]. simpl in Hn.
  destruct (verify key target now r c) as [answer c1] eqn:E1.
  destruct (verify_all key target arrivals c1) as [answers1 c2] eqn:E2. injection E as _ <-.
  eapply IH; [exact E2| |done]. by eapply verify_keeps.
Qed.

(** C15: A request is accepted once.  After a node accepted a request, whatever it
    verifies meanwhile, a request with the same nonce and timestamp is refused
    for as long as its clock lets it through at all: the retention of the cache
    outlives the acceptance window on both sides. *)
Theorem replay_refused key target now r c c1 between answers c2 now' r' :
  verify key target now r c = (Ok tt, c1) →
  verify_all key target between c1 = (answers, c2) →
  Forall (λ a : N * Request, a.1 ≤ now') between →
  h_nonce (r_headers r') = h_nonce (r_headers r) → h_timestamp (r_headers r') = h_timestamp (r_headers r) →
  ∃ e, (verify key target now' r' c2).1 = Err e.
Proof.
  unfold Peer.verify. intros E Eb Hb Hn Ht.
  destruct (authenticate _ _ _ _ now r) as [[q nonce]|] eqn:Ea; [|done].
  destruct (authenticate _ _ _ _ now' r') as [[q' nonce']|e] eqn:Ea'; [|by exists e].
  apply authenticate_Ok in Ea as (Hn1 & Ht1 & Hw1 & _). apply authenticate_Ok in Ea' as (Hn2 & Ht2 & Hw2 & _).
  rewrite Hn, Hn1 in Hn2. injection Hn2 as <-. rewrite Ht, Ht1 in Ht2. injection Ht2 as Hts. rewrite <-Hts in Hw2.
  assert (now' - now ≤ REPLAY_RETENTION_MS) as Hgap.
  { unfold within_clock_window, REPLAY_RETENTION_MS in *. apply N.leb_le in Hw1, Hw2.
    destruct (N.ltb_spec now (c_timestamp q)), (N.ltb_spec now' (c_timestamp q)); lia. }
  assert (entries c2 !! nonce = Some now) as Hs.
  { eapply verify_all_keeps; [exact Eb|by eapply admit_nonce_Ok|]. eapply Forall_impl; [exact Hb|]. simpl. lia. }
  destruct (admit_nonce now' nonce c2) as [[[]|e] c3] eqn:E3; [|by exists e].
  exfalso. revert E3. unfold admit_nonce.
  by rewrite (purged_keeps _ _ _ _ _ Hs Hgap).
Qed.

End replay.

(** HMAC-SHA256 gives 32 bytes. *)
Definition mac_bytes (hmac_sha256 : bytes → string → bytes) : Prop :=
  ∀ key text, length (hmac_sha256 key text) = 32%nat ∧ Forall (λ b, b < 256) (hmac_sha256 key text).

Lemma admit_nonce_fresh now nonce c :
  entries c !! nonce = None → N.of_nat (size (entries c)) < MAX_REPLAY_ENTRIES →
  ∃ c', admit_nonce now nonce c = (Ok tt, c').
Proof.
  intros Hn Hs. unfold admit_nonce.
  assert (purged now (sat_add (checks c) 1) (entries c) ⊆ entries c) as Hsub.
  { unfold purged. destruct (_ || _); [apply map_filter_subseteq|done]. }
  pose proof (map_subseteq_size _ _ Hsub) as Hsize.
  revert Hsub Hsize. generalize (purged now (sat_add (checks c) 1) (entries c)). intros kept Hsub Hsize.
  destruct (kept !! nonce) eqn:Ek; simpl.
  { apply (lookup_weaken _ (entries c)) in Ek; [congruence|done]. }
  destruct (N.leb_spec MAX_REPLAY_ENTRIES (N.of_nat (size kept))); [lia|]. by eexists.
Qed.

(** What a node signs, its target accepts: the headers one peer signs for
    another verify there under the shared key, within the clock window, the
    first time and while the cache has room. *)
Theorem signed_accepted hmac_sha256 sha256 key source method path body target timestamp nonce now c :
  mac_bytes hmac_sha256 →
  valid_identity source = true → valid_identity target = true →
  length nonce = 16%nat → Forall (λ b, b < 256) nonce → timestamp ≤ u64_max →
  within_clock_window now timestamp CLOCK_WINDOW_MS = true →
  entries c !! nonce = None → N.of_nat (size (entries c)) < MAX_REPLAY_ENTRIES →
  ∃ headers c',
    signed_headers hmac_sha256 sha256 key source method path body target timestamp nonce = Some headers
    ∧ verify hmac_sha256 sha256 key target now (mkRequest method path headers body) c = (Ok tt, c').
Proof.
  intros Hmac Hs Ht Hn Hnb Hts Hw Hf Hsize.
  destruct (admit_nonce_fresh now nonce c Hf Hsize) as (c' & Ec).
  unfold signed_headers. rewrite Ht. simpl. eexists _, c'. split; [done|].
  unfold verify, authenticate. cbn -[canonical encode_hex radix]. rewrite Hs, Ht. simpl orb.
  destruct (radix_fixed 10 timestamp ltac:(lia)) as (k & Hk & Hlt & _).
  rewrite Hk, parse_unsigned_fixed by (done || lia). cbn -[canonical encode_hex fixed].
  rewrite Hw. cbn -[canonical encode_hex fixed]. rewrite (decode_encode_hex 16 nonce Hn Hnb). cbn -[canonical encode_hex fixed].
  rewrite bool_decide_eq_true_2 by done. cbn -[canonical encode_hex fixed].
  match goal with |- context [hmac_sha256 key ?t] => destruct (Hmac key t) as [Hlen Hby] end.
  rewrite (decode_encode_hex 32 _ Hlen Hby). cbn -[canonical encode_hex fixed].
  rewrite !bool_decide_eq_true_2 by done. done.
Qed.

(** A stand-in for the keyed hash in the examples. *)
Definition toy_mac (key : bytes) (text : string) : bytes := replicate 32 (N.of_nat (String.length text) mod 256).
Definition toy_hash (body : bytes) : bytes := replicate 32 (N.of_nat (length body) mod 256).
Definition toy_nonce : bytes := replicate 16 7.

Lemma signed_accepted_witness :
  mac_bytes toy_mac ∧
  ∃ headers c', signed_headers toy_mac toy_hash [1] "node-a" "POST" "/peer/handoff" [1; 2] "node-b" 50000 toy_nonce = Some headers
    ∧ verify toy_mac toy_hash [1] "node-b" 70000 (mkRequest "POST" "/peer/handoff" headers [1; 2]) no_entries = (Ok tt, c').
Proof.
  assert (mac_bytes toy_mac) as Hm.
  { intros key text. split; [apply length_replicate|]. apply Forall_replicate. by apply N.mod_lt. }
  split; [done|]. apply signed_accepted; try done. by apply Forall_replicate.
Defined.

(** The signed request of the example, verified at a time. *)
Definition sample_request : Request :=
  mkRequest "POST" "/peer/handoff"
    (default (mkHeaders None None None None None None None)
       (signed_headers toy_mac toy_hash [1] "node-a" "POST" "/peer/handoff" [1; 2] "node-b" 50000 toy_nonce)) [1; 2].

Lemma replay_refused_witness :
  ∃ c1 e, verify toy_mac toy_hash [1] "node-b" 20000 sample_request no_entries = (Ok tt, c1)
    ∧ (verify toy_mac toy_hash [1] "node-b" 80000 sample_request c1).1 = Err e.
Proof.
  destruct (verify toy_mac toy_hash [1] "node-b" 20000 sample_request no_entries) as [a c1] eqn:E.
  assert (a = Ok tt) as -> by (revert E; vm_compute; by intros [= <- _]).
  destruct (replay_refused toy_mac toy_hash [1] "node-b" 20000 sample_request no_entries c1 [] [] c1 80000 sample_request E)
    as (e & He); [done|constructor|done|done|]. exists c1, e. split; [reflexivity|exact He].
Defined.

(** A retention of one clock window, which is what the predicate asks for, is
    not enough: a request stamped ahead of the clock is accepted, forgotten
    and still inside its window. *)
Lemma one_window_forgets :
  ∃ seen now timestamp,
    within_clock_window seen timestamp CLOCK_WINDOW_MS = true
    ∧ replay_entry_expired now seen CLOCK_WINDOW_MS = true
    ∧ within_clock_window now timestamp CLOCK_WINDOW_MS = true.
Proof. exists 0, 60000, 30000. done. Qed.

End Peer.
