(* ===== verification/Http.v ===== *)
(** * The authority of a request URL

    Models [crates/logic/http.rs]: which [Host] values the node installs in
    [request.url].  The IPv6 literal is read by the parser of [std::net], which
    is modelled as far as it decides: the groups, the elision and the embedded
    IPv4 tail.

    The theorem is the fence the module states: between [://] and the request
    target, an accepted authority holds nothing a URL parser splits at, so the
    parts of the URL are the parts the node put there. *)

From S2P Require Import Prelude Text.

Module Http.

(** ** [Ipv6Addr::from_str] *)

(** [Parser::read_number]: a run of at most [max_digits] digits of the radix
    whose value fits; a longer run fails, and so does a leading zero where the
    prefix is not allowed. *)
Fixpoint take_digits (base : N) (s : string) : string * string :=
  match s with
  | String c rest =>
      match digit_value base c with
      | Some _ => let '(digits, rest) := take_digits base rest in (String c digits, rest)
      | None => ("", s)
      end
  | EmptyString => ("", "")
  end.

Definition read_number (base : N) (max_digits : nat) (allow_zero_prefix : bool) (bound : N) (s : string) : option string :=
  let '(digits, rest) := take_digits base s in
  if bool_decide (digits = "") || Nat.ltb max_digits (String.length digits) then None
  else if negb allow_zero_prefix && bool_decide (String.get 0 digits = Some (digit_char 0)) && Nat.ltb 1 (String.length digits) then None
  else match digits_value base 0 digits with
       | Some n => if n <=? bound then Some rest else None
       | None => None
       end.

(** [Parser::read_given_char] and [Parser::read_separator]: the separator stands
    before every item but the first. *)
Definition read_char (c : Ascii.ascii) (s : string) : option string :=
  match s with
  | String a rest => if Ascii.eqb a c then Some rest else None
  | EmptyString => None
  end.
Definition read_separator (sep : Ascii.ascii) (index : nat) (inner : string → option string) (s : string) : option string :=
  match index with
  | O => inner s
  | S _ => read_char sep s ≫= inner
  end.

Definition char_dot : Ascii.ascii := Ascii.ascii_of_N 46.

(** [Parser::read_ipv4_addr]. *)
Fixpoint read_octets (n index : nat) (s : string) : option string :=
  match n with
  | O => Some s
  | S n => read_separator char_dot index (read_number 10 3 false 255) s ≫= read_octets n (S index)
  end.
Definition read_ipv4_addr (s : string) : option string := read_octets 4 0 s.

(** [read_groups] of [Parser::read_ipv6_addr] over [slots] more slots: the number
    of groups read, whether they end in an IPv4 address, and the rest. *)
Fixpoint read_groups (slots index : nat) (s : string) : nat * bool * string :=
  match slots with
  | O => (index, false, s)
  | S slots =>
      match (if Nat.ltb 0 slots then read_separator char_colon index read_ipv4_addr s else None) with
      | Some rest => ((index + 2)%nat, true, rest)
      | None =>
          match read_separator char_colon index (read_number 16 4 true 65535) s with
          | Some rest => read_groups slots (S index) rest
          | None => (index, false, s)
          end
      end
  end.

(** [Parser::read_ipv6_addr]. *)
Definition read_ipv6_addr (s : string) : option string :=
  let '(head_size, head_ipv4, rest) := read_groups 8 0 s in
  if Nat.eqb head_size 8 then Some rest
  else if head_ipv4 then None
  else
    rest ← read_char char_colon rest;
    rest ← read_char char_colon rest;
    let '(_, _, rest) := read_groups (8 - (head_size + 1)) 0 rest in
    Some rest.

(** [literal.parse::<Ipv6Addr>().is_ok()]: the whole text is read. *)
Definition parse_ipv6 (s : string) : bool := bool_decide (read_ipv6_addr s = Some "").

(** ** The module *)

Definition MAX_AUTHORITY : nat := 260.
Definition MAX_PORT : N := 65535.

Definition is_ascii_digit (b : N) : bool := (48 <=? b) && (b <=? 57).
Definition is_ascii_hexdigit (b : N) : bool :=
  is_ascii_digit b || ((65 <=? b) && (b <=? 70)) || ((97 <=? b) && (b <=? 102)).

(** [str::starts_with] on a character. *)
Definition starts_with (c : Ascii.ascii) (s : string) : bool := bool_decide (String.get 0 s = Some c).

(** [valid_port]. *)
Definition valid_port (port : string) : bool :=
  negb (bool_decide (port = "")) && all_bytes is_ascii_digit port
  && is_some_and (λ n, n <=? MAX_PORT) (parse_u32 port).

(** [valid_octet]. *)
Definition valid_octet (octet : string) : bool :=
  negb (bool_decide (octet = "")) && all_bytes is_ascii_digit octet
  && (bool_decide (octet = "0") || negb (starts_with (digit_char 0) octet))
  && is_some_and (λ n, n <=? 255) (parse_u32 octet).

(** [reads_as_number]. *)
Definition reads_as_number (label : string) : bool :=
  match (match strip_prefix "0x" label with Some d => Some d | None => strip_prefix "0X" label end) with
  | Some digits => all_bytes is_ascii_hexdigit digits
  | None => negb (bool_decide (label = "")) && all_bytes is_ascii_digit label
  end.

(** The charset of a registered name. *)
Definition name_byte (b : N) : bool := is_ascii_alphanumeric b || (b =? 95) || (b =? 45) || (b =? 46).

(** [valid_reg_name]. *)
Definition valid_reg_name (name : string) : bool :=
  if bool_decide (name = "") || negb (all_bytes name_byte name) then false
  else
    let labels := default name (strip_suffix "." name) in
    match last (split char_dot labels) with
    | Some label =>
        if reads_as_number label then
          let octets := split char_dot labels in
          Nat.eqb (length octets) 4 && forallb valid_octet octets
        else true
    | None => true
    end.

(** [authority.split_at(authority.find(':').unwrap_or(authority.len()))]. *)
Fixpoint split_at_colon (s : string) : string * string :=
  match s with
  | EmptyString => ("", "")
  | String c rest =>
      if Ascii.eqb c char_colon then ("", s)
      else let '(a, b) := split_at_colon rest in (String c a, b)
  end.

Definition char_rbracket : Ascii.ascii := Ascii.ascii_of_N 93.

(** What follows the host in an authority, [None] where the host is refused. *)
Definition after_host (authority : string) : option string :=
  match strip_prefix "[" authority with
  | Some tail =>
      match split_once char_rbracket tail with
      | Some (literal, after) => if parse_ipv6 literal then Some after else None
      | None => None
      end
  | None =>
      let '(name, after) := split_at_colon authority in
      if valid_reg_name name then Some after else None
  end.

(** [valid_authority]. *)
Definition valid_authority (authority : string) : bool :=
  if bool_decide (authority = "") || Nat.ltb MAX_AUTHORITY (String.length authority) then false
  else match after_host authority with
       | None => false
       | Some after =>
           match strip_prefix ":" after with
           | Some port => valid_port port
           | None => bool_decide (after = "")
           end
       end.

Definition to_lower (c : Ascii.ascii) : Ascii.ascii :=
  let n := Ascii.N_of_ascii c in if (65 <=? n) && (n <=? 90) then Ascii.ascii_of_N (n + 32) else c.
Fixpoint lower (s : string) : string :=
  match s with EmptyString => "" | String c s => String (to_lower c) (lower s) end.

(** [has_idn_label]. *)
Definition has_idn_label (authority : string) : bool :=
  existsb (λ label, Nat.leb 4 (String.length label) && bool_decide (lower (String.substring 0 4 label) = "xn--"))
    (split char_dot authority).

Inductive AuthorityDecision := Reject | Use (authority : string) | NeedsUrlParser (authority : string).

(** [authority_decision]. *)
Definition authority_decision (authority : string) : AuthorityDecision :=
  if negb (valid_authority authority) then Reject
  else if has_idn_label authority then NeedsUrlParser authority
  else Use authority.

(** [canonical_scheme]. *)
Definition canonical_scheme (scheme : string) : option string :=
  if bool_decide (lower scheme = "http") then Some "http"%string
  else if bool_decide (lower scheme = "https") then Some "https"%string
  else None.

(** ** What a URL parser splits at *)

(** The bytes that end an authority or its userinfo, and those a parser drops
    or refuses: [/ \ ? # @], spaces, controls and everything outside ASCII. *)
Definition inert (b : N) : bool :=
  (32 <? b) && (b <? 127)
  && negb (b =? 47) && negb (b =? 92) && negb (b =? 63) && negb (b =? 35) && negb (b =? 64).

(** The authority a parser finds: up to the first byte that ends it. *)
Fixpoint url_authority (s : string) : string * string :=
  match s with
  | EmptyString => ("", "")
  | String c rest =>
      let n := Ascii.N_of_ascii c in
      if (n =? 47) || (n =? 92) || (n =? 63) || (n =? 35) then ("", s)
      else let '(a, b) := url_authority rest in (String c a, b)
  end.

(** ** The fence *)

(** A reader that takes inert bytes off the front. *)
Definition consumes (f : string → option string) : Prop :=
  ∀ s rest, f s = Some rest → ∃ p, s = p +:+ rest ∧ all_bytes inert p = true.

Lemma all_bytes_impl (f g : N → bool) s : (∀ b, f b = true → g b = true) → all_bytes f s = true → all_bytes g s = true.
Proof. intros Hi. induction s as [|c s IH]; simpl; [done|]. rewrite !andb_true_iff. naive_solver. Qed.

Lemma alphanumeric_inert b : is_ascii_alphanumeric b = true → inert b = true.
Proof.
  unfold is_ascii_alphanumeric, inert. rewrite !orb_true_iff, !andb_true_iff, !negb_true_iff, !N.eqb_neq, !N.leb_le, !N.ltb_lt. lia.
Qed.

Lemma digit_inert base c d : digit_value base c = Some d → inert (Ascii.N_of_ascii c) = true.
Proof.
  unfold digit_value. intros H. apply alphanumeric_inert. unfold is_ascii_alphanumeric.
  destruct ((48 <=? _) && _); [done|]. destruct ((97 <=? _) && _) eqn:E; [by rewrite orb_true_r|].
  destruct ((65 <=? _) && _); [|done]. by rewrite orb_true_r.
Qed.

Lemma take_digits_spec base s digits rest :
  take_digits base s = (digits, rest) → s = digits +:+ rest ∧ all_bytes inert digits = true.
Proof.
  revert digits rest. induction s as [|c s IH]; intros digits rest; simpl; [by intros [= <- <-]|].
  destruct (digit_value base c) as [d|] eqn:E; [|by intros [= <- <-]].
  destruct (take_digits base s) as [ds r] eqn:Et. intros [= <- <-]. destruct (IH _ _ eq_refl) as [-> Hi].
  simpl. by rewrite (digit_inert _ _ _ E).
Qed.

Lemma read_number_consumes base n z bound : consumes (read_number base n z bound).
Proof.
  intros s rest. unfold read_number. destruct (take_digits base s) as [digits r] eqn:E.
  destruct (take_digits_spec _ _ _ _ E) as [-> Hi]. repeat case_match; try done. intros [= <-]. by exists digits.
Qed.

Lemma read_char_consumes c : inert (Ascii.N_of_ascii c) = true → consumes (read_char c).
Proof.
  intros Hc [|a s] rest; simpl; [done|]. destruct (Ascii.eqb_spec a c) as [->|]; [|done]. intros [= <-].
  exists (String c ""). simpl. by rewrite Hc.
Qed.

Lemma bind_consumes f g : consumes f → consumes g → consumes (λ s, f s ≫= g).
Proof.
  intros Hf Hg s rest H. apply bind_Some in H as (m & Hm & Hr).
  destruct (Hf _ _ Hm) as (p & -> & Hp). destruct (Hg _ _ Hr) as (q & -> & Hq).
  exists (p +:+ q). by rewrite app_assoc_string, all_bytes_app, Hp, Hq.
Qed.

Lemma read_separator_consumes c i f : inert (Ascii.N_of_ascii c) = true → consumes f → consumes (read_separator c i f).
Proof. intros Hc Hf. destruct i; [done|]. by apply bind_consumes; [apply read_char_consumes|]. Qed.

Lemma read_octets_consumes n i : consumes (read_octets n i).
Proof.
  revert i. induction n as [|n IH]; intros i; [by intros s rest [= <-]; exists ""|].
  apply bind_consumes; [|apply IH]. apply read_separator_consumes; [done|apply read_number_consumes].
Qed.

Lemma read_groups_consumes n i s k v rest :
  read_groups n i s = (k, v, rest) → ∃ p, s = p +:+ rest ∧ all_bytes inert p = true.
Proof.
  revert i s. induction n as [|n IH]; intros i s; cbn [read_groups]; [intros [= _ _ <-]; by exists ""|].
  destruct (if Nat.ltb 0 n then _ else _) as [r|] eqn:E4.
  { intros [= _ _ <-]. destruct (Nat.ltb 0 n); [|done].
    by apply (read_separator_consumes char_colon i read_ipv4_addr) in E4; [|done|apply read_octets_consumes]. }
  destruct (read_separator char_colon i (read_number 16 4 true 65535) s) as [r|] eqn:E6; [|intros [= _ _ <-]; by exists ""].
  intros H. apply IH in H as (q & -> & Hq).
  apply (read_separator_consumes char_colon i) in E6 as (p & -> & Hp); [|done|apply read_number_consumes].
  exists (p +:+ q). by rewrite app_assoc_string, all_bytes_app, Hp, Hq.
Qed.

Lemma read_ipv6_consumes : consumes read_ipv6_addr.
Proof.
  intros s rest. unfold read_ipv6_addr. destruct (read_groups 8 0 s) as [[k v] r] eqn:E.
  apply read_groups_consumes in E as (p & -> & Hp). case_match; [intros [= <-]; by exists p|]. case_match; [done|].
  intros H1. apply bind_Some in H1 as (r1 & E1 & H2). apply bind_Some in H2 as (r2 & E2 & H3).
  apply (read_char_consumes char_colon) in E1 as (p1 & -> & Hp1); [|done].
  apply (read_char_consumes char_colon) in E2 as (p2 & -> & Hp2); [|done].
  destruct (read_groups _ 0 r2) as [[k2 v2] r3] eqn:E3. apply read_groups_consumes in E3 as (p3 & -> & Hp3).
  injection H3 as <-. exists (p +:+ p1 +:+ p2 +:+ p3). rewrite !app_assoc_string, !all_bytes_app, Hp, Hp1, Hp2, Hp3. done.
Qed.

Lemma valid_reg_name_inert name : valid_reg_name name = true → all_bytes inert name = true.
Proof.
  unfold valid_reg_name. case_match eqn:E; [done|]. intros _. apply orb_false_iff in E as [_ E]. apply negb_false_iff in E.
  revert E. apply all_bytes_impl. intros b. unfold name_byte. rewrite !orb_true_iff, !N.eqb_eq.
  intros [[[H| ->]| ->]| ->]; [by apply alphanumeric_inert|done..].
Qed.

Lemma split_at_colon_app s a b : split_at_colon s = (a, b) → s = a +:+ b.
Proof.
  revert a b. induction s as [|c s IH]; intros a b; simpl; [by intros [= <- <-]|].
  destruct (Ascii.eqb c char_colon); [by intros [= <- <-]|]. destruct (split_at_colon s) as [x y] eqn:E.
  intros [= <- <-]. simpl. by rewrite (IH _ _ eq_refl).
Qed.

Lemma after_host_inert authority after :
  after_host authority = Some after → ∃ p, authority = p +:+ after ∧ all_bytes inert p = true.
Proof.
  unfold after_host. destruct (strip_prefix "[" authority) as [tail|] eqn:Es.
  - apply strip_prefix_Some in Es as ->. destruct (split_once char_rbracket tail) as [[l a]|] eqn:E; [|done].
    apply split_once_Some in E as ->. unfold parse_ipv6. case_bool_decide as Hp; [|done]. intros [= <-].
    apply read_ipv6_consumes in Hp as (p & Hp & Hi). rewrite app_empty_r in Hp. subst l.
    exists ("[" +:+ p +:+ "]"). rewrite !app_assoc_string. split; [done|]. by rewrite !all_bytes_app, Hi.
  - destruct (split_at_colon authority) as [name a] eqn:E. apply split_at_colon_app in E as ->.
    destruct (valid_reg_name name) eqn:Hn; [|done]. intros [= <-]. exists name. split; [done|]. by apply valid_reg_name_inert.
Qed.

Lemma valid_authority_inert authority :
  valid_authority authority = true → all_bytes inert authority = true ∧ (String.length authority ≤ MAX_AUTHORITY)%nat.
Proof.
  unfold valid_authority. case_match eqn:E; [done|]. apply orb_false_iff in E as [_ E]. apply Nat.ltb_ge in E.
  destruct (after_host authority) as [after|] eqn:Ea; [|done]. apply after_host_inert in Ea as (p & -> & Hp).
  intros H. split; [|done]. rewrite all_bytes_app, Hp. simpl. destruct (strip_prefix ":" after) as [port|] eqn:Es.
  - apply strip_prefix_Some in Es as ->. rewrite all_bytes_app. simpl.
    unfold valid_port in H. apply andb_true_iff in H as [[_ H]%andb_true_iff _]. revert H. apply all_bytes_impl.
    intros b Hb. apply alphanumeric_inert. unfold is_ascii_alphanumeric. unfold is_ascii_digit in Hb. by rewrite Hb.
  - apply bool_decide_eq_true in H as ->. done.
Qed.

Lemma url_authority_app a target :
  all_bytes inert a = true → url_authority (a +:+ String char_slash target) = (a, String char_slash target).
Proof.
  induction a as [|c a IH]; [done|]. cbn [all_bytes]. intros [Hc Ha]%andb_true_iff. cbn [String.append url_authority].
  assert ((Ascii.N_of_ascii c =? 47) || (Ascii.N_of_ascii c =? 92) || (Ascii.N_of_ascii c =? 63) || (Ascii.N_of_ascii c =? 35) = false) as ->.
  { unfold inert in Hc. repeat rewrite andb_true_iff in Hc. rewrite !negb_true_iff in Hc. by destruct Hc as [[[[[_ ->] ->] ->] ->] _]. }
  by rewrite (IH Ha).
Qed.

(** C37: The authority is a fence.  An authority the node installs, with or without
    the further IDN check, is the one the client sent, within the length bound,
    and free of every byte a URL parser splits at, drops or refuses; so a parser
    that reads the URL finds exactly this authority and leaves exactly the request
    target. *)
Theorem authority_fence authority installed :
  authority_decision authority = Use installed ∨ authority_decision authority = NeedsUrlParser installed →
  installed = authority
  ∧ (String.length authority ≤ MAX_AUTHORITY)%nat
  ∧ all_bytes inert authority = true
  ∧ (∀ target, url_authority (authority +:+ String char_slash target) = (authority, String char_slash target)).
Proof.
  unfold authority_decision. destruct (valid_authority authority) eqn:E; simpl; [|by intros []].
  apply valid_authority_inert in E as [Hi Hl]. intros H. split; [destruct (has_idn_label authority); naive_solver|].
  split; [done|]. split; [done|]. intros target. by apply url_authority_app.
Qed.

Lemma authority_fence_witness :
  authority_decision "[2001:db8::1.2.3.4]:8080" = Use "[2001:db8::1.2.3.4]:8080"
  ∧ url_authority ("[2001:db8::1.2.3.4]:8080" +:+ String char_slash "admin?x=1")
    = ("[2001:db8::1.2.3.4]:8080"%string, String char_slash "admin?x=1").
Proof.
  assert (authority_decision "[2001:db8::1.2.3.4]:8080" = Use "[2001:db8::1.2.3.4]:8080") as E by (by vm_compute).
  split; [exact E|].
  destruct (authority_fence _ _ (or_introl E)) as (_ & _ & _ & H). exact (H "admin?x=1"%string).
Defined.

(** The shapes the module names. *)
Lemma refused_shapes :
  Forall (λ a, authority_decision a = Reject)
    ["a]b"; "::1"; "999.1.1.1"; "1.2.3.4.5"; "foo.1"; "010.1.1.1"; "0x7f.1"; "1234567890"; "evil.example#"; "host:"; "host:65536"; "[::1"; "user@host"; ""]
  ∧ authority_decision "xn--a" = NeedsUrlParser "xn--a" ∧ authority_decision "127.0.0.1:08080" = Use "127.0.0.1:08080"
  ∧ authority_decision "example.com." = Use "example.com.".
Proof. split; [|by vm_compute]. by repeat (constructor; [by vm_compute|]). Qed.

End Http.
