(* ===== verification/Kv.v ===== *)
(** * Workers KV: shards and large-value references

    Models [crates/logic/kv.rs]: the shard function and the cell name, the bound
    of a list page, and the reference of a value kept in the bucket, as a row
    stores it and as the collector finds it in a listing. *)

From S2P Require Import Prelude Text.

Module Kv.

Definition MAX_LIST_LIMIT : N := 1000.
Definition SHARDS : N := 1.

Inductive BlobRef := Legacy (digest : string) | V2 (epoch : N) (digest : string).
Inductive BlobRefError := ErrShape | ErrVersion | ErrEpoch | ErrDigest.
#[global] Instance BlobRefError_eq_dec : EqDecision BlobRefError.
Proof. solve_decision. Defined.

(** A lower-case hexadecimal digit. *)
Definition digest_byte (b : N) : bool := ((48 <=? b) && (b <=? 57)) || ((97 <=? b) && (b <=? 102)).

(** [validate_blob_digest]. *)
Definition validate_blob_digest (digest : string) : result string BlobRefError :=
  if Nat.eqb (String.length digest) 64 && all_bytes digest_byte digest then Ok digest else Err ErrDigest.

(** [parse_blob_epoch]. *)
Definition parse_blob_epoch (epoch : string) : result N BlobRefError :=
  match strip_prefix "e" epoch with
  | None => Err ErrEpoch
  | Some digits =>
      if bool_decide (digits = "") || bool_decide (String.get 0 digits = Some (digit_char 0)) then Err ErrEpoch
      else match parse_unsigned 10 u64_max digits with
           | Some n => if 0 <? n then Ok n else Err ErrEpoch
           | None => Err ErrEpoch
           end
  end.

(** [BlobRef::parse]. *)
Definition parse (reference : string) : result BlobRef BlobRefError :=
  match split char_colon reference with
  | [_] => digest ←? validate_blob_digest reference; Ok (Legacy digest)
  | _ :: _ :: _ :: _ :: _ => Err ErrShape
  | version :: parts =>
      if negb (bool_decide (version = "v2")) then Err ErrVersion
      else match parts with
           | [epoch; digest] =>
               epoch ←? parse_blob_epoch epoch;
               digest ←? validate_blob_digest digest;
               Ok (V2 epoch digest)
           | _ => Err ErrShape
           end
  | [] => Err ErrShape
  end.

(** [BlobRef::v2]. *)
Definition v2 (epoch : N) (digest : string) : result BlobRef BlobRefError :=
  if epoch =? 0 then Err ErrEpoch
  else digest ←? validate_blob_digest digest; Ok (V2 epoch digest).

(** [BlobRef::parse_object_suffix]. *)
Definition parse_object_suffix (suffix : string) : result BlobRef BlobRefError :=
  match split char_slash suffix with
  | [epoch; digest] =>
      epoch ←? parse_blob_epoch epoch;
      digest ←? validate_blob_digest digest;
      Ok (V2 epoch digest)
  | _ => Err ErrShape
  end.

(** [BlobRef::digest] and [BlobRef::epoch]. *)
Definition blob_digest (r : BlobRef) : string := match r with Legacy d | V2 _ d => d end.
Definition blob_epoch (r : BlobRef) : option N := match r with Legacy _ => None | V2 e _ => Some e end.

(** [BlobRef::encode]. *)
Definition encode (r : BlobRef) : string :=
  match r with
  | Legacy digest => digest
  | V2 epoch digest => "v2:e" +:+ radix 10 epoch +:+ ":" +:+ digest
  end.

(** [BlobRef::v2_object_prefix] and [BlobRef::object_key]. *)
Definition v2_object_prefix (cell : string) : string := "kv/blobs-v2/" +:+ cell +:+ "/".
Definition object_key (cell : string) (r : BlobRef) : string :=
  match r with
  | Legacy digest => "kv/blobs/" +:+ cell +:+ "/" +:+ digest
  | V2 epoch digest => "kv/blobs-v2/" +:+ cell +:+ "/e" +:+ radix 10 epoch +:+ "/" +:+ digest
  end.

(** [BlobRef::readable_by], [BlobRef::writable_by] and [BlobRef::collectable_by]. *)
Definition readable_by (activation_epoch : N) (r : BlobRef) : bool :=
  is_none_or (λ epoch, epoch <=? activation_epoch) (blob_epoch r).
Definition writable_by (activation_epoch : N) (r : BlobRef) : bool :=
  bool_decide (blob_epoch r = Some activation_epoch).
Definition collectable_by (collector_epoch : N) (r : BlobRef) : bool :=
  is_some_and (λ epoch, epoch <=? collector_epoch) (blob_epoch r).

(** [shard_of], [cell_name] and [list_limit]. *)
Definition shard_of (key : string) (shards : N) : N := fnv1a (bytes_of key) mod N.max shards 1.
Definition cell_name (namespace_id : string) (shard : N) : string := namespace_id +:+ "/" +:+ radix 10 shard.
Definition list_limit (requested : option Z) : N :=
  match requested with
  | Some limit => if (0 <? limit)%Z then N.min (Z.to_N limit) MAX_LIST_LIMIT else MAX_LIST_LIMIT
  | None => MAX_LIST_LIMIT
  end.

(** ** Round trips *)

Lemma digest_no_byte digest b :
  b < 48 ∨ b = 58 → all_bytes digest_byte digest = true → all_bytes (λ c, negb (c =? b)) digest = true.
Proof.
  intros Hb. induction digest as [|c s IH]; simpl; [done|]. rewrite !andb_true_iff. intros [Hc Hs]. split; [|auto].
  apply negb_true_iff, N.eqb_neq. unfold digest_byte in Hc. rewrite orb_true_iff, !andb_true_iff, !N.leb_le in Hc. lia.
Qed.

Lemma digit_char_inj d e : d < 10 → e < 10 → digit_char d = digit_char e → d = e.
Proof.
  intros Hd He E. pose proof (digit_value_char 10 d Hd ltac:(lia)) as H1. rewrite E in H1.
  rewrite (digit_value_char 10 e He) in H1 by lia. congruence.
Qed.

(** A number without leading zeros. *)
Lemma radix_head n : 0 < n → String.get 0 (radix 10 n) ≠ Some (digit_char 0) ∧ radix 10 n ≠ "".
Proof.
  intros Hn. destruct (radix_fixed 10 n ltac:(lia)) as (k & -> & Hlt & Hge). split.
  - change (S k) with (1 + k)%nat. rewrite fixed_split by done. cbn [fixed String.get]. intros [= E]. apply digit_char_inj in E.
    + destruct Hge as [->|Hge].
      * change (10 ^ N.of_nat 0) with 1 in *. rewrite N.div_1_r in E. rewrite N.mod_small in E; [lia|]. done.
      * rewrite N.mod_small in E; [|rewrite Nat2N.inj_succ, N.pow_succ_r' in Hlt; apply N.Div0.div_lt_upper_bound; lia].
        apply N.div_small_iff in E; [lia|]. apply N.pow_nonzero. done.
    + apply N.mod_lt. done.
    + done.
  - destruct (fixed_nonempty 10 k n) as (c & s & ->). done.
Qed.

Lemma parse_epoch_radix n : 0 < n → n ≤ u64_max → parse_blob_epoch ("e" +:+ radix 10 n) = Ok n.
Proof.
  intros Hn Hle. unfold parse_blob_epoch. rewrite strip_prefix_app.
  destruct (radix_head n Hn) as [Hh Hne]. rewrite !bool_decide_eq_false_2 by done. simpl orb.
  destruct (radix_fixed 10 n ltac:(lia)) as (k & -> & Hlt & _). rewrite parse_unsigned_fixed by (done || lia).
  by rewrite (proj2 (N.ltb_lt 0 n) Hn).
Qed.

Lemma validate_digest_Ok digest d : validate_blob_digest digest = Ok d → d = digest ∧ all_bytes digest_byte digest = true.
Proof.
  unfold validate_blob_digest. case_match eqn:E; [|done]. intros [= <-]. by apply andb_true_iff in E as [_ E].
Qed.

(** A large-value reference survives its row and its object key.  What a write
    mints reads back from the SQLite row as itself; its object lies under the
    prefix the collector lists, and the suffix of its key reads back as the same
    reference, so the collector's epoch test is the one of the write. *)
Theorem blob_ref_roundtrip epoch digest cell r :
  epoch ≤ u64_max → v2 epoch digest = Ok r →
  parse (encode r) = Ok r
  ∧ (∃ suffix, strip_prefix (v2_object_prefix cell) (object_key cell r) = Some suffix ∧ parse_object_suffix suffix = Ok r)
  ∧ ∀ e, collectable_by e r = (epoch <=? e) ∧ readable_by e r = (epoch <=? e) ∧ writable_by e r = (epoch =? e).
Proof.
  intros He. unfold v2. destruct (N.eqb_spec epoch 0) as [|Hz]; [done|].
  destruct (validate_blob_digest digest) as [d|] eqn:Ed; [|done]. intros [= <-].
  destruct (validate_digest_Ok _ _ Ed) as [-> Hd]. pose proof (parse_epoch_radix epoch ltac:(lia) He) as Hp.
  assert (∀ b, b < 48 ∨ b = 58 → all_bytes (λ c, negb (c =? b)) ("e" +:+ radix 10 epoch) = true) as Hl.
  { intros b Hb. rewrite all_bytes_app. apply andb_true_iff. split.
    { cbn [all_bytes]. rewrite andb_true_r. change (Ascii.N_of_ascii _) with 101. apply negb_true_iff, N.eqb_neq. lia. }
    destruct (radix_fixed 10 epoch ltac:(lia)) as (k & -> & _). apply all_bytes_fixed; [done|]. intros c Hc.
    apply negb_true_iff, N.eqb_neq. lia. }
  split; [|split].
  - unfold parse, encode.
    assert ("v2:e" +:+ radix 10 epoch +:+ ":" +:+ digest = "v2" +:+ String char_colon (("e" +:+ radix 10 epoch) +:+ String char_colon digest)) as ->
      by done.
    rewrite split_app by done. rewrite split_app by (apply Hl; by right).
    rewrite split_last by (apply digest_no_byte; [by right|done]). rewrite bool_decide_eq_true_2 by done. cbn -[String.append radix].
    by rewrite Hp, Ed.
  - exists ("e" +:+ radix 10 epoch +:+ "/" +:+ digest). unfold v2_object_prefix, object_key. split.
    + rewrite <-(strip_prefix_app ("kv/blobs-v2/" +:+ cell +:+ "/")). f_equal. by rewrite !app_assoc_string.
    + unfold parse_object_suffix.
      assert ("e" +:+ radix 10 epoch +:+ "/" +:+ digest = ("e" +:+ radix 10 epoch) +:+ String char_slash digest) as ->
        by (by rewrite app_assoc_string).
      rewrite split_app by (apply Hl; left; done). rewrite split_last by (apply digest_no_byte; [left; done|done]).
      by rewrite Hp, Ed.
  - intros e. split; [done|]. split; [done|]. unfold writable_by. simpl.
    destruct (N.eqb_spec epoch e) as [->|Hne]; [by rewrite bool_decide_eq_true_2|]. rewrite bool_decide_eq_false_2; [done|congruence].
Qed.

Fixpoint repeated (n : nat) (c : Ascii.ascii) : string := match n with O => "" | S n => String c (repeated n c) end.
Definition sample_digest : string := repeated 64 (digit_char 10).

Lemma blob_ref_roundtrip_witness :
  v2 7 sample_digest = Ok (V2 7 sample_digest) ∧ parse (encode (V2 7 sample_digest)) = Ok (V2 7 sample_digest).
Proof. split; [done|]. apply (blob_ref_roundtrip 7 sample_digest "cell"); done. Defined.

(** The strict form accepts a plus sign: two texts name one reference, and an
    object listed under [e+7] is taken for the one under [e7]. *)
Lemma epoch_accepts_sign :
  parse ("v2:e+7:" +:+ sample_digest) = Ok (V2 7 sample_digest)
  ∧ parse_object_suffix ("e+7/" +:+ sample_digest) = Ok (V2 7 sample_digest)
  ∧ object_key "cell" (V2 7 sample_digest) ≠ v2_object_prefix "cell" +:+ "e+7/" +:+ sample_digest.
Proof. by vm_compute. Qed.

(** Every key has a shard, and a page is never empty. *)
Lemma shard_of_bounds key shards : shard_of key shards < N.max shards 1.
Proof. apply N.mod_lt. lia. Qed.

Lemma list_limit_bounds requested : 1 ≤ list_limit requested ≤ MAX_LIST_LIMIT.
Proof. unfold list_limit, MAX_LIST_LIMIT. destruct requested as [l|]; [destruct (Z.ltb_spec 0 l)|]; lia. Qed.

End Kv.
