(* ===== verification/WakeIndex.v ===== *)
(** * The wake index

    Models the rest of [crates/logic/wake.rs] and the scope check of
    [crates/logic/cell.rs]: the keys of the bucket's wake entries, their parser,
    the retirement frontier and the bounded cache of confirmed publications
    ([WakeCore]).  A timestamp is an [i64] of milliseconds and stays far from
    the ends of the type wherever a key is built from it. *)

From S2P Require Import Prelude Calendar Text Wake.

(** ** Cell scopes ([cell.rs]) *)

Definition MAX_CELL_SCOPE : nat := 255.

(** [valid_cell_scope]. *)
Definition valid_cell_scope (scope : string) : bool :=
  negb (String.eqb scope "")
  && Nat.leb (String.length scope) MAX_CELL_SCOPE
  && negb (String.eqb scope ".")
  && negb (String.eqb scope "..")
  && all_bytes (λ b, is_ascii_alphanumeric b || (b =? 95) || (b =? 45) || (b =? 46) || (b =? 58) || (b =? 36))
       scope.

(** ** Publication identities *)

(** [PublicationId]'s [Display]. *)
Definition publication_string (id : PublicationId) : string :=
  padded 16 16 (pub_epoch id) +:+ "-" +:+ padded 16 16 (pub_sequence id).

(** [PublicationId::parse]. *)
Definition publication_parse (value : string) : option PublicationId :=
  '(epoch, sequence) ← split_once char_dash value;
  if negb (Nat.eqb (String.length epoch) 16) || negb (Nat.eqb (String.length sequence) 16) then None
  else
    epoch ← u64_from_hex epoch;
    sequence ← u64_from_hex sequence;
    let id := mkPublicationId epoch sequence in
    if (0 <? epoch) && String.eqb (publication_string id) value then Some id else None.

(** ** Minutes *)

(** [format!("{:0w}")] of a signed number: the sign counts to the width. *)
Definition padded_i64 (w : nat) (n : Z) : string :=
  if (n <? 0)%Z then "-" +:+ padded 10 (w - 1) (Z.to_N (- n)) else padded 10 w (Z.to_N n).

(** [minute_bucket]. *)
Definition minute_bucket (due_ms : Z) : string :=
  let mins := (due_ms / 60000)%Z in
  let '(y, mo, d) := civil_from_days (mins / 1440)%Z in
  let m := (mins mod 1440)%Z in
  padded_i64 4 y +:+ "-" +:+ padded_i64 2 mo +:+ "-" +:+ padded_i64 2 d +:+ "T"
  +:+ padded_i64 2 (m ÷ 60)%Z +:+ ":" +:+ padded_i64 2 (Z.rem m 60).

(** [parse_minute]. *)
Definition parse_minute (minute : string) : option Z :=
  if negb (Nat.eqb (String.length minute) 16) then None
  else
    y ← str_get 0 4 minute ≫= parse_i64;
    mo ← str_get 5 7 minute ≫= parse_u32;
    d ← str_get 8 10 minute ≫= parse_u32;
    h ← str_get 11 13 minute ≫= parse_i64;
    mi ← str_get 14 16 minute ≫= parse_i64;
    s1 ← str_get 4 5 minute;
    s2 ← str_get 7 8 minute;
    s3 ← str_get 10 11 minute;
    s4 ← str_get 13 14 minute;
    if negb (String.eqb s1 "-") || negb (String.eqb s2 "-") || negb (String.eqb s3 "T")
       || negb (String.eqb s4 ":")
       || negb ((1 <=? mo) && (mo <=? 12)) || negb ((1 <=? d) && (d <=? 31))
       || negb ((0 <=? h)%Z && (h <? 24)%Z) || negb ((0 <=? mi)%Z && (mi <? 60)%Z)
    then None
    else
      let ms := ((days_from_civil y (Z.of_N mo) (Z.of_N d) * 1440 + h * 60 + mi) * 60000)%Z in
      if String.eqb (minute_bucket ms) minute then Some ms else None.

(** ** Keys *)

Definition ENTRY_PREFIX : string := "wake/entries/".

(** [entry_key]. *)
Definition entry_key (due_ms : Z) (cell : string) (id : PublicationId) : string :=
  ENTRY_PREFIX +:+ minute_bucket due_ms +:+ "/" +:+ cell +:+ "/" +:+ publication_string id.

(** [migration_seed_key]. *)
Definition migration_seed_key (cell : string) : string :=
  ENTRY_PREFIX +:+ "1970-01-01T00:00/" +:+ cell +:+ "/migration".

Record ListedEntry := mkListedEntry {
  le_minute_ms : Z;
  le_cell : string;
  le_id : PublicationId;
}.

(** [parse_entry_key]. *)
Definition parse_entry_key (key : string) : option ListedEntry :=
  rest ← strip_prefix ENTRY_PREFIX key;
  match split char_slash rest with
  | minute :: cell :: identity :: more =>
      id ← (if String.eqb identity "migration" && String.eqb minute "1970-01-01T00:00"
            then Some (mkPublicationId 0 0) else publication_parse identity);
      if negb (bool_decide (more = [])) || negb (valid_cell_scope cell) then None
      else minute_ms ← parse_minute minute; Some (mkListedEntry minute_ms cell id)
  | _ => None
  end.

(** [parse_minute_prefix]. *)
Definition parse_minute_prefix (prefix : string) : option Z :=
  rest ← strip_prefix ENTRY_PREFIX prefix; parse_minute (trim_end char_slash rest).

(** [waker_may_claim]. *)
Definition waker_may_claim (held_by_us : bool) (expires_ms now_ms : Z) : bool :=
  held_by_us || (expires_ms <=? now_ms)%Z.

(** [elected_hint_needed]. *)
Definition elected_hint_needed (owner : option string) (node : string) (owner_live : bool) : bool :=
  match owner with
  | None => true
  | Some owner => if String.eqb owner node then true else negb owner_live
  end.

(** ** The cache of confirmed publications *)

#[global] Instance PublicationId_countable : Countable PublicationId.
Proof.
  refine (inj_countable' (λ id, (pub_epoch id, pub_sequence id)) (λ p, mkPublicationId p.1 p.2) _).
  by intros [].
Defined.

Definition pub_le (a b : PublicationId) : Prop :=
  pub_epoch a < pub_epoch b ∨ pub_epoch a = pub_epoch b ∧ pub_sequence a ≤ pub_sequence b.

#[global] Instance PublicationId_key_order : KeyOrder PublicationId.
Proof.
  refine {| key_le := pub_le |}; unfold pub_le.
  - intros a b. apply _.
  - intros a b. lia.
  - intros a b c. lia.
  - intros [] []. simpl. intros. f_equal; lia.
Defined.

Record Retirement := mkRetirement {
  ret_id : PublicationId;
  ret_at_ms : option Z;
}.

(** [Retirement::retires]. *)
Definition retires (r : Retirement) (candidate : PublicationId) : bool :=
  pub_ltb candidate (ret_id r)
  || (bool_decide (candidate = ret_id r) && negb (is_some (ret_at_ms r))).

Record Publication := mkPublication {
  publication_key : string;
  publication_alarm : AlarmSnapshot;
}.

Record WakeCore := mkWakeCore {
  wc_confirmed : gmap string (gmap PublicationId AlarmSnapshot);
}.

(** [WakeCore::new]. *)
Definition wake_core_new : WakeCore := mkWakeCore ∅.

(** [WakeCore::covered]. *)
Definition covered (core : WakeCore) (cell : string) (alarm : AlarmSnapshot) : bool :=
  is_some (snap_at_ms alarm) && is_some (snap_source alarm)
  && is_some_and (λ confirmed, same_installation confirmed alarm)
       (recent ← wc_confirmed core !! cell; snd <$> last (items recent)).

(** [WakeCore::publication]. *)
Definition publication (core : WakeCore) (cell : string) (alarm : AlarmSnapshot) : option Publication :=
  due_ms ← snap_at_ms alarm;
  source ← snap_source alarm;
  if (due_ms <? 0)%Z || (pub_epoch (src_id source) =? 0) || covered core cell alarm then None
  else Some (mkPublication (entry_key due_ms cell (src_id source)) alarm).

Definition RECENT_PUBLICATIONS : nat := 32.

(** The [while] of [WakeCore::confirm]: drop the oldest identities. *)
Fixpoint trim_recent (fuel : nat) (recent : gmap PublicationId AlarmSnapshot) :
    gmap PublicationId AlarmSnapshot :=
  match fuel with
  | O => recent
  | S fuel =>
      if Nat.ltb RECENT_PUBLICATIONS (size recent) then
        match keys recent with
        | first :: _ => trim_recent fuel (delete first recent)
        | [] => recent
        end
      else recent
  end.

(** [WakeCore::confirm]. *)
Definition confirm (core : WakeCore) (cell : string) (alarm : AlarmSnapshot) : WakeCore :=
  match snap_source alarm with
  | None => core
  | Some source =>
      if is_some (snap_at_ms alarm) then
        let recent := <[src_id source := alarm]> (default ∅ (wc_confirmed core !! cell)) in
        mkWakeCore (<[cell := trim_recent (size recent) recent]> (wc_confirmed core))
      else core
  end.

(** [WakeCore::take_retired]; [None] is the panic of [at_ms.unwrap()]. *)
Definition take_retired (core : WakeCore) (cell : string) (r : Retirement) :
    option (list string * WakeCore) :=
  match wc_confirmed core !! cell with
  | None => Some ([], core)
  | Some recent =>
      keys ← mapM (λ item : PublicationId * AlarmSnapshot,
                     at_ms ← snap_at_ms item.2; Some (entry_key at_ms cell item.1))
                  (filter (λ item, retires r item.1) (items recent));
      Some (keys, mkWakeCore (<[cell := filter (λ item, negb (retires r item.1)) recent]> (wc_confirmed core)))
  end.

(** [WakeCore::forget]. *)
Definition forget (core : WakeCore) (cell : string) : WakeCore :=
  mkWakeCore (delete cell (wc_confirmed core)).

(** ** The keys and their parser *)

(** The first instant whose year needs five digits. *)
Definition max_due : Z := 253402300800000%Z.

Lemma padded_i64_fixed w n :
  (0 ≤ n)%Z → Z.to_N n < 10 ^ N.of_nat (S w) →
  padded_i64 (S w) n = fixed 10 (S w) (Z.to_N n) "".
Proof.
  intros H0 Hn. unfold padded_i64. rewrite (proj2 (Z.ltb_ge n 0)) by done.
  by apply padded_fixed.
Qed.

(** A minute written with the digits of its parts. *)
Definition bucket_text (y mo d h mi : N) : string :=
  fixed 10 4 y "" +:+ "-" +:+ fixed 10 2 mo "" +:+ "-" +:+ fixed 10 2 d "" +:+ "T"
  +:+ fixed 10 2 h "" +:+ ":" +:+ fixed 10 2 mi "".

Lemma minute_bucket_text due :
  (0 ≤ due < max_due)%Z →
  ∃ y mo d h mi,
    minute_bucket due = bucket_text y mo d h mi
    ∧ y < 10000 ∧ 1 ≤ mo ≤ 12 ∧ 1 ≤ d ≤ 31 ∧ h < 24 ∧ mi < 60
    ∧ civil_from_days (due / 60000 / 1440) = (Z.of_N y, Z.of_N mo, Z.of_N d)
    ∧ (due / 60000 mod 1440 = Z.of_N (h * 60 + mi))%Z
    ∧ ((days_from_civil (Z.of_N y) (Z.of_N mo) (Z.of_N d) * 1440 + Z.of_N h * 60 + Z.of_N mi) * 60000
       = due - due mod 60000)%Z.
Proof.
  intros Hd. unfold max_due in Hd. set (days := (due / 60000 / 1440)%Z). set (m := (due / 60000 mod 1440)%Z).
  assert (0 ≤ days < 2932897)%Z as Hdays by (subst days; Z.to_euclidean_division_equations; lia).
  assert (0 ≤ m < 1440)%Z as Hm by (apply Z.mod_pos_bound; lia).
  pose proof (civil_year_range days Hdays) as Hy. pose proof (civil_days days) as Hc.
  destruct (civil_from_days days) as [[y mo] d] eqn:E. destruct Hc as [Hc (Hmo & Hdd)].
  pose proof (days_in_month_le y mo).
  exists (Z.to_N y), (Z.to_N mo), (Z.to_N d), (Z.to_N (m / 60)), (Z.to_N (m mod 60)).
  assert (0 ≤ m / 60 < 24 ∧ 0 ≤ m mod 60 < 60)%Z as [Hh Hi] by (Z.to_euclidean_division_equations; lia).
  split.
  { unfold minute_bucket. fold days m. rewrite E.
    rewrite Z.quot_div_nonneg, Z.rem_mod_nonneg by lia.
    rewrite !padded_i64_fixed by (simpl; lia). done. }
  split_and!; try lia.
  { rewrite !Z2N.id by lia. done. }
  { fold m. Z.to_euclidean_division_equations. lia. }
  rewrite !Z2N.id by lia. rewrite Hc. subst m days. Z.to_euclidean_division_equations. lia.
Qed.

(** The slices [parse_minute] takes. *)
Lemma bucket_slices y mo d h mi :
  let s := bucket_text y mo d h mi in
  String.length s = 16%nat
  ∧ str_get 0 4 s = Some (fixed 10 4 y "") ∧ str_get 5 7 s = Some (fixed 10 2 mo "")
  ∧ str_get 8 10 s = Some (fixed 10 2 d "") ∧ str_get 11 13 s = Some (fixed 10 2 h "")
  ∧ str_get 14 16 s = Some (fixed 10 2 mi "")
  ∧ str_get 4 5 s = Some "-" ∧ str_get 7 8 s = Some "-" ∧ str_get 10 11 s = Some "T"
  ∧ str_get 13 14 s = Some ":".
Proof.
  cbv zeta. split.
  { unfold bucket_text. by rewrite !length_app_string, !length_fixed. }
  assert (all_bytes (λ b, b <? 128) (bucket_text y mo d h mi) = true) as Hascii.
  { unfold bucket_text. rewrite !all_bytes_app, !all_bytes_fixed; [done|..]; try lia; intros b Hb; apply N.ltb_lt; lia. }
  rewrite !str_get_ascii by done. unfold bucket_text. cbn [fixed]. done.
Qed.

Lemma parse_minute_bucket due :
  (0 ≤ due < max_due)%Z → parse_minute (minute_bucket due) = Some (due - due mod 60000)%Z.
Proof.
  intros Hd. destruct (minute_bucket_text due Hd)
    as (y & mo & d & h & mi & Eb & Hy & Hmo & Hdd & Hh & Hmi & Hc & Hm & Hms).
  assert (minute_bucket (due - due mod 60000) = minute_bucket due) as Efloor.
  { unfold minute_bucket. replace ((due - due mod 60000) / 60000)%Z with (due / 60000)%Z; [done|].
    Z.to_euclidean_division_equations. lia. }
  rewrite Eb. unfold parse_minute.
  destruct (bucket_slices y mo d h mi) as (-> & -> & -> & -> & -> & -> & -> & -> & -> & ->).
  cbn [Nat.eqb negb mbind option_bind]. unfold parse_u32.
  rewrite !parse_i64_fixed, !parse_unsigned_fixed by (unfold u32_max, i64_max; simpl; lia).
  cbn [mbind option_bind]. rewrite Hms, Efloor, Eb, !String.eqb_refl.
  rewrite (proj2 (N.leb_le 1 mo)), (proj2 (N.leb_le mo 12)), (proj2 (N.leb_le 1 d)),
    (proj2 (N.leb_le d 31)), (proj2 (Z.leb_le 0 (Z.of_N h))), (proj2 (Z.ltb_lt (Z.of_N h) 24)),
    (proj2 (Z.leb_le 0 (Z.of_N mi))), (proj2 (Z.ltb_lt (Z.of_N mi) 60)) by lia.
  done.
Qed.

(** Identities of the 64-bit range. *)
Definition id_ok (id : PublicationId) : Prop := pub_epoch id ≤ u64_max ∧ pub_sequence id ≤ u64_max.

Lemma publication_string_fixed id :
  id_ok id →
  publication_string id = fixed 16 16 (pub_epoch id) "" +:+ "-" +:+ fixed 16 16 (pub_sequence id) "".
Proof.
  intros [He Hs]. unfold publication_string, u64_max in *. rewrite !padded_fixed by (simpl; lia). done.
Qed.

Lemma publication_roundtrip id :
  id_ok id → 0 < pub_epoch id → publication_parse (publication_string id) = Some id.
Proof.
  intros Hid He. pose proof Hid as [H1 H2]. unfold publication_parse. rewrite publication_string_fixed by done.
  change ("-" +:+ fixed 16 16 (pub_sequence id) "") with (String char_dash (fixed 16 16 (pub_sequence id) "")).
  rewrite split_once_app by (apply (fixed_no_byte _ _ _ 45); lia).
  cbn [mbind option_bind]. rewrite !length_fixed. cbn [Nat.eqb negb orb].
  unfold u64_from_hex, u64_max in *. rewrite !parse_unsigned_fixed by (simpl; lia).
  cbn [mbind option_bind]. rewrite (proj2 (N.ltb_lt 0 (pub_epoch id))) by done.
  replace (mkPublicationId (pub_epoch id) (pub_sequence id)) with id by (by destruct id).
  rewrite publication_string_fixed by done.
  change ("-" +:+ fixed 16 16 (pub_sequence id) "") with (String char_dash (fixed 16 16 (pub_sequence id) "")).
  by rewrite String.eqb_refl.
Qed.

Lemma publication_parse_Some v id :
  publication_parse v = Some id → v = publication_string id ∧ 0 < pub_epoch id.
Proof.
  unfold publication_parse. destruct (split_once char_dash v) as [[a b]|]; cbn [mbind option_bind]; [|done].
  case_match; [done|]. destruct (u64_from_hex a) as [e|], (u64_from_hex b) as [q|]; try done.
  cbn [mbind option_bind]. destruct (N.ltb_spec 0 e); simpl; [|done].
  destruct (String.eqb_spec (publication_string (mkPublicationId e q)) v) as [<-|]; intros [= <-]; done.
Qed.

Lemma parse_minute_Some s ms : parse_minute s = Some ms → s = minute_bucket ms.
Proof.
  unfold parse_minute. case_match; [done|].
  repeat match goal with |- (?o ≫= _) = _ → _ => destruct o; cbn [mbind option_bind]; [|done] end.
  case_match; [done|]. cbv zeta.
  case_match eqn:E; [|done]. intros [= <-]. by apply String.eqb_eq in E.
Qed.

Lemma foldl_join_app sep l (a b : string) :
  foldl (λ acc q, acc +:+ String sep q) (a +:+ b) l = a +:+ foldl (λ acc q, acc +:+ String sep q) b l.
Proof.
  revert a b. induction l as [|x l IH]; intros a b; simpl; [done|].
  rewrite <- IH. by rewrite app_assoc_string.
Qed.

Lemma split_not_nil sep s : split sep s ≠ [].
Proof. destruct s; simpl; repeat case_match; done. Qed.

(** A string is its parts joined with the separator. *)
Lemma split_parts sep s p ps :
  split sep s = p :: ps → s = foldl (λ acc q, acc +:+ String sep q) p ps.
Proof.
  revert p ps. induction s as [|c s IH]; intros p ps; simpl; [by intros [= <- <-]|].
  destruct (split sep s) as [|q qs] eqn:E; [by destruct (split_not_nil sep s)|].
  rewrite (IH _ _ eq_refl). destruct (Ascii.eqb_spec c sep) as [->|]; intros [= <- <-].
  - simpl. symmetry. apply (foldl_join_app sep qs (String sep "") q).
  - symmetry. apply (foldl_join_app sep qs (String c "") q).
Qed.

Lemma valid_scope_no_slash cell :
  valid_cell_scope cell = true → all_bytes (λ c, negb (c =? 47)) cell = true.
Proof.
  unfold valid_cell_scope. rewrite !andb_true_iff. intros [_ H].
  induction cell as [|c cell IH]; simpl in *; [done|]. apply andb_prop in H as [Hc H].
  rewrite (IH H), andb_true_r. apply negb_true_iff, N.eqb_neq. intros E. by rewrite E in Hc.
Qed.

Lemma bucket_no_slash due :
  (0 ≤ due < max_due)%Z → all_bytes (λ c, negb (c =? 47)) (minute_bucket due) = true.
Proof.
  intros Hd. destruct (minute_bucket_text due Hd) as (y & mo & d & h & mi & -> & _).
  unfold bucket_text. rewrite !all_bytes_app, !(fixed_no_byte _ _ _ 47) by lia. done.
Qed.

Lemma publication_no_slash id :
  id_ok id → all_bytes (λ c, negb (c =? 47)) (publication_string id) = true.
Proof.
  intros Hid. rewrite publication_string_fixed, !all_bytes_app, !(fixed_no_byte _ _ _ 47) by (done || lia).
  done.
Qed.

Lemma publication_not_migration id : id_ok id → String.eqb (publication_string id) "migration" = false.
Proof.
  intros Hid. apply String.eqb_neq. intros E. apply (f_equal String.length) in E.
  by rewrite publication_string_fixed, !length_app_string, !length_fixed in E.
Qed.

Lemma entry_key_text due cell id :
  entry_key due cell id =
  ENTRY_PREFIX +:+ minute_bucket due +:+ String char_slash (cell +:+ String char_slash (publication_string id)).
Proof. reflexivity. Qed.

(** The key of an installation reads back as the minute it is due in, its
    cell and its identity. *)
Theorem entry_key_roundtrip due cell id :
  (0 ≤ due < max_due)%Z → valid_cell_scope cell = true → id_ok id → 0 < pub_epoch id →
  parse_entry_key (entry_key due cell id) = Some (mkListedEntry (due - due mod 60000) cell id).
Proof.
  intros Hd Hc Hid He. unfold parse_entry_key. rewrite entry_key_text, strip_prefix_app.
  cbn [mbind option_bind].
  rewrite split_app by (by apply bucket_no_slash). rewrite split_app by (by apply valid_scope_no_slash).
  rewrite split_last by (by apply publication_no_slash).
  rewrite publication_not_migration by done. cbn [andb].
  rewrite publication_roundtrip by done. cbn [mbind option_bind].
  rewrite Hc, parse_minute_bucket by done. done.
Qed.

Lemma entry_key_roundtrip_witness :
  parse_entry_key (entry_key 1700000042000 "Room:a" (mkPublicationId 7 1))
  = Some (mkListedEntry 1700000040000 "Room:a" (mkPublicationId 7 1)).
Proof.
  apply (entry_key_roundtrip 1700000042000 "Room:a" (mkPublicationId 7 1));
    vm_compute; try done; split; discriminate.
Defined.

(** A key that is read names one entry only: it is the key that is built
    for the minute, the cell and the identity it reads as, or the seed key of
    the cell, whose identity precedes every installation. *)
Theorem parse_entry_key_exact key e :
  parse_entry_key key = Some e →
  valid_cell_scope (le_cell e) = true
  ∧ (0 < pub_epoch (le_id e) ∧ key = entry_key (le_minute_ms e) (le_cell e) (le_id e)
     ∨ le_id e = mkPublicationId 0 0 ∧ le_minute_ms e = 0%Z ∧ key = migration_seed_key (le_cell e)).
Proof.
  unfold parse_entry_key. destruct (strip_prefix ENTRY_PREFIX key) as [rest|] eqn:Ep; [|done].
  cbn [mbind option_bind]. apply strip_prefix_Some in Ep as ->.
  destruct (split char_slash rest) as [|minute [|cell [|identity more]]] eqn:Es; try done.
  apply split_parts in Es as ->.
  destruct (String.eqb_spec identity "migration") as [->|]; cbn [andb].
  - destruct (String.eqb_spec minute "1970-01-01T00:00") as [->|].
    + cbn [mbind option_bind]. case_bool_decide as Hm; [|done]. subst more.
      destruct (valid_cell_scope cell) eqn:Hv; [|done].
      replace (parse_minute "1970-01-01T00:00") with (Some 0%Z) by (vm_compute; reflexivity).
      intros [= <-]. split; [done|]. right. by split_and!.
    + done.
  - destruct (publication_parse identity) as [id|] eqn:Ei; [|done]. cbn [mbind option_bind].
    apply publication_parse_Some in Ei as [-> He].
    case_bool_decide as Hm; [|done]. subst more. destruct (valid_cell_scope cell) eqn:Hv; [|done].
    destruct (parse_minute minute) as [ms|] eqn:Em; [|done]. intros [= <-]. split; [done|]. left.
    apply parse_minute_Some in Em as ->. split; [done|]. simpl. rewrite entry_key_text.
    by rewrite app_assoc_string.
Qed.

Lemma parse_entry_key_exact_witness :
  migration_seed_key "Room:a" = migration_seed_key "Room:a" ∧ valid_cell_scope "Room:a" = true.
Proof.
  split; [done|].
  apply (parse_entry_key_exact (migration_seed_key "Room:a")
           (mkListedEntry 0 "Room:a" (mkPublicationId 0 0))).
  vm_compute. reflexivity.
Defined.

(** ** The order of the index *)

Lemma compare_bucket_text y mo d h mi y' mo' d' h' mi' :
  y < 10000 → mo < 100 → d < 100 → h < 100 → mi < 100 →
  y' < 10000 → mo' < 100 → d' < 100 → h' < 100 → mi' < 100 →
  String.compare (bucket_text y mo d h mi) (bucket_text y' mo' d' h' mi') =
  then_with (y ?= y') (then_with (mo ?= mo') (then_with (d ?= d') (then_with (h ?= h') (mi ?= mi')))).
Proof.
  intros. unfold bucket_text.
  repeat first [rewrite compare_app by (by rewrite ?length_fixed) | rewrite compare_fixed by (simpl; lia)].
  done.
Qed.

(** The keys list in the order of their due minutes: two instants compare
    as their minutes do, so a listing of the index meets the due buckets in
    order and may stop at the first one that is not due. *)
Theorem minute_bucket_order a b :
  (0 ≤ a < max_due)%Z → (0 ≤ b < max_due)%Z →
  String.compare (minute_bucket a) (minute_bucket b) = (a / 60000 ?= b / 60000)%Z.
Proof.
  assert (∀ a b, (0 ≤ a < max_due)%Z → (0 ≤ b < max_due)%Z → (a / 60000 < b / 60000)%Z →
            String.compare (minute_bucket a) (minute_bucket b) = Lt) as Hlt.
  { clear a b. intros a b Ha Hb Hab.
    destruct (minute_bucket_text a Ha) as (y & mo & d & h & mi & -> & Hy & Hmo & Hd & Hh & Hmi & Hc & Hm & _).
    destruct (minute_bucket_text b Hb)
      as (y' & mo' & d' & h' & mi' & -> & Hy' & Hmo' & Hd' & Hh' & Hmi' & Hc' & Hm' & _).
    rewrite compare_bucket_text by lia.
    destruct (decide (a / 60000 / 1440 = b / 60000 / 1440)%Z) as [E|E].
    - rewrite E in Hc. rewrite Hc in Hc'. injection Hc' as E1 E2 E3.
      apply N2Z.inj in E1 as <-. apply N2Z.inj in E2 as <-. apply N2Z.inj in E3 as <-.
      rewrite !N.compare_refl. simpl.
      assert (h * 60 + mi < h' * 60 + mi') as Hlt' by (Z.to_euclidean_division_equations; lia).
      destruct (N.compare_spec h h') as [->|?|?]; simpl; [apply N.compare_lt_iff; lia|done|lia].
    - assert (a / 60000 / 1440 < b / 60000 / 1440)%Z as Hdays by (Z.to_euclidean_division_equations; lia).
      apply civil_lt in Hdays. rewrite Hc, Hc' in Hdays. simpl in Hdays.
      destruct (N.compare_spec y y') as [->|?|?]; simpl; [|done|lia].
      destruct (N.compare_spec mo mo') as [->|?|?]; simpl; [|done|lia].
      destruct (N.compare_spec d d') as [->|?|?]; simpl; [lia|done|lia]. }
  intros Ha Hb. destruct (Z.compare_spec (a / 60000) (b / 60000)) as [E|E|E].
  - unfold minute_bucket. rewrite E. apply compare_refl_string.
  - by apply Hlt.
  - rewrite String.compare_antisym. by rewrite Hlt.
Qed.

Lemma minute_bucket_order_witness :
  String.compare (minute_bucket 946684799999) (minute_bucket 946684800000) = Lt.
Proof. apply (minute_bucket_order 946684799999 946684800000); vm_compute; done. Defined.

(** ** The cache *)

(** The caches the operations build, from identities of the 64-bit range. *)
Inductive cache_reachable : WakeCore → Prop :=
| cache_new : cache_reachable wake_core_new
| cache_confirm core cell alarm :
    cache_reachable core → (∀ source, snap_source alarm = Some source → id_ok (src_id source)) →
    cache_reachable (confirm core cell alarm)
| cache_retired core cell r keys core' :
    cache_reachable core → take_retired core cell r = Some (keys, core') → cache_reachable core'
| cache_forget core cell : cache_reachable core → cache_reachable (forget core cell).

Definition recent_ok (recent : gmap PublicationId AlarmSnapshot) : Prop :=
  (size recent ≤ RECENT_PUBLICATIONS)%nat
  ∧ ∀ id alarm, recent !! id = Some alarm →
      id_ok id ∧ src_id <$> snap_source alarm = Some id ∧ is_Some (snap_at_ms alarm).

Definition cache_ok (core : WakeCore) : Prop :=
  ∀ cell recent, wc_confirmed core !! cell = Some recent → recent_ok recent.

Lemma pub_ltb_spec a b : pub_ltb a b = true ↔ ¬ pub_le b a.
Proof.
  unfold pub_ltb, PublicationId_compare, pub_le.
  destruct (N.compare_spec (pub_epoch a) (pub_epoch b)); simpl; [|split; [lia|done]|split; [done|lia]].
  destruct (N.compare_spec (pub_sequence a) (pub_sequence b)); simpl; split; (done || lia).
Qed.

Lemma pub_le_anti a b : pub_le a b → pub_le b a → a = b.
Proof. intros. by apply (anti_symm key_le). Qed.

(** Trimming keeps a part of the map, of at most the bounded size, and drops
    nothing that is newer than what it keeps. *)
Lemma trim_recent_spec fuel (recent : gmap PublicationId AlarmSnapshot) :
  (size recent ≤ fuel + RECENT_PUBLICATIONS)%nat →
  let kept := trim_recent fuel recent in
  kept ⊆ recent
  ∧ (size kept = size recent `min` RECENT_PUBLICATIONS)%nat
  ∧ (∀ id id', is_Some (recent !! id) → kept !! id = None → is_Some (kept !! id') → pub_le id id').
Proof.
  revert recent. induction fuel as [|fuel IH]; intros recent Hs; cbn [trim_recent].
  { split_and!; [done|lia|]. intros id id' [a Ha] Hn. congruence. }
  destruct (Nat.ltb_spec RECENT_PUBLICATIONS (size recent)) as [Hlt|Hge].
  2: { split_and!; [done|lia|]. intros id id' [a Ha] Hn. congruence. }
  destruct (keys recent) as [|first rest] eqn:Ek.
  { destruct (map_choose recent) as (i & x & Hx); [intros ->; rewrite map_size_empty in Hlt; lia|].
    assert (i ∈ keys recent) as Hi by (apply elem_of_keys; eauto). rewrite Ek in Hi. by apply not_elem_of_nil in Hi. }
  assert (is_Some (recent !! first)) as [v Hv] by (apply elem_of_keys; rewrite Ek; left).
  assert (size recent = S (size (delete first recent))) as Hsz.
  { rewrite <- (map_size_insert_None first v) by apply lookup_delete_eq.
    by rewrite insert_delete_id. }
  destruct (IH (delete first recent)) as (Hsub & Hsize & Hold); [lia|]. split_and!.
  - etrans; [exact Hsub|]. apply delete_subseteq.
  - lia.
  - intros id id' Hid Hn Hid'. destruct (decide (id = first)) as [->|Hne].
    + destruct Hid' as [a Ha]. change (key_le first id'). refine (keys_head_le recent first rest id' a Ek _).
      apply (lookup_weaken _ _ _ _ Ha). etrans; [exact Hsub|]. apply delete_subseteq.
    + apply (Hold id id'); [by rewrite lookup_delete_ne|done|done].
Qed.

Lemma confirm_recent core cell alarm source at_ms :
  cache_ok core → snap_source alarm = Some source → snap_at_ms alarm = Some at_ms →
  let old := default ∅ (wc_confirmed core !! cell) in
  ∃ kept, wc_confirmed (confirm core cell alarm) = <[cell := kept]> (wc_confirmed core)
    ∧ kept ⊆ <[src_id source := alarm]> old
    ∧ (size kept = size (<[src_id source := alarm]> old) `min` RECENT_PUBLICATIONS)%nat
    ∧ (∀ id id', is_Some (<[src_id source := alarm]> old !! id) → kept !! id = None →
         is_Some (kept !! id') → pub_le id id').
Proof.
  intros Hok Hsrc Hat old. unfold confirm. rewrite Hsrc, Hat. simpl. fold old.
  eexists. split; [reflexivity|]. apply trim_recent_spec. lia.
Qed.

Lemma old_ok core cell : cache_ok core → recent_ok (default ∅ (wc_confirmed core !! cell)).
Proof.
  intros Hok. destruct (wc_confirmed core !! cell) as [recent|] eqn:E; [by apply (Hok cell)|].
  simpl. split; [rewrite map_size_empty; unfold RECENT_PUBLICATIONS; lia|]. intros id alarm. by rewrite lookup_empty.
Qed.

Lemma recent_ok_sub recent recent' : recent_ok recent → recent' ⊆ recent → recent_ok recent'.
Proof.
  intros [Hs Hr] Hsub. split.
  - etrans; [by apply map_subseteq_size|done].
  - intros id alarm Ha. apply Hr. by apply (lookup_weaken _ _ _ _ Ha).
Qed.

Lemma confirm_ok core cell alarm :
  cache_ok core → (∀ source, snap_source alarm = Some source → id_ok (src_id source)) →
  cache_ok (confirm core cell alarm).
Proof.
  intros Hok Hid. destruct (snap_source alarm) as [source|] eqn:Es; [|by unfold confirm; rewrite Es].
  destruct (snap_at_ms alarm) as [at_ms|] eqn:Ea; [|by unfold confirm; rewrite Es, Ea].
  destruct (confirm_recent core cell alarm source at_ms) as (kept & Hc & Hsub & Hs & _); [done..|].
  intros cell' recent. rewrite Hc. intros [[<- <-]|[_ Hr]]%lookup_insert_Some; [|by apply (Hok cell')].
  split; [lia|]. intros id a Ha. apply (lookup_weaken _ _ _ _ Ha) in Hsub.
  apply lookup_insert_Some in Hsub as [[<- <-]|[_ Ho]].
  - split; [by apply Hid|]. rewrite Es, Ea. by split; [|eexists].
  - by apply (old_ok core cell Hok).
Qed.

(** The keys of the retired part, in order. *)
Lemma retired_keys recent cell r :
  recent_ok recent →
  ∃ keys, mapM (λ item : PublicationId * AlarmSnapshot,
                  at_ms ← snap_at_ms item.2; Some (entry_key at_ms cell item.1))
            (filter (λ item, retires r item.1) (items recent)) = Some keys
    ∧ ∀ key, key ∈ keys ↔
        ∃ id alarm at_ms, recent !! id = Some alarm ∧ snap_at_ms alarm = Some at_ms
          ∧ retires r id = true ∧ key = entry_key at_ms cell id.
Proof.
  intros [_ Hr].
  assert (Forall (λ item, is_Some (at_ms ← snap_at_ms item.2; Some (entry_key at_ms cell item.1)))
            (filter (λ item : PublicationId * AlarmSnapshot, retires r item.1) (items recent))) as Hf.
  { apply Forall_forall. intros [id a] [_ Ha%elem_of_items]%list_elem_of_filter.
    destruct (Hr _ _ Ha) as (_ & _ & [m Hm]). simpl. rewrite Hm. by eexists. }
  apply mapM_is_Some_2 in Hf as [keys Hk]. exists keys. split; [exact Hk|]. intros key.
  apply mapM_Some_1 in Hk. split.
  - intros [i Hi]%list_elem_of_lookup. destruct (Forall2_lookup_r _ _ _ _ _ Hk Hi) as ([id a] & Hx & Ho).
    apply list_elem_of_lookup_2, list_elem_of_filter in Hx as [Hret Ha%elem_of_items]. simpl in *.
    destruct (snap_at_ms a) as [m|] eqn:Em; [|done]. injection Ho as <-. exists id, a, m.
    split_and!; [done|done| |done]. by destruct (retires r id).
  - intros (id & a & m & Ha & Hm & Hret & ->).
    assert ((id, a) ∈ filter (λ item : PublicationId * AlarmSnapshot, retires r item.1) (items recent)) as Hin.
    { apply list_elem_of_filter. simpl. rewrite Hret. split; [done|]. by apply elem_of_items. }
    apply list_elem_of_lookup in Hin as [i Hi].
    destruct (Forall2_lookup_l _ _ _ _ _ Hk Hi) as (key & Hx & Ho). simpl in Ho. rewrite Hm in Ho.
    injection Ho as <-. by apply list_elem_of_lookup_2 in Hx.
Qed.

Lemma cache_reachable_ok core : cache_reachable core → cache_ok core.
Proof.
  induction 1 as [|core cell alarm _ IH Hid|core cell r ks core' _ IH Ht|core cell _ IH].
  - intros cell recent. simpl. by rewrite lookup_empty.
  - by apply confirm_ok.
  - unfold take_retired in Ht. destruct (wc_confirmed core !! cell) as [recent|] eqn:E; [|by simplify_eq].
    destruct (retired_keys recent cell r) as (ks' & Hk & _); [by apply (IH cell)|].
    rewrite Hk in Ht. injection Ht as _ <-. intros cell' recent'. simpl.
    intros [[<- <-]|[_ Hr]]%lookup_insert_Some; [|by apply (IH cell')].
    apply (recent_ok_sub recent); [by apply (IH cell)|apply map_filter_subseteq].
  - intros cell' recent. simpl. intros [_ Hr]%lookup_delete_Some. by apply (IH cell').
Qed.

(** Two keys with one text name one identity, whatever their minutes and cells. *)
Lemma app_inj_suffix (a b a' b' : string) :
  String.length b = String.length b' → a +:+ b = a' +:+ b' → b = b'.
Proof.
  intros Hl. revert a'. induction a as [|c a IH]; intros [|c' a']; simpl; [done| | |].
  - intros ->. simpl in Hl. rewrite length_app_string in Hl. lia.
  - intros <-. simpl in Hl. rewrite length_app_string in Hl. lia.
  - intros [= _ H]. by apply (IH a').
Qed.

Lemma fixed_inj w a b :
  a < 16 ^ N.of_nat w → b < 16 ^ N.of_nat w → fixed 16 w a "" = fixed 16 w b "" → a = b.
Proof.
  intros Ha Hb E. apply N.compare_eq_iff. rewrite <- (compare_fixed 16 w) by (done || lia).
  rewrite E. apply compare_refl_string.
Qed.

Lemma publication_string_length id : id_ok id → String.length (publication_string id) = 33%nat.
Proof. intros Hid. by rewrite publication_string_fixed, !length_app_string, !length_fixed. Qed.

Lemma publication_string_inj id id' :
  id_ok id → id_ok id' → publication_string id = publication_string id' → id = id'.
Proof.
  intros Hid Hid'. rewrite !publication_string_fixed by done. intros E.
  assert (fixed 16 16 (pub_sequence id) "" = fixed 16 16 (pub_sequence id') "") as Es.
  { rewrite <- !app_assoc_string in E. eapply app_inj_suffix; [|exact E]. by rewrite !length_fixed. }
  rewrite Es in E. destruct Hid as [He Hs], Hid' as [He' Hs']. unfold u64_max in *.
  apply fixed_inj in Es; [|simpl; lia..].
  assert (fixed 16 16 (pub_epoch id) "" = fixed 16 16 (pub_epoch id') "") as Ee.
  { assert (String.compare (fixed 16 16 (pub_epoch id) "") (fixed 16 16 (pub_epoch id') "") = Eq) as Hc.
    { pose proof (compare_refl_string (fixed 16 16 (pub_epoch id) "" +:+ "-" +:+ fixed 16 16 (pub_sequence id') "")) as Hr.
      rewrite E in Hr at 2. rewrite compare_app in Hr by (by rewrite !length_fixed).
      destruct (String.compare (fixed 16 16 (pub_epoch id) "") (fixed 16 16 (pub_epoch id') "")); done. }
    by apply String.compare_eq_iff. }
  apply fixed_inj in Ee; [|simpl; lia..]. destruct id, id'. simpl in *. by subst.
Qed.

Lemma entry_key_id due cell id due' cell' id' :
  id_ok id → id_ok id' → entry_key due cell id = entry_key due' cell' id' → id = id'.
Proof.
  intros Hid Hid' E. apply publication_string_inj; [done..|]. unfold entry_key in E.
  rewrite <- !app_assoc_string in E. apply app_inj_suffix in E; [done|]. by rewrite !publication_string_length.
Qed.


Definition sample_alarm (due : Z) (epoch sequence : N) : AlarmSnapshot :=
  committed (Some due) (mkAlarmSource (mkPublicationId epoch sequence) 0).

Definition sample_cache : WakeCore :=
  confirm (confirm wake_core_new "Room:a" (sample_alarm 1000 1 1)) "Room:a" (sample_alarm 90000 1 2).

Lemma sample_cache_reachable : cache_reachable sample_cache.
Proof.
  unfold sample_cache. apply cache_confirm; [apply cache_confirm; [apply cache_new|]|];
    intros source [= <-]; split; vm_compute; discriminate.
Qed.


(** The greatest identity of a trimmed map is the greatest of the whole. *)
Lemma trimmed_last (full kept : gmap PublicationId AlarmSnapshot) :
  full ≠ ∅ → kept ⊆ full → (size kept = size full `min` RECENT_PUBLICATIONS)%nat →
  (∀ id id', is_Some (full !! id) → kept !! id = None → is_Some (kept !! id') → pub_le id id') →
  ∃ k v, last (items kept) = Some (k, v) ∧ full !! k = Some v
    ∧ ∀ id, is_Some (full !! id) → pub_le id k.
Proof.
  intros Hne Hsub Hs Hold. destruct (last (items kept)) as [[k v]|] eqn:El.
  2: { apply last_None in El. exfalso. destruct (map_choose kept) as (i & x & Hx%elem_of_items).
       - intros ->. rewrite map_size_empty in Hs. apply map_size_non_empty_iff in Hne.
         unfold RECENT_PUBLICATIONS in Hs. lia.
       - rewrite El in Hx. by apply not_elem_of_nil in Hx. }
  assert (kept !! k = Some v) as Hk.
  { apply elem_of_items. apply last_Some in El as [l ->]. set_solver. }
  exists k, v. split_and!; [done|by apply (lookup_weaken _ _ _ _ Hk)|]. intros id Hid.
  destruct (kept !! id) as [a|] eqn:Ea; [|by apply Hold].
  exact (proj2 (items_last_le kept (k, v) id a El Ea)).
Qed.

(** One more entry drops no identity newer than its own. *)
Lemma trimmed_newer (old kept : gmap PublicationId AlarmSnapshot) src alarm id :
  (size old ≤ RECENT_PUBLICATIONS)%nat → kept ⊆ <[src := alarm]> old →
  (size kept = size (<[src := alarm]> old) `min` RECENT_PUBLICATIONS)%nat →
  (∀ id id', is_Some (<[src := alarm]> old !! id) → kept !! id = None → is_Some (kept !! id') → pub_le id id') →
  ¬ pub_le id src → kept !! id = old !! id.
Proof.
  set (full := <[src := alarm]> old). intros Ho Hsub Hs Hold Hnew.
  assert (full !! id = old !! id) as Hid.
  { apply lookup_insert_ne. intros ->. apply Hnew. right. lia. }
  destruct (old !! id) as [a|] eqn:Ea; [|by apply (lookup_weaken_None _ _ _ Hid)].
  destruct (kept !! id) as [b|] eqn:Ek.
  { apply (lookup_weaken _ _ _ _ Ek) in Hsub. congruence. }
  exfalso. assert (kept !! src = None) as Hsrc.
  { apply eq_None_not_Some. intros Hk. apply Hnew. apply Hold; [by eexists|done|done]. }
  assert (kept ⊆ delete id (delete src full)) as Hsub'.
  { apply map_subseteq_spec. intros i x Hx. rewrite !lookup_delete_ne by congruence.
    by apply (lookup_weaken _ _ _ _ Hx). }
  apply map_subseteq_size in Hsub'.
  assert (size full ≤ S (size old))%nat by (unfold full; rewrite map_size_insert; case_match; simpl; lia).
  assert (size (delete id (delete src full)) = pred (pred (size full))) as Hd.
  { assert (id ≠ src) by (intros ->; apply Hnew; right; lia).
    rewrite !map_size_delete. rewrite lookup_delete_ne, Hid by done. unfold full at 1. by rewrite lookup_insert_eq. }
  assert (size full ≠ 0)%nat by (apply map_size_non_empty_iff, insert_non_empty).
  unfold RECENT_PUBLICATIONS in *. lia.
Qed.

(** A completed publication is remembered without displacing a newer one:
    no entry of a newer identity changes, nothing but the oldest identities
    is dropped, the cell keeps at most the bounded number of them, and the
    installation counts as covered exactly when no newer one was cached. *)
Theorem confirm_keeps_newest core cell alarm source at_ms :
  cache_reachable core → snap_source alarm = Some source → snap_at_ms alarm = Some at_ms →
  id_ok (src_id source) →
  let old id := wc_confirmed core !! cell ≫= lookup id in
  let core' := confirm core cell alarm in
  (∀ id, ¬ pub_le id (src_id source) → wc_confirmed core' !! cell ≫= lookup id = old id)
  ∧ (∃ kept, wc_confirmed core' !! cell = Some kept ∧ (1 ≤ size kept ≤ RECENT_PUBLICATIONS)%nat
       ∧ ∀ id id', is_Some (old id) → kept !! id = None → is_Some (kept !! id') → pub_le id id')
  ∧ (covered core' cell alarm = true ↔ ∀ id, is_Some (old id) → pub_le id (src_id source))
  ∧ ∀ cell', cell' ≠ cell → wc_confirmed core' !! cell' = wc_confirmed core !! cell'.
Proof.
  intros Hok%cache_reachable_ok Hsrc Hat Hid old core'.
  destruct (confirm_recent core cell alarm source at_ms Hok Hsrc Hat) as (kept & Hc & Hsub & Hs & Hold).
  pose proof (old_ok core cell Hok) as [Hosz Hook]. set (o := default ∅ (wc_confirmed core !! cell)) in *.
  assert (∀ id, old id = o !! id) as Hol.
  { intros id. unfold old, o. destruct (wc_confirmed core !! cell); simpl; [done|by rewrite lookup_empty]. }
  set (full := <[src_id source := alarm]> o) in *.
  assert (∀ id, is_Some (old id) → is_Some (full !! id)) as Hof.
  { intros id. rewrite Hol. intros [a Ha]. apply lookup_insert_is_Some. destruct (decide (src_id source = id)); eauto. }
  destruct (trimmed_last full kept) as (k & v & Hl & Hk & Hmax); [apply insert_non_empty|done..|].
  subst core'. rewrite Hc. split_and!.
  - intros id Hnew. rewrite lookup_insert_eq, Hol. simpl. by apply (trimmed_newer o kept (src_id source) alarm).
  - exists kept. rewrite lookup_insert_eq. split_and!; [done| |lia|].
    + assert (size full ≠ 0)%nat by (apply map_size_non_empty_iff, insert_non_empty).
      unfold RECENT_PUBLICATIONS in *. lia.
    + intros id id' Hi. apply Hold. by apply Hof.
  - unfold covered. rewrite Hc, lookup_insert_eq, Hsrc, Hat. simpl. rewrite Hl. simpl. split.
    + intros [_ Hsame%bool_decide_eq_true]%andb_prop id Hi. apply Hof in Hi.
      replace (src_id source) with k; [by apply Hmax|]. rewrite Hsrc in Hsame. simpl in Hsame.
      apply lookup_insert_Some in Hk as [[<- _]|[_ Hk]]; [done|].
      destruct (Hook _ _ Hk) as (_ & Hv & _). congruence.
    + intros Hall. assert (k = src_id source) as ->.
      { apply pub_le_anti; [|apply Hmax; unfold full; rewrite lookup_insert_eq; eauto].
        apply lookup_insert_Some in Hk as [[<- _]|[_ Hk]]; [right; lia|]. apply Hall. rewrite Hol. eauto. }
      unfold full in Hk. rewrite lookup_insert_eq in Hk. injection Hk as <-.
      unfold same_installation. by rewrite !bool_decide_eq_true_2.
  - intros cell' Hne. by rewrite lookup_insert_ne.
Qed.

Lemma confirm_keeps_newest_witness :
  covered (confirm sample_cache "Room:a" (sample_alarm 7000 1 3)) "Room:a" (sample_alarm 7000 1 3) = true.
Proof.
  apply (confirm_keeps_newest sample_cache "Room:a" (sample_alarm 7000 1 3)
           (mkAlarmSource (mkPublicationId 1 3) 0) 7000 sample_cache_reachable eq_refl eq_refl).
  - split; vm_compute; discriminate.
  - intros id [a Ha].
    replace (wc_confirmed sample_cache !! "Room:a") with
      (Some (<[mkPublicationId 1 2 := sample_alarm 90000 1 2]>
               {[mkPublicationId 1 1 := sample_alarm 1000 1 1]} : gmap PublicationId AlarmSnapshot))
      in Ha by (vm_compute; reflexivity).
    simpl in Ha. apply lookup_insert_Some in Ha as [[<- _]|[_ [<- _]%lookup_singleton_Some]];
      right; vm_compute; split; (reflexivity || discriminate).
Defined.
