(* ===== verification/Cron.v ===== *)
(** * Cron schedules

    Models [crates/logic/cron.rs] and [crates/logic/alarm.rs]: the expression
    parser, the test whether a minute matches, the search for the next
    occurrence and the plan of the reserved cron cell.

    An expression is the list of its Unicode code points, so the white space
    that separates the fields is Unicode's.  Bit sets are [Z], at the widths the
    code gives them.  The messages of a [CronError] are constructors that carry
    the values the text interpolates. *)

From S2P Require Import Prelude Calendar.

#[local] Open Scope Z_scope.

(** ** Text as code points *)

Definition text := list N.

(** The code points of an ASCII literal. *)
Definition chars (s : string) : text := map Ascii.N_of_ascii (String.list_ascii_of_string s).

(** [char::is_whitespace], the property White_Space. *)
Definition is_whitespace (c : N) : bool :=
  ((9 <=? c) && (c <=? 13) || (c =? 32) || (c =? 133) || (c =? 160) || (c =? 5760)
   || (8192 <=? c) && (c <=? 8202) || (c =? 8232) || (c =? 8233) || (c =? 8239)
   || (c =? 8287) || (c =? 12288))%N.

Fixpoint trim_start (t : text) : text :=
  match t with
  | [] => []
  | c :: t' => if is_whitespace c then trim_start t' else t
  end.

(** [str::trim]. *)
Definition trim (t : text) : text := reverse (trim_start (reverse (trim_start t))).

(** [str::split_whitespace]; [word] is what was read of the current field. *)
Fixpoint split_whitespace_from (word : text) (t : text) : list text :=
  match t with
  | [] => if bool_decide (word = []) then [] else [word]
  | c :: t =>
      if is_whitespace c then
        if bool_decide (word = []) then split_whitespace_from [] t
        else word :: split_whitespace_from [] t
      else split_whitespace_from (word ++ [c]) t
  end.

Definition split_whitespace (t : text) : list text := split_whitespace_from [] t.

(** [str::split] on a character. *)
Fixpoint split_char (sep : N) (t : text) : list text :=
  match t with
  | [] => [[]]
  | c :: t =>
      match split_char sep t with
      | part :: parts => if (c =? sep)%N then [] :: part :: parts else (c :: part) :: parts
      | [] => []
      end
  end.

(** [str::split_once] on a character. *)
Fixpoint split_once_char (sep : N) (t : text) : option (text * text) :=
  match t with
  | [] => None
  | c :: t => if (c =? sep)%N then Some ([], t) else '(a, b) ← split_once_char sep t; Some (c :: a, b)
  end.

(** [str::strip_prefix] and [str::strip_suffix] on a character. *)
Definition strip_prefix_char (p : N) (t : text) : option text :=
  match t with
  | c :: t => if (c =? p)%N then Some t else None
  | [] => None
  end.

Definition strip_suffix_char (p : N) (t : text) : option text :=
  reverse <$> strip_prefix_char p (reverse t).

(** [str::to_ascii_lowercase]. *)
Definition to_ascii_lowercase (t : text) : text :=
  map (λ c, if ((65 <=? c) && (c <=? 90))%N then (c + 32)%N else c) t.

(** ** The expression *)

Definition RESERVED_CLASS : string := ".cron".

(** [reserved_cell]. *)
Definition reserved_cell (script_name : string) : string := RESERVED_CLASS +:+ ":" +:+ script_name.

Record Field := mkField {
  f_name : string;
  f_min : Z;
  f_max : Z;
  f_names : list text;
}.

Definition MINUTE : Field := mkField "minute" 0 59 [].
Definition HOUR : Field := mkField "hour" 0 23 [].
Definition DAY_OF_MONTH : Field := mkField "day of month" 1 31 [].
Definition MONTH : Field :=
  mkField "month" 1 12
    (map chars ["jan"; "feb"; "mar"; "apr"; "may"; "jun"; "jul"; "aug"; "sep"; "oct"; "nov"; "dec"]).
Definition DAY_OF_WEEK : Field :=
  mkField "day of week" 1 7 (map chars ["sun"; "mon"; "tue"; "wed"; "thu"; "fri"; "sat"]).

Inductive DayOfMonth :=
| DomAll
| DomDays (days : Z)
| DomLast
| DomLastOffset (offset : Z)
| DomLastWeekday
| DomLastOffsetWeekday (offset : Z)
| DomClosestWeekday (target : Z).

#[global] Instance DayOfMonth_eq_dec : EqDecision DayOfMonth.
Proof. solve_decision. Defined.

Inductive DayOfWeek :=
| DowAll
| DowDays (days : Z)
| DowLast (wanted : Z)
| DowNth (wanted nth : Z).

#[global] Instance DayOfWeek_eq_dec : EqDecision DayOfWeek.
Proof. solve_decision. Defined.

Record Cron := mkCron {
  cron_text : text;
  cron_minute : Z;
  cron_hour : Z;
  cron_month : Z;
  cron_day_of_month : DayOfMonth;
  cron_day_of_week : DayOfWeek;
}.

(** The messages of [CronError], with the values they name. *)
Inductive CronMessage :=
| FieldCount (found : nat)
| FieldEmpty (field : string)
| StarInList (field : string) (t : text)
| StepNotNumeric (field : string) (item : text)
| StepOutside (field : string) (step bound : Z) (item : text)
| DescendingRange (field : string) (item : text)
| ValueNotNumeric (field : string) (t : text)
| ValueNotNamed (field : string) (t : text)
| ValueOutside (field : string) (value low high : Z)
| LastUnreadable (t : text)
| LastOffsetNotNumeric (t : text)
| LastOffsetOutside (offset : Z)
| NthNotNumeric (t : text)
| NthOutside (nth : Z).

Record CronError := mkCronError {
  ce_expression : text;
  ce_message : CronMessage;
}.

(** ** The parser *)

(** An unsigned cast to [w] bits. *)
Definition cast (w : Z) (x : Z) : Z := x mod 2 ^ w.

(** [parse_digits]. *)
Definition is_ascii_digit (c : N) : bool := ((48 <=? c) && (c <=? 57))%N.

Definition decimal (t : text) : Z := foldl (λ acc c, acc * 10 + (Z.of_N c - 48)) 0 t.

Definition parse_digits (t : text) : option Z :=
  if bool_decide (t = []) || negb (forallb is_ascii_digit t) then None
  else if decimal t <=? Z.of_N u32_max then Some (decimal t) else None.

(** [parse_value]. *)
Definition parse_value (t : text) (field : Field) : result Z CronMessage :=
  let t := trim t in
  let lower := to_ascii_lowercase t in
  match list_find (λ name, name = lower) (f_names field) with
  | Some (index, _) => Ok (f_min field + Z.of_nat index)
  | None =>
      value ←? ok_or (parse_digits t)
                 (if bool_decide (f_names field = []) then ValueNotNumeric (f_name field) t
                  else ValueNotNamed (f_name field) t);
      if (value <? f_min field) || (f_max field <? value)
      then Err (ValueOutside (f_name field) value (f_min field) (f_max field))
      else Ok value
  end.

(** The [while] of [parse_item]. *)
Fixpoint set_bits (fuel : nat) (bits value last step : Z) : Z :=
  match fuel with
  | O => bits
  | S fuel =>
      if value <=? last then set_bits fuel (Z.lor bits (Z.shiftl 1 value)) (value + step) last step
      else bits
  end.

(** [parse_item]. *)
Definition parse_item (item : text) (field : Field) : result Z CronMessage :=
  spec_step ←?
    match split_once_char 47 item with
    | None => Ok (item, 1)
    | Some (spec, step) =>
        step ←? ok_or (parse_digits step) (StepNotNumeric (f_name field) item);
        if (step =? 0) || (f_max field - f_min field <? step)
        then Err (StepOutside (f_name field) step (f_max field - f_min field) item)
        else Ok (spec, step)
    end;
  let '(spec, step) := spec_step in
  first_last ←?
    if bool_decide (spec = chars "*") then Ok (f_min field, f_max field)
    else match split_once_char 45 spec with
         | Some (from, to) =>
             first ←? parse_value from field;
             last ←? parse_value to field;
             Ok (first, last)
         | None =>
             value ←? parse_value spec field;
             Ok (value, if step =? 1 then value else f_max field)
         end;
  let '(first, last) := first_last in
  if last <? first then Err (DescendingRange (f_name field) item)
  else Ok (set_bits (S (Z.to_nat (last - first))) 0 first last step).

(** The [for] of [parse_field]. *)
Fixpoint parse_items (many : bool) (whole : text) (items : list text) (bits : Z) (field : Field) :
    result Z CronMessage :=
  match items with
  | [] => Ok bits
  | item :: items =>
      if many && bool_decide (trim item = chars "*") then Err (StarInList (f_name field) whole)
      else more ←? parse_item item field; parse_items many whole items (Z.lor bits more) field
  end.

(** [parse_field]. *)
Definition parse_field (t : text) (field : Field) : result Z CronMessage :=
  if bool_decide (t = []) then Err (FieldEmpty (f_name field))
  else let items := split_char 44 t in parse_items (Nat.ltb 1 (length items)) t items 0 field.

(** [parse_day_of_month]. *)
Definition parse_day_of_month (t : text) : result DayOfMonth CronMessage :=
  if bool_decide (t = chars "*") then Ok DomAll
  else match strip_prefix_char 76 t with
  | Some rest =>
      if bool_decide (rest = []) then Ok DomLast
      else if bool_decide (rest = chars "W") then Ok DomLastWeekday
      else
        let '(digits, weekday) :=
          match strip_suffix_char 87 rest with Some digits => (digits, true) | None => (rest, false) end in
        offset ←? ok_or (strip_prefix_char 45 digits) (LastUnreadable t);
        offset ←? ok_or (parse_digits offset) (LastOffsetNotNumeric t);
        if negb ((1 <=? offset) && (offset <=? 30)) then Err (LastOffsetOutside offset)
        else if weekday then Ok (DomLastOffsetWeekday offset) else Ok (DomLastOffset offset)
  | None =>
      match strip_suffix_char 87 t with
      | Some day => day ←? parse_value day DAY_OF_MONTH; Ok (DomClosestWeekday day)
      | None => days ←? parse_field t DAY_OF_MONTH; Ok (DomDays (cast 32 days))
      end
  end.

(** [parse_day_of_week]. *)
Definition parse_day_of_week (t : text) : result DayOfWeek CronMessage :=
  if bool_decide (t = chars "*") then Ok DowAll
  else if bool_decide (t = chars "L") then Ok (DowDays (Z.shiftl 1 6))
  else match strip_suffix_char 76 t with
  | Some day => day ←? parse_value day DAY_OF_WEEK; Ok (DowLast (day - 1))
  | None =>
      match split_once_char 35 t with
      | Some (day, nth) =>
          day ←? parse_value day DAY_OF_WEEK;
          nth ←? ok_or (parse_digits nth) (NthNotNumeric t);
          if negb ((1 <=? nth) && (nth <=? 5)) then Err (NthOutside nth) else Ok (DowNth (day - 1) nth)
      | None => days ←? parse_field t DAY_OF_WEEK; Ok (DowDays (cast 8 (Z.shiftr days 1)))
      end
  end.

(** [parse]. *)
Definition parse (expression : text) : result Cron CronError :=
  let fail {A} (r : result A CronMessage) : result A CronError := result_map_err (mkCronError expression) r in
  match split_whitespace expression with
  | [f0; f1; f2; f3; f4] =>
      minute ←? fail (parse_field f0 MINUTE);
      hour ←? fail (parse_field f1 HOUR);
      day_of_month ←? fail (parse_day_of_month f2);
      month ←? fail (parse_field f3 MONTH);
      day_of_week ←? fail (parse_day_of_week f4);
      Ok (mkCron (trim expression) minute (cast 32 hour) (cast 16 month) day_of_month day_of_week)
  | fields => Err (mkCronError expression (FieldCount (length fields)))
  end.

(** ** Matching *)

(** The test [bits & (1 << i) != 0]. *)
Definition bit_set (bits i : Z) : bool := negb (Z.land bits (Z.shiftl 1 i) =? 0).

(** [is_weekend]. *)
Definition is_weekend (day_of_week : Z) : bool := (day_of_week =? 0) || (day_of_week =? 6).

(** [day_of_month_matches]. *)
Definition day_of_month_matches (field : DayOfMonth) (day weekday last : Z) : bool :=
  match field with
  | DomAll => true
  | DomDays days => bit_set days day
  | DomLast => day =? last
  | DomLastOffset offset => day + offset =? last
  | DomLastWeekday =>
      (negb (is_weekend weekday) && (day =? last)) || ((weekday =? 5) && (last - day <? 3))
  | DomLastOffsetWeekday offset =>
      let target := day + offset in
      (negb (is_weekend weekday) && (target =? last))
      || ((weekday =? 1) && (last <? target) && (target - last <? 3))
      || ((weekday =? 5) && (target + 1 =? last))
  | DomClosestWeekday target =>
      (negb (is_weekend weekday) && (day =? target))
      || ((weekday =? 1) && (1 <? day) && (day - 1 =? target))
      || ((weekday =? 1) && (day =? 3) && (target =? 1))
      || ((weekday =? 5) && (day + 1 =? target))
      || ((weekday =? 5) && (day + 2 =? target) && (target =? last))
  end.

(** [day_of_week_matches]. *)
Definition day_of_week_matches (field : DayOfWeek) (day weekday last : Z) : bool :=
  match field with
  | DowAll => true
  | DowDays days => bit_set days weekday
  | DowLast wanted => (weekday =? wanted) && (last <? day + 7)
  | DowNth wanted nth => (weekday =? wanted) && ((day - 1) ÷ 7 + 1 =? nth)
  end.

(** [day_matches]. *)
Definition day_matches (cron : Cron) (day : Z) : bool :=
  let '(year, month, day_of_month) := civil_from_days day in
  if negb (bit_set (cron_month cron) month) then false
  else
    let day_of_week := (day + 4) mod 7 in
    let last := days_in_month year month in
    let by_dom := day_of_month_matches (cron_day_of_month cron) day_of_month day_of_week last in
    let by_dow := day_of_week_matches (cron_day_of_week cron) day_of_month day_of_week last in
    match bool_decide (cron_day_of_month cron = DomAll), bool_decide (cron_day_of_week cron = DowAll) with
    | true, true => true
    | false, true => by_dom
    | true, false => by_dow
    | false, false => by_dom || by_dow
    end.

(** [matches]. *)
Definition matches (cron : Cron) (at_ms : Z) : bool :=
  let minutes := at_ms / 60000 in
  let day := minutes / 1440 in
  let time := minutes mod 1440 in
  day_matches cron day
  && bit_set (cron_hour cron) (time ÷ 60) && bit_set (cron_minute cron) (Z.rem time 60).

(** The inner [while] of [next_time_of_day]. *)
Fixpoint scan_minutes (fuel : nat) (cron : Cron) (hour minute : Z) : option Z :=
  match fuel with
  | O => None
  | S fuel =>
      if minute <? 60 then
        if bit_set (cron_minute cron) minute then Some (hour * 60 + minute)
        else scan_minutes fuel cron hour (minute + 1)
      else None
  end.

(** The outer [while] of [next_time_of_day]. *)
Fixpoint scan_hours (fuel : nat) (cron : Cron) (hour minute : Z) : option Z :=
  match fuel with
  | O => None
  | S fuel =>
      if hour <? 24 then
        match (if bit_set (cron_hour cron) hour then scan_minutes 60 cron hour minute else None) with
        | Some found => Some found
        | None => scan_hours fuel cron (hour + 1) 0
        end
      else None
  end.

(** [next_time_of_day]. *)
Definition next_time_of_day (cron : Cron) (from : Z) : option Z :=
  scan_hours 24 cron (from ÷ 60) (Z.rem from 60).

Definition MAX_LOOKAHEAD_DAYS : Z := 146097.

(** The [for] of [next_after], over the next [count] days. *)
Fixpoint scan_days (count : nat) (cron : Cron) (day time : Z) : option Z :=
  match count with
  | O => None
  | S count =>
      match (if day_matches cron day then next_time_of_day cron time else None) with
      | Some found => Some ((day * 1440 + found) * 60000)
      | None => scan_days count cron (day + 1) 0
      end
  end.

(** [next_after]. *)
Definition next_after (cron : Cron) (after_ms : Z) : option Z :=
  let start := after_ms / 60000 + 1 in
  scan_days (Z.to_nat MAX_LOOKAHEAD_DAYS) cron (start / 1440) (start mod 1440).

(** [next_across]. *)
Definition next_across (crons : list Cron) (after_ms : Z) : option Z :=
  min_of (omap (λ cron, next_after cron after_ms) crons).

(** [matching]. *)
Definition matching (crons : list Cron) (at_ms : Z) : list nat :=
  (filter (λ p : nat * Cron, matches p.2 at_ms) (imap (λ i c, (i, c)) crons)).*1.

(** [cron_rearm]. *)
Definition cron_rearm (next_ms retry_ms : option Z) : option Z :=
  match next_ms, retry_ms with
  | Some next, Some retry => Some (Z.min next retry)
  | next, None => next
  | None, retry => retry
  end.

(** ** Retries *)

Definition RETRY_CEILING : Z := 6.
Definition BACKOFF_BASE_MS : Z := 2000.
Definition MAX_BACKOFF_SHIFT : Z := 6.

(** [alarm_retry]. *)
Definition alarm_retry (now_ms retry counted_retry : Z) (counts_against_limit : bool) : option Z :=
  if counts_against_limit && (RETRY_CEILING <=? counted_retry) then None
  else
    let shift := Z.min (Z.max retry 0) MAX_BACKOFF_SHIFT in
    Some (sat_add_i64 now_ms (BACKOFF_BASE_MS * Z.shiftl 1 shift)).

Record Plan := mkPlan {
  plan_matching : list nat;
  plan_arm_at : option Z;
  plan_arm_is_retry : bool;
}.

(** [plan]. *)
Definition plan (crons : list Cron) (fired_ms : option Z) (now_ms retry : Z) (failed : bool) : Plan :=
  let matching := match fired_ms with Some at_ms => matching crons at_ms | None => [] end in
  let next := next_across crons now_ms in
  let retry_at := if failed then alarm_retry now_ms retry retry true else None in
  let arm_at := cron_rearm next retry_at in
  let arm_is_retry :=
    match arm_at, next with
    | Some at_ms, Some occurrence => at_ms <? occurrence
    | Some _, None => true
    | None, _ => false
    end in
  mkPlan matching arm_at arm_is_retry.

(** ** The search *)

Lemma bit_set_testbit bits i : 0 ≤ i → bit_set bits i = Z.testbit bits i.
Proof.
  intros Hi. unfold bit_set. rewrite Z.shiftl_1_l. destruct (Z.testbit bits i) eqn:Hb.
  - apply negb_true_iff, Z.eqb_neq. intros E. apply (f_equal (λ x, Z.testbit x i)) in E.
    rewrite Z.land_spec, Z.pow2_bits_true, Hb, Z.bits_0 in E by done. done.
  - apply negb_false_iff, Z.eqb_eq. apply Z.bits_inj'. intros n Hn.
    rewrite Z.land_spec, Z.pow2_bits_eqb, Z.bits_0 by done.
    destruct (Z.eqb_spec i n) as [<-|]; [by rewrite Hb|apply andb_false_r].
Qed.

(** [o] is the first point of [lo .. hi) where [P] holds, if there is one. *)
Definition first_from (P : Z → bool) (lo hi : Z) (o : option Z) : Prop :=
  match o with
  | Some x => lo ≤ x < hi ∧ P x = true ∧ ∀ y, lo ≤ y < x → P y = false
  | None => ∀ y, lo ≤ y < hi → P y = false
  end.

Lemma first_from_ext P Q lo hi o :
  (∀ y, lo ≤ y < hi → P y = Q y) → first_from P lo hi o → first_from Q lo hi o.
Proof.
  intros HPQ. destruct o as [x|]; simpl.
  - intros (Hx & HP & Hy). split_and!; [lia|lia|by rewrite <- HPQ|]. intros y ?. rewrite <- HPQ by lia. apply Hy. lia.
  - intros Hy y ?. rewrite <- HPQ by lia. by apply Hy.
Qed.

Lemma first_from_found P lo mid hi x :
  mid ≤ hi → first_from P lo mid (Some x) → first_from P lo hi (Some x).
Proof. simpl. intros ? (? & ? & ?). split_and!; [lia|lia|done|done]. Qed.

Lemma first_from_later P lo mid hi o :
  lo ≤ mid → first_from P lo mid None → first_from P mid hi o → first_from P lo hi o.
Proof.
  intros Hle Hn. destruct o as [x|]; simpl in *.
  - intros (Hx & HP & Hy). split_and!; [lia|lia|done|]. intros y ?. destruct (decide (y < mid)); [apply Hn|apply Hy]; lia.
  - intros Hy y ?. destruct (decide (y < mid)); [apply Hn|apply Hy]; lia.
Qed.

Definition time_matches (cron : Cron) (time : Z) : bool :=
  bit_set (cron_hour cron) (time ÷ 60) && bit_set (cron_minute cron) (Z.rem time 60).

(** [matches] at the start of a minute. *)
Definition minute_matches (cron : Cron) (m : Z) : bool :=
  day_matches cron (m / 1440) && time_matches cron (m mod 1440).

Lemma matches_minute cron at_ms : matches cron at_ms = minute_matches cron (at_ms / 60000).
Proof. unfold matches, minute_matches, time_matches. by rewrite andb_assoc. Qed.

Lemma scan_minutes_first fuel cron hour minute :
  60 - minute ≤ Z.of_nat fuel →
  first_from (λ t, bit_set (cron_minute cron) (t - hour * 60)) (hour * 60 + minute) (hour * 60 + 60)
    (scan_minutes fuel cron hour minute).
Proof.
  revert minute. induction fuel as [|fuel IH]; intros minute Hf; cbn [scan_minutes].
  { simpl. lia. }
  destruct (Z.ltb_spec minute 60); [|simpl; lia].
  destruct (bit_set (cron_minute cron) minute) eqn:E.
  - simpl. replace (hour * 60 + minute - hour * 60) with minute by lia. split_and!; [lia|lia|done|lia].
  - apply (first_from_later _ _ (hour * 60 + (minute + 1))); [lia| |apply IH; lia].
    intros y Hy. by replace (y - hour * 60) with minute by lia.
Qed.

Lemma time_parts hour minute :
  0 ≤ hour → 0 ≤ minute < 60 → (hour * 60 + minute) ÷ 60 = hour ∧ Z.rem (hour * 60 + minute) 60 = minute.
Proof. intros. Z.to_euclidean_division_equations. lia. Qed.

Lemma scan_hours_first fuel cron hour minute :
  0 ≤ hour → 0 ≤ minute < 60 → (hour < 24 ∨ minute = 0) → 24 - hour ≤ Z.of_nat fuel →
  first_from (time_matches cron) (hour * 60 + minute) 1440 (scan_hours fuel cron hour minute).
Proof.
  revert hour minute. induction fuel as [|fuel IH]; intros hour minute Hh Hm Hor Hf; cbn [scan_hours].
  { simpl. lia. }
  destruct (Z.ltb_spec hour 24); [|simpl; lia].
  assert (first_from (time_matches cron) (hour * 60 + minute) (hour * 60 + 60)
            (if bit_set (cron_hour cron) hour then scan_minutes 60 cron hour minute else None)) as Hhour.
  { assert (∀ y, hour * 60 + minute ≤ y < hour * 60 + 60 →
              time_matches cron y = bit_set (cron_hour cron) hour && bit_set (cron_minute cron) (y - hour * 60)) as Ht.
    { intros y Hy. unfold time_matches. destruct (time_parts hour (y - hour * 60)) as [E1 E2]; [lia..|].
      replace (hour * 60 + (y - hour * 60)) with y in E1, E2 by lia. by rewrite E1, E2. }
    destruct (bit_set (cron_hour cron) hour).
    - eapply first_from_ext; [|apply scan_minutes_first; lia]. intros y Hy. by rewrite Ht by done.
    - intros y Hy. by rewrite Ht by done. }
  destruct (if bit_set (cron_hour cron) hour then _ else _) as [found|].
  - by apply (first_from_found _ _ (hour * 60 + 60)); [lia|].
  - apply (first_from_later _ _ (hour * 60 + 60)); [lia|done|].
    replace (hour * 60 + 60) with ((hour + 1) * 60 + 0) by lia. apply IH; lia.
Qed.

Lemma next_time_of_day_first cron from :
  0 ≤ from < 1440 → first_from (time_matches cron) from 1440 (next_time_of_day cron from).
Proof.
  intros Hf. unfold next_time_of_day.
  pose proof (scan_hours_first 24 cron (from ÷ 60) (Z.rem from 60)) as H.
  replace (from ÷ 60 * 60 + Z.rem from 60) with from in H by (Z.to_euclidean_division_equations; lia).
  apply H; Z.to_euclidean_division_equations; lia.
Qed.

Lemma scan_days_first count cron day time :
  0 ≤ time < 1440 →
  ∃ o, scan_days count cron day time = (λ m, m * 60000) <$> o
    ∧ first_from (minute_matches cron) (day * 1440 + time) ((day + Z.of_nat count) * 1440) o.
Proof.
  revert day time. induction count as [|count IH]; intros day time Ht; cbn [scan_days].
  { exists None. split; [done|]. intros y Hy. lia. }
  assert (∀ y, day * 1440 ≤ y < (day + 1) * 1440 →
            minute_matches cron y = day_matches cron day && time_matches cron (y - day * 1440)) as Hm.
  { intros y Hy. unfold minute_matches.
    replace (y / 1440) with day by (Z.to_euclidean_division_equations; lia).
    by replace (y mod 1440) with (y - day * 1440) by (Z.to_euclidean_division_equations; lia). }
  pose proof (next_time_of_day_first cron time Ht) as Hn.
  assert (first_from (minute_matches cron) (day * 1440 + time) ((day + 1) * 1440)
            (Z.add (day * 1440) <$> if day_matches cron day then next_time_of_day cron time else None)) as Hday.
  { destruct (day_matches cron day); [|intros y Hy; by rewrite Hm by lia].
    destruct (next_time_of_day cron time) as [t|]; simpl in *.
    - destruct Hn as (Hlt & Htm & Hno). split_and!; [lia|lia| |].
      + rewrite Hm by lia. by replace (day * 1440 + t - day * 1440) with t by lia.
      + intros y Hy. rewrite Hm by lia. apply Hno. lia.
    - intros y Hy. rewrite Hm by lia. apply Hn. lia. }
  destruct (if day_matches cron day then _ else _) as [found|].
  - exists (Some (day * 1440 + found)). split; [done|]. eapply first_from_found; [|exact Hday]. lia.
  - destruct (IH (day + 1) 0) as (o & -> & Ho); [lia|]. exists o. split; [done|].
    apply (first_from_later _ _ ((day + 1) * 1440)); [lia|exact Hday|].
    rewrite Z.add_0_r in Ho. by replace (day + Z.of_nat (S count)) with (day + 1 + Z.of_nat count) by lia.
Qed.

Lemma next_after_scan cron after_ms :
  let start := after_ms / 60000 + 1 in
  ∃ o, next_after cron after_ms = (λ m, m * 60000) <$> o
    ∧ first_from (minute_matches cron) start ((start / 1440 + MAX_LOOKAHEAD_DAYS) * 1440) o.
Proof.
  intros start. unfold next_after. fold start.
  destruct (scan_days_first (Z.to_nat MAX_LOOKAHEAD_DAYS) cron (start / 1440) (start mod 1440)) as (o & -> & Ho).
  { apply Z.mod_pos_bound. lia. }
  exists o. split; [done|]. rewrite Z2Nat.id in Ho by done.
  replace (start / 1440 * 1440 + start mod 1440) with start in Ho; [done|].
  rewrite Z.mul_comm. apply Z_div_mod_eq_full.
Qed.

(** ** The calendar repeats

    What [day_matches] looks at is the month, the day, the weekday and the
    length of the month.  They repeat every 146097 days, and within such a
    cycle each of them occurs on two days at least. *)

Definition signature (day : Z) : Z * Z * Z * Z :=
  let '(year, month, day_of_month) := civil_from_days day in
  (month, day_of_month, (day + 4) mod 7, days_in_month year month).

Lemma day_matches_signature cron d d' : signature d = signature d' → day_matches cron d = day_matches cron d'.
Proof.
  unfold signature, day_matches.
  destruct (civil_from_days d) as [[y m] k], (civil_from_days d') as [[y' m'] k'].
  intros [= -> -> Hw Hl]. by rewrite Hw, Hl.
Qed.

Lemma signature_parts era y doy :
  0 ≤ y < 400 → 0 ≤ doy < year_length y →
  signature (era * 146097 + year_start y + doy - 719468)
  = (month_of doy, day_of doy, (year_start y + doy + 3) mod 7, month_length (year_length y =? 366) (month_of doy)).
Proof.
  intros Hy Hd. unfold signature. rewrite civil_from_parts by done.
  pose proof (date_at_valid era y doy Hy Hd) as Hv. unfold date_at in *. simpl in Hv.
  rewrite days_in_month_length by (done || lia). f_equal. f_equal.
  replace (era * 146097 + year_start y + doy - 719468 + 4)
    with (year_start y + doy + 3 + (era * 20871 - 102781) * 7) by lia.
  by rewrite Z.mod_add.
Qed.

Lemma signature_period day k : signature (day + k * 146097) = signature day.
Proof.
  destruct (civil_date_at day) as (era & y & doy & Hz & Hy & Hd & _).
  replace (day + k * 146097) with ((era + k) * 146097 + year_start y + doy - 719468) by lia.
  replace day with (era * 146097 + year_start y + doy - 719468) by lia. by rewrite !signature_parts.
Qed.

(** Another year of the era with the same weekdays and the same length. *)
Definition same_year (y y' : Z) : bool :=
  negb (y =? y') && (year_length y =? year_length y') && (year_start y mod 7 =? year_start y' mod 7).

Definition twin_year (y : Z) : option Z := find (same_year y) (seqZ 0 400).

Lemma twin_year_all : forallb (λ y, is_some (twin_year y)) (seqZ 0 400) = true.
Proof. vm_compute. reflexivity. Qed.

Lemma mod_shift a a' b : a mod 7 = a' mod 7 → (a + b) mod 7 = (a' + b) mod 7.
Proof. intros. Z.to_euclidean_division_equations. lia. Qed.

Lemma signature_twin day : ∃ day', signature day' = signature day ∧ (day' - day) mod 146097 ≠ 0.
Proof.
  destruct (civil_date_at day) as (era & y & doy & Hz & Hy & Hd & _).
  pose proof (forallb_seqZ _ _ _ y twin_year_all ltac:(lia)) as H. cbv beta in H.
  destruct (twin_year y) as [y'|] eqn:Hf; [|done].
  apply find_some in Hf as [Hy'%list_elem_of_In%elem_of_seqZ Hs]. unfold same_year in Hs. bools.
  assert (year_start y ≠ year_start y') as Hne.
  { intros E. assert (y < y' ∨ y' < y) as [Hlt|Hlt] by lia;
      [pose proof (year_start_mono (y + 1) y' ltac:(lia))|pose proof (year_start_mono (y' + 1) y ltac:(lia))];
      unfold year_length in *; lia. }
  exists (era * 146097 + year_start y' + doy - 719468). split.
  - replace day with (era * 146097 + year_start y + doy - 719468) by lia.
    rewrite !signature_parts by lia. replace (year_length y') with (year_length y) by lia.
    by rewrite <- !Z.add_assoc, (mod_shift (year_start y') (year_start y)) by lia.
  - rewrite Z.mod_divide by lia. intros [k Hk].
    pose proof (year_start_range y ltac:(lia)). pose proof (year_start_range y' ltac:(lia)).
    pose proof (year_start_range (y + 1) ltac:(lia)). pose proof (year_start_range (y' + 1) ltac:(lia)).
    unfold year_length in *. lia.
Qed.

(** A minute that matches has another one in every window of the search. *)
Lemma minute_in_window cron m start :
  minute_matches cron m = true →
  ∃ m', start ≤ m' < (start / 1440 + MAX_LOOKAHEAD_DAYS) * 1440 ∧ minute_matches cron m' = true.
Proof.
  unfold minute_matches, MAX_LOOKAHEAD_DAYS. intros [Hday Htime]%andb_prop. set (D := start / 1440).
  assert (start = D * 1440 + start mod 1440 ∧ 0 ≤ start mod 1440 < 1440
          ∧ 0 ≤ m mod 1440 < 1440) as (Hs & Hs' & Hm).
  { split_and!; try (apply Z.mod_pos_bound; lia). subst D. rewrite Z.mul_comm. apply Z_div_mod_eq_full. }
  assert (∀ d, signature d = signature (m / 1440) → (d - D) mod 146097 ≠ 0 →
            ∃ m', start ≤ m' < (D + 146097) * 1440 ∧
                  day_matches cron (m' / 1440) && time_matches cron (m' mod 1440) = true) as Hlater.
  { intros d Hsig Hd. pose proof (Z.mod_pos_bound (d - D) 146097 ltac:(lia)).
    set (d' := D + (d - D) mod 146097) in *. exists (d' * 1440 + m mod 1440). split; [lia|].
    replace ((d' * 1440 + m mod 1440) / 1440) with d' by (generalize dependent (m mod 1440); intros; Z.to_euclidean_division_equations; lia).
    replace ((d' * 1440 + m mod 1440) mod 1440) with (m mod 1440)
      by (generalize dependent (m mod 1440); intros; Z.to_euclidean_division_equations; lia).
    rewrite Htime, andb_true_r, <- Hday. apply day_matches_signature. rewrite <- Hsig.
    rewrite <- (signature_period d' ((d - D) / 146097)). f_equal. subst d'.
    pose proof (Z_div_mod_eq_full (d - D) 146097). lia. }
  destruct (decide ((m / 1440 - D) mod 146097 = 0)) as [E|E]; [|by apply (Hlater (m / 1440))].
  destruct (signature_twin (m / 1440)) as (d & Hsig & Hd). apply (Hlater d Hsig). intros E'. apply Hd.
  replace (d - m / 1440) with ((d - D) - (m / 1440 - D)) by lia.
  rewrite Zminus_mod, E, E'. done.
Qed.

(** C39: [next_after] finds the first minute strictly after the instant that
    the expression matches, at most one Gregorian cycle away; where it finds
    none, the expression matches at no instant at all. *)
Theorem next_after_first cron after_ms :
  match next_after cron after_ms with
  | Some t =>
      after_ms < t ≤ after_ms + (MAX_LOOKAHEAD_DAYS * 1440 + 1) * 60000
      ∧ t mod 60000 = 0 ∧ matches cron t = true
      ∧ ∀ u, after_ms < u < t → u mod 60000 = 0 → matches cron u = false
  | None => ∀ u, matches cron u = false
  end.
Proof.
  destruct (next_after_scan cron after_ms) as (o & -> & Ho). set (start := after_ms / 60000 + 1) in *.
  assert (after_ms < start * 60000 ≤ after_ms + 60000) as Hstart
    by (subst start; Z.to_euclidean_division_equations; lia).
  assert (start / 1440 * 1440 ≤ start) as Hdiv by (Z.to_euclidean_division_equations; lia).
  destruct o as [m|]; simpl in *.
  - destruct Ho as (Hm & Hmm & Hno). unfold MAX_LOOKAHEAD_DAYS in *.
    rewrite Z.mod_mul, matches_minute, Z.div_mul by lia. split_and!; [lia|lia|done|done|].
    intros u Hu Hum. rewrite matches_minute. apply Hno. subst start.
    Z.to_euclidean_division_equations. lia.
  - intros u. rewrite matches_minute. destruct (minute_matches cron (u / 60000)) eqn:E; [|done].
    destruct (minute_in_window cron _ start E) as (m' & Hm' & E'). rewrite Ho in E' by done. done.
Qed.

(** ** What the parser accepts *)

Lemma set_bits_spec fuel bits value last step i :
  0 ≤ value → 0 < step → last - value < Z.of_nat fuel → 0 ≤ i →
  Z.testbit (set_bits fuel bits value last step) i
  = Z.testbit bits i || ((value <=? i) && (i <=? last) && ((i - value) mod step =? 0)).
Proof.
  revert bits value. induction fuel as [|fuel IH]; intros bits value Hv Hs Hf Hi; cbn [set_bits].
  - destruct (Z.leb_spec value i), (Z.leb_spec i last); simpl; rewrite ?orb_false_r; done || lia.
  - destruct (Z.leb_spec value last) as [Hle|Hgt].
    2: { destruct (Z.leb_spec value i), (Z.leb_spec i last); simpl; rewrite ?orb_false_r; done || lia. }
    rewrite IH by lia. rewrite Z.lor_spec, Z.shiftl_1_l, Z.pow2_bits_eqb by done.
    rewrite <- orb_assoc. f_equal. destruct (Z.eqb_spec value i) as [<-|Hne].
    + rewrite Z.sub_diag, Z.mod_0_l by lia. by rewrite Z.leb_refl, (proj2 (Z.leb_le value last)) by done.
    + simpl. replace ((i - value) mod step) with ((i - (value + step)) mod step).
      2: { replace (i - value) with (i - (value + step) + 1 * step) by lia. by rewrite Z.mod_add by lia. }
      destruct (Z.leb_spec (value + step) i), (Z.leb_spec value i), (Z.leb_spec i last); simpl; try done; try lia.
      symmetry. apply Z.eqb_neq. rewrite Z.mod_divide by lia. intros [k Hk]. assert (k < 0) by nia. assert (-1 < k) by nia. lia.
Qed.

Lemma set_bits_nonneg fuel bits value last step :
  0 ≤ bits → 0 ≤ value → 0 < step → 0 ≤ set_bits fuel bits value last step.
Proof.
  revert bits value. induction fuel as [|fuel IH]; intros bits value Hb Hv Hs; simpl; [done|].
  case_match; [|done]. apply IH; [|lia|done]. apply Z.lor_nonneg. split; [done|]. by apply Z.shiftl_nonneg.
Qed.

(** The names of a field fit its range. *)
Definition field_ok (field : Field) : Prop :=
  0 ≤ f_min field ≤ f_max field ∧ f_min field + Z.of_nat (length (f_names field)) ≤ f_max field + 1.

Lemma fields_ok : field_ok MINUTE ∧ field_ok HOUR ∧ field_ok DAY_OF_MONTH ∧ field_ok MONTH ∧ field_ok DAY_OF_WEEK.
Proof. unfold field_ok. simpl. lia. Qed.

Lemma parse_digits_nonneg t v : parse_digits t = Some v → 0 ≤ v.
Proof.
  unfold parse_digits. case_match eqn:E; [done|]. case_match; [|done]. intros [= <-].
  apply orb_false_iff in E as [_ E%negb_false_iff]. unfold decimal.
  assert (∀ acc, 0 ≤ acc → 0 ≤ foldl (λ acc c, acc * 10 + (Z.of_N c - 48)) acc t) as Hacc; [|by apply Hacc].
  clear H. induction t as [|c t IH]; intros acc Ha; simpl in *; [done|].
  apply andb_prop in E as [Hc E]. apply IH; [done|]. unfold is_ascii_digit in Hc.
  apply andb_prop in Hc as [Hc _]. apply N.leb_le in Hc. lia.
Qed.

Lemma parse_value_range t field v : field_ok field → parse_value t field = Ok v → f_min field ≤ v ≤ f_max field.
Proof.
  intros [Hr Hn]. unfold parse_value.
  destruct (list_find _ _) as [[i name]|] eqn:E.
  - intros [= <-]. apply list_find_Some in E as (Hi & _). apply lookup_lt_Some in Hi. lia.
  - intros (d & _ & Hd)%result_bind_Ok. case_match eqn:Eo; [done|]. injection Hd as <-.
    apply orb_false_iff in Eo as [E1%Z.ltb_ge E2%Z.ltb_ge]. lia.
Qed.

(** A range with a step, as a set. *)
Definition range_bits (bits first last step : Z) : Prop :=
  0 ≤ bits ∧ ∀ i, 0 ≤ i →
    Z.testbit bits i = (first <=? i) && (i <=? last) && ((i - first) mod step =? 0).

Lemma parse_item_range item field bits :
  field_ok field → parse_item item field = Ok bits →
  ∃ first last step, f_min field ≤ first ≤ last ∧ last ≤ f_max field ∧ 0 < step
    ∧ range_bits bits first last step.
Proof.
  intros Hok. unfold parse_item. intros ([spec step] & Hstep & H)%result_bind_Ok.
  assert (0 < step) as Hs.
  { destruct (split_once_char 47 item) as [[a b]|]; [|by injection Hstep as <- <-].
    apply result_bind_Ok in Hstep as (s & Hs & Hstep).
    destruct (parse_digits b) as [d|] eqn:Ed; [|done]. injection Hs as <-. apply parse_digits_nonneg in Ed.
    destruct ((d =? 0) || (f_max field - f_min field <? d)) eqn:E; [done|].
    injection Hstep as _ <-. apply orb_false_iff in E as [E%Z.eqb_neq _]. lia. }
  clear Hstep. apply result_bind_Ok in H as ([first last] & Hfl & H).
  destruct (Z.ltb_spec last first) as [|Hle]; [done|].
  assert (last - first < Z.of_nat (S (Z.to_nat (last - first)))) as Hfuel by lia.
  generalize dependent (S (Z.to_nat (last - first))). intros fuel H Hfuel. injection H as <-.
  assert (f_min field ≤ first ∧ last ≤ f_max field) as [Hf Hl].
  { pose proof Hok as [Hr Hn]. case_bool_decide; [injection Hfl as <- <-; lia|].
    destruct (split_once_char 45 spec) as [[a b]|].
    - apply result_bind_Ok in Hfl as (x & Hx & Hfl). apply result_bind_Ok in Hfl as (y & Hy & Hfl).
      injection Hfl as <- <-. apply parse_value_range in Hx, Hy; [lia|done..].
    - apply result_bind_Ok in Hfl as (x & Hx & Hfl). injection Hfl as <- <-.
      apply parse_value_range in Hx; [|done]. case_match; lia. }
  destruct Hok as [Hr _]. exists first, last, step. do 3 (split; [lia|]).
  split; [apply set_bits_nonneg; lia|]. intros i Hi. rewrite set_bits_spec by lia. by rewrite Z.testbit_0_l.
Qed.

(** The bits of a parsed field: at least one, and all in its range. *)
Definition field_bits (bits low high : Z) : Prop :=
  0 ≤ bits ∧ (∃ i, 0 ≤ i ∧ Z.testbit bits i = true) ∧ ∀ i, Z.testbit bits i = true → low ≤ i ≤ high.

Lemma range_field_bits bits first last step low high :
  0 ≤ low ≤ first → first ≤ last ≤ high → 0 < step → range_bits bits first last step → field_bits bits low high.
Proof.
  intros Hl Hh Hs [Hb Hbits]. split_and!; [done| |].
  - exists first. split; [lia|]. rewrite Hbits by lia.
    by rewrite Z.leb_refl, (proj2 (Z.leb_le first last)), Z.sub_diag, Z.mod_0_l by lia.
  - intros i Hi. destruct (Z.ltb_spec i 0) as [Hn|Hn]; [by rewrite Z.testbit_neg_r in Hi|].
    rewrite Hbits in Hi by done. apply andb_prop in Hi as [[Hi1%Z.leb_le Hi2%Z.leb_le]%andb_prop _]. lia.
Qed.

Lemma parse_items_bits many whole items bits field b :
  field_ok field → parse_items many whole items bits field = Ok b →
  0 ≤ bits → (∀ i, Z.testbit bits i = true → f_min field ≤ i ≤ f_max field) →
  (items ≠ [] ∨ ∃ i, 0 ≤ i ∧ Z.testbit bits i = true) → field_bits b (f_min field) (f_max field).
Proof.
  intros Hok. revert bits. induction items as [|item items IH]; intros bits; cbn [parse_items].
  - intros [= <-] Hn Hb [?|?]; [done|]. by split_and!.
  - case_match; [done|]. intros (more & Hm & Hrest)%result_bind_Ok Hn Hb _.
    apply parse_item_range in Hm as (f & l & s & Hf & Hl & Hs & Hr); [|done].
    destruct (range_field_bits more f l s (f_min field) (f_max field)) as (Hmn & (i & Hi & Hi') & Hmb); [destruct Hok; lia|lia|done|done|].
    apply (IH _ Hrest).
    + by apply Z.lor_nonneg.
    + intros j. rewrite Z.lor_spec. intros [Hj|Hj]%orb_prop; [by apply Hb|by apply Hmb].
    + right. exists i. by rewrite Z.lor_spec, Hi', orb_true_r.
Qed.

Lemma split_char_not_nil sep t : split_char sep t ≠ [].
Proof. destruct t as [|c t]; simpl; [done|]. induction t; simpl in *; repeat case_match; done. Qed.

Lemma parse_field_bits t field b :
  field_ok field → parse_field t field = Ok b → field_bits b (f_min field) (f_max field).
Proof.
  intros Hok. unfold parse_field. case_bool_decide; [done|]. intros Hp.
  apply (parse_items_bits _ _ _ _ _ _ Hok Hp); [done| |].
  - intros i. by rewrite Z.testbit_0_l.
  - left. apply split_char_not_nil.
Qed.

Lemma field_bits_cast bits low high w :
  field_bits bits low high → 0 ≤ w → high < w → cast w bits = bits.
Proof.
  intros (Hn & _ & Hb) Hw Hh. unfold cast. apply Z.mod_small. split; [done|].
  destruct (decide (bits = 0)) as [->|Hz]; [by apply Z.pow_pos_nonneg|].
  apply Z.log2_lt_pow2; [lia|]. pose proof (Hb (Z.log2 bits) ltac:(apply Z.bit_log2; lia)). lia.
Qed.

Lemma field_bits_shift bits low high :
  1 ≤ low → field_bits bits low high → field_bits (Z.shiftr bits 1) (low - 1) (high - 1).
Proof.
  intros Hl (Hn & (i & Hi & Hi') & Hb). split_and!.
  - by apply Z.shiftr_nonneg.
  - pose proof (Hb _ Hi'). exists (i - 1). split; [lia|]. rewrite Z.shiftr_spec by lia.
    by replace (i - 1 + 1) with i by lia.
  - intros j Hj. destruct (Z.ltb_spec j 0); [by rewrite Z.testbit_neg_r in Hj|].
    rewrite Z.shiftr_spec in Hj by done. apply Hb in Hj. lia.
Qed.

(** The fields of a parsed expression are in their ranges. *)
Definition day_of_month_ok (f : DayOfMonth) : Prop :=
  match f with
  | DomAll | DomLast | DomLastWeekday => True
  | DomDays days => field_bits days 1 31
  | DomLastOffset offset | DomLastOffsetWeekday offset => 1 ≤ offset ≤ 30
  | DomClosestWeekday target => 1 ≤ target ≤ 31
  end.

Definition day_of_week_ok (f : DayOfWeek) : Prop :=
  match f with
  | DowAll => True
  | DowDays days => field_bits days 0 6
  | DowLast wanted => 0 ≤ wanted ≤ 6
  | DowNth wanted nth => 0 ≤ wanted ≤ 6 ∧ 1 ≤ nth ≤ 5
  end.

Definition cron_ok (c : Cron) : Prop :=
  field_bits (cron_minute c) 0 59 ∧ field_bits (cron_hour c) 0 23 ∧ field_bits (cron_month c) 1 12
  ∧ day_of_month_ok (cron_day_of_month c) ∧ day_of_week_ok (cron_day_of_week c).

Lemma parse_day_of_month_ok t f : parse_day_of_month t = Ok f → day_of_month_ok f.
Proof.
  unfold parse_day_of_month. case_bool_decide; [by intros [= <-]|].
  destruct (strip_prefix_char 76 t) as [rest|].
  - case_bool_decide; [by intros [= <-]|]. case_bool_decide; [by intros [= <-]|].
    destruct (strip_suffix_char 87 rest) as [digits|];
      intros (o & _ & (offset & _ & Hr)%result_bind_Ok)%result_bind_Ok;
      (destruct (negb _) eqn:E; [done|]); injection Hr as <-; simpl;
      apply negb_false_iff, andb_prop in E as [E1%Z.leb_le E2%Z.leb_le]; lia.
  - destruct (strip_suffix_char 87 t) as [day|].
    + intros (d & Hd & Hr)%result_bind_Ok. injection Hr as <-.
      apply parse_value_range in Hd; [exact Hd|apply fields_ok].
    + intros (d & Hd & Hr)%result_bind_Ok. injection Hr as <-.
      apply parse_field_bits in Hd; [|apply fields_ok]. simpl in *.
      by rewrite (field_bits_cast d 1 31) by (done || lia).
Qed.

Lemma parse_day_of_week_ok t f : parse_day_of_week t = Ok f → day_of_week_ok f.
Proof.
  unfold parse_day_of_week. case_bool_decide; [by intros [= <-]|]. case_bool_decide.
  { intros [= <-]. apply (range_field_bits _ 6 6 1); [lia..|]. split; [done|]. intros i Hi.
    rewrite Z.mod_1_r, andb_true_r. change (Z.shiftl 1 6) with (2 ^ 6). rewrite Z.pow2_bits_eqb by done.
    destruct (Z.eqb_spec 6 i), (Z.leb_spec 6 i), (Z.leb_spec i 6); done || lia. }
  destruct (strip_suffix_char 76 t) as [day|].
  { intros (d & Hd & Hr)%result_bind_Ok. injection Hr as <-.
    apply parse_value_range in Hd; [|apply fields_ok]. simpl in *. lia. }
  destruct (split_once_char 35 t) as [[day nth]|].
  - intros (d & Hd & (n & _ & Hr)%result_bind_Ok)%result_bind_Ok.
    apply parse_value_range in Hd; [|apply fields_ok]. simpl in Hd.
    destruct (negb _) eqn:E; [done|]. injection Hr as <-. simpl.
    apply negb_false_iff, andb_prop in E as [E1%Z.leb_le E2%Z.leb_le]. lia.
  - intros (d & Hd & Hr)%result_bind_Ok. injection Hr as <-.
    apply parse_field_bits in Hd; [|apply fields_ok]. apply field_bits_shift in Hd; [|done]. simpl in *.
    by rewrite (field_bits_cast _ 0 6) by (done || lia).
Qed.

Lemma fail_Ok {A} e (r : result A CronMessage) a : result_map_err (mkCronError e) r = Ok a → r = Ok a.
Proof. destruct r; naive_solver. Qed.

Lemma parse_cron_ok expression c : parse expression = Ok c → cron_ok c.
Proof.
  unfold parse. destruct (split_whitespace expression) as [|f0 [|f1 [|f2 [|f3 [|f4 [|]]]]]]; try done.
  intros (mi & Hmi%fail_Ok & H)%result_bind_Ok. apply result_bind_Ok in H as (h & Hh%fail_Ok & H).
  apply result_bind_Ok in H as (dom & Hdom%fail_Ok & H). apply result_bind_Ok in H as (mo & Hmo%fail_Ok & H).
  apply result_bind_Ok in H as (dow & Hdow%fail_Ok & H). injection H as <-.
  apply parse_field_bits in Hmi, Hh, Hmo; [|apply fields_ok..]. simpl in *.
  unfold cron_ok. simpl. rewrite (field_bits_cast h 0 23), (field_bits_cast mo 1 12) by (done || lia).
  apply parse_day_of_month_ok in Hdom. apply parse_day_of_week_ok in Hdow. done.
Qed.

Lemma cron_ok_time c : cron_ok c → ∃ time, 0 ≤ time < 1440 ∧ time_matches c time = true.
Proof.
  intros ((_ & (m & Hm & Hmb) & Hmr) & (_ & (h & Hh & Hhb) & Hhr) & _).
  pose proof (Hmr _ Hmb). pose proof (Hhr _ Hhb). exists (h * 60 + m). split; [lia|].
  unfold time_matches. destruct (time_parts h m) as [-> ->]; [lia..|].
  by rewrite !bit_set_testbit, Hmb, Hhb by done.
Qed.

(** An accepted expression has its fields in range, with no bit lost to a
    narrower type, and its schedule ends only where no day of the calendar
    satisfies its day fields: the minute and hour fields are never to blame. *)
Theorem parsed_retires expression c after_ms :
  parse expression = Ok c →
  cron_ok c ∧ (next_after c after_ms = None ↔ ∀ day, day_matches c day = false).
Proof.
  intros Hok%parse_cron_ok. split; [done|].
  destruct (next_after_scan c after_ms) as (o & -> & Ho). split.
  - intros E day. destruct o as [|]; [done|]. destruct (day_matches c day) eqn:Ed; [|done].
    destruct (cron_ok_time c Hok) as (time & Ht & Htm).
    destruct (minute_in_window c (day * 1440 + time) (after_ms / 60000 + 1)) as (m & Hm & Hmm).
    + unfold minute_matches.
      replace ((day * 1440 + time) / 1440) with day by (Z.to_euclidean_division_equations; lia).
      replace ((day * 1440 + time) mod 1440) with time by (Z.to_euclidean_division_equations; lia).
      by rewrite Ed, Htm.
    + by rewrite (Ho m Hm) in Hmm.
  - intros Hno. destruct o as [m|]; [|done]. destruct Ho as (_ & Hm & _). unfold minute_matches in Hm.
    by rewrite Hno in Hm.
Qed.

Lemma parsed_retires_witness :
  ∃ c, parse (chars "*/15 9-17 LW * 2-6") = Ok c ∧ cron_ok c.
Proof.
  eexists. split; [vm_compute; reflexivity|].
  refine (proj1 (parsed_retires (chars "*/15 9-17 LW * 2-6") _ 0 _)). vm_compute. reflexivity.
Defined.

(** ** The weekday rules *)

(** The weekday closest to day [target] inside its month; [w] is the weekday of
    [target]. *)
Definition closest_weekday (w target last : Z) : Z :=
  if w =? 6 then if target =? 1 then 3 else target - 1
  else if w =? 0 then if target =? last then target - 2 else target + 1
  else target.

Definition weekday_rules_at (last day weekday target : Z) : bool :=
  let w := (weekday + target - day) mod 7 in
  implb (target <=? last)
    (eqb (day_of_month_matches (DomClosestWeekday target) day weekday last)
         (day =? closest_weekday w target last)
     && implb (target =? last)
          (eqb (day_of_month_matches DomLastWeekday day weekday last)
               (day =? closest_weekday w target last))
     && implb (target <? last)
          (eqb (day_of_month_matches (DomLastOffsetWeekday (last - target)) day weekday last)
               (if w =? 6 then (day =? target - 1) || (day =? target + 2)
                else day =? closest_weekday w target last))).

Lemma weekday_rules_all :
  forallb (λ last, forallb (λ day, forallb (λ weekday,
      forallb (weekday_rules_at last day weekday) (seqZ 1 31)) (seqZ 0 7)) (seqZ 1 last)) (seqZ 28 4) = true.
Proof. vm_compute. reflexivity. Qed.

(** The [W] forms.  [<d>W] and [LW] match one day of a month that has day
    [d], the weekday closest to it inside the month.  [L-<n>W] does so too,
    unless the day it names is a Saturday: then it matches the Friday before
    and the Monday after it. *)
Theorem weekday_rules last day weekday target :
  28 ≤ last ≤ 31 → 1 ≤ day ≤ last → 0 ≤ weekday ≤ 6 → 1 ≤ target ≤ last →
  let w := (weekday + target - day) mod 7 in
  day_of_month_matches (DomClosestWeekday target) day weekday last = (day =? closest_weekday w target last)
  ∧ (target = last →
     day_of_month_matches DomLastWeekday day weekday last = (day =? closest_weekday w target last))
  ∧ (target < last →
     day_of_month_matches (DomLastOffsetWeekday (last - target)) day weekday last
     = if w =? 6 then (day =? target - 1) || (day =? target + 2) else day =? closest_weekday w target last).
Proof.
  intros Hl Hd Hw Ht w.
  pose proof (forallb_seqZ _ _ _ last weekday_rules_all ltac:(lia)) as H. cbv beta in H.
  apply (forallb_seqZ _ _ _ day) in H; [|lia]. cbv beta in H.
  apply (forallb_seqZ _ _ _ weekday) in H; [|lia]. cbv beta in H.
  apply (forallb_seqZ _ _ _ target) in H; [|lia]. unfold weekday_rules_at in H. fold w in H.
  rewrite (proj2 (Z.leb_le target last)) in H by lia. cbn [implb] in H.
  apply andb_prop in H as [[H1 H2]%andb_prop H3]. split; [by apply eqb_prop|]. split.
  - intros E. rewrite (proj2 (Z.eqb_eq _ _) E) in H2. by apply eqb_prop.
  - intros E. rewrite (proj2 (Z.ltb_lt _ _) E) in H3. by apply eqb_prop.
Qed.

(** A month of 31 days that ends on a Monday, and its Friday the 28th. *)
Lemma weekday_rules_witness :
  day_of_month_matches (DomLastOffsetWeekday 2) 28 5 31 = true
  ∧ day_of_month_matches (DomLastOffsetWeekday 2) 31 1 31 = true.
Proof.
  split.
  - refine (proj2 (proj2 (weekday_rules 31 28 5 29 _ _ _ _)) _); lia.
  - refine (proj2 (proj2 (weekday_rules 31 31 1 29 _ _ _ _)) _); lia.
Defined.

(** August 2026: [L-2W] fires on Friday the 28th and again on Monday the 31st. *)
Lemma last_offset_weekday_twice :
  match parse (chars "0 0 L-2W * *") with
  | Ok c => next_after c 1787788800000 = Some 1787875200000 ∧ next_after c 1787875200000 = Some 1788134400000
            ∧ civil_from_days (1787875200000 / 86400000) = (2026, 8, 28)
            ∧ civil_from_days (1788134400000 / 86400000) = (2026, 8, 31)
  | Err _ => False
  end.
Proof. vm_compute. done. Qed.

(** ** The plan *)

(** The earliest occurrence of any expression. *)
Lemma next_across_spec crons now_ms :
  match next_across crons now_ms with
  | Some t => (∃ c, c ∈ crons ∧ next_after c now_ms = Some t)
      ∧ ∀ c t', c ∈ crons → next_after c now_ms = Some t' → t ≤ t'
  | None => ∀ c, c ∈ crons → next_after c now_ms = None
  end.
Proof.
  unfold next_across. set (l := omap (λ c, next_after c now_ms) crons).
  assert (∀ t, t ∈ l ↔ ∃ c, c ∈ crons ∧ next_after c now_ms = Some t) as Hl by apply list_elem_of_omap.
  pose proof (min_of_spec l) as Hm. destruct (min_of l) as [t|].
  - destruct Hm as [Hin Hle]. split; [by apply Hl|]. intros c t' Hc Ht. apply Hle, Hl. eauto.
  - intros c Hc. destruct (next_after c now_ms) as [t|] eqn:Et; [|done].
    assert (t ∈ l) as Hin by (apply Hl; eauto). rewrite Hm in Hin. by apply not_elem_of_nil in Hin.
Qed.

Lemma matching_spec crons at_ms i :
  i ∈ matching crons at_ms ↔ ∃ c, crons !! i = Some c ∧ matches c at_ms = true.
Proof.
  unfold matching. rewrite list_elem_of_fmap. split.
  - intros ([j c] & -> & [Hm Hin]%list_elem_of_filter). apply elem_of_lookup_imap in Hin as (k & d & [= -> ->] & Hd).
    exists d. split; [done|]. simpl in Hm. by destruct (matches d at_ms).
  - intros (c & Hc & Hm). exists (i, c). split; [done|]. apply list_elem_of_filter. simpl. rewrite Hm. split; [done|].
    apply elem_of_lookup_imap. eauto.
Qed.

(** No expression matches strictly between the instants, on a whole minute. *)
Definition quiet (crons : list Cron) (now_ms t : Z) : Prop :=
  ∀ c u, c ∈ crons → now_ms < u < t → u mod 60000 = 0 → matches c u = false.

(** The plan of the cron cell.  It runs the expressions that match the fired
    occurrence and no others.  A deadline that is no retry is the first
    occurrence after now of any expression; a retry is the backoff's deadline,
    within the retry ceiling, and passes over no occurrence.  Nothing is armed
    only where no expression will ever match again and no retry is owed. *)
Theorem plan_schedule crons fired_ms now_ms retry failed :
  let p := plan crons fired_ms now_ms retry failed in
  (∀ i, i ∈ plan_matching p ↔
        ∃ at_ms c, fired_ms = Some at_ms ∧ crons !! i = Some c ∧ matches c at_ms = true)
  ∧ match plan_arm_at p with
    | Some t =>
        quiet crons now_ms t ∧
        if plan_arm_is_retry p
        then failed = true ∧ retry < RETRY_CEILING ∧ alarm_retry now_ms retry retry true = Some t
             ∧ (∀ c, c ∈ crons → t mod 60000 = 0 → now_ms < t → matches c t = false)
        else now_ms < t ∧ ∃ c, c ∈ crons ∧ matches c t = true
    | None => (∀ c u, c ∈ crons → matches c u = false) ∧ (failed = true → RETRY_CEILING ≤ retry)
    end.
Proof.
  cbv zeta. unfold plan. simpl. split.
  { intros i. destruct fired_ms as [at_ms|]; [rewrite matching_spec; naive_solver|].
    split; [by intros ?%not_elem_of_nil|naive_solver]. }
  assert (∀ t, (∀ c t', c ∈ crons → next_after c now_ms = Some t' → t ≤ t') → quiet crons now_ms t) as Hquiet.
  { intros t Hle c u Hc Hu Hm. pose proof (next_after_first c now_ms) as Hn.
    destruct (next_after c now_ms) as [t'|] eqn:Et; [|by apply Hn].
    destruct Hn as (_ & _ & _ & Hno). apply Hno; [|done]. pose proof (Hle c t' Hc Et). lia. }
  assert (∀ c t, c ∈ crons → next_after c now_ms = None → matches c t = false) as Hnever.
  { intros c t Hc Et. pose proof (next_after_first c now_ms) as Hn. rewrite Et in Hn. apply Hn. }
  pose proof (next_across_spec crons now_ms) as Hx.
  destruct (next_across crons now_ms) as [t|].
  - destruct Hx as ((c & Hc & Et) & Hle).
    assert (now_ms < t ∧ matches c t = true) as Hfirst.
    { pose proof (next_after_first c now_ms) as Hn. rewrite Et in Hn. naive_solver. }
    destruct (if failed then _ else _) as [r|] eqn:Er; simpl; [|rewrite Z.ltb_irrefl; naive_solver].
    destruct (Z.ltb_spec (Z.min t r) t) as [Hlt|Hge].
    + assert (Z.min t r = r) as -> by lia. assert (r < t) by lia. destruct failed; [|done].
      split; [apply Hquiet; intros; etrans; [|eauto]; lia|]. split; [done|]. split; [|split; [done|]].
      * unfold alarm_retry in Er. destruct (Z.leb_spec RETRY_CEILING retry); [done|lia].
      * intros d Hd Hm Hnow. apply (Hquiet t Hle); [done|lia|done].
    + assert (Z.min t r = t) as -> by lia. naive_solver.
  - destruct (if failed then _ else _) as [r|] eqn:Er; simpl.
    + destruct failed; [|done]. split; [intros d u Hd _ _; auto|]. split; [done|]. split; [|split; [done|auto]].
      unfold alarm_retry in Er. destruct (Z.leb_spec RETRY_CEILING retry); [done|lia].
    + split; [auto|]. intros ->. unfold alarm_retry in Er. destruct (Z.leb_spec RETRY_CEILING retry); done.
Qed.
