(* ===== verification/Queue.v ===== *)
(** * Queue policy

    Models [crates/logic/queue.rs]: the alarm deadline, retries and lease
    expiry, the batch plan that leases rows under a new generation, the fence
    that settlements pass, the purge plan and the bounds of a configuration.
    A sequence number and a timestamp are [Z], a generation an [N] of 64 bits. *)

From S2P Require Import Prelude.

#[local] Open Scope Z_scope.

Definition MAX_BATCH_MESSAGES : N := 100.
Definition MAX_BATCH_TIMEOUT_SECONDS : N := 60.
Definition MAX_RETRIES : N := 100.
Definition MAX_CONCURRENCY : N := 250.
Definition MAX_DELAY_SECONDS : N := 86400.

(** [cell_name]. *)
Definition cell_name (queue_name : string) : string := queue_name.

(** [rearm]. *)
Definition rearm (now : Z) (batch_deadline earliest_visible earliest_lease_expiry next_sweep : option Z) :
    option Z :=
  Z.max now <$>
    min_of (omap id [batch_deadline; earliest_visible; earliest_lease_expiry; next_sweep]).

(** [i64::saturating_mul]. *)
Definition sat_mul_i64 (a b : Z) : Z := Z.max i64_min (Z.min i64_max (a * b)).

(** [retry_at]. *)
Definition retry_at (now : Z) (explicit_seconds configured_seconds : option N) : Z :=
  let seconds := default 0%N (match explicit_seconds with Some s => Some s | None => configured_seconds end) in
  sat_add_i64 now (sat_mul_i64 (Z.of_N seconds) 1000).

(** [exhausted]. *)
Definition exhausted (attempt max_retries : N) : bool := (max_retries <? attempt)%N.

Inductive ExpiredLeaseAction :=
| RetryAt (at_ms : Z)
| Exhausted
| DeletePurged.

Record ExpiredLease := mkExpiredLease {
  el_attempt : N;
  el_action : ExpiredLeaseAction;
}.

(** [expire_lease]. *)
Definition expire_lease (now : Z) (prior_failures max_retries : N)
    (configured_delay_seconds : option N) (purge_on_settle : bool) : ExpiredLease :=
  let attempt := N.min (prior_failures + 1) u16_max in
  let action :=
    if purge_on_settle then DeletePurged
    else if exhausted attempt max_retries then Exhausted
    else RetryAt (retry_at now None configured_delay_seconds) in
  mkExpiredLease attempt action.

(** [lease_duration_ms]. *)
Definition lease_duration_ms (admission_wait_ms handler_budget_ms settle_budget_ms : Z) : Z :=
  sat_add_i64 (sat_add_i64 admission_wait_ms handler_budget_ms) settle_budget_ms.

Record BatchRow := mkBatchRow {
  row_seq : Z;
  row_visible_at : Z;
  row_lease_generation : N;
  row_leased_until : option Z;
  row_purge_on_settle : bool;
}.

Record PlannedLease := mkPlannedLease {
  pl_seq : Z;
  pl_generation : N;
  pl_reclaimed : bool;
}.

#[global] Instance PlannedLease_eq_dec : EqDecision PlannedLease.
Proof. solve_decision. Defined.

Record LeaseMember := mkLeaseMember {
  lm_seq : Z;
  lm_message_id : string;
  lm_generation : N;
}.

#[global] Instance LeaseMember_eq_dec : EqDecision LeaseMember.
Proof. solve_decision. Defined.

(** The search for a duplicated message in [settlement_matches]; [prior] is the
    slice before the member. *)
Fixpoint repeats_message (prior members : list LeaseMember) : bool :=
  match members with
  | [] => false
  | member :: members =>
      existsb (λ p, String.eqb (lm_message_id p) (lm_message_id member)) prior
      || repeats_message (prior ++ [member]) members
  end.

(** The [find] of [settlement_matches]: the first free member that equals the
    submitted one. *)
Fixpoint find_free (current : list LeaseMember) (matched : list bool) (submitted : LeaseMember) (index : nat) :
    option nat :=
  match current, matched with
  | member :: current, taken :: matched =>
      if negb taken && String.eqb (lm_message_id member) (lm_message_id submitted)
         && (lm_seq member =? lm_seq submitted) && (lm_generation member =? lm_generation submitted)%N
      then Some index
      else find_free current matched submitted (S index)
  | _, _ => None
  end.

(** The loop of [settlement_matches] over the submitted members. *)
Fixpoint match_members (current : list LeaseMember) (matched : list bool) (submitted : list LeaseMember) : bool :=
  match submitted with
  | [] => true
  | member :: submitted =>
      match find_free current matched member 0 with
      | Some index => match_members current (<[index := true]> matched) submitted
      | None => false
      end
  end.

(** [settlement_matches]. *)
Definition settlement_matches (current submitted : list LeaseMember) : bool :=
  if bool_decide (current = []) || negb (Nat.eqb (length current) (length submitted)) then false
  else if repeats_message [] current then false
  else match_members current (replicate (length current) false) submitted.

(** [can_install_lease]. *)
Definition can_install_lease (active_batches max_concurrency : N) : bool := (active_batches <? max_concurrency)%N.

Record PurgeRow := mkPurgeRow {
  pr_seq : Z;
  pr_lease_id_present : bool;
  pr_leased_until : option Z;
}.

Record PurgePlan := mkPurgePlan {
  pp_delete : list Z;
  pp_mark_for_settle : list Z;
}.

(** The body of the loop of [purge_plan]. *)
Definition purge_row (now : Z) (plan : PurgePlan) (row : PurgeRow) : PurgePlan :=
  if pr_lease_id_present row && is_some_and (λ until, now <? until) (pr_leased_until row)
  then mkPurgePlan (pp_delete plan) (pp_mark_for_settle plan ++ [pr_seq row])
  else mkPurgePlan (pp_delete plan ++ [pr_seq row]) (pp_mark_for_settle plan).

(** [purge_plan]. *)
Definition purge_plan (now : Z) (rows : list PurgeRow) : PurgePlan :=
  foldl (purge_row now) (mkPurgePlan [] []) rows.

Record BatchPlan := mkBatchPlan {
  bp_leases : list PlannedLease;
  bp_delete_purged : list Z;
}.

Inductive PlanError :=
| GenerationExhausted (seq : Z).

Definition live_lease (now : Z) (row : BatchRow) : bool :=
  is_some_and (λ until, now <? until) (row_leased_until row).

(** The loop of [batch_plan]. *)
Fixpoint batch_rows (now : Z) (rows : list BatchRow) (max_batch_size : nat) (plan : BatchPlan) :
    result BatchPlan PlanError :=
  match rows with
  | [] => Ok plan
  | row :: rows =>
      if row_purge_on_settle row then
        batch_rows now rows max_batch_size
          (if live_lease now row then plan
           else mkBatchPlan (bp_leases plan) (bp_delete_purged plan ++ [row_seq row]))
      else if Nat.leb max_batch_size (length (bp_leases plan)) || (now <? row_visible_at row) || live_lease now row
      then batch_rows now rows max_batch_size plan
      else
        generation ←? ok_or (checked_add (row_lease_generation row) 1) (GenerationExhausted (row_seq row));
        batch_rows now rows max_batch_size
          (mkBatchPlan
             (bp_leases plan ++ [mkPlannedLease (row_seq row) generation (is_some (row_leased_until row))])
             (bp_delete_purged plan))
  end.

(** [batch_plan]. *)
Definition batch_plan (now : Z) (rows : list BatchRow) (max_batch_size : nat) : result BatchPlan PlanError :=
  batch_rows now rows max_batch_size (mkBatchPlan [] []).

Record QueueConfig := mkQueueConfig {
  qc_max_batch_size : N;
  qc_max_batch_timeout_seconds : N;
  qc_max_retries : N;
  qc_max_concurrency : option N;
  qc_delivery_delay_seconds : N;
  qc_retry_delay_seconds : option N;
}.

Record ConfigError := mkConfigError {
  cfe_field : string;
  cfe_message : string;
}.

(** [validate_config]. *)
Definition validate_config (config : QueueConfig) : result unit ConfigError :=
  (if negb ((1 <=? qc_max_batch_size config) && (qc_max_batch_size config <=? MAX_BATCH_MESSAGES)) then
     Err (mkConfigError "max_batch_size" "must be between 1 and 100")
   else if MAX_BATCH_TIMEOUT_SECONDS <? qc_max_batch_timeout_seconds config then
     Err (mkConfigError "max_batch_timeout" "must be between 0 and 60 seconds")
   else if MAX_RETRIES <? qc_max_retries config then
     Err (mkConfigError "max_retries" "must be between 0 and 100")
   else if is_some_and (λ value, negb ((1 <=? value) && (value <=? MAX_CONCURRENCY))) (qc_max_concurrency config) then
     Err (mkConfigError "max_concurrency" "must be between 1 and 250")
   else if MAX_DELAY_SECONDS <? qc_delivery_delay_seconds config then
     Err (mkConfigError "delivery_delay" "must be between 0 and 86400 seconds")
   else if is_some_and (λ value, MAX_DELAY_SECONDS <? value) (qc_retry_delay_seconds config) then
     Err (mkConfigError "retry_delay" "must be between 0 and 86400 seconds")
   else Ok ())%N.

(** ** Settlements *)

Lemma repeats_message_spec prior members :
  repeats_message prior members = false ↔
  NoDup (lm_message_id <$> members)
  ∧ ∀ m, m ∈ members → lm_message_id m ∉ lm_message_id <$> prior.
Proof.
  revert prior. induction members as [|m members IH]; intros prior; simpl.
  { split; [|done]. intros _. split; [constructor|]. intros m Hm. by apply not_elem_of_nil in Hm. }
  rewrite orb_false_iff, IH, NoDup_cons. clear IH.
  assert (existsb (λ p, String.eqb (lm_message_id p) (lm_message_id m)) prior = false
          ↔ lm_message_id m ∉ lm_message_id <$> prior) as ->.
  { rewrite <- not_true_iff_false, existsb_exists, list_elem_of_fmap.
    setoid_rewrite String.eqb_eq. setoid_rewrite <- list_elem_of_In. naive_solver. }
  assert (∀ m', lm_message_id m' ∉ lm_message_id <$> prior ++ [m] ↔
                lm_message_id m' ∉ lm_message_id <$> prior ∧ lm_message_id m' ≠ lm_message_id m) as Happ.
  { intros m'. rewrite fmap_app, not_elem_of_app. simpl. by rewrite list_elem_of_singleton. }
  split.
  - intros (Hm & Hd & Hp). split_and!; [|done|].
    + intros (y & E & Hy)%list_elem_of_fmap. apply Hp, Happ in Hy as [_ Hy]. congruence.
    + intros m' [->|Hm']%elem_of_cons; [done|]. by apply Hp, Happ in Hm' as [? _].
  - intros [[Hn Hd] Hp]. split_and!; [apply Hp; left|done|]. intros m' Hm'. apply Happ. split; [apply Hp; by right|].
    intros E. apply Hn. rewrite <- E. by apply list_elem_of_fmap_2.
Qed.

(** The members that are still free. *)
Fixpoint free (current : list LeaseMember) (matched : list bool) : list LeaseMember :=
  match current, matched with
  | member :: current, taken :: matched => if taken then free current matched else member :: free current matched
  | _, _ => []
  end.

Lemma member_eqb a b :
  String.eqb (lm_message_id a) (lm_message_id b) && (lm_seq a =? lm_seq b) && (lm_generation a =? lm_generation b)%N
  = bool_decide (a = b).
Proof.
  apply eq_bool_prop_intro. rewrite !Is_true_true, bool_decide_eq_true, !andb_true_iff.
  rewrite String.eqb_eq, Z.eqb_eq, N.eqb_eq. destruct a, b. simpl. naive_solver.
Qed.

Lemma find_free_spec current matched s i :
  match find_free current matched s i with
  | Some k => ∃ j, k = (i + j)%nat ∧ free current matched ≡ₚ s :: free current (<[j := true]> matched)
  | None => s ∉ free current matched
  end.
Proof.
  revert matched i. induction current as [|m current IH]; intros [|taken matched] i; cbn [find_free free];
    [apply not_elem_of_nil..|].
  rewrite <- !andb_assoc, (andb_assoc (String.eqb _ _)), member_eqb. specialize (IH matched (S i)).
  destruct taken; cbn [negb andb].
  - destruct (find_free current matched s (S i)) as [k|]; [|done]. destruct IH as (j & -> & Hj).
    exists (S j). split; [lia|]. done.
  - case_bool_decide as E.
    + subst m. exists O. split; [lia|]. done.
    + destruct (find_free current matched s (S i)) as [k|]; [|set_solver]. destruct IH as (j & -> & Hj).
      exists (S j). split; [lia|]. cbn [list_insert insert free]. rewrite Hj. apply Permutation_swap.
Qed.

Lemma match_members_spec current matched submitted :
  match_members current matched submitted = true ↔ submitted ⊆+ free current matched.
Proof.
  revert matched. induction submitted as [|s submitted IH]; intros matched; cbn [match_members].
  { split; [intros _; apply submseteq_nil_l|done]. }
  pose proof (find_free_spec current matched s 0) as Hf.
  destruct (find_free current matched s 0) as [k|].
  - destruct Hf as (j & -> & ->). rewrite IH. simpl. split; [apply submseteq_skip|].
    intros H. by apply (submseteq_app_inv_l _ _ [s]) in H.
  - split; [done|]. intros H. destruct Hf. by apply (elem_of_submseteq (s :: submitted) _ s); [left|].
Qed.

Lemma free_all current : free current (replicate (length current) false) = current.
Proof. induction current as [|m current IH]; simpl; congruence. Qed.

Lemma settlement_matches_spec current submitted :
  settlement_matches current submitted = true ↔
  current ≠ [] ∧ NoDup (lm_message_id <$> current) ∧ submitted ≡ₚ current.
Proof.
  unfold settlement_matches. destruct (repeats_message [] current) eqn:Er.
  - split; [by case_match|]. intros (_ & Hd & _). assert (repeats_message [] current = false) as E; [|congruence].
    apply repeats_message_spec. split; [done|]. intros m _. apply not_elem_of_nil.
  - apply repeats_message_spec in Er as [Hd _]. case_bool_decide as En; simpl; [naive_solver|].
    destruct (Nat.eqb_spec (length current) (length submitted)) as [El|El]; simpl.
    + rewrite match_members_spec, free_all. split.
      * intros Hs. split_and!; [done..|]. apply submseteq_length_Permutation; [done|]. lia.
      * intros (_ & _ & ->). done.
    + split; [done|]. intros (_ & _ & Hp). apply Permutation_length in Hp. congruence.
Qed.

(** A settlement is accepted exactly where it names every member of the
    current lease batch once: the batch is not empty, no message occurs in it
    twice, and what is submitted is the batch in some order, with the message,
    the sequence number and the generation of each member. *)
Theorem settlement_exact current submitted :
  settlement_matches current submitted = true ↔
  current ≠ [] ∧ NoDup (lm_message_id <$> current) ∧ submitted ≡ₚ current.
Proof. apply settlement_matches_spec. Qed.

(** ** Batches *)

(** The rows a batch may lease, and those whose purge is due. *)
Definition deliverable (now : Z) (row : BatchRow) : bool :=
  negb (row_purge_on_settle row) && (row_visible_at row <=? now) && negb (live_lease now row).

Definition purge_due (now : Z) (row : BatchRow) : bool :=
  row_purge_on_settle row && negb (live_lease now row).

Definition lease_row (row : BatchRow) : result PlannedLease PlanError :=
  if (row_lease_generation row <? u64_max)%N
  then Ok (mkPlannedLease (row_seq row) (row_lease_generation row + 1) (is_some (row_leased_until row)))
  else Err (GenerationExhausted (row_seq row)).

Fixpoint lease_rows (rows : list BatchRow) : result (list PlannedLease) PlanError :=
  match rows with
  | [] => Ok []
  | row :: rows => lease ←? lease_row row; leases ←? lease_rows rows; Ok (lease :: leases)
  end.

Lemma batch_rows_spec now rows max_batch_size plan :
  batch_rows now rows max_batch_size plan =
  match lease_rows (take (max_batch_size - length (bp_leases plan)) (filter (deliverable now) rows)) with
  | Ok leases => Ok (mkBatchPlan (bp_leases plan ++ leases)
                       (bp_delete_purged plan ++ (row_seq <$> filter (purge_due now) rows)))
  | Err e => Err e
  end.
Proof.
  revert plan. induction rows as [|row rows IH]; intros [leases purged]; cbn [batch_rows].
  { rewrite !filter_nil, take_nil. simpl. by rewrite !app_nil_r. }
  rewrite !filter_cons_bool. unfold deliverable at 1, purge_due at 1.
  destruct (row_purge_on_settle row) eqn:Ep; cbn [negb andb].
  - rewrite IH. destruct (live_lease now row); cbn [negb bp_leases bp_delete_purged]; [done|].
    case_match; [|done]. simpl. by rewrite <- app_assoc.
  - cbn [bp_leases]. destruct (Nat.leb_spec max_batch_size (length leases)) as [Hfull|Hroom]; cbn [orb].
    + rewrite IH. cbn [bp_leases bp_delete_purged]. rewrite (proj2 (Nat.sub_0_le _ _)) by done. simpl. done.
    + destruct (Z.ltb_spec now (row_visible_at row)) as [Hv|Hv]; cbn [orb].
      { rewrite (proj2 (Z.leb_gt _ _)) by lia. simpl. apply IH. }
      rewrite (proj2 (Z.leb_le _ _)) by lia. destruct (live_lease now row); cbn [negb andb]; [apply IH|].
      destruct (max_batch_size - length leases)%nat as [|room] eqn:Er; [lia|]. cbn [firstn lease_rows].
      unfold lease_row, checked_add, u64_max.
      destruct (N.ltb_spec (row_lease_generation row) 18446744073709551615), (N.leb_spec (row_lease_generation row + 1) 18446744073709551615);
        try lia; cbn [ok_or]; [|done].
      rewrite IH. cbn [bp_leases bp_delete_purged]. rewrite length_app. simpl.
      replace (max_batch_size - (length leases + 1))%nat with room by lia.
      case_match; [|done]. by rewrite <- app_assoc.
Qed.

Lemma lease_rows_Ok rows leases l :
  lease_rows rows = Ok leases → l ∈ leases →
  ∃ row, row ∈ rows ∧ lease_row row = Ok l.
Proof.
  revert leases. induction rows as [|row rows IH]; intros leases; simpl.
  - intros [= <-] Hl. by apply not_elem_of_nil in Hl.
  - intros (a & Ha & (ls & Hls & H)%result_bind_Ok)%result_bind_Ok. injection H as <-.
    intros [->|Hl]%elem_of_cons; [exists row; split; [left|done]|].
    destruct (IH _ Hls Hl) as (r & Hr & E). exists r. split; [by right|done].
Qed.

(** The plan of a batch: the first [max_batch_size] rows that are visible,
    not purged and under no live lease, in their order, each under the next
    generation; the purged rows whose lease is over are deleted; the plan fails
    only on a row whose generation cannot advance. *)
Theorem batch_plan_spec now rows max_batch_size :
  batch_plan now rows max_batch_size =
  match lease_rows (take max_batch_size (filter (deliverable now) rows)) with
  | Ok leases => Ok (mkBatchPlan leases (row_seq <$> filter (purge_due now) rows))
  | Err e => Err e
  end.
Proof. unfold batch_plan. rewrite batch_rows_spec. simpl. by rewrite Nat.sub_0_r. Qed.

(** The members a consumer of the plan holds. *)
Definition members_of (p : BatchPlan) (current : list LeaseMember) : Prop :=
  (λ m, (lm_seq m, lm_generation m)) <$> current = (λ l, (pl_seq l, pl_generation l)) <$> bp_leases p.

(** Once a batch has leased its rows again, a settlement that still carries
    the generation of an earlier lease of one of them is refused. *)
Theorem late_settlement_refused now rows max_batch_size p current submitted row m :
  batch_plan now rows max_batch_size = Ok p → NoDup (row_seq <$> rows) → members_of p current →
  row ∈ rows → m ∈ submitted → lm_seq m = row_seq row → (lm_generation m ≤ row_lease_generation row)%N →
  settlement_matches current submitted = false.
Proof.
  unfold batch_plan. rewrite batch_rows_spec. intros Hp Hd Hm Hrow Hin Hseq Hgen. apply not_true_iff_false.
  intros (_ & _ & Hperm)%settlement_matches_spec. rewrite Hperm in Hin.
  destruct (lease_rows _) as [leases|] eqn:El; [|done]. injection Hp as <-. unfold members_of in Hm. simpl in Hm.
  apply (list_elem_of_fmap_2 (λ m, (lm_seq m, lm_generation m))) in Hin. rewrite Hm in Hin.
  apply list_elem_of_fmap in Hin as (l & El' & Hl). injection El' as Hs Hg.
  destruct (lease_rows_Ok _ _ _ El Hl) as (r & Hr & Hlease). unfold lease_row in Hlease.
  case_match; [|done]. injection Hlease as <-. simpl in *.
  assert (r = row) as ->; [|lia].
  assert (r ∈ rows) as Hr'.
  { eapply list_elem_of_filter, elem_of_submseteq; [exact Hr|]. apply sublist_submseteq, sublist_take. }
  apply list_elem_of_lookup in Hr' as [i Hi], Hrow as [j Hj].
  assert (i = j) as ->; [|congruence].
  eapply (NoDup_lookup _ _ _ (row_seq row) Hd); rewrite list_lookup_fmap; [by rewrite Hi, <- Hseq, Hs|by rewrite Hj].
Qed.

Definition sample_rows : list BatchRow :=
  [mkBatchRow 1 0 4 (Some 50) false; mkBatchRow 2 0 0 None false; mkBatchRow 3 0 7 (Some 200) false;
   mkBatchRow 4 0 2 (Some 90) true].

Lemma late_settlement_refused_witness :
  settlement_matches [mkLeaseMember 1 "a" 5; mkLeaseMember 2 "b" 1] [mkLeaseMember 1 "a" 4; mkLeaseMember 2 "b" 1]
  = false.
Proof.
  refine (late_settlement_refused 100 sample_rows 10
            (mkBatchPlan [mkPlannedLease 1 5 true; mkPlannedLease 2 1 false] [4]) _ _
            (mkBatchRow 1 0 4 (Some 50) false) (mkLeaseMember 1 "a" 4) _ _ _ _ _ _ _).
  - vm_compute. reflexivity.
  - apply (bool_decide_unpack _). vm_compute. exact I.
  - reflexivity.
  - left.
  - left.
  - reflexivity.
  - vm_compute. discriminate.
Defined.

(** ** Retries *)

(** The failures stored after [n] expired leases of one message. *)
Definition failures (now : Z) (max_retries : N) (delay : option N) (n : nat) : N :=
  Nat.iter n (λ prior, el_attempt (expire_lease now prior max_retries delay false)) 0%N.

Lemma failures_count now max_retries delay n :
  failures now max_retries delay n = N.min (N.of_nat n) u16_max.
Proof.
  induction n as [|n IH]; [done|].
  change (failures now max_retries delay (S n))
    with (el_attempt (expire_lease now (failures now max_retries delay n) max_retries delay false)).
  rewrite IH. simpl.
  unfold u16_max in *. lia.
Qed.

Lemma validate_config_Ok config :
  validate_config config = Ok () ↔
  (1 ≤ qc_max_batch_size config ≤ MAX_BATCH_MESSAGES
   ∧ qc_max_batch_timeout_seconds config ≤ MAX_BATCH_TIMEOUT_SECONDS
   ∧ qc_max_retries config ≤ MAX_RETRIES
   ∧ (∀ value, qc_max_concurrency config = Some value → 1 ≤ value ≤ MAX_CONCURRENCY)
   ∧ qc_delivery_delay_seconds config ≤ MAX_DELAY_SECONDS
   ∧ ∀ value, qc_retry_delay_seconds config = Some value → value ≤ MAX_DELAY_SECONDS)%N.
Proof.
  unfold validate_config. destruct config as [size timeout retries [conc|] delay [retry|]]; simpl;
    repeat match goal with
    | |- context [(?a <=? ?b)%N] => destruct (N.leb_spec a b); simpl
    | |- context [(?a <? ?b)%N] => destruct (N.ltb_spec a b); simpl
    end;
    (split; [try done; intros _; split_and!; try lia; intros v; first [by intros [= <-]|done|intros [= <-]; lia]
            |intros (? & ? & ? & Hc & ? & Hd); first [done|exfalso; try specialize (Hc _ eq_refl); try specialize (Hd _ eq_refl); lia]]).
Qed.

(** A message whose consumer never settles is delivered [max_retries + 1]
    times under an accepted configuration: each of the first [max_retries]
    expired leases schedules a retry, not before now, and the next one
    exhausts it.  A purged message is deleted instead. *)
Theorem delivery_budget config now n :
  validate_config config = Ok () → i64_min ≤ now ≤ i64_max →
  let delay := qc_retry_delay_seconds config in
  let expire := expire_lease now (failures now (qc_max_retries config) delay n) (qc_max_retries config) delay in
  (n ≤ N.to_nat MAX_RETRIES →
   el_attempt (expire false) = N.of_nat (S n))%nat
  ∧ (el_action (expire false) = Exhausted ↔ N.to_nat (qc_max_retries config) ≤ n)%nat
  ∧ ((n < N.to_nat (qc_max_retries config))%nat →
     ∃ t, el_action (expire false) = RetryAt t ∧ now ≤ t)
  ∧ el_action (expire true) = DeletePurged.
Proof.
  intros (_ & _ & Hr & _)%validate_config_Ok Hnow delay expire. unfold MAX_RETRIES in *.
  assert (el_attempt (expire false) = N.min (N.of_nat (S n)) u16_max) as Ha.
  { simpl. rewrite failures_count. unfold u16_max. lia. }
  assert (el_action (expire false) =
          if (qc_max_retries config <? N.min (N.of_nat (S n)) u16_max)%N then Exhausted
          else RetryAt (retry_at now None delay)) as Hact.
  { rewrite <- Ha. unfold expire, expire_lease, exhausted. simpl. done. }
  rewrite Hact. split_and!.
  - rewrite Ha. unfold u16_max. simpl. lia.
  - destruct (N.ltb_spec (qc_max_retries config) (N.min (N.of_nat (S n)) u16_max)) as [Hl|Hl]; unfold u16_max in Hl;
      split; try done; lia.
  - intros Hn. destruct (N.ltb_spec (qc_max_retries config) (N.min (N.of_nat (S n)) u16_max)) as [Hl|Hl]; [unfold u16_max in Hl; lia|].
    eexists. split; [done|]. unfold retry_at, sat_add_i64, sat_mul_i64, i64_min, i64_max in *. lia.
  - done.
Qed.

Lemma delivery_budget_witness :
  el_action (expire_lease 1000 (failures 1000 3 None 3) 3 None false) = Exhausted.
Proof.
  refine (proj2 (proj1 (proj2 (delivery_budget (mkQueueConfig 10 5 3 None 0 None) 1000 3 _ _))) _);
    [reflexivity|vm_compute; split; discriminate|simpl; lia].
Defined.

(** The alarm is at the earliest deadline, but never in the past. *)
Lemma rearm_spec now a b c d :
  match rearm now a b c d with
  | Some t => now ≤ t ∧ ∀ x, Some x ∈ [a; b; c; d] → t ≤ Z.max now x
  | None => a = None ∧ b = None ∧ c = None ∧ d = None
  end.
Proof.
  unfold rearm. set (l := omap id [a; b; c; d]). pose proof (min_of_spec l) as Hm.
  assert (∀ x, x ∈ l ↔ Some x ∈ [a; b; c; d]) as Hl.
  { intros x. unfold l. rewrite list_elem_of_omap. unfold id. naive_solver. }
  destruct (min_of l) as [m|]; simpl.
  - destruct Hm as [Hin Hle]. split; [lia|]. intros x Hx%Hl%Hle. lia.
  - rewrite Hm in Hl. destruct a as [x|]; [exfalso; apply (not_elem_of_nil x), Hl; set_solver|].
    destruct b as [x|]; [exfalso; apply (not_elem_of_nil x), Hl; set_solver|].
    destruct c as [x|]; [exfalso; apply (not_elem_of_nil x), Hl; set_solver|].
    destruct d as [x|]; [exfalso; apply (not_elem_of_nil x), Hl; set_solver|]. done.
Qed.

(** A purge deletes the rows without a live lease and marks the others. *)
Lemma purge_plan_app now rows plan :
  foldl (purge_row now) plan rows =
  mkPurgePlan
    (pp_delete plan ++ (pr_seq <$> filter (λ r, negb (pr_lease_id_present r && is_some_and (λ until, now <? until) (pr_leased_until r))) rows))
    (pp_mark_for_settle plan ++ (pr_seq <$> filter (λ r, pr_lease_id_present r && is_some_and (λ until, now <? until) (pr_leased_until r)) rows)).
Proof.
  revert plan. induction rows as [|r rows IH]; intros [dels marks]; simpl foldl.
  - by rewrite !filter_nil, !app_nil_r.
  - rewrite IH, !filter_cons_bool. unfold purge_row.
    destruct (pr_lease_id_present r && _) ; simpl; by rewrite <- app_assoc.
Qed.
