(* ===== verification/InputGate.v ===== *)
(** * The input gate and the WebSocket close scanner

    Models [crates/logic/gate.rs], the gate that keeps other events out of a
    cell while one of them blocks concurrency, and [crates/logic/schedule.rs],
    the close codes and the scanner that finds frame boundaries in a WebSocket
    stream without buffering it. *)

From S2P Require Import Prelude.

(** ** The gate *)

Record InputGate := mkInputGate {
  ig_holder : option N;
  ig_outstanding : N;
}.

(** [InputGate::new]. *)
Definition gate_new : InputGate := mkInputGate None 0.

(** [InputGate::is_open]. *)
Definition is_open (g : InputGate) : bool := negb (is_some (ig_holder g)).

(** [u32] arithmetic in the release profile. *)
Definition u32_succ (n : N) : N := (n + 1) mod 4294967296.
Definition u32_pred (n : N) : N := (n + 4294967295) mod 4294967296.

(** [InputGate::acquire]. *)
Definition acquire (g : InputGate) (event : N) : bool * InputGate :=
  match ig_holder g with
  | None => (true, mkInputGate (Some event) 1)
  | Some holder =>
      if holder =? event then (true, mkInputGate (Some holder) (u32_succ (ig_outstanding g)))
      else (false, g)
  end.

(** [InputGate::release]. *)
Definition release (g : InputGate) (event : N) : bool * InputGate :=
  if negb (bool_decide (ig_holder g = Some event)) then (false, g)
  else
    let outstanding := u32_pred (ig_outstanding g) in
    if outstanding =? 0 then (true, mkInputGate None outstanding)
    else (false, mkInputGate (ig_holder g) outstanding).

(** [InputGate::abandon]. *)
Definition abandon (g : InputGate) (event : N) : bool * InputGate :=
  if negb (bool_decide (ig_holder g = Some event)) then (false, g)
  else (true, mkInputGate None 0).

Inductive gate_op :=
| OpAcquire (event : N)
| OpRelease (event : N)
| OpAbandon (event : N).

Definition gate_step (op : gate_op) (g : InputGate) : bool * InputGate :=
  match op with
  | OpAcquire e => acquire g e
  | OpRelease e => release g e
  | OpAbandon e => abandon g e
  end.

(** A history, with the answers it got. *)
Fixpoint gate_run (ops : list gate_op) (g : InputGate) : list bool * InputGate :=
  match ops with
  | [] => ([], g)
  | op :: ops =>
      let '(answer, g) := gate_step op g in
      let '(answers, g) := gate_run ops g in
      (answer :: answers, g)
  end.

(** *** What the gate promises

    The specification keeps the open blocks themselves, one entry for each.  A
    block opens where every open block is the event's own; a release closes one
    block of the event and answers whether that left none; an abandoned event
    loses all of its blocks. *)

Fixpoint close_one (event : N) (blocks : list N) : list N :=
  match blocks with
  | [] => []
  | b :: blocks => if b =? event then blocks else b :: close_one event blocks
  end.

Definition spec_step (op : gate_op) (blocks : list N) : bool * list N :=
  match op with
  | OpAcquire e => if forallb (N.eqb e) blocks then (true, e :: blocks) else (false, blocks)
  | OpRelease e =>
      if existsb (N.eqb e) blocks
      then (bool_decide (close_one e blocks = []), close_one e blocks)
      else (false, blocks)
  | OpAbandon e =>
      if existsb (N.eqb e) blocks then (true, filter (λ b, b ≠ e) blocks) else (false, blocks)
  end.

Fixpoint spec_run (ops : list gate_op) (blocks : list N) : list bool * list N :=
  match ops with
  | [] => ([], blocks)
  | op :: ops =>
      let '(answer, blocks) := spec_step op blocks in
      let '(answers, blocks) := spec_run ops blocks in
      (answer :: answers, blocks)
  end.

(** The open blocks of a gate. *)
Definition gate_blocks (g : InputGate) (blocks : list N) : Prop :=
  match ig_holder g with
  | Some e => blocks = replicate (N.to_nat (ig_outstanding g)) e ∧ 0 < ig_outstanding g
  | None => blocks = [] ∧ ig_outstanding g = 0
  end.

(** ** Close codes *)

(** [websocket_close_code_is_allowed]. *)
Definition websocket_close_code_is_allowed (code : N) : bool :=
  (1000 <=? code) && (code <=? 1003) || (1007 <=? code) && (code <=? 1014)
  || (3000 <=? code) && (code <=? 4999).

(** [websocket_echo_close]. *)
Definition websocket_echo_close (peer_code : N) (peer_was_clean handler_sent_close : bool) : option N :=
  if handler_sent_close then None
  else if negb peer_was_clean then
    if (peer_code =? 1002) || (peer_code =? 1007) then Some peer_code else None
  else if peer_code =? 1005 then Some 1000
  else Some peer_code.

(** ** The scanner *)

Inductive WebSocketScanState :=
| Opcode
| Length
| ExtendedLength (remaining value : N)
| Payload (remaining : N)
| Stopped.

(** The arms of [WebSocketCloseScanner::observe] that read one byte. *)
Definition scan_length (byte : N) : WebSocketScanState :=
  if byte =? 0 then Opcode
  else if byte <=? 125 then Payload byte
  else if byte =? 126 then ExtendedLength 2 0
  else if byte =? 127 then ExtendedLength 8 0
  else Stopped.

Definition scan_extended (remaining value byte : N) : WebSocketScanState :=
  if (remaining =? 8) && negb (N.land byte 128 =? 0) then Stopped
  else
    let value := N.lor (N.shiftl value 8 mod 18446744073709551616) byte in
    let remaining := remaining - 1 in
    if remaining =? 0 then if value =? 0 then Opcode else Payload value
    else ExtendedLength remaining value.

Fixpoint observe_loop (fuel : nat) (state : WebSocketScanState) (bytes : list N) : WebSocketScanState :=
  match fuel with
  | O => state
  | S fuel =>
      match bytes with
      | [] => state
      | byte :: rest =>
          match state with
          | Opcode => observe_loop fuel (if N.land byte 15 =? 8 then Stopped else Length) rest
          | Length => observe_loop fuel (scan_length byte) rest
          | ExtendedLength remaining value => observe_loop fuel (scan_extended remaining value byte) rest
          | Payload remaining =>
              let count := N.min remaining (N.of_nat (length bytes)) in
              let remaining := remaining - count in
              observe_loop fuel (if remaining =? 0 then Opcode else Payload remaining)
                (drop (N.to_nat count) bytes)
          | Stopped => state
          end
      end
  end.

(** [WebSocketCloseScanner::observe]: every turn of the loop consumes a byte or
    leaves an empty payload, so twice the length is enough. *)
Definition observe (state : WebSocketScanState) (bytes : list N) : WebSocketScanState :=
  observe_loop (2 * length bytes + 1) state bytes.

(** [WebSocketCloseScanner::can_append_close]. *)
Definition can_append_close (state : WebSocketScanState) : bool :=
  match state with Opcode => true | _ => false end.

(** *** The frames of RFC 6455 *)

(** A number in network byte order. *)
Definition big_endian (bytes : list N) : N := foldl (λ v b, v * 256 + b) 0 bytes.

(** A complete unmasked frame that is no Close. *)
Inductive frame : list N → Prop :=
| frame_short op n payload :
    N.land op 15 ≠ 8 → n ≤ 125 → N.of_nat (length payload) = n → frame (op :: n :: payload)
| frame_medium op size payload :
    N.land op 15 ≠ 8 → length size = 2%nat → N.of_nat (length payload) = big_endian size →
    frame (op :: 126 :: size ++ payload)
| frame_long op size payload :
    N.land op 15 ≠ 8 → length size = 8%nat → big_endian size < 2 ^ 63 →
    N.of_nat (length payload) = big_endian size →
    frame (op :: 127 :: size ++ payload).

(** One byte at a time. *)
Definition scan_byte (state : WebSocketScanState) (byte : N) : WebSocketScanState :=
  match state with
  | Opcode => if N.land byte 15 =? 8 then Stopped else Length
  | Length => scan_length byte
  | ExtendedLength remaining value => scan_extended remaining value byte
  | Payload remaining => if remaining =? 1 then Opcode else Payload (remaining - 1)
  | Stopped => Stopped
  end.

(** ** Proofs: the gate *)

Lemma existsb_replicate e n e' : 0 < n → existsb (N.eqb e') (replicate (N.to_nat n) e) = (e' =? e).
Proof.
  intros Hn. destruct (N.to_nat n) as [|k] eqn:E; [lia|]. clear E. induction k as [|k IH]; simpl in *.
  - by rewrite orb_false_r.
  - rewrite IH. by destruct (e' =? e).
Qed.

Lemma forallb_replicate e n e' : 0 < n → forallb (N.eqb e') (replicate (N.to_nat n) e) = (e' =? e).
Proof.
  intros Hn. destruct (N.to_nat n) as [|k] eqn:E; [lia|]. clear E. induction k as [|k IH]; simpl in *.
  - by rewrite andb_true_r.
  - rewrite IH. by destruct (e' =? e).
Qed.

Lemma gate_step_spec op g blocks :
  gate_blocks g blocks → ig_outstanding g < u32_max →
  let '(answer, g') := gate_step op g in
  let '(answer', blocks') := spec_step op blocks in
  answer = answer' ∧ gate_blocks g' blocks' ∧ ig_outstanding g' ≤ ig_outstanding g + 1.
Proof.
  intros Hb Hlt. unfold gate_blocks in Hb. destruct g as [[h|] n]; simpl in *; destruct Hb as [-> Hn].
  2: { subst n. destruct op as [e|e|e]; simpl; split_and!; try done. }
  assert (∀ e, e ≠ h → gate_blocks (mkInputGate (Some h) n) (replicate (N.to_nat n) h)) as Hsame by (by split).
  destruct op as [e|e|e]; unfold gate_step, spec_step, acquire, release, abandon; cbn [ig_holder ig_outstanding].
  - rewrite forallb_replicate, (N.eqb_sym e h) by done.
    destruct (N.eqb_spec h e) as [<-|Hne]; [|by split; [|split; [apply (Hsame e)|simpl; lia]]].
    unfold u32_succ. rewrite N.mod_small by (unfold u32_max in Hlt; lia). split; [done|]. split; [|done].
    split; [|simpl; lia]. simpl ig_outstanding. by replace (N.to_nat (n + 1)) with (S (N.to_nat n)) by lia.
  - rewrite existsb_replicate by done. case_bool_decide as Eh; cbn [negb].
    2: { rewrite (proj2 (N.eqb_neq e h)) by congruence. split; [done|]. split; [by split|simpl; lia]. }
    injection Eh as <-. rewrite N.eqb_refl. unfold u32_pred.
    replace ((n + 4294967295) mod 4294967296) with (n - 1).
    2: { replace (n + 4294967295) with ((n - 1) + 1 * 4294967296) by lia.
         rewrite N.Div0.mod_add, N.mod_small by (unfold u32_max in Hlt; lia). done. }
    replace (N.to_nat n) with (S (N.to_nat (n - 1))) by lia. cbn [replicate close_one]. rewrite N.eqb_refl.
    destruct (N.eqb_spec (n - 1) 0) as [E|E].
    + rewrite E. split; [done|]. split; [done|simpl; lia].
    + split; [|split; [split; [done|simpl; lia]|simpl; lia]]. symmetry. apply bool_decide_eq_false.
      destruct (N.to_nat (n - 1)) eqn:En; [lia|done].
  - rewrite existsb_replicate by done. case_bool_decide as Eh; cbn [negb].
    2: { rewrite (proj2 (N.eqb_neq e h)) by congruence. split; [done|]. split; [by split|simpl; lia]. }
    injection Eh as <-. rewrite N.eqb_refl. split; [done|]. split; [|simpl; lia]. split; [|done].
    clear. induction (N.to_nat n) as [|k IH]; [done|]. cbn [replicate]. rewrite filter_cons.
    case_decide; [done|exact IH].
Qed.

Lemma gate_run_spec ops g blocks :
  gate_blocks g blocks → ig_outstanding g + N.of_nat (length ops) ≤ u32_max →
  (gate_run ops g).1 = (spec_run ops blocks).1
  ∧ gate_blocks (gate_run ops g).2 (spec_run ops blocks).2.
Proof.
  revert g blocks. induction ops as [|op ops IH]; intros g blocks Hb Hn; [done|]. simpl in Hn.
  pose proof (gate_step_spec op g blocks Hb ltac:(lia)) as H. cbn [gate_run spec_run].
  destruct (gate_step op g) as [a g'], (spec_step op blocks) as [a' blocks']. destruct H as (-> & Hb' & Hn').
  destruct (IH g' blocks' Hb' ltac:(lia)) as [E E'].
  destruct (gate_run ops g') as [as1 g1], (spec_run ops blocks') as [as2 b2]. simpl in *. by subst.
Qed.

(** C38: The gate admits one event at a time.  Over every history of fewer than
    [2^32] calls from a new gate, its answers are those of the specification
    that keeps the open blocks, the gate is open exactly where no block is, and
    all open blocks belong to one event. *)
Theorem gate_refines_blocks ops :
  N.of_nat (length ops) ≤ u32_max →
  let '(answers, g) := gate_run ops gate_new in
  let '(answers', blocks) := spec_run ops [] in
  answers = answers' ∧ (is_open g = true ↔ blocks = [])
  ∧ ∀ e e', e ∈ blocks → e' ∈ blocks → e = e'.
Proof.
  intros Hn. destruct (gate_run_spec ops gate_new []) as [E Hb]; [done|simpl; lia|].
  destruct (gate_run ops gate_new) as [as1 g], (spec_run ops []) as [as2 blocks]. simpl in *.
  split; [done|]. unfold gate_blocks, is_open in *. destruct (ig_holder g) as [h|]; simpl; destruct Hb as [-> Hout].
  - split.
    + split; [done|]. intros Hnil. apply (f_equal length) in Hnil. rewrite length_replicate in Hnil. simpl in Hnil. lia.
    + intros e e' [-> _]%elem_of_replicate [-> _]%elem_of_replicate. done.
  - split; [done|]. intros e e' He. by apply not_elem_of_nil in He.
Qed.

Lemma gate_refines_blocks_witness :
  (gate_run [OpAcquire 1; OpAcquire 1; OpAcquire 2; OpRelease 1; OpRelease 1; OpAcquire 2; OpRelease 1] gate_new).1
  = (spec_run [OpAcquire 1; OpAcquire 1; OpAcquire 2; OpRelease 1; OpRelease 1; OpAcquire 2; OpRelease 1] []).1.
Proof.
  refine (proj1 (gate_refines_blocks
            [OpAcquire 1; OpAcquire 1; OpAcquire 2; OpRelease 1; OpRelease 1; OpAcquire 2; OpRelease 1] _)).
  vm_compute. discriminate.
Defined.

(** ** Proofs: the scanner *)

Definition state_ok (st : WebSocketScanState) : Prop :=
  match st with
  | Payload remaining => 0 < remaining
  | ExtendedLength remaining _ => 0 < remaining
  | _ => True
  end.

Lemma scan_byte_ok st byte : state_ok st → state_ok (scan_byte st byte).
Proof.
  destruct st as [| |k v|r|]; simpl; intros Hok; [by case_match| | |destruct (N.eqb_spec r 1); simpl; lia|done].
  - unfold scan_length. destruct (N.eqb_spec byte 0); [done|]. repeat case_match; simpl; lia || done.
  - unfold scan_extended. case_match; [done|]. destruct (N.eqb_spec (k - 1) 0).
    + destruct (N.eqb_spec (N.lor (N.shiftl v 8 mod 18446744073709551616) byte) 0); simpl; [done|lia].
    + simpl. lia.
Qed.

Lemma scan_payload r bytes :
  0 < r → N.of_nat (length bytes) ≤ r →
  foldl scan_byte (Payload r) bytes
  = if r - N.of_nat (length bytes) =? 0 then Opcode else Payload (r - N.of_nat (length bytes)).
Proof.
  revert r. induction bytes as [|b bytes IH]; intros r Hr Hl; simpl foldl.
  { simpl. by rewrite N.sub_0_r, (proj2 (N.eqb_neq _ _)) by lia. }
  simpl in Hl. destruct (N.eqb_spec r 1) as [->|].
  - destruct bytes; [done|]. simpl in Hl. lia.
  - rewrite IH by (simpl in *; lia). simpl length.
    by replace (r - 1 - N.of_nat (length bytes)) with (r - N.of_nat (S (length bytes))) by lia.
Qed.

(** The bulk skip agrees with the scan byte by byte. *)
Lemma observe_loop_bytes fuel st bytes :
  state_ok st → (length bytes ≤ fuel)%nat → observe_loop fuel st bytes = foldl scan_byte st bytes.
Proof.
  revert st bytes. induction fuel as [|fuel IH]; intros st bytes Hok Hl.
  { by destruct bytes; [|simpl in Hl; lia]. }
  destruct bytes as [|b bytes]; [done|]. simpl in Hl.
  assert (∀ st', st' = scan_byte st b → observe_loop fuel st' bytes = foldl scan_byte (scan_byte st b) bytes) as Hone.
  { intros st' ->. apply IH; [by apply scan_byte_ok|lia]. }
  destruct st as [| |k v|r|].
  1-3: by apply Hone.
  - simpl in Hok. cbn [observe_loop]. set (count := N.min r (N.of_nat (length (b :: bytes)))).
    trans (foldl scan_byte (Payload r) (take (N.to_nat count) (b :: bytes) ++ drop (N.to_nat count) (b :: bytes)));
      [|by rewrite take_drop].
    rewrite foldl_app, scan_payload; [|done|rewrite length_take; lia].
    rewrite length_take. replace (N.of_nat (N.to_nat count `min` length (b :: bytes))) with count by lia.
    apply IH.
    + destruct (N.eqb_spec (r - count) 0); simpl; [done|lia].
    + rewrite length_drop. subst count. simpl length. lia.
  - cbn [observe_loop]. clear. induction bytes; [done|]. simpl in *. done.
Qed.

Lemma observe_bytes st bytes : state_ok st → observe st bytes = foldl scan_byte st bytes.
Proof. intros Hok. apply observe_loop_bytes; [done|lia]. Qed.

Lemma scan_stopped bytes : foldl scan_byte Stopped bytes = Stopped.
Proof. induction bytes; done. Qed.

(** Reading a frame's payload. *)
Lemma scan_payload_frame n bytes :
  0 < n →
  can_append_close (foldl scan_byte (Payload n) bytes) = true ↔
  ∃ payload rest, bytes = payload ++ rest ∧ N.of_nat (length payload) = n
    ∧ can_append_close (foldl scan_byte Opcode rest) = true.
Proof.
  intros Hn. destruct (N.le_gt_cases n (N.of_nat (length bytes))) as [Hle|Hgt].
  - assert (∀ payload rest, bytes = payload ++ rest → N.of_nat (length payload) = n →
              foldl scan_byte (Payload n) bytes = foldl scan_byte Opcode rest) as Hsplit.
    { intros payload rest -> Hl. rewrite foldl_app, scan_payload by lia. by rewrite Hl, N.sub_diag. }
    split.
    + intros Hc. exists (take (N.to_nat n) bytes), (drop (N.to_nat n) bytes).
      assert (N.of_nat (length (take (N.to_nat n) bytes)) = n) as Hlen by (rewrite length_take; lia).
      rewrite take_drop. split_and!; [done|done|]. rewrite <- (Hsplit _ _ (eq_sym (take_drop _ _)) Hlen). done.
    + intros (payload & rest & Hb & Hl & Hc). by rewrite (Hsplit _ _ Hb Hl).
  - rewrite scan_payload by lia. rewrite (proj2 (N.eqb_neq _ _)) by lia. split; [done|].
    intros (payload & rest & -> & Hl & _). rewrite length_app in Hgt. lia.
Qed.

Lemma shift_in v b : v < 2 ^ 56 → b < 256 → N.lor (N.shiftl v 8 mod 18446744073709551616) b = v * 256 + b.
Proof.
  intros Hv Hb. rewrite N.shiftl_mul_pow2. change (2 ^ 8) with 256. change (2 ^ 56) with 72057594037927936 in Hv.
  rewrite N.mod_small by lia. assert (N.land (v * 256) b = 0) as Hland.
  { apply N.bits_inj. intros i. rewrite N.land_spec, N.bits_0. change 256 with (2 ^ 8).
    destruct (N.lt_ge_cases i 8) as [Hi|Hi].
    - by rewrite N.mul_pow2_bits_low.
    - rewrite <- (N.mod_small b (2 ^ 8)) by done. by rewrite N.mod_pow2_bits_high, andb_false_r. }
  by rewrite N.add_nocarry_lxor, N.lxor_lor by done.
Qed.

Lemma high_bit b : b < 256 → (N.land b 128 =? 0) = (b <? 128).
Proof.
  intros Hb. assert (forallb (λ n, Bool.eqb (N.land (N.of_nat n) 128 =? 0) (N.of_nat n <? 128)) (seq 0 256) = true) as H
    by (vm_compute; reflexivity).
  apply (proj1 (forallb_forall _ _)) with (x := N.to_nat b) in H; [|apply in_seq; lia].
  rewrite N2Nat.id in H. by apply eqb_prop.
Qed.

Definition extended (v : N) (size : list N) : N := foldl (λ v b, v * 256 + b) v size.

Definition sized (n : N) : WebSocketScanState := if n =? 0 then Opcode else Payload n.

(** The length of a frame after [k] more bytes. *)
Lemma scan_extended_frame k v bytes :
  (0 < k ≤ 7)%nat → (v + 1) * 256 ^ N.of_nat k ≤ 2 ^ 64 → Forall (λ b, b < 256) bytes →
  can_append_close (foldl scan_byte (ExtendedLength (N.of_nat k) v) bytes) = true ↔
  ∃ size rest, bytes = size ++ rest ∧ length size = k
    ∧ can_append_close (foldl scan_byte (sized (extended v size)) rest) = true.
Proof.
  revert v bytes. induction k as [|k IH]; intros v bytes Hk Hv Hb; [lia|].
  rewrite Nat2N.inj_succ, N.pow_succ_r' in Hv.
  assert (256 ^ N.of_nat k ≠ 0) as Hp by (by apply N.pow_nonzero).
  destruct bytes as [|b bytes].
  { simpl. split; [done|]. intros (size & rest & E & Hl & _). by destruct size. }
  apply Forall_cons in Hb as [Hb Hbs]. cbn [foldl scan_byte]. unfold scan_extended.
  rewrite (proj2 (N.eqb_neq (N.of_nat (S k)) 8)) by lia. cbn [andb].
  rewrite shift_in; [|change (2 ^ 64) with (2 ^ 56 * 256) in Hv; nia|done].
  replace (N.of_nat (S k) - 1) with (N.of_nat k) by lia. fold (sized (v * 256 + b)).
  destruct k as [|k].
  - cbn [N.of_nat N.eqb]. split.
    + intros Hc. by exists [b], bytes.
    + intros (size & rest & E & Hl & Hc). destruct size as [|b' [|]]; try done. by injection E as <- <-.
  - rewrite (proj2 (N.eqb_neq (N.of_nat (S k)) 0)) by lia. rewrite IH; [|lia|nia|done]. split.
    + intros (size & rest & -> & Hl & Hc). exists (b :: size), rest. simpl. split_and!; [done|lia|done].
    + intros (size & rest & E & Hl & Hc). destruct size as [|b' size]; [done|]. injection E as <- ->.
      exists size, rest. simpl in *. split_and!; [done|lia|done].
Qed.

Lemma extended_bound v size : Forall (λ b, b < 256) size → extended v size < (v + 1) * 256 ^ N.of_nat (length size).
Proof.
  revert v. induction size as [|b size IH]; intros v; simpl length; [intros; simpl; lia|].
  intros [Hb Hs]%Forall_cons. cbn [extended foldl]. specialize (IH (v * 256 + b) Hs). unfold extended in IH.
  rewrite Nat2N.inj_succ, N.pow_succ_r'. nia.
Qed.

Lemma extended_ge v size : v * 256 ^ N.of_nat (length size) ≤ extended v size.
Proof.
  revert v. induction size as [|b size IH]; intros v; simpl length; [simpl; lia|].
  cbn [extended foldl]. specialize (IH (v * 256 + b)). unfold extended in IH.
  rewrite Nat2N.inj_succ, N.pow_succ_r'. nia.
Qed.

Lemma scan_extended_long bytes :
  Forall (λ b, b < 256) bytes →
  can_append_close (foldl scan_byte (ExtendedLength 8 0) bytes) = true ↔
  ∃ size rest, bytes = size ++ rest ∧ length size = 8%nat ∧ big_endian size < 2 ^ 63
    ∧ can_append_close (foldl scan_byte (sized (big_endian size)) rest) = true.
Proof.
  destruct bytes as [|b bytes].
  { split; [done|]. intros (size & rest & E & Hl & _). by destruct size. }
  intros [Hb Hbs]%Forall_cons. cbn [foldl scan_byte]. unfold scan_extended. rewrite N.eqb_refl, high_bit by done.
  cbn [andb]. destruct (N.ltb_spec b 128) as [Hlow|Hhigh]; cbn [negb].
  - rewrite shift_in by done. change (8 - 1 =? 0) with false. cbv iota. change (8 - 1) with (N.of_nat 7).
    rewrite scan_extended_frame; [|lia|simpl; lia|done]. split.
    + intros (size & rest & -> & Hl & Hc). exists (b :: size), rest. split_and!; [done|simpl; lia| |done].
      pose proof (extended_bound b size) as Hx. rewrite Hl in Hx. change (256 ^ N.of_nat 7) with 72057594037927936 in Hx.
      change (big_endian (b :: size)) with (extended b size). change (2 ^ 63) with 9223372036854775808.
      apply Forall_app in Hbs as [Hs _]. specialize (Hx Hs). lia.
    + intros (size & rest & E & Hl & _ & Hc). destruct size as [|b' size]; [done|]. injection E as <- ->.
      exists size, rest. simpl in *. split_and!; [done|lia|done].
  - rewrite scan_stopped. split; [done|]. intros (size & rest & E & Hl & Hlt & _).
    destruct size as [|b' size]; [done|]. injection E as <- _.
    pose proof (extended_ge b size) as Hx. simpl in Hl. replace (length size) with 7%nat in Hx by lia.
    change (256 ^ N.of_nat 7) with 72057594037927936 in Hx. change (2 ^ 63) with 9223372036854775808 in Hlt.
    change (big_endian (b :: size)) with (extended b size) in Hlt. lia.
Qed.

(** A stream of whole frames. *)
Definition whole_frames (bytes : list N) : Prop := ∃ frames, Forall frame frames ∧ bytes = concat frames.

Lemma whole_frames_cons f rest : frame f → whole_frames rest → whole_frames (f ++ rest).
Proof. intros Hf (frames & Hall & ->). exists (f :: frames). split; [by constructor|done]. Qed.

Lemma sized_frames n rest :
  can_append_close (foldl scan_byte (sized n) rest) = true ↔
  ∃ payload more, rest = payload ++ more ∧ N.of_nat (length payload) = n
    ∧ can_append_close (foldl scan_byte Opcode more) = true.
Proof.
  unfold sized. destruct (N.eqb_spec n 0) as [->|Hn]; [|apply scan_payload_frame; lia]. split.
  - intros Hc. by exists [], rest.
  - intros (payload & more & -> & Hl & Hc). destruct payload; [done|]. simpl in Hl. lia.
Qed.

(** The scan of one frame, to its end. *)
Lemma scan_one_frame op bytes :
  Forall (λ b, b < 256) bytes → N.land op 15 ≠ 8 →
  can_append_close (foldl scan_byte Length bytes) = true ↔
  ∃ body more, bytes = body ++ more ∧ frame (op :: body) ∧ can_append_close (foldl scan_byte Opcode more) = true.
Proof.
  intros Hb Hop. destruct bytes as [|n bytes].
  { split; [done|]. intros (body & more & E & Hf & _). symmetry in E. apply app_eq_nil in E as [-> ->]. inversion Hf. }
  apply Forall_cons in Hb as [Hn Hb]. cbn [foldl scan_byte].
  assert (scan_length n = if n <=? 125 then sized n else scan_length n) as ->.
  { unfold scan_length, sized. destruct (N.leb_spec n 125); [|done]. by destruct (N.eqb_spec n 0). }
  destruct (N.leb_spec n 125) as [Hs|Hs].
  { rewrite sized_frames. split.
    - intros (payload & more & -> & Hl & Hc). exists (n :: payload), more. split_and!; [done|by constructor|done].
    - intros (body & more & E & Hf & Hc).
      inversion Hf as [? ? payload ? ? Hl|? ? payload|? ? payload]; subst body; injection E as E1 E2; [|lia..].
      exists payload, more. split_and!; [done|congruence|done]. }
  unfold scan_length. rewrite (proj2 (N.eqb_neq n 0)), (proj2 (N.leb_gt n 125)) by lia.
  destruct (N.eqb_spec n 126) as [->|H126].
  { change 2 with (N.of_nat 2). rewrite scan_extended_frame; [|lia|simpl; lia|done]. split.
    - intros (size & rest & -> & Hl & Hc). apply sized_frames in Hc as (payload & more & -> & Hl' & Hc).
      exists (126 :: size ++ payload), more. split_and!; [simpl; by rewrite <- app_assoc|by constructor|done].
    - intros (body & more & E & Hf & Hc).
      inversion Hf as [|? size payload ? Hsz Hl|]; subst body; simplify_eq/=; [lia|].
      exists size, (payload ++ more). rewrite <- app_assoc. split_and!; [done|done|]. apply sized_frames. eauto. }
  destruct (N.eqb_spec n 127) as [->|H127].
  { rewrite scan_extended_long by done. split.
    - intros (size & rest & -> & Hl & Hlt & Hc). apply sized_frames in Hc as (payload & more & -> & Hl' & Hc).
      exists (127 :: size ++ payload), more. split_and!; [simpl; by rewrite <- app_assoc|by constructor|done].
    - intros (body & more & E & Hf & Hc).
      inversion Hf as [| |? size payload ? Hsz Hlt Hl]; subst body; simplify_eq/=; [lia|].
      exists size, (payload ++ more). rewrite <- app_assoc. split_and!; [done..|]. apply sized_frames. eauto. }
  rewrite scan_stopped. split; [done|]. intros (body & more & E & Hf & _).
  inversion Hf; subst body; simplify_eq/=; lia.
Qed.

Lemma scan_frames bytes :
  Forall (λ b, b < 256) bytes →
  can_append_close (foldl scan_byte Opcode bytes) = true ↔ whole_frames bytes.
Proof.
  induction bytes as [bytes IH] using (induction_ltof1 _ (@length N)). unfold ltof in IH. intros Hb.
  destruct bytes as [|op bytes]; [split; [by exists []|done]|].
  apply Forall_cons in Hb as [Hop Hb]. cbn [foldl scan_byte]. destruct (N.eqb_spec (N.land op 15) 8) as [E8|E8].
  - rewrite scan_stopped. split; [done|]. intros (frames & Hall & E). exfalso.
    destruct Hall as [|f frames Hf]; [done|]. simpl in E. destruct Hf; simpl in E; injection E as -> _; done.
  - rewrite (scan_one_frame op) by done. split.
    + intros (body & more & -> & Hf & Hc). apply (whole_frames_cons (op :: body)); [done|].
      apply IH; [simpl; rewrite length_app; lia|by apply Forall_app in Hb as [_ ?]|done].
    + intros (frames & Hall & E). destruct Hall as [|f frames Hf Hall]; [done|]. simpl in E.
      destruct f as [|op' body]; [inversion Hf|]. injection E as <- ->. exists body, (concat frames).
      split_and!; [done|done|]. apply IH; [simpl; rewrite length_app; lia|by apply Forall_app in Hb as [_ ?]|by exists frames].
Qed.

Lemma scan_bytes_ok bytes st : state_ok st → state_ok (foldl scan_byte st bytes).
Proof. revert st. induction bytes as [|b bytes IH]; intros st Hok; [done|]. by apply IH, scan_byte_ok. Qed.

Lemma observe_chunks chunks st : state_ok st → foldl observe st chunks = foldl scan_byte st (concat chunks).
Proof.
  revert st. induction chunks as [|c chunks IH]; intros st Hok; [done|]. simpl.
  by rewrite foldl_app, observe_bytes, IH by (done || by apply scan_bytes_ok).
Qed.

(** A failure Close may be appended exactly between frames.  Whatever
    chunks the stream is observed in, the scanner allows it where the bytes so
    far are a sequence of complete unmasked frames, none of them a Close, and
    nowhere else. *)
Theorem close_between_frames chunks :
  Forall (Forall (λ b, b < 256)) chunks →
  can_append_close (foldl observe Opcode chunks) = true ↔ whole_frames (concat chunks).
Proof.
  intros Hb. rewrite observe_chunks by done. apply scan_frames. by apply Forall_concat.
Qed.

(** A text frame of three bytes in two chunks, then a binary frame. *)
Lemma close_between_frames_witness :
  whole_frames (concat [[129; 3; 97]; [98; 99; 130; 0]]).
Proof.
  apply (close_between_frames [[129; 3; 97]; [98; 99; 130; 0]]).
  - repeat constructor.
  - vm_compute. reflexivity.
Defined.
