(* ===== verification/Restore.v ===== *)
(** * Restore plans

    Models the restore planner of [crates/ltx/src/replica.rs]: the cursor that
    streams one compaction level, the greedy choice of the file that extends the
    contiguous run of transactions furthest, and the cuts a restore can end at.
    A transaction id is an [N] of 64 bits, a listing the function [ltx_files]
    that gives the files of a level in the order the replica lists them. *)

From S2P Require Import Prelude.

Record FileInfo := mkFileInfo {
  fi_level : Z;
  fi_min : N;
  fi_max : N;
  fi_pre_apply_checksum : N;
  fi_post_apply_checksum : N;
  fi_size : Z;
  fi_created_at : option Z;
}.

#[global] Instance FileInfo_eq_dec : EqDecision FileInfo.
Proof. solve_decision. Defined.

Definition SNAPSHOT_LEVEL : nat := 9.

Inductive RestoreError :=
| TxNotAvailable
| NonContiguous (have next : N).

(** [restore_candidate_better]. *)
Definition restore_candidate_better (curr next : FileInfo) : bool :=
  if negb (fi_max next =? fi_max curr) then fi_max curr <? fi_max next
  else if negb (fi_min next =? fi_min curr) then fi_min next <? fi_min curr
  else if negb (fi_level next =? fi_level curr)%Z then (fi_level curr <? fi_level next)%Z
  else match fi_created_at next, fi_created_at curr with
       | Some n, Some c => (n <? c)%Z
       | _, _ => false
       end.

(** [slice_max_txid]. *)
Definition slice_max_txid (infos : list FileInfo) : N := foldl (λ m f, N.max m (fi_max f)) 0 infos.

(** [RestoreLevelCursor]; [cu_rest] is the slice from the read index on. *)
Record Cursor := mkCursor {
  cu_rest : list FileInfo;
  cu_current : option FileInfo;
  cu_candidate : option FileInfo;
  cu_done : bool;
}.

(** [RestoreLevelCursor::new]. *)
Definition cursor_new (files : list FileInfo) : Cursor := mkCursor files None None false.

(** [RestoreLevelCursor::ensure_current]. *)
Definition ensure_current (c : Cursor) : Cursor :=
  if cu_done c || is_some (cu_current c) then c
  else match cu_rest c with
       | [] => mkCursor [] (cu_current c) (cu_candidate c) true
       | f :: rest => mkCursor rest (Some f) (cu_candidate c) (cu_done c)
       end.

(** The loop of [RestoreLevelCursor::refresh]; each turn reads one file. *)
Fixpoint refresh_loop (fuel : nat) (current_max txid : N) (c : Cursor) : Cursor :=
  match fuel with
  | O => c
  | S fuel =>
      let c := ensure_current c in
      if cu_done c then c
      else match cu_current c with
      | None => c
      | Some info =>
          if wrap_add current_max 1 <? fi_min info then c
          else if fi_max info <=? current_max then
            refresh_loop fuel current_max txid (mkCursor (cu_rest c) None (cu_candidate c) (cu_done c))
          else if negb (txid =? 0) && (txid <? fi_max info) then
            refresh_loop fuel current_max txid (mkCursor (cu_rest c) None (cu_candidate c) (cu_done c))
          else
            let candidate :=
              match cu_candidate c with
              | None => Some info
              | Some best => if restore_candidate_better best info then Some info else Some best
              end in
            refresh_loop fuel current_max txid (mkCursor (cu_rest c) None candidate (cu_done c))
      end
  end.

(** [RestoreLevelCursor::refresh]. *)
Definition refresh (current_max txid : N) (c : Cursor) : Cursor :=
  if cu_done c then c
  else
    let candidate :=
      match cu_candidate c with
      | Some f => if fi_max f <=? current_max then None else Some f
      | None => None
      end in
    refresh_loop (length (cu_rest c) + 2) current_max txid
      (mkCursor (cu_rest c) (cu_current c) candidate (cu_done c)).

(** The [for] that refreshes every cursor and picks the best candidate. *)
Fixpoint choose (i : nat) (current_max txid : N) (cursors : list Cursor) (best : option (nat * FileInfo)) :
    list Cursor * option (nat * FileInfo) :=
  match cursors with
  | [] => ([], best)
  | c :: cursors =>
      let c := refresh current_max txid c in
      let best :=
        match cu_candidate c with
        | None => best
        | Some cand =>
            match best with
            | None => Some (i, cand)
            | Some (ni, b) => if restore_candidate_better b cand then Some (i, cand) else Some (ni, b)
            end
        end in
      let '(cursors, best) := choose (S i) current_max txid cursors best in
      (c :: cursors, best)
  end.

(** [Option::take] on the candidate of a cursor. *)
Definition take_candidate (c : Cursor) : Cursor := mkCursor (cu_rest c) (cu_current c) None (cu_done c).

(** The [loop] of [calc_restore_plan_with_slots]; each turn takes a candidate,
    and a file is a candidate once. *)
Fixpoint plan_loop (fuel : nat) (txid current_max : N) (cursors : list Cursor) (infos : list FileInfo) :
    list Cursor * N * list FileInfo :=
  match fuel with
  | O => (cursors, current_max, infos)
  | S fuel =>
      match choose 0 current_max txid cursors None with
      | (cursors, None) => (cursors, current_max, infos)
      | (cursors, Some (ni, cand)) =>
          let cursors := alter take_candidate ni cursors in
          if fi_max cand <=? current_max then plan_loop fuel txid current_max cursors infos
          else
            let infos := infos ++ [cand] in
            if negb (txid =? 0) && (txid <=? fi_max cand) then (cursors, fi_max cand, infos)
            else plan_loop fuel txid (fi_max cand) cursors infos
      end
  end.

(** The check that no file starts past a gap. *)
Fixpoint check_tail (current_max : N) (cursors : list Cursor) : option N :=
  match cursors with
  | [] => None
  | c :: cursors =>
      match cu_current (ensure_current c) with
      | Some cur => if wrap_add current_max 1 <? fi_min cur then Some (fi_min cur) else check_tail current_max cursors
      | None => check_tail current_max cursors
      end
  end.

Section plan.
Variable ltx_files : nat → list FileInfo.

(** The snapshot a plan starts with: the last one listed at or before the target. *)
Definition pick_snapshot (txid : N) : option FileInfo :=
  foldl (λ snapshot info,
           if negb (txid =? 0) && (txid <? fi_max info) then snapshot else Some info)
        None (ltx_files SNAPSHOT_LEVEL).

(** The cursors, highest level first. *)
Definition plan_cursors : list Cursor :=
  map (λ level, cursor_new (ltx_files level)) (reverse (seq 0 SNAPSHOT_LEVEL)).

Definition plan_fuel : nat := S (length (mjoin (map ltx_files (reverse (seq 0 SNAPSHOT_LEVEL))))).

(** [calc_restore_plan]. *)
Definition calc_restore_plan (txid : N) : result (list FileInfo) RestoreError :=
  let infos := match pick_snapshot txid with Some s => [s] | None => [] end in
  let start_txid := slice_max_txid infos in
  if negb (txid =? 0) && (txid <=? start_txid) then Ok infos
  else
    let '(cursors, current_max, infos) := plan_loop plan_fuel txid start_txid plan_cursors infos in
    match (if bool_decide (infos ≠ []) && (txid =? 0) then check_tail current_max cursors else None) with
    | Some next => Err (NonContiguous current_max next)
    | None =>
        if bool_decide (infos = []) then Err TxNotAvailable
        else if negb (txid =? 0) && (slice_max_txid infos <? txid) then Err TxNotAvailable
        else Ok infos
    end.
End plan.

(** The sort key of [cuts_of]. *)
Definition end_le (a b : FileInfo) : Prop :=
  fi_max a < fi_max b ∨ fi_max a = fi_max b ∧ fi_min a ≤ fi_min b.

#[global] Instance end_le_dec : RelDecision end_le.
Proof. intros a b. apply _. Defined.

(** The body of the loop of [cuts_of]. *)
Definition reach_step (reached : gset N) (f : FileInfo) : gset N :=
  if (fi_min f =? 0) || (fi_max f <? fi_min f) then reached
  else if bool_decide (set_Exists (λ r, fi_min f - 1 ≤ r < fi_max f) reached)
  then {[fi_max f]} ∪ reached
  else reached.

(** [cuts_of]. *)
Definition cuts_of (files : list FileInfo) : list N :=
  members (foldl reach_step {[0]} (merge_sort end_le files) ∖ {[0]}).

Section cuts.
Variable ltx_files : nat → list FileInfo.

(** [restorable_cuts]. *)
Definition restorable_cuts : list N := cuts_of (mjoin (map ltx_files (seq 0 (S SNAPSHOT_LEVEL)))).

(** [calc_restore_plan_at_or_after]. *)
Definition calc_restore_plan_at_or_after (txid : N) : result (N * list FileInfo) RestoreError :=
  match find (N.leb txid) restorable_cuts with
  | None => Err TxNotAvailable
  | Some cut => infos ←? calc_restore_plan ltx_files cut; Ok (cut, infos)
  end.
End cuts.

(** ** Runs of files *)

(** The files [l] continue the database at transaction [r] to transaction [e]. *)
Inductive extends (P : FileInfo → Prop) : N → list FileInfo → N → Prop :=
| extends_nil r : extends P r [] r
| extends_cons r f l e :
    P f → fi_min f ≤ r + 1 → r < fi_max f → extends P (fi_max f) l e → extends P r (f :: l) e.

Lemma extends_snoc P r l e f :
  extends P r l e → P f → fi_min f ≤ e + 1 → e < fi_max f → extends P r (l ++ [f]) (fi_max f).
Proof. induction 1; intros; simpl; econstructor; eauto using extends_nil. Qed.

Lemma extends_le P r l e : extends P r l e → r ≤ e.
Proof. induction 1; lia. Qed.

Lemma extends_impl P Q r l e : (∀ f, P f → Q f) → extends P r l e → extends Q r l e.
Proof. intros HPQ. induction 1; econstructor; eauto. Qed.

Lemma extends_end P r l e : extends P r l e → e = r ∨ ∃ f, P f ∧ e = fi_max f.
Proof. induction 1 as [|r f l e HP _ _ _ [->|IH]]; eauto. Qed.

Lemma extends_all P r l e f : extends P r l e → f ∈ l → P f ∧ fi_max f ≤ e.
Proof.
  induction 1 as [|r f' l e HP Hmin Hlt He IH]; intros Hf; [by apply not_elem_of_nil in Hf|].
  apply extends_le in He. apply elem_of_cons in Hf as [->|Hf]; auto.
Qed.

Lemma foldl_max_spec l m : foldl (λ m f, N.max m (fi_max f)) m l = N.max m (slice_max_txid l).
Proof.
  unfold slice_max_txid. revert m. induction l as [|f l IH]; intros m; simpl; [lia|].
  rewrite IH, (IH (N.max 0 (fi_max f))). lia.
Qed.

Lemma slice_max_cons f l : slice_max_txid (f :: l) = N.max (fi_max f) (slice_max_txid l).
Proof. unfold slice_max_txid at 1. simpl. rewrite foldl_max_spec. lia. Qed.

Lemma slice_max_app l l' : slice_max_txid (l ++ l') = N.max (slice_max_txid l) (slice_max_txid l').
Proof. unfold slice_max_txid at 1. rewrite foldl_app. by rewrite foldl_max_spec. Qed.

Lemma extends_max P r l e : extends P r l e → N.max r (slice_max_txid l) = e.
Proof.
  induction 1 as [|r f l e HP Hmin Hlt He IH]; [unfold slice_max_txid; simpl; lia|]. rewrite slice_max_cons. lia.
Qed.

(** ** One cursor *)

Definition within (txid : N) (f : FileInfo) : Prop := txid = 0 ∨ fi_max f ≤ txid.

Definition unread (c : Cursor) : list FileInfo := option_list (cu_current c) ++ cu_rest c.

(** What a cursor has read of its level is covered by its candidate. *)
Definition cursor_inv (txid cur : N) (L : list FileInfo) (c : Cursor) : Prop :=
  ∃ consumed, L = consumed ++ unread c
  ∧ (cu_done c = true → unread c = [])
  ∧ (∀ cand, cu_candidate c = Some cand → cand ∈ consumed ∧ within txid cand ∧ fi_min cand ≤ cur + 1)
  ∧ (∀ f, f ∈ consumed → within txid f → cur < fi_max f →
       ∃ cand, cu_candidate c = Some cand ∧ fi_max f ≤ fi_max cand).

Definition by_min (a b : FileInfo) : Prop := fi_min a ≤ fi_min b.

(** The files a cursor has not read start past a gap. *)
Definition past_gap (cur : N) (c : Cursor) : Prop := ∀ f, f ∈ unread c → cur + 1 < fi_min f.

Lemma cursor_inv_new txid cur L : cursor_inv txid cur L (cursor_new L).
Proof. exists []. split_and!; [done|done|done|]. intros f Hf. by apply not_elem_of_nil in Hf. Qed.

Lemma cursor_inv_mono txid cur cur' L c : cur ≤ cur' → cursor_inv txid cur L c → cursor_inv txid cur' L c.
Proof.
  intros Hle (consumed & HL & Hdone & Hc & Hf). exists consumed. split_and!; [done|done| |].
  - intros cand Hcand. destruct (Hc _ Hcand) as (? & ? & ?). split_and!; [done|done|lia].
  - intros f Hin Hw Hlt. apply Hf; [done|done|lia].
Qed.

Lemma cursor_inv_drop txid cur L c :
  cursor_inv txid cur L c → (∀ cand, cu_candidate c = Some cand → fi_max cand ≤ cur) →
  cursor_inv txid cur L (take_candidate c).
Proof.
  intros (consumed & HL & Hdone & Hc & Hf) Hle. exists consumed. split_and!; [done|done|done|].
  intros f Hin Hw Hlt. destruct (Hf f Hin Hw Hlt) as (cand & Hcand & Hmax). specialize (Hle _ Hcand). lia.
Qed.

Lemma ensure_current_unread c : unread (ensure_current c) = unread c.
Proof.
  unfold ensure_current, unread. destruct c as [rest current cand done]. simpl.
  destruct done, current; simpl; try done. by destruct rest.
Qed.

Lemma ensure_current_candidate c : cu_candidate (ensure_current c) = cu_candidate c.
Proof. unfold ensure_current. by repeat case_match. Qed.

Lemma ensure_current_done c :
  (cu_done c = true → unread c = []) → cu_done (ensure_current c) = true → unread c = [].
Proof.
  unfold ensure_current, unread. destruct c as [rest current cand done]. simpl.
  destruct done, current; simpl; try done; auto. by destruct rest.
Qed.

Lemma ensure_current_None c :
  (cu_done c = true → unread c = []) → cu_current (ensure_current c) = None → unread c = [].
Proof.
  unfold ensure_current, unread. destruct c as [rest current cand done]. simpl.
  destruct done, current; simpl; try done; auto. by destruct rest.
Qed.

Lemma better_max curr next :
  fi_max (if restore_candidate_better curr next then next else curr) = N.max (fi_max curr) (fi_max next).
Proof.
  unfold restore_candidate_better. destruct (N.eqb_spec (fi_max next) (fi_max curr)) as [E|E]; simpl.
  - rewrite E. repeat case_match; lia.
  - destruct (N.ltb_spec (fi_max curr) (fi_max next)); lia.
Qed.

Definition measure (c : Cursor) : nat := length (unread c) + length (option_list (cu_candidate c)).

Lemma wrap_succ n : n < u64_max → wrap_add n 1 = n + 1.
Proof. unfold wrap_add, u64_max. intros. apply N.mod_small. lia. Qed.

(** Reading one more file of the level. *)
Lemma read_inv txid cur L c info candidate :
  cursor_inv txid cur L c → cu_current c = Some info → cu_done c = false → fi_min info ≤ cur + 1 →
  candidate = cu_candidate c ∧ (fi_max info ≤ cur ∨ ¬ within txid info)
  ∨ within txid info ∧
    candidate = Some (match cu_candidate c with
                      | None => info
                      | Some best => if restore_candidate_better best info then info else best
                      end) →
  cursor_inv txid cur L (mkCursor (cu_rest c) None candidate (cu_done c)).
Proof.
  intros (consumed & HL & Hdone & Hc & Hf) Hcur Hnd Hmin Hcase. exists (consumed ++ [info]).
  unfold unread in *. simpl. rewrite Hcur in HL. simpl in HL.
  split; [by rewrite <- app_assoc|]. split; [by rewrite Hnd|].
  destruct Hcase as [[-> Hskip]|[Hw ->]].
  - split.
    + intros cand Hcand. destruct (Hc _ Hcand) as (? & ? & ?). split_and!; [set_solver|done|lia].
    + intros f [Hin|Hin%list_elem_of_singleton]%elem_of_app Hwf Hlt; [by apply Hf|]. subst f. destruct Hskip; [lia|done].
  - destruct (cu_candidate c) as [best|] eqn:Eb.
    + pose proof (better_max best info) as Hmax. destruct (Hc _ eq_refl) as (Hin & Hwb & Hmb).
      set (b := if restore_candidate_better best info then info else best) in *. split.
      * intros cand [= <-]. subst b. case_match; split_and!; first [done|lia|set_solver].
      * intros f [Hfi|Hfi%list_elem_of_singleton]%elem_of_app Hwf Hlt; exists b; (split; [done|]).
        -- destruct (Hf f Hfi Hwf Hlt) as (cand & [= <-] & Hle). lia.
        -- subst f. lia.
    + split.
      * intros cand [= <-]. split_and!; [set_solver|done|lia].
      * intros f [Hfi|Hfi%list_elem_of_singleton]%elem_of_app Hwf Hlt; exists info; (split; [done|]); [|by subst f].
        by destruct (Hf f Hfi Hwf Hlt) as (cand & ? & _).
Qed.

Lemma sorted_past_gap cur L consumed c info :
  StronglySorted by_min L → L = consumed ++ unread c → cu_current c = Some info → cur + 1 < fi_min info → past_gap cur c.
Proof.
  intros Hs -> Hcur Hlt f. unfold unread in *. rewrite Hcur in *. simpl in *.
  apply StronglySorted_app_1_r, StronglySorted_cons in Hs as [Hall _].
  intros [->|Hf]%elem_of_cons; [done|]. rewrite Forall_forall in Hall. specialize (Hall _ Hf). unfold by_min in Hall. lia.
Qed.

Lemma refresh_loop_spec fuel txid cur L c :
  cur < u64_max → StronglySorted by_min L → cursor_inv txid cur L c → (length (unread c) < fuel)%nat →
  let c' := refresh_loop fuel cur txid c in
  cursor_inv txid cur L c' ∧ past_gap cur c' ∧ (measure c' ≤ measure c)%nat.
Proof.
  intros Hcur Hs. revert c. induction fuel as [|fuel IH]; intros c Hinv Hfuel; [lia|]. cbn [refresh_loop].
  pose proof Hinv as (consumed & HL & Hdone & Hc & Hf).
  pose proof (ensure_current_unread c) as Hu. pose proof (ensure_current_candidate c) as Hcand.
  pose proof (ensure_current_done c Hdone) as Hd. pose proof (ensure_current_None c Hdone) as Hn.
  set (c1 := ensure_current c) in *. rewrite wrap_succ by done.
  assert (cursor_inv txid cur L c1) as Hinv1.
  { exists consumed. rewrite Hu, Hcand. split_and!; [done| |done|done]. intros Ed. by apply Hd. }
  assert (measure c1 = measure c) as Hm by (unfold measure; by rewrite Hu, Hcand).
  destruct (cu_done c1) eqn:Ed.
  { split_and!; [done| |lia]. intros f Hin. rewrite Hu, Hd in Hin by done. by apply not_elem_of_nil in Hin. }
  destruct (cu_current c1) as [info|] eqn:Ei.
  2: { split_and!; [done| |lia]. intros f Hin. rewrite Hu, Hn in Hin by done. by apply not_elem_of_nil in Hin. }
  destruct (N.ltb_spec (cur + 1) (fi_min info)) as [Hgap|Hmin].
  { split_and!; [done| |lia]. eapply sorted_past_gap; [exact Hs| |exact Ei|exact Hgap]. by rewrite Hu. }
  assert (∀ candidate, cursor_inv txid cur L (mkCursor (cu_rest c1) None candidate (cu_done c1)) →
            (length (option_list candidate) ≤ S (length (option_list (cu_candidate c1))))%nat →
            let c' := refresh_loop fuel cur txid (mkCursor (cu_rest c1) None candidate (cu_done c1)) in
            cursor_inv txid cur L c' ∧ past_gap cur c' ∧ (measure c' ≤ measure c)%nat) as Hnext.
  { intros candidate Hinv2 Hlen. assert (length (unread c1) = S (length (cu_rest c1))) as Hl.
    { unfold unread. by rewrite Ei. }
    destruct (IH _ Hinv2) as (H1 & H2 & H3); [unfold unread; simpl; rewrite Hu in Hl; lia|].
    split_and!; [done|done|]. rewrite <- Hm. etrans; [exact H3|]. unfold measure. unfold unread at 1. simpl. lia. }
  rewrite Ed in Hnext.
  destruct (N.leb_spec (fi_max info) cur) as [Hold|Hnew].
  { apply Hnext; [|lia]. rewrite <- Ed. apply (read_inv _ _ _ _ info); auto. }
  destruct (N.eqb_spec txid 0) as [->|Ht]; cbn [negb andb].
  2: destruct (N.ltb_spec txid (fi_max info)) as [Hpast|Hin].
  2: { apply Hnext; [|lia]. rewrite <- Ed. apply (read_inv _ _ _ _ info); auto. left. split; [done|]. right. intros [?|?]; lia. }
  all: (apply Hnext; [|by destruct (cu_candidate c1); try case_match; simpl; lia]); rewrite <- Ed; apply (read_inv _ _ _ _ info); auto;
    right; (split; [unfold within; auto|by destruct (cu_candidate c1); try case_match]).
Qed.

Lemma refresh_spec txid cur L c :
  cur < u64_max → StronglySorted by_min L → cursor_inv txid cur L c →
  let c' := refresh cur txid c in
  cursor_inv txid cur L c' ∧ past_gap cur c' ∧ (measure c' ≤ measure c)%nat.
Proof.
  intros Hcur Hs Hinv. pose proof Hinv as (consumed & HL & Hdone & Hc & Hf). unfold refresh.
  destruct (cu_done c) eqn:Ed.
  { split_and!; [done| |lia]. intros f Hin. rewrite Hdone in Hin by done. by apply not_elem_of_nil in Hin. }
  set (c1 := mkCursor (cu_rest c) (cu_current c) _ false).
  assert (cursor_inv txid cur L c1 ∧ (measure c1 ≤ measure c)%nat) as [Hinv1 Hm].
  { subst c1. unfold measure, unread. simpl. destruct (cu_candidate c) as [f|] eqn:Ec; [|simpl].
    - destruct (N.leb_spec (fi_max f) cur) as [Hle|Hlt].
      + split; [|simpl; lia]. pose proof (cursor_inv_drop txid cur L c Hinv) as Hdrop. unfold take_candidate in Hdrop.
        rewrite Ed in Hdrop. apply Hdrop. intros cand [= <-]%(eq_trans (eq_sym Ec)). done.
      + split; [|simpl; lia]. destruct c. simpl in *. by subst.
    - split; [|lia]. destruct c. simpl in *. by subst. }
  destruct (refresh_loop_spec (length (cu_rest c) + 2) txid cur L c1) as (H1 & H2 & H3); [done..| |].
  { subst c1. unfold unread. simpl. rewrite length_app. destruct (cu_current c); simpl; lia. }
  split_and!; [done|done|lia].
Qed.

(** ** The choice across the levels *)

Definition refreshed (txid cur : N) (L : list FileInfo) (c : Cursor) : Prop :=
  cursor_inv txid cur L c ∧ past_gap cur c.

Definition total_measure (cursors : list Cursor) : nat := sum_list_with measure cursors.

Lemma choose_spec txid cur Ls cursors i best :
  cur < u64_max → Forall (StronglySorted by_min) Ls → Forall2 (cursor_inv txid cur) Ls cursors →
  let '(cursors', best') := choose i cur txid cursors best in
  Forall2 (refreshed txid cur) Ls cursors'
  ∧ (total_measure cursors' ≤ total_measure cursors)%nat
  ∧ match best' with
    | None => best = None ∧ Forall (λ c, cu_candidate c = None) cursors'
    | Some (n, cand) =>
        (best = Some (n, cand) ∨ (i ≤ n)%nat ∧ ∃ c, cursors' !! (n - i)%nat = Some c ∧ cu_candidate c = Some cand)
        ∧ (∀ c f, c ∈ cursors' → cu_candidate c = Some f → fi_max f ≤ fi_max cand)
        ∧ ∀ m b, best = Some (m, b) → fi_max b ≤ fi_max cand
    end.
Proof.
  intros Hcur Hs Hinv. revert i best. induction Hinv as [|L c Ls cursors Hc Hcs IH]; intros i best; cbn [choose].
  { split_and!; [constructor|done|]. destruct best as [[n b]|]; [|by split].
    split_and!; [by left| |]; [intros c f Hc; by apply not_elem_of_nil in Hc|intros m b' [= _ <-]; done]. }
  apply Forall_cons in Hs as [HL HLs].
  destruct (refresh_spec txid cur L c Hcur HL Hc) as (Hr & Hp & Hm). set (c1 := refresh cur txid c) in *.
  set (best1 := match cu_candidate c1 with None => best | Some cand => _ end).
  specialize (IH HLs (S i) best1). destruct (choose (S i) cur txid cursors best1) as [cursors' best'].
  destruct IH as (Hall & Hmeas & Hbest). split; [by constructor|]. split; [unfold total_measure in *; simpl; lia|].
  destruct best' as [[n cand]|].
  - destruct Hbest as (Hwho & Hmax & Hb1).
    assert ((∀ f, cu_candidate c1 = Some f → fi_max f ≤ fi_max cand) ∧ (∀ m b, best = Some (m, b) → fi_max b ≤ fi_max cand)) as [Hm1 Hm2].
    { subst best1. destruct (cu_candidate c1) as [f|]; [|by split].
      destruct best as [[m b]|].
      - pose proof (better_max b f). destruct (restore_candidate_better b f); specialize (Hb1 _ _ eq_refl);
          (split; [intros ? [= <-]; lia|intros ? ? [= _ <-]; lia]).
      - specialize (Hb1 _ _ eq_refl). split; [by intros ? [= <-]|done]. }
    split_and!; [|intros c' f [->|Hc']%elem_of_cons; eauto|done].
    destruct Hwho as [Hwho|(Hle & c' & Hlk & Hcand)].
    + subst best1. destruct (cu_candidate c1) as [f|] eqn:Ef; [|by left].
      destruct best as [[m b]|]; [destruct (restore_candidate_better b f)|]; injection Hwho as <- <-;
        try (by left); right; (split; [done|]); exists c1; rewrite Nat.sub_diag; done.
    + right. split; [lia|]. exists c'. by replace (n - i)%nat with (S (n - S i)) by lia.
  - destruct Hbest as [Hb Hn]. subst best1. destruct (cu_candidate c1) as [f|] eqn:Ef.
    + destruct best as [[m b]|]; [destruct (restore_candidate_better b f)|]; done.
    + split; [done|]. by constructor.
Qed.

Lemma take_measure cursors n c cand :
  cursors !! n = Some c → cu_candidate c = Some cand →
  total_measure cursors = S (total_measure (alter take_candidate n cursors)).
Proof.
  intros Hn Hc. revert n Hn. induction cursors as [|d cursors IH]; intros [|n]; try done; cbn [lookup list_lookup].
  - intros [= ->]. unfold total_measure. cbn [alter list_alter sum_list_with].
    unfold measure, take_candidate, unread. cbn [cu_candidate cu_rest cu_current]. rewrite Hc. simpl. lia.
  - intros Hn. specialize (IH n Hn). unfold total_measure in *. cbn [alter list_alter sum_list_with].
    change (list_alter take_candidate n cursors) with (alter take_candidate n cursors). lia.
Qed.

Lemma take_inv txid cur Ls cursors n c cand :
  Forall2 (cursor_inv txid cur) Ls cursors → cursors !! n = Some c → cu_candidate c = Some cand →
  fi_max cand ≤ cur → Forall2 (cursor_inv txid cur) Ls (alter take_candidate n cursors).
Proof.
  intros Hall Hn Hc Hle. apply Forall2_same_length_lookup. split.
  { rewrite length_alter. by eapply Forall2_length. }
  intros i L d HL Hd. destruct (decide (i = n)) as [->|Hne].
  - rewrite list_lookup_alter_eq, Hn in Hd. injection Hd as <-. apply cursor_inv_drop.
    + by apply (Forall2_lookup_lr _ _ _ _ _ _ Hall HL Hn).
    + intros f Hf. congruence.
  - rewrite list_lookup_alter_ne in Hd by done. by apply (Forall2_lookup_lr _ _ _ _ _ _ Hall HL Hd).
Qed.

(** A cursor with nothing left to take. *)
Definition finished (txid cur : N) (L : list FileInfo) (c : Cursor) : Prop :=
  refreshed txid cur L c ∧ cu_candidate c = None.

Definition listed (Ls : list (list FileInfo)) (txid : N) (f : FileInfo) : Prop := f ∈ mjoin Ls ∧ within txid f.

Lemma plan_loop_spec fuel txid Ls cur cursors infos :
  Forall (StronglySorted by_min) Ls → (∀ f, f ∈ mjoin Ls → fi_max f < u64_max) → cur < u64_max →
  Forall2 (cursor_inv txid cur) Ls cursors → (total_measure cursors < fuel)%nat →
  let '(cursors', cur', infos') := plan_loop fuel txid cur cursors infos in
  ∃ added, infos' = infos ++ added ∧ extends (listed Ls txid) cur added cur'
    ∧ (txid ≠ 0 ∧ txid ≤ cur' ∨ Forall2 (finished txid cur') Ls cursors').
Proof.
  intros Hs Hbound. revert cur cursors infos.
  induction fuel as [|fuel IH]; intros cur cursors infos Hcur Hinv Hfuel; [lia|]. cbn [plan_loop].
  pose proof (choose_spec txid cur Ls cursors 0 None Hcur Hs Hinv) as Hch.
  destruct (choose 0 cur txid cursors None) as [cursors1 [[ni cand]|]].
  2: { destruct Hch as (Hall & _ & _ & Hnone). exists []. rewrite app_nil_r. split_and!; [done|constructor|right].
       apply Forall2_same_length_lookup. split; [by eapply Forall2_length|]. intros i L c HL Hc.
       split; [by apply (Forall2_lookup_lr _ _ _ _ _ _ Hall HL Hc)|]. by apply (Forall_lookup_1 _ _ _ _ Hnone Hc). }
  destruct Hch as (Hall & Hmeas & Hwho & Hmax & _). destruct Hwho as [|(_ & c & Hn & Hcand)]; [done|].
  rewrite Nat.sub_0_r in Hn. pose proof (take_measure _ _ _ _ Hn Hcand) as Htm.
  assert (Forall2 (cursor_inv txid cur) Ls cursors1) as Hinv1 by (eapply Forall2_impl; [exact Hall|]; by intros ?? [? ?]).
  assert (listed Ls txid cand ∧ fi_min cand ≤ cur + 1) as [Hlist Hmin].
  { destruct (Forall2_lookup_r _ _ _ _ _ Hinv1 Hn) as (L & HL & consumed & -> & _ & Hc & _).
    destruct (Hc _ Hcand) as (Hin & Hw & Hm). split; [|done]. split; [|done].
    apply list_elem_of_join. eexists. split; [|by eapply list_elem_of_lookup_2]. set_solver. }
  destruct (N.leb_spec (fi_max cand) cur) as [Hstale|Hnew].
  { apply IH; [done| |lia]. by eapply take_inv. }
  assert (Forall2 (cursor_inv txid (fi_max cand)) Ls (alter take_candidate ni cursors1)) as Hinv2.
  { eapply take_inv; [|exact Hn|exact Hcand|done]. eapply Forall2_impl; [exact Hinv1|]. intros L d.
    apply cursor_inv_mono. lia. }
  destruct (negb (txid =? 0) && (txid <=? fi_max cand)) eqn:Estop.
  - exists [cand]. apply andb_prop in Estop as [E1%negb_true_iff%N.eqb_neq E2%N.leb_le].
    split_and!; [done|by apply extends_cons; [..|apply extends_nil]|by left].
  - specialize (IH (fi_max cand) (alter take_candidate ni cursors1) (infos ++ [cand])).
    destruct (plan_loop fuel txid (fi_max cand) _ _) as [[cursors' cur'] infos'].
    destruct IH as (added & -> & Hext & Hend); [by apply Hbound, Hlist|done|lia|].
    exists (cand :: added). split_and!; [by rewrite <- app_assoc|by econstructor|done].
Qed.

(** ** The plan *)

(** The levels of a listing below the snapshots, as the planner visits them. *)
Definition levels_of (ltx_files : nat → list FileInfo) : list (list FileInfo) :=
  map ltx_files (reverse (seq 0 SNAPSHOT_LEVEL)).

Definition by_max (a b : FileInfo) : Prop := fi_max a ≤ fi_max b.

(** What the planner relies on: a level lists its files by their first
    transaction, the snapshots by their last, and ids stay below the largest. *)
Record listing_ok (ltx_files : nat → list FileInfo) : Prop := {
  levels_sorted : Forall (StronglySorted by_min) (levels_of ltx_files);
  snapshots_sorted : StronglySorted by_max (ltx_files SNAPSHOT_LEVEL);
  ids_below : ∀ level f, (level ≤ SNAPSHOT_LEVEL)%nat → f ∈ ltx_files level → fi_max f < u64_max;
}.

Lemma elem_of_levels ltx_files f :
  f ∈ mjoin (levels_of ltx_files) ↔ ∃ level, (level < SNAPSHOT_LEVEL)%nat ∧ f ∈ ltx_files level.
Proof.
  rewrite list_elem_of_join. unfold levels_of. setoid_rewrite list_elem_of_fmap.
  setoid_rewrite elem_of_reverse. setoid_rewrite elem_of_seq. split.
  - intros (l & Hf & level & -> & Hl). exists level. split; [lia|done].
  - intros (level & Hl & Hf). exists (ltx_files level). split; [done|]. exists level. split; [done|lia].
Qed.

Lemma pick_snapshot_spec ltx_files txid :
  StronglySorted by_max (ltx_files SNAPSHOT_LEVEL) →
  match pick_snapshot ltx_files txid with
  | Some s => s ∈ ltx_files SNAPSHOT_LEVEL ∧ within txid s
      ∧ ∀ f, f ∈ ltx_files SNAPSHOT_LEVEL → within txid f → fi_max f ≤ fi_max s
  | None => ∀ f, f ∈ ltx_files SNAPSHOT_LEVEL → ¬ within txid f
  end.
Proof.
  unfold pick_snapshot. generalize (ltx_files SNAPSHOT_LEVEL). intros l.
  induction l as [|f l IH] using rev_ind; intros Hs; [by intros f Hf%not_elem_of_nil|].
  rewrite foldl_app. simpl. specialize (IH (StronglySorted_app_1_l _ _ _ Hs)).
  assert (negb (txid =? 0) && (txid <? fi_max f) = false ↔ within txid f) as Hw.
  { unfold within. destruct (N.eqb_spec txid 0), (N.ltb_spec txid (fi_max f)); simpl; split; (done || lia || auto). }
  destruct (negb (txid =? 0) && (txid <? fi_max f)) eqn:E.
  - assert (¬ within txid f) as Hn by (by intros H%Hw).
    destruct (foldl _ None l) as [s|].
    + destruct IH as (Hin & Hws & Hmax). split_and!; [set_solver|done|].
      intros g [Hg|Hg%list_elem_of_singleton]%elem_of_app Hwg; [by apply Hmax|by subst].
    + intros g [Hg|Hg%list_elem_of_singleton]%elem_of_app; [by apply IH|by subst].
  - pose proof (proj1 Hw eq_refl) as Hwf. split_and!; [set_solver|done|].
    intros g [Hg|Hg%list_elem_of_singleton]%elem_of_app _; [|subst; lia].
    apply (StronglySorted_app_1_elem_of by_max l [f]); [done|done|by apply list_elem_of_singleton].
Qed.

Lemma plan_cursors_inv ltx_files txid cur :
  Forall2 (cursor_inv txid cur) (levels_of ltx_files) (plan_cursors ltx_files)
  ∧ (total_measure (plan_cursors ltx_files) < plan_fuel ltx_files)%nat.
Proof.
  unfold levels_of, plan_cursors, plan_fuel. generalize (reverse (seq 0 SNAPSHOT_LEVEL)). intros levels. split.
  - induction levels; constructor; [apply cursor_inv_new|done].
  - assert (total_measure (map (λ level, cursor_new (ltx_files level)) levels) = length (mjoin (map ltx_files levels))) as ->; [|lia].
    induction levels as [|level levels IH]; [done|]. simpl. rewrite length_app, <- IH.
    unfold total_measure. simpl. unfold measure, unread. simpl. lia.
Qed.

(** Every file the planner has seen the end of is in the plan's reach. *)
Lemma finished_reach txid cur Ls cursors f :
  Forall2 (finished txid cur) Ls cursors → listed Ls txid f → cur < fi_max f → cur + 1 < fi_min f.
Proof.
  intros Hall [Hf Hw] Hlt. apply list_elem_of_join in Hf as (L & Hf & [i HL]%list_elem_of_lookup).
  destruct (Forall2_lookup_l _ _ _ _ _ Hall HL) as (c & Hc & ((consumed & -> & _ & _ & Hcov) & Hgap) & Hnone).
  apply elem_of_app in Hf as [Hf|Hf]; [|by apply Hgap].
  destruct (Hcov f Hf Hw Hlt) as (cand & Hcand & _). congruence.
Qed.

Lemma check_tail_None cur Ls cursors f :
  cur < u64_max → Forall2 (finished 0 cur) Ls cursors → check_tail cur cursors = None → f ∈ mjoin Ls → fi_max f ≤ cur.
Proof.
  intros Hcur Hall. induction Hall as [|L c Ls cursors Hfin Hall IH]; simpl; [by intros _ Hf%not_elem_of_nil|].
  destruct Hfin as (((consumed & HL & Hdone & _ & Hcov) & Hgap) & Hnone). rewrite wrap_succ by done.
  assert (∀ info, cu_current (ensure_current c) = Some info → cur + 1 < fi_min info) as Hfirst.
  { intros info Hi. apply Hgap. rewrite <- ensure_current_unread. unfold unread. rewrite Hi. simpl. left. }
  destruct (cu_current (ensure_current c)) as [info|] eqn:Ei.
  { rewrite (proj2 (N.ltb_lt _ _)) by (by apply Hfirst). done. }
  pose proof (ensure_current_None c Hdone Ei) as Hu. intros Ht [Hf|Hf]%elem_of_app; [|by apply IH].
  rewrite HL, Hu, app_nil_r in Hf. destruct (N.le_gt_cases (fi_max f) cur) as [|Hlt]; [done|].
  destruct (Hcov f Hf) as (cand & Hcand & _); [by left|done|congruence].
Qed.

Lemma check_tail_Some cur Ls cursors next :
  cur < u64_max → Forall2 (finished 0 cur) Ls cursors → check_tail cur cursors = Some next →
  ∃ f, f ∈ mjoin Ls ∧ cur + 1 < fi_min f.
Proof.
  intros Hcur Hall. induction Hall as [|L c Ls cursors Hfin Hall IH]; simpl; [done|]. rewrite wrap_succ by done.
  assert (check_tail cur cursors = Some next → ∃ f, f ∈ L ++ mjoin Ls ∧ cur + 1 < fi_min f) as Hrest.
  { intros (f & ? & ?)%IH. exists f. set_solver. }
  destruct (cu_current (ensure_current c)) as [info|] eqn:Ei; [|done].
  destruct (N.ltb_spec (cur + 1) (fi_min info)) as [Hlt|]; [|done]. intros _. exists info. split; [|done].
  destruct Hfin as (((consumed & -> & _) & _) & _). rewrite <- ensure_current_unread. unfold unread. rewrite Ei. set_solver.
Qed.

Section restore.
Context (ltx_files : nat → list FileInfo) (Hok : listing_ok ltx_files).

(** Where a plan starts: at its snapshot, or before the first transaction. *)
Definition plan_start (txid : N) : N := default 0 (fi_max <$> pick_snapshot ltx_files txid).

Lemma plan_start_below txid : plan_start txid < u64_max.
Proof using Hok.
  unfold plan_start. pose proof (pick_snapshot_spec ltx_files txid (snapshots_sorted _ Hok)) as Hp.
  destruct (pick_snapshot ltx_files txid) as [s|]; simpl; [|done]. apply (ids_below _ Hok SNAPSHOT_LEVEL); [done|apply Hp].
Qed.

Lemma plan_start_slice txid :
  slice_max_txid (match pick_snapshot ltx_files txid with Some s => [s] | None => [] end) = plan_start txid.
Proof. unfold plan_start, slice_max_txid. destruct (pick_snapshot ltx_files txid); simpl; lia. Qed.

Lemma levels_below f : f ∈ mjoin (levels_of ltx_files) → fi_max f < u64_max.
Proof using Hok. intros (level & Hl & Hf)%elem_of_levels. apply (ids_below _ Hok level); [lia|done]. Qed.

(** The end of the planner's loop. *)
Lemma plan_loop_end txid infos :
  let '(cursors, cur, infos') := plan_loop (plan_fuel ltx_files) txid (plan_start txid) (plan_cursors ltx_files) infos in
  ∃ added, infos' = infos ++ added ∧ extends (listed (levels_of ltx_files) txid) (plan_start txid) added cur
    ∧ cur < u64_max
    ∧ (txid ≠ 0 ∧ txid ≤ cur ∨ Forall2 (finished txid cur) (levels_of ltx_files) cursors).
Proof using Hok.
  destruct (plan_cursors_inv ltx_files txid (plan_start txid)) as [Hinv Hm].
  pose proof (plan_loop_spec (plan_fuel ltx_files) txid (levels_of ltx_files) (plan_start txid)
                (plan_cursors ltx_files) infos (levels_sorted _ Hok) levels_below (plan_start_below txid) Hinv Hm) as H.
  destruct (plan_loop _ _ _ _ _) as [[cursors cur] infos']. destruct H as (added & -> & Hext & Hend).
  exists added. split_and!; [done|done| |done].
  destruct (extends_end _ _ _ _ Hext) as [->|(f & [Hf _] & ->)]; [apply plan_start_below|by apply levels_below].
Qed.

(** A plan: a snapshot if there is one, and files that continue it. *)
Definition plan_of (txid : N) (infos : list FileInfo) (e : N) : Prop :=
  ∃ added, infos = option_list (pick_snapshot ltx_files txid) ++ added
    ∧ extends (listed (levels_of ltx_files) txid) (plan_start txid) added e.

Lemma plan_of_max txid infos e : plan_of txid infos e → slice_max_txid infos = e.
Proof.
  intros (added & -> & Hext). rewrite slice_max_app. apply extends_max in Hext as <-. f_equal.
  rewrite <- plan_start_slice. by destruct (pick_snapshot ltx_files txid).
Qed.

Lemma plan_of_within txid infos e f : txid ≠ 0 → plan_of txid infos e → f ∈ infos → fi_max f ≤ txid.
Proof using Hok.
  intros Ht (added & -> & Hext) [Hf|Hf]%elem_of_app.
  - pose proof (pick_snapshot_spec ltx_files txid (snapshots_sorted _ Hok)) as Hp.
    destruct (pick_snapshot ltx_files txid) as [s|]; simpl in Hf; [|by apply not_elem_of_nil in Hf].
    apply list_elem_of_singleton in Hf as ->. destruct Hp as (_ & [?|?] & _); [lia|done].
  - destruct (extends_all _ _ _ _ _ Hext Hf) as [[_ [?|?]] _]; [lia|done].
Qed.

Lemma slice_max_le infos t : (∀ f, f ∈ infos → fi_max f ≤ t) → slice_max_txid infos ≤ t.
Proof.
  induction infos as [|f infos IH]; intros Hf; [unfold slice_max_txid; simpl; lia|]. rewrite slice_max_cons.
  apply N.max_lub; [apply Hf; left|apply IH; intros g Hg; apply Hf; by right].
Qed.

(** The three ways [calc_restore_plan] ends. *)
Lemma calc_restore_plan_cases txid :
  match calc_restore_plan ltx_files txid with
  | Ok infos => infos ≠ [] ∧ ∃ e, plan_of txid infos e ∧ (txid ≠ 0 → e = txid)
      ∧ (txid = 0 → ∀ f, f ∈ mjoin (levels_of ltx_files) → fi_max f ≤ e)
  | Err _ => ∃ infos e, plan_of txid infos e
      ∧ (∀ f, listed (levels_of ltx_files) txid f → e < fi_max f → e + 1 < fi_min f)
      ∧ (txid = 0 ∧ (infos = [] ∨ ∃ f, f ∈ mjoin (levels_of ltx_files) ∧ e + 1 < fi_min f) ∨ e < txid)
  end.
Proof using Hok.
  unfold calc_restore_plan. rewrite plan_start_slice.
  destruct (negb (txid =? 0) && (txid <=? plan_start txid)) eqn:Estart.
  - apply andb_prop in Estart as [E1%negb_true_iff%N.eqb_neq E2%N.leb_le]. unfold plan_start in E2.
    pose proof (pick_snapshot_spec ltx_files txid (snapshots_sorted _ Hok)) as Hp.
    destruct (pick_snapshot ltx_files txid) as [s|] eqn:Es; simpl in E2; [|lia].
    split; [done|]. exists (fi_max s). destruct Hp as (_ & [?|?] & _); [lia|]. split_and!; [|lia|lia].
    exists []. rewrite Es. unfold plan_start. rewrite Es. split; [done|constructor].
  - pose proof (plan_loop_end txid (match pick_snapshot ltx_files txid with Some s => [s] | None => [] end)) as H.
    destruct (plan_loop _ _ _ _ _) as [[cursors cur] infos]. destruct H as (added & Hi & Hext & Hcur & Hend).
    assert (plan_of txid infos cur) as Hplan.
    { exists added. split; [|done]. rewrite Hi. by destruct (pick_snapshot ltx_files txid). }
    pose proof (plan_of_max _ _ _ Hplan) as Hmax.
    set (fails := λ (infos : list FileInfo) e, txid = 0 ∧ (infos = [] ∨ ∃ f, f ∈ mjoin (levels_of ltx_files) ∧ e + 1 < fi_min f) ∨ e < txid).
    assert (fails infos cur →
            ∃ infos e, plan_of txid infos e
              ∧ (∀ f, listed (levels_of ltx_files) txid f → e < fi_max f → e + 1 < fi_min f)
              ∧ fails infos e) as Hfail.
    { intros Hor. exists infos, cur. split_and!; [done| |done]. destruct Hend as [?|Hend]; [destruct Hor; lia|].
      intros f. by apply (finished_reach txid cur _ cursors). }
    destruct (if bool_decide (infos ≠ []) && (txid =? 0) then _ else _) as [next|] eqn:Etail.
    { destruct (N.eqb_spec txid 0) as [E0|]; [|by rewrite andb_false_r in Etail]. apply Hfail. left. split; [done|right].
      destruct Hend as [[? _]|Hend]; [done|]. rewrite E0 in Hend. rewrite andb_true_r in Etail. case_match; [|done].
      by eapply check_tail_Some. }
    destruct (bool_decide (infos = [])) eqn:Enil; [apply bool_decide_eq_true in Enil|apply bool_decide_eq_false in Enil].
    { apply Hfail. destruct (N.eq_dec txid 0); [left; auto|right]. rewrite <- Hmax, Enil. unfold slice_max_txid. simpl. lia. }
    destruct (N.eqb_spec txid 0) as [E0|Hne]; simpl.
    + split; [done|]. exists cur. split_and!; [done|done|]. intros _ f Hf. rewrite bool_decide_true in Etail by done.
      destruct Hend as [?|Hend]; [lia|]. rewrite E0 in Hend. by apply (check_tail_None cur (levels_of ltx_files) cursors).
    + destruct (N.ltb_spec (slice_max_txid infos) txid) as [Hlt|Hge]; [apply Hfail; right; lia|].
      split; [done|]. exists cur. split_and!; [done| |done]. intros _.
      pose proof (slice_max_le infos txid (λ f, plan_of_within txid infos cur f Hne Hplan)). lia.
Qed.

(** ** The cuts *)

(** A transaction at which a contiguous run of files from the first one ends. *)
Inductive reach (files : list FileInfo) : N → Prop :=
| reach_zero : reach files 0
| reach_file f r :
    f ∈ files → 0 < fi_min f → fi_min f ≤ fi_max f → reach files r → fi_min f - 1 ≤ r < fi_max f →
    reach files (fi_max f).
End restore.

Lemma reach_step_eligible files c r :
  reach files c → r < c → ∃ f, f ∈ files ∧ fi_min f ≤ r + 1 ∧ r < fi_max f ≤ c.
Proof.
  induction 1 as [|f r0 Hf H0 Hle Hr IH Hlt]; intros Hrc; [lia|].
  destruct (N.le_gt_cases r0 r) as [Hge|Hr0].
  - exists f. split_and!; [done|lia|lia|lia].
  - destruct (IH Hr0) as (g & Hg & Hmin & Hmax). exists g. split_and!; [done|lia|lia|lia].
Qed.

Lemma reach_below files f r : reach (files ++ [f]) r → r < fi_max f → reach files r.
Proof.
  induction 1 as [|g r0 Hg H0 Hle Hr IH Hlt]; intros Hrf; [constructor|].
  apply elem_of_app in Hg as [Hg|Hg%list_elem_of_singleton]; [|subst; lia].
  apply (reach_file files g r0); [done..|apply IH; lia|done].
Qed.

Lemma reach_mono files files' r : files ⊆ files' → reach files r → reach files' r.
Proof. intros Hsub. induction 1 as [|g r0 Hg]; [constructor|]. apply (reach_file _ g r0); auto. Qed.

Lemma reach_snoc files f c :
  (∀ g, g ∈ files → fi_max g ≤ fi_max f) →
  reach (files ++ [f]) c ↔
  reach files c
  ∨ c = fi_max f ∧ 0 < fi_min f ≤ fi_max f ∧ ∃ r, reach files r ∧ fi_min f - 1 ≤ r < fi_max f.
Proof.
  intros Hmax. split.
  - destruct 1 as [|g r Hg H0 Hle Hr Hlt]; [left; constructor|].
    apply elem_of_app in Hg as [Hg|Hg%list_elem_of_singleton].
    + left. apply (reach_file files g r); [done..| |done]. apply (reach_below _ f); [done|]. specialize (Hmax g Hg). lia.
    + subst g. right. split_and!; [done..|]. exists r. split; [|done]. apply (reach_below _ f); [done|lia].
  - intros [Hc|(-> & Hle & r & Hr & Hlt)]; [apply (reach_mono files); set_solver|].
    apply (reach_file _ f r); [set_solver|lia|lia| |done]. apply (reach_mono files); set_solver.
Qed.

Lemma reach_steps_spec files :
  StronglySorted by_max files → ∀ c, c ∈ foldl reach_step {[0]} files ↔ reach files c.
Proof.
  induction files as [|f files IH] using rev_ind; intros Hs c.
  { simpl. rewrite elem_of_singleton. split; [intros ->; constructor|].
    destruct 1 as [|f r Hf]; [done|]. by apply not_elem_of_nil in Hf. }
  rewrite foldl_app. simpl. specialize (IH (StronglySorted_app_1_l _ _ _ Hs)).
  rewrite reach_snoc.
  2: { intros g Hg. apply (StronglySorted_app_1_elem_of by_max files [f]); [done|done|by apply list_elem_of_singleton]. }
  unfold reach_step. destruct (N.eqb_spec (fi_min f) 0); simpl; [rewrite IH; split; [by left|intros [?|?]; [done|lia]]|].
  destruct (N.ltb_spec (fi_max f) (fi_min f)); [rewrite IH; split; [by left|intros [?|?]; [done|lia]]|].
  case_bool_decide as Hex.
  - rewrite elem_of_union, elem_of_singleton, IH. destruct Hex as (r & Hr%IH & Hlt). split.
    + intros [->|?]; [right|by left]. split_and!; [done|lia|lia|]. eauto.
    + intros [?|(-> & _)]; auto.
  - rewrite IH. split; [by left|]. intros [?|(-> & _ & r & Hr & Hlt)]; [done|]. destruct Hex. exists r. by rewrite IH.
Qed.

Lemma cuts_of_spec files c : c ∈ cuts_of files ↔ c ≠ 0 ∧ reach files c.
Proof.
  unfold cuts_of. rewrite elem_of_members, elem_of_difference, elem_of_singleton, reach_steps_spec.
  - assert (reach (merge_sort end_le files) c ↔ reach files c) as ->; [|tauto].
    split; apply reach_mono; intros f; by rewrite merge_sort_Permutation.
  - assert (StronglySorted end_le (merge_sort end_le files)) as Hs.
    { apply StronglySorted_merge_sort; [|intros a b; unfold end_le; lia]. intros a b d. unfold end_le. lia. }
    induction Hs as [|f l _ IH Hf]; constructor; [done|]. eapply Forall_impl; [exact Hf|]. intros g. unfold end_le, by_max. lia.
Qed.

Lemma elem_of_listing ltx_files f :
  f ∈ mjoin (map ltx_files (seq 0 (S SNAPSHOT_LEVEL))) ↔
  f ∈ mjoin (levels_of ltx_files) ∨ f ∈ ltx_files SNAPSHOT_LEVEL.
Proof.
  rewrite elem_of_levels, list_elem_of_join. setoid_rewrite list_elem_of_fmap. setoid_rewrite elem_of_seq. split.
  - intros (l & Hf & level & -> & Hl). destruct (decide (level = SNAPSHOT_LEVEL)) as [->|]; [by right|].
    left. exists level. split; [lia|done].
  - intros [(level & Hl & Hf)|Hf].
    + exists (ltx_files level). split; [done|]. exists level. split; [done|lia].
    + exists (ltx_files SNAPSHOT_LEVEL). split; [done|]. exists SNAPSHOT_LEVEL. split; [done|lia].
Qed.

(** A plan for the latest state that no listed file continues is past every
    transaction in reach. *)
Lemma plan_of_reach ltx_files infos e m :
  listing_ok ltx_files → plan_of ltx_files 0 infos e →
  (∀ f, listed (levels_of ltx_files) 0 f → e < fi_max f → e + 1 < fi_min f) →
  reach (mjoin (map ltx_files (seq 0 (S SNAPSHOT_LEVEL)))) m → m ≤ e.
Proof.
  intros Hok (added & _ & Hext%extends_le) Hgap Hreach. destruct (N.le_gt_cases m e) as [|Hlt]; [done|exfalso].
  destruct (reach_step_eligible _ _ _ Hreach Hlt) as (f & [Hf|Hf]%elem_of_listing & Hmin & Hmax).
  - assert (e + 1 < fi_min f); [|lia]. apply Hgap; [split; [done|by left]|lia].
  - pose proof (pick_snapshot_spec ltx_files 0 (snapshots_sorted _ Hok)) as Hs. unfold plan_start in Hext.
    destruct (pick_snapshot ltx_files 0) as [s|]; [|by apply (Hs f); [|left]].
    destruct Hs as (_ & _ & Hbest). specialize (Hbest f Hf (or_introl eq_refl)). simpl in Hext. lia.
Qed.

(** Where the last transaction listed is in reach, the plan for the latest state
    exists and ends there. *)
Lemma full_plan ltx_files m :
  listing_ok ltx_files → let files := mjoin (map ltx_files (seq 0 (S SNAPSHOT_LEVEL))) in
  reach files m → (∀ f, f ∈ files → fi_min f ≤ fi_max f ≤ m) → m ≠ 0 →
  ∃ infos, calc_restore_plan ltx_files 0 = Ok infos ∧ slice_max_txid infos = m.
Proof.
  intros Hok files Hreach Hall Hm. assert (∀ f, f ∈ mjoin (levels_of ltx_files) → fi_min f ≤ fi_max f ≤ m) as Hlev.
  { intros f Hf. apply Hall, elem_of_listing. by left. }
  pose proof (calc_restore_plan_cases ltx_files Hok 0) as H. destruct (calc_restore_plan ltx_files 0) as [infos|err].
  - destruct H as (_ & e & Hplan & _ & Hend). exists infos. split; [done|]. rewrite (plan_of_max _ _ _ _ Hplan).
    apply N.le_antisymm.
    + destruct Hplan as (added & _ & [->|(f & [Hf _] & ->)]%extends_end); [|by apply Hlev].
      pose proof (pick_snapshot_spec ltx_files 0 (snapshots_sorted _ Hok)) as Hs. unfold plan_start.
      destruct (pick_snapshot ltx_files 0) as [s|]; simpl; [|lia]. apply Hall, elem_of_listing. right. apply Hs.
    + apply (plan_of_reach ltx_files infos e m Hok Hplan); [|done]. intros f [Hf _] Hlt. specialize (Hend eq_refl f Hf). lia.
  - destruct H as (infos & e & Hplan & Hgap & Hend). exfalso. pose proof (plan_of_reach _ _ _ _ Hok Hplan Hgap Hreach) as Hle.
    destruct Hend as [[_ [->|(f & Hf%Hlev & Hlt)]]|]; [|lia|lia].
    apply plan_of_max in Hplan. unfold slice_max_txid in Hplan. simpl in Hplan. lia.
Qed.

(** C17: A restore plan is a run without a gap.  It starts with the newest
    snapshot at or before the target, or before the first transaction; each
    further file is one the replica lists, starts no later than the next
    transaction and ends later than what came before.  The plan for a target
    ends exactly there, and the plan for the latest state leaves no listed file
    behind: every transaction a file holds is in the plan's reach. *)
Theorem restore_plan_sound ltx_files txid infos :
  listing_ok ltx_files → calc_restore_plan ltx_files txid = Ok infos →
  infos ≠ [] ∧ ∃ e, plan_of ltx_files txid infos e ∧ slice_max_txid infos = e
    ∧ (txid ≠ 0 → e = txid)
    ∧ (txid = 0 → ∀ level f, (level ≤ SNAPSHOT_LEVEL)%nat → f ∈ ltx_files level → fi_max f ≤ e).
Proof.
  intros Hok Hp. pose proof (calc_restore_plan_cases ltx_files Hok txid) as H. rewrite Hp in H.
  destruct H as (Hne & e & Hplan & Ht & H0). split; [done|]. exists e. split_and!; [done|by eapply plan_of_max|done|].
  intros -> level f Hl Hf. destruct (decide (level = SNAPSHOT_LEVEL)) as [->|].
  - pose proof (pick_snapshot_spec ltx_files 0 (snapshots_sorted _ Hok)) as Hs.
    destruct Hplan as (added & _ & Hext%extends_le). unfold plan_start in Hext.
    destruct (pick_snapshot ltx_files 0) as [s|].
    + destruct Hs as (_ & _ & Hmax). specialize (Hmax f Hf (or_introl eq_refl)). simpl in Hext. lia.
    + by destruct (Hs f Hf (or_introl eq_refl)).
  - apply H0; [done|]. apply elem_of_levels. exists level. split; [lia|done].
Qed.

Definition sample_file (level : Z) (min max : N) : FileInfo := mkFileInfo level min max 0 0 0 None.

(** A snapshot up to transaction 3, a compacted file and single ones. *)
Definition sample_listing (level : nat) : list FileInfo :=
  match level with
  | 0%nat => [sample_file 0 4 4; sample_file 0 5 5; sample_file 0 6 6]
  | 1%nat => [sample_file 1 2 5]
  | 9%nat => [sample_file 9 1 3]
  | _ => []
  end.

Lemma sample_listing_ok : listing_ok sample_listing.
Proof.
  split.
  - repeat constructor; vm_compute; done.
  - repeat constructor.
  - intros level f _ Hf. unfold sample_listing in Hf.
    repeat case_match; repeat (apply elem_of_cons in Hf as [->|Hf]; [done|]); by apply not_elem_of_nil in Hf.
Qed.

Lemma restore_plan_sound_witness :
  calc_restore_plan sample_listing 0 = Ok [sample_file 9 1 3; sample_file 1 2 5; sample_file 0 6 6]
  ∧ [sample_file 9 1 3; sample_file 1 2 5; sample_file 0 6 6] ≠ [].
Proof.
  assert (calc_restore_plan sample_listing 0 = Ok [sample_file 9 1 3; sample_file 1 2 5; sample_file 0 6 6]) as E
    by (vm_compute; reflexivity).
  split; [exact E|]. exact (proj1 (restore_plan_sound sample_listing 0 _ sample_listing_ok E)).
Defined.

(** Every cut has its plan: a transaction at which some run of listed files
    ends is one the planner restores exactly, and the search for the first cut
    at or after a transaction fails only where every cut is below it. *)
Theorem every_cut_restores ltx_files cut :
  listing_ok ltx_files →
  (cut ∈ restorable_cuts ltx_files ↔ cut ≠ 0 ∧ reach (mjoin (map ltx_files (seq 0 (S SNAPSHOT_LEVEL)))) cut)
  ∧ (cut ∈ restorable_cuts ltx_files →
     ∃ infos, calc_restore_plan ltx_files cut = Ok infos ∧ slice_max_txid infos = cut)
  ∧ (∀ txid, match calc_restore_plan_at_or_after ltx_files txid with
             | Ok (c, infos) => c ∈ restorable_cuts ltx_files ∧ txid ≤ c ∧ calc_restore_plan ltx_files c = Ok infos
             | Err _ => ∀ c, c ∈ restorable_cuts ltx_files → c < txid
             end).
Proof.
  intros Hok. split; [apply cuts_of_spec|].
  assert (∀ c, c ∈ restorable_cuts ltx_files →
            ∃ infos, calc_restore_plan ltx_files c = Ok infos ∧ slice_max_txid infos = c) as Hplan.
  { intros c [Hc Hreach]%cuts_of_spec. pose proof (calc_restore_plan_cases ltx_files Hok c) as H.
    destruct (calc_restore_plan ltx_files c) as [infos|e].
    { destruct H as (_ & e & Hp & He & _). exists infos. split; [done|]. rewrite <- He by done. by eapply plan_of_max. }
    exfalso. destruct H as (infos & r & (added & _ & Hext) & Hgap & [[? _]|Hlt]); [done|].
    destruct (reach_step_eligible _ _ _ Hreach Hlt) as (f & Hf & Hmin & Hmax).
    apply elem_of_listing in Hf as [Hf|Hf].
    - assert (r + 1 < fi_min f); [|lia]. apply Hgap; [|lia]. split; [done|]. right. lia.
    - pose proof (pick_snapshot_spec ltx_files c (snapshots_sorted _ Hok)) as Hs. apply extends_le in Hext.
      unfold plan_start in Hext. assert (within c f) as Hw by (right; lia).
      destruct (pick_snapshot ltx_files c) as [s|]; [|by apply (Hs f)].
      destruct Hs as (_ & _ & Hbest). specialize (Hbest f Hf Hw). simpl in Hext. lia. }
  split; [apply Hplan|]. intros txid. unfold calc_restore_plan_at_or_after.
  destruct (find (N.leb txid) (restorable_cuts ltx_files)) as [c|] eqn:Ef.
  - apply find_some in Ef as [Hin%list_elem_of_In Hle%N.leb_le]. destruct (Hplan c Hin) as (infos & E & _). rewrite E. simpl. by split_and!.
  - intros c Hc%list_elem_of_In. apply (find_none _ _ Ef) in Hc. by apply N.leb_gt.
Qed.

Lemma every_cut_restores_witness :
  4 ∈ restorable_cuts sample_listing ∧ ∃ infos, calc_restore_plan sample_listing 4 = Ok infos ∧ slice_max_txid infos = 4.
Proof.
  assert (4 ∈ restorable_cuts sample_listing) as Hin.
  { apply (bool_decide_unpack _). vm_compute. exact I. }
  split; [exact Hin|]. exact (proj1 (proj2 (every_cut_restores sample_listing 4 sample_listing_ok)) Hin).
Defined.
