(* ===== verification/Bytes.v ===== *)
(** * Bytes

    Byte strings as lists of [N] below 256, and the integers a program reads
    from them and writes to them in either byte order. *)

From Stdlib Require Import ZifyN ZifyNat.
From S2P Require Import Prelude.

(** Facts about bytes, for [auto]. *)
Create HintDb bytes.

(** A byte string. *)
Definition bytes_ok (l : list N) : Prop := Forall (λ b, b < 256) l.

(** [from_le_bytes] and [to_le_bytes] at a width. *)
Fixpoint little_endian (l : list N) : N :=
  match l with [] => 0 | b :: l => b + 256 * little_endian l end.

Fixpoint le_bytes (width : nat) (n : N) : list N :=
  match width with O => [] | S width => n mod 256 :: le_bytes width (n / 256) end.

(** [from_be_bytes] and [to_be_bytes]. *)
Definition big_endian (l : list N) : N := little_endian (reverse l).
Definition be_bytes (width : nat) (n : N) : list N := reverse (le_bytes width n).

(** The number of values a width has. *)
Definition width_bound (width : nat) : N := 256 ^ N.of_nat width.

Lemma width_bound_S w : width_bound (S w) = 256 * width_bound w.
Proof. unfold width_bound. by rewrite Nat2N.inj_succ, N.pow_succ_r'. Qed.

Lemma width_bound_pos w : 0 < width_bound w.
Proof. unfold width_bound. lia. Qed.

Lemma little_endian_lt l : bytes_ok l → little_endian l < width_bound (length l).
Proof.
  induction 1 as [|b l Hb _ IH]; [done|]. cbn [little_endian length]. rewrite width_bound_S. lia.
Qed.

Lemma little_endian_app l k : little_endian (l ++ k) = little_endian l + width_bound (length l) * little_endian k.
Proof.
  induction l as [|b l IH]; cbn [app length little_endian].
  - unfold width_bound. rewrite N.pow_0_r. lia.
  - rewrite IH, width_bound_S. lia.
Qed.

Lemma le_bytes_ok w n : bytes_ok (le_bytes w n).
Proof. revert n. induction w as [|w IH]; intros n; [constructor|]. constructor; [by apply N.mod_lt|apply IH]. Qed.

Lemma length_le_bytes w n : length (le_bytes w n) = w.
Proof. revert n. induction w as [|w IH]; intros n; cbn [le_bytes length]; [done|]. by rewrite IH. Qed.

Lemma little_endian_le_bytes w n : n < width_bound w → little_endian (le_bytes w n) = n.
Proof.
  revert n. induction w as [|w IH]; intros n Hn.
  - unfold width_bound in Hn. rewrite N.pow_0_r in Hn. cbn. lia.
  - cbn [le_bytes little_endian]. rewrite width_bound_S in Hn. rewrite IH; lia.
Qed.

Lemma le_bytes_little_endian l : bytes_ok l → le_bytes (length l) (little_endian l) = l.
Proof.
  induction 1 as [|b l Hb _ IH]; [done|]. cbn [length little_endian le_bytes].
  f_equal; [lia|]. by replace ((b + 256 * little_endian l) / 256) with (little_endian l) by lia.
Qed.

Lemma little_endian_inj l k :
  bytes_ok l → bytes_ok k → length l = length k → little_endian l = little_endian k → l = k.
Proof.
  intros Hl Hk Hlen E. rewrite <- (le_bytes_little_endian l), <- (le_bytes_little_endian k) by done.
  congruence.
Qed.

Lemma little_endian_take_drop l k :
  bytes_ok l → (k ≤ length l)%nat →
  little_endian (take k l) = little_endian l mod width_bound k
  ∧ little_endian (drop k l) = little_endian l / width_bound k.
Proof.
  intros Hl Hk.
  assert (little_endian l = little_endian (take k l) + width_bound k * little_endian (drop k l)) as E.
  { rewrite <- (take_drop k l) at 1. rewrite little_endian_app, length_take_le by done. done. }
  assert (little_endian (take k l) < width_bound k) as Hlt.
  { rewrite <- (length_take_le l k) at 2 by done. apply little_endian_lt. by apply Forall_take. }
  pose proof (width_bound_pos k). split.
  - apply (N.mod_unique _ _ (little_endian (drop k l))); lia.
  - apply (N.div_unique _ _ _ (little_endian (take k l))); lia.
Qed.

(** Bits above a number's width are clear. *)
Lemma testbit_above a k i : a < 2 ^ k → k ≤ i → N.testbit a i = false.
Proof.
  intros Ha Hi. rewrite <- (N.mod_small a (2 ^ k) Ha). by apply N.mod_pow2_bits_high.
Qed.

(** An OR of fields that do not overlap is their sum. *)
Lemma lor_shiftl a b k : a < 2 ^ k → N.lor a (N.shiftl b k) = b * 2 ^ k + a.
Proof.
  intros Ha. assert (N.land a (N.shiftl b k) = 0) as Hland.
  { apply N.bits_inj. intros i. rewrite N.land_spec, N.bits_0. destruct (N.ltb_spec i k).
    - rewrite N.shiftl_spec_low by done. apply andb_false_r.
    - by rewrite (testbit_above a k i). }
  rewrite <- N.lxor_lor, <- N.add_nocarry_lxor, N.shiftl_mul_pow2 by done. lia.
Qed.

Lemma lor_lt a b k : a < 2 ^ k → b < 2 ^ k → N.lor a b < 2 ^ k.
Proof.
  intros Ha Hb. assert (N.lor a b = N.lor a b mod 2 ^ k) as ->; [|apply N.mod_lt; lia].
  apply N.bits_inj. intros i. destruct (N.ltb_spec i k).
  - by rewrite N.mod_pow2_bits_low.
  - rewrite N.mod_pow2_bits_high, N.lor_spec by done. by rewrite !(testbit_above _ k).
Qed.

Lemma be_bytes_ok w n : bytes_ok (be_bytes w n).
Proof. apply Forall_reverse, le_bytes_ok. Qed.

Lemma length_be_bytes w n : length (be_bytes w n) = w.
Proof. unfold be_bytes. by rewrite length_reverse, length_le_bytes. Qed.

Lemma big_endian_be_bytes w n : n < width_bound w → big_endian (be_bytes w n) = n.
Proof. intros. unfold big_endian, be_bytes. rewrite reverse_involutive. by apply little_endian_le_bytes. Qed.

Lemma be_bytes_big_endian l : bytes_ok l → be_bytes (length l) (big_endian l) = l.
Proof.
  intros Hl. unfold big_endian, be_bytes. rewrite <- (length_reverse l).
  rewrite le_bytes_little_endian; [apply reverse_involutive|by apply Forall_reverse].
Qed.

Lemma big_endian_lt l : bytes_ok l → big_endian l < width_bound (length l).
Proof. intros Hl. unfold big_endian. rewrite <- length_reverse. by apply little_endian_lt, Forall_reverse. Qed.

Lemma bytes_ok_app l k : bytes_ok l → bytes_ok k → bytes_ok (l ++ k).
Proof. apply Forall_app_2. Qed.

Lemma bytes_ok_take n l : bytes_ok l → bytes_ok (take n l).
Proof. apply Forall_take. Qed.

Lemma bytes_ok_drop n l : bytes_ok l → bytes_ok (drop n l).
Proof. apply Forall_drop. Qed.

#[export] Hint Resolve le_bytes_ok be_bytes_ok bytes_ok_app bytes_ok_take bytes_ok_drop : bytes.
