(* ===== verification/LogWire.v ===== *)
(** * The node log on the wire and on disk

    Models the framing of [crates/celld/node_log.rs]: stream frames, log
    entries, append requests, tail responses, and the committed batch a
    follower writes.  A reader consumes a prefix of its buffer; [None] is an
    error.  What a writer produces a reader gives back, and what a reader of
    committed batches accepts is a contiguous run that its state covers.

    The hash of a batch is a parameter. *)

From Stdlib Require Import ZifyN ZifyNat.
From S2P Require Import Prelude Bytes Text PeerAuth.

Module Wire.

Abbreviation bytes := (list N).

(** ** Text *)

(** [std::str::from_utf8]: the well-formed sequences of Unicode, the shortest
    forms without surrogates. *)
Definition continuation (b : N) : bool := (128 <=? b) && (b <=? 191).

Fixpoint utf8_valid (l : bytes) : bool :=
  match l with
  | [] => true
  | a :: l =>
      if a <? 128 then utf8_valid l
      else match l with
           | b :: l1 =>
               if (194 <=? a) && (a <=? 223) then continuation b && utf8_valid l1
               else match l1 with
                    | c :: l2 =>
                        if (224 <=? a) && (a <=? 239) then
                          ((if a =? 224 then 160 else 128) <=? b) && (b <=? (if a =? 237 then 159 else 191))
                          && continuation c && utf8_valid l2
                        else match l2 with
                             | d :: l3 =>
                                 (240 <=? a) && (a <=? 244)
                                 && ((if a =? 240 then 144 else 128) <=? b) && (b <=? (if a =? 244 then 143 else 191))
                                 && continuation c && continuation d && utf8_valid l3
                             | [] => false
                             end
                    | [] => false
                    end
           | [] => false
           end
  end.

Definition text_of (l : bytes) : string := String.string_of_list_ascii (Ascii.ascii_of_N <$> l).
Definition from_utf8 (l : bytes) : option string := if utf8_valid l then Some (text_of l) else None.

(** ** Readers *)

(** [take]. *)
Definition take_bytes (n : N) (buf : bytes) : option (bytes * bytes) :=
  if N.of_nat (length buf) <? n then None
  else Some (take (N.to_nat n) buf, drop (N.to_nat n) buf).

(** [take_u16], [take_u32] and [take_u64] by their width. *)
Definition take_int (width : nat) (buf : bytes) : option (N * bytes) :=
  '(l, buf) ← take_bytes (N.of_nat width) buf; Some (little_endian l, buf).

(** [take_string]. *)
Definition take_string (buf : bytes) : option (string * bytes) :=
  '(len, buf) ← take_int 2 buf;
  '(l, buf) ← take_bytes len buf;
  s ← from_utf8 l;
  Some (s, buf).

(** A fixed magic. *)
Definition take_magic (magic : string) (buf : bytes) : option bytes :=
  '(l, buf) ← take_bytes 4 buf;
  if bool_decide (l = bytes_of magic) then Some buf else None.

(** ** Entries *)

Definition APPEND_MAGIC : string := "CLA1".
Definition LEGACY_TAIL_MAGIC : string := "CLT1".
Definition TAIL_MAGIC : string := "CLT2".
Definition ENTRY_MAGIC : string := "CLE1".

Record Entry := mkEntry {
  seq : N;
  cell : string;
  cell_epoch : N;
  txid : N;
  payload : bytes;
}.

(** [encode_entry]; [to_le_bytes] of the narrower integer truncates. *)
Definition encode_entry (e : Entry) : bytes :=
  bytes_of ENTRY_MAGIC ++ le_bytes 8 (seq e)
  ++ le_bytes 2 (N.of_nat (String.length (cell e))) ++ bytes_of (cell e)
  ++ le_bytes 8 (cell_epoch e) ++ le_bytes 8 (txid e)
  ++ le_bytes 4 (N.of_nat (length (payload e))) ++ payload e.

(** [decode_entry]. *)
Definition decode_entry (buf : bytes) : option (Entry * bytes) :=
  buf ← take_magic ENTRY_MAGIC buf;
  '(seq, buf) ← take_int 8 buf;
  '(cell, buf) ← take_string buf;
  '(cell_epoch, buf) ← take_int 8 buf;
  '(txid, buf) ← take_int 8 buf;
  '(len, buf) ← take_int 4 buf;
  '(payload, buf) ← take_bytes len buf;
  Some (mkEntry seq cell cell_epoch txid payload, buf).

(** The count and the entries that end every framed body. *)
Definition encode_entries (l : list Entry) : bytes :=
  le_bytes 4 (N.of_nat (length l)) ++ mjoin (encode_entry <$> l).

Fixpoint decode_count (count : nat) (buf : bytes) : option (list Entry * bytes) :=
  match count with
  | O => Some ([], buf)
  | S count =>
      '(e, buf) ← decode_entry buf;
      '(l, buf) ← decode_count count buf;
      Some (e :: l, buf)
  end.

(** [decode_entries]. *)
Definition decode_entries (buf : bytes) : option (list Entry) :=
  '(count, buf) ← take_int 4 buf;
  '(l, buf) ← decode_count (N.to_nat count) buf;
  if bool_decide (buf = []) then Some l else None.

(** ** Append requests *)

Record AppendReq := mkAppendReq {
  ar_leader : string;
  ar_epoch : N;
  truncate_to : N;
  ar_entries : list Entry;
}.

(** [validate_log_leader]. *)
Definition validate_log_leader (leader : string) : bool :=
  match split_once char_slash leader with
  | Some (node, generation) => Peer.valid_identity node && Peer.valid_identity generation
  | None => Peer.valid_identity leader
  end.

(** [encode_append]. *)
Definition encode_append (r : AppendReq) : bytes :=
  bytes_of APPEND_MAGIC ++ le_bytes 2 (N.of_nat (String.length (ar_leader r))) ++ bytes_of (ar_leader r)
  ++ le_bytes 8 (ar_epoch r) ++ le_bytes 8 (truncate_to r) ++ encode_entries (ar_entries r).

(** [decode_append]. *)
Definition decode_append (body : bytes) : option AppendReq :=
  buf ← take_magic APPEND_MAGIC body;
  '(leader, buf) ← take_string buf;
  if negb (validate_log_leader leader) then None
  else
    '(epoch, buf) ← take_int 8 buf;
    '(truncate_to, buf) ← take_int 8 buf;
    entries ← decode_entries buf;
    Some (mkAppendReq leader epoch truncate_to entries).

(** ** Tails *)

(** The loop of [tail_covers_sealed_range]. *)
Fixpoint covers_loop (end_ covered : N) (l : list Entry) : bool :=
  match l with
  | [] => covered =? end_
  | e :: l =>
      if seq e <=? covered then covers_loop end_ covered l
      else if negb ((covered <? u64_max) && (covered + 1 =? seq e)) then false
      else if seq e =? end_ then true
      else covers_loop end_ (seq e) l
  end.

(** [tail_covers_sealed_range]. *)
Definition tail_covers_sealed_range (base end_ : N) (l : list Entry) : bool :=
  if end_ <? base then false
  else if base =? end_ then true
  else covers_loop end_ base l.

Record TailRange := mkTailRange {
  tr_fragment_epoch : N;
  tr_base : N;
  tr_end : N;
  tr_complete : bool;
}.

Record TailResp := mkTailResp {
  tail_range : TailRange;
  tail_entries : list Entry;
}.

Inductive TailReply := Legacy (entries : list Entry) | Ranged (resp : TailResp).

(** [encode_tail_resp]. *)
Definition encode_tail_resp (r : TailResp) : bytes :=
  let range := tail_range r in
  bytes_of TAIL_MAGIC ++ le_bytes 8 (tr_fragment_epoch range) ++ le_bytes 8 (tr_base range)
  ++ le_bytes 8 (tr_end range) ++ [if tr_complete range then 1 else 0] ++ encode_entries (tail_entries r).

(** [TailWireReq::encode_response] for the layout the request names. *)
Definition encode_response (ranged : bool) (r : TailResp) : option bytes :=
  let range := tail_range r in
  if ranged then Some (encode_tail_resp r)
  else if negb (tr_fragment_epoch range =? 0) && tr_complete range
          && tail_covers_sealed_range (tr_base range) (tr_end range) (tail_entries r)
       then Some (bytes_of LEGACY_TAIL_MAGIC ++ encode_entries (tail_entries r))
       else None.

(** The completeness byte. *)
Definition take_bool (buf : bytes) : option (bool * bytes) :=
  '(l, buf) ← take_bytes 1 buf;
  match l with [0] => Some (false, buf) | [1] => Some (true, buf) | _ => None end.

(** [decode_tail_resp]. *)
Definition decode_tail_resp (body : bytes) : option TailReply :=
  '(magic, buf) ← take_bytes 4 body;
  if bool_decide (magic = bytes_of LEGACY_TAIL_MAGIC) then Legacy <$> decode_entries buf
  else if negb (bool_decide (magic = bytes_of TAIL_MAGIC)) then None
  else
    '(fragment_epoch, buf) ← take_int 8 buf;
    '(base, buf) ← take_int 8 buf;
    '(end_, buf) ← take_int 8 buf;
    if end_ <? base then None
    else
      '(complete, buf) ← take_bool buf;
      entries ← decode_entries buf;
      if complete && negb (tail_covers_sealed_range base end_ entries) then None
      else Some (Ranged (mkTailResp (mkTailRange fragment_epoch base end_ complete) entries)).

(** ** Committed batches *)

Record FollowerState := mkFollowerState {
  fs_fragment_epoch : N;
  fs_base : N;
  fs_end : N;
  fs_sealed_to : N;
}.
#[global] Instance FollowerState_eq_dec : EqDecision FollowerState.
Proof. solve_decision. Defined.

(** [FollowerState::default]. *)
Definition no_fragment : FollowerState := mkFollowerState 0 0 0 0.

Record CommittedBatch := mkCommittedBatch {
  cb_state : FollowerState;
  cb_entries : list Entry;
}.

Definition COMMITTED_BATCH_MAGIC : string := "CLB1".
Definition COMMITTED_BATCH_DIGEST_LEN : nat := 32.

(** The contiguity [decode_committed_batch] tests on adjacent entries. *)
Fixpoint contiguous (l : list Entry) : bool :=
  match l with
  | a :: ((b :: _) as rest) => (seq b =? sat_add (seq a) 1) && contiguous rest
  | _ => true
  end.

Definition first_seq (l : list Entry) : option N := seq <$> head l.
Definition last_seq (l : list Entry) : option N := seq <$> last l.

(** What [decode_committed_batch] asks of a state and its entries. *)
Definition batch_covered (s : FollowerState) (l : list Entry) : bool :=
  match first_seq l, last_seq l with
  | Some first, Some last =>
      negb ((fs_fragment_epoch s =? 0) || (fs_end s <? fs_base s) || negb (fs_end s =? last))
      && contiguous l && negb (first <=? fs_base s)
  | _, _ => false
  end.

Section digest.
Context (sha256 : bytes → bytes).

(** The bytes the digest covers. *)
Definition batch_payload (s : FollowerState) (l : list Entry) : bytes :=
  bytes_of COMMITTED_BATCH_MAGIC ++ le_bytes 8 (fs_fragment_epoch s) ++ le_bytes 8 (fs_base s)
  ++ le_bytes 8 (fs_end s) ++ le_bytes 8 (fs_sealed_to s) ++ encode_entries l.

(** [encode_committed_batch]. *)
Definition encode_committed_batch (s : FollowerState) (l : list Entry) : bytes :=
  batch_payload s l ++ sha256 (batch_payload s l).

(** [decode_committed_batch]. *)
Definition decode_committed_batch (b : bytes) : option CommittedBatch :=
  if Nat.ltb (length b) COMMITTED_BATCH_DIGEST_LEN then None
  else
    let payload_len := (length b - COMMITTED_BATCH_DIGEST_LEN)%nat in
    if negb (bool_decide (sha256 (take payload_len b) = drop payload_len b)) then None
    else
      buf ← take_magic COMMITTED_BATCH_MAGIC (take payload_len b);
      '(fragment_epoch, buf) ← take_int 8 buf;
      '(base, buf) ← take_int 8 buf;
      '(end_, buf) ← take_int 8 buf;
      '(sealed_to, buf) ← take_int 8 buf;
      entries ← decode_entries buf;
      let state := mkFollowerState fragment_epoch base end_ sealed_to in
      if batch_covered state entries then Some (mkCommittedBatch state entries) else None.
End digest.

(** ** Stream frames *)

Definition STREAM_FRAME_CAP : N := 64 * 1024 * 1024.

(** [write_frame]. *)
Definition write_frame (payload : bytes) : option bytes :=
  if u32_max <? N.of_nat (length payload) then None
  else Some (le_bytes 4 (N.of_nat (length payload)) ++ payload).

(** [take_buffered_frame]: [Ok None] waits for more bytes. *)
Definition take_buffered_frame (buf : bytes) : result (option (bytes * bytes)) unit :=
  if N.of_nat (length buf) <? 4 then Ok None
  else
    let len := little_endian (take 4 buf) in
    if STREAM_FRAME_CAP <? len then Err tt
    else if N.of_nat (length buf) <? 4 + len then Ok None
    else Ok (Some (take (N.to_nat len) (drop 4 buf), drop (4 + N.to_nat len) buf)).

(** [read_frame] from a stream that holds [io] and then ends: [Ok None] is a
    clean end. *)
Definition read_frame (io : bytes) : result (option (bytes * bytes)) unit :=
  if N.of_nat (length io) <? 4 then Ok None
  else
    let len := little_endian (take 4 io) in
    if STREAM_FRAME_CAP <? len then Err tt
    else if N.of_nat (length io) <? 4 + len then Err tt
    else Ok (Some (take (N.to_nat len) (drop 4 io), drop (4 + N.to_nat len) io)).

(** [AppendBatch]: the frames, the first of them fixing the fragment. *)
Record AppendBatch := mkAppendBatch {
  ab_first : AppendReq;
  ab_rest : list AppendReq;
}.
Definition frames (b : AppendBatch) : list AppendReq := ab_first b :: ab_rest b.

(** [AppendBatch::new] and [AppendBatch::try_push]. *)
Definition new_batch (first : AppendReq) : AppendBatch := mkAppendBatch first [].
Definition try_push (b : AppendBatch) (r : AppendReq) : result AppendBatch AppendReq :=
  if negb (bool_decide (ar_leader r = ar_leader (ab_first b))) || negb (ar_epoch r =? ar_epoch (ab_first b))
  then Err r else Ok (mkAppendBatch (ab_first b) (ab_rest b ++ [r])).

Definition SERVE_BATCH_FRAMES : nat := 64.

(** What the socket still delivers: bytes that can be read at once, or only by
    waiting for them.  After the last of them the peer has closed. *)
Inductive Arrival := Ready (chunk : bytes) | Later (chunk : bytes).
Definition chunk_of (a : Arrival) : bytes := match a with Ready c | Later c => c end.

(** The frame that heads a batch, waited for; [Ok None] is the peer closing
    between two frames. *)
Fixpoint read_head (buf : bytes) (io : list Arrival) : result (option (bytes * bytes * list Arrival)) unit :=
  match take_buffered_frame buf with
  | Err e => Err e
  | Ok (Some (frame, buf)) => Ok (Some (frame, buf, io))
  | Ok None =>
      match io with
      | [] => if bool_decide (buf = []) then Ok None else Err tt
      | a :: io => read_head (buf ++ chunk_of a) io
      end
  end.

(** The next frame that can be had without waiting. *)
Fixpoint take_delivered (buf : bytes) (io : list Arrival) : result (option bytes * bytes * list Arrival) unit :=
  match take_buffered_frame buf with
  | Err e => Err e
  | Ok (Some (frame, buf)) => Ok (Some frame, buf, io)
  | Ok None =>
      match io with
      | Ready c :: io => take_delivered (buf ++ c) io
      | _ => Ok (None, buf, io)
      end
  end.

(** The drain of a turn: the batch, and the frame it carries over. *)
Fixpoint drain_loop (room : nat) (b : AppendBatch) (buf : bytes) (io : list Arrival) :
    result (AppendBatch * option AppendReq * bytes * list Arrival) unit :=
  match room with
  | O => Ok (b, None, buf, io)
  | S room =>
      match take_delivered buf io with
      | Err e => Err e
      | Ok (None, buf, io) => Ok (b, None, buf, io)
      | Ok (Some frame, buf, io) =>
          match decode_append frame with
          | None => Err tt
          | Some r => match try_push b r with
                      | Ok b => drain_loop room b buf io
                      | Err other => Ok (b, Some other, buf, io)
                      end
          end
      end
  end.

Inductive StreamEnd := StreamClosed | StreamFailed | StreamOutOfFuel.

(** [serve_log_stream]: the batches it commits, in order, and how it ends. *)
Fixpoint serve_log_stream (fuel : nat) (carried : option AppendReq) (buf : bytes) (io : list Arrival) :
    list AppendBatch * StreamEnd :=
  match fuel with
  | O => ([], StreamOutOfFuel)
  | S fuel =>
      let turn head buf io :=
        match drain_loop (SERVE_BATCH_FRAMES - 1) (new_batch head) buf io with
        | Err _ => ([], StreamFailed)
        | Ok (b, carried, buf, io) => let '(l, end_) := serve_log_stream fuel carried buf io in (b :: l, end_)
        end in
      match carried with
      | Some head => turn head buf io
      | None =>
          match read_head buf io with
          | Err _ => ([], StreamFailed)
          | Ok None => ([], StreamClosed)
          | Ok (Some (frame, buf, io)) =>
              match decode_append frame with
              | None => ([], StreamFailed)
              | Some head => turn head buf io
              end
          end
      end
  end.

(** ** What is written is read back *)

Lemma length_bytes_of s : length (bytes_of s) = String.length s.
Proof. unfold bytes_of. rewrite length_fmap. induction s as [|c s IH]; [done|]. simpl. by rewrite IH. Qed.

Lemma text_of_bytes_of s : text_of (bytes_of s) = s.
Proof.
  unfold text_of, bytes_of. rewrite <-list_fmap_compose.
  rewrite (list_fmap_ext _ id) by (intros i x _; apply Ascii.ascii_N_embedding). rewrite list_fmap_id.
  apply String.string_of_list_ascii_of_string.
Qed.

Lemma take_bytes_app l r : take_bytes (N.of_nat (length l)) (l ++ r) = Some (l, r).
Proof.
  unfold take_bytes. rewrite length_app. destruct (N.ltb_spec (N.of_nat (length l + length r)) (N.of_nat (length l))); [lia|].
  by rewrite Nat2N.id, take_app_length, drop_app_length.
Qed.

Lemma take_bytes_is n l r : n = N.of_nat (length l) → take_bytes n (l ++ r) = Some (l, r).
Proof. intros ->. apply take_bytes_app. Qed.

Lemma take_int_app w n r : n < width_bound w → take_int w (le_bytes w n ++ r) = Some (n, r).
Proof.
  intros Hn. unfold take_int. rewrite take_bytes_is by (by rewrite length_le_bytes). simpl.
  by rewrite little_endian_le_bytes.
Qed.

Lemma take_magic_app m r : String.length m = 4%nat → take_magic m (bytes_of m ++ r) = Some r.
Proof.
  intros Hm. unfold take_magic. rewrite take_bytes_is by (by rewrite length_bytes_of, Hm). simpl.
  by rewrite bool_decide_eq_true_2.
Qed.

(** The text of a [String] that fits a sixteen-bit length. *)
Definition text_fits (s : string) : Prop := utf8_valid (bytes_of s) = true ∧ N.of_nat (String.length s) < 65536.

Lemma take_string_app s r :
  text_fits s → take_string (le_bytes 2 (N.of_nat (String.length s)) ++ bytes_of s ++ r) = Some (s, r).
Proof.
  intros [Hu Hl]. unfold take_string. rewrite take_int_app by done. simpl.
  rewrite take_bytes_is by (by rewrite length_bytes_of). simpl. unfold from_utf8. rewrite Hu. simpl. by rewrite text_of_bytes_of.
Qed.

(** Entries the format can hold. *)
Record entry_fits (e : Entry) : Prop := {
  ef_seq : seq e ≤ u64_max;
  ef_cell : text_fits (cell e);
  ef_epoch : cell_epoch e ≤ u64_max;
  ef_txid : txid e ≤ u64_max;
  ef_payload : N.of_nat (length (payload e)) ≤ u32_max;
}.

Lemma u64_width n : n ≤ u64_max → n < width_bound 8.
Proof. change (width_bound 8) with (u64_max + 1). lia. Qed.
Lemma u32_width n : n ≤ u32_max → n < width_bound 4.
Proof. change (width_bound 4) with (u32_max + 1). lia. Qed.
#[local] Hint Resolve u64_width u32_width : bytes.

Lemma decode_encode_entry e r : entry_fits e → decode_entry (encode_entry e ++ r) = Some (e, r).
Proof.
  intros [H1 H2 H3 H4 H5]. unfold decode_entry, encode_entry. rewrite <-!app_assoc.
  rewrite take_magic_app by done. cbn [mbind option_bind].
  rewrite take_int_app by auto with bytes. cbn [mbind option_bind].
  rewrite take_string_app by done. cbn [mbind option_bind].
  do 2 (rewrite take_int_app by auto with bytes; cbn [mbind option_bind]).
  rewrite take_int_app by auto with bytes. cbn [mbind option_bind].
  rewrite take_bytes_app. cbn [mbind option_bind]. by destruct e.
Qed.

Lemma decode_count_app l r :
  Forall entry_fits l → decode_count (length l) (mjoin (encode_entry <$> l) ++ r) = Some (l, r).
Proof.
  induction 1 as [|e l He _ IH]; [done|]. cbn [length decode_count]. rewrite fmap_cons. change (mjoin (?a :: ?k)) with (a ++ mjoin k).
  rewrite <-app_assoc, decode_encode_entry by done. cbn [mbind option_bind]. by rewrite IH.
Qed.

(** Lists of entries a body can count. *)
Definition entries_fit (l : list Entry) : Prop := Forall entry_fits l ∧ N.of_nat (length l) ≤ u32_max.

Lemma decode_encode_entries l : entries_fit l → decode_entries (encode_entries l) = Some l.
Proof.
  intros [Hl Hc]. unfold decode_entries, encode_entries. rewrite take_int_app by auto with bytes. cbn [mbind option_bind].
  rewrite Nat2N.id, <-(app_nil_r (mjoin _)), decode_count_app by done. done.
Qed.

Lemma append_roundtrip r :
  text_fits (ar_leader r) → validate_log_leader (ar_leader r) = true → ar_epoch r ≤ u64_max → truncate_to r ≤ u64_max →
  entries_fit (ar_entries r) → decode_append (encode_append r) = Some r.
Proof.
  intros H1 H2 H3 H4 H5. unfold decode_append, encode_append. rewrite take_magic_app by done. cbn [mbind option_bind].
  rewrite take_string_app by done. cbn [mbind option_bind]. rewrite H2. cbn [negb].
  do 2 (rewrite take_int_app by auto with bytes; cbn [mbind option_bind]).
  rewrite decode_encode_entries by done. by destruct r.
Qed.

(** The ranges a follower sends. *)
Record tail_fits (r : TailResp) : Prop := {
  tf_epoch : tr_fragment_epoch (tail_range r) ≤ u64_max;
  tf_end : tr_end (tail_range r) ≤ u64_max;
  tf_base : tr_base (tail_range r) ≤ tr_end (tail_range r);
  tf_entries : entries_fit (tail_entries r);
  tf_complete : tr_complete (tail_range r) = true →
    tail_covers_sealed_range (tr_base (tail_range r)) (tr_end (tail_range r)) (tail_entries r) = true;
}.

Lemma tail_roundtrip r : tail_fits r → decode_tail_resp (encode_tail_resp r) = Some (Ranged r).
Proof.
  intros [H1 H2 H3 H4 H5]. unfold decode_tail_resp, encode_tail_resp. rewrite take_bytes_is by done. cbn [mbind option_bind].
  rewrite bool_decide_eq_false_2 by done. rewrite bool_decide_eq_true_2 by done. cbn [negb].
  do 3 (rewrite take_int_app by (auto with bytes || (apply u64_width; lia)); cbn [mbind option_bind]).
  destruct (N.ltb_spec (tr_end (tail_range r)) (tr_base (tail_range r))); [lia|].
  unfold take_bool. rewrite (take_bytes_is 1) by done. cbn [mbind option_bind].
  destruct r as [[e b en []] l]; cbn [tail_range tail_entries tr_complete tr_base tr_end tr_fragment_epoch mbind option_bind] in *;
    rewrite decode_encode_entries by done; cbn [mbind option_bind andb negb]; [by rewrite H5|done].
Qed.

Lemma decode_committed_covered sha256 c b :
  decode_committed_batch sha256 c = Some b → batch_covered (cb_state b) (cb_entries b) = true.
Proof.
  unfold decode_committed_batch. do 2 (case_match; [done|]).
  destruct (take_magic _ _) as [b0|]; [|done]. cbn [mbind option_bind].
  destruct (take_int 8 b0) as [[n1 b1]|]; [|done]. cbn [mbind option_bind].
  destruct (take_int 8 b1) as [[n2 b2]|]; [|done]. cbn [mbind option_bind].
  destruct (take_int 8 b2) as [[n3 b3]|]; [|done]. cbn [mbind option_bind].
  destruct (take_int 8 b3) as [[n4 b4]|]; [|done]. cbn [mbind option_bind].
  destruct (decode_entries b4) as [l|]; [|done]. cbn [mbind option_bind]. destruct (batch_covered _ l) eqn:E; [|done].
  by intros [= <-].
Qed.

Lemma batch_roundtrip sha256 s l :
  (∀ b, length (sha256 b) = COMMITTED_BATCH_DIGEST_LEN) →
  fs_fragment_epoch s ≤ u64_max → fs_end s ≤ u64_max → fs_base s ≤ fs_end s → fs_sealed_to s ≤ u64_max → entries_fit l →
  decode_committed_batch sha256 (encode_committed_batch sha256 s l) =
  if batch_covered s l then Some (mkCommittedBatch s l) else None.
Proof.
  intros Hd H1 H2 H3 H4 H5. unfold decode_committed_batch, encode_committed_batch. set (p := batch_payload s l).
  rewrite length_app, Hd. destruct (Nat.ltb_spec (length p + COMMITTED_BATCH_DIGEST_LEN) COMMITTED_BATCH_DIGEST_LEN); [lia|].
  replace (length p + COMMITTED_BATCH_DIGEST_LEN - COMMITTED_BATCH_DIGEST_LEN)%nat with (length p) by lia.
  rewrite take_app_length, drop_app_length, bool_decide_eq_true_2 by done. cbn [negb]. unfold p, batch_payload.
  rewrite take_magic_app by done. cbn [mbind option_bind].
  do 4 (rewrite take_int_app by (auto with bytes || (apply u64_width; lia)); cbn [mbind option_bind]).
  rewrite decode_encode_entries by done. cbn [mbind option_bind]. by destruct s.
Qed.

(** ** Streams *)

(** A request that fits a frame. *)
Record sendable (r : AppendReq) : Prop := {
  sd_leader : text_fits (ar_leader r);
  sd_valid : validate_log_leader (ar_leader r) = true;
  sd_epoch : ar_epoch r ≤ u64_max;
  sd_truncate : truncate_to r ≤ u64_max;
  sd_entries : entries_fit (ar_entries r);
  sd_cap : N.of_nat (length (encode_append r)) ≤ STREAM_FRAME_CAP;
}.

Definition frame_bytes (r : AppendReq) : bytes := default [] (write_frame (encode_append r)).
(** What a leader sent: whole frames, then bytes that are no frame yet. *)
Definition stream (l : list AppendReq) (rest : bytes) : bytes := mjoin (frame_bytes <$> l) ++ rest.
Definition pending (rest : bytes) : Prop := take_buffered_frame rest = Ok None.

Lemma sendable_decodes r : sendable r → decode_append (encode_append r) = Some r.
Proof. intros []. by apply append_roundtrip. Qed.

Lemma frame_bytes_eq r : sendable r → frame_bytes r = le_bytes 4 (N.of_nat (length (encode_append r))) ++ encode_append r.
Proof.
  intros [_ _ _ _ _ H]. unfold frame_bytes, write_frame. rewrite (proj2 (N.ltb_ge _ _)); [done|]. unfold STREAM_FRAME_CAP, u32_max in *. lia.
Qed.

(** A buffer that begins with the header of a frame. *)
Lemma take_buffered_header n buf rest l :
  n ≤ STREAM_FRAME_CAP → buf ++ rest = le_bytes 4 n ++ l →
  take_buffered_frame buf = if N.of_nat (length buf) <? 4 + n then Ok None else Ok (Some (take (N.to_nat n) (drop 4 buf), drop (4 + N.to_nat n) buf)).
Proof.
  intros Hn E. unfold take_buffered_frame. destruct (N.ltb_spec (N.of_nat (length buf)) 4).
  { by rewrite (proj2 (N.ltb_lt _ _)) by lia. }
  assert (length (le_bytes 4 n) = 4%nat) as Hl by apply length_le_bytes.
  assert (take 4 buf = le_bytes 4 n) as ->.
  { apply (f_equal (take 4)) in E. rewrite take_app_le in E by lia. by rewrite <-Hl in E at 2; rewrite take_app_length in E. }
  rewrite little_endian_le_bytes by (change (width_bound 4) with 4294967296; unfold STREAM_FRAME_CAP in Hn; lia).
  by rewrite (proj2 (N.ltb_ge _ _)) by done.
Qed.

(** The frame a buffer begins with is taken once it is whole. *)
Lemma take_buffered_sent r buf rest l :
  sendable r → buf ++ rest = frame_bytes r ++ l →
  take_buffered_frame buf = Ok None ∧ (rest = [] → False) ∨
  ∃ buf', take_buffered_frame buf = Ok (Some (encode_append r, buf')) ∧ buf' ++ rest = l.
Proof.
  intros Hr E. rewrite (frame_bytes_eq _ Hr), <-app_assoc in E. set (p := encode_append r) in *.
  rewrite (take_buffered_header _ _ _ _ (sd_cap _ Hr) E). fold p. assert (length (le_bytes 4 (N.of_nat (length p))) = 4%nat) as Hl by apply length_le_bytes.
  destruct (N.ltb_spec (N.of_nat (length buf)) (4 + N.of_nat (length p))) as [Hlt|Hge].
  - left. split; [done|]. intros ->. rewrite app_nil_r in E. apply (f_equal length) in E. rewrite !length_app, Hl in E. lia.
  - right. rewrite Nat2N.id. rewrite app_assoc in E. assert (buf = (le_bytes 4 (N.of_nat (length p)) ++ p) ++ drop (4 + length p) buf) as Eb.
    { rewrite <-(take_drop (4 + length p) buf) at 1. f_equal. apply (f_equal (take (4 + length p))) in E. rewrite take_app_le in E by lia.
      rewrite E. apply take_app_length'. rewrite length_app. lia. }
    exists (drop (4 + length p) buf). split.
    + rewrite Eb at 1. rewrite <-app_assoc, <-Hl at 1. rewrite drop_app_length, take_app_length. done.
    + rewrite Eb, <-app_assoc in E. by apply app_inv_head in E.
Qed.

Lemma take_buffered_pending buf rest l : pending l → buf ++ rest = l → take_buffered_frame buf = Ok None.
Proof.
  unfold pending, take_buffered_frame. intros H <-. rewrite length_app in H. destruct (N.ltb_spec (N.of_nat (length buf)) 4); [done|].
  destruct (N.ltb_spec (N.of_nat (length buf + length rest)) 4); [lia|]. rewrite take_app_le in H by lia.
  destruct (STREAM_FRAME_CAP <? _); [done|]. destruct (N.ltb_spec (N.of_nat (length buf + length rest)) (4 + little_endian (take 4 buf))); [|done].
  by rewrite (proj2 (N.ltb_lt _ _)) by lia.
Qed.

Definition undelivered (io : list Arrival) : bytes := mjoin (chunk_of <$> io).

Lemma stream_cons r l rest : stream (r :: l) rest = frame_bytes r ++ stream l rest.
Proof. unfold stream. cbn. by rewrite <-app_assoc. Qed.

(** The socket and the buffer hold the stream [l], [rest]. *)
Abbreviation holds_stream buf io l rest := (buf ++ undelivered io = stream l rest).

Lemma arrival_shift buf a io : buf ++ undelivered (a :: io) = (buf ++ chunk_of a) ++ undelivered io.
Proof. unfold undelivered. cbn. by rewrite app_assoc. Qed.

Lemma read_head_end buf io rest :
  pending rest → holds_stream buf io [] rest → read_head buf io = if bool_decide (rest = []) then Ok None else Err tt.
Proof.
  intros Hp. unfold stream. cbn [fmap list_fmap mjoin list_join app]. revert buf.
  induction io as [|a io IH]; intros buf E; cbn [read_head]; rewrite (take_buffered_pending _ _ _ Hp E).
  - unfold undelivered in E. cbn in E. rewrite app_nil_r in E. by subst.
  - apply IH. by rewrite <-arrival_shift.
Qed.

Lemma read_head_sent r l rest buf io :
  sendable r → holds_stream buf io (r :: l) rest →
  ∃ buf' io', read_head buf io = Ok (Some (encode_append r, buf', io')) ∧ holds_stream buf' io' l rest.
Proof.
  intros Hr. revert buf. induction io as [|a io IH]; intros buf E; rewrite stream_cons in E; cbn [read_head];
    destruct (take_buffered_sent r buf _ _ Hr E) as [[-> Hne]|(buf' & -> & E')].
  - by destruct Hne.
  - by eexists _, _.
  - apply IH. by rewrite <-arrival_shift, stream_cons.
  - by eexists _, _.
Qed.

Lemma take_delivered_spec l rest buf io :
  Forall sendable l → pending rest → holds_stream buf io l rest →
  ∃ buf' io', take_delivered buf io = Ok (None, buf', io') ∧ holds_stream buf' io' l rest ∨
    ∃ r l', l = r :: l' ∧ take_delivered buf io = Ok (Some (encode_append r), buf', io') ∧ holds_stream buf' io' l' rest.
Proof.
  intros Hl Hp. revert buf. induction io as [|a io IH]; intros buf E; cbn [take_delivered].
  all: assert (take_buffered_frame buf = Ok None ∨ ∃ r l' buf', l = r :: l' ∧ take_buffered_frame buf = Ok (Some (encode_append r, buf'))
    ∧ buf' ++ undelivered _ = stream l' rest) as [->|(r & l' & buf' & -> & -> & E')]
    by (destruct l as [|r l]; [left; by eapply take_buffered_pending|]; apply Forall_cons in Hl as [Hr _]; rewrite stream_cons in E;
        destruct (take_buffered_sent _ _ _ _ Hr E) as [[-> _]|(buf' & -> & E')]; [by left|right; by eexists _, _, _]).
  - eexists _, _. by left.
  - eexists _, _. right. by eexists _, _.
  - destruct a as [c|c]; [|eexists _, _; by left]. apply IH. by rewrite arrival_shift in E.
  - eexists _, _. right. by eexists _, _.
Qed.

(** One fragment, and no more frames than a commit may carry. *)
Definition one_fragment (b : AppendBatch) : Prop :=
  Forall (λ r, ar_leader r = ar_leader (ab_first b) ∧ ar_epoch r = ar_epoch (ab_first b)) (frames b).

Lemma try_push_spec b r :
  one_fragment b → (∃ b', try_push b r = Ok b' ∧ frames b' = frames b ++ [r] ∧ one_fragment b') ∨ try_push b r = Err r.
Proof.
  intros Hb. unfold try_push. destruct (bool_decide_reflect (ar_leader r = ar_leader (ab_first b))) as [El|]; [|by right].
  destruct (N.eqb_spec (ar_epoch r) (ar_epoch (ab_first b))) as [Ee|]; [|by right]. left. eexists. split; [done|]. split; [done|].
  unfold one_fragment, frames in *. cbn [ab_first ab_rest]. rewrite app_comm_cons. apply Forall_app. split; [done|by constructor].
Qed.

Lemma drain_spec room l rest b buf io :
  Forall sendable l → pending rest → one_fragment b → holds_stream buf io l rest →
  ∃ b' carried l' buf' io', drain_loop room b buf io = Ok (b', carried, buf', io')
    ∧ frames b' ++ option_list carried ++ l' = frames b ++ l ∧ holds_stream buf' io' l' rest
    ∧ one_fragment b' ∧ (length (frames b') ≤ length (frames b) + room)%nat.
Proof.
  revert l b buf io. induction room as [|room IH]; intros l b buf io Hl Hp Hb E; cbn [drain_loop].
  { eexists b, None, l, _, _. split; [done|]. split; [done|]. split; [done|]. split; [done|lia]. }
  destruct (take_delivered_spec l rest buf io Hl Hp E) as (buf' & io' & [[-> E']|(r & l' & -> & -> & E')]).
  { eexists b, None, l, _, _. split; [done|]. split; [done|]. split; [done|]. split; [done|lia]. }
  apply Forall_cons in Hl as [Hr Hl]. rewrite (sendable_decodes _ Hr).
  destruct (try_push_spec b r Hb) as [(b1 & -> & Hf & Hb1)| ->].
  - destruct (IH l' b1 buf' io' Hl Hp Hb1 E') as (b' & carried & l2 & buf2 & io2 & -> & H1 & H2 & H3 & H4).
    eexists b', carried, l2, _, _. split; [done|]. rewrite H1, Hf, <-app_assoc. split; [done|]. split; [done|]. split; [done|].
    rewrite Hf, length_app in H4. change (length [r]) with 1%nat in H4. lia.
  - eexists b, (Some r), l', _, _. split; [done|]. split; [done|]. split; [done|]. split; [done|lia].
Qed.

Lemma serve_spec fuel carried l rest buf io :
  Forall sendable l → pending rest → holds_stream buf io l rest → (length (option_list carried ++ l) < fuel)%nat →
  ∃ bs, serve_log_stream fuel carried buf io = (bs, if bool_decide (rest = []) then StreamClosed else StreamFailed)
    ∧ mjoin (frames <$> bs) = option_list carried ++ l
    ∧ Forall (λ b, one_fragment b ∧ (length (frames b) ≤ SERVE_BATCH_FRAMES)%nat) bs.
Proof.
  revert carried l buf io. induction fuel as [|fuel IH]; intros carried l buf io Hl Hp E Hfuel; [lia|]. cbn [serve_log_stream].
  set (turn := λ head buf io, match drain_loop (SERVE_BATCH_FRAMES - 1) (new_batch head) buf io with
    | Ok (b, carried, buf, io) => let '(l, end_) := serve_log_stream fuel carried buf io in (b :: l, end_) | Err _ => ([], StreamFailed) end).
  assert (∀ head l' buf' io', Forall sendable l' → holds_stream buf' io' l' rest → (length (head :: l') < S fuel)%nat →
    ∃ bs, turn head buf' io' = (bs, if bool_decide (rest = []) then StreamClosed else StreamFailed)
    ∧ mjoin (frames <$> bs) = head :: l' ∧ Forall (λ b, one_fragment b ∧ (length (frames b) ≤ SERVE_BATCH_FRAMES)%nat) bs) as Hturn.
  { intros head l' buf' io' Hl' E' Hlen. assert (one_fragment (new_batch head)) as Hb by (by repeat constructor).
    destruct (drain_spec (SERVE_BATCH_FRAMES - 1) l' rest (new_batch head) buf' io' Hl' Hp Hb E')
      as (b & c & l2 & buf2 & io2 & Ed & H1 & H2 & H3 & H4). change (frames (new_batch head)) with [head] in H1, H4. cbn [length app] in H1, H4, Hlen.
    assert (length (frames b) + length (option_list c ++ l2) = S (length l'))%nat as Hsum by (rewrite <-length_app, H1; done).
    assert (Forall sendable l2) as Hl2.
    { destruct b as [f k]. unfold frames in H1. cbn in H1. injection H1 as _ H1. rewrite <-H1 in Hl'. apply Forall_app in Hl' as [_ Hl'].
      by apply Forall_app in Hl' as [_ ?]. }
    destruct (IH c l2 buf2 io2 Hl2 Hp H2) as (bs & Es & Hj & Hf).
    { change (length (frames b)) with (S (length (ab_rest b))) in Hsum. lia. }
    exists (b :: bs). unfold turn. rewrite Ed, Es. split; [done|]. split; [|constructor; [split; [done|unfold SERVE_BATCH_FRAMES in *; lia]|done]].
    rewrite fmap_cons. change (mjoin (?a :: ?k)) with (a ++ mjoin k). by rewrite Hj. }
  destruct carried as [head|]; [exact (Hturn head l buf io Hl E Hfuel)|]. destruct l as [|r l].
  - rewrite (read_head_end _ _ _ Hp E). exists []. by case_bool_decide.
  - apply Forall_cons in Hl as [Hr Hl]. destruct (read_head_sent _ _ _ _ _ Hr E) as (buf' & io' & -> & E').
    rewrite (sendable_decodes _ Hr). exact (Hturn r l buf' io' Hl E' Hfuel).
Qed.


Definition sample_request (epoch n : N) : AppendReq := mkAppendReq "leader" epoch 0 [mkEntry n "cell" epoch n [n]].
Definition sample_stream : bytes := stream [sample_request 1 1; sample_request 1 2; sample_request 2 1] [5; 0].

Lemma sample_sendable epoch n : epoch ≤ u64_max → n ≤ u64_max → sendable (sample_request epoch n).
Proof.
  intros He Hn. split; cbn [sample_request ar_leader ar_epoch truncate_to ar_entries]; try done.
  split; [|done]. repeat constructor; cbn; done.
Qed.


(** A header cut short is taken for a close between two frames, where a body
    cut short is an error. *)
Lemma read_frame_short_header header : (length header < 4)%nat → read_frame header = Ok None.
Proof. intros H. unfold read_frame. by rewrite (proj2 (N.ltb_lt _ _)) by lia. Qed.
End Wire.
