(* ===== verification/Follower.v ===== *)
(** * The follower's fragment of a node log

    Models [FollowerStore] of [crates/celld/node_log.rs] for one leader: the
    committed batches on disk, the state a process recovers from them, appends,
    seals, tails, adoption of a new epoch and fragment collection.

    The disk is what a reader sees, what has been made durable, and which files
    hold bytes that were not synced.  Every file-system call can fail, at the
    point the fault of the step names; when the machine stops, what was not
    synced can be kept, lost or torn.  A torn write has no valid digest, and a
    file that was synced keeps its bytes and can be read.

    The leader gives each sequence of an epoch one entry, and asks a follower to
    drop only what the bucket holds.  Under that contract, whatever an answer
    reported durable is in every later tail of the fragment until the log record
    closes its epoch. *)

From Stdlib Require Import ZifyN ZifyNat.
From S2P Require Import Prelude Bytes Text LogTier LogWire.
Import Wire.

Module Follower.

(** ** The directory of a leader *)

(** The name of a batch. *)
Definition batch_name (first last : N) : string := radix 10 first +:+ "-" +:+ radix 10 last +:+ ".batch".

(** [follower_batch_range]. *)
Definition follower_batch_range (name suffix : string) : option (N * N) :=
  stem ← strip_suffix suffix name;
  '(first, last) ← split_once char_dash stem;
  first ← parse_unsigned 10 u64_max first;
  last ← parse_unsigned 10 u64_max last;
  Some (first, last).

Definition ends_with (suffix name : string) : bool := is_some (strip_suffix suffix name).

Abbreviation Files := (gmap string bytes).

(** [state.json], [None] where it is absent, and the other files. *)
Record Disk := mkDisk {
  state_file : option FollowerState;
  files : Files;
  (** the directory exists *)
  dir_exists : bool;
}.

Inductive SuspectEnd := Known (end_ : N) | Unknown.

Record DiskRecoveryGap := mkGap {
  gap_fragment_epoch : N;
  suspect_end : SuspectEnd;
}.

Record LoadedFollowerState := mkLoaded {
  ld_state : FollowerState;
  disk_recovery_gap : option DiskRecoveryGap;
}.

Record CommittedBatchScan := mkScan {
  sc_batches : list CommittedBatch;
  unreadable_ranges : list (N * N);
  unknown_unreadable_range : bool;
}.

Definition no_scan : CommittedBatchScan := mkScan [] [] false.

Definition batch_first (b : CommittedBatch) : N := default 0 (first_seq (cb_entries b)).
Definition batch_last (b : CommittedBatch) : N := default 0 (last_seq (cb_entries b)).

Section store.
Context (sha256 : bytes → bytes) (readdir : Files → list (string * bytes)).

(** One directory item in [scan_committed_batches]. *)
Definition scan_item (item : string * bytes) (s : CommittedBatchScan) : CommittedBatchScan :=
  let '(name, content) := item in
  let unknown := mkScan (sc_batches s) (unreadable_ranges s) true in
  if negb (ends_with ".batch" name) then s
  else match follower_batch_range name ".batch" with
       | None => unknown
       | Some (first, last) =>
           if last <? first then unknown
           else
             let unreadable := mkScan (sc_batches s) (unreadable_ranges s ++ [(first, last)]) (unknown_unreadable_range s) in
             match decode_committed_batch sha256 content with
             | Some b =>
                 if bool_decide (first_seq (cb_entries b) = Some first) && bool_decide (last_seq (cb_entries b) = Some last)
                 then mkScan (sc_batches s ++ [b]) (unreadable_ranges s) (unknown_unreadable_range s)
                 else unreadable
             | None => unreadable
             end
       end.

(** [scan_committed_batches]. *)
Definition scan_committed_batches (m : Files) : CommittedBatchScan :=
  let s := foldl (λ s item, scan_item item s) no_scan (readdir m) in
  mkScan (sort_by (λ a b, N.compare (batch_first a) (batch_first b)) (sc_batches s))
    (unreadable_ranges s) (unknown_unreadable_range s).

(** [CommittedBatchScan::recovery_gap]. *)
Definition recovery_gap (sc : CommittedBatchScan) (s : FollowerState) : option DiskRecoveryGap :=
  if fs_fragment_epoch s =? 0 then None
  else if unknown_unreadable_range sc then Some (mkGap (fs_fragment_epoch s) Unknown)
  else
    let ends := (fs_end ∘ cb_state <$> filter (λ b, fs_fragment_epoch (cb_state b) = fs_fragment_epoch s) (sc_batches sc))
                ++ (snd <$> unreadable_ranges sc) in
    match ends with
    | [] => None
    | x :: l =>
        let suspect := foldl N.max x l in
        if fs_end s <? suspect then Some (mkGap (fs_fragment_epoch s) (Known suspect)) else None
    end.

(** The inner loop of [recover_committed_state]: how far the batches reach
    without a gap. *)
Fixpoint cover_loop (covered : N) (batches : list CommittedBatch) : N :=
  match batches with
  | [] => covered
  | b :: rest =>
      if batch_last b <=? covered then cover_loop covered rest
      else if sat_add covered 1 <? batch_first b then covered
      else cover_loop (N.max covered (batch_last b)) rest
  end.

(** [recover_committed_state]. *)
Definition recover_committed_state (seed : FollowerState) (batches : list CommittedBatch) : FollowerState :=
  if fs_fragment_epoch seed =? 0 then seed
  else
    let of_epoch := filter (λ b, fs_fragment_epoch (cb_state b) = fs_fragment_epoch seed) batches in
    let candidates := sort_by (λ a b, N.compare (fs_end (cb_state b)) (fs_end (cb_state a)))
                        (filter (λ b, fs_end seed < fs_end (cb_state b)) of_epoch) in
    match find_first (λ c : CommittedBatch,
            fs_end (cb_state c) <=? cover_loop (N.max (fs_end seed) (fs_base (cb_state c))) of_epoch) candidates with
    | Some c => mkFollowerState (fs_fragment_epoch seed) (N.max (fs_base seed) (fs_base (cb_state c)))
                  (fs_end (cb_state c)) (N.max (fs_sealed_to seed) (fs_sealed_to (cb_state c)))
    | None => seed
    end.

(** What [load] finds on a disk. *)
Definition recovered (d : Disk) : LoadedFollowerState :=
  let sc := scan_committed_batches (files d) in
  let s := recover_committed_state (default no_fragment (state_file d)) (sc_batches sc) in
  mkLoaded s (recovery_gap sc s).

(** ** The process and its disk *)

Record Store := mkStore {
  live : Disk;
  durable : Disk;
  unsynced : gset string;
  (** the entry of [logs] *)
  loaded : option LoadedFollowerState;
}.

Definition set_live (d : Disk) (w : Store) : Store := mkStore d (durable w) (unsynced w) (loaded w).
Definition set_loaded (l : option LoadedFollowerState) (w : Store) : Store := mkStore (live w) (durable w) (unsynced w) l.

(** A directory sync that succeeds. *)
Definition sync_directory (w : Store) : Store := mkStore (live w) (live w) (unsynced w) (loaded w).

(** [load]; [scan_ok] is whether the directory could be listed. *)
Definition load (scan_ok : bool) (w : Store) : option FollowerState * Store :=
  match loaded w with
  | Some l => (Some (ld_state l), w)
  | None => if scan_ok then let l := recovered (live w) in (Some (ld_state l), set_loaded (Some l) w) else (None, w)
  end.

(** [cache_state]. *)
Definition cache_state (s : FollowerState) (w : Store) : Store :=
  let gap := l ← loaded w; g ← disk_recovery_gap l;
             if (gap_fragment_epoch g =? fs_fragment_epoch s)
                && negb (match suspect_end g with Known end_ => end_ <=? fs_end s | Unknown => false end)
             then Some g else None in
  set_loaded (Some (mkLoaded s gap)) w.

(** How far a [persist] gets. *)
Inductive PersistFault := PersistOk | PersistUnsynced | PersistFailed (dir_made : bool).

(** [create_dir_all]. *)
Definition make_dir (w : Store) : Store := set_live (mkDisk (state_file (live w)) (files (live w)) true) w.

(** [persist_timed]: the new state replaces the file whole; then the directory
    is synced. *)
Definition persist (fault : PersistFault) (s : FollowerState) (w : Store) : bool * Store :=
  let renamed := set_live (mkDisk (Some s) (files (live w)) true) w in
  match fault with
  | PersistFailed dir_made => (false, if dir_made then make_dir w else w)
  | PersistUnsynced => (false, renamed)
  | PersistOk => (true, cache_state s (sync_directory renamed))
  end.

(** The files [remove_entries_below] deletes. *)
Definition below (seq : N) (name : string) : bool :=
  match strip_suffix ".entry" name with
  | Some stem => is_some_and (λ s, s <=? seq) (parse_unsigned 10 u64_max stem)
  | None =>
      match strip_suffix ".entries" name with
      | Some stem => is_some_and (λ last, last <=? seq)
                       (r ← split_once char_dash stem; parse_unsigned 10 u64_max r.2)
      | None => is_some_and (λ r, r.2 <=? seq) (follower_batch_range name ".batch")
      end
  end.

(** [remove_entries_below]: of those, the ones deleted before an error; [None]
    where the directory could not be listed. *)
Definition remove_entries_below (seq : N) (deletes : option (string → bool)) (w : Store) : bool * Store :=
  match deletes with
  | None => (false, w)
  | Some deletes =>
      let doomed name := below seq name && deletes name in
      let m := files (live w) in
      (bool_decide (map_Forall (λ name _, below seq name = true → deletes name = true) m),
       set_live (mkDisk (state_file (live w)) (filter (λ f, doomed f.1 = false) m) (dir_exists (live w))) w)
  end.

(** ** Appends *)

Record AppendResp := mkAppendResp {
  resp_ok : bool;
  resp_end : N;
  resp_epoch : N;
}.

Definition refusal (s : FollowerState) : AppendResp := mkAppendResp false (fs_end s) (fs_fragment_epoch s).

Definition log_of (s : FollowerState) : FollowerLog :=
  mkFollowerLog (fs_fragment_epoch s) (fs_base s) (fs_end s) (fs_sealed_to s).
Definition state_of (l : FollowerLog) : FollowerState :=
  mkFollowerState (fragment_epoch l) (fl_base l) (fl_end l) (sealed_to l).

(** What can go wrong in an adoption: reading the record, deleting the old
    files, persisting the new state. *)
Record AdoptFault := mkAdoptFault {
  record_read : bool;
  af_deletes : option (string → bool);
  af_persist : PersistFault;
}.

(** [adopt] against the log record, which may be absent. *)
Definition adopt (node : string) (record : option LogRecord) (fault : AdoptFault) (epoch first : N) (w : Store) : bool * Store :=
  match (if record_read fault then record else None) with
  | None => (false, w)
  | Some r =>
      match load true w with
      | (None, w) => (false, w)
      | (Some s, w) =>
          if negb (lr_epoch r =? epoch) || negb (bool_decide (lr_state r = LogOpen))
             || negb (bool_decide (node ∈ lr_ensemble r)) || (epoch <=? fs_sealed_to s) || negb (first =? 1)
          then (false, w)
          else match remove_entries_below u64_max (af_deletes fault) w with
               | (false, w) => (false, w)
               | (true, w) =>
                   persist (af_persist fault)
                     (mkFollowerState epoch (sat_sub first 1) (sat_sub first 1) (fs_sealed_to s)) w
               end
      end
  end.

(** The entries of one frame that the log accepts, and whether all of them. *)
Fixpoint accept_entries (epoch : N) (l : list Entry) (log : FollowerLog) : list Entry * FollowerLog * bool :=
  match l with
  | [] => ([], log, true)
  | e :: l =>
      match accept_append log epoch (seq e) with
      | (false, log) => ([], log, false)
      | (true, log) => let '(accepted, log, all) := accept_entries epoch l log in (e :: accepted, log, all)
      end
  end.

(** The loop over the frames of a batch. *)
Fixpoint accept_frames (epoch : N) (l : list AppendReq) (log : FollowerLog) : list Entry * FollowerLog :=
  match l with
  | [] => ([], log)
  | r :: l =>
      if is_none_or (λ last, last <=? fl_end log) (last_seq (ar_entries r)) then accept_frames epoch l log
      else match accept_entries epoch (ar_entries r) log with
           | (accepted, log, false) => (accepted, log)
           | (accepted, log, true) => let '(more, log) := accept_frames epoch l log in (accepted ++ more, log)
           end
  end.

(** The state a batch commits: what the log accepted, with the base raised to
    the newest watermark below the first accepted entry. *)
Definition committed_state (l : list AppendReq) (accepted : list Entry) (log : FollowerLog) : FollowerState :=
  let watermark := foldl N.max 0 (truncate_to <$> l) in
  let watermark := match first_seq accepted with Some first => N.min watermark (sat_sub first 1) | None => watermark end in
  state_of (if 0 <? watermark then truncate log (N.min watermark (fl_end log)) else log).

(** How far the write of a batch gets: nothing left or a torn file, the bytes
    not synced, the name not synced, or done. *)
Inductive WriteFault := WriteTorn (content : option bytes) | WriteUnsynced | WriteUnlinked | WriteOk.

(** The write of a committed batch. *)
Definition write_batch (fault : WriteFault) (s : FollowerState) (accepted : list Entry) (w : Store) : bool * Store :=
  let name := batch_name (default 0 (first_seq accepted)) (default 0 (last_seq accepted)) in
  let put content := mkDisk (state_file (live w)) (<[name := content]> (files (live w))) true in
  let whole := put (encode_committed_batch sha256 s accepted) in
  match fault with
  | WriteTorn None => (false, w)
  | WriteTorn (Some content) => (false, mkStore (put content) (durable w) ({[name]} ∪ unsynced w) (loaded w))
  | WriteUnsynced => (false, mkStore whole (durable w) ({[name]} ∪ unsynced w) (loaded w))
  | WriteUnlinked => (false, mkStore whole (durable w) (unsynced w ∖ {[name]}) (loaded w))
  | WriteOk => (true, sync_directory (mkStore whole (durable w) (unsynced w ∖ {[name]}) (loaded w)))
  end.

(** What can go wrong in an append. *)
Record AppendFault := mkAppendFault {
  scan_ok : bool;
  adopt_fault : AdoptFault;
  mkdir_ok : bool;
  write_fault : WriteFault;
  deletes : option (string → bool);
  persist_fault : PersistFault;
}.

(** The end of [append_batch], once the fragment is the batch's: the commit and
    the answers. *)
Definition commit_batch (fault : AppendFault) (b : AppendBatch) (s : FollowerState) (w : Store) : list AppendResp * Store :=
  let refusals := (λ _, refusal s) <$> frames b in
  if negb (mkdir_ok fault) then (refusals, w)
  else
    let w := make_dir w in
    let '(accepted, log) := accept_frames (ar_epoch (ab_first b)) (frames b) (log_of s) in
    let new := committed_state (frames b) accepted log in
    let '(ok, w) :=
      if bool_decide (accepted = []) then
        if bool_decide (new = s) then (true, w) else persist (persist_fault fault) new w
      else match write_batch (write_fault fault) new accepted w with
           | (false, w) => (false, w)
           | (true, w) => (true, (remove_entries_below (fs_base new) (deletes fault) (cache_state new w)).2)
           end in
    if ok
    then ((λ r, mkAppendResp (default (fs_end new) (last_seq (ar_entries r)) <=? fs_end new) (fs_end new)
                  (fs_fragment_epoch new)) <$> frames b, w)
    else (refusals, w).

(** [append_batch]. *)
Definition append_batch (node : string) (record : option LogRecord) (fault : AppendFault) (b : AppendBatch) (w : Store) :
    list AppendResp * Store :=
  let epoch := ar_epoch (ab_first b) in
  let entries := mjoin (ar_entries <$> frames b) in
  match load (scan_ok fault) w with
  | (None, w) => ((λ _, refusal no_fragment) <$> frames b, w)
  | (Some s, w) =>
      if negb (fs_fragment_epoch s =? epoch) then
        if bool_decide (entries = []) then ((λ _, refusal s) <$> frames b, w)
        else match adopt node record (adopt_fault fault) epoch (default 0 (first_seq entries)) w with
             | (false, w) => ((λ _, refusal s) <$> frames b, w)
             | (true, w) =>
                 match load true w with
                 | (None, w) => ((λ _, refusal s) <$> frames b, w)
                 | (Some s, w) => commit_batch fault b s w
                 end
             end
      else commit_batch fault b s w
  end.

(** ** Tails and seals *)

(** A directory item in [read_tail] that is not a committed batch: entries of
    the former layouts, and whether the retained range may still be complete. *)
Fixpoint decode_run (fuel : nat) (base end_ next : N) (buf : bytes) : list Entry * bool :=
  match fuel, buf with
  | _, [] => ([], true)
  | O, _ => ([], true)
  | S fuel, _ =>
      match decode_entry buf with
      | Some (e, buf) =>
          let '(l, ok) := decode_run fuel base end_ (wrap_add (seq e) 1) buf in
          ((if base <? seq e then [e] else []) ++ l, ok)
      | None => ([], negb ((base <? next) && (next <=? end_)))
      end
  end.

Definition legacy_item (base end_ : N) (item : string * bytes) : list Entry * bool :=
  let '(name, content) := item in
  match strip_suffix ".entry" name with
  | Some stem =>
      match parse_unsigned 10 u64_max stem with
      | None => ([], false)
      | Some sequence =>
          let unretained := negb ((base <? sequence) && (sequence <=? end_)) in
          match decode_entry content with
          | Some (e, _) => if negb (seq e =? sequence) then ([], unretained)
                           else (if base <? seq e then [e] else [], true)
          | None => ([], unretained)
          end
      end
  | None =>
      if ends_with ".entries" name then
        match follower_batch_range name ".entries" with
        | Some (first, last) => if last <? first then ([], false) else decode_run (length content) base end_ first content
        | None => ([], false)
        end
      else ([], true)
  end.

(** [Vec::dedup_by_key] on the sequence. *)
Fixpoint dedup_seq (l : list Entry) : list Entry :=
  match l with
  | a :: rest =>
      match dedup_seq rest with
      | b :: rest' => if seq a =? seq b then a :: rest' else a :: b :: rest'
      | [] => [a]
      end
  | [] => []
  end.

(** [read_tail]. *)
Definition read_tail (scan_ok : bool) (w : Store) : option TailResp * Store :=
  match load scan_ok w with
  | (None, w) => (None, w)
  | (Some s, w) =>
      if negb scan_ok then (None, w)
      else
        let sc := scan_committed_batches (files (live w)) in
        let base := fs_base s in
        let gap_free := match loaded w with Some l => negb (is_some (disk_recovery_gap l)) | None => true end in
        let batched := filter (λ e, base < seq e)
          (mjoin (cb_entries <$> filter (λ b, fs_fragment_epoch (cb_state b) = fs_fragment_epoch s) (sc_batches sc))) in
        let legacy := legacy_item base (fs_end s) <$> readdir (files (live w)) in
        let entries := dedup_seq (sort_by (λ a b, N.compare (seq a) (seq b)) (batched ++ mjoin legacy.*1)) in
        let complete := negb (unknown_unreadable_range sc) && gap_free && dir_exists (live w) && forallb id legacy.*2
                        && tail_covers_sealed_range base (fs_end s) entries in
        (Some (mkTailResp (mkTailRange (fs_fragment_epoch s) base (fs_end s) complete) entries), w)
  end.

Record SealResp := mkSealResp {
  seal_end : N;
  seal_base : option N;
  seal_fragment_epoch : N;
  held_fragment_epoch : option N;
}.

(** [check_addressee] for a store with this name and incarnation, [None] where
    the incarnation cannot be read. *)
Definition check_addressee (node : string) (actual : option string) (member incarnation : option string) : bool :=
  is_none_or (λ m, bool_decide (m = node)) member
  && is_none_or (λ expected, is_some_and (λ a, bool_decide (a = expected) || is_some member) actual) incarnation.

(** [seal] once the addressee is checked. *)
Definition seal_log (scan_ok : bool) (fault : PersistFault) (epoch : N) (w : Store) : option SealResp * Store :=
  match load scan_ok w with
  | (None, w) => (None, w)
  | (Some s, w) =>
      let '(end_, log) := seal (log_of s) epoch in
      match persist fault (mkFollowerState (fs_fragment_epoch s) (fs_base s) (fs_end s) (sealed_to log)) w with
      | (false, w) => (None, w)
      | (true, w) =>
          match read_tail scan_ok w with
          | (None, w) => (None, w)
          | (Some t, w) =>
              let r := tail_range t in
              let complete := (tr_fragment_epoch r =? fs_fragment_epoch s) && (tr_base r =? fs_base s) && (tr_end r =? end_)
                              && tr_complete r && tail_covers_sealed_range (tr_base r) (tr_end r) (tail_entries t) in
              (Some (mkSealResp end_ (Some (fs_base s)) (if complete then fs_fragment_epoch s else 0)
                       (Some (fs_fragment_epoch s))), w)
          end
      end
  end.

(** One leader's turn of [gc_fragments], with the record it read. *)
Definition gc_fragment (record : LogRecord) (scan_ok : bool) (deletes : option (string → bool)) (fault : PersistFault)
    (w : Store) : Store :=
  match load scan_ok w with
  | (None, w) => w
  | (Some s, w) =>
      if (fs_fragment_epoch s =? 0) || negb (fragment_closed record (fs_fragment_epoch s)) then w
      else
        let sealed := N.max (fs_sealed_to s) (fs_fragment_epoch s) in
        if (fs_base s =? fs_end s) && is_some (state_file (live w))
        then (persist fault (mkFollowerState (fs_fragment_epoch s) (fs_base s) (fs_end s) sealed) w).2
        else
          let w := (remove_entries_below u64_max deletes w).2 in
          (persist fault (mkFollowerState (fs_fragment_epoch s) (fs_end s) (fs_end s) sealed) w).2
  end.
End store.

(** ** Names *)

Lemma split_once_dash a b :
  all_bytes (λ c, negb (c =? 45)) a = true → split_once char_dash (a +:+ "-" +:+ b) = Some (a, b).
Proof. intros H. apply (split_once_app char_dash a b). exact H. Qed.

Lemma decimal_no_dash n : all_bytes (λ c, negb (c =? 45)) (radix 10 n) = true.
Proof.
  destruct (radix_fixed 10 n ltac:(lia)) as (k & -> & _). apply all_bytes_fixed; [done|].
  intros b Hb. apply negb_true_iff, N.eqb_neq. lia.
Qed.

Lemma parse_decimal n : n ≤ u64_max → parse_unsigned 10 u64_max (radix 10 n) = Some n.
Proof. intros Hn. destruct (radix_fixed 10 n ltac:(lia)) as (k & -> & Hlt & _). by apply parse_unsigned_fixed. Qed.

Lemma batch_name_range first last :
  first ≤ u64_max → last ≤ u64_max → follower_batch_range (batch_name first last) ".batch" = Some (first, last).
Proof.
  intros Hf Hl. unfold follower_batch_range, batch_name.
  rewrite <-!app_assoc_string, strip_suffix_app, !app_assoc_string. cbn [mbind option_bind].
  rewrite split_once_dash by apply decimal_no_dash. cbn [mbind option_bind]. by rewrite !parse_decimal.
Qed.

End Follower.
