(* ===== verification/FollowerFacts.v ===== *)
(** * What a follower keeps

    The invariant of the follower's store ([Follower]) and what it gives: no
    entry an answer reported durable leaves the tail of its fragment before the
    log record closes the epoch, whatever fails in between; and a sealed epoch
    accepts nothing more. *)

From Stdlib Require Import ZifyN ZifyNat.
From S2P Require Import Prelude Bytes Text LogTier LogWire Follower.
Import Wire Follower.

Module FollowerFacts.

Section scan.
Context (sha256 : bytes → bytes) (readdir : Files → list (string * bytes)).
Hypothesis readdir_lists : ∀ m, readdir m ≡ₚ map_to_list m.

(** A batch that a scan finds under a name. *)
Definition holds (m : Files) (name : string) (b : CommittedBatch) : Prop :=
  ∃ c first last, m !! name = Some c ∧ follower_batch_range name ".batch" = Some (first, last) ∧ first ≤ last
    ∧ decode_committed_batch sha256 c = Some b
    ∧ first_seq (cb_entries b) = Some first ∧ last_seq (cb_entries b) = Some last.

Definition item_batch (item : string * bytes) : option CommittedBatch :=
  '(first, last) ← follower_batch_range item.1 ".batch";
  b ← decode_committed_batch sha256 item.2;
  if (first <=? last) && bool_decide (first_seq (cb_entries b) = Some first) && bool_decide (last_seq (cb_entries b) = Some last)
  then Some b else None.

Lemma range_ends name first last : follower_batch_range name ".batch" = Some (first, last) → ends_with ".batch" name = true.
Proof. unfold follower_batch_range, ends_with. by destruct (strip_suffix ".batch" name). Qed.

Lemma scan_item_batches item s : sc_batches (scan_item sha256 item s) = sc_batches s ++ option_list (item_batch item).
Proof.
  destruct item as [name c]. unfold scan_item, item_batch. cbn [fst snd].
  destruct (follower_batch_range name ".batch") as [[first last]|] eqn:Er; cbn [mbind option_bind].
  - rewrite (range_ends _ _ _ Er). cbn [negb]. destruct (N.ltb_spec last first), (N.leb_spec first last); try lia; cbn [andb].
    + destruct (decode_committed_batch sha256 c); by rewrite app_nil_r.
    + destruct (decode_committed_batch sha256 c) as [b|]; cbn [mbind option_bind]; [|by rewrite app_nil_r].
      by destruct (bool_decide (first_seq _ = _)), (bool_decide (last_seq _ = _)); cbn; rewrite ?app_nil_r.
  - destruct (negb _); by rewrite app_nil_r.
Qed.

Lemma scan_batches m :
  sc_batches (scan_committed_batches sha256 readdir m) ≡ₚ omap item_batch (readdir m).
Proof.
  unfold scan_committed_batches. cbn [sc_batches]. rewrite sort_by_Permutation.
  assert (∀ l s, sc_batches (foldl (λ s item, scan_item sha256 item s) s l) = sc_batches s ++ omap item_batch l) as ->; [|done].
  intros l. induction l as [|x l IH]; intros s; [by rewrite app_nil_r|]. cbn [foldl omap list_omap].
  rewrite IH, scan_item_batches, <-app_assoc. f_equal. by destruct (item_batch x).
Qed.

Lemma scan_holds m b : b ∈ sc_batches (scan_committed_batches sha256 readdir m) ↔ ∃ name, holds m name b.
Proof.
  rewrite scan_batches, list_elem_of_omap. setoid_rewrite readdir_lists. split.
  - intros ([name c] & Hin%elem_of_map_to_list & H). exists name. unfold item_batch in H. cbn [fst snd] in H.
    destruct (follower_batch_range name ".batch") as [[first last]|] eqn:Er; [|done]. cbn [mbind option_bind] in H.
    destruct (decode_committed_batch sha256 c) as [b'|] eqn:Ed; [|done]. cbn [mbind option_bind] in H.
    destruct (N.leb_spec first last); [|done]. case_bool_decide; [|done]. case_bool_decide; [|done].
    cbn in H. injection H as ->. by exists c, first, last.
  - intros (name & c & first & last & Hc & Hr & Hle & Hd & Hf & Hl). exists (name, c).
    split; [by apply elem_of_map_to_list|]. unfold item_batch. cbn [fst snd]. rewrite Hr. cbn [mbind option_bind].
    rewrite Hd. cbn [mbind option_bind]. rewrite (proj2 (N.leb_le first last)) by done. by rewrite !bool_decide_eq_true_2.
Qed.

(** The order the scan leaves the batches in. *)
Lemma scan_sorted m :
  StronglySorted (λ a b, batch_first a ≤ batch_first b) (sc_batches (scan_committed_batches sha256 readdir m)).
Proof.
  unfold scan_committed_batches. cbn [sc_batches]. apply sort_by_sorted; [intros a b c; lia|..]; intros a b;
    destruct (N.compare_spec (batch_first a) (batch_first b)); cbn; try lia; done.
Qed.

(** What the decoder of a batch accepts. *)
Lemma holds_covered m name b :
  holds m name b →
  follower_batch_range name ".batch" = Some (batch_first b, batch_last b)
  ∧ batch_first b ≤ batch_last b ≤ u64_max ∧ fs_end (cb_state b) = batch_last b
  ∧ fs_base (cb_state b) < batch_first b ∧ fs_fragment_epoch (cb_state b) ≠ 0 ∧ contiguous (cb_entries b) = true.
Proof.
  intros (c & first & last & Hc & Hr & Hle & Hd & Hf & Hl). unfold batch_first, batch_last. rewrite Hf, Hl. simpl.
  split; [done|]. split.
  { split; [done|]. unfold follower_batch_range in Hr. destruct (strip_suffix ".batch" name) as [stem|]; [|done]. simpl in Hr.
    destruct (split_once char_dash stem) as [[x y]|]; [|done]. simpl in Hr.
    destruct (parse_unsigned 10 u64_max x) as [n1|] eqn:E1; [|done]. simpl in Hr.
    destruct (parse_unsigned 10 u64_max y) as [n2|] eqn:E2; [|done]. simpl in Hr. injection Hr as -> ->.
    by eapply parse_unsigned_bound. }
  apply decode_committed_covered in Hd. unfold batch_covered in Hd. rewrite Hf, Hl in Hd.
  apply andb_true_iff in Hd as [[Hd Hc']%andb_true_iff Hb]. apply negb_true_iff in Hd, Hb.
  apply orb_false_iff in Hd as [[He Hbe]%orb_false_iff Hend]. apply negb_false_iff in Hend.
  apply N.eqb_neq in He. apply N.eqb_eq in Hend. apply N.leb_gt in Hb. done.
Qed.

(** ** Recovery of a state *)

Definition reaches (l : list CommittedBatch) (x : N) : Prop := ∃ b, b ∈ l ∧ batch_first b ≤ x ≤ batch_last b.

Lemma cover_loop_ge covered l : covered ≤ cover_loop covered l.
Proof.
  revert covered. induction l as [|b l IH]; intros covered; cbn [cover_loop]; [lia|].
  case_match; [apply IH|]. case_match; [lia|]. specialize (IH (N.max covered (batch_last b))). lia.
Qed.

Lemma cover_loop_sound covered l x : covered < x ≤ cover_loop covered l → reaches l x.
Proof.
  revert covered. induction l as [|b l IH]; intros covered; cbn [cover_loop]; [lia|].
  destruct (N.leb_spec (batch_last b) covered) as [Hl|Hl].
  - intros H. destruct (IH _ H) as (b' & Hb & Hx). exists b'. split; [by right|done].
  - unfold sat_add. destruct (N.ltb_spec (N.min (covered + 1) u64_max) (batch_first b)) as [Hf|Hf]; [lia|].
    intros H. destruct (decide (x ≤ batch_last b)).
    + exists b. split; [by left|]. lia.
    + destruct (IH (N.max covered (batch_last b)) ltac:(lia)) as (b' & Hb & Hx). exists b'. split; [by right|done].
Qed.

Lemma cover_loop_reaches covered l t :
  StronglySorted (λ a b, batch_first a ≤ batch_first b) l → Forall (λ b, batch_last b ≤ u64_max) l →
  (∀ x, covered < x ≤ t → reaches l x) → t ≤ cover_loop covered l.
Proof.
  revert covered. induction l as [|b l IH]; intros covered Hs Hb Hx; cbn [cover_loop].
  { destruct (decide (t ≤ covered)); [done|]. destruct (Hx (covered + 1) ltac:(lia)) as (b & Hb' & _). by apply elem_of_nil in Hb'. }
  apply StronglySorted_inv in Hs as [Hs Hle]. apply Forall_cons in Hb as [Hb Hbl]. rewrite Forall_forall in Hle.
  destruct (N.leb_spec (batch_last b) covered) as [Hl|Hl].
  { apply IH; [done..|]. intros x Hc. destruct (Hx x Hc) as (b' & [->|Hin]%elem_of_cons & ?); [lia|]. by exists b'. }
  unfold sat_add. destruct (N.ltb_spec (N.min (covered + 1) u64_max) (batch_first b)) as [Hf|Hf].
  { destruct (decide (t ≤ covered)); [done|]. exfalso.
    destruct (Hx (covered + 1) ltac:(lia)) as (b' & [->|Hin]%elem_of_cons & ?); [lia|]. specialize (Hle b' Hin). lia. }
  apply IH; [done..|]. intros x Hc. destruct (Hx x ltac:(lia)) as (b' & [->|Hin]%elem_of_cons & ?); [lia|]. by exists b'.
Qed.

Lemma find_first_sorted {A} (R : relation A) (f : A → bool) l x y :
  StronglySorted R l → find_first f l = Some x → y ∈ l → f y = true → x = y ∨ R x y.
Proof.
  induction 1 as [|z l _ IH Hz]; [done|]. cbn [find_first]. destruct (f z) eqn:E.
  - intros [= ->] [->|Hy]%elem_of_cons _; [by left|]. right. by eapply Forall_forall in Hz.
  - intros Hx [->|Hy]%elem_of_cons Hf; [congruence|]. by apply IH.
Qed.

(** The state a process recovers, from its seed and the batches of its epoch. *)
Lemma recover_spec seed l s :
  recover_committed_state seed l = s →
  fs_fragment_epoch seed = 0 ∧ s = seed ∨
  fs_fragment_epoch seed ≠ 0 ∧ let of_epoch := filter (λ b, fs_fragment_epoch (cb_state b) = fs_fragment_epoch seed) l in
  (s = seed ∧ (∀ c, c ∈ of_epoch → fs_end seed < fs_end (cb_state c) →
      cover_loop (N.max (fs_end seed) (fs_base (cb_state c))) of_epoch < fs_end (cb_state c)))
  ∨ ∃ c, c ∈ of_epoch ∧ fs_end seed < fs_end (cb_state c)
      ∧ fs_end (cb_state c) ≤ cover_loop (N.max (fs_end seed) (fs_base (cb_state c))) of_epoch
      ∧ s = mkFollowerState (fs_fragment_epoch seed) (N.max (fs_base seed) (fs_base (cb_state c)))
              (fs_end (cb_state c)) (N.max (fs_sealed_to seed) (fs_sealed_to (cb_state c)))
      ∧ ∀ c', c' ∈ of_epoch → fs_end seed < fs_end (cb_state c') →
          fs_end (cb_state c') ≤ cover_loop (N.max (fs_end seed) (fs_base (cb_state c'))) of_epoch →
          fs_end (cb_state c') ≤ fs_end (cb_state c).
Proof.
  unfold recover_committed_state. destruct (N.eqb_spec (fs_fragment_epoch seed) 0) as [He|He]; [by left|]. intros Hs. right.
  split; [done|]. set (of_epoch := filter _ l) in *. cbn zeta. set (cs := sort_by _ _) in Hs.
  assert (∀ c, c ∈ cs ↔ c ∈ of_epoch ∧ fs_end seed < fs_end (cb_state c)) as Hcs.
  { intros c. unfold cs. rewrite sort_by_Permutation, list_elem_of_filter. tauto. }
  destruct (find_first _ cs) as [c|] eqn:E; subst s.
  - right. pose proof (find_first_Some _ _ _ E) as [[Hc Hlt]%Hcs Hcov%N.leb_le]. exists c. split_and!; try done.
    intros c' Hc' Hlt' Hcov'. assert (c' ∈ cs) as Hin by (by apply Hcs).
    assert (StronglySorted (λ a b, fs_end (cb_state b) ≤ fs_end (cb_state a)) cs) as Hsort.
    { unfold cs. apply sort_by_sorted; [intros x y z; lia|..]; intros a b;
        destruct (N.compare_spec (fs_end (cb_state b)) (fs_end (cb_state a))); cbn; try lia; done. }
    destruct (find_first_sorted _ _ _ _ c' Hsort E Hin) as [->|?]; [by apply N.leb_le|done..].
  - left. split; [done|]. intros c Hc Hlt. apply N.leb_gt. by apply (find_first_None _ _ E), Hcs.
Qed.

(** ** Runs of entries *)

(** Entries that continue a sequence. *)
Fixpoint runs (n : N) (l : list Entry) : Prop :=
  match l with [] => True | e :: l => seq e = n + 1 ∧ runs (seq e) l end.

Lemma runs_app n l k : runs n (l ++ k) ↔ runs n l ∧ runs (n + N.of_nat (length l)) k.
Proof.
  revert n. induction l as [|e l IH]; intros n; cbn [app runs length].
  - rewrite N.add_0_r. tauto.
  - rewrite IH. split; intros [H1 H2]; (split; [|try split]); try tauto.
    + destruct H2 as [_ H2]. rewrite H1 in H2. by replace (n + N.of_nat (S (length l))) with (n + 1 + N.of_nat (length l)) by lia.
    + destruct H1 as [-> _]. by replace (n + 1 + N.of_nat (length l)) with (n + N.of_nat (S (length l))) by lia.
Qed.

Lemma runs_first n l : runs n l → l ≠ [] → first_seq l = Some (n + 1).
Proof. destruct l as [|e l]; [done|]. intros [H _] _. unfold first_seq. cbn. by rewrite H. Qed.

Lemma runs_last n l : runs n l → l ≠ [] → last_seq l = Some (n + N.of_nat (length l)).
Proof.
  unfold last_seq. destruct l as [|e l _] using rev_ind; [done|]. intros [_ [H _]]%runs_app _.
  rewrite last_snoc, length_app. cbn [fmap option_fmap option_map length]. f_equal. lia.
Qed.

Lemma runs_contiguous n l : runs n l → Forall (λ e, seq e ≤ u64_max) l → contiguous l = true.
Proof.
  revert n. induction l as [|a l IH]; intros n; [done|]. intros [_ Hr] [_ Hl]%Forall_cons. destruct l as [|b l]; [done|].
  change (contiguous (a :: b :: l)) with ((seq b =? sat_add (seq a) 1) && contiguous (b :: l)). rewrite (IH _ Hr Hl), andb_true_r. destruct Hr as [Hr _]. apply Forall_cons in Hl as [Hb _].
  unfold sat_add. apply N.eqb_eq. lia.
Qed.

Lemma contiguous_seq l x :
  contiguous l = true → Forall (λ e, seq e ≤ u64_max) l →
  default 0 (first_seq l) ≤ x ≤ default 0 (last_seq l) → l ≠ [] → ∃ e, e ∈ l ∧ seq e = x.
Proof.
  induction l as [|a l IH]; [done|]. intros Hc [Ha Hl]%Forall_cons Hx _. cbn in Hx. destruct l as [|b l].
  { cbn in Hx. exists a. split; [by left|lia]. }
  change (contiguous (a :: b :: l)) with ((seq b =? sat_add (seq a) 1) && contiguous (b :: l)) in Hc. apply andb_true_iff in Hc as [Hb%N.eqb_eq Hc]. unfold sat_add in Hb.
  destruct (decide (x = seq a)) as [->|Hne]; [exists a; split; [by left|done]|].
  destruct (IH Hc Hl) as (e & He & Hs); [|done|exists e; split; [by right|done]].
  unfold last_seq in Hx. cbn in Hx |- *. unfold last_seq. cbn. lia.
Qed.

Lemma contiguous_bound l : contiguous l = true → default 0 (first_seq l) ≤ u64_max → Forall (λ e, seq e ≤ u64_max) l.
Proof.
  induction l as [|a l IH]; [done|]. intros Hc Ha. cbn in Ha. constructor; [done|]. destruct l as [|b l]; [done|].
  change (contiguous (a :: b :: l)) with ((seq b =? sat_add (seq a) 1) && contiguous (b :: l)) in Hc.
  apply andb_true_iff in Hc as [Hb%N.eqb_eq Hc]. apply IH; [done|]. cbn. rewrite Hb. unfold sat_add. lia.
Qed.

(** Every sequence in the range of a batch has its entry. *)
Lemma holds_seq m name b x : holds m name b → batch_first b ≤ x ≤ batch_last b → ∃ y, y ∈ cb_entries b ∧ seq y = x.
Proof.
  intros Hh Hx. pose proof (holds_covered _ _ _ Hh) as (_ & Hl & _ & _ & _ & Hc). apply contiguous_seq; [done| |done|].
  - apply contiguous_bound; [done|]. unfold batch_first, batch_last in *. lia.
  - intros E. destruct Hh as (c & f & l & _ & _ & _ & _ & Hf & _). by rewrite E in Hf.
Qed.

(** What a frame and a batch add to the log. *)
Record accepts (epoch : N) (log : FollowerLog) (accepted : list Entry) (log' : FollowerLog) : Prop := {
  acc_same : fragment_epoch log' = fragment_epoch log ∧ fl_base log' = fl_base log ∧ sealed_to log' = sealed_to log;
  acc_end : fl_end log' = fl_end log + N.of_nat (length accepted);
  acc_runs : runs (fl_end log) accepted;
  acc_open : accepted ≠ [] → epoch = fragment_epoch log ∧ sealed_to log < epoch;
}.

Lemma accepts_nil epoch log : accepts epoch log [] log.
Proof. split; [done|cbn; lia|done..]. Qed.

Lemma accepts_app epoch log l log1 k log2 : accepts epoch log l log1 → accepts epoch log1 k log2 → accepts epoch log (l ++ k) log2.
Proof.
  intros [(A1 & A2 & A3) Ae Ar Ao] [(B1 & B2 & B3) Be Br Bo]. split.
  - split_and!; congruence.
  - rewrite length_app. lia.
  - apply runs_app. split; [done|]. by rewrite <-Ae.
  - intros H. destruct l; [|by apply Ao]. destruct k; [done|]. rewrite <-A1, <-A3. by apply Bo.
Qed.

Lemma accept_entries_spec epoch l log accepted log' all :
  fl_end log ≤ u64_max → Forall (λ e, 1 ≤ seq e ≤ u64_max) l →
  accept_entries epoch l log = (accepted, log', all) →
  accepts epoch log accepted log' ∧ fl_end log' ≤ u64_max ∧ accepted `sublist_of` l.
Proof.
  revert log accepted log' all. induction l as [|e l IH]; intros log accepted log' all Hend Hl; cbn [accept_entries].
  { intros [= <- <- _]. split; [apply accepts_nil|]. split; [done|]. constructor. }
  apply Forall_cons in Hl as [He Hl]. unfold accept_append.
  destruct (negb (epoch =? fragment_epoch log) || (epoch <=? sealed_to log) || negb (seq e =? wrap_add (fl_end log) 1)) eqn:E.
  { intros [= <- <- _]. split; [apply accepts_nil|]. split; [done|]. apply sublist_nil_l. }
  apply orb_false_iff in E as [[E1%negb_false_iff%N.eqb_eq E2%N.leb_gt]%orb_false_iff E3%negb_false_iff%N.eqb_eq].
  assert (seq e = fl_end log + 1) as Hseq.
  { revert E3. unfold wrap_add. destruct (decide (fl_end log + 1 < 18446744073709551616)).
    - by rewrite N.mod_small.
    - replace (fl_end log + 1) with 18446744073709551616 by (unfold u64_max in *; lia). rewrite N.mod_same by done. lia. }
  destruct (accept_entries epoch l _) as [[accepted1 log1] all1] eqn:E4. intros [= <- <- _].
  apply IH in E4 as ([(A1 & A2 & A3) Ae Ar Ao] & Hle & Hin); [|cbn; lia|done]. cbn in *. split; [|split; [done|]].
  - split; cbn; [done|lia|split; [done|]; by rewrite Hseq in *|]. by intros _.
  - by constructor.
Qed.

Lemma accept_frames_spec epoch l log accepted log' :
  fl_end log ≤ u64_max → Forall (λ e, 1 ≤ seq e ≤ u64_max) (mjoin (ar_entries <$> l)) →
  accept_frames epoch l log = (accepted, log') →
  accepts epoch log accepted log' ∧ fl_end log' ≤ u64_max ∧ accepted `sublist_of` mjoin (ar_entries <$> l).
Proof.
  revert log accepted log'. induction l as [|r l IH]; intros log accepted log' Hend Hl; cbn [accept_frames].
  { intros [= <- <-]. split; [apply accepts_nil|]. split; [done|]. constructor. }
  rewrite fmap_cons in *. change (mjoin (ar_entries r :: ?k)) with (ar_entries r ++ mjoin k) in *.
  apply Forall_app in Hl as [Hr Hl]. case_match.
  { intros E. destruct (IH _ _ _ Hend Hl E) as (? & ? & Hin). split; [done|]. split; [done|]. by apply sublist_inserts_l. }
  destruct (accept_entries epoch (ar_entries r) log) as [[a1 log1] []] eqn:E1;
    apply accept_entries_spec in E1 as (Ha & Hle & Hin); try done.
  - destruct (accept_frames epoch l log1) as [a2 log2] eqn:E2. intros [= <- <-]. destruct (IH _ _ _ Hle Hl E2) as (Ha2 & ? & Hin2).
    split; [by eapply accepts_app|]. split; [done|]. by apply sublist_app.
  - intros [= <- <-]. split; [done|]. split; [done|]. by apply sublist_inserts_r.
Qed.

Definition watermark (l : list AppendReq) : N := foldl N.max 0 (truncate_to <$> l).

(** The state a batch commits. *)
Lemma committed_spec epoch l accepted log log' new :
  accepts epoch log accepted log' → fl_base log ≤ fl_end log → committed_state l accepted log' = new →
  fs_fragment_epoch new = fragment_epoch log ∧ fs_end new = fl_end log' ∧ fs_sealed_to new = sealed_to log
  ∧ fl_base log ≤ fs_base new ≤ N.max (fl_base log) (watermark l) ∧ fs_base new ≤ fl_end log.
Proof.
  intros [(A1 & A2 & A3) Ae Ar Ao] Hb <-. unfold committed_state, watermark, state_of, truncate.
  set (mark := foldl N.max 0 _). set (mark' := match first_seq accepted with Some _ => _ | None => _ end).
  assert (mark' ≤ mark ∧ N.min mark' (fl_end log') ≤ fl_end log) as [H1 H2].
  { unfold mark'. destruct accepted as [|e a]; [cbn in Ae |- *; lia|]. rewrite (runs_first _ _ Ar) by done. unfold sat_sub. lia. }
  clearbody mark mark'. destruct (N.ltb_spec 0 mark'); [destruct (N.ltb_spec (fl_base log') (N.min mark' (fl_end log')))|]; cbn;
    split_and!; try congruence; lia.
Qed.

(** ** Files *)

Lemma strip_suffix_last p s r : strip_suffix p s = Some r → p ≠ "" → last (String.list_ascii_of_string s) = last (String.list_ascii_of_string p).
Proof.
  intros H Hp. apply strip_suffix_Some in H as ->. rewrite list_ascii_app, last_app.
  destruct (last (String.list_ascii_of_string p)) eqn:E; [done|]. apply last_None in E. by destruct p.
Qed.

Lemma batch_not_legacy name first last :
  follower_batch_range name ".batch" = Some (first, last) →
  strip_suffix ".entry" name = None ∧ strip_suffix ".entries" name = None.
Proof.
  intros H. unfold follower_batch_range in H. destruct (strip_suffix ".batch" name) as [stem|] eqn:E; [|done].
  apply strip_suffix_last in E; [|done].
  split; [destruct (strip_suffix ".entry" name) eqn:E2|destruct (strip_suffix ".entries" name) eqn:E2]; try done;
    (apply strip_suffix_last in E2; [|done]; rewrite E in E2; by vm_compute in E2).
Qed.

Lemma below_batch n name first last :
  follower_batch_range name ".batch" = Some (first, last) → below n name = (last <=? n).
Proof. intros H. unfold below. destruct (batch_not_legacy _ _ _ H) as [-> ->]. by rewrite H. Qed.

(** ** The invariant *)

Context (entry_of : N → N → Entry).

Abbreviation epoch_of b := (fs_fragment_epoch (cb_state b)).
Definition seed (d : Disk) : FollowerState := default no_fragment (state_file d).
Definition disk_of (s : Store) (d : Disk) : Prop := d = live s ∨ d = durable s.

(** The state the process works from, which it recovers on its first use. *)
Definition current (s : Store) : FollowerState :=
  match loaded s with Some l => ld_state l | None => ld_state (recovered sha256 readdir (live s)) end.

(** A batch that no crash takes away, and one that a crash may leave. *)
Definition stable (s : Store) (name : string) (b : CommittedBatch) : Prop :=
  holds (files (live s)) name b ∧ files (durable s) !! name = files (live s) !! name ∧ name ∉ unsynced s.
Definition present (s : Store) (name : string) (b : CommittedBatch) : Prop :=
  holds (files (live s)) name b ∨ holds (files (durable s)) name b.
Definition kept (s : Store) (e x : N) : Prop :=
  ∃ name b, stable s name b ∧ epoch_of b = e ∧ batch_first b ≤ x ≤ batch_last b.

Definition state_fits (s : FollowerState) : Prop :=
  fs_fragment_epoch s ≤ u64_max ∧ fs_base s ≤ fs_end s ≤ u64_max ∧ fs_sealed_to s ≤ u64_max.

(** What holds of every disk, with [e] the epoch of the log record. *)
Record sane (e : N) (s : Store) (cur : FollowerState) : Prop := {
  sane_names name : is_Some (files (live s) !! name) ∨ is_Some (files (durable s) !! name) →
    ∃ first last, first ≤ last ≤ u64_max ∧ name = batch_name first last;
  sane_files name b : present s name b →
    epoch_of b ≤ e ∧ state_fits (cb_state b) ∧ Forall (λ x, x = entry_of (epoch_of b) (seq x)) (cb_entries b);
  sane_current : fs_fragment_epoch cur ≤ e ∧ state_fits cur;
  sane_seeds d : disk_of s d → fs_fragment_epoch (seed d) ≤ e ∧ state_fits (seed d);
}.

(** The record's epoch has not been adopted, or the adoption did not finish. *)
Record inactive (e : N) (s : Store) (cur : FollowerState) : Prop := {
  in_current : fs_fragment_epoch cur ≠ e;
  in_files name b : present s name b → epoch_of b ≠ e;
  in_seeds d : disk_of s d → fs_fragment_epoch (seed d) = e → fs_end (seed d) = 0;
}.

(** A recovery from this seed ends at [end_] at least. *)
Definition anchored (s : Store) (e base end_ : N) (seed : FollowerState) : Prop :=
  fs_end seed = end_ ∨
  ∃ name b, stable s name b ∧ epoch_of b = e ∧ fs_end (cb_state b) = end_ ∧ fs_base (cb_state b) ≤ base
    ∧ ∀ x, N.max (fs_end seed) (fs_base (cb_state b)) < x ≤ end_ → kept s e x.

(** The fragment of the record's epoch, of which everything above the watermark
    [t] is kept and [p] is the highest end an answer reported. *)
Record active (e t p : N) (s : Store) (cur : FollowerState) : Prop := {
  ac_current : fs_fragment_epoch cur = e;
  ac_kept x : t < x ≤ fs_end cur → kept s e x;
  ac_seeds d : disk_of s d → fs_fragment_epoch (seed d) = e ∧ fs_end (seed d) ≤ fs_end cur ∧ fs_base (seed d) ≤ t
    ∧ anchored s e (fs_base cur) (fs_end cur) (seed d);
  ac_base : fs_base cur ≤ t;
  ac_files name b : present s name b → epoch_of b = e → fs_base (cb_state b) ≤ t ∧ batch_first b ≤ fs_end cur + 1;
  ac_promised : p ≤ fs_end cur;
}.

(** What a step must show of a fragment that stays the record's. *)
Lemma active_step e t p s cur t' p' s' cur' removed :
  active e t p s cur → t ≤ t' → p' ≤ fs_end cur' → fs_fragment_epoch cur' = e → fs_base cur' ≤ t' →
  fs_end cur ≤ fs_end cur' → fs_base cur ≤ fs_base cur' → removed ≤ t' →
  (∀ name b, stable s name b → epoch_of b = e → batch_first b ≤ fs_end cur → removed < batch_last b → stable s' name b) →
  (∀ x, fs_end cur < x ≤ fs_end cur' → kept s' e x) →
  (∀ name b, present s' name b → epoch_of b = e → fs_base (cb_state b) ≤ t' ∧ batch_first b ≤ fs_end cur' + 1) →
  (∀ d', disk_of s' d' →
    (∃ d, disk_of s d ∧ seed d' = seed d) ∧
      (removed = 0 ∧ fs_end cur' = fs_end cur ∨
       ∃ name b, stable s' name b ∧ epoch_of b = e ∧ fs_end (cb_state b) = fs_end cur' ∧ fs_base (cb_state b) = fs_base cur'
         ∧ removed ≤ fs_base cur')
    ∨ fs_fragment_epoch (seed d') = e ∧ fs_end (seed d') = fs_end cur' ∧ fs_base (seed d') ≤ t') →
  active e t' p' s' cur'.
Proof.
  intros [Hc Hk Hs Hb Hf Hp] Ht Hp' Hc' Hb' Hend Hbase Hrem Hst Hnew Hpres Hseed.
  assert (∀ x, kept s e x → x ≤ fs_end cur → removed < x → kept s' e x) as Hkeep.
  { intros x (name & b & Hs1 & He & Hx) Hxc Hr. exists name, b. split; [|done]. apply Hst; try done; lia. }
  split; try done.
  - intros x Hx. destruct (decide (x ≤ fs_end cur)); [|apply Hnew; lia]. apply Hkeep; [apply Hk; lia|done|lia].
  - intros d' Hd'. destruct (Hseed d' Hd') as [[(d & Hd & ->) Hcase]|(He & Hse & Hsb)].
    2: { split; [done|]. split; [lia|]. split; [done|]. by left. }
    destruct (Hs d Hd) as (He & Hse & Hsb & Ha). split; [done|]. split; [lia|]. split; [lia|].
    destruct Hcase as [[-> Heq]|(name & b & Hsb' & Heb & Hendb & Hbaseb & Hrb)].
    + destruct Ha as [Ha|(name & b & Hs1 & He1 & Hend1 & Hbase1 & Hcov)]; [left; lia|].
      pose proof (holds_covered _ _ _ (proj1 Hs1)) as (_ & Hfl & Hlast & Hfb & _).
      right. exists name, b. split; [apply Hst; try done; lia|]. split; [done|]. split; [lia|]. split; [lia|].
      intros x Hx. apply Hkeep; [apply Hcov; lia|lia|lia].
    + right. exists name, b. split; [done|]. split; [done|]. split; [done|]. split; [lia|].
      intros x Hx. destruct (decide (x ≤ fs_end cur)); [|apply Hnew; lia].
      apply Hkeep; [|done|lia]. destruct Ha as [Ha|(name1 & b1 & Hs1 & He1 & Hend1 & Hbase1 & Hcov)]; [lia|]. apply Hcov. lia.
Qed.

(** ** Crashes *)

(** The machine stops and starts again: the process forgets, the state file is
    one of the two versions, and a file is as it was synced or as it was last
    written; one whose bytes were not synced can also be gone or torn, which
    its digest shows. *)
Record crashed (s s' : Store) : Prop := {
  cr_loaded : loaded s' = None;
  cr_durable : durable s' = live s';
  cr_unsynced : unsynced s' = ∅;
  cr_state : state_file (live s') = state_file (live s) ∨ state_file (live s') = state_file (durable s);
  cr_synced name : name ∉ unsynced s →
    files (live s') !! name = files (live s) !! name ∨ files (live s') !! name = files (durable s) !! name;
  cr_torn name : name ∈ unsynced s →
    files (live s') !! name = None ∨ files (live s') !! name = files (live s) !! name ∨
    (is_Some (files (live s) !! name) ∨ is_Some (files (durable s) !! name)) ∧
      ∃ c, files (live s') !! name = Some c ∧ decode_committed_batch sha256 c = None;
}.

Lemma holds_lookup m m' name b : m' !! name = m !! name → holds m name b → holds m' name b.
Proof. intros E (c & H). exists c. by rewrite E. Qed.

Lemma holds_decodes m name b c : m !! name = Some c → holds m name b → decode_committed_batch sha256 c = Some b.
Proof. intros Hc (c' & f & l & Hc' & _ & _ & Hd & _). congruence. Qed.

Lemma crash_stable s s' name b : crashed s s' → stable s name b → stable s' name b.
Proof.
  intros [_ Hd Hu _ Hf _] (Hh & He & Hn). split; [|rewrite Hd, Hu; split; [done|set_solver]].
  eapply holds_lookup; [|exact Hh]. destruct (Hf name Hn) as [->| ->]; [done|]. by symmetry.
Qed.

Lemma crash_present s s' name b : crashed s s' → present s' name b → present s name b.
Proof.
  intros [_ Hd Hu _ Hf Ht] H. assert (holds (files (live s')) name b) as Hh by (destruct H as [H|H]; [done|by rewrite Hd in H]).
  destruct (decide (name ∈ unsynced s)) as [Hn|Hn].
  - destruct (Ht name Hn) as [E|[E|(_ & c & E & Hc)]].
    + destruct Hh as (c & f & l & E' & _). congruence.
    + left. by eapply holds_lookup.
    + pose proof (holds_decodes _ _ _ _ E Hh). congruence.
  - destruct (Hf name Hn) as [E|E]; [left|right]; by eapply holds_lookup.
Qed.

Lemma crash_seed s s' : crashed s s' → ∃ d, disk_of s d ∧ seed (live s') = seed d.
Proof.
  intros H. unfold seed. destruct (cr_state _ _ H) as [->| ->]; [exists (live s)|exists (durable s)]; by (split; [unfold disk_of; auto|]).
Qed.

Lemma crash_disk s s' d : crashed s s' → disk_of s' d → d = live s'.
Proof. intros H [->| ->]; [done|]. apply (cr_durable _ _ H). Qed.

(** What the process recovers after a crash. *)
Lemma crash_current s s' : crashed s s' →
  current s' = recover_committed_state (seed (live s')) (sc_batches (scan_committed_batches sha256 readdir (files (live s')))).
Proof. intros H. unfold current. by rewrite (cr_loaded _ _ H). Qed.

Lemma of_epoch_holds m e b :
  b ∈ filter (λ b, epoch_of b = e) (sc_batches (scan_committed_batches sha256 readdir m)) ↔
  epoch_of b = e ∧ ∃ name, holds m name b.
Proof. by rewrite list_elem_of_filter, scan_holds. Qed.

Lemma crash_sane e s s' cur : crashed s s' → sane e s cur → sane e s' (current s').
Proof.
  intros Hc [Hn Hf Hcur Hs]. destruct (crash_seed _ _ Hc) as (d & Hd & Hseed). pose proof (Hs d Hd) as (He & Hfit). split.
  - intros name H. apply Hn. assert (is_Some (files (live s') !! name)) as [x Hx].
    { destruct H as [H|H]; [done|]. by rewrite (cr_durable _ _ Hc) in H. }
    destruct (decide (name ∈ unsynced s)) as [Hu|Hu].
    + destruct (cr_torn _ _ Hc name Hu) as [E|[E|(E & _)]]; [congruence|left; by rewrite <-E, Hx|done].
    + destruct (cr_synced _ _ Hc name Hu) as [E|E]; [left|right]; by rewrite <-E, Hx.
  - intros name b H. by eapply Hf, crash_present.
  - rewrite (crash_current _ _ Hc), Hseed. destruct (recover_spec _ _ _ (eq_refl (recover_committed_state (seed d) (sc_batches (scan_committed_batches sha256 readdir (files (live s')))))))
      as [[_ ->]|[_ [[-> _]|(c & Hin & Hlt & _ & -> & _)]]]; [done..|].
    apply of_epoch_holds in Hin as [Hec [name Hh]]. destruct (Hf name c) as (_ & (Hc1 & Hc2 & Hc3) & _).
    { eapply crash_present; [done|]. by left. }
    destruct Hfit as (F1 & F2 & F3). split; [done|]. unfold state_fits. cbn. lia.
  - intros d' Hd'. rewrite (crash_disk _ _ _ Hc Hd'), Hseed. done.
Qed.

Lemma crash_inactive e t s s' cur :
  e ≠ 0 → crashed s s' → sane e s cur → inactive e s cur →
  inactive e s' (current s') ∨ active e t 0 s' (current s').
Proof.
  intros He Hc Hsane [Hcur Hf Hs]. destruct (crash_seed _ _ Hc) as (d & Hd & Hseed).
  pose proof (crash_current _ _ Hc) as Hnow. rewrite Hseed in Hnow.
  assert (∀ d', disk_of s' d' → seed d' = seed d) as Hd'.
  { intros d' H. by rewrite (crash_disk _ _ _ Hc H). }
  assert (∀ name b, present s' name b → epoch_of b ≠ e) as Hf' by (intros name b H; by eapply Hf, crash_present).
  assert (fs_fragment_epoch (current s') = fs_fragment_epoch (seed d)
          ∧ (fs_fragment_epoch (seed d) = e → current s' = seed d)) as [Hep Hsame].
  { destruct (recover_spec _ _ _ (eq_sym Hnow)) as [[_ ->]|[_ [[-> _]|(c & Hin & _ & _ & -> & _)]]]; [done..|].
    split; [done|]. intros E. apply of_epoch_holds in Hin as [Hec [name Hh]]. exfalso. apply (Hf' name c); [by left|congruence]. }
  destruct (decide (fs_fragment_epoch (seed d) = e)) as [E|E].
  - right. rewrite (Hsame E). pose proof (Hs d Hd E) as H0. destruct (sane_seeds _ _ _ Hsane d Hd) as (_ & _ & Hb & _). split; try done; try lia.
    + intros d' H. rewrite (Hd' _ H). split; [done|]. split; [lia|]. split; [lia|]. by left.
    + intros name b H Eb. by destruct (Hf' name b H).
  - left. split; [congruence|done|]. intros d' H. by rewrite (Hd' _ H).
Qed.

(** The batches of an epoch that a recovery looks at. *)
Definition recoverable (s : Store) (e : N) : list CommittedBatch :=
  filter (λ b, epoch_of b = e) (sc_batches (scan_committed_batches sha256 readdir (files (live s)))).

Lemma crash_kept s s' e x : crashed s s' → kept s e x → kept s' e x.
Proof. intros Hc (name & b & H1 & H2). exists name, b. split; [by eapply crash_stable|done]. Qed.

Lemma crash_holds s s' name b : crashed s s' → holds (files (live s')) name b → stable s' name b.
Proof. intros Hc Hh. split; [done|]. rewrite (cr_durable _ _ Hc), (cr_unsynced _ _ Hc). split; [done|set_solver]. Qed.

Lemma reaches_kept s s' e x : crashed s s' → reaches (recoverable s' e) x → kept s' e x.
Proof. intros Hc (b & [Hec [name Hh]]%of_epoch_holds & Hx). exists name, b. split; [by eapply crash_holds|done]. Qed.

(** A recovery covers what is kept. *)
Lemma kept_covers s e covered target :
  (∀ x, covered < x ≤ target → kept s e x) → target ≤ cover_loop covered (recoverable s e).
Proof.
  intros H. apply cover_loop_reaches.
  - apply StronglySorted_filter. apply scan_sorted.
  - apply Forall_forall. intros b [_ [name Hh]]%of_epoch_holds. by apply (holds_covered _ _ _ Hh).
  - intros x Hx. destruct (H x Hx) as (name & b & H1 & H2 & H3). exists b. split; [|done]. apply of_epoch_holds. split; [done|]. exists name. apply H1.
Qed.

(** The anchor of a seed is a candidate of the recovery. *)
Lemma crash_anchor s s' e base end_ seed :
  crashed s s' → anchored s e base end_ seed →
  fs_end seed = end_ ∨ ∃ b, b ∈ recoverable s' e ∧ fs_end (cb_state b) = end_
    ∧ end_ ≤ cover_loop (N.max (fs_end seed) (fs_base (cb_state b))) (recoverable s' e).
Proof.
  intros Hc [?|(name & b & Hst & Heb & Hendb & Hbb & Hx)]; [by left|]. right. exists b. split; [|split; [done|]].
  - apply of_epoch_holds. split; [done|]. exists name. by apply (crash_stable _ _ _ _ Hc).
  - apply kept_covers. intros x Hxx. by eapply crash_kept, Hx.
Qed.

Lemma crash_active e t p s s' cur :
  e ≠ 0 → crashed s s' → sane e s cur → active e t p s cur → active e t p s' (current s').
Proof.
  intros He Hc Hsane [Hcur Hk Hs Hb Hf Hp]. destruct (crash_seed _ _ Hc) as (d & Hd & Hseed).
  pose proof (crash_current _ _ Hc) as Hnow. rewrite Hseed in Hnow.
  assert (∀ d', disk_of s' d' → seed d' = seed d) as Hd' by (intros d' H; by rewrite (crash_disk _ _ _ Hc H)).
  destruct (Hs d Hd) as (Hse & Hsend & Hsb & Ha). apply (crash_anchor _ _ _ _ _ _ Hc) in Ha.
  destruct (recover_spec _ _ _ (eq_sym Hnow)) as [[E0 _]|[_ Hcase]]; [congruence|]. cbn zeta in Hcase. rewrite Hse in Hcase. fold (recoverable s' e) in Hcase.
  destruct Hcase as [[Heq Hnone]|(c & Hin & Hlt & Hcov & Heq & Hmax)].
  - (* the seed alone *)
    assert (fs_end (seed d) = fs_end cur) as Hend.
    { destruct Ha as [?|(b & Hbin & Hendb & Hreach)]; [done|]. destruct (decide (fs_end (seed d) = fs_end cur)) as [|Hne]; [done|].
      specialize (Hnone b Hbin ltac:(lia)). lia. }
    rewrite Heq. split; try done; try lia.
    + intros x Hx. eapply crash_kept; [done|]. apply Hk. lia.
    + intros d' H. rewrite (Hd' _ H). split; [done|]. split; [lia|]. split; [done|]. by left.
    + intros name b H Eb. destruct (Hf name b (crash_present _ _ _ _ Hc H) Eb). lia.
  - apply of_epoch_holds in Hin as Hin'. destruct Hin' as [Hec [cname Hh]].
    assert (present s cname c) as Hpc by (eapply crash_present; [done|]; by left). destruct (Hf cname c Hpc Hec) as [Hcb Hcf].
    assert (fs_end cur ≤ fs_end (cb_state c)) as Hge.
    { destruct Ha as [?|(b & Hbin & Hendb & Hreach)]; [lia|]. destruct (decide (fs_end (seed d) < fs_end (cb_state b))); [|lia].
      rewrite <-Hendb. apply Hmax; [done|done|]. by rewrite Hendb. }
    assert (∀ x, N.max (fs_end (seed d)) (fs_base (cb_state c)) < x ≤ fs_end (cb_state c) → kept s' e x) as Hrun.
    { intros x Hx. apply (reaches_kept _ _ _ _ Hc), (cover_loop_sound _ _ _ (conj (proj1 Hx) (N.le_trans _ _ _ (proj2 Hx) Hcov))). }
    rewrite Heq. split; cbn; try done; try lia.
    + intros x Hx. destruct (decide (x ≤ fs_end cur)); [eapply crash_kept; [done|]; apply Hk; lia|]. apply Hrun. lia.
    + intros d' H. rewrite (Hd' _ H). split; [done|]. split; [lia|]. split; [done|]. right. exists cname, c.
      split; [by eapply crash_holds|]. split; [done|]. split; [done|]. split; [lia|done].
    + intros name b H Eb. destruct (Hf name b (crash_present _ _ _ _ Hc H) Eb). lia.
Qed.

(** ** The writes of a store *)

Hypothesis digest_length : ∀ b, length (sha256 b) = COMMITTED_BATCH_DIGEST_LEN.

(** A torn write leaves no valid batch. *)
Definition fault_ok (fault : WriteFault) : Prop :=
  match fault with WriteTorn (Some c) => decode_committed_batch sha256 c = None | _ => True end.

(** A batch as [append_batch] commits it. *)
Record committable (new : FollowerState) (accepted : list Entry) : Prop := {
  cm_fits : state_fits new;
  cm_entries : entries_fit accepted;
  cm_covered : batch_covered new accepted = true;
}.

Definition name_of (accepted : list Entry) : string := batch_name (default 0 (first_seq accepted)) (default 0 (last_seq accepted)).

Lemma last_seq_bound l : Forall entry_fits l → default 0 (last_seq l) ≤ u64_max.
Proof.
  intros H. unfold last_seq. destruct (last l) as [e|] eqn:E; [|by cbn]. apply last_Some_elem_of in E.
  eapply Forall_forall in H; [|exact E]. apply H.
Qed.

Lemma first_seq_bound l : Forall entry_fits l → default 0 (first_seq l) ≤ u64_max.
Proof. intros H. unfold first_seq. destruct l as [|e l]; [by cbn|]. apply Forall_cons in H as [H _]. apply H. Qed.

Lemma committable_range new accepted :
  committable new accepted →
  ∃ first last, first_seq accepted = Some first ∧ last_seq accepted = Some last ∧ first ≤ last ≤ u64_max
    ∧ name_of accepted = batch_name first last ∧ follower_batch_range (name_of accepted) ".batch" = Some (first, last).
Proof.
  intros [(_ & _ & _) [Hfit _] Hc]. pose proof (first_seq_bound _ Hfit) as Hf. pose proof (last_seq_bound _ Hfit) as Hl.
  unfold batch_covered in Hc. unfold name_of. destruct (first_seq accepted) as [first|] eqn:E1; [|done].
  destruct (last_seq accepted) as [last|] eqn:E2; [|done]. cbn in Hf, Hl |- *. exists first, last.
  split; [done|]. split; [done|]. split; [|split; [done|by apply batch_name_range]]. split; [|done].
  apply andb_true_iff in Hc as [[_ Hc]%andb_true_iff _].
  assert (∀ n l, contiguous l = true → Forall entry_fits l → first_seq l = Some n → n ≤ default 0 (last_seq l)) as Hle.
  { clear. intros n l. revert n. induction l as [|a l IH]; intros n; [done|]. intros Hc [[Ha _ _ _ _] Hl]%Forall_cons [= <-].
    destruct l as [|b l]; [cbn; lia|].
    change (contiguous (a :: b :: l)) with ((seq b =? sat_add (seq a) 1) && contiguous (b :: l)) in Hc.
    apply andb_true_iff in Hc as [Hb%N.eqb_eq Hc]. specialize (IH (seq b) Hc Hl eq_refl).
    apply Forall_cons in Hl as [[Hs _ _ _ _] _].
    change (last_seq (a :: b :: l)) with (last_seq (b :: l)). unfold sat_add in Hb. lia. }
  specialize (Hle first accepted Hc Hfit E1). rewrite E2 in Hle. done.
Qed.

Lemma committed_decodes new accepted :
  committable new accepted →
  decode_committed_batch sha256 (encode_committed_batch sha256 new accepted) = Some (mkCommittedBatch new accepted).
Proof.
  intros [(H1 & H2 & H3) He Hc]. rewrite batch_roundtrip; try done; try lia. by rewrite Hc.
Qed.

(** A file is written, and perhaps the directory synced. *)
Lemma put_spec name c s s' :
  live s' = mkDisk (state_file (live s)) (<[name := c]> (files (live s))) true →
  durable s' = durable s ∨ durable s' = live s' → (∀ n, n ≠ name → n ∉ unsynced s → n ∉ unsynced s') →
  (∀ n, is_Some (files (live s') !! n) ∨ is_Some (files (durable s') !! n) →
     n = name ∨ is_Some (files (live s) !! n) ∨ is_Some (files (durable s) !! n)) ∧
  (∀ n b, present s' n b → present s n b ∨ n = name ∧ decode_committed_batch sha256 c = Some b) ∧
  (∀ n b, stable s n b → n ≠ name → stable s' n b) ∧
  (∀ d', disk_of s' d' → ∃ d, disk_of s d ∧ seed d' = seed d).
Proof.
  intros Hl Hd Hu.
  assert (∀ n, n ≠ name → files (live s') !! n = files (live s) !! n) as Hne by (intros n Hn; rewrite Hl; by apply lookup_insert_ne).
  assert (∀ n b, holds (files (live s')) n b → present s n b ∨ n = name ∧ decode_committed_batch sha256 c = Some b) as Hp.
  { intros n b H. destruct (decide (n = name)) as [->|Hn].
    - right. split; [done|]. eapply holds_decodes; [|exact H]. rewrite Hl. apply lookup_insert_eq.
    - left. left. eapply holds_lookup; [|exact H]. by rewrite Hne. }
  split_and!.
  - intros n H. destruct (decide (n = name)) as [->|Hn]; [by left|]. right.
    destruct H as [H|H]; [left; by rewrite <-Hne|]. destruct Hd as [Hd|Hd]; rewrite Hd in H; [by right|]. left. by rewrite <-Hne.
  - intros n b [H|H]; [by apply Hp|]. destruct Hd as [Hd|Hd]; rewrite Hd in H; [left; by right|by apply Hp].
  - intros n b (H1 & H2 & H3) Hn. split; [|split; [|by apply Hu]].
    + eapply holds_lookup; [|exact H1]. by rewrite Hne.
    + destruct Hd as [Hd|Hd]; rewrite Hd; [|done]. by rewrite Hne.
  - intros d' [->| ->]; [exists (live s); split; [by left|]; by rewrite Hl|].
    destruct Hd as [->| ->]; [exists (durable s); split; [by right|done]|exists (live s); split; [by left|]; by rewrite Hl].
Qed.

(** The write of a batch: what it can leave, and what it leaves when it ends. *)
Record written (new : FollowerState) (accepted : list Entry) (s : Store) (ok : bool) (s' : Store) : Prop := {
  wr_loaded : loaded s' = loaded s;
  wr_names name : is_Some (files (live s') !! name) ∨ is_Some (files (durable s') !! name) →
    name = name_of accepted ∨ is_Some (files (live s) !! name) ∨ is_Some (files (durable s) !! name);
  wr_present name b : present s' name b → present s name b ∨ b = mkCommittedBatch new accepted;
  wr_stable name b : stable s name b → name ≠ name_of accepted → stable s' name b;
  wr_seeds d' : disk_of s' d' → ∃ d, disk_of s d ∧ seed d' = seed d;
  wr_new : ok = true → stable s' (name_of accepted) (mkCommittedBatch new accepted);
}.

Lemma put_written new accepted s ok c d u :
  let s' := mkStore (mkDisk (state_file (live s)) (<[name_of accepted := c]> (files (live s))) true) d u (loaded s) in
  committable new accepted →
  decode_committed_batch sha256 c = None ∨ c = encode_committed_batch sha256 new accepted →
  d = durable s ∨ d = live s' → (∀ n, n ≠ name_of accepted → n ∉ unsynced s → n ∉ u) →
  (ok = true → stable s' (name_of accepted) (mkCommittedBatch new accepted)) → written new accepted s ok s'.
Proof.
  intros s' Hc Hdec Hd Hu Hok. destruct (put_spec (name_of accepted) c s s' eq_refl Hd Hu) as (P1 & P2 & P3 & P4).
  split; [done|exact P1| |exact P3|exact P4|exact Hok].
  intros n b H. destruct (P2 n b H) as [?|[-> Hb]]; [by left|]. right.
  destruct Hdec as [Hdec| ->]; [congruence|]. rewrite committed_decodes in Hb by done. by injection Hb.
Qed.

Lemma write_batch_spec fault new accepted s ok s' :
  committable new accepted → fault_ok fault → write_batch sha256 fault new accepted s = (ok, s') → written new accepted s ok s'.
Proof.
  intros Hc Hf. unfold write_batch. fold (name_of accepted). destruct fault as [[c|]| | |]; intros [= <- <-].
  - apply put_written; [done|by left|by left|set_solver|done].
  - split; [done|auto|auto|auto| |done]. intros d' H. by exists d'.
  - apply put_written; [done|by right|by left|set_solver|done].
  - apply put_written; [done|by right|by left|set_solver|done].
  - unfold sync_directory. cbn [live durable unsynced loaded]. apply put_written; [done|by right|by right|set_solver|]. intros _.
    destruct (committable_range _ _ Hc) as (first & last & Hfs & Hls & Hle & Hname & Hrange).
    split; [|split; [done|cbn; set_solver]]. cbn. eexists _, first, last. rewrite lookup_insert_eq.
    split; [done|]. split; [done|]. split; [apply Hle|]. split; [by apply committed_decodes|done].
Qed.

(** The deletion of old files. *)
Lemma remove_spec n deletes s ok s' :
  remove_entries_below n deletes s = (ok, s') →
  loaded s' = loaded s ∧ durable s' = durable s ∧ unsynced s' = unsynced s ∧ state_file (live s') = state_file (live s) ∧
  (∀ name, is_Some (files (live s') !! name) → is_Some (files (live s) !! name)) ∧
  (∀ name b, present s' name b → present s name b) ∧
  (∀ name b, stable s name b → n < batch_last b → stable s' name b) ∧
  (ok = true → ∀ name, is_Some (files (live s') !! name) → below n name = false).
Proof.
  unfold remove_entries_below. destruct deletes as [deletes|]; intros [= <- <-]; [|by split_and!; auto]. cbn [loaded durable unsynced live files state_file set_live].
  assert (∀ name x, filter (λ f : string * bytes, below n f.1 && deletes f.1 = false) (files (live s)) !! name = Some x →
    files (live s) !! name = Some x ∧ below n name && deletes name = false) as Hf.
  { intros name x H. by apply map_lookup_filter_Some in H. }
  split_and!; try done.
  - intros name [x [Hx _]%Hf]. by exists x.
  - intros name b [(c & H)|H]; [left|by right]. exists c. destruct H as (f & l & Hc & H). exists f, l. split; [by apply Hf in Hc as [? _]|done].
  - intros name b (H1 & H2 & H3) Hl. pose proof (holds_covered _ _ _ H1) as (Hr & _).
    assert (filter (λ f : string * bytes, below n f.1 && deletes f.1 = false) (files (live s)) !! name = files (live s) !! name) as E.
    { destruct H1 as (c & f & l & Hc & _). rewrite Hc. apply map_lookup_filter_Some. split; [done|]. cbn.
      rewrite (below_batch _ _ _ _ Hr). rewrite (proj2 (N.leb_gt _ _)) by done. done. }
    split; [by eapply holds_lookup|]. split; [|done]. cbn. by rewrite E.
  - intros Hok%bool_decide_eq_true name [x [Hx Hb]%Hf]. destruct (below n name) eqn:E; [|done].
    rewrite (Hok name x Hx E) in Hb. done.
Qed.

Lemma remove_loaded n deletes s : loaded (remove_entries_below n deletes s).2 = loaded s.
Proof. by destruct deletes. Qed.

(** The replacement of the state file. *)
Lemma persist_spec fault new s ok s' :
  persist fault new s = (ok, s') →
  files (live s') = files (live s) ∧ unsynced s' = unsynced s
  ∧ (files (durable s') = files (durable s) ∨ files (durable s') = files (live s)) ∧
  (∀ d', disk_of s' d' → (∃ d, disk_of s d ∧ seed d' = seed d) ∨ seed d' = new) ∧
  (ok = true → durable s' = live s' ∧ (∀ d', disk_of s' d' → seed d' = new) ∧ ∃ gap, loaded s' = Some (mkLoaded new gap)) ∧
  (ok = false → loaded s' = loaded s).
Proof.
  unfold persist, disk_of. destruct fault as [| |[]]; intros [= <- <-]; cbn; split_and!; try done; auto.
  - intros d' [->| ->]; by right.
  - intros _. split; [done|]. split; [by intros d' [->| ->]|]. by eexists.
  - intros d' [->| ->]; [by right|left; exists (durable s); auto].
  - intros d' [->| ->]; left; [exists (live s)|exists (durable s)]; auto.
  - intros d' [->| ->]; left; [exists (live s)|exists (durable s)]; auto.
Qed.

(** ** Steps of a store *)

Lemma sane_step e s cur s' cur' :
  sane e s cur →
  (∀ name, is_Some (files (live s') !! name) ∨ is_Some (files (durable s') !! name) →
    (is_Some (files (live s) !! name) ∨ is_Some (files (durable s) !! name)) ∨
    ∃ first last, first ≤ last ≤ u64_max ∧ name = batch_name first last) →
  (∀ name b, present s' name b → present s name b ∨
    epoch_of b ≤ e ∧ state_fits (cb_state b) ∧ Forall (λ x, x = entry_of (epoch_of b) (seq x)) (cb_entries b)) →
  fs_fragment_epoch cur' ≤ e → state_fits cur' →
  (∀ d', disk_of s' d' → (∃ d, disk_of s d ∧ seed d' = seed d) ∨ fs_fragment_epoch (seed d') ≤ e ∧ state_fits (seed d')) →
  sane e s' cur'.
Proof.
  intros [Hn Hf Hc Hs] Hn' Hf' Hc1 Hc2 Hs'. split; [|..|done|].
  - intros name H. destruct (Hn' name H) as [?|?]; [by apply Hn|done].
  - intros name b H. destruct (Hf' name b H) as [?|?]; [by eapply Hf|done].
  - intros d' H. destruct (Hs' d' H) as [(d & Hd & ->)|?]; [by apply Hs|done].
Qed.

Lemma inactive_step e s cur s' cur' :
  inactive e s cur → fs_fragment_epoch cur' ≠ e →
  (∀ name b, present s' name b → present s name b ∨ epoch_of b ≠ e) →
  (∀ d', disk_of s' d' → (∃ d, disk_of s d ∧ seed d' = seed d) ∨ (fs_fragment_epoch (seed d') = e → fs_end (seed d') = 0)) →
  inactive e s' cur'.
Proof.
  intros [Hc Hf Hs] Hc' Hf' Hs'. split; [done|..].
  - intros name b H. destruct (Hf' name b H) as [?|?]; [by eapply Hf|done].
  - intros d' H. destruct (Hs' d' H) as [(d & Hd & ->)|?]; [by apply Hs|done].
Qed.

(** What a follower does to its fragment without leaving it: [mark] is the
    watermark of the request. *)
Record advances (mark : N) (s : Store) (cur : FollowerState) (s' : Store) (cur' : FollowerState) : Prop := {
  adv_epoch : fs_fragment_epoch cur' = fs_fragment_epoch cur;
  adv_end : fs_end cur ≤ fs_end cur';
  adv_sealed : fs_sealed_to cur ≤ fs_sealed_to cur';
  adv_seeds z d' : z ≤ fs_sealed_to cur → (∀ d, disk_of s d → z ≤ fs_sealed_to (seed d)) → disk_of s' d' → z ≤ fs_sealed_to (seed d');
  adv_sane e : sane e s cur → sane e s' cur';
  adv_inactive e : sane e s cur → inactive e s cur → inactive e s' cur';
  adv_active e t p p' : sane e s cur → active e t p s cur → p' ≤ fs_end cur' → active e (N.max t mark) p' s' cur';
}.

(** The disk is the same, up to whether the directory exists. *)
Definition same_disk (s s' : Store) : Prop :=
  files (live s') = files (live s) ∧ files (durable s') = files (durable s) ∧ unsynced s' = unsynced s
  ∧ state_file (live s') = state_file (live s) ∧ state_file (durable s') = state_file (durable s).

Lemma same_seeds s s' d' : same_disk s s' → disk_of s' d' → ∃ d, disk_of s d ∧ seed d' = seed d.
Proof.
  intros (_ & _ & _ & H1 & H2) [->| ->]; [exists (live s)|exists (durable s)]; unfold seed, disk_of; rewrite ?H1, ?H2; auto.
Qed.

Lemma same_stable s s' name b : same_disk s s' → stable s name b → stable s' name b.
Proof. intros (H1 & H2 & H3 & _). unfold stable. by rewrite H1, H2, H3. Qed.

Lemma same_present s s' name b : same_disk s s' → present s' name b → present s name b.
Proof. intros (H1 & H2 & _). unfold present. by rewrite H1, H2. Qed.

Lemma active_mono e t p t' p' s cur : active e t p s cur → t ≤ t' → p' ≤ fs_end cur → active e t' p' s cur.
Proof.
  intros H Ht Hp. apply (active_step e t p s cur t' p' s cur 0); try done; try lia; try (by apply H).
  - pose proof (ac_base _ _ _ _ _ H). lia.
  - intros name b Hpr He. destruct (ac_files _ _ _ _ _ H name b Hpr He). lia.
  - intros d' Hd. left. split; [by exists d'|by left].
Qed.

Lemma same_advances mark s s' cur : same_disk s s' → advances mark s cur s' cur.
Proof.
  intros Hd. split; try done.
  - intros z d' _ Hz H. destruct (same_seeds _ _ _ Hd H) as (d & ? & ->). by apply Hz.
  - intros e Hs. apply (sane_step e s cur); try done; try (by apply Hs).
    + intros name H. left. destruct Hd as (H1 & H2 & _). by rewrite H1, H2 in H.
    + intros name b H. left. by eapply same_present.
    + intros d' H. left. by eapply same_seeds.
  - intros e _ Hi. apply (inactive_step e s cur); try done; try (by apply Hi).
    + intros name b H. left. by eapply same_present.
    + intros d' H. left. by eapply same_seeds.
  - intros e t p p' _ Ha Hp. apply (active_step e t p s cur (N.max t mark) p' s' cur 0); try done; try lia; try (by apply Ha).
    + pose proof (ac_base _ _ _ _ _ Ha). lia.
    + intros name b H _ _ _. by eapply same_stable.
    + intros name b H He. destruct (ac_files _ _ _ _ _ Ha name b (same_present _ _ _ _ Hd H) He). lia.
    + intros d' H. left. split; [by eapply same_seeds|by left].
Qed.

Lemma advances_trans mark s cur s1 cur1 s2 cur2 :
  advances mark s cur s1 cur1 → advances mark s1 cur1 s2 cur2 → advances mark s cur s2 cur2.
Proof.
  intros [A1 A2 A3 Az A4 A5 A6] [B1 B2 B3 Bz B4 B5 B6]. split; [congruence|lia|lia| |auto|auto|].
  { intros z d' Hc Hz. apply Bz; [lia|]. intros d. by apply Az. }
  intros e t p p' Hs Ha Hp. replace (N.max t mark) with (N.max (N.max t mark) mark) by lia.
  eapply B6; [auto| |done]. apply (A6 e t p 0); [done|done|lia].
Qed.

Lemma persist_stable fault new s ok s' name b : persist fault new s = (ok, s') → stable s name b → stable s' name b.
Proof.
  intros (H1 & H2 & H3 & _)%persist_spec (S1 & S2 & S3). unfold stable. rewrite H1, H2. split; [done|]. split; [|done].
  by destruct H3 as [-> | ->].
Qed.

Lemma persist_present fault new s ok s' name b : persist fault new s = (ok, s') → present s' name b → present s name b.
Proof. intros (H1 & H2 & H3 & _)%persist_spec. unfold present. rewrite H1. destruct H3 as [-> | ->]; tauto. Qed.

(** The state of the fragment is rewritten at the same end. *)
Lemma persist_advances mark fault new s cur ok s' :
  persist fault new s = (ok, s') → state_fits new →
  fs_fragment_epoch new = fs_fragment_epoch cur → fs_end new = fs_end cur →
  fs_base cur ≤ fs_base new ≤ N.max (fs_base cur) mark → fs_sealed_to cur ≤ fs_sealed_to new →
  advances mark s cur s' (if ok then new else cur).
Proof.
  intros Hp Hfit He Hend Hb Hse. pose proof (persist_spec _ _ _ _ _ Hp) as (P1 & P2 & P3 & P4 & _).
  set (cur' := if ok then new else cur).
  assert (fs_fragment_epoch cur' = fs_fragment_epoch cur ∧ fs_end cur' = fs_end cur ∧ fs_sealed_to cur ≤ fs_sealed_to cur'
    ∧ fs_base cur ≤ fs_base cur' ≤ N.max (fs_base cur) mark) as (C1 & C2 & C3 & C4) by (unfold cur'; destruct ok; lia).
  split; [done|lia|done|..].
  - intros z d' Hc Hz H. destruct (P4 d' H) as [(d & Hd & ->)| ->]; [by apply Hz|lia].
  - intros e Hs. pose proof (sane_current _ _ _ Hs) as [Hs1 Hs2]. apply (sane_step e s cur); [done|..|lia| |].
    + intros name H. left. rewrite P1 in H. destruct P3 as [P3|P3]; rewrite P3 in H; tauto.
    + intros name b H. left. by eapply persist_present.
    + unfold cur'. by destruct ok.
    + intros d' H. destruct (P4 d' H) as [?| ->]; [by left|]. right. split; [lia|done].
  - intros e Hs Hi. pose proof (in_current _ _ _ Hi). apply (inactive_step e s cur); [done|congruence|..].
    + intros name b H'. left. by eapply persist_present.
    + intros d' H'. destruct (P4 d' H') as [?| ->]; [by left|]. right. congruence.
  - intros e t p p' Hs Ha Hp'. pose proof (ac_base _ _ _ _ _ Ha). pose proof (ac_current _ _ _ _ _ Ha).
    apply (active_step e t p s cur (N.max t mark) p' s' cur' 0); try done; try lia.
    + intros name b H' _ _ _. by eapply persist_stable.
    + intros name b H' E. destruct (ac_files _ _ _ _ _ Ha name b (persist_present _ _ _ _ _ _ _ Hp H') E). lia.
    + intros d' H'. destruct (P4 d' H') as [?| ->]; [left|right]; [split; [done|left; lia]|]. split; [congruence|lia].
Qed.

(** A request of the leader: one entry for each sequence of its epoch. *)
Record honest (b : AppendBatch) : Prop := {
  ho_epoch : ar_epoch (ab_first b) ≤ u64_max;
  ho_entries : Forall (λ e, e = entry_of (ar_epoch (ab_first b)) (seq e) ∧ entry_fits e ∧ 1 ≤ seq e) (mjoin (ar_entries <$> frames b));
  ho_count : N.of_nat (length (mjoin (ar_entries <$> frames b))) ≤ u32_max;
}.

Lemma accepted_committable b cur accepted log' new :
  honest b → state_fits cur → accept_frames (ar_epoch (ab_first b)) (frames b) (log_of cur) = (accepted, log') →
  committed_state (frames b) accepted log' = new →
  fs_fragment_epoch new = fs_fragment_epoch cur ∧ fs_end new = fs_end cur + N.of_nat (length accepted)
  ∧ fs_sealed_to new = fs_sealed_to cur ∧ fs_base cur ≤ fs_base new ≤ N.max (fs_base cur) (watermark (frames b))
  ∧ fs_base new ≤ fs_end cur ∧ state_fits new
  ∧ (accepted ≠ [] → committable new accepted ∧ first_seq accepted = Some (fs_end cur + 1) ∧ last_seq accepted = Some (fs_end new)
      ∧ fs_fragment_epoch cur = ar_epoch (ab_first b) ∧ fs_sealed_to cur < ar_epoch (ab_first b)
      ∧ Forall (λ x, x = entry_of (fs_fragment_epoch cur) (seq x)) accepted).
Proof.
  intros [H1 H2 H3] (F1 & F2 & F3) Ha Hn. apply accept_frames_spec in Ha as (Hacc & Hle & Hsub); [|apply F2|].
  2: { eapply Forall_impl; [exact H2|]. intros e (_ & [E _ _ _ _] & ?). lia. }
  destruct (committed_spec _ _ _ _ _ _ Hacc (proj1 F2) Hn) as (N1 & N2 & N3 & N4 & N5). cbn [log_of fragment_epoch fl_base fl_end sealed_to] in *.
  destruct Hacc as [_ Ae Ar Ao]. cbn [log_of fragment_epoch fl_base fl_end sealed_to] in *.
  assert (state_fits new) as Hfit by (unfold state_fits; lia).
  split; [done|]. split; [lia|]. split; [done|]. split; [done|]. split; [done|]. split; [done|]. intros Hne.
  destruct (Ao Hne) as [O1 O2]. pose proof (runs_first _ _ Ar Hne) as Hf. pose proof (runs_last _ _ Ar Hne) as Hl.
  assert (∀ P, Forall P (mjoin (ar_entries <$> frames b)) → Forall P accepted) as Hall.
  { intros P HP. apply Forall_forall. intros x Hx. rewrite Forall_forall in HP. apply HP.
    eapply elem_of_submseteq; [exact Hx|]. by apply sublist_submseteq. }
  assert (Forall entry_fits accepted) as Hefit by (apply Hall; eapply Forall_impl; [exact H2|]; by intros e (_ & ? & _)).
  split_and!; try done.
  - split; [done|..].
    + split; [done|]. pose proof (sublist_length _ _ Hsub). lia.
    + unfold batch_covered. rewrite Hf, Hl. rewrite (runs_contiguous _ _ Ar); [|eapply Forall_impl; [exact Hefit|]; by intros e []].
      rewrite (proj2 (N.eqb_neq _ _)) by lia. rewrite (proj2 (N.ltb_ge _ _)) by lia. rewrite (proj2 (N.eqb_eq _ _)) by lia.
      rewrite (proj2 (N.leb_gt _ _)) by lia. done.
  - rewrite Hl. f_equal. lia.
  - apply Hall. eapply Forall_impl; [exact H2|]. cbn. intros e (He & _ & _). by rewrite <-O1.
Qed.

(** What a commit knows of the batch it writes. *)
Record batch_of (mark : N) (cur new : FollowerState) (accepted : list Entry) : Prop := {
  bo_epoch : fs_fragment_epoch new = fs_fragment_epoch cur;
  bo_sealed : fs_sealed_to new = fs_sealed_to cur;
  bo_base : fs_base cur ≤ fs_base new ≤ N.max (fs_base cur) mark;
  bo_below : fs_base new ≤ fs_end cur;
  bo_first : first_seq accepted = Some (fs_end cur + 1);
  bo_last : last_seq accepted = Some (fs_end new);
  bo_commits : committable new accepted;
  bo_honest : Forall (λ x, x = entry_of (fs_fragment_epoch cur) (seq x)) accepted;
}.

Lemma batch_range mark cur new accepted :
  batch_of mark cur new accepted →
  fs_end cur < fs_end new ∧ batch_first (mkCommittedBatch new accepted) = fs_end cur + 1
  ∧ batch_last (mkCommittedBatch new accepted) = fs_end new.
Proof.
  intros [_ _ _ _ Hf Hl Hc _]. destruct (committable_range _ _ Hc) as (first & last & F & L & Hle & _).
  unfold batch_first, batch_last. cbn [cb_entries]. rewrite Hf, Hl. cbn [default from_option]. split; [|done].
  rewrite Hf in F. rewrite Hl in L. injection F as <-. injection L as <-. lia.
Qed.

(** A file with an earlier first sequence has another name. *)
Lemma batch_other_name mark cur new accepted s name b :
  batch_of mark cur new accepted → stable s name b → batch_first b ≤ fs_end cur → name ≠ name_of accepted.
Proof.
  intros Hb [Hh _] Hf ->. pose proof (holds_covered _ _ _ Hh) as (Hr & _).
  destruct (committable_range _ _ (bo_commits _ _ _ _ Hb)) as (first & last & F & _ & _ & _ & Hr').
  rewrite Hr in Hr'. injection Hr' as Hr' _. rewrite (bo_first _ _ _ _ Hb) in F. injection F as F. lia.
Qed.

Lemma written_sane mark cur new accepted s ok s1 s' cur' e :
  batch_of mark cur new accepted → written new accepted s ok s1 → cur' = cur ∨ cur' = new →
  (∀ name, is_Some (files (live s') !! name) → is_Some (files (live s1) !! name)) → durable s' = durable s1 →
  state_file (live s') = state_file (live s1) → (∀ name b, present s' name b → present s1 name b) →
  sane e s cur → sane e s' cur' ∧ (inactive e s cur → inactive e s' cur').
Proof.
  intros Hb [W1 W2 W3 W4 W5 W6] Hcur Hl Hd Hst Hpr Hs. pose proof (sane_current _ _ _ Hs) as [Hs1 Hs2].
  assert (∀ name b, present s' name b → present s name b ∨ b = mkCommittedBatch new accepted) as Hp by (intros; by eapply W3, Hpr).
  assert (∀ d', disk_of s' d' → ∃ d, disk_of s d ∧ seed d' = seed d) as Hsd.
  { intros d' [->| ->]; unfold seed; [rewrite Hst; apply (W5 (live s1)); by left|rewrite Hd; apply (W5 (durable s1)); by right]. }
  destruct Hb as [B1 B2 B3 B4 B5 B6 B7 B8]. pose proof (cm_fits _ _ B7) as Hfit. split.
  - apply (sane_step e s cur); [done|..|destruct Hcur as [->| ->]; [done|congruence]|by destruct Hcur as [->| ->]|].
    + intros name H. destruct (W2 name) as [->|?]; [rewrite Hd in H; naive_solver| |by left].
      right. destruct (committable_range _ _ B7) as (first & last & _ & _ & Hle & Hn & _). by exists first, last.
    + intros name b H. destruct (Hp name b H) as [?| ->]; [by left|]. right. cbn. by rewrite B1.
    + intros d' H. left. by apply Hsd.
  - intros Hi. pose proof (in_current _ _ _ Hi) as Hne.
    apply (inactive_step e s cur); [done|destruct Hcur as [->| ->]; congruence|..].
    + intros name b H. destruct (Hp name b H) as [?| ->]; [by left|]. right. cbn. congruence.
    + intros d' H. left. by apply Hsd.
Qed.

Lemma write_fails mark cur new accepted s s1 :
  batch_of mark cur new accepted → written new accepted s false s1 → advances mark s cur s1 cur.
Proof.
  intros Hb Hw. assert (∀ e, sane e s cur → sane e s1 cur ∧ (inactive e s cur → inactive e s1 cur)) as Hsi.
  { intros e. apply (written_sane mark cur new accepted s false s1); auto. }
  split; [done|done|done|by intros z d' _ Hz (d & Hd & ->)%(wr_seeds _ _ _ _ _ Hw); apply Hz|by intros e ?; apply Hsi|by intros e Hs; apply Hsi|].
  intros e t p p' Hs Ha Hp. pose proof (ac_base _ _ _ _ _ Ha). pose proof (ac_current _ _ _ _ _ Ha).
  destruct (batch_range _ _ _ _ Hb) as (R1 & R2 & R3). destruct Hb as [B1 B2 B3 B4 B5 B6 B7 B8] eqn:E. clear E. pose proof Hw as [W1 W2 W3 W4 W5 W6].
  apply (active_step e t p s cur (N.max t mark) p' s1 cur 0); try done; try lia.
  - intros name b Hst _ Hf _. apply W4; [done|]. by eapply (batch_other_name mark cur new).
  - intros name b H' He. destruct (W3 name b H') as [H1| ->]; [destruct (ac_files _ _ _ _ _ Ha name b H1 He); lia|].
    rewrite R2. cbn. lia.
  - intros d' H'. left. split; [by apply W5|by left].
Qed.

Lemma write_commits mark cur new accepted s s1 deletes s2 :
  batch_of mark cur new accepted → written new accepted s true s1 →
  s2 = (remove_entries_below (fs_base new) deletes (cache_state new s1)).2 → advances mark s cur s2 new.
Proof.
  intros Hb Hw E. destruct (remove_entries_below (fs_base new) deletes (cache_state new s1)) as [ok2 s2'] eqn:Hr. cbn in E. subst s2'.
  apply remove_spec in Hr as (_ & D2 & U2 & S2 & N2 & P2 & K2 & _). cbn in D2, U2, S2.
  assert (∀ e, sane e s cur → sane e s2 new ∧ (inactive e s cur → inactive e s2 new)) as Hsi.
  { intros e. apply (written_sane mark cur new accepted s true s1); auto. }
  destruct (batch_range _ _ _ _ Hb) as (R1 & R2 & R3). pose proof Hw as [W1 W2 W3 W4 W5 W6]. pose proof Hb as [B1 B2 B3 B4 B5 B6 B7 B8].
  assert (∀ d', disk_of s2 d' → ∃ d, disk_of s d ∧ seed d' = seed d) as Hseeds.
  { intros d' [->| ->]; unfold seed; [rewrite S2; apply (W5 (live s1)); by left|rewrite D2; apply (W5 (durable s1)); by right]. }
  split; [done|lia|lia|by intros z d' _ Hz (d & Hd & ->)%Hseeds; apply Hz|by intros e ?; apply Hsi|by intros e Hs; apply Hsi|].
  intros e t p p' Hs Ha Hp. pose proof (ac_base _ _ _ _ _ Ha). pose proof (ac_current _ _ _ _ _ Ha).
  assert (stable s2 (name_of accepted) (mkCommittedBatch new accepted)) as Hnew by (apply K2; [by apply W6|lia]).
  apply (active_step e t p s cur (N.max t mark) p' s2 new (fs_base new)); try done; try lia; try congruence.
  - intros name b Hst _ Hf Hlast. apply K2; [|done]. apply W4; [done|]. by eapply (batch_other_name mark cur new).
  - intros x Hx. exists (name_of accepted), (mkCommittedBatch new accepted). split; [done|]. split; [cbn; congruence|]. lia.
  - intros name b H' He. destruct (W3 name b (P2 _ _ H')) as [H1| ->]; [destruct (ac_files _ _ _ _ _ Ha name b H1 He); lia|].
    rewrite R2. cbn. lia.
  - intros d' H'. left. split; [by apply Hseeds|]. right. exists (name_of accepted), (mkCommittedBatch new accepted). split; [done|]. cbn. split; [congruence|]. done.
Qed.

(** The answers report this fragment, up to this state's end. *)
Definition reports (epoch end_ : N) (answers : list AppendResp) : Prop :=
  Forall (λ r, resp_epoch r = epoch ∧ resp_end r ≤ end_) answers.

Lemma refusals_report (b : AppendBatch) cur end_ :
  fs_end cur ≤ end_ → reports (fs_fragment_epoch cur) end_ ((λ _, refusal cur) <$> frames b).
Proof. intros H. apply Forall_fmap, Forall_true. by intros r. Qed.

Lemma commit_advances fault b l s cur answers s' :
  honest b → fault_ok (write_fault fault) → loaded s = Some l → ld_state l = cur → state_fits cur →
  commit_batch sha256 fault b cur s = (answers, s') →
  ∃ l', loaded s' = Some l' ∧ advances (watermark (frames b)) s cur s' (ld_state l')
    ∧ reports (fs_fragment_epoch cur) (fs_end (ld_state l')) answers.
Proof.
  intros Hh Hf Hl Hc Hfit. unfold commit_batch. destruct (mkdir_ok fault); cbn [negb].
  2: { intros [= <- <-]. exists l. rewrite Hc. split; [done|]. split; [by apply same_advances|by apply refusals_report]. }
  assert (same_disk s (make_dir s)) as Hsame by done.
  destruct (accept_frames _ _ _) as [accepted log'] eqn:Ha.
  destruct (accepted_committable b cur accepted log' _ Hh Hfit Ha eq_refl) as (N1 & N2 & N3 & N4 & N5 & N6 & N7).
  set (new := committed_state (frames b) accepted log') in *.
  assert (∀ end_, fs_end new ≤ end_ → reports (fs_fragment_epoch cur) end_ ((λ r, mkAppendResp
    (default (fs_end new) (last_seq (ar_entries r)) <=? fs_end new) (fs_end new) (fs_fragment_epoch new)) <$> frames b)) as Hrep.
  { intros end_ H. apply Forall_fmap, Forall_true. by intros r. }
  clearbody new. case_bool_decide as Hnil.
  - assert (fs_end new = fs_end cur) as Hend by (rewrite N2, Hnil; cbn; lia). case_bool_decide as Hsm.
    + intros [= <- <-]. exists l. rewrite Hc. split; [done|]. split; [by apply same_advances|]. apply Hrep. by rewrite Hsm.
    + destruct (persist (persist_fault fault) new (make_dir s)) as [ok s1] eqn:Ep.
      pose proof (persist_advances (watermark (frames b)) _ _ _ cur _ _ Ep N6 N1 Hend N4 ltac:(lia)) as Hadv.
      pose proof (persist_spec _ _ _ _ _ Ep) as (_ & _ & _ & _ & P5 & P6).
      pose proof (advances_trans _ _ _ _ _ _ _ (same_advances (watermark (frames b)) s (make_dir s) cur Hsame) Hadv) as Ht.
      destruct ok; intros [= <- <-].
      * destruct (P5 eq_refl) as (_ & _ & gap & E). eexists. split; [exact E|]. split; [done|]. by apply Hrep.
      * exists l. rewrite (P6 eq_refl), Hc. split; [done|]. split; [done|]. by apply refusals_report.
  - destruct (N7 Hnil) as (C1 & C2 & C3 & C4 & C5 & C6).
    assert (batch_of (watermark (frames b)) cur new accepted) as Hb by done.
    destruct (write_batch sha256 (write_fault fault) new accepted (make_dir s)) as [ok s1] eqn:Ew.
    apply write_batch_spec in Ew; [|done..]. pose proof (same_advances (watermark (frames b)) s (make_dir s) cur Hsame) as H0.
    destruct ok; intros [= <- <-].
    + eexists. split; [by rewrite remove_loaded|]. cbn [ld_state]. split; [|by apply Hrep].
      eapply advances_trans; [exact H0|]. by apply (write_commits _ _ _ _ _ _ (deletes fault) _ Hb Ew).
    + exists l. rewrite (wr_loaded _ _ _ _ _ Ew), Hc. split; [done|].
      split; [eapply advances_trans; [exact H0|]; by eapply write_fails|]. by apply refusals_report.
Qed.

(** ** Loading and adoption *)

Lemma load_spec ok s r s' :
  load sha256 readdir ok s = (r, s') →
  same_disk s s' ∧ current s' = current s ∧ (r = None ∧ loaded s' = None ∧ s' = s ∨ ∃ l, r = Some (ld_state l) ∧ loaded s' = Some l ∧ ld_state l = current s).
Proof.
  unfold load, current. destruct (loaded s) as [l|] eqn:E.
  - intros [= <- <-]. rewrite E. split; [done|]. split; [done|]. right. by exists l.
  - destruct ok; intros [= <- <-]; cbn; [|rewrite E; split; [done|]; split; [done|]; by left].
    split; [done|]. split; [done|]. right. by exists (recovered sha256 readdir (live s)).
Qed.

(** The state an adoption installs. *)
Definition adopted (epoch : N) (cur : FollowerState) : FollowerState := mkFollowerState epoch 0 0 (fs_sealed_to cur).

(** An adoption is refused, or the record names the epoch, and nothing appears
    on the disk but its empty state. *)
Record adopts (epoch : N) (l : LoadedFollowerState) (s : Store) (ok : bool) (s' : Store) : Prop := {
  ad_open : fs_sealed_to (ld_state l) < epoch;
  ad_names name : is_Some (files (live s') !! name) ∨ is_Some (files (durable s') !! name) →
    is_Some (files (live s) !! name) ∨ is_Some (files (durable s) !! name);
  ad_present name b : present s' name b → present s name b;
  ad_seeds d' : disk_of s' d' → (∃ d, disk_of s d ∧ seed d' = seed d) ∨ seed d' = adopted epoch (ld_state l);
  ad_refused : ok = false → loaded s' = Some l;
  ad_done : ok = true → (∃ gap, loaded s' = Some (mkLoaded (adopted epoch (ld_state l)) gap))
    ∧ (∀ d', disk_of s' d' → seed d' = adopted epoch (ld_state l))
    ∧ (∀ name b, ¬ present s' name b);
}.

Lemma adopt_spec node record fault epoch first s l ok s' :
  loaded s = Some l → adopt sha256 readdir node record fault epoch first s = (ok, s') →
  ok = false ∧ s' = s ∨ ∃ r, record = Some r ∧ lr_epoch r = epoch ∧ lr_state r = LogOpen ∧ adopts epoch l s ok s'.
Proof.
  intros Hl. unfold adopt. destruct (record_read fault); [|intros [= <- <-]; by left].
  destruct record as [r|]; [|intros [= <- <-]; by left]. unfold load. rewrite Hl.
  destruct (negb (lr_epoch r =? epoch) || negb (bool_decide (lr_state r = LogOpen)) || negb (bool_decide (node ∈ lr_ensemble r))
    || (epoch <=? fs_sealed_to (ld_state l)) || negb (first =? 1)) eqn:E; [intros [= <- <-]; by left|].
  apply orb_false_iff in E as [[[[E1 E2]%orb_false_iff E3]%orb_false_iff E4]%orb_false_iff E5].
  apply negb_false_iff in E1, E2, E5. apply N.eqb_eq in E1, E5. apply bool_decide_eq_true in E2. apply N.leb_gt in E4. subst first.
  change (sat_sub 1 1) with 0. fold (adopted epoch (ld_state l)).
  destruct (remove_entries_below u64_max (af_deletes fault) s) as [ok1 s1] eqn:Er.
  pose proof (remove_spec _ _ _ _ _ Er) as (R1 & R2 & R3 & R4 & R5 & R6 & _ & R8).
  assert (∀ d, disk_of s1 d → ∃ d0, disk_of s d0 ∧ seed d = seed d0) as Hseed1.
  { intros d [->| ->]; unfold seed, disk_of; [exists (live s)|exists (durable s)]; rewrite ?R4, ?R2; auto. }
  destruct ok1.
  2: { intros [= <- <-]. right. exists r. split_and!; try done. split; try done; [|by intros d' ?; left; apply Hseed1|congruence].
       intros name [H|H]; [left; by apply R5|right; by rewrite <-R2]. }
  intros Hp. right. exists r. split_and!; try done. pose proof (persist_spec _ _ _ _ _ Hp) as (P1 & P2 & P3 & P4 & P5 & P6).
  assert (∀ name b, present s' name b → present s1 name b) as Hpres by (intros; by eapply persist_present).
  split; [done|..].
  - intros name H. rewrite P1 in H. destruct P3 as [P3|P3]; rewrite P3, ?R2 in H; naive_solver.
  - intros name b H. by apply R6, Hpres.
  - intros d' H. destruct (P4 d' H) as [(d & Hd & ->)|?]; [left; by apply Hseed1|by right].
  - intros ->. rewrite (P6 eq_refl). congruence.
  - intros ->. destruct (P5 eq_refl) as (P9 & P7 & P8). split; [done|]. split; [done|]. intros name b H.
    assert (holds (files (live s1)) name b) as Hh by (destruct H as [H|H]; [|rewrite P9 in H]; by rewrite P1 in H).
    assert (is_Some (files (live s1) !! name)) as Hin by (destruct Hh as (c & _ & _ & Hc & _); by exists c).
    specialize (R8 eq_refl name Hin). pose proof (holds_covered _ _ _ Hh) as (Hr & Hle & _).
    rewrite (below_batch _ _ _ _ Hr) in R8. apply N.leb_gt in R8. lia.
Qed.

(** ** A follower and its leader *)

(** The store, the log record, and what is known of the run: the highest
    watermark asked for in each epoch, every fragment end that was answered,
    and every epoch whose seal was answered. *)
Record World := mkWorld {
  w_store : Store;
  w_record : option LogRecord;
  w_tiered : gmap N N;
  w_reported : list (N * N);
  w_fenced : list N;
}.

Definition set_store (s : Store) (w : World) : World := mkWorld s (w_record w) (w_tiered w) (w_reported w) (w_fenced w).
Definition epoch_now (r : option LogRecord) : N := match r with Some r => lr_epoch r | None => 0 end.
Definition tiered_at (t : gmap N N) (e : N) : N := default 0 (t !! e).
Definition raise (e m : N) (t : gmap N N) : gmap N N := <[e := N.max (tiered_at t e) m]> t.

Lemma raise_at e m t e' : tiered_at t e' ≤ tiered_at (raise e m t) e' ∧ m ≤ tiered_at (raise e m t) e.
Proof.
  unfold raise, tiered_at. split; [|rewrite lookup_insert_eq; cbn; lia].
  destruct (decide (e = e')) as [<-|Hne]; [rewrite lookup_insert_eq; cbn; lia|]. by rewrite lookup_insert_ne by done.
Qed.

(** The fragment of an epoch the record has not closed. *)
Definition holding (e t : N) (reported : list (N * N)) (s : Store) : Prop :=
  ∃ p, (∀ x, (e, x) ∈ reported → x ≤ p) ∧ (p = 0 ∧ inactive e s (current s) ∨ active e t p s (current s)).

Record good (w : World) : Prop := {
  g_sane : sane (epoch_now (w_record w)) (w_store w) (current (w_store w));
  g_past e x : (e, x) ∈ w_reported w → e ≤ epoch_now (w_record w);
  g_open r : w_record w = Some r → lr_state r ≠ LogSealed → lr_epoch r ≠ 0 →
    holding (lr_epoch r) (tiered_at (w_tiered w) (lr_epoch r)) (w_reported w) (w_store w);
  g_fenced z : z ∈ w_fenced w →
    z ≤ fs_sealed_to (current (w_store w)) ∧ ∀ d, disk_of (w_store w) d → z ≤ fs_sealed_to (seed d);
}.

(** A step within the follower's fragment. *)
Lemma good_advance w s' m tier ends :
  good w → advances m (w_store w) (current (w_store w)) s' (current s') →
  (∀ e, tiered_at (w_tiered w) e ≤ tiered_at tier e) → m ≤ tiered_at tier (fs_fragment_epoch (current (w_store w))) →
  Forall (λ r, r = (0, 0) ∨ r.1 = fs_fragment_epoch (current (w_store w)) ∧ r.2 ≤ fs_end (current s')) ends →
  good (mkWorld s' (w_record w) tier (ends ++ w_reported w) (w_fenced w)).
Proof.
  intros [G1 G2 G3 G4] Ha Ht Hm Hends. rewrite Forall_forall in Hends. split; cbn [w_store w_record w_tiered w_reported w_fenced].
  - by apply Ha.
  - intros e x [H|H]%elem_of_app; [|by eapply G2]. destruct (Hends _ H) as [[= -> ->]|[E _]]; [lia|]. cbn in E. subst e. apply G1.
  - intros r Hr Hst H0. destruct (G3 r Hr Hst H0) as (p & Hp & Hcase). rewrite Hr in G1. cbn [epoch_now] in G1.
    destruct Hcase as [[-> Hi]|Hac].
    + exists 0. split; [|left; split; [done|by apply Ha]].
      intros x [H|H]%elem_of_app; [|by apply Hp]. destruct (Hends _ H) as [[= ? ->]|[E _]]; [lia|]. by destruct (in_current _ _ _ Hi).
    + pose proof (ac_current _ _ _ _ _ Hac) as Hc. pose proof (ac_promised _ _ _ _ _ Hac) as Hpr. pose proof (adv_end _ _ _ _ _ Ha) as He.
      exists (fs_end (current s')). split.
      * intros x [H|H]%elem_of_app; [|specialize (Hp x H); lia]. destruct (Hends _ H) as [[= ? ->]|[_ E]]; [lia|done].
      * right. eapply active_mono; [by apply (adv_active _ _ _ _ _ Ha _ _ _ (fs_end (current s')) G1 Hac)| |done].
        rewrite Hc in Hm. specialize (Ht (lr_epoch r)). lia.
  - intros z Hz. destruct (G4 z Hz) as [H1 H2]. split; [pose proof (adv_sealed _ _ _ _ _ Ha); lia|].
    intros d' Hd. by eapply (adv_seeds _ _ _ _ _ Ha).
Qed.

(** A step that answers nothing. *)
Lemma good_quiet w s' :
  good w → advances 0 (w_store w) (current (w_store w)) s' (current s') → good (set_store s' w).
Proof. intros Hg Ha. apply (good_advance w s' 0 (w_tiered w) []); [done..|lia|done]. Qed.

(** The adoption of the record's epoch. *)
Lemma good_adopt w r l s' ok :
  good w → loaded (w_store w) = Some l → w_record w = Some r → lr_state r = LogOpen → lr_epoch r ≤ u64_max →
  fs_fragment_epoch (ld_state l) ≠ lr_epoch r → adopts (lr_epoch r) l (w_store w) ok s' → good (set_store s' w).
Proof.
  intros [G1 G2 G3 G4] Hl Hr Hopen Hfit Hne [A1 A2 A3 A4 A5 A6].
  assert (current (w_store w) = ld_state l) as Hcur by (unfold current; by rewrite Hl). rewrite Hcur in G1, G4.
  destruct (G3 r Hr ltac:(congruence) ltac:(lia)) as (p & Hp & Hcase). rewrite Hcur in Hcase.
  destruct Hcase as [[-> Hi]|Hac]; [|by destruct (ac_current _ _ _ _ _ Hac)].
  pose proof (sane_current _ _ _ G1) as [Hce (F1 & F2 & F3)]. rewrite Hr in *. cbn [epoch_now] in *.
  assert (state_fits (adopted (lr_epoch r) (ld_state l))) as Hafit by (unfold state_fits; cbn; lia).
  assert (current s' = if ok then adopted (lr_epoch r) (ld_state l) else ld_state l) as Hcur'.
  { unfold current. destruct ok; [destruct (A6 eq_refl) as [[gap ->] _]|rewrite (A5 eq_refl)]; done. }
  split; cbn [set_store w_store w_record w_tiered w_reported w_fenced]; rewrite ?Hr; [| done | |].
  - apply (sane_step (lr_epoch r) (w_store w) (ld_state l)); [done|..].
    + intros name H. left. by apply A2.
    + intros name b H. left. by apply A3.
    + rewrite Hcur'. by destruct ok.
    + rewrite Hcur'. by destruct ok.
    + intros d' H. destruct (A4 d' H) as [?| ->]; [by left|]. right. split; [cbn; lia|done].
  - intros r' [= <-] _ _. exists 0. split; [done|]. rewrite Hcur'. destruct ok; [right|left].
    + destruct (A6 eq_refl) as (_ & Hs & Hnone). split; cbn; try done; try lia.
      * intros d Hd. rewrite (Hs d Hd). cbn. split; [done|]. split; [done|]. split; [lia|]. by left.
      * intros name b H. by destruct (Hnone name b).
    + split; [done|]. apply (inactive_step (lr_epoch r) (w_store w) (ld_state l)); [done..|by intros; left; apply A3|].
      intros d' H. destruct (A4 d' H) as [?| ->]; [by left|by right].
  - intros z Hz. destruct (G4 z Hz) as [H1 H2]. rewrite Hcur'. split; [destruct ok; cbn; lia|].
    intros d' H. destruct (A4 d' H) as [(d & Hd & ->)| ->]; [by apply H2|done].
Qed.

(** ** The steps keep the invariant *)

(** A process that works from its loaded state. *)
Lemma current_loaded s l : loaded s = Some l → current s = ld_state l.
Proof. unfold current. by intros ->. Qed.

Lemma good_load w ok r s' : good w → load sha256 readdir ok (w_store w) = (r, s') → good (set_store s' w).
Proof.
  intros Hg (Hd & Hc & _)%load_spec. apply good_quiet; [done|]. rewrite Hc. by apply same_advances.
Qed.

Definition ends_of (answers : list AppendResp) : list (N * N) := (λ r, (resp_epoch r, resp_end r)) <$> answers.

Lemma reports_ends e x answers : reports e x answers → Forall (λ r : N * N, r = (0, 0) ∨ r.1 = e ∧ r.2 ≤ x) (ends_of answers).
Proof. intros H. apply Forall_fmap. eapply Forall_impl; [exact H|]. cbn. by right. Qed.

(** Answers that report the state as it is. *)
Lemma good_refusals w (b : AppendBatch) cur e m :
  good w → current (w_store w) = cur →
  good (mkWorld (w_store w) (w_record w) (raise e m (w_tiered w)) (ends_of ((λ _, refusal cur) <$> frames b) ++ w_reported w) (w_fenced w)).
Proof.
  intros Hg Hc. apply (good_advance w (w_store w) 0); [done|by apply same_advances|by intros e'; apply raise_at|lia|].
  rewrite Hc. by apply reports_ends, refusals_report.
Qed.

Lemma good_commit w fault b l answers s' :
  good w → honest b → fault_ok (write_fault fault) → loaded (w_store w) = Some l →
  fs_fragment_epoch (ld_state l) = ar_epoch (ab_first b) → commit_batch sha256 fault b (ld_state l) (w_store w) = (answers, s') →
  good (mkWorld s' (w_record w) (raise (ar_epoch (ab_first b)) (watermark (frames b)) (w_tiered w)) (ends_of answers ++ w_reported w) (w_fenced w)).
Proof.
  intros Hg Hh Hf Hl He Hc. pose proof (current_loaded _ _ Hl) as Hcur. pose proof (sane_current _ _ _ (g_sane _ Hg)) as [_ Hfit].
  rewrite Hcur in Hfit. destruct (commit_advances _ _ _ _ _ _ _ Hh Hf Hl eq_refl Hfit Hc) as (l' & Hl' & Ha & Hr).
  apply current_loaded in Hl'. apply (good_advance w s' (watermark (frames b))); [done|by rewrite Hcur, Hl'|by intros e'; apply raise_at| |].
  - rewrite Hcur, He. apply (raise_at _ _ _ 0).
  - rewrite Hcur, Hl'. by apply reports_ends.
Qed.

Lemma good_append w node fault b answers s' :
  good w → honest b → fault_ok (write_fault fault) →
  append_batch sha256 readdir node (w_record w) fault b (w_store w) = (answers, s') →
  good (mkWorld s' (w_record w) (raise (ar_epoch (ab_first b)) (watermark (frames b)) (w_tiered w)) (ends_of answers ++ w_reported w) (w_fenced w)).
Proof.
  intros Hg Hh Hf. unfold append_batch. destruct (load _ _ (scan_ok fault) (w_store w)) as [r s1] eqn:El.
  pose proof (good_load _ _ _ _ Hg El) as Hg1. apply load_spec in El as (_ & _ & [(-> & _ & ->)|(l & -> & Hl & _)]).
  { intros [<- <-]%pair_equal_spec. apply (good_advance w (w_store w) 0); [done|by apply same_advances|by intros e'; apply raise_at|lia|].
    unfold ends_of. rewrite <-list_fmap_compose. apply Forall_fmap, Forall_true. intros r. by left. }
  pose proof (current_loaded _ _ Hl) as Hc. pose proof (good_refusals _ b _ (ar_epoch (ab_first b)) (watermark (frames b)) Hg1 Hc) as Href.
  destruct (N.eqb_spec (fs_fragment_epoch (ld_state l)) (ar_epoch (ab_first b))) as [E|E]; cbn [negb].
  { by apply (good_commit (set_store s1 w)). }
  case_bool_decide; [by intros [= <- <-]|]. destruct (adopt _ _ _ _ _ _ _ _) as [ok s2] eqn:Ead.
  destruct (adopt_spec _ _ _ _ _ _ _ _ _ Hl Ead) as [[-> ->]|(rec & Hrec & Hep & Hst & Had)]; [by intros [= <- <-]|].
  assert (good (set_store s2 w)) as Hg2.
  { apply (good_adopt (set_store s1 w) rec l s2 ok); try done; rewrite Hep; [apply Hh|done|done]. }
  destruct ok.
  - destruct (ad_done _ _ _ _ _ Had eq_refl) as ((gap & Hl2) & _). unfold load. rewrite Hl2. by apply (good_commit (set_store s2 w)).
  - intros [= <- <-]. apply (good_refusals (set_store s2 w)); [done|]. apply current_loaded. by apply Had.
Qed.

Lemma tail_store ok s : (read_tail sha256 readdir ok s).2 = (load sha256 readdir ok s).2.
Proof. unfold read_tail. destruct (load _ _ ok s) as [[c|] s']; [|done]. by destruct ok. Qed.

Lemma good_tail w ok : good w → good (set_store (read_tail sha256 readdir ok (w_store w)).2 w).
Proof. intros Hg. rewrite tail_store. destruct (load _ _ ok _) as [r s'] eqn:E. by eapply good_load. Qed.

Lemma persist_current fault new s l ok s' :
  persist fault new s = (ok, s') → loaded s = Some l → current s' = if ok then new else ld_state l.
Proof.
  intros (_ & _ & _ & _ & P5 & P6)%persist_spec Hl. unfold current.
  destruct ok; [by destruct (P5 eq_refl) as (_ & _ & gap & ->)|]. by rewrite (P6 eq_refl), Hl.
Qed.

(** The state file is rewritten with a higher seal mark. *)
Lemma good_mark w l fault z ok s' :
  good w → loaded (w_store w) = Some l → fs_sealed_to (ld_state l) ≤ z ≤ u64_max →
  persist fault (mkFollowerState (fs_fragment_epoch (ld_state l)) (fs_base (ld_state l)) (fs_end (ld_state l)) z) (w_store w) = (ok, s') →
  good (set_store s' w).
Proof.
  intros Hg Hl Hz Hp. pose proof (current_loaded _ _ Hl) as Hc. pose proof (sane_current _ _ _ (g_sane _ Hg)) as [_ (F1 & F2 & F3)].
  apply good_quiet; [done|]. rewrite (persist_current _ _ _ _ _ _ Hp Hl), Hc. rewrite Hc in F1, F2, F3.
  eapply (persist_advances 0); [exact Hp|..]; unfold state_fits; cbn; try done; lia.
Qed.

Lemma good_seal w ok fault epoch r s' :
  good w → epoch ≤ u64_max → seal_log sha256 readdir ok fault epoch (w_store w) = (r, s') →
  good (mkWorld s' (w_record w) (w_tiered w) (w_reported w) (if is_some r then epoch :: w_fenced w else w_fenced w)).
Proof.
  intros Hg He. unfold seal_log. destruct (load _ _ ok (w_store w)) as [r1 s1] eqn:El. pose proof (good_load _ _ _ _ Hg El) as Hg1.
  apply load_spec in El as (_ & _ & [(-> & _ & ->)|(l & -> & Hl & _)]); [by intros [= <- <-]|]. unfold seal.
  set (log := if sealed_to (log_of (ld_state l)) <? epoch then _ else _).
  assert (fs_sealed_to (ld_state l) ≤ sealed_to log ≤ u64_max ∧ epoch ≤ sealed_to log) as [Hz Hez].
  { pose proof (sane_current _ _ _ (g_sane _ Hg1)) as [_ (_ & _ & F)]. cbn in F. rewrite (current_loaded _ _ Hl) in F.
    unfold log. cbn [sealed_to log_of]. destruct (N.ltb_spec (fs_sealed_to (ld_state l)) epoch); cbn; lia. }
  destruct (persist fault _ s1) as [ok2 s2] eqn:Ep. pose proof (good_mark (set_store s1 w) l _ _ _ _ Hg1 Hl Hz Ep) as Hg2.
  pose proof (persist_spec _ _ _ _ _ Ep) as (_ & _ & _ & _ & P5 & _). pose proof (persist_current _ _ _ _ _ _ Ep Hl) as Hcur.
  destruct ok2; [|by intros [= <- <-]]. destruct (P5 eq_refl) as (_ & Hs & gap & Hl2).
  assert ((read_tail sha256 readdir ok s2).2 = s2) as Ht by (rewrite tail_store; unfold load; by rewrite Hl2).
  destruct (read_tail _ _ ok s2) as [[t|] s3]; cbn in Ht; subst s3; intros [= <- <-]; [|done].
  destruct Hg2 as [G1 G2 G3 G4]. split; try done. cbn [w_fenced is_some w_store].
  intros z [->|Hzz]%elem_of_cons; [|by apply G4]. rewrite Hcur. split; [done|]. intros d Hd. by rewrite (Hs d Hd).
Qed.

(** The record only moves on: to a later epoch, or within its epoch without
    leaving [LogSealed]. *)
Definition record_next (r r' : LogRecord) : Prop :=
  lr_epoch r < lr_epoch r' ∨ lr_epoch r = lr_epoch r' ∧ (lr_state r = LogSealed → lr_state r' = LogSealed).

Lemma closed_before r0 r e :
  fragment_closed r0 e = true → record_next r0 r → lr_state r ≠ LogSealed → e ≠ lr_epoch r.
Proof.
  intros [H%N.ltb_lt|[H%N.eqb_eq Hs%bool_decide_eq_true]%andb_true_iff]%orb_true_iff Hn Hst ->; destruct Hn as [?|[? ?]]; [lia..|lia|auto].
Qed.

(** The deletion of a closed fragment. *)
Lemma good_collect w l deletes fault z :
  good w → loaded (w_store w) = Some l → fs_sealed_to (ld_state l) ≤ z ≤ u64_max →
  (∀ r, w_record w = Some r → lr_state r ≠ LogSealed → fs_fragment_epoch (ld_state l) ≠ lr_epoch r) →
  good (set_store (persist fault (mkFollowerState (fs_fragment_epoch (ld_state l)) (fs_end (ld_state l)) (fs_end (ld_state l)) z)
    (remove_entries_below u64_max deletes (w_store w)).2).2 w).
Proof.
  intros Hg Hl Hz Hout. destruct (remove_entries_below u64_max deletes (w_store w)) as [ok1 s1] eqn:Er. cbn [snd].
  set (new := mkFollowerState _ _ _ _). destruct (persist fault new s1) as [ok2 s2] eqn:Ep. cbn [snd].
  pose proof (current_loaded _ _ Hl) as Hc. destruct Hg as [G1 G2 G3 G4]. rewrite Hc in G1, G4. pose proof (sane_current _ _ _ G1) as [Hce (F1 & F2 & F3)].
  apply remove_spec in Er as (R1 & R2 & R3 & R4 & R5 & R6 & _). pose proof (persist_spec _ _ _ _ _ Ep) as (P1 & P2 & P3 & P4 & _).
  assert (current s2 = if ok2 then new else ld_state l) as Hcur by (apply (persist_current _ _ _ _ _ _ Ep); congruence).
  assert (∀ name b, present s2 name b → present (w_store w) name b) as Hpres by (intros name b H; by eapply R6, persist_present).
  assert (∀ d', disk_of s2 d' → (∃ d, disk_of (w_store w) d ∧ seed d' = seed d) ∨ seed d' = new) as Hseed.
  { intros d' H. destruct (P4 d' H) as [(d & [->| ->] & ->)|?]; [left..|by right]; unfold seed, disk_of.
    - exists (live (w_store w)). rewrite R4. auto.
    - exists (durable (w_store w)). rewrite R2. auto. }
  assert (fs_fragment_epoch (current s2) = fs_fragment_epoch (ld_state l) ∧ state_fits (current s2) ∧ fs_sealed_to (ld_state l) ≤ fs_sealed_to (current s2))
    as (C1 & C2 & C3) by (rewrite Hcur; unfold state_fits; destruct ok2; cbn; lia).
  split; cbn [set_store w_store w_record w_tiered w_reported w_fenced]; [|done|..].
  - apply (sane_step _ (w_store w) (ld_state l)); [done|..|by rewrite C1|done|].
    + intros name H. left. rewrite P1 in H. destruct P3 as [P3|P3]; rewrite P3, ?R2 in H; naive_solver.
    + intros name b H. left. by apply Hpres.
    + intros d' H. destruct (Hseed d' H) as [?| ->]; [by left|]. right. split; [done|]. unfold state_fits. cbn. lia.
  - intros r Hr Hst H0. specialize (Hout r Hr Hst). destruct (G3 r Hr Hst H0) as (p & Hp & Hcase). rewrite Hc in Hcase. exists p. split; [done|].
    destruct Hcase as [[-> Hi]|Hac]; [|by destruct (ac_current _ _ _ _ _ Hac)]. left. split; [done|].
    apply (inactive_step _ (w_store w) (ld_state l)); [done|by rewrite C1|by intros; left; apply Hpres|].
    intros d' H. destruct (Hseed d' H) as [?| ->]; [by left|by right].
  - intros z' Hz'. destruct (G4 z' Hz') as [H1 H2]. split; [lia|]. intros d' H. destruct (Hseed d' H) as [(d & Hd & ->)| ->]; [by apply H2|cbn; lia].
Qed.

Lemma good_gc w r0 r ok deletes fault :
  good w → w_record w = Some r → record_next r0 r → good (set_store (gc_fragment sha256 readdir r0 ok deletes fault (w_store w)) w).
Proof.
  intros Hg Hr Hn. unfold gc_fragment. destruct (load _ _ ok (w_store w)) as [r1 s1] eqn:El. pose proof (good_load _ _ _ _ Hg El) as Hg1.
  apply load_spec in El as (_ & _ & [(-> & _ & ->)|(l & -> & Hl & _)]); [done|].
  destruct (_ || _) eqn:E; [done|]. apply orb_false_iff in E as [_ Hclosed%negb_false_iff].
  pose proof (sane_current _ _ _ (g_sane _ Hg1)) as [_ (F1 & _ & F3)]. cbn [set_store w_store] in F1, F3. rewrite (current_loaded _ _ Hl) in F1, F3.
  destruct (_ && _).
  - destruct (persist fault _ s1) as [ok2 s2] eqn:Ep. eapply (good_mark (set_store s1 w)); [done..| |exact Ep]. lia.
  - apply (good_collect (set_store s1 w)); [done..|lia|]. cbn. rewrite Hr. intros r' [= <-] Hst. by eapply closed_before.
Qed.

Lemma good_record w r' :
  good w → (∀ r, w_record w = Some r → record_next r r') →
  good (mkWorld (w_store w) (Some r') (w_tiered w) (w_reported w) (w_fenced w)).
Proof.
  intros [G1 G2 G3 G4] Hn.
  assert (epoch_now (w_record w) < lr_epoch r' ∨ lr_epoch r' = 0 ∨ ∃ r, w_record w = Some r ∧ lr_epoch r = lr_epoch r' ∧ (lr_state r' ≠ LogSealed → lr_state r ≠ LogSealed)) as Hcase.
  { destruct (w_record w) as [r|]; cbn; [|lia]. destruct (Hn r eq_refl) as [?|[? ?]]; [by left|]. right. right. exists r. naive_solver. }
  assert (epoch_now (w_record w) ≤ lr_epoch r') as Hle.
  { destruct (w_record w) as [r|]; cbn; [|lia]. destruct (Hn r eq_refl) as [?|[? ?]]; lia. }
  split; cbn [w_store w_record w_tiered w_reported w_fenced epoch_now]; [| |..|done].
  - destruct G1 as [S1 S2 S3 S4]. split; [done|..].
    + intros name b H. destruct (S2 name b H) as [? ?]. split; [lia|done].
    + split; [lia|apply S3].
    + intros d H. destruct (S4 d H). split; [lia|done].
  - intros e x H. specialize (G2 e x H). lia.
  - intros r [= <-] Hst H0. destruct Hcase as [Hlt|[?|(r & Hr & E & Hs)]]; [|done|].
    2: { rewrite <-E in *. apply (G3 r Hr); [by apply Hs|done]. }
    exists 0. split; [intros x H; specialize (G2 _ _ H); lia|]. left. split; [done|]. destruct G1 as [S1 S2 S3 S4]. split.
    + lia.
    + intros name b H. destruct (S2 name b H). lia.
    + intros d H. destruct (S4 d H). lia.
Qed.

Lemma good_crash w s' : good w → crashed (w_store w) s' → good (set_store s' w).
Proof.
  intros [G1 G2 G3 G4] Hc. split; cbn [set_store w_store w_record w_tiered w_reported w_fenced]; [by eapply crash_sane|done|..].
  - intros r Hr Hst H0. rewrite Hr in G1. cbn [epoch_now] in G1. destruct (G3 r Hr Hst H0) as (p & Hp & [[-> Hi]|Hac]).
    + exists 0. split; [done|]. destruct (crash_inactive _ (tiered_at (w_tiered w) (lr_epoch r)) _ _ _ H0 Hc G1 Hi); auto.
    + exists p. split; [done|]. right. by eapply crash_active.
  - intros z Hz. destruct (G4 z Hz) as [_ H2]. destruct (crash_seed _ _ Hc) as (d & Hd & Hseed). specialize (H2 d Hd).
    split; [|intros d' H'; by rewrite (crash_disk _ _ _ Hc H'), Hseed].
    pose proof (crash_current _ _ Hc) as Hnow. rewrite Hseed in Hnow.
    destruct (recover_spec _ _ _ (eq_sym Hnow)) as [[_ ->]|[_ [[-> _]|(c & _ & _ & _ & -> & _)]]]; [done..|cbn; lia].
Qed.

(** The mutations of a log record move it on. *)
Lemma mutations_next r r' claimant now stale cert :
  start_recovery r claimant now = Some r' ∨ refresh_recovery r claimant now = Some r' ∨
  take_over_recovery r claimant now stale = Some r' ∨ finish_recovery r cert = Some r' → record_next r r'.
Proof.
  unfold start_recovery, refresh_recovery, take_over_recovery, finish_recovery.
  intros [H|[H|[H|H]]]; case_match eqn:G; try done; injection H as <-; right; (split; [done|]); try done.
  cbn. intros E. apply bool_decide_eq_false in G. rewrite E in G. by destruct G.
Qed.

Lemma reconfigure_next r log_end ensemble p :
  plan_reconfigure r log_end ensemble = Some p → lr_epoch r < u64_max → record_next r (rp_record p).
Proof.
  unfold plan_reconfigure. case_match; [done|]. intros [= <-] Hlt. left. cbn. unfold wrap_add. rewrite N.mod_small; unfold u64_max in Hlt; lia.
Qed.

(** ** Tails *)

Lemma dedup_sub l y : y ∈ dedup_seq l → y ∈ l.
Proof.
  revert y. induction l as [|a l IH]; intros y; [done|]. cbn. rewrite elem_of_cons. destruct (dedup_seq l) as [|b k] eqn:E.
  - intros ->%list_elem_of_singleton. by left.
  - destruct (seq a =? seq b); rewrite !elem_of_cons; intros [->|H]; [by left| |by left|];
      right; apply IH; rewrite elem_of_cons; tauto.
Qed.

Lemma dedup_seqs l y : y ∈ l → ∃ z, z ∈ dedup_seq l ∧ seq z = seq y.
Proof.
  induction l as [|a l IH]; [by intros ?%elem_of_nil|]. cbn. intros [->|H]%elem_of_cons.
  - exists a. split; [|done]. destruct (dedup_seq l) as [|b k]; [by left|]. destruct (seq a =? seq b); by left.
  - destruct (IH H) as (z & Hz & <-). destruct (dedup_seq l) as [|b k]; [by apply elem_of_nil in Hz|].
    destruct (N.eqb_spec (seq a) (seq b)) as [E|E]; [|exists z; split; [by right|done]].
    apply elem_of_cons in Hz as [->|Hz]; [exists a; split; [by left|done]|exists z; split; [by right|done]].
Qed.

(** A store holds only batches, so a tail has no entry of the former layouts. *)
Lemma no_legacy e s base end_ : sane e s (current s) → mjoin (legacy_item base end_ <$> readdir (files (live s))).*1 = [].
Proof.
  intros Hs. assert (Forall (λ i, legacy_item base end_ i = ([], true)) (readdir (files (live s)))) as H.
  { apply Forall_forall. intros [name c] Hin. rewrite readdir_lists in Hin. apply elem_of_map_to_list in Hin.
    destruct (sane_names _ _ _ Hs name) as (first & last & Hle & ->); [left; by exists c|].
    destruct (batch_not_legacy _ _ _ (batch_name_range first last ltac:(lia) ltac:(lia))) as [E1 E2].
    unfold legacy_item, ends_with. by rewrite E1, E2. }
  induction H as [|i l Hi _ IH]; [done|]. rewrite !fmap_cons, Hi. cbn. exact IH.
Qed.

(** An entry of a batch on disk. *)
Lemma batch_entry e s name b x :
  sane e s (current s) → holds (files (live s)) name b → batch_first b ≤ x ≤ batch_last b → entry_of (epoch_of b) x ∈ cb_entries b.
Proof.
  intros Hs Hh Hx. destruct (sane_files _ _ _ Hs name b (or_introl Hh)) as (_ & _ & Hall).
  destruct (holds_seq _ _ _ x Hh Hx) as (y & Hy & <-). rewrite Forall_forall in Hall. by rewrite <-(Hall y Hy).
Qed.

(** What a tail of the record's fragment holds. *)
Lemma tail_holds e t p s :
  sane e s (current s) → active e t p s (current s) →
  ∃ resp s', read_tail sha256 readdir true s = (Some resp, s')
    ∧ tr_fragment_epoch (tail_range resp) = e ∧ tr_end (tail_range resp) = fs_end (current s)
    ∧ (∀ y, y ∈ tail_entries resp → y = entry_of e (seq y))
    ∧ ∀ x, t < x ≤ fs_end (current s) → entry_of e x ∈ tail_entries resp.
Proof.
  intros Hs Ha. unfold read_tail. destruct (load _ _ true s) as [r s1] eqn:El.
  assert (load sha256 readdir true s ≠ (None, s)) as Hsome by (unfold load; by destruct (loaded s)).
  destruct (load_spec _ _ _ _ El) as (Hd & Hc & [(-> & _ & ->)|(l & -> & Hl & Hlc)]); [by rewrite El in Hsome|].
  assert (files (live s1) = files (live s)) as Hf by apply Hd. rewrite Hlc, Hf. cbn [negb]. rewrite (no_legacy e) by done.
  rewrite (ac_current _ _ _ _ _ Ha), app_nil_r. set (batched := filter (λ y, fs_base (current s) < seq y) _).
  assert (∀ y, y ∈ batched → y = entry_of e (seq y)) as Hown.
  { intros y [_ Hy]%list_elem_of_filter. apply list_elem_of_join in Hy as (k & Hy & Hk). apply list_elem_of_fmap in Hk as (b & -> & Hb).
    apply of_epoch_holds in Hb as [<- [name Hh]]. destruct (sane_files _ _ _ Hs name b (or_introl Hh)) as (_ & _ & Hall).
    rewrite Forall_forall in Hall. by apply Hall. }
  eexists _, _. split; [reflexivity|]. cbn [tail_range tail_entries tr_fragment_epoch tr_end]. split; [done|]. split; [done|]. split.
  - intros y Hy%dedup_sub. rewrite sort_by_Permutation in Hy. by apply Hown.
  - intros x Hx. destruct (ac_kept _ _ _ _ _ Ha x Hx) as (name & b & [Hh _] & <- & Hbx).
    assert (entry_of (epoch_of b) x ∈ cb_entries b) as Hin by (by eapply batch_entry).
    assert (seq (entry_of (epoch_of b) x) = x) as Hseq.
    { destruct (holds_seq _ _ _ x Hh Hbx) as (y & Hy & <-). destruct (sane_files _ _ _ Hs name b (or_introl Hh)) as (_ & _ & Hall).
      rewrite Forall_forall in Hall. by rewrite <-(Hall y Hy). }
    assert (entry_of (epoch_of b) x ∈ batched) as Hbat.
    { apply list_elem_of_filter. pose proof (ac_base _ _ _ _ _ Ha). split; [lia|]. apply list_elem_of_join. exists (cb_entries b). split; [done|].
      apply list_elem_of_fmap. exists b. split; [done|]. apply of_epoch_holds. split; [done|by exists name]. }
    rewrite <-(sort_by_Permutation (λ a b, N.compare (seq a) (seq b))) in Hbat. destruct (dedup_seqs _ _ Hbat) as (z & Hz & Hzs).
    rewrite Hseq in Hzs. pose proof (dedup_sub _ _ Hz) as Hz'. rewrite sort_by_Permutation in Hz'. pose proof (Hown z Hz') as E.
    rewrite Hzs in E. by rewrite <-E.
Qed.

(** ** Runs *)

(** What can happen to a follower: a batch of the leader, a seal, a tail, a
    collection with a record that may be stale, a change of the record, and a
    stop of the machine. *)
Inductive step (node : string) : World → World → Prop :=
| step_append w fault b answers s' :
    honest b → fault_ok (write_fault fault) →
    append_batch sha256 readdir node (w_record w) fault b (w_store w) = (answers, s') →
    step node w (mkWorld s' (w_record w) (raise (ar_epoch (ab_first b)) (watermark (frames b)) (w_tiered w))
                   (ends_of answers ++ w_reported w) (w_fenced w))
| step_seal w ok fault epoch r s' :
    epoch ≤ u64_max → seal_log sha256 readdir ok fault epoch (w_store w) = (r, s') →
    step node w (mkWorld s' (w_record w) (w_tiered w) (w_reported w) (if is_some r then epoch :: w_fenced w else w_fenced w))
| step_tail w ok : step node w (set_store (read_tail sha256 readdir ok (w_store w)).2 w)
| step_gc w r0 r ok deletes fault :
    w_record w = Some r → record_next r0 r → step node w (set_store (gc_fragment sha256 readdir r0 ok deletes fault (w_store w)) w)
| step_record w r' :
    (∀ r, w_record w = Some r → record_next r r') →
    step node w (mkWorld (w_store w) (Some r') (w_tiered w) (w_reported w) (w_fenced w))
| step_crash w s' : crashed (w_store w) s' → step node w (set_store s' w).

Definition empty_disk : Disk := mkDisk None ∅ false.
Definition fresh_world : World := mkWorld (mkStore empty_disk empty_disk ∅ None) None ∅ [] [].

Inductive reachable (node : string) : World → Prop :=
| reach_fresh : reachable node fresh_world
| reach_step w w' : reachable node w → step node w w' → reachable node w'.

Lemma good_fresh : good fresh_world.
Proof.
  assert (current (w_store fresh_world) = no_fragment) as Hc by done.
  assert (∀ d, disk_of (w_store fresh_world) d → seed d = no_fragment) as Hs by (by intros d [->| ->]).
  split; rewrite ?Hc; [split|..]; try done; cbn.
  - intros name [[x H]|[x H]]; by rewrite lookup_empty in H.
  - intros name b [(c & ? & ? & H & _)|(c & ? & ? & H & _)]; cbn in H; by rewrite lookup_empty in H.
  - intros d Hd. rewrite (Hs d Hd). done.
  - by intros e x ?%elem_of_nil.
  - by intros z ?%elem_of_nil.
Qed.

Lemma good_reachable node w : reachable node w → good w.
Proof.
  induction 1 as [|w w' _ IH Hstep]; [apply good_fresh|]. destruct Hstep.
  - by eapply good_append.
  - by eapply good_seal.
  - by apply good_tail.
  - by eapply good_gc.
  - by apply good_record.
  - by apply good_crash.
Qed.

Lemma refusals_end (b : AppendBatch) cur : Forall (λ r, resp_end r ≤ fs_end cur) ((λ _, refusal cur) <$> frames b).
Proof. apply Forall_fmap, Forall_true. intros r. cbn. lia. Qed.

(** A batch for a sealed epoch changes no file but the state. *)
Lemma commit_refuses fault b l s answers s' :
  honest b → state_fits (ld_state l) → ar_epoch (ab_first b) ≤ fs_sealed_to (ld_state l) →
  commit_batch sha256 fault b (ld_state l) s = (answers, s') →
  files (live s') = files (live s) ∧ Forall (λ r, resp_end r ≤ fs_end (ld_state l)) answers.
Proof.
  intros Hh Hfit Hse. unfold commit_batch.
  pose proof (refusals_end b (ld_state l)) as Href.
  destruct (mkdir_ok fault); cbn [negb]; [|by intros [<- <-]%pair_equal_spec].
  destruct (accept_frames _ _ _) as [accepted log'] eqn:Ha.
  destruct (accepted_committable b _ accepted log' _ Hh Hfit Ha eq_refl) as (N1 & N2 & N3 & N4 & N5 & N6 & N7).
  set (new := committed_state (frames b) accepted log') in *. clearbody new.
  case_bool_decide as Hnil; [|destruct (N7 Hnil) as (_ & _ & _ & _ & ? & _); lia].
  assert (fs_end new = fs_end (ld_state l)) as Hend by (rewrite N2, Hnil; cbn; lia).
  destruct (if bool_decide (new = ld_state l) then _ else _) as [ok s1] eqn:E.
  assert (files (live s1) = files (live s)) as Hs1.
  { case_bool_decide; [by injection E as _ <-|]. by apply persist_spec in E as [-> _]. }
  destruct ok; intros [<- <-]%pair_equal_spec; (split; [done|]); [|done]. apply Forall_fmap, Forall_true. intros r. cbn. lia.
Qed.

Lemma append_refuses node record fault b s answers s' :
  honest b → state_fits (current s) → ar_epoch (ab_first b) ≤ fs_sealed_to (current s) →
  append_batch sha256 readdir node record fault b s = (answers, s') →
  files (live s') = files (live s) ∧ Forall (λ r, resp_end r ≤ fs_end (current s)) answers.
Proof.
  intros Hh Hfit Hse. unfold append_batch. destruct (load _ _ (scan_ok fault) s) as [r s1] eqn:El.
  apply load_spec in El as (Hd & _ & [(-> & _ & ->)|(l & -> & Hl & Hlc)]).
  { intros [<- <-]%pair_equal_spec. split; [done|]. apply Forall_fmap, Forall_true. intros r. cbn. lia. }
  assert (files (live s1) = files (live s)) as Hf by apply Hd. rewrite <-Hlc in *.
  pose proof (refusals_end b (ld_state l)) as Href.
  destruct (_ =? _); cbn [negb]; [intros H; apply commit_refuses in H as [-> ?]; done|].
  case_bool_decide; [by intros [<- <-]%pair_equal_spec|]. destruct (adopt _ _ _ _ _ _ _ _) as [ok s2] eqn:Ead.
  destruct (adopt_spec _ _ _ _ _ _ _ _ _ Hl Ead) as [[-> ->]|(rec & _ & _ & _ & Had)]; [by intros [<- <-]%pair_equal_spec|].
  pose proof (ad_open _ _ _ _ _ Had). lia.
Qed.

(** A fragment with a reported end is held. *)
Lemma reported_active node w r end_ :
  reachable node w → w_record w = Some r → lr_state r ≠ LogSealed → 1 ≤ lr_epoch r →
  (lr_epoch r, end_) ∈ w_reported w → 1 ≤ end_ →
  ∃ p, end_ ≤ p ∧ sane (lr_epoch r) (w_store w) (current (w_store w))
    ∧ active (lr_epoch r) (tiered_at (w_tiered w) (lr_epoch r)) p (w_store w) (current (w_store w)).
Proof.
  intros Hw Hr Hst He Hin Hend. apply good_reachable in Hw as [G1 _ G3 _]. rewrite Hr in G1. cbn [epoch_now] in G1.
  destruct (G3 r Hr Hst ltac:(lia)) as (p & Hp & [[-> _]|Ha]); specialize (Hp _ Hin); [lia|]. by exists p.
Qed.


End scan.

(** ** A run *)

Module Sample.
Definition digest (_ : bytes) : bytes := replicate 32 0.
Definition listing (m : Files) : list (string * bytes) := map_to_list m.
Definition entry_of (e s : N) : Entry := mkEntry s "cell" e s [e; s].
Definition record : LogRecord := mkLogRecord 1 {["follower"]} 0 false LogOpen None None.
Definition batch (truncate : N) (seqs : list N) : AppendBatch := new_batch (mkAppendReq "leader" 1 truncate (entry_of 1 <$> seqs)).
Definition no_adopt_fault : AdoptFault := mkAdoptFault true (Some (λ _, true)) PersistOk.
Definition fault (write : WriteFault) : AppendFault := mkAppendFault true no_adopt_fault true write (Some (λ _, true)) PersistOk.

Definition append (write : WriteFault) (b : AppendBatch) (s : Store) : list AppendResp * Store :=
  append_batch digest listing "follower" (Some record) (fault write) b s.
(** A restart of the process, and a stop of the machine that loses what was not
    synced. *)
Definition restart (s : Store) : Store := set_loaded None s.
Definition lose (s : Store) : Store := mkStore (durable s) (durable s) ∅ None.

Definition s0 : Store := w_store fresh_world.
Definition s1 : Store := (append WriteOk (batch 0 [1; 2]) s0).2.
Definition s2 : Store := lose s1.

Lemma batch_honest seqs truncate :
  Forall (λ s, 1 ≤ s ≤ u64_max) seqs → N.of_nat (length seqs) ≤ u32_max → honest entry_of (batch truncate seqs).
Proof.
  intros H Hn. assert (mjoin (ar_entries <$> frames (batch truncate seqs)) = entry_of 1 <$> seqs) as E by (cbn; apply app_nil_r).
  split; rewrite ?E; [done| |by rewrite length_fmap]. apply Forall_fmap. eapply Forall_impl; [exact H|].
  cbv beta. intros s Hs. split; [done|]. split; [|cbn; lia]. split; cbn [entry_of seq cell cell_epoch txid payload]; try done; lia.
Qed.

Lemma lose_crashed s : unsynced s = ∅ → crashed digest s (lose s).
Proof. intros Hu. split; try done; [by right|by right|]. rewrite Hu. set_solver. Qed.

Definition opened : World := mkWorld s0 (Some record) ∅ [] [].
Definition appended : World :=
  mkWorld s1 (Some record) (raise 1 0 ∅) (ends_of (append WriteOk (batch 0 [1; 2]) s0).1 ++ []) [].
Definition crashed_world : World := set_store s2 appended.
Definition sealed_store : option SealResp * Store := seal_log digest listing true PersistOk 1 s2.
Definition sealed_world : World := mkWorld sealed_store.2 (Some record) (raise 1 0 ∅) (w_reported appended) [1].

Lemma crashed_reachable : reachable digest listing entry_of "follower" crashed_world.
Proof.
  apply (reach_step _ _ _ _ appended); [apply (reach_step _ _ _ _ opened)|].
  - apply (reach_step _ _ _ _ fresh_world); [constructor|]. apply (step_record _ _ _ _ fresh_world record). done.
  - apply (step_append _ _ _ _ opened (fault WriteOk) (batch 0 [1; 2])); [|done|].
    + apply batch_honest; [|done]. repeat constructor; unfold u64_max; lia.
    + exact (surjective_pairing (append WriteOk (batch 0 [1; 2]) s0)).
  - apply step_crash. apply lose_crashed. vm_compute. reflexivity.
Qed.

Lemma sealed_reachable : reachable digest listing entry_of "follower" sealed_world.
Proof.
  apply (reach_step _ _ _ _ crashed_world); [apply crashed_reachable|].
  change sealed_world with (mkWorld sealed_store.2 (w_record crashed_world) (w_tiered crashed_world) (w_reported crashed_world)
    (if is_some (Some (mkSealResp 2 (Some 0) 1 (Some 1))) then 1 :: w_fenced crashed_world else w_fenced crashed_world)).
  apply (step_seal _ _ _ _ crashed_world true PersistOk 1); [done|]. vm_compute. reflexivity.
Qed.



(** A batch whose directory sync failed is refused; but a process that restarts
    recovers it, and then confirms a retransmission without a sync, so that a
    stop of the machine loses an entry whose append was confirmed. *)
Lemma restart_confirms_unsynced :
  let refused := append WriteUnlinked (batch 0 [3]) s1 in
  let confirmed := append WriteOk (batch 0 [3]) (restart refused.2) in
  resp_ok <$> refused.1 = [false] ∧ (resp_ok <$> confirmed.1 = [true] ∧ resp_end <$> confirmed.1 = [3])
  ∧ crashed digest confirmed.2 (lose confirmed.2) ∧ fs_end (current digest listing (lose confirmed.2)) = 2.
Proof. vm_compute. split; [done|]. split; [done|]. split; [|done]. apply lose_crashed. vm_compute. reflexivity. Qed.

(** A refused batch can be recovered with a base below the one a later, shorter
    batch committed.  The files below that base are gone, so the fragment no
    longer reads as complete although the bucket holds all that is missing. *)
Lemma recovered_base_regresses :
  let marked := (append WriteOk (batch 1 []) s1).2 in
  let refused := (append WriteUnlinked (batch 1 [3; 4; 5]) marked).2 in
  let committed := append WriteOk (batch 2 [3; 4]) refused in
  let complete s := match (read_tail digest listing true s).1 with Some t => tr_complete (tail_range t) | None => true end in
  resp_ok <$> committed.1 = [true] ∧ fs_base (current digest listing committed.2) = 2
  ∧ fs_base (current digest listing (restart committed.2)) = 1
  ∧ complete committed.2 = true ∧ complete (restart committed.2) = false.
Proof. vm_compute. done. Qed.
End Sample.
End FollowerFacts.
