(* ===== verification/Bundle.v ===== *)
(** * Bundles

    Models [crates/ltx/src/bundle.rs]: the container of verbatim LTX files that
    a node flushes as one object.  Its rows are decoded and its files sliced out
    again by recovery and by the bundle overlay. *)

From Stdlib Require Import ZifyN ZifyNat.
From S2P Require Import Prelude Bytes LogWire.
Import Wire.

Module Bundle.

Definition MAGIC : bytes := bytes_of "CLB1".

Record BundleRow := mkBundleRow {
  row_cell : string;
  row_epoch : N;
  row_txid : N;
  row_offset : N;
  row_len : N;
}.

Record BundleEntry := mkBundleEntry {
  be_cell : string;
  be_epoch : N;
  be_txid : N;
  be_bytes : bytes;
}.

(** [split_data_and_footer]; the error is the text of [malformed]. *)
Definition split_data_and_footer (bundle : bytes) : result (bytes * bytes) string :=
  if Nat.ltb (length bundle) 8 then Err "shorter than its trailer"
  else
    let rest := take (length bundle - 4) bundle in
    if negb (bool_decide (drop (length bundle - 4) bundle = MAGIC)) then Err "bad magic"
    else
      let len := N.to_nat (little_endian (drop (length rest - 4) rest)) in
      let rest := take (length rest - 4) rest in
      if Nat.ltb (length rest) len then Err "footer overruns the object"
      else Ok (take (length rest - len) rest, drop (length rest - len) rest).

(** A row of the footer. *)
Definition encode_row (r : BundleRow) : bytes :=
  le_bytes 2 (N.of_nat (length (bytes_of (row_cell r)))) ++ bytes_of (row_cell r)
  ++ le_bytes 8 (row_epoch r) ++ le_bytes 8 (row_txid r) ++ le_bytes 8 (row_offset r) ++ le_bytes 8 (row_len r).

(** The loop of [encode]. *)
Fixpoint encode_loop (out footer : bytes) (entries : list BundleEntry) : result (bytes * bytes) string :=
  match entries with
  | [] => Ok (out, footer)
  | e :: entries =>
      if u16_max <? N.of_nat (length (bytes_of (be_cell e))) then Err "cell name too long"
      else
        let row := mkBundleRow (be_cell e) (be_epoch e) (be_txid e) (N.of_nat (length out)) (N.of_nat (length (be_bytes e))) in
        encode_loop (out ++ be_bytes e) (footer ++ encode_row row) entries
  end.

(** [encode]. *)
Definition encode (entries : list BundleEntry) : result bytes string :=
  match encode_loop [] [] entries with
  | Err e => Err e
  | Ok (out, footer) =>
      if u32_max <? N.of_nat (length footer) then Err "footer too large"
      else Ok (out ++ footer ++ le_bytes 4 (N.of_nat (length footer)) ++ MAGIC)
  end.

(** A [u64] of a row, after the cell. *)
Definition row_value (n : nat) (footer : bytes) : N := little_endian (take 8 (drop (8 * n) footer)).

(** The loop of [decode_rows]: a row has at least 34 bytes. *)
Fixpoint rows_loop (fuel : nat) (footer : bytes) : result (list BundleRow) string :=
  match footer, fuel with
  | [], _ => Ok []
  | _, O => Err "truncated row"
  | _, S fuel =>
      if Nat.ltb (length footer) 2 then Err "truncated row"
      else
        let cell_len := N.to_nat (little_endian (take 2 footer)) in
        let footer := drop 2 footer in
        if Nat.ltb (length footer) (cell_len + 32) then Err "truncated row"
        else match from_utf8 (take cell_len footer) with
             | None => Err "cell name not utf-8"
             | Some cell =>
                 let footer := drop cell_len footer in
                 let row := mkBundleRow cell (row_value 0 footer) (row_value 1 footer) (row_value 2 footer) (row_value 3 footer) in
                 match rows_loop fuel (drop 32 footer) with
                 | Ok rows => Ok (row :: rows)
                 | Err e => Err e
                 end
             end
  end.

(** [decode_rows]. *)
Definition decode_rows (bundle : bytes) : result (list BundleRow) string :=
  match split_data_and_footer bundle with
  | Err e => Err e
  | Ok (_, footer) => rows_loop (length footer) footer
  end.

(** [slice]. *)
Definition slice (bundle : bytes) (row : BundleRow) : result bytes string :=
  match split_data_and_footer bundle with
  | Err e => Err e
  | Ok (data, _) =>
      match checked_add (row_offset row) (row_len row) with
      | None => Err "row overflows"
      | Some end_ =>
          if N.of_nat (length data) <? end_ then Err "row overruns the data section"
          else Ok (take (N.to_nat (row_len row)) (drop (N.to_nat (row_offset row)) data))
      end
  end.

(** ** Round trip *)

(** What a row can hold: cells are UTF-8, and the object fits the address space. *)
Record row_fits (r : BundleRow) : Prop := {
  rf_cell : utf8_valid (bytes_of (row_cell r)) = true;
  rf_len : N.of_nat (length (bytes_of (row_cell r))) ≤ u16_max;
  rf_epoch : row_epoch r ≤ u64_max;
  rf_txid : row_txid r ≤ u64_max;
  rf_offset : row_offset r ≤ u64_max;
  rf_size : row_len r ≤ u64_max;
}.

(** The rows of a bundle whose data starts at [off]. *)
Fixpoint rows_from (off : N) (l : list BundleEntry) : list BundleRow :=
  match l with
  | [] => []
  | e :: l =>
      mkBundleRow (be_cell e) (be_epoch e) (be_txid e) off (N.of_nat (length (be_bytes e)))
      :: rows_from (off + N.of_nat (length (be_bytes e))) l
  end.

Definition data_of (l : list BundleEntry) : bytes := mjoin (be_bytes <$> l).
Definition cell_fits (e : BundleEntry) : Prop := N.of_nat (length (bytes_of (be_cell e))) ≤ u16_max.

Lemma encode_loop_spec out footer l r :
  encode_loop out footer l = Ok r →
  Forall cell_fits l ∧ r = (out ++ data_of l, footer ++ mjoin (encode_row <$> rows_from (N.of_nat (length out)) l)).
Proof.
  revert out footer. induction l as [|e l IH]; intros out footer; cbn [encode_loop].
  - intros [= <-]. by rewrite !app_nil_r.
  - destruct (N.ltb_spec u16_max (N.of_nat (length (bytes_of (be_cell e))))) as [|Hc]; [done|]. intros H.
    apply IH in H as [Hl ->]. split; [by constructor|]. rewrite length_app, Nat2N.inj_add, <-!app_assoc. done.
Qed.

Lemma length_bytes_le w n r : length (le_bytes w n ++ r) = (w + length r)%nat.
Proof. by rewrite length_app, length_le_bytes. Qed.

Lemma take_le w n r : take w (le_bytes w n ++ r) = le_bytes w n.
Proof. rewrite <-(length_le_bytes w n) at 1. apply take_app_length. Qed.

Lemma drop_le w n r : drop w (le_bytes w n ++ r) = r.
Proof. rewrite <-(length_le_bytes w n) at 1. apply drop_app_length. Qed.

Lemma rows_loop_row fuel r rest :
  row_fits r → rows_loop (S fuel) (encode_row r ++ rest) =
  match rows_loop fuel rest with Ok rows => Ok (r :: rows) | Err e => Err e end.
Proof.
  intros [H1 H2 H3 H4 H5 H6]. unfold encode_row. rewrite <-!app_assoc.
  set (c := bytes_of (row_cell r)) in *. set (tl := le_bytes 8 (row_epoch r) ++ _).
  assert (∃ b k, le_bytes 2 (N.of_nat (length c)) ++ c ++ tl = b :: k) as (b & k & E).
  { destruct (le_bytes 2 (N.of_nat (length c)) ++ c ++ tl) eqn:E; [|by eexists _, _]. apply (f_equal length) in E. by rewrite length_bytes_le in E. }
  cbn [rows_loop]. rewrite E, <-E. rewrite length_bytes_le. destruct (Nat.ltb_spec (2 + length (c ++ tl)) 2); [lia|].
  rewrite take_le, drop_le, little_endian_le_bytes by (change (width_bound 2) with (u16_max + 1); lia). rewrite Nat2N.id.
  assert (length tl = 32 + length rest)%nat as Hl by (unfold tl; rewrite !length_bytes_le; lia).
  destruct (Nat.ltb_spec (length (c ++ tl)) (length c + 32)) as [Hlt|_]; [rewrite length_app in Hlt; lia|].
  rewrite take_app_length, drop_app_length. unfold from_utf8. rewrite H1.
  assert (text_of c = row_cell r) as -> by apply text_of_bytes_of. unfold row_value, tl. change (8 * 0)%nat with 0%nat. rewrite drop_0, take_le.
  change (8 * 1)%nat with 8%nat. rewrite drop_le, take_le. change (8 * 2)%nat with (8 + 8)%nat. rewrite <-drop_drop, !drop_le, take_le.
  change (8 * 3)%nat with (8 + (8 + 8))%nat. rewrite <-!drop_drop, !drop_le, take_le. change 32%nat with (8 + (8 + (8 + 8)))%nat.
  rewrite <-!drop_drop, !drop_le, !little_endian_le_bytes by (apply u64_width; lia). by destruct r.
Qed.

Lemma rows_loop_rows fuel l :
  Forall row_fits l → (length (mjoin (encode_row <$> l)) ≤ fuel)%nat → rows_loop fuel (mjoin (encode_row <$> l)) = Ok l.
Proof.
  intros Hl. revert fuel. induction Hl as [|r l Hr _ IH]; intros fuel Hf; [by destruct fuel|].
  rewrite fmap_cons in *. change (mjoin (?a :: ?k)) with (a ++ mjoin k) in *. rewrite length_app in Hf.
  assert (2 ≤ length (encode_row r))%nat by (unfold encode_row; rewrite length_bytes_le; lia).
  destruct fuel as [|fuel]; [lia|]. rewrite rows_loop_row by done. by rewrite IH by lia.
Qed.

Lemma split_encoded data footer :
  N.of_nat (length footer) ≤ u32_max →
  split_data_and_footer (data ++ footer ++ le_bytes 4 (N.of_nat (length footer)) ++ MAGIC) = Ok (data, footer).
Proof.
  intros Hf. unfold split_data_and_footer. set (len := le_bytes 4 _). assert (length len = 4%nat) as Hlen by apply length_le_bytes.
  assert (length MAGIC = 4%nat) as Hm by done. rewrite !app_assoc. rewrite (length_app _ MAGIC), Hm.
  destruct (Nat.ltb_spec (length ((data ++ footer) ++ len) + 4) 8) as [H|_]; [rewrite length_app in H; lia|].
  replace (length ((data ++ footer) ++ len) + 4 - 4)%nat with (length ((data ++ footer) ++ len)) by lia.
  rewrite take_app_length, drop_app_length, bool_decide_eq_true_2 by done. cbn [negb].
  rewrite (length_app (data ++ footer)), Hlen, Nat.add_sub, take_app_length, drop_app_length.
  unfold len. rewrite little_endian_le_bytes by (change (width_bound 4) with (u32_max + 1); lia). rewrite Nat2N.id, length_app.
  destruct (Nat.ltb_spec (length data + length footer) (length footer)); [lia|].
  by rewrite Nat.add_sub, take_app_length, drop_app_length.
Qed.

(** What [encode] writes. *)
Lemma encode_spec l b :
  encode l = Ok b → Forall cell_fits l ∧
  let footer := mjoin (encode_row <$> rows_from 0 l) in
  N.of_nat (length footer) ≤ u32_max ∧ b = data_of l ++ footer ++ le_bytes 4 (N.of_nat (length footer)) ++ MAGIC.
Proof.
  unfold encode. destruct (encode_loop [] [] l) as [[out footer]|] eqn:E; [|done]. apply encode_loop_spec in E as [Hc E].
  apply pair_equal_spec in E as [-> ->]. rewrite !app_nil_l. change (N.of_nat (length (@nil N))) with 0. cbn zeta.
  set (footer := mjoin _). destruct (N.ltb_spec u32_max (N.of_nat (length footer))); [done|]. by intros [= <-].
Qed.

Lemma rows_from_fits off l :
  Forall cell_fits l → Forall (λ e, utf8_valid (bytes_of (be_cell e)) = true ∧ be_epoch e ≤ u64_max ∧ be_txid e ≤ u64_max) l →
  off + N.of_nat (length (data_of l)) ≤ u64_max → Forall row_fits (rows_from off l).
Proof.
  intros Hc Hl. revert off. induction l as [|e l IH]; intros off Hs; [constructor|]. apply Forall_cons in Hc as [Hc1 Hc]. apply Forall_cons in Hl as [(L1 & L2 & L3) Hl].
  unfold data_of in Hs. rewrite fmap_cons in Hs. change (mjoin (?a :: ?k)) with (a ++ mjoin k) in Hs. rewrite length_app in Hs. fold (data_of l) in Hs.
  cbn [rows_from]. constructor; [|apply IH; [done|done|lia]]. split; cbn [row_cell row_epoch row_txid row_offset row_len]; try done; lia.
Qed.

(** Each row's range of the data is its entry's file. *)
Lemma rows_from_slices before l after :
  N.of_nat (length (before ++ data_of l ++ after)) ≤ u64_max →
  Forall2 (λ e r, row_cell r = be_cell e ∧ row_epoch r = be_epoch e ∧ row_txid r = be_txid e
    ∧ row_offset r + row_len r ≤ N.of_nat (length (before ++ data_of l))
    ∧ take (N.to_nat (row_len r)) (drop (N.to_nat (row_offset r)) (before ++ data_of l ++ after)) = be_bytes e)
    l (rows_from (N.of_nat (length before)) l).
Proof.
  revert before. induction l as [|e l IH]; intros before Hs; [constructor|]. cbn [rows_from].
  assert (data_of (e :: l) = be_bytes e ++ data_of l) as E by done. rewrite E in *. rewrite <-app_assoc in *. constructor.
  - cbn [row_cell row_epoch row_txid row_offset row_len]. split; [done|]. split; [done|]. split; [done|]. rewrite !Nat2N.id. split.
    + rewrite !length_app. lia.
    + by rewrite drop_app_length, take_app_length.
  - replace (N.of_nat (length before) + N.of_nat (length (be_bytes e))) with (N.of_nat (length (before ++ be_bytes e))) by (rewrite length_app; lia).
    rewrite !(app_assoc before) in *. by apply IH.
Qed.

(** C22: A bundle gives back what it was made of: its rows name the entries'
    cells, epochs and transactions in order, and each row slices out exactly the
    file of its entry, whatever the files contain. *)
Theorem bundle_roundtrip l b :
  encode l = Ok b → N.of_nat (length b) ≤ u64_max →
  Forall (λ e, utf8_valid (bytes_of (be_cell e)) = true ∧ be_epoch e ≤ u64_max ∧ be_txid e ≤ u64_max) l →
  ∃ rows, decode_rows b = Ok rows
    ∧ Forall2 (λ e r, row_cell r = be_cell e ∧ row_epoch r = be_epoch e ∧ row_txid r = be_txid e ∧ slice b r = Ok (be_bytes e)) l rows.
Proof.
  intros (Hc & Hf & ->)%encode_spec Hb Hl. set (footer := mjoin (encode_row <$> rows_from 0 l)) in *. rewrite length_app in Hb.
  exists (rows_from 0 l). unfold decode_rows, slice. rewrite split_encoded by done. split.
  - apply rows_loop_rows; [|done]. apply rows_from_fits; [done|done|lia].
  - pose proof (rows_from_slices [] l []) as H. rewrite app_nil_r in H. specialize (H ltac:(cbn; lia)).
    eapply Forall2_impl; [exact H|]. cbn [app]. intros e r (H1 & H2 & H3 & H4 & H5). split; [done|]. split; [done|]. split; [done|].
    unfold checked_add. destruct (N.leb_spec (row_offset r + row_len r) u64_max); [|lia]. rewrite (proj2 (N.ltb_ge _ _)) by done. by rewrite H5.
Qed.

Definition sample_entries : list BundleEntry := [mkBundleEntry "a" 1 7 [1; 2; 3]; mkBundleEntry "b" 2 9 []; mkBundleEntry "a" 1 8 [4]].

Lemma bundle_roundtrip_witness :
  ∃ b rows, encode sample_entries = Ok b ∧ decode_rows b = Ok rows
    ∧ Forall2 (λ e r, row_cell r = be_cell e ∧ row_epoch r = be_epoch e ∧ row_txid r = be_txid e ∧ slice b r = Ok (be_bytes e)) sample_entries rows.
Proof.
  destruct (encode sample_entries) as [b|] eqn:E; [|vm_compute in E; discriminate].
  destruct (bundle_roundtrip sample_entries b E) as (rows & H).
  - vm_compute in E. injection E as <-. vm_compute. discriminate.
  - repeat (constructor; [split; [reflexivity|]; split; vm_compute; discriminate|]). constructor.
  - exists b, rows. split; [reflexivity|exact H].
Defined.
End Bundle.
