(* ===== verification/Lz4.v ===== *)
(** * The LZ4 block compressor

    Models [crates/ltx/src/lz4_block.rs], the byte-exact port of the fast block
    compressor LTX files are written with, and states what it must produce: a
    block that the LZ4 block format decodes to the source.  A byte is an [N]
    below 256, a slice a list, a position a [nat].  A read outside the slice is
    the panic [None].  The output buffer is the list of the bytes written so far;
    the size theorem bounds it by the buffer the code allocates. *)

From Stdlib Require Import ZifyN ZifyNat.
From S2P Require Import Prelude Bytes.

Definition MIN_MATCH : nat := 4.
Definition WINDOW_SIZE : N := 65536.
Definition MATCH_FIND_LIMIT : nat := 10 + MIN_MATCH.

(** [compress_bound]. *)
Definition compress_bound (n : nat) : nat := n + n / 255 + 16.

(** A read of [width] bytes in little-endian order. *)
Definition read_le (width : nat) (src : list N) (offset : nat) : option N :=
  guard (offset + width ≤ length src)%nat;; Some (little_endian (take width (drop offset src))).

Definition read_u64_le (src : list N) (offset : nat) : option N := read_le 8 src offset.

Definition u64_wrap (n : N) : N := n mod 18446744073709551616.
Definition u32_wrap (n : N) : N := n mod 4294967296.

Definition PRIME_6_BYTES : N := 227718039650203.

(** [block_hash]. *)
Definition block_hash (value : N) : N :=
  u32_wrap (N.shiftr (u64_wrap (u64_wrap (N.shiftl value 16) * PRIME_6_BYTES)) (64 - 16)).

(** [Compressor]: the positions by hash, and the hashes in use. *)
Record Compressor := mkCompressor {
  co_table : gmap N N;
  co_in_use : gset N;
}.

(** [Compressor::default]. *)
Definition compressor_default : Compressor := mkCompressor ∅ ∅.

(** [Compressor::get]. *)
Definition table_get (c : Compressor) (hash : N) (si : nat) : Z :=
  let hash := N.land hash 65535 in
  let pos := if bool_decide (hash ∈ co_in_use c) then Z.of_N (default 0 (co_table c !! hash)) else 0%Z in
  let pos := (pos + (Z.of_nat si - Z.of_nat si mod 65536))%Z in
  if (Z.of_nat si <=? pos)%Z then (pos - 65536)%Z else pos.

(** [Compressor::put]. *)
Definition table_put (c : Compressor) (hash : N) (si : nat) : Compressor :=
  let hash := N.land hash 65535 in
  mkCompressor (<[hash := N.of_nat si mod 65536]> (co_table c)) ({[hash]} ∪ co_in_use c).

(** [matches_at]. *)
Definition matches_at (src : list N) (value : N) (reference offset : Z) : option bool :=
  if (0 <? offset)%Z && (offset <? Z.of_N WINDOW_SIZE)%Z && (0 <=? reference)%Z
  then candidate ← read_le 4 src (Z.to_nat reference); Some (value =? candidate)
  else Some false.

(** The search at [si] and the two positions after it: where it ends, and the
    distance back to the match if there is one. *)
Definition find_match (c : Compressor) (src : list N) (si : nat) : option (Compressor * nat * option nat) :=
  matched ← read_u64_le src si;
  let hash := block_hash matched in
  let hash2 := block_hash (N.shiftr matched 8) in
  let reference := table_get c hash si in
  let reference2 := table_get c hash2 (si + 1) in
  let c := table_put c hash si in
  let c := table_put c hash2 (si + 1) in
  let offset := (Z.of_nat si - reference)%Z in
  here ← matches_at src (u32_wrap matched) reference offset;
  if here : bool then Some (c, si, Some (Z.to_nat offset))
  else
    let hash := block_hash (N.shiftr matched 16) in
    let reference3 := table_get c hash (si + 2) in
    let si := (si + 1)%nat in
    let offset := (Z.of_nat si - reference2)%Z in
    next ← matches_at src (u32_wrap (N.shiftr matched 8)) reference2 offset;
    if next : bool then Some (c, si, Some (Z.to_nat offset))
    else
      let si := (si + 1)%nat in
      let offset := (Z.of_nat si - reference3)%Z in
      let c := table_put c hash si in
      third ← matches_at src (u32_wrap (N.shiftr matched 16)) reference3 offset;
      if third : bool then Some (c, si, Some (Z.to_nat offset))
      else Some (c, si, None).

(** The [while] that extends a match backwards over the literals. *)
Fixpoint extend_back (src : list N) (offset literal_len si match_len : nat) : option (nat * nat * nat) :=
  match literal_len with
  | O => Some (O, si, match_len)
  | S shorter =>
      if Nat.leb (offset + 1) si then
        before ← src !! (si - 1)%nat;
        target ← src !! (si - offset - 1)%nat;
        if before =? target then extend_back src offset shorter (si - 1) (match_len + 1)
        else Some (literal_len, si, match_len)
      else Some (literal_len, si, match_len)
  end.

(** [u64::trailing_zeros] of a number that is not zero. *)
Fixpoint trailing_zeros_pos (p : positive) : nat :=
  match p with
  | xO p => S (trailing_zeros_pos p)
  | _ => O
  end.

Definition trailing_zeros (n : N) : nat :=
  match n with N0 => 64 | Npos p => trailing_zeros_pos p end.

(** The [while] that extends a match forwards, eight bytes at a time. *)
Fixpoint extend_forward (fuel : nat) (src : list N) (offset sn si : nat) : option nat :=
  match fuel with
  | O => None
  | S fuel =>
      if Nat.leb (si + 8) sn then
        here ← read_u64_le src si;
        back ← read_u64_le src (si - offset);
        let diff := N.lxor here back in
        if diff =? 0 then extend_forward fuel src offset sn (si + 8)
        else Some (si + trailing_zeros diff / 8)%nat
      else Some si
  end.

(** [write_length]. *)
Fixpoint write_length (fuel : nat) (len : nat) : list N :=
  match fuel with
  | O => []
  | S fuel => if Nat.leb 255 len then 255 :: write_length fuel (len - 255) else [N.of_nat len]
  end.

Definition length_bytes (len : nat) : list N := write_length (S len) len.

(** The bytes of one sequence: token, literals, distance, and the lengths that
    do not fit the token. *)
Definition sequence (literals : list N) (offset match_len : nat) : list N :=
  let literal_len := length literals in
  let token := N.lor (N.of_nat (match_len `min` 15))
                     (if Nat.ltb literal_len 15 then N.of_nat (literal_len * 16) else 240) in
  [token] ++ (if Nat.ltb literal_len 15 then [] else length_bytes (literal_len - 15)) ++ literals
  ++ [N.of_nat offset mod 256; N.of_nat offset / 256 mod 256]
  ++ (if Nat.leb 15 match_len then length_bytes (match_len - 15) else []).

(** The last literals. *)
Definition last_literals (literals : list N) : list N :=
  let literal_len := length literals in
  (if Nat.ltb literal_len 15 then [N.of_nat (literal_len * 16)]
   else 240 :: length_bytes (literal_len - 15))
  ++ literals.

(** The main [while] of [Compressor::compress]; every turn moves [si] forward. *)
Fixpoint compress_loop (fuel : nat) (c : Compressor) (src : list N) (sn si anchor : nat) (dst : list N) :
    option (Compressor * nat * list N) :=
  match fuel with
  | O => None
  | S fuel =>
      if Nat.ltb si sn then
        '(c, si, found) ← find_match c src si;
        match found with
        | None => compress_loop fuel c src sn (si + (2 + (si - anchor) / 128)) anchor dst
        | Some offset =>
            '(literal_len, si, match_len) ← extend_back src offset (si - anchor) si MIN_MATCH;
            let match_base := (si + MIN_MATCH)%nat in
            si ← extend_forward (S (length src)) src offset sn (si + match_len);
            let match_len := (si - match_base)%nat in
            let dst := dst ++ sequence (take literal_len (drop anchor src)) offset match_len in
            if Nat.leb sn si then Some (c, si, dst)
            else
              recent ← read_u64_le src (si - 2);
              compress_loop fuel (table_put c (block_hash recent) (si - 2)) src sn si si dst
        end
      else Some (c, anchor, dst)
  end.

(** [Compressor::compress]. *)
Definition compress (c : Compressor) (src : list N) : option (Compressor * list N) :=
  let c := mkCompressor (co_table c) ∅ in
  let sn := (length src - MATCH_FIND_LIMIT)%nat in
  '(c, anchor, dst) ←
    (if Nat.ltb MATCH_FIND_LIMIT (length src) then compress_loop (S (length src)) c src sn 0 0 []
     else Some (c, O, []));
  Some (c, dst ++ last_literals (drop anchor src)).

(** ** The block format

    What a decoder of the LZ4 block format does. *)

(** A length that continues in further bytes. *)
Fixpoint read_length (bytes : list N) (acc : nat) : option (nat * list N) :=
  match bytes with
  | [] => None
  | b :: bytes => if b =? 255 then read_length bytes (acc + 255) else Some ((acc + N.to_nat b)%nat, bytes)
  end.

Definition read_nibble (nibble : N) (bytes : list N) : option (nat * list N) :=
  if nibble =? 15 then read_length bytes 15 else Some (N.to_nat nibble, bytes).

(** A match: [n] bytes from [offset] back, which may overlap what it writes. *)
Fixpoint copy_match (out : list N) (offset n : nat) : option (list N) :=
  match n with
  | O => Some out
  | S n =>
      if Nat.leb 1 offset && Nat.leb offset (length out) then
        b ← out !! (length out - offset)%nat; copy_match (out ++ [b]) offset n
      else None
  end.

Fixpoint decode_block (fuel : nat) (out bytes : list N) : option (list N) :=
  match fuel, bytes with
  | S fuel, token :: bytes =>
      '(literal_len, bytes) ← read_nibble (token / 16) bytes;
      if Nat.ltb (length bytes) literal_len then None
      else
        let out := out ++ take literal_len bytes in
        match drop literal_len bytes with
        | [] => Some out
        | low :: high :: bytes =>
            '(match_len, bytes) ← read_nibble (token mod 16) bytes;
            out ← copy_match out (N.to_nat (low + 256 * high)) (match_len + MIN_MATCH);
            decode_block fuel out bytes
        | [_] => None
        end
  | _, _ => None
  end.

Definition lz4_decode (bytes : list N) : option (list N) := decode_block (length bytes) [] bytes.

(** ** Encodings of a length *)

Lemma length_bytes_spec fuel len :
  (len < fuel)%nat →
  (∀ rest acc, read_length (write_length fuel len ++ rest) acc = Some ((acc + len)%nat, rest))
  ∧ length (write_length fuel len) = (len / 255 + 1)%nat
  ∧ bytes_ok (write_length fuel len).
Proof.
  revert len. induction fuel as [|fuel IH]; intros len Hf; [lia|]. cbn [write_length].
  destruct (Nat.leb_spec 255 len).
  - destruct (IH (len - 255)%nat) as (Hr & Hl & Hok); [lia|]. split; [|split].
    + intros rest acc. cbn [app read_length]. rewrite N.eqb_refl, Hr. do 2 f_equal. lia.
    + cbn [length]. rewrite Hl. lia.
    + constructor; [lia|done].
  - split; [|split].
    + intros rest acc. cbn [app read_length]. destruct (N.eqb_spec (N.of_nat len) 255); [lia|].
      by rewrite Nat2N.id.
    + by rewrite Nat.div_small.
    + constructor; [lia|constructor].
Qed.

(** A nibble and its continuation, as both lengths of a sequence write them. *)
Definition nibble_of (len : nat) : N := N.of_nat (len `min` 15).
Definition continuation (len : nat) : list N := if Nat.ltb len 15 then [] else length_bytes (len - 15).

Lemma read_nibble_spec len rest : read_nibble (nibble_of len) (continuation len ++ rest) = Some (len, rest).
Proof.
  unfold read_nibble, nibble_of, continuation. destruct (Nat.ltb_spec len 15).
  - destruct (N.eqb_spec (N.of_nat (len `min` 15)) 15); [lia|]. rewrite Nat.min_l by lia. by rewrite Nat2N.id.
  - rewrite Nat.min_r by done. change (N.of_nat 15 =? 15) with true. cbv iota. unfold length_bytes.
    destruct (length_bytes_spec (S (len - 15)) (len - 15)) as [-> _]; [lia|]. do 2 f_equal. lia.
Qed.

Lemma length_continuation len :
  length (continuation len) = if Nat.ltb len 15 then O else ((len - 15) / 255 + 1)%nat.
Proof.
  unfold continuation. destruct (Nat.ltb len 15); [done|]. unfold length_bytes.
  by destruct (length_bytes_spec (S (len - 15)) (len - 15)) as (_ & -> & _); [lia|].
Qed.

Lemma continuation_ok len : bytes_ok (continuation len).
Proof.
  unfold continuation. destruct (Nat.ltb len 15); [constructor|]. unfold length_bytes.
  destruct (length_bytes_spec (S (len - 15)) (len - 15)) as (_ & _ & ?); [lia|done].
Qed.

Lemma sequence_eq literals offset match_len :
  sequence literals offset match_len
  = (nibble_of (length literals) * 16 + nibble_of match_len)
      :: continuation (length literals) ++ literals
      ++ le_bytes 2 (N.of_nat offset) ++ continuation match_len.
Proof.
  unfold sequence. cbn [le_bytes app]. f_equal.
  - replace (if Nat.ltb (length literals) 15 then N.of_nat (length literals * 16) else 240)
      with (N.shiftl (nibble_of (length literals)) 4).
    + rewrite lor_shiftl; [done|]. unfold nibble_of. change (2 ^ 4) with 16. lia.
    + unfold nibble_of. rewrite N.shiftl_mul_pow2. change (2 ^ 4) with 16.
      destruct (Nat.ltb_spec (length literals) 15); lia.
  - unfold continuation. destruct (Nat.ltb_spec match_len 15), (Nat.leb_spec 15 match_len); try lia; done.
Qed.

Lemma last_literals_eq literals :
  last_literals literals = nibble_of (length literals) * 16 :: continuation (length literals) ++ literals.
Proof.
  unfold last_literals, nibble_of, continuation. destruct (Nat.ltb_spec (length literals) 15).
  - cbn [app]. f_equal. lia.
  - cbn [app]. rewrite Nat.min_r by done. done.
Qed.

Lemma nibble_of_lt len : nibble_of len < 16.
Proof. unfold nibble_of. lia. Qed.

Lemma token_parts high low : low < 16 → (high * 16 + low) / 16 = high ∧ (high * 16 + low) mod 16 = low.
Proof. lia. Qed.

Lemma u16_parts n : n < 65536 → n mod 256 + 256 * (n / 256 mod 256) = n.
Proof. intros. rewrite (N.mod_small (n / 256)) by lia. lia. Qed.

(** ** What a decoder makes of the blocks written *)

Lemma decode_sequence fuel out literals offset match_len rest :
  N.of_nat offset < 65536 →
  decode_block (S fuel) out (sequence literals offset match_len ++ rest)
  = out' ← copy_match (out ++ literals) offset (match_len + MIN_MATCH); decode_block fuel out' rest.
Proof.
  intros Hoff. rewrite sequence_eq. cbn [app decode_block].
  destruct (token_parts (nibble_of (length literals)) (nibble_of match_len)) as [-> ->].
  { apply nibble_of_lt. }
  rewrite <- !app_assoc. rewrite read_nibble_spec. cbn [mbind option_bind].
  rewrite length_app. destruct (Nat.ltb_spec (length literals + length (le_bytes 2 (N.of_nat offset)
    ++ continuation match_len ++ rest)) (length literals)); [lia|].
  rewrite take_app_length, drop_app_length. cbn [le_bytes app].
  rewrite read_nibble_spec. cbn [mbind option_bind].
  by rewrite u16_parts, Nat2N.id by done.
Qed.

Lemma decode_last fuel out literals : decode_block (S fuel) out (last_literals literals) = Some (out ++ literals).
Proof.
  rewrite last_literals_eq. cbn [decode_block].
  destruct (token_parts (nibble_of (length literals)) 0) as [E _]; [lia|].
  rewrite N.add_0_r in E. rewrite E, read_nibble_spec. cbn [mbind option_bind].
  rewrite Nat.ltb_irrefl, take_ge, drop_ge by done. done.
Qed.

(** The bytes of [lo, hi) are those [offset] before them. *)
Definition repeats (src : list N) (offset lo hi : nat) : Prop :=
  (1 ≤ offset ≤ lo)%nat ∧ (hi ≤ length src)%nat
  ∧ ∀ i, (lo ≤ i < hi)%nat → src !! i = src !! (i - offset)%nat.

Lemma copy_match_repeats src offset p n :
  repeats src offset p (p + n) → copy_match (take p src) offset n = Some (take (p + n) src).
Proof.
  revert p. induction n as [|n IH]; intros p (Hoff & Hlen & Hrep); cbn [copy_match].
  { by rewrite Nat.add_0_r. }
  rewrite length_take_le by lia.
  destruct (Nat.leb_spec 1 offset); [|lia]. destruct (Nat.leb_spec offset p); [|lia]. cbn [andb].
  rewrite lookup_take_lt, <- (Hrep p) by lia.
  destruct (lookup_lt_is_Some_2 src p) as [b Hb]; [lia|]. rewrite Hb. cbn [mbind option_bind].
  rewrite <- take_S_r by done. rewrite IH; [do 2 f_equal; lia|].
  split; [lia|]. split; [lia|]. intros i Hi. apply Hrep. lia.
Qed.

(** More fuel decodes the same. *)
Lemma decode_block_fuel fuel fuel' out bytes r :
  decode_block fuel out bytes = Some r → (fuel ≤ fuel')%nat → decode_block fuel' out bytes = Some r.
Proof.
  revert fuel' out bytes. induction fuel as [|fuel IH]; intros fuel' out bytes H Hle; [done|].
  destruct fuel' as [|fuel']; [lia|]. destruct bytes as [|token bytes]; [done|].
  revert H. cbn [decode_block]. destruct (read_nibble (token / 16) bytes) as [[lit rest]|]; [|done].
  cbn [mbind option_bind]. destruct (Nat.ltb (length rest) lit); [done|].
  destruct (drop lit rest) as [|low [|high tail]]; [done..|].
  destruct (read_nibble (token mod 16) tail) as [[ml tail']|]; [|done]. cbn [mbind option_bind].
  destruct (copy_match _ _ _) as [out'|]; [|done]. cbn [mbind option_bind]. intros H. apply IH; [done|lia].
Qed.

(** ** The search and the two extensions *)

Definition window (width : nat) (src : list N) (o : nat) : list N := take width (drop o src).

Lemma read_le_Some width src o :
  (o + width ≤ length src)%nat → read_le width src o = Some (little_endian (window width src o)).
Proof. intros. unfold read_le. by rewrite option_guard_True. Qed.

Lemma length_window width src o : (o + width ≤ length src)%nat → length (window width src o) = width.
Proof. intros. unfold window. rewrite length_take, length_drop. lia. Qed.

Lemma window_ok width src o : bytes_ok src → bytes_ok (window width src o).
Proof. unfold window. auto with bytes. Qed.

(** Windows with the same first bytes. *)
Lemma windows_agree width src p q n :
  (n ≤ width)%nat → take n (window width src p) = take n (window width src q) →
  ∀ i, (i < n)%nat → src !! (p + i)%nat = src !! (q + i)%nat.
Proof.
  intros Hn E i Hi. apply (f_equal (lookup i)) in E. unfold window in E.
  rewrite !lookup_take_lt, !lookup_drop in E by lia. done.
Qed.

Lemma windows_repeat src width offset lo si n :
  (n ≤ width)%nat → (si + n ≤ length src)%nat → repeats src offset lo si → (lo ≤ si)%nat →
  take n (window width src si) = take n (window width src (si - offset)) →
  repeats src offset lo (si + n).
Proof.
  intros Hn Hlen (Hoff & _ & Hrep) Hlo E. split; [done|]. split; [done|].
  intros i Hi. destruct (decide (i < si)%nat); [apply Hrep; lia|].
  pose proof (windows_agree width src si (si - offset) n Hn E (i - si)) as Hag.
  replace i with (si + (i - si))%nat at 1 by lia. rewrite Hag by lia. f_equal. lia.
Qed.

Lemma window_shift src si k :
  bytes_ok src → (si + 8 ≤ length src)%nat → (k ≤ 4)%nat →
  u32_wrap (N.shiftr (little_endian (window 8 src si)) (8 * N.of_nat k))
  = little_endian (window 4 src (si + k)).
Proof.
  intros Hok Hlen Hk. pose proof (length_window 8 src si Hlen) as Hw.
  pose proof (window_ok 8 src si Hok) as Hwok.
  destruct (little_endian_take_drop (window 8 src si) k Hwok) as [_ Hd]; [lia|].
  assert (bytes_ok (drop k (window 8 src si))) as Hdok by auto with bytes.
  destruct (little_endian_take_drop (drop k (window 8 src si)) 4 Hdok) as [Ht _].
  { rewrite length_drop. lia. }
  unfold u32_wrap. rewrite N.shiftr_div_pow2, N.pow_mul_r. change (2 ^ 8) with 256.
  fold (width_bound k). rewrite <- Hd. change 4294967296 with (width_bound 4). rewrite <- Ht.
  f_equal. unfold window. rewrite skipn_firstn_comm, take_take, drop_drop. f_equal. lia.
Qed.

(** A distance the search accepts at [p]. *)
Definition match_at (src : list N) (offset p : nat) : Prop :=
  N.of_nat offset < 65536 ∧ repeats src offset p (p + MIN_MATCH).

Lemma matches_at_spec src p reference :
  bytes_ok src → (p + 4 ≤ length src)%nat →
  ∃ b, matches_at src (little_endian (window 4 src p)) reference (Z.of_nat p - reference) = Some b
       ∧ (b = true → match_at src (Z.to_nat (Z.of_nat p - reference)) p).
Proof.
  intros Hok Hlen. unfold matches_at, WINDOW_SIZE.
  destruct (Z.ltb_spec 0 (Z.of_nat p - reference)); [|by exists false].
  destruct (Z.ltb_spec (Z.of_nat p - reference) (Z.of_N 65536)); [|by exists false].
  destruct (Z.leb_spec 0 reference); [|by exists false]. cbn [andb].
  rewrite read_le_Some by lia. cbn [mbind option_bind]. eexists. split; [done|].
  intros E%N.eqb_eq. split; [lia|]. unfold MIN_MATCH. apply (windows_repeat src 4 _ p p 4); [lia..| |lia|].
  - split; [lia|]. split; [lia|]. intros; lia.
  - apply (little_endian_inj) in E; [|by apply window_ok..|by rewrite !length_window by lia].
    f_equal. rewrite E. f_equal. lia.
Qed.

Lemma find_match_spec c src si :
  bytes_ok src → (si + 8 ≤ length src)%nat →
  ∃ c' si' found, find_match c src si = Some (c', si', found) ∧ (si ≤ si' ≤ si + 2)%nat
    ∧ match found with Some offset => match_at src offset si' | None => si' = (si + 2)%nat end.
Proof.
  intros Hok Hlen. unfold find_match, read_u64_le. rewrite read_le_Some by done. cbn [mbind option_bind].
  pose proof (window_shift src si 0 Hok Hlen ltac:(lia)) as E0.
  pose proof (window_shift src si 1 Hok Hlen ltac:(lia)) as E1.
  pose proof (window_shift src si 2 Hok Hlen ltac:(lia)) as E2.
  change (8 * N.of_nat 0) with 0 in E0. change (8 * N.of_nat 1) with 8 in E1.
  change (8 * N.of_nat 2) with 16 in E2. rewrite N.shiftr_0_r, Nat.add_0_r in E0.
  replace (si + 1 + 1)%nat with (si + 2)%nat by lia. rewrite E0, E1, E2.
  edestruct (matches_at_spec src si) as ([] & -> & Hm); [done|lia|..]; cbn [mbind option_bind].
  { eexists _, _, _. split; [done|]. split; [lia|]. by apply Hm. }
  edestruct (matches_at_spec src (si + 1)) as ([] & -> & Hm1); [done|lia|..]; cbn [mbind option_bind].
  { eexists _, _, _. split; [done|]. split; [lia|]. by apply Hm1. }
  edestruct (matches_at_spec src (si + 2)) as ([] & -> & Hm2); [done|lia|..]; cbn [mbind option_bind].
  { eexists _, _, _. split; [done|]. split; [lia|]. by apply Hm2. }
  eexists _, _, _. split; [done|]. split; [lia|done].
Qed.

Lemma extend_back_spec src offset anchor literal_len si match_len :
  repeats src offset si (si + match_len) → (anchor + literal_len = si)%nat →
  ∃ ll' si' ml', extend_back src offset literal_len si match_len = Some (ll', si', ml')
    ∧ (anchor + ll' = si')%nat ∧ (si' + ml' = si + match_len)%nat ∧ (match_len ≤ ml')%nat
    ∧ repeats src offset si' (si' + ml').
Proof.
  revert si match_len. induction literal_len as [|ll IH]; intros si ml Hrep Hsi; cbn [extend_back].
  { eexists _, _, _. split; [done|]. split; [done|]. done. }
  destruct Hrep as (Hoff & Hlen & Hrep).
  assert (∃ ll' si' ml', Some (S ll, si, ml) = Some (ll', si', ml') ∧ (anchor + ll' = si')%nat
            ∧ (si' + ml' = si + ml)%nat ∧ (ml ≤ ml')%nat ∧ repeats src offset si' (si' + ml')) as Hstop.
  { eexists _, _, _. by split_and!. }
  destruct (Nat.leb_spec (offset + 1) si); [|exact Hstop].
  destruct (lookup_lt_is_Some_2 src (si - 1)) as [b Hb]; [lia|].
  destruct (lookup_lt_is_Some_2 src (si - offset - 1)) as [d Hd]; [lia|].
  rewrite Hb, Hd. cbn [mbind option_bind]. destruct (N.eqb_spec b d) as [E|]; [|exact Hstop].
  destruct (IH (si - 1)%nat (ml + 1)%nat) as (ll' & si' & ml' & -> & ? & ? & ? & ?); [|lia|].
  - split; [lia|]. split; [lia|]. intros i Hi. destruct (decide (i = si - 1)%nat) as [Ei|].
    + rewrite Ei, Hb, E, <- Hd. f_equal. lia.
    + apply Hrep. lia.
  - exists ll', si', ml'. split_and!; try done; lia.
Qed.

Lemma trailing_zeros_pos_spec p :
  N.testbit (Npos p) (N.of_nat (trailing_zeros_pos p)) = true
  ∧ ∀ i, i < N.of_nat (trailing_zeros_pos p) → N.testbit (Npos p) i = false.
Proof.
  induction p as [p _|p [IH1 IH2]|]; cbn [trailing_zeros_pos].
  - split; [done|]. intros i Hi. lia.
  - change (Npos (xO p)) with (2 * Npos p). rewrite Nat2N.inj_succ, N.testbit_even_succ'. split; [done|].
    intros i Hi. destruct (N.eq_dec i 0) as [->|]; [done|].
    rewrite <- (N.succ_pred i), N.testbit_even_succ' by done. apply IH2. lia.
  - split; [done|]. intros i Hi. lia.
Qed.

(** The whole bytes below the first difference are equal. *)
Lemma first_difference a b k :
  a < width_bound 8 → b < width_bound 8 → N.lxor a b ≠ 0 → k = (trailing_zeros (N.lxor a b) / 8)%nat →
  (k < 8)%nat ∧ a mod width_bound k = b mod width_bound k.
Proof.
  intros Ha Hb Hne ->. destruct (N.lxor a b) as [|p] eqn:E; [done|]. cbn [trailing_zeros].
  destruct (trailing_zeros_pos_spec p) as [Hbit Hlow]. set (tz := trailing_zeros_pos p) in *.
  change (width_bound 8) with (2 ^ 64) in Ha, Hb. split.
  - destruct (decide (tz < 64)%nat); [lia|]. rewrite <- E, N.lxor_spec in Hbit.
    by rewrite !(testbit_above _ 64) in Hbit by (done || lia).
  - unfold width_bound. change 256 with (2 ^ 8). rewrite <- N.pow_mul_r.
    apply N.bits_inj. intros i. destruct (N.ltb_spec i (8 * N.of_nat (tz / 8))) as [Hi|Hi].
    + rewrite !N.mod_pow2_bits_low by done. specialize (Hlow i ltac:(lia)).
      rewrite <- E, N.lxor_spec in Hlow. by apply xorb_eq.
    + by rewrite !N.mod_pow2_bits_high.
Qed.

Lemma extend_forward_spec fuel src offset sn lo si :
  bytes_ok src → (sn ≤ length src)%nat → repeats src offset lo si → (lo ≤ si)%nat → (sn - si < fuel)%nat →
  ∃ si', extend_forward fuel src offset sn si = Some si' ∧ (si ≤ si')%nat ∧ (si' ≤ si ∨ si' ≤ sn)%nat
         ∧ repeats src offset lo si'.
Proof.
  intros Hok Hsn. revert si. induction fuel as [|fuel IH]; intros si Hrep Hlo Hf; [lia|].
  cbn [extend_forward]. destruct (Nat.leb_spec (si + 8) sn); [|exists si; split_and!; auto; lia].
  pose proof Hrep as (Hoff & Hlen & _). unfold read_u64_le. rewrite !read_le_Some by lia.
  cbn [mbind option_bind]. set (a := window 8 src si). set (b := window 8 src (si - offset)).
  assert (length a = 8 ∧ length b = 8)%nat as [Hla Hlb] by (split; apply length_window; lia).
  assert (bytes_ok a ∧ bytes_ok b) as [Ha Hb] by (split; by apply window_ok).
  pose proof (little_endian_lt a Ha) as Hwa. pose proof (little_endian_lt b Hb) as Hwb.
  rewrite Hla in Hwa. rewrite Hlb in Hwb.
  destruct (N.eqb_spec (N.lxor (little_endian a) (little_endian b)) 0) as [E|E].
  - apply N.lxor_eq, little_endian_inj in E; [|done..|by rewrite Hla].
    destruct (IH (si + 8)%nat) as (si' & -> & ? & ? & ?); [|lia..|exists si'; split_and!; auto; lia].
    apply (windows_repeat src 8); [lia..|done|done|]. unfold a, b in E. by rewrite E.
  - destruct (first_difference _ _ _ Hwa Hwb E eq_refl) as [Hk Hmod].
    eexists. split; [done|]. set (k := (trailing_zeros _ / 8)%nat) in *.
    split; [lia|]. split; [right; lia|]. apply (windows_repeat src 8); [lia..|done|done|].
    fold a b. destruct (little_endian_take_drop a k Ha) as [Eta _]; [lia|].
    destruct (little_endian_take_drop b k Hb) as [Etb _]; [lia|].
    apply little_endian_inj; [auto with bytes..|by rewrite !length_take, Hla, Hlb|]. congruence.
Qed.

(** ** The block so far

    After [anchor] bytes of the source the block decodes to exactly those
    bytes, whatever follows, and has room to spare. *)
Definition written (src : list N) (anchor : nat) (dst : list N) : Prop :=
  (anchor ≤ length src)%nat ∧ bytes_ok dst ∧ (255 * length dst ≤ 256 * anchor)%nat
  ∧ ∃ k, (k ≤ length dst)%nat ∧ ∀ fuel rest,
      decode_block (k + fuel) [] (dst ++ rest) = decode_block fuel (take anchor src) rest.

Lemma written_nil src : written src 0 [].
Proof. split; [lia|]. split; [constructor|]. split; [done|]. exists O. by split. Qed.

Lemma sequence_ok literals offset match_len : bytes_ok literals → bytes_ok (sequence literals offset match_len).
Proof.
  intros. rewrite sequence_eq. pose proof (nibble_of_lt (length literals)). pose proof (nibble_of_lt match_len).
  constructor; [lia|]. pose proof continuation_ok.
  repeat apply bytes_ok_app; auto with bytes.
Qed.

Lemma sequence_size literals offset match_len :
  (255 * length (sequence literals offset match_len) ≤ 256 * (length literals + match_len + MIN_MATCH))%nat.
Proof.
  rewrite sequence_eq. cbn [length]. rewrite !length_app, !length_continuation, length_le_bytes.
  unfold MIN_MATCH. destruct (Nat.ltb_spec (length literals) 15), (Nat.ltb_spec match_len 15); lia.
Qed.

Lemma written_sequence src anchor dst literal_len offset lo hi :
  bytes_ok src → written src anchor dst → (anchor + literal_len = lo)%nat → N.of_nat offset < 65536 →
  repeats src offset lo hi → (lo + MIN_MATCH ≤ hi)%nat →
  written src hi (dst ++ sequence (take literal_len (drop anchor src)) offset (hi - (lo + MIN_MATCH))).
Proof.
  intros Hsrc (Ha & Hok & Hsize & k & Hk & Hdec) Hlo Hoff Hrep Hhi. pose proof Hrep as (_ & Hlen & _).
  pose proof (sequence_size (take literal_len (drop anchor src)) offset (hi - (lo + MIN_MATCH))) as Hs.
  rewrite length_take, length_drop, Nat.min_l in Hs by lia. split; [done|]. split; [|split].
  - apply bytes_ok_app; [done|]. apply sequence_ok. auto with bytes.
  - rewrite length_app. lia.
  - exists (k + 1)%nat. split.
    + rewrite length_app, sequence_eq. cbn [length]. lia.
    + intros fuel rest. rewrite <- app_assoc, <- Nat.add_assoc, Hdec. change (1 + fuel)%nat with (S fuel).
      rewrite decode_sequence by done. rewrite take_take_drop.
      replace (anchor + literal_len)%nat with lo by lia.
      replace (hi - (lo + MIN_MATCH) + MIN_MATCH)%nat with (hi - lo)%nat by lia.
      rewrite copy_match_repeats; [|by replace (lo + (hi - lo))%nat with hi by lia].
      cbn [mbind option_bind]. by replace (lo + (hi - lo))%nat with hi by lia.
Qed.

Lemma compress_loop_spec fuel c src sn si anchor dst :
  bytes_ok src → (sn + MATCH_FIND_LIMIT = length src)%nat → written src anchor dst → (anchor ≤ si)%nat →
  (sn - si < fuel)%nat →
  ∃ c' anchor' dst', compress_loop fuel c src sn si anchor dst = Some (c', anchor', dst')
    ∧ written src anchor' dst'.
Proof.
  intros Hok Hsn. revert c si anchor dst. induction fuel as [|fuel IH]; intros c si anchor dst Hw Ha Hf; [lia|].
  unfold MATCH_FIND_LIMIT, MIN_MATCH in *.
  cbn [compress_loop]. destruct (Nat.ltb_spec si sn); [|by eexists _, _, _].
  destruct (find_match_spec c src si) as (c' & si' & [offset|] & -> & Hsi & Hm); [done|lia|..]; cbn [mbind option_bind].
  2:{ apply IH; [done|lia|]. lia. }
  destruct Hm as [Hoff Hrep].
  destruct (extend_back_spec src offset anchor (si' - anchor) si' MIN_MATCH Hrep) as
    (ll & si2 & ml & -> & Hll & Hsum & Hml & Hrep2); [lia|]. cbn [mbind option_bind].
  destruct (extend_forward_spec (S (length src)) src offset sn si2 (si2 + ml)) as
    (si3 & -> & Hge & Hle & Hrep3); [done|lia|done|lia|lia|]. cbn [mbind option_bind].
  unfold MIN_MATCH in *.
  assert (written src si3 (dst ++ sequence (take ll (drop anchor src)) offset (si3 - (si2 + 4)))) as Hw'.
  { eapply (written_sequence src anchor dst ll offset si2 si3); try done. unfold MIN_MATCH. lia. }
  destruct (Nat.leb_spec sn si3); [by eexists _, _, _|].
  unfold read_u64_le. rewrite read_le_Some by lia. cbn [mbind option_bind]. apply IH; [done|lia|lia].
Qed.

Lemma compress_written c src :
  bytes_ok src → ∃ c' anchor dst,
    compress c src = Some (c', dst ++ last_literals (drop anchor src)) ∧ written src anchor dst.
Proof.
  intros Hok. unfold compress. destruct (Nat.ltb_spec MATCH_FIND_LIMIT (length src)).
  - destruct (compress_loop_spec (S (length src)) (mkCompressor (co_table c) ∅) src
      (length src - MATCH_FIND_LIMIT) 0 0 []) as (c' & anchor & dst & -> & Hw);
      [done|lia|apply written_nil|lia..|]. by eexists _, _, _.
  - eexists _, O, []. split; [done|]. apply written_nil.
Qed.

(** ** A reused compressor

    Two compressors whose live entries are the same search alike, so the bytes
    do not depend on what an earlier call left behind. *)
Definition same_tables (c d : Compressor) : Prop :=
  co_in_use c = co_in_use d ∧ ∀ h, h ∈ co_in_use c → co_table c !! h = co_table d !! h.

Lemma same_get c d hash si : same_tables c d → table_get c hash si = table_get d hash si.
Proof.
  intros [Hu Ht]. unfold table_get. rewrite <- Hu. case_bool_decide as Hin; [|done]. by rewrite (Ht _ Hin).
Qed.

Lemma same_put c d hash si : same_tables c d → same_tables (table_put c hash si) (table_put d hash si).
Proof.
  intros [Hu Ht]. unfold table_put. split; cbn [co_in_use co_table]; [by rewrite Hu|].
  intros h Hin. destruct (decide (h = N.land hash 65535)) as [->|Hne]; [by rewrite !lookup_insert_eq|].
  rewrite !lookup_insert_ne by done. apply Ht. set_solver.
Qed.

#[local] Hint Resolve same_put : core.

Lemma same_find_match c d src si :
  same_tables c d →
  match find_match c src si, find_match d src si with
  | Some (c', si1, found1), Some (d', si2, found2) => same_tables c' d' ∧ si1 = si2 ∧ found1 = found2
  | None, None => True
  | _, _ => False
  end.
Proof.
  intros Hs. unfold find_match. destruct (read_u64_le src si) as [m|]; cbn [mbind option_bind]; [|done].
  rewrite <- !(same_get c d) by done.
  rewrite <- (same_get (table_put (table_put c _ _) _ _) (table_put (table_put d _ _) _ _)) by auto.
  destruct (matches_at src (u32_wrap m) _ _) as [[]|]; cbn [mbind option_bind]; [by auto| |done].
  destruct (matches_at src (u32_wrap (N.shiftr m 8)) _ _) as [[]|]; cbn [mbind option_bind]; [by auto| |done].
  destruct (matches_at _ _ _ _) as [[]|]; cbn [mbind option_bind]; auto 10.
Qed.

Lemma same_compress_loop fuel c d src sn si anchor dst :
  same_tables c d →
  (λ r, (r.1.2, r.2)) <$> compress_loop fuel c src sn si anchor dst
  = (λ r, (r.1.2, r.2)) <$> compress_loop fuel d src sn si anchor dst.
Proof.
  revert c d si anchor dst. induction fuel as [|fuel IH]; intros c d si anchor dst Hs; [done|].
  cbn [compress_loop]. destruct (Nat.ltb si sn); [|done]. pose proof (same_find_match c d src si Hs) as Hf.
  destruct (find_match c src si) as [[[c' si1] found1]|], (find_match d src si) as [[[d' si2] found2]|]; try done.
  destruct Hf as (Hs' & <- & <-). cbn [mbind option_bind]. destruct found1 as [offset|]; [|by apply IH].
  destruct (extend_back _ _ _ _ _) as [[[ll si2] ml]|]; [|done]. cbn [mbind option_bind].
  destruct (extend_forward _ _ _ _ _) as [si3|]; [|done]. cbn [mbind option_bind].
  destruct (Nat.leb sn si3); [done|]. destruct (read_u64_le _ _) as [v|]; [|done]. cbn [mbind option_bind]. auto.
Qed.

Lemma compress_reuse c d src : snd <$> compress c src = snd <$> compress d src.
Proof.
  unfold compress. destruct (Nat.ltb MATCH_FIND_LIMIT (length src)); [|done].
  pose proof (same_compress_loop (S (length src)) (mkCompressor (co_table c) ∅) (mkCompressor (co_table d) ∅) src
    (length src - MATCH_FIND_LIMIT) 0 0 [] ltac:(by split)) as E.
  destruct (compress_loop _ _ _ _ _ _ _) as [[[c' a] l]|], (compress_loop _ _ _ _ _ _ _) as [[[d' a'] l']|];
    cbn in E |- *; try done; by injection E as <- <-.
Qed.

(** What the whole-file codec needs of a block. *)
Lemma compress_decodes c src :
  bytes_ok src → ∃ c' block, compress c src = Some (c', block) ∧ bytes_ok block ∧ lz4_decode block = Some src.
Proof.
  intros Hok. destruct (compress_written c src Hok) as (c' & anchor & dst & -> & Ha & Hdst & Hsize & k & Hk & Hdec).
  eexists _, _. split; [done|]. rewrite last_literals_eq in *. split.
  - apply bytes_ok_app; [done|]. pose proof (nibble_of_lt (length (drop anchor src))).
    constructor; [lia|]. apply bytes_ok_app; [apply continuation_ok|auto with bytes].
  - unfold lz4_decode. apply (decode_block_fuel (k + 1)); [|rewrite length_app; cbn [length]; lia].
    rewrite Hdec, <- last_literals_eq, decode_last. by rewrite take_drop.
Qed.

Lemma compress_size c src c' block :
  bytes_ok src → compress c src = Some (c', block) → (length block ≤ compress_bound (length src))%nat.
Proof.
  intros Hok E. destruct (compress_written c src Hok) as (c2 & anchor & dst & E2 & Ha & _ & Hsize & _).
  rewrite E2 in E. injection E as _ <-. rewrite last_literals_eq, length_app. cbn [length].
  rewrite length_app, length_drop, length_continuation. unfold compress_bound.
  destruct (Nat.ltb_spec (length src - anchor) 15); lia.
Qed.

(** C36: whatever the source and whatever an earlier call left in its tables,
    the compressor ends without reading or writing outside a buffer, its output
    fits the buffer [compress_bound] sizes, the LZ4 block format decodes the
    output to the source, and any other compressor writes the same bytes. *)
Theorem compress_roundtrip c src :
  bytes_ok src →
  ∃ c' block, compress c src = Some (c', block)
    ∧ bytes_ok block ∧ (length block ≤ compress_bound (length src))%nat ∧ lz4_decode block = Some src
    ∧ ∀ d, snd <$> compress d src = Some block.
Proof.
  intros Hok. destruct (compress_decodes c src Hok) as (c' & block & E & Hb & Hd).
  exists c', block. split_and!; [done|done|by eapply compress_size|done|].
  intros d. by rewrite (compress_reuse d c), E.
Qed.

(** Ten turns of a period of seven bytes: a match that overlaps itself. *)
Definition sample_source : list N := mjoin (replicate 10 [1; 2; 3; 4; 5; 6; 7]).

Lemma compress_roundtrip_witness :
  ∃ c' block, compress compressor_default sample_source = Some (c', block)
    ∧ bytes_ok block ∧ (length block ≤ compress_bound (length sample_source))%nat
    ∧ lz4_decode block = Some sample_source ∧ ∀ d, snd <$> compress d sample_source = Some block.
Proof.
  apply (compress_roundtrip compressor_default sample_source). apply (bool_decide_unpack _). by vm_compute.
Defined.
