(* ===== verification/Ltx.v ===== *)
(** * The LTX file format

    Models the transaction ids of [crates/ltx/src/lib.rs] and the fixed records
    of [crates/ltx/src/ltx.rs]: the header, page header and trailer of an LTX
    file with their byte layout and validation, and file names.  Bytes are [N]
    below 256; an unsigned field is an [N] and a signed one a [Z]. *)

From Stdlib Require Import ZifyN ZifyNat.
From S2P Require Import Prelude Bytes Text.

(** The variants of [Error] that these parts return; [Panicked] is an index out
    of range, which ends the caller. *)
Inductive Error :=
| ChecksumMismatch
| LTXCorrupted
| TxNotAvailable
| Io
| Other
| Panicked.

#[global] Instance Error_eq_dec : EqDecision Error.
Proof. solve_decision. Defined.

Definition Result (A : Type) : Type := result A Error.

Definition CHECKSUM_FLAG : N := 9223372036854775808.

Definition MAGIC : list N := [76; 84; 88; 49].
Definition VERSION : Z := 3.
Definition HEADER_SIZE : nat := 100.
Definition PAGE_HEADER_SIZE : nat := 6.
Definition TRAILER_SIZE : nat := 16.
Definition CHECKSUM_SIZE : nat := 8.
Definition HEADER_FLAG_NO_CHECKSUM : N := 2.
Definition HEADER_FLAG_MASK : N := HEADER_FLAG_NO_CHECKSUM.
Definition PAGE_HEADER_FLAG_SIZE : N := 1.
Definition PAGE_HEADER_FLAG_MASK : N := PAGE_HEADER_FLAG_SIZE.
Definition PENDING_BYTE : N := 1073741824.

(** [lock_pgno]. *)
Definition lock_pgno (page_size : N) : N :=
  if page_size =? 0 then 0 else PENDING_BYTE / page_size + 1.

(** [is_valid_page_size]; the loop visits the powers of two from 512 to 65536. *)
Fixpoint page_size_loop (fuel : nat) (sz i : N) : bool :=
  match fuel with
  | O => false
  | S fuel => if i <=? 65536 then (sz =? i) || page_size_loop fuel sz (i * 2) else false
  end.

Definition is_valid_page_size (sz : N) : bool := page_size_loop 8 sz 512.

(** [as u64] of an [i64] and back. *)
Definition i64_as_u64 (z : Z) : N := Z.to_N (z mod 18446744073709551616)%Z.
Definition u64_as_i64 (n : N) : Z :=
  if n <? 9223372036854775808 then Z.of_N n else (Z.of_N n - 18446744073709551616)%Z.

(** [u16_be], [u32_be] and [u64_be] of a slice that starts at [at]. *)
Definition be_at (width at_ : nat) (b : list N) : N := big_endian (take width (drop at_ b)).

(** [Header]. *)
Record Header := mkHeader {
  h_version : Z;
  h_flags : N;
  h_page_size : N;
  h_commit : N;
  h_min_txid : N;
  h_max_txid : N;
  h_timestamp : Z;
  h_pre_apply_checksum : N;
  h_wal_offset : Z;
  h_wal_size : Z;
  h_wal_salt1 : N;
  h_wal_salt2 : N;
  h_node_id : N;
}.

#[global] Instance Header_eq_dec : EqDecision Header.
Proof. solve_decision. Defined.

Definition header_default : Header := mkHeader 0 0 0 0 0 0 0 0 0 0 0 0 0.

(** [Header::is_snapshot]. *)
Definition is_snapshot (h : Header) : bool := h_min_txid h =? 1.

(** [Header::no_checksum]. *)
Definition no_checksum (h : Header) : bool := negb (N.land (h_flags h) HEADER_FLAG_NO_CHECKSUM =? 0).

(** [Header::parse]. *)
Definition header_parse (b : list N) : Result Header :=
  if Nat.ltb (length b) HEADER_SIZE then Err LTXCorrupted
  else if negb (bool_decide (take 4 b = MAGIC)) then Err LTXCorrupted
  else Ok (mkHeader VERSION (be_at 4 4 b) (be_at 4 8 b) (be_at 4 12 b) (be_at 8 16 b) (be_at 8 24 b)
             (u64_as_i64 (be_at 8 32 b)) (be_at 8 40 b) (u64_as_i64 (be_at 8 48 b)) (u64_as_i64 (be_at 8 56 b))
             (be_at 4 64 b) (be_at 4 68 b) (be_at 8 72 b)).

(** [Header::marshal]. *)
Definition header_marshal (h : Header) : list N :=
  MAGIC ++ be_bytes 4 (h_flags h) ++ be_bytes 4 (h_page_size h) ++ be_bytes 4 (h_commit h)
  ++ be_bytes 8 (h_min_txid h) ++ be_bytes 8 (h_max_txid h) ++ be_bytes 8 (i64_as_u64 (h_timestamp h))
  ++ be_bytes 8 (h_pre_apply_checksum h) ++ be_bytes 8 (i64_as_u64 (h_wal_offset h))
  ++ be_bytes 8 (i64_as_u64 (h_wal_size h)) ++ be_bytes 4 (h_wal_salt1 h) ++ be_bytes 4 (h_wal_salt2 h)
  ++ be_bytes 8 (h_node_id h) ++ replicate 20 0.

(** [Header::validate]. *)
Definition header_validate (h : Header) : Result unit :=
  if negb (h_version h =? VERSION)%Z then Err LTXCorrupted
  else if negb (h_flags h =? N.land (h_flags h) HEADER_FLAG_MASK) then Err LTXCorrupted
  else if negb (is_valid_page_size (h_page_size h)) then Err LTXCorrupted
  else if h_min_txid h =? 0 then Err LTXCorrupted
  else if h_max_txid h =? 0 then Err LTXCorrupted
  else if h_max_txid h <? h_min_txid h then Err LTXCorrupted
  else if (h_wal_offset h <? 0)%Z then Err LTXCorrupted
  else if (h_wal_size h <? 0)%Z then Err LTXCorrupted
  else if (negb (h_wal_salt1 h =? 0) || negb (h_wal_salt2 h =? 0)) && (h_wal_offset h =? 0)%Z then Err LTXCorrupted
  else if (h_wal_offset h =? 0)%Z && negb (h_wal_size h =? 0)%Z then Err LTXCorrupted
  else if is_snapshot h then
    if negb (h_pre_apply_checksum h =? 0) then Err LTXCorrupted else Ok tt
  else if no_checksum h then
    if negb (h_pre_apply_checksum h =? 0) then Err LTXCorrupted else Ok tt
  else if h_pre_apply_checksum h =? 0 then Err LTXCorrupted
  else if N.land (h_pre_apply_checksum h) CHECKSUM_FLAG =? 0 then Err LTXCorrupted
  else Ok tt.

(** [PageHeader]. *)
Record PageHeader := mkPageHeader {
  ph_pgno : N;
  ph_flags : N;
}.

#[global] Instance PageHeader_eq_dec : EqDecision PageHeader.
Proof. solve_decision. Defined.

(** [PageHeader::is_zero]. *)
Definition page_header_is_zero (p : PageHeader) : bool := (ph_pgno p =? 0) && (ph_flags p =? 0).

(** [PageHeader::parse]. *)
Definition page_header_parse (b : list N) : Result PageHeader :=
  if Nat.ltb (length b) PAGE_HEADER_SIZE then Err LTXCorrupted
  else Ok (mkPageHeader (be_at 4 0 b) (be_at 2 4 b)).

(** [PageHeader::marshal]. *)
Definition page_header_marshal (p : PageHeader) : list N := be_bytes 4 (ph_pgno p) ++ be_bytes 2 (ph_flags p).

(** [PageHeader::validate]. *)
Definition page_header_validate (p : PageHeader) : Result unit :=
  if ph_pgno p =? 0 then Err LTXCorrupted
  else if negb (ph_flags p =? N.land (ph_flags p) PAGE_HEADER_FLAG_MASK) then Err LTXCorrupted
  else Ok tt.

(** [Trailer]. *)
Record Trailer := mkTrailer {
  t_post_apply_checksum : N;
  t_file_checksum : N;
}.

#[global] Instance Trailer_eq_dec : EqDecision Trailer.
Proof. solve_decision. Defined.

Definition trailer_default : Trailer := mkTrailer 0 0.

(** [Trailer::validate]. *)
Definition trailer_validate (t : Trailer) (header : Header) : Result unit :=
  let file_checksum :=
    if (t_file_checksum t =? 0) || (N.land (t_file_checksum t) CHECKSUM_FLAG =? 0)
    then Err LTXCorrupted else Ok tt in
  if no_checksum header then
    if negb (t_post_apply_checksum t =? 0) then Err LTXCorrupted else file_checksum
  else if (t_post_apply_checksum t =? 0) || (N.land (t_post_apply_checksum t) CHECKSUM_FLAG =? 0)
  then Err LTXCorrupted
  else file_checksum.

(** [Trailer::parse]. *)
Definition trailer_parse (b : list N) : Result Trailer :=
  if Nat.ltb (length b) TRAILER_SIZE then Err LTXCorrupted
  else Ok (mkTrailer (be_at 8 0 b) (be_at 8 8 b)).

(** [Trailer::marshal]. *)
Definition trailer_marshal (t : Trailer) : list N :=
  be_bytes 8 (t_post_apply_checksum t) ++ be_bytes 8 (t_file_checksum t).

(** ** Names *)

(** [Display] for [TXID]. *)
Definition txid_text (txid : N) : string := padded 16 16 txid.

(** [format_filename]. *)
Definition format_filename (min_txid max_txid : N) : string :=
  txid_text min_txid +:+ "-" +:+ txid_text max_txid +:+ ".ltx".

(** [parse_filename]. *)
Definition parse_filename (name : string) : Result (N * N) :=
  (stem ←? ok_or (strip_suffix ".ltx" name) LTXCorrupted;
   ab ←? ok_or (split_once char_dash stem) LTXCorrupted;
   let '(a, b) := ab in
   if negb (Nat.eqb (String.length a) 16) || negb (Nat.eqb (String.length b) 16) then Err LTXCorrupted
   else
     min ←? ok_or (u64_from_hex a) LTXCorrupted;
     max ←? ok_or (u64_from_hex b) LTXCorrupted;
     Ok (min, max))%celld.

(** [u8::is_ascii_hexdigit]. *)
Definition is_ascii_hexdigit (b : N) : bool :=
  ((48 <=? b) && (b <=? 57)) || ((65 <=? b) && (b <=? 70)) || ((97 <=? b) && (b <=? 102)).

(** [parse_txid]. *)
Definition parse_txid (s : string) : Result N :=
  if negb (Nat.eqb (String.length s) 16) then Err Other
  else if negb (all_bytes is_ascii_hexdigit s) then Err Other
  else ok_or (u64_from_hex s) Other.

(** [Pos]. *)
Record Pos := mkPos {
  pos_txid : N;
  pos_post_apply_checksum : N;
}.

(** [Display] for [Pos]. *)
Definition pos_text (p : Pos) : string :=
  txid_text (pos_txid p) +:+ "/" +:+ padded 16 16 (pos_post_apply_checksum p).

(** [parse_pos]; an index that is not a character boundary panics. *)
Definition parse_pos (s : string) : option (Result Pos) :=
  if negb (Nat.eqb (String.length s) 33) then Some (Err Other)
  else
    head ← str_get 0 16 s;
    match parse_txid head with
    | Err _ => Some (Err Other)
    | Ok txid =>
        if negb (bool_decide (String.get 16 s = Some char_slash)) then Some (Err Other)
        else
          checksum_str ← str_get 17 33 s;
          if negb (all_bytes is_ascii_hexdigit checksum_str) then Some (Err Other)
          else match u64_from_hex checksum_str with
               | None => Some (Err Other)
               | Some checksum => Some (Ok (mkPos txid checksum))
               end
    end.

(** [FileInfo::pos] and [FileInfo::pre_apply_pos] of the range and checksums. *)
Definition file_pos (max_txid post_apply_checksum : N) : Pos := mkPos max_txid post_apply_checksum.
Definition file_pre_apply_pos (min_txid pre_apply_checksum : N) : Pos := mkPos (sat_sub min_txid 1) pre_apply_checksum.

(** ** The records round-trip *)

(** The values the fields of a header can hold. *)
Definition header_typed (h : Header) : Prop :=
  h_flags h ≤ u32_max ∧ h_page_size h ≤ u32_max ∧ h_commit h ≤ u32_max ∧ h_min_txid h ≤ u64_max
  ∧ h_max_txid h ≤ u64_max ∧ (i64_min ≤ h_timestamp h ≤ i64_max)%Z ∧ h_pre_apply_checksum h ≤ u64_max
  ∧ (i64_min ≤ h_wal_offset h ≤ i64_max)%Z ∧ (i64_min ≤ h_wal_size h ≤ i64_max)%Z
  ∧ h_wal_salt1 h ≤ u32_max ∧ h_wal_salt2 h ≤ u32_max ∧ h_node_id h ≤ u64_max.

Lemma u64_as_i64_as_u64 z : (i64_min ≤ z ≤ i64_max)%Z → u64_as_i64 (i64_as_u64 z) = z.
Proof.
  unfold i64_min, i64_max, u64_as_i64, i64_as_u64. intros Hz.
  destruct (N.ltb_spec (Z.to_N (z mod 18446744073709551616)) 9223372036854775808); lia.
Qed.

Lemma i64_as_u64_bound z : i64_as_u64 z < width_bound 8.
Proof. unfold i64_as_u64. change (width_bound 8) with 18446744073709551616. lia. Qed.

Lemma field_at width at_ b n : take width (drop at_ b) = be_bytes width n → n < width_bound width → be_at width at_ b = n.
Proof. intros E Hn. unfold be_at. rewrite E. by apply big_endian_be_bytes. Qed.

Lemma header_marshal_magic h : take 4 (header_marshal h) = MAGIC.
Proof. done. Qed.

Lemma length_header_marshal h : length (header_marshal h) = HEADER_SIZE.
Proof. done. Qed.

Lemma header_parse_marshal h :
  header_typed h → h_version h = VERSION → header_parse (header_marshal h) = Ok h.
Proof.
  intros (H1 & H2 & H3 & H4 & H5 & H6 & H7 & H8 & H9 & H10 & H11 & H12) Hv.
  unfold header_parse. rewrite length_header_marshal, header_marshal_magic.
  change (Nat.ltb HEADER_SIZE HEADER_SIZE) with false. rewrite bool_decide_true by done. cbn [negb].
  unfold u32_max, u64_max in *. pose proof i64_as_u64_bound as Hi.
  change (width_bound 8) with 18446744073709551616 in Hi.
  rewrite (field_at 4 4 _ (h_flags h)), (field_at 4 8 _ (h_page_size h)), (field_at 4 12 _ (h_commit h)),
    (field_at 8 16 _ (h_min_txid h)), (field_at 8 24 _ (h_max_txid h)), (field_at 8 32 _ (i64_as_u64 (h_timestamp h))),
    (field_at 8 40 _ (h_pre_apply_checksum h)), (field_at 8 48 _ (i64_as_u64 (h_wal_offset h))),
    (field_at 8 56 _ (i64_as_u64 (h_wal_size h))), (field_at 4 64 _ (h_wal_salt1 h)),
    (field_at 4 68 _ (h_wal_salt2 h)), (field_at 8 72 _ (h_node_id h)) by
    (reflexivity || (change (width_bound 4) with 4294967296; change (width_bound 8) with 18446744073709551616;
                     first [lia | apply Hi])).
  rewrite !u64_as_i64_as_u64 by done. destruct h. cbn in *. by subst.
Qed.

Lemma header_marshal_ok h : bytes_ok (header_marshal h).
Proof.
  unfold header_marshal. repeat apply bytes_ok_app; auto with bytes.
  - by apply (bool_decide_unpack _).
  - by apply (bool_decide_unpack _).
Qed.

Lemma page_header_parse_marshal p :
  ph_pgno p ≤ u32_max → ph_flags p ≤ u16_max → page_header_parse (page_header_marshal p) = Ok p.
Proof.
  intros Hp Hf. unfold page_header_parse. change (Nat.ltb _ PAGE_HEADER_SIZE) with false. cbv iota.
  unfold u32_max, u16_max in *.
  rewrite (field_at 4 0 _ (ph_pgno p)), (field_at 2 4 _ (ph_flags p)) by
    (reflexivity || (change (width_bound 4) with 4294967296; change (width_bound 2) with 65536; lia)).
  by destruct p.
Qed.

Lemma trailer_parse_marshal t :
  t_post_apply_checksum t ≤ u64_max → t_file_checksum t ≤ u64_max → trailer_parse (trailer_marshal t) = Ok t.
Proof.
  intros Hp Hf. unfold trailer_parse. change (Nat.ltb _ TRAILER_SIZE) with false. cbv iota.
  unfold u64_max in *.
  rewrite (field_at 8 0 _ (t_post_apply_checksum t)), (field_at 8 8 _ (t_file_checksum t)) by
    (reflexivity || (change (width_bound 8) with 18446744073709551616; lia)).
  by destruct t.
Qed.

(** ** Names round-trip *)

Lemma txid_text_fixed txid : txid ≤ u64_max → txid_text txid = fixed 16 16 txid "".
Proof.
  intros. unfold txid_text. apply padded_fixed; [lia|]. change (16 ^ N.of_nat 16) with 18446744073709551616.
  unfold u64_max in *. lia.
Qed.

Lemma u64_from_hex_txid txid : txid ≤ u64_max → u64_from_hex (txid_text txid) = Some txid.
Proof.
  intros. rewrite txid_text_fixed by done. apply parse_unsigned_fixed; [lia| |done].
  change (16 ^ N.of_nat 16) with 18446744073709551616. unfold u64_max in *. lia.
Qed.

Lemma length_txid_text txid : txid ≤ u64_max → String.length (txid_text txid) = 16%nat.
Proof. intros. rewrite txid_text_fixed by done. apply length_fixed. Qed.

Lemma txid_text_bytes (f : N → bool) txid :
  txid ≤ u64_max → (∀ b, 48 ≤ b ≤ 57 ∨ 97 ≤ b ≤ 102 → f b = true) → all_bytes f (txid_text txid) = true.
Proof. intros. rewrite txid_text_fixed by done. by apply all_bytes_fixed. Qed.

Lemma parse_format_filename min max :
  min ≤ u64_max → max ≤ u64_max → parse_filename (format_filename min max) = Ok (min, max).
Proof.
  intros Hmin Hmax. unfold parse_filename, format_filename.
  rewrite <- !app_assoc_string, strip_suffix_app. cbn [ok_or].
  change ("-" +:+ txid_text max) with (String char_dash (txid_text max)). rewrite app_assoc_string.
  change ("-" +:+ txid_text max) with (String char_dash (txid_text max)).
  rewrite split_once_app by (apply txid_text_bytes; [done|]; intros b Hb; apply negb_true_iff, N.eqb_neq;
    change (Ascii.N_of_ascii char_dash) with 45; lia).
  cbn [ok_or]. rewrite !length_txid_text, !u64_from_hex_txid by done. done.
Qed.

Lemma parse_txid_text txid : txid ≤ u64_max → parse_txid (txid_text txid) = Ok txid.
Proof.
  intros. unfold parse_txid. rewrite length_txid_text, u64_from_hex_txid by done.
  rewrite txid_text_bytes; [done|done|]. intros b Hb. unfold is_ascii_hexdigit.
  destruct (N.leb_spec 48 b), (N.leb_spec b 57), (N.leb_spec 65 b), (N.leb_spec b 70), (N.leb_spec 97 b),
    (N.leb_spec b 102); done || lia.
Qed.

(** A file name may carry a sign that a transaction id may not. *)
Lemma filename_accepts_sign :
  parse_filename "+000000000000001-0000000000000002.ltx" = Ok (1, 2)
  ∧ parse_txid "+000000000000001" = Err Other.
Proof. by vm_compute. Qed.

(** A position whose sixteenth byte is inside a character panics. *)
Definition split_character : string :=
  "000000000000000" +:+ String (Ascii.ascii_of_N 195) (String (Ascii.ascii_of_N 169) "8000000000000001").

Lemma parse_pos_panics : String.length split_character = 33%nat ∧ parse_pos split_character = None.
Proof. by vm_compute. Qed.
