(* ===== verification/Codec.v ===== *)
(** * The LTX encoder and decoder

    Models [crates/ltx/src/codec.rs] and the whole-file functions of
    [crates/ltx/src/ltx.rs]: the streaming writer in both page encodings, the
    verifying reader, the page index with its varints, and the reader of a
    single page frame.  The writer and the reader are the in-memory ones of the
    whole-file functions.  The LZ4 frames and the block decompressor of
    [lz4_flex] and the CRC of [crc_fast] are operations of the class [Lz4Flex];
    what the code relies on are the laws of [Lz4FlexLaws].  The block compressor
    is the one of [Lz4]. *)

From Stdlib Require Import ZifyN ZifyNat.
From S2P Require Import Prelude Bytes Lz4 Ltx.

(** The operations of the compression and checksum libraries:
    - [frame_encode d] is the LZ4 frame a frame encoder writes for [d];
    - [frame_decode n input] reads exactly [n] bytes from the frame at the start
      of [input] and then its end, and returns them with the input after it;
    - [frame_prefix n input] reads the first [n] bytes of that frame;
    - [block_decompress n block] decompresses a block into a buffer of [n]
      bytes and returns the bytes written;
    - [crc64] is the CRC of all bytes a digest was fed. *)
Class Lz4Flex := {
  frame_encode : list N → list N;
  frame_decode : nat → list N → option (list N * list N);
  frame_prefix : nat → list N → option (list N);
  block_decompress : nat → list N → option (list N);
  crc64 : list N → N;
}.

(** Their documented behaviour on a page of at most 64 KiB. *)
Class Lz4FlexLaws `{Lz4Flex} := {
  frame_decode_encode d rest :
    (length d ≤ N.to_nat 65536)%nat → frame_decode (length d) (frame_encode d ++ rest) = Some (d, rest);
  frame_prefix_encode d rest :
    (length d ≤ N.to_nat 65536)%nat → frame_prefix (length d) (frame_encode d ++ rest) = Some d;
  frame_decode_reads n input d rest :
    frame_decode n input = Some (d, rest) → length d = n ∧ (length rest ≤ length input)%nat;
  frame_encode_size d :
    (length d ≤ N.to_nat 65536)%nat → (length (frame_encode d) ≤ length d + 19)%nat;
  block_decompress_block d block : lz4_decode block = Some d → block_decompress (length d) block = Some d;
  crc64_bound bytes : crc64 bytes < width_bound 8;
}.

(** ** Varints *)

(** [write_uvarint]; a 64-bit value has at most ten groups. *)
Fixpoint write_uvarint_loop (fuel : nat) (value : N) : list N :=
  match fuel with
  | O => []
  | S fuel =>
      if 128 <=? value then N.lor (value mod 256) 128 :: write_uvarint_loop fuel (N.shiftr value 7)
      else [value mod 256]
  end.

Definition write_uvarint (value : N) : list N := write_uvarint_loop 10 value.

(** [read_uvarint]; the rest of the slice stands for the position. *)
Fixpoint read_uvarint_loop (bytes : list N) (value shift : N) : Result (N * list N) :=
  match bytes with
  | [] => Err LTXCorrupted
  | byte :: bytes =>
      if byte <? 128 then
        if (64 <=? shift) || ((shift =? 63) && (1 <? byte)) then Err LTXCorrupted
        else Ok (N.lor value (u64_wrap (N.shiftl byte shift)), bytes)
      else
        let value := N.lor value (u64_wrap (N.shiftl (N.land byte 127) shift)) in
        let shift := shift + 7 in
        if 70 <=? shift then Err LTXCorrupted else read_uvarint_loop bytes value shift
  end.

Definition read_uvarint (bytes : list N) : Result (N * list N) := read_uvarint_loop bytes 0 0.

(** [decode_page_index]; every turn reads at least one byte. *)
Fixpoint decode_page_index_loop (fuel : nat) (bytes : list N) (entries : list (N * N * N)) :
    Result (list (N * N * N)) :=
  match fuel with
  | O => Err LTXCorrupted
  | S fuel =>
      r ←? read_uvarint bytes;
      let '(page_number, bytes) := r in
      if page_number =? 0 then if Nat.eqb (length bytes) 0 then Ok entries else Err LTXCorrupted
      else
        r ←? read_uvarint bytes;
        let '(offset, bytes) := r in
        r ←? read_uvarint bytes;
        let '(size, bytes) := r in
        decode_page_index_loop fuel bytes (entries ++ [(u32_wrap page_number, offset, size)])
  end.

Definition decode_page_index (bytes : list N) : Result (list (N * N * N)) :=
  decode_page_index_loop (S (length bytes)) bytes [].

(** [verify_page_index]. *)
Definition verify_page_index (bytes : list N) : Result unit := result_map (λ _, tt) (decode_page_index bytes).

(** [PageEncoding]. *)
Inductive PageEncoding := LegacyFrame | SizedBlock.

#[global] Instance PageEncoding_eq_dec : EqDecision PageEncoding.
Proof. solve_decision. Defined.

(** [LEGACY_FRAME_OVERHEAD] and [max_encoded_size]. *)
Definition LEGACY_FRAME_OVERHEAD : nat := 19.

Definition max_encoded_size (pages : list (list N)) : nat :=
  let page data :=
    let body := ((length data + LEGACY_FRAME_OVERHEAD) `max` (4 + compress_bound (length data)))%nat in
    (PAGE_HEADER_SIZE + body + 25)%nat in
  (HEADER_SIZE + sum_list (page <$> pages) + PAGE_HEADER_SIZE + 1 + 8 + TRAILER_SIZE)%nat.

(** ** The encoder *)

(** [Encoder]; the digest is the bytes it was fed. *)
Record Encoder := mkEncoder {
  e_writer : list N;
  e_header : Header;
  e_trailer : Trailer;
  e_hash : list N;
  e_index : gmap N (N * N);
  e_compressor : option Compressor;
  e_page_encoding : PageEncoding;
  e_bytes_written : N;
  e_previous_page_number : N;
  e_header_written : bool;
  e_closed : bool;
}.

(** [Encoder::new]. *)
Definition encoder_new (writer : list N) (page_encoding : PageEncoding) : Encoder :=
  mkEncoder writer header_default trailer_default [] ∅ None page_encoding 0 0 false false.

(** [Encoder::write_body]. *)
Definition write_body (e : Encoder) (bytes : list N) : Encoder :=
  mkEncoder (e_writer e ++ bytes) (e_header e) (e_trailer e) (e_hash e) (e_index e) (e_compressor e)
    (e_page_encoding e) (e_bytes_written e + N.of_nat (length bytes)) (e_previous_page_number e)
    (e_header_written e) (e_closed e).

(** [self.hash.update]. *)
Definition hash_update (e : Encoder) (bytes : list N) : Encoder :=
  mkEncoder (e_writer e) (e_header e) (e_trailer e) (e_hash e ++ bytes) (e_index e) (e_compressor e)
    (e_page_encoding e) (e_bytes_written e) (e_previous_page_number e) (e_header_written e) (e_closed e).

(** [Encoder::write_hashed]. *)
Definition write_hashed (e : Encoder) (bytes : list N) : Encoder := hash_update (write_body e bytes) bytes.

Definition set_header (e : Encoder) (header : Header) : Encoder :=
  mkEncoder (e_writer e) header (e_trailer e) (e_hash e) (e_index e) (e_compressor e)
    (e_page_encoding e) (e_bytes_written e) (e_previous_page_number e) (e_header_written e) (e_closed e).

Definition set_header_written (e : Encoder) : Encoder :=
  mkEncoder (e_writer e) (e_header e) (e_trailer e) (e_hash e) (e_index e) (e_compressor e)
    (e_page_encoding e) (e_bytes_written e) (e_previous_page_number e) true (e_closed e).

Definition set_compressor (e : Encoder) (c : Compressor) : Encoder :=
  mkEncoder (e_writer e) (e_header e) (e_trailer e) (e_hash e) (e_index e) (Some c)
    (e_page_encoding e) (e_bytes_written e) (e_previous_page_number e) (e_header_written e) (e_closed e).

Definition index_page (e : Encoder) (pgno offset : N) : Encoder :=
  mkEncoder (e_writer e) (e_header e) (e_trailer e) (e_hash e)
    (<[pgno := (offset, e_bytes_written e - offset)]> (e_index e)) (e_compressor e)
    (e_page_encoding e) (e_bytes_written e) pgno (e_header_written e) (e_closed e).

Definition set_trailer (e : Encoder) (trailer : Trailer) : Encoder :=
  mkEncoder (e_writer e) (e_header e) trailer (e_hash e) (e_index e) (e_compressor e)
    (e_page_encoding e) (e_bytes_written e) (e_previous_page_number e) (e_header_written e) (e_closed e).

Definition set_closed (e : Encoder) : Encoder :=
  mkEncoder (e_writer e) (e_header e) (e_trailer e) (e_hash e) (e_index e) (e_compressor e)
    (e_page_encoding e) (e_bytes_written e) (e_previous_page_number e) (e_header_written e) true.

(** [Encoder::encode_header]. *)
Definition encode_header (e : Encoder) (header : Header) : Result Encoder :=
  if e_header_written e || e_closed e then Err LTXCorrupted
  else
    _ ←? header_validate header;
    Ok (set_header_written (write_hashed (set_header e header) (header_marshal header))).

Section Operations.
Context `{Lz4Flex}.

(** [checksum_page]. *)
Definition checksum_page (pgno : N) (data : list N) : N := N.lor CHECKSUM_FLAG (crc64 (be_bytes 4 pgno ++ data)).

(** [Encoder::encode_page]. *)
Definition encode_page (e : Encoder) (page : PageHeader) (data : list N) : Result Encoder :=
  if negb (e_header_written e) || e_closed e || (h_commit (e_header e) <? ph_pgno page)
     || negb (N.of_nat (length data) =? h_page_size (e_header e))
  then Err LTXCorrupted
  else
    _ ←? page_header_validate page;
    let lock_page := lock_pgno (h_page_size (e_header e)) in
    if ph_pgno page =? lock_page then Err LTXCorrupted
    else
      let previous := e_previous_page_number e in
      let expected := if previous =? lock_page - 1 then u32_wrap (previous + 2) else u32_wrap (previous + 1) in
      if is_snapshot (e_header e) && (previous =? 0) && negb (ph_pgno page =? 1) then Err LTXCorrupted
      else if is_snapshot (e_header e) && negb (previous =? 0) && negb (ph_pgno page =? expected)
      then Err LTXCorrupted
      else if negb (is_snapshot (e_header e)) && (ph_pgno page <=? previous) then Err LTXCorrupted
      else
        let offset := e_bytes_written e in
        e ←? match e_page_encoding e with
             | LegacyFrame =>
                 if negb (ph_flags page =? 0) then Err LTXCorrupted
                 else
                   let e := write_hashed e (page_header_marshal page) in
                   Ok (write_body e (frame_encode data))
             | SizedBlock =>
                 match compress (default compressor_default (e_compressor e)) data with
                 | None => Err Panicked
                 | Some (c, compressed) =>
                     let e := set_compressor e c in
                     let page := mkPageHeader (ph_pgno page) (N.lor (ph_flags page) PAGE_HEADER_FLAG_SIZE) in
                     let e := write_hashed e (page_header_marshal page) in
                     if u32_max <? N.of_nat (length compressed) then Err LTXCorrupted
                     else
                       let e := write_hashed e (be_bytes 4 (N.of_nat (length compressed))) in
                       Ok (write_body e compressed)
                 end
             end;
        Ok (index_page (hash_update e data) (ph_pgno page) offset).

(** The bytes [Encoder::close] writes for the index. *)
Definition index_bytes (index : gmap N (N * N)) : list N :=
  mjoin ((λ '(page_number, (offset, size)), write_uvarint page_number ++ write_uvarint offset ++ write_uvarint size)
         <$> items index) ++ write_uvarint 0.

(** [Encoder::close]. *)
Definition encoder_close (e : Encoder) (post_apply_checksum : N) : Result Encoder :=
  if negb (e_header_written e) || e_closed e then Err LTXCorrupted
  else
    let e := write_hashed e (replicate PAGE_HEADER_SIZE 0) in
    let index_offset := e_bytes_written e in
    let e := write_hashed e (index_bytes (e_index e)) in
    let e := write_hashed e (be_bytes 8 (e_bytes_written e - index_offset)) in
    let e := hash_update e (be_bytes 8 post_apply_checksum) in
    let e := set_trailer e (mkTrailer post_apply_checksum (N.lor CHECKSUM_FLAG (crc64 (e_hash e)))) in
    _ ←? trailer_validate (e_trailer e) (e_header e);
    if (h_commit (e_header e) =? 0) && negb (post_apply_checksum =? CHECKSUM_FLAG) then Err LTXCorrupted
    else Ok (set_closed (write_body e (trailer_marshal (e_trailer e)))).

(** The [for] of [encode_file_with_mode]. *)
Fixpoint encode_pages (e : Encoder) (pages : list (N * list N)) : Result Encoder :=
  match pages with
  | [] => Ok e
  | (page_number, data) :: pages =>
      e ←? encode_page e (mkPageHeader page_number 0) data;
      encode_pages e pages
  end.

(** [encode_file_with_mode]. *)
Definition encode_file_with_mode (header : Header) (pages : list (N * list N)) (post_apply_checksum : N)
    (use_v0_5_2 : bool) : Result (list N) :=
  let e := encoder_new [] (if use_v0_5_2 then SizedBlock else LegacyFrame) in
  e ←? encode_header e header;
  e ←? encode_pages e pages;
  e ←? encoder_close e post_apply_checksum;
  Ok (e_writer e).

(** [encode_file] and [encode_file_v0_5_2]. *)
Definition encode_file (header : Header) (pages : list (N * list N)) (post_apply_checksum : N) : Result (list N) :=
  encode_file_with_mode header pages post_apply_checksum false.

Definition encode_file_v0_5_2 (header : Header) (pages : list (N * list N)) (post_apply_checksum : N) :
    Result (list N) :=
  encode_file_with_mode header pages post_apply_checksum true.

End Operations.

(** ** The decoder *)

(** [DecoderState]. *)
Inductive DecoderState := DHeader | DPages | DClose | DClosed.

#[global] Instance DecoderState_eq_dec : EqDecision DecoderState.
Proof. solve_decision. Defined.

(** [Decoder]; the reader is the bytes not yet read. *)
Record Decoder := mkDecoder {
  d_reader : list N;
  d_state : DecoderState;
  d_header : Header;
  d_trailer : Trailer;
  d_hash : list N;
  d_rolling_checksum : N;
}.

(** [Decoder::new]. *)
Definition decoder_new (reader : list N) : Decoder :=
  mkDecoder reader DHeader header_default trailer_default [] 0.

(** [Read::read_exact] of a buffer of [n] bytes. *)
Definition read_exact (reader : list N) (n : nat) : Result (list N * list N) :=
  if Nat.ltb (length reader) n then Err Io else Ok (take n reader, drop n reader).

(** [Decoder::decode_header]. *)
Definition decode_header (d : Decoder) : Result Decoder :=
  if negb (bool_decide (d_state d = DHeader)) then Err LTXCorrupted
  else
    r ←? read_exact (d_reader d) HEADER_SIZE;
    let '(bytes, reader) := r in
    header ←? header_parse bytes;
    _ ←? header_validate header;
    Ok (mkDecoder reader DPages header (d_trailer d) (d_hash d ++ bytes)
          (if no_checksum header then d_rolling_checksum d else CHECKSUM_FLAG)).

Section Operations.
Context `{Lz4Flex}.

(** [Decoder::decode_page] into a buffer of [data_len] bytes. *)
Definition decode_page (d : Decoder) (data_len : nat) : Result (Decoder * option (PageHeader * list N)) :=
  if bool_decide (d_state d = DClose) then Ok (d, None)
  else if negb (bool_decide (d_state d = DPages)) || negb (N.of_nat data_len =? h_page_size (d_header d))
  then Err LTXCorrupted
  else
    r ←? read_exact (d_reader d) PAGE_HEADER_SIZE;
    let '(header_bytes, reader) := r in
    page ←? page_header_parse header_bytes;
    let hash := d_hash d ++ header_bytes in
    if page_header_is_zero page then
      Ok (mkDecoder reader DClose (d_header d) (d_trailer d) hash (d_rolling_checksum d), None)
    else
      _ ←? page_header_validate page;
      r ←? (if negb (N.land (ph_flags page) PAGE_HEADER_FLAG_SIZE =? 0) then
              r ←? read_exact reader 4;
              let '(size_bytes, reader) := r in
              let compressed_size := N.to_nat (big_endian size_bytes) in
              if Nat.ltb (compress_bound data_len) compressed_size then Err LTXCorrupted
              else
                r ←? read_exact reader compressed_size;
                let '(compressed, reader) := r in
                data ←? ok_or (block_decompress data_len compressed) LTXCorrupted;
                if negb (Nat.eqb (length data) data_len) then Err LTXCorrupted
                else Ok (data, reader, hash ++ size_bytes)
            else
              r ←? ok_or (frame_decode data_len reader) LTXCorrupted;
              let '(data, reader) := r in Ok (data, reader, hash));
      let '(data, reader, hash) := r in
      let rolling :=
        if is_snapshot (d_header d) && negb (no_checksum (d_header d))
           && negb (ph_pgno page =? lock_pgno (h_page_size (d_header d)))
        then N.lor CHECKSUM_FLAG (N.lxor (d_rolling_checksum d) (checksum_page (ph_pgno page) data))
        else d_rolling_checksum d in
      Ok (mkDecoder reader DPages (d_header d) (d_trailer d) (hash ++ data) rolling, Some (page, data)).

(** [Decoder::close]. *)
Definition decoder_close (d : Decoder) : Result Decoder :=
  if bool_decide (d_state d = DClosed) then Ok d
  else if negb (bool_decide (d_state d = DClose)) then Err LTXCorrupted
  else
    let remaining := d_reader d in
    if Nat.ltb (length remaining) (8 + TRAILER_SIZE) then Err LTXCorrupted
    else
      let trailer_offset := (length remaining - TRAILER_SIZE)%nat in
      let size_offset := (trailer_offset - 8)%nat in
      let index_size := be_at 8 size_offset remaining in
      if negb (index_size =? N.of_nat size_offset) then Err LTXCorrupted
      else
        _ ←? verify_page_index (take size_offset remaining);
        trailer ←? trailer_parse (drop trailer_offset remaining);
        _ ←? trailer_validate trailer (d_header d);
        let hash := d_hash d ++ take (length remaining - CHECKSUM_SIZE) remaining in
        if negb (N.lor CHECKSUM_FLAG (crc64 hash) =? t_file_checksum trailer) then Err ChecksumMismatch
        else if is_snapshot (d_header d) && negb (no_checksum (d_header d))
                && negb (d_rolling_checksum d =? t_post_apply_checksum trailer)
        then Err ChecksumMismatch
        else Ok (mkDecoder [] DClosed (d_header d) trailer hash (d_rolling_checksum d)).

(** [DecodedFile]. *)
Record DecodedFile := mkDecodedFile {
  df_header : Header;
  df_trailer : Trailer;
  df_pgnos : list N;
}.

(** The [while] of [decode_file_inner]; a page is at least its header. *)
Fixpoint decode_pages_loop (fuel : nat) (d : Decoder) (data_len : nat) (retain_pages : bool)
    (page_numbers : list N) (pages : list (N * list N)) : Result (Decoder * list N * list (N * list N)) :=
  match fuel with
  | O => Err Panicked
  | S fuel =>
      r ←? decode_page d data_len;
      match r with
      | (d, None) => Ok (d, page_numbers, pages)
      | (d, Some (page, data)) =>
          decode_pages_loop fuel d data_len retain_pages (page_numbers ++ [ph_pgno page])
            (if retain_pages then pages ++ [(ph_pgno page, data)] else pages)
      end
  end.

(** [decode_file_inner]. *)
Definition decode_file_inner (bytes : list N) (retain_pages : bool) : Result (DecodedFile * list (N * list N)) :=
  d ←? decode_header (decoder_new bytes);
  let header := d_header d in
  r ←? decode_pages_loop (S (length bytes)) d (N.to_nat (h_page_size header)) retain_pages [] [];
  let '(d, page_numbers, pages) := r in
  d ←? decoder_close d;
  Ok (mkDecodedFile header (d_trailer d) page_numbers, pages).

(** [decode_file], [decode_file_with_pages] and [decode_file_pages]. *)
Definition decode_file (bytes : list N) : Result DecodedFile := result_map fst (decode_file_inner bytes false).
Definition decode_file_with_pages (bytes : list N) : Result (DecodedFile * list (N * list N)) :=
  decode_file_inner bytes true.
Definition decode_file_pages (bytes : list N) : Result (list (N * list N)) :=
  result_map snd (decode_file_with_pages bytes).

(** [decode_page_frame]. *)
Definition decode_page_frame (frame : list N) (page_size : nat) : Result (list N) :=
  r ←? read_exact frame PAGE_HEADER_SIZE;
  let '(header_bytes, reader) := r in
  page ←? page_header_parse header_bytes;
  if page_header_is_zero page then Err LTXCorrupted
  else
    _ ←? page_header_validate page;
    if negb (N.land (ph_flags page) PAGE_HEADER_FLAG_SIZE =? 0) then
      r ←? read_exact reader 4;
      let '(size_bytes, reader) := r in
      let compressed_size := N.to_nat (big_endian size_bytes) in
      if Nat.ltb (compress_bound page_size) compressed_size then Err LTXCorrupted
      else
        r ←? read_exact reader compressed_size;
        let '(compressed, _) := r in
        data ←? ok_or (block_decompress page_size compressed) LTXCorrupted;
        if negb (Nat.eqb (length data) page_size) then Err LTXCorrupted else Ok data
    else ok_or (frame_prefix page_size reader) LTXCorrupted.

(** [decode_page_frame_of]. *)
Definition decode_page_frame_of (frame : list N) (page_size : nat) (pgno : N) : Result (list N) :=
  if Nat.ltb (length frame) PAGE_HEADER_SIZE then Err LTXCorrupted
  else
    page ←? page_header_parse (take PAGE_HEADER_SIZE frame);
    if negb (ph_pgno page =? pgno) then Err LTXCorrupted else decode_page_frame frame page_size.

End Operations.

(** ** Varints round-trip *)

Lemma continued_byte value :
  (N.lor (value mod 256) 128 <? 128) = false ∧ N.land (N.lor (value mod 256) 128) 127 = value mod 128.
Proof.
  split.
  - apply N.ltb_ge. assert (7 ≤ N.log2 (N.lor (value mod 256) 128)) as Hl.
    { rewrite N.log2_lor. change (N.log2 128) with 7. lia. }
    apply N.log2_le_pow2 in Hl; [done|]. apply N.neq_0_lt_0. by intros [_ E]%N.lor_eq_0_iff.
  - rewrite N.land_lor_distr_l. change (N.land 128 127) with 0. rewrite N.lor_0_r.
    change 127 with (N.ones 7). rewrite N.land_ones. change (2 ^ 7) with 128.
    lia.
Qed.

Lemma read_write_uvarint_loop fuel value rest acc shift :
  value < 128 ^ N.of_nat fuel → (1 ≤ fuel)%nat → acc < 2 ^ shift → value * 2 ^ shift < 2 ^ 64 → shift < 64 →
  read_uvarint_loop (write_uvarint_loop fuel value ++ rest) acc shift = Ok (acc + value * 2 ^ shift, rest).
Proof.
  revert value acc shift. induction fuel as [|fuel IH]; intros value acc shift Hv Hf Hacc Hfit Hs; [lia|].
  assert (∀ b, b * 2 ^ shift < 2 ^ 64 → N.lor acc (u64_wrap (N.shiftl b shift)) = acc + b * 2 ^ shift) as Hor.
  { intros b Hb. unfold u64_wrap. rewrite N.mod_small; [|by rewrite N.shiftl_mul_pow2].
    rewrite lor_shiftl by done. lia. }
  cbn [write_uvarint_loop]. destruct (N.leb_spec 128 value) as [Hge|Hlt]; cbn [app read_uvarint_loop].
  - destruct (continued_byte value) as [-> ->].
    assert (shift + 7 < 64) as Hs7.
    { apply (N.pow_lt_mono_r_iff 2); [lia|]. rewrite N.pow_add_r. change (2 ^ 7) with 128. nia. }
    destruct (N.leb_spec 70 (shift + 7)); [lia|].
    rewrite Hor by (eapply N.le_lt_trans; [|exact Hfit]; apply N.mul_le_mono_r; lia).
    rewrite N.shiftr_div_pow2. change (2 ^ 7) with 128.
    assert (2 ^ (shift + 7) = 128 * 2 ^ shift) as Ep by (rewrite N.pow_add_r; change (2 ^ 7) with 128; lia).
    destruct fuel as [|fuel]; [change (128 ^ N.of_nat 1) with 128 in Hv; lia|].
    rewrite IH; rewrite ?Ep; try done; try lia.
    + do 2 f_equal. rewrite (N.div_mod value 128) at 2 by done. lia.
    + rewrite Nat2N.inj_succ, N.pow_succ_r' in Hv. lia.
    + assert (value mod 128 < 128) by lia. nia.
  - assert (value mod 256 = value) as -> by lia.
    destruct (N.ltb_spec value 128); [|lia]. destruct (N.leb_spec 64 shift); [lia|].
    destruct ((shift =? 63) && (1 <? value)) eqn:E; cbn [orb]; [|by rewrite Hor].
    apply andb_prop in E as [->%N.eqb_eq E%N.ltb_lt]. change (2 ^ 64) with (2 * 2 ^ 63) in Hfit. nia.
Qed.

Lemma read_write_uvarint value rest : value ≤ u64_max → read_uvarint (write_uvarint value ++ rest) = Ok (value, rest).
Proof.
  intros Hv. unfold u64_max in Hv. unfold read_uvarint, write_uvarint. rewrite read_write_uvarint_loop.
  - do 2 f_equal. lia.
  - change (128 ^ N.of_nat 10) with 1180591620717411303424. lia.
  - lia.
  - done.
  - change (2 ^ 64) with 18446744073709551616. change (2 ^ 0) with 1. lia.
  - done.
Qed.

Lemma write_uvarint_size fuel value n :
  value < 128 ^ N.of_nat n → (1 ≤ n)%nat → (length (write_uvarint_loop fuel value) ≤ n)%nat.
Proof.
  revert value n. induction fuel as [|fuel IH]; intros value n Hv Hn; cbn [write_uvarint_loop length]; [lia|].
  destruct (N.leb_spec 128 value); cbn [length]; [|lia]. destruct n as [|[|n]]; [lia| |].
  - change (128 ^ N.of_nat 1) with 128 in Hv. lia.
  - apply le_n_S, IH; [|lia]. rewrite N.shiftr_div_pow2. change (2 ^ 7) with 128.
    rewrite Nat2N.inj_succ, N.pow_succ_r' in Hv. lia.
Qed.

(** ** The layout of a file

    What the encoder writes, as functions of the header and the pages. *)

Section Layout.
Context `{Lz4Flex}.

(** The block of a page does not depend on the compressor's history. *)
Definition block_of (data : list N) : list N := default [] (snd <$> compress compressor_default data).

Definition page_prefix (m : PageEncoding) (pgno : N) (data : list N) : list N :=
  match m with
  | LegacyFrame => page_header_marshal (mkPageHeader pgno 0)
  | SizedBlock =>
      page_header_marshal (mkPageHeader pgno PAGE_HEADER_FLAG_SIZE) ++ be_bytes 4 (N.of_nat (length (block_of data)))
  end.

Definition page_body (m : PageEncoding) (data : list N) : list N :=
  match m with LegacyFrame => frame_encode data | SizedBlock => block_of data end.

Definition page_bytes (m : PageEncoding) (page : N * list N) : list N :=
  page_prefix m page.1 page.2 ++ page_body m page.2.

Definition page_hash (m : PageEncoding) (page : N * list N) : list N := page_prefix m page.1 page.2 ++ page.2.

(** The index entries of pages written from [offset] on. *)
Fixpoint index_entries (m : PageEncoding) (offset : N) (pages : list (N * list N)) : list (N * (N * N)) :=
  match pages with
  | [] => []
  | page :: pages =>
      let size := N.of_nat (length (page_bytes m page)) in
      (page.1, (offset, size)) :: index_entries m (offset + size) pages
  end.

Definition entry_bytes (entry : N * (N * N)) : list N :=
  write_uvarint entry.1 ++ write_uvarint entry.2.1 ++ write_uvarint entry.2.2.

(** What follows the pages up to the trailer. *)
Definition index_section (entries : list (N * (N * N))) : list N :=
  let index := mjoin (entry_bytes <$> entries) ++ write_uvarint 0 in
  index ++ be_bytes 8 (N.of_nat (length index)).

Definition file_trailer (m : PageEncoding) (h : Header) (pages : list (N * list N)) (post : N) : Trailer :=
  let hashed := header_marshal h ++ mjoin (page_hash m <$> pages) ++ replicate PAGE_HEADER_SIZE 0
                ++ index_section (index_entries m 100 pages) ++ be_bytes 8 post in
  mkTrailer post (N.lor CHECKSUM_FLAG (crc64 hashed)).

Definition file_bytes (m : PageEncoding) (h : Header) (pages : list (N * list N)) (post : N) : list N :=
  header_marshal h ++ mjoin (page_bytes m <$> pages) ++ replicate PAGE_HEADER_SIZE 0
  ++ index_section (index_entries m 100 pages) ++ trailer_marshal (file_trailer m h pages post).

(** The pages the encoder takes after page [previous]: a snapshot holds every
    page from the first but the lock page, another file pages in order. *)
Definition page_allowed (h : Header) (previous pgno : N) (data : list N) : bool :=
  let lock := lock_pgno (h_page_size h) in
  (pgno <=? h_commit h) && (N.of_nat (length data) =? h_page_size h) && negb (pgno =? 0) && negb (pgno =? lock)
  && (if is_snapshot h then pgno =? (if previous =? lock - 1 then previous + 2 else previous + 1)
      else previous <? pgno).

Fixpoint pages_allowed (h : Header) (previous : N) (pages : list (N * list N)) : bool :=
  match pages with
  | [] => true
  | (pgno, data) :: pages => page_allowed h previous pgno data && pages_allowed h pgno pages
  end.

(** The post-apply checksums the encoder takes. *)
Definition post_allowed (h : Header) (post : N) : bool :=
  (if no_checksum h then post =? 0 else negb (post =? 0) && negb (N.land post CHECKSUM_FLAG =? 0))
  && (negb (h_commit h =? 0) || (post =? CHECKSUM_FLAG)).

(** The rolling checksum of a snapshot's pages. *)
Definition rolling_checksum (h : Header) (pages : list (N * list N)) : N :=
  foldl (λ rolling page,
    if negb (page.1 =? lock_pgno (h_page_size h))
    then N.lor CHECKSUM_FLAG (N.lxor rolling (checksum_page page.1 page.2)) else rolling) CHECKSUM_FLAG pages.

(** The encoder after the header and [pages]. *)
Record encoding (m : PageEncoding) (h : Header) (pages : list (N * list N)) (e : Encoder) : Prop := mkEncoding {
  enc_writer : e_writer e = header_marshal h ++ mjoin (page_bytes m <$> pages);
  enc_header : e_header e = h;
  enc_hash : e_hash e = header_marshal h ++ mjoin (page_hash m <$> pages);
  enc_index : e_index e = list_to_map (index_entries m 100 pages);
  enc_mode : e_page_encoding e = m;
  enc_written : e_bytes_written e = N.of_nat (length (e_writer e));
  enc_previous : e_previous_page_number e = default 0 (fst <$> last pages);
  enc_header_written : e_header_written e = true;
  enc_open : e_closed e = false;
}.

End Layout.

Lemma valid_page_size sz : is_valid_page_size sz = true → 512 ≤ sz ≤ 65536.
Proof.
  unfold is_valid_page_size. cbn [page_size_loop]. intros Hs.
  repeat match type of Hs with context [if ?c then _ else _] =>
    let c' := eval vm_compute in c in change c with c' in Hs; cbv iota in Hs end.
  repeat (apply orb_prop in Hs as [Hs%N.eqb_eq|Hs]; [lia|]). done.
Qed.

Lemma header_validate_Ok h :
  header_validate h = Ok tt → h_version h = VERSION ∧ 512 ≤ h_page_size h ≤ 65536.
Proof.
  unfold header_validate. destruct (Z.eqb_spec (h_version h) VERSION); [|done]. cbn [negb].
  destruct (h_flags h =? N.land (h_flags h) HEADER_FLAG_MASK); [|done]. cbn [negb].
  destruct (is_valid_page_size (h_page_size h)) eqn:Hp; [|done]. intros _. split; [done|]. by apply valid_page_size.
Qed.

Lemma header_validate_err h e : header_validate h = Err e → e = LTXCorrupted.
Proof.
  unfold header_validate. intros Hv.
  repeat match type of Hv with (if ?c then _ else _) = _ => destruct c; [try congruence|] end; congruence.
Qed.

Lemma lock_pgno_range sz : 512 ≤ sz ≤ 65536 → 16385 ≤ lock_pgno sz ≤ 2097153.
Proof.
  intros Hs. unfold lock_pgno, PENDING_BYTE. destruct (N.eqb_spec sz 0); [lia|].
  assert (1073741824 / 65536 ≤ 1073741824 / sz) as Hlo by (apply N.div_le_compat_l; lia).
  assert (1073741824 / sz ≤ 1073741824 / 512) as Hhi by (apply N.div_le_compat_l; lia).
  change (1073741824 / 65536) with 16384 in Hlo. change (1073741824 / 512) with 2097152 in Hhi. lia.
Qed.

(** The order the encoder checks, guard by guard. *)
Lemma order_guard {A} (snapshot : bool) prev pgno lock (no yes : A) :
  prev ≤ u32_max → 16385 ≤ lock ≤ 2097153 → 0 < pgno ≤ u32_max →
  (if snapshot && (prev =? 0) && negb (pgno =? 1) then no
   else if snapshot && negb (prev =? 0)
           && negb (pgno =? (if prev =? lock - 1 then u32_wrap (prev + 2) else u32_wrap (prev + 1))) then no
   else if negb snapshot && (pgno <=? prev) then no else yes)
  = if (if snapshot then pgno =? (if prev =? lock - 1 then prev + 2 else prev + 1) else prev <? pgno)
    then yes else no.
Proof.
  unfold u32_max, u32_wrap. intros Hp Hl Hn.
  assert ((prev + 1) mod 4294967296 = prev + 1 ∨ prev = 4294967295 ∧ (prev + 1) mod 4294967296 = 0) as Hw by lia.
  destruct snapshot; cbn [andb negb].
  - destruct (N.eqb_spec prev (lock - 1)).
    + rewrite (N.mod_small (prev + 2)) by lia. destruct (N.eqb_spec prev 0); [lia|]. cbn [negb andb].
      by destruct (N.eqb_spec pgno (prev + 2)).
    + destruct (N.eqb_spec prev 0) as [->|]; cbn [andb negb]; [change (0 + 1) with 1; by destruct (N.eqb_spec pgno 1)|].
      destruct (N.eqb_spec pgno (prev + 1)), (N.eqb_spec pgno ((prev + 1) mod 4294967296)); done || lia.
  - destruct (N.leb_spec pgno prev), (N.ltb_spec prev pgno); done || lia.
Qed.

Section EncoderFacts.
Context `{Lz4FlexLaws}.

Lemma compress_block c data :
  bytes_ok data →
  ∃ c', compress c data = Some (c', block_of data)
        ∧ lz4_decode (block_of data) = Some data ∧ (length (block_of data) ≤ compress_bound (length data))%nat.
Proof.
  intros Hok. destruct (compress_decodes c data Hok) as (c' & block & E & _ & Hd).
  destruct (compress_decodes compressor_default data Hok) as (d' & block' & E' & _ & _).
  pose proof (compress_reuse c compressor_default data) as Er. rewrite E, E' in Er. cbn in Er. injection Er as <-.
  assert (block_of data = block) as -> by (unfold block_of; by rewrite E').
  exists c'. split_and!; [done|done|by eapply compress_size].
Qed.

(** What the encoder adds for a page it takes. *)
Definition add_page (m : PageEncoding) (e : Encoder) (pgno : N) (data : list N) (c : option Compressor) : Encoder :=
  let size := N.of_nat (length (page_bytes m (pgno, data))) in
  mkEncoder (e_writer e ++ page_bytes m (pgno, data)) (e_header e) (e_trailer e)
    (e_hash e ++ page_hash m (pgno, data)) (<[pgno := (e_bytes_written e, size)]> (e_index e)) c m
    (e_bytes_written e + size) pgno (e_header_written e) (e_closed e).

Lemma page_guards e pgno data :
  let h := e_header e in
  header_validate h = Ok tt → h_commit h ≤ u32_max → e_previous_page_number e ≤ h_commit h →
  e_header_written e = true → e_closed e = false →
  encode_page e (mkPageHeader pgno 0) data
  = if page_allowed h (e_previous_page_number e) pgno data
    then e' ←? match e_page_encoding e with
               | LegacyFrame => Ok (write_body (write_hashed e (page_header_marshal (mkPageHeader pgno 0))) (frame_encode data))
               | SizedBlock =>
                   match compress (default compressor_default (e_compressor e)) data with
                   | None => Err Panicked
                   | Some (c, compressed) =>
                       let e := write_hashed (set_compressor e c) (page_header_marshal (mkPageHeader pgno 1)) in
                       if u32_max <? N.of_nat (length compressed) then Err LTXCorrupted
                       else Ok (write_body (write_hashed e (be_bytes 4 (N.of_nat (length compressed)))) compressed)
                   end
               end;
         Ok (index_page (hash_update e' data) pgno (e_bytes_written e))
    else Err LTXCorrupted.
Proof.
  cbv zeta. intros Hv Hc Hprev Hhw Hcl. destruct (header_validate_Ok _ Hv) as [_ Hps].
  pose proof (lock_pgno_range _ Hps) as Hlock. unfold u32_max in Hc.
  unfold encode_page, page_allowed. rewrite Hhw, Hcl. cbn [negb orb ph_pgno ph_flags].
  destruct (N.ltb_spec (h_commit (e_header e)) pgno) as [Hgt|Hle], (N.leb_spec pgno (h_commit (e_header e))); try lia; [done|].
  destruct (N.of_nat (length data) =? h_page_size (e_header e)); [|done]. cbn [negb orb andb].
  unfold page_header_validate. cbn [ph_pgno ph_flags]. destruct (N.eqb_spec pgno 0); [done|].
  change (0 =? N.land 0 PAGE_HEADER_FLAG_MASK) with true. cbn [negb andb].
  destruct (N.eqb_spec pgno (lock_pgno (h_page_size (e_header e)))); [done|]. cbn [negb andb].
  set (prev := e_previous_page_number e) in *. set (lock := lock_pgno (h_page_size (e_header e))) in *.
  rewrite order_guard by (unfold u32_max; lia). done.
Qed.

Lemma write_hashed_twice e a b : write_hashed (write_hashed e a) b = write_hashed e (a ++ b).
Proof.
  unfold write_hashed, hash_update, write_body. cbn [e_writer e_header e_trailer e_hash e_index e_compressor
    e_page_encoding e_bytes_written e_previous_page_number e_header_written e_closed].
  rewrite length_app, <- !app_assoc. f_equal. lia.
Qed.

Lemma page_writes e prefix body data pgno :
  index_page (hash_update (write_body (write_hashed e prefix) body) data) pgno (e_bytes_written e)
  = mkEncoder (e_writer e ++ prefix ++ body) (e_header e) (e_trailer e) (e_hash e ++ prefix ++ data)
      (<[pgno := (e_bytes_written e, N.of_nat (length (prefix ++ body)))]> (e_index e)) (e_compressor e)
      (e_page_encoding e) (e_bytes_written e + N.of_nat (length (prefix ++ body))) pgno (e_header_written e) (e_closed e).
Proof.
  unfold index_page, write_hashed, hash_update, write_body. cbn [e_writer e_header e_trailer e_hash e_index e_compressor
    e_page_encoding e_bytes_written e_previous_page_number e_header_written e_closed].
  rewrite length_app, <- !app_assoc. f_equal; [|lia]. do 2 f_equal. lia.
Qed.

Lemma encode_page_spec m h pages e pgno data :
  header_validate h = Ok tt → h_commit h ≤ u32_max → bytes_ok data → encoding m h pages e →
  default 0 (fst <$> last pages) ≤ h_commit h →
  (page_allowed h (default 0 (fst <$> last pages)) pgno data = true →
   ∃ c, encode_page e (mkPageHeader pgno 0) data = Ok (add_page m e pgno data c))
  ∧ (page_allowed h (default 0 (fst <$> last pages)) pgno data = false →
     encode_page e (mkPageHeader pgno 0) data = Err LTXCorrupted).
Proof.
  intros Hv Hc Hok [Hw Hh Hhash Hi Hm Hbw Hp Hhw Ho] Hprev.
  rewrite page_guards by (rewrite ?Hh, ?Hp; done). rewrite Hh, Hp, Hm.
  split; intros Hal; rewrite Hal; [|done]. destruct m.
  - exists (e_compressor e). cbv iota. by rewrite page_writes, Hm.
  - assert (N.of_nat (length data) = h_page_size h) as Hlen.
    { unfold page_allowed in Hal. apply andb_prop in Hal as [Hal _]. repeat apply andb_prop in Hal as [Hal ?].
      by apply N.eqb_eq. }
    destruct (header_validate_Ok _ Hv) as [_ Hps].
    destruct (compress_block (default compressor_default (e_compressor e)) data Hok) as (c & -> & _ & Hsize).
    destruct (N.ltb_spec u32_max (N.of_nat (length (block_of data)))) as [Hbig|_].
    { unfold u32_max, compress_bound in *. lia. }
    exists (Some c). cbv zeta iota. rewrite write_hashed_twice.
    change (e_bytes_written e) with (e_bytes_written (set_compressor e c)). rewrite page_writes.
    unfold add_page, page_bytes, page_hash. cbn [fst snd page_prefix page_body]. cbn [set_compressor e_page_encoding].
    by rewrite Hm.
Qed.

Lemma page_allowed_true h prev pgno data :
  512 ≤ h_page_size h ≤ 65536 → page_allowed h prev pgno data = true →
  prev < pgno ≤ h_commit h ∧ N.of_nat (length data) = h_page_size h ∧ pgno ≠ lock_pgno (h_page_size h).
Proof.
  intros Hps Hal. unfold page_allowed in Hal.
  apply andb_prop in Hal as [[[[H1%N.leb_le H2%N.eqb_eq]%andb_prop H3%negb_true_iff]%andb_prop H4%negb_true_iff]%andb_prop H5].
  apply N.eqb_neq in H3, H4. split_and!; try done. destruct (is_snapshot h).
  - apply N.eqb_eq in H5. destruct (N.eqb_spec prev (lock_pgno (h_page_size h) - 1)); lia.
  - by apply N.ltb_lt.
Qed.

(** The page number after which the next page is checked. *)
Definition last_page (prev : N) (pages : list (N * list N)) : N := default prev (fst <$> last pages).

Lemma last_page_cons prev page pages : last_page prev (page :: pages) = last_page page.1 pages.
Proof. unfold last_page. rewrite last_cons. by destruct (last pages). Qed.

Lemma pages_allowed_app h prev ps qs :
  pages_allowed h prev (ps ++ qs) = pages_allowed h prev ps && pages_allowed h (last_page prev ps) qs.
Proof.
  revert prev. induction ps as [|[pgno data] ps IH]; intros prev; cbn [app pages_allowed]; [done|].
  by rewrite IH, last_page_cons, andb_assoc.
Qed.

Lemma pages_allowed_sorted h prev pages :
  512 ≤ h_page_size h ≤ 65536 → pages_allowed h prev pages = true →
  StronglySorted N.lt pages.*1 ∧ Forall (λ p, prev < p.1 ≤ last_page prev pages ∧ p.1 ≤ h_commit h) pages.
Proof.
  intros Hps. revert prev. induction pages as [|[pgno data] pages IH]; intros prev Hal; [by repeat constructor|].
  cbn [pages_allowed] in Hal. apply andb_prop in Hal as [Hp Hal].
  destruct (page_allowed_true h prev pgno data Hps Hp) as (Hlt & _). destruct (IH _ Hal) as [Hs Hf].
  rewrite last_page_cons. cbn [fst].
  assert (pgno ≤ last_page pgno pages) as Hlast.
  { unfold last_page. destruct (last pages) as [q|] eqn:E; cbn; [|lia]. apply last_Some_elem_of in E.
    rewrite Forall_forall in Hf. destruct (Hf q E). lia. }
  split.
  - cbn [fmap list_fmap fst]. constructor; [done|]. apply Forall_fmap. eapply Forall_impl; [exact Hf|].
    intros q [? ?]. cbn. lia.
  - constructor; [cbn; lia|]. eapply Forall_impl; [exact Hf|]. intros q [? ?]. cbn. lia.
Qed.

Lemma index_entries_fst m offset pages : (index_entries m offset pages).*1 = pages.*1.
Proof. revert offset. induction pages as [|p pages IH]; intros offset; [done|]. cbn. by rewrite IH. Qed.

Lemma index_entries_snoc m offset pages page :
  index_entries m offset (pages ++ [page])
  = index_entries m offset pages
    ++ [(page.1, (offset + N.of_nat (length (mjoin (page_bytes m <$> pages))), N.of_nat (length (page_bytes m page))))].
Proof.
  revert offset. induction pages as [|p pages IH]; intros offset; cbn [app index_entries fmap list_fmap mjoin list_join].
  - cbn [length]. by rewrite N.add_0_r.
  - by rewrite IH, length_app, Nat2N.inj_add, N.add_assoc.
Qed.

Lemma encoding_add m h pages e pgno data c :
  header_validate h = Ok tt → pages_allowed h 0 (pages ++ [(pgno, data)]) = true →
  encoding m h pages e → encoding m h (pages ++ [(pgno, data)]) (add_page m e pgno data c).
Proof.
  intros Hv Hal [Hw Hh Hhash Hi Hm Hbw Hp Hhw Ho]. destruct (header_validate_Ok _ Hv) as [_ Hps].
  rewrite pages_allowed_app in Hal. apply andb_prop in Hal as [Hal0 Hal1].
  destruct (pages_allowed_sorted h 0 pages Hps Hal0) as [_ Hf].
  cbn [pages_allowed] in Hal1. rewrite andb_true_r in Hal1.
  destruct (page_allowed_true _ _ _ _ Hps Hal1) as (Hlt & _).
  constructor; cbn [add_page e_writer e_header e_hash e_index e_page_encoding e_bytes_written
    e_previous_page_number e_header_written e_closed]; try done.
  - rewrite Hw, fmap_app, join_app, <- app_assoc. cbn [fmap list_fmap mjoin list_join]. by rewrite app_nil_r.
  - rewrite Hhash, fmap_app, join_app, <- app_assoc. cbn [fmap list_fmap mjoin list_join]. by rewrite app_nil_r.
  - rewrite index_entries_snoc, list_to_map_snoc.
    + rewrite Hi, Hbw, Hw, length_app, length_header_marshal. cbn [fst].
      replace (N.of_nat (HEADER_SIZE + length (mjoin (page_bytes m <$> pages))))
        with (100 + N.of_nat (length (mjoin (page_bytes m <$> pages)))) by (unfold HEADER_SIZE; lia). done.
    + rewrite index_entries_fst. intros (q & Eq & Hq)%list_elem_of_fmap. rewrite Forall_forall in Hf.
      destruct (Hf q Hq). cbn in Eq. subst pgno. lia.
  - rewrite Hbw, length_app. lia.
  - by rewrite last_snoc.
Qed.

Lemma encode_pages_spec m h done_ pages e :
  header_validate h = Ok tt → h_commit h ≤ u32_max → Forall (λ p, bytes_ok p.2) pages →
  encoding m h done_ e → pages_allowed h 0 done_ = true →
  if pages_allowed h (last_page 0 done_) pages
  then ∃ e', encode_pages e pages = Ok e' ∧ encoding m h (done_ ++ pages) e'
  else encode_pages e pages = Err LTXCorrupted.
Proof.
  intros Hv Hc Hok. revert done_ e. destruct (header_validate_Ok _ Hv) as [_ Hps].
  induction pages as [|[pgno data] pages IH]; intros done_ e He Hal; cbn [pages_allowed encode_pages].
  { exists e. by rewrite app_nil_r. }
  apply Forall_cons in Hok as [Hd Hok].
  assert (last_page 0 done_ ≤ h_commit h) as Hlast.
  { destruct (pages_allowed_sorted h 0 done_ Hps Hal) as [_ Hf]. unfold last_page.
    destruct (last done_) as [q|] eqn:E; cbn; [|lia]. apply last_Some_elem_of in E.
    rewrite Forall_forall in Hf. by destruct (Hf q E). }
  destruct (encode_page_spec m h done_ e pgno data Hv Hc Hd He Hlast) as [Hyes Hno]. fold (last_page 0 done_) in Hyes, Hno.
  destruct (page_allowed h (last_page 0 done_) pgno data) eqn:Ep; cbn [andb].
  - destruct (Hyes eq_refl) as [c ->].
    assert (pages_allowed h 0 (done_ ++ [(pgno, data)]) = true) as Hal'.
    { rewrite pages_allowed_app, Hal. cbn [pages_allowed andb]. by rewrite Ep. }
    specialize (IH Hok (done_ ++ [(pgno, data)]) _ (encoding_add m h done_ e pgno data c Hv Hal' He) Hal').
    rewrite <- app_assoc in IH. cbn [app] in IH.
    assert (last_page 0 (done_ ++ [(pgno, data)]) = pgno) as El by (unfold last_page; by rewrite last_snoc).
    by rewrite El in IH.
  - by rewrite (Hno eq_refl).
Qed.

Lemma sorted_items {V} (l : list (N * V)) : StronglySorted N.lt l.*1 → StronglySorted item_lt l.
Proof.
  induction l as [|x l IH]; intros Hs; [constructor|].
  rewrite fmap_cons in Hs. apply StronglySorted_cons in Hs as [Hx Hs].
  rewrite Forall_fmap in Hx.
  constructor; [by apply IH|]. eapply Forall_impl; [exact Hx|]. intros y. apply N.lt_nge.
Qed.

Lemma flagged_checksum x : (N.lor CHECKSUM_FLAG x =? 0) = false ∧ (N.land (N.lor CHECKSUM_FLAG x) CHECKSUM_FLAG =? 0) = false.
Proof.
  assert (N.land (N.lor CHECKSUM_FLAG x) CHECKSUM_FLAG = CHECKSUM_FLAG) as E.
  { apply N.bits_inj. intros i. rewrite N.land_spec, N.lor_spec. by destruct (N.testbit CHECKSUM_FLAG i), (N.testbit x i). }
  rewrite E. split; [|done]. apply N.eqb_neq. by intros [E' _]%N.lor_eq_0_iff.
Qed.

(** The bytes [Encoder::close] hashes before the post-apply checksum. *)
Definition close_bytes (index : list N) : list N :=
  replicate PAGE_HEADER_SIZE 0 ++ index ++ be_bytes 8 (N.of_nat (length index)).

Lemma bytes_written_hashed e bytes : e_bytes_written (write_hashed e bytes) = e_bytes_written e + N.of_nat (length bytes).
Proof. done. Qed.

Lemma hash_hashed e a b : e_hash (hash_update (write_hashed e a) b) = (e_hash e ++ a) ++ b.
Proof. done. Qed.

Lemma index_hashed e bytes : e_index (write_hashed e bytes) = e_index e.
Proof. done. Qed.

Lemma encoder_close_eq e post :
  e_header_written e = true → e_closed e = false →
  encoder_close e post
  = let bytes := close_bytes (index_bytes (e_index e)) in
    let trailer := mkTrailer post (N.lor CHECKSUM_FLAG (crc64 ((e_hash e ++ bytes) ++ be_bytes 8 post))) in
    _ ←? trailer_validate trailer (e_header e);
    if (h_commit (e_header e) =? 0) && negb (post =? CHECKSUM_FLAG) then Err LTXCorrupted
    else Ok (set_closed (write_body (set_trailer (hash_update (write_hashed e bytes) (be_bytes 8 post)) trailer)
                           (trailer_marshal trailer))).
Proof.
  intros Hhw Ho. unfold encoder_close. rewrite Hhw, Ho. cbv zeta.
  change (if negb true || false then ?a else ?b) with b. cbv iota.
  rewrite !bytes_written_hashed, !index_hashed, !write_hashed_twice, !hash_hashed.
  set (n := length (index_bytes (e_index e))).
  replace (e_bytes_written e + N.of_nat (length (replicate PAGE_HEADER_SIZE 0)) + N.of_nat n
           - (e_bytes_written e + N.of_nat (length (replicate PAGE_HEADER_SIZE 0)))) with (N.of_nat n) by lia.
  unfold close_bytes. rewrite <- !app_assoc. done.
Qed.

Lemma close_bytes_section m pages :
  StronglySorted N.lt pages.*1 →
  close_bytes (index_bytes (list_to_map (index_entries m 100 pages)))
  = replicate PAGE_HEADER_SIZE 0 ++ index_section (index_entries m 100 pages).
Proof.
  intros Hs. unfold close_bytes, index_section, index_bytes.
  rewrite items_list_to_map by (apply sorted_items; by rewrite index_entries_fst).
  assert ((λ '(page_number, (offset, size)), write_uvarint page_number ++ write_uvarint offset ++ write_uvarint size)
          <$> index_entries m 100 pages = entry_bytes <$> index_entries m 100 pages) as ->; [|done].
  apply list_fmap_ext. by intros ? [? [? ?]].
Qed.

Lemma trailer_validate_flagged h post x :
  trailer_validate (mkTrailer post (N.lor CHECKSUM_FLAG x)) h
  = if (if no_checksum h then post =? 0 else negb (post =? 0) && negb (N.land post CHECKSUM_FLAG =? 0))
    then Ok tt else Err LTXCorrupted.
Proof.
  unfold trailer_validate. cbn [t_post_apply_checksum t_file_checksum].
  destruct (flagged_checksum x) as [-> ->]. cbn [orb].
  destruct (no_checksum h); [by destruct (post =? 0)|].
  by destruct (post =? 0), (N.land post CHECKSUM_FLAG =? 0).
Qed.

Lemma encoder_close_spec m h pages e post :
  header_validate h = Ok tt → encoding m h pages e → pages_allowed h 0 pages = true →
  if post_allowed h post
  then ∃ e', encoder_close e post = Ok e' ∧ e_writer e' = file_bytes m h pages post ∧ e_header e' = h
  else encoder_close e post = Err LTXCorrupted.
Proof.
  intros Hv [Hw Hh Hhash Hi Hm Hbw Hp Hhw Ho] Hal. destruct (header_validate_Ok _ Hv) as [_ Hps].
  destruct (pages_allowed_sorted h 0 pages Hps Hal) as [Hs _].
  rewrite encoder_close_eq by done. rewrite Hi, Hh, Hhash, close_bytes_section by done. cbv zeta.
  rewrite trailer_validate_flagged. unfold post_allowed.
  destruct (if no_checksum h then _ else _); cbn [andb]; [|done].
  destruct ((h_commit h =? 0) && negb (post =? CHECKSUM_FLAG)) eqn:Ec.
  { by apply andb_prop in Ec as [-> ->%negb_true_iff]. }
  assert (negb (h_commit h =? 0) || (post =? CHECKSUM_FLAG) = true) as ->.
  { destruct (h_commit h =? 0); [|done]. by apply negb_false_iff in Ec. }
  eexists. split; [done|]. split; [|done]. unfold file_bytes, file_trailer.
  change (e_writer (set_closed (write_body (set_trailer (hash_update (write_hashed e ?a) ?b) ?c) ?d)))
    with ((e_writer e ++ a) ++ d). rewrite Hw, <- !app_assoc. done.
Qed.

Lemma encoding_header m h :
  header_validate h = Ok tt → ∃ e, encode_header (encoder_new [] m) h = Ok e ∧ encoding m h [] e.
Proof.
  intros Hv. unfold encode_header. cbn [encoder_new e_header_written e_closed orb]. rewrite Hv.
  eexists. split; [done|]. by constructor.
Qed.

(** The encoder as a function of its input: the layout above, or a refusal. *)
Lemma encode_file_eq (v0_5_2 : bool) h pages post :
  h_commit h ≤ u32_max → Forall (λ p, bytes_ok p.2) pages →
  encode_file_with_mode h pages post v0_5_2
  = if is_ok (header_validate h) && pages_allowed h 0 pages && post_allowed h post
    then Ok (file_bytes (if v0_5_2 then SizedBlock else LegacyFrame) h pages post) else Err LTXCorrupted.
Proof.
  intros Hc Hok. unfold encode_file_with_mode. set (m := if v0_5_2 then SizedBlock else LegacyFrame).
  destruct (header_validate h) as [[]|err] eqn:Hv.
  2:{ cbn [is_ok andb]. unfold encode_header. cbn [encoder_new e_header_written e_closed orb]. rewrite Hv.
      by apply header_validate_err in Hv as ->. }
  cbn [is_ok andb]. destruct (encoding_header m h Hv) as (e0 & -> & He0).
  pose proof (encode_pages_spec m h [] pages e0 Hv Hc Hok He0 eq_refl) as Hp.
  cbn [last_page last fmap option_fmap option_map default app] in Hp. change (last_page 0 []) with 0 in Hp.
  destruct (pages_allowed h 0 pages) eqn:Hal; cbn [andb]; [|by rewrite Hp].
  destruct Hp as (e1 & -> & He1). pose proof (encoder_close_spec m h pages e1 post Hv He1 Hal) as Hcl.
  destruct (post_allowed h post); [|by rewrite Hcl]. destruct Hcl as (e2 & -> & -> & _). done.
Qed.
End EncoderFacts.

(** ** The decoder reads the layout back *)

Lemma read_exact_app a b : read_exact (a ++ b) (length a) = Ok (a, b).
Proof.
  unfold read_exact. rewrite length_app. destruct (Nat.ltb_spec (length a + length b) (length a)); [lia|].
  by rewrite take_app_length, drop_app_length.
Qed.

Lemma read_exact_app' a b n : length a = n → read_exact (a ++ b) n = Ok (a, b).
Proof. intros <-. apply read_exact_app. Qed.

Section DecoderFacts.
Context `{Lz4FlexLaws}.

Definition page_flags (m : PageEncoding) : N := match m with LegacyFrame => 0 | SizedBlock => PAGE_HEADER_FLAG_SIZE end.

(** The step of the rolling checksum. *)
Definition roll (h : Header) (rolling : N) (page : N * list N) : N :=
  if is_snapshot h && negb (no_checksum h) && negb (page.1 =? lock_pgno (h_page_size h))
  then N.lor CHECKSUM_FLAG (N.lxor rolling (checksum_page page.1 page.2)) else rolling.

Lemma page_header_reads m pgno :
  0 < pgno ≤ u32_max →
  page_header_parse (page_header_marshal (mkPageHeader pgno (page_flags m))) = Ok (mkPageHeader pgno (page_flags m))
  ∧ page_header_is_zero (mkPageHeader pgno (page_flags m)) = false
  ∧ page_header_validate (mkPageHeader pgno (page_flags m)) = Ok tt.
Proof.
  intros Hp. split; [|split].
  - apply page_header_parse_marshal; cbn; [lia|]. by destruct m.
  - unfold page_header_is_zero. cbn [ph_pgno]. by destruct (N.eqb_spec pgno 0); [lia|].
  - unfold page_header_validate. cbn [ph_pgno ph_flags]. destruct (N.eqb_spec pgno 0); [lia|]. by destruct m.
Qed.

(** The compressed body of a page reads back. *)
Lemma block_reads data rest :
  bytes_ok data → (length data ≤ N.to_nat 65536)%nat →
  let block := block_of data in
  read_exact (be_bytes 4 (N.of_nat (length block)) ++ block ++ rest) 4 = Ok (be_bytes 4 (N.of_nat (length block)), block ++ rest)
  ∧ N.to_nat (big_endian (be_bytes 4 (N.of_nat (length block)))) = length block
  ∧ Nat.ltb (compress_bound (length data)) (length block) = false
  ∧ block_decompress (length data) block = Some data.
Proof.
  intros Hok Hlen. cbv zeta. destruct (compress_block compressor_default data Hok) as (c & _ & Hd & Hsize).
  split_and!.
  - apply read_exact_app'. apply length_be_bytes.
  - rewrite big_endian_be_bytes; [apply Nat2N.id|]. change (width_bound 4) with 4294967296.
    unfold compress_bound in Hsize. lia.
  - apply Nat.ltb_ge. done.
  - by apply block_decompress_block.
Qed.

Lemma decode_page_bytes m d pgno data rest :
  d_state d = DPages → d_reader d = page_bytes m (pgno, data) ++ rest → bytes_ok data →
  512 ≤ h_page_size (d_header d) ≤ 65536 → N.of_nat (length data) = h_page_size (d_header d) →
  0 < pgno ≤ u32_max →
  decode_page d (length data)
  = Ok (mkDecoder rest DPages (d_header d) (d_trailer d) (d_hash d ++ page_hash m (pgno, data))
          (roll (d_header d) (d_rolling_checksum d) (pgno, data)),
        Some (mkPageHeader pgno (page_flags m), data)).
Proof.
  intros Hs Hr Hok Hps Hlen Hp. unfold decode_page. rewrite Hs. rewrite bool_decide_false, bool_decide_true by done.
  rewrite Hlen, N.eqb_refl. cbn [negb orb]. rewrite Hr.
  destruct (page_header_reads m pgno Hp) as (Hparse & Hz & Hval).
  assert (page_bytes m (pgno, data) ++ rest
          = page_header_marshal (mkPageHeader pgno (page_flags m))
            ++ match m with LegacyFrame => frame_encode data ++ rest
                        | SizedBlock => be_bytes 4 (N.of_nat (length (block_of data))) ++ block_of data ++ rest end) as ->.
  { unfold page_bytes. destruct m; cbn [fst snd page_prefix page_body page_flags]; by rewrite <- !app_assoc. }
  rewrite read_exact_app' by done. rewrite Hparse, Hz, Hval.
  destruct m; cbn [page_flags ph_flags ph_pgno].
  - change (negb (N.land 0 PAGE_HEADER_FLAG_SIZE =? 0)) with false. cbv iota.
    rewrite frame_decode_encode by lia. cbn [ok_or]. unfold page_hash. cbn [fst snd page_prefix]. by rewrite app_assoc.
  - change (negb (N.land PAGE_HEADER_FLAG_SIZE PAGE_HEADER_FLAG_SIZE =? 0)) with true. cbv iota.
    destruct (block_reads data rest Hok) as (-> & -> & -> & Hd); [lia|]. rewrite read_exact_app, Hd. cbn [ok_or].
    rewrite Nat.eqb_refl. cbn [negb]. unfold page_hash. cbn [fst snd page_prefix]. by rewrite <- !app_assoc.
Qed.

Lemma zero_page_header : page_header_parse (replicate PAGE_HEADER_SIZE 0) = Ok (mkPageHeader 0 0).
Proof. done. Qed.

(** A page the decoder can read in a file with header [h]. *)
Definition page_ok (h : Header) (page : N * list N) : Prop :=
  bytes_ok page.2 ∧ N.of_nat (length page.2) = h_page_size h ∧ 0 < page.1 ≤ u32_max.

Lemma decode_pages_bytes m fuel d retain pgnos kept pages tail :
  d_state d = DPages → 512 ≤ h_page_size (d_header d) ≤ 65536 → Forall (page_ok (d_header d)) pages →
  d_reader d = mjoin (page_bytes m <$> pages) ++ replicate PAGE_HEADER_SIZE 0 ++ tail → (length pages < fuel)%nat →
  decode_pages_loop fuel d (N.to_nat (h_page_size (d_header d))) retain pgnos kept
  = Ok (mkDecoder tail DClose (d_header d) (d_trailer d)
          (d_hash d ++ mjoin (page_hash m <$> pages) ++ replicate PAGE_HEADER_SIZE 0)
          (foldl (roll (d_header d)) (d_rolling_checksum d) pages),
        pgnos ++ pages.*1, if retain then kept ++ pages else kept).
Proof.
  revert fuel d pgnos kept. induction pages as [|[pgno data] pages IH];
    intros fuel d pgnos kept Hs Hps Hok Hr Hf; (destruct fuel as [|fuel]; [cbn [length] in Hf; lia|]).
  - cbn [decode_pages_loop]. cbn [fmap list_fmap mjoin list_join app] in Hr.
    unfold decode_page. rewrite Hs, bool_decide_false, bool_decide_true, N2Nat.id, N.eqb_refl by done. cbn [negb orb].
    rewrite Hr, read_exact_app' by done. rewrite zero_page_header. change (page_header_is_zero (mkPageHeader 0 0)) with true. cbv iota.
    cbn [fmap list_fmap mjoin list_join app foldl]. rewrite !app_nil_r. by destruct retain.
  - apply Forall_cons in Hok as [(Hd & Hlen & Hp) Hok]. cbn [fst snd] in *. cbn [decode_pages_loop].
    cbn [fmap list_fmap mjoin list_join] in Hr. rewrite <- app_assoc in Hr.
    replace (N.to_nat (h_page_size (d_header d))) with (length data) by lia.
    rewrite (decode_page_bytes m d pgno data _ Hs Hr) by done.
    replace (length data) with (N.to_nat (h_page_size (d_header d))) by lia.
    match goal with |- decode_pages_loop _ ?d' _ _ _ _ = _ => rewrite (IH fuel d') end;
      [|done|done|done|done|cbn [length] in Hf; lia].
    cbn [d_header d_trailer d_hash d_rolling_checksum ph_pgno fmap list_fmap mjoin list_join foldl fst].
    rewrite <- !app_assoc. cbn [app]. by destruct retain; rewrite <- ?app_assoc.
Qed.

(** ** The index *)

(** Entries whose numbers fit the varints. *)
Definition entry_fits (entry : N * (N * N)) : Prop :=
  0 < entry.1 ≤ u32_max ∧ entry.2.1 ≤ u64_max ∧ entry.2.2 ≤ u64_max.

Definition entry_triple (entry : N * (N * N)) : N * N * N := (entry.1, entry.2.1, entry.2.2).

Lemma decode_entries fuel entries acc :
  Forall entry_fits entries → (length entries < fuel)%nat →
  decode_page_index_loop fuel (mjoin (entry_bytes <$> entries) ++ write_uvarint 0) acc
  = Ok (acc ++ (entry_triple <$> entries)).
Proof.
  revert fuel acc. induction entries as [|[pgno [off size]] entries IH]; intros fuel acc Hok Hf;
    (destruct fuel as [|fuel]; [lia|]); cbn [decode_page_index_loop fmap list_fmap mjoin list_join].
  - cbn [app]. rewrite <- (app_nil_r (write_uvarint 0)), read_write_uvarint by done. cbn. by rewrite app_nil_r.
  - apply Forall_cons in Hok as [(Hp & Ho & Hz) Hok]. cbn [fst snd] in *. unfold entry_bytes at 1. cbn [fst snd].
    rewrite <- !app_assoc, read_write_uvarint by (unfold u32_max, u64_max in *; lia).
    destruct (N.eqb_spec pgno 0); [lia|]. rewrite !read_write_uvarint by done.
    unfold u32_wrap. rewrite N.mod_small by (unfold u32_max in *; lia).
    rewrite IH; [|done|cbn [length] in Hf; lia]. by rewrite <- app_assoc.
Qed.

Lemma decode_index_bytes entries :
  Forall entry_fits entries →
  decode_page_index (mjoin (entry_bytes <$> entries) ++ write_uvarint 0) = Ok (entry_triple <$> entries).
Proof.
  intros Hok. unfold decode_page_index. rewrite decode_entries; [done|done|].
  rewrite length_app. assert (length entries ≤ length (mjoin (entry_bytes <$> entries)))%nat; [|lia].
  clear Hok. induction entries as [|e entries IH]; [done|]. rewrite fmap_cons.
  change (mjoin (entry_bytes e :: (entry_bytes <$> entries))) with (entry_bytes e ++ mjoin (entry_bytes <$> entries)).
  cbn [length]. rewrite length_app. assert (1 ≤ length (entry_bytes e))%nat; [|lia].
  unfold entry_bytes. rewrite length_app. unfold write_uvarint. cbn [write_uvarint_loop].
  destruct (128 <=? e.1); cbn [length]; lia.
Qed.

(** A page is at most 128 KiB in the file. *)
Lemma page_bytes_size m pgno data :
  bytes_ok data → (length data ≤ N.to_nat 65536)%nat →
  6 ≤ N.of_nat (length (page_bytes m (pgno, data))) ≤ 131072.
Proof.
  intros Hok Hlen. unfold page_bytes. rewrite length_app. destruct m; cbn [fst snd page_prefix page_body].
  - pose proof (frame_encode_size data Hlen). change (length (page_header_marshal _)) with 6%nat. lia.
  - destruct (compress_block compressor_default data Hok) as (_ & _ & _ & Hsize). rewrite length_app, length_be_bytes.
    change (length (page_header_marshal _)) with 6%nat. unfold compress_bound in Hsize. lia.
Qed.

Lemma index_entries_fit m h prev offset pages :
  512 ≤ h_page_size h ≤ 65536 → h_commit h ≤ u32_max → pages_allowed h prev pages = true →
  Forall (λ p, bytes_ok p.2) pages → offset ≤ 100 + prev * 131072 →
  Forall entry_fits (index_entries m offset pages).
Proof.
  intros Hps Hc. revert prev offset. induction pages as [|[pgno data] pages IH]; intros prev offset Hal Hok Hoff; [constructor|].
  cbn [pages_allowed] in Hal. apply andb_prop in Hal as [Hp Hal]. apply Forall_cons in Hok as [Hd Hok].
  destruct (page_allowed_true h prev pgno data Hps Hp) as (Hlt & Hlen & _).
  pose proof (page_bytes_size m pgno data Hd ltac:(lia)) as Hsize.
  cbn [index_entries]. unfold u32_max in Hc. constructor.
  - unfold entry_fits, u32_max, u64_max. cbn [fst snd]. lia.
  - apply (IH pgno); [done|done|]. lia.
Qed.

Lemma take_all_but (l k : list N) : take (length (l ++ k) - length k) (l ++ k) = l ∧ drop (length (l ++ k) - length k) (l ++ k) = k.
Proof.
  rewrite length_app. replace (length l + length k - length k)%nat with (length l) by lia.
  by rewrite take_app_length, drop_app_length.
Qed.

Lemma decoder_close_bytes d entries t :
  d_state d = DClose → d_reader d = index_section entries ++ trailer_marshal t → Forall entry_fits entries →
  N.of_nat (length (mjoin (entry_bytes <$> entries) ++ write_uvarint 0)) ≤ u64_max →
  t_post_apply_checksum t ≤ u64_max → t_file_checksum t ≤ u64_max → trailer_validate t (d_header d) = Ok tt →
  let hash := d_hash d ++ index_section entries ++ be_bytes 8 (t_post_apply_checksum t) in
  N.lor CHECKSUM_FLAG (crc64 hash) = t_file_checksum t →
  decoder_close d
  = if is_snapshot (d_header d) && negb (no_checksum (d_header d)) && negb (d_rolling_checksum d =? t_post_apply_checksum t)
    then Err ChecksumMismatch else Ok (mkDecoder [] DClosed (d_header d) t hash (d_rolling_checksum d)).
Proof.
  intros Hs Hr Hfit Hix Hpost Hfile Hval hash Hcrc.
  set (index := mjoin (entry_bytes <$> entries) ++ write_uvarint 0) in *.
  assert (index_section entries = index ++ be_bytes 8 (N.of_nat (length index))) as Es by done.
  assert (length (trailer_marshal t) = 16%nat) as Ht by done.
  unfold decoder_close. rewrite Hs, bool_decide_false, bool_decide_true by done. cbn [negb]. rewrite Hr.
  destruct (take_all_but (index_section entries) (trailer_marshal t)) as [Etake Edrop].
  assert (length (index_section entries) = (length index + 8)%nat) as Els by (by rewrite Es, length_app, length_be_bytes).
  assert ((length (index_section entries ++ trailer_marshal t) - TRAILER_SIZE)%nat = (length index + 8)%nat) as Eoff.
  { rewrite length_app, Ht, Els. unfold TRAILER_SIZE. lia. }
  destruct (Nat.ltb_spec (length (index_section entries ++ trailer_marshal t)) (8 + TRAILER_SIZE)) as [Hlt|_].
  { rewrite length_app, Ht, Els in Hlt. unfold TRAILER_SIZE in Hlt. lia. }
  rewrite Eoff. replace (length index + 8 - 8)%nat with (length index) by lia.
  rewrite (field_at 8 (length index) _ (N.of_nat (length index))).
  2:{ rewrite Es, <- app_assoc, drop_app_length. apply take_app_length'. by rewrite length_be_bytes. }
  2:{ change (width_bound 8) with 18446744073709551616. unfold u64_max in Hix. lia. }
  rewrite N.eqb_refl. cbn [negb].
  rewrite Ht in Etake, Edrop. unfold TRAILER_SIZE in Eoff. rewrite Eoff in Etake, Edrop. rewrite Edrop.
  rewrite Es at 1. rewrite <- app_assoc, take_app_length.
  unfold verify_page_index. subst index. rewrite decode_index_bytes by done. cbn [result_map].
  rewrite trailer_parse_marshal, Hval by done.
  assert (take (length (index_section entries ++ trailer_marshal t) - CHECKSUM_SIZE) (index_section entries ++ trailer_marshal t)
          = index_section entries ++ be_bytes 8 (t_post_apply_checksum t)) as ->.
  { unfold trailer_marshal. rewrite app_assoc.
    rewrite <- (length_be_bytes 8 (t_file_checksum t)) at 1. apply take_all_but. }
  fold hash. by rewrite Hcrc, N.eqb_refl.
Qed.

Lemma entry_bytes_size entry : entry_fits entry → (length (entry_bytes entry) ≤ 25)%nat.
Proof.
  destruct entry as [pgno [off size]]. intros (Hp & Ho & Hs). cbn [fst snd] in *. unfold entry_bytes, write_uvarint.
  cbn [fst snd]. rewrite !length_app. unfold u32_max, u64_max in *.
  pose proof (write_uvarint_size 10 pgno 5) as H1. change (128 ^ N.of_nat 5) with 34359738368 in H1.
  pose proof (write_uvarint_size 10 off 10) as H2. pose proof (write_uvarint_size 10 size 10) as H3.
  change (128 ^ N.of_nat 10) with 1180591620717411303424 in H2, H3.
  specialize (H1 ltac:(lia) ltac:(lia)). specialize (H2 ltac:(lia) ltac:(lia)). specialize (H3 ltac:(lia) ltac:(lia)). lia.
Qed.

Lemma entries_size entries :
  Forall entry_fits entries → (length (mjoin (entry_bytes <$> entries)) ≤ 25 * length entries)%nat.
Proof.
  induction 1 as [|e entries He _ IH]; [done|]. rewrite fmap_cons.
  change (mjoin (entry_bytes e :: (entry_bytes <$> entries))) with (entry_bytes e ++ mjoin (entry_bytes <$> entries)).
  rewrite length_app. pose proof (entry_bytes_size e He). cbn [length]. lia.
Qed.

Lemma length_index_entries m offset pages : length (index_entries m offset pages) = length pages.
Proof. rewrite <- (length_fmap fst), index_entries_fst, length_fmap. done. Qed.

Lemma pages_allowed_count h prev pages :
  512 ≤ h_page_size h ≤ 65536 → prev ≤ h_commit h → pages_allowed h prev pages = true →
  prev + N.of_nat (length pages) ≤ h_commit h.
Proof.
  intros Hps. revert prev. induction pages as [|[pgno data] pages IH]; intros prev Hp Hal; cbn [length pages_allowed] in *; [lia|].
  apply andb_prop in Hal as [Hal0 Hal]. destruct (page_allowed_true h prev pgno data Hps Hal0) as (Hlt & _).
  specialize (IH pgno ltac:(lia) Hal). lia.
Qed.

(** An input the encoder takes. *)
Record encodable (h : Header) (pages : list (N * list N)) (post : N) : Prop := mkEncodable {
  en_typed : header_typed h;
  en_valid : header_validate h = Ok tt;
  en_pages : Forall (λ p, bytes_ok p.2) pages;
  en_allowed : pages_allowed h 0 pages = true;
  en_post : post_allowed h post = true;
  en_post_typed : post ≤ u64_max;
}.

Lemma encodable_pages_ok h pages post : encodable h pages post → Forall (page_ok h) pages.
Proof.
  intros [Ht Hv Hb Hal _ _]. destruct (header_validate_Ok _ Hv) as [_ Hps].
  assert (h_commit h ≤ u32_max) as Hc by apply Ht. clear Ht Hv. revert Hal. generalize 0 at 1. induction Hb as [|[pgno data] pages Hd Hb IH];
    intros prev Hal; [constructor|]. cbn [pages_allowed] in Hal. apply andb_prop in Hal as [Hp Hal].
  destruct (page_allowed_true h prev pgno data Hps Hp) as (Hlt & Hlen & _).
  constructor; [|by apply (IH pgno)]. split; [done|]. split; [done|]. cbn. lia.
Qed.

Lemma encodable_entries m h pages post : encodable h pages post → Forall entry_fits (index_entries m 100 pages).
Proof.
  intros [Ht Hv Hb Hal _ _]. destruct (header_validate_Ok _ Hv) as [_ Hps].
  apply (index_entries_fit m h 0); [done|apply Ht|done|done|lia].
Qed.

Lemma encodable_index_size m h pages post :
  encodable h pages post →
  N.of_nat (length (mjoin (entry_bytes <$> index_entries m 100 pages) ++ write_uvarint 0)) ≤ u64_max.
Proof.
  intros He. pose proof (entries_size _ (encodable_entries m h pages post He)) as Hs.
  destruct He as [Ht Hv Hb Hal _ _]. destruct (header_validate_Ok _ Hv) as [_ Hps].
  pose proof (pages_allowed_count h 0 pages Hps ltac:(lia) Hal) as Hn.
  assert (h_commit h ≤ u32_max) as Hc by apply Ht. rewrite length_index_entries in Hs. rewrite length_app.
  change (length (write_uvarint 0)) with 1%nat. unfold u32_max, u64_max in *. lia.
Qed.

Lemma encodable_trailer m h pages post :
  encodable h pages post →
  t_file_checksum (file_trailer m h pages post) ≤ u64_max
  ∧ trailer_validate (file_trailer m h pages post) h = Ok tt.
Proof.
  intros [Ht Hv Hb Hal Hpost _]. split.
  - unfold file_trailer. cbn [t_file_checksum]. unfold u64_max. apply N.lt_succ_r. change (N.succ 18446744073709551615) with (2 ^ 64).
    apply lor_lt; [done|]. apply crc64_bound.
  - unfold file_trailer. rewrite trailer_validate_flagged. unfold post_allowed in Hpost.
    apply andb_prop in Hpost as [-> _]. done.
Qed.

Lemma length_pages_bytes m pages : (length pages ≤ length (mjoin (page_bytes m <$> pages)))%nat.
Proof.
  induction pages as [|p pages IH]; [done|]. rewrite fmap_cons.
  change (mjoin (page_bytes m p :: (page_bytes m <$> pages))) with (page_bytes m p ++ mjoin (page_bytes m <$> pages)).
  rewrite length_app. assert (1 ≤ length (page_bytes m p))%nat; [|cbn [length]; lia].
  unfold page_bytes, page_prefix. rewrite length_app. destruct m; [|rewrite length_app];
    change (length (page_header_marshal _)) with 6%nat; lia.
Qed.

Lemma foldl_roll h pages :
  is_snapshot h && negb (no_checksum h) = true → foldl (roll h) CHECKSUM_FLAG pages = rolling_checksum h pages.
Proof.
  intros E. unfold rolling_checksum. 
  match goal with |- foldl _ _ _ = foldl ?f _ _ => assert (∀ c, foldl (roll h) c pages = foldl f c pages); [|done] end.
  induction pages as [|p pages IH]; intros c; [done|]. cbn [foldl]. unfold roll at 2. rewrite E. cbn [andb]. apply IH.
Qed.

(** What the decoder makes of a file the encoder wrote. *)
Lemma decode_file_bytes m h pages post retain :
  encodable h pages post →
  decode_file_inner (file_bytes m h pages post) retain
  = if is_snapshot h && negb (no_checksum h) && negb (rolling_checksum h pages =? post)
    then Err ChecksumMismatch
    else Ok (mkDecodedFile h (file_trailer m h pages post) pages.*1, if retain then pages else []).
Proof.
  intros He. pose proof (encodable_pages_ok _ _ _ He) as Hpok. pose proof (encodable_entries m _ _ _ He) as Hfit.
  pose proof (encodable_index_size m _ _ _ He) as Hix. destruct (encodable_trailer m _ _ _ He) as [Hfile Htv].
  destruct He as [Ht Hv Hb Hal Hpost Hpt]. destruct (header_validate_Ok _ Hv) as [Hver Hps].
  unfold decode_file_inner, decode_header, decoder_new. cbn [d_state d_reader d_hash d_trailer d_rolling_checksum].
  rewrite bool_decide_true by done. cbn [negb]. unfold file_bytes at 1.
  rewrite read_exact_app' by apply length_header_marshal. rewrite header_parse_marshal, Hv by done. cbn [d_header app].
  rewrite (decode_pages_bytes m) with (pages := pages)
    (tail := index_section (index_entries m 100 pages) ++ trailer_marshal (file_trailer m h pages post));
    cbn [d_state d_header d_reader]; [|done..|].
  2:{ unfold file_bytes. rewrite !length_app. pose proof (length_pages_bytes m pages). lia. }
  cbn [app]. rewrite (decoder_close_bytes _ (index_entries m 100 pages) (file_trailer m h pages post));
    cbn [d_state d_header d_reader d_hash]; try done.
  - cbn [d_rolling_checksum t_post_apply_checksum file_trailer].
    destruct (is_snapshot h && negb (no_checksum h)) eqn:Es; cbn [andb].
    + assert (no_checksum h = false) as -> by (by apply andb_prop in Es as [_ ->%negb_true_iff]).
      rewrite foldl_roll by done. destruct (rolling_checksum h pages =? post); [|done]. by destruct retain.
    + by destruct retain.
  - cbn [file_trailer t_post_apply_checksum t_file_checksum]. by rewrite <- !app_assoc.
Qed.

(** C19: a file the encoder writes, in either page encoding, decodes to the
    header, the page numbers and the pages that went in; the one exception is a
    snapshot written with a post-apply checksum that is not the rolling checksum
    of its pages, which the decoder reports as a checksum mismatch. *)
Theorem file_roundtrip (v0_5_2 : bool) h pages post bytes :
  header_typed h → Forall (λ p, bytes_ok p.2) pages → post ≤ u64_max →
  encode_file_with_mode h pages post v0_5_2 = Ok bytes →
  if is_snapshot h && negb (no_checksum h) && negb (rolling_checksum h pages =? post)
  then decode_file_with_pages bytes = Err ChecksumMismatch ∧ decode_file bytes = Err ChecksumMismatch
  else ∃ trailer, t_post_apply_checksum trailer = post
       ∧ decode_file_with_pages bytes = Ok (mkDecodedFile h trailer pages.*1, pages)
       ∧ decode_file bytes = Ok (mkDecodedFile h trailer pages.*1).
Proof.
  intros Ht Hb Hpt E. rewrite encode_file_eq in E by (apply Ht || done).
  destruct (is_ok (header_validate h) && pages_allowed h 0 pages && post_allowed h post) eqn:Hen; [|done].
  injection E as <-. apply andb_prop in Hen as [[Hv Hal]%andb_prop Hpost].
  assert (header_validate h = Ok tt) as Hv' by (by destruct (header_validate h) as [[]|]).
  set (m := if v0_5_2 then SizedBlock else LegacyFrame).
  assert (encodable h pages post) as He by done.
  unfold decode_file_with_pages, decode_file. rewrite !(decode_file_bytes m h pages post) by done.
  destruct (is_snapshot h && negb (no_checksum h) && negb (rolling_checksum h pages =? post)); [done|].
  exists (file_trailer m h pages post). done.
Qed.

(** ** What the encoder takes

    Pages in order, inside the database, of the page size, never the lock page;
    and a snapshot that skips no page before its last one. *)
Definition orderly (h : Header) (prev : N) (pages : list (N * list N)) : Prop :=
  let lock := lock_pgno (h_page_size h) in
  StronglySorted N.lt pages.*1
  ∧ Forall (λ p, prev < p.1 ≤ h_commit h ∧ p.1 ≠ lock ∧ N.of_nat (length p.2) = h_page_size h) pages
  ∧ (is_snapshot h = true → ∀ p q, q ∈ pages.*1 → prev < p ≤ q → p ≠ lock → p ∈ pages.*1).

Lemma orderly_allowed h prev pages :
  512 ≤ h_page_size h ≤ 65536 → pages_allowed h prev pages = true → orderly h prev pages.
Proof.
  intros Hps. pose proof (lock_pgno_range _ Hps) as Hl. revert prev.
  induction pages as [|[pgno data] pages IH]; intros prev Hal.
  { split_and!; [constructor..|]. intros _ p q []%elem_of_nil. }
  pose proof (pages_allowed_sorted h prev _ Hps Hal) as [Hs _].
  cbn [pages_allowed] in Hal. apply andb_prop in Hal as [Hp Hal].
  destruct (page_allowed_true h prev pgno data Hps Hp) as (Hlt & Hlen & Hlock). destruct (IH pgno Hal) as (_ & Hf & Hgap).
  split_and!; [done| |].
  - constructor; [done|]. eapply Forall_impl; [exact Hf|]. intros p (? & ? & ?). split_and!; [lia..|done|done].
  - intros Hsn p q Hq Hpq Hpl. rewrite fmap_cons in *. cbn [fst] in *. apply elem_of_cons.
    destruct (N.lt_trichotomy p pgno) as [Hlt'|[->|Hgt]]; [|by left|].
    + exfalso. unfold page_allowed in Hp. apply andb_prop in Hp as [_ Hp]. rewrite Hsn in Hp. apply N.eqb_eq in Hp.
      destruct (N.eqb_spec prev (lock_pgno (h_page_size h) - 1)); lia.
    + right. apply elem_of_cons in Hq as [->|Hq]; [lia|]. apply (Hgap Hsn p q Hq); [lia|done].
Qed.

Lemma allowed_orderly h prev pages :
  512 ≤ h_page_size h ≤ 65536 → orderly h prev pages → pages_allowed h prev pages = true.
Proof.
  intros Hps. pose proof (lock_pgno_range _ Hps) as Hl. revert prev.
  induction pages as [|[pgno data] pages IH]; intros prev (Hs & Hf & Hgap); [done|].
  rewrite fmap_cons in Hs, Hgap. cbn [fst] in *. apply StronglySorted_cons in Hs as [Hx Hs].
  apply Forall_cons in Hf as [(Hlt & Hlock & Hlen) Hf]. cbn [fst snd] in *. cbn [pages_allowed].
  rewrite (IH pgno), andb_true_r.
  - unfold page_allowed. rewrite Hlen, N.eqb_refl, (proj2 (N.leb_le _ _)) by lia.
    rewrite (proj2 (N.eqb_neq pgno 0)), (proj2 (N.eqb_neq pgno _) Hlock) by lia. cbn [negb andb].
    destruct (is_snapshot h) eqn:Hsn; [|apply N.ltb_lt; lia]. apply N.eqb_eq.
    set (next := if prev =? lock_pgno (h_page_size h) - 1 then prev + 2 else prev + 1).
    assert (prev < next ≤ pgno ∧ next ≠ lock_pgno (h_page_size h)) as [Hn Hnl].
    { subst next. destruct (N.eqb_spec prev (lock_pgno (h_page_size h) - 1)); lia. }
    pose proof (Hgap eq_refl next pgno ltac:(by left) Hn Hnl) as Hin.
    apply elem_of_cons in Hin as [->|Hin]; [done|]. rewrite Forall_forall in Hx. specialize (Hx _ Hin). lia.
  - split_and!; [done| |].
    + rewrite Forall_forall in Hf. rewrite Forall_forall in Hx. apply Forall_forall. intros p Hp. destruct (Hf p Hp) as (? & ? & ?).
      specialize (Hx p.1 ltac:(by apply list_elem_of_fmap_2)). split_and!; [lia..|done|done].
    + intros Hsn p q Hq Hpq Hpl. pose proof (Hgap Hsn p q ltac:(by right) ltac:(lia) Hpl) as Hin.
      apply elem_of_cons in Hin as [->|Hin]; [lia|done].
Qed.

(** The bytes of a page are within what [max_encoded_size] counts for it. *)
Lemma page_bytes_bound m pgno data :
  bytes_ok data → (length data ≤ N.to_nat 65536)%nat →
  (length (page_bytes m (pgno, data))
   ≤ PAGE_HEADER_SIZE + (length data + LEGACY_FRAME_OVERHEAD) `max` (4 + compress_bound (length data)))%nat.
Proof.
  intros Hok Hlen. unfold page_bytes. rewrite length_app. unfold PAGE_HEADER_SIZE, LEGACY_FRAME_OVERHEAD.
  destruct m; cbn [fst snd page_prefix page_body].
  - pose proof (frame_encode_size data Hlen). change (length (page_header_marshal _)) with 6%nat. lia.
  - destruct (compress_block compressor_default data Hok) as (_ & _ & _ & Hsize). rewrite length_app, length_be_bytes.
    change (length (page_header_marshal _)) with 6%nat. lia.
Qed.

Lemma file_bytes_size m h pages post :
  encodable h pages post → (length (file_bytes m h pages post) ≤ max_encoded_size pages.*2)%nat.
Proof.
  intros He. pose proof (entries_size _ (encodable_entries m _ _ _ He)) as Hix. rewrite length_index_entries in Hix.
  pose proof (encodable_pages_ok _ _ _ He) as Hp. destruct (header_validate_Ok _ (en_valid _ _ _ He)) as [_ Hps].
  unfold file_bytes, max_encoded_size, index_section. rewrite !length_app, length_replicate, length_header_marshal, length_be_bytes.
  change (length (write_uvarint 0)) with 1%nat. change (length (trailer_marshal _)) with TRAILER_SIZE.
  assert (length (mjoin (page_bytes m <$> pages)) + 25 * length pages
    ≤ sum_list ((λ data, PAGE_HEADER_SIZE + (length data + LEGACY_FRAME_OVERHEAD) `max` (4 + compress_bound (length data)) + 25)
                <$> pages.*2))%nat; [|lia].
  clear Hix He. induction Hp as [|[pgno data] pages (Hb & Hlen & _) _ IH]; [done|]. cbn [fst snd] in *.
  pose proof (page_bytes_bound m pgno data Hb ltac:(lia)) as Hpage. rewrite !fmap_cons.
  change (mjoin (page_bytes m (pgno, data) :: (page_bytes m <$> pages)))
    with (page_bytes m (pgno, data) ++ mjoin (page_bytes m <$> pages)).
  rewrite length_app. cbn [sum_list_with length snd]. unfold id at 1. lia.
Qed.

(** The encoder accepts exactly the valid headers with pages in order,
    inside the database, of the page size and never the lock page, a snapshot
    without a gap, and a post-apply checksum that fits the header's mode; what
    it accepts never outgrows the buffer it sized, and it refuses everything
    else with an error. *)
Theorem encoder_accepts (v0_5_2 : bool) h pages post :
  header_typed h → Forall (λ p, bytes_ok p.2) pages → post ≤ u64_max →
  match encode_file_with_mode h pages post v0_5_2 with
  | Ok bytes => header_validate h = Ok tt ∧ orderly h 0 pages ∧ post_allowed h post = true
                ∧ (length bytes ≤ max_encoded_size pages.*2)%nat
  | Err e => e = LTXCorrupted
             ∧ ¬ (header_validate h = Ok tt ∧ orderly h 0 pages ∧ post_allowed h post = true)
  end.
Proof.
  intros Ht Hb Hp. rewrite encode_file_eq by (apply Ht || done).
  destruct (header_validate h) as [[]|e] eqn:Hv; cbn [is_ok andb]; [|split; [done|]; by intros [? _]].
  destruct (header_validate_Ok _ Hv) as [_ Hps].
  destruct (pages_allowed h 0 pages) eqn:Hal; cbn [andb].
  2:{ split; [done|]. intros (_ & Ho & _). by rewrite (allowed_orderly h 0 pages Hps Ho) in Hal. }
  destruct (post_allowed h post) eqn:Hpost; [|split; [done|]; by intros (_ & _ & ?)].
  split_and!; [done|by apply orderly_allowed|done|by apply file_bytes_size].
Qed.
End DecoderFacts.

(** ** Any bytes *)

(** The errors of the decoder. *)
Definition decode_error (e : Error) : Prop := e = LTXCorrupted ∨ e = Io ∨ e = ChecksumMismatch.

(** A computation that fails with those errors only. *)
Definition fails_cleanly {A} (r : Result A) : Prop := match r with Ok _ => True | Err e => decode_error e end.

Lemma fails_cleanly_bind {A B} (r : Result A) (k : A → Result B) :
  fails_cleanly r → (∀ x, r = Ok x → fails_cleanly (k x)) → fails_cleanly (x ←? r; k x).
Proof. destruct r as [x|e]; [intros _ Hk; by apply Hk|done]. Qed.

Create HintDb clean.

(** Split the conditions of a parser. *)
Ltac clean :=
  repeat match goal with
  | |- fails_cleanly (Ok _) => exact I
  | |- fails_cleanly (Err LTXCorrupted) => left; reflexivity
  | |- fails_cleanly (Err Io) => right; left; reflexivity
  | |- fails_cleanly (Err ChecksumMismatch) => right; right; reflexivity
  | |- fails_cleanly (if ?c then _ else _) => destruct c
  end.

Lemma read_exact_clean reader n : fails_cleanly (read_exact reader n).
Proof. unfold read_exact. clean. Qed.
Lemma header_parse_clean b : fails_cleanly (header_parse b).
Proof. unfold header_parse. clean. Qed.
Lemma header_validate_clean h : fails_cleanly (header_validate h).
Proof. unfold header_validate. clean. Qed.
Lemma page_header_parse_clean b : fails_cleanly (page_header_parse b).
Proof. unfold page_header_parse. clean. Qed.
Lemma page_header_validate_clean p : fails_cleanly (page_header_validate p).
Proof. unfold page_header_validate. clean. Qed.
Lemma trailer_parse_clean b : fails_cleanly (trailer_parse b).
Proof. unfold trailer_parse. clean. Qed.
Lemma trailer_validate_clean t h : fails_cleanly (trailer_validate t h).
Proof. unfold trailer_validate. clean. Qed.
#[export] Hint Resolve read_exact_clean header_parse_clean header_validate_clean page_header_parse_clean
  page_header_validate_clean trailer_parse_clean trailer_validate_clean : clean.

(** A varint takes at least a byte. *)
Lemma read_uvarint_shrinks bytes :
  match read_uvarint bytes with Ok (_, rest) => (length rest < length bytes)%nat | Err e => e = LTXCorrupted end.
Proof.
  unfold read_uvarint. generalize 0 at 2 as shift. generalize 0 as value.
  induction bytes as [|byte bytes IH]; intros value shift; cbn [read_uvarint_loop]; [done|]. destruct (byte <? 128).
  - destruct (_ || _); [done|]. cbn [length]. lia.
  - destruct (70 <=? shift + 7); [done|]. set (v := N.lor value _). specialize (IH v (shift + 7)).
    destruct (read_uvarint_loop _ _ _) as [[w rest]|e]; [cbn [length]; lia|done].
Qed.

(** The fuel of the index is enough: more of it changes nothing. *)
Lemma decode_page_index_fuel fuel fuel' bytes entries :
  (length bytes < fuel)%nat → (length bytes < fuel')%nat →
  decode_page_index_loop fuel bytes entries = decode_page_index_loop fuel' bytes entries.
Proof.
  revert fuel' bytes entries. induction fuel as [|fuel IH]; intros fuel' bytes entries H1 H2; [lia|].
  destruct fuel' as [|fuel']; [lia|]. cbn [decode_page_index_loop].
  pose proof (read_uvarint_shrinks bytes) as S1. destruct (read_uvarint bytes) as [[pgno b1]|]; [|done].
  destruct (pgno =? 0); [done|].
  pose proof (read_uvarint_shrinks b1) as S2. destruct (read_uvarint b1) as [[off b2]|]; [|done].
  pose proof (read_uvarint_shrinks b2) as S3. destruct (read_uvarint b2) as [[sz b3]|]; [|done]. apply IH; lia.
Qed.

Lemma decode_page_index_clean bytes : fails_cleanly (decode_page_index bytes).
Proof.
  unfold decode_page_index. generalize (S (length bytes)) as fuel. generalize (@nil (N * N * N)) as entries. intros entries fuel.
  revert bytes entries. induction fuel as [|fuel IH]; intros bytes entries; cbn [decode_page_index_loop]; [by left|].
  pose proof (read_uvarint_shrinks bytes) as S1. destruct (read_uvarint bytes) as [[pgno b1]|]; [|subst; by left].
  destruct (pgno =? 0); [clean|].
  pose proof (read_uvarint_shrinks b1) as S2. destruct (read_uvarint b1) as [[off b2]|]; [|subst; by left].
  pose proof (read_uvarint_shrinks b2) as S3. destruct (read_uvarint b2) as [[sz b3]|]; [|subst; by left]. apply IH.
Qed.

Section Any.
Context `{flex : Lz4Flex} `{laws : !Lz4FlexLaws}.

(** A page the decoder returns takes at least its header from the reader. *)
Lemma decode_page_shrinks d data_len :
  match decode_page d data_len with
  | Ok (d', None) => d_header d' = d_header d ∧ d_state d' = DClose
  | Ok (d', Some (page, data)) => d_header d' = d_header d ∧ (length (d_reader d') < length (d_reader d))%nat
      ∧ length data = data_len ∧ ph_pgno page ≠ 0
  | Err e => decode_error e
  end.
Proof.
  unfold decode_page. destruct (bool_decide_reflect (d_state d = DClose)); [done|]. destruct (negb _ || negb _); [by left|].
  unfold read_exact at 1. destruct (Nat.ltb_spec (length (d_reader d)) PAGE_HEADER_SIZE) as [|Hlen]; [by right; left|].
  unfold PAGE_HEADER_SIZE in *. set (reader := drop 6 (d_reader d)).
  assert (length reader < length (d_reader d))%nat as Hr by (unfold reader; rewrite length_drop; lia).
  pose proof (page_header_parse_clean (take 6 (d_reader d))) as Hp. destruct (page_header_parse _) as [page|]; [|done].
  destruct (page_header_is_zero page); [done|]. unfold page_header_validate.
  destruct (N.eqb_spec (ph_pgno page) 0) as [|Hpg]; [by left|]. destruct (negb (ph_flags page =? _)); [by left|].
  destruct (negb (N.land _ _ =? 0)).
  - unfold read_exact. destruct (Nat.ltb (length reader) 4); [by right; left|].
    destruct (Nat.ltb (compress_bound data_len) _); [by left|].
    destruct (Nat.ltb (length (drop 4 reader)) _); [by right; left|].
    destruct (block_decompress _ _) as [data|]; cbn [ok_or]; [|by left].
    destruct (Nat.eqb_spec (length data) data_len) as [El|]; cbn [negb]; [|by left].
    cbn [d_header d_reader]. rewrite !length_drop. split_and!; try done. lia.
  - destruct (frame_decode data_len reader) as [[data rest]|] eqn:Ef; cbn [ok_or]; [|by left].
    apply frame_decode_reads in Ef as [El Er]. cbn [d_header d_reader]. split_and!; try done. lia.
Qed.

(** The pages the loop retains. *)
Definition page_sized (data_len : nat) (page : N * list N) : Prop := length page.2 = data_len ∧ page.1 ≠ 0.

Lemma decode_pages_ends fuel d data_len retain pgnos pages :
  (length (d_reader d) < fuel)%nat → Forall (page_sized data_len) pages →
  match decode_pages_loop fuel d data_len retain pgnos pages with
  | Ok (d', _, pages') => d_header d' = d_header d ∧ d_state d' = DClose ∧ Forall (page_sized data_len) pages'
  | Err e => decode_error e
  end.
Proof.
  revert d pgnos pages. induction fuel as [|fuel IH]; intros d pgnos pages Hf Hp; [lia|]. cbn [decode_pages_loop].
  pose proof (decode_page_shrinks d data_len) as Hd. destruct (decode_page d data_len) as [[d' [[page data]|]]|e]; [|by destruct Hd|done].
  destruct Hd as (Eh & Hlt & El & Hpg). rewrite <- Eh. apply IH; [lia|].
  destruct retain; [|done]. apply Forall_app. split; [done|]. by constructor.
Qed.

Lemma decoder_close_clean d :
  match decoder_close d with
  | Ok d' => d_header d' = d_header d ∧ (d_state d ≠ DClosed → trailer_validate (d_trailer d') (d_header d) = Ok tt)
  | Err e => decode_error e
  end.
Proof.
  unfold decoder_close. destruct (bool_decide_reflect (d_state d = DClosed)); [done|]. destruct (negb _); [by left|].
  destruct (Nat.ltb _ _); [by left|]. destruct (negb _); [by left|]. unfold verify_page_index.
  pose proof (decode_page_index_clean (take (length (d_reader d) - TRAILER_SIZE - 8) (d_reader d))) as Hi.
  destruct (decode_page_index _); cbn [result_map]; [|done].
  pose proof (trailer_parse_clean (drop (length (d_reader d) - TRAILER_SIZE) (d_reader d))) as Ht.
  destruct (trailer_parse _) as [t|]; [|done]. pose proof (trailer_validate_clean t (d_header d)) as Hv.
  destruct (trailer_validate t (d_header d)) as [[]|] eqn:Ev; [|done].
  destruct (negb _); [by right; right|]. destruct (_ && _); [by right; right|]. done.
Qed.

End Any.

(** ** A concrete library

    Stored frames with a length in front, the reference block decoder, and a
    polynomial checksum satisfy the laws. *)
Definition stored_length (input : list N) : nat := N.to_nat (be_at 8 0 input).

#[global] Instance sample_flex : Lz4Flex := {|
  frame_encode d := be_bytes 8 (N.of_nat (length d)) ++ d;
  frame_decode n input :=
    if Nat.eqb (stored_length input) n && Nat.leb (8 + n) (length input)
    then Some (take n (drop 8 input), drop n (drop 8 input)) else None;
  frame_prefix n input :=
    if Nat.leb n (stored_length input) && Nat.leb (8 + n) (length input)
    then Some (take n (drop 8 input)) else None;
  block_decompress n block :=
    d ← lz4_decode block; if Nat.leb (length d) n then Some d else None;
  crc64 bytes := foldl (λ a b, (a * 31 + b) mod 18446744073709551616) 0 bytes;
|}.

Lemma sample_stored d rest :
  (length d ≤ N.to_nat 65536)%nat →
  let input := frame_encode d ++ rest in
  stored_length input = length d ∧ drop 8 input = d ++ rest ∧ (8 + length d ≤ length input)%nat.
Proof.
  intros Hd. cbv zeta. unfold frame_encode, sample_flex, stored_length. rewrite <- app_assoc. split_and!.
  - rewrite (field_at 8 0 _ (N.of_nat (length d))); [lia| |].
    + apply take_app_length'. by rewrite length_be_bytes.
    + change (width_bound 8) with 18446744073709551616. lia.
  - apply drop_app_length'. by rewrite length_be_bytes.
  - rewrite !length_app, length_be_bytes. lia.
Qed.

#[global] Instance sample_flex_laws : Lz4FlexLaws.
Proof.
  split.
  - intros d rest Hd. destruct (sample_stored d rest Hd) as (E1 & E2 & E3).
    unfold frame_decode, sample_flex in *. rewrite E1, E2, Nat.eqb_refl, (proj2 (Nat.leb_le _ _) E3). cbn [andb].
    by rewrite take_app_length, drop_app_length.
  - intros d rest Hd. destruct (sample_stored d rest Hd) as (E1 & E2 & E3).
    unfold frame_prefix, sample_flex in *. rewrite E1, E2, Nat.leb_refl, (proj2 (Nat.leb_le _ _) E3). cbn [andb].
    by rewrite take_app_length.
  - intros n input d rest. unfold frame_decode, sample_flex.
    destruct (Nat.leb_spec (8 + n) (length input)); [|by rewrite andb_false_r]. destruct (Nat.eqb _ _); [|done].
    intros [= <- <-]. rewrite length_take, !length_drop. lia.
  - intros d Hd. unfold frame_encode, sample_flex. rewrite length_app, length_be_bytes. lia.
  - intros d block E. unfold block_decompress, sample_flex. rewrite E. cbn. by rewrite Nat.leb_refl.
  - intros bytes. unfold crc64, sample_flex. induction bytes as [|b bytes _] using rev_ind; [done|].
    rewrite foldl_app. cbn [foldl]. change (width_bound 8) with 18446744073709551616. lia.
Qed.

(** A snapshot of a database of two pages. *)
Definition sample_pages : list (N * list N) := [(1, replicate 512 7); (2, (λ n, N.of_nat n mod 256) <$> seq 0 512)].
Definition sample_header : Header := mkHeader 3 0 512 2 1 5 1700000000000 0 0 0 0 0 9.
Definition sample_post : N := rolling_checksum sample_header sample_pages.

Definition sample_ltx (v0_5_2 : bool) : list N :=
  match encode_file_with_mode sample_header sample_pages sample_post v0_5_2 with Ok bytes => bytes | Err _ => [] end.

Lemma sample_typed : header_typed sample_header.
Proof. unfold header_typed. cbn. unfold u32_max, u64_max, i64_min, i64_max. lia. Qed.

Lemma sample_pages_ok : Forall (λ p, bytes_ok p.2) sample_pages.
Proof. constructor; [|constructor; [|constructor]]; apply (bool_decide_unpack _); vm_compute; exact I. Qed.

Lemma sample_ltx_eq v0_5_2 :
  encode_file_with_mode sample_header sample_pages sample_post v0_5_2 = Ok (sample_ltx v0_5_2).
Proof. by destruct v0_5_2; vm_compute. Qed.

Lemma file_roundtrip_witness :
  ∃ trailer, t_post_apply_checksum trailer = sample_post
    ∧ decode_file_with_pages (sample_ltx true) = Ok (mkDecodedFile sample_header trailer [1; 2], sample_pages)
    ∧ decode_file (sample_ltx true) = Ok (mkDecodedFile sample_header trailer [1; 2]).
Proof.
  assert (is_snapshot sample_header && negb (no_checksum sample_header)
          && negb (rolling_checksum sample_header sample_pages =? sample_post) = false) as Hsame by (by vm_compute).
  pose proof (file_roundtrip true sample_header sample_pages sample_post (sample_ltx true) sample_typed sample_pages_ok
    ltac:(by vm_compute) (sample_ltx_eq true)) as W.
  rewrite Hsame in W. exact W.
Defined.


Lemma encoder_accepts_witness :
  match encode_file_with_mode sample_header sample_pages sample_post false with
  | Ok bytes => header_validate sample_header = Ok tt ∧ orderly sample_header 0 sample_pages
                ∧ post_allowed sample_header sample_post = true
                ∧ (length bytes ≤ max_encoded_size sample_pages.*2)%nat
  | Err e => e = LTXCorrupted
             ∧ ¬ (header_validate sample_header = Ok tt ∧ orderly sample_header 0 sample_pages
                  ∧ post_allowed sample_header sample_post = true)
  end.
Proof. apply encoder_accepts; [exact sample_typed|exact sample_pages_ok|by vm_compute]. Defined.
