(* ===== verification/Image.v ===== *)
(** * Database images

    Models how LTX files become a database: [build_database_image] of
    [crates/ltx/src/replica.rs], which applies a restore plan's files in order,
    and [decode_database_image] of [crates/ltx/src/ltx.rs], which reads one
    snapshot.  The contract is stated over the history of a database: the pages
    it has at every transaction.  A file is faithful to the history when it
    holds the pages its transactions changed as they stand after its last one;
    restoring a plan of faithful files rebuilds the database byte for byte. *)

From Stdlib Require Import ZifyN ZifyNat.
From S2P Require Import Prelude Bytes Lz4 Restore Ltx Codec.

(** The page numbers [lo..=hi]. *)
Definition page_range (lo hi : N) : list N := (λ i, lo + N.of_nat i) <$> seq 0 (N.to_nat (hi + 1 - lo)).

Section Operations.
Context `{Lz4Flex}.

(** The state of the [for] of [build_database_image]. *)
Record Merge := mkMerge {
  mg_page_size : option N;
  mg_commit : option N;
  mg_pages : gmap N (list N);
}.

(** One file of [build_database_image]. *)
Definition merge_file (s : Merge) (data : list N) : Result Merge :=
  decoded ←? decode_file_with_pages data;
  let '(decoded, pages) := decoded in
  let header := df_header decoded in
  if is_some_and (λ expected, negb (h_page_size header =? expected)) (mg_page_size s) then Err Other
  else
    let page_size := default (h_page_size header) (mg_page_size s) in
    let previous_commit := default 0 (mg_commit s) in
    let lock := lock_pgno (h_page_size header) in
    if (previous_commit <? h_commit header)
       && existsb (λ pgno, negb (pgno =? lock) && negb (bool_decide (pgno ∈ pages.*1))
                           && negb (is_some (mg_pages s !! pgno)))
            (page_range (previous_commit + 1) (h_commit header))
    then Err Other
    else Ok (mkMerge (Some page_size) (Some (h_commit header))
               (foldl (λ m '(pgno, data), <[pgno := data]> m) (mg_pages s) pages)).

Fixpoint merge_files (s : Merge) (files : list (list N)) : Result Merge :=
  match files with
  | [] => Ok s
  | data :: files => s ←? merge_file s data; merge_files s files
  end.

(** The image of pages [pgnos], the lock page zero-filled. *)
Fixpoint assemble (missing : Error) (lock : N) (page_size : nat) (pages : gmap N (list N)) (pgnos : list N) :
    Result (list N) :=
  match pgnos with
  | [] => Ok []
  | pgno :: pgnos =>
      page ←? (if pgno =? lock then Ok (replicate page_size 0) else ok_or (pages !! pgno) missing);
      image ←? assemble missing lock page_size pages pgnos;
      Ok (page ++ image)
  end.

(** [build_database_image]. *)
Definition build_database_image (files : list (list N)) : Result (list N) :=
  s ←? merge_files (mkMerge None None ∅) files;
  match mg_page_size s, mg_commit s with
  | Some page_size, Some commit =>
      let merged := filter (λ '(pgno, _), pgno ≤ commit) (mg_pages s) in
      assemble Other (lock_pgno page_size) (N.to_nat page_size) merged (page_range 1 commit)
  | _, _ => Err Other
  end.

(** [decode_database_image]. *)
Definition decode_database_image (bytes : list N) : Result (list N) :=
  decoded ←? decode_file_with_pages bytes;
  let '(decoded, pages) := decoded in
  let header := df_header decoded in
  if negb (is_snapshot header) then Err LTXCorrupted
  else
    let by_pgno := foldl (λ (m : gmap N (list N)) '(pgno, data), <[pgno := data]> m) ∅ pages in
    assemble LTXCorrupted (lock_pgno (h_page_size header)) (N.to_nat (h_page_size header)) by_pgno
      (page_range 1 (h_commit header)).

End Operations.

(** ** The history of a database *)

(** The page count and the pages of a database after each transaction; before
    the first one it has no page. *)
Record History := mkHistory {
  hi_page_size : N;
  hi_size : N → N;
  hi_page : N → N → list N;
  hi_start : hi_size 0 = 0;
}.

(** The database file after transaction [t]. *)
Definition database_image (H : History) (t : N) : list N :=
  mjoin ((λ pgno, if pgno =? lock_pgno (hi_page_size H) then replicate (N.to_nat (hi_page_size H)) 0
                  else hi_page H t pgno) <$> page_range 1 (hi_size H t)).

(** A file of the transactions [min..=max]: its pages stand as after [max], and
    a page it leaves out was there and the same all along. *)
Record faithful (H : History) (min max : N) (h : Header) (pages : list (N * list N)) : Prop := mkFaithful {
  fa_page_size : h_page_size h = hi_page_size H;
  fa_commit : h_commit h = hi_size H max;
  fa_pages : ∀ p d, (p, d) ∈ pages → p ≤ hi_size H max → d = hi_page H max p;
  fa_rest : ∀ p, 1 ≤ p ≤ hi_size H max → p ≠ lock_pgno (hi_page_size H) → p ∉ pages.*1 →
            ∀ t, min ≤ t + 1 → t ≤ max → p ≤ hi_size H t ∧ hi_page H t p = hi_page H max p;
}.

(** ** Lemmas *)

Lemma elem_of_page_range lo hi p : p ∈ page_range lo hi ↔ lo ≤ p ≤ hi.
Proof.
  unfold page_range. rewrite list_elem_of_fmap. setoid_rewrite elem_of_seq. split.
  - intros (i & -> & Hi). lia.
  - intros Hp. exists (N.to_nat (p - lo)). lia.
Qed.

(** Inserting pages one by one: the last page of a number stays. *)
Definition put_pages (m : gmap N (list N)) (pages : list (N * list N)) : gmap N (list N) :=
  foldl (λ m '(pgno, data), <[pgno := data]> m) m pages.

Lemma put_pages_in m pages p : p ∈ pages.*1 → ∃ d, (p, d) ∈ pages ∧ put_pages m pages !! p = Some d.
Proof.
  unfold put_pages. induction pages as [|[q d] pages IH] using rev_ind; [by intros ?%elem_of_nil|].
  rewrite foldl_app, fmap_app. cbn [foldl]. intros Hp. destruct (decide (p = q)) as [->|Hne].
  - exists d. split; [set_solver|]. by rewrite lookup_insert_eq.
  - destruct IH as (d' & Hin & Hl); [set_solver|]. exists d'. split; [set_solver|]. by rewrite lookup_insert_ne.
Qed.

Lemma put_pages_out m pages p : p ∉ pages.*1 → put_pages m pages !! p = m !! p.
Proof.
  unfold put_pages. induction pages as [|[q d] pages IH] using rev_ind; [done|].
  rewrite foldl_app, fmap_app. cbn [foldl]. intros Hp. rewrite lookup_insert_ne by set_solver. apply IH. set_solver.
Qed.

Lemma assemble_pages err lock n pages pgnos (f : N → list N) :
  (∀ p, p ∈ pgnos → p ≠ lock → pages !! p = Some (f p)) →
  assemble err lock n pages pgnos = Ok (mjoin ((λ p, if p =? lock then replicate n 0 else f p) <$> pgnos)).
Proof.
  induction pgnos as [|p pgnos IH]; intros Hp; [done|]. cbn [assemble].
  rewrite IH by (intros; apply Hp; [by right|done]). destruct (N.eqb_spec p lock) as [->|Hne].
  - cbn. by rewrite N.eqb_refl.
  - rewrite (Hp p) by (done || by left). cbn. by rewrite (proj2 (N.eqb_neq _ _) Hne).
Qed.

Section Rebuild.
Context `{flex : Lz4Flex} (H : History).

Notation lock := (lock_pgno (hi_page_size H)).

(** The merge holds the database after transaction [e]. *)
Record holds (e : N) (s : Merge) : Prop := mkHolds {
  ho_page_size : ∀ sz, mg_page_size s = Some sz → sz = hi_page_size H;
  ho_commit : default 0 (mg_commit s) = hi_size H e;
  ho_pages : ∀ p, 1 ≤ p ≤ hi_size H e → p ≠ lock → mg_pages s !! p = Some (hi_page H e p);
}.

Lemma holds_start : holds 0 (mkMerge None None ∅).
Proof. split; cbn [mg_page_size mg_commit mg_pages default]; [done|by rewrite hi_start|]. rewrite hi_start. lia. Qed.

(** The bytes of a file and what they decode to. *)
Definition decodes (data : list N) (h : Header) (pages : list (N * list N)) : Prop :=
  ∃ t pgnos, decode_file_with_pages data = Ok (mkDecodedFile h t pgnos, pages).

Lemma merge_faithful e s data min max h pages :
  holds e s → decodes data h pages → faithful H min max h pages → min ≤ e + 1 → e < max →
  ∃ s', merge_file s data = Ok s' ∧ mg_page_size s' = Some (hi_page_size H)
        ∧ mg_commit s' = Some (hi_size H max) ∧ holds max s'.
Proof.
  intros [Hsz Hc Hp] (t & pgnos & Hd) [Fsz Fc Fp Fr] Hmin Hlt.
  assert (∀ p, 1 ≤ p ≤ hi_size H max → p ≠ lock → p ∉ pages.*1 →
               mg_pages s !! p = Some (hi_page H max p)) as Hkeep.
  { intros p Hr Hl Hn. destruct (Fr p Hr Hl Hn e Hmin ltac:(lia)) as [Hle <-]. apply Hp; [lia|done]. }
  unfold merge_file. rewrite Hd. cbn [df_header]. rewrite Fsz, Fc, Hc.
  assert (is_some_and (λ expected, negb (hi_page_size H =? expected)) (mg_page_size s) = false) as ->.
  { destruct (mg_page_size s) as [sz|] eqn:E; [|done]. cbn. by rewrite (Hsz sz), N.eqb_refl. }
  assert (default (hi_page_size H) (mg_page_size s) = hi_page_size H) as ->.
  { destruct (mg_page_size s) as [sz|]; [|done]. by apply Hsz. }
  rewrite (not_true_is_false (_ && _)).
  2:{ intros [_ (p & Hin%list_elem_of_In & Hx)%existsb_exists]%andb_prop.
      apply andb_prop in Hx as [[Hl%negb_true_iff Hn%negb_true_iff]%andb_prop Hno%negb_true_iff].
      apply N.eqb_neq in Hl. apply bool_decide_eq_false in Hn. apply elem_of_page_range in Hin.
      by rewrite (Hkeep p ltac:(lia) Hl Hn) in Hno. }
  eexists. split; [done|]. split; [done|]. split; [done|]. split; cbn [mg_page_size mg_commit mg_pages default].
  - by intros sz [= <-].
  - done.
  - intros p Hr Hl. fold (put_pages (mg_pages s) pages). destruct (decide (p ∈ pages.*1)) as [Hin|Hn].
    + destruct (put_pages_in (mg_pages s) pages p Hin) as (d & Hd' & ->). by rewrite (Fp p d Hd') by lia.
    + rewrite put_pages_out by done. by apply Hkeep.
Qed.

(** The object of each file, and that it is faithful to the history. *)
Context (object : FileInfo → list N).

Definition sound_file (f : FileInfo) : Prop :=
  ∃ h pages, decodes (object f) h pages ∧ faithful H (fi_min f) (fi_max f) h pages.

Lemma merge_extends e s infos e' :
  extends sound_file e infos e' → holds e s → infos ≠ [] →
  ∃ s', merge_files s (object <$> infos) = Ok s' ∧ mg_page_size s' = Some (hi_page_size H)
        ∧ mg_commit s' = Some (hi_size H e') ∧ holds e' s'.
Proof.
  intros Hext. revert s. induction Hext as [|e f infos e' (h & pages & Hd & Hf) Hmin Hlt Hext IH]; intros s Hs Hne; [done|].
  rewrite fmap_cons. cbn [merge_files].
  destruct (merge_faithful e s _ _ _ h pages Hs Hd Hf Hmin Hlt) as (s' & -> & Hsz & Hc & Hs').
  destruct infos as [|g infos]; [|by apply IH]. inversion Hext; subst. exists s'. done.
Qed.

Lemma image_extends infos e :
  extends sound_file 0 infos e → infos ≠ [] → build_database_image (object <$> infos) = Ok (database_image H e).
Proof.
  intros Hext Hne. destruct (merge_extends 0 _ infos e Hext holds_start Hne) as (s & E & Hsz & Hc & Hs).
  unfold build_database_image. rewrite E, Hsz, Hc. unfold database_image. apply assemble_pages.
  intros p Hin%elem_of_page_range Hl. apply map_lookup_filter_Some. split; [|lia]. by apply (ho_pages _ _ Hs).
Qed.

Lemma plan_extends ltx_files txid infos e :
  (∀ level f, (level ≤ SNAPSHOT_LEVEL)%nat → f ∈ ltx_files level → sound_file f) →
  (∀ f, f ∈ ltx_files SNAPSHOT_LEVEL → fi_min f = 1 ∧ 0 < fi_max f) →
  listing_ok ltx_files → plan_of ltx_files txid infos e → extends sound_file 0 infos e.
Proof.
  intros Hsound Hsnap Hok (added & -> & Hext).
  assert (extends sound_file (plan_start ltx_files txid) added e) as Hadded.
  { eapply extends_impl; [|exact Hext]. intros f [(level & Hl & Hf)%elem_of_levels _]. apply (Hsound level); [lia|done]. }
  pose proof (pick_snapshot_spec ltx_files txid (snapshots_sorted _ Hok)) as Hp. unfold plan_start in Hadded.
  destruct (pick_snapshot ltx_files txid) as [s|]; [|done]. destruct Hp as (Hs & _). destruct (Hsnap s Hs) as [Hmin Hmax].
  constructor; [by apply (Hsound SNAPSHOT_LEVEL)|lia|lia|done].
Qed.
End Rebuild.

(** C6: when every listed file is faithful to a database's history and the
    snapshots start at its first transaction, restoring the planned files
    rebuilds the database byte for byte: at the requested transaction, or at a
    transaction no listed file is past when none was requested. *)
Theorem restore_rebuilds `{flex : Lz4Flex} H (object : FileInfo → list N) ltx_files txid infos :
  listing_ok ltx_files →
  (∀ level f, (level ≤ SNAPSHOT_LEVEL)%nat → f ∈ ltx_files level → sound_file H object f) →
  (∀ f, f ∈ ltx_files SNAPSHOT_LEVEL → fi_min f = 1 ∧ 0 < fi_max f) →
  calc_restore_plan ltx_files txid = Ok infos →
  ∃ e, build_database_image (object <$> infos) = Ok (database_image H e)
    ∧ (txid ≠ 0 → e = txid)
    ∧ (txid = 0 → ∀ level f, (level < SNAPSHOT_LEVEL)%nat → f ∈ ltx_files level → fi_max f ≤ e).
Proof.
  intros Hok Hsound Hsnap Hplan. pose proof (calc_restore_plan_cases ltx_files Hok txid) as Hc. rewrite Hplan in Hc.
  destruct Hc as (Hne & e & Hp & Ht & H0). exists e. split_and!; [|done|].
  - apply image_extends; [|done]. by eapply plan_extends.
  - intros Et level f Hl Hf. apply (H0 Et), elem_of_levels. by exists level.
Qed.

(** ** A restore from a snapshot and one transaction *)

Definition sample_page (n : N) : list N := replicate 512 n.

Definition sample_history : History :=
  mkHistory 512 (λ t, if t =? 0 then 0 else if t =? 1 then 1 else 2)
    (λ t p, sample_page (if p =? 1 then 7 else 9)) eq_refl.

Definition sample_txn (min max commit : N) : Header := mkHeader 3 2 512 commit min max 0 0 0 0 0 0 0.

Definition encoded (h : Header) (pages : list (N * list N)) : list N :=
  match encode_file h pages 0 with Ok bytes => bytes | Err _ => [] end.

Definition sample_object (f : FileInfo) : list N :=
  if fi_max f =? 1 then encoded (sample_txn 1 1 1) [(1, sample_page 7)]
  else encoded (sample_txn 2 2 2) [(2, sample_page 9)].

Definition sample_levels (level : nat) : list FileInfo :=
  match level with
  | 0%nat => [Restore.sample_file 0 2 2]
  | 9%nat => [Restore.sample_file 9 1 1]
  | _ => []
  end.

Lemma sample_decodes :
  decodes (encoded (sample_txn 1 1 1) [(1, sample_page 7)]) (sample_txn 1 1 1) [(1, sample_page 7)]
  ∧ decodes (encoded (sample_txn 2 2 2) [(2, sample_page 9)]) (sample_txn 2 2 2) [(2, sample_page 9)].
Proof. split; eexists _, _; vm_compute; reflexivity. Qed.

Lemma sample_faithful :
  faithful sample_history 1 1 (sample_txn 1 1 1) [(1, sample_page 7)]
  ∧ faithful sample_history 2 2 (sample_txn 2 2 2) [(2, sample_page 9)].
Proof.
  split; (split; [done..| |]).
  - intros p d [= -> ->]%list_elem_of_singleton _. done.
  - intros p Hp _ Hn t _ _. change (hi_size sample_history 1) with 1 in Hp. assert (p = 1) as -> by lia. set_solver.
  - intros p d [= -> ->]%list_elem_of_singleton _. done.
  - intros p Hp _ Hn t Hmin Hmax. change (hi_size sample_history 2) with 2 in Hp.
    assert (p = 1) as -> by (destruct (decide (p = 2)); [set_solver|lia]).
    split; [|done]. cbn [sample_history hi_size]. destruct (N.eqb_spec t 0), (N.eqb_spec t 1); lia.
Qed.

Lemma sample_levels_sound level f :
  f ∈ sample_levels level → sound_file sample_history sample_object f
                            ∧ (level = SNAPSHOT_LEVEL → fi_min f = 1 ∧ 0 < fi_max f) ∧ fi_max f < u64_max.
Proof.
  destruct sample_decodes as [D1 D2], sample_faithful as [F1 F2]. unfold sample_levels.
  destruct level as [|[|[|[|[|[|[|[|[|[|level]]]]]]]]]]; try (by intros ?%elem_of_nil);
    intros ->%list_elem_of_singleton; (split; [|done]); eexists _, _.
  - by split; [exact D2|exact F2].
  - by split; [exact D1|exact F1].
Qed.

Lemma sample_levels_ok : listing_ok sample_levels.
Proof.
  split.
  - repeat constructor.
  - repeat constructor.
  - intros level f _ Hf. by apply (sample_levels_sound level).
Qed.

Lemma restore_rebuilds_witness :
  ∃ e, build_database_image (sample_object <$> [Restore.sample_file 9 1 1; Restore.sample_file 0 2 2])
       = Ok (database_image sample_history e)
    ∧ (2 ≠ 0 → e = 2)
    ∧ (2 = 0 → ∀ level f, (level < SNAPSHOT_LEVEL)%nat → f ∈ sample_levels level → fi_max f ≤ e).
Proof.
  apply (restore_rebuilds sample_history sample_object sample_levels 2).
  - exact sample_levels_ok.
  - intros level f _ Hf. by apply (sample_levels_sound level).
  - intros f Hf. by apply (sample_levels_sound SNAPSHOT_LEVEL).
  - by vm_compute.
Defined.

(** A database that shrinks and grows again: the file of its growth lacks the
    page it added, and the image takes the page from before the shrink. *)
Lemma stale_page_restored :
  build_database_image
    [encoded (sample_txn 1 1 2) [(1, sample_page 1); (2, sample_page 2)];
     encoded (sample_txn 2 2 1) [(1, sample_page 3)];
     encoded (sample_txn 3 3 2) [(1, sample_page 4)]]
  = Ok (sample_page 4 ++ sample_page 2).
Proof. vm_compute. reflexivity. Qed.
