(* ===== verification/Compact.v ===== *)
(** * Compaction

    Models the streaming merge of [crates/ltx/src/compactor.rs]: how the pages
    of a chain of files become one file.  An input is the decoder of its bytes
    with the page it has read ahead. *)

From Stdlib Require Import ZifyN ZifyNat.
From S2P Require Import Prelude Bytes Lz4 Restore Ltx Codec Image.

(** [is_contiguous]. *)
Definition is_contiguous (previous_max min max : N) : bool :=
  (min <=? wrap_add previous_max 1) && (previous_max <? max).

(** [CompactorInput]. *)
Record CompactorInput := mkInput {
  ci_decoder : Decoder;
  ci_page : option PageHeader;
  ci_data : list N;
}.

(** [Compactor]. *)
Record Compactor := mkCompactor {
  cp_encoder : Encoder;
  cp_inputs : list CompactorInput;
  cp_page_number : N;
  cp_total : N;
  cp_header_flags : N;
  cp_allow_non_contiguous_txids : bool;
}.

(** [Compactor::new]. *)
Definition compactor_new (writer : list N) (readers : list (list N)) : Compactor :=
  mkCompactor (encoder_new writer SizedBlock) ((λ reader, mkInput (decoder_new reader) None []) <$> readers) 0 0 0 false.

(** The header of an input. *)
Definition ci_header (input : CompactorInput) : Header := d_header (ci_decoder input).

(** [input.decoder.decode_header] for every input. *)
Fixpoint decode_headers (inputs : list CompactorInput) : Result (list CompactorInput) :=
  match inputs with
  | [] => Ok []
  | input :: inputs =>
      decoder ←? decode_header (ci_decoder input);
      inputs ←? decode_headers inputs;
      Ok (mkInput decoder (ci_page input) (ci_data input) :: inputs)
  end.

(** The check of the requested range against the inputs. *)
Definition range_refused (header_flags : N) (inputs : list CompactorInput) (range : option (N * list (N * N))) : bool :=
  match range, inputs with
  | Some (min, ranges), first :: _ =>
      let first := ci_header first in
      negb (Nat.eqb (length ranges) (length inputs))
      || (min <? h_min_txid first) || (h_max_txid first <? min)
      || (negb (min =? h_min_txid first) && (N.land header_flags HEADER_FLAG_NO_CHECKSUM =? 0))
      || existsb (λ '(input, expected),
           negb (bool_decide ((h_min_txid (ci_header input), h_max_txid (ci_header input)) = expected)))
           (zip inputs ranges)
  | _, _ => false
  end.

(** The check of each input against the one before it. *)
Fixpoint chain_refused (allow_non_contiguous : bool) (inputs : list CompactorInput) : bool :=
  match inputs with
  | previous :: ((current :: _) as inputs) =>
      let p := ci_header previous in
      let c := ci_header current in
      negb (h_page_size p =? h_page_size c)
      || (negb allow_non_contiguous && negb (is_contiguous (h_max_txid p) (h_min_txid c) (h_max_txid c)))
      || chain_refused allow_non_contiguous inputs
  | _ => false
  end.

Section Operations.
Context `{Lz4Flex}.

(** [Compactor::fill_page_buffers]. *)
Fixpoint fill_page_buffers (inputs : list CompactorInput) (minimum : option N) :
    Result (list CompactorInput * option N) :=
  match inputs with
  | [] => Ok ([], minimum)
  | input :: inputs =>
      input ←? match ci_page input with
               | Some _ => Ok input
               | None =>
                   r ←? decode_page (ci_decoder input) (length (ci_data input));
                   match r with
                   | (decoder, Some (page, data)) => Ok (mkInput decoder (Some page) data)
                   | (decoder, None) => Ok (mkInput decoder None (ci_data input))
                   end
               end;
      let minimum :=
        match ci_page input with
        | Some page => Some (match minimum with Some value => N.min value (ph_pgno page) | None => ph_pgno page end)
        | None => minimum
        end in
      r ←? fill_page_buffers inputs minimum;
      let '(inputs, minimum) := r in
      Ok (input :: inputs, minimum)
  end.

(** [Compactor::write_page_buffer]: the inputs from the last to the first. *)
Fixpoint write_page_buffer (e : Encoder) (page_number : N) (inputs : list CompactorInput) :
    Result (Encoder * bool * list CompactorInput) :=
  match inputs with
  | [] => Ok (e, false, [])
  | input :: inputs =>
      r ←? write_page_buffer e page_number inputs;
      let '(e, written, inputs) := r in
      match ci_page input with
      | None => Ok (e, written, input :: inputs)
      | Some page =>
          if negb (ph_pgno page =? page_number) then Ok (e, written, input :: inputs)
          else
            let taken := mkInput (ci_decoder input) None (ci_data input) in
            if written || (h_commit (e_header e) <? page_number) then Ok (e, written, taken :: inputs)
            else
              e ←? encode_page e page (ci_data input);
              Ok (e, true, taken :: inputs)
      end
  end.

(** The [loop] of [compact_inner]; every turn takes a page from an input. *)
Fixpoint compact_loop (fuel : nat) (e : Encoder) (inputs : list CompactorInput) (progress : N) :
    Result (Encoder * list CompactorInput * N) :=
  match fuel with
  | O => Err Panicked
  | S fuel =>
      r ←? fill_page_buffers inputs None;
      match r with
      | (inputs, None) => Ok (e, inputs, progress)
      | (inputs, Some page_number) =>
          r ←? write_page_buffer e page_number inputs;
          let '(e, _, inputs) := r in
          compact_loop fuel e inputs page_number
      end
  end.

Fixpoint close_inputs (inputs : list CompactorInput) : Result (list CompactorInput) :=
  match inputs with
  | [] => Ok []
  | input :: inputs =>
      decoder ←? decoder_close (ci_decoder input);
      inputs ←? close_inputs inputs;
      Ok (mkInput decoder (ci_page input) (ci_data input) :: inputs)
  end.

(** [Compactor::compact_inner]. *)
Definition compact_inner (c : Compactor) (range : option (N * list (N * N))) : Result Compactor :=
  match head (cp_inputs c), last (cp_inputs c) with
  | Some _, Some _ =>
      inputs ←? decode_headers (cp_inputs c);
      if range_refused (cp_header_flags c) inputs range then Err LTXCorrupted
      else if chain_refused (cp_allow_non_contiguous_txids c) inputs then Err LTXCorrupted
      else
        let first := default header_default (ci_header <$> head inputs) in
        let last := default header_default (ci_header <$> last inputs) in
        e ←? encode_header (cp_encoder c)
               (mkHeader VERSION (cp_header_flags c) (h_page_size first) (h_commit last)
                  (match range with Some (min, _) => min | None => h_min_txid first end) (h_max_txid last)
                  (h_timestamp last) (h_pre_apply_checksum first) 0 0 0 0 0);
        let page_size := N.to_nat (h_page_size first) in
        let inputs := (λ i, mkInput (ci_decoder i) (ci_page i)
                              (take page_size (ci_data i ++ replicate page_size 0))) <$> inputs in
        let fuel := S (sum_list ((λ i, length (d_reader (ci_decoder i))) <$> inputs)) in
        r ←? compact_loop fuel e inputs (cp_page_number c);
        let '(e, inputs, progress) := r in
        inputs ←? close_inputs inputs;
        let post := default 0 ((λ i, t_post_apply_checksum (d_trailer (ci_decoder i))) <$> list.last inputs) in
        e ←? encoder_close e post;
        Ok (mkCompactor e inputs progress (h_commit last) (cp_header_flags c) (cp_allow_non_contiguous_txids c))
  | _, _ => Err LTXCorrupted
  end.

(** [Compactor::compact] and [Compactor::compact_from]. *)
Definition compact (c : Compactor) : Result Compactor := compact_inner c None.
Definition compact_from (c : Compactor) (min : N) (ranges : list (N * N)) : Result Compactor :=
  compact_inner c (Some (min, ranges)).

End Operations.

(** ** Inputs

    A file the encoder wrote, with the decoder at each place in it. *)

Record InputFile := mkInputFile {
  if_mode : PageEncoding;
  if_header : Header;
  if_pages : list (N * list N);
  if_post : N;
}.

Section Inputs.
Context `{flex : Lz4Flex} `{laws : !Lz4FlexLaws}.

Definition if_bytes (f : InputFile) : list N := file_bytes (if_mode f) (if_header f) (if_pages f) (if_post f).

(** The file decodes: it is one the encoder takes, with a rolling checksum that
    is right where the decoder checks it. *)
Definition readable (f : InputFile) : Prop :=
  encodable (if_header f) (if_pages f) (if_post f)
  ∧ (is_snapshot (if_header f) && negb (no_checksum (if_header f)) = true →
     rolling_checksum (if_header f) (if_pages f) = if_post f).

Definition file_tail (f : InputFile) : list N :=
  index_section (index_entries (if_mode f) 100 (if_pages f))
  ++ trailer_marshal (file_trailer (if_mode f) (if_header f) (if_pages f) (if_post f)).

Definition first_rolling (h : Header) : N := if no_checksum h then 0 else CHECKSUM_FLAG.

(** The decoder after the header and [k] pages, and after the last page. *)
Definition decoder_at (f : InputFile) (k : nat) : Decoder :=
  mkDecoder (mjoin (page_bytes (if_mode f) <$> drop k (if_pages f)) ++ replicate PAGE_HEADER_SIZE 0 ++ file_tail f)
    DPages (if_header f) trailer_default
    (header_marshal (if_header f) ++ mjoin (page_hash (if_mode f) <$> take k (if_pages f)))
    (foldl (roll (if_header f)) (first_rolling (if_header f)) (take k (if_pages f))).

Definition decoder_end (f : InputFile) : Decoder :=
  mkDecoder (file_tail f) DClose (if_header f) trailer_default
    (header_marshal (if_header f) ++ mjoin (page_hash (if_mode f) <$> if_pages f) ++ replicate PAGE_HEADER_SIZE 0)
    (foldl (roll (if_header f)) (first_rolling (if_header f)) (if_pages f)).

Definition if_page_size (f : InputFile) : nat := N.to_nat (h_page_size (if_header f)).

Lemma decode_header_at f : readable f → decode_header (decoder_new (if_bytes f)) = Ok (decoder_at f 0).
Proof.
  intros [[Ht Hv _ _ _ _] _]. destruct (header_validate_Ok _ Hv) as [Hver _].
  unfold decode_header, decoder_new, if_bytes, file_bytes. cbn [d_state d_reader d_hash d_trailer d_rolling_checksum].
  rewrite bool_decide_true by done. cbn [negb]. rewrite read_exact_app' by apply length_header_marshal.
  rewrite header_parse_marshal, Hv by done. cbn [app]. unfold decoder_at. rewrite drop_0, take_0.
  cbn [fmap list_fmap mjoin list_join foldl]. by rewrite app_nil_r.
Qed.

Lemma readable_page f k pgno data :
  readable f → if_pages f !! k = Some (pgno, data) →
  bytes_ok data ∧ N.of_nat (length data) = h_page_size (if_header f) ∧ 0 < pgno ≤ u32_max
  ∧ pgno ≤ h_commit (if_header f) ∧ pgno ≠ lock_pgno (h_page_size (if_header f)).
Proof.
  intros [He _] Hk. pose proof (encodable_pages_ok _ _ _ He) as Hp. destruct He as [Ht Hv _ Hal _ _].
  destruct (header_validate_Ok _ Hv) as [_ Hps]. apply list_elem_of_lookup_2 in Hk.
  rewrite Forall_forall in Hp. destruct (Hp _ Hk) as (? & ? & ?).
  destruct (orderly_allowed _ _ _ Hps Hal) as (_ & Hf & _). rewrite Forall_forall in Hf.
  destruct (Hf _ Hk) as (? & ? & _). cbn [fst snd] in *. split_and!; try done; lia.
Qed.

Lemma decode_page_at f k pgno data :
  readable f → if_pages f !! k = Some (pgno, data) →
  decode_page (decoder_at f k) (if_page_size f)
  = Ok (decoder_at f (S k), Some (mkPageHeader pgno (page_flags (if_mode f)), data)).
Proof.
  intros Hf Hk. destruct (readable_page f k pgno data Hf Hk) as (Hd & Hlen & Hp & _ & _).
  destruct (header_validate_Ok _ (en_valid _ _ _ (proj1 Hf))) as [_ Hps].
  assert (if_page_size f = length data) as -> by (unfold if_page_size; lia).
  rewrite (decode_page_bytes (if_mode f) _ pgno data
    (mjoin (page_bytes (if_mode f) <$> drop (S k) (if_pages f)) ++ replicate PAGE_HEADER_SIZE 0 ++ file_tail f)); try done.
  - cbn [d_header d_trailer d_hash d_rolling_checksum decoder_at]. unfold decoder_at.
    rewrite (take_S_r _ _ _ Hk), fmap_app, join_app, foldl_app, <- app_assoc.
    cbn [fmap list_fmap mjoin list_join foldl]. by rewrite app_nil_r.
  - cbn [decoder_at d_reader]. rewrite (drop_S _ _ _ Hk). cbn [fmap list_fmap mjoin list_join]. by rewrite <- app_assoc.
Qed.

Lemma decode_page_last f :
  readable f → decode_page (decoder_at f (length (if_pages f))) (if_page_size f) = Ok (decoder_end f, None).
Proof.
  intros Hf. unfold decode_page, decoder_at. cbn [d_state d_header d_reader d_hash d_trailer d_rolling_checksum].
  rewrite bool_decide_false, bool_decide_true by done. unfold if_page_size. rewrite N2Nat.id, N.eqb_refl. cbn [negb orb].
  rewrite drop_ge, take_ge by done. cbn [fmap list_fmap mjoin list_join app].
  rewrite read_exact_app' by done. rewrite zero_page_header.
  change (page_header_is_zero (mkPageHeader 0 0)) with true. cbv iota. unfold decoder_end. by rewrite <- app_assoc.
Qed.

Lemma decode_page_end f n : decode_page (decoder_end f) n = Ok (decoder_end f, None).
Proof. done. Qed.

Lemma decoder_close_end f :
  readable f → ∃ d, decoder_close (decoder_end f) = Ok d ∧ t_post_apply_checksum (d_trailer d) = if_post f.
Proof.
  intros [He Hroll]. pose proof (encodable_entries (if_mode f) _ _ _ He) as Hfit.
  pose proof (encodable_index_size (if_mode f) _ _ _ He) as Hix.
  destruct (encodable_trailer (if_mode f) _ _ _ He) as [Hfile Htv].
  rewrite (decoder_close_bytes _ (index_entries (if_mode f) 100 (if_pages f))
    (file_trailer (if_mode f) (if_header f) (if_pages f) (if_post f))); try done.
  - cbn [decoder_end d_header d_rolling_checksum file_trailer t_post_apply_checksum].
    destruct (is_snapshot (if_header f) && negb (no_checksum (if_header f))) eqn:Es; cbn [andb]; [|by eexists].
    unfold first_rolling. pose proof Es as [_ ->%negb_true_iff]%andb_prop. cbv iota.
    rewrite foldl_roll, (Hroll eq_refl), N.eqb_refl by done. by eexists.
  - by apply He.
  - cbn [decoder_end d_hash file_trailer t_post_apply_checksum t_file_checksum]. by rewrite <- !app_assoc.
Qed.

(** ** A turn of the merge

    A source is a file with the pages of it the merge has not taken yet. *)

Definition source : Type := InputFile * list (N * list N).

(** The input reads the pages [s.2] next. *)
Definition input_at (s : source) (input : CompactorInput) : Prop :=
  length (ci_data input) = if_page_size s.1
  ∧ match ci_page input with
    | Some page => ∃ k pgno data, if_pages s.1 !! k = Some (pgno, data) ∧ s.2 = drop k (if_pages s.1)
        ∧ page = mkPageHeader pgno (page_flags (if_mode s.1)) ∧ ci_data input = data
        ∧ ci_decoder input = decoder_at s.1 (S k)
    | None => (∃ k, (k ≤ length (if_pages s.1))%nat ∧ s.2 = drop k (if_pages s.1) ∧ ci_decoder input = decoder_at s.1 k)
              ∨ (s.2 = [] ∧ ci_decoder input = decoder_end s.1)
    end.

(** The input has read the next page ahead, or is at the end. *)
Definition filled (s : source) (input : CompactorInput) : Prop :=
  input_at s input
  ∧ match s.2 with
    | [] => ci_page input = None ∧ ci_decoder input = decoder_end s.1
    | (pgno, data) :: _ => ci_page input = Some (mkPageHeader pgno (page_flags (if_mode s.1))) ∧ ci_data input = data
    end.

Definition next_page (minimum : option N) (rem : list (N * list N)) : option N :=
  match rem with
  | [] => minimum
  | (pgno, _) :: _ => Some (match minimum with Some value => N.min value pgno | None => pgno end)
  end.

Lemma drop_head {A} k (l : list A) x rest : drop k l = x :: rest → l !! k = Some x ∧ drop (S k) l = rest.
Proof.
  intros E. assert (l !! k = Some x) as Hk by (rewrite <- (Nat.add_0_r k), <- lookup_drop, E; done).
  split; [done|]. rewrite (drop_S l x k Hk) in E. by injection E.
Qed.

Lemma fill_input s input :
  readable s.1 → input_at s input →
  ∃ input', (match ci_page input with
             | Some _ => Ok input
             | None =>
                 r ←? decode_page (ci_decoder input) (length (ci_data input));
                 match r with
                 | (decoder, Some (page, data)) => Ok (mkInput decoder (Some page) data)
                 | (decoder, None) => Ok (mkInput decoder None (ci_data input))
                 end
             end) = Ok input' ∧ filled s input'.
Proof.
  destruct s as [f rem]. cbn [fst snd]. intros Hf [Hlen Hat]. cbn [fst snd] in *.
  destruct (ci_page input) as [page|] eqn:Ep.
  - destruct Hat as (k & pgno & data & Hk & -> & -> & Hd & Hdec). exists input. split; [done|].
    split; [split; [done|]; cbn; rewrite Ep; by exists k, pgno, data|]. cbn. by rewrite (drop_S _ _ _ Hk).
  - rewrite Hlen. destruct Hat as [(k & Hk & -> & ->)|[-> ->]].
    + destruct (if_pages f !! k) as [[pgno data]|] eqn:El.
      * rewrite (decode_page_at f k pgno data Hf El). eexists. split; [done|].
        destruct (readable_page f k pgno data Hf El) as (_ & Hsz & _).
        split; [split; cbn; [unfold if_page_size; lia|by exists k, pgno, data]|]. cbn. by rewrite (drop_S _ _ _ El).
      * apply lookup_ge_None in El. assert (k = length (if_pages f)) as -> by lia.
        rewrite decode_page_last by done. eexists. split; [done|].
        split; [split; cbn; [done|right; by rewrite drop_all]|]. cbn. by rewrite drop_all.
    + rewrite decode_page_end. eexists. split; [done|]. split; [split; cbn; [done|by right]|]. done.
Qed.

Lemma fill_spec srcs inputs minimum :
  Forall (λ s, readable s.1) srcs → Forall2 input_at srcs inputs →
  ∃ inputs', fill_page_buffers inputs minimum = Ok (inputs', foldl next_page minimum srcs.*2)
    ∧ Forall2 filled srcs inputs'.
Proof.
  intros Hf Hat. revert minimum. induction Hat as [|s input srcs inputs Hi _ IH]; intros minimum; [by eexists|].
  apply Forall_cons in Hf as [Hs Hf]. cbn [fill_page_buffers].
  destruct (fill_input s input Hs Hi) as (input' & -> & Hfill).
  assert ((match ci_page input' with
           | Some page => Some (match minimum with Some value => N.min value (ph_pgno page) | None => ph_pgno page end)
           | None => minimum end) = next_page minimum s.2) as ->.
  { destruct Hfill as [_ Hfill]. destruct s as [f [|[pgno data] rem]]; cbn in *; by destruct Hfill as [-> _]. }
  destruct (IH Hf (next_page minimum s.2)) as (inputs' & -> & Hfs). eexists. split; [done|]. by constructor.
Qed.

(** The data the merge writes for [pgno]: the last source whose next page it is. *)
Fixpoint pick (pgno : N) (rems : list (list (N * list N))) : option (list N) :=
  match rems with
  | [] => None
  | rem :: rems =>
      match pick pgno rems with
      | Some data => Some data
      | None => match rem with (p, data) :: _ => if p =? pgno then Some data else None | [] => None end
      end
  end.

Definition advance (pgno : N) (rem : list (N * list N)) : list (N * list N) :=
  match rem with (p, _) :: rest => if p =? pgno then rest else rem | [] => [] end.

Lemma encode_page_flags e m pgno data :
  e_page_encoding e = SizedBlock →
  encode_page e (mkPageHeader pgno (page_flags m)) data = encode_page e (mkPageHeader pgno 0) data.
Proof.
  intros Hm. destruct m; [done|]. unfold encode_page, page_header_validate. cbn [ph_pgno ph_flags page_flags]. by rewrite Hm.
Qed.

Definition take_page (pgno : N) (input : CompactorInput) : CompactorInput :=
  match ci_page input with
  | Some page => if ph_pgno page =? pgno then mkInput (ci_decoder input) None (ci_data input) else input
  | None => input
  end.

Lemma take_page_eq pgno input :
  take_page pgno input
  = match ci_page input with
    | Some page => if ph_pgno page =? pgno then mkInput (ci_decoder input) None (ci_data input) else input
    | None => input
    end.
Proof. done. Qed.

Definition advance_source (pgno : N) (s : source) : source := (s.1, advance pgno s.2).

Lemma advance_input pgno s input : filled s input → input_at (advance_source pgno s) (take_page pgno input).
Proof.
  destruct s as [f rem]. intros [[Hlen Hat] Hfill]. cbn [fst snd] in *. unfold take_page, advance_source.
  destruct rem as [|[p d] rest]; cbn [advance fst snd].
  - destruct Hfill as [Ep Hdec]. rewrite Ep in *. split; [done|]. rewrite Ep. cbn. by right.
  - destruct Hfill as [Ep Hd]. rewrite Ep in *. cbn [ph_pgno].
    destruct Hat as (k & pgno' & data & Hk & Edrop & [= <-] & Hdata & Hdec).
    destruct (N.eqb_spec p pgno) as [->|Hne].
    + split; [done|]. cbn [ci_page fst snd ci_decoder]. left. exists (S k). split_and!; [|symmetry; by eapply drop_head|done].
      apply lookup_lt_Some in Hk. lia.
    + split; [done|]. rewrite Ep. cbn [fst snd]. by exists k, p, data.
Qed.

Lemma encode_allowed h out e m pgno data :
  header_validate h = Ok tt → h_commit h ≤ u32_max → encoding SizedBlock h out e → pages_allowed h 0 out = true →
  bytes_ok data → page_allowed h (last_page 0 out) pgno data = true →
  ∃ c, encode_page e (mkPageHeader pgno (page_flags m)) data = Ok (add_page SizedBlock e pgno data c).
Proof.
  intros Hv Hc He Hal Hd Hp. rewrite encode_page_flags by apply He. destruct (header_validate_Ok _ Hv) as [_ Hps].
  apply (encode_page_spec SizedBlock h out e pgno data Hv Hc Hd He); [|done].
  destruct (pages_allowed_sorted h 0 out Hps Hal) as [_ Hf]. fold (last_page 0 out). unfold last_page.
  destruct (last out) as [q|] eqn:E; cbn; [|lia]. apply last_Some_elem_of in E.
  rewrite Forall_forall in Hf. by destruct (Hf q E).
Qed.

Lemma write_spec h out e pgno srcs inputs :
  header_validate h = Ok tt → h_commit h ≤ u32_max → encoding SizedBlock h out e → pages_allowed h 0 out = true →
  Forall2 filled srcs inputs →
  (∀ d, pick pgno srcs.*2 = Some d → pgno ≤ h_commit h → bytes_ok d ∧ page_allowed h (last_page 0 out) pgno d = true) →
  Forall2 input_at (advance_source pgno <$> srcs) (take_page pgno <$> inputs)
  ∧ match (if h_commit h <? pgno then None else pick pgno srcs.*2) with
    | None => write_page_buffer e pgno inputs = Ok (e, false, take_page pgno <$> inputs)
    | Some d => ∃ c, write_page_buffer e pgno inputs = Ok (add_page SizedBlock e pgno d c, true, take_page pgno <$> inputs)
    end.
Proof.
  intros Hv Hc He Hal Hfill Hok. split.
  { apply Forall2_fmap. eapply Forall2_impl; [exact Hfill|]. intros. by apply advance_input. }
  assert (e_header e = h) as Hh by apply He.
  induction Hfill as [|[f rem] input srcs inputs Hi Hfill IH].
  { by destruct (h_commit h <? pgno). }
  rewrite fmap_cons in Hok |- *. cbn [snd] in *. cbn [write_page_buffer pick] in *. rewrite fmap_cons.
  specialize (IH ltac:(intros d Hd; apply Hok; by rewrite Hd)).
  destruct Hi as [_ Hi]. cbn [fst snd] in Hi. rewrite (take_page_eq pgno input).
  revert IH. destruct (N.ltb_spec (h_commit h) pgno) as [Hgt|Hle]; intros IH.
  { rewrite IH, Hh. destruct (ci_page input) as [page|]; [|done].
    destruct (ph_pgno page =? pgno); [|done]. cbn [negb orb]. by rewrite (proj2 (N.ltb_lt _ _) Hgt). }
  revert IH Hok. destruct (pick pgno srcs.*2) as [d|] eqn:Epick; intros IH Hok.
  { destruct IH as [c ->]. exists c. destruct (ci_page input) as [page|]; [|done]. by destruct (ph_pgno page =? pgno). }
  rewrite IH, Hh. destruct rem as [|[p d] rest]; [by destruct Hi as [-> _]|]. destruct Hi as [-> Hd]. cbn [ph_pgno].
  destruct (N.eqb_spec p pgno) as [->|]; cbn [negb]; [|done].
  rewrite (proj2 (N.ltb_ge _ _) Hle). cbn [orb].
  destruct (Hok d eq_refl Hle) as [Hb Hp]. rewrite Hd.
  destruct (encode_allowed h out e (if_mode f) pgno d Hv Hc He Hal Hb Hp) as [c ->]. by exists c.
Qed.

(** ** The merge

    The page a merge keeps is the one of the last source that has it. *)

Fixpoint page_of (p : N) (rem : list (N * list N)) : option (list N) :=
  match rem with
  | [] => None
  | (q, d) :: rest => if q =? p then Some d else page_of p rest
  end.

Fixpoint latest (p : N) (rems : list (list (N * list N))) : option (list N) :=
  match rems with
  | [] => None
  | rem :: rems => match latest p rems with Some d => Some d | None => page_of p rem end
  end.

Definition above (n : N) (rem : list (N * list N)) : Prop := Forall (λ q, n ≤ q.1) rem.

Definition ordered (rem : list (N * list N)) : Prop := StronglySorted N.lt rem.*1.

Lemma page_of_in p rem d : page_of p rem = Some d → (p, d) ∈ rem.
Proof.
  induction rem as [|[q x] rem IH]; [done|]. cbn [page_of]. destruct (N.eqb_spec q p) as [->|].
  - intros [= ->]. by left.
  - intros Hd. right. by apply IH.
Qed.

Lemma page_of_None p rem : page_of p rem = None ↔ p ∉ rem.*1.
Proof.
  induction rem as [|[q x] rem IH]; [split; [by intros _ ?%elem_of_nil|done]|].
  cbn [page_of]. rewrite fmap_cons, not_elem_of_cons, <- IH. cbn [fst]. destruct (N.eqb_spec q p); [|by intuition congruence].
  split; [done|]. by intros [? _].
Qed.

Lemma page_of_sorted p d rem : ordered rem → (p, d) ∈ rem → page_of p rem = Some d.
Proof.
  unfold ordered. induction rem as [|[q x] rem IH]; intros Hs Hin; [by apply elem_of_nil in Hin|].
  rewrite fmap_cons in Hs. apply StronglySorted_cons in Hs as [Hq Hs]. cbn [page_of fst] in *.
  apply elem_of_cons in Hin as [[= -> ->]|Hin]; [by rewrite N.eqb_refl|].
  rewrite Forall_forall in Hq. specialize (Hq p ltac:(by apply (list_elem_of_fmap_2 fst _ (p, d)))).
  rewrite (proj2 (N.eqb_neq q p)) by lia. by apply IH.
Qed.

Lemma head_page m rem :
  ordered rem → above m rem →
  page_of m rem = (match rem with (p, d) :: _ => if p =? m then Some d else None | [] => None end)
  ∧ (∀ p, page_of p (advance m rem) = if p =? m then None else page_of p rem)
  ∧ ordered (advance m rem) ∧ above (m + 1) (advance m rem).
Proof.
  unfold ordered, above. intros Hs Ha. destruct rem as [|[q d] rest]; cbn [page_of advance].
  { split_and!; [done|by intros; destruct (_ =? _)|constructor..]. }
  rewrite fmap_cons in Hs. cbn [fst] in Hs. pose proof Hs as [Hq Hs']%StronglySorted_cons.
  apply Forall_cons in Ha as [Hm _]. cbn [fst] in Hm. rewrite Forall_fmap in Hq.
  assert (∀ p, p ≤ q → page_of p rest = None) as Hno.
  { intros p Hp. apply page_of_None. intros (x & -> & Hx)%list_elem_of_fmap. rewrite Forall_forall in Hq.
    specialize (Hq x Hx). cbn in Hq. lia. }
  destruct (N.eqb_spec q m) as [->|Hne].
  - split_and!; [done| |done|].
    + intros p. destruct (N.eqb_spec p m) as [->|]; [by apply Hno|]. by rewrite (proj2 (N.eqb_neq m p)) by done.
    + eapply Forall_impl; [exact Hq|]. intros x. cbn. lia.
  - split_and!.
    + apply Hno. lia.
    + intros p. cbn [page_of]. destruct (N.eqb_spec p m) as [->|]; [|done].
      rewrite (proj2 (N.eqb_neq q m)) by done. apply Hno. lia.
    + rewrite fmap_cons. done.
    + constructor; [cbn; lia|]. eapply Forall_impl; [exact Hq|]. intros x. cbn. lia.
Qed.

Lemma advance_all m rems :
  Forall ordered rems → Forall (above m) rems →
  pick m rems = latest m rems
  ∧ (∀ p, latest p (advance m <$> rems) = if p =? m then None else latest p rems)
  ∧ Forall ordered (advance m <$> rems) ∧ Forall (above (m + 1)) (advance m <$> rems).
Proof.
  induction 1 as [|rem rems Ho _ IH]; intros Ha.
  { split_and!; [done|by intros; destruct (_ =? _)|constructor..]. }
  apply Forall_cons in Ha as [Hm Ha]. destruct (IH Ha) as (E1 & E2 & E3 & E4).
  destruct (head_page m rem Ho Hm) as (H1 & H2 & H3 & H4).
  split_and!; [cbn [pick latest]; by rewrite E1, H1| |by constructor..].
  intros p. rewrite fmap_cons. cbn [latest]. rewrite E2, H2. by destruct (p =? m).
Qed.

Lemma next_page_spec minimum rems :
  Forall ordered rems →
  match foldl next_page minimum rems with
  | None => minimum = None ∧ Forall (λ rem, rem = []) rems
  | Some m => (∀ v, minimum = Some v → m ≤ v) ∧ Forall (above m) rems
              ∧ (minimum = Some m ∨ ∃ d rest, (m, d) :: rest ∈ rems)
  end.
Proof.
  intros Ho. revert minimum. induction Ho as [|rem rems Hr _ IH]; intros minimum; cbn [foldl].
  { destruct minimum as [v|]; [|done]. split_and!; [by intros ? [= ->]|constructor|by left]. }
  specialize (IH (next_page minimum rem)). destruct (foldl next_page (next_page minimum rem) rems) as [m|].
  - destruct IH as (Hle & Hab & Hor). destruct rem as [|[q d] rest]; cbn [next_page] in *.
    { split_and!; [done|constructor; [constructor|done]|]. destruct Hor as [?|(d & r & Hin)]; [by left|].
      right. exists d, r. by right. }
    assert (m ≤ q ∧ ∀ v, minimum = Some v → m ≤ v) as [Hq Hv].
    { destruct minimum as [v|]; specialize (Hle _ eq_refl); split; try lia; by intros ? [= <-]; lia. }
    split_and!; [done| |].
    + constructor; [|done]. unfold ordered in Hr. rewrite fmap_cons in Hr. apply StronglySorted_cons in Hr as [Hr _].
      rewrite Forall_fmap in Hr. constructor; [done|]. eapply Forall_impl; [exact Hr|]. intros x. cbn. lia.
    + destruct Hor as [E|(x & r & Hin)]; [|right; exists x, r; by right].
      destruct minimum as [v|]; injection E as E.
      * destruct (N.min_spec v q) as [[_ Em]|[_ Em]]; rewrite Em in E; [left; congruence|].
        right. exists d, rest. rewrite E. by left.
      * right. exists d, rest. rewrite E. by left.
  - destruct IH as [E Hnil]. destruct rem as [|[q d] rest]; [|done]. split; [done|]. by constructor.
Qed.

Lemma latest_above m p rems d : Forall (above m) rems → latest p rems = Some d → m ≤ p.
Proof.
  induction 1 as [|rem rems Hr _ IH]; [done|]. cbn [latest]. destruct (latest p rems) as [x|]; [done|].
  intros Hd%page_of_in. unfold above in Hr. rewrite Forall_forall in Hr. by apply (Hr (p, d)).
Qed.

Lemma latest_nil p rems : Forall (λ rem, rem = []) rems → latest p rems = None.
Proof. induction 1 as [|rem rems -> _ IH]; [done|]. cbn [latest]. by rewrite IH. Qed.

Lemma latest_head m d rest rems : (m, d) :: rest ∈ rems → is_Some (latest m rems).
Proof.
  induction rems as [|rem rems IH]; intros Hin; [by apply elem_of_nil in Hin|]. cbn [latest].
  apply elem_of_cons in Hin as [<-|Hin].
  - destruct (latest m rems); [done|]. cbn [page_of]. by rewrite N.eqb_refl.
  - by destruct (IH Hin) as [x ->].
Qed.

Lemma remaining_advance m d rest rems :
  (m, d) :: rest ∈ rems → (sum_list (length <$> (advance m <$> rems)) < sum_list (length <$> rems))%nat.
Proof.
  assert (∀ rem, (length (advance m rem) ≤ length rem)%nat) as Hle.
  { intros [|[q x] r]; cbn; [done|]. destruct (q =? m); cbn; lia. }
  assert (∀ l, (sum_list (length <$> (advance m <$> l)) ≤ sum_list (length <$> l))%nat) as Hall.
  { induction l as [|r l IH]; [done|]. rewrite !fmap_cons. cbn [sum_list_with]. unfold id at 1 3. specialize (Hle r). lia. }
  induction rems as [|rem rems IH]; intros Hin; [by apply elem_of_nil in Hin|].
  rewrite !fmap_cons. cbn [sum_list_with]. unfold id at 1 3. apply elem_of_cons in Hin as [<-|Hin].
  - cbn [advance]. rewrite N.eqb_refl. cbn [length]. specialize (Hall rems). lia.
  - specialize (IH Hin). specialize (Hle rem). lia.
Qed.

(** What the encoder needs of the pages still to come. *)
Record ready (h : Header) (out : list (N * list N)) (rems : list (list (N * list N))) : Prop := mkReady {
  re_ordered : Forall ordered rems;
  re_above : Forall (above (last_page 0 out + 1)) rems;
  re_pages : ∀ p d, latest p rems = Some d → p ≤ h_commit h →
             bytes_ok d ∧ N.of_nat (length d) = h_page_size h ∧ p ≠ lock_pgno (h_page_size h);
  re_gap : is_snapshot h = true → ∀ p q d, last_page 0 out < p ≤ q → q ≤ h_commit h → latest q rems = Some d →
           p ≠ lock_pgno (h_page_size h) → is_Some (latest p rems);
}.

Lemma ready_allowed h out rems m d :
  512 ≤ h_page_size h ≤ 65536 → ready h out rems → Forall (above m) rems → latest m rems = Some d → m ≤ h_commit h →
  page_allowed h (last_page 0 out) m d = true.
Proof.
  intros Hps [Ho Ha Hp Hg] Hm Hl Hc. pose proof (lock_pgno_range _ Hps) as Hlock.
  destruct (Hp m d Hl Hc) as (Hb & Hlen & Hne). pose proof (latest_above _ _ _ _ Ha Hl) as Hlast.
  set (prev := last_page 0 out) in *. unfold page_allowed.
  rewrite Hlen, N.eqb_refl, (proj2 (N.leb_le _ _) Hc), (proj2 (N.eqb_neq m 0)), (proj2 (N.eqb_neq m _) Hne) by lia.
  cbn [negb andb]. destruct (is_snapshot h); [|apply N.ltb_lt; lia]. apply N.eqb_eq.
  set (next := if prev =? lock_pgno (h_page_size h) - 1 then prev + 2 else prev + 1).
  assert (prev < next ≤ m ∧ next ≠ lock_pgno (h_page_size h)) as [Hn Hnl].
  { subst next. destruct (N.eqb_spec prev (lock_pgno (h_page_size h) - 1)); lia. }
  destruct (Hg eq_refl next m d Hn Hc Hl Hnl) as [x Hx]. pose proof (latest_above _ _ _ _ Hm Hx). lia.
Qed.

Lemma last_page_snoc out p d : last_page 0 (out ++ [(p, d)]) = p.
Proof. unfold last_page. by rewrite last_snoc. Qed.

Lemma ready_advance h out rems m d :
  ready h out rems → Forall (above m) rems → latest m rems = Some d →
  (m ≤ h_commit h → ready h (out ++ [(m, d)]) (advance m <$> rems))
  ∧ (h_commit h < m → ready h out (advance m <$> rems)).
Proof.
  intros [Ho Ha Hp Hg] Hm Hl. destruct (advance_all m rems Ho Hm) as (_ & E & Ho' & Ha').
  pose proof (latest_above _ _ _ _ Ha Hl) as Hlast. split; intros Hc; split; try done.
  - by rewrite last_page_snoc.
  - intros p x. rewrite E. destruct (p =? m); [done|]. apply Hp.
  - rewrite last_page_snoc. intros Hs p q x Hpq Hq. rewrite !E.
    rewrite (proj2 (N.eqb_neq p m)), (proj2 (N.eqb_neq q m)) by lia. intros Hx. apply (Hg Hs p q x); [lia|done|done].
  - eapply Forall_impl; [exact Ha'|]. intros rem Hr. eapply Forall_impl; [exact Hr|]. intros x Hx. cbn in *. lia.
  - intros p x. rewrite E. destruct (p =? m); [done|]. apply Hp.
  - intros Hs p q x Hpq Hq. rewrite !E. rewrite (proj2 (N.eqb_neq p m)), (proj2 (N.eqb_neq q m)) by lia.
    by apply (Hg Hs p q x).
Qed.

(** Every input at its end. *)
Definition ended (s : source) (input : CompactorInput) : Prop := ci_decoder input = decoder_end s.1.

Lemma filled_ended srcs inputs :
  Forall (λ rem, rem = []) srcs.*2 → Forall2 filled srcs inputs → Forall2 ended srcs inputs.
Proof.
  intros Hnil Hf. induction Hf as [|[f rem] input srcs inputs Hi _ IH]; [constructor|].
  rewrite fmap_cons in Hnil. apply Forall_cons in Hnil as [E Hnil]. cbn in E. subst rem.
  constructor; [|by apply IH]. destruct Hi as [_ [_ Hi]]. done.
Qed.

Lemma advance_sources m srcs : (advance_source m <$> srcs).*2 = advance m <$> srcs.*2.
Proof. induction srcs as [|s srcs IH]; [done|]. rewrite !fmap_cons, IH. done. Qed.

Lemma advance_files m srcs : (advance_source m <$> srcs).*1 = srcs.*1.
Proof. induction srcs as [|s srcs IH]; [done|]. rewrite !fmap_cons, IH. done. Qed.

Lemma compact_loop_spec h fuel out e srcs inputs progress :
  header_validate h = Ok tt → h_commit h ≤ u32_max → encoding SizedBlock h out e → pages_allowed h 0 out = true →
  Forall readable srcs.*1 → Forall2 input_at srcs inputs → ready h out srcs.*2 →
  (sum_list (length <$> srcs.*2) < fuel)%nat →
  ∃ e' inputs' progress' added srcs',
    compact_loop fuel e inputs progress = Ok (e', inputs', progress')
    ∧ encoding SizedBlock h (out ++ added) e' ∧ pages_allowed h 0 (out ++ added) = true
    ∧ srcs'.*1 = srcs.*1 ∧ Forall2 ended srcs' inputs'
    ∧ ∀ p d, (p, d) ∈ added ↔ p ≤ h_commit h ∧ latest p srcs.*2 = Some d.
Proof.
  intros Hv Hc. destruct (header_validate_Ok _ Hv) as [_ Hps]. revert out e srcs inputs progress.
  induction fuel as [|fuel IH]; intros out e srcs inputs progress He Hal Hrd Hat Hready Hfuel; [lia|].
  cbn [compact_loop]. pose proof (next_page_spec None srcs.*2 (re_ordered _ _ _ Hready)) as Hnext.
  destruct (fill_spec srcs inputs None) as (inputs1 & -> & Hfill); [by rewrite Forall_fmap in Hrd|done|].
  destruct (foldl next_page None srcs.*2) as [m|].
  2:{ destruct Hnext as [_ Hnil]. exists e, inputs1, progress, [], srcs. rewrite app_nil_r.
      split_and!; [done|done|done|done|by apply filled_ended|].
      intros p d. rewrite latest_nil by done. split; [by intros ?%elem_of_nil|by intros [_ ?]]. }
  destruct Hnext as (_ & Habove & [?|(hd & rest & Hin)]); [done|].
  destruct (latest_head m hd rest _ Hin) as [d Hd].
  destruct (advance_all m _ (re_ordered _ _ _ Hready) Habove) as (Epick & Elatest & _ & _).
  destruct (ready_advance h out _ m d Hready Habove Hd) as [Hle Hgt].
  assert (∀ x, pick m srcs.*2 = Some x → m ≤ h_commit h → bytes_ok x ∧ page_allowed h (last_page 0 out) m x = true) as Hok.
  { intros x. rewrite Epick. intros Hx Hm. split; [by apply (re_pages _ _ _ Hready m x)|].
    by apply (ready_allowed h out srcs.*2). }
  destruct (write_spec h out e m srcs inputs1 Hv Hc He Hal Hfill Hok) as [Hat' Hw]. rewrite Epick, Hd in Hw.
  pose proof (remaining_advance m hd rest _ Hin) as Hrem. rewrite <- advance_sources in Hrem, Hle, Hgt, Elatest.
  set (srcs2 := advance_source m <$> srcs) in *.
  assert (Forall readable srcs2.*1) as Hrd2 by (subst srcs2; by rewrite advance_files).
  destruct (N.ltb_spec (h_commit h) m) as [Hgt'|Hle'].
  - rewrite Hw. destruct (IH out e srcs2 _ m He Hal Hrd2 Hat' (Hgt Hgt') ltac:(lia))
      as (e' & inputs' & prog & added & srcs' & -> & ? & ? & Ef & ? & Hadd).
    exists e', inputs', prog, added, srcs'. split_and!; [done..|by rewrite Ef; subst srcs2; rewrite advance_files|done|].
    intros p x. rewrite Hadd, Elatest. destruct (N.eqb_spec p m) as [->|]; [|done].
    split; [by intros [_ ?]|]. intros [? _]. lia.
  - destruct Hw as [c ->]. pose proof (ready_allowed h out _ m d Hps Hready Habove Hd Hle') as Hpa.
    assert (pages_allowed h 0 (out ++ [(m, d)]) = true) as Hal2.
    { rewrite pages_allowed_app, Hal. cbn [pages_allowed andb]. by rewrite Hpa. }
    destruct (IH _ _ srcs2 _ m (encoding_add SizedBlock h out e m d c Hv Hal2 He) Hal2 Hrd2 Hat' (Hle Hle') ltac:(lia))
      as (e' & inputs' & prog & added & srcs' & -> & Henc & Hal3 & Ef & Hend & Hadd).
    exists e', inputs', prog, ((m, d) :: added), srcs'. rewrite <- app_assoc in Henc, Hal3.
    split_and!; [done|done|done|by rewrite Ef; subst srcs2; rewrite advance_files|done|].
    intros p x. rewrite elem_of_cons, Hadd, Elatest. destruct (N.eqb_spec p m) as [->|Hne].
    + rewrite Hd. split; [intros [[= ->]|[_ ?]]; done|]. intros [_ [= ->]]. by left.
    + split; [intros [[= ? ?]|?]; done|]. intros ?. by right.
Qed.

(** ** The whole compaction *)

(** Each file continues the one before it. *)
Fixpoint chain (files : list InputFile) : Prop :=
  match files with
  | f :: ((g :: _) as files) =>
      h_min_txid (if_header g) ≤ h_max_txid (if_header f) + 1
      ∧ h_max_txid (if_header f) < h_max_txid (if_header g)
      ∧ h_page_size (if_header f) = h_page_size (if_header g) ∧ chain files
  | _ => True
  end.

Definition last_max (files : list InputFile) : N := default 0 ((λ f, h_max_txid (if_header f)) <$> last files).

Lemma chain_max f files : chain (f :: files) → h_max_txid (if_header f) ≤ last_max (f :: files).
Proof.
  revert f. induction files as [|g files IH]; intros f Hc; [done|]. destruct Hc as (_ & Hlt & _ & Hc).
  specialize (IH g Hc). unfold last_max in *. change (last (f :: g :: files)) with (last (g :: files)). lia.
Qed.

Lemma chain_page_size f files g :
  chain (f :: files) → g ∈ f :: files → h_page_size (if_header g) = h_page_size (if_header f).
Proof.
  revert f. induction files as [|x files IH]; intros f Hc Hg; [by apply list_elem_of_singleton in Hg as ->|].
  destruct Hc as (_ & _ & Eps & Hc). apply elem_of_cons in Hg as [->|Hg]; [done|]. by rewrite (IH x Hc Hg).
Qed.

(** The inputs after their headers and with their buffers. *)
Definition opened (n : nat) (f : InputFile) : CompactorInput := mkInput (decoder_at f 0) None (replicate n 0).

Lemma decode_headers_at files :
  Forall readable files →
  decode_headers ((λ reader, mkInput (decoder_new reader) None []) <$> (if_bytes <$> files))
  = Ok ((λ f, mkInput (decoder_at f 0) None []) <$> files).
Proof.
  induction 1 as [|f files Hf _ IH]; [done|]. rewrite !fmap_cons. cbn [decode_headers ci_decoder ci_page ci_data].
  by rewrite decode_header_at, IH.
Qed.

Lemma chain_accepted files :
  chain files → Forall (λ f, h_max_txid (if_header f) < u64_max) files →
  chain_refused false ((λ f, mkInput (decoder_at f 0) None []) <$> files) = false.
Proof.
  induction files as [|f [|g files] IH]; intros Hc Hm; [done..|]. destruct Hc as (Hmin & Hlt & Eps & Hc).
  apply Forall_cons in Hm as [Hf Hm]. specialize (IH Hc Hm). rewrite !fmap_cons in *. cbn [chain_refused] in IH |- *.
  rewrite IH, orb_false_r. unfold ci_header. cbn [ci_decoder decoder_at d_header].
  rewrite Eps, N.eqb_refl. unfold is_contiguous, wrap_add. rewrite N.mod_small by (unfold u64_max in *; lia).
  by rewrite (proj2 (N.leb_le _ _) Hmin), (proj2 (N.ltb_lt _ _) Hlt).
Qed.

Definition file_range (f : InputFile) : N * N := (h_min_txid (if_header f), h_max_txid (if_header f)).

Lemma ranges_match files :
  existsb (λ '(input, expected),
      negb (bool_decide ((h_min_txid (ci_header input), h_max_txid (ci_header input)) = expected)))
    (zip ((λ f, mkInput (decoder_at f 0) None []) <$> files) (file_range <$> files)) = false.
Proof.
  induction files as [|f files IH]; [done|]. rewrite !fmap_cons. cbn [zip zip_with existsb]. rewrite IH, orb_false_r.
  by rewrite bool_decide_true.
Qed.

Lemma range_accepted flags f files min :
  h_min_txid (if_header f) ≤ min ≤ h_max_txid (if_header f) → N.land flags HEADER_FLAG_NO_CHECKSUM ≠ 0 →
  range_refused flags ((λ f, mkInput (decoder_at f 0) None []) <$> f :: files) (Some (min, file_range <$> f :: files)) = false.
Proof.
  intros Hmin Hfl. pose proof (ranges_match (f :: files)) as Hr. rewrite !fmap_cons in *. cbn [range_refused].
  rewrite Hr. unfold ci_header. cbn [ci_decoder decoder_at d_header].
  rewrite (proj2 (N.ltb_ge _ _)), (proj2 (N.ltb_ge _ _)), (proj2 (N.eqb_neq _ _) Hfl) by lia. cbn [length].
  by rewrite !length_fmap, Nat.eqb_refl, andb_false_r.
Qed.

Lemma opened_at files n :
  Forall (λ f, if_page_size f = n) files →
  Forall2 input_at ((λ f, (f, if_pages f)) <$> files) (opened n <$> files).
Proof.
  induction 1 as [|f files Hf _ IH]; constructor; [|done]. split; [cbn [opened ci_data fst]; by rewrite length_replicate|].
  cbn [opened ci_page fst snd]. left. exists O. by split; [lia|].
Qed.

Lemma close_ended srcs inputs :
  Forall readable srcs.*1 → Forall2 ended srcs inputs →
  ∃ inputs', close_inputs inputs = Ok inputs'
    ∧ (λ i, t_post_apply_checksum (d_trailer (ci_decoder i))) <$> inputs' = if_post <$> srcs.*1.
Proof.
  intros Hr He. induction He as [|[f rem] input srcs inputs Hi _ IH]; [by eexists|].
  rewrite fmap_cons in Hr. apply Forall_cons in Hr as [Hf Hr]. destruct (IH Hr) as (inputs' & E & Ep).
  destruct (decoder_close_end f Hf) as (d & Ed & Hd). cbn [close_inputs]. rewrite Hi. cbn [fst].
  rewrite Ed, E. eexists. split; [done|]. rewrite !fmap_cons, Ep. cbn [ci_decoder fst]. by rewrite Hd.
Qed.

Lemma fuel_enough n files :
  (sum_list (length <$> (if_pages <$> files))
   < S (sum_list ((λ i, length (d_reader (ci_decoder i))) <$> (opened n <$> files))))%nat.
Proof.
  induction files as [|f files IH]; [cbn; lia|]. rewrite !fmap_cons. cbn [sum_list_with]. unfold id at 1 3.
  cbn [opened ci_decoder decoder_at d_reader]. rewrite drop_0, length_app.
  pose proof (length_pages_bytes (if_mode f) (if_pages f)). lia.
Qed.

(** The header of the merged file. *)
Definition merged_header (flags : N) (first last : Header) (min : N) : Header :=
  mkHeader VERSION flags (h_page_size first) (h_commit last) min (h_max_txid last)
    (h_timestamp last) (h_pre_apply_checksum first) 0 0 0 0 0.

(** A readable file without checksums. *)
Definition plain (f : InputFile) : Prop := readable f ∧ h_flags (if_header f) = HEADER_FLAG_NO_CHECKSUM.

Lemma plain_valid f :
  plain f →
  let h := if_header f in
  is_valid_page_size (h_page_size h) = true ∧ h_min_txid h ≠ 0 ∧ h_min_txid h ≤ h_max_txid h ∧ h_pre_apply_checksum h = 0.
Proof.
  intros [[[_ Hv _ _ _ _] _] Hfl]. cbv zeta. revert Hv. unfold header_validate, no_checksum. rewrite Hfl.
  change (negb (N.land HEADER_FLAG_NO_CHECKSUM HEADER_FLAG_NO_CHECKSUM =? 0)) with true.
  repeat match goal with
  | |- (if ?c then _ else _) = _ → _ => let E := fresh "E" in destruct c eqn:E; try discriminate
  end; intros _; repeat match goal with E : negb _ = false |- _ => apply negb_false_iff in E end;
  (split_and!; [done|by apply N.eqb_neq|by apply N.ltb_ge|by apply N.eqb_eq]).
Qed.

Lemma merged_valid first last min :
  plain first → plain last →
  h_min_txid (if_header first) ≤ min → min ≤ h_max_txid (if_header last) →
  let h := merged_header HEADER_FLAG_NO_CHECKSUM (if_header first) (if_header last) min in
  header_validate h = Ok tt ∧ header_typed h ∧ no_checksum h = true
  ∧ ∀ post, post_allowed h post = post_allowed (if_header last) post.
Proof.
  intros Hf Hl Hmin Hmax. destruct (plain_valid first Hf) as (Hps & Hne & _ & Hpre).
  destruct Hf as [[[Htf _ _ _ _ _] _] _], Hl as [[[Htl _ _ _ _ _] _] Hfl]. cbv zeta. split_and!.
  - unfold header_validate, merged_header, is_snapshot, no_checksum.
    cbn [h_version h_flags h_page_size h_commit h_min_txid h_max_txid h_timestamp h_pre_apply_checksum h_wal_offset
         h_wal_size h_wal_salt1 h_wal_salt2 h_node_id]. rewrite Hps, Hpre. cbn [negb].
    rewrite (proj2 (N.eqb_neq min 0)), (proj2 (N.eqb_neq (h_max_txid _) 0)), (proj2 (N.ltb_ge _ _) Hmax) by lia.
    by destruct (min =? 1).
  - unfold header_typed in *. cbn. unfold u32_max, u64_max, i64_min, i64_max, HEADER_FLAG_NO_CHECKSUM in *. intuition lia.
  - done.
  - intros post. unfold post_allowed, no_checksum. cbn [merged_header h_flags h_commit]. by rewrite Hfl.
Qed.

(** What a chain of faithful files keeps of a page. *)
Lemma chain_latest H files p :
  chain files → files ≠ [] →
  Forall (λ f, faithful H (h_min_txid (if_header f)) (h_max_txid (if_header f)) (if_header f) (if_pages f)) files →
  1 ≤ p ≤ hi_size H (last_max files) → p ≠ lock_pgno (hi_page_size H) →
  match latest p (if_pages <$> files) with
  | Some d => d = hi_page H (last_max files) p
  | None => ∀ t, default 0 ((λ f, h_min_txid (if_header f)) <$> head files) ≤ t + 1 → t ≤ last_max files →
            p ≤ hi_size H t ∧ hi_page H t p = hi_page H (last_max files) p
  end.
Proof.
  induction files as [|f files IH]; [done|]. intros Hc _ [Hf Hfs]%Forall_cons Hp Hl. cbn [fmap list_fmap latest head].
  change (list_fmap _ _ if_pages files) with (if_pages <$> files).
  assert (∀ d, page_of p (if_pages f) = Some d → p ≤ hi_size H (h_max_txid (if_header f)) →
               d = hi_page H (h_max_txid (if_header f)) p) as Hin.
  { intros d Hd Hle. apply page_of_in in Hd. by apply (fa_pages _ _ _ _ _ Hf p d). }
  destruct files as [|g files].
  - cbn [fmap list_fmap latest]. change (last_max [f]) with (h_max_txid (if_header f)) in *.
    destruct (page_of p (if_pages f)) as [d|] eqn:E; [apply Hin; [done|lia]|]. apply page_of_None in E.
    by apply (fa_rest _ _ _ _ _ Hf p Hp Hl E).
  - destruct Hc as (Hmin & Hlt & _ & Hc). pose proof (chain_max g files Hc) as Hmax.
    change (last_max (f :: g :: files)) with (last_max (g :: files)) in *.
    specialize (IH Hc ltac:(done) Hfs Hp Hl).
    destruct (latest p (if_pages <$> g :: files)) as [d|]; [done|]. cbn [head fmap option_fmap option_map default] in IH.
    destruct (IH (h_max_txid (if_header f)) Hmin ltac:(lia)) as [Hsz Hpg].
    destruct (page_of p (if_pages f)) as [d|] eqn:E; [by rewrite <- Hpg; apply Hin|]. apply page_of_None in E.
    intros t Ht Htm. cbn in Ht. destruct (N.le_gt_cases t (h_max_txid (if_header f))) as [Hle|Hgt].
    + destruct (fa_rest _ _ _ _ _ Hf p ltac:(lia) Hl E t Ht Hle) as [? ->]. split; [done|]. exact Hpg.
    + apply IH; [etrans; [exact Hmin|lia]|done].
Qed.

Lemma latest_readable files p d :
  Forall readable files → latest p (if_pages <$> files) = Some d →
  ∃ g, g ∈ files ∧ bytes_ok d ∧ N.of_nat (length d) = h_page_size (if_header g)
       ∧ p ≠ lock_pgno (h_page_size (if_header g)).
Proof.
  induction 1 as [|f files Hf _ IH]; [done|]. rewrite fmap_cons. cbn [latest].
  destruct (latest p (if_pages <$> files)) as [x|].
  - intros [= ->]. destruct (IH eq_refl) as (g & Hg & Hrest). exists g. split; [by right|done].
  - intros (k & Hk)%page_of_in%list_elem_of_lookup.
    destruct (readable_page f k p d Hf Hk) as (? & ? & _ & _ & ?). exists f. split; [by left|done].
Qed.

Lemma readable_ordered f : readable f → ordered (if_pages f) ∧ above 1 (if_pages f).
Proof.
  intros [[_ Hv _ Hal _ _] _]. destruct (header_validate_Ok _ Hv) as [_ Hps].
  destruct (pages_allowed_sorted _ _ _ Hps Hal) as [Hs Hf]. split; [done|].
  eapply Forall_impl; [exact Hf|]. intros x [? _]. cbn. lia.
Qed.

Lemma chain_ready H f files min last :
  Forall plain (f :: files) → chain (f :: files) →
  Forall (λ f, faithful H (h_min_txid (if_header f)) (h_max_txid (if_header f)) (if_header f) (if_pages f)) (f :: files) →
  h_min_txid (if_header f) ≤ min → h_commit last = hi_size H (last_max (f :: files)) →
  ready (merged_header HEADER_FLAG_NO_CHECKSUM (if_header f) last min) [] (if_pages <$> f :: files).
Proof.
  intros Hp Hc Hf Hmin Hcommit.
  assert (Forall readable (f :: files)) as Hr by (eapply Forall_impl; [exact Hp|]; by intros ? [? _]).
  assert (h_page_size (if_header f) = hi_page_size H) as Eps by (apply Forall_cons in Hf as [Hf _]; apply Hf).
  split.
  - apply Forall_fmap. eapply Forall_impl; [exact Hr|]. intros g Hg. by apply readable_ordered.
  - apply Forall_fmap. eapply Forall_impl; [exact Hr|]. intros g Hg. by apply readable_ordered.
  - intros p d Hd _. destruct (latest_readable _ _ _ Hr Hd) as (g & Hg & Hb & Hlen & Hlock).
    rewrite (chain_page_size f files g Hc Hg) in Hlen, Hlock. done.
  - intros Hsnap p q d Hpq Hq _ Hlock. cbn [merged_header h_commit h_page_size] in *. change (last_page 0 []) with 0 in Hpq.
    pose proof (chain_latest H (f :: files) p Hc ltac:(done) Hf ltac:(lia) ltac:(by rewrite <- Eps)) as Hl.
    destruct (latest p (if_pages <$> f :: files)); [done|]. exfalso.
    apply N.eqb_eq in Hsnap. cbn in Hsnap. destruct (Hl 0) as [Hz _].
    + cbn. lia.
    + lia.
    + rewrite hi_start in Hz. lia.
Qed.

Lemma last_readable f files g :
  Forall plain (f :: files) → last (f :: files) = Some g → plain g.
Proof. intros Hp Hl%last_Some_elem_of. rewrite Forall_forall in Hp. by apply Hp. Qed.

(** [compactor.header_flags = HEADER_FLAG_NO_CHECKSUM], as every caller sets it. *)
Definition plain_compactor (readers : list (list N)) : Compactor :=
  let c := compactor_new [] readers in
  mkCompactor (cp_encoder c) (cp_inputs c) (cp_page_number c) (cp_total c) HEADER_FLAG_NO_CHECKSUM
    (cp_allow_non_contiguous_txids c).

Lemma resize_opened (files : list InputFile) n :
  (λ i, mkInput (ci_decoder i) (ci_page i) (take n (ci_data i ++ replicate n 0)))
    <$> ((λ f, mkInput (decoder_at f 0) None []) <$> files) = opened n <$> files.
Proof.
  rewrite <- list_fmap_compose. apply list_fmap_ext. intros _ f _. unfold opened. cbn [compose ci_decoder ci_page ci_data app].
  by rewrite take_ge by (by rewrite length_replicate).
Qed.

(** The merge of the opened files, and the close of their decoders. *)
Lemma merge_opened h e0 f files g :
  let fs := f :: files in
  let inputs := opened (N.to_nat (h_page_size (if_header f))) <$> fs in
  Forall readable fs → chain fs → last fs = Some g →
  header_validate h = Ok tt → h_commit h ≤ u32_max → encoding SizedBlock h [] e0 → ready h [] (if_pages <$> fs) →
  ∃ e1 inputs1 progress inputs2 pages,
    compact_loop (S (sum_list ((λ i, length (d_reader (ci_decoder i))) <$> inputs))) e0 inputs 0 = Ok (e1, inputs1, progress)
    ∧ close_inputs inputs1 = Ok inputs2
    ∧ default 0 ((λ i, t_post_apply_checksum (d_trailer (ci_decoder i))) <$> last inputs2) = if_post g
    ∧ encoding SizedBlock h pages e1 ∧ pages_allowed h 0 pages = true
    ∧ ∀ p d, (p, d) ∈ pages ↔ p ≤ h_commit h ∧ latest p (if_pages <$> fs) = Some d.
Proof.
  intros fs inputs Hr Hc Hlast Hv Hcm He0 Hready.
  assert (((λ f, (f, if_pages f)) <$> fs).*1 = fs) as E1 by (rewrite <- list_fmap_compose; apply list_fmap_id).
  assert (((λ f, (f, if_pages f)) <$> fs).*2 = if_pages <$> fs) as E2 by (by rewrite <- list_fmap_compose).
  destruct (compact_loop_spec h (S (sum_list ((λ i, length (d_reader (ci_decoder i))) <$> inputs))) [] e0
    ((λ f, (f, if_pages f)) <$> fs) inputs 0)
    as (e1 & inputs1 & prog & pages & srcs & Hloop & He1 & Hal & Esrc & Hend & Hpages); try done.
  { by rewrite E1. }
  { apply opened_at, Forall_forall. intros y Hy. unfold if_page_size. by rewrite (chain_page_size f files y Hc Hy). }
  { by rewrite E2. }
  { rewrite E2. apply fuel_enough. }
  rewrite E1 in Esrc. rewrite E2 in Hpages.
  destruct (close_ended srcs inputs1) as (inputs2 & Hclose & Epost); [by rewrite Esrc|done|].
  exists e1, inputs1, prog, inputs2, pages. split_and!; try done.
  by rewrite <- fmap_last, Epost, Esrc, fmap_last, Hlast.
Qed.

Lemma compact_from_spec f files g min :
  let h := merged_header HEADER_FLAG_NO_CHECKSUM (if_header f) (if_header g) min in
  Forall plain (f :: files) → chain (f :: files) → last (f :: files) = Some g →
  Forall (λ f, h_max_txid (if_header f) < u64_max) (f :: files) →
  h_min_txid (if_header f) ≤ min ≤ h_max_txid (if_header f) → ready h [] (if_pages <$> f :: files) →
  ∃ c pages, compact_from (plain_compactor (if_bytes <$> f :: files)) min (file_range <$> f :: files) = Ok c
    ∧ e_writer (cp_encoder c) = file_bytes SizedBlock h pages (if_post g) ∧ e_header (cp_encoder c) = h
    ∧ encodable h pages (if_post g)
    ∧ ∀ p d, (p, d) ∈ pages ↔ p ≤ h_commit h ∧ latest p (if_pages <$> f :: files) = Some d.
Proof.
  intros h Hp Hc Hlast Hmax Hmin Hready. set (fs := f :: files) in *.
  assert (Forall readable fs) as Hr by (eapply Forall_impl; [exact Hp|]; by intros ? [? _]).
  pose proof (last_readable f files g Hp Hlast) as Hg. pose proof (chain_max f files Hc) as Hle.
  assert (last_max fs = h_max_txid (if_header g)) as Elm by (unfold last_max; by rewrite Hlast).
  destruct (merged_valid f g min) as (Hv & Ht & Hnc & Hpost);
    [by apply Forall_cons in Hp as [? _]|done|lia|fold fs in Hle; lia|]. fold h in Hv, Ht, Hnc, Hpost.
  destruct (encoding_header SizedBlock h Hv) as (e0 & Eh & He0).
  unfold compact_from, compact_inner, plain_compactor, compactor_new.
  cbn [cp_encoder cp_inputs cp_page_number cp_total cp_header_flags cp_allow_non_contiguous_txids].
  assert (∃ x, last ((λ reader, mkInput (decoder_new reader) None []) <$> (if_bytes <$> fs)) = Some x) as [x ->].
  { rewrite !fmap_last, Hlast. by eexists. }
  assert (head ((λ reader, mkInput (decoder_new reader) None []) <$> (if_bytes <$> fs))
          = Some (mkInput (decoder_new (if_bytes f)) None [])) as -> by done.
  rewrite decode_headers_at by done. subst fs. rewrite range_accepted by done. rewrite chain_accepted by done.
  set (fs := f :: files) in *.
  assert (default header_default (ci_header <$> head ((λ f, mkInput (decoder_at f 0) None []) <$> fs)) = if_header f) as -> by done.
  assert (default header_default (ci_header <$> last ((λ f, mkInput (decoder_at f 0) None []) <$> fs)) = if_header g) as ->.
  { rewrite fmap_last, Hlast. done. }
  fold (merged_header HEADER_FLAG_NO_CHECKSUM (if_header f) (if_header g) min). fold h. rewrite Eh.
  rewrite resize_opened. subst fs.
  destruct (merge_opened h e0 f files g)
    as (e1 & inputs1 & prog & inputs2 & pages & -> & -> & -> & He1 & Hal & Hpages); try done; [apply Ht|].
  pose proof (encoder_close_spec SizedBlock h pages e1 (if_post g) Hv He1 Hal) as Hclose.
  rewrite Hpost, (en_post _ _ _ (proj1 (proj1 Hg))) in Hclose. destruct Hclose as (e2 & -> & Hw & Hhd).
  eexists _, pages. split; [done|]. cbn [cp_encoder]. split_and!; try done. split; try done.
  - apply Forall_forall. intros [p d] Hin. apply Hpages in Hin as [_ Hl].
    destruct (latest_readable _ p d Hr Hl) as (_ & _ & Hb & _). done.
  - by rewrite Hpost, (en_post _ _ _ (proj1 (proj1 Hg))).
  - apply Hg.
Qed.
Lemma plain_decodes f : plain f → decodes (if_bytes f) (if_header f) (if_pages f).
Proof.
  intros [[He _] Hfl]. eexists _, _. unfold decode_file_with_pages, if_bytes. rewrite decode_file_bytes by done.
  assert (no_checksum (if_header f) = true) as -> by (unfold no_checksum; by rewrite Hfl). by rewrite andb_false_r.
Qed.

(** The file a compaction writes stands for its inputs, and is itself a file
    that can be an input. *)
Lemma compact_from_faithful H f files g min :
  Forall plain (f :: files) → chain (f :: files) → last (f :: files) = Some g →
  Forall (λ f, h_max_txid (if_header f) < u64_max) (f :: files) →
  Forall (λ f, faithful H (h_min_txid (if_header f)) (h_max_txid (if_header f)) (if_header f) (if_pages f)) (f :: files) →
  h_min_txid (if_header f) ≤ min ≤ h_max_txid (if_header f) →
  ∃ c i, compact_from (plain_compactor (if_bytes <$> f :: files)) min (file_range <$> f :: files) = Ok c
    ∧ e_writer (cp_encoder c) = if_bytes i ∧ e_header (cp_encoder c) = if_header i ∧ plain i
    ∧ file_range i = (min, h_max_txid (if_header g))
    ∧ faithful H min (h_max_txid (if_header g)) (if_header i) (if_pages i).
Proof.
  intros Hp Hc Hlast Hmax Hf Hmin. set (h := merged_header HEADER_FLAG_NO_CHECKSUM (if_header f) (if_header g) min).
  assert (last_max (f :: files) = h_max_txid (if_header g)) as Elm by (unfold last_max; by rewrite Hlast).
  assert (h_page_size (if_header f) = hi_page_size H) as Eps by (pose proof Hf as [Hf' _]%Forall_cons; apply Hf').
  assert (h_commit (if_header g) = hi_size H (h_max_txid (if_header g))) as Ecm.
  { apply last_Some_elem_of in Hlast. rewrite Forall_forall in Hf. by apply (fa_commit _ _ _ _ _ (Hf g Hlast)). }
  destruct (compact_from_spec f files g min Hp Hc Hlast Hmax Hmin) as (c & pages & -> & Ew & Eh & Hen & Hpages).
  { apply (chain_ready H); [done..|lia|by rewrite Elm]. }
  exists c, (mkInputFile SizedBlock h pages (if_post g)). cbn [if_header if_pages].
  do 3 (split; [done|]). split; [split; [split; [exact Hen|]|done]; by rewrite (andb_false_r _ : _ && negb (no_checksum h) = false)|].
  split; [done|].
  assert (Forall readable (f :: files)) as Hr by (eapply Forall_impl; [exact Hp|]; by intros ? [? _]).
  pose proof (encodable_pages_ok _ _ _ Hen) as Hpok. rewrite Forall_forall in Hpok. rewrite <- Elm in *.
  split; [done|done| |].
  - intros p d Hin Hle. pose proof (Hpok _ Hin) as (_ & _ & Hp1 & _). cbn [fst] in Hp1. apply Hpages in Hin as [_ Hl].
    destruct (latest_readable _ _ _ Hr Hl) as (y & Hy & _ & _ & Hlock).
    rewrite (chain_page_size f files y Hc Hy), Eps in Hlock.
    pose proof (chain_latest H (f :: files) p Hc ltac:(done) Hf ltac:(lia) Hlock) as Hk. by rewrite Hl in Hk.
  - intros p Hp1 Hlock Hout t Ht Htm.
    pose proof (chain_latest H (f :: files) p Hc ltac:(done) Hf Hp1 Hlock) as Hk.
    destruct (latest p (if_pages <$> f :: files)) as [d|] eqn:El.
    + exfalso. apply Hout. apply (list_elem_of_fmap_2 fst _ (p, d)), Hpages. split; [|done]. cbn [merged_header h_commit]. lia.
    + apply Hk; [cbn; lia|done].
Qed.
End Inputs.

(** C8: compacting files that are each faithful to a database's history and
    continue one another always succeeds, in either page encoding of the inputs
    and also from a transaction inside the first file on; the file it writes
    decodes, covers exactly the requested transactions, and is faithful to the
    history itself, so a restore may use it in place of its inputs. *)
Theorem compaction_faithful `{flex : Lz4Flex} `{laws : !Lz4FlexLaws} H f files g min :
  Forall plain (f :: files) → chain (f :: files) → last (f :: files) = Some g →
  Forall (λ f, h_max_txid (if_header f) < u64_max) (f :: files) →
  Forall (λ f, faithful H (h_min_txid (if_header f)) (h_max_txid (if_header f)) (if_header f) (if_pages f)) (f :: files) →
  h_min_txid (if_header f) ≤ min ≤ h_max_txid (if_header f) →
  ∃ c h pages, compact_from (plain_compactor (if_bytes <$> f :: files)) min (file_range <$> f :: files) = Ok c
    ∧ decodes (e_writer (cp_encoder c)) h pages
    ∧ h_min_txid h = min ∧ h_max_txid h = h_max_txid (if_header g)
    ∧ faithful H min (h_max_txid (if_header g)) h pages.
Proof.
  intros Hp Hc Hlast Hmax Hf Hmin.
  destruct (compact_from_faithful H f files g min Hp Hc Hlast Hmax Hf Hmin) as (c & i & -> & Ew & _ & Hi & [= E1 E2] & Hfi).
  exists c, (if_header i), (if_pages i). split_and!; [done|by rewrite Ew; apply plain_decodes|done..].
Qed.

(** ** Compacting a snapshot and the transaction after it *)

Definition sample_first : InputFile := mkInputFile LegacyFrame (sample_txn 1 1 1) [(1, sample_page 7)] 0.
Definition sample_second : InputFile := mkInputFile SizedBlock (sample_txn 2 2 2) [(2, sample_page 9)] 0.

Lemma sample_plain_file m n p : n < 256 → p = 1 ∨ p = 2 → plain (mkInputFile m (sample_txn p p p) [(p, sample_page n)] 0).
Proof.
  intros Hn Hp. split; [|done]. split; [|destruct Hp as [->| ->]; intros E; vm_compute in E; discriminate].
  split; cbn [if_header if_pages if_post].
  - unfold header_typed. cbn. unfold u32_max, u64_max, i64_min, i64_max. destruct Hp; lia.
  - by destruct Hp as [->| ->]; vm_compute.
  - constructor; [|constructor]. by apply Forall_replicate.
  - by destruct Hp as [->| ->]; vm_compute.
  - by destruct Hp as [->| ->]; vm_compute.
  - done.
Qed.

Lemma sample_plain : Forall plain [sample_first; sample_second].
Proof.
  constructor; [|constructor; [|constructor]].
  - apply (sample_plain_file LegacyFrame 7 1); [done|by left].
  - apply (sample_plain_file SizedBlock 9 2); [done|by right].
Qed.

Lemma compaction_faithful_witness :
  ∃ c h pages, compact_from (plain_compactor (if_bytes <$> [sample_first; sample_second])) 1 [(1, 1); (2, 2)] = Ok c
    ∧ decodes (e_writer (cp_encoder c)) h pages ∧ h_min_txid h = 1 ∧ h_max_txid h = 2
    ∧ faithful sample_history 1 2 h pages.
Proof.
  apply (compaction_faithful sample_history sample_first [sample_second] sample_second 1).
  - exact sample_plain.
  - by split_and!.
  - done.
  - by repeat constructor.
  - destruct sample_faithful as [F1 F2]. constructor; [exact F1|]. constructor; [exact F2|constructor].
  - done.
Defined.
