(* ===== verification/Levels.v ===== *)
(** * Level compaction

    Models [crates/ltx/src/replica_compactor.rs] over the [ReplicaClient] trait
    of [crates/ltx/src/client/mod.rs]: one attempt of a compaction reads the
    listing of the destination level, selects source files of the level below,
    merges them and publishes one object.  The object store is a parameter with
    its state; a scratch file is the bytes in it. *)

From Stdlib Require Import ZifyN ZifyNat.
From S2P Require Import Prelude Bytes Lz4 Restore Ltx Codec Image Compact.

(** The operations of [ReplicaClient] a compaction calls.  A write can change
    the store and still report an error. *)
Class ReplicaClient (S : Type) := {
  ltx_files : S → Z → N → Result (list FileInfo);
  ltx_files_bounded : S → Z → N → N → Result (list FileInfo);
  open_ltx_file : S → Z → N → N → Result (list N);
  read_range : S → Z → N → N → N → N → Result (list N);
  write_ltx_file : S → Z → N → N → list N → S * Result FileInfo;
  write_ltx_file_from_file : S → Z → N → N → list N → S * Result FileInfo;
}.

(** What the local LTX directory answers for the path of a file. *)
Inductive LocalFile := LocalBytes (bytes : list N) | LocalMissing | LocalFailed.

(** [ReplicaCompactor]; [rc_local] reads the file of a level and a range under
    [local_path]. *)
Record ReplicaCompactor := mkReplicaCompactor {
  rc_verify : bool;
  rc_max_files : N;
  rc_max_input_bytes : N;
  rc_base : N;
  rc_local : option (Z → N → N → LocalFile);
}.

(** [CompactionOutput] and [CompactionResult]. *)
Record CompactionOutput := mkOutput {
  co_info : FileInfo;
  co_input_files : N;
  co_input_bytes : N;
  co_local_input_files : N;
}.

Record CompactionResult := mkCompactionResult {
  cr_covered_txid : N;
  cr_output : option CompactionOutput;
}.

(** [ReplicaCompactor::verify_files]. *)
Fixpoint contiguous_pairs (files : list FileInfo) : bool :=
  match files with
  | a :: ((b :: _) as files) => bool_decide (checked_add (fi_max a) 1 = Some (fi_min b)) && contiguous_pairs files
  | _ => true
  end.

Definition verify_files (base : N) (files : list FileInfo) : Result unit :=
  if is_some_and (λ f, negb (fi_min f =? base)) (head files) || existsb (λ f, fi_max f <? fi_min f) files
  then Err Other
  else if contiguous_pairs files then Ok tt else Err Other.

(** The order of [available.sort_by_key]. *)
Definition source_order (a b : FileInfo) : comparison :=
  then_with (N.compare (fi_min a) (fi_min b)) (N.compare (fi_max b) (fi_max a)).

(** What the selection ends with: nothing to do, one source above the byte
    budget, or the sources of a merge with their bytes. *)
Inductive Selection :=
| Nothing
| LargeSource (file : FileInfo)
| Sources (source : list FileInfo) (input_bytes : N).

(** The [for] of [compact_with_progress]. *)
Fixpoint select_loop (max_files max_input_bytes : N) (available source : list FileInfo) (input_bytes next : N) :
    Result Selection :=
  let selected := match source with [] => Nothing | _ => Sources source input_bytes end in
  match available with
  | [] => Ok selected
  | file :: available =>
      if fi_max file <? next then select_loop max_files max_input_bytes available source input_bytes next
      else if next <? fi_min file then match source with [] => Err Other | _ => Ok selected end
      else if (fi_size file <? 0)%Z then Err Other
      else if N.of_nat (length source) =? max_files then Ok selected
      else
        match checked_add input_bytes (Z.to_N (fi_size file)) with
        | None => Err Other
        | Some total =>
            if max_input_bytes <? total then match source with [] => Ok (LargeSource file) | _ => Ok selected end
            else if fi_max file =? u64_max then Ok (Sources (source ++ [file]) total)
            else select_loop max_files max_input_bytes available (source ++ [file]) total (sat_add (fi_max file) 1)
        end
  end.

(** [run_blocking(..).map_err(..)??]: a panic of the closure is an error of the
    caller. *)
Definition blocking {A} (r : Result A) : Result A :=
  match r with Err Panicked => Err Other | r => r end.

Definition SPOOL : N := 1048576.

Section Operations.
Context {S : Type} `{ReplicaClient S} `{Lz4Flex}.
Implicit Types (c : ReplicaCompactor) (s : S).

(** [ReplicaCompactor::verify_level]. *)
Definition verify_level c s (level : Z) : Result unit :=
  files ←? ltx_files s level 0;
  verify_files (rc_base c) files.

(** [compact_with_progress] up to the merge: the transaction the destination
    reaches, where the output starts, and what it takes. *)
Definition select_sources c s (level : Z) : Result (N * N * Selection) :=
  if negb ((1 <=? level) && (level <? Z.of_nat SNAPSHOT_LEVEL))%Z then Err Other
  else if (rc_max_files c =? 0) || (rc_max_input_bytes c =? 0) then Err Other
  else
    destination ←? ltx_files s level 0;
    _ ←? verify_files (rc_base c) destination;
    let previous_max := slice_max_txid destination in
    match checked_add previous_max 1 with
    | None => Ok (previous_max, previous_max, Nothing)
    | Some next =>
        let seek := N.max next (rc_base c) in
        let source_level := (level - 1)%Z in
        bounded ←? ltx_files_bounded s source_level seek (rc_max_files c);
        available ←? (if is_none_or (λ f, negb (fi_min f =? seek)) (head bounded)
                      then ltx_files s source_level 0 else Ok bounded);
        selection ←? select_loop (rc_max_files c) (rc_max_input_bytes c) (sort_by source_order available) [] 0 seek;
        Ok (previous_max, seek, selection)
    end.

(** The bytes of one source, and whether they are local. *)
Definition open_source c s (file : FileInfo) : Result (list N * N) :=
  let remote := bytes ←? open_ltx_file s (fi_level file) (fi_min file) (fi_max file); Ok (bytes, 0) in
  match rc_local c with
  | None => remote
  | Some read_file =>
      match read_file (fi_level file) (fi_min file) (fi_max file) with
      | LocalBytes bytes => Ok (bytes, 1)
      | LocalMissing => remote
      | LocalFailed => Err Io
      end
  end.

Fixpoint open_sources c s (files : list FileInfo) : Result (list (list N) * N) :=
  match files with
  | [] => Ok ([], 0)
  | file :: files =>
      r ←? open_source c s file;
      rs ←? open_sources c s files;
      Ok (r.1 :: rs.1, r.2 + rs.2)
  end.

(** The publication and the optional check after it. *)
Definition publish c (level : Z) (written : S * Result FileInfo) (input_files input_bytes local_input_files : N) :
    S * Result CompactionOutput :=
  let '(s, r) := written in
  (s, info ←? r;
      _ ←? (if rc_verify c then verify_level c s level else Ok tt);
      Ok (mkOutput info input_files input_bytes local_input_files)).

(** The merge of the selected sources. *)
Definition compact_sources c s (level : Z) (min_txid : N) (source : list FileInfo) (input_bytes : N) :
    S * Result CompactionOutput :=
  let max_txid := slice_max_txid source in
  let ranges := (λ f, (fi_min f, fi_max f)) <$> source in
  match open_sources c s source with
  | Err e => (s, Err e)
  | Ok (readers, local_input_files) =>
      match blocking (compact_from (plain_compactor readers) min_txid ranges) with
      | Err e => (s, Err e)
      | Ok compactor =>
          let header := e_header (cp_encoder compactor) in
          if negb (h_min_txid header =? min_txid) || negb (h_max_txid header =? max_txid) then (s, Err Other)
          else
            publish c level (write_ltx_file s level min_txid max_txid (e_writer (cp_encoder compactor)))
              (N.of_nat (length source)) input_bytes local_input_files
      end
  end.

(** The [while] of [compact_large_source] that spools a remote object. *)
Fixpoint spool (fuel : nat) s (source : FileInfo) (offset : N) (scratch : list N) : Result (list N) :=
  let size := Z.to_N (fi_size source) in
  match fuel with
  | O => Err Panicked
  | Datatypes.S fuel =>
      if offset <? size then
        let len := N.min (size - offset) SPOOL in
        bytes ←? read_range s (fi_level source) (fi_min source) (fi_max source) offset len;
        if negb (N.of_nat (length bytes) =? len) then Err Other
        else spool fuel s source (offset + len) (scratch ++ bytes)
      else Ok scratch
  end.

Definition spool_fuel (source : FileInfo) : nat := N.to_nat (Z.to_N (fi_size source) / SPOOL + 2).

(** The input of [compact_large_source] and whether it is local. *)
Definition open_large c s (source : FileInfo) : Result (list N * N) :=
  let remote := bytes ←? spool (spool_fuel source) s source 0 []; Ok (bytes, 0) in
  match rc_local c with
  | None => remote
  | Some open =>
      match open (fi_level source) (fi_min source) (fi_max source) with
      | LocalBytes bytes => Ok (bytes, 1)
      | LocalMissing => remote
      | LocalFailed => Err Io
      end
  end.

(** [ReplicaCompactor::compact_large_source]. *)
Definition compact_large_source c s (level : Z) (min : N) (source : FileInfo) : S * Result CompactionOutput :=
  match open_large c s source with
  | Err e => (s, Err e)
  | Ok (input, local_input_files) =>
      if negb (N.of_nat (length input) =? Z.to_N (fi_size source)) then (s, Err Other)
      else
        match blocking (compact_from (plain_compactor [input]) min [(fi_min source, fi_max source)]) with
        | Err e => (s, Err e)
        | Ok compactor =>
            publish c level (write_ltx_file_from_file s level min (fi_max source) (e_writer (cp_encoder compactor)))
              1 (Z.to_N (fi_size source)) local_input_files
        end
  end.

(** [ReplicaCompactor::compact_with_progress]. *)
Definition compact_with_progress c s (level : Z) : S * Result CompactionResult :=
  let finish (r : S * Result CompactionOutput) :=
    (r.1, output ←? r.2; Ok (mkCompactionResult (fi_max (co_info output)) (Some output))) in
  match select_sources c s level with
  | Err e => (s, Err e)
  | Ok (previous_max, _, Nothing) => (s, Ok (mkCompactionResult previous_max None))
  | Ok (_, seek, LargeSource file) => finish (compact_large_source c s level seek file)
  | Ok (_, seek, Sources source input_bytes) => finish (compact_sources c s level seek source input_bytes)
  end.
End Operations.

(** ** The store

    What a compaction relies on of a [ReplicaClient]: an object never changes
    once it is listed, a listing is the files of the level in order from the
    asked transaction on, and a write behind every listed transaction appends
    one object or, where it reports an error, possibly nothing. *)

Definition infos_from (seek : N) (files : list FileInfo) : list FileInfo := filter (λ f, seek ≤ fi_min f) files.

Class ReplicaClientLaws (S : Type) `{ReplicaClient S} := {
  listing : S → Z → list (FileInfo * list N);
  ltx_files_Ok s level seek files :
    ltx_files s level seek = Ok files → files = infos_from seek (listing s level).*1;
  ltx_files_bounded_Ok s level seek limit files :
    ltx_files_bounded s level seek limit = Ok files → files `prefix_of` infos_from seek (listing s level).*1;
  open_ltx_file_Ok s level f b bytes :
    (f, b) ∈ listing s level → open_ltx_file s level (fi_min f) (fi_max f) = Ok bytes → bytes = b;
  read_range_Ok s level f b offset len bytes :
    (f, b) ∈ listing s level → read_range s level (fi_min f) (fi_max f) offset len = Ok bytes →
    bytes = take (N.to_nat len) (drop (N.to_nat offset) b);
  write_appends s level min max data s' r :
    write_ltx_file s level min max data = (s', r)
    ∨ write_ltx_file_from_file s level min max data = (s', r) →
    (∀ f, f ∈ (listing s level).*1 → fi_max f < min) →
    (∀ l, l ≠ level → listing s' l = listing s l)
    ∧ ((listing s' level = listing s level ∧ is_ok r = false)
       ∨ ∃ info, listing s' level = listing s level ++ [(info, data)] ∧ (∀ i, r = Ok i → i = info)
                 ∧ fi_min info = min ∧ fi_max info = max ∧ fi_level info = level
                 ∧ fi_size info = Z.of_nat (length data));
}.

(** ** The selection *)

(** Each file continues the one before it. *)
Fixpoint follows (files : list FileInfo) : Prop :=
  match files with
  | a :: ((b :: _) as files) => fi_min b ≤ fi_max a + 1 ∧ fi_max a < fi_max b ∧ follows files
  | _ => True
  end.

Lemma follows_snoc files f :
  follows files → (∀ g, last files = Some g → fi_min f ≤ fi_max g + 1 ∧ fi_max g < fi_max f) → follows (files ++ [f]).
Proof.
  induction files as [|a files IH]; intros Hf Hl; [done|]. destruct files as [|b files].
  - destruct (Hl a eq_refl). by cbn.
  - destruct Hf as (? & ? & Hf). split_and!; [done..|]. apply IH; [done|]. intros g Hg. by apply Hl.
Qed.

Lemma foldl_max_follows m a files g :
  m ≤ fi_max a → follows (a :: files) → last (a :: files) = Some g →
  foldl (λ m f, N.max m (fi_max f)) m (a :: files) = fi_max g.
Proof.
  revert m a. induction files as [|b files IH]; intros m a Hm Hf Hg.
  - injection Hg as <-. cbn. lia.
  - destruct Hf as (_ & Hlt & Hf). change (foldl (λ m f, N.max m (fi_max f)) (N.max m (fi_max a)) (b :: files) = fi_max g).
    apply IH; [lia|done|done].
Qed.

Lemma follows_max a files g : follows (a :: files) → last (a :: files) = Some g → slice_max_txid (a :: files) = fi_max g.
Proof. intros. apply foldl_max_follows; [lia|done|done]. Qed.

Lemma foldl_max_ge m files : m ≤ foldl (λ m f, N.max m (fi_max f)) m files.
Proof. revert m. induction files as [|f files IH]; intros m; cbn; [lia|]. specialize (IH (N.max m (fi_max f))). lia. Qed.

Lemma slice_max_ge files f : f ∈ files → fi_max f ≤ slice_max_txid files.
Proof.
  unfold slice_max_txid. generalize 0. induction files as [|a files IH]; intros m Hf; [by apply elem_of_nil in Hf|].
  cbn. apply elem_of_cons in Hf as [->|Hf]; [|by apply IH].
  pose proof (foldl_max_ge (N.max m (fi_max a)) files). lia.
Qed.

(** The files taken so far: they cover the transactions from [seek] up to [next]. *)
Record taking (seek next : N) (source : list FileInfo) : Prop := mkTaking {
  tk_first : ∀ f, head source = Some f → fi_min f ≤ seek ≤ fi_max f;
  tk_next : next = match last source with None => seek | Some g => fi_max g + 1 end;
  tk_follows : follows source;
}.

Lemma taking_nil seek : taking seek seek [].
Proof. by split. Qed.

Lemma taking_snoc seek next source f :
  taking seek next source → fi_min f ≤ next → next ≤ fi_max f → taking seek (fi_max f + 1) (source ++ [f]).
Proof.
  intros [Hh Hn Hf] Hmin Hmax. split.
  - destruct source as [|a source]; [|apply Hh]. intros ? [= <-]. cbn in Hn. lia.
  - by rewrite last_snoc.
  - apply follows_snoc; [done|]. intros g Hg. rewrite Hg in Hn. lia.
Qed.

(** What a selection is. *)
Definition selection_ok (max_files max_input_bytes seek : N) (available : list FileInfo) (r : Selection) : Prop :=
  match r with
  | Nothing => Forall (λ f, fi_max f < seek) available
  | LargeSource f => f ∈ available ∧ fi_min f ≤ seek ≤ fi_max f ∧ 1 ≤ max_files
  | Sources source bytes =>
      source ≠ [] ∧ Forall (λ f, f ∈ available) source ∧ (∃ next, taking seek next source)
      ∧ N.of_nat (length source) ≤ max_files ∧ bytes ≤ max_input_bytes
  end.

Lemma select_loop_ok max_files max_input_bytes seek all available source bytes next r :
  0 < max_files → available ⊆ all → Forall (λ f, fi_max f < u64_max) all → Forall (λ f, f ∈ all) source →
  (source = [] → Forall (λ f, f ∈ available ∨ fi_max f < seek) all) →
  N.of_nat (length source) ≤ max_files → bytes ≤ max_input_bytes → taking seek next source →
  select_loop max_files max_input_bytes available source bytes next = Ok r →
  selection_ok max_files max_input_bytes seek all r.
Proof.
  intros Hmf. revert source bytes next. induction available as [|f available IH]; intros source bytes next Hsub Hmax Hsrc Hrest Hlen Hbytes Htk.
  - cbn. destruct source as [|a source]; intros [= <-]; cbn [selection_ok].
    + eapply Forall_impl; [by apply Hrest|]. intros x [Hx|Hx]; [by apply elem_of_nil in Hx|done].
    + split_and!; try done. by exists next.
  - assert (f ∈ all) as Hf by (apply Hsub; by left).
    assert (fi_max f < u64_max) as Hfm by (rewrite Forall_forall in Hmax; by apply Hmax).
    assert (selection_ok max_files max_input_bytes seek all
              (match source with [] => Nothing | _ => Sources source bytes end) ∨ source = []) as Hsel.
    { destruct source; [by right|left]. cbn [selection_ok]. split_and!; try done. by exists next. }
    cbn [select_loop]. destruct (N.ltb_spec (fi_max f) next) as [Hlt|Hge].
    { apply IH; try done; [set_solver|]. intros ->. specialize (Hrest eq_refl). eapply Forall_impl; [exact Hrest|].
      intros x [[->|Hx]%elem_of_cons|Hx]; [right|by left|by right].
      destruct Htk as [_ Hn _]. cbn in Hn. lia. }
    destruct (N.ltb_spec next (fi_min f)) as [Hgap|Hmin].
    { destruct source; [done|]. intros [= <-]. by destruct Hsel. }
    destruct (fi_size f <? 0)%Z; [done|].
    destruct (N.eqb_spec (N.of_nat (length source)) max_files) as [Hfull|Hroom].
    { intros [= <-]. destruct Hsel as [?|E]; [done|]. rewrite E in Hfull. cbn in Hfull. lia. }
    destruct (checked_add bytes _) as [total|]; [|done]. destruct (N.ltb_spec max_input_bytes total) as [Hbig|Hfit].
    { destruct source; intros [= <-]; [|by destruct Hsel]. split; [done|]. destruct Htk as [_ Hn _]. cbn in Hn. lia. }
    destruct (N.eqb_spec (fi_max f) u64_max) as [?|_]; [lia|].
    apply IH; try done.
    + set_solver.
    + apply Forall_app. by split; [|constructor].
    + intros E. by apply app_nil in E as [_ ?].
    + rewrite length_app. cbn. lia.
    + assert (sat_add (fi_max f) 1 = fi_max f + 1) as -> by (unfold sat_add; lia). by apply (taking_snoc seek next).
Qed.

(** ** The destination *)

Lemma contiguous_pairs_snoc files f :
  contiguous_pairs (files ++ [f])
  = contiguous_pairs files && match last files with None => true | Some g => bool_decide (checked_add (fi_max g) 1 = Some (fi_min f)) end.
Proof.
  induction files as [|a files IH]; [done|]. destruct files as [|b files]; [cbn; by rewrite andb_true_r|].
  change (bool_decide (checked_add (fi_max a) 1 = Some (fi_min b)) && contiguous_pairs ((b :: files) ++ [f])
          = bool_decide (checked_add (fi_max a) 1 = Some (fi_min b)) && contiguous_pairs (b :: files)
            && match last (b :: files) with None => true | Some g => bool_decide (checked_add (fi_max g) 1 = Some (fi_min f)) end).
  by rewrite IH, andb_assoc.
Qed.

(** What [verify_files] accepts. *)
Lemma verify_files_Ok base files :
  verify_files base files = Ok tt ↔
  (∀ f, head files = Some f → fi_min f = base) ∧ Forall (λ f, fi_min f ≤ fi_max f) files ∧ contiguous_pairs files = true.
Proof.
  unfold verify_files.
  assert (is_some_and (λ f, negb (fi_min f =? base)) (head files) = false ↔ ∀ f, head files = Some f → fi_min f = base) as H1.
  { destruct (head files) as [f|]; cbn; [|by split]. rewrite negb_false_iff, N.eqb_eq. split; [by intros ? ? [= <-]|by intros H; apply H]. }
  assert (existsb (λ f, fi_max f <? fi_min f) files = false ↔ Forall (λ f, fi_min f ≤ fi_max f) files) as H2.
  { induction files as [|f files IH]; cbn; [by split|]. rewrite orb_false_iff, Forall_cons, N.ltb_ge. rewrite IH; [done|].
    destruct files as [|x ?]; cbn; [by split|]. rewrite negb_false_iff, N.eqb_eq. split; [by intros ? ? [= <-]|by intros H; apply H]. }
  rewrite <- H1, <- H2. destruct (is_some_and _ _), (existsb _ _), (contiguous_pairs files); cbn; split; try done; by intros (? & ? & ?).
Qed.

Lemma contiguous_follows files :
  Forall (λ f, fi_min f ≤ fi_max f) files → contiguous_pairs files = true → follows files.
Proof.
  induction files as [|a files IH]; [done|]. intros [Ha Hfs]%Forall_cons. destruct files as [|b files]; [done|].
  intros [Hab%bool_decide_eq_true Hc]%andb_prop. apply checked_add_Some in Hab as [Hab _].
  pose proof Hfs as [Hb _]%Forall_cons. split_and!; [lia|lia|]. by apply IH.
Qed.

(** A file that starts where the destination ends continues it. *)
Lemma verify_extends base files f next :
  1 ≤ base → verify_files base files = Ok tt → checked_add (slice_max_txid files) 1 = Some next →
  fi_min f = N.max next base → fi_min f ≤ fi_max f → verify_files base (files ++ [f]) = Ok tt.
Proof.
  intros Hbase (Hh & Hle & Hc)%verify_files_Ok Hnext Hmin Hfle. apply verify_files_Ok.
  pose proof (contiguous_follows _ Hle Hc) as Hfol. split_and!.
  - destruct files as [|a files]; [|apply Hh]. intros ? [= <-]. apply checked_add_Some in Hnext as [Hnext _]. cbn in Hnext. lia.
  - apply Forall_app. by split; [|constructor].
  - rewrite contiguous_pairs_snoc, Hc. destruct (last files) as [g|] eqn:Hg; [|done]. apply bool_decide_eq_true.
    destruct files as [|a files]; [done|]. rewrite (follows_max a files g) in Hnext by done.
    rewrite Hnext, Hmin. apply checked_add_Some in Hnext as [Hnext _]. f_equal.
    assert (base ≤ fi_max g) as ?; [|lia]. rewrite <- (Hh a eq_refl), <- (follows_max a files g) by done.
    apply Forall_cons in Hle as [Ha _]. pose proof (slice_max_ge (a :: files) a ltac:(by left)). lia.
Qed.

(** ** The merge *)

Section Store.
Context {S : Type} `{client : ReplicaClient S} `{store : !ReplicaClientLaws S}.
Context `{flex : Lz4Flex} `{laws : !Lz4FlexLaws}.
Context (H : History).
Implicit Types (c : ReplicaCompactor) (s : S).

(** An object of a level: a file faithful to the history for the transactions
    its name gives. *)
Definition stored (level : Z) (o : FileInfo * list N) : Prop :=
  fi_level o.1 = level ∧ fi_size o.1 = Z.of_nat (length o.2) ∧ fi_max o.1 < u64_max
  ∧ ∃ i, o.2 = if_bytes i ∧ plain i ∧ file_range i = (fi_min o.1, fi_max o.1)
         ∧ faithful H (fi_min o.1) (fi_max o.1) (if_header i) (if_pages i).

Definition levels_ok s : Prop := ∀ level, Forall (stored level) (listing s level).

(** The local directory holds the objects of the store. *)
Definition local_ok c s : Prop :=
  ∀ read level f b bytes, rc_local c = Some read → (f, b) ∈ listing s level →
    read level (fi_min f) (fi_max f) = LocalBytes bytes → bytes = b.

Lemma stored_range level o : stored level o → fi_min o.1 ≤ fi_max o.1.
Proof.
  intros (_ & _ & _ & i & _ & Hp & [= <- <-] & _). by destruct (plain_valid i Hp) as (_ & _ & ? & _).
Qed.

(** The input file of a listed object. *)
Definition input_of (f : FileInfo) (i : InputFile) : Prop :=
  plain i ∧ file_range i = (fi_min f, fi_max f) ∧ fi_max f < u64_max
  ∧ faithful H (fi_min f) (fi_max f) (if_header i) (if_pages i).

Lemma open_source_bytes c s level f b bytes n :
  local_ok c s → (f, b) ∈ listing s level → fi_level f = level → open_source c s f = Ok (bytes, n) → bytes = b.
Proof.
  intros Hloc Hf Hl. unfold open_source. rewrite Hl.
  assert (∀ n, (bytes ←? open_ltx_file s level (fi_min f) (fi_max f); Ok (bytes, 0)) = Ok (bytes, n) → bytes = b) as Hopen.
  { intros n'. destruct (open_ltx_file _ _ _ _) as [x|] eqn:E; intros [= <- <-]. by eapply open_ltx_file_Ok. }
  destruct (rc_local c) as [read|] eqn:Er; [|apply Hopen].
  destruct (read level (fi_min f) (fi_max f)) as [x| |] eqn:Ex; [|apply Hopen|done].
  intros [= <- _]. by eapply Hloc.
Qed.

Lemma open_sources_bytes c s level source readers n :
  local_ok c s → Forall (stored level) (listing s level) → Forall (λ f, f ∈ (listing s level).*1) source →
  open_sources c s source = Ok (readers, n) →
  ∃ ins, readers = if_bytes <$> ins ∧ Forall2 input_of source ins.
Proof.
  intros Hloc Hst. revert readers n. induction source as [|f source IH]; intros readers n Hin; cbn [open_sources].
  { intros [= <- <-]. by exists []. }
  apply Forall_cons in Hin as [Hf Hin]. destruct (open_source c s f) as [[bytes k]|] eqn:Eo; [|done].
  destruct (open_sources c s source) as [[bs m]|] eqn:Es; [|done]. intros [= <- <-].
  destruct (IH _ _ Hin eq_refl) as (ins & -> & His). apply list_elem_of_fmap in Hf as ([f' b] & -> & Hf). cbn [fst] in *.
  rewrite Forall_forall in Hst. destruct (Hst _ Hf) as (Hl & _ & Hm & i & Hb & Hp & Hr & Hfa). cbn [fst snd] in *.
  exists (i :: ins). split; [|by constructor].
  rewrite fmap_cons. f_equal. rewrite <- Hb. by eapply open_source_bytes.
Qed.

Lemma inputs_chain source ins : Forall2 input_of source ins → follows source → chain ins.
Proof.
  induction 1 as [|f i source ins (Hp & Hr & _ & Hfa) His IH]; [done|].
  destruct His as [|g j source ins (Hp' & Hr' & _ & Hfa') His]; [done|]. intros (Hmin & Hmax & Hfol).
  injection Hr as E1 E2. injection Hr' as E3 E4. split; [by rewrite E2, E3|]. split; [by rewrite E2, E4|]. split; [|by apply IH].
  by rewrite (fa_page_size _ _ _ _ _ Hfa), (fa_page_size _ _ _ _ _ Hfa').
Qed.

Lemma inputs_ranges source ins : Forall2 input_of source ins → (λ f, (fi_min f, fi_max f)) <$> source = file_range <$> ins.
Proof. induction 1 as [|f i source ins (_ & Hr & _) _ IH]; [done|]. by rewrite !fmap_cons, IH, Hr. Qed.

(** The merge of files that continue one another from [min] on. *)
Lemma merge_inputs source ins min next :
  Forall2 input_of source ins → source ≠ [] → taking min next source →
  ∃ compactor i,
    compact_from (plain_compactor (if_bytes <$> ins)) min ((λ f, (fi_min f, fi_max f)) <$> source) = Ok compactor
    ∧ e_writer (cp_encoder compactor) = if_bytes i ∧ e_header (cp_encoder compactor) = if_header i ∧ plain i
    ∧ file_range i = (min, slice_max_txid source) ∧ min ≤ slice_max_txid source < u64_max
    ∧ faithful H min (slice_max_txid source) (if_header i) (if_pages i).
Proof.
  intros Hin Hne [Hh _ Hfol]. rewrite (inputs_ranges source ins Hin). pose proof (inputs_chain _ _ Hin Hfol) as Hc.
  destruct Hin as [|f i source ins Hf Hin]; [done|]. destruct (Hh f eq_refl) as [Hlo Hhi].
  assert (∃ g j, last (f :: source) = Some g ∧ last (i :: ins) = Some j ∧ input_of g j) as (g & j & Hg & Hj & Hgj).
  { clear -Hf Hin. revert f i Hf. induction Hin as [|x y xs ys Hxy Hin IH]; intros f i Hf; [by exists f, i|]. by apply (IH x y). }
  assert (Forall2 input_of (f :: source) (i :: ins)) as Hall by (by constructor).
  pose proof (slice_max_ge (f :: source) f ltac:(by left)) as Hge. rewrite (follows_max f source g) in * by done.
  assert (∀ P : InputFile → Prop, (∀ f i, input_of f i → P i) → Forall P (i :: ins)) as Heach.
  { intros P HP. clear -Hall HP. induction Hall; constructor; eauto. }
  destruct (compact_from_faithful H i ins j min) as (cp & k & Hcp & Hw & Hhd & Hk & Hr & Hfa); try done.
  - apply Heach. by intros ? ? (? & _).
  - apply Heach. intros x y (_ & [= _ ->] & ? & _). done.
  - apply Heach. by intros x y (_ & [= -> ->] & _ & ?).
  - destruct Hf as (_ & [= -> ->] & _). done.
  - destruct Hgj as (_ & [= _ Ej] & Hlt & _). rewrite Ej in *. exists cp, k. split_and!; try done. lia.
Qed.

Lemma spool_bytes fuel s level f b offset scratch bytes :
  (f, b) ∈ listing s level → fi_level f = level → fi_size f = Z.of_nat (length b) →
  scratch = take (N.to_nat offset) b → offset ≤ N.of_nat (length b) →
  spool fuel s f offset scratch = Ok bytes → bytes = b.
Proof.
  intros Hf Hl Hsz. revert offset scratch. induction fuel as [|fuel IH]; [done|]. intros offset scratch -> Hoff. cbn [spool].
  rewrite Hsz, Hl. replace (Z.to_N (Z.of_nat (length b))) with (N.of_nat (length b)) by lia.
  destruct (N.ltb_spec offset (N.of_nat (length b))) as [Hlt|Hge].
  - destruct (read_range _ _ _ _ _ _) as [x|] eqn:Er; [|done].
    apply (read_range_Ok s level f b) in Er as ->; [|done]. destruct (negb _); [done|].
    apply IH; [|lia]. rewrite N2Nat.inj_add, take_take_drop. done.
  - intros [= <-]. apply take_ge. lia.
Qed.

Lemma open_large_bytes c s level f b bytes n :
  local_ok c s → (f, b) ∈ listing s level → fi_level f = level → fi_size f = Z.of_nat (length b) →
  open_large c s f = Ok (bytes, n) → bytes = b.
Proof.
  intros Hloc Hf Hl Hsz. unfold open_large.
  assert (∀ n, (bytes ←? spool (spool_fuel f) s f 0 []; Ok (bytes, 0)) = Ok (bytes, n) → bytes = b) as Hspool.
  { intros n'. destruct (spool _ _ _ _ _) as [x|] eqn:E; intros [= <- <-]. eapply (spool_bytes _ s level f b 0 []); [done..|lia|exact E]. }
  destruct (rc_local c) as [read|] eqn:Er; [|apply Hspool]. rewrite Hl.
  destruct (read level (fi_min f) (fi_max f)) as [x| |] eqn:Ex; [|apply Hspool|done]. intros [= <- _]. by eapply Hloc.
Qed.

Definition infos s (level : Z) : list FileInfo := (listing s level).*1.

Lemma infos_from_0 files : infos_from 0 files = files.
Proof. unfold infos_from. induction files as [|f files IH]; [done|]. rewrite filter_cons_True by lia. by rewrite IH. Qed.

(** What an attempt that ends with [r] does to the store: nothing, or one object
    that continues the destination. *)
Definition extended c s (level : Z) s' (r : Result CompactionOutput) : Prop :=
  levels_ok s' ∧ (∀ l, l ≠ level → listing s' l = listing s l)
  ∧ ((listing s' level = listing s level ∧ is_ok r = false)
     ∨ ∃ o, listing s' level = listing s level ++ [o] ∧ verify_files (rc_base c) (infos s' level) = Ok tt
            ∧ fi_min o.1 = N.max (slice_max_txid (infos s level) + 1) (rc_base c)
            ∧ ∀ out, r = Ok out → co_info out = o.1).

Lemma extended_error c s level e : levels_ok s → extended c s level s (Err e).
Proof. intros Hs. split; [done|]. split; [done|]. by left. Qed.

(** Where the output of an attempt starts. *)
Definition starts c s (level : Z) (seek : N) : Prop :=
  1 ≤ rc_base c ∧ verify_files (rc_base c) (infos s level) = Ok tt
  ∧ ∃ next, checked_add (slice_max_txid (infos s level)) 1 = Some next ∧ seek = N.max next (rc_base c).

Lemma publish_extends c s level seek max i s1 r1 a b n s' r :
  levels_ok s → starts c s level seek → seek ≤ max < u64_max →
  plain i → file_range i = (seek, max) → faithful H seek max (if_header i) (if_pages i) →
  write_ltx_file s level seek max (if_bytes i) = (s1, r1)
  ∨ write_ltx_file_from_file s level seek max (if_bytes i) = (s1, r1) →
  publish c level (s1, r1) a b n = (s', r) → extended c s level s' r.
Proof.
  intros Hs (Hbase & Hver & next & Hnext & Hseek) Hmax Hi Hr Hfa Hw [= <- Er].
  destruct (write_appends s level seek max (if_bytes i) s1 r1 Hw) as [Hother Hhere].
  { intros f Hf. pose proof (slice_max_ge _ _ Hf). apply checked_add_Some in Hnext as [Hnext _]. unfold infos in Hnext. lia. }
  destruct Hhere as [[Esame Herr]|(info & Enew & Hok & Emin & Emax & Elev & Esz)].
  - split; [intros l; destruct (decide (l = level)) as [->|]; [rewrite Esame|rewrite Hother by done]; apply Hs|].
    split; [done|left]. split; [done|]. subst r. by destruct r1.
  - split; [|split; [done|right; exists (info, if_bytes i); split; [done|]; split; [|split]]].
    + intros l. destruct (decide (l = level)) as [->|]; [|rewrite Hother by done; apply Hs].
      rewrite Enew. apply Forall_app. split; [apply Hs|]. constructor; [|constructor].
      unfold stored. cbn [fst snd]. rewrite Emin, Emax. do 2 (split; [done|]). split; [lia|]. by exists i.
    + unfold infos. rewrite Enew, fmap_app. apply (verify_extends _ _ _ next); try done; cbn; [by rewrite Emin|lia].
    + cbn. rewrite Emin, Hseek. by apply checked_add_Some in Hnext as [-> _].
    + intros out ->. destruct r1 as [i1|]; [|done]. destruct (if rc_verify c then _ else _); [|done].
      injection Er as <-. by apply Hok.
Qed.

Lemma blocking_Ok {A} (x : A) : blocking (Ok x) = Ok x.
Proof. done. Qed.

Lemma compact_sources_extends c s level seek next source bytes s' r :
  levels_ok s → local_ok c s → starts c s level seek → source ≠ [] →
  Forall (λ f, f ∈ infos s (level - 1)) source → taking seek next source →
  compact_sources c s level seek source bytes = (s', r) → extended c s level s' r.
Proof.
  intros Hs Hloc Hst Hne Hin Htk. unfold compact_sources.
  destruct (open_sources c s source) as [[readers n]|e] eqn:Eo; [|intros [= <- <-]; by apply extended_error].
  destruct (open_sources_bytes c s _ _ _ _ Hloc (Hs _) Hin Eo) as (ins & -> & Hins).
  destruct (merge_inputs source ins seek next Hins Hne Htk) as (cp & i & Ec & Hw & Hhd & Hi & Hr & Hmax & Hfa).
  rewrite Ec, blocking_Ok, Hhd, Hw. pose proof Hr as Hr'. injection Hr' as -> ->. rewrite !N.eqb_refl. cbn [negb orb].
  destruct (write_ltx_file _ _ _ _ _) as [s1 r1] eqn:Ew. intros Hp. eapply publish_extends; eauto.
Qed.

(** The merge of one source. *)
Lemma merge_large s level f b seek :
  levels_ok s → (f, b) ∈ listing s level → fi_min f ≤ seek ≤ fi_max f →
  ∃ compactor i, compact_from (plain_compactor [b]) seek [(fi_min f, fi_max f)] = Ok compactor
    ∧ e_writer (cp_encoder compactor) = if_bytes i ∧ plain i ∧ file_range i = (seek, fi_max f)
    ∧ seek ≤ fi_max f < u64_max ∧ faithful H seek (fi_max f) (if_header i) (if_pages i).
Proof.
  intros Hs Hf Hseek. pose proof (Hs level) as Hst. rewrite Forall_forall in Hst.
  destruct (Hst _ Hf) as (_ & _ & Hm & i & Hb & Hp & Hr & Hfa). cbn [fst snd] in *.
  destruct (merge_inputs [f] [i] seek (fi_max f + 1)) as (cp & k & Ec & Hw & _ & Hk & Hkr & Hmax & Hkf).
  { by constructor. }
  { done. }
  { apply (taking_snoc seek seek []); [apply taking_nil|lia|lia]. }
  change (slice_max_txid [f]) with (N.max 0 (fi_max f)) in *. rewrite N.max_0_l in *. cbn [fmap list_fmap] in Ec.
  rewrite Hb. by exists cp, k.
Qed.

Lemma compact_large_extends c s level seek f s' r :
  levels_ok s → local_ok c s → starts c s level seek → f ∈ infos s (level - 1) → fi_min f ≤ seek ≤ fi_max f →
  compact_large_source c s level seek f = (s', r) → extended c s level s' r.
Proof.
  intros Hs Hloc Hst Hf Hseek. unfold compact_large_source.
  destruct (open_large c s f) as [[input n]|e] eqn:Eo; [|intros [= <- <-]; by apply extended_error].
  destruct (negb _); [intros [= <- <-]; by apply extended_error|].
  apply list_elem_of_fmap in Hf as ([f' b] & -> & Hf). cbn [fst] in *. pose proof (Hs (level - 1)%Z) as Hst1.
  rewrite Forall_forall in Hst1. destruct (Hst1 _ Hf) as (Hl & Hsz & _). cbn [fst snd] in *.
  apply (open_large_bytes c s (level - 1) f' b) in Eo as ->; [|done..].
  destruct (merge_large s (level - 1) f' b seek Hs Hf Hseek) as (cp & k & -> & Hw & Hk & Hkr & Hmax & Hkf).
  rewrite blocking_Ok, Hw. destruct (write_ltx_file_from_file _ _ _ _ _) as [s1 r1] eqn:Ew. intros Hpub.
  eapply publish_extends; eauto.
Qed.

Lemma select_sources_ok c s level previous seek sel :
  levels_ok s → 1 ≤ rc_base c → select_sources c s level = Ok (previous, seek, sel) →
  previous = slice_max_txid (infos s level)
  ∧ ((sel = Nothing ∧ u64_max ≤ previous)
     ∨ (starts c s level seek ∧ selection_ok (rc_max_files c) (rc_max_input_bytes c) seek (infos s (level - 1)) sel)).
Proof.
  intros Hs Hbase. unfold select_sources. destruct (negb _); [done|].
  destruct (N.eqb_spec (rc_max_files c) 0) as [|Hmf]; [done|]. destruct (rc_max_input_bytes c =? 0); [done|]. cbn [orb].
  destruct (ltx_files s level 0) as [dst|] eqn:Ed; [|done]. apply ltx_files_Ok in Ed. rewrite infos_from_0 in Ed. subst dst.
  fold (infos s level). destruct (verify_files _ _) as [[]|] eqn:Ev; [|done].
  destruct (checked_add _ _) as [next|] eqn:En.
  2:{ intros [= <- <- <-]. split; [done|left]. split; [done|]. unfold checked_add in En.
      destruct (N.leb_spec (slice_max_txid (infos s level) + 1) u64_max); [done|lia]. }
  set (sk := N.max next (rc_base c)). destruct (ltx_files_bounded _ _ _ _) as [bd|] eqn:Eb; [|done].
  apply ltx_files_bounded_Ok in Eb. fold (infos s (level - 1)) in Eb.
  assert (bd ⊆ infos s (level - 1)) as Hbd.
  { intros x Hx. eapply elem_of_prefix in Hx; [|exact Eb]. by apply list_elem_of_filter in Hx as [_ ?]. }
  assert (∀ x, x ∈ infos s (level - 1) → fi_min x ≤ fi_max x < u64_max) as Hrange.
  { intros x (o & -> & Ho)%list_elem_of_fmap. pose proof (Hs (level - 1)%Z) as Hl. rewrite Forall_forall in Hl.
    split; [by apply (stored_range (level - 1)), Hl|by destruct (Hl _ Ho) as (_ & _ & ? & _)]. }
  destruct (if is_none_or _ _ then _ else _) as [av|] eqn:Ea; [|done].
  destruct (select_loop _ _ _ _ _ _) as [sel'|] eqn:El; [|done]. intros [= <- <- ->]. split; [done|right].
  assert (starts c s level sk) as Hst by (split_and!; [done..|by exists next]). split; [done|].
  assert (av ⊆ infos s (level - 1) ∧ (Forall (λ f, fi_max f < sk) av → Forall (λ f, fi_max f < sk) (infos s (level - 1)))) as [Hav Hnone].
  { destruct bd as [|x bd]; cbn in Ea.
    - apply ltx_files_Ok in Ea. by rewrite infos_from_0 in Ea; subst av.
    - destruct (N.eqb_spec (fi_min x) sk) as [Ex|_]; cbn in Ea; [|apply ltx_files_Ok in Ea; by rewrite infos_from_0 in Ea; subst av].
      injection Ea as <-. split; [done|]. intros [Hx _]%Forall_cons. destruct (Hrange x); [set_solver|lia]. }
  assert (∀ x, x ∈ sort_by source_order av ↔ x ∈ av) as Hperm by (intros x; by rewrite sort_by_Permutation).
  apply (select_loop_ok _ _ sk (sort_by source_order av)) in El; [|lia|done| |constructor| |cbn; lia|lia|apply taking_nil].
  - destruct sel; cbn [selection_ok] in *.
    + apply Hnone, Forall_forall. intros x Hx. rewrite Forall_forall in El. by apply El, Hperm.
    + destruct El as [Hf ?]. split; [by apply Hav, Hperm|done].
    + destruct El as (? & Hin & ?). split; [done|]. split; [|done]. eapply Forall_impl; [exact Hin|]. intros x Hx. by apply Hav, Hperm.
  - apply Forall_forall. intros x Hx%Hperm%Hav. by apply Hrange.
  - intros _. apply Forall_forall. by left.
Qed.

Lemma publish_counts c level w a b n s' out :
  publish c level w a b n = (s', Ok out) → co_input_files out = a ∧ co_input_bytes out = b.
Proof. destruct w as [s1 [i|]]; cbn; [|done]. destruct (if rc_verify c then _ else _); [|done]. by intros [= _ <-]. Qed.

Lemma compact_sources_counts c s level seek source bytes s' out :
  compact_sources c s level seek source bytes = (s', Ok out) →
  co_input_files out = N.of_nat (length source) ∧ co_input_bytes out = bytes.
Proof.
  unfold compact_sources. destruct (open_sources c s source) as [[? ?]|]; [|done]. destruct (blocking _); [|done].
  destruct (negb _ || negb _); [done|]. apply publish_counts.
Qed.

Lemma compact_large_counts c s level seek f s' out :
  compact_large_source c s level seek f = (s', Ok out) → co_input_files out = 1.
Proof.
  unfold compact_large_source. destruct (open_large c s f) as [[? ?]|]; [|done]. destruct (negb _); [done|].
  destruct (blocking _); [|done]. by intros [? _]%publish_counts.
Qed.

(** What [compact_with_progress] reports of an attempt. *)
Definition reported c s (level : Z) s' (r : Result CompactionResult) : Prop :=
  levels_ok s' ∧ (∀ l, l ≠ level → listing s' l = listing s l)
  ∧ (listing s' level = listing s level
     ∨ ∃ o, listing s' level = listing s level ++ [o] ∧ verify_files (rc_base c) (infos s' level) = Ok tt)
  ∧ match r with
    | Err _ => True
    | Ok (mkCompactionResult covered None) =>
        s' = s ∧ ∀ f, f ∈ infos s (level - 1) → fi_max f ≤ covered ∨ fi_max f < rc_base c
    | Ok (mkCompactionResult covered (Some output)) =>
        last (infos s' level) = Some (co_info output) ∧ covered = fi_max (co_info output)
        ∧ co_input_files output ≤ rc_max_files c
        ∧ (co_input_bytes output ≤ rc_max_input_bytes c ∨ co_input_files output = 1)
    end.

Lemma extended_reported c s level s' r :
  extended c s level s' r →
  (∀ out, r = Ok out → co_input_files out ≤ rc_max_files c
                       ∧ (co_input_bytes out ≤ rc_max_input_bytes c ∨ co_input_files out = 1)) →
  reported c s level s' (output ←? r; Ok (mkCompactionResult (fi_max (co_info output)) (Some output))).
Proof.
  intros (Hs & Hother & Hhere) Hlim. split; [done|]. split; [done|].
  destruct Hhere as [[Esame Herr]|(o & Enew & Hver & _ & Hout)].
  - split; [by left|]. by destruct r.
  - split; [right; by exists o|]. destruct r as [out|]; [|done]. split; [|split; [done|by apply Hlim]].
    unfold infos. rewrite Enew, fmap_app, (Hout out eq_refl). apply last_snoc.
Qed.
End Store.

(** C11: an attempt of a compaction keeps the replica restorable, whatever the
    store answers and wherever the attempt fails.  Every object of every level
    stays a file faithful to the database's history for the transactions its
    name gives; the source levels do not change; and the destination is as it
    was, or has one more object that continues it without gap or overlap.  An
    attempt that reports an output published it, within its limits; one that
    reports no work leaves no listed transaction of the source uncovered. *)
Theorem compaction_keeps_levels {S : Type} `{client : ReplicaClient S} `{store : !ReplicaClientLaws S}
    `{flex : Lz4Flex} `{laws : !Lz4FlexLaws} (H : History) c (s : S) level s' r :
  levels_ok H s → local_ok c s → 1 ≤ rc_base c → compact_with_progress c s level = (s', r) →
  reported H c s level s' r.
Proof.
  intros Hs Hloc Hbase. unfold compact_with_progress.
  destruct (select_sources c s level) as [[[previous seek] sel]|e] eqn:Es; cycle 1.
  { intros [= <- <-]. split; [done|]. split; [done|]. split; [by left|done]. }
  destruct (select_sources_ok H c s level _ _ _ Hs Hbase Es) as [-> [[-> Hfull]|[Hst Hsel]]].
  - intros [= <- <-]. split; [done|]. split; [done|]. split; [by left|]. split; [done|].
    intros f (o & -> & Ho)%list_elem_of_fmap. left.
    pose proof (Hs (level - 1)%Z) as Hl. rewrite Forall_forall in Hl. destruct (Hl _ Ho) as (_ & _ & ? & _). lia.
  - destruct sel as [|f|source bytes]; cbn [selection_ok] in Hsel.
    + intros [= <- <-]. split; [done|]. split; [done|]. split; [by left|]. split; [done|]. intros f Hf.
      rewrite Forall_forall in Hsel. specialize (Hsel f Hf). destruct Hst as (_ & _ & next & Hn & ->).
      apply checked_add_Some in Hn as [-> _]. lia.
    + destruct (compact_large_source c s level seek f) as [s1 r1] eqn:El. intros [= <- <-]. destruct Hsel as (Hf & Hin & Hmf).
      apply extended_reported; [by eapply compact_large_extends|]. intros out ->.
      rewrite (compact_large_counts _ _ _ _ _ _ _ El). split; [done|by right].
    + destruct (compact_sources c s level seek source bytes) as [s1 r1] eqn:El. intros [= <- <-].
      destruct Hsel as (Hne & Hin & [next Htk] & Hlen & Hb).
      apply extended_reported; [by eapply compact_sources_extends|]. intros out ->.
      destruct (compact_sources_counts _ _ _ _ _ _ _ _ El) as [-> ->]. split; [done|by left].
Qed.

(** ** Progress *)

Definition min_le (a b : FileInfo) : Prop := fi_min a ≤ fi_min b.

#[local] Instance min_le_trans : Transitive min_le.
Proof. intros a b c. unfold min_le. lia. Qed.

Lemma sources_sorted files : StronglySorted min_le (sort_by source_order files).
Proof.
  apply sort_by_sorted; [apply _|..]; intros a b; unfold source_order, min_le; destruct (N.compare_spec (fi_min a) (fi_min b)); cbn; try lia; try done.
Qed.

(** The bytes of some files. *)
Definition volume (files : list FileInfo) : N := foldr (λ f n, Z.to_N (fi_size f) + n) 0 files.

Lemma volume_app l k : volume (l ++ k) = volume l + volume k.
Proof. induction l as [|f l IH]; [done|]. cbn. fold (volume (l ++ k)) (volume l). lia. Qed.

#[global] Instance volume_Permutation : Proper ((≡ₚ) ==> (=)) volume.
Proof. induction 1; cbn in *; unfold volume in *; lia. Qed.

Lemma volume_prefix l k : l `prefix_of` k → volume l ≤ volume k.
Proof. intros [m ->]. rewrite volume_app. lia. Qed.

Lemma volume_infos_from seek files : volume (infos_from seek files) ≤ volume files.
Proof.
  unfold infos_from. induction files as [|f files IH]; [done|].
  destruct (decide (seek ≤ fi_min f)); [rewrite filter_cons_True by done|rewrite filter_cons_False by done];
    unfold volume in *; cbn in *; lia.
Qed.

(** A listing with a file at [next] gives the selection something to take. *)
Lemma select_loop_takes max_files max_input_bytes available source bytes next :
  0 < max_files → StronglySorted min_le available → Forall (λ f, (0 ≤ fi_size f)%Z) available →
  bytes + volume available ≤ u64_max → (source = [] → ∃ f, f ∈ available ∧ fi_min f ≤ next ≤ fi_max f) →
  ∃ r, select_loop max_files max_input_bytes available source bytes next = Ok r ∧ r ≠ Nothing.
Proof.
  intros Hmf. revert source bytes next. induction available as [|f available IH]; intros source bytes next Hsort Hsz Hvol Hcov.
  { destruct source; [|by eexists]. by destruct (Hcov eq_refl) as (f & Hf%elem_of_nil & _). }
  apply StronglySorted_inv in Hsort as [Hsort Hmin]. apply Forall_cons in Hsz as [Hf Hsz].
  cbn in Hvol. fold (volume available) in Hvol. cbn [select_loop]. destruct (N.ltb_spec (fi_max f) next) as [Hlt|Hge].
  { apply IH; try done; [lia|]. intros Hs. destruct (Hcov Hs) as (g & [->|Hg]%elem_of_cons & ?); [lia|by exists g]. }
  destruct (N.ltb_spec next (fi_min f)) as [Hgap|Hle].
  { destruct source; [|by eexists]. destruct (Hcov eq_refl) as (g & [->|Hg]%elem_of_cons & ?); [lia|].
    rewrite Forall_forall in Hmin. specialize (Hmin g Hg). unfold min_le in Hmin. lia. }
  rewrite (proj2 (Z.ltb_ge _ _) Hf). destruct (N.eqb_spec (N.of_nat (length source)) max_files) as [Hfull|_].
  { destruct source; [cbn in Hfull; lia|by eexists]. }
  unfold checked_add. rewrite (proj2 (N.leb_le _ _)) by lia. destruct (max_input_bytes <? _); [destruct source; by eexists|].
  destruct (fi_max f =? u64_max); [by eexists|]. apply IH; try done; [lia|]. intros E. by apply app_nil in E as [_ ?].
Qed.

Section Progress.
Context {S : Type} `{client : ReplicaClient S} `{store : !ReplicaClientLaws S}.
Context `{flex : Lz4Flex} `{laws : !Lz4FlexLaws}.
Context (H : History).
Implicit Types (c : ReplicaCompactor) (s : S).

(** The store answers every call, and so does the local directory. *)
Record answers c s : Prop := mkAnswers {
  an_files : ∀ level seek, is_ok (ltx_files s level seek) = true;
  an_bounded : ∀ level seek limit, is_ok (ltx_files_bounded s level seek limit) = true;
  an_open : ∀ level f b, (f, b) ∈ listing s level → is_ok (open_ltx_file s level (fi_min f) (fi_max f)) = true;
  an_range : ∀ level f b offset len,
    (f, b) ∈ listing s level → is_ok (read_range s level (fi_min f) (fi_max f) offset len) = true;
  an_write : ∀ level min max data s' r,
    write_ltx_file s level min max data = (s', r) ∨ write_ltx_file_from_file s level min max data = (s', r) →
    is_ok r = true ∧ is_ok (ltx_files s' level 0) = true;
  an_local : ∀ read level min max, rc_local c = Some read → read level min max ≠ LocalFailed;
}.

Lemma is_ok_Ok {A E} (r : result A E) : is_ok r = true → ∃ x, r = Ok x.
Proof. destruct r; [by eexists|done]. Qed.

Lemma open_source_answers c s level f b :
  answers c s → (f, b) ∈ listing s level → fi_level f = level → is_ok (open_source c s f) = true.
Proof.
  intros Ha Hf Hl. unfold open_source. rewrite Hl. destruct (is_ok_Ok _ (an_open _ _ Ha level f b Hf)) as [x ->].
  destruct (rc_local c) as [read|] eqn:Er; [|done]. pose proof (an_local _ _ Ha read level (fi_min f) (fi_max f) Er).
  by destruct (read _ _ _).
Qed.

Lemma open_sources_answers c s level source :
  answers c s → Forall (stored H level) (listing s level) → Forall (λ f, f ∈ infos s level) source →
  is_ok (open_sources c s source) = true.
Proof.
  intros Ha Hst. induction 1 as [|f source Hf _ IH]; [done|]. cbn [open_sources].
  apply list_elem_of_fmap in Hf as ([f' b] & -> & Hf). cbn [fst]. rewrite Forall_forall in Hst.
  destruct (Hst _ Hf) as (Hl & _). destruct (is_ok_Ok _ (open_source_answers c s level f' b Ha Hf Hl)) as [x ->].
  by destruct (open_sources c s source).
Qed.

Lemma spool_answers c fuel s level f b offset scratch :
  answers c s → (f, b) ∈ listing s level → fi_level f = level → fi_size f = Z.of_nat (length b) →
  offset ≤ N.of_nat (length b) → (N.of_nat (length b) - offset + SPOOL - 1) / SPOOL < N.of_nat fuel →
  is_ok (spool fuel s f offset scratch) = true.
Proof.
  intros Ha Hf Hl Hsz. revert offset scratch. induction fuel as [|fuel IH]; intros offset scratch Hoff Hfuel; [lia|]. cbn [spool].
  rewrite Hsz, Hl. replace (Z.to_N (Z.of_nat (length b))) with (N.of_nat (length b)) by lia.
  destruct (N.ltb_spec offset (N.of_nat (length b))) as [Hlt|]; [|done].
  set (len := N.min (N.of_nat (length b) - offset) SPOOL).
  destruct (is_ok_Ok _ (an_range _ _ Ha level f b offset len Hf)) as [x Ex]. rewrite Ex.
  apply (read_range_Ok s level f b) in Ex as ->; [|done].
  rewrite length_take, length_drop. rewrite (proj2 (N.eqb_eq _ _)) by lia. cbn [negb].
  apply IH; [lia|]. unfold len, SPOOL in *. lia.
Qed.

Lemma open_large_answers c s level f b :
  answers c s → (f, b) ∈ listing s level → fi_level f = level → fi_size f = Z.of_nat (length b) →
  is_ok (open_large c s f) = true.
Proof.
  intros Ha Hf Hl Hsz. unfold open_large.
  assert (is_ok (spool (spool_fuel f) s f 0 []) = true) as Hsp.
  { apply (spool_answers c _ s level f b); try done; [lia|]. unfold spool_fuel, SPOOL. rewrite Hsz. lia. }
  destruct (is_ok_Ok _ Hsp) as [x ->]. destruct (rc_local c) as [read|] eqn:Er; [|done].
  pose proof (an_local _ _ Ha read (fi_level f) (fi_min f) (fi_max f) Er). by destruct (read _ _ _).
Qed.

(** A publication the store accepts passes the check after it. *)
Lemma publish_answers c s level seek max i s1 r1 a b n :
  answers c s → levels_ok H s → starts c s level seek → seek ≤ max < u64_max →
  plain i → file_range i = (seek, max) → faithful H seek max (if_header i) (if_pages i) →
  write_ltx_file s level seek max (if_bytes i) = (s1, r1)
  ∨ write_ltx_file_from_file s level seek max (if_bytes i) = (s1, r1) →
  ∃ out, publish c level (s1, r1) a b n = (s1, Ok out).
Proof.
  intros Ha Hs Hst Hmax Hi Hr Hfa Hw. destruct (an_write _ _ Ha level seek max (if_bytes i) s1 r1 Hw) as [Hok Hl].
  destruct (is_ok_Ok _ Hok) as [info ->], (is_ok_Ok _ Hl) as [fs Efs]. cbn [publish].
  set (c' := mkReplicaCompactor false (rc_max_files c) (rc_max_input_bytes c) (rc_base c) (rc_local c)).
  destruct (publish_extends H c' s level seek max i s1 (Ok info) a b n s1 (Ok (mkOutput info a b n)))
    as (_ & _ & [[_ ?]|(o & _ & Hver & _)]); try done.
  unfold verify_level. rewrite Efs. apply ltx_files_Ok in Efs as ->. rewrite infos_from_0.
  change (rc_base c) with (rc_base c'). fold (infos s1 level). rewrite Hver. destruct (rc_verify c); by eexists.
Qed.

Lemma compact_sources_answers c s level seek next source bytes :
  answers c s → levels_ok H s → local_ok c s → starts c s level seek → source ≠ [] →
  Forall (λ f, f ∈ infos s (level - 1)) source → taking seek next source →
  ∃ s' out, compact_sources c s level seek source bytes = (s', Ok out).
Proof.
  intros Ha Hs Hloc Hst Hne Hin Htk. unfold compact_sources.
  destruct (is_ok_Ok _ (open_sources_answers c s _ source Ha (Hs _) Hin)) as [[readers n] Eo]. rewrite Eo.
  destruct (open_sources_bytes H c s _ _ _ _ Hloc (Hs _) Hin Eo) as (ins & -> & Hins).
  destruct (merge_inputs H source ins seek next Hins Hne Htk) as (cp & i & Ec & Hw & Hhd & Hi & Hr & Hmax & Hfa).
  rewrite Ec, blocking_Ok, Hhd, Hw. pose proof Hr as Hr'. injection Hr' as -> ->. rewrite !N.eqb_refl. cbn [negb orb].
  destruct (write_ltx_file _ _ _ _ _) as [s1 r1] eqn:Ew. exists s1.
  eapply publish_answers; [done..|]. left. exact Ew.
Qed.

Lemma compact_large_answers c s level seek f :
  answers c s → levels_ok H s → local_ok c s → starts c s level seek → f ∈ infos s (level - 1) →
  fi_min f ≤ seek ≤ fi_max f → ∃ s' out, compact_large_source c s level seek f = (s', Ok out).
Proof.
  intros Ha Hs Hloc Hst Hf Hseek. unfold compact_large_source.
  apply list_elem_of_fmap in Hf as ([f' b] & -> & Hf). cbn [fst] in *. pose proof (Hs (level - 1)%Z) as Hst1.
  rewrite Forall_forall in Hst1. destruct (Hst1 _ Hf) as (Hl & Hsz & _). cbn [fst snd] in *.
  destruct (is_ok_Ok _ (open_large_answers c s _ f' b Ha Hf Hl Hsz)) as [[input n] Eo]. rewrite Eo.
  apply (open_large_bytes c s (level - 1) f' b) in Eo as ->; [|done..].
  rewrite Hsz, (proj2 (N.eqb_eq _ _)) by lia. cbn [negb].
  destruct (merge_large H s (level - 1) f' b seek Hs Hf Hseek) as (cp & k & -> & Hw & Hk & Hkr & Hmax & Hkf).
  rewrite blocking_Ok, Hw. destruct (write_ltx_file_from_file _ _ _ _ _) as [s1 r1] eqn:Ew. exists s1.
  eapply publish_answers; [done..|]. right. exact Ew.
Qed.

Lemma select_sources_answers c s level f :
  let seek := N.max (slice_max_txid (infos s level) + 1) (rc_base c) in
  answers c s → levels_ok H s → (1 ≤ level < Z.of_nat SNAPSHOT_LEVEL)%Z → 0 < rc_max_files c → 0 < rc_max_input_bytes c →
  verify_files (rc_base c) (infos s level) = Ok tt → volume (infos s (level - 1)) ≤ u64_max →
  f ∈ infos s (level - 1) → fi_min f ≤ seek ≤ fi_max f →
  ∃ previous sel, select_sources c s level = Ok (previous, seek, sel) ∧ sel ≠ Nothing.
Proof.
  intros seek Ha Hs Hlevel Hmf Hmb Hver Hvol Hf Hseek. unfold select_sources.
  rewrite (proj2 (Z.leb_le _ _)), (proj2 (Z.ltb_lt _ _)) by lia.
  rewrite (proj2 (N.eqb_neq (rc_max_files c) 0)), (proj2 (N.eqb_neq (rc_max_input_bytes c) 0)) by lia. cbn [andb negb orb].
  destruct (is_ok_Ok _ (an_files _ _ Ha level 0)) as [dst Ed]. rewrite Ed. apply ltx_files_Ok in Ed as ->.
  rewrite infos_from_0. fold (infos s level). rewrite Hver.
  assert (fi_max f < u64_max ∧ Forall (λ f, (0 ≤ fi_size f)%Z ∧ fi_min f ≤ fi_max f) (infos s (level - 1))) as [Hfm Hsz].
  { pose proof (Hs (level - 1)%Z) as Hl. rewrite Forall_forall in Hl. split.
    - apply list_elem_of_fmap in Hf as (o & -> & Ho). by destruct (Hl _ Ho) as (_ & _ & ? & _).
    - apply Forall_forall. intros x (o & -> & Ho)%list_elem_of_fmap. split; [|by apply (stored_range H (level - 1)), Hl].
      destruct (Hl _ Ho) as (_ & -> & _). lia. }
  unfold checked_add. rewrite (proj2 (N.leb_le _ _)) by lia. fold seek.
  destruct (is_ok_Ok _ (an_bounded _ _ Ha (level - 1)%Z seek (rc_max_files c))) as [bd Eb]. rewrite Eb.
  apply ltx_files_bounded_Ok in Eb. destruct (is_ok_Ok _ (an_files _ _ Ha (level - 1)%Z 0)) as [whole Ew].
  rewrite Ew. apply ltx_files_Ok in Ew as ->. rewrite infos_from_0. fold (infos s (level - 1)) in *.
  assert (bd ⊆ infos s (level - 1) ∧ volume bd ≤ u64_max) as [Hbd Hbv].
  { split; [|pose proof (volume_prefix _ _ Eb); pose proof (volume_infos_from seek (infos s (level - 1))); lia].
    intros x Hx. eapply elem_of_prefix in Hx; [|exact Eb]. by apply list_elem_of_filter in Hx as [_ ?]. }
  assert (∀ av, av ⊆ infos s (level - 1) → volume av ≤ u64_max → (∃ g, g ∈ av ∧ fi_min g ≤ seek ≤ fi_max g) →
    ∃ r, select_loop (rc_max_files c) (rc_max_input_bytes c) (sort_by source_order av) [] 0 seek = Ok r ∧ r ≠ Nothing) as Hrun.
  { intros av Hav Hvv (g & Hg & Hgs). apply select_loop_takes; [done|apply sources_sorted|..].
    - apply Forall_forall. intros x Hx. rewrite sort_by_Permutation in Hx. rewrite Forall_forall in Hsz. by apply Hsz, Hav.
    - rewrite sort_by_Permutation. lia.
    - intros _. exists g. by rewrite sort_by_Permutation. }
  destruct (is_none_or _ _) eqn:Ec; cbv iota.
  - destruct (Hrun (infos s (level - 1))) as (r & -> & ?); [done|done|by exists f|by eexists _, r].
  - destruct bd as [|x bd]; [done|]. cbn in Ec. apply negb_false_iff, N.eqb_eq in Ec.
    destruct (Hrun (x :: bd)) as (r & -> & ?); [done|done| |by eexists _, r].
    exists x. rewrite Forall_forall in Hsz. destruct (Hsz x); [apply Hbd; by left|]. split; [by left|lia].
Qed.
End Progress.


(** ** A store in memory *)

Definition memory : Type := list (Z * (FileInfo * list N)).

Definition memory_listing (s : memory) (level : Z) : list (FileInfo * list N) := (filter (λ o, o.1 = level) s).*2.

Definition memory_find (s : memory) (level : Z) (min max : N) : Result (list N) :=
  match filter (λ o, fi_min o.1 = min ∧ fi_max o.1 = max) (memory_listing s level) with
  | [(_, bytes)] => Ok bytes
  | _ => Err Io
  end.

Definition memory_write (s : memory) (level : Z) (min max : N) (data : list N) : memory * Result FileInfo :=
  let info := mkFileInfo level min max 0 0 (Z.of_nat (length data)) None in
  (s ++ [(level, (info, data))], Ok info).

#[global] Instance memory_client : ReplicaClient memory := {|
  ltx_files s level seek := Ok (infos_from seek (memory_listing s level).*1);
  ltx_files_bounded s level seek limit := Ok (take (N.to_nat limit) (infos_from seek (memory_listing s level).*1));
  open_ltx_file := memory_find;
  read_range s level min max offset len :=
    bytes ←? memory_find s level min max; Ok (take (N.to_nat len) (drop (N.to_nat offset) bytes));
  write_ltx_file := memory_write;
  write_ltx_file_from_file := memory_write;
|}.

Lemma memory_find_Ok s level f b bytes :
  (f, b) ∈ memory_listing s level → memory_find s level (fi_min f) (fi_max f) = Ok bytes → bytes = b.
Proof.
  intros Hf. unfold memory_find.
  assert ((f, b) ∈ filter (λ o, fi_min o.1 = fi_min f ∧ fi_max o.1 = fi_max f) (memory_listing s level)) as Hin
    by (by apply list_elem_of_filter).
  destruct (filter _ _) as [|[x y] [|? ?]]; [done| |done].
  apply list_elem_of_singleton in Hin as [= _ ->]. by intros [= <-].
Qed.

Lemma memory_listing_app s level o l :
  memory_listing (s ++ [(level, o)]) l = memory_listing s l ++ (if decide (level = l) then [o] else []).
Proof.
  unfold memory_listing, memory in *. rewrite (filter_app _ s [(level, o)]), fmap_app. f_equal. destruct (decide (level = l)).
  - by rewrite filter_cons_True.
  - by rewrite filter_cons_False.
Qed.

#[global, program] Instance memory_laws : ReplicaClientLaws memory := {| listing := memory_listing |}.
Next Obligation. by intros s level seek files [= <-]. Qed.
Next Obligation. intros s level seek limit files [= <-]. apply prefix_take. Qed.
Next Obligation. exact memory_find_Ok. Qed.
Next Obligation.
  intros s level f b offset len bytes Hf. cbn. destruct (memory_find _ _ _ _) as [x|] eqn:E; [|done]. intros [= <-].
  by rewrite (memory_find_Ok s level f b x Hf E).
Qed.
Next Obligation.
  intros s level min max data s' r Hw _. assert (memory_write s level min max data = (s', r)) as [= <- <-] by by destruct Hw.
  split; [intros l Hl; rewrite memory_listing_app, decide_False by done; by rewrite app_nil_r|right].
  eexists. rewrite memory_listing_app, decide_True by done. split; [done|]. split; [by intros i [= <-]|done].
Qed.

(** Two transactions at level 0, and a compactor for them. *)
Definition memory_object (i : InputFile) : Z * (FileInfo * list N) :=
  (0%Z, (mkFileInfo 0 (file_range i).1 (file_range i).2 0 0 (Z.of_nat (length (if_bytes i))) None, if_bytes i)).

Definition sample_memory : memory := [memory_object sample_first; memory_object sample_second].
Definition sample_compactor : ReplicaCompactor := mkReplicaCompactor true 10 100000 1 None.

Lemma sample_listing_level level o :
  o ∈ memory_listing sample_memory level →
  level = 0%Z ∧ (o = (memory_object sample_first).2 ∨ o = (memory_object sample_second).2).
Proof.
  intros ([l o'] & -> & [Hl Hin]%list_elem_of_filter)%list_elem_of_fmap. cbn [fst] in Hl. subst l.
  unfold sample_memory in Hin. rewrite !elem_of_cons in Hin.
  destruct Hin as [E|[E|Hin%elem_of_nil]]; [..|done];
    (split; [exact (f_equal fst E)|]); [left|right]; exact (f_equal snd E).
Qed.

Lemma sample_levels_stored : levels_ok sample_history sample_memory.
Proof.
  destruct sample_faithful as [F1 F2]. pose proof sample_plain as [P1 [P2 _]%Forall_cons]%Forall_cons.
  intros level. apply Forall_forall. intros o [-> [->| ->]]%sample_listing_level; (split; [done|]; split; [done|]; split; [done|]).
  - exact (ex_intro _ sample_first (conj eq_refl (conj P1 (conj eq_refl F1)))).
  - exact (ex_intro _ sample_second (conj eq_refl (conj P2 (conj eq_refl F2)))).
Qed.

Lemma sample_local : local_ok sample_compactor sample_memory.
Proof. done. Qed.

Lemma sample_answers : answers sample_compactor sample_memory.
Proof.
  split; try done.
  - intros level f b [-> [E|E]]%sample_listing_level; apply (f_equal fst) in E; change f with (f, b).1; rewrite E; reflexivity.
  - intros level f b offset len [-> [E|E]]%sample_listing_level; apply (f_equal fst) in E; change f with (f, b).1; rewrite E; reflexivity.
  - intros level min max data s' r Hw.
    assert (memory_write sample_memory level min max data = (s', r)) as [= <- <-] by by destruct Hw. done.
Qed.

Lemma compaction_keeps_levels_witness :
  let run := compact_with_progress sample_compactor sample_memory 1 in
  reported sample_history sample_compactor sample_memory 1 run.1 run.2.
Proof.
  intros run. apply (compaction_keeps_levels sample_history sample_compactor sample_memory 1 run.1 run.2).
  - exact sample_levels_stored.
  - exact sample_local.
  - done.
  - apply surjective_pairing.
Defined.

