(* ===== verification/Paged.v ===== *)
(** * Paged restore

    Models [crates/ltx/src/paged.rs]: the page index of an object read from its
    tail, the page map of a restore plan, the read of a run of pages, what a
    fault brings along, and the routing of a read to the epoch that holds the
    object.  A ranged read of an object is a parameter.  Arithmetic wraps, as in
    the release profile; an index out of range is [Panicked]. *)

From Stdlib Require Import ZifyN ZifyNat.
From S2P Require Import Prelude Bytes Lz4 Restore Ltx Codec Image Compact.

Definition TAIL_FETCH_BYTES : N := 262144.
Definition INDEX_LEN_FIELD : N := 8.
Definition READAHEAD_BYTES : N := 1048576.
Definition SCAN_AHEAD : nat := 64.
Definition PREFETCH_WORKERS : nat := 64.

#[global] Instance FileInfo_eq_dec : EqDecision FileInfo.
Proof. solve_decision. Defined.

(** [&bytes[lo..hi]]. *)
Definition slice (bytes : list N) (lo hi : N) : Result (list N) :=
  if (hi <? lo) || (N.of_nat (length bytes) <? hi) then Err Panicked
  else Ok (take (N.to_nat (hi - lo)) (drop (N.to_nat lo) bytes)).

(** [bytes.get(lo..hi)]. *)
Definition get_range (bytes : list N) (lo hi : nat) : option (list N) :=
  if Nat.ltb (length bytes) hi then None else Some (take (hi - lo) (drop lo bytes)).

(** [PageLocator] and [PageMap]. *)
Record PageLocator := mkLocator {
  pl_info : FileInfo;
  pl_offset : N;
  pl_size : N;
}.

Record PageMap := mkPageMap {
  pm_page_size : N;
  pm_commit : N;
  pm_pages : gmap N PageLocator;
}.

(** [Scan] and [PageSource]. *)
Record Scan := mkScan {
  sc_children : gset N;
  sc_last : option N;
}.

Record PageSource := mkSource {
  ps_map : PageMap;
  ps_scan : Scan;
  ps_faults : N;
}.

Definition page_source_new (map : PageMap) : PageSource := mkSource map (mkScan ∅ None) 0.

(** [prefetch_plan]: the children an interior page names. *)
Fixpoint cell_children (page : list N) (ptrs : nat) (cells : nat) : list N :=
  match cells with
  | O => []
  | S cells =>
      match get_range page ptrs (ptrs + 2) with
      | None => []
      | Some at_bytes =>
          let at_ := N.to_nat (big_endian at_bytes) in
          match get_range page at_ (at_ + 4) with
          | None => []
          | Some child => big_endian child :: cell_children page (ptrs + 2) cells
          end
      end
  end.

Definition prefetch_plan (pgno : N) (page : list N) : list N :=
  let base := if pgno =? 1 then 100%nat else 0%nat in
  match get_range page base (base + 12) with
  | None => []
  | Some head =>
      if negb (nth 0 head 0 =? 5) && negb (nth 0 head 0 =? 2) then []
      else
        let cells := N.to_nat (big_endian (take 2 (drop 3 head))) in
        cell_children page (base + 12) cells ++ [big_endian (take 4 (drop 8 head))]
  end.

(** [slice::chunks]. *)
Fixpoint chunks_loop {A} (fuel n : nat) (l : list A) : list (list A) :=
  match fuel, l with
  | S fuel, _ :: _ => take n l :: chunks_loop fuel n (drop n l)
  | _, _ => []
  end.
Definition chunks {A} (n : nat) (l : list A) : list (list A) := chunks_loop (length l) n l.

(** The children that continue [first], [first + 1], .. in a chunk. *)
Fixpoint consecutive (first : N) (rest : list N) : nat :=
  match rest with
  | p :: rest => if p =? u32_wrap (first + 1) then S (consecutive p rest) else O
  | [] => O
  end.

Section Operations.
Context `{Lz4Flex}.
(** A ranged read of an object. *)
Variable read_range : FileInfo → N → N → Result (list N).

(** [fetch_page_index]. *)
Definition fetch_page_index (info : FileInfo) : Result (list (N * N * N)) :=
  if (fi_size info <? 0)%Z then Err LTXCorrupted
  else
    let size := Z.to_N (fi_size info) in
    let footer := INDEX_LEN_FIELD + N.of_nat TRAILER_SIZE in
    if size <? footer then Err LTXCorrupted
    else
      let tail_len := N.min TAIL_FETCH_BYTES size in
      let tail_start := size - tail_len in
      tail ←? read_range info tail_start tail_len;
      if N.of_nat (length tail) <? footer then Err LTXCorrupted
      else
        let field_at := N.of_nat (length tail) - N.of_nat TRAILER_SIZE - INDEX_LEN_FIELD in
        field ←? slice tail field_at (field_at + INDEX_LEN_FIELD);
        let index_len := big_endian field in
        let index_end := size - footer in
        if index_end <? index_len then Err LTXCorrupted
        else
          let index_start := index_end - index_len in
          if tail_start <=? index_start then
            index ←? slice tail (index_start - tail_start) (index_end - tail_start);
            decode_page_index index
          else
            index ←? read_range info index_start index_len;
            decode_page_index index.

(** The insertions of [build_page_map] for one object. *)
Definition put_index (commit : N) (info : FileInfo) (pages : gmap N PageLocator) (index : list (N * N * N)) :
    gmap N PageLocator :=
  foldl (λ (m : gmap N PageLocator) '(pgno, offset, size), <[pgno := mkLocator info offset size]> m) pages
    (filter (λ '(pgno, _, _), pgno ≤ commit) index).

Fixpoint put_indexes (commit : N) (pages : gmap N PageLocator) (plan : list FileInfo) : Result (gmap N PageLocator) :=
  match plan with
  | [] => Ok pages
  | info :: plan =>
      index ←? fetch_page_index info;
      put_indexes commit (put_index commit info pages index) plan
  end.

(** [build_page_map]. *)
Definition build_page_map (plan : list FileInfo) : Result PageMap :=
  match last plan with
  | None => Err TxNotAvailable
  | Some newest =>
      header_bytes ←? read_range newest 0 (N.of_nat HEADER_SIZE);
      header ←? header_parse header_bytes;
      pages ←? put_indexes (h_commit header) ∅ plan;
      Ok (mkPageMap (h_page_size header) (h_commit header) pages)
  end.

(** [PageMap::read_page]. *)
Definition read_page (map : PageMap) (pgno : N) : Result (option (list N)) :=
  match pm_pages map !! pgno with
  | None => Ok None
  | Some loc =>
      frame ←? read_range (pl_info loc) (pl_offset loc) (pl_size loc);
      page ←? decode_page_frame_of frame (N.to_nat (pm_page_size map)) pgno;
      Ok (Some page)
  end.

(** The [while] of [read_run_sync]: the pages after [pgno] of the run and the
    end of their frames. *)
Fixpoint extend_run (fuel : nat) (map : PageMap) (first : PageLocator) (pgno max_pages last end_ : N) :
    Result (N * N) :=
  match fuel with
  | O => Err Panicked
  | S fuel =>
      match pm_pages map !! u32_wrap (last + 1) with
      | None => Ok (last, end_)
      | Some next =>
          let adjacent := bool_decide (pl_info next = pl_info first) && (pl_offset next =? end_) in
          if negb adjacent || (max_pages <=? u32_wrap (last + 1 + (4294967296 - pgno))) then Ok (last, end_)
          else extend_run fuel map first pgno max_pages (u32_wrap (last + 1)) (wrap_add end_ (pl_size next))
      end
  end.

(** The [for] of [read_run_sync]. *)
Fixpoint decode_run (map : PageMap) (bytes : list N) (at_ : N) (pgnos : list N) : Result (list (N * list N)) :=
  match pgnos with
  | [] => Ok []
  | pgno :: pgnos =>
      match pm_pages map !! pgno with
      | None => Err Panicked
      | Some loc =>
          frame ←? slice bytes at_ (at_ + pl_size loc);
          page ←? decode_page_frame_of frame (N.to_nat (pm_page_size map)) pgno;
          run ←? decode_run map bytes (at_ + pl_size loc) pgnos;
          Ok ((pgno, page) :: run)
      end
  end.

(** [PageMap::read_run_sync]. *)
Definition read_run_sync (map : PageMap) (pgno max_bytes : N) : Result (list (N * list N)) :=
  match pm_pages map !! pgno with
  | None => Ok []
  | Some first =>
      if pm_page_size map =? 0 then Err Panicked
      else
        let max_pages := u32_wrap (N.max (max_bytes / pm_page_size map) 1) in
        run ←? extend_run (S (size (pm_pages map))) map first pgno max_pages pgno
                 (wrap_add (pl_offset first) (pl_size first));
        let '(last, end_) := run in
        let len := wrap_add end_ (18446744073709551616 - pl_offset first) in
        bytes ←? read_range (pl_info first) (pl_offset first) len;
        if N.of_nat (length bytes) <? len then Err LTXCorrupted
        else decode_run map bytes 0 (page_range pgno last)
  end.

(** The children a fault takes from the scan: [None] for a page that is not a
    child. *)
Definition take_ahead (scan : Scan) (pgno : N) : Scan * option (list N) :=
  if bool_decide (pgno ∈ sc_children scan) then
    let children := sc_children scan ∖ {[pgno]} in
    let sequential :=
      is_some_and (λ last, (last <? pgno)
                           && negb (existsb (λ p, (last <? p) && (p <? pgno)) (members children))) (sc_last scan) in
    let next := if sequential then take SCAN_AHEAD (filter (λ p, pgno < p) (members children)) else [] in
    (mkScan (children ∖ list_to_set next) (Some pgno), Some next)
  else (scan, None).

(** One worker: the pages of a chunk; [None] where it panics. *)
Fixpoint fetch_chunk (fuel : nat) (map : PageMap) (chunk : list N) : option (list (N * list N)) :=
  match fuel, chunk with
  | S fuel, first :: rest =>
      let len := S (consecutive first rest) in
      match read_run_sync map first (N.of_nat len * pm_page_size map) with
      | Err Panicked => None
      | r =>
          let got := match r with Ok got => got | Err _ => [] end in
          pages ← fetch_chunk fuel map (drop (Nat.max (length got) 1) chunk);
          Some (got ++ pages)
      end
  | _, _ => Some []
  end.

Definition fetch_ahead (map : PageMap) (wanted : list N) : list (N * list N) :=
  let n := Nat.max ((length wanted + PREFETCH_WORKERS - 1) / PREFETCH_WORKERS) 1 in
  mjoin (omap (λ chunk, fetch_chunk (length chunk) map chunk) (chunks n wanted)).

(** The delivered pages and what they name. *)
Definition deliver (children : gset N) (run : list (N * list N)) : gset N :=
  foldl (λ (c : gset N) '(p, page), (c ∖ {[p]}) ∪ list_to_set (prefetch_plan p page)) children run.

(** [PageSource::read_run_blocking]. *)
Definition read_run_blocking (source : PageSource) (pgno : N) : PageSource * Result (list (N * list N)) :=
  let map := ps_map source in
  let '(scan, ahead) := take_ahead (ps_scan source) pgno in
  let faults := wrap_add (ps_faults source) 1 in
  match read_run_sync map pgno (match ahead with Some _ => pm_page_size map | None => READAHEAD_BYTES end) with
  | Err e => (mkSource map scan faults, Err e)
  | Ok [] => (mkSource map scan faults, Ok [])
  | Ok run =>
      let '(children, run) :=
        match ahead with
        | Some ((_ :: _) as wanted) =>
            let fetched := fetch_ahead map wanted in
            (sc_children scan ∪ list_to_set (filter (λ p, p ∉ fetched.*1) wanted), run ++ fetched)
        | _ => (sc_children scan, run)
        end in
      (mkSource map (mkScan (deliver children run) (sc_last scan)) faults, Ok run)
  end.

(** [PageSource::read_page_blocking]. *)
Definition read_page_blocking (source : PageSource) (pgno : N) : PageSource * Result (option (list N)) :=
  let '(source, r) := read_run_blocking source pgno in
  (source, run ←? r; Ok (snd <$> head run)).
End Operations.

(** [EpochChainReader::read_range]: the reader of the last span that starts at
    or before the object, or the first reader. *)
Definition epoch_reader {R} (first : N * R) (rest : list (N * R)) (info : FileInfo) : R :=
  default first.2 (snd <$> find (λ span, span.1 <=? fi_min info) (reverse (first :: rest))).

(** ** The frames of a file *)

Section Frames.
Context `{flex : Lz4Flex} `{laws : !Lz4FlexLaws}.

Lemma frame_decodes m pgno data :
  bytes_ok data → (length data ≤ N.to_nat 65536)%nat → 0 < pgno ≤ u32_max →
  decode_page_frame_of (page_bytes m (pgno, data)) (length data) pgno = Ok data.
Proof.
  intros Hok Hlen Hp. destruct (page_header_reads m pgno Hp) as (Hparse & Hz & Hval).
  assert (page_bytes m (pgno, data)
          = page_header_marshal (mkPageHeader pgno (page_flags m))
            ++ match m with LegacyFrame => frame_encode data ++ []
                        | SizedBlock => be_bytes 4 (N.of_nat (length (block_of data))) ++ block_of data ++ [] end) as E.
  { unfold page_bytes. destruct m; cbn [fst snd page_prefix page_body page_flags]; rewrite ?app_nil_r, <- ?app_assoc; done. }
  assert (length (page_header_marshal (mkPageHeader pgno (page_flags m))) = PAGE_HEADER_SIZE) as Eh by done.
  unfold decode_page_frame_of, decode_page_frame. rewrite E.
  rewrite (proj2 (Nat.ltb_ge _ _)) by (rewrite length_app, Eh; lia).
  rewrite take_app_length' by done. rewrite Hparse. cbn [ph_pgno]. rewrite N.eqb_refl. cbn [negb].
  rewrite read_exact_app' by done. rewrite Hparse, Hz, Hval.
  destruct m; cbn [page_flags ph_flags].
  - change (negb (N.land 0 PAGE_HEADER_FLAG_SIZE =? 0)) with false. cbv iota. by rewrite frame_prefix_encode.
  - change (negb (N.land PAGE_HEADER_FLAG_SIZE PAGE_HEADER_FLAG_SIZE =? 0)) with true. cbv iota.
    destruct (block_reads data [] Hok Hlen) as (-> & -> & -> & Hd). rewrite read_exact_app, Hd. cbn [ok_or].
    by rewrite Nat.eqb_refl.
Qed.

(** An index entry gives the place of its page. *)
Lemma entry_slice m pre pages tail p off sz :
  (p, (off, sz)) ∈ index_entries m (N.of_nat (length pre)) pages →
  let bytes := pre ++ mjoin (page_bytes m <$> pages) ++ tail in
  ∃ d, (p, d) ∈ pages ∧ sz = N.of_nat (length (page_bytes m (p, d))) ∧ off + sz ≤ N.of_nat (length bytes)
       ∧ take (N.to_nat sz) (drop (N.to_nat off) bytes) = page_bytes m (p, d).
Proof.
  revert pre. induction pages as [|[q d] pages IH]; intros pre Hin; [by apply elem_of_nil in Hin|].
  cbn [index_entries fst] in Hin. apply elem_of_cons in Hin as [[= -> -> ->]|Hin].
  - exists d. split; [by left|]. split; [done|]. cbn [fmap list_fmap mjoin list_join]. rewrite !length_app. split; [lia|].
    rewrite !Nat2N.id, drop_app_length' by lia. rewrite <- app_assoc. by rewrite take_app_length' by lia.
  - destruct (IH (pre ++ page_bytes m (q, d))) as (d' & Hd & Hrest).
    { by rewrite length_app, Nat2N.inj_add. }
    exists d'. split; [by right|]. cbn [fmap list_fmap mjoin list_join] in *. rewrite <- !app_assoc in *. done.
Qed.

Lemma index_entries_pages m offset pages p d :
  (p, d) ∈ pages → ∃ off sz, (p, (off, sz)) ∈ index_entries m offset pages.
Proof.
  intros Hin. assert (p ∈ (index_entries m offset pages).*1) as ([q [off sz]] & -> & Hq)%list_elem_of_fmap.
  { rewrite index_entries_fst. by apply (list_elem_of_fmap_2 fst _ (p, d)). }
  by exists off, sz.
Qed.
End Frames.

(** ** The page map of a plan *)

Section Reads.
Context `{flex : Lz4Flex} `{laws : !Lz4FlexLaws}.
Context (H : History) (object : FileInfo → list N) (read_range : FileInfo → N → N → Result (list N)).

Notation lock := (lock_pgno (hi_page_size H)).
Notation page_size := (N.to_nat (hi_page_size H)).

(** A planned object: a file faithful to the history, read as it was written. *)
Definition planned (f : FileInfo) : Prop :=
  (∃ i, object f = if_bytes i ∧ readable i ∧ faithful H (fi_min f) (fi_max f) (if_header i) (if_pages i))
  ∧ fi_size f = Z.of_nat (length (object f)) ∧ (fi_size f ≤ i64_max)%Z
  ∧ ∀ offset len, offset + len ≤ N.of_nat (length (object f)) →
      read_range f offset len = Ok (take (N.to_nat len) (drop (N.to_nat offset) (object f))).

Lemma readable_decodes i : readable i → decodes (if_bytes i) (if_header i) (if_pages i).
Proof.
  intros [He Hr]. eexists _, _. unfold decode_file_with_pages, if_bytes. rewrite decode_file_bytes by done.
  destruct (is_snapshot (if_header i) && negb (no_checksum (if_header i))) eqn:E; [|done].
  by rewrite (Hr eq_refl), N.eqb_refl.
Qed.

Lemma planned_sound f : planned f → sound_file H object f.
Proof. intros [(i & E & Hr & Hf) _]. exists (if_header i), (if_pages i). rewrite E. split; [by apply readable_decodes|done]. Qed.

Lemma slice_drop (a b c : list N) (start lo hi : N) :
  start ≤ N.of_nat (length a) → lo = N.of_nat (length a) - start → hi = lo + N.of_nat (length b) →
  slice (drop (N.to_nat start) (a ++ b ++ c)) lo hi = Ok b.
Proof.
  intros Hs -> ->. unfold slice. rewrite length_drop, !length_app.
  rewrite (proj2 (N.ltb_ge _ _)), (proj2 (N.ltb_ge _ _)) by lia. cbn [orb]. rewrite drop_drop. f_equal.
  rewrite drop_app_length' by lia. by rewrite take_app_length' by lia.
Qed.

(** The index of an object, whether or not it fits the first read. *)
Lemma fetch_layout f body index trailer :
  object f = body ++ index ++ be_bytes 8 (N.of_nat (length index)) ++ trailer →
  length trailer = 16%nat → N.of_nat (length index) ≤ u64_max → fi_size f = Z.of_nat (length (object f)) →
  (∀ offset len, offset + len ≤ N.of_nat (length (object f)) →
      read_range f offset len = Ok (take (N.to_nat len) (drop (N.to_nat offset) (object f)))) →
  fetch_page_index read_range f = decode_page_index index.
Proof.
  intros E Ht Hix Hsz Hread. pose proof (length_be_bytes 8 (N.of_nat (length index))) as Hb8.
  set (field := be_bytes 8 (N.of_nat (length index))) in *.
  assert (N.of_nat (length (object f)) = N.of_nat (length body) + N.of_nat (length index) + 24) as El by (rewrite E, !length_app; lia).
  unfold fetch_page_index. rewrite Hsz, (proj2 (Z.ltb_ge _ _)) by lia.
  replace (Z.to_N (Z.of_nat (length (object f)))) with (N.of_nat (length (object f))) by lia.
  set (n := N.of_nat (length (object f))) in *.
  change (INDEX_LEN_FIELD + N.of_nat TRAILER_SIZE) with 24. change (N.of_nat TRAILER_SIZE) with 16. change INDEX_LEN_FIELD with 8.
  rewrite (proj2 (N.ltb_ge n 24)) by lia. set (start := n - N.min TAIL_FETCH_BYTES n).
  rewrite Hread by (unfold start; lia).
  rewrite (take_ge (drop (N.to_nat start) (object f))) by (rewrite length_drop; unfold start; lia).
  assert (N.of_nat (length (drop (N.to_nat start) (object f))) = n - start) as -> by (rewrite length_drop; lia).
  assert (start ≤ n - 24) as Hstart by (unfold start, TAIL_FETCH_BYTES; lia).
  rewrite (proj2 (N.ltb_ge (n - start) 24)) by lia.
  assert (slice (drop (N.to_nat start) (object f)) (n - start - 16 - 8) (n - start - 16 - 8 + 8) = Ok field) as ->.
  { rewrite E, (app_assoc body index). apply slice_drop; rewrite ?length_app; lia. }
  unfold field at 1 2 3 4 5. rewrite big_endian_be_bytes.
  2:{ change (width_bound 8) with 18446744073709551616. unfold u64_max in Hix. lia. }
  rewrite (proj2 (N.ltb_ge (n - 24) _)) by lia.
  destruct (N.leb_spec start (n - 24 - N.of_nat (length index))) as [Hin|Hout].
  - assert (slice (drop (N.to_nat start) (object f)) (n - 24 - N.of_nat (length index) - start) (n - 24 - start) = Ok index) as ->; [|done].
    rewrite E. apply slice_drop; lia.
  - rewrite Hread by lia. rewrite E, drop_app_length' by lia. by rewrite take_app_length' by lia.
Qed.

Lemma fetch_planned f i :
  planned f → object f = if_bytes i → readable i →
  fetch_page_index read_range f = Ok (entry_triple <$> index_entries (if_mode i) 100 (if_pages i)).
Proof.
  intros (_ & Hsz & _ & Hread) Eo [He _]. rewrite <- decode_index_bytes by (by eapply encodable_entries).
  eapply (fetch_layout f (header_marshal (if_header i) ++ mjoin (page_bytes (if_mode i) <$> if_pages i) ++ replicate PAGE_HEADER_SIZE 0)
    _ (trailer_marshal (file_trailer (if_mode i) (if_header i) (if_pages i) (if_post i)))); try done.
  - rewrite Eo. unfold if_bytes, file_bytes, index_section. by rewrite <- !app_assoc.
  - by eapply encodable_index_size.
Qed.

(** Where a page's frame is. *)
Definition located (loc : PageLocator) (p : N) (d : list N) : Prop :=
  planned (pl_info loc) ∧ bytes_ok d ∧ N.of_nat (length d) = hi_page_size H ∧ 0 < p ≤ u32_max
  ∧ pl_offset loc + pl_size loc ≤ N.of_nat (length (object (pl_info loc)))
  ∧ ∃ m, take (N.to_nat (pl_size loc)) (drop (N.to_nat (pl_offset loc)) (object (pl_info loc))) = page_bytes m (p, d).

Lemma entry_located f i p off sz :
  planned f → object f = if_bytes i → readable i → h_page_size (if_header i) = hi_page_size H →
  (p, off, sz) ∈ entry_triple <$> index_entries (if_mode i) 100 (if_pages i) →
  ∃ d, (p, d) ∈ if_pages i ∧ located (mkLocator f off sz) p d.
Proof.
  intros Hf Eo Hr Eps ([q [off' sz']] & [= -> -> ->] & Hin)%list_elem_of_fmap.
  destruct (entry_slice (if_mode i) (header_marshal (if_header i)) (if_pages i)
    (replicate PAGE_HEADER_SIZE 0 ++ index_section (index_entries (if_mode i) 100 (if_pages i))
     ++ trailer_marshal (file_trailer (if_mode i) (if_header i) (if_pages i) (if_post i))) q off' sz')
    as (d & Hd & Hsz & Hle & Hs); [exact Hin|].
  exists d. split; [done|]. pose proof Hd as (k & Hk)%list_elem_of_lookup.
  destruct (readable_page i k q d Hr Hk) as (Hb & Hlen & Hp & _ & _). rewrite Eps in Hlen.
  unfold located. cbn [pl_info pl_offset pl_size]. rewrite Eo. split_and!; try done; [lia..|]. by exists (if_mode i).
Qed.

Lemma put_index_lookup commit f m index p :
  (∃ off sz, (p, off, sz) ∈ index ∧ p ≤ commit ∧ put_index commit f m index !! p = Some (mkLocator f off sz))
  ∨ ((∀ off sz, (p, off, sz) ∈ index → commit < p) ∧ put_index commit f m index !! p = m !! p).
Proof.
  unfold put_index. induction index as [|[[q off] sz] index IH] using rev_ind.
  { right. split; [by intros ? ? ?%elem_of_nil|done]. }
  rewrite filter_app. destruct (decide (q ≤ commit)) as [Hq|Hq].
  - rewrite (filter_cons_True _ (q, off, sz)) by done. rewrite foldl_app. cbn [filter list_filter foldl].
    destruct (decide (p = q)) as [->|Hne].
    + left. exists off, sz. split; [set_solver|]. split; [done|]. apply lookup_insert_eq.
    + rewrite lookup_insert_ne by done. destruct IH as [(o & s & Hin & ?)|[Hn Hl]].
      * left. exists o, s. split; [set_solver|done].
      * right. split; [|done]. intros o s [Hin|Hin%list_elem_of_singleton]%elem_of_app; [by eapply Hn|congruence].
  - rewrite (filter_cons_False _ (q, off, sz)) by done. rewrite foldl_app. cbn [filter list_filter foldl].
    destruct IH as [(o & s & Hin & ?)|[Hn Hl]].
    + left. exists o, s. split; [set_solver|done].
    + right. split; [|done]. intros o s [Hin|Hin%list_elem_of_singleton]%elem_of_app; [by eapply Hn|].
      injection Hin as -> _ _. lia.
Qed.

(** The map of a prefix of the plan that ends at transaction [e], for a database
    of [commit] pages in the end. *)
Record mapped (commit e : N) (m : gmap N PageLocator) : Prop := mkMapped {
  ma_pages : ∀ p, 1 ≤ p ≤ commit → p ≤ hi_size H e → p ≠ lock →
             ∃ loc, m !! p = Some loc ∧ located loc p (hi_page H e p);
  ma_keys : ∀ p loc, m !! p = Some loc → 1 ≤ p ≤ commit ∧ p ≠ lock;
}.

Lemma mapped_start commit : mapped commit 0 ∅.
Proof. split; [rewrite hi_start; lia|]. intros p loc. by rewrite lookup_empty. Qed.

Lemma mapped_step commit e m f :
  planned f → fi_min f ≤ e + 1 → e < fi_max f → mapped commit e m →
  ∃ index, fetch_page_index read_range f = Ok index ∧ mapped commit (fi_max f) (put_index commit f m index).
Proof.
  intros Hf Hmin Hlt [Hp Hk]. pose proof Hf as [(i & Eo & Hr & Hfa) _].
  eexists. split; [by apply fetch_planned|]. pose proof (fa_page_size _ _ _ _ _ Hfa) as Eps.
  assert (∀ p off sz, (p, off, sz) ∈ entry_triple <$> index_entries (if_mode i) 100 (if_pages i) →
    ∃ d, (p, d) ∈ if_pages i ∧ located (mkLocator f off sz) p d) as Hent by (intros; by eapply entry_located).
  split.
  - intros p Hc Hsz Hlock. destruct (put_index_lookup commit f m (entry_triple <$> index_entries (if_mode i) 100 (if_pages i)) p)
      as [(off & sz & Hin & _ & ->)|[Hn ->]].
    + destruct (Hent p off sz Hin) as (d & Hd & Hloc). eexists. split; [done|].
      by rewrite <- (fa_pages _ _ _ _ _ Hfa p d Hd Hsz).
    + assert (p ∉ (if_pages i).*1) as Hout.
      { intros ([q d] & -> & Hd)%list_elem_of_fmap. destruct (index_entries_pages (if_mode i) 100 _ q d Hd) as (off & sz & Hin).
        specialize (Hn off sz (list_elem_of_fmap_2 entry_triple _ _ Hin)). cbn [fst] in *. lia. }
      destruct (fa_rest _ _ _ _ _ Hfa p ltac:(lia) Hlock Hout e Hmin ltac:(lia)) as [Hle <-]. by apply Hp.
  - intros p loc. destruct (put_index_lookup commit f m (entry_triple <$> index_entries (if_mode i) 100 (if_pages i)) p)
      as [(off & sz & Hin & Hc & _)|[_ ->]]; [|apply Hk].
    intros _. destruct (Hent p off sz Hin) as (d & (k & Hd)%list_elem_of_lookup & _).
    destruct (readable_page i k p d Hr Hd) as (_ & _ & ? & _ & Hl). rewrite Eps in Hl. split; [lia|done].
Qed.

Lemma put_indexes_mapped commit e m plan e' :
  extends planned e plan e' → mapped commit e m →
  ∃ m', put_indexes read_range commit m plan = Ok m' ∧ mapped commit e' m'.
Proof.
  intros Hext. revert m. induction Hext as [|e f plan e' Hf Hmin Hlt _ IH]; intros m Hm; [by exists m|].
  cbn [put_indexes]. destruct (mapped_step commit e m f Hf Hmin Hlt Hm) as (index & -> & Hm'). by apply IH.
Qed.

Lemma extends_last (P : FileInfo → Prop) r plan e f :
  extends P r plan e → last plan = Some f → P f ∧ fi_max f = e.
Proof.
  induction 1 as [|r g plan e Hg _ _ Hext IH]; [done|]. destruct plan as [|x plan]; [|done].
  intros [= <-]. by inversion Hext.
Qed.

(** The map of a whole plan. *)
Definition whole_map (e : N) (map : PageMap) : Prop :=
  pm_page_size map = hi_page_size H ∧ pm_commit map = hi_size H e ∧ pm_commit map ≤ u32_max
  ∧ 512 ≤ hi_page_size H ≤ 65536 ∧ mapped (hi_size H e) e (pm_pages map).

Lemma build_page_map_ok plan e :
  extends planned 0 plan e → plan ≠ [] → ∃ map, build_page_map read_range plan = Ok map ∧ whole_map e map.
Proof.
  intros Hext Hne. unfold build_page_map. destruct (last plan) as [f|] eqn:El; [|by apply last_None in El].
  destruct (extends_last _ _ _ _ _ Hext El) as [((i & Eo & Hr & Hfa) & Hsz & Hmax & Hread) <-].
  destruct Hr as [[Ht Hv _ _ _ _] Hroll]. destruct (header_validate_Ok _ Hv) as [_ Hps].
  assert (take HEADER_SIZE (object f) = header_marshal (if_header i)) as Eh.
  { rewrite Eo. unfold if_bytes, file_bytes. by apply take_app_length'. }
  assert (N.of_nat HEADER_SIZE ≤ N.of_nat (length (object f))) as Hlen.
  { rewrite Eo. unfold if_bytes, file_bytes. rewrite length_app, length_header_marshal. lia. }
  rewrite Hread by lia. rewrite drop_0, Nat2N.id, Eh, header_parse_marshal; [|done|by apply header_validate_Ok].
  destruct (put_indexes_mapped (h_commit (if_header i)) 0 ∅ plan (fi_max f) Hext (mapped_start _)) as (m & -> & Hm).
  eexists. split; [done|]. unfold whole_map. cbn [pm_page_size pm_commit pm_pages].
  rewrite (fa_commit _ _ _ _ _ Hfa), (fa_page_size _ _ _ _ _ Hfa) in *.
  split_and!; try done; try lia. destruct Ht as (? & ? & ? & ? & ?). rewrite <- (fa_commit _ _ _ _ _ Hfa). lia.
Qed.

(** ** Runs *)

(** The frames of [pgnos] lie one after the other in the object from [at_] to
    [end_]. *)
Inductive run_at (m : gmap N PageLocator) (info : FileInfo) : N → list N → N → Prop :=
| run_at_nil at_ : run_at m info at_ [] at_
| run_at_cons p loc pgnos end_ :
    m !! p = Some loc → pl_info loc = info →
    run_at m info (pl_offset loc + pl_size loc) pgnos end_ → run_at m info (pl_offset loc) (p :: pgnos) end_.

Lemma run_at_snoc m info at_ pgnos end_ p loc :
  run_at m info at_ pgnos end_ → m !! p = Some loc → pl_info loc = info → pl_offset loc = end_ →
  run_at m info at_ (pgnos ++ [p]) (end_ + pl_size loc).
Proof.
  intros Hrun Hp Hi. induction Hrun as [at_|q l pgnos end_ Hq Hqi _ IH]; intros Ho.
  - subst at_. by apply (run_at_cons m info p loc [] (pl_offset loc + pl_size loc)); [..|constructor].
  - cbn [app]. apply (run_at_cons m info q l); [done|done|by apply IH].
Qed.

Lemma run_at_le m info at_ pgnos end_ : run_at m info at_ pgnos end_ → at_ ≤ end_.
Proof. induction 1; lia. Qed.

Lemma page_range_cons lo hi : lo ≤ hi → page_range lo hi = lo :: page_range (lo + 1) hi.
Proof.
  intros Hle. unfold page_range. replace (N.to_nat (hi + 1 - lo)) with (S (N.to_nat (hi + 1 - (lo + 1)))) by lia.
  cbn [seq fmap list_fmap]. f_equal; [lia|]. rewrite <- fmap_S_seq, <- list_fmap_compose. apply list_fmap_ext. intros; cbn; lia.
Qed.

Lemma page_range_snoc lo hi : lo ≤ hi + 1 → page_range lo (hi + 1) = page_range lo hi ++ [hi + 1].
Proof.
  intros Hle. unfold page_range. replace (N.to_nat (hi + 1 + 1 - lo)) with (N.to_nat (hi + 1 - lo) + 1)%nat by lia.
  rewrite seq_app, fmap_app. cbn [seq fmap list_fmap]. do 2 f_equal. lia.
Qed.

Section Run.
Context (e : N) (map : PageMap) (Hmap : whole_map e map).

Lemma map_located p loc : pm_pages map !! p = Some loc → located loc p (hi_page H e p) ∧ 1 ≤ p ≤ hi_size H e ∧ p ≠ lock.
Proof.
  destruct Hmap as (_ & _ & _ & _ & [Hp Hk]). intros Hl. destruct (Hk p loc Hl) as [Hr Hn].
  destruct (Hp p Hr ltac:(lia) Hn) as (loc' & Hl' & Hloc). rewrite Hl in Hl'. injection Hl' as <-. done.
Qed.

Lemma located_end loc p d : located loc p d → pl_offset loc + pl_size loc < 9223372036854775808.
Proof. intros ((_ & Hsz & Hmax & _) & _ & _ & _ & Hle & _). unfold i64_max in Hmax. lia. Qed.

Lemma extend_run_ok fuel first pgno max_pages last end_ :
  (size (filter (λ k, (last < k)%N) (dom (pm_pages map))) < fuel)%nat → pgno ≤ last ≤ u32_max →
  end_ < 9223372036854775808 → run_at (pm_pages map) (pl_info first) (pl_offset first) (page_range pgno last) end_ →
  ∃ last' end', extend_run fuel map first pgno max_pages last end_ = Ok (last', end')
    ∧ pgno ≤ last' ∧ end' < 9223372036854775808
    ∧ run_at (pm_pages map) (pl_info first) (pl_offset first) (page_range pgno last') end'.
Proof.
  revert last end_. induction fuel as [|fuel IH]; intros last end_ Hf Hl He Hrun; [lia|]. cbn [extend_run].
  assert (∃ last' end', (Ok (last, end_) : Result (N * N)) = Ok (last', end') ∧ pgno ≤ last' ∧ end' < 9223372036854775808
    ∧ run_at (pm_pages map) (pl_info first) (pl_offset first) (page_range pgno last') end') as Hstop by (eexists _, _; split_and!; [done|lia|done..]).
  destruct (pm_pages map !! u32_wrap (last + 1)) as [next|] eqn:En; [|exact Hstop].
  destruct (map_located _ _ En) as (Hloc & Hr & _). pose proof Hmap as (_ & Ecm & Hcm & _).
  assert (u32_wrap (last + 1) = last + 1) as Ew.
  { unfold u32_wrap, u32_max in *. destruct (N.eq_dec last 4294967295) as [->|]; [cbn in Hr; lia|apply N.mod_small; lia]. }
  rewrite Ew in *. destruct (bool_decide_reflect (pl_info next = pl_info first)) as [Ei|]; [|exact Hstop].
  destruct (N.eqb_spec (pl_offset next) end_) as [Eo|]; [|exact Hstop]. cbn [andb negb orb].
  destruct (max_pages <=? _); [exact Hstop|]. pose proof (located_end _ _ _ Hloc) as Hend.
  assert (wrap_add end_ (pl_size next) = end_ + pl_size next) as -> by (unfold wrap_add; apply N.mod_small; lia).
  apply IH; [|lia|lia|].
  - eapply Nat.lt_le_trans; [|exact (proj1 (Nat.lt_succ_r _ _) Hf)]. apply subset_size. split; [set_solver by lia|].
    intros Hsub. assert (last + 1 ∈ filter (λ k, last < k) (dom (pm_pages map))) as Hin.
    { apply elem_of_filter. split; [lia|]. by apply elem_of_dom_2 in En. }
    apply Hsub, elem_of_filter in Hin as [? _]. lia.
  - rewrite page_range_snoc by lia. by apply (run_at_snoc _ _ _ _ end_ _ next).
Qed.

(** A page the database has after [e]. *)
Definition good (page : N * list N) : Prop :=
  1 ≤ page.1 ≤ hi_size H e ∧ page.1 ≠ lock ∧ page.2 = hi_page H e page.1.

Lemma decode_run_ok info bytes base at_ pgnos end_ :
  run_at (pm_pages map) info at_ pgnos end_ → base ≤ at_ → end_ ≤ N.of_nat (length (object info)) →
  bytes = take (N.to_nat (end_ - base)) (drop (N.to_nat base) (object info)) →
  ∃ run, decode_run map bytes (at_ - base) pgnos = Ok run ∧ run.*1 = pgnos ∧ Forall good run.
Proof.
  intros Hrun Hb Hend ->. induction Hrun as [at_|p loc pgnos end_ Hp Hi Hrun IH]; [by exists []|]. cbn [decode_run]. rewrite Hp.
  destruct (map_located p loc Hp) as ((_ & Hok & Hlen & Hpr & Hle & m & Hframe) & Hr & Hn). rewrite Hi in *.
  pose proof (run_at_le _ _ _ _ _ Hrun) as Hle2. destruct Hmap as (Eps & _ & _ & Hps & _).
  unfold slice. rewrite length_take, length_drop.
  rewrite (proj2 (N.ltb_ge _ _)), (proj2 (N.ltb_ge _ _)) by lia. cbn [orb].
  assert (take (N.to_nat (pl_offset loc - base + pl_size loc - (pl_offset loc - base)))
            (drop (N.to_nat (pl_offset loc - base)) (take (N.to_nat (end_ - base)) (drop (N.to_nat base) (object info))))
          = page_bytes m (p, hi_page H e p)) as ->.
  { rewrite <- Hframe, skipn_firstn_comm, take_take, drop_drop. f_equal; [lia|]. f_equal. lia. }
  rewrite Eps. replace (N.to_nat (hi_page_size H)) with (length (hi_page H e p)) by lia.
  rewrite frame_decodes by (done || lia).
  destruct (IH ltac:(lia) Hend) as (run & Hdec & Hfst & Hgood).
  replace (pl_offset loc - base + pl_size loc) with (pl_offset loc + pl_size loc - base) by lia. rewrite Hdec.
  eexists. split; [done|]. cbn [fmap list_fmap]. split; [by rewrite <- Hfst|]. by constructor.
Qed.

Lemma run_at_bound info at_ pgnos end_ :
  run_at (pm_pages map) info at_ pgnos end_ → at_ ≤ N.of_nat (length (object info)) → end_ ≤ N.of_nat (length (object info)).
Proof.
  induction 1 as [at_|p loc pgnos end_ Hp Hi _ IH]; [done|]. intros _. apply IH.
  destruct (map_located p loc Hp) as ((_ & _ & _ & _ & Hle & _) & _). by rewrite <- Hi.
Qed.

Lemma read_run_ok pgno max_bytes :
  ∃ run, read_run_sync read_range map pgno max_bytes = Ok run ∧ Forall good run
    ∧ head run.*1 = (if decide (1 ≤ pgno ≤ hi_size H e ∧ pgno ≠ lock) then Some pgno else None).
Proof.
  unfold read_run_sync. destruct (pm_pages map !! pgno) as [first|] eqn:Ef; cycle 1.
  { exists []. split; [done|]. split; [done|]. rewrite decide_False; [done|]. intros [Hr Hn].
    destruct Hmap as (_ & _ & _ & _ & [Hp _]). destruct (Hp pgno Hr ltac:(lia) Hn) as (loc & Hl & _). congruence. }
  destruct (map_located _ _ Ef) as (Hloc & Hr & Hn). pose proof Hmap as (Eps & Ecm & Hcm & Hps & _).
  rewrite Eps, (proj2 (N.eqb_neq _ _)) by lia. pose proof (located_end _ _ _ Hloc) as Hend.
  assert (wrap_add (pl_offset first) (pl_size first) = pl_offset first + pl_size first) as -> by (unfold wrap_add; apply N.mod_small; lia).
  destruct (extend_run_ok (S (size (pm_pages map))) first pgno (u32_wrap (N.max (max_bytes / hi_page_size H) 1)) pgno
    (pl_offset first + pl_size first)) as (last & end_ & -> & Hlast & Hend' & Hrun).
  { apply Nat.lt_succ_r. rewrite <- size_dom. apply subseteq_size. set_solver. }
  { lia. }
  { done. }
  { rewrite page_range_cons by lia. unfold page_range. replace (N.to_nat (pgno + 1 - (pgno + 1))) with 0%nat by lia.
    cbn [seq fmap list_fmap]. apply (run_at_cons _ _ pgno first); [done|done|constructor]. }
  pose proof (run_at_le _ _ _ _ _ Hrun) as Hle.
  assert (wrap_add end_ (18446744073709551616 - pl_offset first) = end_ - pl_offset first) as ->.
  { unfold wrap_add. replace (end_ + (18446744073709551616 - pl_offset first)) with (end_ - pl_offset first + 1 * 18446744073709551616) by lia.
    rewrite N.Div0.mod_add. apply N.mod_small. lia. }
  destruct Hloc as ((_ & _ & _ & Hread) & _ & _ & _ & Hbound & _).
  assert (end_ ≤ N.of_nat (length (object (pl_info first)))) as Hobj.
  { apply (run_at_bound _ _ _ _ Hrun). lia. }
  rewrite Hread by lia. rewrite length_take, length_drop, (proj2 (N.ltb_ge _ _)) by lia.
  destruct (decode_run_ok (pl_info first) _ (pl_offset first) _ _ _ Hrun ltac:(lia) Hobj eq_refl) as (run & Hdec & Hfst & Hgood).
  rewrite N.sub_diag in Hdec. rewrite Hdec. exists run. split; [done|]. split; [done|].
  rewrite Hfst, page_range_cons, decide_True by (done || lia). done.
Qed.

Lemma fetch_chunk_ok fuel chunk : ∃ pages, fetch_chunk read_range fuel map chunk = Some pages ∧ Forall good pages.
Proof.
  revert chunk. induction fuel as [|fuel IH]; intros chunk; [by exists []|]. destruct chunk as [|first rest]; [by exists []|].
  cbn [fetch_chunk]. destruct (read_run_ok first (N.of_nat (S (consecutive first rest)) * pm_page_size map)) as (got & -> & Hgot & _).
  destruct (IH (drop (Nat.max (length got) 1) (first :: rest))) as (pages & -> & Hpages).
  eexists. split; [done|]. by apply Forall_app.
Qed.

Lemma fetch_ahead_ok wanted : Forall good (fetch_ahead read_range map wanted).
Proof.
  unfold fetch_ahead. induction (chunks _ wanted) as [|chunk l IH]; [constructor|]. cbn [omap list_omap].
  destruct (fetch_chunk_ok (length chunk) chunk) as (pages & -> & Hp). cbn [mjoin list_join]. by apply Forall_app.
Qed.

Lemma read_run_blocking_ok source pgno :
  ps_map source = map →
  ∃ source' run, read_run_blocking read_range source pgno = (source', Ok run) ∧ ps_map source' = map ∧ Forall good run
    ∧ head run.*1 = (if decide (1 ≤ pgno ≤ hi_size H e ∧ pgno ≠ lock) then Some pgno else None).
Proof.
  intros Em. unfold read_run_blocking. rewrite Em. destruct (take_ahead (ps_scan source) pgno) as [scan ahead].
  destruct (read_run_ok pgno (match ahead with Some _ => pm_page_size map | None => READAHEAD_BYTES end)) as (run & -> & Hrun & Hhd).
  destruct run as [|page run]; [by eexists _, []|].
  destruct ahead as [[|p wanted]|]; [by eexists _, (page :: run)| |by eexists _, (page :: run)].
  eexists _, _. split; [done|]. split; [done|]. split; [|done]. apply Forall_app. split; [done|]. apply fetch_ahead_ok.
Qed.
End Run.

(** ** The image *)

Definition image_page (page_size : N) (image : list N) (p : N) : list N :=
  take (N.to_nat page_size) (drop (N.to_nat ((p - 1) * page_size)) image).

Lemma join_slice (g : N → list N) n lo hi p :
  (∀ q, lo ≤ q ≤ hi → N.of_nat (length (g q)) = n) → lo ≤ p ≤ hi →
  take (N.to_nat n) (drop (N.to_nat ((p - lo) * n)) (mjoin (g <$> page_range lo hi))) = g p.
Proof.
  intros Hlen Hp. remember (N.to_nat (p - lo)) as k eqn:Ek. revert lo Hlen Hp Ek.
  induction k as [|k IH]; intros lo Hlen Hp Ek; rewrite page_range_cons by lia; cbn [fmap list_fmap mjoin list_join].
  - assert (p = lo) as -> by lia. rewrite N.sub_diag, N.mul_0_l, drop_0. apply take_app_length'. specialize (Hlen lo). lia.
  - replace (N.to_nat ((p - lo) * n)) with (length (g lo) + N.to_nat ((p - (lo + 1)) * n))%nat.
    2:{ specialize (Hlen lo ltac:(lia)). replace (p - lo) with (p - (lo + 1) + 1) by lia. lia. }
    rewrite drop_app_add. apply IH; [intros q Hq; apply Hlen; lia|lia|lia].
Qed.

Lemma image_page_good e map p :
  whole_map e map → 1 ≤ p ≤ hi_size H e → p ≠ lock → image_page (hi_page_size H) (database_image H e) p = hi_page H e p.
Proof.
  intros (_ & _ & _ & _ & [Hp _]) Hr Hn. unfold image_page, database_image.
  rewrite (join_slice (λ q, if q =? lock then replicate page_size 0 else hi_page H e q) (hi_page_size H) 1); [|..|done].
  - by rewrite (proj2 (N.eqb_neq _ _) Hn).
  - intros q Hq. destruct (N.eqb_spec q lock) as [_|Hne]; [rewrite length_replicate; lia|].
    by destruct (Hp q Hq ltac:(lia) Hne) as (_ & _ & _ & _ & ? & _).
Qed.
End Reads.

(** C7: a paged restore serves the database a full restore rebuilds.  For a plan
    of files faithful to a history, in either page encoding, the page map is
    built from the objects' tails alone; a fault on any page, in any state of
    the scan, returns pages that are byte for byte the pages of the image
    [build_database_image] makes of the same objects, whatever runs and
    prefetched children come with it; and the first page of a fault is the
    page asked for, unless the database has no such page or it is the lock page. *)
Theorem paged_restore_exact `{flex : Lz4Flex} `{laws : !Lz4FlexLaws} H object read_range plan e :
  extends (planned H object read_range) 0 plan e → plan ≠ [] →
  ∃ map image,
    build_page_map read_range plan = Ok map ∧ build_database_image (object <$> plan) = Ok image
    ∧ ∀ source pgno, ps_map source = map →
      ∃ source' run, read_run_blocking read_range source pgno = (source', Ok run) ∧ ps_map source' = map
        ∧ Forall (λ page, 1 ≤ page.1 ≤ pm_commit map ∧ page.2 = image_page (pm_page_size map) image page.1) run
        ∧ head run.*1 = (if decide (1 ≤ pgno ≤ pm_commit map ∧ pgno ≠ lock_pgno (pm_page_size map)) then Some pgno else None).
Proof.
  intros Hext Hne. destruct (build_page_map_ok H object read_range plan e Hext Hne) as (map & Hbuild & Hmap).
  exists map, (database_image H e). split; [done|]. split.
  { apply image_extends; [|done]. eapply extends_impl; [|exact Hext]. apply planned_sound. }
  pose proof Hmap as (Eps & Ecm & _). rewrite Eps, Ecm. intros source pgno Em.
  destruct (read_run_blocking_ok H object read_range e map Hmap source pgno Em) as (source' & run & Hrun & Em' & Hgood & Hhd).
  exists source', run. do 2 (split; [done|]). split; [|exact Hhd].
  eapply Forall_impl; [exact Hgood|]. intros [p d] (Hr & Hn & Hd). cbn [fst snd] in *. split; [done|].
  by rewrite (image_page_good H object read_range e map).
Qed.

(** ** A plan of two files *)

Definition sample_info (i : InputFile) : FileInfo :=
  mkFileInfo 0 (file_range i).1 (file_range i).2 0 0 (Z.of_nat (length (if_bytes i))) None.

Definition sample_store (f : FileInfo) : list N := if fi_max f =? 1 then if_bytes sample_first else if_bytes sample_second.

Definition sample_read (f : FileInfo) (offset len : N) : Result (list N) :=
  Ok (take (N.to_nat len) (drop (N.to_nat offset) (sample_store f))).

Lemma sample_planned i :
  plain i → sample_store (sample_info i) = if_bytes i → (fi_size (sample_info i) ≤ i64_max)%Z →
  faithful sample_history (file_range i).1 (file_range i).2 (if_header i) (if_pages i) →
  planned sample_history sample_store sample_read (sample_info i).
Proof.
  intros [Hr _] Es Hsz Hf. split; [exists i; by split; [|split]|]. split; [by rewrite Es|]. split; [done|]. done.
Qed.

Lemma paged_restore_exact_witness :
  let plan := [sample_info sample_first; sample_info sample_second] in
  ∃ map image,
    build_page_map sample_read plan = Ok map ∧ build_database_image (sample_store <$> plan) = Ok image
    ∧ ∀ source pgno, ps_map source = map →
      ∃ source' run, read_run_blocking sample_read source pgno = (source', Ok run) ∧ ps_map source' = map
        ∧ Forall (λ page, 1 ≤ page.1 ≤ pm_commit map ∧ page.2 = image_page (pm_page_size map) image page.1) run
        ∧ head run.*1 = (if decide (1 ≤ pgno ≤ pm_commit map ∧ pgno ≠ lock_pgno (pm_page_size map)) then Some pgno else None).
Proof.
  destruct sample_faithful as [F1 F2]. pose proof sample_plain as [P1 [P2 _]%Forall_cons]%Forall_cons.
  intros plan. apply (paged_restore_exact sample_history sample_store sample_read plan 2); [|done].
  apply (extends_cons _ 0 (sample_info sample_first)); [|done|done|].
  - apply sample_planned; [exact P1|reflexivity|by vm_compute|exact F1].
  - apply (extends_cons _ 1 (sample_info sample_second)); [|done|done|constructor].
    apply sample_planned; [exact P2|reflexivity|by vm_compute|exact F2].
Defined.

(** A ranged read that returns fewer bytes than asked, as [read_range] documents
    for an object shorter than its listing, makes [fetch_page_index] panic. *)
Lemma short_tail_panics :
  fetch_page_index (λ _ _ _, Ok (replicate 30 0)) (mkFileInfo 0 1 1 0 0 1000 None) = Err Panicked.
Proof. vm_compute. reflexivity. Qed.
