(* ===== verification/Wal.v ===== *)
(** * The WAL reader

    Models [crates/ltx/src/wal.rs] and [wal_checksum] of [crates/ltx/src/lib.rs]:
    the frames of a SQLite write-ahead log, read with their salts and their
    cumulative checksum, from the start of the file or from an offset over the
    whole file or its tail.  The misalignment assertion of [wal_checksum] is the
    error [WalPanicked]. *)

From Stdlib Require Import ZifyN ZifyNat.
From S2P Require Import Prelude Bytes Lz4.

Definition WAL_HEADER_SIZE : nat := 32.
Definition WAL_FRAME_HEADER_SIZE : nat := 24.
Definition WAL_VERSION : N := 3007000.
Definition WAL_MAGIC_LITTLE_ENDIAN : N := 931071618.
Definition WAL_MAGIC_BIG_ENDIAN : N := 931071619.

(** [WalError]. *)
Inductive WalError :=
| Eof
| InvalidMagic (magic : N)
| UnsupportedVersion (version : N)
| BufferSize (got want : N)
| OffsetTooSmall (offset header_size : Z)
| UnalignedOffset (offset : Z) (page_size : N)
| PrevFrameMismatch
| WalPanicked.

Definition WalResult (A : Type) : Type := result A WalError.

(** [be_u32(&b[at..])] of a fixed-size header. *)
Definition be_u32 (b : list N) (at_ : nat) : N := big_endian (take 4 (drop at_ b)).

(** [wal_checksum]. *)
Fixpoint wal_checksum (big : bool) (s0 s1 : N) (b : list N) : WalResult (N * N) :=
  match b with
  | [] => Ok (s0, s1)
  | b0 :: b1 :: b2 :: b3 :: b4 :: b5 :: b6 :: b7 :: b =>
      let word := λ w, if big then big_endian w else little_endian w in
      let s0 := u32_wrap (u32_wrap (s0 + word [b0; b1; b2; b3]) + s1) in
      let s1 := u32_wrap (u32_wrap (s1 + word [b4; b5; b6; b7]) + s0) in
      wal_checksum big s0 s1 b
  | _ => Err WalPanicked
  end.

(** [WalReader]. *)
Record WalReader := mkWalReader {
  wr_data : list N;
  wr_tail_base : N;
  wr_frame_n : Z;
  wr_big_endian : bool;
  wr_page_size : N;
  wr_salt1 : N;
  wr_salt2 : N;
  wr_chksum1 : N;
  wr_chksum2 : N;
}.

Definition set_frame_n (r : WalReader) (n : Z) : WalReader :=
  mkWalReader (wr_data r) (wr_tail_base r) n (wr_big_endian r) (wr_page_size r) (wr_salt1 r) (wr_salt2 r)
    (wr_chksum1 r) (wr_chksum2 r).
Definition set_salts (r : WalReader) (salt1 salt2 : N) : WalReader :=
  mkWalReader (wr_data r) (wr_tail_base r) (wr_frame_n r) (wr_big_endian r) (wr_page_size r) salt1 salt2
    (wr_chksum1 r) (wr_chksum2 r).
Definition set_checksum (r : WalReader) (chksum1 chksum2 : N) : WalReader :=
  mkWalReader (wr_data r) (wr_tail_base r) (wr_frame_n r) (wr_big_endian r) (wr_page_size r) (wr_salt1 r) (wr_salt2 r)
    chksum1 chksum2.

(** [page_size + WAL_FRAME_HEADER_SIZE]. *)
Definition frame_size (r : WalReader) : Z := (Z.of_N (wr_page_size r) + Z.of_nat WAL_FRAME_HEADER_SIZE)%Z.

(** [WalReader::read_at]. *)
Definition read_at (r : WalReader) (offset : Z) (n : nat) : option (list N) :=
  if (offset <? 0)%Z then None
  else
    let offset := Z.to_N offset in
    start ← (if (wr_tail_base r =? 0) || (offset <? N.of_nat WAL_HEADER_SIZE) then Some offset
             else if offset <? wr_tail_base r then None
             else Some (N.of_nat WAL_HEADER_SIZE + (offset - wr_tail_base r)));
    if N.of_nat (length (wr_data r)) <? start + N.of_nat n then None
    else Some (take n (drop (N.to_nat start) (wr_data r))).

(** [WalReader::read_header]. *)
Definition read_header (r : WalReader) : WalResult WalReader :=
  match read_at r 0 WAL_HEADER_SIZE with
  | None => Err Eof
  | Some hdr =>
      let magic := be_u32 hdr 0 in
      if negb (magic =? WAL_MAGIC_LITTLE_ENDIAN) && negb (magic =? WAL_MAGIC_BIG_ENDIAN) then Err (InvalidMagic magic)
      else
        let big := magic =? WAL_MAGIC_BIG_ENDIAN in
        let chksum1 := be_u32 hdr 24 in
        let chksum2 := be_u32 hdr 28 in
        v ←? wal_checksum big 0 0 (take 24 hdr);
        if negb (v.1 =? chksum1) || negb (v.2 =? chksum2) then Err Eof
        else
          let version := be_u32 hdr 4 in
          if negb (version =? WAL_VERSION) then Err (UnsupportedVersion version)
          else Ok (mkWalReader (wr_data r) (wr_tail_base r) (wr_frame_n r) big (be_u32 hdr 8) (be_u32 hdr 16) (be_u32 hdr 20)
                     chksum1 chksum2)
  end.

(** [WalReader::new_with_offset_inner]; [WalReader::new] is the one of base 0. *)
Definition new_with_offset_inner (data : list N) (tail_base : N) : WalResult WalReader :=
  read_header (mkWalReader data tail_base 0 false 0 0 0 0 0).
Definition wal_new (data : list N) : WalResult WalReader := new_with_offset_inner data 0.

(** [WalReader::read_frame_inner] into a buffer of [len] bytes: the reader after
    the call and, of a frame, its page number, its commit and its page. *)
Definition read_frame_inner (r : WalReader) (len : nat) (verify_checksum : bool) : WalReader * WalResult (N * N * list N) :=
  if negb (N.of_nat len =? wr_page_size r) then (r, Err (BufferSize (N.of_nat len) (wr_page_size r)))
  else
    let offset := (Z.of_nat WAL_HEADER_SIZE + wr_frame_n r * frame_size r)%Z in
    match read_at r offset WAL_FRAME_HEADER_SIZE, read_at r (offset + Z.of_nat WAL_FRAME_HEADER_SIZE) len with
    | Some hdr, Some page =>
        if negb (wr_salt1 r =? be_u32 hdr 8) || negb (wr_salt2 r =? be_u32 hdr 12) then (r, Err Eof)
        else
          let chksum1 := be_u32 hdr 16 in
          let chksum2 := be_u32 hdr 20 in
          let frame := (be_u32 hdr 0, be_u32 hdr 4, page) in
          if verify_checksum then
            match (c ←? wal_checksum (wr_big_endian r) (wr_chksum1 r) (wr_chksum2 r) (take 8 hdr);
                   wal_checksum (wr_big_endian r) c.1 c.2 page) with
            | Err e => (r, Err e)
            | Ok (c0, c1) =>
                let r := set_checksum r c0 c1 in
                if negb (c0 =? chksum1) || negb (c1 =? chksum2) then (r, Err Eof)
                else (set_frame_n r (wr_frame_n r + 1), Ok frame)
            end
          else (set_frame_n (set_checksum r chksum1 chksum2) (wr_frame_n r + 1), Ok frame)
    | _, _ => (r, Err Eof)
    end.

Definition read_frame (r : WalReader) (len : nat) : WalReader * WalResult (N * N * list N) := read_frame_inner r len true.

(** [WalReader::seek_to_offset]. *)
Definition seek_to_offset (r : WalReader) (offset : Z) (salt1 salt2 : N) : WalResult WalReader :=
  let r := set_salts r salt1 salt2 in
  let from := (offset - Z.of_nat WAL_HEADER_SIZE)%Z in
  if negb (Z.rem from (frame_size r) =? 0)%Z then Err (UnalignedOffset offset (wr_page_size r))
  else
    let r := set_frame_n r (Z.quot from (frame_size r) - 1) in
    match read_frame_inner r (N.to_nat (wr_page_size r)) false with
    | (r, Ok _) => Ok r
    | (_, Err _) => Err PrevFrameMismatch
    end.

(** [WalReader::new_with_offset] and [WalReader::new_with_offset_over_tail]. *)
Definition new_with_offset (data : list N) (offset : Z) (salt1 salt2 : N) : WalResult WalReader :=
  if (offset <=? Z.of_nat WAL_HEADER_SIZE)%Z then Err (OffsetTooSmall offset (Z.of_nat WAL_HEADER_SIZE))
  else
    r ←? new_with_offset_inner data 0;
    seek_to_offset r offset salt1 salt2.

Definition new_with_offset_over_tail (data : list N) (tail_base offset : Z) (salt1 salt2 : N) : WalResult WalReader :=
  if ((tail_base <? Z.of_nat WAL_HEADER_SIZE) || (offset <? tail_base))%Z
  then Err (OffsetTooSmall offset (Z.of_nat WAL_HEADER_SIZE))
  else
    r ←? new_with_offset_inner data (Z.to_N tail_base);
    seek_to_offset r offset salt1 salt2.

(** [WalReader::offset]. *)
Definition reader_offset (r : WalReader) : Z :=
  if (wr_frame_n r =? 0)%Z then 0 else (Z.of_nat WAL_HEADER_SIZE + (wr_frame_n r - 1) * frame_size r)%Z.

(** The [loop] of [page_map]. *)
Fixpoint page_map_loop (fuel : nat) (r : WalReader) (m tx_map : gmap N Z) (commit : N) :
    WalReader * WalResult (gmap N Z * N) :=
  match fuel with
  | O => (r, Err WalPanicked)
  | S fuel =>
      match read_frame r (N.to_nat (wr_page_size r)) with
      | (r, Err Eof) => (r, Ok (m, commit))
      | (r, Err e) => (r, Err e)
      | (r, Ok (pgno, fcommit, _)) =>
          let tx_map := <[pgno := reader_offset r]> tx_map in
          if negb (fcommit =? 0) then page_map_loop fuel r (tx_map ∪ m) ∅ fcommit
          else page_map_loop fuel r m tx_map commit
      end
  end.

(** [WalReader::page_map]: the offset of the latest committed version of each
    page, the end of the segment and the final size of the database. *)
Definition page_map (r : WalReader) : WalReader * WalResult (gmap N Z * Z * N) :=
  match page_map_loop (S (length (wr_data r))) r ∅ ∅ 0 with
  | (r, Err e) => (r, Err e)
  | (r, Ok (m, commit)) =>
      let m := filter (λ '(pgno, _), pgno ≤ commit) m in
      if bool_decide (m = ∅) then (r, Ok (m, 0%Z, 0))
      else
        let end_ := foldl (λ e offset, if (e =? 0) || (e <? offset) then offset else e)%Z 0%Z (map_to_list m).*2 in
        (r, Ok (m, (end_ + frame_size r)%Z, commit))
  end.

(** [WalReader::frame_salts_until_with]. *)
Fixpoint frame_salts_loop {E} (fuel : nat) (step : Z) (until : N * N) (frame_header_at : Z → result (option (list N)) E)
    (m : gset (N * N)) (offset : Z) : option (result (gset (N * N)) E) :=
  match fuel with
  | O => None
  | S fuel =>
      match frame_header_at offset with
      | Err e => Some (Err e)
      | Ok None => Some (Ok m)
      | Ok (Some hdr) =>
          let salts := (be_u32 hdr 8, be_u32 hdr 12) in
          let m := {[salts]} ∪ m in
          if bool_decide (salts = until) then Some (Ok m)
          else frame_salts_loop fuel step until frame_header_at m (offset + step)
      end
  end.

(** [WalReader::frame_salts_until]; [None] never comes out, see
    [frame_salts_terminates]. *)
Definition frame_salts_until (r : WalReader) (until : N * N) : option (result (gset (N * N)) Empty_set) :=
  frame_salts_loop (S (length (wr_data r))) (frame_size r) until
    (λ offset, Ok (read_at r offset WAL_FRAME_HEADER_SIZE)) ∅ (Z.of_nat WAL_HEADER_SIZE).

(** [frame_salts_until_in_file], over the length of the file and its exact
    reads. *)
Definition frame_salts_until_in_file {E} (len : N) (read_exact_at : N → nat → result (list N) E) (until : N * N) :
    option (result (WalResult (gset (N * N))) E) :=
  if len <? N.of_nat WAL_HEADER_SIZE then Some (Ok (Err Eof))
  else
    match read_exact_at 0 WAL_HEADER_SIZE with
    | Err e => Some (Err e)
    | Ok header =>
        match wal_new header with
        | Err e => Some (Ok (Err e))
        | Ok rd =>
            r ← frame_salts_loop (S (N.to_nat len)) (frame_size rd) until
                  (λ offset, if len <? Z.to_N offset + N.of_nat WAL_FRAME_HEADER_SIZE then Ok None
                             else result_map Some (read_exact_at (Z.to_N offset) WAL_FRAME_HEADER_SIZE))
                  ∅ (Z.of_nat WAL_HEADER_SIZE);
            Some (result_map Ok r)
        end
    end.

(** ** The tail reader *)

(** Readers that see the same bytes from [base] on, and agree on the rest. *)
Record same_from (base : Z) (r t : WalReader) : Prop := mkSameFrom {
  sf_read : ∀ offset n, (base ≤ offset)%Z → read_at r offset n = read_at t offset n;
  sf_frame_n : wr_frame_n r = wr_frame_n t;
  sf_big_endian : wr_big_endian r = wr_big_endian t;
  sf_page_size : wr_page_size r = wr_page_size t;
  sf_salt1 : wr_salt1 r = wr_salt1 t;
  sf_salt2 : wr_salt2 r = wr_salt2 t;
  sf_chksum1 : wr_chksum1 r = wr_chksum1 t;
  sf_chksum2 : wr_chksum2 r = wr_chksum2 t;
}.

Lemma tail_read_at header file base offset n r t :
  length header = WAL_HEADER_SIZE → (Z.of_nat WAL_HEADER_SIZE ≤ base ≤ offset)%Z →
  (base ≤ Z.of_nat (length (header ++ file)))%Z →
  wr_data r = header ++ file → wr_tail_base r = 0 →
  wr_data t = header ++ drop (Z.to_nat base - WAL_HEADER_SIZE) file → wr_tail_base t = Z.to_N base →
  read_at r offset n = read_at t offset n.
Proof.
  intros Hh Hb Hin Er Er0 Et Et0. rewrite length_app in Hin. unfold read_at. rewrite Er, Er0, Et, Et0. unfold WAL_HEADER_SIZE in *.
  rewrite (proj2 (Z.ltb_ge _ _)) by lia. rewrite (proj2 (N.eqb_neq (Z.to_N base) 0)) by lia. cbn [N.eqb orb].
  rewrite (proj2 (N.ltb_ge (Z.to_N offset) (N.of_nat 32))) by lia.
  rewrite (proj2 (N.ltb_ge (Z.to_N offset) (Z.to_N base))) by lia. cbn [mbind option_bind].
  rewrite !length_app, length_drop, Hh.
  destruct (N.ltb_spec (N.of_nat (32 + length file)) (Z.to_N offset + N.of_nat n)) as [Hlt|Hge].
  - by rewrite (proj2 (N.ltb_lt _ _)) by lia.
  - rewrite (proj2 (N.ltb_ge _ _)) by lia. f_equal. f_equal.
    rewrite (drop_app_ge header file) by lia. rewrite (drop_app_ge header) by lia. rewrite drop_drop, Hh. f_equal. lia.
Qed.

(** Both readers stop at the same place. *)
Ltac same_frame :=
  split; [done|]; split; [split; try done; cbn; lia|]; split; [cbn; lia|done].

(** A frame both readers see reads the same in both. *)
Lemma same_read_frame base r t len verify :
  same_from base r t → (base ≤ Z.of_nat WAL_HEADER_SIZE + wr_frame_n r * frame_size r)%Z →
  (read_frame_inner r len verify).2 = (read_frame_inner t len verify).2
  ∧ same_from base (read_frame_inner r len verify).1 (read_frame_inner t len verify).1
  ∧ (wr_frame_n r ≤ wr_frame_n (read_frame_inner r len verify).1)%Z
  ∧ frame_size (read_frame_inner r len verify).1 = frame_size r
  ∧ wr_page_size (read_frame_inner r len verify).1 = wr_page_size r.
Proof.
  intros [Hread Hn Hbe Hps Hs1 Hs2 Hc1 Hc2] Hbase. unfold read_frame_inner.
  assert (frame_size r = frame_size t) as Efs by (unfold frame_size; by rewrite Hps).
  rewrite <- Hn, <- Hbe, <- Hps, <- Hs1, <- Hs2, <- Hc1, <- Hc2, <- Efs.
  destruct (negb (N.of_nat len =? wr_page_size r)); [same_frame|].
  rewrite <- !Hread by lia.
  destruct (read_at r (Z.of_nat WAL_HEADER_SIZE + wr_frame_n r * frame_size r) WAL_FRAME_HEADER_SIZE) as [hdr|];
    [|same_frame].
  destruct (read_at r _ len) as [page|]; [|same_frame].
  destruct (negb _ || negb _); [same_frame|].
  destruct verify; [|same_frame].
  destruct (wal_checksum _ _ _ (take 8 hdr)) as [c|e]; [|same_frame].
  destruct (wal_checksum _ _ _ page) as [[c0 c1]|e]; [|same_frame].
  destruct (negb _ || negb _); (same_frame).
Qed.

(** The bytes a reader sees end at [limit]. *)
Definition ends_at (base limit : Z) (r : WalReader) : Prop :=
  ∀ offset n hdr, (base ≤ offset)%Z → read_at r offset n = Some hdr → (offset + Z.of_nat n ≤ limit)%Z.

Definition next_offset (r : WalReader) : Z := (Z.of_nat WAL_HEADER_SIZE + wr_frame_n r * frame_size r)%Z.

Lemma frame_size_pos r : (24 ≤ frame_size r)%Z.
Proof. unfold frame_size, WAL_FRAME_HEADER_SIZE. lia. Qed.

(** A read frame moves the reader one frame on. *)
Lemma read_frame_moves r len verify r' frame :
  read_frame_inner r len verify = (r', Ok frame) →
  (∃ hdr, read_at r (next_offset r) WAL_FRAME_HEADER_SIZE = Some hdr)
  ∧ next_offset r' = (next_offset r + frame_size r)%Z ∧ frame_size r' = frame_size r
  ∧ wr_data r' = wr_data r ∧ wr_tail_base r' = wr_tail_base r.
Proof.
  unfold read_frame_inner. destruct (negb _); [done|]. fold (next_offset r).
  destruct (read_at r (next_offset r) WAL_FRAME_HEADER_SIZE) as [hdr|] eqn:Eh; [|done].
  assert (∀ c0 c1, next_offset (set_frame_n (set_checksum r c0 c1) (wr_frame_n r + 1)) = (next_offset r + frame_size r)%Z) as Hnext.
  { intros c0 c1. unfold next_offset. change (frame_size (set_frame_n _ _)) with (frame_size r). cbn [set_frame_n wr_frame_n]. lia. }
  destruct (read_at r _ len) as [page|]; [|done]. destruct (negb _ || negb _); [done|].
  destruct verify; [|intros [= <- <-]; split; [by eexists|by split_and!]].
  destruct (wal_checksum _ _ _ (take 8 hdr)) as [c|]; [|done]. destruct (wal_checksum _ _ _ page) as [[c0 c1]|]; [|done].
  destruct (negb _ || negb _); [done|]. intros [= <- <-]. split; [by eexists|by split_and!].
Qed.

Lemma ends_at_same base limit r r' :
  wr_data r' = wr_data r → wr_tail_base r' = wr_tail_base r → ends_at base limit r → ends_at base limit r'.
Proof. intros Ed Et Hend offset n hdr Hb. unfold read_at. rewrite Ed, Et. apply Hend; done. Qed.

(** The loop reads the same pages with any fuel that covers the bytes left. *)
Lemma loop_same base limit fuel fuel' r t m tx commit :
  same_from base r t → ends_at base limit r → (base ≤ next_offset r)%Z →
  (limit - next_offset r < Z.of_nat fuel)%Z → (limit - next_offset r < Z.of_nat fuel')%Z → (0 < fuel)%nat → (0 < fuel')%nat →
  (page_map_loop fuel r m tx commit).2 = (page_map_loop fuel' t m tx commit).2
  ∧ frame_size (page_map_loop fuel r m tx commit).1 = frame_size (page_map_loop fuel' t m tx commit).1.
Proof.
  revert fuel' r t m tx commit. induction fuel as [|fuel IH]; intros fuel' r t m tx commit Hs Hend Hb Hf Hf' H0 H0'; [lia|].
  destruct fuel' as [|fuel']; [lia|]. cbn [page_map_loop]. unfold read_frame. rewrite <- (sf_page_size _ _ _ Hs).
  set (len := N.to_nat (wr_page_size r)).
  destruct (same_read_frame base r t len true Hs Hb) as (E2 & Hs' & _ & Efs & _).
  pose proof (read_frame_moves r len true) as Hmove.
  destruct (read_frame_inner r len true) as [r' res], (read_frame_inner t len true) as [t' res']. cbn [fst snd] in *. subst res'.
  assert (frame_size r' = frame_size t') as Est by (unfold frame_size; by rewrite (sf_page_size _ _ _ Hs')).
  destruct res as [[[pgno fcommit] page]|e]; [|by destruct e].
  destruct (Hmove r' (pgno, fcommit, page) eq_refl) as ([hdr Hin%Hend] & Hnext & _ & Ed & Et); [|done].
  change (Z.of_nat WAL_FRAME_HEADER_SIZE) with 24%Z in Hin.
  pose proof (frame_size_pos r) as Hpos.
  assert (reader_offset r' = reader_offset t') as ->.
  { unfold reader_offset. by rewrite (sf_frame_n _ _ _ Hs'), Est. }
  destruct (negb _); (apply IH; [done|by eapply ends_at_same|lia..]).
Qed.

Lemma page_map_same base limit r t :
  same_from base r t → ends_at base limit r → (base ≤ next_offset r)%Z →
  (limit - next_offset r ≤ Z.of_nat (length (wr_data r)))%Z → (limit - next_offset r ≤ Z.of_nat (length (wr_data t)))%Z →
  (page_map r).2 = (page_map t).2.
Proof.
  intros Hs Hend Hb Hr Ht.
  destruct (loop_same base limit (S (length (wr_data r))) (S (length (wr_data t))) r t ∅ ∅ 0 Hs Hend Hb) as [E2 E1]; [lia..|].
  unfold page_map. destruct (page_map_loop _ r _ _ _) as [r' res], (page_map_loop _ t _ _ _) as [t' res'].
  cbn [fst snd] in *. subst res'. destruct res as [[m commit]|]; [|done]. destruct (bool_decide _); [done|]. cbn [snd]. by rewrite E1.
Qed.

(** The header reads the same at the front of any bytes. *)
Lemma read_header_front header rest base :
  length header = WAL_HEADER_SIZE →
  match new_with_offset_inner header 0, new_with_offset_inner (header ++ rest) base with
  | Ok r, Ok t => wr_data t = header ++ rest ∧ wr_tail_base t = base ∧ wr_frame_n t = wr_frame_n r
      ∧ wr_big_endian t = wr_big_endian r ∧ wr_page_size t = wr_page_size r ∧ wr_salt1 t = wr_salt1 r
      ∧ wr_salt2 t = wr_salt2 r ∧ wr_chksum1 t = wr_chksum1 r ∧ wr_chksum2 t = wr_chksum2 r
      ∧ wr_page_size r = be_u32 header 8
  | Err e, Err e' => e = e'
  | _, _ => False
  end.
Proof.
  intros Hh. unfold new_with_offset_inner, read_header, read_at. cbn [wr_data wr_tail_base wr_frame_n].
  change (0 <? 0)%Z with false. cbn [orb N.eqb]. change (Z.to_N 0 <? N.of_nat WAL_HEADER_SIZE) with true. rewrite orb_true_r.
  cbn [mbind option_bind]. rewrite length_app, Hh.
  rewrite !(proj2 (N.ltb_ge _ _)) by lia. change (N.to_nat (Z.to_N 0)) with 0%nat. rewrite !drop_0.
  rewrite take_ge by lia. rewrite take_app_length' by done.
  destruct (negb _ && negb _); [done|]. destruct (wal_checksum _ _ _ _) as [v|]; [|done].
  destruct (negb _ || negb _); [done|]. destruct (negb _); [done|]. by split_and!.
Qed.

Lemma whole_ends_at r : wr_tail_base r = 0 → ends_at 0 (Z.of_nat (length (wr_data r))) r.
Proof.
  intros Et offset n hdr Hb. unfold read_at. rewrite Et, (proj2 (Z.ltb_ge _ _)) by lia. cbn [N.eqb orb mbind option_bind].
  destruct (N.ltb_spec (N.of_nat (length (wr_data r))) (Z.to_N offset + N.of_nat n)); [done|]. lia.
Qed.

(** The two readers seek to the same place, or fail the same way. *)
Lemma seek_same base r t offset salt1 salt2 :
  same_from base r t → (base + frame_size r ≤ offset)%Z →
  match seek_to_offset r offset salt1 salt2, seek_to_offset t offset salt1 salt2 with
  | Ok r', Ok t' => same_from base r' t' ∧ next_offset r' = offset
      ∧ wr_data r' = wr_data r ∧ wr_tail_base r' = wr_tail_base r ∧ wr_data t' = wr_data t
  | Err e, Err e' => e = e'
  | _, _ => False
  end.
Proof.
  intros Hs Hoff. unfold seek_to_offset. set (from := (offset - Z.of_nat WAL_HEADER_SIZE)%Z).
  assert (frame_size t = frame_size r) as Efs by (unfold frame_size; by rewrite (sf_page_size _ _ _ Hs)).
  change (frame_size (set_salts r salt1 salt2)) with (frame_size r).
  change (frame_size (set_salts t salt1 salt2)) with (frame_size t).
  change (wr_page_size (set_salts r salt1 salt2)) with (wr_page_size r).
  change (wr_page_size (set_salts t salt1 salt2)) with (wr_page_size t).
  rewrite Efs, <- (sf_page_size _ _ _ Hs). destruct (Z.eqb_spec (Z.rem from (frame_size r)) 0) as [Hrem|_]; cbn [negb]; [|done].
  pose proof (frame_size_pos r) as Hpos. pose proof (Z.quot_rem' from (frame_size r)) as Hq. rewrite Hrem in Hq.
  set (n := (Z.quot from (frame_size r) - 1)%Z).
  set (r1 := set_frame_n (set_salts r salt1 salt2) n). set (t1 := set_frame_n (set_salts t salt1 salt2) n).
  change (wr_page_size r1) with (wr_page_size r). change (wr_page_size t1) with (wr_page_size t).
  rewrite <- (sf_page_size _ _ _ Hs).
  assert (next_offset r1 = offset - frame_size r)%Z as En.
  { unfold next_offset. change (frame_size r1) with (frame_size r). cbn [r1 set_frame_n wr_frame_n]. unfold n, from in *. lia. }
  assert (same_from base r1 t1) as Hs1 by (destruct Hs; by split).
  destruct (same_read_frame base r1 t1 (N.to_nat (wr_page_size r)) false Hs1) as (E2 & Hs' & _).
  { fold (next_offset r1). lia. }
  pose proof (read_frame_moves r1 (N.to_nat (wr_page_size r)) false) as Hr.
  pose proof (read_frame_moves t1 (N.to_nat (wr_page_size r)) false) as Ht.
  destruct (read_frame_inner r1 _ false) as [r' res], (read_frame_inner t1 _ false) as [t' res']. cbn [fst snd] in *. subst res'.
  destruct res as [frame|e]; [|done]. destruct (Hr r' frame eq_refl) as (_ & Hn & _ & Hd & Htb).
  destruct (Ht t' frame eq_refl) as (_ & _ & _ & Hd' & _). split_and!; try done.
  rewrite Hn, En. change (frame_size r1) with (frame_size r). lia.
Qed.

(** resuming over the tail of a WAL is resuming over the whole file.  Where
    the tail holds the frame before the offset, the reader of the header and
    the tail is refused with the same error as the reader of the whole file,
    or both are accepted and give the same page map, end and size. *)
Theorem tail_reader_exact header file base offset salt1 salt2 :
  length header = WAL_HEADER_SIZE → (Z.of_nat WAL_HEADER_SIZE ≤ base ≤ Z.of_nat (length (header ++ file)))%Z →
  (base + Z.of_N (be_u32 header 8) + Z.of_nat WAL_FRAME_HEADER_SIZE ≤ offset)%Z →
  match new_with_offset (header ++ file) offset salt1 salt2,
        new_with_offset_over_tail (header ++ drop (Z.to_nat base - WAL_HEADER_SIZE) file) base offset salt1 salt2 with
  | Ok r, Ok t => (page_map r).2 = (page_map t).2
  | Err e, Err e' => e = e'
  | _, _ => False
  end.
Proof.
  intros Hh Hbase Hoff. unfold new_with_offset, new_with_offset_over_tail.
  change (Z.of_nat WAL_HEADER_SIZE) with 32%Z in *. change (Z.of_nat WAL_FRAME_HEADER_SIZE) with 24%Z in *.
  rewrite (proj2 (Z.leb_gt _ _)), (proj2 (Z.ltb_ge base 32)), (proj2 (Z.ltb_ge offset base)) by lia. cbn [orb].
  set (tail := drop (Z.to_nat base - WAL_HEADER_SIZE) file).
  pose proof (read_header_front header file 0 Hh) as Hr. pose proof (read_header_front header tail (Z.to_N base) Hh) as Ht.
  destruct (new_with_offset_inner header 0) as [h|e]; cycle 1.
  { destruct (new_with_offset_inner (header ++ file) 0), (new_with_offset_inner (header ++ tail) _); by subst. }
  destruct (new_with_offset_inner (header ++ file) 0) as [r|]; [|done].
  destruct (new_with_offset_inner (header ++ tail) _) as [t|]; [|done].
  destruct Hr as (Rd & Rb & Rn & Re & Rp & R1 & R2 & Rc1 & Rc2 & Ep), Ht as (Td & Tb & Tn & Te & Tp & T1 & T2 & Tc1 & Tc2 & _).
  assert (same_from base r t) as Hs.
  { split; try congruence. intros o n Ho. apply (tail_read_at header file base o n r t Hh); try done; unfold WAL_HEADER_SIZE; lia. }
  assert (base + frame_size r ≤ offset)%Z as Hfs by (unfold frame_size, WAL_FRAME_HEADER_SIZE; rewrite Rp, Ep; lia).
  pose proof (seek_same base r t offset salt1 salt2 Hs Hfs) as Hseek.
  destruct (seek_to_offset r _ _ _) as [r'|], (seek_to_offset t _ _ _) as [t'|]; try done.
  destruct Hseek as (Hs' & Hn & Hd & Hb & Hd'). pose proof (frame_size_pos r) as Hpos.
  apply (page_map_same base (Z.of_nat (length (wr_data r')))); [done| |lia|lia|].
  - intros o n hdr Ho. apply whole_ends_at; [congruence|lia].
  - rewrite Hd, Hd', Rd, Td, Hn. unfold tail. rewrite !length_app, length_drop. unfold WAL_HEADER_SIZE in *. lia.
Qed.

(** ** The log SQLite writes *)

Record WalFrame := mkWalFrame {
  wf_pgno : N;
  wf_commit : N;
  wf_data : list N;
}.

(** The running checksum over aligned bytes. *)
Definition roll_sum (big : bool) (c : N * N) (bytes : list N) : N * N :=
  match wal_checksum big c.1 c.2 bytes with Ok c => c | Err _ => c end.

Definition header_prefix (big : bool) (page_size sequence salt1 salt2 : N) : list N :=
  be_bytes 4 (if big then WAL_MAGIC_BIG_ENDIAN else WAL_MAGIC_LITTLE_ENDIAN) ++ be_bytes 4 WAL_VERSION
  ++ be_bytes 4 page_size ++ be_bytes 4 sequence ++ be_bytes 4 salt1 ++ be_bytes 4 salt2.

Definition sum_bytes (c : N * N) : list N := be_bytes 4 c.1 ++ be_bytes 4 c.2.

Definition header_sum (big : bool) (page_size sequence salt1 salt2 : N) : N * N :=
  roll_sum big (0, 0) (header_prefix big page_size sequence salt1 salt2).

Definition wal_header (big : bool) (page_size sequence salt1 salt2 : N) : list N :=
  header_prefix big page_size sequence salt1 salt2 ++ sum_bytes (header_sum big page_size sequence salt1 salt2).

Definition frame_prefix_bytes (f : WalFrame) : list N := be_bytes 4 (wf_pgno f) ++ be_bytes 4 (wf_commit f).

Definition frame_sum (big : bool) (c : N * N) (f : WalFrame) : N * N :=
  roll_sum big (roll_sum big c (frame_prefix_bytes f)) (wf_data f).

Definition wal_frame (big : bool) (salt1 salt2 : N) (c : N * N) (f : WalFrame) : list N :=
  (frame_prefix_bytes f ++ be_bytes 4 salt1 ++ be_bytes 4 salt2 ++ sum_bytes (frame_sum big c f)) ++ wf_data f.

Fixpoint wal_frames (big : bool) (salt1 salt2 : N) (c : N * N) (frames : list WalFrame) : list N :=
  match frames with
  | [] => []
  | f :: frames => wal_frame big salt1 salt2 c f ++ wal_frames big salt1 salt2 (frame_sum big c f) frames
  end.

(** The bytes go on with a frame of the same log. *)
Definition continues (big : bool) (page_size salt1 salt2 : N) (c : N * N) (rest : list N) : bool :=
  (N.of_nat WAL_FRAME_HEADER_SIZE + page_size <=? N.of_nat (length rest))
  && (be_u32 rest 8 =? salt1) && (be_u32 rest 12 =? salt2)
  && (let c := roll_sum big (roll_sum big c (take 8 rest)) (take (N.to_nat page_size) (drop WAL_FRAME_HEADER_SIZE rest)) in
      (c.1 =? be_u32 rest 16) && (c.2 =? be_u32 rest 20)).

Definition frame_ok (page_size : N) (f : WalFrame) : Prop :=
  wf_pgno f ≤ u32_max ∧ wf_commit f ≤ u32_max ∧ N.of_nat (length (wf_data f)) = page_size.

(** The frames up to the last commit record, and the last place of a page among
    frames written from [offset] on. *)
Fixpoint committed (frames : list WalFrame) : list WalFrame :=
  match frames with
  | [] => []
  | f :: frames =>
      match committed frames with
      | [] => if wf_commit f =? 0 then [] else [f]
      | done_ => f :: done_
      end
  end.

Definition database_size (frames : list WalFrame) : N := default 0 (wf_commit <$> last (committed frames)).

Fixpoint newest (step offset : Z) (p : N) (frames : list WalFrame) : option Z :=
  match frames with
  | [] => None
  | f :: frames =>
      match newest step (offset + step) p frames with
      | Some o => Some o
      | None => if wf_pgno f =? p then Some offset else None
      end
  end.

(** *** Checksums *)

Lemma aligned_checksum big n s0 s1 b :
  length b = (8 * n)%nat → s0 ≤ u32_max → s1 ≤ u32_max →
  ∃ c, wal_checksum big s0 s1 b = Ok c ∧ c.1 ≤ u32_max ∧ c.2 ≤ u32_max.
Proof.
  assert (∀ x, u32_wrap x ≤ u32_max) as Hw by (intros x; unfold u32_wrap, u32_max; lia).
  revert s0 s1 b. induction n as [|n IH]; intros s0 s1 b Hlen H0 H1.
  - destruct b; [|done]. by eexists.
  - do 8 (destruct b as [|? b]; [cbn in Hlen; lia|]). cbn [wal_checksum]. apply IH; [cbn in Hlen; lia|apply Hw..].
Qed.

(** The running checksum is one of machine words. *)
Definition sum_ok (c : N * N) : Prop := c.1 ≤ u32_max ∧ c.2 ≤ u32_max.

Lemma roll_sum_ok big c b n :
  length b = (8 * n)%nat → sum_ok c → wal_checksum big c.1 c.2 b = Ok (roll_sum big c b) ∧ sum_ok (roll_sum big c b).
Proof.
  intros Hlen [H0 H1]. unfold roll_sum. destruct (aligned_checksum big n c.1 c.2 b Hlen H0 H1) as (c' & -> & ?). done.
Qed.

Lemma be_u32_at b n x : take 4 (drop n b) = be_bytes 4 x → x ≤ u32_max → be_u32 b n = x.
Proof.
  intros E Hx. unfold be_u32. rewrite E. apply big_endian_be_bytes. change (width_bound 4) with 4294967296. unfold u32_max in Hx. lia.
Qed.

Lemma length_wal_frame big page_size salt1 salt2 c f :
  frame_ok page_size f → length (wal_frame big salt1 salt2 c f) = (24 + N.to_nat page_size)%nat.
Proof.
  intros (_ & _ & Hlen). unfold wal_frame. rewrite length_app.
  change (length (frame_prefix_bytes f ++ be_bytes 4 salt1 ++ be_bytes 4 salt2 ++ sum_bytes (frame_sum big c f))) with 24%nat. lia.
Qed.

Lemma length_wal_frames big page_size salt1 salt2 c frames :
  Forall (frame_ok page_size) frames → (length frames ≤ length (wal_frames big salt1 salt2 c frames))%nat.
Proof.
  intros Hfs. revert c. induction Hfs as [|f frames Hf _ IH]; intros c; [done|]. cbn [wal_frames length].
  rewrite length_app, (length_wal_frame big page_size) by done. specialize (IH (frame_sum big c f)). lia.
Qed.

(** What the loop makes of the frames, as a function of them. *)
Fixpoint scan (page_size : N) (offset : Z) (frames : list WalFrame) (m tx_map : gmap N Z) (commit : N) : gmap N Z * N :=
  match frames with
  | [] => (m, commit)
  | f :: frames =>
      let tx_map := <[wf_pgno f := offset]> tx_map in
      let next := (offset + 24 + Z.of_N page_size)%Z in
      if negb (wf_commit f =? 0) then scan page_size next frames (tx_map ∪ m) ∅ (wf_commit f) else scan page_size next frames m tx_map commit
  end.

(** The scan keeps the newest committed place of each page. *)
Lemma scan_spec page_size offset frames m tx_map commit p :
  let '(m', commit') := scan page_size offset frames m tx_map commit in
  commit' = default commit (wf_commit <$> last (committed frames))
  ∧ m' !! p = match committed frames with
              | [] => m !! p
              | done_ => match newest (24 + Z.of_N page_size) offset p done_ with
                         | Some o => Some o
                         | None => match tx_map !! p with Some o => Some o | None => m !! p end
                         end
              end.
Proof.
  revert offset m tx_map commit. induction frames as [|f frames IH]; intros offset m tx_map commit; [done|]. cbn [scan committed].
  replace (offset + 24 + Z.of_N page_size)%Z with (offset + (24 + Z.of_N page_size))%Z by lia.
  set (step := (24 + Z.of_N page_size)%Z) in *. destruct (N.eqb_spec (wf_commit f) 0) as [E0|Hne]; cbn [negb].
  - specialize (IH (offset + step)%Z m (<[wf_pgno f := offset]> tx_map) commit).
    destruct (scan _ _ frames _ _ _) as [m' commit']. destruct (committed frames) as [|g gs]; [done|].
    destruct IH as [-> ->]. split; [done|]. cbn [newest]. fold (newest step). destruct (newest step (offset + step) p (g :: gs)) as [o|] eqn:En.
    + cbn [newest] in En. by rewrite En.
    + cbn [newest] in En. rewrite En. destruct (N.eqb_spec (wf_pgno f) p) as [->|Hp]; [by rewrite lookup_insert_eq|by rewrite lookup_insert_ne].
  - specialize (IH (offset + step)%Z (<[wf_pgno f := offset]> tx_map ∪ m) ∅ (wf_commit f)).
    destruct (scan _ _ frames _ _ _) as [m' commit']. destruct IH as [-> ->].
    assert ((<[wf_pgno f := offset]> tx_map ∪ m) !! p
            = if wf_pgno f =? p then Some offset else match tx_map !! p with Some o => Some o | None => m !! p end) as Eu.
    { destruct (N.eqb_spec (wf_pgno f) p) as [->|Hp].
      - rewrite lookup_union, lookup_insert_eq. by destruct (m !! p).
      - rewrite lookup_union, lookup_insert_ne by done. by destruct (tx_map !! p), (m !! p). }
    destruct (committed frames) as [|g gs]; rewrite ?lookup_empty, Eu.
    + split; [done|]. cbn [newest]. by destruct (wf_pgno f =? p).
    + split; [|remember (g :: gs) as l].
      { change (last (f :: g :: gs)) with (last (g :: gs)). destruct (last (g :: gs)) eqn:El; [done|by apply last_None in El]. }
      cbn [newest]. destruct (newest step (offset + step) p l); [done|]. by destruct (wf_pgno f =? p).
Qed.
(** *** Reading the log back *)

Section Log.
Context (big : bool) (page_size salt1 salt2 : N) (words : nat).
Hypothesis (Hps : page_size = N.of_nat (8 * words)) (Hsz : page_size ≤ u32_max).
Hypothesis (Hsalt1 : salt1 ≤ u32_max) (Hsalt2 : salt2 ≤ u32_max).

(** The reader stands before [log] with the running checksum [c]. *)
Record stands (r : WalReader) (pre log : list N) (c : N * N) : Prop := mkStands {
  st_data : wr_data r = pre ++ log;
  st_tail_base : wr_tail_base r = 0;
  st_next : next_offset r = Z.of_nat (length pre);
  st_big : wr_big_endian r = big;
  st_page_size : wr_page_size r = page_size;
  st_salts : wr_salt1 r = salt1 ∧ wr_salt2 r = salt2;
  st_sum : (wr_chksum1 r, wr_chksum2 r) = c;
}.

Lemma stands_read r pre log c a n :
  stands r pre log c →
  read_at r (next_offset r + Z.of_nat a) n = if Nat.ltb (length log) (a + n) then None else Some (take n (drop a log)).
Proof.
  intros [Hd Ht Hn _ _ _ _]. unfold read_at. rewrite Hd, Ht, Hn, (proj2 (Z.ltb_ge _ _)) by lia. cbn [N.eqb orb mbind option_bind].
  rewrite length_app. destruct (Nat.ltb_spec (length log) (a + n)).
  - by rewrite (proj2 (N.ltb_lt _ _)) by lia.
  - rewrite (proj2 (N.ltb_ge _ _)) by lia. rewrite drop_app_ge by lia. do 3 f_equal. lia.
Qed.

(** One turn of the reader, as a function of the bytes before it. *)
Lemma stands_frame r pre log c :
  stands r pre log c → sum_ok c →
  let sum := roll_sum big (roll_sum big c (take 8 log)) (take (N.to_nat page_size) (drop WAL_FRAME_HEADER_SIZE log)) in
  if continues big page_size salt1 salt2 c log
  then read_frame r (N.to_nat page_size)
       = (set_frame_n (set_checksum r sum.1 sum.2) (wr_frame_n r + 1),
          Ok (be_u32 log 0, be_u32 log 4, take (N.to_nat page_size) (drop WAL_FRAME_HEADER_SIZE log)))
  else ∃ r', read_frame r (N.to_nat page_size) = (r', Err Eof) ∧ frame_size r' = frame_size r.
Proof.
  intros Hst Hc sum. pose proof Hst as [_ _ _ Hb Hp [Hs1 Hs2] Hsum].
  assert (wr_chksum1 r = c.1 ∧ wr_chksum2 r = c.2) as [E1 E2] by (by rewrite <- Hsum).
  unfold continues, read_frame, read_frame_inner. rewrite Hp, N2Nat.id, N.eqb_refl. cbn [negb]. fold (next_offset r).
  pose proof (stands_read _ _ _ _ 0 WAL_FRAME_HEADER_SIZE Hst) as Hhdr. rewrite Z.add_0_r in Hhdr.
  rewrite Hhdr, (stands_read _ _ _ _ WAL_FRAME_HEADER_SIZE (N.to_nat page_size) Hst). unfold WAL_FRAME_HEADER_SIZE in *.
  destruct (Nat.ltb_spec (length log) (0 + 24)) as [Hsh|Hlong].
  { rewrite (proj2 (N.leb_gt _ _)) by lia. by exists r. }
  destruct (Nat.ltb_spec (length log) (24 + N.to_nat page_size)) as [Hsh|Hlong'].
  { rewrite (proj2 (N.leb_gt _ _)) by lia. by exists r. }
  rewrite (proj2 (N.leb_le _ _)) by lia. rewrite drop_0. cbn [andb].
  assert (∀ k, (k + 4 ≤ 24)%nat → be_u32 (take 24 log) k = be_u32 log k) as Hbe.
  { intros k Hk. unfold be_u32. rewrite skipn_firstn_comm, take_take. do 3 f_equal. lia. }
  rewrite !Hbe by lia. rewrite Hs1, Hs2, (N.eqb_sym salt1), (N.eqb_sym salt2).
  destruct (be_u32 log 8 =? salt1); cbn [negb orb andb]; [|by exists r].
  destruct (be_u32 log 12 =? salt2); cbn [negb orb andb]; [|by exists r].
  rewrite take_take, Nat.min_l by lia. rewrite Hb, E1, E2.
  destruct (roll_sum_ok big c (take 8 log) 1) as [-> Hok]; [rewrite length_take; lia|done|].
  destruct (roll_sum_ok big (roll_sum big c (take 8 log)) (take (N.to_nat page_size) (drop 24 log)) words) as [-> _].
  { rewrite length_take, length_drop. lia. }
  { done. }
  fold sum. destruct sum as [c0 c1]. cbn [fst snd].
  destruct (c0 =? be_u32 log 16); cbn [negb orb andb]; [|by eexists].
  destruct (c1 =? be_u32 log 20); cbn [negb orb andb]; [done|by eexists].
Qed.

Lemma frame_sum_ok c f : frame_ok page_size f → sum_ok c → sum_ok (frame_sum big c f).
Proof.
  intros (_ & _ & Hlen) Hc. unfold frame_sum. apply (roll_sum_ok big _ _ words); [lia|]. by apply (roll_sum_ok big _ _ 1).
Qed.

(** A written frame reads back. *)
Lemma wal_frame_reads c f rest :
  frame_ok page_size f → sum_ok c →
  let log := wal_frame big salt1 salt2 c f ++ rest in
  continues big page_size salt1 salt2 c log = true ∧ be_u32 log 0 = wf_pgno f ∧ be_u32 log 4 = wf_commit f
  ∧ roll_sum big (roll_sum big c (take 8 log)) (take (N.to_nat page_size) (drop WAL_FRAME_HEADER_SIZE log)) = frame_sum big c f.
Proof.
  intros Hf Hc log. pose proof (frame_sum_ok c f Hf Hc) as [Hs0 Hs1]. pose proof Hf as (Hp & Hcm & Hlen).
  assert (take 8 log = frame_prefix_bytes f) as E8 by done.
  assert (take (N.to_nat page_size) (drop WAL_FRAME_HEADER_SIZE log) = wf_data f) as Ed.
  { change (drop WAL_FRAME_HEADER_SIZE log) with (wf_data f ++ rest). apply take_app_length'. lia. }
  rewrite E8, Ed. fold (frame_sum big c f).
  assert (be_u32 log 0 = wf_pgno f ∧ be_u32 log 4 = wf_commit f ∧ be_u32 log 8 = salt1 ∧ be_u32 log 12 = salt2
    ∧ be_u32 log 16 = (frame_sum big c f).1 ∧ be_u32 log 20 = (frame_sum big c f).2) as (E0 & E4 & Es1 & Es2 & Ec1 & Ec2).
  { split_and!; (apply be_u32_at; [reflexivity|done]). }
  split_and!; [|done..]. unfold continues. rewrite Es1, Es2, Ec1, Ec2, E8, Ed. fold (frame_sum big c f). rewrite !N.eqb_refl, !andb_true_r.
  apply N.leb_le. unfold log. rewrite length_app, (length_wal_frame big page_size) by done. unfold WAL_FRAME_HEADER_SIZE. lia.
Qed.

Lemma loop_scans fuel r pre frames rest c m tx_map commit :
  stands r pre (wal_frames big salt1 salt2 c frames ++ rest) c → sum_ok c → Forall (frame_ok page_size) frames →
  continues big page_size salt1 salt2 (foldl (frame_sum big) c frames) rest = false →
  (length frames < fuel)%nat → (0 ≤ wr_frame_n r)%Z →
  ∃ r', page_map_loop fuel r m tx_map commit = (r', Ok (scan page_size (Z.of_nat (length pre)) frames m tx_map commit))
        ∧ frame_size r' = frame_size r.
Proof.
  revert fuel r pre c m tx_map commit. induction frames as [|f frames IH]; intros fuel r pre c m tx_map commit Hst Hc Hfs Hend Hfuel Hn;
    (destruct fuel as [|fuel]; [lia|]); cbn [page_map_loop scan wal_frames foldl length] in *; rewrite (st_page_size _ _ _ _ Hst).
  - pose proof (stands_frame r pre rest c Hst Hc) as Hread. rewrite Hend in Hread. destruct Hread as (r' & -> & Efs). by exists r'.
  - apply Forall_cons in Hfs as [Hf Hfs]. rewrite <- app_assoc in Hst.
    set (log := wal_frames big salt1 salt2 (frame_sum big c f) frames ++ rest) in *.
    pose proof (stands_frame r pre _ c Hst Hc) as Hread.
    destruct (wal_frame_reads c f log Hf Hc) as (Hcont & E0 & E4 & Esum). rewrite Hcont, Esum, E0, E4 in Hread. rewrite Hread.
    set (r' := set_frame_n _ _).
    assert (frame_size r = 24 + Z.of_N page_size)%Z as Efs.
    { unfold frame_size, WAL_FRAME_HEADER_SIZE. rewrite (st_page_size _ _ _ _ Hst). lia. }
    assert (reader_offset r' = Z.of_nat (length pre)) as ->.
    { rewrite <- (st_next _ _ _ _ Hst). unfold reader_offset, next_offset. change (frame_size r') with (frame_size r).
      change (wr_frame_n r') with (wr_frame_n r + 1)%Z. rewrite (proj2 (Z.eqb_neq _ _)) by lia. lia. }
    assert (stands r' (pre ++ wal_frame big salt1 salt2 c f) log (frame_sum big c f)) as Hst'.
    { destruct Hst as [Hd Ht Hnx Hb Hp Hs Hsum]. split; try done; [by rewrite <- app_assoc| |by destruct (frame_sum big c f)].
      unfold next_offset in *. change (frame_size r') with (frame_size r). change (wr_frame_n r') with (wr_frame_n r + 1)%Z.
      rewrite length_app, (length_wal_frame big page_size) by done. lia. }
    replace (Z.of_nat (length pre) + 24 + Z.of_N page_size)%Z with (Z.of_nat (length (pre ++ wal_frame big salt1 salt2 c f)))
      by (rewrite length_app, (length_wal_frame big page_size) by done; lia).
    assert (0 ≤ wr_frame_n r')%Z by (change (wr_frame_n r') with (wr_frame_n r + 1)%Z; lia).
    change (frame_size r) with (frame_size r').
    destruct (negb _); (apply (IH fuel r' _ (frame_sum big c f)); [done|by apply frame_sum_ok|done|done|lia|done]).
Qed.

End Log.

(** The fold of [page_map] over the offsets is their maximum. *)
Lemma fold_end l e :
  (0 ≤ e)%Z → Forall (λ o, 0 < o)%Z l →
  let r := foldl (λ e o, if (e =? 0) || (e <? o) then o else e)%Z e l in
  (e ≤ r)%Z ∧ Forall (λ o, o ≤ r)%Z l ∧ (r = e ∨ r ∈ l).
Proof.
  revert e. induction l as [|o l IH]; intros e He Hl; [cbn; split_and!; [lia|done|by left]|].
  apply Forall_cons in Hl as [Ho Hl]. cbn [foldl].
  set (e' := if ((e =? 0) || (e <? o))%Z then o else e).
  assert (e ≤ e' ∧ o ≤ e' ∧ (e' = e ∨ e' = o))%Z as (H1 & H2 & H3).
  { unfold e'. destruct (Z.eqb_spec e 0), (Z.ltb_spec e o); cbn [orb]; split_and!; try lia; auto. }
  destruct (IH e') as (H4 & H5 & H6); [lia|done|]. split_and!; [lia|constructor; [lia|done]|].
  destruct H6 as [H6|H6]; [|by right; right]. rewrite H6. destruct H3 as [->| ->]; [by left|right; by left].
Qed.

Lemma newest_positive step offset p frames o : (0 < offset)%Z → (0 ≤ step)%Z → newest step offset p frames = Some o → (0 < o)%Z.
Proof.
  revert offset. induction frames as [|f frames IH]; intros offset Ho Hs; [done|]. cbn [newest].
  destruct (newest step (offset + step) p frames) as [x|] eqn:E.
  - intros [= <-]. apply (IH (offset + step)%Z); [lia|done|done].
  - destruct (wf_pgno f =? p); [|done]. by intros [= <-].
Qed.

Lemma length_wal_header big page_size sequence salt1 salt2 : length (wal_header big page_size sequence salt1 salt2) = 32%nat.
Proof. done. Qed.

Lemma wal_header_reads big page_size sequence salt1 salt2 rest :
  page_size ≤ u32_max → salt1 ≤ u32_max → salt2 ≤ u32_max →
  let header := wal_header big page_size sequence salt1 salt2 in
  let c := header_sum big page_size sequence salt1 salt2 in
  wal_new (header ++ rest) = Ok (mkWalReader (header ++ rest) 0 0 big page_size salt1 salt2 c.1 c.2) ∧ sum_ok c.
Proof.
  intros Hp H1 H2 header c.
  destruct (roll_sum_ok big (0, 0) (header_prefix big page_size sequence salt1 salt2) 3) as [Hsum Hok]; [done|done|].
  fold (header_sum big page_size sequence salt1 salt2) in Hsum, Hok. fold c in Hsum, Hok. split; [|done].
  unfold wal_new, new_with_offset_inner, read_header.
  assert (read_at (mkWalReader (header ++ rest) 0 0 false 0 0 0 0 0) 0 WAL_HEADER_SIZE = Some header) as ->.
  { unfold read_at. cbn [wr_data wr_tail_base N.eqb orb mbind option_bind]. change (0 <? 0)%Z with false. cbv iota.
    rewrite length_app. change (length header) with 32%nat. rewrite (proj2 (N.ltb_ge _ _)) by (unfold WAL_HEADER_SIZE; lia).
    change (N.to_nat (Z.to_N 0)) with 0%nat. by rewrite drop_0, take_app_length'. }
  assert (be_u32 header 0 = (if big then WAL_MAGIC_BIG_ENDIAN else WAL_MAGIC_LITTLE_ENDIAN)) as ->.
  { apply be_u32_at; [reflexivity|]. by destruct big. }
  assert (be_u32 header 4 = WAL_VERSION ∧ be_u32 header 8 = page_size ∧ be_u32 header 16 = salt1 ∧ be_u32 header 20 = salt2
          ∧ be_u32 header 24 = c.1 ∧ be_u32 header 28 = c.2) as (-> & -> & -> & -> & -> & ->).
  { destruct Hok. split_and!; (apply be_u32_at; [reflexivity|done]). }
  change (take 24 header) with (header_prefix big page_size sequence salt1 salt2).
  destruct big; cbn [fst snd] in Hsum; cbn [N.eqb Pos.eqb negb andb WAL_MAGIC_BIG_ENDIAN WAL_MAGIC_LITTLE_ENDIAN]; rewrite Hsum;
    cbn [fst snd]; rewrite !N.eqb_refl; done.
Qed.

(** C26: the page map of a log is that of its committed frames.  For a log as
    SQLite writes it, in either checksum order, followed by anything that is
    not a further frame of it, the reader never fails: it gives for each page of
    the final database the place of its newest committed version and no other
    page, the final size of the database, and the end of the last such frame;
    frames after the last commit record do not count. *)
Theorem page_map_exact big words sequence salt1 salt2 frames rest :
  let page_size := N.of_nat (8 * words) in
  let c := header_sum big page_size sequence salt1 salt2 in
  let bytes := wal_header big page_size sequence salt1 salt2 ++ wal_frames big salt1 salt2 c frames ++ rest in
  page_size ≤ u32_max → salt1 ≤ u32_max → salt2 ≤ u32_max → Forall (frame_ok page_size) frames →
  continues big page_size salt1 salt2 (foldl (frame_sum big) c frames) rest = false →
  let step := (24 + Z.of_N page_size)%Z in
  ∃ r r' m end_ size, wal_new bytes = Ok r ∧ page_map r = (r', Ok (m, end_, size))
    ∧ (∀ p, m !! p = if p <=? database_size frames then newest step 32 p (committed frames) else None)
    ∧ (m = ∅ → end_ = 0%Z ∧ size = 0)
    ∧ (m ≠ ∅ → size = database_size frames ∧ (∃ p o, m !! p = Some o ∧ end_ = (o + step)%Z)
               ∧ ∀ p o, m !! p = Some o → (o + step ≤ end_)%Z).
Proof.
  intros page_size c bytes Hps H1 H2 Hfs Hend step.
  destruct (wal_header_reads big page_size sequence salt1 salt2 (wal_frames big salt1 salt2 c frames ++ rest) Hps H1 H2) as [Hnew Hc].
  set (r := mkWalReader _ _ _ _ _ _ _ _ _) in Hnew.
  assert (length frames < S (length (wr_data r)))%nat as Hfuel.
  { cbn [wr_data r]. rewrite !length_app. pose proof (length_wal_frames big page_size salt1 salt2 c frames Hfs). lia. }
  destruct (loop_scans big page_size salt1 salt2 words eq_refl Hps H1 H2 (S (length (wr_data r))) r
    (wal_header big page_size sequence salt1 salt2) frames rest c ∅ ∅ 0) as (r' & Hloop & Efs); [|done..|].
  { by split. }
  change (Z.of_nat (length (wal_header big page_size sequence salt1 salt2))) with 32%Z in Hloop.
  destruct (scan page_size 32 frames ∅ ∅ 0) as [m0 commit] eqn:Escan.
  assert (∀ p, commit = database_size frames ∧ m0 !! p = newest step 32 p (committed frames)) as Hscan.
  { intros p. pose proof (scan_spec page_size 32 frames ∅ ∅ 0 p) as Hs. rewrite Escan in Hs. destruct Hs as [-> ->]. split; [done|].
    fold step. rewrite lookup_empty. destruct (committed frames) as [|g gs]; [done|]. by destruct (newest step 32 p (g :: gs)). }
  set (m := filter (λ '(pgno, _), pgno ≤ commit) m0).
  assert (∀ p, m !! p = if p <=? database_size frames then newest step 32 p (committed frames) else None) as Hm.
  { intros p. destruct (Hscan p) as [Ec Ep]. unfold m. rewrite map_lookup_filter, Ep, Ec. destruct (newest step 32 p _) as [o|]; cbn.
    - destruct (N.leb_spec p (database_size frames)); [by rewrite option_guard_True|by rewrite option_guard_False by lia].
    - by destruct (p <=? _). }
  assert (frame_size r' = step) as Estep by (rewrite Efs; unfold frame_size, step, WAL_FRAME_HEADER_SIZE; cbn [wr_page_size r]; lia).
  exists r, r'. unfold page_map. rewrite Hloop. fold m. case_bool_decide as Hempty.
  { exists m, 0%Z, 0. split_and!; try done. }
  assert (Forall (λ o, 0 < o)%Z (map_to_list m).*2) as Hpos.
  { apply Forall_forall. intros o ([p o'] & -> & Hin%elem_of_map_to_list)%list_elem_of_fmap. rewrite Hm in Hin.
    destruct (p <=? _); [|done]. eapply newest_positive in Hin; [done|lia|unfold step; lia]. }
  destruct (fold_end (map_to_list m).*2 0%Z ltac:(lia) Hpos) as (_ & Hle & Hin).
  set (e := foldl _ 0%Z _) in *. exists m, (e + step)%Z, commit. rewrite Estep. split_and!; try done. intros _. split_and!.
  - apply (Hscan 0).
  - destruct (map_choose m Hempty) as (q & oq & Hq). destruct Hin as [He|([p o] & Ho & Hp%elem_of_map_to_list)%list_elem_of_fmap].
    + exfalso. rewrite Forall_forall in Hle, Hpos.
      assert (oq ∈ (map_to_list m).*2) as Hoq by (by apply (list_elem_of_fmap_2 snd _ (q, oq)), elem_of_map_to_list).
      specialize (Hle _ Hoq). specialize (Hpos _ Hoq). cbn in Hle, Hpos. lia.
    + exists p, o. split; [done|]. by rewrite Ho.
  - intros p o Hp. rewrite Forall_forall in Hle. specialize (Hle o). cbn in Hle.
    enough (o ≤ e)%Z by lia. apply Hle. by apply (list_elem_of_fmap_2 snd _ (p, o)), elem_of_map_to_list.
Qed.

(** ** The salts of the frames *)

(** The scan ends with any fuel that covers the bytes left, and does not depend
    on who reads the frame headers. *)
Lemma salts_loop_same {E E'} fuel fuel' step until (f : Z → result (option (list N)) E) (g : Z → result (option (list N)) E')
    limit m offset :
  (24 ≤ step)%Z → (0 ≤ offset)%Z → (limit - offset < Z.of_nat fuel)%Z → (limit - offset < Z.of_nat fuel')%Z →
  (0 < fuel)%nat → (0 < fuel')%nat →
  (∀ o, (0 ≤ o)%Z → ∃ h, f o = Ok h ∧ g o = Ok h ∧ (is_Some h → (o + 24 ≤ limit)%Z)) →
  ∃ m', frame_salts_loop fuel step until f m offset = Some (Ok m') ∧ frame_salts_loop fuel' step until g m offset = Some (Ok m').
Proof.
  intros Hstep. revert fuel' m offset. induction fuel as [|fuel IH]; intros fuel' m offset Ho H1 H2 H3 H4 Hfg; [lia|].
  destruct fuel' as [|fuel']; [lia|]. cbn [frame_salts_loop].
  destruct (Hfg offset Ho) as (h & -> & -> & Hlim). destruct h as [hdr|]; [|by eexists].
  specialize (Hlim ltac:(by eexists)). case_bool_decide; [by eexists|]. apply IH; [lia..|done].
Qed.

Lemma wal_new_front bytes :
  (WAL_HEADER_SIZE ≤ length bytes)%nat →
  match wal_new (take WAL_HEADER_SIZE bytes), wal_new bytes with
  | Ok h, Ok r => wr_data r = bytes ∧ wr_tail_base r = 0 ∧ frame_size r = frame_size h
  | Err e, Err e' => e = e'
  | _, _ => False
  end.
Proof.
  intros Hlen. pose proof (read_header_front (take WAL_HEADER_SIZE bytes) (drop WAL_HEADER_SIZE bytes) 0) as H.
  rewrite take_drop in H. specialize (H ltac:(rewrite length_take; lia)). unfold wal_new.
  destruct (new_with_offset_inner (take _ _) 0) as [h|], (new_with_offset_inner bytes 0) as [r|]; try done.
  destruct H as (? & ? & _ & _ & Ep & _). split_and!; try done. unfold frame_size. by rewrite Ep.
Qed.

(** Scanning a WAL file for its salts reads only headers and always ends:
    for every content of the file, also a truncated or a damaged one, the scan
    over exact reads of the file returns what the scan over its whole bytes
    returns, the header's error included. *)
Theorem salts_scan_exact bytes until :
  ∃ verdict : WalResult (gset (N * N)),
    frame_salts_until_in_file (N.of_nat (length bytes)) (λ offset n, Ok (take n (drop (N.to_nat offset) bytes)) : result (list N) unit) until
    = Some (Ok verdict)
    ∧ match wal_new bytes with
      | Err e => verdict = Err e
      | Ok r => ∃ m, verdict = Ok m ∧ frame_salts_until r until = Some (Ok m)
      end.
Proof.
  unfold frame_salts_until_in_file. destruct (N.ltb_spec (N.of_nat (length bytes)) (N.of_nat WAL_HEADER_SIZE)) as [Hsh|Hlen].
  { eexists. split; [done|]. unfold wal_new, new_with_offset_inner, read_header, read_at. cbn [wr_data wr_tail_base N.eqb orb mbind option_bind].
    change (0 <? 0)%Z with false. cbv iota. by rewrite (proj2 (N.ltb_lt _ _)) by (cbn; lia). }
  pose proof (wal_new_front bytes ltac:(lia)) as Hnew. rewrite drop_0.
  destruct (wal_new (take WAL_HEADER_SIZE bytes)) as [h|e], (wal_new bytes) as [r|e']; try done; [|by eexists; subst].
  destruct Hnew as (Hd & Ht & Efs). unfold frame_salts_until. rewrite Efs, Hd.
  destruct (salts_loop_same (S (N.to_nat (N.of_nat (length bytes)))) (S (length bytes)) (frame_size h) until
    (λ offset, if N.of_nat (length bytes) <? Z.to_N offset + N.of_nat WAL_FRAME_HEADER_SIZE then Ok None
               else result_map Some (Ok (take WAL_FRAME_HEADER_SIZE (drop (N.to_nat (Z.to_N offset)) bytes)) : result (list N) unit))
    (λ offset, Ok (read_at r offset WAL_FRAME_HEADER_SIZE) : result (option (list N)) Empty_set)
    (Z.of_nat (length bytes)) ∅ (Z.of_nat WAL_HEADER_SIZE)) as (m & -> & ->).
  - apply frame_size_pos.
  - lia.
  - lia.
  - lia.
  - lia.
  - lia.
  - intros o Ho. unfold read_at. rewrite Hd, Ht, (proj2 (Z.ltb_ge _ _)) by lia. cbn [N.eqb orb mbind option_bind]. unfold WAL_FRAME_HEADER_SIZE.
    destruct (N.ltb_spec (N.of_nat (length bytes)) (Z.to_N o + N.of_nat 24)).
    + exists None. by split_and!; try done; intros [? ?].
    + eexists. split_and!; [done..|]. intros _. lia.
  - eexists. split; [done|]. by eexists.
Qed.

(** ** A log of three frames *)

(** Page 1, page 2 with a commit of two pages, and page 1 again, uncommitted. *)
Definition sample_frames : list WalFrame :=
  [mkWalFrame 1 0 (replicate 16 7); mkWalFrame 2 2 (replicate 16 8); mkWalFrame 1 0 (replicate 16 9)].

Definition sample_wal_sum : N * N := header_sum false 16 0 11 22.
Definition sample_header_bytes : list N := wal_header false 16 0 11 22.
Definition sample_log_bytes : list N := wal_frames false 11 22 sample_wal_sum sample_frames.

Lemma page_map_exact_witness :
  ∃ r r' m end_ size, wal_new (sample_header_bytes ++ sample_log_bytes ++ [1; 2; 3]) = Ok r ∧ page_map r = (r', Ok (m, end_, size))
    ∧ (∀ p, m !! p = if p <=? 2 then newest 40 32 p (committed sample_frames) else None)
    ∧ (m = ∅ → end_ = 0%Z ∧ size = 0)
    ∧ (m ≠ ∅ → size = 2 ∧ (∃ p o, m !! p = Some o ∧ end_ = (o + 40)%Z) ∧ ∀ p o, m !! p = Some o → (o + 40 ≤ end_)%Z).
Proof.
  apply (page_map_exact false 2 0 11 22 sample_frames [1; 2; 3]).
  - done.
  - done.
  - done.
  - by repeat constructor.
  - by vm_compute.
Defined.

(** Resuming after the second frame, over the tail from the second frame on. *)
Lemma tail_reader_exact_witness :
  match new_with_offset (sample_header_bytes ++ sample_log_bytes) 112 11 22,
        new_with_offset_over_tail (sample_header_bytes ++ drop 40 sample_log_bytes) 72 112 11 22 with
  | Ok r, Ok t => (page_map r).2 = (page_map t).2
  | Err e, Err e' => e = e'
  | _, _ => False
  end.
Proof.
  apply (tail_reader_exact sample_header_bytes sample_log_bytes 72 112 11 22).
  - done.
  - by vm_compute.
  - by vm_compute.
Defined.

(** Both readers of the witness are accepted. *)
Lemma sample_resumes :
  is_ok (new_with_offset (sample_header_bytes ++ sample_log_bytes) 112 11 22) = true
  ∧ is_ok (new_with_offset_over_tail (sample_header_bytes ++ drop 40 sample_log_bytes) 72 112 11 22) = true.
Proof. by vm_compute. Qed.
