(* ===== verification/Epochs.v ===== *)
(** * Epoch chains and epoch GC

    Models the restore view over the epochs of a cell, [EpochChain] of
    [crates/ltx/src/client/epochs.rs], the plan of the superseded epochs an
    owner may delete, [crates/logic/epoch_gc.rs], and the pass that makes the
    plan and carries it out, [scan_epochs] and [gc_superseded_epochs] of
    [crates/celld/ltx_repl.rs].  The client of one epoch prefix is a parameter,
    as are the answers of the other calls a pass makes: the prefixes the store
    lists, the objects under a prefix, the retired mark, the owner record. *)

From Stdlib Require Import ZifyN ZifyNat.
From stdpp Require Import functions.
From S2P Require Import Prelude Text Restore Ltx Levels.

(** [Iterator::min] and [Iterator::max] on transaction ids. *)
Definition first_of (l : list N) : option N :=
  match l with [] => None | x :: l => Some (foldl N.min x l) end.
Definition last_of (l : list N) : option N :=
  match l with [] => None | x :: l => Some (foldl N.max x l) end.

(** The deletions of [ReplicaClient]; a failed one can have removed some of the
    objects. *)
Class ReplicaDelete (C : Type) := {
  delete_ltx_files : C → list FileInfo → C * Result unit;
  delete_all : C → C * Result unit;
}.

(** [Span]; [EpochChain] is the list of its spans, oldest first. *)
Record Span (C : Type) := mkSpan {
  sp_epoch : N;
  sp_client : C;
  sp_lo : N;
  sp_levels : list (list FileInfo);
}.
Arguments mkSpan {C} sp_epoch sp_client sp_lo sp_levels.
Arguments sp_epoch {C} s.
Arguments sp_client {C} s.
Arguments sp_lo {C} s.
Arguments sp_levels {C} s.

Record EpochChain (C : Type) := mkChain { ch_spans : list (Span C) }.
Arguments mkChain {C} ch_spans.
Arguments ch_spans {C} e.

(** The files of a span or an epoch that end before [lo]. *)
Definition clip (lo : N) (levels : list (list FileInfo)) : list (list FileInfo) :=
  map (filter (λ f, fi_max f < lo)) levels.
#[global] Arguments clip : simpl never.

Section chain.
Context {C : Type} `{client : ReplicaClient C}.

(** [list_levels]; the listings come back in the order of the levels, and the
    first that fails is the answer. *)
Fixpoint list_each (c : C) (levels : list nat) : Result (list (list FileInfo)) :=
  match levels with
  | [] => Ok []
  | level :: levels =>
      files ←? ltx_files c (Z.of_nat level) 0;
      rest ←? list_each c levels;
      Ok (files :: rest)
  end.

Definition list_levels (c : C) : Result (list (list FileInfo)) := list_each c (seq 0 (S SNAPSHOT_LEVEL)).

(** The loop of [EpochChain::build]; [epochs] is popped from its end, so it is
    walked newest first, and the last span pushed is the head of [spans]. *)
Fixpoint build_loop (epochs : list (N * C)) (spans : list (Span C)) : Result (list (Span C)) :=
  match epochs with
  | [] => Ok spans
  | (epoch, client) :: epochs =>
      levels ←? list_levels client;
      let '(levels, linked) :=
        match spans with
        | above :: _ =>
            let levels := clip (sp_lo above) levels in
            (levels, bool_decide (last_of (map fi_max (mjoin levels)) = Some (wrap_sub (sp_lo above) 1)))
        | [] => (levels, true)
        end in
      if linked then
        match first_of (map fi_min (mjoin levels)) with
        | None => build_loop epochs spans
        | Some lo =>
            let spans := mkSpan epoch client lo levels :: spans in
            if lo =? 1 then Ok spans else build_loop epochs spans
        end
      else build_loop epochs spans
  end.

(** [EpochChain::build] on epochs in ascending order. *)
Definition build (epochs : list (N * C)) : Result (EpochChain C) :=
  spans ←? build_loop (reverse epochs) [];
  match spans with
  | [] => Err TxNotAvailable
  | _ => Ok (mkChain spans)
  end.

(** [EpochChain::spans]. *)
Definition spans (chain : EpochChain C) : list (N * N) := map (λ s, (sp_epoch s, sp_lo s)) (ch_spans chain).

(** [EpochChain::max_txid]. *)
Definition max_txid (chain : EpochChain C) : N :=
  default 0 (last_of (map fi_max (mjoin (mjoin (map sp_levels (ch_spans chain)))))).

(** [EpochChain::span]: the newest span that starts at or before [txid], or the
    oldest one. *)
Fixpoint span_index (i found : nat) (spans : list (Span C)) (txid : N) : nat :=
  match spans with
  | [] => found
  | s :: spans => span_index (S i) (if sp_lo s <=? txid then i else found) spans txid
  end.

Definition span (chain : EpochChain C) (txid : N) : option (nat * Span C) :=
  let i := span_index 0 0 (ch_spans chain) txid in
  pair i <$> ch_spans chain !! i.

(** The files of a level over all spans; [level as usize] of a negative level is
    past the end. *)
Definition level_files (levels : list (list FileInfo)) (level : Z) : list FileInfo :=
  if (level <? 0)%Z then [] else default [] (levels !! Z.to_nat level).

Definition chain_ltx_files (chain : EpochChain C) (level : Z) (seek : N) : list FileInfo :=
  filter (λ f, seek ≤ fi_min f) (mjoin (map (λ s, level_files (sp_levels s) level) (ch_spans chain))).

Definition chain_open (chain : EpochChain C) (level : Z) (min max : N) : Result (list N) :=
  match span chain min with
  | Some (_, s) => open_ltx_file (sp_client s) level min max
  | None => Err Panicked
  end.

Definition chain_read_range (chain : EpochChain C) (level : Z) (min max offset len : N) : Result (list N) :=
  match span chain min with
  | Some (_, s) => read_range (sp_client s) level min max offset len
  | None => Err Panicked
  end.

Definition with_client (s : Span C) (c : C) : Span C := mkSpan (sp_epoch s) c (sp_lo s) (sp_levels s).

Definition chain_write (chain : EpochChain C) (level : Z) (min max : N) (data : list N) :
    EpochChain C * Result FileInfo :=
  match span chain min with
  | Some (i, s) =>
      let '(c, r) := write_ltx_file (sp_client s) level min max data in
      (mkChain (<[i := with_client s c]> (ch_spans chain)), r)
  | None => (chain, Err Panicked)
  end.

(** The chain is a replica itself; what it does not override are the trait's
    defaults. *)
#[global] Instance chain_client : ReplicaClient (EpochChain C) := {|
  ltx_files chain level seek := Ok (chain_ltx_files chain level seek);
  ltx_files_bounded chain level seek limit := Ok (take (N.to_nat limit) (chain_ltx_files chain level seek));
  open_ltx_file := chain_open;
  read_range := chain_read_range;
  write_ltx_file := chain_write;
  write_ltx_file_from_file chain _ _ _ _ := (chain, Err Io);
|}.

Context `{deletes : ReplicaDelete C}.

(** [EpochChain::delete_ltx_files] stops at the first file that fails. *)
Fixpoint chain_delete (chain : EpochChain C) (files : list FileInfo) : EpochChain C * Result unit :=
  match files with
  | [] => (chain, Ok tt)
  | file :: files =>
      match span chain (fi_min file) with
      | None => (chain, Err Panicked)
      | Some (i, s) =>
          let '(c, r) := delete_ltx_files (sp_client s) [file] in
          let chain := mkChain (<[i := with_client s c]> (ch_spans chain)) in
          match r with
          | Ok _ => chain_delete chain files
          | Err e => (chain, Err e)
          end
      end
  end.

#[global] Instance chain_deletes : ReplicaDelete (EpochChain C) := {|
  delete_ltx_files := chain_delete;
  delete_all chain := (chain, Err Other);
|}.

(** The listing the restore planner reads of a chain. *)
Definition chain_levels (chain : EpochChain C) (level : nat) : list FileInfo := chain_ltx_files chain (Z.of_nat level) 0.
End chain.

(** ** The plan: [epoch_gc] *)

Record ListedEpoch := mkListed {
  le_epoch : N;
  le_newest_ms : N;
}.

Record Plan := mkPlan {
  pn_retired_below : N;
  pn_record : bool;
  pn_delete : list N;
}.

(** [plan]. *)
Definition plan (own_epoch : N) (chain : list N) (listed : list ListedEpoch) (recorded : option N)
    (pinned_reads : bool) (now_ms grace_ms : N) : option Plan :=
  if pinned_reads || negb (bool_decide (last chain = Some own_epoch)) then None
  else
    base ← head chain;
    if is_some_and (λ mark, base <? mark) recorded then None
    else
      let delete :=
        map le_epoch
          (filter (λ l, grace_ms ≤ sat_sub now_ms (le_newest_ms l))
            (filter (λ l, le_epoch l < base ∧ wrap_add (le_epoch l) 1 < own_epoch) listed)) in
      Some (mkPlan base (negb (bool_decide (recorded = Some base))) delete).

(** [retired]. *)
Definition retired (epoch : N) (recorded : option N) : bool := is_some_and (λ mark, epoch <? mark) recorded.

(** ** The pass: [ltx_repl] *)

Definition EPOCH_GC_EPOCHS_PER_PASS : nat := 64.
Definition RETIRED_MARK_TTL_MS : N := 300000.
Definition RETIRED_MARK_ABSENT_TTL_MS : N := 30000.

(** [EpochBelowBase] and [EpochScan]. *)
Record EpochBelowBase := mkBelow {
  eb_listed : ListedEpoch;
  eb_bytes : N;
}.

Record EpochScan := mkEpochScan {
  es_newest : N;
  es_chain : list N;
  es_below : list EpochBelowBase;
  es_more_below : bool;
}.

(** [EpochGcOutcome]. *)
Record EpochGcOutcome := mkOutcome {
  go_retired_below : N;
  go_deleted : list N;
  go_settled : bool;
}.

(** The epoch of a prefix [e<epoch>]. *)
Definition epoch_of_prefix (name : string) : option N :=
  value ← strip_prefix "e" name;
  parse_unsigned 10 u64_max value.

(** [nonempty_epochs] on the prefixes the store lists. *)
Definition nonempty_epochs (prefixes : list string) : list N := merge_sort N.le (omap epoch_of_prefix prefixes).

(** The summary of the objects under one epoch: when the newest was modified,
    in milliseconds, and how many bytes they hold. *)
Definition summarize (epoch : N) (objects : list (Z * N)) : EpochBelowBase :=
  let '(newest_ms, bytes) :=
    foldl (λ '(newest_ms, bytes) '(modified, size), (N.max newest_ms (Z.to_N modified), sat_add bytes size))
      (0, 0) objects in
  mkBelow (mkListed epoch newest_ms) bytes.

Section pass.
Context {C : Type} `{client : ReplicaClient C} `{deletes : ReplicaDelete C}.

(** [scan_epochs]; [objects] are the objects the store lists under an epoch. *)
Definition scan_epochs (prefixes : list string) (client_for : N → C) (objects : N → list (Z * N)) (max_below : nat) :
    Result (option EpochScan) :=
  let listed := nonempty_epochs prefixes in
  match last listed with
  | None => Ok None
  | Some newest =>
      match build (map (λ e, (e, client_for e)) listed) with
      | Err TxNotAvailable => Ok None
      | Err error => Err error
      | Ok chain =>
          if negb (is_ok (calc_restore_plan (chain_levels chain) 0)) then Ok None
          else
            let chain := (spans chain).*1 in
            let base := default newest (head chain) in
            let superseded := filter (λ e, e < base) listed in
            let below := map (λ e, summarize e (objects e)) (take max_below superseded) in
            Ok (Some (mkEpochScan newest chain below (bool_decide (max_below < length superseded)%nat)))
      end
  end.

(** [epoch_chain]: the view a takeover into [epoch] restores. *)
Definition epoch_chain (prefixes : list string) (client_for : N → C) (epoch : N) : Result (option (EpochChain C)) :=
  let epochs := nonempty_epochs prefixes in
  match last epochs with
  | None => Ok None
  | Some newest =>
      if negb (newest <? epoch) then Err Other
      else
        chain ←? build (map (λ e, (e, client_for e)) epochs);
        Ok (Some chain)
  end.

(** The stream a pass works on: a client per epoch, the mark in the bucket, its
    cached copy with the time it was read, and the coverage remembered per
    epoch. *)
Record Stream := mkStream {
  st_client : N → C;
  st_mark : option N;
  st_cached : option (option N * N);
  st_covered : gmap N N;
}.

(** [Option::max]: [None] is below every value. *)
Definition option_max (a b : option N) : option N :=
  match a, b with
  | Some a, Some b => Some (N.max a b)
  | None, b => b
  | a, None => a
  end.

(** [remember_retired]. *)
Definition remember_retired (mark : option N) (at_ : N) (s : Stream) : Stream * option N :=
  let held := option_max (from_option fst None (st_cached s)) mark in
  (mkStream (st_client s) (st_mark s) (Some (held, at_)) (st_covered s), held).

(** [retired_mark]; [reads] tells whether the store answers. *)
Definition retired_mark (now : N) (reads : bool) (s : Stream) : Stream * option N :=
  let refresh := remember_retired (if reads then st_mark s else None) now s in
  match st_cached s with
  | Some (mark, read_at) =>
      let ttl := if is_some mark then RETIRED_MARK_TTL_MS else RETIRED_MARK_ABSENT_TTL_MS in
      if sat_sub now read_at <? ttl then (s, mark) else refresh
  | None => refresh
  end.

(** [record_retired]; [puts] tells whether the store takes the mark. *)
Definition record_retired (below now : N) (puts : bool) (s : Stream) : Stream * Result unit :=
  if puts then
    let s := mkStream (st_client s) (Some below) (st_cached s) (st_covered s) in
    ((remember_retired (Some below) now s).1, Ok tt)
  else (s, Err Other).

(** [note_covered]. *)
Definition note_covered (epoch txid : N) (s : Stream) : Stream :=
  mkStream (st_client s) (st_mark s) (st_cached s)
    (<[epoch := N.max (default 0 (st_covered s !! epoch)) txid]> (st_covered s)).

(** One deletion of the plan. *)
Definition delete_epoch (victim : N) (s : Stream) : Stream * Result unit :=
  let '(c, r) := delete_all (st_client s victim) in
  let s := mkStream (<[victim := c]> (st_client s)) (st_mark s) (st_cached s) (st_covered s) in
  match r with
  | Ok _ => (note_covered victim u64_max s, Ok tt)
  | Err _ => (s, Err Other)
  end.

(** The loop over [plan.delete]. *)
Fixpoint delete_epochs (victims : list N) (s : Stream) : Stream * Result unit :=
  match victims with
  | [] => (s, Ok tt)
  | victim :: victims =>
      match delete_epoch victim s with
      | (s, Ok _) => delete_epochs victims s
      | (s, Err e) => (s, Err e)
      end
  end.

(** What a pass has decided before it reads the owner record; an owner behind
    the newest epoch queues the fold of its opener. *)
Inductive GcDecision :=
| GcNothing
| GcQueueOpener
| GcPlanned (scan : EpochScan) (p : Plan).

(** The first half of [gc_superseded_epochs], up to [confirm_owner].  [resident]
    is [None] where the node does not hold the cell at [epoch], and else tells
    whether a paged fill still reads the activation's chain. *)
Definition gc_decide (epoch : N) (resident : option bool) (prefixes : list string) (objects : N → list (Z * N))
    (reads : bool) (now_mono now_ms grace_ms : N) (s : Stream) : Stream * Result GcDecision :=
  match resident with
  | None | Some true => (s, Ok GcNothing)
  | Some false =>
      match scan_epochs prefixes (st_client s) objects EPOCH_GC_EPOCHS_PER_PASS with
      | Err e => (s, Err e)
      | Ok None => (s, Ok GcNothing)
      | Ok (Some scan) =>
          if negb (es_newest scan =? epoch) then
            (s, Ok (if es_newest scan <? epoch then GcQueueOpener else GcNothing))
          else
            let '(s, mark) := retired_mark now_mono reads s in
            match plan epoch (es_chain scan) (map eb_listed (es_below scan)) mark false now_ms grace_ms with
            | None => (s, Ok GcNothing)
            | Some p => (s, Ok (GcPlanned scan p))
            end
      end
  end.

(** The second half, from the answer of [confirm_owner] on. *)
Definition gc_finish (epoch : N) (scan : EpochScan) (p : Plan) (confirmed : Result bool) (now_mono : N) (puts : bool)
    (s : Stream) : Stream * Result (option EpochGcOutcome) :=
  match confirmed with
  | Err e => (s, Err e)
  | Ok false => (s, Ok None)
  | Ok true =>
      match (if pn_record p then record_retired (pn_retired_below p) now_mono puts s else (s, Ok tt)) with
      | (s, Err e) => (s, Err e)
      | (s, Ok _) =>
          match delete_epochs (pn_delete p) s with
          | (s, Err e) => (s, Err e)
          | (s, Ok _) =>
              let settled :=
                negb (es_more_below scan)
                && forallb (λ l, bool_decide (le_epoch l ∈ pn_delete p) || (wrap_add (le_epoch l) 1 =? epoch))
                     (map eb_listed (es_below scan)) in
              (s, Ok (Some (mkOutcome (pn_retired_below p) (pn_delete p) settled)))
          end
      end
  end.
End pass.

(** ** Least and greatest ids *)

Lemma first_of_spec l :
  match first_of l with Some m => m ∈ l ∧ ∀ x, x ∈ l → m ≤ x | None => l = [] end.
Proof.
  destruct l as [|x l]; [done|]. simpl. revert x. induction l as [|y l IH]; intros x; simpl.
  - split; [left|]. by intros ? ->%list_elem_of_singleton.
  - destruct (IH (N.min x y)) as [Hin Hle]. split.
    + apply elem_of_cons in Hin as [E|Hin]; [|by do 2 right]. rewrite E.
      destruct (N.min_spec x y) as [[_ ->]|[_ ->]]; [left|right; left].
    + pose proof (Hle (N.min x y) ltac:(left)). intros z [->|[->|Hz]%elem_of_cons]%elem_of_cons; [lia|lia|]. apply Hle. by right.
Qed.

Lemma last_of_spec l :
  match last_of l with Some m => m ∈ l ∧ ∀ x, x ∈ l → x ≤ m | None => l = [] end.
Proof.
  destruct l as [|x l]; [done|]. simpl. revert x. induction l as [|y l IH]; intros x; simpl.
  - split; [left|]. by intros ? ->%list_elem_of_singleton.
  - destruct (IH (N.max x y)) as [Hin Hle]. split.
    + apply elem_of_cons in Hin as [E|Hin]; [|by do 2 right]. rewrite E.
      destruct (N.max_spec x y) as [[_ ->]|[_ ->]]; [right; left|left].
    + pose proof (Hle (N.max x y) ltac:(left)). intros z [->|[->|Hz]%elem_of_cons]%elem_of_cons; [lia|lia|]. apply Hle. by right.
Qed.

Lemma first_of_Some l m : first_of l = Some m ↔ m ∈ l ∧ ∀ x, x ∈ l → m ≤ x.
Proof.
  pose proof (first_of_spec l) as H. destruct (first_of l) as [m'|].
  - split; [by intros [= ->]|]. intros [Hin Hle]. f_equal. destruct H as [Hin' Hle'].
    apply N.le_antisymm; [by apply Hle'|by apply Hle].
  - subst l. split; [done|]. by intros [?%elem_of_nil _].
Qed.

Lemma last_of_Some l m : last_of l = Some m ↔ m ∈ l ∧ ∀ x, x ∈ l → x ≤ m.
Proof.
  pose proof (last_of_spec l) as H. destruct (last_of l) as [m'|].
  - split; [by intros [= ->]|]. intros [Hin Hle]. f_equal. destruct H as [Hin' Hle'].
    apply N.le_antisymm; [by apply Hle|by apply Hle'].
  - subst l. split; [done|]. by intros [?%elem_of_nil _].
Qed.

Lemma first_of_None l : first_of l = None ↔ l = [].
Proof. by destruct l. Qed.

(** ** What the store of an epoch promises

    A listing is ascending by first and then by last transaction, the iterator
    contract of the clients, and it is what is stored from [seek] on. *)

Definition range_le (f g : FileInfo) : Prop :=
  fi_min f < fi_min g ∨ fi_min f = fi_min g ∧ fi_max f ≤ fi_max g.

Class ReplicaListing (C : Type) `{ReplicaClient C} := {
  stored : C → Z → list FileInfo;
  ltx_files_stored c level seek files :
    ltx_files c level seek = Ok files → files = infos_from seek (stored c level);
  stored_sorted c level : StronglySorted range_le (stored c level);
}.

(** Objects as the writers name them: a range of transactions, and at the
    snapshot level a range from the first one. *)
Record objects_ok {C} `{ReplicaListing C} (c : C) : Prop := {
  ok_ranges level f : f ∈ stored c level → 1 ≤ fi_min f ∧ fi_min f ≤ fi_max f ∧ fi_max f < u64_max;
  ok_snapshots f : f ∈ stored c (Z.of_nat SNAPSHOT_LEVEL) → fi_min f = 1;
}.

Section spans.
Context {C : Type} `{client : ReplicaClient C} `{listing : !ReplicaListing C}.

(** Every level of an epoch. *)
Definition epoch_levels (c : C) : list (list FileInfo) := map (λ n, stored c (Z.of_nat n)) (seq 0 (S SNAPSHOT_LEVEL)).
#[global] Arguments epoch_levels : simpl never.

Lemma list_levels_Ok c levels : list_levels c = Ok levels → levels = epoch_levels c.
Proof using listing.
  unfold list_levels, epoch_levels. generalize (seq 0 (S SNAPSHOT_LEVEL)). intros l. revert levels.
  induction l as [|n l IH]; intros levels; cbn [list_each map]; [by intros [= <-]|].
  destruct (ltx_files c (Z.of_nat n) 0) as [files|] eqn:E; [|done]. apply ltx_files_stored in E as ->.
  destruct (list_each c l) as [rest|]; [|done]. intros [= <-]. by rewrite infos_from_0, (IH rest).
Qed.

(** The files of an epoch below a limit. *)
Definition levels_below_limit (limit : option N) (levels : list (list FileInfo)) : list (list FileInfo) :=
  match limit with Some l => clip l levels | None => levels end.

Lemma elem_of_clip l levels f : f ∈ mjoin (clip l levels) ↔ f ∈ mjoin levels ∧ fi_max f < l.
Proof.
  rewrite !list_elem_of_join. unfold clip. setoid_rewrite list_elem_of_fmap. split.
  - intros (? & Hf & files & -> & Hin). apply list_elem_of_filter in Hf as [? ?]. eauto.
  - intros ((files & Hf & Hin) & Hlt). exists (filter (λ f, fi_max f < l) files). split; [by apply list_elem_of_filter|eauto].
Qed.

Lemma elem_of_below limit levels f :
  f ∈ mjoin (levels_below_limit limit levels) ↔ f ∈ mjoin levels ∧ ∀ l, limit = Some l → fi_max f < l.
Proof.
  destruct limit as [l|]; simpl; [rewrite elem_of_clip|]; split; intros H.
  - destruct H as [? ?]. split; [done|]. by intros ? [= <-].
  - destruct H as [? H]. split; [done|]. by apply H.
  - by split.
  - apply H.
Qed.

(** A span of a chain below the limit its successor sets. *)
Definition span_ok (limit : option N) (s : Span C) : Prop :=
  sp_levels s = levels_below_limit limit (epoch_levels (sp_client s))
  ∧ first_of (map fi_min (mjoin (sp_levels s))) = Some (sp_lo s)
  ∧ ∀ l, limit = Some l → ∃ f, f ∈ mjoin (sp_levels s) ∧ fi_max f + 1 = l.

Fixpoint span_chain (spans : list (Span C)) : Prop :=
  match spans with
  | [] => True
  | s :: spans => span_ok (sp_lo <$> head spans) s ∧ span_chain spans
  end.

Lemma linked_iff l levels :
  last_of (map fi_max (mjoin (clip l levels))) = Some (wrap_sub l 1) ↔ ∃ f, f ∈ mjoin levels ∧ fi_max f + 1 = l.
Proof.
  rewrite last_of_Some, list_elem_of_fmap. unfold wrap_sub. split.
  - intros [(f & E & [Hf Hlt]%elem_of_clip) _]. exists f. split; [done|]. destruct (N.leb_spec 1 l); lia.
  - intros (f & Hf & El). destruct (N.leb_spec 1 l) as [_|]; [|lia]. split.
    + exists f. split; [lia|]. apply elem_of_clip. split; [done|lia].
    + intros x (g & -> & [_ Hlt]%elem_of_clip)%list_elem_of_fmap. lia.
Qed.

Lemma build_loop_chain epochs spans out :
  build_loop epochs spans = Ok out → span_chain spans →
  span_chain out ∧ ∀ s, s ∈ out → s ∈ spans ∨ (sp_epoch s, sp_client s) ∈ epochs.
Proof using listing.
  revert spans. induction epochs as [|[e c] epochs IH]; intros spans; cbn [build_loop]; [intros [= <-]; auto|].
  assert (∀ spans', build_loop epochs spans' = Ok out → span_chain spans' →
            (∀ s, s ∈ spans' → s ∈ spans ∨ (sp_epoch s, sp_client s) = (e, c)) →
            span_chain out ∧ ∀ s, s ∈ out → s ∈ spans ∨ (sp_epoch s, sp_client s) ∈ (e, c) :: epochs) as Hrest.
  { intros spans' Hb Hs Hsub. destruct (IH _ Hb Hs) as [Hc Hin]. split; [done|].
    intros s [H|H]%Hin; [|right; by right]. destruct (Hsub _ H) as [?|E]; [by left|right; rewrite E; left]. }
  destruct (list_levels c) as [levels|] eqn:El; [|done]. apply list_levels_Ok in El as ->.
  destruct (match spans with [] => _ | above :: _ => _ end) as [levels linked] eqn:Ematch.
  destruct linked; [|intros Hb Hs; apply (Hrest spans); auto].
  assert (levels = levels_below_limit (sp_lo <$> head spans) (epoch_levels c)
          ∧ ∀ l, sp_lo <$> head spans = Some l → ∃ f, f ∈ mjoin levels ∧ fi_max f + 1 = l) as [Hlev Hend].
  { destruct spans as [|above spans]; apply pair_equal_spec in Ematch as [<- E]; [done|].
    split; [done|]. intros l [= <-]. apply bool_decide_eq_true, linked_iff in E as (f & Hf & E).
    exists f. split; [|done]. apply elem_of_clip. split; [done|lia]. }
  destruct (first_of _) as [lo|] eqn:Elo; [|intros Hb Hs; apply (Hrest spans); auto].
  set (s := mkSpan e c lo levels). assert (span_chain spans → span_chain (s :: spans)) as Hs'.
  { intros Hs. split; [|done]. by split_and!. }
  assert (∀ x, x ∈ s :: spans → x ∈ spans ∨ (sp_epoch x, sp_client x) = (e, c)) as Hsub.
  { intros x [->|?]%elem_of_cons; auto. }
  destruct (lo =? 1); intros Hb Hs; [|by apply (Hrest (s :: spans)); auto].
  injection Hb as <-. split; [by apply Hs'|]. intros x [?|E]%Hsub; [by left|right; rewrite E; left].
Qed.

Lemma build_chain epochs chain :
  build epochs = Ok chain →
  span_chain (ch_spans chain) ∧ ch_spans chain ≠ []
  ∧ ∀ s, s ∈ ch_spans chain → (sp_epoch s, sp_client s) ∈ epochs.
Proof using listing.
  unfold build. destruct (build_loop (reverse epochs) []) as [spans|] eqn:E; [|done].
  apply build_loop_chain in E as [Hc Hin]; [|done].
  destruct spans as [|s spans]; [done|]. intros [= <-]. split_and!; [done|done|].
  intros x [?%elem_of_nil|Hx]%Hin; [done|]. by rewrite elem_of_reverse in Hx.
Qed.

(** ** Where a chain reads

    The spans of a chain cover disjoint, ascending ranges of transactions. *)

Definition files_of (s : Span C) : list FileInfo := mjoin (sp_levels s).

Lemma elem_of_epoch_levels c f :
  f ∈ mjoin (epoch_levels c) ↔ ∃ n, (n ≤ SNAPSHOT_LEVEL)%nat ∧ f ∈ stored c (Z.of_nat n).
Proof.
  rewrite list_elem_of_join. unfold epoch_levels. setoid_rewrite list_elem_of_fmap. setoid_rewrite elem_of_seq. split.
  - intros (files & Hf & n & -> & Hn). exists n. split; [lia|done].
  - intros (n & Hn & Hf). exists (stored c (Z.of_nat n)). split; [done|]. exists n. split; [done|lia].
Qed.

Lemma span_ok_file limit s f :
  objects_ok (sp_client s) → span_ok limit s → f ∈ files_of s →
  sp_lo s ≤ fi_min f ∧ fi_min f ≤ fi_max f ∧ fi_max f < u64_max ∧ ∀ l, limit = Some l → fi_max f < l.
Proof.
  intros Hok (Hlev & [_ Hlo]%first_of_Some & _) Hf. unfold files_of in Hf. split.
  { apply Hlo. apply list_elem_of_fmap. by exists f. }
  rewrite Hlev in Hf. apply elem_of_below in Hf as [(n & _ & Hf)%elem_of_epoch_levels Hl].
  destruct (ok_ranges _ Hok _ _ Hf) as (? & ? & ?). by split_and!.
Qed.

Lemma span_chain_lo spans s rest :
  Forall (λ s, objects_ok (sp_client s)) spans → span_chain spans → spans = s :: rest →
  ∀ x, x ∈ rest → sp_lo s < sp_lo x.
Proof.
  revert s rest. induction spans as [|s spans IH]; intros s' rest Hok Hc [= -> ->].
  apply Forall_cons in Hok as [Hs Hok]. destruct Hc as [Hspan Hc]. intros x Hx.
  destruct rest as [|n rest]; [by apply elem_of_nil in Hx|].
  destruct Hspan as (Hlev & Hlo & Hend). destruct (Hend (sp_lo n) eq_refl) as (f & Hf & E).
  destruct (span_ok_file (Some (sp_lo n)) s' f Hs) as (? & ? & _); [done|done|].
  apply elem_of_cons in Hx as [->|Hx]; [lia|]. specialize (IH n rest Hok Hc eq_refl x Hx). lia.
Qed.

Lemma span_chain_app pre spans : span_chain (pre ++ spans) → span_chain spans.
Proof. induction pre as [|s pre IH]; [done|]. intros [_ H]. auto. Qed.

(** A file of a span ends before the spans after it start. *)
Lemma span_chain_split pre s post f :
  Forall (λ s, objects_ok (sp_client s)) (pre ++ s :: post) → span_chain (pre ++ s :: post) → f ∈ files_of s →
  sp_lo s ≤ fi_min f ∧ fi_min f ≤ fi_max f ∧ fi_max f < u64_max ∧ ∀ x, x ∈ post → fi_max f < sp_lo x.
Proof.
  intros [_ Hok]%Forall_app Hc%span_chain_app Hf. pose proof Hok as [Hs Hpost]%Forall_cons. destruct Hc as [Hspan Hc].
  destruct (span_ok_file _ s f Hs Hspan Hf) as (? & ? & ? & Hl). split_and!; [done..|].
  intros x Hx. destruct post as [|n post]; [by apply elem_of_nil in Hx|]. specialize (Hl (sp_lo n) eq_refl).
  apply elem_of_cons in Hx as [->|Hx]; [done|]. pose proof (span_chain_lo (n :: post) n post Hpost Hc eq_refl x Hx). lia.
Qed.

Lemma span_index_split i found (pre : list (Span C)) s post txid :
  sp_lo s ≤ txid → (∀ x, x ∈ post → txid < sp_lo x) →
  span_index i found (pre ++ s :: post) txid = (i + length pre)%nat.
Proof.
  intros Hs Hpost. revert i found. induction pre as [|x pre IH]; intros i found; simpl.
  - rewrite (proj2 (N.leb_le _ _)) by done. rewrite Nat.add_0_r. generalize (S i). induction post as [|x post IH]; intros j; simpl; [done|].
    rewrite (proj2 (N.leb_gt _ _)) by (apply Hpost; left). apply IH. intros y Hy. apply Hpost. by right.
  - rewrite IH. lia.
Qed.

(** A transaction a span holds is routed to it. *)
Lemma span_route chain pre s post f :
  ch_spans chain = pre ++ s :: post → Forall (λ s, objects_ok (sp_client s)) (ch_spans chain) →
  span_chain (ch_spans chain) → f ∈ files_of s → span chain (fi_min f) = Some (length pre, s).
Proof.
  intros E Hok Hc Hf. rewrite E in Hok, Hc. destruct (span_chain_split pre s post f Hok Hc Hf) as (Hlo & Hle & _ & Hpost).
  unfold span. rewrite E, span_index_split; [|done|intros x Hx; specialize (Hpost x Hx); lia].
  simpl. by rewrite list_lookup_middle.
Qed.

Lemma level_files_ok limit s n :
  span_ok limit s →
  level_files (sp_levels s) (Z.of_nat n) =
    if decide (n ≤ SNAPSHOT_LEVEL)%nat
    then match limit with Some l => filter (λ f, fi_max f < l) (stored (sp_client s) (Z.of_nat n))
                        | None => stored (sp_client s) (Z.of_nat n) end
    else [].
Proof.
  intros (-> & _). unfold level_files. rewrite (proj2 (Z.ltb_ge _ _)), Nat2Z.id by lia.
  assert (epoch_levels (sp_client s) !! n
          = if decide (n ≤ SNAPSHOT_LEVEL)%nat then Some (stored (sp_client s) (Z.of_nat n)) else None) as E.
  { unfold epoch_levels. rewrite list_lookup_fmap. case_decide as Hn.
    - rewrite lookup_seq_lt by lia. done.
    - rewrite lookup_seq_ge by lia. done. }
  destruct limit as [l|]; simpl; [unfold clip; rewrite list_lookup_fmap|]; rewrite E; by case_decide.
Qed.

Lemma elem_of_chain_levels (chain : EpochChain C) n f :
  f ∈ chain_levels chain n ↔ ∃ s, s ∈ ch_spans chain ∧ f ∈ level_files (sp_levels s) (Z.of_nat n).
Proof.
  unfold chain_levels, chain_ltx_files. rewrite list_elem_of_filter, list_elem_of_join. setoid_rewrite list_elem_of_fmap. split.
  - intros (_ & ? & Hf & s & -> & Hs). eauto.
  - intros (s & Hs & Hf). split; [lia|]. eauto.
Qed.

Lemma level_files_sub levels n f : f ∈ level_files levels (Z.of_nat n) → f ∈ mjoin levels.
Proof.
  unfold level_files. rewrite (proj2 (Z.ltb_ge _ _)), Nat2Z.id by lia.
  destruct (levels !! n) as [files|] eqn:E; simpl; [|by intros ?%elem_of_nil].
  intros Hf. apply list_elem_of_join. exists files. split; [done|]. by eapply list_elem_of_lookup_2.
Qed.

Lemma chain_sorted (R : relation FileInfo) n (spans : list (Span C)) :
  (∀ f g, fi_min f ≤ fi_max f → fi_max f < fi_min g → fi_min g ≤ fi_max g → R f g) →
  (∀ s, s ∈ spans → StronglySorted R (stored (sp_client s) (Z.of_nat n))) →
  Forall (λ s, objects_ok (sp_client s)) spans → span_chain spans →
  StronglySorted R (mjoin (map (λ s, level_files (sp_levels s) (Z.of_nat n)) spans)).
Proof.
  intros HR Hsort. induction spans as [|s spans IH]; intros Hok Hc; cbn [map mjoin list_join]; [constructor|].
  pose proof Hok as [Hs Hok']%Forall_cons. destruct Hc as [Hspan Hc]. apply StronglySorted_app_2.
  - intros f g Hf%level_files_sub Hg. apply list_elem_of_join in Hg as (? & Hg & (x & -> & Hx)%list_elem_of_fmap).
    apply level_files_sub in Hg. destruct (span_chain_split [] s spans f Hok (conj Hspan Hc) Hf) as (_ & ? & _ & Hpost).
    apply list_elem_of_split in Hx as (pre & post & ->).
    destruct (span_chain_split pre x post g Hok' Hc Hg) as (? & ? & _ & _).
    specialize (Hpost x ltac:(set_solver)). apply HR; lia.
  - rewrite (level_files_ok _ s n Hspan). case_decide; [|constructor].
    specialize (Hsort s ltac:(left)). case_match; [by apply StronglySorted_filter|done].
  - apply IH; [|done|done]. intros x Hx. apply Hsort. by right.
Qed.

Lemma chain_levels_eq (chain : EpochChain C) n :
  chain_levels chain n = mjoin (map (λ s, level_files (sp_levels s) (Z.of_nat n)) (ch_spans chain)).
Proof. apply infos_from_0. Qed.

Lemma sorted_impl {A} (R Q : relation A) l :
  (∀ x y, x ∈ l → y ∈ l → R x y → Q x y) → StronglySorted R l → StronglySorted Q l.
Proof.
  intros HRQ Hs. induction Hs as [|x l Hs IH Hx]; constructor.
  - apply IH. intros a b Ha Hb. apply HRQ; by right.
  - rewrite Forall_forall in *. intros y Hy. apply HRQ; [left|by right|by apply Hx].
Qed.

(** A chain lists its files the way the planner expects a replica to. *)
Lemma chain_listing_ok (chain : EpochChain C) :
  Forall (λ s, objects_ok (sp_client s)) (ch_spans chain) → span_chain (ch_spans chain) → listing_ok (chain_levels chain).
Proof.
  intros Hok Hc. split.
  - apply Forall_fmap, Forall_forall. intros n _. simpl. rewrite chain_levels_eq. apply chain_sorted; [unfold by_min; lia| |done..].
    intros s _. eapply sorted_impl; [|apply stored_sorted]. intros f g _ _. unfold range_le, by_min. lia.
  - rewrite chain_levels_eq. apply chain_sorted; [unfold by_max; lia| |done..].
    intros s Hs. eapply sorted_impl; [|apply stored_sorted]. rewrite Forall_forall in Hok. specialize (Hok s Hs).
    intros f g Hf Hg. pose proof (ok_snapshots _ Hok f Hf). pose proof (ok_snapshots _ Hok g Hg).
    unfold range_le, by_max. lia.
  - intros n f _ (s & (pre & post & E)%list_elem_of_split & Hf%level_files_sub)%elem_of_chain_levels.
    rewrite E in Hok, Hc. by destruct (span_chain_split pre s post f Hok Hc Hf) as (_ & _ & ? & _).
Qed.

Lemma chain_objects_ok (epochs : list (N * C)) chain :
  build epochs = Ok chain → (∀ e c, (e, c) ∈ epochs → objects_ok c) →
  Forall (λ s, objects_ok (sp_client s)) (ch_spans chain).
Proof.
  intros (_ & _ & Hin)%build_chain Hok. apply Forall_forall. intros s Hs. eapply Hok. by apply Hin.
Qed.

(** C18: A chain over epochs is a replica of its own for the restore.  Its
    listing is the one the planner relies on, and every file it lists is a file
    of one of the epochs in the chain, read from that epoch and no other:
    opening it or reading a range of it through the chain is the read of the
    epoch's own client. *)
Theorem chain_reads_listed (epochs : list (N * C)) chain :
  build epochs = Ok chain → (∀ e c, (e, c) ∈ epochs → objects_ok c) →
  listing_ok (chain_levels chain)
  ∧ ∀ n f, f ∈ chain_levels chain n →
      ∃ e c, (e, c) ∈ epochs ∧ e ∈ (spans chain).*1 ∧ f ∈ stored c (Z.of_nat n)
        ∧ open_ltx_file chain (Z.of_nat n) (fi_min f) (fi_max f) = open_ltx_file c (Z.of_nat n) (fi_min f) (fi_max f)
        ∧ ∀ offset len, read_range chain (Z.of_nat n) (fi_min f) (fi_max f) offset len
                        = read_range c (Z.of_nat n) (fi_min f) (fi_max f) offset len.
Proof.
  intros Hb Hobj. pose proof (chain_objects_ok _ _ Hb Hobj) as Hok. apply build_chain in Hb as (Hc & _ & Hin).
  split; [by apply chain_listing_ok|]. intros n f (s & Hs & Hf)%elem_of_chain_levels.
  exists (sp_epoch s), (sp_client s). split; [by apply Hin|].
  apply list_elem_of_split in Hs as (pre & post & E). pose proof (level_files_sub _ _ _ Hf) as Hf'.
  pose proof (span_route chain pre s post f E Hok Hc Hf') as Hroute. split; [|split].
  - unfold spans. rewrite E. rewrite !list_elem_of_fmap. exists (sp_epoch s, sp_lo s). split; [done|].
    apply list_elem_of_fmap. exists s. split; [done|]. set_solver.
  - rewrite E in Hc. apply span_chain_app in Hc as [Hspan _]. rewrite (level_files_ok _ s n Hspan) in Hf.
    case_decide; [|by apply elem_of_nil in Hf]. case_match; [by apply list_elem_of_filter in Hf as [_ ?]|done].
  - unfold open_ltx_file, read_range, chain_client, chain_open, chain_read_range. by rewrite Hroute.
Qed.

(** ** What a chain restores *)

(** The objects of an epoch that continues at transaction [b]: each starts
    there, or follows another one, or is a whole snapshot that reaches it. *)
Definition continues (c : C) (b : N) : Prop :=
  ∀ f, f ∈ mjoin (epoch_levels c) →
    fi_min f = 1 ∧ b ≤ fi_max f + 1 ∨ fi_min f = b ∨ ∃ g, g ∈ mjoin (epoch_levels c) ∧ fi_max g + 1 = fi_min f.

(** Every file of the chain, at any level. *)
Definition chain_files (chain : EpochChain C) : list FileInfo := mjoin (map (chain_levels chain) (seq 0 (S SNAPSHOT_LEVEL))).

Lemma elem_of_chain_files chain f :
  span_chain (ch_spans chain) → f ∈ chain_files chain ↔ ∃ s, s ∈ ch_spans chain ∧ f ∈ files_of s.
Proof.
  intros Hc. unfold chain_files. rewrite list_elem_of_join. setoid_rewrite list_elem_of_fmap. split.
  - intros (? & Hf & n & -> & _). apply elem_of_chain_levels in Hf as (s & Hs & Hf%level_files_sub). eauto.
  - intros (s & Hs & Hf). pose proof Hs as (pre & post & E)%list_elem_of_split. rewrite E in Hc.
    apply span_chain_app in Hc as [Hspan _]. pose proof Hspan as (Hlev & _). unfold files_of in Hf. rewrite Hlev in Hf.
    apply elem_of_below in Hf as [(n & Hn & Hf)%elem_of_epoch_levels Hl]. exists (chain_levels chain n). split.
    + apply elem_of_chain_levels. exists s. split; [done|]. rewrite (level_files_ok _ s n Hspan), decide_True by done.
      case_match; [|done]. apply list_elem_of_filter. auto.
    + exists n. split; [done|]. apply elem_of_seq. lia.
Qed.

(** A predecessor in the same epoch is in the same span. *)
Lemma span_file_before limit s f g :
  span_ok limit s → f ∈ files_of s → g ∈ mjoin (epoch_levels (sp_client s)) → fi_max g < fi_max f → g ∈ files_of s.
Proof.
  intros (Hlev & _) Hf Hg Hlt. unfold files_of in *. rewrite Hlev in *. apply elem_of_below in Hf as [_ Hl].
  apply elem_of_below. split; [done|]. intros l E. specialize (Hl l E). lia.
Qed.

Lemma reach_over files f r :
  f ∈ files → 1 ≤ fi_min f ≤ fi_max f → reach files r → fi_min f ≤ r + 1 → ∃ r', reach files r' ∧ fi_max f ≤ r'.
Proof.
  intros Hf Hle Hr Hmin. destruct (N.le_gt_cases (fi_max f) r) as [|Hlt]; [by exists r|].
  exists (fi_max f). split; [|done]. apply (reach_file files f r); [done|lia|lia|done|lia].
Qed.

(** Where the first file of a span comes from: the transaction before it is
    reached by the span below, or it is a whole snapshot. *)
Lemma span_first pre s post b :
  Forall (λ s, objects_ok (sp_client s)) (pre ++ s :: post) → span_chain (pre ++ s :: post) →
  continues (sp_client s) b → (sp_lo <$> head (pre ++ s :: post)) = Some 1 →
  (∃ h, h ∈ files_of s ∧ fi_min h = 1 ∧ b ≤ fi_max h + 1)
  ∨ ∃ p k, p ∈ pre ∧ k ∈ files_of p ∧ fi_max k + 1 = b.
Proof.
  intros Hok Hc Hb Hhead. pose proof Hok as [Hpre Hok']%Forall_app. pose proof Hok' as [Hs _]%Forall_cons.
  pose proof (span_chain_app _ _ Hc) as [Hspan _]. pose proof Hspan as (Hlev & Hlo & _).
  apply first_of_Some in Hlo as [(h & Eh & Hh)%list_elem_of_fmap Hmin].
  destruct (span_ok_file _ s h Hs Hspan Hh) as (_ & Hle & _ & _).
  assert (h ∈ mjoin (epoch_levels (sp_client s))) as Hh'.
  { rewrite Hlev in Hh. by apply elem_of_below in Hh as [? _]. }
  destruct (Hb h Hh') as [[E1 E2]|[E|(g & Hg & E)]]; [left; eauto| |].
  - destruct pre as [|p pre _] using rev_ind.
    { simpl in Hhead. left. exists h. split_and!; [done|congruence|]. injection Hhead. lia. }
    right. rewrite <- app_assoc in Hc. apply span_chain_app in Hc as [(_ & _ & Hend) _]. simpl in Hend.
    destruct (Hend _ eq_refl) as (k & Hk & Ek). exists p, k. split_and!; [set_solver|done|]. congruence.
  - exfalso. assert (g ∈ files_of s) as Hg' by (apply (span_file_before _ s h g Hspan Hh Hg); lia).
    destruct (span_ok_file _ s g Hs Hspan Hg') as (? & ? & _). lia.
Qed.

Section complete.
Context (chain : EpochChain C) (Hok : Forall (λ s, objects_ok (sp_client s)) (ch_spans chain)).
Context (Hc : span_chain (ch_spans chain)) (Hcont : ∀ s, s ∈ ch_spans chain → ∃ b, continues (sp_client s) b).
Context (Hhead : (sp_lo <$> head (ch_spans chain)) = Some 1).

(** Every file of a complete chain is in the reach of the others. *)
Lemma chain_reach f : f ∈ chain_files chain → ∃ r, reach (chain_files chain) r ∧ fi_max f ≤ r.
Proof using All.
  induction (well_founded_ltof _ (λ f, N.to_nat (fi_max f)) f) as [f _ IH]. unfold ltof in IH. intros Hf.
  pose proof Hf as (s & Hs & Hfs)%elem_of_chain_files; [|done]. destruct (Hcont s Hs) as [b Hb].
  apply list_elem_of_split in Hs as (pre & post & E). rewrite E in Hok, Hc, Hhead.
  pose proof (span_chain_app _ _ Hc) as [Hspan _]. pose proof (proj2 (proj1 (Forall_app _ _ _) Hok)) as [Hs _]%Forall_cons.
  destruct (span_ok_file _ s f Hs Hspan Hfs) as (_ & Hle & _ & _).
  assert (f ∈ mjoin (epoch_levels (sp_client s))) as Hf'.
  { pose proof Hspan as (Hlev & _). unfold files_of in Hfs. rewrite Hlev in Hfs. by apply elem_of_below in Hfs as [? _]. }
  assert (1 ≤ fi_min f) as H1 by (apply elem_of_epoch_levels in Hf' as (n & _ & Hf'); apply (ok_ranges _ Hs _ _ Hf')).
  assert (s ∈ pre ++ s :: post) as Hmid by (apply elem_of_app; right; left).
  assert (∀ x g, x ∈ pre ++ s :: post → g ∈ files_of x → fi_max g < fi_max f → fi_min f ≤ fi_max g + 1 →
            ∃ r, reach (chain_files chain) r ∧ fi_max f ≤ r) as Hafter.
  { intros x g Hx Hg Hlt Hmin. destruct (IH g) as (r & Hr & Hge); [lia| |].
    { apply elem_of_chain_files; [by rewrite E|]. exists x. by rewrite E. }
    apply (reach_over _ f r); [done|lia|done|lia]. }
  destruct (Hb f Hf') as [[E1 _]|[Eb|(g & Hg & Eg)]].
  - apply (reach_over _ f 0); [done|lia|constructor|lia].
  - destruct (span_first pre s post b Hok Hc Hb Hhead) as [(h & Hh & Eh & Hreach)|(p & k & Hp & Hk & Ek)].
    + assert (reach (chain_files chain) (fi_max h)) as Hr.
      { destruct (span_ok_file _ s h Hs Hspan Hh) as (_ & ? & _).
        apply (reach_file _ h 0); [|lia|lia|constructor|lia]. apply elem_of_chain_files; [by rewrite E|].
        exists s. by rewrite E. }
      apply (reach_over _ f (fi_max h)); [done|lia|done|lia].
    + apply (Hafter p k); [apply elem_of_app; by left|done|lia|lia].
  - apply (Hafter s g); [done|apply (span_file_before _ s f g Hspan Hfs Hg); lia|lia|lia].
Qed.

Lemma reach_file_end files r : reach files r → r = 0 ∨ ∃ f, f ∈ files ∧ r = fi_max f.
Proof. destruct 1; eauto. Qed.

End complete.

Lemma max_txid_spec (chain : EpochChain C) :
  span_chain (ch_spans chain) → ch_spans chain ≠ [] →
  (∃ f, f ∈ chain_files chain ∧ fi_max f = max_txid chain) ∧ ∀ f, f ∈ chain_files chain → fi_max f ≤ max_txid chain.
Proof.
  intros Hc Hne.
  assert (∀ f, f ∈ mjoin (mjoin (map sp_levels (ch_spans chain))) ↔ f ∈ chain_files chain) as Hiff.
  { intros f. rewrite elem_of_chain_files by done. unfold files_of. split.
    - intros (files & Hf & (? & Hin & (s & -> & Hs)%list_elem_of_fmap)%list_elem_of_join)%list_elem_of_join.
      exists s. split; [done|]. apply list_elem_of_join. eauto.
    - intros (s & Hs & (files & Hf & Hin)%list_elem_of_join). apply list_elem_of_join. exists files. split; [done|].
      apply list_elem_of_join. exists (sp_levels s). split; [done|]. apply list_elem_of_fmap. eauto. }
  unfold max_txid. pose proof (last_of_spec (map fi_max (mjoin (mjoin (map sp_levels (ch_spans chain)))))) as Hm.
  destruct (last_of _) as [m|]; simpl.
  - destruct Hm as [(f & -> & Hf)%list_elem_of_fmap Hall]. split; [exists f; split; [by apply Hiff|done]|].
    intros g Hg. apply Hall, list_elem_of_fmap. exists g. split; [done|by apply Hiff].
  - exfalso. assert (∃ s rest, ch_spans chain = s :: rest) as (s & rest & E).
    { destruct (ch_spans chain); [done|eauto]. }
    pose proof Hc as Hspan. rewrite E in Hspan. destruct Hspan as [(_ & Hlo & _) _].
    apply first_of_Some in Hlo as [(f & _ & Hf)%list_elem_of_fmap _].
    assert (f ∈ chain_files chain) as Hf'%Hiff.
    { apply elem_of_chain_files; [done|]. exists s. rewrite E. split; [left|done]. }
    apply fmap_nil_inv in Hm. rewrite Hm in Hf'. by apply elem_of_nil in Hf'.
Qed.

(** A chain that reaches down to transaction 1 restores completely.  Where
    the objects of every epoch follow one another from the transaction the epoch
    continues at, the planner finds a plan over the chain and the plan ends at
    the chain's last transaction. *)
Theorem chain_restores (epochs : list (N * C)) chain :
  build epochs = Ok chain → (∀ e c, (e, c) ∈ epochs → objects_ok c) →
  (∀ s, s ∈ ch_spans chain → ∃ b, continues (sp_client s) b) → head (spans chain).*2 = Some 1 →
  ∃ infos, calc_restore_plan (chain_levels chain) 0 = Ok infos ∧ slice_max_txid infos = max_txid chain.
Proof.
  intros Hbuild Hobj Hcont Hhead. assert (sp_lo <$> head (ch_spans chain) = Some 1) as Hlo.
  { unfold spans in Hhead. by destruct (ch_spans chain). }
  pose proof (chain_objects_ok _ _ Hbuild Hobj) as Hok.
  apply build_chain in Hbuild as (Hc & Hne & _).
  pose proof (chain_listing_ok chain Hok Hc) as Hlist.
  destruct (max_txid_spec chain Hc Hne) as [(f & Hf & Ef) Hmax].
  destruct (chain_reach chain Hok Hc Hcont Hlo f Hf) as (r & Hr & Hle).
  assert (r = max_txid chain) as -> by (destruct (reach_file_end _ _ Hr) as [->|(g & Hg & ->)]; [|specialize (Hmax g Hg)]; lia).
  apply full_plan; [done|done| |].
  - intros g Hg. split; [|by apply Hmax]. apply elem_of_chain_files in Hg as (s & (pre & post & E)%list_elem_of_split & Hg); [|done].
    rewrite E in Hok, Hc. by destruct (span_chain_split pre s post g Hok Hc Hg) as (_ & ? & _).
  - intros E0. rewrite E0 in Ef. apply elem_of_chain_files in Hf as (s & (pre & post & E)%list_elem_of_split & Hf); [|done].
    rewrite E in Hok. apply Forall_app in Hok as [_ [Hs _]%Forall_cons]. rewrite E in Hc.
    apply span_chain_app in Hc as [(Hlev & _) _]. unfold files_of in Hf. rewrite Hlev in Hf.
    apply elem_of_below in Hf as [(n & _ & Hf)%elem_of_epoch_levels _]. pose proof (ok_ranges _ Hs _ _ Hf). lia.
Qed.

(** A chain the planner finds a plan over starts at transaction 1. *)
Lemma plan_reaches_base (chain : EpochChain C) :
  Forall (λ s, objects_ok (sp_client s)) (ch_spans chain) → span_chain (ch_spans chain) →
  is_ok (calc_restore_plan (chain_levels chain) 0) = true → head (spans chain).*2 = Some 1.
Proof.
  intros Hok Hc Hplan. pose proof (chain_listing_ok chain Hok Hc) as Hlist.
  assert (∃ n f, f ∈ chain_levels chain n ∧ fi_min f ≤ 1) as (n & f & Hf & Hmin).
  { pose proof (calc_restore_plan_cases _ Hlist 0) as H. destruct (calc_restore_plan _ 0) as [infos|]; [|done].
    destruct H as (Hne & e & (added & -> & Hext) & _).
    pose proof (pick_snapshot_spec _ 0 (snapshots_sorted _ Hlist)) as Hs. unfold plan_start in Hext.
    destruct (pick_snapshot _ 0) as [s|].
    - destruct Hs as (Hin & _). exists SNAPSHOT_LEVEL, s. split; [done|].
      apply elem_of_chain_levels in Hin as (x & (pre & post & E)%list_elem_of_split & Hin). rewrite E in Hok, Hc.
      apply Forall_app in Hok as [_ [Hx _]%Forall_cons]. apply span_chain_app in Hc as [Hspan _].
      rewrite (level_files_ok _ x SNAPSHOT_LEVEL Hspan), decide_True in Hin by done.
      apply N.eq_le_incl, (ok_snapshots _ Hx). case_match; [by apply list_elem_of_filter in Hin as [_ ?]|done].
    - inversion Hext as [|? f ? ? [(n & _ & Hf)%elem_of_levels _] Hm]; subst; [done|]. simpl in Hm. exists n, f. split; [done|lia]. }
  apply elem_of_chain_levels in Hf as (s & Hs & Hf%level_files_sub). unfold spans.
  destruct (ch_spans chain) as [|h rest] eqn:E; [by apply elem_of_nil in Hs|]. simpl. f_equal.
  pose proof Hs as (pre & post & Es)%list_elem_of_split. pose proof Hok as Hok'. pose proof Hc as Hc'. rewrite Es in Hok', Hc'.
  destruct (span_chain_split pre s post f Hok' Hc' Hf) as (Hlo & _).
  assert (sp_lo h ≤ sp_lo s) as Hle.
  { apply elem_of_cons in Hs as [->|Hs]; [done|]. pose proof (span_chain_lo _ h rest Hok Hc eq_refl s Hs). lia. }
  apply Forall_cons in Hok as [Hh _]. destruct Hc as [(Hlev & Hfirst & _) _].
  apply first_of_Some in Hfirst as [(g & Eg & Hg)%list_elem_of_fmap _]. rewrite Hlev in Hg.
  apply elem_of_below in Hg as [(m & _ & Hg)%elem_of_epoch_levels _]. pose proof (ok_ranges _ Hh _ _ Hg). lia.
Qed.

(** The last transaction of a chain is in its newest epoch. *)
Lemma max_in_newest (chain : EpochChain C) top :
  Forall (λ s, objects_ok (sp_client s)) (ch_spans chain) → span_chain (ch_spans chain) → last (ch_spans chain) = Some top →
  sp_levels top = epoch_levels (sp_client top)
  ∧ (∃ f, f ∈ files_of top ∧ fi_max f = max_txid chain) ∧ ∀ f, f ∈ files_of top → fi_max f ≤ max_txid chain.
Proof.
  intros Hok Hc [pre E]%last_Some. destruct (max_txid_spec chain Hc) as [(f & Hf & Ef) Hmax].
  { rewrite E. by destruct pre. }
  assert (∀ g, g ∈ files_of top → g ∈ chain_files chain) as Hsub.
  { intros g Hg. apply elem_of_chain_files; [done|]. exists top. rewrite E. split; [|done]. apply elem_of_app. right. left. }
  rewrite E in Hok, Hc. pose proof (span_chain_app _ _ Hc) as [(Hlev & Hfirst & _) _]. split_and!; [done| |auto].
  apply elem_of_chain_files in Hf as (s & Hs & Hf); [|by rewrite E]. rewrite E in Hs.
  apply elem_of_app in Hs as [Hs| ->%list_elem_of_singleton]; [exfalso|by exists f].
  apply first_of_Some in Hfirst as [(g & Eg & Hg)%list_elem_of_fmap _].
  apply list_elem_of_split in Hs as (p1 & p2 & ->). rewrite <- app_assoc in Hok, Hc. simpl in Hok, Hc.
  destruct (span_chain_split p1 s (p2 ++ [top]) f Hok Hc Hf) as (_ & _ & _ & Hpost).
  specialize (Hpost top ltac:(apply elem_of_app; right; left)). specialize (Hmax g (Hsub g Hg)).
  rewrite app_comm_cons, app_assoc in Hok, Hc. destruct (span_chain_split _ top [] g Hok Hc Hg) as (_ & ? & _). lia.
Qed.
End spans.

(** ** A store in memory *)

#[global] Instance range_le_dec : RelDecision range_le.
Proof. intros f g. unfold range_le. apply _. Defined.

Record shelf := mkShelf { sh_objects : memory }.

Definition shelf_stored (s : shelf) (level : Z) : list FileInfo :=
  merge_sort range_le (memory_listing (sh_objects s) level).*1.

Definition shelf_write (s : shelf) (level : Z) (min max : N) (data : list N) : shelf * Result FileInfo :=
  let '(objects, r) := memory_write (sh_objects s) level min max data in (mkShelf objects, r).

#[global] Instance shelf_client : ReplicaClient shelf := {|
  ltx_files s level seek := Ok (infos_from seek (shelf_stored s level));
  ltx_files_bounded s level seek limit := Ok (take (N.to_nat limit) (infos_from seek (shelf_stored s level)));
  open_ltx_file s := memory_find (sh_objects s);
  read_range s level min max offset len :=
    bytes ←? memory_find (sh_objects s) level min max; Ok (take (N.to_nat len) (drop (N.to_nat offset) bytes));
  write_ltx_file := shelf_write;
  write_ltx_file_from_file := shelf_write;
|}.

#[global] Instance shelf_deletes : ReplicaDelete shelf := {|
  delete_ltx_files s files := (mkShelf (filter (λ o, o.2.1 ∉ files) (sh_objects s)), Ok tt);
  delete_all s := (mkShelf [], Ok tt);
|}.

#[global, program] Instance shelf_listing : ReplicaListing shelf := {| stored := shelf_stored |}.
Next Obligation. by intros s level seek files [= <-]. Qed.
Next Obligation.
  intros s level. apply StronglySorted_merge_sort; [|intros f g; unfold range_le; lia].
  intros f g h. unfold range_le. lia.
Qed.

Lemma elem_of_shelf s level f : f ∈ shelf_stored s level ↔ ∃ data, (level, (f, data)) ∈ sh_objects s.
Proof.
  unfold shelf_stored, memory_listing. rewrite merge_sort_Permutation, list_elem_of_fmap. split.
  - intros ([g data] & -> & ([l o] & Eo & [El Hin]%list_elem_of_filter)%list_elem_of_fmap). cbn in *. subst. by exists data.
  - intros [data Hin]. exists (f, data). split; [done|]. apply list_elem_of_fmap. exists (level, (f, data)).
    split; [done|]. by apply list_elem_of_filter.
Qed.

Definition object_ok (o : Z * (FileInfo * list N)) : Prop :=
  1 ≤ fi_min o.2.1 ∧ fi_min o.2.1 ≤ fi_max o.2.1 ∧ fi_max o.2.1 < u64_max ∧ (o.1 = 9%Z → fi_min o.2.1 = 1).

Lemma shelf_objects_ok s : Forall object_ok (sh_objects s) → objects_ok s.
Proof.
  rewrite Forall_forall. intros Hok. split.
  - intros level f [data Hin]%elem_of_shelf. apply Hok in Hin as (? & ? & ? & _). by split_and!.
  - intros f [data Hin]%elem_of_shelf. by apply Hok in Hin as (_ & _ & _ & ?); auto.
Qed.

Lemma elem_of_shelf_levels s f :
  f ∈ mjoin (epoch_levels s) ↔ ∃ level data, (0 ≤ level ≤ 9)%Z ∧ (level, (f, data)) ∈ sh_objects s.
Proof.
  rewrite elem_of_epoch_levels. split.
  - intros (n & Hn & [data Hin]%elem_of_shelf). exists (Z.of_nat n), data. unfold SNAPSHOT_LEVEL in Hn. split; [lia|done].
  - intros (level & data & Hl & Hin). exists (Z.to_nat level). split; [unfold SNAPSHOT_LEVEL; lia|].
    apply elem_of_shelf. exists data. by rewrite Z2Nat.id by lia.
Qed.

(** An epoch that opens with transaction 1, and one that continues it. *)
Definition shelf_object (level : Z) (min max : N) : Z * (FileInfo * list N) := (level, (sample_file level min max, [min; max])).
Definition sample_opener : shelf := mkShelf [shelf_object 0 1 1; shelf_object 0 2 2; shelf_object 9 1 3].
Definition sample_continued : shelf := mkShelf [shelf_object 0 4 4; shelf_object 1 4 6].
Definition sample_epochs : list (N * shelf) := [(1, sample_opener); (3, sample_continued)].

Definition sample_chain : EpochChain shelf :=
  match build sample_epochs with Ok chain => chain | Err _ => mkChain [] end.

Lemma sample_chain_built : build sample_epochs = Ok sample_chain.
Proof. vm_compute. reflexivity. Qed.

Lemma sample_epochs_ok e c : (e, c) ∈ sample_epochs → objects_ok c ∧ ∃ b, continues c b.
Proof.
  intros Hin. unfold sample_epochs in Hin. rewrite !elem_of_cons in Hin.
  destruct Hin as [[= -> ->]|[[= -> ->]|?%elem_of_nil]]; [| |done]; (split; [apply shelf_objects_ok; by repeat constructor|]).
  - exists 1. intros f (level & data & _ & Hin)%elem_of_shelf_levels. simpl in Hin. rewrite !elem_of_cons in Hin.
    destruct Hin as [[= _ -> _]|[[= _ -> _]|[[= _ -> _]|?%elem_of_nil]]]; [by right; left| |by right; left|done].
    right; right. exists (sample_file 0 1 1). split; [|done]. apply elem_of_shelf_levels. exists 0%Z, [1; 1]. split; [lia|left].
  - exists 4. intros f (level & data & _ & Hin)%elem_of_shelf_levels. simpl in Hin. rewrite !elem_of_cons in Hin.
    destruct Hin as [[= _ -> _]|[[= _ -> _]|?%elem_of_nil]]; [by right; left|by right; left|done].
Qed.

Lemma sample_chain_continues s : s ∈ ch_spans sample_chain → ∃ b, continues (sp_client s) b.
Proof.
  intros Hs. destruct (build_chain _ _ sample_chain_built) as (_ & _ & Hin).
  exact (proj2 (sample_epochs_ok _ _ (Hin s Hs))).
Qed.

Lemma chain_reads_listed_witness :
  spans sample_chain = [(1, 1); (3, 4)] ∧ listing_ok (chain_levels sample_chain)
  ∧ open_ltx_file sample_chain 1 4 6 = Ok [4; 6].
Proof.
  split; [vm_compute; reflexivity|]. split; [|vm_compute; reflexivity].
  exact (proj1 (chain_reads_listed sample_epochs sample_chain sample_chain_built (λ e c H, proj1 (sample_epochs_ok e c H)))).
Defined.

Lemma chain_restores_witness :
  ∃ infos, calc_restore_plan (chain_levels sample_chain) 0 = Ok infos ∧ slice_max_txid infos = 6.
Proof.
  exact (chain_restores sample_epochs sample_chain sample_chain_built (λ e c H, proj1 (sample_epochs_ok e c H))
           sample_chain_continues ltac:(vm_compute; reflexivity)).
Defined.
