(* ===== verification/EpochGc.v ===== *)
(** * Epoch GC is invisible to a restore

    The run of one stream under [Epochs]: epochs are claimed one after the
    other, activated whole or as the continuation of the chain they paged in,
    written by their owners, fenced ones included, and collected by passes whose
    scan, owner read and deletions interleave with all of that.  [w_history]
    records every object that ever landed; it is what the bucket would hold had
    no pass deleted anything.

    The contract of the writers is in [writes_ok]: an object of an epoch starts
    at the epoch's first transaction, or follows another object of it, or is a
    whole snapshot.  [settled] is the assumption the deletions rest on besides:
    an epoch that a later activation found without objects does not afterwards
    receive one that ends exactly at that activation's cut.  The last section
    shows a run in which it does. *)

From Stdlib Require Import ZifyN ZifyNat.
From stdpp Require Import functions.
From S2P Require Import Prelude Text Restore Ltx Levels Epochs.

(** The transactions an object holds, first and last. *)
Definition Range : Type := N * N.

Definition range_of (f : FileInfo) : Range := (fi_min f, fi_max f).

(** ** The walk down the epochs *)

(** What an epoch has to offer below a limit. *)
Definition kept (limit : option N) (rs : list Range) : list Range :=
  match limit with Some l => filter (λ r, r.2 < l) rs | None => rs end.

Definition linked (limit : option N) (rs : list Range) : bool :=
  match limit with Some l => bool_decide (Exists (λ r, r.2 + 1 = l) rs) | None => true end.

(** The spans of a chain, newest first, from epochs listed newest first. *)
Fixpoint walk (epochs : list (N * list Range)) (limit : option N) : list (N * N) :=
  match epochs with
  | [] => []
  | (e, rs) :: epochs =>
      if linked limit rs then
        match first_of (kept limit rs).*1 with
        | None => walk epochs limit
        | Some lo => (e, lo) :: (if lo =? 1 then [] else walk epochs (Some lo))
        end
      else walk epochs limit
  end.

(** The same walk as a relation on what every epoch holds: [n] is the epoch the
    walk takes next below [e]. *)
Definition offers (H : N → list Range) (limit : option N) (n : N) : Prop :=
  match limit with Some l => ∃ r, r ∈ H n ∧ r.2 + 1 = l | None => H n ≠ [] end.

Definition takes (H : N → list Range) (e : N) (limit : option N) (n lo : N) : Prop :=
  n < e ∧ offers H limit n ∧ (∀ n', n < n' → n' < e → ¬ offers H limit n')
  ∧ first_of (kept limit (H n)).*1 = Some lo.

Inductive chained (H : N → list Range) : N → option N → list (N * N) → Prop :=
| chained_end e limit : (∀ n, n < e → ¬ offers H limit n) → chained H e limit []
| chained_base e limit n : takes H e limit n 1 → chained H e limit [(n, 1)]
| chained_link e limit n lo l :
    takes H e limit n lo → lo ≠ 1 → chained H n (Some lo) l → chained H e limit ((n, lo) :: l).

Lemma elem_of_kept limit rs r : r ∈ kept limit rs ↔ r ∈ rs ∧ ∀ l, limit = Some l → r.2 < l.
Proof.
  destruct limit as [l|]; simpl; [rewrite list_elem_of_filter|]; split; intros Hr.
  - destruct Hr as [? ?]. split; [done|]. by intros ? [= <-].
  - destruct Hr as [? Hr]. split; [|done]. by apply Hr.
  - by split.
  - apply Hr.
Qed.

Lemma first_kept_None H limit n : first_of (kept limit (H n)).*1 = None → ¬ offers H limit n.
Proof.
  intros E%first_of_None%fmap_nil_inv. destruct limit as [l|]; simpl in *; [|tauto].
  intros (r & Hr & El). assert (r ∈ filter (λ r, r.2 < l) (H n)) as Hk by (apply list_elem_of_filter; split; [lia|done]).
  rewrite E in Hk. by apply elem_of_nil in Hk.
Qed.

Lemma takes_unique H e limit n lo n' lo' : takes H e limit n lo → takes H e limit n' lo' → n = n' ∧ lo = lo'.
Proof.
  intros (Hn & Ho & Hmax & Elo) (Hn' & Ho' & Hmax' & Elo'). assert (n = n') as ->; [|by simplify_eq].
  destruct (N.lt_trichotomy n n') as [Hlt|[?|Hlt]]; [|done|].
  - by destruct (Hmax n').
  - by destruct (Hmax' n).
Qed.

Lemma chained_unique H e limit l l' : chained H e limit l → chained H e limit l' → l = l'.
Proof.
  intros Hl. revert l'. induction Hl as [e limit Hno|e limit n Ht|e limit n lo l Ht Hlo Hl IH]; intros l' Hl'.
  - by destruct Hl' as [|? ? ? (? & ? & _)|? ? ? ? ? (? & ? & _)]; [|destruct (Hno n)..].
  - inversion Hl' as [? ? Hno|? ? n' Ht'|? ? n' lo' ? Ht']; subst.
    + destruct Ht as (? & ? & _). by destruct (Hno n).
    + by destruct (takes_unique _ _ _ _ _ _ _ Ht Ht') as [-> _].
    + by destruct (takes_unique _ _ _ _ _ _ _ Ht Ht') as [-> <-].
  - inversion Hl' as [? ? Hno|? ? n' Ht'|? ? n' lo' ? Ht']; subst.
    + destruct Ht as (? & ? & _). by destruct (Hno n).
    + by destruct (takes_unique _ _ _ _ _ _ _ Ht Ht') as [-> ->].
    + destruct (takes_unique _ _ _ _ _ _ _ Ht Ht') as [<- <-]. f_equal. auto.
Qed.

Lemma offers_ne H limit n : offers H limit n → H n ≠ [].
Proof. destruct limit as [l|]; simpl; [|done]. intros (r & Hr & _) E. rewrite E in Hr. by apply elem_of_nil in Hr. Qed.

Lemma linked_offers H limit n : linked limit (H n) = true → first_of (kept limit (H n)).*1 ≠ None → offers H limit n.
Proof.
  destruct limit as [l|]; simpl.
  - intros (r & Hr & E)%bool_decide_eq_true%Exists_exists _. eauto.
  - intros _ Hne E. apply Hne. by rewrite E.
Qed.

Lemma offers_linked H limit n : offers H limit n → linked limit (H n) = true.
Proof. destruct limit as [l|]; simpl; [|done]. intros (r & Hr & E). apply bool_decide_eq_true, Exists_exists. eauto. Qed.

(** The walk over the epochs that hold anything is the chain. *)
Lemma walk_chained H epochs e limit :
  StronglySorted (λ a b, b < a) epochs → (∀ n, n ∈ epochs → n < e) →
  (∀ n, n < e → offers H limit n → n ∈ epochs) → (∀ n x, x ∈ epochs → n < x → H n ≠ [] → n ∈ epochs) →
  chained H e limit (walk (map (λ n, (n, H n)) epochs) limit).
Proof.
  intros Hs. revert e limit. induction Hs as [|n epochs Hs IH Hn]; intros e limit Hlt Hall Hdown; cbn [map walk].
  { constructor. intros n Hn Ho. by apply Hall, elem_of_nil in Ho. }
  rewrite Forall_forall in Hn.
  assert (∀ m x, x ∈ epochs → m < x → H m ≠ [] → m ∈ epochs) as Hdown'.
  { intros m x Hx Hm Hne. pose proof (Hdown m x ltac:(by right) Hm Hne) as [->|?]%elem_of_cons; [|done].
    specialize (Hn x Hx). lia. }
  assert (¬ offers H limit n → chained H e limit (walk (map (λ n, (n, H n)) epochs) limit)) as Hskip.
  { intros Hno. apply IH; [intros m Hm; apply Hlt; by right| |done].
    intros m Hm Ho. pose proof (Hall m Hm Ho) as [->|?]%elem_of_cons; done. }
  destruct (linked limit (H n)) eqn:El.
  2: { apply Hskip. intros Ho%offers_linked. congruence. }
  destruct (first_of _) as [lo|] eqn:Elo; [|by apply Hskip, first_kept_None].
  assert (takes H e limit n lo) as Ht.
  { split_and!; [apply Hlt; left|by apply linked_offers; [|rewrite Elo]| |done].
    intros n' Hgt Hn' Ho. pose proof (Hall n' Hn' Ho) as [->|Hin]%elem_of_cons; [lia|]. specialize (Hn n' Hin). lia. }
  destruct (N.eqb_spec lo 1) as [->|Hne]; [by constructor|]. apply chained_link; [done|done|].
  apply IH; [intros m Hm; by apply Hn| |done]. intros m Hm Ho%offers_ne.
  pose proof (Hdown m n ltac:(left) Hm Ho) as [->|?]%elem_of_cons; [lia|done].
Qed.

(** A chain that gets to transaction 1 without going below epoch [b]. *)
Inductive grounded (H : N → list Range) (b : N) : N → option N → Prop :=
| grounded_base e limit n : b ≤ n → takes H e limit n 1 → grounded H b e limit
| grounded_link e limit n lo : b ≤ n → takes H e limit n lo → grounded H b n (Some lo) → grounded H b e limit.

Lemma chained_grounded H e limit l n :
  chained H e limit l → last l = Some (n, 1) → grounded H n e limit.
Proof.
  intros Hl. revert n. induction Hl as [e limit Hno|e limit n Ht|e limit n lo l Ht Hlo Hl IH]; intros m Hm.
  - done.
  - injection Hm as <-. by apply (grounded_base H n e limit n).
  - rewrite last_cons in Hm. destruct (last l) as [[n' lo']|] eqn:El; injection Hm as -> ->; [|done].
    specialize (IH m eq_refl). apply (grounded_link H m e limit n lo); [|done|done].
    assert (∀ e lim, grounded H m e lim → m < e) as Hlt.
    { intros e' lim [? ? ? ? (? & _)|? ? ? ? ? (? & _) _]; lia. }
    apply Hlt in IH. lia.
Qed.

(** Two histories with the same objects in the epochs from [b] on. *)
Definition agree (b : N) (H H' : N → list Range) : Prop := ∀ n, b ≤ n → ∀ r, r ∈ H n ↔ r ∈ H' n.

Lemma offers_agree b H H' limit n : agree b H H' → b ≤ n → offers H limit n → offers H' limit n.
Proof.
  intros Ha Hn. destruct limit as [l|]; simpl.
  - intros (r & Hr & E). exists r. split; [by apply Ha|done].
  - intros Hne E. apply Hne. apply elem_of_nil_inv. intros r Hr%Ha; [|done]. rewrite E in Hr. by apply elem_of_nil in Hr.
Qed.

Lemma first_kept_agree b H H' limit n lo :
  agree b H H' → b ≤ n → first_of (kept limit (H n)).*1 = Some lo → first_of (kept limit (H' n)).*1 = Some lo.
Proof.
  intros Ha Hn. rewrite !first_of_Some. assert (∀ x, x ∈ (kept limit (H n)).*1 ↔ x ∈ (kept limit (H' n)).*1) as Hx.
  { intros x. rewrite !list_elem_of_fmap. setoid_rewrite elem_of_kept. by setoid_rewrite (Ha n Hn). }
  setoid_rewrite Hx. done.
Qed.

(** What is below [b] does not matter. *)
Lemma takes_agree b H H' e limit n lo : agree b H H' → b ≤ n → takes H e limit n lo → takes H' e limit n lo.
Proof.
  intros Ha Hn (He & Ho & Hmax & Elo). split_and!; [done|by eapply offers_agree| |by eapply first_kept_agree].
  intros n' Hgt Hlt Ho'. apply (Hmax n' Hgt Hlt). apply (offers_agree b H'); [|lia|done]. intros m Hm r. symmetry. by apply Ha.
Qed.

(** A grounded chain is the same over both, and stays above [b]. *)
Lemma grounded_chained b H H' e limit :
  agree b H H' → grounded H b e limit →
  ∃ l, chained H e limit l ∧ chained H' e limit l ∧ (∀ x, x ∈ l → b ≤ x.1) ∧ ∃ n, last l = Some (n, 1).
Proof.
  intros Ha. induction 1 as [e limit n Hn Ht|e limit n lo Hn Ht Hg (l & Hl & Hl' & Hge & m & Hm)].
  - pose proof (takes_agree b H H' _ _ _ _ Ha Hn Ht) as Ht'. exists [(n, 1)]. split_and!; [by constructor..| |by exists n].
    by intros x ->%list_elem_of_singleton.
  - pose proof (takes_agree b H H' _ _ _ _ Ha Hn Ht) as Ht'. destruct (N.eq_dec lo 1) as [->|Hlo].
    + exists [(n, 1)]. split_and!; [by constructor..| |by exists n]. by intros x ->%list_elem_of_singleton.
    + exists ((n, lo) :: l). split_and!; [by apply chained_link..| |].
      * intros x [->|Hx]%elem_of_cons; [done|by apply Hge].
      * exists m. by rewrite last_cons, Hm.
Qed.

(** ** How a history grows *)

(** [B] gives the transaction an activated epoch continues at, 1 for one that
    opens whole; [K] the epoch whose objects ended at its cut. *)
Record history_ok (H : N → list Range) (B K : gmap N N) : Prop := {
  h_ranges e r : r ∈ H e → 1 ≤ r.1 ∧ r.1 ≤ r.2;
  h_starts e r : r ∈ H e → ∃ b, B !! e = Some b ∧ (r.1 = 1 ∧ b ≤ r.2 + 1 ∨ r.1 = b ∨ ∃ r', r' ∈ H e ∧ r'.2 + 1 = r.1);
  h_links e b : B !! e = Some b → b ≠ 1 →
    ∃ t, K !! e = Some t ∧ t < e ∧ offers H (Some b) t
      ∧ ∀ n, t < n → n < e → offers H (Some b) n → first_of (kept (Some b) (H n)).*1 = Some 1;
}.

(** An epoch starts at 1 or where it continues, whatever is clipped. *)
Lemma first_start (H : N → list Range) (B : gmap N N) limit n lo :
  (∀ r, r ∈ H n → 1 ≤ r.1 ∧ r.1 ≤ r.2) →
  (∀ r, r ∈ H n → ∃ b, B !! n = Some b ∧ (r.1 = 1 ∧ b ≤ r.2 + 1 ∨ r.1 = b ∨ ∃ r', r' ∈ H n ∧ r'.2 + 1 = r.1)) →
  first_of (kept limit (H n)).*1 = Some lo → lo = 1 ∨ B !! n = Some lo.
Proof.
  intros Hranges Hstarts [(r & -> & [Hr Hl]%elem_of_kept)%list_elem_of_fmap Hmin]%first_of_Some.
  destruct (Hstarts r Hr) as (b & Hb & [[E _]|[E|(r' & Hr' & E)]]); [by left|right; congruence|exfalso].
  destruct (Hranges r Hr), (Hranges r' Hr').
  assert (r.1 ≤ r'.1); [|lia]. apply Hmin, list_elem_of_fmap. exists r'. split; [done|]. apply elem_of_kept.
  split; [done|]. intros l El. specialize (Hl l El). lia.
Qed.

Lemma history_start H B K limit n lo :
  history_ok H B K → first_of (kept limit (H n)).*1 = Some lo → lo = 1 ∨ B !! n = Some lo.
Proof. intros [Hr Hs _]. exact (first_start H B limit n lo (Hr n) (Hs n)). Qed.

Lemma offers_first H B K limit n :
  history_ok H B K → offers H limit n → ∃ lo, first_of (kept limit (H n)).*1 = Some lo ∧ (lo = 1 ∨ B !! n = Some lo).
Proof.
  intros Hok Ho. destruct (first_of _) as [lo|] eqn:E; [|by apply first_kept_None in E]. exists lo. split; [done|].
  by eapply history_start.
Qed.

#[global] Instance offers_dec H limit n : Decision (offers H limit n).
Proof.
  destruct limit as [l|]; simpl; [|apply _]. destruct (decide (Exists (λ r, r.2 + 1 = l) (H n))) as [E|E].
  - left. by apply Exists_exists in E.
  - right. intros Hx. apply E, Exists_exists. exact Hx.
Defined.

(** The newest epoch with a property below a bound. *)
Lemma newest_below (P : N → Prop) `{∀ n, Decision (P n)} n e :
  n < e → P n → ∃ m, n ≤ m ∧ m < e ∧ P m ∧ ∀ m', m < m' → m' < e → ¬ P m'.
Proof.
  induction e as [|e IH] using N.peano_ind; intros Hlt Hp; [lia|]. destruct (decide (P e)) as [He|He].
  - exists e. split_and!; [lia|lia|done|]. intros. lia.
  - destruct (N.eq_dec n e) as [->|]; [done|]. destruct IH as (m & ? & ? & ? & Hmax); [lia|done|].
    exists m. split_and!; [done|lia|done|]. intros m' ? ?. destruct (N.eq_dec m' e) as [->|]; [done|]. apply Hmax; lia.
Qed.

Lemma first_one (H : N → list Range) limit n : (∀ r, r ∈ H n → 1 ≤ r.1) → (∃ r, r ∈ kept limit (H n) ∧ r.1 = 1) → first_of (kept limit (H n)).*1 = Some 1.
Proof.
  intros Hge (r & Hr & E). apply first_of_Some. split; [apply list_elem_of_fmap; by exists r|].
  intros x (r' & -> & [Hr' _]%elem_of_kept)%list_elem_of_fmap. by apply Hge.
Qed.

Section growth.
Context (H H' : N → list Range) (B B' K K' : gmap N N).
Context (Hok : history_ok H B K) (Hok' : history_ok H' B' K').
Context (Hsub : ∀ n, H n ⊆ H' n) (HB : B ⊆ B') (HK : K ⊆ K').

Lemma offers_grow l n : offers H (Some l) n → offers H' (Some l) n.
Proof using Hsub. intros (r & Hr & E). exists r. split; [by apply Hsub|done]. Qed.

Lemma first_one_grow limit n : first_of (kept limit (H n)).*1 = Some 1 → first_of (kept limit (H' n)).*1 = Some 1.
Proof using Hok' Hsub.
  intros [(r & E & [Hr Hl]%elem_of_kept)%list_elem_of_fmap _]%first_of_Some. apply first_one.
  - intros r'. apply (h_ranges _ _ _ Hok').
  - exists r. split; [|done]. apply elem_of_kept. split; [by apply Hsub|done].
Qed.

(** As objects land, the walk keeps to the epoch it took or finds a whole
    snapshot at or above it. *)
Lemma takes_grow e l n lo :
  B !! e = Some l → l ≠ 1 → takes H e (Some l) n lo →
  (∃ n', n ≤ n' ∧ takes H' e (Some l) n' 1) ∨ lo ≠ 1 ∧ B !! n = Some lo ∧ takes H' e (Some l) n lo.
Proof using All.
  intros He Hl (Hn & Ho & Hmax & Elo).
  destruct (newest_below (offers H' (Some l)) n e Hn (offers_grow l n Ho)) as (n' & Hle & Hn' & Ho' & Hmax').
  destruct (N.eq_dec n' n) as [->|Hne].
  - destruct (offers_first H' B' K' _ _ Hok' Ho') as (lo' & Elo' & Hlo').
    destruct (N.eq_dec lo' 1) as [->|Hlo1]; [left; by exists n|]. destruct Hlo' as [?|Hlo']; [done|].
    destruct (history_start H B K _ _ _ Hok Elo) as [->|HBn].
    { apply first_one_grow in Elo. congruence. }
    pose proof (lookup_weaken _ _ _ _ HBn HB). simplify_eq. right. by split_and!.
  - left. exists n'. split; [done|]. split_and!; [done..|].
    destruct (h_links _ _ _ Hok' e l (lookup_weaken _ _ _ _ He HB) Hl) as (t & Ht & Hte & _ & Hmid).
    apply Hmid; [|done|done]. destruct (h_links _ _ _ Hok e l He Hl) as (t' & Ht' & _ & Hot & _).
    pose proof (lookup_weaken _ _ _ _ Ht' HK). assert (t' = t) as -> by congruence.
    destruct (N.le_gt_cases t n); [lia|]. by destruct (Hmax t).
Qed.

Lemma grounded_grow b e l :
  B !! e = Some l → l ≠ 1 → grounded H b e (Some l) → grounded H' b e (Some l).
Proof using All.
  intros He Hl Hg. remember (Some l) as limit eqn:El. revert l El He Hl.
  induction Hg as [e limit n Hn Ht|e limit n lo Hn Ht Hg IH]; intros l -> He Hl.
  - destruct (takes_grow e l n 1 He Hl Ht) as [(n' & Hle & Ht')|(? & _)]; [|done].
    apply (grounded_base H' b e (Some l) n'); [lia|done].
  - destruct (takes_grow e l n lo He Hl Ht) as [(n' & Hle & Ht')|(Hlo & HBn & Ht')].
    + apply (grounded_base H' b e (Some l) n'); [lia|done].
    + apply (grounded_link H' b e (Some l) n lo); [done|done|]. by apply (IH lo).
Qed.
End growth.

(** ** The run of a stream *)

(** What a write and a deletion do to the objects of an epoch: a write lands or
    does not, whatever it reports, and a deletion only removes. *)
Class ReplicaStore (C : Type) `{ReplicaListing C} `{ReplicaDelete C} := {
  write_stored c level min max data c' r :
    write_ltx_file c level min max data = (c', r) →
    ∃ landed : bool, ∀ level' x,
      x ∈ map range_of (stored c' level') ↔
      x ∈ map range_of (stored c level') ∨ landed = true ∧ level' = level ∧ x = (min, max);
  delete_stored c c' r level f : delete_all c = (c', r) → f ∈ stored c' level → f ∈ stored c level;
}.

Section world.
Context {C : Type} `{client : ReplicaClient C} `{listing : !ReplicaListing C} `{deletes : ReplicaDelete C}.
Context `{store : !ReplicaStore C}.

Definition ranges (c : C) : list Range := map range_of (mjoin (epoch_levels c)).

(** One stream: the epoch in its owner record, a client per epoch prefix, what
    the activated epochs continue at and from, everything that ever landed, and
    the passes that have planned and those that have confirmed their owner. *)
Record World := mkWorld {
  w_epoch : N;
  w_bucket : N → C;
  w_base : gmap N N;
  w_link : gmap N N;
  w_history : N → list Range;
  w_scans : list (N * Plan);
  w_passes : list (N * Plan);
}.

(** The prefixes the store lists are the epochs with an object. *)
Definition lists (w : World) (prefixes : list string) : Prop :=
  NoDup (omap epoch_of_prefix prefixes)
  ∧ ∀ e, e ∈ omap epoch_of_prefix prefixes ↔ ranges (w_bucket w e) ≠ [].

(** An object its epoch's owner may write: it starts where the epoch does or
    after another object of it, or is a whole snapshot of what the epoch holds. *)
Definition writes_ok (H : list Range) (b : N) (level : Z) (min max : N) : Prop :=
  (0 ≤ level ≤ 9)%Z ∧ 1 ≤ min ∧ min ≤ max ∧ max < u64_max
  ∧ (min = 1 ∧ b ≤ max + 1 ∨ min = b ∨ ∃ r, r ∈ H ∧ r.2 + 1 = min)
  ∧ (level = 9%Z → min = 1).

(** A late object of an epoch between an activation and the epoch it continued
    does not end at that activation's cut, unless the epoch opens whole. *)
Definition settled (w : World) (e min max : N) : Prop :=
  ∀ e' l t, w_base w !! e' = Some l → w_link w !! e' = Some t → t < e → e < e' → max + 1 = l →
    min = 1 ∨ w_base w !! e = Some 1.

Definition add_object (w : World) (e : N) (c : C) (x : Range) : N → list Range :=
  if decide (x ∈ ranges c) then <[e := x :: w_history w e]> (w_history w) else w_history w.

Inductive step (w : World) : World → Prop :=
| step_claim :
    step w (mkWorld (w_epoch w + 1) (w_bucket w) (w_base w) (w_link w) (w_history w) (w_scans w) (w_passes w))
| step_open e :
    e ≤ w_epoch w → w_base w !! e = None →
    step w (mkWorld (w_epoch w) (w_bucket w) (<[e := 1]> (w_base w)) (w_link w) (w_history w) (w_scans w) (w_passes w))
| step_page e prefixes chain t :
    e ≤ w_epoch w → w_base w !! e = None → w_link w !! e = None → lists w prefixes →
    epoch_chain prefixes (w_bucket w) e = Ok (Some chain) →
    is_ok (calc_restore_plan (chain_levels chain) 0) = true → last (spans chain).*1 = Some t →
    step w (mkWorld (w_epoch w) (w_bucket w) (<[e := max_txid chain + 1]> (w_base w)) (<[e := t]> (w_link w))
              (w_history w) (w_scans w) (w_passes w))
| step_write e b level min max data c r :
    w_base w !! e = Some b → writes_ok (w_history w e) b level min max → settled w e min max →
    write_ltx_file (w_bucket w e) level min max data = (c, r) →
    step w (mkWorld (w_epoch w) (<[e := c]> (w_bucket w)) (w_base w) (w_link w) (add_object w e c (min, max))
              (w_scans w) (w_passes w))
| step_scan own prefixes objects reads now_mono now_ms grace_ms s s' scan p :
    lists w prefixes → st_client s = w_bucket w →
    gc_decide own (Some false) prefixes objects reads now_mono now_ms grace_ms s = (s', Ok (GcPlanned scan p)) →
    step w (mkWorld (w_epoch w) (w_bucket w) (w_base w) (w_link w) (w_history w) ((own, p) :: w_scans w) (w_passes w))
| step_confirm own p :
    (own, p) ∈ w_scans w → w_epoch w = own →
    step w (mkWorld (w_epoch w) (w_bucket w) (w_base w) (w_link w) (w_history w) (w_scans w) ((own, p) :: w_passes w))
| step_delete own p victim s s' r :
    (own, p) ∈ w_passes w → victim ∈ pn_delete p → st_client s = w_bucket w →
    delete_epoch victim s = (s', r) →
    step w (mkWorld (w_epoch w) (st_client s') (w_base w) (w_link w) (w_history w) (w_scans w) (w_passes w)).

(** A stream nobody has written. *)
Definition fresh (w : World) : Prop :=
  (∀ e level, stored (w_bucket w e) level = []) ∧ w_base w = ∅ ∧ w_link w = ∅ ∧ (∀ e, w_history w e = [])
  ∧ w_scans w = [] ∧ w_passes w = [].

Definition reachable (w : World) : Prop := ∃ w0, fresh w0 ∧ rtc step w0 w.

(** ** The walk of [build] *)

Lemma map_reverse {A A'} (f : A → A') l : map f (reverse l) = reverse (map f l).
Proof. exact (fmap_reverse f l). Qed.

Lemma first_of_ext l l' : (∀ x, x ∈ l ↔ x ∈ l') → first_of l = first_of l'.
Proof.
  intros Hx. destruct (first_of l') as [m|] eqn:E.
  - apply first_of_Some. apply first_of_Some in E. by setoid_rewrite Hx.
  - apply first_of_None in E as ->. apply first_of_None, elem_of_nil_inv. intros x Hin%Hx. by apply elem_of_nil in Hin.
Qed.

Lemma elem_of_ranges c x : x ∈ ranges c ↔ ∃ f, f ∈ mjoin (epoch_levels c) ∧ range_of f = x.
Proof. unfold ranges. rewrite list_elem_of_fmap. naive_solver. Qed.

Lemma first_below limit c :
  first_of (map fi_min (mjoin (levels_below_limit limit (epoch_levels c)))) = first_of (kept limit (ranges c)).*1.
Proof.
  apply first_of_ext. intros x. rewrite !list_elem_of_fmap. split.
  - intros (f & -> & [Hf Hl]%elem_of_below). exists (range_of f). split; [done|]. apply elem_of_kept.
    split; [apply elem_of_ranges; eauto|done].
  - intros (r & -> & [(f & Hf & <-)%elem_of_ranges Hl]%elem_of_kept). exists f. split; [done|]. by apply elem_of_below.
Qed.

Lemma linked_below l c :
  bool_decide (last_of (map fi_max (mjoin (clip l (epoch_levels c)))) = Some (wrap_sub l 1)) = linked (Some l) (ranges c).
Proof.
  apply bool_decide_ext. rewrite linked_iff, Exists_exists. split.
  - intros (f & Hf & E). exists (range_of f). split; [apply elem_of_ranges; eauto|done].
  - intros (r & (f & Hf & <-)%elem_of_ranges & E). eauto.
Qed.

Definition span_of (s : Span C) : N * N := (sp_epoch s, sp_lo s).

Lemma build_loop_walk epochs spans out :
  build_loop epochs spans = Ok out →
  ∃ new, out = new ++ spans
    ∧ map span_of new = reverse (walk (map (λ x, (x.1, ranges x.2)) epochs) (sp_lo <$> head spans)).
Proof using listing.
  revert spans. induction epochs as [|[e c] epochs IH]; intros spans; cbn [build_loop map walk fst snd].
  { intros [= <-]. by exists []. }
  destruct (list_levels c) as [levels|] eqn:El; [|done]. apply list_levels_Ok in El as ->.
  assert ((match spans with
           | [] => (epoch_levels c, true)
           | above :: _ =>
               (clip (sp_lo above) (epoch_levels c),
                bool_decide (last_of (map fi_max (mjoin (clip (sp_lo above) (epoch_levels c))))
                             = Some (wrap_sub (sp_lo above) 1)))
           end) = (levels_below_limit (sp_lo <$> head spans) (epoch_levels c), linked (sp_lo <$> head spans) (ranges c))) as ->.
  { destruct spans as [|above spans]; [done|]. by rewrite linked_below. }
  rewrite first_below. destruct (linked _ _); [|apply IH]. destruct (first_of _) as [lo|]; [|apply IH].
  rewrite reverse_cons. destruct (lo =? 1).
  - intros [= <-]. by exists [mkSpan e c lo (levels_below_limit (sp_lo <$> head spans) (epoch_levels c))].
  - intros (new & -> & E)%IH. eexists (new ++ [_]). rewrite <- app_assoc. split; [done|]. by rewrite map_app, E.
Qed.

Lemma build_walk (bucket : N → C) epochs chain :
  build (map (λ e, (e, bucket e)) epochs) = Ok chain →
  spans chain = reverse (walk (map (λ e, (e, ranges (bucket e))) (reverse epochs)) None).
Proof using listing.
  unfold build. destruct (build_loop _ []) as [out|] eqn:E; [|done]. apply build_loop_walk in E as (new & -> & E).
  rewrite app_nil_r. intros Hb. assert (chain = mkChain new) as -> by (destruct new; [done|by injection Hb]).
  unfold spans. simpl. etrans; [exact E|]. by rewrite <- map_reverse, map_map.
Qed.

(** Where every listing answers, so does the chain. *)
Lemma build_answers (bucket : N → C) epochs :
  (∀ e, is_ok (list_levels (bucket e)) = true) →
  walk (map (λ e, (e, ranges (bucket e))) (reverse epochs)) None ≠ [] →
  ∃ chain, build (map (λ e, (e, bucket e)) epochs) = Ok chain.
Proof using listing.
  intros Hok Hne. assert (∀ l spans, (∀ x, x ∈ l → is_ok (list_levels x.2) = true) → ∃ out, build_loop l spans = Ok out) as Hall.
  { induction l as [|[e c] l IH]; intros spans Hl; cbn [build_loop]; [eauto|].
    specialize (Hl (e, c) ltac:(left)) as Hc. simpl in Hc. destruct (list_levels c) as [levels|]; [|done].
    specialize (λ spans, IH spans (λ x Hx, Hl x (list_elem_of_further _ _ _ Hx))).
    destruct (match spans with [] => _ | _ => _ end) as [lv []]; [|apply IH].
    destruct (first_of _); [|apply IH]. destruct (_ =? 1); [eauto|apply IH]. }
  unfold build. destruct (Hall (reverse (map (λ e, (e, bucket e)) epochs)) []) as [out E].
  { intros x. rewrite elem_of_reverse. intros (e & -> & _)%list_elem_of_fmap. apply Hok. }
  rewrite E. apply build_loop_walk in E as (new & -> & E). rewrite app_nil_r. destruct new as [|s new]; [|eauto].
  exfalso. apply Hne. rewrite <- map_reverse, map_map in E. simpl in E. by apply (f_equal reverse) in E; rewrite reverse_involutive in E.
Qed.

(** ** The invariant of a run *)

Definition bucket_ranges (w : World) (e : N) : list Range := ranges (w_bucket w e).

(** An epoch some confirmed pass may delete. *)
Definition doomed (w : World) (e : N) : Prop := ∃ own p, (own, p) ∈ w_passes w ∧ e ∈ pn_delete p.

(** What a pass has seen: its victims are below the base, and the owner's epoch
    is grounded at the base. *)
Definition plan_ok (w : World) (own : N) (p : Plan) : Prop :=
  pn_retired_below p ≤ own ∧ (∀ v, v ∈ pn_delete p → v < pn_retired_below p) ∧ w_history w own ≠ []
  ∧ (first_of (w_history w own).*1 = Some 1
     ∨ ∃ l, w_base w !! own = Some l ∧ l ≠ 1 ∧ grounded (w_history w) (pn_retired_below p) own (Some l)).

Record inv (w : World) : Prop := {
  i_history : history_ok (w_history w) (w_base w) (w_link w);
  i_claimed e b : w_base w !! e = Some b → e ≤ w_epoch w;
  i_linked e t : w_link w !! e = Some t → is_Some (w_base w !! e);
  i_objects e : objects_ok (w_bucket w e);
  i_sub e r : r ∈ bucket_ranges w e → r ∈ w_history w e;
  i_same e r : r ∈ w_history w e → doomed w e ∨ r ∈ bucket_ranges w e;
  i_plans own p : (own, p) ∈ w_scans w ∨ (own, p) ∈ w_passes w → plan_ok w own p;
  i_passes own p e l : (own, p) ∈ w_passes w → own < e → w_base w !! e = Some l → l ≠ 1 →
    grounded (w_history w) (pn_retired_below p) e (Some l);
}.

Lemma chained_exists H e limit : ∃ l, chained H e limit l.
Proof.
  revert limit. induction (N.lt_wf_0 e) as [e _ IH]. intros limit.
  assert ((∃ n, n < e ∧ offers H limit n) ∨ ∀ n, n < e → ¬ offers H limit n) as [(n & Hn & Ho)|Hno].
  { clear IH. induction e as [|e IHe] using N.peano_ind; [right; intros; lia|].
    destruct (decide (offers H limit e)) as [Ho|Hno]; [left; exists e; split; [lia|done]|].
    destruct IHe as [(n & ? & ?)|Hall]; [left; exists n; split; [lia|done]|right]. intros n Hn.
    destruct (N.eq_dec n e) as [->|]; [done|]. apply Hall. lia. }
  - destruct (newest_below (offers H limit) n e Hn Ho) as (m & _ & Hm & Hom & Hmax).
    destruct (first_of (kept limit (H m)).*1) as [lo|] eqn:E; [|by apply first_kept_None in E].
    assert (takes H e limit m lo) as Ht by by split_and!.
    destruct (N.eq_dec lo 1) as [->|Hlo]; [eexists; by apply chained_base|].
    destruct (IH m Hm (Some lo)) as [l Hl]. eexists. by apply chained_link.
  - exists []. by constructor.
Qed.

Lemma chained_agree H H' e limit l : agree 0 H H' → chained H e limit l → chained H' e limit l.
Proof.
  intros Ha. induction 1 as [e limit Hno|e limit n Ht|e limit n lo l Ht Hlo Hl IH].
  - constructor. intros n Hn Ho. apply (Hno n Hn). apply (offers_agree 0 H'); [|lia|done].
    intros m Hm r. symmetry. by apply Ha.
  - constructor. eapply takes_agree; [done|lia|done].
  - apply chained_link; [|done|done]. eapply takes_agree; [done|lia|done].
Qed.

Lemma history_claimed w e : inv w → w_history w e ≠ [] → e ≤ w_epoch w.
Proof.
  intros Hi Hne. destruct (w_history w e) as [|r rs] eqn:E; [done|].
  destruct (h_starts _ _ _ (i_history w Hi) e r) as (b & Hb & _); [rewrite E; left|]. by eapply (i_claimed w Hi).
Qed.

(** The whole history is grounded at the base of every confirmed pass. *)
Lemma top_grounded w own p :
  inv w → (own, p) ∈ w_passes w → grounded (w_history w) (pn_retired_below p) (w_epoch w + 1) None.
Proof.
  intros Hi Hp. destruct (i_plans w Hi own p) as (Hle & _ & Hne & Hown); [by right|].
  pose proof (history_claimed w own Hi Hne) as Hc.
  destruct (newest_below (offers (w_history w) None) own (w_epoch w + 1)) as (top & Htop & Hlt & Ho & Hmax); [lia|done|].
  destruct (offers_first _ _ _ _ _ (i_history w Hi) Ho) as (lo & Elo & Hlo).
  assert (takes (w_history w) (w_epoch w + 1) None top lo) as Ht by by split_and!.
  destruct (N.eq_dec lo 1) as [->|Hlo1]; [apply (grounded_base _ _ _ _ top); [lia|done]|].
  destruct Hlo as [?|Hlo]; [done|]. apply (grounded_link _ _ _ _ top lo); [lia|done|].
  destruct (N.eq_dec top own) as [->|Hneq]; [|apply (i_passes w Hi own p top lo Hp); [lia|done|done]].
  destruct Hown as [E|(l & Hl & _ & Hg)]; [simpl in Elo; congruence|]. by replace lo with l by congruence.
Qed.

(** The chain over the bucket is the chain over everything that ever landed. *)
Lemma same_chain w :
  inv w →
  ∃ l, chained (w_history w) (w_epoch w + 1) None l ∧ chained (bucket_ranges w) (w_epoch w + 1) None l
    ∧ (∀ x, x ∈ l → ∀ r, r ∈ w_history w x.1 ↔ r ∈ bucket_ranges w x.1)
    ∧ ∀ own p, (own, p) ∈ w_passes w →
        (∀ x, x ∈ l → pn_retired_below p ≤ x.1) ∧ ∃ n, last l = Some (n, 1).
Proof.
  intros Hi. destruct (chained_exists (w_history w) (w_epoch w + 1) None) as [l Hl]. exists l.
  assert (∀ own p, (own, p) ∈ w_passes w →
            (∀ x, x ∈ l → pn_retired_below p ≤ x.1) ∧ ∃ n, last l = Some (n, 1)) as Hp.
  { intros own p Hp. destruct (grounded_chained (pn_retired_below p) (w_history w) (w_history w) _ _ ltac:(done)
                                 (top_grounded w own p Hi Hp)) as (l' & Hl' & _ & Hge & Hlast).
    by rewrite (chained_unique _ _ _ _ _ Hl Hl'). }
  assert (∀ e, (∀ own p, (own, p) ∈ w_passes w → pn_retired_below p ≤ e) →
            ∀ r, r ∈ w_history w e ↔ r ∈ bucket_ranges w e) as Hagree.
  { intros e He r. split; [|apply (i_sub w Hi)]. intros [(own & p & Hin & Hv)|?]%(i_same w Hi); [|done].
    destruct (i_plans w Hi own p) as (_ & Hvict & _); [by right|]. specialize (Hvict _ Hv). specialize (He _ _ Hin). lia. }
  split_and!; [done| | |done].
  - destruct (w_passes w) as [|[own p] passes] eqn:E.
    + apply (chained_agree (w_history w)); [|done]. intros n _ r. apply Hagree. by intros ? ? ?%elem_of_nil.
    + destruct (Hp own p) as [_ [m Hm]]; [left|].
      pose proof (chained_grounded _ _ _ _ _ Hl Hm) as Hg.
      assert (agree m (w_history w) (bucket_ranges w)) as Ha.
      { intros n Hn r. apply Hagree. intros own' p' Hin. destruct (Hp own' p' Hin) as [Hge _].
        specialize (Hge (m, 1) (last_Some_elem_of _ _ Hm)). simpl in Hge. lia. }
      destruct (grounded_chained _ _ _ _ _ Ha Hg) as (l' & Hl1 & Hl2 & _ & _). by rewrite (chained_unique _ _ _ _ _ Hl Hl1).
  - intros x Hx. apply Hagree. intros own p Hin. by apply (Hp own p Hin).
Qed.

(** ** The steps keep the invariant *)

Lemma sorted_reverse (l : list N) : StronglySorted N.lt l → StronglySorted (λ a b, b < a) (reverse l).
Proof.
  induction 1 as [|x l Hs IH Hx]; [constructor|]. rewrite reverse_cons. apply StronglySorted_app_2; [|done|by repeat constructor].
  intros a b Ha ->%list_elem_of_singleton. rewrite elem_of_reverse in Ha. rewrite Forall_forall in Hx. by apply Hx.
Qed.

Lemma nonempty_epochs_spec w prefixes :
  lists w prefixes →
  StronglySorted N.lt (nonempty_epochs prefixes) ∧ ∀ e, e ∈ nonempty_epochs prefixes ↔ bucket_ranges w e ≠ [].
Proof.
  intros [Hnd Hin]. unfold nonempty_epochs.
  pose proof (merge_sort_Permutation N.le (omap epoch_of_prefix prefixes)) as Hperm. split.
  - assert (StronglySorted N.le (merge_sort N.le (omap epoch_of_prefix prefixes))) as Hs by (apply StronglySorted_merge_sort; apply _).
    assert (NoDup (merge_sort N.le (omap epoch_of_prefix prefixes))) as Hd by by rewrite Hperm.
    clear Hperm. revert Hs Hd. generalize (merge_sort N.le (omap epoch_of_prefix prefixes)). intros l Hs.
    induction Hs as [|x l Hs IH Hx]; intros Hd; [constructor|]. apply NoDup_cons in Hd as [Hd1 Hd2]. constructor; [auto|].
    rewrite Forall_forall in *. intros y Hy. specialize (Hx y Hy). assert (x ≠ y) by congruence. lia.
  - intros e. by rewrite Hperm, Hin.
Qed.

Lemma listed_walk w prefixes :
  inv w → lists w prefixes →
  chained (bucket_ranges w) (w_epoch w + 1) None
    (walk (map (λ e, (e, ranges (w_bucket w e))) (reverse (nonempty_epochs prefixes))) None).
Proof.
  intros Hi Hl. destruct (nonempty_epochs_spec w prefixes Hl) as [Hs Hin]. apply (walk_chained (bucket_ranges w)).
  - by apply sorted_reverse.
  - intros n. rewrite elem_of_reverse, Hin. intros Hne. assert (n ≤ w_epoch w); [|lia]. apply (history_claimed w n Hi). intros E. apply Hne, elem_of_nil_inv.
    intros r Hr%(i_sub w Hi). rewrite E in Hr. by apply elem_of_nil in Hr.
  - intros n _ Ho%offers_ne. by rewrite elem_of_reverse, Hin.
  - intros n x _ _ Hne. by rewrite elem_of_reverse, Hin.
Qed.

(** The chain a pass or an activation builds is the one over the history, and
    the epochs in it are whole. *)
Lemma built_chain w prefixes chain :
  inv w → lists w prefixes → build (map (λ e, (e, w_bucket w e)) (nonempty_epochs prefixes)) = Ok chain →
  chained (w_history w) (w_epoch w + 1) None (reverse (spans chain))
  ∧ (∀ e, e ∈ (spans chain).*1 → ∀ r, r ∈ w_history w e ↔ r ∈ bucket_ranges w e)
  ∧ ∀ own p, (own, p) ∈ w_passes w → head (spans chain).*2 = Some 1.
Proof using listing.
  intros Hi Hl Hb. pose proof (listed_walk w prefixes Hi Hl) as Hc.
  rewrite <- (reverse_involutive (walk _ None)), <- (build_walk _ _ _ Hb) in Hc.
  destruct (same_chain w Hi) as (l & Hh & Hk & Hsame & Hpass).
  pose proof (chained_unique _ _ _ _ _ Hc Hk) as E. split_and!; [by rewrite E| |].
  - intros e (x & -> & Hx)%list_elem_of_fmap. apply Hsame. by rewrite <- E, elem_of_reverse.
  - intros own p Hp. destruct (Hpass own p Hp) as [_ [n Hn]]. rewrite <- E, last_reverse in Hn.
    destruct (spans chain) as [|x l']; [done|]. simpl in *. by injection Hn as ->.
Qed.

Lemma inv_claim w :
  inv w → inv (mkWorld (w_epoch w + 1) (w_bucket w) (w_base w) (w_link w) (w_history w) (w_scans w) (w_passes w)).
Proof. intros [? Hc ? ? ? ? ? ?]. split; try done. simpl. intros e b Hb%Hc. lia. Qed.

Lemma inv_confirm w own p :
  inv w → (own, p) ∈ w_scans w → w_epoch w = own →
  inv (mkWorld (w_epoch w) (w_bucket w) (w_base w) (w_link w) (w_history w) (w_scans w) ((own, p) :: w_passes w)).
Proof.
  intros Hi Hs He. split; try apply Hi; simpl.
  - intros e r [(own' & p' & Hin & Hv)|?]%(i_same w Hi); [left|by right]. exists own', p'. split; [by right|done].
  - intros own' p' [Hin|[[= -> ->]|Hin]%elem_of_cons]; apply (i_plans w Hi); auto.
  - intros own' p' e l [[= -> ->]|Hin]%elem_of_cons Hlt Hb; [|by apply (i_passes w Hi own' p')].
    apply (i_claimed w Hi) in Hb. lia.
Qed.

Lemma inv_delete w own p victim s s' r :
  inv w → (own, p) ∈ w_passes w → victim ∈ pn_delete p → st_client s = w_bucket w → delete_epoch victim s = (s', r) →
  inv (mkWorld (w_epoch w) (st_client s') (w_base w) (w_link w) (w_history w) (w_scans w) (w_passes w)).
Proof using store.
  intros Hi Hp Hv Hs Hd. unfold delete_epoch in Hd. rewrite Hs in Hd.
  destruct (delete_all (w_bucket w victim)) as [c res] eqn:Ed.
  assert (st_client s' = <[victim := c]> (w_bucket w)) as -> by (by destruct res; injection Hd as <- _).
  pose proof (λ level f, delete_stored _ _ _ level f Ed) as Hsub.
  assert (∀ x, x ∈ ranges c → x ∈ ranges (w_bucket w victim)) as Hsub'.
  { intros x (f & (n & Hn & Hf)%elem_of_epoch_levels & <-)%elem_of_ranges. apply elem_of_ranges. exists f.
    split; [|done]. apply elem_of_epoch_levels. eauto. }
  split; try apply Hi; simpl.
  - intros e. destruct (decide (e = victim)) as [->|Hne]; [rewrite fn_lookup_insert|by rewrite fn_lookup_insert_ne; [apply Hi|]].
    pose proof (i_objects w Hi victim) as [Hr Hsn]. split; [intros level f Hf%Hsub; eauto|intros f Hf%Hsub; eauto].
  - intros e x. unfold bucket_ranges. simpl.
    destruct (decide (e = victim)) as [->|Hne]; [rewrite fn_lookup_insert|rewrite fn_lookup_insert_ne by done; apply Hi].
    intros Hx%Hsub'. by apply (i_sub w Hi).
  - intros e x Hx. destruct (decide (e = victim)) as [->|Hne]; [left; by exists own, p|].
    destruct (i_same w Hi e x Hx) as [Hdoom|Hb]; [by left|right]. unfold bucket_ranges. simpl. by rewrite fn_lookup_insert_ne.
Qed.

Lemma inv_open w e :
  inv w → e ≤ w_epoch w → w_base w !! e = None →
  inv (mkWorld (w_epoch w) (w_bucket w) (<[e := 1]> (w_base w)) (w_link w) (w_history w) (w_scans w) (w_passes w)).
Proof.
  intros Hi He Hnone. assert (∀ e' b, w_base w !! e' = Some b → <[e := 1]> (w_base w) !! e' = Some b) as Hkeep.
  { intros e' b Hb. rewrite lookup_insert_ne; [done|congruence]. }
  split; try apply Hi; simpl.
  - split; [apply Hi| |].
    + intros e' r Hr. destruct (h_starts _ _ _ (i_history w Hi) e' r Hr) as (b & Hb & Hs). exists b. auto.
    + intros e' b [[-> <-]|[_ Hb]]%lookup_insert_Some Hne; [done|]. by apply (h_links _ _ _ (i_history w Hi)).
  - intros e' b [[-> _]|[_ Hb]]%lookup_insert_Some; [done|]. by apply (i_claimed w Hi) in Hb.
  - intros e' t' [b Hb]%(i_linked w Hi). eauto.
  - intros own p Hp. destruct (i_plans w Hi own p Hp) as (? & ? & ? & Hown). split_and!; [done..|]. simpl.
    destruct Hown as [?|(l & ? & ? & ?)]; [by left|right]. exists l. auto.
  - intros own p e' l Hp Hlt [[_ <-]|[_ Hb]]%lookup_insert_Some Hl; [done|]. by apply (i_passes w Hi own p).
Qed.

(** What an activation reads off the chain it continues. *)
Lemma page_cut w prefixes chain t :
  inv w → build (map (λ e, (e, w_bucket w e)) (nonempty_epochs prefixes)) = Ok chain → last (spans chain).*1 = Some t →
  t ∈ nonempty_epochs prefixes
  ∧ (∃ r, r ∈ bucket_ranges w t ∧ r.2 = max_txid chain) ∧ ∀ r, r ∈ bucket_ranges w t → r.2 ≤ max_txid chain.
Proof using listing.
  intros Hi Hb Ht. pose proof (chain_objects_ok _ _ Hb) as Hok. apply build_chain in Hb as (Hc & Hne & Hin).
  assert (∃ top, last (ch_spans chain) = Some top ∧ sp_epoch top = t) as (top & Htop & <-).
  { unfold spans in Ht. rewrite !fmap_last in Ht. destruct (last (ch_spans chain)); [|done]. injection Ht. eauto. }
  assert (∀ s, s ∈ ch_spans chain → sp_epoch s ∈ nonempty_epochs prefixes ∧ sp_client s = w_bucket w (sp_epoch s)) as Hcl.
  { intros s Hs%Hin. apply list_elem_of_fmap in Hs as (e & [= -> ->] & He). by split. }
  destruct (max_in_newest chain top) as (Hlev & (f & Hf & Ef) & Hmax); [|done|done|].
  { apply Hok. intros e c (e' & [= -> ->] & _)%list_elem_of_fmap. apply (i_objects w Hi). }
  destruct (Hcl top (last_Some_elem_of _ _ Htop)) as [Hl Ecl]. unfold files_of in *. rewrite Hlev, Ecl in *.
  split_and!; [done| |].
  - exists (range_of f). split; [apply elem_of_ranges; eauto|done].
  - intros r (g & Hg & <-)%elem_of_ranges. by apply Hmax.
Qed.

Lemma takes_limit H e e' n lo l :
  takes H e' None n lo → n < e → e ≤ e' → offers H (Some l) n → (∀ r, r ∈ H n → r.2 < l) → takes H e (Some l) n lo.
Proof.
  intros (_ & _ & Hmax & Elo) Hn He Ho Hl. split_and!; [done|done| |].
  - intros n' Hgt Hlt Ho'%offers_ne. by apply (Hmax n'); [|lia|].
  - rewrite <- Elo. apply first_of_ext. intros x. rewrite !list_elem_of_fmap. setoid_rewrite elem_of_kept.
    split; intros (r & -> & Hr & _); exists r; split_and!; try done. by intros ? [= <-]; apply Hl.
Qed.

Lemma chained_head H e limit n lo l : chained H e limit ((n, lo) :: l) → takes H e limit n lo.
Proof. by inversion 1. Qed.

Lemma grounded_limit H b e e' n lo l :
  grounded H b e' None → takes H e' None n lo → takes H e (Some l) n lo → grounded H b e (Some l).
Proof.
  intros Hg Ht Ht'. inversion Hg as [? ? m Hm Htm|? ? m lo' Hm Htm Hgm]; subst;
    destruct (takes_unique _ _ _ _ _ _ _ Ht Htm) as [-> ->].
  - by apply (grounded_base _ _ _ _ m).
  - by apply (grounded_link _ _ _ _ m lo').
Qed.

(** The chain of an activation, seen from the epoch it opens. *)
Lemma page_takes w e prefixes chain t :
  inv w → e ≤ w_epoch w → lists w prefixes → epoch_chain prefixes (w_bucket w) e = Ok (Some chain) →
  last (spans chain).*1 = Some t →
  max_txid chain + 1 ≠ 1
  ∧ ∃ lo, takes (w_history w) (w_epoch w + 1) None t lo ∧ takes (w_history w) e (Some (max_txid chain + 1)) t lo.
Proof using listing.
  intros Hi He Hl Hc Ht. unfold epoch_chain in Hc.
  destruct (last (nonempty_epochs prefixes)) as [newest|] eqn:Enew; [|done].
  destruct (N.ltb_spec newest e) as [Hnew|]; [|done]. simpl in Hc.
  destruct (build _) as [chain'|] eqn:Hb; [|done]. injection Hc as ->.
  destruct (page_cut w prefixes chain t Hi Hb Ht) as (Hin & (r & Hr & Er) & Hmax).
  destruct (built_chain w prefixes chain Hi Hl Hb) as (Hch & Hsame & _).
  assert (∃ lo l, reverse (spans chain) = (t, lo) :: l) as (lo & l & Erev).
  { rewrite fmap_last, <- head_reverse in Ht. destruct (reverse (spans chain)) as [|[t' lo] l]; [done|]. injection Ht as ->. eauto. }
  rewrite Erev in Hch. apply chained_head in Hch as Htake.
  assert (t < e) as Hte.
  { destruct (nonempty_epochs_spec w prefixes Hl) as [Hs _]. apply last_Some in Enew as [pre E]. rewrite E in Hs, Hin.
    apply elem_of_app in Hin as [Hin| ->%list_elem_of_singleton]; [|done].
    pose proof (StronglySorted_app_1_elem_of _ _ _ _ _ Hs Hin ltac:(left)). lia. }
  pose proof (i_sub w Hi t r Hr) as Hr'. destruct (h_ranges _ _ _ (i_history w Hi) t r Hr') as [? ?].
  split; [lia|]. exists lo. split; [done|]. apply (takes_limit _ _ (w_epoch w + 1)); [done|done|lia| |].
  - exists r. split; [done|lia].
  - intros r' Hr1. assert (r'.2 ≤ max_txid chain); [|lia]. apply Hmax, Hsame; [|done]. apply list_elem_of_fmap.
    exists (t, lo). split; [done|]. rewrite <- (reverse_involutive (spans chain)), Erev, elem_of_reverse. left.
Qed.

Lemma inv_page w e prefixes chain t :
  inv w → e ≤ w_epoch w → w_base w !! e = None → lists w prefixes →
  epoch_chain prefixes (w_bucket w) e = Ok (Some chain) → last (spans chain).*1 = Some t →
  inv (mkWorld (w_epoch w) (w_bucket w) (<[e := max_txid chain + 1]> (w_base w)) (<[e := t]> (w_link w))
         (w_history w) (w_scans w) (w_passes w)).
Proof using listing.
  intros Hi He Hnone Hl Hc Ht. destruct (page_takes w e prefixes chain t Hi He Hl Hc Ht) as (Hcut & lo & Htop & Htake).
  set (cut := max_txid chain + 1) in *.
  assert (∀ e' b, w_base w !! e' = Some b → <[e := cut]> (w_base w) !! e' = Some b) as Hkeep.
  { intros e' b Hb. rewrite lookup_insert_ne; [done|congruence]. }
  split; try apply Hi; simpl.
  - split; [apply Hi| |].
    + intros e' r Hr. destruct (h_starts _ _ _ (i_history w Hi) e' r Hr) as (b & Hb & Hs). exists b. auto.
    + intros e' b [[-> <-]|[Hne Hb]]%lookup_insert_Some Hb1.
      * exists t. rewrite lookup_insert_eq. destruct Htake as (Hte & Ho & _ & _). split_and!; [done..|].
        intros n Hgt Hlt Ho'%offers_ne. destruct Htop as (_ & _ & Hmax & _). destruct (Hmax n Hgt); [lia|done].
      * rewrite lookup_insert_ne by done. by apply (h_links _ _ _ (i_history w Hi)).
  - intros e' b [[-> _]|[_ Hb]]%lookup_insert_Some; [done|]. by apply (i_claimed w Hi) in Hb.
  - intros e' t' [[-> _]|[_ [b Hb]%(i_linked w Hi)]]%lookup_insert_Some; [rewrite lookup_insert_eq|]; eauto.
  - intros own p Hp. destruct (i_plans w Hi own p Hp) as (? & ? & ? & Hown). split_and!; [done..|]. simpl.
    destruct Hown as [?|(l & ? & ? & ?)]; [by left|right]. exists l. auto.
  - intros own p e' l Hp Hlt [[<- <-]|[_ Hb]]%lookup_insert_Some Hl1; [|by apply (i_passes w Hi own p)].
    eapply grounded_limit; [by eapply top_grounded|done|done].
Qed.

(** ** A write *)

Lemma write_ranges c level min max data c' r :
  write_ltx_file c level min max data = (c', r) → (0 ≤ level ≤ 9)%Z →
  ∃ landed : bool, ∀ x, x ∈ ranges c' ↔ x ∈ ranges c ∨ landed = true ∧ x = (min, max).
Proof using store.
  intros Hw Hlevel. destruct (write_stored _ _ _ _ _ _ _ Hw) as [landed Hl]. exists landed. intros x.
  assert (∀ c : C, x ∈ ranges c ↔ ∃ n, (n ≤ SNAPSHOT_LEVEL)%nat ∧ x ∈ map range_of (stored c (Z.of_nat n))) as Hx.
  { intros c0. rewrite elem_of_ranges. setoid_rewrite elem_of_epoch_levels. setoid_rewrite list_elem_of_fmap. naive_solver. }
  rewrite !Hx. setoid_rewrite Hl. split.
  - intros (n & Hn & [?|(? & _ & ?)]); eauto.
  - intros [(n & Hn & ?)|[-> ->]]; [eauto|]. exists (Z.to_nat level). unfold SNAPSHOT_LEVEL. rewrite Z2Nat.id by lia.
    split; [lia|]. by right.
Qed.

Lemma write_objects c level min max data c' r :
  write_ltx_file c level min max data = (c', r) → 1 ≤ min → min ≤ max → max < u64_max → (level = 9%Z → min = 1) →
  objects_ok c → objects_ok c'.
Proof using store.
  intros Hw H1 H2 H3 H9 [Hr Hs]. destruct (write_stored _ _ _ _ _ _ _ Hw) as [landed Hl].
  assert (∀ level' f, f ∈ stored c' level' →
            (∃ g, g ∈ stored c level' ∧ range_of g = range_of f) ∨ level' = level ∧ range_of f = (min, max)) as Hcase.
  { intros level' f Hf. assert (range_of f ∈ map range_of (stored c' level')) as Hin by (apply list_elem_of_fmap; eauto).
    apply Hl in Hin as [(g & ? & ?)%list_elem_of_fmap|(_ & ? & ?)]; [left; eauto|by right]. }
  split.
  - intros level' f [(g & Hg & [= Emin Emax])|(_ & [= -> ->])]%Hcase; [|done].
    rewrite <- Emin, <- Emax. by apply (Hr level').
  - intros f [(g & Hg & [= Emin _])|(El & [= -> _])]%Hcase; [rewrite <- Emin; by apply Hs|]. apply H9. by rewrite <- El.
Qed.

Lemma elem_of_add w e c x n r :
  r ∈ add_object w e c x n ↔ r ∈ w_history w n ∨ n = e ∧ r = x ∧ x ∈ ranges c.
Proof.
  unfold add_object. case_decide as Hx; [|tauto]. destruct (decide (n = e)) as [->|Hne].
  - rewrite fn_lookup_insert, elem_of_cons. tauto.
  - rewrite fn_lookup_insert_ne by done. tauto.
Qed.

Lemma history_write w e b c level min max :
  history_ok (w_history w) (w_base w) (w_link w) → w_base w !! e = Some b →
  writes_ok (w_history w e) b level min max → settled w e min max →
  history_ok (add_object w e c (min, max)) (w_base w) (w_link w).
Proof.
  intros Hok Hb (_ & H1 & H2 & _ & Hstart & _) Hset.
  assert (∀ n r, r ∈ add_object w e c (min, max) n → 1 ≤ r.1 ∧ r.1 ≤ r.2) as Hranges.
  { intros n r [Hr|(_ & -> & _)]%elem_of_add; [by apply (h_ranges _ _ _ Hok) in Hr|done]. }
  assert (∀ n r, r ∈ add_object w e c (min, max) n → ∃ b', w_base w !! n = Some b'
            ∧ (r.1 = 1 ∧ b' ≤ r.2 + 1 ∨ r.1 = b' ∨ ∃ r', r' ∈ add_object w e c (min, max) n ∧ r'.2 + 1 = r.1)) as Hstarts.
  { setoid_rewrite elem_of_add. intros n r [Hr|(-> & -> & _)].
    - destruct (h_starts _ _ _ Hok n r Hr) as (b' & ? & [?|[?|(r' & ? & ?)]]); exists b'; eauto 8.
    - exists b. split; [done|]. destruct Hstart as [?|[?|(r' & ? & ?)]]; eauto 8. }
  split; [done|done|]. intros e' l Hl Hne. destruct (h_links _ _ _ Hok e' l Hl Hne) as (t & Ht & Hte & (r & Hr & El) & Hmid).
  exists t. split_and!; [done|done|exists r; split; [by apply elem_of_add; left|done]|].
  intros n Hgt Hlt (r' & Hr' & E'). apply first_one; [intros x Hx; by apply (Hranges n)|].
  apply elem_of_add in Hr' as [Hr'|(-> & -> & Hx)].
  - destruct (proj1 (first_of_Some _ _) (Hmid n Hgt Hlt (ex_intro _ r' (conj Hr' E')))) as [(x & Ex & [Hx Hk]%elem_of_kept)%list_elem_of_fmap _].
    exists x. split; [|done]. apply elem_of_kept. split; [apply elem_of_add; by left|done].
  - simpl in E'. destruct (Hset e' l t Hl Ht Hgt Hlt E') as [->|Hone].
    + exists (1, max). split; [|done]. apply elem_of_kept. split; [apply elem_of_add; auto|]. intros ? [= <-]. simpl. lia.
    + assert (∃ lo, first_of (kept (Some l) (add_object w e c (min, max) e)).*1 = Some lo) as [lo Elo].
      { destruct (first_of _) as [lo|] eqn:E; [eauto|]. exfalso. apply first_kept_None in E. apply E. exists (min, max).
        split; [apply elem_of_add; auto|done]. }
      assert (lo = 1) as ->.
      { destruct (first_start _ (w_base w) _ _ _ (Hranges e) (Hstarts e) Elo); congruence. }
      apply first_of_Some in Elo as [(x & Ex & Hx')%list_elem_of_fmap _]. by exists x.
Qed.

Lemma inv_write w e b level min max data c r :
  inv w → w_base w !! e = Some b → writes_ok (w_history w e) b level min max → settled w e min max →
  write_ltx_file (w_bucket w e) level min max data = (c, r) →
  inv (mkWorld (w_epoch w) (<[e := c]> (w_bucket w)) (w_base w) (w_link w) (add_object w e c (min, max))
         (w_scans w) (w_passes w)).
Proof using store.
  intros Hi Hb Hw Hset Hput. pose proof (history_write w e b c level min max (i_history w Hi) Hb Hw Hset) as Hok.
  destruct (write_ranges _ _ _ _ _ _ _ Hput) as [landed Hland]; [by destruct Hw|].
  assert (∀ n, w_history w n ⊆ add_object w e c (min, max) n) as Hsub by (intros n x Hx; apply elem_of_add; by left).
  assert (∀ b' e' l, w_base w !! e' = Some l → l ≠ 1 → grounded (w_history w) b' e' (Some l) →
            grounded (add_object w e c (min, max)) b' e' (Some l)) as Hgrow.
  { intros b' e' l. by apply (grounded_grow _ _ _ _ _ _ (i_history w Hi) Hok Hsub). }
  split; simpl; [done|apply Hi|apply Hi| | | | |].
  - intros n. destruct (decide (n = e)) as [->|Hne]; [rewrite fn_lookup_insert|by rewrite fn_lookup_insert_ne; [apply Hi|]].
    destruct Hw as (_ & ? & ? & ? & _ & ?). by eapply write_objects; [| | | | |apply (i_objects w Hi)].
  - intros n x. unfold bucket_ranges. simpl. rewrite elem_of_add.
    destruct (decide (n = e)) as [->|Hne]; [rewrite fn_lookup_insert|rewrite fn_lookup_insert_ne by done; left; by apply (i_sub w Hi)].
    intros Hx. pose proof Hx as [Hx'|[_ ->]]%Hland; [left; by apply (i_sub w Hi)|by right].
  - intros n x [Hx|(-> & -> & Hx)]%elem_of_add; unfold bucket_ranges; simpl; [|right; by rewrite fn_lookup_insert].
    destruct (i_same w Hi n x Hx) as [Hd|Hin]; [by left|right].
    destruct (decide (n = e)) as [->|Hne]; [rewrite fn_lookup_insert; apply Hland; by left|by rewrite fn_lookup_insert_ne].
  - intros own p Hp. destruct (i_plans w Hi own p Hp) as (? & ? & Hne & Hown). split_and!; [done|done| |]; simpl.
    + intros E. apply Hne. apply elem_of_nil_inv. intros x Hx%Hsub. rewrite E in Hx. by apply elem_of_nil in Hx.
    + destruct Hown as [E|(l & ? & ? & ?)]; [left|right; exists l; auto].
      exact (first_one_grow (w_history w) _ _ _ Hok Hsub None own E).
  - intros own p e' l Hp Hlt Hl Hne. apply Hgrow; [done|done|]. by apply (i_passes w Hi own p).
Qed.

(** ** A scan *)

Lemma gc_decide_planned own prefixes objects reads now_mono now_ms grace_ms s s' scan p :
  gc_decide own (Some false) prefixes objects reads now_mono now_ms grace_ms s = (s', Ok (GcPlanned scan p)) →
  ∃ chain, build (map (λ e, (e, st_client s e)) (nonempty_epochs prefixes)) = Ok chain
    ∧ is_ok (calc_restore_plan (chain_levels chain) 0) = true
    ∧ last (spans chain).*1 = Some own ∧ head (spans chain).*1 = Some (pn_retired_below p)
    ∧ ∀ v, v ∈ pn_delete p → v < pn_retired_below p.
Proof.
  unfold gc_decide, scan_epochs. destruct (last (nonempty_epochs prefixes)) as [newest|]; [|by intros [=]].
  destruct (build _) as [chain|error]; [|by destruct error; intros [=]].
  destruct (is_ok _) eqn:Eplan; [|by intros [=]]. simpl.
  destruct (negb (newest =? own)); [by intros [= ? ?]; case_match|]. destruct (retired_mark now_mono reads s) as [s1 mark].
  destruct (plan _ _ _ _ _ _ _) as [p'|] eqn:Ep; [|by intros [=]]. intros [= _ _ ->].
  exists chain. unfold plan in Ep. simpl in Ep. case_bool_decide as Hlast; [|done]. simpl in Ep.
  destruct (head (spans chain).*1) as [base|] eqn:Ehead; [|done]. simpl in Ep.
  destruct (is_some_and _ _); [done|]. injection Ep as <-. split_and!; try done. simpl.
  intros v (l & -> & [_ [[Hlt _] _]%list_elem_of_filter]%list_elem_of_filter)%list_elem_of_fmap. done.
Qed.

Lemma inv_scan w own prefixes objects reads now_mono now_ms grace_ms s s' scan p :
  inv w → lists w prefixes → st_client s = w_bucket w →
  gc_decide own (Some false) prefixes objects reads now_mono now_ms grace_ms s = (s', Ok (GcPlanned scan p)) →
  inv (mkWorld (w_epoch w) (w_bucket w) (w_base w) (w_link w) (w_history w) ((own, p) :: w_scans w) (w_passes w)).
Proof using listing.
  intros Hi Hl Hs Hd. apply gc_decide_planned in Hd as (chain & Hb & Hplan & Hlast & Hhead & Hv). rewrite Hs in Hb.
  split; try apply Hi; simpl. intros own' p' [[[= -> ->]|Hin]%elem_of_cons|Hin]; [|by apply (i_plans w Hi); auto..].
  destruct (built_chain w prefixes chain Hi Hl Hb) as (Hch & _ & _).
  assert (head (spans chain).*2 = Some 1) as Hone.
  { apply plan_reaches_base; [|by apply build_chain in Hb as (? & _)|done]. eapply chain_objects_ok; [exact Hb|].
    intros e c (e' & [= -> ->] & _)%list_elem_of_fmap. apply (i_objects w Hi). }
  assert (last (reverse (spans chain)) = Some (pn_retired_below p, 1)) as Hbase.
  { rewrite last_reverse. destruct (spans chain) as [|[b lo] l]; [done|]. simpl in *. congruence. }
  pose proof (chained_grounded _ _ _ _ _ Hch Hbase) as Hg.
  rewrite fmap_last, <- head_reverse in Hlast. destruct (reverse (spans chain)) as [|[n lo] l] eqn:E; [done|].
  injection Hlast as ->. apply chained_head in Hch as Ht. pose proof Ht as (_ & Ho & _ & Elo).
  assert (pn_retired_below p ≤ own ∧ (lo = 1 ∨ grounded (w_history w) (pn_retired_below p) own (Some lo))) as [Hle Hgr].
  { inversion Hg as [? ? m Hm Htm|? ? m lo' Hm Htm Hgm]; subst; destruct (takes_unique _ _ _ _ _ _ _ Ht Htm) as [<- <-]; auto. }
  split_and!; [done|done|done|]. simpl. destruct (N.eq_dec lo 1) as [->|Hlo]; [by left|right].
  destruct (history_start _ _ _ _ _ _ (i_history w Hi) Elo) as [?|HB]; [done|]. exists lo. split_and!; [done|done|].
  by destruct Hgr.
Qed.

Lemma fresh_inv w : fresh w → inv w.
Proof.
  intros (Hst & Hb & Hk & Hh & Hs & Hp). assert (∀ e r, r ∉ w_history w e) as Hno.
  { intros e r Hr. rewrite Hh in Hr. by apply elem_of_nil in Hr. }
  split; rewrite ?Hb, ?Hk, ?Hs, ?Hp.
  - split; [by intros e r ?%Hno|by intros e r ?%Hno|]. intros e b. by rewrite lookup_empty.
  - intros e b. by rewrite lookup_empty.
  - intros e t'. by rewrite lookup_empty.
  - intros e. split; intros *; rewrite Hst; by intros ?%elem_of_nil.
  - intros e r (f & (n & _ & Hf)%elem_of_epoch_levels & _)%elem_of_ranges. rewrite Hst in Hf. by apply elem_of_nil in Hf.
  - by intros e r ?%Hno.
  - by intros own p [?%elem_of_nil|?%elem_of_nil].
  - by intros own p e l ?%elem_of_nil.
Qed.

Lemma stream_step_inv w w' : step w w' → inv w → inv w'.
Proof using store.
  destruct 1; intros Hi; [by apply inv_claim|by apply inv_open|by eapply inv_page|by eapply inv_write|by eapply inv_scan
    |by apply inv_confirm|by eapply inv_delete].
Qed.

Lemma stream_reachable_inv w : reachable w → inv w.
Proof using store.
  intros (w0 & H0 & Hr). apply fresh_inv in H0. induction Hr as [|w0 w1 w2 Hs Hr IH]; [done|]. apply IH. by eapply stream_step_inv.
Qed.

(** The objects of an epoch in the chain follow one another. *)
Lemma chain_continues w prefixes chain s :
  inv w → lists w prefixes → build (map (λ e, (e, w_bucket w e)) (nonempty_epochs prefixes)) = Ok chain →
  s ∈ ch_spans chain → ∃ b, continues (sp_client s) b.
Proof using listing.
  intros Hi Hl Hb Hs. destruct (built_chain w prefixes chain Hi Hl Hb) as (_ & Hsame & _).
  apply build_chain in Hb as (_ & _ & Hin). pose proof (Hin s Hs) as (e & [= He ->] & _)%list_elem_of_fmap. subst e.
  assert (∀ x, x ∈ w_history w (sp_epoch s) ↔ x ∈ ranges (w_bucket w (sp_epoch s))) as Hx.
  { apply Hsame. apply list_elem_of_fmap. exists (sp_epoch s, sp_lo s). split; [done|]. apply list_elem_of_fmap. by exists s. }
  exists (default 1 (w_base w !! sp_epoch s)). intros f Hf.
  destruct (h_starts _ _ _ (i_history w Hi) (sp_epoch s) (range_of f)) as (b & -> & Hstart).
  { apply Hx, elem_of_ranges. eauto. }
  destruct Hstart as [?|[?|(r & (g & ? & <-)%Hx%elem_of_ranges & ?)]]; [by left|by right; left|right; right; by exists g].
Qed.

End world.

(** ** A run *)

#[global, program] Instance shelf_store : ReplicaStore shelf.
Next Obligation.
  intros c level min max data c' r [= <- _]. exists true. intros level' x. cbn [stored shelf_listing].
  rewrite !list_elem_of_fmap. setoid_rewrite elem_of_shelf. cbn [sh_objects]. setoid_rewrite elem_of_app.
  setoid_rewrite list_elem_of_singleton. split.
  - intros (f & -> & data' & [Hin|[= -> -> ->]]); [left; eauto|by right].
  - intros [(f & -> & data' & Hin)|(_ & -> & ->)]; [eauto 6|]. eexists. split; [|eexists; by right]. done.
Qed.
Next Obligation. intros c c' r level f [= <- _] [data Hin]%elem_of_shelf. by apply elem_of_nil in Hin. Qed.

Definition put (w : World) (e : N) (level : Z) (min max : N) : World :=
  let c := (write_ltx_file (w_bucket w e) level min max [min; max]).1 in
  mkWorld (w_epoch w) (<[e := c]> (w_bucket w)) (w_base w) (w_link w) (add_object w e c (min, max)) (w_scans w) (w_passes w).

Definition with_base (w : World) (base link : gmap N N) : World :=
  mkWorld (w_epoch w) (w_bucket w) base link (w_history w) (w_scans w) (w_passes w) : World (C := shelf).

(** Epoch 1 opens whole, epoch 3 continues it, writes its marker and a whole
    snapshot, and collects epoch 1. *)
Definition run_fresh : World (C := shelf) := mkWorld 3 (λ _, mkShelf []) ∅ ∅ (λ _, []) [] [].
Definition run_opened : World := put (with_base run_fresh {[1 := 1]} ∅) 1 0 1 3.
Definition run_paged : World := put (put (with_base run_opened (<[3 := 4]> {[1 := 1]}) {[3 := 1]}) 3 0 4 4) 3 9 1 4.
Definition run_chain : EpochChain shelf :=
  match epoch_chain ["e1"] (w_bucket run_opened) 3 with Ok (Some chain) => chain | _ => mkChain [] end.
Definition run_plan : Plan := mkPlan 3 true [1].
Definition run_planned : World :=
  mkWorld 3 (w_bucket run_paged) (w_base run_paged) (w_link run_paged) (w_history run_paged) [(3, run_plan)] [].
Definition run_confirmed : World :=
  mkWorld 3 (w_bucket run_paged) (w_base run_paged) (w_link run_paged) (w_history run_paged) [(3, run_plan)] [(3, run_plan)].
Definition run_stream (w : World) : Stream (C := shelf) := mkStream (w_bucket w) None None ∅.

Definition run_collected : World :=
  mkWorld 3 (st_client (delete_epoch 1 (run_stream run_paged)).1) (w_base run_paged) (w_link run_paged) (w_history run_paged)
    [(3, run_plan)] [(3, run_plan)].

Lemma run_lists (w : World (C := shelf)) prefixes :
  NoDup (omap epoch_of_prefix prefixes) →
  (∀ e, e ≠ 1 → e ≠ 3 → w_bucket w e = mkShelf []) →
  (∀ e, e ∈ omap epoch_of_prefix prefixes → (e = 1 ∨ e = 3) ∧ ranges (w_bucket w e) ≠ []) →
  (∀ e, e = 1 ∨ e = 3 → e ∈ omap epoch_of_prefix prefixes ∨ ranges (w_bucket w e) = []) →
  lists w prefixes.
Proof.
  intros Hnd Hother Hin Hall. split; [done|]. intros e. split; [by apply Hin|]. intros Hne.
  destruct (decide (e = 1)) as [->|H1]; [destruct (Hall 1); [by left|done|done]|].
  destruct (decide (e = 3)) as [->|H3]; [destruct (Hall 3); [by right|done|done]|].
  exfalso. apply Hne. rewrite Hother by done. by vm_compute.
Qed.

Ltac run_listing :=
  apply run_lists;
  [ vm_compute; repeat constructor; set_solver
  | intros e ? ?; cbn; rewrite ?fn_lookup_insert_ne by congruence; done
  | intros e He; vm_compute in He; set_unfold in He; destruct_or?; subst; (split; [lia|by vm_compute])
  | intros e [->| ->]; first [left; vm_compute; set_solver | right; by vm_compute] ].

Lemma run_step_write w e b level min max :
  w_base w !! e = Some b → writes_ok (w_history w e) b level min max → settled w e min max →
  step w (put w e level min max).
Proof. intros Hb Hw Hs. by eapply (step_write w e b level min max [min; max]). Qed.

Lemma run_settled w e min max : w_link w ⊆ {[3 := 1]} → e = 1 ∨ e = 3 → settled (C := shelf) w e min max.
Proof.
  intros Hl He e' l t _ Ht Hgt Hlt. pose proof (lookup_weaken _ _ _ _ Ht Hl) as [<- <-]%lookup_singleton_Some. lia.
Qed.

Lemma collected_reachable : reachable run_collected.
Proof.
  exists run_fresh. split; [done|]. apply (rtc_l _ _ (with_base run_fresh {[1 := 1]} ∅)).
  { by apply (step_open run_fresh 1). }
  apply (rtc_l _ _ run_opened).
  { apply (run_step_write _ 1 1 0 1 3); [done|split_and!; try done; by right; left|]. apply run_settled; [apply map_empty_subseteq|auto]. }
  apply (rtc_l _ _ (with_base run_opened (<[3 := 4]> {[1 := 1]}) {[3 := 1]})).
  { apply (step_page run_opened 3 ["e1"] run_chain 1); [done|done|done|run_listing|by vm_compute..]. }
  eapply rtc_l; [apply (run_step_write _ 3 4 0 4 4); [done|split_and!; try done; by right; left|apply run_settled; auto]|].
  apply (rtc_l _ _ run_paged).
  { apply (run_step_write _ 3 4 9 1 4); [done|split_and!; try done; by left|apply run_settled; auto]. }
  apply (rtc_l _ _ run_planned).
  { eapply (step_scan run_paged 3 ["e1"; "e3"] (λ _, []) true 0 0 0 (run_stream run_paged) _ _ run_plan); [run_listing|done|vm_compute; reflexivity]. }
  apply (rtc_l _ _ run_confirmed).
  { apply (step_confirm run_planned 3 run_plan); [left|done]. }
  apply rtc_once. eapply (step_delete run_confirmed 3 run_plan 1 (run_stream run_paged) (delete_epoch 1 (run_stream run_paged)).1); [left|left|done|reflexivity].
Qed.


(** ** What the assumption on late objects excludes

    Epochs 2 and 3 continue epoch 1 at the same cut, 3 having found 2 without
    objects, and epoch 4 continues 2, having found 3 without objects.  The late
    whole snapshot of 2 ends at the cut of 4, so the pass of 4 takes 2 as the
    base and deletes epoch 1.  Then the late marker of 3 lands: it ends at the
    cut of 4 too, the chain links through 3, whose predecessor was epoch 1, and
    nothing restores. *)

Definition late_stream : Stream :=
  mkStream (<[1 := mkShelf [shelf_object 0 1 10]]>
             (<[2 := mkShelf [shelf_object 0 11 11; shelf_object 9 1 11]]>
               (<[4 := mkShelf [shelf_object 0 12 12]]> (λ _, mkShelf [])))) None None ∅.

Definition late_pass : Stream * Result (option EpochGcOutcome) :=
  match gc_decide 4 (Some false) ["e1"; "e2"; "e4"] (λ _, []) true 0 0 0 late_stream with
  | (s, Ok (GcPlanned scan p)) => gc_finish 4 scan p (Ok true) 0 true s
  | (s, _) => (s, Ok None)
  end.

Definition late_bucket : N → shelf := <[3 := mkShelf [shelf_object 0 11 11]]> (st_client late_pass.1).

Lemma late_marker_unrestorable :
  late_pass.2 = Ok (Some (mkOutcome 2 [1] true))
  ∧ (∃ before, epoch_chain ["e2"; "e4"] (st_client late_pass.1) 5 = Ok (Some before)
       ∧ spans before = [(2, 1); (4, 12)] ∧ is_ok (calc_restore_plan (chain_levels before) 0) = true)
  ∧ ∃ after, epoch_chain ["e2"; "e3"; "e4"] late_bucket 5 = Ok (Some after)
      ∧ spans after = [(3, 11); (4, 12)] ∧ is_ok (calc_restore_plan (chain_levels after) 0) = false.
Proof.
  split; [vm_compute; reflexivity|]. split; eexists; (split; [vm_compute; reflexivity|]); by vm_compute.
Qed.
