(* ===== verification/Export.v ===== *)
(** * Change export: attribution and release

    Models [crates/logic/export.rs]: the labels of the exported commits, the
    order of the WAL generations the two streams have shown, and the release
    of commits and gaps under a proof.  An operation of [Attribution] is a
    function to [option (Attribution T)]; [None] is a panic, or a loop that ran
    out of its fuel.  [step] applies one operation. *)

From S2P Require Import Prelude.
From Stdlib Require Import ZifyN ZifyNat.

(** ** Data *)

Definition WAL_HEADER_BYTES : N := 32.
Definition WAL_FRAME_HEADER_BYTES : N := 24.
Definition MAX_RETAINED_CAPTURES : nat := N.to_nat 1024.

(** [frames_through]. *)
Definition frames_through (offset page_size : N) : N :=
  sat_sub offset WAL_HEADER_BYTES / (page_size + WAL_FRAME_HEADER_BYTES).

Record WalGeneration := mkGeneration { salt1 : N; salt2 : N }.

Record WalPoint := mkPoint { generation : WalGeneration; frames : N }.

Record CapturedWal := mkCapturedWal { cw_generation : WalGeneration; cw_offset : N; cw_size : N }.

Record Capture := mkCapture {
  cap_txid : N;
  cap_page_size : N;
  cap_full_image : bool;
  cap_wal : option CapturedWal;
}.

Inductive Released (T : Type) :=
| RelCommit (label : N) (payload : T)
| RelGap (after through unmatched overflowed : N).
Arguments RelCommit {T} label payload.
Arguments RelGap {T} after through unmatched overflowed.

Record Shed := mkShed { sh_buffered : N; sh_pending_limit : N }.

Record Span := mkSpan {
  sp_generation : WalGeneration;
  sp_after : N;
  sp_through : N;
  sp_full_image : bool;
}.

Record Retained := mkRetained { rt_txid : N; rt_span : option Span }.

Inductive Entry (T : Type) :=
| ECommit (at_ : WalPoint) (label : option N) (bytes : N) (payload : T)
| EGap (through : option N) (unlabeled : option WalPoint) (unmatched overflowed : N).
Arguments ECommit {T} at_ label bytes payload.
Arguments EGap {T} through unlabeled unmatched overflowed.

Inductive Verdict := VLabel (txid : N) | VWait | VUnmatched.

Record Order := mkOrder {
  o_captured : list WalGeneration;
  o_committed : list WalGeneration;
  o_before : list (WalGeneration * WalGeneration);
  o_adjacent : list (WalGeneration * WalGeneration);
}.

Record Attribution (T : Type) := mkAttribution {
  a_pending : list (Entry T);
  a_pending_bytes : N;
  a_retained : list Retained;
  a_head : option Span;
  a_forgotten : option Span;
  a_order : Order;
  a_last_commit : option WalPoint;
  a_captured_txid : N;
  a_settled_txid : N;
  a_proven_txid : N;
  a_released_position : N;
  a_unmatched_total : N;
  a_released : list (Released T);
}.
Arguments mkAttribution {T} _ _ _ _ _ _ _ _ _ _ _ _ _.
Arguments a_pending {T} _.
Arguments a_pending_bytes {T} _.
Arguments a_retained {T} _.
Arguments a_head {T} _.
Arguments a_forgotten {T} _.
Arguments a_order {T} _.
Arguments a_last_commit {T} _.
Arguments a_captured_txid {T} _.
Arguments a_settled_txid {T} _.
Arguments a_proven_txid {T} _.
Arguments a_released_position {T} _.
Arguments a_unmatched_total {T} _.
Arguments a_released {T} _.

#[global] Instance WalGeneration_eq_dec : EqDecision WalGeneration.
Proof. solve_decision. Defined.
#[global] Instance WalPoint_eq_dec : EqDecision WalPoint.
Proof. solve_decision. Defined.
#[global] Instance Span_eq_dec : EqDecision Span.
Proof. solve_decision. Defined.
#[global] Instance Retained_eq_dec : EqDecision Retained.
Proof. solve_decision. Defined.
#[global] Instance Released_eq_dec {T} `{EqDecision T} : EqDecision (Released T).
Proof. solve_decision. Defined.

(** [shed]. *)
Definition shed (budget pending buffered : N) : Shed :=
  let over := sat_sub (sat_add pending buffered) budget in
  let from_buffer := N.min over buffered in
  mkShed from_buffer (pending - (over - from_buffer)).

(** ** The order of the generations *)

Definition order_new : Order := mkOrder [] [] [] [].

(** [push_distinct]. *)
Definition push_distinct (chain : list WalGeneration) (g : WalGeneration) : list WalGeneration :=
  if decide (last chain = Some g) then chain else filter (λ seen, seen ≠ g) chain ++ [g].

(** [Order::committed]. *)
Definition order_committed (g : WalGeneration) (o : Order) : Order :=
  mkOrder (o_captured o) (push_distinct (o_committed o) g) (o_before o) (o_adjacent o).

(** [if list.len() > MAX_RETAINED_CAPTURES { list.remove(0) }]. *)
Definition backstop {A} (l : list A) : list A :=
  if Nat.ltb MAX_RETAINED_CAPTURES (length l) then drop 1 l else l.

(** [Order::captured]. *)
Definition order_captured (g : WalGeneration) (predecessor last_commit : option WalGeneration) (o : Order) : Order :=
  let captured := push_distinct (o_captured o) g in
  let adjacent := match predecessor with Some p => o_adjacent o ++ [(p, g)] | None => o_adjacent o end in
  let before :=
    match last_commit with
    | Some last =>
        if decide (last = g) then o_before o
        else if decide ((last, g) ∈ o_before o) then o_before o else o_before o ++ [(last, g)]
    | None => o_before o
    end in
  mkOrder (backstop captured) (backstop (o_committed o)) (backstop before) (backstop adjacent).

(** What follows the first [g] of a chain. *)
Fixpoint following (g : WalGeneration) (chain : list WalGeneration) : list WalGeneration :=
  match chain with
  | [] => []
  | seen :: chain => if decide (seen = g) then chain else following g chain
  end.

(** The candidates one turn of [Order::after] hands to [found]. *)
Definition candidates (o : Order) (a g : WalGeneration) : list WalGeneration :=
  following g (o_captured o) ++ following g (o_committed o)
  ++ (filter (λ e, e.1 = g) (o_before o)).*2
  ++ (if decide (g = a) then [] else (filter (λ e, e.2 = g) (o_adjacent o)).*1).

Definition found (a : WalGeneration) (st : list WalGeneration * list WalGeneration) (candidate : WalGeneration) :
    list WalGeneration * list WalGeneration :=
  if decide (candidate ≠ a ∧ candidate ∉ st.1) then (st.1 ++ [candidate], candidate :: st.2) else st.

(** The loop of [Order::after]; the top of the frontier is its first element. *)
Fixpoint after_loop (fuel : nat) (o : Order) (a : WalGeneration) (later frontier : list WalGeneration) :
    list WalGeneration :=
  match fuel, frontier with
  | S fuel, g :: frontier =>
      let st := foldl (found a) (later, frontier) (candidates o a g) in
      after_loop fuel o a st.1 st.2
  | _, _ => later
  end.

(** Every turn takes a generation off the frontier, and each one is put there
    once. *)
Definition after_fuel (o : Order) : nat :=
  S (length (o_captured o) + length (o_committed o) + length (o_before o) + length (o_adjacent o)).

(** [Order::after]. *)
Definition after (o : Order) (a : WalGeneration) : list WalGeneration := after_loop (after_fuel o) o a [] [a].

(** [Order::earlier]. *)
Definition earlier (o : Order) (a b : WalGeneration) : bool :=
  if decide (a = b) then false
  else
    let later := after o a in
    bool_decide (b ∈ later)
    || (bool_decide (a ∉ o_captured o) && bool_decide (b ∈ o_captured o)
        && existsb (λ g, bool_decide (g ∈ o_captured o)) later).

(** [Order::forget_before]. *)
Definition forget_before (floor : WalGeneration) (keep : list WalGeneration) (o : Order) : Order :=
  let gone := filter (λ g, (g ∉ keep) ∧ earlier o g floor) (o_captured o ++ o_committed o) in
  mkOrder (filter (λ g, g ∉ gone) (o_captured o)) (filter (λ g, g ∉ gone) (o_committed o))
    (filter (λ e, (e.1 ∉ gone) ∧ (e.2 ∉ gone)) (o_before o)) (filter (λ e, (e.1 ∉ gone) ∧ (e.2 ∉ gone)) (o_adjacent o)).

(** ** The attribution *)

Section Attribution.
Context {T : Type}.
Implicit Types (s : Attribution T).

Definition set_pending (x : list (Entry T)) s : Attribution T :=
  mkAttribution x (a_pending_bytes s) (a_retained s) (a_head s) (a_forgotten s) (a_order s) (a_last_commit s) (a_captured_txid s) (a_settled_txid s) (a_proven_txid s) (a_released_position s) (a_unmatched_total s) (a_released s).
Definition set_pending_bytes (x : N) s : Attribution T :=
  mkAttribution (a_pending s) x (a_retained s) (a_head s) (a_forgotten s) (a_order s) (a_last_commit s) (a_captured_txid s) (a_settled_txid s) (a_proven_txid s) (a_released_position s) (a_unmatched_total s) (a_released s).
Definition set_retained (x : list Retained) s : Attribution T :=
  mkAttribution (a_pending s) (a_pending_bytes s) x (a_head s) (a_forgotten s) (a_order s) (a_last_commit s) (a_captured_txid s) (a_settled_txid s) (a_proven_txid s) (a_released_position s) (a_unmatched_total s) (a_released s).
Definition set_head (x : option Span) s : Attribution T :=
  mkAttribution (a_pending s) (a_pending_bytes s) (a_retained s) x (a_forgotten s) (a_order s) (a_last_commit s) (a_captured_txid s) (a_settled_txid s) (a_proven_txid s) (a_released_position s) (a_unmatched_total s) (a_released s).
Definition set_forgotten (x : option Span) s : Attribution T :=
  mkAttribution (a_pending s) (a_pending_bytes s) (a_retained s) (a_head s) x (a_order s) (a_last_commit s) (a_captured_txid s) (a_settled_txid s) (a_proven_txid s) (a_released_position s) (a_unmatched_total s) (a_released s).
Definition set_order (x : Order) s : Attribution T :=
  mkAttribution (a_pending s) (a_pending_bytes s) (a_retained s) (a_head s) (a_forgotten s) x (a_last_commit s) (a_captured_txid s) (a_settled_txid s) (a_proven_txid s) (a_released_position s) (a_unmatched_total s) (a_released s).
Definition set_last_commit (x : option WalPoint) s : Attribution T :=
  mkAttribution (a_pending s) (a_pending_bytes s) (a_retained s) (a_head s) (a_forgotten s) (a_order s) x (a_captured_txid s) (a_settled_txid s) (a_proven_txid s) (a_released_position s) (a_unmatched_total s) (a_released s).
Definition set_captured_txid (x : N) s : Attribution T :=
  mkAttribution (a_pending s) (a_pending_bytes s) (a_retained s) (a_head s) (a_forgotten s) (a_order s) (a_last_commit s) x (a_settled_txid s) (a_proven_txid s) (a_released_position s) (a_unmatched_total s) (a_released s).
Definition set_settled_txid (x : N) s : Attribution T :=
  mkAttribution (a_pending s) (a_pending_bytes s) (a_retained s) (a_head s) (a_forgotten s) (a_order s) (a_last_commit s) (a_captured_txid s) x (a_proven_txid s) (a_released_position s) (a_unmatched_total s) (a_released s).
Definition set_proven_txid (x : N) s : Attribution T :=
  mkAttribution (a_pending s) (a_pending_bytes s) (a_retained s) (a_head s) (a_forgotten s) (a_order s) (a_last_commit s) (a_captured_txid s) (a_settled_txid s) x (a_released_position s) (a_unmatched_total s) (a_released s).
Definition set_released_position (x : N) s : Attribution T :=
  mkAttribution (a_pending s) (a_pending_bytes s) (a_retained s) (a_head s) (a_forgotten s) (a_order s) (a_last_commit s) (a_captured_txid s) (a_settled_txid s) (a_proven_txid s) x (a_unmatched_total s) (a_released s).
Definition set_unmatched_total (x : N) s : Attribution T :=
  mkAttribution (a_pending s) (a_pending_bytes s) (a_retained s) (a_head s) (a_forgotten s) (a_order s) (a_last_commit s) (a_captured_txid s) (a_settled_txid s) (a_proven_txid s) (a_released_position s) x (a_released s).
Definition set_released (x : list (Released T)) s : Attribution T :=
  mkAttribution (a_pending s) (a_pending_bytes s) (a_retained s) (a_head s) (a_forgotten s) (a_order s) (a_last_commit s) (a_captured_txid s) (a_settled_txid s) (a_proven_txid s) (a_released_position s) (a_unmatched_total s) x.

(** [Attribution::new]. *)
Definition attribution_new : Attribution T :=
  mkAttribution [] 0 [] None None order_new None 0 0 0 0 0 [].

(** What an entry still waits for: the point of a commit, or of the last
    commit of a gap, without a label. *)
Definition waiting_point (e : Entry T) : option WalPoint :=
  match e with
  | ECommit at_ None _ _ => Some at_
  | EGap None unlabeled _ _ => unlabeled
  | _ => None
  end.

(** [Attribution::unlabeled_points]. *)
Definition unlabeled_points s : list WalPoint := omap waiting_point (a_pending s).

(** [Attribution::forget_generations]. *)
Definition forget_generations s : Attribution T :=
  match (match head (unlabeled_points s) with Some at_ => Some at_ | None => a_last_commit s end) with
  | None => s
  | Some at_ =>
      let keep := omap (λ kept, sp_generation <$> rt_span kept) (a_retained s)
        ++ match a_head s with Some span => [sp_generation span] | None => [] end
        ++ match a_forgotten s with Some span => [sp_generation span] | None => [] end in
      set_order (forget_before (generation at_) keep (a_order s)) s
  end.

(** [Attribution::covers] and [Attribution::passes]. *)
Definition covers (o : Order) (span : Span) (at_ : WalPoint) : bool :=
  if decide (sp_generation span = generation at_)
  then (frames at_ <=? sp_through span) && (sp_full_image span || (sp_after span <? frames at_))
  else sp_full_image span && earlier o (generation at_) (sp_generation span).

Definition passes (o : Order) (span : Span) (at_ : WalPoint) : bool :=
  if sp_full_image span then false
  else if decide (sp_generation span = generation at_) then frames at_ <=? sp_after span
  else earlier o (generation at_) (sp_generation span).

(** An image whose generation is not known to precede the commit's. *)
Definition unordered (o : Order) (span : Span) (at_ : WalPoint) : bool :=
  sp_full_image span && bool_decide (sp_generation span ≠ generation at_)
  && negb (earlier o (sp_generation span) (generation at_)).

(** The [behind] closure of [Attribution::verdict]. *)
Definition behind (o : Order) (at_ : WalPoint) (span : option Span) : bool :=
  is_some_and (λ span,
    (bool_decide (sp_generation span = generation at_) && (frames at_ <=? sp_through span))
    || earlier o (generation at_) (sp_generation span)) span.

(** The loop over the retained captures; [None] goes on behind it. *)
Fixpoint verdict_loop (o : Order) (at_ : WalPoint) (retained : list Retained) (unordered_image : bool) :
    option Verdict :=
  match retained with
  | [] => None
  | kept :: retained =>
      match rt_span kept with
      | None => verdict_loop o at_ retained unordered_image
      | Some span =>
          if covers o span at_ then Some (if unordered_image then VUnmatched else VLabel (rt_txid kept))
          else if passes o span at_ then Some VUnmatched
          else verdict_loop o at_ retained (unordered_image || unordered o span at_)
      end
  end.

(** [Attribution::verdict]. *)
Definition verdict s (at_ : WalPoint) : Verdict :=
  match verdict_loop (a_order s) at_ (a_retained s) false with
  | Some v => v
  | None =>
      if behind (a_order s) at_ (a_head s) || behind (a_order s) at_ (a_forgotten s) then VUnmatched else VWait
  end.

(** The gap of a dropped commit, merged into a gap before it. *)
Definition merge_gap (previous : Entry T) (through : option N) (unlabeled : option WalPoint) (is_unmatched : bool) :
    option (Entry T) :=
  match previous with
  | EGap previous _ unmatched overflowed =>
      Some (EGap (match through, previous with
                  | Some later, Some earlier => Some (N.max later earlier)
                  | later, _ => later
                  end) unlabeled
              (if is_unmatched then unmatched + 1 else unmatched)
              (if is_unmatched then overflowed else overflowed + 1))
  | ECommit _ _ _ _ => None
  end.

(** [Attribution::drop_commit]; the flag tells whether it merged. *)
Definition drop_commit s (index : nat) (is_unmatched : bool) : option (Attribution T * bool) :=
  match a_pending s !! index with
  | Some (ECommit at_ label bytes _) =>
      let s := set_pending_bytes (wrap_sub (a_pending_bytes s) bytes) s in
      let label := if is_unmatched then Some (a_captured_txid s) else label in
      let unlabeled := match label with Some _ => None | None => Some at_ end in
      let merged :=
        match index with
        | O => None
        | S before => previous ← a_pending s !! before; merge_gap previous label unlabeled is_unmatched
        end in
      Some match merged with
      | Some gap => (set_pending (delete index (<[pred index := gap]> (a_pending s))) s, true)
      | None =>
          (set_pending (<[index := EGap label unlabeled (if is_unmatched then 1 else 0)
                                     (if is_unmatched then 0 else 1)]> (a_pending s)) s, false)
      end
  | _ => None
  end.

(** The loop of [Attribution::resolve]. *)
Fixpoint resolve_loop (fuel index : nat) s : option (Attribution T) :=
  match a_pending s !! index with
  | None => Some s
  | Some entry =>
      match fuel with
      | O => None
      | S fuel =>
          match waiting_point entry with
          | None => resolve_loop fuel (S index) s
          | Some at_ =>
              match verdict s at_, entry with
              | VWait, _ => resolve_loop fuel (S index) s
              | VLabel txid, ECommit at_ _ bytes payload =>
                  resolve_loop fuel (S index)
                    (set_pending (<[index := ECommit at_ (Some txid) bytes payload]> (a_pending s)) s)
              | VLabel txid, EGap _ unlabeled unmatched overflowed =>
                  resolve_loop fuel (S index)
                    (set_pending (<[index := EGap (Some txid) unlabeled unmatched overflowed]> (a_pending s)) s)
              | VUnmatched, ECommit _ _ _ _ =>
                  '(s, merged) ← drop_commit (set_unmatched_total (a_unmatched_total s + 1) s) index true;
                  resolve_loop fuel (if (merged : bool) then index else S index) s
              | VUnmatched, EGap _ unlabeled unmatched overflowed =>
                  resolve_loop fuel (S index)
                    (set_pending (<[index := EGap (Some (a_captured_txid s)) unlabeled unmatched overflowed]>
                                    (a_pending s)) s)
              end
          end
      end
  end.

(** [Attribution::resolve]; every turn steps over an entry or removes one. *)
Definition resolve s : option (Attribution T) := resolve_loop (length (a_pending s)) 0 s.

(** [Attribution::prune_settled]. *)
Definition needed s (kept : Retained) : bool :=
  (a_settled_txid s <? rt_txid kept)
  || is_some_and (λ span,
       sp_full_image span
       && existsb (λ at_, bool_decide (generation at_ ≠ sp_generation span)
                          && negb (earlier (a_order s) (generation at_) (sp_generation span))
                          && negb (earlier (a_order s) (sp_generation span) (generation at_)))
            (unlabeled_points s)) (rt_span kept).

Definition prune_settled s : Attribution T := set_retained (filter (λ kept, needed s kept) (a_retained s)) s.

(** [Attribution::settle_passed]. *)
Definition passed (o : Order) (at_ : WalPoint) (span : option Span) : bool :=
  is_none_or (λ span,
    (bool_decide (sp_generation span = generation at_) && (sp_through span <=? frames at_))
    || earlier o (sp_generation span) (generation at_)) span.

Fixpoint settle_loop (o : Order) (at_ : WalPoint) (settled : N) (retained : list Retained) : N * list Retained :=
  match retained with
  | [] => (settled, [])
  | front :: rest =>
      if passed o at_ (rt_span front) then settle_loop o at_ (N.max settled (rt_txid front)) rest
      else (settled, retained)
  end.

Definition settle_passed (at_ : WalPoint) s : Attribution T :=
  let r := settle_loop (a_order s) at_ (a_settled_txid s) (a_retained s) in
  set_retained r.2 (set_settled_txid r.1 s).

(** The loop of [Attribution::release]: the entries at the front that the proof
    covers, the rest of the queue and of its bytes. *)
Fixpoint release_loop (proven position : N) (pending : list (Entry T)) (bytes : N) (out : list (Released T)) :
    list (Entry T) * N * list (Released T) :=
  match pending with
  | ECommit _ (Some label) size payload :: rest =>
      if label <=? proven
      then release_loop proven position rest (wrap_sub bytes size) (out ++ [RelCommit label payload])
      else (pending, bytes, out)
  | EGap (Some through) _ unmatched overflowed :: rest =>
      if through <=? proven
      then release_loop proven position rest bytes (out ++ [RelGap position through unmatched overflowed])
      else (pending, bytes, out)
  | _ => (pending, bytes, out)
  end.

(** The position the queue lets [Attribution::release] claim. *)
Definition reach (settled position : N) (retained : list Retained) (pending : list (Entry T)) : N :=
  let unassigned :=
    match retained with [] => settled | kept :: _ => N.min settled (sat_sub (rt_txid kept) 1) end in
  match pending with
  | [] | ECommit _ None _ _ :: _ => unassigned
  | ECommit _ (Some label) _ _ :: _ => N.min unassigned (wrap_sub label 1)
  | EGap _ _ _ _ :: _ => position
  end.

(** [Attribution::release]. *)
Definition release s : Attribution T :=
  let '(pending, bytes, out) :=
    release_loop (a_proven_txid s) (a_released_position s) (a_pending s) (a_pending_bytes s) (a_released s) in
  let position := reach (a_settled_txid s) (a_released_position s) (a_retained s) pending in
  set_released_position (N.max (a_released_position s) (N.min position (a_proven_txid s)))
    (set_released out (set_pending_bytes bytes (set_pending pending s))).

(** What [commit] and [dropped] do once the commit is in the queue. *)
Definition place (at_ : WalPoint) s : option (Attribution T) :=
  s ← resolve s;
  Some (release (forget_generations (prune_settled (settle_passed at_ s)))).

(** [Attribution::commit]. *)
Definition commit (at_ : WalPoint) (bytes : N) (payload : T) s : option (Attribution T) :=
  let s := set_last_commit (Some at_) (set_order (order_committed (generation at_) (a_order s)) s) in
  let s := set_pending (a_pending s ++ [ECommit at_ None bytes payload]) s in
  place at_ (set_pending_bytes (sat_add (a_pending_bytes s) bytes) s).

(** The queue with one more shed commit. *)
Definition push_dropped (at_ : WalPoint) (pending : list (Entry T)) : list (Entry T) :=
  match last pending with
  | Some (EGap _ _ unmatched overflowed) =>
      <[pred (length pending) := EGap None (Some at_) unmatched (overflowed + 1)]> pending
  | _ => pending ++ [EGap None (Some at_) 0 1]
  end.

(** [Attribution::dropped]. *)
Definition dropped (at_ : WalPoint) s : option (Attribution T) :=
  let s := set_last_commit (Some at_) (set_order (order_committed (generation at_) (a_order s)) s) in
  place at_ (set_pending (push_dropped at_ (a_pending s)) s).

(** [Attribution::unplaced]. *)
Definition unplaced (bytes : N) (payload : T) s : option (Attribution T) :=
  let at_ := default (mkPoint (mkGeneration 0 0) 0) (a_last_commit s) in
  let s := set_pending (a_pending s ++ [ECommit at_ None bytes payload]) s in
  let s := set_pending_bytes (sat_add (a_pending_bytes s) bytes) s in
  let s := set_unmatched_total (a_unmatched_total s + 1) s in
  '(s, _) ← drop_commit s (pred (length (a_pending s))) true;
  Some (release s).

(** The reach of a captured file. *)
Definition span_of (capture : Capture) : option Span :=
  (λ wal, mkSpan (cw_generation wal) (frames_through (cw_offset wal) (cap_page_size capture))
            (frames_through (sat_add (cw_offset wal) (cw_size wal)) (cap_page_size capture))
            (cap_full_image capture)) <$> cap_wal capture.

(** The generation a partial capture from the header of a new one continues. *)
Definition predecessor_of (previous : option Span) (span : Span) : option WalGeneration :=
  previous ← previous;
  if negb (sp_full_image span) && (sp_after span =? 0) && bool_decide (sp_generation previous ≠ sp_generation span)
  then Some (sp_generation previous) else None.

Definition observe_span (span : Span) s : Attribution T :=
  set_head (Some span)
    (set_order (order_captured (sp_generation span) (predecessor_of (a_head s) span)
                  (generation <$> a_last_commit s) (a_order s)) s).

(** The retention cap: what is dropped, and the furthest span of it. *)
Fixpoint cap_loop (retained : list Retained) (forgotten : option Span) : list Retained * option Span :=
  match retained with
  | lost :: rest =>
      if Nat.ltb MAX_RETAINED_CAPTURES (length retained)
      then cap_loop rest (match rt_span lost with Some span => Some span | None => forgotten end)
      else (retained, forgotten)
  | [] => ([], forgotten)
  end.

Definition cap_retained s : Attribution T :=
  let r := cap_loop (a_retained s) (a_forgotten s) in set_forgotten r.2 (set_retained r.1 s).

(** [Attribution::captured]. *)
Definition captured (capture : Capture) s : option (Attribution T) :=
  if cap_txid capture <=? a_captured_txid s then Some s
  else
    let s := set_captured_txid (cap_txid capture) s in
    let span := span_of capture in
    let s := match span with Some span => observe_span span s | None => s end in
    let s := set_retained (a_retained s ++ [mkRetained (cap_txid capture) span]) s in
    s ← resolve s;
    let s := match a_last_commit s with Some at_ => settle_passed at_ s | None => s end in
    Some (release (cap_retained (prune_settled s))).

(** [Attribution::caught_up] and [Attribution::proven]. *)
Definition caught_up s : Attribution T := release (prune_settled (set_settled_txid (a_captured_txid s) s)).

Definition proven (txid : N) s : Attribution T := release (set_proven_txid (N.max (a_proven_txid s) txid) s).

(** [Attribution::shed_to]. *)
Fixpoint shed_loop (fuel index : nat) (limit : N) s : option (Attribution T) :=
  if a_pending_bytes s <=? limit then Some s
  else
    match a_pending s !! index with
    | None => Some s
    | Some entry =>
        match fuel with
        | O => None
        | S fuel =>
            match entry with
            | ECommit _ _ _ _ =>
                '(s, merged) ← drop_commit s index false;
                shed_loop fuel (if (merged : bool) then index else S index) limit s
            | EGap _ _ _ _ => shed_loop fuel (S index) limit s
            end
        end
    end.

Definition shed_to (limit : N) s : option (Attribution T) :=
  release <$> shed_loop (length (a_pending s)) 0 limit s.

(** [Attribution::take_released]. *)
Definition take_released s : list (Released T) * Attribution T := (a_released s, set_released [] s).
End Attribution.

(** ** One input of the stream

    [InUnplaced] carries the point the WAL hook failed to read; the code does
    not see it. *)
Inductive Input (T : Type) :=
| InCommit (at_ : WalPoint) (bytes : N) (payload : T)
| InDropped (at_ : WalPoint)
| InUnplaced (at_ : WalPoint) (bytes : N) (payload : T)
| InCaptured (capture : Capture)
| InCaughtUp
| InProven (txid : N)
| InShedTo (limit : N)
| InTake.
Arguments InCommit {T} at_ bytes payload.
Arguments InDropped {T} at_.
Arguments InUnplaced {T} at_ bytes payload.
Arguments InCaptured {T} capture.
Arguments InCaughtUp {T}.
Arguments InProven {T} txid.
Arguments InShedTo {T} limit.
Arguments InTake {T}.

(** The state after an input, with what [take_released] hands over. *)
Definition step {T} (i : Input T) (s : Attribution T) : option (Attribution T * list (Released T)) :=
  match i with
  | InCommit at_ bytes payload => (λ s, (s, [])) <$> commit at_ bytes payload s
  | InDropped at_ => (λ s, (s, [])) <$> dropped at_ s
  | InUnplaced _ bytes payload => (λ s, (s, [])) <$> unplaced bytes payload s
  | InCaptured capture => (λ s, (s, [])) <$> captured capture s
  | InCaughtUp => Some (caught_up s, [])
  | InProven txid => Some (proven txid s, [])
  | InShedTo limit => (λ s, (s, [])) <$> shed_to limit s
  | InTake => let '(out, s) := take_released s in Some (s, out)
  end.
