(* ===== verification/ExportOrder.v ===== *)
(** * Change export: the order of the generations

    [Order] of [crates/logic/export.rs] against the true order of the WAL
    generations: [after] computes a closure ([after_spec]), what [earlier] says
    is true ([earlier_sound]), and it says enough ([earlier_complete],
    [earlier_captured]).  Also that the loops of [Attribution] end
    ([step_total]). *)

From S2P Require Import Prelude Export.
From Stdlib Require Import ZifyN ZifyNat.

(** ** The generations known to follow one *)

(** What [after] computes: the generations the candidates lead to. *)
Inductive leads (o : Order) (a : WalGeneration) : WalGeneration → Prop :=
| leads_first x : x ∈ candidates o a a → x ≠ a → leads o a x
| leads_next g x : leads o a g → x ∈ candidates o a g → x ≠ a → leads o a x.

Lemma found_spec a cands later frontier :
  ∃ new, foldl (found a) (later, frontier) cands = (later ++ new, reverse new ++ frontier)
    ∧ NoDup new ∧ (∀ x, x ∈ new ↔ x ∈ cands ∧ x ≠ a ∧ x ∉ later).
Proof.
  revert later frontier. induction cands as [|c cands IH]; intros later frontier; cbn [foldl].
  { exists []. rewrite app_nil_r. split_and!; [done|constructor|]. set_solver. }
  unfold found at 2. cbn [fst snd]. case_decide as Hc.
  - destruct (IH (later ++ [c]) (c :: frontier)) as (new & -> & Hn & Hx). exists (c :: new). split_and!.
    + by rewrite reverse_cons, <- !app_assoc.
    + constructor; [|done]. rewrite Hx. set_solver.
    + intros x. rewrite !elem_of_cons, Hx, not_elem_of_app, list_elem_of_singleton.
      destruct (decide (x = c)) as [->|]; tauto.
  - destruct (IH later frontier) as (new & -> & Hn & Hx). exists new. split_and!; [done..|].
    intros x. rewrite Hx, elem_of_cons. destruct (decide (x = c)) as [->|]; tauto.
Qed.

Lemma following_sub g chain x : x ∈ following g chain → x ∈ chain.
Proof. induction chain as [|y chain IH]; cbn [following]; [done|]. case_decide; set_solver. Qed.

(** The generations a candidate can be. *)
Definition universe (o : Order) : list WalGeneration :=
  o_captured o ++ o_committed o ++ (o_before o).*2 ++ (o_adjacent o).*1.

Lemma candidates_sub o a g x : x ∈ candidates o a g → x ∈ universe o.
Proof.
  unfold candidates, universe. rewrite !elem_of_app. intros [H|[H|[H|H]]].
  - left. by eapply following_sub.
  - right; left. by eapply following_sub.
  - right; right; left. apply list_elem_of_fmap in H as (e & -> & He%list_elem_of_filter). apply list_elem_of_fmap. naive_solver.
  - right; right; right. case_decide; [set_solver|]. apply list_elem_of_fmap in H as (e & -> & He%list_elem_of_filter).
    apply list_elem_of_fmap. naive_solver.
Qed.

Lemma NoDup_incl_length {A} (l k : list A) : NoDup l → (∀ x, x ∈ l → x ∈ k) → (length l ≤ length k)%nat.
Proof. intros Hl Hk. apply submseteq_length, NoDup_submseteq; done. Qed.

Lemma leads_sub o a x : leads o a x → x ∈ universe o.
Proof. by destruct 1; eapply candidates_sub. Qed.

(** A set of followers that is closed has all of them. *)
Lemma leads_closed o a (later : list WalGeneration) :
  (∀ g x, g = a ∨ g ∈ later → x ∈ candidates o a g → x = a ∨ x ∈ later) → ∀ x, leads o a x → x ∈ later.
Proof.
  intros Hc x. induction 1 as [x Hx Hne|g x Hg IH Hx Hne].
  - by destruct (Hc a x ltac:(by left) Hx).
  - by destruct (Hc g x ltac:(by right) Hx).
Qed.

Lemma after_loop_spec o a fuel later frontier :
  NoDup later → (∀ x, x ∈ later → leads o a x) → (∀ x, x ∈ frontier → x = a ∨ x ∈ later) →
  (∀ g x, g = a ∨ g ∈ later → g ∉ frontier → x ∈ candidates o a g → x = a ∨ x ∈ later) →
  (length frontier + length (universe o) ≤ fuel + length later)%nat →
  ∀ x, x ∈ after_loop fuel o a later frontier ↔ leads o a x.
Proof.
  revert later frontier. induction fuel as [|fuel IH]; intros later frontier Hnd Hlead Hfr Hclosed Hfuel x.
  all: destruct frontier as [|g frontier];
    [split; [apply Hlead|apply leads_closed; intros h y Hh Hy; apply (Hclosed h y Hh ltac:(apply not_elem_of_nil) Hy)]|].
  { pose proof (NoDup_incl_length later (universe o) Hnd ltac:(intros; by eapply leads_sub, Hlead)).
    cbn [length] in Hfuel. lia. }
  cbn [after_loop].
  destruct (found_spec a (candidates o a g) later frontier) as (new & -> & Hnn & Hnew). cbn [fst snd]. apply IH; clear x.
  - apply NoDup_app. split_and!; [done| |done]. intros x Hx Hx'. apply Hnew in Hx'. naive_solver.
  - intros x [Hx|Hx]%elem_of_app; [by apply Hlead|]. apply Hnew in Hx as (Hc & Hne & _).
    destruct (Hfr g ltac:(left)) as [->|Hg]; [by apply leads_first|]. apply (leads_next _ _ g); [by apply Hlead|done..].
  - intros x. rewrite !elem_of_app, elem_of_reverse. intros [Hx|Hx]; [tauto|]. destruct (Hfr x ltac:(by right)); tauto.
  - intros h x Hh Hout Hx. rewrite elem_of_app, elem_of_reverse in *.
    destruct (decide (h = g)) as [->|Hhg].
    + destruct (decide (x = a)), (decide (x ∈ later)); [tauto..|]. right; right. by apply Hnew.
    + destruct (Hclosed h x); [tauto| |done|tauto|tauto]. rewrite elem_of_cons. tauto.
  - rewrite !length_app, length_reverse. cbn [length] in Hfuel. lia.
Qed.

Lemma after_spec o a x : x ∈ after o a ↔ leads o a x.
Proof.
  unfold after. apply after_loop_spec; [constructor|intros y []%elem_of_nil|by intros y ->%list_elem_of_singleton; left| |].
  { intros g y [->|[]%elem_of_nil] Hg. by destruct Hg; apply list_elem_of_singleton. }
  unfold after_fuel, universe. rewrite !length_app, !length_fmap. cbn [length]. lia.
Qed.

(** [earlier] without its loop. *)
Lemma earlier_spec o a b :
  earlier o a b = true ↔
    a ≠ b ∧ (leads o a b ∨ (a ∉ o_captured o ∧ b ∈ o_captured o ∧ ∃ g, leads o a g ∧ g ∈ o_captured o)).
Proof.
  unfold earlier. case_decide as Hab; [naive_solver|]. rewrite orb_true_iff, !andb_true_iff, !bool_decide_eq_true, existsb_exists.
  rewrite after_spec. setoid_rewrite <- list_elem_of_In. setoid_rewrite after_spec. setoid_rewrite bool_decide_eq_true. naive_solver.
Qed.

(** ** The loops end *)

Section Total.
Context {T : Type}.
Implicit Types (s : Attribution T).

Lemma drop_commit_Some s index e is_unmatched :
  a_pending s !! index = Some e → (∃ at_ label bytes payload, e = ECommit at_ label bytes payload) →
  ∃ s' merged, drop_commit s index is_unmatched = Some (s', merged)
    ∧ (length (a_pending s') + (if (merged : bool) then 1 else 0) = length (a_pending s))%nat.
Proof.
  intros He (at_ & label & bytes & payload & ->). unfold drop_commit. rewrite He. cbv zeta.
  pose proof (lookup_lt_Some _ _ _ He) as Hlt.
  set (m := match index with O => None | S _ => _ end). destruct m as [gap|]; eexists _, _; (split; [reflexivity|]).
  - cbn [a_pending set_pending set_pending_bytes]. rewrite length_delete; [rewrite length_insert; lia|].
    apply lookup_lt_is_Some. by rewrite length_insert.
  - cbn [a_pending set_pending set_pending_bytes]. rewrite length_insert. lia.
Qed.

Lemma resolve_loop_total fuel index s :
  (length (a_pending s) ≤ fuel + index)%nat → is_Some (resolve_loop fuel index s).
Proof.
  revert index s. induction fuel as [|fuel IH]; intros index s Hf; cbn [resolve_loop].
  all: destruct (a_pending s !! index) as [e|] eqn:He; [|by eexists].
  { apply lookup_lt_Some in He. lia. }
  destruct (waiting_point e) as [at_|] eqn:Hw; [|apply IH; lia].
  destruct (verdict s at_), e as [at' label bytes payload|]; try (apply IH; cbn [a_pending set_pending]; rewrite ?length_insert; lia).
  edestruct (drop_commit_Some (set_unmatched_total (a_unmatched_total s + 1) s) index) as (s' & merged & -> & Hlen);
    [exact He|by eexists _, _, _, _|]. cbn [mbind option_bind]. apply IH. cbn [a_pending set_unmatched_total] in Hlen.
  destruct merged; lia.
Qed.

Lemma shed_loop_total fuel index limit s :
  (length (a_pending s) ≤ fuel + index)%nat → is_Some (shed_loop fuel index limit s).
Proof.
  revert index s. induction fuel as [|fuel IH]; intros index s Hf; cbn [shed_loop].
  all: destruct (a_pending_bytes s <=? limit); [by eexists|].
  all: destruct (a_pending s !! index) as [e|] eqn:He; [|by eexists].
  { apply lookup_lt_Some in He. lia. }
  destruct e as [at_ label bytes payload|]; [|apply IH; lia].
  edestruct (drop_commit_Some s index) as (s' & merged & -> & Hlen); [exact He|by eexists _, _, _, _|].
  cbn [mbind option_bind]. apply IH. destruct merged; lia.
Qed.

Lemma resolve_total s : is_Some (resolve s).
Proof. apply resolve_loop_total. lia. Qed.

(** every operation of the attribution ends without a panic, in whatever
    state and on whatever input. *)
Theorem step_total (i : Input T) s : is_Some (step i s).
Proof.
  destruct i as [at_ bytes payload|at_|at_ bytes payload|capture| |txid|limit|]; cbn [step]; try by eexists.
  - apply fmap_is_Some. unfold commit, place. cbv zeta. match goal with |- context [resolve ?x] => destruct (resolve_total x) as [? ->] end.
    by eexists.
  - apply fmap_is_Some. unfold dropped, place. cbv zeta. match goal with |- context [resolve ?x] => destruct (resolve_total x) as [? ->] end.
    by eexists.
  - apply fmap_is_Some. unfold unplaced. cbv zeta.
    match goal with |- context [drop_commit ?x ?n true] => edestruct (drop_commit_Some x n) as (s' & merged & -> & _) end;
      [| |by eexists].
    + cbn [a_pending set_pending set_pending_bytes set_unmatched_total]. apply lookup_snoc_Some. right.
      split; [|reflexivity]. rewrite length_app. cbn. lia.
    + by eexists _, _, _, _.
  - apply fmap_is_Some. unfold captured. destruct (cap_txid capture <=? _); [by eexists|]. cbv zeta.
    match goal with |- context [resolve ?x] => destruct (resolve_total x) as [? ->] end. by eexists.
  - apply fmap_is_Some. unfold shed_to. apply fmap_is_Some, shed_loop_total. lia.
Qed.
End Total.

(** ** The true order of the generations *)

Section World.
Context (rank : WalGeneration → N) `{!Inj (=) (=) rank}.

Definition gen_lt (a b : WalGeneration) : Prop := rank a < rank b.

(** The order of the log: by generation, then by frame. *)
Definition point_lt (p q : WalPoint) : Prop :=
  rank (generation p) < rank (generation q) ∨ (generation p = generation q ∧ frames p < frames q).

Definition point_le (p q : WalPoint) : Prop := p = q ∨ point_lt p q.

(** The frames a span holds, and a partial span that starts past a point. *)
Definition span_holds (span : Span) (p : WalPoint) : Prop :=
  (sp_generation span = generation p ∧ frames p ≤ sp_through span
   ∧ (sp_full_image span = true ∨ sp_after span < frames p))
  ∨ (sp_full_image span = true ∧ rank (generation p) < rank (sp_generation span)).

Definition contains (c : Capture) (p : WalPoint) : Prop := ∃ span, span_of c = Some span ∧ span_holds span p.

Definition starts_past (c : Capture) (p : WalPoint) : Prop :=
  ∃ span, span_of c = Some span ∧ sp_full_image span = false
    ∧ ((sp_generation span = generation p ∧ frames p ≤ sp_after span)
       ∨ rank (generation p) < rank (sp_generation span)).

(** The first capture that holds a point. *)
Definition first_capture (caps : list Capture) (p : WalPoint) (t : N) : Prop :=
  ∃ pre c post, caps = pre ++ c :: post ∧ cap_txid c = t ∧ contains c p ∧ ∀ d, d ∈ pre → ¬ contains d p.

(** The generations the captures read. *)
Definition cap_gens (caps : list Capture) : list WalGeneration :=
  omap (λ c, sp_generation <$> span_of c) caps.

(** A generation that is captured, or before every captured one, or after. *)
Definition outside (cg : list WalGeneration) (g : WalGeneration) : Prop :=
  g ∈ cg ∨ (∀ h, h ∈ cg → gen_lt g h) ∨ (∀ h, h ∈ cg → gen_lt h g).

(** What the code knows of the order is true. *)
Record order_ok (cg lg : list WalGeneration) (o : Order) := {
  oo_captured : StronglySorted gen_lt (o_captured o);
  oo_captured_sub g : g ∈ o_captured o → g ∈ cg;
  oo_committed : StronglySorted gen_lt (o_committed o);
  oo_committed_sub g : g ∈ o_committed o → g ∈ lg;
  oo_before x y : (x, y) ∈ o_before o → x ∈ o_committed o ∧ y ∈ o_captured o ∧ gen_lt x y;
  oo_adjacent x y : (x, y) ∈ o_adjacent o →
    x ∈ o_captured o ∧ y ∈ o_captured o ∧ gen_lt x y ∧ ∀ g, g ∈ cg → ¬ (gen_lt x g ∧ gen_lt g y);
  oo_gone g : g ∈ cg → g ∈ o_captured o ∨ g ∉ o_committed o;
  oo_outside g : g ∈ lg → outside cg g;
}.

#[local] Instance gen_lt_trans : Transitive gen_lt.
Proof. intros x y z. unfold gen_lt. lia. Qed.

Lemma gen_lt_total a b : a = b ∨ gen_lt a b ∨ gen_lt b a.
Proof.
  unfold gen_lt. destruct (N.lt_trichotomy (rank a) (rank b)) as [|[E|]]; [tauto| |tauto]. left. by apply (inj rank).
Qed.

Lemma following_sorted g chain x :
  StronglySorted gen_lt chain → x ∈ following g chain ↔ g ∈ chain ∧ x ∈ chain ∧ gen_lt g x.
Proof.
  induction 1 as [|y chain Hs IH Hy]; cbn [following]; [set_solver|]. rewrite Forall_forall in Hy.
  case_decide as Hd; rewrite ?elem_of_cons.
  - subst. split; [intros Hx; split_and!; [tauto..|by apply Hy]|]. intros (_ & [->|Hx] & Hlt); [|done].
    unfold gen_lt in Hlt. lia.
  - rewrite IH. split; [tauto|]. intros ([->|Hg] & [->|Hx] & Hlt); [done|done| |tauto].
    specialize (Hy _ Hg). unfold gen_lt in *. lia.
Qed.

(** The steps of [after], for an order that is right. *)
Lemma candidates_ok cg lg o a g x :
  order_ok cg lg o →
  x ∈ candidates o a g ↔
    (g ∈ o_captured o ∧ x ∈ o_captured o ∧ gen_lt g x) ∨ (g ∈ o_committed o ∧ x ∈ o_committed o ∧ gen_lt g x)
    ∨ (g, x) ∈ o_before o ∨ (g ≠ a ∧ (x, g) ∈ o_adjacent o).
Proof.
  intros Ho. unfold candidates. rewrite !elem_of_app.
  rewrite (following_sorted _ _ _ (oo_captured _ _ _ Ho)), (following_sorted _ _ _ (oo_committed _ _ _ Ho)).
  assert (x ∈ (filter (λ e, e.1 = g) (o_before o)).*2 ↔ (g, x) ∈ o_before o) as ->.
  { rewrite list_elem_of_fmap. setoid_rewrite list_elem_of_filter. split; [intros ([] & -> & <- & ?); done|].
    intros ?. by exists (g, x). }
  assert (x ∈ (if decide (g = a) then [] else (filter (λ e, e.2 = g) (o_adjacent o)).*1)
          ↔ g ≠ a ∧ (x, g) ∈ o_adjacent o) as ->; [|done].
  case_decide; [set_solver|]. rewrite list_elem_of_fmap. setoid_rewrite list_elem_of_filter.
  split; [intros ([] & -> & <- & ?); done|]. intros [? ?]. by exists (x, g).
Qed.

Lemma leads_sound cg lg o a x :
  order_ok cg lg o → a ∈ cg ∨ a ∈ lg → leads o a x → gen_lt a x.
Proof.
  intros Ho Ha. induction 1 as [x Hx Hne|g x Hg IH Hx Hne].
  - apply (candidates_ok _ _ _ _ _ _ Ho) in Hx as [(_ & _ & ?)|[(_ & _ & ?)|[Hb|[? _]]]]; [done|done| |done].
    by apply (oo_before _ _ _ Ho) in Hb as (_ & _ & ?).
  - apply (candidates_ok _ _ _ _ _ _ Ho) in Hx as [(_ & _ & ?)|[(_ & _ & ?)|[Hb|[Hga Hadj]]]]; [by etrans..| |].
    { apply (oo_before _ _ _ Ho) in Hb as (_ & _ & ?). by etrans. }
    apply (oo_adjacent _ _ _ Ho) in Hadj as (Hxc & Hgc & Hlt & Hbetween).
    apply (oo_captured_sub _ _ _ Ho) in Hxc, Hgc.
    assert (outside cg a) as [Hin|[Hlow|Hhigh]] by (destruct Ha; [by left|by apply (oo_outside _ _ _ Ho)]).
    + destruct (gen_lt_total a x) as [|[|]]; [congruence|done|]. by destruct (Hbetween a Hin).
    + by apply Hlow.
    + specialize (Hhigh _ Hgc). unfold gen_lt in *. lia.
Qed.

(** A generation the code has at hand. *)
Definition at_hand (o : Order) (g : WalGeneration) : Prop := g ∈ o_captured o ∨ g ∈ o_committed o.

Lemma at_hand_sub cg lg o a : order_ok cg lg o → at_hand o a → a ∈ cg ∨ a ∈ lg.
Proof. intros Ho [H|H]; [left; by eapply oo_captured_sub|right; by eapply oo_committed_sub]. Qed.

Lemma earlier_sound cg lg o a b : order_ok cg lg o → at_hand o a → earlier o a b = true → gen_lt a b.
Proof.
  intros Ho Ha [Hne [Hl|(Hout & Hb & l & Hl & Hlc)]]%earlier_spec.
  { eapply leads_sound; [done| |done]. by eapply at_hand_sub. }
  apply (leads_sound _ _ _ _ _ Ho (at_hand_sub _ _ _ _ Ho Ha)) in Hl.
  destruct Ha as [|Ha]; [done|]. apply (oo_captured_sub _ _ _ Ho) in Hb, Hlc.
  destruct (oo_outside _ _ _ Ho a (oo_committed_sub _ _ _ Ho _ Ha)) as [Hin|[Hlow|Hhigh]].
  - by destruct (oo_gone _ _ _ Ho a Hin).
  - by apply Hlow.
  - specialize (Hhigh _ Hlc). unfold gen_lt in *. lia.
Qed.

(** A captured generation that leads to a commit's generation leads past one
    that is both. *)
Lemma leads_common cg lg o a x :
  order_ok cg lg o → a ∉ o_committed o → leads o a x → x ∈ o_committed o →
  ∃ y, y ∈ o_captured o ∧ y ∈ o_committed o ∧ leads o a y.
Proof.
  intros Ho Ha. induction 1 as [x Hx Hne|g x Hg IH Hx Hne]; intros Hxm.
  - exists x. apply (candidates_ok _ _ _ _ _ _ Ho) in Hx as Hc.
    destruct Hc as [(_ & ? & ?)|[(? & _ & ?)|[Hb|[? _]]]]; [|done| |done].
    + split_and!; [done..|by apply leads_first].
    + by apply (oo_before _ _ _ Ho) in Hb as (? & _ & _).
  - destruct (decide (g ∈ o_committed o)) as [|Hgm]; [by apply IH|].
    exists x. apply (candidates_ok _ _ _ _ _ _ Ho) in Hx as Hc.
    destruct Hc as [(_ & ? & ?)|[(? & _ & ?)|[Hb|[? Hadj]]]]; [|done| |].
    + split_and!; [done..|by eapply leads_next].
    + by apply (oo_before _ _ _ Ho) in Hb as (? & _ & _).
    + apply (oo_adjacent _ _ _ Ho) in Hadj as (? & _). split_and!; [done..|by eapply leads_next].
Qed.

Lemma leads_committed cg lg o a x :
  order_ok cg lg o → a ∈ o_committed o → x ∈ o_committed o → gen_lt a x → leads o a x.
Proof.
  intros Ho Ha Hx Hlt. apply leads_first; [|intros ->; unfold gen_lt in Hlt; lia].
  apply (candidates_ok _ _ _ _ _ _ Ho). tauto.
Qed.

(** Where a captured generation is known to be at or before that of a commit,
    every committed generation that precedes it is known to. *)
Lemma earlier_complete cg lg o c d e :
  order_ok cg lg o → c ∈ o_committed o → d ∈ o_captured o → e ∈ o_committed o →
  gen_lt c d → d = e ∨ earlier o d e = true → earlier o c d = true.
Proof.
  intros Ho Hc Hd He Hlt Hde. apply earlier_spec. split; [intros ->; unfold gen_lt in Hlt; lia|].
  destruct (decide (d ∈ o_committed o)) as [Hdm|Hdm]; [left; by eapply leads_committed|].
  destruct Hde as [->|Hde]; [done|]. apply earlier_spec in Hde as [_ [Hl|(? & _)]]; [|done].
  destruct (leads_common _ _ _ _ _ Ho Hdm Hl He) as (y & Hyc & Hym & Hly).
  apply (leads_sound _ _ _ _ _ Ho) in Hly; [|left; by eapply oo_captured_sub].
  assert (leads o c y) by (eapply leads_committed; [done..|by etrans]).
  destruct (decide (c ∈ o_captured o)) as [Hcc|Hcc].
  - left. apply leads_first; [|intros ->; unfold gen_lt in Hlt; lia]. apply (candidates_ok _ _ _ _ _ _ Ho). tauto.
  - right. split_and!; [done..|]. by exists y.
Qed.

(** ** The order stays right *)

Lemma push_distinct_spec chain g :
  StronglySorted gen_lt chain → (∀ x, x ∈ chain → x = g ∨ gen_lt x g) →
  StronglySorted gen_lt (push_distinct chain g) ∧ last (push_distinct chain g) = Some g
  ∧ ∀ x, x ∈ push_distinct chain g ↔ x ∈ chain ∨ x = g.
Proof.
  intros Hs Hle. unfold push_distinct. case_decide as Hl.
  - split_and!; [done..|]. intros x. split; [tauto|]. intros [Hx| ->]; [done|]. by apply last_Some_elem_of.
  - rewrite last_snoc. split_and!; [|done|].
    + apply StronglySorted_app_2; [|by apply StronglySorted_filter|repeat constructor].
      intros x y [Hne Hx]%list_elem_of_filter ->%list_elem_of_singleton. by destruct (Hle _ Hx).
    + intros x. rewrite elem_of_app, list_elem_of_singleton, list_elem_of_filter. destruct (decide (x = g)); tauto.
Qed.

Lemma backstop_short {A} (l : list A) : (length l ≤ MAX_RETAINED_CAPTURES)%nat → backstop l = l.
Proof. intros H. unfold backstop. destruct (Nat.ltb_spec MAX_RETAINED_CAPTURES (length l)); [lia|done]. Qed.

Lemma push_distinct_length chain g : (length (push_distinct chain g) ≤ S (length chain))%nat.
Proof.
  unfold push_distinct. case_decide; [lia|]. rewrite length_app. cbn [length].
  pose proof (length_filter (λ seen, seen ≠ g) chain). lia.
Qed.

(** The lists have room for one more capture. *)
Definition order_room (o : Order) : Prop :=
  (length (o_captured o) < MAX_RETAINED_CAPTURES)%nat ∧ (length (o_committed o) ≤ MAX_RETAINED_CAPTURES)%nat
  ∧ (length (o_before o) < MAX_RETAINED_CAPTURES)%nat ∧ (length (o_adjacent o) < MAX_RETAINED_CAPTURES)%nat.

Lemma order_captured_eq g predecessor last_commit o :
  order_room o →
  order_captured g predecessor last_commit o =
    mkOrder (push_distinct (o_captured o) g) (o_committed o)
      (match last_commit with
       | Some last =>
           if decide (last = g) then o_before o
           else if decide ((last, g) ∈ o_before o) then o_before o else o_before o ++ [(last, g)]
       | None => o_before o
       end)
      (match predecessor with Some p => o_adjacent o ++ [(p, g)] | None => o_adjacent o end).
Proof.
  intros (H1 & H2 & H3 & H4). unfold order_captured. pose proof (push_distinct_length (o_captured o) g).
  rewrite !backstop_short; [done|..]; try lia.
  - destruct predecessor; rewrite ?length_app; cbn [length]; lia.
  - destruct last_commit; [repeat case_decide|]; rewrite ?length_app; cbn [length]; lia.
Qed.

Lemma order_captured_ok cg lg o g predecessor last_commit :
  order_ok cg lg o → order_room o →
  (∀ h, h ∈ cg → h = g ∨ gen_lt h g) →
  (∀ h, h ∈ lg → h ∈ cg ++ [g] ∨ ∀ x, x ∈ cg ++ [g] → gen_lt h x) →
  (∀ p, predecessor = Some p → p ∈ o_captured o ∧ p ≠ g ∧ ∀ h, h ∈ cg → h = p ∨ gen_lt h p) →
  (∀ l, last_commit = Some l → l ∈ o_committed o) →
  order_ok (cg ++ [g]) lg (order_captured g predecessor last_commit o).
Proof.
  intros Ho Hroom Hmax Hlog Hpred Hlast. rewrite order_captured_eq by done.
  destruct (push_distinct_spec (o_captured o) g) as (Hs & _ & Hin); [apply Ho|intros x Hx; by apply Hmax, (oo_captured_sub _ _ _ Ho)|].
  assert (∀ l, l ∈ o_committed o → l ≠ g → gen_lt l g) as Hbefore.
  { intros l Hl Hne. destruct (Hlog l) as [[Hc|Hc%list_elem_of_singleton]%elem_of_app|Hlow]; [by eapply oo_committed_sub| | |].
    - by destruct (Hmax l Hc). - done. - apply Hlow. set_solver. }
  split; cbn [o_captured o_committed o_before o_adjacent].
  - done.
  - intros h [Hh| ->]%Hin; apply elem_of_app; [left; by eapply oo_captured_sub|right; by apply list_elem_of_singleton].
  - apply Ho.
  - apply Ho.
  - intros x y Hxy. assert ((x, y) ∈ o_before o ∨ (last_commit = Some x ∧ x ≠ g ∧ y = g)) as [Hold|(El & Hne & ->)].
    { destruct last_commit as [l|]; [|by left]. repeat case_decide; [by left..|].
      apply elem_of_app in Hxy as [|E%list_elem_of_singleton]; [by left|injection E as -> ->; by right]. }
    + apply (oo_before _ _ _ Ho) in Hold as (? & ? & ?). rewrite Hin. tauto.
    + rewrite Hin. split_and!; [by apply Hlast|by right|]. apply Hbefore; [by apply Hlast|done].
  - intros x y Hxy. assert ((x, y) ∈ o_adjacent o ∨ (predecessor = Some x ∧ y = g)) as [Hold|(Ep & ->)].
    { destruct predecessor as [p|]; [|by left]. apply elem_of_app in Hxy as [|E%list_elem_of_singleton]; [by left|injection E as -> ->; by right]. }
    + apply (oo_adjacent _ _ _ Ho) in Hold as (Hx & Hy & Hlt & Hb). rewrite !Hin. split_and!; [tauto..|].
      intros h [Hh| ->%list_elem_of_singleton]%elem_of_app; [by apply Hb|]. intros [_ Hgy].
      destruct (Hmax y) as [->|]; [by eapply oo_captured_sub|..]; unfold gen_lt in *; lia.
    + destruct (Hpred _ Ep) as (Hp & Hne & Hpm). rewrite !Hin. split_and!; [tauto..| |].
      { by destruct (Hmax x (oo_captured_sub _ _ _ Ho _ Hp)). }
      intros h [Hh| ->%list_elem_of_singleton]%elem_of_app [H1 H2]; [|unfold gen_lt in *; lia].
      destruct (Hpm h Hh) as [->|]; unfold gen_lt in *; lia.
  - intros h [Hh| ->%list_elem_of_singleton]%elem_of_app; rewrite Hin; [|by left; right].
    destruct (oo_gone _ _ _ Ho h Hh); [by left; left|by right].
  - intros h Hh. destruct (Hlog h Hh); [by left|by right; left].
Qed.

(** A commit's generation. *)
Lemma order_committed_ok cg lg lg' o g :
  order_ok cg lg o → (∀ h, h ∈ lg → h ∈ lg') → g ∈ lg' → (∀ h, h ∈ lg' → outside cg h) →
  (∀ x, x ∈ o_committed o → x = g ∨ gen_lt x g) → (g ∈ cg → g ∈ o_captured o) →
  order_ok cg lg' (order_committed g o).
Proof.
  intros Ho Hsub Hg Hout Hmax Hcap.
  destruct (push_distinct_spec (o_committed o) g) as (Hs & _ & Hin); [apply Ho|done|].
  split; cbn [order_committed o_captured o_committed o_before o_adjacent]; try apply Ho; try done.
  - intros h [Hh| ->]%Hin; [|done]. by apply Hsub, (oo_committed_sub _ _ _ Ho).
  - intros x y Hxy. apply (oo_before _ _ _ Ho) in Hxy as (? & ? & ?). rewrite Hin. tauto.
  - intros h Hh. rewrite Hin. destruct (decide (h = g)) as [->|]; [left; by apply Hcap|].
    destruct (oo_gone _ _ _ Ho h Hh); tauto.
Qed.

(** Every commit that arrived before a capture's report is known to be in its
    generation or before it. *)
Lemma earlier_captured cg lg o l c g :
  order_ok cg lg o → c ∈ o_committed o → l ∈ o_committed o → c = l ∨ gen_lt c l → c ≠ g →
  l = g ∨ (l, g) ∈ o_before o → earlier o c g = true.
Proof.
  intros Ho Hc Hl Hcl Hne Hlg. apply earlier_spec. split; [done|left].
  destruct Hcl as [->|Hlt].
  - destruct Hlg as [|Hb]; [done|]. apply leads_first; [|done]. apply (candidates_ok _ _ _ _ _ _ Ho). tauto.
  - assert (leads o c l) by by eapply leads_committed. destruct Hlg as [->|Hb]; [done|].
    apply (leads_next _ _ l); [done| |done]. apply (candidates_ok _ _ _ _ _ _ Ho). tauto.
Qed.

(** What [forget_before] keeps says no more than before. *)
Lemma forget_before_ok cg lg o floor keep :
  order_ok cg lg o → order_ok cg lg (forget_before floor keep o).
Proof.
  intros Ho. unfold forget_before. set (gone := filter _ (o_captured o ++ o_committed o)).
  split; cbn [o_captured o_committed o_before o_adjacent].
  - apply StronglySorted_filter, Ho.
  - intros g [_ Hg]%list_elem_of_filter. by apply (oo_captured_sub _ _ _ Ho).
  - apply StronglySorted_filter, Ho.
  - intros g [_ Hg]%list_elem_of_filter. by apply (oo_committed_sub _ _ _ Ho).
  - intros x y [[Hx Hy] Hb]%list_elem_of_filter. apply (oo_before _ _ _ Ho) in Hb as (? & ? & ?).
    by rewrite !list_elem_of_filter.
  - intros x y [[Hx Hy] Hb]%list_elem_of_filter. apply (oo_adjacent _ _ _ Ho) in Hb as (? & ? & ? & ?).
    by rewrite !list_elem_of_filter.
  - intros g Hg. rewrite !list_elem_of_filter. destruct (decide (g ∈ gone)); [right; tauto|].
    destruct (oo_gone _ _ _ Ho g Hg); tauto.
  - apply Ho.
Qed.

Lemma forget_before_gone cg lg o floor keep g :
  order_ok cg lg o → at_hand o g → ¬ gen_lt g floor ∨ g ∈ keep →
  (g ∈ o_captured (forget_before floor keep o) ↔ g ∈ o_captured o)
  ∧ (g ∈ o_committed (forget_before floor keep o) ↔ g ∈ o_committed o).
Proof.
  intros Ho Hg Hkeep. cbn [forget_before o_captured o_committed]. rewrite !list_elem_of_filter.
  assert (¬ (g ∉ keep ∧ earlier o g floor)); [|tauto].
  intros [Hk He]. destruct Hkeep as [Hlt|]; [|done]. apply Hlt. by eapply earlier_sound; [..|apply Is_true_true].
Qed.

Lemma forget_before_earlier cg lg o floor keep a b :
  order_ok cg lg o → at_hand o a → ¬ gen_lt a floor ∨ a ∈ keep →
  earlier (forget_before floor keep o) a b = true → earlier o a b = true.
Proof.
  intros Ho Ha Hkeep. set (o' := forget_before floor keep o).
  pose proof (forget_before_ok _ _ _ floor keep Ho) as Ho'. fold o' in Ho'.
  assert (∀ x, leads o' a x → leads o a x) as Hl.
  { assert (∀ g x, x ∈ candidates o' a g → x ∈ candidates o a g) as Hc.
    { intros g x. rewrite (candidates_ok _ _ _ _ _ _ Ho), (candidates_ok _ _ _ _ _ _ Ho').
      unfold o', forget_before. cbn [o_captured o_committed o_before o_adjacent]. rewrite !list_elem_of_filter. tauto. }
    induction 1 as [x Hx Hne|g x Hg IH Hx Hne]; [apply leads_first|eapply leads_next]; eauto. }
  rewrite !earlier_spec. intros [Hne [H|(H1 & H2 & x & H3 & H4)]]; (split; [done|]); [left; by apply Hl|right].
  destruct (forget_before_gone _ _ _ _ _ _ Ho Ha Hkeep) as [Hcap _]. unfold o', forget_before in H2, H4. cbn [o_captured] in H2, H4.
  apply list_elem_of_filter in H2 as [_ H2], H4 as [_ H4]. split_and!; [by rewrite <- Hcap|done|]. eauto.
Qed.
End World.
