(* ===== verification/ExportFacts.v ===== *)
(** * Change export: the labels are exact

    The streams of one residency, as the cell thread and the capture loop
    produce them ([allowed]), and what [Attribution] makes of them: every
    commit is released under the first capture that holds it
    ([release_faithful]), no commit at or below the released position is still
    to come ([position_complete]), and a capture and its proof release
    everything before it ([capture_releases]). *)

From S2P Require Import Prelude Export ExportOrder.
From Stdlib Require Import ZifyN ZifyNat.

(** ** The streams *)

(** A commit that arrived, with its payload unless it was shed before. *)
Definition Item (T : Type) : Type := WalPoint * option T.

(** What happened so far: the commits and the captures in the order of their
    arrival, and the last capture before the latest safe point. *)
Record World (T : Type) := mkWorld {
  w_log : list (Item T);
  w_captures : list Capture;
  w_caught : N;
}.
Arguments mkWorld {T} _ _ _.
Arguments w_log {T} _.
Arguments w_captures {T} _.
Arguments w_caught {T} _.

Definition last_txid (caps : list Capture) : N := default 0 (cap_txid <$> last caps).

Definition observe {T} (i : Input T) (w : World T) : World T :=
  match i with
  | InCommit at_ _ payload | InUnplaced at_ _ payload =>
      mkWorld (w_log w ++ [(at_, Some payload)]) (w_captures w) (w_caught w)
  | InDropped at_ => mkWorld (w_log w ++ [(at_, None)]) (w_captures w) (w_caught w)
  | InCaptured c =>
      if cap_txid c <=? last_txid (w_captures w) then w
      else mkWorld (w_log w) (w_captures w ++ [c]) (w_caught w)
  | InCaughtUp => mkWorld (w_log w) (w_captures w) (last_txid (w_captures w))
  | _ => w
  end.

Section Facts.
Context (rank : WalGeneration → N) `{!Inj (=) (=) rank} {T : Type}.
Implicit Types (w : World T) (s : Attribution T) (caps : list Capture).

Local Notation gen_lt := (gen_lt rank).
Local Notation point_lt := (point_lt rank).
Local Notation point_le := (point_le rank).
Local Notation span_holds := (span_holds rank).
Local Notation contains := (contains rank).
Local Notation starts_past := (starts_past rank).
Local Notation first_capture := (first_capture rank).
Local Notation outside := (outside rank).
Local Notation order_ok := (order_ok rank).

(** The captures seal what they start past: an earlier one holds it. *)
Definition sealed caps (p : WalPoint) : Prop :=
  ∀ pre c post, caps = pre ++ c :: post → starts_past c p → ∃ d, d ∈ pre ∧ contains d p.

(** A commit arrives in commit order, in a captured generation or before or
    after all of them, after the captures of the latest safe point. *)
Definition arrives w (p : WalPoint) : Prop :=
  (∀ q, last (w_log w).*1 = Some q → point_lt q p)
  ∧ outside (cap_gens (w_captures w)) (generation p)
  ∧ (∀ c, c ∈ w_captures w → cap_txid c ≤ w_caught w → ¬ contains c p)
  ∧ sealed (w_captures w) p.

(** A capture is reported in TXID order and in WAL order; the commits before
    its report are in a captured generation or before all of them; what it
    starts past is captured. *)
Definition reported w (c : Capture) : Prop :=
  last_txid (w_captures w) < cap_txid c →
  (∀ span, span_of c = Some span →
     (∀ g, g ∈ cap_gens (w_captures w) → g = sp_generation span ∨ gen_lt g (sp_generation span))
     ∧ ∀ x, x ∈ w_log w →
         generation x.1 ∈ cap_gens (w_captures w) ++ [sp_generation span]
         ∨ ∀ h, h ∈ cap_gens (w_captures w) ++ [sp_generation span] → gen_lt (generation x.1) h)
  ∧ ∀ x, x ∈ w_log w → starts_past c x.1 → ∃ d, d ∈ w_captures w ∧ contains d x.1.

Definition allowed w (i : Input T) : Prop :=
  match i with
  | InCommit at_ _ _ | InDropped at_ => arrives w at_
  | InUnplaced at_ _ _ => arrives w at_ ∧ ∃ c, c ∈ w_captures w ∧ contains c at_
  | InCaptured c => reported w c
  | _ => True
  end.

(** The retention cap and the backstop of the order lists are not reached. *)
Definition roomy s (i : Input T) : Prop :=
  match i with
  | InCaptured _ => (length (a_retained s) < MAX_RETAINED_CAPTURES)%nat ∧ order_room (a_order s)
  | _ => True
  end.

(** A residency: its history, the state, and what was taken from it. *)
Inductive runs : World T → Attribution T → list (Released T) → Prop :=
| runs_new : runs (mkWorld [] [] 0) attribution_new []
| runs_step w s out i s' taken :
    runs w s out → allowed w i → roomy s i → step i s = Some (s', taken) → runs (observe i w) s' (out ++ taken).

(** ** The first capture that holds a point *)

Definition cap_lt (c d : Capture) : Prop := cap_txid c < cap_txid d.

Definition txids_ok caps : Prop :=
  StronglySorted cap_lt caps ∧ ∀ c, c ∈ caps → 0 < cap_txid c.

#[local] Instance contains_dec c p : Decision (contains c p).
Proof.
  refine (match span_of c as x return span_of c = x → _ with
          | Some span => λ E, cast_if (decide (span_holds span p))
          | None => λ E, right _
          end eq_refl); try abstract (intros (span' & ? & ?); simplify_eq; done).
  by exists span.
Defined.

Lemma txids_lt caps pre c post d : txids_ok caps → caps = pre ++ c :: post → d ∈ pre → cap_txid d < cap_txid c.
Proof. intros [Hs _] -> Hd. eapply (StronglySorted_app_1_elem_of cap_lt pre (c :: post)); [done|done|left]. Qed.

Lemma txids_inj caps c d : txids_ok caps → c ∈ caps → d ∈ caps → cap_txid c = cap_txid d → c = d.
Proof.
  intros Hok Hc Hd E. apply list_elem_of_split in Hc as (l1 & l2 & ->).
  apply elem_of_app in Hd as [Hd|[->|Hd]%elem_of_cons]; [|done|].
  - pose proof (txids_lt _ l1 c l2 d Hok eq_refl Hd). lia.
  - apply list_elem_of_split in Hd as (m1 & m2 & ->).
    pose proof (txids_lt _ (l1 ++ c :: m1) d m2 c Hok ltac:(by rewrite <- app_assoc) ltac:(set_solver)). lia.
Qed.

Lemma last_txid_max caps c : txids_ok caps → c ∈ caps → cap_txid c ≤ last_txid caps.
Proof.
  intros Hok Hc. unfold last_txid. destruct caps as [|x caps _] using rev_ind; [set_solver|]. rewrite last_snoc. cbn.
  apply elem_of_app in Hc as [Hc| ->%list_elem_of_singleton]; [|done].
  pose proof (txids_lt _ caps x [] c Hok eq_refl Hc). lia.
Qed.

Lemma first_capture_mono caps c p t : first_capture caps p t → first_capture (caps ++ [c]) p t.
Proof. intros (pre & d & post & -> & ?). exists pre, d, (post ++ [c]). by rewrite <- app_assoc. Qed.

Lemma first_capture_unique caps p t t' :
  txids_ok caps → first_capture caps p t → first_capture caps p t' → t = t'.
Proof.
  intros Hok (pre & c & post & E & <- & Hc & Hpre) (pre' & c' & post' & E' & <- & Hc' & Hpre').
  destruct (N.lt_trichotomy (cap_txid c) (cap_txid c')) as [H|[|H]]; [exfalso|done|exfalso].
  - apply (Hpre' c); [|done]. rewrite E in E', Hok.
    assert (c ∈ pre' ++ c' :: post') as Hin by (rewrite <- E'; set_solver).
    apply elem_of_app in Hin as [|[->|Hin]%elem_of_cons]; [done|lia|]. apply list_elem_of_split in Hin as (m1 & m2 & ->).
    pose proof (txids_lt _ (pre' ++ c' :: m1) c m2 c' Hok ltac:(by rewrite E', <- app_assoc) ltac:(set_solver)). lia.
  - apply (Hpre c'); [|done]. rewrite E in E', Hok.
    assert (c' ∈ pre ++ c :: post) as Hin by (rewrite E'; set_solver).
    apply elem_of_app in Hin as [|[->|Hin]%elem_of_cons]; [done|lia|]. apply list_elem_of_split in Hin as (m1 & m2 & ->).
    pose proof (txids_lt _ (pre ++ c :: m1) c' m2 c Hok ltac:(by rewrite <- app_assoc) ltac:(set_solver)). lia.
Qed.

Lemma first_capture_exists caps c p :
  txids_ok caps → c ∈ caps → contains c p → ∃ t, first_capture caps p t ∧ t ≤ cap_txid c.
Proof.
  intros Hok Hc Hp.
  assert (∃ pre d post, caps = pre ++ d :: post ∧ contains d p ∧ ∀ x, x ∈ pre → ¬ contains x p) as (pre & d & post & E & Hd & Hpre).
  { clear Hok. induction caps as [|x caps IH]; [set_solver|]. destruct (decide (contains x p)) as [|Hx].
    - exists [], x, caps. split_and!; [done..|set_solver].
    - apply elem_of_cons in Hc as [->|Hc]; [done|]. destruct (IH Hc) as (pre & d & post & -> & Hd & Hpre).
      exists (x :: pre), d, post. split_and!; [done..|]. by intros y [->|Hy]%elem_of_cons; [|apply Hpre]. }
  exists (cap_txid d). split; [by exists pre, d, post|].
  rewrite E in Hc. apply elem_of_app in Hc as [Hc|[->|Hc]%elem_of_cons]; [by destruct (Hpre c)|done|].
  apply list_elem_of_split in Hc as (m1 & m2 & ->).
  pose proof (txids_lt _ (pre ++ d :: m1) c m2 d Hok ltac:(by rewrite E, <- app_assoc) ltac:(set_solver)). lia.
Qed.

Lemma first_capture_le caps p t : txids_ok caps → first_capture caps p t → t ≤ last_txid caps.
Proof. intros Hok (pre & c & post & -> & <- & _). apply last_txid_max; [done|set_solver]. Qed.

Lemma first_capture_contains caps p t : first_capture caps p t → ∃ c, c ∈ caps ∧ cap_txid c = t ∧ contains c p.
Proof. intros (pre & c & post & -> & <- & ? & _). exists c. split_and!; [set_solver|done..]. Qed.

(** Labels do not decrease in commit order. *)
Lemma first_capture_order caps p q t :
  txids_ok caps → sealed caps p → point_lt p q → first_capture caps q t → ∃ t', first_capture caps p t' ∧ t' ≤ t.
Proof.
  intros Hok Hseal Hpq (pre & c & post & E & <- & (span & Es & Hspan) & Hpre).
  assert (contains c p ∨ starts_past c p) as [Hc|Hc].
  { unfold ExportOrder.contains, ExportOrder.starts_past. rewrite Es. destruct (sp_full_image span) eqn:Ef.
    - left. exists span. split; [done|]. unfold ExportOrder.span_holds, ExportOrder.point_lt in *. rewrite Ef in *.
      destruct Hspan as [(Eg & Hle & _)|[_ Hlt]], Hpq as [Hr|[Egen Hf]]; [right|left|right|right]; rewrite ?Eg, ?Egen.
      + done. + split_and!; [congruence|lia|by left]. + split; [done|lia]. + by split.
    - destruct Hspan as [(Eg & Hle & [?|Ha])|[? _]]; [congruence| |congruence]. unfold ExportOrder.point_lt in Hpq.
      destruct Hpq as [Hr|[Egen Hf]].
      + right. exists span. split_and!; [done..|]. right. by rewrite Eg.
      + destruct (N.ltb_spec (sp_after span) (frames p)).
        * left. exists span. split; [done|]. left. split_and!; [congruence|lia|by right].
        * right. exists span. split_and!; [done..|]. left. split; [congruence|lia]. }
  - apply first_capture_exists; [done| |done]. rewrite E. set_solver.
  - destruct (Hseal _ _ _ E Hc) as (d & Hd & Hdp).
    destruct (first_capture_exists caps d p Hok) as (t' & Ht & Hle); [rewrite E; set_solver|done|].
    exists t'. split; [done|]. pose proof (txids_lt _ _ _ _ d Hok E Hd). lia.
Qed.

(** ** The invariant *)

Definition log_points w : list WalPoint := (w_log w).*1.

Record history_ok w : Prop := {
  ho_log : StronglySorted point_lt (log_points w);
  ho_txids : txids_ok (w_captures w);
  ho_sealed p : p ∈ log_points w → sealed (w_captures w) p;
}.

(** What the code remembers of the generations: the head is the last one
    captured, the last commit is the last one committed, and a captured
    generation it forgot is before that of the last commit. *)
Record order_inv w (o : Order) (head : option Span) (last_commit : option WalPoint) : Prop := {
  oi_ok : order_ok (cap_gens (w_captures w)) (generation <$> log_points w) o;
  oi_head :
    match head with
    | None => cap_gens (w_captures w) = []
    | Some span => (∃ c, c ∈ w_captures w ∧ span_of c = Some span) ∧ sp_generation span ∈ o_captured o
        ∧ ∀ g, g ∈ cap_gens (w_captures w) → g = sp_generation span ∨ gen_lt g (sp_generation span)
    end;
  oi_last :
    match last_commit with
    | None => o_committed o = []
    | Some at_ => at_ ∈ log_points w ∧ last (o_committed o) = Some (generation at_)
    end;
  oi_forgot g : g ∈ cap_gens (w_captures w) → g ∉ o_captured o →
    ∃ at_, last_commit = Some at_ ∧ gen_lt g (generation at_);
}.

Definition ret (c : Capture) : Retained := mkRetained (cap_txid c) (span_of c).

(** No commit still to come is in the capture. *)
Definition passed_by w (last_commit : option WalPoint) (c : Capture) : Prop :=
  cap_txid c ≤ w_caught w ∨ ∃ at_, last_commit = Some at_ ∧ ∀ p, contains c p → point_le p at_.

(** The retained captures: what left them holds no commit that waits and none
    still to come. *)
Record retain_inv w (o : Order) (last_commit : option WalPoint) (waiting : list WalPoint)
    (retained : list Retained) (settled : N) : Prop := {
  ri_waiting p : p ∈ waiting → generation p ∈ o_committed o ∧ p ∈ log_points w
    ∧ ∃ at_, last_commit = Some at_ ∧ point_le p at_;
  ri_retained : retained `sublist_of` (ret <$> w_captures w);
  ri_generation r span : r ∈ retained → rt_span r = Some span → sp_generation span ∈ o_captured o;
  ri_removed c : c ∈ w_captures w → ret c ∉ retained →
    (∀ p, p ∈ waiting → ¬ contains c p) ∧ passed_by w last_commit c;
  ri_settled c : c ∈ w_captures w → cap_txid c ≤ settled → passed_by w last_commit c;
  ri_bounds : w_caught w ≤ settled ∧ settled ≤ last_txid (w_captures w);
}.

(** What waits is in a retained capture only where it is an image of another
    generation that the streams have not ordered. *)
Definition clear (o : Order) (waiting : list WalPoint) (retained : list Retained) : Prop :=
  ∀ p r span, p ∈ waiting → r ∈ retained → rt_span r = Some span → span_holds span p →
    sp_full_image span = true ∧ sp_generation span ≠ generation p
    ∧ earlier o (generation p) (sp_generation span) = false.

(** The commits an entry of the queue, and a released one, stand for. *)
Definition holds_entry caps (e : Entry T) (h : list (Item T)) : Prop :=
  match e with
  | ECommit at_ label _ payload =>
      h = [(at_, Some payload)] ∧ ∀ t, label = Some t → first_capture caps at_ t
  | EGap through unlabeled unmatched overflowed =>
      N.of_nat (length h) = unmatched + overflowed
      ∧ ∃ x, last h = Some x
        ∧ match through with
          | Some t => (∀ y, y ∈ h → ∃ t', first_capture caps y.1 t' ∧ t' ≤ t) ∧ t ≤ last_txid caps
          | None => unlabeled = Some x.1
          end
  end.

Definition holds_released caps (r : Released T) (h : list (Item T)) : Prop :=
  match r with
  | RelCommit label payload => ∃ p, h = [(p, Some payload)] ∧ first_capture caps p label
  | RelGap after through unmatched overflowed =>
      h ≠ [] ∧ N.of_nat (length h) = unmatched + overflowed
      ∧ ∀ y, y ∈ h → ∃ t, first_capture caps y.1 t ∧ after < t ∧ t ≤ through
  end.

(** A list of entries stands for a list of commits, each for its share. *)
Inductive shares {E} (holds : E → list (Item T) → Prop) : list E → list (Item T) → Prop :=
| shares_nil : shares holds [] []
| shares_cons e es h hs : holds e h → shares holds es hs → shares holds (e :: es) (h ++ hs).

Record queue_inv w (pending : list (Entry T)) (stream : list (Released T)) (position settled proved : N) : Prop := {
  qi_shares : ∃ g h, shares (holds_released (w_captures w)) stream g ∧ shares (holds_entry (w_captures w)) pending h
    ∧ w_log w = g ++ h ∧ ∀ x t, x ∈ h → first_capture (w_captures w) x.1 t → position < t;
  qi_position : position ≤ settled ∧ position ≤ proved;
  qi_proved r : r ∈ stream →
    match r with RelCommit label _ => label ≤ proved | RelGap _ through _ _ => through ≤ proved end;
}.

Record Inv w s (stream : list (Released T)) : Prop := {
  iv_history : history_ok w;
  iv_order : order_inv w (a_order s) (a_head s) (a_last_commit s);
  iv_retain : retain_inv w (a_order s) (a_last_commit s) (unlabeled_points s) (a_retained s) (a_settled_txid s);
  iv_queue : queue_inv w (a_pending s) stream (a_released_position s) (a_settled_txid s) (a_proven_txid s);
  iv_txid : a_captured_txid s = last_txid (w_captures w);
  iv_forgotten : a_forgotten s = None;
}.

(** ** The verdict *)

Lemma covers_sound w o head last_commit span p :
  order_inv w o head last_commit → generation p ∈ o_committed o → covers o span p = true → span_holds span p.
Proof.
  intros Ho Hp. unfold covers. case_decide as Eg.
  - intros [H1%N.leb_le H2%orb_true_iff]%andb_true_iff. left. split_and!; [done..|].
    destruct H2 as [|H2%N.ltb_lt]; tauto.
  - intros [H1 H2]%andb_true_iff. right. split; [done|].
    eapply earlier_sound; [apply _|apply Ho|by right|done].
Qed.

Lemma holds_covers o span p :
  span_holds span p → covers o span p = false →
  sp_full_image span = true ∧ sp_generation span ≠ generation p ∧ gen_lt (generation p) (sp_generation span)
  ∧ earlier o (generation p) (sp_generation span) = false.
Proof.
  unfold covers. intros [(Eg & Hle & Hor)|[Ef Hlt]].
  - rewrite decide_True by done. rewrite (proj2 (N.leb_le _ _) Hle). cbn [andb]. intros [H1 H2]%orb_false_iff.
    destruct Hor as [|Hlt]; [congruence|]. apply N.ltb_ge in H2. lia.
  - rewrite decide_False by (intros E; rewrite E in Hlt; lia). rewrite Ef. cbn [andb]. intros H. split_and!; [done| |done|done].
    intros E. rewrite E in Hlt. lia.
Qed.

Lemma verdict_loop_spec w o head last_commit rs p u :
  order_inv w o head last_commit → generation p ∈ o_committed o →
  (∀ r span, r ∈ rs → rt_span r = Some span → sp_generation span ∈ o_captured o) →
  match verdict_loop o p rs u with
  | Some (VLabel t) => ∃ pre r post span, rs = pre ++ r :: post ∧ rt_txid r = t ∧ rt_span r = Some span
      ∧ span_holds span p ∧ ∀ d sp, d ∈ pre → rt_span d = Some sp → ¬ span_holds sp p
  | Some VUnmatched => ∃ r span, r ∈ rs ∧ rt_span r = Some span
      ∧ (span_holds span p ∨ (sp_full_image span = false
           ∧ ((sp_generation span = generation p ∧ frames p ≤ sp_after span) ∨ gen_lt (generation p) (sp_generation span))))
  | Some VWait => False
  | None => ∀ r span, r ∈ rs → rt_span r = Some span → covers o span p = false
  end.
Proof.
  intros Ho Hp. revert u. induction rs as [|kept rs IH]; intros u Hgen; cbn [verdict_loop]; [set_solver|].
  destruct (rt_span kept) as [span|] eqn:Ek.
  2: { specialize (IH u ltac:(intros; eapply Hgen; [by right|done])). destruct (verdict_loop _ _ _ _) as [[t| |]|]; [|done| |].
    - destruct IH as (pre & r & post & sp & -> & ? & ? & ? & Hpre). exists (kept :: pre), r, post, sp. split_and!; [done..|].
      intros d sp' [->|Hd]%elem_of_cons; [congruence|by apply Hpre].
    - destruct IH as (r & sp & ? & ?). exists r, sp. split; [by right|done].
    - intros r sp [->|Hr]%elem_of_cons; [congruence|by apply IH]. }
  destruct (covers o span p) eqn:Ec.
  { apply (covers_sound _ _ _ _ _ _ Ho Hp) in Ec. destruct u.
    - exists kept, span. split_and!; [left|done|by left].
    - exists [], kept, rs, span. split_and!; [done..|set_solver]. }
  destruct (passes o span p) eqn:Epass.
  { exists kept, span. split_and!; [left|done|right]. unfold passes in Epass. destruct (sp_full_image span); [done|]. split; [done|].
    case_decide; [left; split; [done|by apply N.leb_le]|right]. eapply earlier_sound; [apply _|apply Ho|by right|done]. }
  specialize (IH (u || unordered o span p) ltac:(intros; eapply Hgen; [by right|done])).
  destruct (verdict_loop o p rs _) as [[t| |]|] eqn:Ev; [|done| |].
  - destruct IH as (pre & r & post & sp & -> & ? & ? & ? & Hpre). exists (kept :: pre), r, post, sp. split_and!; [done..|].
    intros d sp' [->|Hd]%elem_of_cons Hsp Hh; [|by eapply Hpre]. rewrite Ek in Hsp. injection Hsp as <-.
    assert (u || unordered o span p = false) as [_ Hun]%orb_false_iff.
    { clear -Ev. revert Ev. generalize (u || unordered o span p) as v. generalize (pre ++ r :: post) as l.
      induction l as [|k l IHl]; intros v; cbn [verdict_loop]; [done|]. destruct (rt_span k) as [sp'|]; [|apply IHl].
      destruct (covers o sp' p); [by destruct v|]. destruct (passes o sp' p); [done|]. intros H%IHl.
      by apply orb_false_iff in H as [-> _]. }
    destruct (holds_covers _ _ _ Hh Ec) as (Ef & Hne & Hlt & _). unfold unordered in Hun. rewrite Ef in Hun.
    rewrite bool_decide_true in Hun by done. cbn [andb] in Hun. apply negb_false_iff in Hun.
    eapply earlier_sound in Hun; [|apply _|apply Ho|left; eapply Hgen; [left|done]]. unfold ExportOrder.gen_lt in *. lia.
  - destruct IH as (r & sp & ? & ?). exists r, sp. split; [by right|done].
  - intros r sp [->|Hr]%elem_of_cons Hsp; [congruence|by eapply IH].
Qed.

Lemma sublist_sorted {A} (R : A → A → Prop) (k l : list A) :
  StronglySorted R l → k `sublist_of` l → StronglySorted R k.
Proof.
  intros Hl Hk. induction Hk as [|x k l Hk IH|x k l Hk IH]; [constructor|..];
    apply StronglySorted_cons in Hl as [Hx Hl]; [|by apply IH].
  apply StronglySorted_cons. split; [|by apply IH]. rewrite Forall_forall in Hx. apply Forall_forall. intros y Hy. apply Hx.
  eapply elem_of_submseteq; [done|]. by apply sublist_submseteq.
Qed.

Definition rt_lt (r q : Retained) : Prop := rt_txid r < rt_txid q.

Lemma retained_sorted w o l waiting retained settled :
  history_ok w → retain_inv w o l waiting retained settled → StronglySorted rt_lt retained.
Proof.
  intros Hh Hr. eapply sublist_sorted; [|apply Hr]. destruct (ho_txids _ Hh) as [Hs _].
  induction Hs as [|c caps Hs IH Hc]; [constructor|]. cbn [fmap list_fmap]. constructor; [done|].
  rewrite Forall_forall in Hc. apply Forall_forall. intros r (d & -> & Hd)%list_elem_of_fmap. by apply Hc.
Qed.

Lemma retained_capture w o l waiting retained settled r :
  retain_inv w o l waiting retained settled → r ∈ retained → ∃ c, c ∈ w_captures w ∧ r = ret c.
Proof.
  intros Hr Hin. assert (r ∈ ret <$> w_captures w) as (c & -> & Hc)%list_elem_of_fmap; [|by exists c].
  eapply elem_of_submseteq; [done|]. apply sublist_submseteq, Hr.
Qed.

(** A capture that starts past a commit of the log has it captured. *)
Lemma starts_past_captured w c p :
  history_ok w → c ∈ w_captures w → p ∈ log_points w → starts_past c p → ∃ t, first_capture (w_captures w) p t.
Proof.
  intros Hh Hc Hp Hs. apply list_elem_of_split in Hc as (pre & post & E).
  destruct (ho_sealed _ Hh p Hp pre c post E Hs) as (d & Hd & Hdp).
  destruct (first_capture_exists (w_captures w) d p) as (t & ? & _); [apply Hh|rewrite E; set_solver|done|by exists t].
Qed.

Lemma span_captured w c span p :
  history_ok w → c ∈ w_captures w → p ∈ log_points w → span_of c = Some span →
  span_holds span p ∨ (sp_full_image span = false
    ∧ ((sp_generation span = generation p ∧ frames p ≤ sp_after span) ∨ gen_lt (generation p) (sp_generation span))) →
  ∃ t, first_capture (w_captures w) p t.
Proof.
  intros Hh Hc Hp Es [Hs|[Ef Hs]].
  - destruct (first_capture_exists (w_captures w) c p) as (t & ? & _); [apply Hh|done|by exists span|by exists t].
  - eapply starts_past_captured; [done..|]. by exists span.
Qed.

Lemma behind_captured w o head last_commit p :
  history_ok w → order_inv w o head last_commit → generation p ∈ o_committed o → p ∈ log_points w →
  behind o p head = true → ∃ t, first_capture (w_captures w) p t.
Proof.
  intros Hh Ho Hg Hp. unfold behind. pose proof (oi_head _ _ _ _ Ho) as Hhead. destruct head as [span|]; [|done].
  destruct Hhead as ((c & Hc & Es) & _). cbn [is_some_and]. intros H. apply (span_captured w c span p); [done..|].
  apply orb_true_iff in H as [[Eg%bool_decide_eq_true Hle%N.leb_le]%andb_true_iff|He].
  - destruct (sp_full_image span) eqn:Ef; [left; left; tauto|]. destruct (N.ltb_spec (sp_after span) (frames p)).
    + left; left. split_and!; [done..|by right].
    + right. split; [done|left; split; [done|lia]].
  - eapply earlier_sound in He; [|apply _|apply Ho|by right].
    destruct (sp_full_image span) eqn:Ef; [left; by right|right; split; [done|by right]].
Qed.

Lemma verdict_spec w s waiting p :
  history_ok w → order_inv w (a_order s) (a_head s) (a_last_commit s) → a_forgotten s = None →
  retain_inv w (a_order s) (a_last_commit s) waiting (a_retained s) (a_settled_txid s) → p ∈ waiting →
  match verdict s p with
  | VLabel t => first_capture (w_captures w) p t
  | VUnmatched => ∃ t, first_capture (w_captures w) p t
  | VWait => (∀ r span, r ∈ a_retained s → rt_span r = Some span → covers (a_order s) span p = false)
      ∧ behind (a_order s) p (a_head s) = false
  end.
Proof.
  intros Hh Ho Hf Hr Hw. destruct (ri_waiting _ _ _ _ _ _ Hr p Hw) as (Hg & Hp & _). unfold verdict.
  pose proof (verdict_loop_spec w _ _ _ (a_retained s) p false Ho Hg (ri_generation _ _ _ _ _ _ Hr)) as Hv.
  destruct (verdict_loop _ _ _ _) as [[t| |]|]; [|done| |].
  - destruct Hv as (pre & r & post & span & E & <- & Es & Hs & Hpre).
    destruct (retained_capture _ _ _ _ _ _ r Hr) as (c & Hc & ->); [rewrite E; set_solver|]. cbn [ret rt_txid rt_span] in *.
    apply list_elem_of_split in Hc as Hsplit. destruct Hsplit as (l1 & l2 & El). exists l1, c, l2.
    split_and!; [done|done|by exists span|]. intros d Hd Hdp.
    assert (d ∈ w_captures w) as Hdin by (rewrite El; set_solver).
    destruct (decide (ret d ∈ a_retained s)) as [Hret|Hret]; [|by destruct (ri_removed _ _ _ _ _ _ Hr d Hdin Hret) as [Hno _]; apply (Hno p)].
    destruct Hdp as (sp & Esp & Hsp). apply (Hpre (ret d) sp); [|done|done].
    pose proof (retained_sorted _ _ _ _ _ _ Hh Hr) as Hsorted. rewrite E in Hret, Hsorted.
    pose proof (txids_lt _ l1 c l2 d (ho_txids _ Hh) El Hd) as Hlt.
    apply elem_of_app in Hret as [|[Heq|Hret]%elem_of_cons]; [done|injection Heq; lia|]. exfalso.
    apply StronglySorted_app_1_r, StronglySorted_cons in Hsorted as [Hall _]. rewrite Forall_forall in Hall.
    specialize (Hall _ Hret). unfold rt_lt in Hall. cbn in Hall. lia.
  - destruct Hv as (r & span & Hin & Es & Hs). destruct (retained_capture _ _ _ _ _ _ r Hr Hin) as (c & Hc & ->).
    by apply (span_captured w c span p).
  - rewrite Hf. cbn [behind is_some_and]. rewrite orb_false_r. destruct (behind _ p (a_head s)) eqn:Eb; [|done].
    by eapply behind_captured.
Qed.

(** ** The queue *)

Lemma shares_app {E} (holds : E → list (Item T) → Prop) es1 es2 h :
  shares holds (es1 ++ es2) h ↔ ∃ h1 h2, h = h1 ++ h2 ∧ shares holds es1 h1 ∧ shares holds es2 h2.
Proof.
  split.
  - revert h. induction es1 as [|e es1 IH]; intros h; cbn [app].
    + intros H. exists [], h. split_and!; [done|constructor|done].
    + inversion 1 as [|? ? h1 hs He Hs]; subst. destruct (IH _ Hs) as (k1 & k2 & -> & ? & ?).
      exists (h1 ++ k1), k2. split_and!; [by rewrite app_assoc|by constructor|done].
  - intros (h1 & h2 & -> & H1 & H2). induction H1 as [|e es h k He Hs IH]; cbn [app]; [done|].
    rewrite <- app_assoc. by constructor.
Qed.

Lemma shares_one {E} (holds : E → list (Item T) → Prop) e h : holds e h → shares holds [e] h.
Proof. intros He. rewrite <- (app_nil_r h). constructor; [done|constructor]. Qed.

Lemma shares_one_inv {E} (holds : E → list (Item T) → Prop) e h : shares holds [e] h → holds e h.
Proof. inversion 1 as [|? ? h1 hs He Hs]; subst. inversion Hs; subst. by rewrite app_nil_r. Qed.

Lemma shares_mono {E} (holds holds' : E → list (Item T) → Prop) es h :
  (∀ e k, holds e k → holds' e k) → shares holds es h → shares holds' es h.
Proof. intros Hm. induction 1; constructor; auto. Qed.

(** The fields the queue operations leave alone. *)
Definition same_frame s s' : Prop :=
  a_retained s' = a_retained s ∧ a_head s' = a_head s ∧ a_forgotten s' = a_forgotten s ∧ a_order s' = a_order s
  ∧ a_last_commit s' = a_last_commit s ∧ a_captured_txid s' = a_captured_txid s
  ∧ a_settled_txid s' = a_settled_txid s ∧ a_proven_txid s' = a_proven_txid s
  ∧ a_released_position s' = a_released_position s ∧ a_released s' = a_released s.

Lemma same_frame_trans s1 s2 s3 : same_frame s1 s2 → same_frame s2 s3 → same_frame s1 s3.
Proof. unfold same_frame. intros (?&?&?&?&?&?&?&?&?&?) (?&?&?&?&?&?&?&?&?&?). split_and!; congruence. Qed.

Lemma same_frame_verdict s s' p : same_frame s s' → verdict s' p = verdict s p.
Proof. intros (E1 & E2 & E3 & E4 & _). unfold verdict. by rewrite E1, E2, E3, E4. Qed.

Lemma insert_mid {A} (l1 l2 : list A) x y n : n = length l1 → <[n := y]> (l1 ++ x :: l2) = l1 ++ y :: l2.
Proof. intros ->. induction l1 as [|z l1 IH]; [done|]. cbn [app length]. by f_equal/=. Qed.

Lemma delete_mid {A} (l1 l2 : list A) x n : n = length l1 → delete n (l1 ++ x :: l2) = l1 ++ l2.
Proof. intros ->. apply delete_middle. Qed.

(** The gap of a dropped commit, after the gap before it if there is one. *)
Lemma drop_commit_eq s pre at_ label bytes (payload : T) post (um : bool) :
  a_pending s = pre ++ ECommit at_ label bytes payload :: post →
  let label' := if um then Some (a_captured_txid s) else label in
  let unlabeled := match label' with Some _ => None | None => Some at_ end in
  ∃ s', same_frame s s'
    ∧ match last pre ≫= (λ e, merge_gap e label' unlabeled um) with
      | Some gap => drop_commit s (length pre) um = Some (s', true)
          ∧ ∃ pre0 e, pre = pre0 ++ [e] ∧ a_pending s' = pre0 ++ gap :: post
      | None => drop_commit s (length pre) um = Some (s', false)
          ∧ a_pending s' = pre ++ EGap label' unlabeled (if um then 1 else 0) (if um then 0 else 1) :: post
      end.
Proof.
  intros E label' unlabeled. unfold drop_commit. rewrite E, list_lookup_middle by done.
  cbn [a_pending a_captured_txid set_pending_bytes]. fold label'. fold unlabeled. rewrite E.
  destruct pre as [|e pre0 _] using rev_ind.
  { cbn. eexists. split; [|split; reflexivity]. repeat split. }
  rewrite last_snoc, length_app. cbn [length mbind option_bind]. rewrite Nat.add_1_r. cbn [pred].
  assert (∀ x, (pre0 ++ [e]) ++ x :: post = pre0 ++ e :: x :: post) as Eapp by (intros; by rewrite <- app_assoc).
  rewrite Eapp, list_lookup_middle by done. cbn [mbind option_bind].
  destruct (merge_gap e label' unlabeled um) as [gap|]; (eexists; split; [|split; [reflexivity|]]; [repeat split|]).
  - exists pre0, e. split; [done|]. cbn [a_pending set_pending]. rewrite insert_mid by done.
    rewrite (cons_middle gap pre0), (app_assoc pre0 [gap]), delete_mid by (rewrite length_app; cbn; lia). by rewrite <- app_assoc.
  - cbn [a_pending set_pending]. rewrite <- Eapp, insert_mid by (rewrite length_app; cbn; lia). done.
Qed.

Definition suffix_of_log w (h : list (Item T)) : Prop := ∃ g, w_log w = g ++ h.

(** Commits before one that is captured are captured no later. *)
Lemma earlier_labels w (h1 : list (Item T)) x h2 t y :
  history_ok w → suffix_of_log w (h1 ++ x :: h2) → y ∈ h1 → first_capture (w_captures w) x.1 t →
  ∃ t', first_capture (w_captures w) y.1 t' ∧ t' ≤ t.
Proof.
  intros Hh [g Eg] Hy Hx. apply first_capture_order with x.1; [apply Hh| | |done].
  - apply (ho_sealed _ Hh). unfold log_points. rewrite Eg. apply list_elem_of_fmap. exists y. split; [done|]. set_solver.
  - pose proof (ho_log _ Hh) as Hs. unfold log_points in Hs. rewrite Eg, !fmap_app, fmap_cons in Hs.
    apply StronglySorted_app_1_r in Hs. eapply (StronglySorted_app_1_elem_of point_lt h1.*1 (x.1 :: h2.*1)); [done| |left].
    apply list_elem_of_fmap. by exists y.
Qed.

(** Dropping a commit keeps what the queue stands for. *)
Lemma drop_commit_shares w s pre at_ label bytes (payload : T) post (um : bool) h1 x h2 :
  history_ok w → a_captured_txid s = last_txid (w_captures w) →
  a_pending s = pre ++ ECommit at_ label bytes payload :: post →
  shares (holds_entry (w_captures w)) pre h1 → shares (holds_entry (w_captures w)) post h2 →
  suffix_of_log w (h1 ++ x :: h2) →
  (if um then ∃ t, first_capture (w_captures w) x.1 t
   else x.1 = at_ ∧ ∀ t, label = Some t → first_capture (w_captures w) at_ t) →
  ∃ s' (merged : bool) pre', drop_commit s (length pre) um = Some (s', merged) ∧ same_frame s s'
    ∧ a_pending s' = pre' ++ post ∧ length pre' = (if merged then length pre else S (length pre))
    ∧ shares (holds_entry (w_captures w)) pre' (h1 ++ [x])
    ∧ ∀ p, p ∈ omap waiting_point pre' → p ∈ omap waiting_point pre ∨ (um = false ∧ label = None ∧ p = at_).
Proof.
  intros Hh Et E Hpre Hpost Hlog Hx.
  destruct (drop_commit_eq s pre at_ label bytes payload post um E) as (s' & Hsame & Hd). revert Hd.
  set (label' := if um then Some (a_captured_txid s) else label).
  set (unlabeled := match label' with Some _ => None | None => Some at_ end). cbv zeta.
  assert (match label' with
          | Some t => ∃ t', first_capture (w_captures w) x.1 t' ∧ t' ≤ t ∧ t ≤ last_txid (w_captures w)
          | None => unlabeled = Some x.1 ∧ um = false ∧ label = None
          end) as Hlabel.
  { unfold label', unlabeled. destruct um.
    - destruct Hx as [t Ht]. exists t. rewrite Et. split_and!; [done| |done]. eapply first_capture_le; [apply Hh|done].
    - destruct Hx as [Ex Hx]. destruct label as [t|]; [|by rewrite Ex]. exists t. rewrite Ex.
      specialize (Hx t eq_refl). split_and!; [done..|]. eapply first_capture_le; [apply Hh|done]. }
  destruct (last pre ≫= _) as [gap|] eqn:Em.
  - apply bind_Some in Em as (e & He & Em). intros (Ed & pre0 & e' & -> & Ep). rewrite last_snoc in He. injection He as ->.
    exists s', true, (pre0 ++ [gap]). apply shares_app in Hpre as (h0 & hp & -> & Hpre0 & He%shares_one_inv).
    destruct e as [|previous un u o]; [done|]. injection Em as <-. destruct He as (Hlen & y & Hy & He).
    split_and!; [done|done|by rewrite Ep, <- app_assoc|by rewrite !length_app| |].
    + rewrite <- app_assoc. apply shares_app. eexists _, _. split_and!; [reflexivity|done|]. apply shares_one.
      split; [rewrite length_app; cbn [length]; destruct um; lia|]. exists x. split; [by rewrite last_snoc|].
      destruct label' as [later|]; [|by destruct Hlabel]. destruct Hlabel as (t' & Ht' & Hle & Hmax).
      assert (∀ z, z ∈ hp → ∃ t0, first_capture (w_captures w) z.1 t0 ∧ t0 ≤ t') as Hbefore.
      { intros z Hz. apply (earlier_labels w (h0 ++ hp) x h2); [done..|set_solver|done]. }
      destruct previous as [earlier|].
      * destruct He as [He1 He2]. split; [|lia]. intros z [Hz| ->%list_elem_of_singleton]%elem_of_app.
        -- destruct (He1 z Hz) as (t0 & ? & ?). exists t0. split; [done|lia].
        -- exists t'. split; [done|lia].
      * split; [|lia]. intros z [Hz| ->%list_elem_of_singleton]%elem_of_app.
        -- destruct (Hbefore z Hz) as (t0 & ? & ?). exists t0. split; [done|lia].
        -- exists t'. split; [done|lia].
    + intros p. rewrite !omap_app, !elem_of_app. intros [|Hp]; [tauto|right]. cbn [omap list_omap waiting_point] in Hp.
      unfold unlabeled in Hp. destruct label' as [later|]; [by destruct previous; apply elem_of_nil in Hp|].
      destruct Hlabel as (Eu & ? & ?). by apply list_elem_of_singleton in Hp.
  - intros (Ed & Ep). eexists s', false, (pre ++ [_]). split_and!; [done|done|rewrite <- app_assoc; exact Ep| | |].
    + rewrite length_app. cbn. lia.
    + apply shares_app. eexists _, _. split_and!; [reflexivity|done|]. apply shares_one. split; [by destruct um|].
      exists x. split; [done|]. destruct label' as [t|]; [|by destruct Hlabel]. destruct Hlabel as (t' & ? & ? & ?).
      split; [|done]. intros z ->%list_elem_of_singleton. by exists t'.
    + intros p. rewrite omap_app, elem_of_app. intros [|Hp]; [tauto|right]. cbn [omap list_omap waiting_point] in Hp.
      unfold unlabeled in Hp. destruct label' as [t|]; [by apply elem_of_nil in Hp|]. destruct Hlabel as (Eu & ? & ?).
      by apply list_elem_of_singleton in Hp.
Qed.

(** The label of the last commit of a gap bounds the gap. *)
Lemma gap_labels w (h1 h h2 : list (Item T)) x t y :
  history_ok w → suffix_of_log w (h1 ++ h ++ h2) → last h = Some x → first_capture (w_captures w) x.1 t → y ∈ h →
  ∃ t', first_capture (w_captures w) y.1 t' ∧ t' ≤ t.
Proof.
  intros Hh Hlog Hx Ht Hy. apply last_Some in Hx as [h' ->].
  apply elem_of_app in Hy as [Hy| ->%list_elem_of_singleton]; [|by exists t].
  eapply (earlier_labels w (h1 ++ h') x h2); [done| |set_solver|done].
  by rewrite <- !app_assoc in Hlog |- *.
Qed.

(** Replace an entry of the queue. *)
Lemma replace_entry s pre (e e' : Entry T) post :
  a_pending s = pre ++ e :: post →
  let s' := set_pending (<[length pre := e']> (a_pending s)) s in
  same_frame s s' ∧ a_pending s' = (pre ++ [e']) ++ post ∧ length (pre ++ [e']) = S (length pre).
Proof.
  intros E s'. split_and!; [repeat split| |by rewrite length_app, Nat.add_1_r].
  unfold s'. cbn [a_pending set_pending]. by rewrite E, insert_mid, <- app_assoc.
Qed.

(** The loop of [resolve] between two entries: [pre] is done. *)
Record resolving w W s pre post h1 h2 : Prop := {
  rs_history : history_ok w;
  rs_order : order_inv w (a_order s) (a_head s) (a_last_commit s);
  rs_forgotten : a_forgotten s = None;
  rs_retain : retain_inv w (a_order s) (a_last_commit s) W (a_retained s) (a_settled_txid s);
  rs_txid : a_captured_txid s = last_txid (w_captures w);
  rs_pending : a_pending s = pre ++ post;
  rs_waiting p : p ∈ unlabeled_points s → p ∈ W;
  rs_pre : shares (holds_entry (w_captures w)) pre h1;
  rs_post : shares (holds_entry (w_captures w)) post h2;
  rs_log : suffix_of_log w (h1 ++ h2);
  rs_done p : p ∈ omap waiting_point pre → verdict s p = VWait;
}.

(** What the loop leaves. *)
Definition resolved w s s' (h : list (Item T)) : Prop :=
  same_frame s s' ∧ shares (holds_entry (w_captures w)) (a_pending s') h
  ∧ ∀ p, p ∈ unlabeled_points s' → p ∈ unlabeled_points s ∧ verdict s p = VWait.

Lemma resolving_next w W s pre e post h1 he hs s1 pre' :
  resolving w W s pre (e :: post) h1 (he ++ hs) → shares (holds_entry (w_captures w)) post hs →
  same_frame s s1 → a_pending s1 = pre' ++ post → shares (holds_entry (w_captures w)) pre' (h1 ++ he) →
  (∀ p, p ∈ omap waiting_point pre' → p ∈ omap waiting_point (pre ++ [e]) ∧ verdict s p = VWait) →
  resolving w W s1 pre' post (h1 ++ he) hs ∧ ∀ s' h, resolved w s1 s' h → resolved w s s' h.
Proof.
  intros Hrs Hpost Hsame E1 Hpre' Hw. pose proof Hsame as (F1 & F2 & F3 & F4 & F5 & F6 & F7 & _).
  assert (∀ p, p ∈ unlabeled_points s1 → p ∈ unlabeled_points s) as Hsub.
  { unfold unlabeled_points. rewrite (rs_pending _ _ _ _ _ _ _ Hrs), E1, cons_middle, app_assoc. intros p.
    rewrite !(omap_app _ _ post), !elem_of_app. intros [Hp|Hp]; [left; by apply Hw|by right]. }
  split.
  - split; [apply Hrs|rewrite F4, F2, F5; apply Hrs|rewrite F3; apply Hrs|rewrite F4, F5, F1, F7; apply Hrs|rewrite F6; apply Hrs
      |done|intros p Hp; by apply (rs_waiting _ _ _ _ _ _ _ Hrs), Hsub|done|done|rewrite <- app_assoc; apply Hrs|].
    intros p Hp. rewrite (same_frame_verdict _ _ _ Hsame). by apply Hw.
  - intros s' h (Hs & Hsh & Hun). split_and!; [by eapply same_frame_trans|done|]. intros p Hp.
    destruct (Hun p Hp) as [? Hv]. rewrite (same_frame_verdict _ _ _ Hsame) in Hv. split; [by apply Hsub|done].
Qed.

(** One entry takes a label, or none. *)
Lemma resolving_entry w W s pre e e' post h1 he hs s1 :
  resolving w W s pre (e :: post) h1 (he ++ hs) → shares (holds_entry (w_captures w)) post hs →
  same_frame s s1 → a_pending s1 = (pre ++ [e']) ++ post → holds_entry (w_captures w) e' he →
  (∀ p, waiting_point e' = Some p → waiting_point e = Some p ∧ verdict s p = VWait) →
  resolving w W s1 (pre ++ [e']) post (h1 ++ he) hs ∧ ∀ s' h, resolved w s1 s' h → resolved w s s' h.
Proof.
  intros Hrs Hpost Hsame E1 He' Hw. eapply resolving_next; [done..| |].
  - apply shares_app. eexists _, _. split_and!; [reflexivity|apply Hrs|by apply shares_one].
  - intros p. rewrite !omap_app, !elem_of_app. intros [Hp|Hp]; [split; [by left|by apply (rs_done _ _ _ _ _ _ _ Hrs)]|].
    cbn [omap list_omap] in *. destruct (waiting_point e') as [q|]; [|by apply elem_of_nil in Hp].
    apply list_elem_of_singleton in Hp as ->. destruct (Hw q eq_refl) as [-> ?].
    split; [right; by apply list_elem_of_singleton|done].
Qed.

(** A gap whose last commit is captured takes a bound. *)
Lemma gap_bound w W s pre unl u o post h1 he hs p t t0 :
  resolving w W s pre (EGap None unl u o :: post) h1 (he ++ hs) → holds_entry (w_captures w) (EGap None unl u o) he →
  unl = Some p → first_capture (w_captures w) p t0 → t0 ≤ t → t ≤ last_txid (w_captures w) →
  holds_entry (w_captures w) (EGap (Some t) unl u o) he.
Proof.
  intros Hrs (Hlen & x & Hx & Hun) -> Ht0 Hle Hmax. injection Hun as ->. split; [done|]. exists x. split; [done|].
  split; [|done]. intros y Hy. destruct (gap_labels w h1 he hs x t0 y) as (t' & ? & ?); [apply Hrs|apply Hrs|done..|].
  exists t'. split; [done|lia].
Qed.

Lemma resolve_loop_spec w W fuel s pre post h1 h2 s' :
  resolving w W s pre post h1 h2 → resolve_loop fuel (length pre) s = Some s' → resolved w s s' (h1 ++ h2).
Proof.
  revert s pre post h1 h2. induction fuel as [|fuel IH]; intros s pre post h1 h2 Hrs Hres.
  all: pose proof (rs_pending _ _ _ _ _ _ _ Hrs) as E; pose proof (rs_post _ _ _ _ _ _ _ Hrs) as Hpost.
  all: destruct post as [|e post]; cbn [resolve_loop] in Hres; rewrite E in Hres.
  1, 3: rewrite app_nil_r in *; rewrite lookup_ge_None_2 in Hres by done; injection Hres as <-; inversion Hpost;
    rewrite app_nil_r; split_and!; [repeat split|rewrite E; apply Hrs|]; intros p Hp; split; [done|];
    apply (rs_done _ _ _ _ _ _ _ Hrs); unfold unlabeled_points in Hp; by rewrite E in Hp.
  all: rewrite list_lookup_middle in Hres by done.
  { done. }
  inversion Hpost as [|? ? he hs He Hs]. subst h2. rewrite app_assoc.
  assert (∀ s1 e', same_frame s s1 → a_pending s1 = (pre ++ [e']) ++ post → holds_entry (w_captures w) e' he →
    (∀ p, waiting_point e' = Some p → waiting_point e = Some p ∧ verdict s p = VWait) →
    resolve_loop fuel (S (length pre)) s1 = Some s' → resolved w s s' ((h1 ++ he) ++ hs)) as Hnext.
  { intros s1 e' Hsame E1 He' Hw Hres1. destruct (resolving_entry w W s pre e e' post h1 he hs s1) as [Hrs1 Hback]; [done..|].
    eapply Hback, IH; [done|]. by rewrite length_app, Nat.add_1_r. }
  assert (∀ e', same_frame s (set_pending (<[length pre := e']> (pre ++ e :: post)) s)
    ∧ a_pending (set_pending (<[length pre := e']> (pre ++ e :: post)) s) = (pre ++ [e']) ++ post) as Hrep.
  { intros e'. destruct (replace_entry s pre e e' post E) as (? & ? & _). by rewrite <- E. }
  destruct (waiting_point e) as [at_|] eqn:Ew.
  2: { apply (Hnext s e); [repeat split|by rewrite E, <- app_assoc|done|congruence|done]. }
  assert (at_ ∈ W) as HatW.
  { apply (rs_waiting _ _ _ _ _ _ _ Hrs). unfold unlabeled_points. rewrite E, omap_app, elem_of_app. right. cbn [omap list_omap]. rewrite Ew. left. }
  pose proof (verdict_spec w s W at_ (rs_history _ _ _ _ _ _ _ Hrs) (rs_order _ _ _ _ _ _ _ Hrs) (rs_forgotten _ _ _ _ _ _ _ Hrs)
    (rs_retain _ _ _ _ _ _ _ Hrs) HatW) as Hv.
  pose proof (ho_txids _ (rs_history _ _ _ _ _ _ _ Hrs)) as Hok.
  destruct (verdict s at_) as [t| |] eqn:Ev.
  - destruct e as [at' [|] bytes payload|[|] unl u o]; try done.
    + injection Ew as ->. destruct He as [-> _]. refine (Hnext _ _ (proj1 (Hrep _)) (proj2 (Hrep _)) _ _ Hres); [|done].
      split; [done|]. by intros ? [= <-].
    + refine (Hnext _ _ (proj1 (Hrep _)) (proj2 (Hrep _)) _ _ Hres); [|done]. eapply gap_bound; [done..|by eapply first_capture_le].
  - apply (Hnext s e); [repeat split|by rewrite E, <- app_assoc|done| |by destruct e].
    intros p Hp. assert (p = at_) as -> by congruence. done.
  - destruct Hv as [t Hv]. destruct e as [at' [|] bytes payload|[|] unl u o]; try done.
    + injection Ew as ->. destruct He as [-> _].
      destruct (drop_commit_shares w (set_unmatched_total (a_unmatched_total s + 1) s) pre at_ None bytes payload post true
        h1 (at_, Some payload) hs) as (s1 & merged & pre' & Ed & Hsame & E1 & Hlen & Hsh & Hw1);
        [apply Hrs|apply Hrs|done|apply Hrs|done|apply Hrs|by exists t|].
      rewrite Ed in Hres. cbn [mbind option_bind] in Hres.
      destruct (resolving_next w W s pre (ECommit at_ None bytes payload) post h1 [(at_, Some payload)] hs s1 pre') as [Hrs1 Hback];
        [done..| |by eapply Hback, IH; [|rewrite Hlen]].
      intros p Hp. destruct (Hw1 p Hp) as [Hp'|[? _]]; [|done]. rewrite omap_app, elem_of_app.
      split; [by left|by apply (rs_done _ _ _ _ _ _ _ Hrs)].
    + refine (Hnext _ _ (proj1 (Hrep _)) (proj2 (Hrep _)) _ _ Hres); [|done].
      pose proof (rs_txid _ _ _ _ _ _ _ Hrs) as Et. eapply gap_bound; [done..|rewrite Et; by eapply first_capture_le|by rewrite Et].
Qed.

(** ** The retained captures *)

Lemma wait_clear w s W waiting :
  history_ok w → order_inv w (a_order s) (a_head s) (a_last_commit s) → a_forgotten s = None →
  retain_inv w (a_order s) (a_last_commit s) W (a_retained s) (a_settled_txid s) →
  (∀ p, p ∈ waiting → p ∈ W ∧ verdict s p = VWait) → clear (a_order s) waiting (a_retained s).
Proof.
  intros Hh Ho Hf Hr Hw p r span Hp Hin Es Hs. destruct (Hw p Hp) as [HW Hv].
  pose proof (verdict_spec w s W p Hh Ho Hf Hr HW) as Hspec. rewrite Hv in Hspec. destruct Hspec as [Hc _].
  destruct (holds_covers _ _ _ Hs (Hc r span Hin Es)) as (? & ? & _ & ?). done.
Qed.

Lemma retain_waiting w o l waiting waiting' retained settled :
  retain_inv w o l waiting retained settled → (∀ p, p ∈ waiting' → p ∈ waiting) →
  retain_inv w o l waiting' retained settled.
Proof.
  intros Hr Hsub. split; try apply Hr.
  - intros p Hp. by apply (ri_waiting _ _ _ _ _ _ Hr), Hsub.
  - intros c Hc Hn. destruct (ri_removed _ _ _ _ _ _ Hr c Hc Hn) as [Hw ?]. split; [|done]. intros p Hp. by apply Hw, Hsub.
Qed.

(** A point of a span of a generation before or at that of the last commit. *)
Lemma passed_sound w o head at_ c :
  order_inv w o head (Some at_) → c ∈ w_captures w → passed o at_ (span_of c) = true →
  (∀ span, span_of c = Some span → sp_generation span ∈ o_captured o) → passed_by w (Some at_) c.
Proof.
  intros Ho Hc Hp Hgen. right. exists at_. split; [done|]. intros p (span & Es & Hs). rewrite Es in Hp. cbn [passed is_none_or] in Hp.
  apply orb_true_iff in Hp as [[Eg%bool_decide_eq_true Hle%N.leb_le]%andb_true_iff|He].
  - destruct Hs as [(Egp & Hf & _)|[_ Hlt]]; [|right; left; by rewrite <- Eg].
    destruct (decide (frames p = frames at_)) as [Ef|]; [left; destruct p, at_; cbn in *; congruence|].
    right; right. split; [congruence|lia].
  - eapply earlier_sound in He; [|apply _|apply Ho|left; by apply Hgen]. unfold ExportOrder.gen_lt in He. right; left.
    destruct Hs as [(Egp & _)|[_ Hlt]]; [by rewrite <- Egp|lia].
Qed.

Lemma settle_front w o head at_ waiting front rest settled :
  history_ok w → order_inv w o head (Some at_) → retain_inv w o (Some at_) waiting (front :: rest) settled →
  clear o waiting (front :: rest) → passed o at_ (rt_span front) = true →
  retain_inv w o (Some at_) waiting rest (N.max settled (rt_txid front)).
Proof.
  intros Hh Ho Hr Hcl Hp. destruct (retained_capture _ _ _ _ _ _ front Hr ltac:(left)) as (c & Hc & ->). cbn [ret rt_span rt_txid] in *.
  assert (passed_by w (Some at_) c) as Hpass.
  { eapply passed_sound; [done..|]. intros span Es. apply (ri_generation _ _ _ _ _ _ Hr (ret c)); [left|done]. }
  pose proof (retained_sorted _ _ _ _ _ _ Hh Hr) as [Hall Hsr]%StronglySorted_cons. rewrite Forall_forall in Hall.
  assert (∀ d, d ∈ w_captures w → ret d = ret c → d = c) as Hinj.
  { intros d Hd Heq. eapply txids_inj; [apply Hh|done..|]. by injection Heq. }
  split.
  - apply Hr.
  - etrans; [|apply Hr]. by apply sublist_cons.
  - intros r span Hin. apply (ri_generation _ _ _ _ _ _ Hr). by right.
  - intros d Hd Hn. destruct (decide (ret d = ret c)) as [Heq|Hne].
    + rewrite (Hinj d Hd Heq). split; [|done]. intros p Hpw (span & Es & Hs).
      destruct (Hcl p (ret c) span Hpw ltac:(left) Es Hs) as (Ef & Hgn & He).
      assert (gen_lt (generation p) (sp_generation span)) as Hlt by (destruct Hs as [(? & _)|[_ ?]]; [congruence|done]).
      rewrite Es in Hp. cbn [passed is_none_or] in Hp. destruct (oi_last _ _ _ _ Ho) as [_ Hlast].
      assert (earlier o (generation p) (sp_generation span) = true); [|congruence].
      eapply earlier_complete; [apply _|apply Ho|by apply (ri_waiting _ _ _ _ _ _ Hr)| |by apply last_Some_elem_of in Hlast|done|].
      * apply (ri_generation _ _ _ _ _ _ Hr (ret c)); [left|done].
      * apply orb_true_iff in Hp as [[?%bool_decide_eq_true _]%andb_true_iff|]; [by left|by right].
    + apply (ri_removed _ _ _ _ _ _ Hr d Hd). by intros [|]%elem_of_cons.
  - intros d Hd Hle. destruct (N.le_gt_cases (cap_txid d) settled) as [Hs|Hs]; [by apply (ri_settled _ _ _ _ _ _ Hr)|].
    destruct (decide (ret d ∈ ret c :: rest)) as [[Heq|Hin]%elem_of_cons|Hn].
    + by rewrite (Hinj d Hd Heq).
    + specialize (Hall _ Hin). unfold rt_lt in Hall. cbn in Hall. lia.
    + by apply (ri_removed _ _ _ _ _ _ Hr d Hd).
  - destruct (ri_bounds _ _ _ _ _ _ Hr). pose proof (last_txid_max _ _ (ho_txids _ Hh) Hc). lia.
Qed.

Lemma settle_loop_spec w o head at_ waiting retained settled :
  history_ok w → order_inv w o head (Some at_) → retain_inv w o (Some at_) waiting retained settled →
  clear o waiting retained →
  let r := settle_loop o at_ settled retained in
  retain_inv w o (Some at_) waiting r.2 r.1 ∧ clear o waiting r.2 ∧ settled ≤ r.1.
Proof.
  intros Hh Ho. revert settled. induction retained as [|front rest IH]; intros settled Hr Hcl; cbn [settle_loop]; [done|].
  destruct (passed o at_ (rt_span front)) eqn:Ep; [|done].
  destruct (IH (N.max settled (rt_txid front))) as (H1 & H2 & H3).
  - by eapply settle_front.
  - intros p r span Hp Hin. apply Hcl; [done|by right].
  - split_and!; [done..|lia].
Qed.

Lemma prune_spec w s :
  history_ok w → order_inv w (a_order s) (a_head s) (a_last_commit s) →
  retain_inv w (a_order s) (a_last_commit s) (unlabeled_points s) (a_retained s) (a_settled_txid s) →
  clear (a_order s) (unlabeled_points s) (a_retained s) →
  retain_inv w (a_order s) (a_last_commit s) (unlabeled_points s) (filter (λ kept, needed s kept) (a_retained s)) (a_settled_txid s)
  ∧ clear (a_order s) (unlabeled_points s) (filter (λ kept, needed s kept) (a_retained s)).
Proof.
  intros Hh Ho Hr Hcl. split.
  2: { intros p r span Hp [_ Hin]%list_elem_of_filter. by apply Hcl. }
  split; try apply Hr.
  - etrans; [apply sublist_filter|apply Hr].
  - intros r span [_ Hin]%list_elem_of_filter. by apply (ri_generation _ _ _ _ _ _ Hr).
  - intros c Hc Hn. destruct (decide (ret c ∈ a_retained s)) as [Hin|Hin]; [|by apply (ri_removed _ _ _ _ _ _ Hr)].
    assert (needed s (ret c) = false) as Hno.
    { destruct (needed s (ret c)) eqn:E; [|done]. destruct Hn. apply list_elem_of_filter. by rewrite E. }
    apply orb_false_iff in Hno as [Hle%N.ltb_ge Hun]. cbn [ret rt_txid rt_span] in *.
    split; [|by apply (ri_settled _ _ _ _ _ _ Hr)]. intros p Hp (span & Es & Hs).
    destruct (Hcl p (ret c) span Hp Hin Es Hs) as (Ef & Hgn & He).
    rewrite Es in Hun. cbn [is_some_and] in Hun. rewrite Ef in Hun. cbn [andb] in Hun.
    assert (negb (earlier (a_order s) (sp_generation span) (generation p)) = false) as He2%negb_false_iff.
    { destruct (negb _) eqn:En; [|done]. rewrite <- Hun. symmetry. apply existsb_exists. exists p. split; [by apply list_elem_of_In|].
      by rewrite bool_decide_true, He, En. }
    eapply earlier_sound in He2; [|apply _|apply Ho|left; by apply (ri_generation _ _ _ _ _ _ Hr (ret c))].
    unfold ExportOrder.gen_lt in He2. destruct Hs as [(? & _)|[_ ?]]; [congruence|lia].
Qed.

(** [resolve] labels what can be labelled, and nothing that is clear waits. *)
Definition settled_inv w s (stream : list (Released T)) : Prop :=
  Inv w s stream ∧ clear (a_order s) (unlabeled_points s) (a_retained s).

Lemma resolve_spec w s s' stream :
  Inv w s stream → resolve s = Some s' →
  settled_inv w s' stream ∧ same_frame s s'
  ∧ ∀ p, p ∈ unlabeled_points s' → p ∈ unlabeled_points s ∧ verdict s' p = VWait.
Proof.
  intros Hi Hres. pose proof Hi as [Hh Ho Hr Hq Ht Hf]. destruct (qi_shares _ _ _ _ _ _ Hq) as (g & h & Hg & Hs & Elog & Hpos).
  assert (resolving w (unlabeled_points s) s [] (a_pending s) [] h) as Hrs.
  { split; try done; [constructor|by exists g|]. intros p []%elem_of_nil. }
  destruct (resolve_loop_spec w (unlabeled_points s) _ s [] (a_pending s) [] h s' Hrs Hres) as (Hsame & Hsh & Hun).
  pose proof Hsame as (F1 & F2 & F3 & F4 & F5 & F6 & F7 & F8 & F9 & F10).
  assert (retain_inv w (a_order s') (a_last_commit s') (unlabeled_points s') (a_retained s') (a_settled_txid s')) as Hr'.
  { rewrite F4, F5, F1, F7. eapply retain_waiting; [done|]. intros p Hp. by apply Hun. }
  split_and!; [split|done|intros p Hp; rewrite (same_frame_verdict _ _ _ Hsame); by apply Hun].
  - split; [done|by rewrite F4, F2, F5|done| |by rewrite F6|by rewrite F3].
    rewrite F9, F7, F8. split; [|apply Hq|apply Hq]. exists g, h. done.
  - rewrite F4, F1. by eapply wait_clear.
Qed.

(** ** The order lists forget *)

Lemma shares_points (es : list (Entry T)) h caps p :
  shares (holds_entry caps) es h → p ∈ omap waiting_point es → p ∈ h.*1.
Proof.
  induction 1 as [|e es h hs He Hs IH]; [done|]. cbn [omap list_omap]. rewrite fmap_app, elem_of_app.
  destruct (waiting_point e) as [q|] eqn:Eq; [|intros Hp; right; by apply IH].
  intros [->|Hp]%elem_of_cons; [left|right; by apply IH]. apply list_elem_of_fmap.
  destruct e as [at_ [|] bytes payload|[|] unl u o]; cbn in Eq; try done.
  - injection Eq as ->. destruct He as [-> _]. exists (q, Some payload). split; [done|left].
  - subst unl. destruct He as (_ & x & Hx & [= ->]). exists x. split; [done|]. by apply last_Some_elem_of.
Qed.

(** The first point that waits is the first in the log. *)
Lemma first_waiting (es : list (Entry T)) h caps p q :
  shares (holds_entry caps) es h → StronglySorted point_lt h.*1 →
  head (omap waiting_point es) = Some q → p ∈ omap waiting_point es → point_le q p.
Proof.
  intros Hs. induction Hs as [|e es h hs He Hs IH]; [done|]. rewrite fmap_app. intros Hsort Hq Hp.
  cbn [omap list_omap] in *. destruct (waiting_point e) as [e0|] eqn:Ee; [|by apply IH; [by apply StronglySorted_app_1_r in Hsort|..]].
  injection Hq as <-. apply elem_of_cons in Hp as [->|Hp]; [by left|]. right.
  eapply (StronglySorted_app_1_elem_of point_lt h.*1 hs.*1); [done| |by eapply shares_points].
  eapply (shares_points [e] h caps); [by apply shares_one|]. cbn [omap list_omap]. rewrite Ee. left.
Qed.

Lemma last_filter_keep {A} (P : A → Prop) `{∀ x, Decision (P x)} (l : list A) x :
  last l = Some x → P x → last (filter P l) = Some x.
Proof. intros [l' ->]%last_Some Hx. by rewrite filter_app, filter_cons_True, filter_nil, last_snoc by done. Qed.

Lemma point_le_gen p q : point_le p q → ¬ gen_lt (generation q) (generation p).
Proof. unfold ExportOrder.gen_lt. intros [->|[?|[E ?]]]; [lia|lia|rewrite E; lia]. Qed.

(** The generation below which the lists may forget. *)
Definition floor_of s : option WalPoint :=
  match head (unlabeled_points s) with Some at_ => Some at_ | None => a_last_commit s end.

Lemma floor_spec w s stream floor :
  Inv w s stream → floor_of s = Some floor →
  (∃ at_, a_last_commit s = Some at_ ∧ ¬ gen_lt (generation at_) (generation floor))
  ∧ ∀ p, p ∈ unlabeled_points s → ¬ gen_lt (generation p) (generation floor).
Proof.
  intros [Hh Ho Hr Hq _ _] Efl. unfold floor_of in Efl.
  destruct (head (unlabeled_points s)) as [q|] eqn:Eh.
  - injection Efl as ->. split.
    + destruct (ri_waiting _ _ _ _ _ _ Hr floor) as (_ & _ & at_ & ? & Hle); [by apply head_Some_elem_of|].
      exists at_. split; [done|by apply point_le_gen].
    + intros p Hp. destruct (qi_shares _ _ _ _ _ _ Hq) as (g & h & _ & Hs & Elog & _). apply point_le_gen.
      eapply first_waiting; [done| |done|done].
      pose proof (ho_log _ Hh) as Hl. unfold log_points in Hl. rewrite Elog, fmap_app in Hl. by eapply StronglySorted_app_1_r.
  - split; [exists floor; split; [done|unfold ExportOrder.gen_lt; lia]|].
    intros p Hp. apply head_None in Eh. rewrite Eh in Hp. by apply elem_of_nil in Hp.
Qed.

Lemma forget_order w o head at_ floor keep :
  order_inv w o head (Some at_) → ¬ gen_lt (generation at_) floor →
  (∀ span, head = Some span → sp_generation span ∈ keep) →
  order_inv w (forget_before floor keep o) head (Some at_).
Proof.
  intros Ho Hat Hkeep. pose proof (oi_ok _ _ _ _ Ho) as Hok. destruct (oi_last _ _ _ _ Ho) as [Hlog Hlast].
  assert (at_hand o (generation at_)) as Hhand by (right; by apply last_Some_elem_of).
  split.
  - by apply forget_before_ok.
  - pose proof (oi_head _ _ _ _ Ho) as Hhead. destruct head as [span|]; [|done]. destruct Hhead as (? & Hc & ?). split_and!; [done| |done].
    eapply forget_before_gone; [apply _|exact Hok|by left|right; by apply Hkeep|done].
  - split; [done|]. apply last_filter_keep; [done|]. intros [[_ He%Is_true_true] _]%list_elem_of_filter.
    apply Hat. by eapply earlier_sound; [apply _|exact Hok|..].
  - intros g Hg Hn. exists at_. split; [done|].
    destruct (decide (g ∈ o_captured o)) as [Hin|Hout]; [|by destruct (oi_forgot _ _ _ _ Ho g Hg Hout) as (? & [= <-] & ?)].
    cbn [forget_before o_captured] in Hn. rewrite list_elem_of_filter in Hn.
    destruct (decide (g ∈ filter (λ g, (g ∉ keep) ∧ earlier o g floor) (o_captured o ++ o_committed o))) as [Hgone|]; [|tauto].
    apply list_elem_of_filter in Hgone as [[_ He%Is_true_true] _].
    eapply earlier_sound in He; [|apply _|exact Hok|by left]. unfold ExportOrder.gen_lt in *. lia.
Qed.

Lemma forget_retain w o l waiting retained settled floor keep :
  order_ok (cap_gens (w_captures w)) (generation <$> log_points w) o →
  retain_inv w o l waiting retained settled → clear o waiting retained →
  (∀ p, p ∈ waiting → ¬ gen_lt (generation p) floor) →
  (∀ r span, r ∈ retained → rt_span r = Some span → sp_generation span ∈ keep) →
  retain_inv w (forget_before floor keep o) l waiting retained settled ∧ clear (forget_before floor keep o) waiting retained.
Proof.
  intros Hok Hr Hcl Hfloor Hkeep. split.
  - split; try apply Hr.
    + intros p Hp. destruct (ri_waiting _ _ _ _ _ _ Hr p Hp) as (Hc & ? & ?). split_and!; [|done..].
      eapply forget_before_gone; [apply _|exact Hok|by right|left; by apply Hfloor|done].
    + intros r span Hin Es. pose proof (ri_generation _ _ _ _ _ _ Hr r span Hin Es).
      eapply forget_before_gone; [apply _|exact Hok|by left|right; by eapply Hkeep|done].
  - intros p r span Hp Hin Es Hs. destruct (Hcl p r span Hp Hin Es Hs) as (? & ? & He). split_and!; [done..|].
    destruct (earlier (forget_before floor keep o) _ _) eqn:E; [|done]. rewrite <- He. symmetry.
    eapply forget_before_earlier; [apply _|exact Hok|right; by apply (ri_waiting _ _ _ _ _ _ Hr)|left; by apply Hfloor|exact E].
Qed.

Lemma forget_spec w s stream : settled_inv w s stream → settled_inv w (forget_generations s) stream.
Proof.
  intros [Hi Hcl]. pose proof Hi as [Hh Ho Hr Hq Ht Hf]. unfold forget_generations. fold (floor_of s).
  destruct (floor_of s) as [floor|] eqn:Efl; [|done]. destruct (floor_spec _ _ _ _ Hi Efl) as [(at_ & Elast & Hat) Hfloor].
  rewrite Elast in Ho, Hr. set (keep := omap _ (a_retained s) ++ _ ++ _).
  destruct (forget_retain w (a_order s) (Some at_) (unlabeled_points s) (a_retained s) (a_settled_txid s) (generation floor) keep)
    as [Hr' Hcl']; [apply Ho|done..| |].
  { intros r span Hin Es. apply elem_of_app. left. apply list_elem_of_omap. exists r. split; [done|]. by rewrite Es. }
  split; [|exact Hcl']. split; try done; cbn [set_order a_order a_head a_last_commit a_retained a_settled_txid]; rewrite Elast; [|exact Hr'].
  apply forget_order; [done..|]. intros span Es. unfold keep. rewrite Es. set_solver.
Qed.

(** ** The release *)

(** Some entries at the front have gone out under the proof, and the next one
    is not covered by it. *)
Definition lets_out w (proved : N) (h : list (Item T)) (out : list (Released T))
    (pending' : list (Entry T)) (out' : list (Released T)) : Prop :=
  ∃ new h1 h2, out' = out ++ new ∧ h = h1 ++ h2 ∧ shares (holds_released (w_captures w)) new h1
    ∧ shares (holds_entry (w_captures w)) pending' h2
    ∧ (∀ r, r ∈ new → match r with RelCommit label _ => label ≤ proved | RelGap _ through _ _ => through ≤ proved end)
    ∧ match pending' with
      | ECommit _ (Some t) _ _ :: _ | EGap (Some t) _ _ _ :: _ => proved < t
      | _ => True
      end.

Lemma release_loop_waiting proved position (pending : list (Entry T)) bytes out :
  omap waiting_point (release_loop proved position pending bytes out).1.1 = omap waiting_point pending.
Proof.
  revert bytes out. induction pending as [|[at_ [label|] size payload|[through|] unl u ov] pending IH]; intros bytes out;
    cbn [release_loop]; try done.
  - destruct (label <=? proved); [|done]. by rewrite IH.
  - destruct (through <=? proved); [|done]. by rewrite IH.
Qed.

(** What waits goes on waiting. *)
Lemma release_waiting s : unlabeled_points (release s) = unlabeled_points s.
Proof.
  unfold release, unlabeled_points.
  pose proof (release_loop_waiting (a_proven_txid s) (a_released_position s) (a_pending s) (a_pending_bytes s) (a_released s)) as H.
  by destruct (release_loop _ _ _ _ _) as [[pending' bytes'] out'].
Qed.

(** The rest of the state, and the position by what is left of the queue. *)
Lemma release_frame s :
  a_retained (release s) = a_retained s ∧ a_settled_txid (release s) = a_settled_txid s
  ∧ a_proven_txid (release s) = a_proven_txid s
  ∧ a_released_position (release s) =
      N.max (a_released_position s)
        (N.min (reach (a_settled_txid s) (a_released_position s) (a_retained s) (a_pending (release s))) (a_proven_txid s)).
Proof. unfold release. by destruct (release_loop _ _ _ _ _) as [[pending' bytes'] out']. Qed.

Lemma release_loop_spec w proved position pending bytes out pending' bytes' out' h :
  release_loop proved position pending bytes out = (pending', bytes', out') →
  shares (holds_entry (w_captures w)) pending h →
  (∀ x t, x ∈ h → first_capture (w_captures w) x.1 t → position < t) →
  lets_out w proved h out pending' out'.
Proof.
  intros E Hs. revert bytes out E. induction Hs as [|e es h hs He Hs IH]; intros bytes out E Hpos; cbn [release_loop] in E.
  { simplify_eq. exists [], [], []. rewrite app_nil_r. split_and!; try done; [constructor..|]. intros r []%elem_of_nil. }
  assert (∀ x t, x ∈ hs → first_capture (w_captures w) x.1 t → position < t) as Hpos' by (intros x t Hx; apply Hpos; set_solver).
  assert ((pending', bytes', out') = (e :: es, bytes, out) →
    (match e with ECommit _ (Some t) _ _ | EGap (Some t) _ _ _ => proved < t | _ => True end) →
    lets_out w proved (h ++ hs) out pending' out') as Hstop.
  { intros [= -> -> ->] He'. exists [], [], (h ++ hs). rewrite app_nil_r. split_and!; [done|done|constructor|by constructor| |done].
    intros r []%elem_of_nil. }
  destruct e as [at_ [label|] size payload|[through|] unl u o]; try (apply Hstop; [done|exact I]).
  - destruct (N.leb_spec label proved) as [Hle|Hgt]; [|by apply Hstop].
    destruct (IH _ _ E Hpos') as (new & h1 & h2 & -> & -> & Hn & Hp & Hprov & Hfront). destruct He as [-> Hfc].
    exists (RelCommit label payload :: new), ((at_, Some payload) :: h1), h2. split_and!; [by rewrite <- app_assoc|done| |done| |done].
    + apply (shares_cons _ _ _ [(at_, Some payload)]); [|done]. exists at_. split; [done|]. by apply Hfc.
    + by intros r [->|Hr]%elem_of_cons; [|apply Hprov].
  - destruct (N.leb_spec through proved) as [Hle|Hgt]; [|by apply Hstop].
    destruct (IH _ _ E Hpos') as (new & h1 & h2 & -> & -> & Hn & Hp & Hprov & Hfront).
    destruct He as (Hlen & x & Hx & Hb & Hmax).
    exists (RelGap position through u o :: new), (h ++ h1), h2. split_and!; [by rewrite <- app_assoc|by rewrite app_assoc| |done| |done].
    + constructor; [|done]. split_and!; [by intros ->|done|]. intros y Hy. destruct (Hb y Hy) as (t & Ht & Hle').
      exists t. split_and!; [done| |done]. apply (Hpos y); [set_solver|done].
    + by intros r [->|Hr]%elem_of_cons; [|apply Hprov].
Qed.

(** No commit of the rest of the queue has its label at or below the reach. *)
Lemma reach_spec w o l waiting retained settled position pending h :
  history_ok w → retain_inv w o l waiting retained settled → (∀ p, p ∈ omap waiting_point pending → p ∈ waiting) →
  shares (holds_entry (w_captures w)) pending h → suffix_of_log w h → position ≤ settled →
  (∀ x t, x ∈ h → first_capture (w_captures w) x.1 t → position < t) →
  reach settled position retained pending ≤ settled
  ∧ ∀ x t, x ∈ h → first_capture (w_captures w) x.1 t → reach settled position retained pending < t.
Proof.
  intros Hh Hr Hw Hs Hlog Hset Hpos. pose proof (ho_txids _ Hh) as Hok.
  set (unassigned := match retained with [] => settled | kept :: _ => N.min settled (sat_sub (rt_txid kept) 1) end).
  assert (unassigned ≤ settled) as Hun by (unfold unassigned; destruct retained; lia).
  unfold reach. fold unassigned. destruct Hs as [|e es h hs He Hs]; [split; [done|]; intros x t []%elem_of_nil|].
  assert (∀ x p pay t, h = [(p, pay)] → x ∈ h ++ hs → first_capture (w_captures w) x.1 t →
    ∃ t0, first_capture (w_captures w) p t0 ∧ t0 ≤ t) as Hfront.
  { intros x p pay t -> [->%list_elem_of_singleton|Hx]%elem_of_app Ht; [by exists t|]. apply list_elem_of_split in Hx as (r1 & r2 & ->).
    apply (earlier_labels w ((p, pay) :: r1) x r2 t (p, pay)); [done|done|left|done]. }
  destruct e as [at_ [label|] size payload|through unl u ov].
  - destruct He as [-> Hfc]. split; [lia|]. intros x t Hx Ht. destruct (Hfront x at_ _ t eq_refl Hx Ht) as (t0 & Ht0 & Hle).
    specialize (Hfc label eq_refl). rewrite (first_capture_unique _ _ _ _ Hok Ht0 Hfc) in Hle.
    apply first_capture_contains in Hfc as (c & Hc & <- & _). apply (proj2 Hok) in Hc.
    unfold wrap_sub. destruct (N.leb_spec 1 (cap_txid c)); lia.
  - destruct He as [-> _]. split; [done|]. intros x t Hx Ht. destruct (Hfront x at_ _ t eq_refl Hx Ht) as (t0 & Ht0 & Hle).
    apply first_capture_contains in Ht0 as (c & Hc & <- & Hcon). pose proof (proj2 Hok _ Hc) as Hpositive.
    assert (at_ ∈ waiting) as Hat by (apply Hw; left).
    destruct (decide (ret c ∈ retained)) as [Hin|Hn]; [|by destruct (ri_removed _ _ _ _ _ _ Hr c Hc Hn) as [Hno _]; destruct (Hno at_)].
    pose proof (retained_sorted _ _ _ _ _ _ Hh Hr) as Hsort. unfold unassigned, sat_sub. destruct retained as [|kept rest]; [by apply elem_of_nil in Hin|].
    apply StronglySorted_cons in Hsort as [Hall _]. rewrite Forall_forall in Hall.
    apply elem_of_cons in Hin as [<-|Hin]; [cbn [ret rt_txid]; lia|]. specialize (Hall _ Hin). unfold rt_lt in Hall. cbn in Hall. lia.
  - split; [done|]. intros x t Hx Ht. by apply (Hpos x).
Qed.

Lemma release_spec w s taken :
  settled_inv w s (taken ++ a_released s) →
  settled_inv w (release s) (taken ++ a_released (release s))
  ∧ match a_pending (release s) with
    | ECommit _ (Some t) _ _ :: _ | EGap (Some t) _ _ _ :: _ => a_proven_txid s < t
    | _ => True
    end.
Proof.
  intros [Hi Hcl]. pose proof Hi as [Hh Ho Hr Hq Ht Hf]. destruct (qi_shares _ _ _ _ _ _ Hq) as (g & h & Hg & Hs & Elog & Hpos).
  destruct (qi_position _ _ _ _ _ _ Hq) as [Hset Hprov]. pose proof (release_waiting s) as Hw. unfold release in *.
  destruct (release_loop _ _ _ _ _) as [[pending' bytes'] out'] eqn:E.
  destruct (release_loop_spec w _ _ _ _ _ _ _ _ h E Hs Hpos) as (new & h1 & h2 & -> & -> & Hn & Hp & Hnew & Hfront).
  destruct (reach_spec w (a_order s) (a_last_commit s) (unlabeled_points s) (a_retained s) (a_settled_txid s) (a_released_position s)
    pending' h2) as [Hle Hreach]; [done|done|by rewrite <- Hw|done|exists (g ++ h1); by rewrite <- app_assoc|done|set_solver|].
  split; [|done]. split; [|by rewrite Hw].
  split; cbn [a_order a_head a_last_commit a_retained a_settled_txid a_pending a_released_position a_proven_txid a_captured_txid
    a_forgotten a_released set_released_position set_released set_pending_bytes set_pending]; try done.
  - by rewrite Hw.
  - split.
    + exists (g ++ h1), h2. split_and!; [|done|by rewrite <- app_assoc|].
      * rewrite app_assoc. apply shares_app. by exists g, h1.
      * intros x t Hx Hfc. specialize (Hreach x t Hx Hfc). assert (a_released_position s < t) by (apply (Hpos x); [set_solver|done]). lia.
    + lia.
    + intros r. rewrite app_assoc. intros [Hr'|Hr']%elem_of_app; [by apply (qi_proved _ _ _ _ _ _ Hq)|by apply Hnew].
Qed.

(** ** A commit arrives *)

#[local] Instance point_lt_trans : Transitive point_lt.
Proof. intros [g1 f1] [g2 f2] [g3 f3] [|[]] [|[]]; unfold ExportOrder.point_lt in *; cbn in *; subst; (left; lia) || (right; split; [done|lia]). Qed.

Lemma point_lt_irrefl p q : point_le p q → ¬ point_lt q p.
Proof.
  intros [->|[H|[E H]]] [H'|[E' H']]; rewrite ?E, ?E' in *; lia.
Qed.

Lemma log_before w p q : history_ok w → arrives w p → q ∈ log_points w → point_lt q p.
Proof.
  intros Hh (Hlast & _) Hq. pose proof (ho_log _ Hh) as Hs. unfold log_points in *.
  destruct (last (w_log w).*1) as [x|] eqn:El; [|by rewrite last_None in El; rewrite El in Hq; apply elem_of_nil in Hq].
  specialize (Hlast x eq_refl). apply last_Some in El as [l E]. rewrite E in Hq, Hs.
  apply elem_of_app in Hq as [Hq| ->%list_elem_of_singleton]; [|done]. etrans; [|done].
  eapply (StronglySorted_app_1_elem_of point_lt l [x]); [done|done|left].
Qed.

Definition log_more w (x : Item T) : World T := mkWorld (w_log w ++ [x]) (w_captures w) (w_caught w).

Lemma log_more_points w x : log_points (log_more w x) = log_points w ++ [x.1].
Proof. unfold log_points. cbn. by rewrite fmap_app. Qed.

Lemma arrive_history w x : history_ok w → arrives w x.1 → history_ok (log_more w x).
Proof.
  intros Hh Ha. split; rewrite ?log_more_points.
  - apply StronglySorted_app_2; [|apply Hh|repeat constructor]. intros p q Hp ->%list_elem_of_singleton. by eapply log_before.
  - apply Hh.
  - intros p [Hp| ->%list_elem_of_singleton]%elem_of_app; [by apply Hh|apply Ha].
Qed.

Lemma arrive_outside w x g :
  (∀ h, h ∈ generation <$> log_points w → outside (cap_gens (w_captures w)) h) → arrives w x.1 →
  g ∈ generation <$> log_points (log_more w x) → outside (cap_gens (w_captures w)) g.
Proof.
  intros Hold (_ & Hout & _). rewrite log_more_points, fmap_app, elem_of_app.
  intros [Hg| ->%list_elem_of_singleton]; [by apply Hold|done].
Qed.

(** A commit the code reads. *)
Lemma arrive_order w x o head l :
  history_ok w → order_inv w o head l → arrives w x.1 →
  order_inv (log_more w x) (order_committed (generation x.1) o) head (Some x.1).
Proof.
  intros Hh Ho Ha. pose proof (oi_ok _ _ _ _ Ho) as Hok.
  assert (∀ g, g ∈ o_committed o → g = generation x.1 ∨ gen_lt g (generation x.1)) as Hmax.
  { intros g (q & -> & Hq)%(oo_committed_sub _ _ _ _ Hok)%list_elem_of_fmap.
    destruct (log_before _ _ _ Hh Ha Hq) as [|[E _]]; [by right|by left]. }
  assert (∀ at_, l = Some at_ → ¬ gen_lt (generation x.1) (generation at_)) as Hat.
  { intros at_ ->. destruct (oi_last _ _ _ _ Ho) as [Hin _]. apply point_le_gen. right. by eapply log_before. }
  split.
  - apply (order_committed_ok rank _ _ _ _ _ Hok); [| | |done|].
    + intros h Hh'. rewrite log_more_points, fmap_app. by apply elem_of_app; left.
    + rewrite log_more_points, fmap_app. apply elem_of_app; right. by apply list_elem_of_singleton.
    + intros h. apply arrive_outside; [apply Hok|done].
    + intros Hg. destruct (decide (generation x.1 ∈ o_captured o)) as [|Hn]; [done|].
      destruct (oi_forgot _ _ _ _ Ho _ Hg Hn) as (at_ & -> & Hlt). by destruct (Hat at_ eq_refl).
  - apply Ho.
  - split; [rewrite log_more_points; set_solver|]. by apply (push_distinct_spec rank); [apply Hok|].
  - intros g Hg Hn. exists x.1. split; [done|]. destruct (oi_forgot _ _ _ _ Ho g Hg Hn) as (at_ & -> & Hlt).
    specialize (Hat at_ eq_refl). unfold ExportOrder.gen_lt in *. lia.
Qed.

(** No capture the state let go holds a commit that arrives. *)
Lemma arrive_passed w o head l c p :
  history_ok w → order_inv w o head l → arrives w p → c ∈ w_captures w → passed_by w l c → ¬ contains c p.
Proof.
  intros Hh Ho Ha Hc [Hle|(at_ & -> & Hp)]; [by apply Ha|]. intros Hcon.
  destruct (oi_last _ _ _ _ Ho) as [Hin _]. eapply point_lt_irrefl; [by apply Hp|by eapply log_before].
Qed.

Lemma passed_by_more w x l at_ c :
  history_ok w → arrives w x.1 → (∀ a, l = Some a → a ∈ log_points w) → passed_by w l c →
  at_ = l ∨ at_ = Some x.1 → passed_by (log_more w x) at_ c.
Proof.
  intros Hh Ha Hl [Hle|(a & -> & Hp)] [->| ->]; [by left|by left|right; by exists a|]. right. exists x.1. split; [done|].
  intros p Hp'. right. destruct (Hp p Hp') as [->|Hlt]; [by eapply log_before; [..|apply Hl]|].
  etrans; [done|]. by eapply log_before; [..|apply Hl].
Qed.

Lemma order_last w o head l a : order_inv w o head l → l = Some a → a ∈ log_points w.
Proof. intros Ho ->. by destruct (oi_last _ _ _ _ Ho). Qed.

Lemma arrive_retain w x o head l waiting retained settled :
  history_ok w → order_inv w o head l → arrives w x.1 → retain_inv w o l waiting retained settled →
  retain_inv (log_more w x) (order_committed (generation x.1) o) (Some x.1) (waiting ++ [x.1]) retained settled.
Proof.
  intros Hh Ho Ha Hr. pose proof (oi_ok _ _ _ _ Ho) as Hok.
  pose proof (arrive_order w x o head l Hh Ho Ha) as Ho'. pose proof (oi_last _ _ _ _ Ho') as [_ Hlast].
  assert (∀ g, g ∈ o_committed o → g ∈ o_committed (order_committed (generation x.1) o)) as Hmore.
  { intros g Hg. cbn [order_committed o_committed]. unfold push_distinct. case_decide; [done|].
    destruct (decide (g = generation x.1)) as [->|]; [set_solver|]. apply elem_of_app. left. by apply list_elem_of_filter. }
  split; try apply Hr.
  - intros p. rewrite elem_of_app, list_elem_of_singleton, log_more_points. intros [Hp| ->].
    + destruct (ri_waiting _ _ _ _ _ _ Hr p Hp) as (Hc & Hlog & _). split_and!; [by apply Hmore|set_solver|].
      exists x.1. split; [done|right]. by eapply log_before.
    + split_and!; [by apply last_Some_elem_of in Hlast|set_solver|]. exists x.1. split; [done|by left].
  - intros c Hc Hn. destruct (ri_removed _ _ _ _ _ _ Hr c Hc Hn) as [Hw Hp]. split.
    + intros p [Hpw| ->%list_elem_of_singleton]%elem_of_app; [by apply Hw|by eapply arrive_passed].
    + eapply passed_by_more; [done..|intros a; by eapply order_last|done|by right].
  - intros c Hc Hle. eapply passed_by_more; [done..|intros a; by eapply order_last|by apply (ri_settled _ _ _ _ _ _ Hr)|by right].
Qed.

(** The queue takes the commit. *)
Lemma arrive_queue w x o head l waiting retained pending pending' stream position settled proved :
  history_ok w → order_inv w o head l → arrives w x.1 → retain_inv w o l waiting retained settled →
  queue_inv w pending stream position settled proved →
  (∀ h, suffix_of_log (log_more w x) (h ++ [x]) → shares (holds_entry (w_captures w)) pending h →
        shares (holds_entry (w_captures w)) pending' (h ++ [x])) →
  queue_inv (log_more w x) pending' stream position settled proved.
Proof.
  intros Hh Ho Ha Hr Hq Hpush. destruct (qi_shares _ _ _ _ _ _ Hq) as (g & h & Hg & Hs & Elog & Hpos).
  split; [|apply Hq|apply Hq].
  assert (w_log (log_more w x) = g ++ h ++ [x]) as Elog' by (cbn; by rewrite Elog, <- app_assoc).
  exists g, (h ++ [x]). split_and!; [done|apply Hpush; [by exists g|done]|done|].
  intros y t [Hy| ->%list_elem_of_singleton]%elem_of_app Ht; [by apply (Hpos y)|].
  apply first_capture_contains in Ht as (c & Hc & <- & Hcon). destruct (qi_position _ _ _ _ _ _ Hq) as [Hset _].
  destruct (N.le_gt_cases (cap_txid c) position) as [Hle|]; [|done]. exfalso.
  eapply arrive_passed; [done..|apply (ri_settled _ _ _ _ _ _ Hr); [done|lia]|done].
Qed.

(** ** The operations keep the invariant *)

Lemma settle_passed_spec w s stream at_ :
  settled_inv w s stream → a_last_commit s = Some at_ → settled_inv w (settle_passed at_ s) stream.
Proof.
  intros [[Hh Ho Hr Hq Ht Hf] Hcl] El. rewrite El in Ho, Hr.
  destruct (settle_loop_spec w (a_order s) (a_head s) at_ _ _ _ Hh Ho Hr Hcl) as (Hr' & Hcl' & Hle).
  split; [|exact Hcl']. split; cbn [settle_passed set_retained set_settled_txid a_order a_head a_last_commit a_retained
    a_settled_txid a_pending a_released_position a_proven_txid a_captured_txid a_forgotten]; rewrite ?El; try done.
  destruct Hq as [H1 H2 H3]. split; [done|lia|done].
Qed.

Lemma prune_settled_spec w s stream : settled_inv w s stream → settled_inv w (prune_settled s) stream.
Proof.
  intros [[Hh Ho Hr Hq Ht Hf] Hcl]. destruct (prune_spec w s Hh Ho Hr Hcl) as [Hr' Hcl']. split; [|exact Hcl']. by split.
Qed.

(** From the queue with its new commit to the end of the operation. *)
Lemma place_spec w s s' taken at_ :
  Inv w s (taken ++ a_released s) → a_last_commit s = Some at_ → place at_ s = Some s' →
  settled_inv w s' (taken ++ a_released s').
Proof.
  intros Hi El. unfold place. destruct (resolve s) as [s1|] eqn:Er; [|done]. intros [= <-].
  destruct (resolve_spec w s s1 _ Hi Er) as (Hs & (_ & _ & _ & _ & F5 & _ & _ & _ & _ & F10) & _).
  apply release_spec. assert (∀ s0, a_released (forget_generations s0) = a_released s0) as Efr.
  { intros s0. unfold forget_generations. by case_match. }
  rewrite Efr. cbn [prune_settled settle_passed set_retained set_settled_txid a_released]. rewrite F10.
  apply forget_spec, prune_settled_spec, settle_passed_spec; [done|congruence].
Qed.

Lemma commit_spec w s s' taken at_ bytes payload :
  settled_inv w s (taken ++ a_released s) → arrives w at_ → commit at_ bytes payload s = Some s' →
  settled_inv (log_more w (at_, Some payload)) s' (taken ++ a_released s').
Proof.
  intros [[Hh Ho Hr Hq Ht Hf] Hcl] Ha Hc. unfold commit in Hc. cbv zeta in Hc. refine (place_spec _ _ _ _ _ _ _ Hc); [|done].
  split; cbn [set_pending set_pending_bytes set_last_commit set_order a_order a_head a_last_commit a_retained a_settled_txid
    a_pending a_released_position a_proven_txid a_captured_txid a_forgotten a_released]; try done.
  - by apply arrive_history.
  - by apply (arrive_order w (at_, Some payload) _ _ (a_last_commit s)).
  - eapply retain_waiting; [by apply (arrive_retain w (at_, Some payload) _ (a_head s) (a_last_commit s) _ _ _ Hh Ho Ha Hr)|].
    intros p. unfold unlabeled_points. cbn. by rewrite omap_app.
  - eapply arrive_queue; [done..|]. intros h _ Hs. apply shares_app. eexists _, _. split_and!; [reflexivity|done|].
    apply shares_one. by split.
Qed.

Lemma push_dropped_spec w pending h x :
  x.2 = None → shares (holds_entry (w_captures w)) pending h →
  shares (holds_entry (w_captures w)) (push_dropped x.1 pending) (h ++ [x])
  ∧ ∀ p, p ∈ omap waiting_point (push_dropped x.1 pending) → p ∈ omap waiting_point pending ++ [x.1].
Proof.
  intros _ Hs. unfold push_dropped.
  assert (shares (holds_entry (w_captures w)) (pending ++ [EGap None (Some x.1) 0 1]) (h ++ [x])
    ∧ ∀ p, p ∈ omap waiting_point (pending ++ [EGap None (Some x.1) 0 1]) → p ∈ omap waiting_point pending ++ [x.1]) as Hnew.
  { split; [|intros p; by rewrite omap_app]. apply shares_app. eexists _, _. split_and!; [reflexivity|done|]. apply shares_one.
    split; [done|]. exists x. by split. }
  destruct (last pending) as [[|through unl u ov]|] eqn:El; [done| |done]. apply last_Some in El as [pre ->].
  apply shares_app in Hs as (h1 & h2 & -> & Hpre & He%shares_one_inv). destruct He as (Hlen & y & Hy & _).
  rewrite length_app. cbn [length]. rewrite insert_mid by lia. split.
  - rewrite <- app_assoc. apply shares_app. eexists _, _. split_and!; [reflexivity|done|]. apply shares_one.
    split; [rewrite length_app; cbn [length]; lia|]. exists x. by rewrite last_snoc.
  - intros p. rewrite !omap_app, !elem_of_app. cbn [omap list_omap waiting_point]. tauto.
Qed.

Lemma dropped_spec w s s' taken at_ :
  settled_inv w s (taken ++ a_released s) → arrives w at_ → dropped at_ s = Some s' →
  settled_inv (log_more w (at_, None)) s' (taken ++ a_released s').
Proof.
  intros [[Hh Ho Hr Hq Ht Hf] Hcl] Ha Hc. unfold dropped in Hc. cbv zeta in Hc. refine (place_spec _ _ _ _ _ _ _ Hc); [|done].
  destruct (qi_shares _ _ _ _ _ _ Hq) as (_ & h0 & _ & Hs0 & _).
  split; cbn [set_pending set_pending_bytes set_last_commit set_order a_order a_head a_last_commit a_retained a_settled_txid
    a_pending a_released_position a_proven_txid a_captured_txid a_forgotten a_released]; try done.
  - by apply arrive_history.
  - by apply (arrive_order w (at_, None) _ _ (a_last_commit s)).
  - eapply retain_waiting; [by apply (arrive_retain w (at_, None) _ (a_head s) (a_last_commit s) _ _ _ Hh Ho Ha Hr)|].
    intros p Hp. by apply (push_dropped_spec w (a_pending s) h0 (at_, None)).
  - eapply arrive_queue; [done..|]. intros h _ Hs. by apply (push_dropped_spec w (a_pending s) h (at_, None)).
Qed.

(** An unplaced commit: the code cannot read its point. *)
Lemma unplaced_frame w x o head l waiting retained settled :
  history_ok w → order_inv w o head l → arrives w x.1 → retain_inv w o l waiting retained settled →
  order_inv (log_more w x) o head l ∧ retain_inv (log_more w x) o l waiting retained settled.
Proof.
  intros Hh Ho Ha Hr. pose proof (oi_ok _ _ _ _ Ho) as Hok. split.
  - split; try apply Ho.
    + split; try apply Hok.
      * intros g Hg. rewrite log_more_points, fmap_app. apply elem_of_app; left. by eapply oo_committed_sub.
      * intros g. apply arrive_outside; [apply Hok|done].
    + pose proof (oi_last _ _ _ _ Ho) as Hl. destruct l as [a|]; [|done]. rewrite log_more_points. set_solver.
  - split; try apply Hr.
    intros p Hp. destruct (ri_waiting _ _ _ _ _ _ Hr p Hp) as (? & ? & ?). rewrite log_more_points. split_and!; [done|set_solver|done].
Qed.

Lemma unplaced_spec w s s' taken at_ bytes payload :
  settled_inv w s (taken ++ a_released s) → arrives w at_ → (∃ c, c ∈ w_captures w ∧ contains c at_) →
  unplaced bytes payload s = Some s' →
  settled_inv (log_more w (at_, Some payload)) s' (taken ++ a_released s').
Proof.
  intros [[Hh Ho Hr Hq Ht Hf] Hcl] Ha (c & Hc & Hcon). unfold unplaced. cbv zeta. set (p0 := default _ _).
  set (s1 := set_unmatched_total _ _). set (x := (at_, Some payload)).
  assert (a_pending s1 = a_pending s ++ [ECommit p0 None bytes payload]) as E1 by done.
  assert (∀ h, suffix_of_log (log_more w x) (h ++ [x]) → shares (holds_entry (w_captures w)) (a_pending s) h →
    ∃ s2 merged, drop_commit s1 (length (a_pending s)) true = Some (s2, merged) ∧ same_frame s1 s2
    ∧ shares (holds_entry (w_captures w)) (a_pending s2) (h ++ [x])
    ∧ ∀ p, p ∈ unlabeled_points s2 → p ∈ unlabeled_points s) as Hdrop.
  { intros h Hlog Hs.
    destruct (drop_commit_shares (log_more w x) s1 (a_pending s) p0 None bytes payload [] true h x [])
      as (s2 & merged & pre' & Ed & Hsame & E2 & _ & Hsh & Hw); [by apply arrive_history|done|done|done|constructor|done| |].
    { cbn. destruct (first_capture_exists (w_captures w) c at_) as (t & ? & _); [apply Hh|done..|by exists t]. }
    rewrite app_nil_r in E2. exists s2, merged. rewrite E2. split_and!; [done..|].
    unfold unlabeled_points. rewrite E2. intros p Hp. by destruct (Hw p Hp) as [|[? _]]. }
  destruct (qi_shares _ _ _ _ _ _ Hq) as (g & h & Hg & Hs & Elog & Hpos).
  destruct (Hdrop h) as (s2 & merged & Ed & Hsame & _ & Hsub); [exists g; cbn; by rewrite Elog, <- app_assoc|done|].
  assert (pred (length (a_pending s1)) = length (a_pending s)) as -> by (rewrite E1, length_app; cbn; lia).
  rewrite Ed. cbn [mbind option_bind]. intros [= <-].
  pose proof Hsame as (F1 & F2 & F3 & F4 & F5 & F6 & F7 & F8 & F9 & F10).
  destruct (unplaced_frame w x _ _ _ _ _ _ Hh Ho Ha Hr) as [Ho' Hr'].
  apply release_spec. split; [|rewrite F1, F4; intros p r span Hp; apply Hcl; by apply Hsub].
  split; rewrite ?F1, ?F2, ?F3, ?F4, ?F5, ?F6, ?F7, ?F8, ?F9, ?F10; try done.
  - by apply arrive_history.
  - eapply retain_waiting; [exact Hr'|done].
  - eapply arrive_queue; [done..|exact Hq|]. intros h' Hlog' Hs'.
    destruct (Hdrop h' Hlog' Hs') as (s3 & merged' & Ed' & _ & Hsh & _). rewrite Ed in Ed'. by injection Ed' as -> _.
Qed.

(** A capture is reported. *)
Definition captures_more w (c : Capture) : World T := mkWorld (w_log w) (w_captures w ++ [c]) (w_caught w).

Lemma cap_gens_more caps c :
  cap_gens (caps ++ [c]) = cap_gens caps ++ match span_of c with Some span => [sp_generation span] | None => [] end.
Proof. unfold cap_gens. rewrite omap_app. cbn. by destruct (span_of c). Qed.

Lemma last_txid_more caps c : last_txid (caps ++ [c]) = cap_txid c.
Proof. unfold last_txid. by rewrite last_snoc. Qed.

Lemma report_history w c :
  history_ok w → reported w c → last_txid (w_captures w) < cap_txid c → history_ok (captures_more w c).
Proof.
  intros Hh Hrep Hlt. destruct (Hrep Hlt) as [_ Hseal]. pose proof (ho_txids _ Hh) as Hok. split.
  - apply Hh.
  - cbn. split.
    + apply StronglySorted_app_2; [|apply Hok|repeat constructor]. intros d d' Hd ->%list_elem_of_singleton.
      pose proof (last_txid_max _ _ Hok Hd). unfold cap_lt. lia.
    + intros d [Hd| ->%list_elem_of_singleton]%elem_of_app; [by apply Hok|lia].
  - intros p Hp pre d post E Hs. cbn in E. destruct post as [|e post _] using rev_ind.
    + apply app_inj_tail in E as [<- <-]. apply list_elem_of_fmap in Hp as (x & -> & Hx). by apply (Hseal x Hx).
    + rewrite app_comm_cons, app_assoc in E. apply app_inj_tail in E as [E _].
      by apply (ho_sealed _ Hh p Hp pre d post).
Qed.

Lemma first_capture_less caps c p t :
  first_capture (caps ++ [c]) p t → first_capture caps p t ∨ t = cap_txid c.
Proof.
  intros (pre & d & post & E & <- & Hd & Hpre). destruct post as [|e post _] using rev_ind.
  - apply app_inj_tail in E as [_ ->]. by right.
  - left. rewrite app_comm_cons, app_assoc in E. apply app_inj_tail in E as [-> _]. by exists pre, d, post.
Qed.

Lemma report_queue w c pending stream position settled proved :
  last_txid (w_captures w) < cap_txid c → settled ≤ last_txid (w_captures w) →
  queue_inv w pending stream position settled proved →
  queue_inv (captures_more w c) pending stream position settled proved.
Proof.
  intros Hlt Hset Hq. destruct (qi_shares _ _ _ _ _ _ Hq) as (g & h & Hg & Hs & Elog & Hpos).
  split; [|apply Hq|apply Hq]. exists g, h. cbn. split_and!; [| |done|].
  - eapply shares_mono; [|exact Hg]. intros [label payload|after through u ov] k.
    + intros (p & -> & Hp). exists p. split; [done|by apply first_capture_mono].
    + intros (? & ? & Hk). split_and!; [done..|]. intros y Hy. destruct (Hk y Hy) as (t & ? & ?). exists t. split; [by apply first_capture_mono|done].
  - eapply shares_mono; [|exact Hs]. intros [at_ label bytes payload|through unl u ov] k.
    + intros [-> Hl]. split; [done|]. intros t Ht. by apply first_capture_mono, Hl.
    + intros (? & x & ? & Hb). split; [done|]. exists x. split; [done|]. destruct through as [t|]; [|done]. rewrite last_txid_more.
      destruct Hb as [Hb ?]. split; [|lia]. intros y Hy. destruct (Hb y Hy) as (t' & ? & ?). exists t'. split; [by apply first_capture_mono|done].
  - intros x t Hx [Ht| ->]%first_capture_less; [by apply (Hpos x)|]. destruct (qi_position _ _ _ _ _ _ Hq). lia.
Qed.

(** What [captured] knows of the order with the new span. *)
Definition order_with (span : option Span) (o : Order) (head : option Span) (l : option WalPoint) : Order :=
  match span with
  | Some span => order_captured (sp_generation span) (predecessor_of head span) (generation <$> l) o
  | None => o
  end.

Definition head_with (span head : option Span) : option Span := match span with Some span => Some span | None => head end.

Lemma report_order w c o head l :
  history_ok w → order_inv w o head l → order_room o → reported w c → last_txid (w_captures w) < cap_txid c →
  order_inv (captures_more w c) (order_with (span_of c) o head l) (head_with (span_of c) head) l
  ∧ o_committed (order_with (span_of c) o head l) = o_committed o
  ∧ (∀ g, g ∈ o_captured o → g ∈ o_captured (order_with (span_of c) o head l))
  ∧ ∀ span, span_of c = Some span → sp_generation span ∈ o_captured (order_with (span_of c) o head l).
Proof.
  intros Hh Ho Hroom Hrep Hlt. destruct (Hrep Hlt) as [Hspan _]. pose proof (oi_ok _ _ _ _ Ho) as Hok.
  destruct (span_of c) as [span|] eqn:Es; cbn [order_with head_with].
  2: { split_and!; [|done|done|done]. pose proof (cap_gens_more (w_captures w) c) as Eg. rewrite Es, app_nil_r in Eg.
    destruct Ho as [H1 H2 H3 H4]. split; cbn [captures_more w_captures]; rewrite ?Eg; [done| |done|done].
    destruct head as [sp|]; [|done]. destruct H2 as ((d & ? & ?) & ?). split; [|done]. exists d. split; [set_solver|done]. }
  destruct (Hspan span eq_refl) as [Hmax Hlog].
  pose proof (cap_gens_more (w_captures w) c) as Eg. rewrite Es in Eg.
  assert (order_ok (cap_gens (w_captures w) ++ [sp_generation span]) (generation <$> log_points w)
    (order_captured (sp_generation span) (predecessor_of head span) (generation <$> l) o)) as Hok'.
  { apply order_captured_ok; try done.
    - intros h (p & -> & (x & -> & Hx)%list_elem_of_fmap)%list_elem_of_fmap. by apply Hlog.
    - intros g Hg. unfold predecessor_of in Hg. pose proof (oi_head _ _ _ _ Ho) as Hhead. destruct head as [sp|]; [|done].
      cbn in Hg. destruct (_ && bool_decide _) eqn:E in Hg; [|done]. injection Hg as <-.
      apply andb_true_iff in E as [_ E%bool_decide_eq_true]. by destruct Hhead as (_ & ? & ?).
    - intros g Hg. pose proof (oi_last _ _ _ _ Ho) as Hl. destruct l as [a|]; [|done]. injection Hg as <-.
      destruct Hl as [_ Hl]. by apply last_Some_elem_of in Hl. }
  destruct (push_distinct_spec rank (o_captured o) (sp_generation span)) as (_ & _ & Hin);
    [apply Hok|intros x Hx; apply Hmax; by eapply oo_captured_sub|].
  split_and!; [| |intros g Hg|intros ? [= <-]]; rewrite ?order_captured_eq by done; cbn [o_captured o_committed]; rewrite ?Hin; [|done|by left|by right].
  split; cbn [captures_more w_captures]; rewrite ?Eg.
  - by rewrite <- order_captured_eq.
  - cbn [o_captured]. rewrite Hin. split_and!; [exists c; split; [set_solver|done]|by right|].
    intros g [Hg| ->%list_elem_of_singleton]%elem_of_app; [by apply Hmax|by left].
  - apply (oi_last _ _ _ _ Ho).
  - intros g Hg Hn. cbn [o_captured] in Hn. rewrite Hin in Hn. apply elem_of_app in Hg as [Hg| ->%list_elem_of_singleton]; [|tauto].
    apply (oi_forgot _ _ _ _ Ho); [done|tauto].
Qed.

Lemma report_retain w c o o' l waiting retained settled :
  history_ok w → last_txid (w_captures w) < cap_txid c → o_committed o' = o_committed o →
  (∀ g, g ∈ o_captured o → g ∈ o_captured o') → (∀ span, span_of c = Some span → sp_generation span ∈ o_captured o') →
  retain_inv w o l waiting retained settled →
  retain_inv (captures_more w c) o' l waiting (retained ++ [ret c]) settled.
Proof.
  intros Hh Hlt Ec Hsub Hnew Hr. destruct (ri_bounds _ _ _ _ _ _ Hr). split.
  - rewrite Ec. apply Hr.
  - cbn. rewrite fmap_app. apply sublist_app; [apply Hr|done].
  - intros r span [Hin| ->%list_elem_of_singleton]%elem_of_app Es; [|by apply Hnew]. apply Hsub. by eapply ri_generation.
  - cbn. intros d Hd Hn. apply elem_of_app in Hd as [Hd| ->%list_elem_of_singleton]; [|set_solver].
    apply (ri_removed _ _ _ _ _ _ Hr d Hd). set_solver.
  - cbn. intros d [Hd| ->%list_elem_of_singleton]%elem_of_app Hle; [by apply (ri_settled _ _ _ _ _ _ Hr)|lia].
  - cbn [captures_more w_captures w_caught]. rewrite last_txid_more. lia.
Qed.

Lemma cap_loop_short retained forgotten :
  (length retained ≤ MAX_RETAINED_CAPTURES)%nat → cap_loop retained forgotten = (retained, forgotten).
Proof.
  intros Hle. destruct retained as [|r rest]; cbn [cap_loop]; [done|].
  by rewrite (proj2 (Nat.ltb_ge _ _) Hle).
Qed.

Lemma settle_loop_length o at_ settled retained : (length (settle_loop o at_ settled retained).2 ≤ length retained)%nat.
Proof.
  revert settled. induction retained as [|r rest IH]; intros settled; cbn [settle_loop]; [done|].
  destruct (passed o at_ (rt_span r)); [|done]. etrans; [apply IH|]. cbn [length]. lia.
Qed.

Lemma cap_retained_short s : (length (a_retained s) ≤ MAX_RETAINED_CAPTURES)%nat → cap_retained s = s.
Proof. intros H. unfold cap_retained. rewrite cap_loop_short by done. by destruct s. Qed.

(** The state as [captured] hands it to [resolve]. *)
Definition reported_state (c : Capture) s : Attribution T :=
  let s := set_captured_txid (cap_txid c) s in
  let s := match span_of c with Some span => observe_span span s | None => s end in
  set_retained (a_retained s ++ [mkRetained (cap_txid c) (span_of c)]) s.

Lemma reported_inv w s c stream :
  Inv w s stream → roomy s (InCaptured c) → reported w c → last_txid (w_captures w) < cap_txid c →
  Inv (captures_more w c) (reported_state c s) stream.
Proof.
  intros [Hh Ho Hr Hq Ht Hf] [_ Hroom] Hrep Hlt.
  destruct (report_order w c _ _ _ Hh Ho Hroom Hrep Hlt) as (Ho' & Ec & Hsub & Hnew).
  assert (a_order (reported_state c s) = order_with (span_of c) (a_order s) (a_head s) (a_last_commit s)
    ∧ a_head (reported_state c s) = head_with (span_of c) (a_head s) ∧ a_last_commit (reported_state c s) = a_last_commit s
    ∧ a_retained (reported_state c s) = a_retained s ++ [ret c] ∧ a_pending (reported_state c s) = a_pending s
    ∧ a_settled_txid (reported_state c s) = a_settled_txid s ∧ a_released_position (reported_state c s) = a_released_position s
    ∧ a_proven_txid (reported_state c s) = a_proven_txid s ∧ a_captured_txid (reported_state c s) = cap_txid c
    ∧ a_forgotten (reported_state c s) = a_forgotten s) as (E1 & E2 & E3 & E4 & E5 & E6 & E7 & E8 & E9 & E10)
    by (unfold reported_state, order_with, head_with, ret; by destruct (span_of c)).
  split; unfold unlabeled_points in *; rewrite ?E1, ?E2, ?E3, ?E4, ?E5, ?E6, ?E7, ?E8, ?E9, ?E10.
  - by apply report_history.
  - done.
  - by eapply report_retain.
  - apply report_queue; [done|apply Hr|done].
  - cbn [captures_more w_captures]. by rewrite last_txid_more.
  - done.
Qed.

Lemma captured_spec w s s' taken c :
  settled_inv w s (taken ++ a_released s) → roomy s (InCaptured c) → reported w c → captured c s = Some s' →
  settled_inv (observe (InCaptured c) w) s' (taken ++ a_released s').
Proof.
  intros [Hi Hcl] Hroom Hrep Hc. unfold captured in Hc. cbn [observe]. rewrite (iv_txid _ _ _ Hi) in Hc.
  destruct (N.leb_spec (cap_txid c) (last_txid (w_captures w))) as [Hle|Hlt]; [injection Hc as <-; by split|].
  cbv zeta in Hc. fold (reported_state c s) in Hc. fold (captures_more w c).
  destruct (resolve (reported_state c s)) as [s1|] eqn:Er; [|done]. cbn [mbind option_bind] in Hc. injection Hc as <-.
  destruct (resolve_spec _ _ s1 (taken ++ a_released s) (reported_inv _ _ _ _ Hi Hroom Hrep Hlt) Er) as (Hs & Hsame & _).
  pose proof Hsame as (F1 & _ & _ & _ & _ & _ & _ & _ & _ & F10).
  assert (a_released (reported_state c s) = a_released s) as Erel by (unfold reported_state; by destruct (span_of c)).
  assert (length (a_retained (reported_state c s)) ≤ MAX_RETAINED_CAPTURES)%nat as Hlen.
  { destruct Hroom as [Hroom _]. unfold reported_state. destruct (span_of c); cbn; rewrite length_app; cbn [length]; lia. }
  set (s2 := match a_last_commit s1 with Some at_ => settle_passed at_ s1 | None => s1 end).
  assert (settled_inv (captures_more w c) s2 (taken ++ a_released s)) as Hs2.
  { unfold s2. destruct (a_last_commit s1) as [at_|] eqn:El; [by apply settle_passed_spec|done]. }
  assert (a_released s2 = a_released s ∧ (length (a_retained s2) ≤ length (a_retained s1))%nat) as [E2 Hlen2].
  { unfold s2. destruct (a_last_commit s1); cbn; (split; [congruence|]); [apply settle_loop_length|done]. }
  rewrite cap_retained_short.
  - apply release_spec. cbn [prune_settled set_retained a_released]. rewrite E2. by apply prune_settled_spec.
  - cbn [prune_settled set_retained a_retained]. pose proof (length_filter (λ kept, needed s2 kept) (a_retained s2)).
    rewrite F1 in Hlen2. lia.
Qed.

(** A safe point. *)
Lemma caught_up_spec w s taken :
  settled_inv w s (taken ++ a_released s) →
  settled_inv (observe InCaughtUp w) (caught_up s) (taken ++ a_released (caught_up s)).
Proof.
  intros [[Hh Ho Hr Hq Ht Hf] Hcl]. unfold caught_up. apply release_spec. cbn [prune_settled set_retained set_settled_txid a_released].
  apply prune_settled_spec. split; [|done]. destruct (ri_bounds _ _ _ _ _ _ Hr).
  split; cbn [set_settled_txid a_order a_head a_last_commit a_retained a_settled_txid a_pending a_released_position a_proven_txid
    a_captured_txid a_forgotten]; try done.
  - by split; try apply Hh.
  - by split; try apply Ho.
  - rewrite Ht. split; try apply Hr; cbn.
    + intros c Hc Hn. destruct (ri_removed _ _ _ _ _ _ Hr c Hc Hn) as [? [Hle|?]]; (split; [done|]); [|by right].
      left. cbn. lia.
    + intros c Hc Hle. by left.
    + done.
  - rewrite Ht. destruct (qi_position _ _ _ _ _ _ Hq). split; [apply Hq|lia|apply Hq].
Qed.

Lemma proven_spec w s taken txid :
  settled_inv w s (taken ++ a_released s) →
  settled_inv w (proven txid s) (taken ++ a_released (proven txid s))
  ∧ match a_pending (proven txid s) with
    | ECommit _ (Some t) _ _ :: _ | EGap (Some t) _ _ _ :: _ => N.max (a_proven_txid s) txid < t
    | _ => True
    end.
Proof.
  intros [[Hh Ho Hr Hq Ht Hf] Hcl]. unfold proven.
  apply (release_spec w (set_proven_txid (N.max (a_proven_txid s) txid) s)). split; [|done]. split; try done.
  cbn [set_proven_txid a_pending a_released a_released_position a_settled_txid a_proven_txid].
  destruct (qi_position _ _ _ _ _ _ Hq). split; [apply Hq|lia|].
  intros r Hin. pose proof (qi_proved _ _ _ _ _ _ Hq r Hin). destruct r; lia.
Qed.

(** The queue sheds. *)
Lemma shed_loop_spec w fuel limit s pre post h1 h2 s' :
  history_ok w → a_captured_txid s = last_txid (w_captures w) → a_pending s = pre ++ post →
  shares (holds_entry (w_captures w)) pre h1 → shares (holds_entry (w_captures w)) post h2 → suffix_of_log w (h1 ++ h2) →
  shed_loop fuel (length pre) limit s = Some s' →
  same_frame s s' ∧ shares (holds_entry (w_captures w)) (a_pending s') (h1 ++ h2)
  ∧ ∀ p, p ∈ unlabeled_points s' → p ∈ unlabeled_points s.
Proof.
  intros Hh. revert s pre post h1 h2. induction fuel as [|fuel IH]; intros s pre post h1 h2 Ht E Hpre Hpost Hlog Hres.
  all: assert (same_frame s s ∧ shares (holds_entry (w_captures w)) (a_pending s) (h1 ++ h2)
    ∧ ∀ p, p ∈ unlabeled_points s → p ∈ unlabeled_points s) as Hstop
    by (split_and!; [repeat split|rewrite E; apply shares_app; by exists h1, h2|done]).
  all: cbn [shed_loop] in Hres; destruct (a_pending_bytes s <=? limit); [by simplify_eq|]; rewrite E in Hres.
  all: destruct post as [|e post]; [rewrite app_nil_r, lookup_ge_None_2 in Hres by done; by simplify_eq|].
  all: rewrite list_lookup_middle in Hres by done.
  { done. }
  inversion Hpost as [|? ? he hs He Hs]. subst h2. rewrite app_assoc in *.
  destruct e as [at_ label bytes payload|through unl u ov].
  - destruct He as [-> Hl].
    destruct (drop_commit_shares w s pre at_ label bytes payload post false h1 (at_, Some payload) hs)
      as (s1 & merged & pre' & Ed & Hsame & E1 & Hlen & Hsh & Hw); [done..|by rewrite <- app_assoc in Hlog|done|].
    rewrite Ed in Hres. cbn [mbind option_bind] in Hres. pose proof Hsame as (_ & _ & _ & _ & _ & F6 & _).
    destruct (IH s1 pre' post (h1 ++ [(at_, Some payload)]) hs) as (Hs1 & Hsh1 & Hun); [congruence|done..|by rewrite Hlen|].
    split_and!; [by eapply same_frame_trans|done|]. intros p Hp. apply Hun in Hp. unfold unlabeled_points in *.
    rewrite E1, omap_app in Hp. rewrite E, omap_app. apply elem_of_app in Hp as [Hp|Hp].
    + destruct (Hw p Hp) as [|(_ & -> & ->)]; [by apply elem_of_app; left|]. apply elem_of_app; right. left.
    + apply elem_of_app; right. cbn [omap list_omap]. destruct (waiting_point _); [by right|done].
  - destruct (IH s (pre ++ [EGap through unl u ov]) post (h1 ++ he) hs) as (Hs1 & Hsh1 & Hun); try done.
    + by rewrite E, <- app_assoc.
    + apply shares_app. eexists _, _. split_and!; [reflexivity|done|by apply shares_one].
    + by rewrite length_app, Nat.add_1_r.
Qed.

Lemma shed_to_spec w s s' taken limit :
  settled_inv w s (taken ++ a_released s) → shed_to limit s = Some s' → settled_inv w s' (taken ++ a_released s').
Proof.
  intros [[Hh Ho Hr Hq Ht Hf] Hcl] Hs. unfold shed_to in Hs. apply fmap_Some in Hs as (s1 & Es & ->).
  destruct (qi_shares _ _ _ _ _ _ Hq) as (g & h & Hg & Hsh & Elog & Hpos).
  destruct (shed_loop_spec w (length (a_pending s)) limit s [] (a_pending s) [] h s1) as (Hsame & Hsh1 & Hun); [done..|constructor|done|by exists g|done|].
  pose proof Hsame as (F1 & F2 & F3 & F4 & F5 & F6 & F7 & F8 & F9 & F10).
  apply release_spec. split; [|rewrite F1, F4; intros p r span Hp; apply Hcl; by apply Hun].
  split; rewrite ?F1, ?F2, ?F3, ?F4, ?F5, ?F6, ?F7, ?F8, ?F9, ?F10; try done.
  - by eapply retain_waiting.
  - split; [|apply Hq|apply Hq]. by exists g, h.
Qed.

Lemma step_inv w s taken i s' more :
  settled_inv w s (taken ++ a_released s) → allowed w i → roomy s i → step i s = Some (s', more) →
  settled_inv (observe i w) s' ((taken ++ more) ++ a_released s').
Proof.
  intros Hi Ha Hroom Hstep.
  destruct i as [at_ bytes payload|at_|at_ bytes payload|c| |txid|limit|]; cbn [step allowed] in *;
    try (apply fmap_Some in Hstep as (s1 & Es & [= -> ->])); try (injection Hstep as <- <-); rewrite ?app_nil_r.
  - by eapply commit_spec.
  - by eapply dropped_spec.
  - destruct Ha. by eapply unplaced_spec.
  - by eapply captured_spec.
  - by apply caught_up_spec.
  - by apply proven_spec.
  - by eapply shed_to_spec.
  - cbn [observe]. destruct Hi as [[Hh Ho Hr Hq Ht Hf] Hcl]. split; [|done]. by split.
Qed.

Lemma runs_inv w s out : runs w s out → settled_inv w s (out ++ a_released s).
Proof.
  induction 1 as [|w s out i s' more Hrun IH Ha Hroom Hstep]; [|by eapply step_inv].
  split; [|intros p r span []%elem_of_nil]. split; cbn; try done.
  - split; cbn; [constructor|split; [constructor|set_solver]|set_solver].
  - split; cbn; [|done|done|set_solver]. split; cbn; try constructor; try set_solver.
  - split; cbn; try set_solver; lia.
  - split; cbn; [|lia|set_solver]. exists [], []. split_and!; [constructor|constructor|done|set_solver].
Qed.

(** ** A capture settles what it reaches *)

(** A point at or before the end of a span. *)
Definition reaches (span : Span) (p : WalPoint) : Prop :=
  (generation p = sp_generation span ∧ frames p ≤ sp_through span) ∨ gen_lt (generation p) (sp_generation span).

Lemma reported_behind w s c span stream p :
  Inv w s stream → Inv (captures_more w c) (reported_state c s) stream → order_room (a_order s) →
  span_of c = Some span → p ∈ unlabeled_points (reported_state c s) → reaches span p →
  behind (a_order (reported_state c s)) p (a_head (reported_state c s)) = true.
Proof.
  intros Hi Hi' Hroom Es Hp Hreach. destruct (ri_waiting _ _ _ _ _ _ (iv_retain _ _ _ Hi') p Hp) as (Hg & _ & at_ & El & Hle).
  pose proof (oi_ok _ _ _ _ (iv_order _ _ _ Hi')) as Hok. pose proof (oi_last _ _ _ _ (iv_order _ _ _ Hi')) as Hl.
  rewrite El in Hl. destruct Hl as [_ Hlast].
  unfold reported_state in *. rewrite Es in *. cbn [observe_span set_head set_order set_captured_txid set_retained a_order a_head a_last_commit] in *.
  cbn [behind is_some_and]. apply orb_true_iff. destruct Hreach as [[Eg Hf]|Hlt].
  - left. apply andb_true_iff. split; [by apply bool_decide_eq_true|by apply N.leb_le].
  - right. eapply earlier_captured; [apply _|exact Hok|exact Hg|by apply last_Some_elem_of in Hlast| |intros E; rewrite E in Hlt; unfold ExportOrder.gen_lt in Hlt; lia|].
    + destruct Hle as [->|[?|[? _]]]; [by left|by right|by left].
    + rewrite El, order_captured_eq by done. cbn [o_before fmap option_fmap option_map].
      destruct (decide (generation at_ = sp_generation span)); [by left|right]. case_decide; [done|set_solver].
Qed.

(** Nothing the capture reaches waits. *)
Lemma captured_no_wait w s s' taken c span :
  settled_inv w s (taken ++ a_released s) → roomy s (InCaptured c) → reported w c → last_txid (w_captures w) < cap_txid c →
  span_of c = Some span → (∀ p, p ∈ log_points w → reaches span p) → captured c s = Some s' → unlabeled_points s' = [].
Proof.
  intros [Hi Hcl] Hroom Hrep Hlt Es Hall Hc. unfold captured in Hc. rewrite (iv_txid _ _ _ Hi) in Hc.
  destruct (N.leb_spec (cap_txid c) (last_txid (w_captures w))); [lia|]. cbv zeta in Hc. fold (reported_state c s) in Hc.
  destruct (resolve (reported_state c s)) as [s1|] eqn:Er; [|done]. cbn [mbind option_bind] in Hc. injection Hc as <-.
  pose proof (reported_inv _ _ _ _ Hi Hroom Hrep Hlt) as Hi'.
  destruct (resolve_spec _ _ s1 (taken ++ a_released s) Hi' Er) as ([Hi1 _] & Hsame & Hwait).
  assert (unlabeled_points s1 = []) as E1.
  { destruct (unlabeled_points s1) as [|p ps] eqn:Eu; [done|]. exfalso. destruct (Hwait p ltac:(left)) as [Hp0 Hv].
    assert (p ∈ unlabeled_points s1) as Hp by (rewrite Eu; left).
    destruct (ri_waiting _ _ _ _ _ _ (iv_retain _ _ _ Hi1) p Hp) as (_ & Hlog & _).
    pose proof (verdict_spec _ s1 _ p (iv_history _ _ _ Hi1) (iv_order _ _ _ Hi1) (iv_forgotten _ _ _ Hi1) (iv_retain _ _ _ Hi1) Hp) as Hspec.
    rewrite Hv in Hspec. destruct Hspec as [_ Hb]. pose proof Hsame as (_ & F2 & _ & F4 & _). rewrite F2, F4 in Hb.
    assert (behind (a_order (reported_state c s)) p (a_head (reported_state c s)) = true); [|congruence].
    eapply reported_behind; [exact Hi|exact Hi'|apply Hroom|done|done|by apply Hall]. }
  rewrite release_waiting. by destruct (a_last_commit s1).
Qed.

(** An entry that waits for nothing is bounded by the last capture. *)
Lemma front_covered w s stream proved :
  Inv w s stream → unlabeled_points s = [] → last_txid (w_captures w) ≤ proved →
  match a_pending s with
  | ECommit _ (Some t) _ _ :: _ | EGap (Some t) _ _ _ :: _ => proved < t
  | _ => True
  end → a_pending s = [].
Proof.
  intros Hi Hun Hle Hfront. destruct (qi_shares _ _ _ _ _ _ (iv_queue _ _ _ Hi)) as (g & h & _ & Hs & _).
  pose proof (ho_txids _ (iv_history _ _ _ Hi)) as Hok. unfold unlabeled_points in Hun.
  destruct Hs as [|e es h hs He Hs]; [done|]. exfalso. destruct e as [at_ [t|] size payload|[t|] unl u ov]; [| done| |].
  - destruct He as [_ Hl]. pose proof (first_capture_le _ _ _ Hok (Hl t eq_refl)). lia.
  - destruct He as (_ & x & _ & _ & ?). lia.
  - destruct He as (_ & x & _ & ->). done.
Qed.

Lemma caught_up_settles w s stream :
  settled_inv w s stream → unlabeled_points s = [] →
  a_retained (caught_up s) = [] ∧ a_settled_txid (caught_up s) = last_txid (w_captures w).
Proof.
  intros [Hi _] Hun. unfold caught_up.
  destruct (release_frame (prune_settled (set_settled_txid (a_captured_txid s) s))) as (-> & -> & _).
  cbn [prune_settled set_retained set_settled_txid a_retained a_settled_txid]. split; [|apply Hi].
  destruct (filter _ _) as [|r rs] eqn:E; [done|]. exfalso.
  assert (r ∈ filter (λ kept, needed (set_settled_txid (a_captured_txid s) s) kept) (a_retained s)) as [Hn Hin]%list_elem_of_filter
    by (rewrite E; left).
  destruct (retained_capture _ _ _ _ _ _ r (iv_retain _ _ _ Hi) Hin) as (c & Hc & ->).
  pose proof (last_txid_max _ _ (ho_txids _ (iv_history _ _ _ Hi)) Hc) as Hle.
  apply Is_true_true, orb_true_iff in Hn as [Hlt%N.ltb_lt|Hn]; cbn [ret rt_txid rt_span set_settled_txid a_settled_txid] in *.
  - rewrite (iv_txid _ _ _ Hi) in Hlt. lia.
  - destruct (span_of c) as [span|]; [|done]. cbn [is_some_and] in Hn. apply andb_true_iff in Hn as [_ Hn].
    change (unlabeled_points (set_settled_txid (a_captured_txid s) s)) with (unlabeled_points s) in Hn. by rewrite Hun in Hn.
Qed.

(** ** The properties *)



(** C31: nothing is held back: once a capture reaches every commit that arrived,
    the cell is caught up and a proof covers the capture, the queue is empty
    and the released position is the capture's TXID. *)
Theorem capture_releases w s out c span t :
  runs w s out → roomy s (InCaptured c) → reported w c → last_txid (w_captures w) < cap_txid c → span_of c = Some span →
  (∀ x, x ∈ w_log w → reaches span x.1) → cap_txid c ≤ t →
  ∃ s', captured c s = Some s' ∧ a_pending (proven t (caught_up s')) = []
    ∧ a_released_position (proven t (caught_up s')) = cap_txid c.
Proof.
  intros Hi%runs_inv Hroom Hrep Hlt Es Hall Ht.
  destruct (step_total (InCaptured c) s) as [[s' more] Hstep]. cbn [step] in Hstep. apply fmap_Some in Hstep as (s1 & Ec & _).
  exists s1. split; [done|].
  assert (unlabeled_points s1 = []) as Hun.
  { eapply captured_no_wait; [done..| |done]. intros p (x & -> & Hx)%list_elem_of_fmap. by apply Hall. }
  pose proof (captured_spec _ _ _ _ _ Hi Hroom Hrep Ec) as H1. cbn [observe] in H1. rewrite (proj2 (N.leb_gt _ _) Hlt) in H1.
  fold (captures_more w c) in H1. pose proof (caught_up_spec _ _ _ H1) as H2. pose proof (proven_spec _ _ _ t H2) as [H3 H4].
  assert (last_txid (w_captures (captures_more w c)) = cap_txid c) as Elast by apply last_txid_more.
  assert (last_txid (w_captures (observe InCaughtUp (captures_more w c))) = cap_txid c) as Elast' by apply last_txid_more.
  set (s2 := caught_up s1) in *. set (s3 := proven t s2) in *.
  assert (unlabeled_points s2 = []) as Hun2 by (unfold s2, caught_up; by rewrite release_waiting).
  assert (unlabeled_points s3 = []) as Hun3 by (unfold s3, proven; by rewrite release_waiting).
  destruct (caught_up_settles _ _ _ H1 Hun) as [Er2 Es2]. fold s2 in Er2, Es2. rewrite Elast in Es2.
  assert (a_pending s3 = []) as Ep3.
  { eapply (front_covered _ _ _ (N.max (a_proven_txid s2) t)); [apply H3|done|rewrite Elast'; lia|done]. }
  split; [done|]. unfold s3, proven in *. destruct (release_frame (set_proven_txid (N.max (a_proven_txid s2) t) s2)) as (_ & _ & _ & ->).
  rewrite Ep3. cbn [reach set_proven_txid a_settled_txid a_released_position a_retained a_proven_txid]. rewrite Er2, Es2.
  destruct (qi_position _ _ _ _ _ _ (iv_queue _ _ _ (proj1 H2))) as [Hpos _]. fold s2 in Hpos. rewrite Es2 in Hpos. lia.
Qed.
End Facts.

(** ** A residency *)

Definition sample_rank (g : WalGeneration) : N := N.pos (encode (salt1 g, salt2 g)).

#[local] Instance sample_rank_inj : Inj (=) (=) sample_rank.
Proof. intros [a b] [c d] [= E]. apply (inj encode) in E. by injection E as -> ->. Qed.

Definition sample_generation : WalGeneration := mkGeneration 1 1.
Definition sample_at (n : N) : WalPoint := mkPoint sample_generation n.

(** Frames [(after, through]] of the generation, and an image through a frame. *)
Definition sample_partial (txid after_ through : N) : Capture :=
  mkCapture txid 4096 false (Some (mkCapturedWal sample_generation (32 + after_ * 4120) ((through - after_) * 4120))).
Definition sample_image (txid through : N) : Capture :=
  mkCapture txid 4096 true (Some (mkCapturedWal sample_generation 32 (through * 4120))).

(** A commit, its capture, a commit behind it, and the proof. *)
Definition sample_inputs : list (Input N) :=
  [InCommit (sample_at 2) 10 7; InCaptured (sample_partial 1 0 2); InCommit (sample_at 3) 10 8; InProven 1].

Definition sample_world : World N := foldl (λ w i, observe i w) (mkWorld [] [] 0) sample_inputs.
Definition sample_state : Attribution N :=
  default attribution_new (foldl (λ s i, s ← s; fst <$> step i s) (Some attribution_new) sample_inputs).

Lemma sample_span txid a b :
  span_of (sample_partial txid a b) =
    Some (mkSpan sample_generation (frames_through (32 + a * 4120) 4096)
            (frames_through (sat_add (32 + a * 4120) ((b - a) * 4120)) 4096) false).
Proof. done. Qed.

Lemma sample_first : arrives sample_rank (mkWorld (T := N) [] [] 0) (sample_at 2).
Proof.
  split_and!; cbn; [done| |by intros c []%elem_of_nil|].
  - right. left. by intros h []%elem_of_nil.
  - intros pre c post E. by destruct pre.
Qed.

Lemma sample_second : reported sample_rank (mkWorld [(sample_at 2, Some 7)] [] 0) (sample_partial 1 0 2).
Proof.
  intros _. split.
  - intros span [= <-]. split; [by intros g []%elem_of_nil|]. intros x ->%list_elem_of_singleton. left. vm_compute. left.
  - intros x ->%list_elem_of_singleton (span & [= <-] & _ & [[_ H]|H]); vm_compute in H; [by destruct (H eq_refl)|done].
Qed.

Lemma sample_third : arrives sample_rank (mkWorld [(sample_at 2, Some 7)] [sample_partial 1 0 2] 0) (sample_at 3).
Proof.
  split_and!; cbn.
  - intros q [= <-]. right. by vm_compute.
  - left. vm_compute. left.
  - intros c ->%list_elem_of_singleton Hle. vm_compute in Hle. by destruct (Hle eq_refl).
  - intros pre c post E Hs. destruct pre as [|d pre]; [|by destruct pre]. injection E as <- <-.
    destruct Hs as (span & [= <-] & _ & [[_ H]|H]); vm_compute in H; [by destruct (H eq_refl)|done].
Qed.

Lemma sample_runs : runs sample_rank sample_world sample_state [].
Proof.
  pose proof (runs_new sample_rank (T := N)) as H0.
  pose proof (runs_step _ _ _ _ (InCommit (sample_at 2) 10 7) _ _ H0 sample_first I ltac:(vm_compute; reflexivity)) as H1.
  pose proof (runs_step _ _ _ _ (InCaptured (sample_partial 1 0 2)) _ _ H1 sample_second
    ltac:(split; [|split_and!]; vm_compute; lia) ltac:(vm_compute; reflexivity)) as H2.
  pose proof (runs_step _ _ _ _ (InCommit (sample_at 3) 10 8) _ _ H2 sample_third I ltac:(vm_compute; reflexivity)) as H3.
  exact (runs_step _ _ _ _ (InProven 1) _ _ H3 I I ltac:(vm_compute; reflexivity)).
Qed.



Lemma sample_fourth : reported sample_rank sample_world (sample_partial 2 2 3).
Proof.
  intros _. split.
  - intros span [= <-]. split; [by intros g ->%list_elem_of_singleton; left|].
    intros x Hx. left. assert (x = (sample_at 2, Some 7) ∨ x = (sample_at 3, Some 8)) as [->| ->]
      by (vm_compute in Hx |- *; set_solver); vm_compute; left.
  - intros x Hx (span & [= <-] & _ & H).
    assert (x = (sample_at 2, Some 7) ∨ x = (sample_at 3, Some 8)) as [->| ->] by (vm_compute in Hx |- *; set_solver).
    + exists (sample_partial 1 0 2). split; [vm_compute; left|]. eexists. split; [reflexivity|].
      left. split_and!; [done|by vm_compute|right; by vm_compute].
    + destruct H as [[_ H]|H]; vm_compute in H; [by destruct (H eq_refl)|done].
Qed.

Lemma capture_releases_witness :
  ∃ s', captured (sample_partial 2 2 3) sample_state = Some s' ∧ a_pending (proven 2 (caught_up s')) = []
    ∧ a_released_position (proven 2 (caught_up s')) = 2.
Proof.
  apply (capture_releases sample_rank sample_world sample_state [] (sample_partial 2 2 3)
    (mkSpan sample_generation 2 3 false) 2 sample_runs).
  - split; [|split_and!]; vm_compute; lia.
  - exact sample_fourth.
  - by vm_compute.
  - by vm_compute.
  - intros x Hx. left. assert (x = (sample_at 2, Some 7) ∨ x = (sample_at 3, Some 8)) as [->| ->]
      by (vm_compute in Hx |- *; set_solver); by vm_compute.
  - by vm_compute.
Defined.

(** ** The retention cap

    1025 captures without a commit or a safe point between them: the first, a
    partial one, holds the commit that arrives then; it is forgotten, and the
    image behind it takes the commit under its own TXID. *)
Definition capped_captures : list Capture :=
  sample_partial 1 0 2 :: sample_image 2 2
  :: map (λ k, sample_partial (N.of_nat k + 3) (N.of_nat k + 2) (N.of_nat k + 3)) (seq 0 (N.to_nat 1023)).

Lemma forgotten_capture_labels_late :
  length capped_captures = S MAX_RETAINED_CAPTURES
  ∧ match (s ← foldl (λ s c, s ← s; captured c s) (Some attribution_new) capped_captures; commit (sample_at 2) 10 7 s) with
    | Some s => a_released (proven 2 s) = [RelCommit 2 7]
    | None => False
    end
  ∧ contains sample_rank (sample_partial 1 0 2) (sample_at 2).
Proof.
  split_and!; [by vm_compute|by vm_compute|]. eexists. split; [reflexivity|]. left. split_and!; [done|by vm_compute|right; by vm_compute].
Qed.
