(* ===== verification/Types.v ===== *)
(** * The vocabulary of the decision core

    Models [crates/logic/types.rs] and the data half of [crates/logic/lib.rs]
    that it shares: the records the core reads and writes, the events it is
    told ([Ev...]), and the effects it answers with ([Fx...]).  A cell id, a
    node id, an address, a generation name and an etag are strings; request,
    socket, operation and epoch numbers are [u64] values. *)

From S2P Require Import Prelude Pressure LogTier Wake.

(** [ActivitySnapshot]. *)
Record ActivitySnapshot := mkActivity {
  acquired : N;
  proxied : N;
  expired_owner_leases : N;
  restored : N;
  advanced_epochs : N;
  handed_off : N;
  handoff_failed : N;
  rebalanced : N;
  rebalance_failed : N;
  remote_route_refreshes : N;
}.

Definition ActivitySnapshot_default : ActivitySnapshot := mkActivity 0 0 0 0 0 0 0 0 0 0.

(** [PresenceCell] and [PresenceSnapshot]. *)
Record PresenceCell := mkPresenceCell {
  pc_id : string;
  pc_epoch : N;
}.

Record PresenceSnapshot := mkPresenceSnapshot {
  ps_serving : bool;
  ps_cells : list PresenceCell;
  ps_activity : ActivitySnapshot;
}.

Inductive OwnershipOnEvict := OnEvictRelease | OnEvictSticky.

Record Config := mkConfig {
  max_resident : N;
  max_activations : N;
  max_evictions : N;
  max_releases : N;
  max_outbound_websockets : N;
  ownership_on_evict : OwnershipOnEvict;
  require_node_lease : bool;
  cfg_peer_protocol : N;
  operation_deadline_ms : option N;
  owner_log_recovery_backoff_ms : N;
  cfg_owner_log_recovery_attempts : N;
  alarm_resident_ms : N;
  idle_evict_ms : option N;
  cfg_pressure : PressureConfig;
}.

Record OwnerRecord := mkOwnerRecord {
  or_node : option string;
  or_epoch : N;
  or_etag : string;
}.

Record NodeLeaseRecord := mkNodeLeaseRecord {
  nl_node : string;
  nl_addr : string;
  nl_expires_ms : N;
  nl_peer_protocol : N;
  nl_generation : string;
  nl_log_state : option LogState;
  nl_etag : string;
}.

Record CapacityPeer := mkCapacityPeer {
  cp_node : string;
  cp_addr : string;
  cp_expires_ms : N;
  cp_peer_protocol : N;
  cp_sampled_ms : N;
  cp_owned_cells : option N;
  cp_placement_weight : option N;
  cp_bucket_format : option N;
  cp_resident_cells : N;
  cp_host_websockets : N;
  cp_rss_bytes : N;
  cp_in_use_bytes : option N;
  cp_pressured : bool;
  cp_memory_headroom : option bool;
  cp_restoring : N;
  cp_paced_handoff : bool;
  cp_rebalance_paused : bool;
  cp_draining : bool;
}.

(** [CapacityPeer::reports_adoption_capacity]. *)
Definition reports_adoption_capacity (p : CapacityPeer) : bool :=
  negb (cp_pressured p) && bool_decide (cp_memory_headroom p ≠ Some false).

Record AdoptedCell := mkAdoptedCell {
  ac_node : string;
  ac_addr : string;
  ac_epoch : N;
  ac_peer_protocol : N;
}.

Record NodeLeaseSpec := mkNodeLeaseSpec {
  ls_addr : string;
  ls_peer_protocol : N;
  ls_generation : string;
  ls_resume_generation : option string;
  ls_ttl_ms : N;
}.

Inductive CasGuard := Absent | Match (etag : string).

Inductive HaltReason := NodeLeaseExpired | NodeLeaseMissing | NodeLeaseMismatch.

Inductive CasOutcome := Applied | Rejected.

Record RestoredAlarm := mkRestoredAlarm {
  ra_at_ms : Z;
  ra_covered : bool;
}.

Record RestoreOutcome := mkRestoreOutcome {
  ro_restored : bool;
  ro_alarm : option RestoredAlarm;
}.

Inductive LeaseCasOutcome := LeaseApplied (etag : string) | LeaseRejected.

Inductive Timer :=
| TNodeLeaseRenew (generation : N)
| TNodeLeaseFence (generation : N)
| TCellAlarm (cell : string) (generation : N)
| TOperationDeadline (op : N)
| TQueuedActivation (cell : string) (generation : N)
| TOwnerLogRecoveryRetry (cell : string) (generation : N).

Inductive Channel :=
| Response | Fetch | WsHibernatable | WsSelf | Service
| CellRpc | R2 | Tcp | Queue | Sync.

Inductive ProofSource := Fleet | Bucket.

Inductive Failure := Definite | Ambiguous.

Inductive WebSocketKind := Hibernatable | Regular | Outbound.

Inductive WakeHintScope := ScopeOwned | ScopeFleet.

(** [LocalCell]. *)
Record LocalCell := mkLocalCell {
  lc_id : string;
  lc_epoch : N;
  lc_live : bool;
}.

#[global] Instance OwnershipOnEvict_eq_dec : EqDecision OwnershipOnEvict.
Proof. solve_decision. Defined.
#[global] Instance OwnerRecord_eq_dec : EqDecision OwnerRecord.
Proof. solve_decision. Defined.
#[global] Instance NodeLeaseRecord_eq_dec : EqDecision NodeLeaseRecord.
Proof. solve_decision. Defined.
#[global] Instance CasGuard_eq_dec : EqDecision CasGuard.
Proof. solve_decision. Defined.
#[global] Instance Channel_eq_dec : EqDecision Channel.
Proof. solve_decision. Defined.
#[global] Instance ProofSource_eq_dec : EqDecision ProofSource.
Proof. solve_decision. Defined.
#[global] Instance Failure_eq_dec : EqDecision Failure.
Proof. solve_decision. Defined.
#[global] Instance WebSocketKind_eq_dec : EqDecision WebSocketKind.
Proof. solve_decision. Defined.
#[global] Instance WakeHintScope_eq_dec : EqDecision WakeHintScope.
Proof. solve_decision. Defined.
#[global] Instance LocalCell_eq_dec : EqDecision LocalCell.
Proof. solve_decision. Defined.
#[global] Instance HaltReason_eq_dec : EqDecision HaltReason.
Proof. solve_decision. Defined.

(** [Event]. *)
Inductive Event :=
| EvStartNodeLease (now_ms now_mono_ms : N) (spec : NodeLeaseSpec)
| EvSelfNodeLeaseRead (op now_ms now_mono_ms : N) (res : result (option NodeLeaseRecord) Failure)
| EvNodeLeaseCasCompleted (op now_mono_ms : N) (res : result LeaseCasOutcome Failure)
    (stamped_log_state : option LogState)
| EvLocalCellsRead (res : result (list LocalCell) Failure)
| EvTimerFired (timer : Timer) (now_ms now_mono_ms : N)
| EvRequest (request : N) (cell : string)
| EvRequestAt (request : N) (cell : string) (now_mono_ms : N)
| EvCapacityRequestAt (request : N) (cell : string) (now_mono_ms : N)
| EvHandoffRequestAt (request : N) (cell : string) (now_ms now_mono_ms : N)
| EvWebSocketRequestAt (request : N) (cell : string) (websocket now_ms now_mono_ms : N)
| EvGateRequestAt (request : N) (cell : string) (now_mono_ms : N)
| EvWorkerRequest (request : N)
| EvBeginPreserve
| EvCancel (request : N)
| EvActivityFinished (request : N)
| EvOutput (request : N) (channel : Channel) (position observed epoch : option N)
| EvOutputAt (request : N) (channel : Channel) (position observed epoch : option N)
    (now_mono_ms : N)
| EvDurableReached (op : N) (res : result N Failure) (source : ProofSource)
| EvExportTicket (cell : string) (epoch position ticket : N)
| EvOwnershipVerified (op : N) (res : result unit Failure)
| EvWebSocketOpened (cell : string) (websocket : N) (kind : WebSocketKind)
| EvWebSocketClosed (cell : string) (websocket : N)
| EvAlarmObserved (cell : string) (alarm : AlarmSnapshot) (covered : bool)
    (now_ms now_mono_ms : N)
| EvAlarmFinished (op : N) (cell : string) (epoch now_ms now_mono_ms : N)
    (res : result (AlarmSnapshot * bool * option N) Failure)
| EvWakeHint (cell : string) (entry_ms : Z) (scope : WakeHintScope)
| EvWakeHintAt (cell : string) (entry_ms : Z) (scope : WakeHintScope) (now_mono_ms : N)
| EvOwnerRead (op now_ms : N) (res : result (option OwnerRecord) Failure)
| EvNodeLogRecovered (op : N) (res : result unit Failure)
| EvNudgeNodeLease (now_ms now_mono_ms : N)
| EvNodeLeaseRead (op now_ms : N) (res : result (option NodeLeaseRecord) Failure)
| EvCapacityPeersRead (op now_ms : N) (res : result (list CapacityPeer) Failure)
| EvOwnerCasCompleted (op : N) (res : result CasOutcome Failure)
| EvOwnerReleased (op : N) (res : result CasOutcome Failure)
| EvSuccessorAdopted (op : N) (res : result AdoptedCell Failure)
| EvRestoreCompleted (op : N) (res : result RestoreOutcome Failure)
| EvRuntimeStarted (op : N) (isolate : option N) (generation : N) (res : result unit Failure)
| EvGenerationChanged (generation now_mono_ms max_age_ms : N) (eager_classes : list string)
| EvPublished (op : N) (res : result unit Failure)
| EvDurabilityChecked (op : N) (res : result unit Failure)
| EvRuntimeStopped (op : N)
| EvRuntimeStopFailed (op : N)
| EvRuntimeStopCancelled (op : N)
| EvEvict (cell : string)
| EvEvictRequested (request : N) (cell : string) (now_mono_ms : N)
| EvLoadSampled (load : Load) (now_mono_ms : N)
| EvInvalidateRemote (cell node : string) (epoch : N)
| EvNodeFenced
| EvReleaseAll
| EvRebalance (cells : N).

Inductive Route := RouteLocal | RouteRemote (node addr : string) (epoch peer_protocol : N).

Record WorkerRoute := mkWorkerRoute {
  wr_cell : string;
  wr_epoch : N;
}.

Inductive RequestError :=
| NodeUnavailable | ResolveFailed | AcquireFailed | RestoreFailed | RuntimeFailed
| PublishFailed | NodeFenced | PeerIncompatible | CapacityExhausted | DurabilityUnproven.

Inductive EvictSuccess := Evicted | AlreadyAbsent.

Inductive EvictRefusal :=
| RefusedNodeUnavailable | CellActive | CellTransitioning | AlarmImminent
| AlarmUncovered | ConcurrencyLimit.

Inductive EvictCancellation := CancelActivity | CancelAlarm | CancelNodeFenced.

Inductive EvictFailure :=
| FailDurability | FailDurabilityTimeout | FailRuntimeStop | FailActorUnavailable | FailReplyLost.

Inductive EvictError :=
| Refused (r : EvictRefusal)
| Cancelled (c : EvictCancellation)
| Failed (f : EvictFailure).

(** [EvictError::kind] and [EvictError::reason]. *)
Definition evict_kind (e : EvictError) : string :=
  match e with
  | Refused _ => "refused"
  | Cancelled _ => "cancelled"
  | Failed _ => "failed"
  end.

Definition evict_reason (e : EvictError) : string :=
  match e with
  | Refused RefusedNodeUnavailable => "node_unavailable"
  | Refused CellActive => "cell_active"
  | Refused CellTransitioning => "cell_transitioning"
  | Refused AlarmImminent => "alarm_imminent"
  | Refused AlarmUncovered => "alarm_uncovered"
  | Refused ConcurrencyLimit => "eviction_limit"
  | Cancelled CancelActivity => "new_activity"
  | Cancelled CancelAlarm => "alarm_activity"
  | Cancelled CancelNodeFenced => "node_fenced"
  | Failed FailDurability => "durability_failed"
  | Failed FailDurabilityTimeout => "durability_timeout"
  | Failed FailRuntimeStop => "runtime_stop_failed"
  | Failed FailActorUnavailable => "actor_unavailable"
  | Failed FailReplyLost => "reply_lost"
  end.

Inductive EvictionAdmission := AdmissionAbsent | AdmissionPending.

Inductive StopCause :=
| StopCleanup
| StopEvict (rebalance : bool)
| StopFence
| StopReset
| StopSwap.

#[global] Instance StopCause_eq_dec : EqDecision StopCause.
Proof. solve_decision. Defined.
#[global] Instance RequestError_eq_dec : EqDecision RequestError.
Proof. solve_decision. Defined.

(** [RestoreSpec] and [Claim] (lib.rs): what ownership resolution decided. *)
Record RestoreSpec := mkRestoreSpec {
  rs_epoch : N;
  rs_fresh : bool;
  rs_took_over : bool;
  rs_resume_local : bool;
  rs_prior : option string;
}.

Record Claim := mkClaim {
  cl_guard : CasGuard;
  cl_epoch : N;
  cl_takeover : bool;
  cl_prior : option string;
  cl_reconciles : N;
}.

(** [Effect]. *)
Inductive Effect :=
| FxEvictionAdmission (request : N) (res : result EvictionAdmission EvictError)
| FxEvictionFinished (request : N) (res : result EvictSuccess EvictError)
| FxScheduleTimer (timer : Timer) (at_mono_ms : N)
| FxReadSelfNodeLease (op : N)
| FxCasNodeLease (op : N) (guard : CasGuard) (record : NodeLeaseRecord)
    (authority_expires_ms : option N)
| FxReadLocalCells
| FxReadOwner (op : N) (cell : string)
| FxReadNodeLease (op : N) (cell owner : string)
| FxRecoverNodeLog (op : N) (cell owner : string)
| FxReadCapacityPeers (op : N) (cell : string)
| FxCasOwner (op : N) (cell : string) (guard : CasGuard) (epoch : N) (takeover : bool)
| FxReconcileWakeEntry (cell : string) (alarm : AlarmSnapshot)
| FxReleaseOwner (op : N) (cell : string) (epoch : N)
| FxAdoptReleased (op : N) (cell : string) (released_epoch : N) (rebalance : bool)
| FxCancelCellActivity (cell : string) (requests websockets : list N) (alarm : option N)
    (keep_hibernatable : bool)
| FxRestore (op : N) (cell : string) (spec : RestoreSpec)
| FxStartRuntime (op : N) (cell : string) (epoch : N)
| FxPublish (op : N) (cell : string) (epoch : N)
| FxEnsureDurable (op : N) (cell : string) (epoch : N) (revocable : bool)
| FxAwaitDurable (op : N) (cell : string) (epoch position : N)
| FxVerifyOwnership (op : N) (cell : string) (epoch : N)
| FxStopRuntime (op : N) (cell : string) (epoch : N) (cause : StopCause) (bounded : bool)
| FxAbandonEvictionStop (op : N) (cell : string)
| FxFireAlarm (op : N) (cell : string) (epoch : N) (scheduled_ms : Z)
| FxComplete (request : N) (res : result Route RequestError)
| FxRelease (request : N) (channel : Channel) (res : result unit RequestError)
| FxExportProven (cell : string) (epoch ticket : N) (res : result unit RequestError)
| FxCompleteWorker (request : N) (route : option WorkerRoute)
| FxCloseWebSocket (cell : string) (websocket : N)
| FxHalt (code : Z) (reason : HaltReason).
