(* ===== verification/Policies.v ===== *)
(** * The small policies

    Models the remaining decision modules of [crates/logic]: [durability.rs]
    (when a durability wait gives up), [format.rs] (which bucket format a node
    may write), [routing.rs] (when a failed dispatch is sent again), [sqlite.rs],
    [cache.rs] (what the snapshot cache deletes), [restore.rs], [sweep.rs] and
    [dead_node_reconciliation.rs]. *)

From S2P Require Import Prelude Text Types.

Module Policies.

(** ** Durability waits *)

Record ProofWait := mkProofWait {
  started_ms : N;
  ticket : N;
  budget_ms : N;
}.

Record ProofProgress := mkProofProgress {
  node_proof_ms : N;
  capture_seq : N;
  capture_started_ms : N;
}.

Definition QUEUED_BUDGETS : N := 6.

(** [proof_deadline]. *)
Definition proof_deadline (w : ProofWait) (p : ProofProgress) : N :=
  if ticket w <=? capture_seq p
  then sat_add (N.max (capture_started_ms p) (started_ms w)) (budget_ms w)
  else
    let anchor := N.max (node_proof_ms p) (started_ms w) in
    let cap := sat_add (started_ms w) (sat_mul (budget_ms w) QUEUED_BUDGETS) in
    N.min (sat_add anchor (budget_ms w)) cap.

(** ** Bucket formats *)

Definition BUCKET_FORMAT : N := 2.
Definition FIELDLESS_FORMAT : N := 1.

(** [fleet_reads]. *)
Definition fleet_reads (peers : list CapacityPeer) (now_ms format : N) : bool :=
  let live := filter (λ p, now_ms < cp_expires_ms p) peers in
  negb (bool_decide (live = []) : bool)
  && forallb (λ p, format <=? default FIELDLESS_FORMAT (cp_bucket_format p)) live.

(** ** Redispatch *)

Inductive Attempt := NotOwner | NeverConnected | Ambiguous.

Record Dispatcher := mkDispatcher {
  retried_not_owner : bool;
  retried_never_connected : bool;
}.

(** [Dispatcher::default]. *)
Definition dispatcher : Dispatcher := mkDispatcher false false.

(** [Dispatcher::redispatch]. *)
Definition redispatch (d : Dispatcher) (a : Attempt) : bool * Dispatcher :=
  match a with
  | Ambiguous => (false, d)
  | NotOwner => if retried_not_owner d then (false, d) else (true, mkDispatcher true (retried_never_connected d))
  | NeverConnected =>
      if retried_never_connected d then (false, d) else (true, mkDispatcher (retried_not_owner d) true)
  end.

(** The attempts of one request whose failures are [outcomes]: how many are
    sent, the first one included. *)
Fixpoint attempts (d : Dispatcher) (outcomes : list Attempt) : nat :=
  match outcomes with
  | [] => 1
  | a :: outcomes =>
      let '(again, d) := redispatch d a in
      if again then S (attempts d outcomes) else 1
  end.

(** ** SQLite failures *)

Definition SQLITE_NOMEM : Z := 7.
Definition SQLITE_INTERRUPT : Z := 9.
Definition SQLITE_IOERR : Z := 10.
Definition SQLITE_FULL : Z := 13.

(** [poisons_actor]. *)
Definition poisons_actor (result_code : Z) (started_in_transaction now_autocommit : bool) : bool :=
  let primary := Z.land result_code 255 in
  started_in_transaction && now_autocommit
  && ((primary =? SQLITE_FULL)%Z || (primary =? SQLITE_IOERR)%Z || (primary =? SQLITE_NOMEM)%Z || (primary =? SQLITE_INTERRUPT)%Z).

(** ** The snapshot cache *)

Record CacheEntry := mkCacheEntry {
  last_used_ms : Z;
  ce_bytes : N;
}.

(** The most recently used first, the higher index among equals. *)
Definition recency_cmp (a b : nat * CacheEntry) : comparison :=
  then_with (Z.compare (last_used_ms b.2) (last_used_ms a.2)) (Nat.compare b.1 a.1).

(** The loop of [plan_eviction]: what is kept so far and the indices to delete. *)
Fixpoint evict_loop (max_bytes kept : N) (order : list (nat * CacheEntry)) : list nat :=
  match order with
  | [] => []
  | (i, e) :: order =>
      let next := sat_add kept (ce_bytes e) in
      if next <=? max_bytes then evict_loop max_bytes next order else i :: evict_loop max_bytes kept order
  end.

(** [plan_eviction]. *)
Definition plan_eviction (entries : list CacheEntry) (max_bytes : N) : list nat :=
  let total := foldl wrap_add 0 (ce_bytes <$> entries) in
  if total <=? max_bytes then []
  else merge_sort Nat.le (evict_loop max_bytes 0 (sort_by recency_cmp (imap pair entries))).

(** ** Restores, sweeps and dead nodes *)

(** [previous_epoch_reusable]. *)
Definition previous_epoch_reusable (epoch : N) (took_over : bool) : bool := (1 <? epoch) && negb took_over.

Definition BATCH_ROWS : N := 256.
Definition MAX_BACKOFF_SHIFT : N := 6.

(** [retry_delay_ms]. *)
Definition retry_delay_ms (tick_ms failure_count : N) : N :=
  sat_mul tick_ms (N.shiftl 1 (N.min (sat_sub failure_count 1) MAX_BACKOFF_SHIFT)).

(** [parse_marker_key]. *)
Definition parse_marker_key (key : string) : option (string * string) :=
  rest ← strip_prefix "node-cells/" key;
  '(node, rest) ← split_once char_slash rest;
  '(generation, cell) ← split_once char_slash rest;
  if bool_decide (node = "") || bool_decide (generation = "") || bool_decide (cell = "") then None
  else Some (node, cell).

(** [node_record_is_dead]. *)
Definition node_record_is_dead (key_node record_node : string) (expires_ms now_ms : N) : bool :=
  bool_decide (key_node = record_node) && (expires_ms <=? now_ms).

(** ** Their properties *)

(** A queued wait gets its budget and at most six; the capture that covers the
    write starts one more. *)
Lemma proof_deadline_bounds w p :
  N.min (started_ms w + budget_ms w) u64_max ≤ proof_deadline w p
  ∧ (capture_seq p < ticket w → proof_deadline w p ≤ started_ms w + 6 * budget_ms w).
Proof.
  unfold proof_deadline, QUEUED_BUDGETS, sat_add, sat_mul.
  destruct (N.leb_spec (ticket w) (capture_seq p)); split; intros; lia.
Qed.

(** A proof that lands later, or a capture that starts later, never brings the
    deadline of a wait forward in its regime. *)
Lemma proof_deadline_extends w p p' :
  capture_seq p' = capture_seq p → node_proof_ms p ≤ node_proof_ms p' → capture_started_ms p ≤ capture_started_ms p' →
  proof_deadline w p ≤ proof_deadline w p'.
Proof. intros E H1 H2. unfold proof_deadline. rewrite E. unfold sat_add. case_match; lia. Qed.

(** A request is sent at most three times, and never again once the owner may
    have run it. *)
Lemma redispatch_bounded d outcomes :
  (attempts d outcomes ≤ 1 + (if retried_not_owner d then 0 else 1) + (if retried_never_connected d then 0 else 1))%nat.
Proof.
  revert d. induction outcomes as [|a outcomes IH]; intros [b1 b2]; [simpl; lia|].
  destruct a; simpl; [destruct b1|destruct b2|]; simpl; try lia.
  - specialize (IH (mkDispatcher true b2)). simpl in IH. lia.
  - specialize (IH (mkDispatcher b1 true)). simpl in IH. lia.
Qed.

Lemma ambiguous_not_resent d before after : attempts d (before ++ Ambiguous :: after) = attempts d (before ++ [Ambiguous]).
Proof.
  revert d. induction before as [|a before IH]; intros d; [done|]. simpl. destruct (redispatch d a) as [[] d']; [|done].
  by rewrite IH.
Qed.

(** What a node may write, every live lease reads. *)
Lemma fleet_reads_all peers now format p :
  fleet_reads peers now format = true → p ∈ peers → now < cp_expires_ms p →
  format ≤ default FIELDLESS_FORMAT (cp_bucket_format p).
Proof.
  unfold fleet_reads. intros [_ H]%andb_true_iff Hp Hl. rewrite forallb_forall in H. apply N.leb_le, H.
  apply list_elem_of_In, list_elem_of_filter. done.
Qed.

(** What the cache holds once the planned entries are deleted. *)
Definition kept_bytes (order : list (nat * CacheEntry)) (evict : list nat) : N :=
  foldr N.add 0 ((λ p, ce_bytes p.2) <$> filter (λ p, p.1 ∉ evict) order).

Lemma evict_loop_subset max kept order i : i ∈ evict_loop max kept order → i ∈ order.*1.
Proof.
  revert kept. induction order as [|[j e] order IH]; intros kept; [done|]. simpl. rewrite elem_of_cons.
  case_match; [by intros ?%IH; right|]. intros [->|?%IH]%elem_of_cons; auto.
Qed.

Lemma kept_bytes_skip order i evict : i ∉ order.*1 → kept_bytes order (i :: evict) = kept_bytes order evict.
Proof.
  unfold kept_bytes. intros Hi. f_equal. f_equal. induction order as [|[j e] order IH]; [done|].
  apply not_elem_of_cons in Hi as [Hij Hi]. cbn in Hij.
  destruct (decide (j ∈ evict)).
  - rewrite !filter_cons_False by (cbn; set_solver). auto.
  - rewrite !filter_cons_True by (cbn; set_solver). f_equal. auto.
Qed.

Lemma evict_loop_fits max kept order :
  NoDup order.*1 → max < u64_max → kept ≤ max → kept + kept_bytes order (evict_loop max kept order) ≤ max.
Proof.
  intros ND Hm. revert kept ND. induction order as [|[i e] order IH]; intros kept ND Hk; [cbn; lia|].
  apply NoDup_cons in ND as [Hi ND]. cbn [evict_loop fst snd]. unfold sat_add.
  destruct (N.leb_spec (N.min (kept + ce_bytes e) u64_max) max) as [Hle|Hgt].
  - unfold kept_bytes. rewrite filter_cons_True by (by intros ?%evict_loop_subset). cbn [fmap list_fmap foldr snd].
    rewrite (N.min_l (kept + ce_bytes e)) by lia. specialize (IH (kept + ce_bytes e) ND ltac:(lia)).
    unfold kept_bytes in IH. lia.
  - assert (kept_bytes ((i, e) :: order) (i :: evict_loop max kept order) =
            kept_bytes order (evict_loop max kept order)) as ->; [|by apply IH].
    rewrite <-(kept_bytes_skip order i) by done. unfold kept_bytes. by rewrite filter_cons_False by (cbn; set_solver).
Qed.

Lemma imap_pair_fst {A} (l : list A) : (imap pair l).*1 = seq 0 (length l).
Proof.
  rewrite fmap_imap. apply list_eq. intros i. rewrite list_lookup_imap.
  destruct (l !! i) eqn:E; simpl.
  - rewrite lookup_seq_lt; [done|]. by apply lookup_lt_Some in E.
  - rewrite lookup_seq_ge; [done|]. by apply lookup_ge_None in E.
Qed.

Lemma kept_bytes_proper order order' evict evict' :
  order ≡ₚ order' → evict ≡ₚ evict' → kept_bytes order evict = kept_bytes order' evict'.
Proof.
  intros Ho He. unfold kept_bytes.
  rewrite (list_filter_iff (λ p, p.1 ∉ evict) (λ p, p.1 ∉ evict')) by (intros p; by rewrite He).
  apply foldr_permutation; [typeclasses eauto..|lia|]. by rewrite Ho.
Qed.

(** After an eviction the cache fits. *)
Lemma plan_eviction_fits entries max :
  max < u64_max → plan_eviction entries max ≠ [] → kept_bytes (imap pair entries) (plan_eviction entries max) ≤ max.
Proof.
  intros Hm. unfold plan_eviction. case_match; [done|]. intros _.
  set (order := sort_by recency_cmp (imap pair entries)).
  assert (order ≡ₚ imap pair entries) as Hp by apply sort_by_Permutation.
  rewrite (kept_bytes_proper _ order _ (evict_loop max 0 order)); [|done|apply merge_sort_Permutation].
  rewrite <-(N.add_0_l (kept_bytes _ _)). apply evict_loop_fits; [|done|lia].
  rewrite Hp, imap_pair_fst. apply NoDup_seq.
Qed.

(** The cache is not a least-recently-used one: the newest entry is deleted to
    keep an older, smaller one. *)
Lemma newest_evicted : plan_eviction [mkCacheEntry 2 10; mkCacheEntry 1 3] 5 = [0%nat].
Proof. by vm_compute. Qed.

(** The delay between passes is between one tick and sixty-four. *)
Lemma retry_delay_bounds tick failures : N.min tick u64_max ≤ retry_delay_ms tick failures ≤ 64 * tick.
Proof.
  unfold retry_delay_ms, sat_mul, MAX_BACKOFF_SHIFT. rewrite N.shiftl_1_l.
  assert (1 ≤ 2 ^ N.min (sat_sub failures 1) 6 ≤ 64); [|nia].
  split; [|apply (N.pow_le_mono_r 2 _ 6); lia]. pose proof (N.pow_nonzero 2 (N.min (sat_sub failures 1) 6)). lia.
Qed.

End Policies.
