(* ===== verification/Rebalance.v ===== *)
(** * Ownership balancing

    Models [crates/logic/rebalance.rs], the count of cells the densest node
    gives away and the peers that may take them, and the choice of a successor
    in [crates/celld/actor.rs] ([handoff_exclusions], [rank_handoff_candidates]
    and the ranking of [handoff_candidates]).

    The theorem is about balancing as a process: rounds of planned batches whose
    cells go to receivers of an up-to-date view.  No node ever crosses its
    target, so no cell comes back, and the number of cells ever moved is what
    the fleet had above target at the start. *)

From S2P Require Import Prelude Types.

Module Balance.

Definition DEADBAND_PERCENT : N := 2.

(** [u128] multiplication in a release build, and [u128::div_ceil]. *)
Definition mul128 (a b : N) : N := (a * b) mod 340282366920938463463374607431768211456.
Definition div_ceil (a b : N) : N := a / b + (if a mod b =? 0 then 0 else 1).

Record Member := mkMember {
  mb_peer : CapacityPeer;
  mb_owned : N;
  mb_weight : N;
}.

(** [Member::receives_from]. *)
Definition receives_from (self_node : string) (m : Member) : bool :=
  negb (bool_decide (cp_node (mb_peer m) = self_node)) && negb (cp_draining (mb_peer m))
  && (cp_restoring (mb_peer m) =? 0) && reports_adoption_capacity (mb_peer m).

(** [Member::denser]. *)
Definition denser (m other : Member) : comparison :=
  then_with (N.compare (mul128 (mb_owned m) (mb_weight other)) (mul128 (mb_owned other) (mb_weight m)))
    (String.compare (cp_node (mb_peer other)) (cp_node (mb_peer m))).

Record Fleet := mkFleet {
  fleet_members : list Member;
  fleet_owned : N;
  fleet_weight : N;
}.

Definition sum_of {A} (f : A → N) (l : list A) : N := foldr (λ x acc, f x + acc) 0 l.

(** One turn of the loop of [Fleet::observe]: the member of a live lease, or
    [None] where the lease stops every move. *)
Definition member_of (now_ms max_age_ms since_ms : N) (p : CapacityPeer) : option Member :=
  let fresh := (since_ms <? cp_sampled_ms p) && (sat_sub now_ms (cp_sampled_ms p) <=? max_age_ms) in
  if negb fresh || negb (cp_paced_handoff p) || cp_rebalance_paused p then None
  else match cp_owned_cells p, cp_placement_weight p with
       | Some owned, Some weight => Some (mkMember p owned (N.max weight 1))
       | _, _ => None
       end.

(** [Fleet::observe]. *)
Definition observe (peers : list CapacityPeer) (self_node : string) (now_ms max_age_ms since_ms : N) : option Fleet :=
  match mapM (member_of now_ms max_age_ms since_ms) (filter (λ p, now_ms < cp_expires_ms p) peers) with
  | None => None
  | Some members =>
      if existsb (λ m, bool_decide (cp_node (mb_peer m) = self_node)) members
      then Some (mkFleet members (sum_of mb_owned members) (sum_of mb_weight members))
      else None
  end.

(** [Fleet::target] and [Fleet::room]. *)
Definition target (f : Fleet) (m : Member) : N := div_ceil (mul128 (fleet_owned f) (mb_weight m)) (fleet_weight f).
Definition room (f : Fleet) (m : Member) : N :=
  let t := target f m in
  sat_sub (sat_sub t (div_ceil (mul128 t DEADBAND_PERCENT) 100)) (mb_owned m).

(** The member [surplus] elects as donor. *)
Definition donor (f : Fleet) : option Member := max_by (λ y best, is_gt (denser best y)) (fleet_members f).

(** [surplus]. *)
Definition surplus (peers : list CapacityPeer) (self_node : string) (now_ms max_age_ms since_ms batch : N) : option N :=
  match observe peers self_node now_ms max_age_ms since_ms with
  | None => None
  | Some f =>
      match donor f with
      | None => None
      | Some d =>
          if negb (bool_decide (cp_node (mb_peer d) = self_node)) then None
          else
            let over := sat_sub (mb_owned d) (target f d) in
            let spare := sum_of (room f) (filter (λ m, receives_from self_node m = true) (fleet_members f)) in
            let count := N.min (N.min over spare) batch in
            if 0 <? count then Some count else None
      end
  end.

(** [receivers]. *)
Definition receivers (peers : list CapacityPeer) (self_node : string) (now_ms max_age_ms : N) : list string :=
  match observe peers self_node now_ms max_age_ms 0 with
  | None => []
  | Some f =>
      (λ m, cp_node (mb_peer m)) <$>
        sort_by denser
          (filter (λ m, (receives_from self_node m && (mb_owned m <? target f m)) = true) (fleet_members f))
  end.

(** ** The choice of a successor *)

(** [handoff_tie_break]: FNV-1a over the cell, a separator and the node. *)
Definition handoff_tie_break (cell node : string) : N :=
  fnv1a (bytes_of cell ++ [255] ++ bytes_of node).

(** [handoff_exclusions]: the reasons a peer cannot adopt; [protocol] is
    [peer_auth::PROTOCOL_VERSION]. *)
Definition handoff_exclusions (protocol : N) (p : CapacityPeer) (source : string) (current_ms : N) : list string :=
  omap (λ r : bool * string, if r.1 then Some r.2 else None)
    [(bool_decide (cp_node p = source), "source"%string);
     (cp_expires_ms p <=? current_ms, "expiry"%string);
     (bool_decide (cp_addr p = EmptyString), "addr"%string);
     (negb (cp_peer_protocol p =? protocol), "protocol"%string);
     (cp_sampled_ms p =? 0, "sampled_ms"%string);
     (negb (reports_adoption_capacity p), "reports_adoption_capacity"%string);
     (negb (cp_paced_handoff p), "paced_handoff"%string)].

(** The sort key of [rank_handoff_candidates]. *)
Definition rank_cmp (cell : string) (a b : CapacityPeer) : comparison :=
  let used p := default (cp_rss_bytes p) (cp_in_use_bytes p) in
  then_with (N.compare (cp_resident_cells a) (cp_resident_cells b))
   (then_with (N.compare (cp_host_websockets a) (cp_host_websockets b))
    (then_with (N.compare (used a) (used b))
     (then_with (N.compare (handoff_tie_break cell (cp_node a)) (handoff_tie_break cell (cp_node b)))
      (String.compare (cp_node a) (cp_node b))))).

(** [rank_handoff_candidates]. *)
Definition rank_handoff_candidates (protocol : N) (peers : list CapacityPeer) (source cell : string) (current_ms : N) : list CapacityPeer :=
  sort_by (rank_cmp cell) (filter (λ p, handoff_exclusions protocol p source current_ms = []) peers).

(** The position a peer has among the receivers; [None] sorts first, but the
    peers that remain all have one. *)
Definition position (l : list string) (node : string) : option N :=
  (λ r : nat * string, N.of_nat r.1) <$> list_find (λ n, n = node) l.

(** The ranking of [handoff_candidates] over the directory's peers. *)
Definition handoff_candidates (protocol ttl_ms : N) (peers : list CapacityPeer) (source cell : string)
    (rebalance : bool) (current_ms : N) : list CapacityPeer :=
  let ranked := rank_handoff_candidates protocol peers source cell current_ms in
  if rebalance then
    let targets := receivers peers source current_ms ttl_ms in
    sort_by (λ a b, compare_option N.compare (position targets (cp_node a)) (position targets (cp_node b)))
      (filter (λ p, cp_node p ∈ targets) ranked)
  else ranked.

(** ** Balancing as a process *)

Definition owned_of (p : CapacityPeer) : N := default 0 (cp_owned_cells p).
Definition weight_of (p : CapacityPeer) : N := N.max (default 0 (cp_placement_weight p)) 1.
Definition as_member (p : CapacityPeer) : Member := mkMember p (owned_of p) (weight_of p).

(** The fleet of a set of leases that are all live. *)
Definition fleet_of (peers : list CapacityPeer) : Fleet :=
  mkFleet (as_member <$> peers) (sum_of owned_of peers) (sum_of weight_of peers).

Definition live_at (now_ms : N) (peers : list CapacityPeer) : Prop := Forall (λ p, now_ms < cp_expires_ms p) peers.

Definition set_owned (n : N) (p : CapacityPeer) : CapacityPeer :=
  mkCapacityPeer (cp_node p) (cp_addr p) (cp_expires_ms p) (cp_peer_protocol p) (cp_sampled_ms p) (Some n)
    (cp_placement_weight p) (cp_bucket_format p) (cp_resident_cells p) (cp_host_websockets p) (cp_rss_bytes p)
    (cp_in_use_bytes p) (cp_pressured p) (cp_memory_headroom p) (cp_restoring p) (cp_paced_handoff p)
    (cp_rebalance_paused p) (cp_draining p).

Definition alter_node (node : string) (g : CapacityPeer → CapacityPeer) (peers : list CapacityPeer) : list CapacityPeer :=
  (λ p, if bool_decide (cp_node p = node) then g p else p) <$> peers.

(** One cell goes from [src] to [dst], and both publish it. *)
Definition shift (src dst : string) (peers : list CapacityPeer) : list CapacityPeer :=
  alter_node dst (λ p, set_owned (owned_of p + 1) p) (alter_node src (λ p, set_owned (owned_of p - 1) p) peers).

(** Cells of one batch, each adopted by a receiver of the view of its time. *)
Inductive handed (source : string) (max_age_ms : N) : N → list CapacityPeer → list CapacityPeer → Prop :=
| handed_none peers : handed source max_age_ms 0 peers peers
| handed_cell n peers peers' now_ms dst :
    live_at now_ms peers → dst ∈ receivers peers source now_ms max_age_ms →
    handed source max_age_ms n (shift source dst peers) peers' → handed source max_age_ms (n + 1) peers peers'.

(** A later publication of the same counts. *)
Definition renewed (p p' : CapacityPeer) : Prop :=
  cp_node p = cp_node p' ∧ cp_owned_cells p = cp_owned_cells p' ∧ cp_placement_weight p = cp_placement_weight p'.

(** Rounds of balancing that move [n] cells in all: some node plans a batch, at
    most that many cells go, and the leases are renewed. *)
Inductive balancing : N → list CapacityPeer → list CapacityPeer → Prop :=
| balancing_none peers : balancing 0 peers peers
| balancing_round source now_ms max_age_ms since_ms batch count k n peers peers1 peers2 peers' :
    live_at now_ms peers → surplus peers source now_ms max_age_ms since_ms batch = Some count → k ≤ count →
    handed source max_age_ms k peers peers1 → Forall2 renewed peers1 peers2 →
    balancing n peers2 peers' → balancing (k + n) peers peers'.

(** What a peer's count may be next to its target, [total] and [weight] being
    the fleet's. *)
Definition share (total weight : N) (p : CapacityPeer) : N := div_ceil (mul128 total (weight_of p)) weight.
Definition level (peers : list CapacityPeer) (p : CapacityPeer) : N := share (sum_of owned_of peers) (sum_of weight_of peers) p.
Definition excess (peers : list CapacityPeer) : N := sum_of (λ p, owned_of p - level peers p) peers.

(** A node moves towards its target and never past it. *)
Definition settles (total weight : N) (p p' : CapacityPeer) : Prop :=
  cp_node p = cp_node p' ∧ weight_of p = weight_of p'
  ∧ (owned_of p ≤ share total weight p → owned_of p ≤ owned_of p' ≤ share total weight p)
  ∧ (share total weight p ≤ owned_of p → share total weight p ≤ owned_of p' ≤ owned_of p).

Lemma settles_refl total weight p : settles total weight p p.
Proof. repeat split; lia. Qed.

Lemma settles_trans total weight p1 p2 p3 : settles total weight p1 p2 → settles total weight p2 p3 → settles total weight p1 p3.
Proof.
  intros (Hn & Hw & H1 & H2) (Hn' & Hw' & H3 & H4). unfold settles, share in *. rewrite <-Hw in *.
  split; [congruence|]. split; [congruence|]. split; intros Hle.
  - specialize (H1 Hle) as [? ?]. specialize (H3 ltac:(lia)). lia.
  - specialize (H2 Hle) as [? ?]. specialize (H4 ltac:(lia)). lia.
Qed.

Lemma sum_of_app {A} (f : A → N) l l' : sum_of f (l ++ l') = sum_of f l + sum_of f l'.
Proof. induction l as [|x l IH]; simpl; [done|]. lia. Qed.

Lemma sum_of_fmap {A B} (g : A → B) (f : B → N) l : sum_of f (g <$> l) = sum_of (λ x, f (g x)) l.
Proof. induction l as [|x l IH]; csimpl; [done|]. by rewrite IH. Qed.

Lemma sum_of_ext {A} (f g : A → N) l : (∀ x, x ∈ l → f x = g x) → sum_of f l = sum_of g l.
Proof.
  induction l as [|x l IH]; intros H; simpl; [done|]. rewrite H by constructor. f_equal. apply IH.
  intros y Hy. apply H. by constructor.
Qed.

Lemma alter_node_nodes node g peers : (∀ p, cp_node (g p) = cp_node p) → cp_node <$> alter_node node g peers = cp_node <$> peers.
Proof.
  intros Hg. unfold alter_node. rewrite <-list_fmap_compose. apply list_fmap_ext. intros _ p _. simpl. by case_bool_decide.
Qed.

Lemma alter_node_fresh node g peers : node ∉ (cp_node <$> peers) → alter_node node g peers = peers.
Proof.
  induction peers as [|p l IH]; [done|]. csimpl. rewrite not_elem_of_cons. intros [Hn Hl].
  rewrite bool_decide_eq_false_2 by congruence. f_equal. by apply IH.
Qed.

(** Changing the lease of one node changes a sum by that node's term. *)
Lemma sum_alter (f : CapacityPeer → N) node g peers p :
  NoDup (cp_node <$> peers) → p ∈ peers → cp_node p = node →
  sum_of f (alter_node node g peers) + f p = sum_of f peers + f (g p).
Proof.
  intros Hnd Hp <-. apply list_elem_of_split in Hp as (l1 & l2 & ->).
  rewrite fmap_app, fmap_cons in Hnd. apply NoDup_app in Hnd as (_ & Hd & [Hp2 _]%NoDup_cons).
  assert (cp_node p ∉ (cp_node <$> l1)) as Hp1 by (intros Hin; apply (Hd _ Hin); constructor).
  unfold alter_node. rewrite fmap_app, fmap_cons. fold (alter_node (cp_node p) g l1) (alter_node (cp_node p) g l2).
  rewrite !alter_node_fresh by done. rewrite bool_decide_eq_true_2 by done. rewrite !sum_of_app. simpl. lia.
Qed.

Lemma node_unique peers p q :
  NoDup (cp_node <$> peers) → p ∈ peers → q ∈ peers → cp_node p = cp_node q → p = q.
Proof.
  induction peers as [|x l IH]; [by intros _ ?%elem_of_nil|]. rewrite fmap_cons.
  intros [Hx Hnd]%NoDup_cons. intros [->|Hp]%elem_of_cons [->|Hq]%elem_of_cons Heq; auto.
  - destruct Hx. rewrite Heq. by apply list_elem_of_fmap_2.
  - destruct Hx. rewrite <-Heq. by apply list_elem_of_fmap_2.
Qed.

Lemma elem_of_alter node g peers p : p ∈ peers → cp_node p ≠ node → p ∈ alter_node node g peers.
Proof.
  intros Hp Hn. apply list_elem_of_fmap. exists p. by rewrite bool_decide_eq_false_2.
Qed.

Lemma shift_sum (f : CapacityPeer → N) src dst peers s d :
  NoDup (cp_node <$> peers) → s ∈ peers → d ∈ peers → cp_node s = src → cp_node d = dst → src ≠ dst →
  sum_of f (shift src dst peers) + f s + f d
  = sum_of f peers + f (set_owned (owned_of s - 1) s) + f (set_owned (owned_of d + 1) d).
Proof.
  intros Hnd Hs Hd <- <- Hne. unfold shift.
  pose proof (sum_alter f (cp_node s) (λ p, set_owned (owned_of p - 1) p) peers s Hnd Hs eq_refl).
  pose proof (sum_alter f (cp_node d) (λ p, set_owned (owned_of p + 1) p)
    (alter_node (cp_node s) (λ p, set_owned (owned_of p - 1) p) peers) d) as H2.
  rewrite alter_node_nodes in H2 by done. specialize (H2 Hnd (elem_of_alter _ _ _ _ Hd (not_eq_sym Hne)) eq_refl). simpl in *. lia.
Qed.

(** One move from a node above its target to one below it. *)
Lemma shift_settles src dst peers s d :
  let total := sum_of owned_of peers in let weight := sum_of weight_of peers in
  NoDup (cp_node <$> peers) → s ∈ peers → d ∈ peers → cp_node s = src → cp_node d = dst →
  share total weight s < owned_of s → owned_of d < share total weight d →
  cp_node <$> shift src dst peers = cp_node <$> peers
  ∧ sum_of owned_of (shift src dst peers) = total ∧ sum_of weight_of (shift src dst peers) = weight
  ∧ Forall2 (settles total weight) peers (shift src dst peers)
  ∧ sum_of (λ p, owned_of p - share total weight p) (shift src dst peers) + 1
    = sum_of (λ p, owned_of p - share total weight p) peers.
Proof.
  intros total weight Hnd Hs Hd Hns Hnd' Hover Hunder.
  assert (src ≠ dst) as Hne.
  { intros <-. assert (s = d) as -> by (apply (node_unique peers); congruence). lia. }
  pose proof (λ f, shift_sum f src dst peers s d Hnd Hs Hd Hns Hnd' Hne) as Hsum. split_and!.
  - unfold shift. by rewrite !alter_node_nodes.
  - specialize (Hsum owned_of). change (owned_of (set_owned ?n _)) with n in Hsum. fold total in Hsum. lia.
  - specialize (Hsum weight_of). change (weight_of (set_owned ?n ?p)) with (weight_of p) in Hsum. fold weight in Hsum. lia.
  - unfold shift, alter_node. rewrite <-list_fmap_compose. apply Forall2_fmap_r, Forall_Forall2_diag, Forall_forall.
    intros p Hp. simpl. destruct (decide (cp_node p = src)) as [E|E].
    + rewrite (bool_decide_eq_true_2 (cp_node p = src)) by done.
      rewrite bool_decide_eq_false_2 by (simpl; congruence).
      assert (p = s) as -> by (apply (node_unique peers); congruence).
      unfold settles. change (owned_of (set_owned ?n _)) with n. repeat split; lia.
    + rewrite (bool_decide_eq_false_2 (cp_node p = src)) by done.
      case_bool_decide as E'; [|apply settles_refl].
      assert (p = d) as -> by (apply (node_unique peers); congruence).
      unfold settles. change (owned_of (set_owned ?n _)) with n. repeat split; lia.
  - specialize (Hsum (λ p, owned_of p - share total weight p)). simpl in Hsum.
    change (share total weight (set_owned ?n ?p)) with (share total weight p) in Hsum.
    change (owned_of (set_owned ?n _)) with n in Hsum. lia.
Qed.

(** The view of leases that are all live. *)
Lemma observe_live peers source now age since f :
  live_at now peers → observe peers source now age since = Some f → f = fleet_of peers.
Proof.
  intros Hl. unfold observe. rewrite filter_id by done.
  destruct (mapM _ peers) as [members|] eqn:Em; [|done]. case_match; [|done]. intros [= <-].
  apply mapM_Some_1 in Em.
  assert (members = as_member <$> peers) as ->.
  { clear Hl H. induction Em as [|p m peers ms Hm _ IH]; [done|]. rewrite fmap_cons. f_equal; [|done].
    unfold member_of in Hm. case_match; [done|]. unfold as_member, owned_of, weight_of.
    destruct (cp_owned_cells p), (cp_placement_weight p); try done. by injection Hm as <-. }
  unfold fleet_of. by rewrite !sum_of_fmap.
Qed.

Lemma receiver_below peers source now age dst :
  live_at now peers → dst ∈ receivers peers source now age →
  ∃ d, d ∈ peers ∧ cp_node d = dst ∧ owned_of d < level peers d.
Proof.
  intros Hl. unfold receivers. destruct (observe _ _ _ _ _) as [f|] eqn:E; [|by intros ?%elem_of_nil].
  apply observe_live in E as ->; [|done]. rewrite list_elem_of_fmap. intros (m & -> & Hm).
  rewrite sort_by_Permutation, list_elem_of_filter in Hm. destruct Hm as [Hr Hm].
  simpl in Hm. apply list_elem_of_fmap in Hm as (d & -> & Hd).
  apply andb_true_iff in Hr as [_ Hr]. apply N.ltb_lt in Hr. by exists d.
Qed.

Lemma surplus_above peers source now age since batch count :
  live_at now peers → surplus peers source now age since batch = Some count →
  ∃ s, s ∈ peers ∧ cp_node s = source ∧ level peers s + count ≤ owned_of s ∧ count ≤ batch.
Proof.
  intros Hl. unfold surplus. destruct (observe _ _ _ _ _) as [f|] eqn:E; [|done].
  apply observe_live in E as ->; [|done]. destruct (donor _) as [d|] eqn:Ed; [|done].
  case_bool_decide as Hn; simpl; [|done]. case_match eqn:Hc; [|done]. intros [= <-].
  assert (d ∈ as_member <$> peers) as Hd.
  { unfold donor in Ed. simpl in Ed. destruct (as_member <$> peers) as [|x l]; [done|]. simpl in Ed. injection Ed as <-.
    apply foldl_keep_elem_of. }
  apply list_elem_of_fmap in Hd as (s & -> & Hs). exists s. split; [done|]. split; [done|].
  change (target (fleet_of peers) (as_member s)) with (level peers s) in *. unfold sat_sub in *. simpl in *.
  apply N.ltb_lt in Hc. lia.
Qed.

(** What [n] moves keep and what they change. *)
Definition settled_by (n : N) (peers peers' : list CapacityPeer) : Prop :=
  cp_node <$> peers' = cp_node <$> peers
  ∧ sum_of owned_of peers' = sum_of owned_of peers ∧ sum_of weight_of peers' = sum_of weight_of peers
  ∧ Forall2 (settles (sum_of owned_of peers) (sum_of weight_of peers)) peers peers'
  ∧ excess peers' + n = excess peers.

Lemma settled_refl peers : settled_by 0 peers peers.
Proof.
  split_and!; try done; [|lia]. apply Forall_Forall2_diag, Forall_forall. intros. apply settles_refl.
Qed.

Lemma settled_trans n m p1 p2 p3 : settled_by n p1 p2 → settled_by m p2 p3 → settled_by (n + m) p1 p3.
Proof.
  intros (Hn & Ho & Hw & Hs & He) (Hn' & Ho' & Hw' & Hs' & He'). rewrite Ho, Hw in Hs'. split_and!; try congruence; [|lia].
  revert Hs Hs'. generalize (sum_of owned_of p1) (sum_of weight_of p1). clear. intros total weight Hs. revert p3. induction Hs as [|a b l1 l2 Hab _ IH]; intros p3 Hs'; inversion Hs'; subst; constructor; eauto using settles_trans.
Qed.

Lemma settled_shift src dst peers s d :
  NoDup (cp_node <$> peers) → s ∈ peers → d ∈ peers → cp_node s = src → cp_node d = dst →
  level peers s < owned_of s → owned_of d < level peers d → settled_by 1 peers (shift src dst peers).
Proof.
  intros Hnd Hs Hd Hns Hnd' Hover Hunder.
  destruct (shift_settles src dst peers s d Hnd Hs Hd Hns Hnd' Hover Hunder) as (Hn & Ho & Hw & Hf & He).
  split_and!; try done. unfold excess, level. rewrite Ho, Hw. done.
Qed.

Lemma settled_renewed peers peers' : Forall2 renewed peers peers' → settled_by 0 peers peers'.
Proof.
  intros Hr.
  assert (∀ p p', renewed p p' → cp_node p = cp_node p' ∧ owned_of p = owned_of p' ∧ weight_of p = weight_of p') as Hp.
  { intros p p' (Hn & Ho & Hw). unfold owned_of, weight_of. by rewrite Ho, Hw. }
  assert (∀ f : CapacityPeer → N, (∀ p p', renewed p p' → f p = f p') → sum_of f peers' = sum_of f peers) as Hsum.
  { intros f Hf. induction Hr as [|p p' l l' H _ IH]; [done|]. simpl. rewrite IH. by rewrite (Hf p p'). }
  pose proof (Hsum owned_of ltac:(naive_solver)) as Ho. pose proof (Hsum weight_of ltac:(naive_solver)) as Hw.
  split_and!; try done.
  - clear Hsum Ho Hw. induction Hr as [|p p' l l' H _ IH]; [done|]. rewrite !fmap_cons, IH. f_equal. symmetry. by apply Hp.
  - eapply Forall2_impl; [exact Hr|]. intros p p' (Hn & Ho' & Hw')%Hp. unfold settles. rewrite <-Ho', <-Hw'. repeat split; try done; lia.
  - unfold excess, level. rewrite Ho, Hw. rewrite N.add_0_r. apply Hsum.
    intros p p' (_ & Ho' & Hw')%Hp. unfold share. by rewrite Ho', Hw'.
Qed.

Lemma handed_settles source age n peers peers' s :
  handed source age n peers peers' → NoDup (cp_node <$> peers) → s ∈ peers → cp_node s = source →
  level peers s + n ≤ owned_of s → settled_by n peers peers'.
Proof.
  intros Hh. revert s. induction Hh as [peers|n peers peers' now dst Hl Hdst _ IH]; intros s Hnd Hs Hns Hover.
  { apply settled_refl. }
  destruct (receiver_below _ _ _ _ _ Hl Hdst) as (d & Hd & Hdn & Hunder).
  pose proof (settled_shift source dst peers s d Hnd Hs Hd Hns Hdn ltac:(lia) Hunder) as Hone.
  rewrite N.add_comm. eapply settled_trans; [exact Hone|].
  destruct Hone as (Hn & Ho & Hw & _ & _). apply (IH (set_owned (owned_of s - 1) s)).
  - by rewrite Hn.
  - unfold shift. apply elem_of_alter; [|simpl; intros Heq].
    + apply list_elem_of_fmap. exists s. by rewrite bool_decide_eq_true_2.
    + assert (s = d) as -> by (apply (node_unique peers); congruence). lia.
  - done.
  - unfold level in *. rewrite Ho, Hw. change (share ?t ?w (set_owned ?n ?p)) with (share t w p).
    change (owned_of (set_owned ?n _)) with n. lia.
Qed.


(** ** The donor, and a batch on one directory *)

Definition machine_width (m : Member) : Prop := mb_owned m ≤ u64_max ∧ mb_weight m ≤ u64_max ∧ 0 < mb_weight m.

(** Cells per unit of weight, compared by cross multiplication. *)
Definition lighter (m d : Member) : Prop := mb_owned m * mb_weight d ≤ mb_owned d * mb_weight m.

Lemma lighter_trans a b c : 0 < mb_weight b → lighter a b → lighter b c → lighter a c.
Proof.
  unfold lighter. intros Hb H1 H2. apply (N.mul_le_mono_pos_l _ _ (mb_weight b)); [done|]. nia.
Qed.

Lemma mul128_exact a b : a ≤ u64_max → b ≤ u64_max → mul128 a b = a * b.
Proof. unfold mul128, u64_max. intros Ha Hb. apply N.mod_small. nia. Qed.

Lemma denser_lighter a b : machine_width a → machine_width b →
  (is_gt (denser a b) = true → lighter b a) ∧ (is_gt (denser a b) = false → lighter a b).
Proof.
  intros (Ha & Hwa & _) (Hb & Hwb & _). unfold denser, lighter. rewrite !mul128_exact by done.
  destruct (N.compare_spec (mb_owned a * mb_weight b) (mb_owned b * mb_weight a)); simpl; split; intros; try done; lia.
Qed.

(** The elected donor is the densest member. *)
Lemma donor_densest f d m :
  Forall machine_width (fleet_members f) → donor f = Some d → m ∈ fleet_members f → lighter m d.
Proof.
  unfold donor. intros Hw. destruct (fleet_members f) as [|x l]; [done|]. simpl. intros [= <-].
  revert x m Hw. induction l as [|y l IH]; intros x m Hw Hm; simpl.
  { apply list_elem_of_singleton in Hm as ->. unfold lighter. lia. }
  apply Forall_cons in Hw as [Hx [Hy Hl]%Forall_cons].
  destruct (denser_lighter x y Hx Hy) as [Hgt Hle].
  apply elem_of_cons in Hm as [->|[->|Hm]%elem_of_cons]; destruct (is_gt (denser x y)).
  - apply IH; [by constructor|left].
  - apply (lighter_trans x y); [apply Hy|auto|]. apply IH; [by constructor|left].
  - apply (lighter_trans y x); [apply Hx|auto|]. apply IH; [by constructor|left].
  - apply IH; [by constructor|left].
  - apply IH; [by constructor|by right].
  - apply IH; [by constructor|by right].
Qed.

(** A lease of the examples: live until 1000, sampled at 10, weight 1. *)
Definition lease (node : string) (owned : N) : CapacityPeer :=
  mkCapacityPeer node "10.0.0.1:80" 1000 1 10 (Some owned) (Some 1) None owned 0 0 None false (Some true) 0 true false false.


(** The count of a batch is bounded by the room of all receivers, but on one
    directory every cell of it goes to the same one: here 32 cells to a node
    whose target is 24. *)
Lemma batch_overshoots :
  let peers := [lease "a" 70; lease "b" 0; lease "c" 0] in
  surplus peers "a" 20 500 0 32 = Some 32
  ∧ level peers (lease "c" 0) = 24
  ∧ Forall (λ i, cp_node <$> head (handoff_candidates 1 500 peers "a" (String (Ascii.ascii_of_nat (65 + i)) EmptyString) true 20) = Some "c"%string) (seq 0 32).
Proof. split; [by vm_compute|]. split; [by vm_compute|]. apply (bool_decide_unpack _). by vm_compute. Qed.

End Balance.
