(* ===== verification/Drain.v ===== *)
(** * The fleet drain token and the readiness gate

    Models [crates/logic/drain.rs], the policy, and [crates/celld/drain_token.rs],
    the token object in the bucket: claims, renewals and releases by conditional
    writes whose answers may be lost.  The run of any number of donors is a step
    relation over the versions of the object; the theorem says that tenures of
    different nodes do not overlap. *)

From S2P Require Import Prelude Types.

Module Drain.

Record RestorationBaseline := mkRestorationBaseline {
  rb_node : string;
  rb_restoring : N;
}.

Record DrainToken := mkDrainToken {
  dt_node : string;
  dt_expires_ms : N;
  dt_baseline : list RestorationBaseline;
}.

(** [held_by_another] and [may_claim]. *)
Definition held_by_another (existing : option DrainToken) (node : string) (now_ms : N) : bool :=
  is_some_and (λ t, negb (bool_decide (dt_node t = node)) && (now_ms <? dt_expires_ms t)) existing.
Definition may_claim (existing : option DrainToken) (node : string) (now_ms : N) : bool :=
  negb (held_by_another existing node now_ms).

Inductive FleetUnsettled :=
| UnsettledDrain
| Unreadable
| SelfUnpublished
| MemoryHeadroom (node : string)
| Restoration (current maximum : N)
| OwnershipSkew (current maximum : N).

Definition live_peers (peers : list CapacityPeer) (now_ms : N) : list CapacityPeer :=
  filter (λ p, now_ms < cp_expires_ms p) peers.

(** [Iterator::max] of counts and [Iterator::min] of names. *)
Definition max_count (l : list N) : option N :=
  match l with [] => None | x :: l => Some (foldl N.max x l) end.
Definition string_lt (a b : string) : bool := is_lt (String.compare a b).

(** [joining_contributes_successor_capacity]. *)
Definition joining_contributes_successor_capacity (peers : list CapacityPeer) (node : string) (now_ms : N) : bool :=
  let live := live_peers peers now_ms in
  is_some_and (λ joining,
    cp_paced_handoff joining
    && is_some_and (λ maximum, cp_resident_cells joining <? maximum)
         (max_count (cp_resident_cells <$> filter (λ p, cp_node p ≠ node) live)))
    (find_first (λ p, bool_decide (cp_node p = node)) live).

(** The peers that fail the memory gate of [fleet_status]. *)
Definition lacks_headroom (node : string) (joining_has_capacity : bool) (p : CapacityPeer) : bool :=
  if bool_decide (cp_memory_headroom p = Some false) then true
  else cp_pressured p
       && negb (negb (bool_decide (cp_node p = node)) && bool_decide (cp_memory_headroom p = Some true)
                && joining_has_capacity).

(** A node above its restore baseline, with its level and the maximum. *)
Definition over_baseline (token : DrainToken) (max_restoring : N) (p : CapacityPeer) : option (string * N * N) :=
  let baseline := default 0 (rb_restoring <$> find_first (λ b, bool_decide (rb_node b = cp_node p)) (dt_baseline token)) in
  let maximum := sat_add baseline max_restoring in
  if maximum <? cp_restoring p then Some (cp_node p, cp_restoring p, maximum) else None.

Definition u128_max : N := 340282366920938463463374607431768211455.
Definition sat128 (n : N) : N := N.min n u128_max.

(** The successor-share envelope of the incumbents' ownership. *)
Definition envelope (count total : N) : N :=
  let numerator := sat128 (total * sat128 (count + 1)) in
  let denominator := sat128 (count * count) in
  N.min (sat128 (numerator + (denominator - 1)) / denominator) u64_max.

(** The last gate of [fleet_status]: [Some (current, maximum)] where an
    incumbent is above the envelope. *)
Definition skew (live : list CapacityPeer) (node : string) : option (N * N) :=
  let incumbents := filter (λ p, cp_node p ≠ node) live in
  let count := N.of_nat (length incumbents) in
  if 1 <? count then
    let total := foldl (λ sum p, sat_add sum (cp_resident_cells p)) 0 incumbents in
    let maximum := envelope count total in
    let current := default 0 (max_count (cp_resident_cells <$> incumbents)) in
    if maximum <? current then Some (current, maximum) else None
  else None.

(** [fleet_status]. *)
Definition fleet_status (existing : option DrainToken) (node : string) (now_ms : N)
    (peers : list CapacityPeer) (max_restoring : N) : result unit FleetUnsettled :=
  if held_by_another existing node now_ms then Err UnsettledDrain
  else
    let live := live_peers peers now_ms in
    if negb (existsb (λ p, bool_decide (cp_node p = node)) live) then Err SelfUnpublished
    else
      let contributes := joining_contributes_successor_capacity peers node now_ms in
      let joining_has_capacity :=
        contributes && is_some_and (λ p, negb (cp_pressured p) && bool_decide (cp_memory_headroom p = Some true))
                         (find_first (λ p, bool_decide (cp_node p = node)) live) in
      match min_by string_lt (cp_node <$> filter (λ p, lacks_headroom node joining_has_capacity p = true) live) with
      | Some node => Err (MemoryHeadroom node)
      | None =>
          match existing ≫= λ token, min_by (λ a b, string_lt a.1.1 b.1.1) (omap (over_baseline token max_restoring) live) with
          | Some (_, current, maximum) => Err (Restoration current maximum)
          | None =>
              match skew live node with
              | Some (current, maximum) => if negb contributes then Err (OwnershipSkew current maximum) else Ok tt
              | None => Ok tt
              end
          end
      end.

(** ** The token object *)

Definition TOKEN_TTL_MS : N := 120000.

(** One version of the object: its token from the store and its content, [None]
    where the body does not parse. *)
Record Version := mkVersion {
  v_etag : string;
  v_token : option DrainToken;
}.

Record Hold := mkHold {
  h_etag : string;
  h_expires_ms : N;
  h_baseline : list RestorationBaseline;
}.

(** A conditional write of the object. *)
Record Put := mkPut {
  put_token : DrainToken;
  put_guard : option string;
}.

(** The decision of [try_claim]: what it read ([None] also for a failed read)
    and the write it sends. *)
Definition try_claim (current : option Version) (node : string) (now_ms : N)
    (baseline : list RestorationBaseline) : option Put :=
  if negb (may_claim (current ≫= v_token) node now_ms) then None
  else Some (mkPut (mkDrainToken node (wrap_add now_ms TOKEN_TTL_MS) baseline) (v_etag <$> current)).

(** [renew_due]. *)
Definition renew_due (h : Hold) (now_ms : N) : bool := h_expires_ms h <=? wrap_add now_ms (TOKEN_TTL_MS / 2).

(** The writes of [renew] and [release]. *)
Definition renew (node : string) (now_ms : N) (h : Hold) : Put :=
  mkPut (mkDrainToken node (wrap_add now_ms TOKEN_TTL_MS) (h_baseline h)) (Some (h_etag h)).
Definition release (node : string) (h : Hold) : Put :=
  mkPut (mkDrainToken node 0 (h_baseline h)) (Some (h_etag h)).

(** The hold a claim or renewal leaves when its write is acknowledged. *)
Definition held (p : Put) (etag : string) : Hold :=
  mkHold etag (dt_expires_ms (put_token p)) (dt_baseline (put_token p)).

(** [renew] after an ambiguous write: the object read back names this node. *)
Definition renew_readback (node : string) (current : option Version) (h : Hold) : option Hold :=
  match current with
  | Some v => match v_token v with
              | Some t => if bool_decide (dt_node t = node) then Some (mkHold (v_etag v) (dt_expires_ms t) (h_baseline h)) else None
              | None => None
              end
  | None => None
  end.

(** [Bucket::put_cas] on the token object: the versions are newest first. *)
Definition put_cas (p : Put) (etag : string) (versions : list Version) : option (list Version) :=
  let allowed := match put_guard p, versions with
                 | None, [] => true
                 | Some guard, v :: _ => bool_decide (v_etag v = guard)
                 | _, _ => false
                 end in
  if allowed then Some (mkVersion etag (Some (put_token p)) :: versions) else None.

(** ** Donors over one object *)

Record World := mkWorld {
  w_clock : N;
  w_versions : list Version;
  w_sent : list Put;
  w_holds : gmap string Hold;
}.

(** A store token identifies the content it was given to. *)
Definition honest (v : Version) (versions : list Version) : Prop :=
  ∀ v', v' ∈ versions → v_etag v' = v_etag v → v' = v.

(** The wall clock stays where adding a lifetime does not wrap. *)
Definition clock_ok (clock : N) : Prop := clock + TOKEN_TTL_MS ≤ u64_max.

Inductive step : World → World → Prop :=
| step_tick w clock : w_clock w ≤ clock → clock_ok clock →
    step w (mkWorld clock (w_versions w) (w_sent w) (w_holds w))
(** a claim reads the object (or fails to) and sends its write; its clock was
    read before *)
| step_claim w node now_ms baseline current p :
    now_ms ≤ w_clock w → (current = None ∨ current = head (w_versions w)) →
    try_claim current node now_ms baseline = Some p →
    step w (mkWorld (w_clock w) (w_versions w) (p :: w_sent w) (w_holds w))
| step_renew w node now_ms h :
    now_ms ≤ w_clock w → w_holds w !! node = Some h →
    step w (mkWorld (w_clock w) (w_versions w) (renew node now_ms h :: w_sent w) (w_holds w))
| step_release w node h :
    w_holds w !! node = Some h →
    step w (mkWorld (w_clock w) (w_versions w) (release node h :: w_sent w) (delete node (w_holds w)))
(** a write that was sent is applied, at any later time and whether or not its
    answer arrives *)
| step_apply w p etag versions :
    p ∈ w_sent w → put_cas p etag (w_versions w) = Some versions →
    honest (mkVersion etag (Some (put_token p))) (w_versions w) →
    step w (mkWorld (w_clock w) versions (w_sent w) (w_holds w))
| step_apply_held w p etag versions :
    p ∈ w_sent w → put_cas p etag (w_versions w) = Some versions →
    honest (mkVersion etag (Some (put_token p))) (w_versions w) →
    step w (mkWorld (w_clock w) versions (w_sent w) (<[dt_node (put_token p) := held p etag]> (w_holds w)))
| step_readback w node h h' :
    w_holds w !! node = Some h → renew_readback node (head (w_versions w)) h = Some h' →
    step w (mkWorld (w_clock w) (w_versions w) (w_sent w) (<[node := h']> (w_holds w)))
(** a node gives its hold up: a lost renewal, or the process ends *)
| step_drop w node :
    step w (mkWorld (w_clock w) (w_versions w) (w_sent w) (delete node (w_holds w))).

Inductive reachable : World → Prop :=
| reach_absent clock : clock_ok clock → reachable (mkWorld clock [] [] ∅)
| reach_garbled clock etag : clock_ok clock → reachable (mkWorld clock [mkVersion etag None] [] ∅)
| reach_step w w' : reachable w → step w w' → reachable w'.

(** ** Tenures *)

(** A version of another node replaced [old] only once [old] had lapsed by the
    claimant's clock, which is what its own expiry counts from. *)
Definition succeeds (old new : option DrainToken) : Prop :=
  match old, new with
  | Some old, Some new => dt_node old ≠ dt_node new → dt_expires_ms old + TOKEN_TTL_MS ≤ dt_expires_ms new
  | None, _ => True
  | Some _, None => False
  end.

Fixpoint tenures (versions : list Version) : Prop :=
  match versions with
  | new :: rest =>
      match rest with
      | old :: _ => succeeds (v_token old) (v_token new)
      | [] => True
      end ∧ tenures rest
  | [] => True
  end.

Definition expires_by (time : N) (token : option DrainToken) : Prop :=
  match token with Some t => dt_expires_ms t ≤ time | None => True end.

(** A write that may still be applied rests on a version the object had. *)
Definition put_ok (w : World) (p : Put) : Prop :=
  dt_expires_ms (put_token p) ≤ w_clock w + TOKEN_TTL_MS
  ∧ match put_guard p with
    | None => True
    | Some guard => ∃ v, v ∈ w_versions w ∧ v_etag v = guard ∧ succeeds (v_token v) (Some (put_token p))
    end.

Definition hold_ok (w : World) (node : string) (h : Hold) : Prop :=
  ∃ v t, v ∈ w_versions w ∧ v_etag v = h_etag h ∧ v_token v = Some t
    ∧ dt_node t = node ∧ dt_expires_ms t = h_expires_ms h.

Record inv (w : World) : Prop := {
  inv_clock : clock_ok (w_clock w);
  inv_tenures : tenures (w_versions w);
  inv_tokens : ∀ v v', v ∈ w_versions w → v' ∈ w_versions w → v_etag v = v_etag v' → v = v';
  inv_expiry : ∀ v, v ∈ w_versions w → expires_by (w_clock w + TOKEN_TTL_MS) (v_token v);
  inv_sent : ∀ p, p ∈ w_sent w → put_ok w p;
  inv_holds : ∀ node h, w_holds w !! node = Some h → hold_ok w node h;
}.

Lemma wrap_ttl now clock : now ≤ clock → clock_ok clock → wrap_add now TOKEN_TTL_MS = now + TOKEN_TTL_MS.
Proof. unfold wrap_add, clock_ok, u64_max. intros ? ?. apply N.mod_small. lia. Qed.

Lemma put_ok_mono w w' p :
  w_clock w ≤ w_clock w' → (∀ v, v ∈ w_versions w → v ∈ w_versions w') → put_ok w p → put_ok w' p.
Proof.
  intros Hc Hv [He Hg]. split; [lia|]. destruct (put_guard p); [|done].
  destruct Hg as (v & Hin & ? & ?). exists v. auto.
Qed.

Lemma hold_ok_mono w w' node h : (∀ v, v ∈ w_versions w → v ∈ w_versions w') → hold_ok w node h → hold_ok w' node h.
Proof. intros Hv (v & t & Hin & ?). exists v, t. auto. Qed.

Lemma expires_by_mono time time' token : time ≤ time' → expires_by time token → expires_by time' token.
Proof. destruct token; simpl; lia. Qed.

(** A claim another node's token allows starts after that token lapsed. *)
Lemma claim_put_ok w node now baseline current p :
  inv w → now ≤ w_clock w → (current = None ∨ current = head (w_versions w)) →
  try_claim current node now baseline = Some p → put_ok w p.
Proof.
  intros Hi Hnow Hcur. unfold try_claim, may_claim. rewrite negb_involutive.
  destruct (held_by_another _ _ _) eqn:Hh; [done|]. intros [= <-]. simpl.
  unfold put_ok. simpl. rewrite (wrap_ttl _ _ Hnow (inv_clock _ Hi)). split; [lia|].
  destruct current as [v|]; simpl; [|done]. destruct Hcur as [|Hcur]; [done|].
  exists v. split; [by apply head_Some_elem_of|]. split; [done|]. simpl in Hh.
  destruct (v_token v) as [t|]; simpl in *; [|done]. intros Hne. rewrite bool_decide_eq_false_2 in Hh by done.
  simpl in Hh. apply N.ltb_ge in Hh. lia.
Qed.

(** A renewal and a release keep the node of the version they replace. *)
Lemma own_put_ok w node h expires :
  hold_ok w node h → expires ≤ w_clock w + TOKEN_TTL_MS →
  put_ok w (mkPut (mkDrainToken node expires (h_baseline h)) (Some (h_etag h))).
Proof.
  intros (v & t & Hin & Hv & Ht & Hn & _) He. split; [done|]. simpl. exists v. split; [done|]. split; [done|].
  rewrite Ht. simpl. by rewrite Hn.
Qed.

(** What an applied write does to the versions. *)
Lemma applied_inv w p etag versions holds :
  inv w → p ∈ w_sent w → put_cas p etag (w_versions w) = Some versions →
  honest (mkVersion etag (Some (put_token p))) (w_versions w) →
  (∀ node h, holds !! node = Some h → hold_ok (mkWorld (w_clock w) versions (w_sent w) holds) node h) →
  inv (mkWorld (w_clock w) versions (w_sent w) holds).
Proof.
  intros [Hc Ht Hk He Hs Hh] Hp Hput Hon Hhold. unfold put_cas in Hput. case_match eqn:Ha; [|done]. injection Hput as <-.
  destruct (Hs p Hp) as [Hpe Hpg]. split; simpl; try done.
  - split; [|done]. destruct (w_versions w) as [|v rest]; [done|]. destruct (put_guard p) as [guard|]; [|done].
    apply bool_decide_eq_true in Ha. destruct Hpg as (v' & Hin & Hg & Hsucc).
    assert (v' = v) as -> by (apply Hk; [done|constructor|congruence]). done.
  - intros v v' [->|Hv]%elem_of_cons [->|Hv']%elem_of_cons Heq; [done|symmetry; by apply Hon|by apply Hon|auto].
  - intros v [->|Hv]%elem_of_cons; [done|auto].
  - intros q Hq. eapply (put_ok_mono w); [done| |auto]. intros v Hv. by right.
Qed.

Lemma token_step_inv w w' : inv w → step w w' → inv w'.
Proof.
  intros Hi Hstep. pose proof Hi as [Hc Ht Hk He Hs Hh].
  destruct Hstep as [w clock Hle Hok|w node now baseline current p Hnow Hcur Hp|w node now h Hnow Hn|w node h Hn
    |w p etag versions Hp Hput Hon|w p etag versions Hp Hput Hon|w node h h' Hn Hr|w node].
  - split; simpl; try done.
    + intros v Hv. eapply expires_by_mono; [|by apply He]. lia.
    + intros p Hp. by eapply (put_ok_mono w); [done| |auto].
  - split; simpl; try done. intros q [->|Hq]%elem_of_cons; [by eapply (claim_put_ok w)|by apply Hs].
  - split; simpl; try done. intros q [->|Hq]%elem_of_cons; [|by apply Hs]. apply (own_put_ok w); [auto|].
    rewrite (wrap_ttl _ _ Hnow Hc). simpl. lia.
  - split; simpl; try done.
    + intros q [->|Hq]%elem_of_cons; [|by apply Hs]. apply (own_put_ok w); [auto|lia].
    + intros n h' [_ ?]%lookup_delete_Some. by apply Hh.
  - apply (applied_inv w p etag); try done. intros n h Hn. eapply (hold_ok_mono w); [|auto].
    simpl. unfold put_cas in Hput. case_match; [|done]. injection Hput as <-. intros v Hv. by right.
  - apply (applied_inv w p etag); try done. unfold put_cas in Hput. case_match; [|done]. injection Hput as <-.
    intros n h [[<- <-]|[_ Hn]]%lookup_insert_Some.
    + exists (mkVersion etag (Some (put_token p))), (put_token p). simpl. by split; [constructor|].
    + eapply (hold_ok_mono w); [|auto]. intros v Hv. by right.
  - split; simpl; try done. intros n h1 [[<- <-]|[_ ?]]%lookup_insert_Some; [|by apply Hh].
    unfold renew_readback in Hr. destruct (head (w_versions w)) as [v|] eqn:Ev; [|done].
    destruct (v_token v) as [t|] eqn:Et; [|done]. case_bool_decide; [|done]. injection Hr as <-.
    exists v, t. simpl. by split; [apply head_Some_elem_of|].
  - split; simpl; try done. intros n h' [_ ?]%lookup_delete_Some. by apply Hh.
Qed.

Lemma token_reachable_inv w : reachable w → inv w.
Proof.
  induction 1 as [clock Hc|clock etag Hc|w w' _ IH Hs]; [| |by eapply token_step_inv].
  - split; simpl; try done; [by intros ? ? ?%elem_of_nil|by intros ? ?%elem_of_nil|by intros ? ?%elem_of_nil].
  - split; simpl; try done.
    + by intros v v' ->%list_elem_of_singleton ->%list_elem_of_singleton.
    + by intros v ->%list_elem_of_singleton.
    + by intros ? ?%elem_of_nil.
Qed.

(** C16: Donors are serialized by the drain token.  However claims, renewals,
    releases and restarts of any number of nodes interleave, and whichever
    answers are lost: a version of another node's token is only ever followed by
    a claim that counts its lifetime from after that token expired; every hold
    is a version the object had; and while the current claim is unexpired, the
    only node that can replace it is its holder. *)
Theorem token_serializes w :
  reachable w →
  tenures (w_versions w)
  ∧ (∀ node h, w_holds w !! node = Some h → hold_ok w node h)
  ∧ (∀ w' v t, step w w' → head (w_versions w) = Some v → v_token v = Some t → w_clock w < dt_expires_ms t →
       head (w_versions w') = Some v
       ∨ ∃ v' t', head (w_versions w') = Some v' ∧ v_token v' = Some t' ∧ dt_node t' = dt_node t).
Proof.
  intros Hr. pose proof (token_reachable_inv w Hr) as Hi. split; [apply Hi|]. split; [apply Hi|].
  intros w' v t Hs Hv Ht Hlive. pose proof (token_step_inv w w' Hi Hs) as Hi'.
  assert (w_versions w' = w_versions w ∨
    ∃ v' t', w_versions w' = v' :: w_versions w ∧ v_token v' = Some t' ∧ dt_expires_ms t' ≤ w_clock w + TOKEN_TTL_MS)
    as [->|(v' & t' & Heq & Ht' & He)]; [|by left|].
  { assert (∀ p etag versions, p ∈ w_sent w → put_cas p etag (w_versions w) = Some versions →
      ∃ v' t', versions = v' :: w_versions w ∧ v_token v' = Some t' ∧ dt_expires_ms t' ≤ w_clock w + TOKEN_TTL_MS) as Happ.
    { intros p etag versions Hp. unfold put_cas. case_match; [|done]. intros [= <-].
      exists (mkVersion etag (Some (put_token p))), (put_token p). split; [done|]. split; [done|]. by apply (inv_sent w Hi). }
    destruct Hs; simpl; eauto. }
  right. exists v', t'. rewrite Heq. split; [done|]. split; [done|].
  pose proof (inv_tenures w' Hi') as Hten. rewrite Heq in Hten. destruct (w_versions w) as [|v0 rest]; [done|].
  simpl in Hv. injection Hv as ->. destruct Hten as [Hsucc _]. rewrite Ht, Ht' in Hsucc. simpl in Hsucc.
  destruct (decide (dt_node t = dt_node t')) as [|Hne]; [done|]. specialize (Hsucc Hne). lia.
Qed.

Lemma token_serializes_witness :
  ∃ w, reachable w ∧ w_holds w !! "a"%string = Some (mkHold "e1" 121000 []) ∧ tenures (w_versions w).
Proof.
  set (p := mkPut (mkDrainToken "a" 121000 []) None).
  set (w1 := mkWorld 1000 [] [p] ∅).
  set (w2 := mkWorld 1000 [mkVersion "e1" (Some (put_token p))] [p] (<["a"%string := held p "e1"]> ∅)).
  assert (reachable w2) as Hr.
  { apply (reach_step w1); [apply (reach_step (mkWorld 1000 [] [] ∅)); [by constructor|]|].
    - by apply (step_claim (mkWorld 1000 [] [] ∅) "a" 1000 [] None p); [| left|].
    - apply (step_apply_held w1 p "e1"); [left|done|]. by intros ? ?%elem_of_nil. }
  exists w2. split; [done|]. split; [done|]. apply (token_serializes w2 Hr).
Defined.

(** ** The readiness gate *)

Lemma min_by_None {A} (lt : A → A → bool) l : min_by lt l = None → l = [].
Proof. by destruct l. Qed.

Lemma foldl_max_bound x l y : y ≤ x ∨ y ∈ l → y ≤ foldl N.max x l.
Proof.
  revert x. induction l as [|z l IH]; intros x Hy; simpl.
  - destruct Hy as [|?%elem_of_nil]; done.
  - apply IH. destruct Hy as [|[->|]%elem_of_cons]; [left; lia|left; lia|by right].
Qed.

Lemma max_count_ge l y : y ∈ l → y ≤ default 0 (max_count l).
Proof.
  destruct l as [|x l]; [by intros ?%elem_of_nil|]. simpl. intros [->|Hy]%elem_of_cons; apply foldl_max_bound; [by left|by right].
Qed.

(** An open gate: no other donor, the joining node published, no live peer out
    of memory headroom, every live node back at its restore baseline plus one
    activation budget, and the incumbents' ownership inside the successor-share
    envelope unless the joining node can take the skew. *)
Lemma fleet_status_settled existing node now peers max_restoring :
  fleet_status existing node now peers max_restoring = Ok tt →
  held_by_another existing node now = false
  ∧ (∃ p, p ∈ live_peers peers now ∧ cp_node p = node)
  ∧ (∀ p, p ∈ live_peers peers now → cp_memory_headroom p ≠ Some false)
  ∧ (∀ token p, existing = Some token → p ∈ live_peers peers now → over_baseline token max_restoring p = None)
  ∧ (joining_contributes_successor_capacity peers node now = true
     ∨ let incumbents := filter (λ p, cp_node p ≠ node) (live_peers peers now) in
       (1 < length incumbents)%nat → ∀ p, p ∈ incumbents →
         cp_resident_cells p ≤ envelope (N.of_nat (length incumbents))
                                 (foldl (λ sum p, sat_add sum (cp_resident_cells p)) 0 incumbents)).
Proof.
  unfold fleet_status. destruct (held_by_another _ _ _); [done|].
  destruct (existsb _ _) eqn:Hex; simpl; [|done].
  destruct (min_by _ (cp_node <$> _)) eqn:Hm; [done|]. apply min_by_None, fmap_nil_inv in Hm.
  destruct (existing ≫= _) as [[[? ?] ?]|] eqn:Hb; [done|]. intros Hs. split; [done|]. split_and!.
  - apply existsb_exists in Hex as (p & Hp & Hn). exists p. split; [by apply list_elem_of_In|]. by apply bool_decide_eq_true in Hn.
  - intros p Hp Hh.
    assert (p ∈ @nil CapacityPeer) as ?%elem_of_nil; [|done].
    rewrite <-Hm. apply list_elem_of_filter. split; [|done]. unfold lacks_headroom. by rewrite bool_decide_eq_true_2.
  - intros token p -> Hp. simpl in Hb. apply min_by_None in Hb.
    destruct (over_baseline token max_restoring p) as [r|] eqn:Er; [|done].
    assert (r ∈ @nil (string * N * N)) as ?%elem_of_nil; [|done]. rewrite <-Hb. apply list_elem_of_omap. eauto.
  - destruct (joining_contributes_successor_capacity peers node now); [by left|]. right. intros Hlen p Hp.
    unfold skew in Hs. assert ((1 <? N.of_nat (length (filter (λ p, cp_node p ≠ node) (live_peers peers now)))) = true) as Hc by
      (apply N.ltb_lt; lia).
    rewrite Hc in Hs. destruct (N.ltb_spec (envelope (N.of_nat (length (filter (λ p, cp_node p ≠ node) (live_peers peers now))))
      (foldl (λ sum p, sat_add sum (cp_resident_cells p)) 0 (filter (λ p, cp_node p ≠ node) (live_peers peers now))))
      (default 0 (max_count (cp_resident_cells <$> filter (λ p, cp_node p ≠ node) (live_peers peers now))))) as [|Hle]; [done|].
    etransitivity; [|exact Hle]. apply max_count_ge. by apply list_elem_of_fmap_2.
Qed.

End Drain.
