(* ===== verification/CoreState.v ===== *)
(** * The state of the decision core

    Models the data of [crates/logic/lib.rs]: the phases of a cell, the cell
    record, the node authority, the complete [State], and the functions that
    classify a phase.  One setter per field is derived from the record.

    The field [drain_table_visits], compiled only under the internal-test
    configuration, is left out. *)

From S2P Require Import Prelude Effects Pressure LogTier Wake Types.

(** [Activation], [ColdStart] and [WhenFull]. *)
Inductive Activation :=
| ActClaim (claim : Claim)
| ActRestore (spec : RestoreSpec).

Inductive ColdStart :=
| ColdReadOwner
| ColdRestore (spec : RestoreSpec).

Inductive WhenFull := ShedToAdmit | HoldResidents.

Definition MAX_ACQUIRE_RECONCILES : N := 3.

(** [RemoteLeaseDeadline] with [observed] and [live]. *)
Record RemoteLeaseDeadline := mkRemoteLeaseDeadline {
  dl_expires_ms : N;
  dl_expires_mono_ms : N;
}.

Definition deadline_observed (expires_ms issued_mono_ms received_ms : N) : RemoteLeaseDeadline :=
  mkRemoteLeaseDeadline expires_ms (sat_add issued_mono_ms (sat_sub expires_ms received_ms)).

Definition deadline_live (d : RemoteLeaseDeadline) (now_ms now_mono_ms : N) : bool :=
  (now_ms <? dl_expires_ms d) && (now_mono_ms <? dl_expires_mono_ms d).

(** [RemoteCache] with [reusable]. *)
Inductive RemoteCache :=
| OwnerLease (deadline : RemoteLeaseDeadline)
| CapacitySample (sampled_ms : N) (deadline : RemoteLeaseDeadline)
| Uncached.

Definition reusable (c : RemoteCache) (now_ms now_mono_ms : N) : bool :=
  match c with
  | OwnerLease deadline | CapacitySample _ deadline => deadline_live deadline now_ms now_mono_ms
  | Uncached => false
  end.

Record CachedNodeLease := mkCachedNodeLease {
  cnl_record : NodeLeaseRecord;
  cnl_deadline : RemoteLeaseDeadline;
}.

(** [Phase]. *)
Inductive Phase :=
| PhInactive
| PhWaitingActivation
| PhReadingOwner (op : N)
| PhReadingNodeLease (op : N) (owner : OwnerRecord) (issued_ms issued_mono_ms : N)
| PhRecoveringOwnerLog (op : N) (owner : OwnerRecord)
| PhWaitingOwnerLogRecovery (generation : N)
| PhReadingCapacity (op : N) (claim : Claim) (issued_mono_ms : N)
| PhWaitingCapacity
| PhAcquiring (op : N) (claim : Claim) (dormant : bool)
| PhReconcilingAcquire (op : N) (claim : Claim) (dormant : bool)
| PhRestoring (op : N) (spec : RestoreSpec)
| PhStarting (op epoch : N)
| PhPublishing (op epoch : N)
| PhEnsuringDurability (op epoch : N)
| PhCleaning (op epoch : N) (cause : StopCause)
| PhDormant (epoch : N)
| PhAdopting (op released_epoch : N)
| PhResident (epoch : N)
| PhRemote (node addr : string) (epoch peer_protocol : N) (cache : RemoteCache)
| PhFenced.

(** [phase_name]. *)
Definition phase_name (p : Phase) : string :=
  match p with
  | PhInactive => "inactive"
  | PhWaitingActivation => "waiting_activation"
  | PhReadingOwner _ => "reading_owner"
  | PhReadingNodeLease _ _ _ _ => "reading_node_lease"
  | PhRecoveringOwnerLog _ _ => "recovering_owner_log"
  | PhWaitingOwnerLogRecovery _ => "waiting_owner_log_recovery"
  | PhReadingCapacity _ _ _ => "reading_capacity"
  | PhWaitingCapacity => "waiting_capacity"
  | PhAcquiring _ _ _ => "acquiring"
  | PhReconcilingAcquire _ _ _ => "reconciling_acquire"
  | PhRestoring _ _ => "restoring"
  | PhStarting _ _ => "starting"
  | PhPublishing _ _ => "publishing"
  | PhEnsuringDurability _ _ => "ensuring_durability"
  | PhCleaning _ _ StopSwap => "swapping"
  | PhCleaning _ _ _ => "cleaning"
  | PhDormant _ => "dormant"
  | PhAdopting _ _ => "adopting"
  | PhResident _ => "resident"
  | PhRemote _ _ _ _ _ => "remote"
  | PhFenced => "fenced"
  end.

(** [phase_occupies_capacity]. *)
Definition phase_occupies_capacity (p : Phase) : bool :=
  match p with
  | PhAcquiring _ _ false | PhReconcilingAcquire _ _ false | PhRestoring _ _
  | PhStarting _ _ | PhPublishing _ _ | PhEnsuringDurability _ _ | PhCleaning _ _ _
  | PhResident _ => true
  | _ => false
  end.

(** [phase_holds_activation]. *)
Definition phase_holds_activation (p : Phase) : bool :=
  match p with
  | PhReadingOwner _ | PhReadingNodeLease _ _ _ _ | PhRecoveringOwnerLog _ _
  | PhReadingCapacity _ _ _ | PhWaitingCapacity | PhAcquiring _ _ _
  | PhReconcilingAcquire _ _ _ | PhRestoring _ _ | PhStarting _ _ | PhPublishing _ _
  | PhCleaning _ _ _ => true
  | _ => false
  end.

(** [phase_requires_activation_permit]. *)
Definition phase_requires_activation_permit (p : Phase) (swapping : bool) : bool :=
  match p with
  | PhReadingOwner _ | PhReadingNodeLease _ _ _ _ | PhRecoveringOwnerLog _ _
  | PhReadingCapacity _ _ _ | PhWaitingCapacity | PhAcquiring _ _ _
  | PhReconcilingAcquire _ _ _ | PhRestoring _ _ => true
  | PhStarting _ _ | PhPublishing _ _ => negb swapping
  | _ => false
  end.

(** [phase_op]. *)
Definition phase_op (p : Phase) : option N :=
  match p with
  | PhReadingOwner op | PhReadingNodeLease op _ _ _ | PhRecoveringOwnerLog op _
  | PhReadingCapacity op _ _ | PhAcquiring op _ _ | PhReconcilingAcquire op _ _
  | PhRestoring op _ | PhStarting op _ | PhPublishing op _ | PhEnsuringDurability op _
  | PhCleaning op _ _ | PhAdopting op _ => Some op
  | _ => None
  end.

(** [phase_owned_epoch]. *)
Definition phase_owned_epoch (p : Phase) : option N :=
  match p with
  | PhRestoring _ spec => Some (rs_epoch spec)
  | PhStarting _ epoch | PhPublishing _ epoch | PhEnsuringDurability _ epoch
  | PhCleaning _ epoch _ | PhDormant epoch | PhResident epoch => Some epoch
  | _ => None
  end.

(** [runtime_epoch]. *)
Definition runtime_epoch (p : Phase) : option N :=
  match p with
  | PhPublishing _ epoch | PhEnsuringDurability _ epoch | PhCleaning _ epoch _
  | PhResident epoch => Some epoch
  | _ => None
  end.

(** The phase patterns the handlers match on. *)
Definition is_resident (p : Phase) : bool :=
  match p with PhResident _ => true | _ => false end.
Definition is_resident_or_ensuring (p : Phase) : bool :=
  match p with PhResident _ | PhEnsuringDurability _ _ => true | _ => false end.
Definition is_dormant (p : Phase) : bool :=
  match p with PhDormant _ => true | _ => false end.
Definition is_ensuring (p : Phase) : bool :=
  match p with PhEnsuringDurability _ _ => true | _ => false end.
Definition is_inactive (p : Phase) : bool :=
  match p with PhInactive => true | _ => false end.
Definition is_waiting_activation (p : Phase) : bool :=
  match p with PhWaitingActivation => true | _ => false end.
Definition is_waiting_capacity (p : Phase) : bool :=
  match p with PhWaitingCapacity => true | _ => false end.
Definition is_adopting (p : Phase) : bool :=
  match p with PhAdopting _ _ => true | _ => false end.
Definition is_cleaning (p : Phase) : bool :=
  match p with PhCleaning _ _ _ => true | _ => false end.

(** [Held], [GateOwner], [Rider] and [Barrier]. *)
Record Held := mkHeld {
  h_request : N;
  h_channel : Channel;
}.

#[global] Instance Held_eq_dec : EqDecision Held.
Proof. solve_decision. Defined.

Inductive GateOwner :=
| OwnOutput (held : Held)
| OwnAlarm (alarm : N) (snapshot : AlarmSnapshot) (covered : bool)
| OwnExport (ticket : N).

Record Rider := mkRider {
  r_ticket : N;
  r_position : N;
}.

Record Barrier := mkBarrier {
  b_owner : GateOwner;
  b_cell : string;
  b_epoch : N;
  b_position : N;
  b_followers : list Held;
  b_verifying : bool;
  b_riders : list Rider;
}.

(** [Barrier::trailable]. *)
Definition trailable (b : Barrier) : bool :=
  match b_owner b with OwnExport _ => false | _ => true end.

(** [DrainPin]. *)
Record DrainPin := mkDrainPin {
  dp_cell : string;
  dp_request : option N;
  dp_active_request_count : nat;
  dp_output_gate_count : nat;
  dp_regular_websocket_count : nat;
  dp_outbound_websocket_count : nat;
}.

(** [AlarmState] and [AlarmObservation]. *)
Inductive AlarmState :=
| AlArmed (at_ms : Z) (generation : N) (covered : bool)
| AlFiring (op : N) (at_ms : Z) (generation : N) (covered : bool)
    (observed : option (AlarmSnapshot * bool)).

Definition is_firing (a : option AlarmState) : bool :=
  match a with Some (AlFiring _ _ _ _ _) => true | _ => false end.

Record AlarmObservation := mkAlarmObservation {
  ao_alarm : AlarmSnapshot;
  ao_covered : bool;
  ao_firing_settled : bool;
}.

(** [Cell]. *)
Record Cell := mkCell {
  c_phase : Phase;
  c_proven_position : option (N * N);
  c_owner_log_recovery_attempts : N;
  c_quiescing : bool;
  c_requests : gset N;
  c_websockets : gmap N WebSocketKind;
  c_waiting_for : option Activation;
  c_waiting_activation : option ColdStart;
  c_releasing : option N;
  c_evict_rebalance : bool;
  c_held_epoch : option N;
  c_handoff : bool;
  c_alarm : option AlarmState;
  c_alarm_source : option PublicationId;
  c_alarm_wake : bool;
  c_resume_demand : bool;
  c_confirming : bool;
  c_eviction_refused_mono_ms : option N;
  c_isolate : option N;
  c_generation : N;
  c_swapping : bool;
  c_swap_cancelled : bool;
  c_queued_generation : option N;
  c_last_used_mono_ms : N;
  c_last_used_request : N;
  c_local_request_count : N;
}.

(** [Cell::default]. *)
Definition Cell_default : Cell :=
  mkCell PhInactive None 0 false ∅ ∅ None None None false None false None None false false
    false None None 0 false false None 0 0 0.

Definition Cell_eta (c : Cell) : Cell :=
  mkCell (c_phase c) (c_proven_position c) (c_owner_log_recovery_attempts c) (c_quiescing c)
    (c_requests c) (c_websockets c) (c_waiting_for c) (c_waiting_activation c)
    (c_releasing c) (c_evict_rebalance c) (c_held_epoch c) (c_handoff c) (c_alarm c)
    (c_alarm_source c) (c_alarm_wake c) (c_resume_demand c) (c_confirming c)
    (c_eviction_refused_mono_ms c) (c_isolate c) (c_generation c) (c_swapping c)
    (c_swap_cancelled c) (c_queued_generation c) (c_last_used_mono_ms c)
    (c_last_used_request c) (c_local_request_count c).

Definition set_c_phase (v : Phase) (c : Cell) : Cell :=
  ltac:(record_set Cell_eta c_phase c v).
Definition set_c_proven_position (v : option (N * N)) (c : Cell) : Cell :=
  ltac:(record_set Cell_eta c_proven_position c v).
Definition set_c_owner_log_recovery_attempts (v : N) (c : Cell) : Cell :=
  ltac:(record_set Cell_eta c_owner_log_recovery_attempts c v).
Definition set_c_quiescing (v : bool) (c : Cell) : Cell :=
  ltac:(record_set Cell_eta c_quiescing c v).
Definition set_c_requests (v : gset N) (c : Cell) : Cell :=
  ltac:(record_set Cell_eta c_requests c v).
Definition set_c_websockets (v : gmap N WebSocketKind) (c : Cell) : Cell :=
  ltac:(record_set Cell_eta c_websockets c v).
Definition set_c_waiting_for (v : option Activation) (c : Cell) : Cell :=
  ltac:(record_set Cell_eta c_waiting_for c v).
Definition set_c_waiting_activation (v : option ColdStart) (c : Cell) : Cell :=
  ltac:(record_set Cell_eta c_waiting_activation c v).
Definition set_c_releasing (v : option N) (c : Cell) : Cell :=
  ltac:(record_set Cell_eta c_releasing c v).
Definition set_c_evict_rebalance (v : bool) (c : Cell) : Cell :=
  ltac:(record_set Cell_eta c_evict_rebalance c v).
Definition set_c_held_epoch (v : option N) (c : Cell) : Cell :=
  ltac:(record_set Cell_eta c_held_epoch c v).
Definition set_c_handoff (v : bool) (c : Cell) : Cell :=
  ltac:(record_set Cell_eta c_handoff c v).
Definition set_c_alarm (v : option AlarmState) (c : Cell) : Cell :=
  ltac:(record_set Cell_eta c_alarm c v).
Definition set_c_alarm_source (v : option PublicationId) (c : Cell) : Cell :=
  ltac:(record_set Cell_eta c_alarm_source c v).
Definition set_c_alarm_wake (v : bool) (c : Cell) : Cell :=
  ltac:(record_set Cell_eta c_alarm_wake c v).
Definition set_c_resume_demand (v : bool) (c : Cell) : Cell :=
  ltac:(record_set Cell_eta c_resume_demand c v).
Definition set_c_confirming (v : bool) (c : Cell) : Cell :=
  ltac:(record_set Cell_eta c_confirming c v).
Definition set_c_eviction_refused_mono_ms (v : option N) (c : Cell) : Cell :=
  ltac:(record_set Cell_eta c_eviction_refused_mono_ms c v).
Definition set_c_isolate (v : option N) (c : Cell) : Cell :=
  ltac:(record_set Cell_eta c_isolate c v).
Definition set_c_generation (v : N) (c : Cell) : Cell :=
  ltac:(record_set Cell_eta c_generation c v).
Definition set_c_swapping (v : bool) (c : Cell) : Cell :=
  ltac:(record_set Cell_eta c_swapping c v).
Definition set_c_swap_cancelled (v : bool) (c : Cell) : Cell :=
  ltac:(record_set Cell_eta c_swap_cancelled c v).
Definition set_c_queued_generation (v : option N) (c : Cell) : Cell :=
  ltac:(record_set Cell_eta c_queued_generation c v).
Definition set_c_last_used_mono_ms (v : N) (c : Cell) : Cell :=
  ltac:(record_set Cell_eta c_last_used_mono_ms c v).
Definition set_c_last_used_request (v : N) (c : Cell) : Cell :=
  ltac:(record_set Cell_eta c_last_used_request c v).
Definition set_c_local_request_count (v : N) (c : Cell) : Cell :=
  ltac:(record_set Cell_eta c_local_request_count c v).

(** [HeldNodeLease], [PendingNodeLease] and [NodeAuthority]. *)
Record HeldNodeLease := mkHeldNodeLease {
  hl_spec : NodeLeaseSpec;
  hl_record : NodeLeaseRecord;
  hl_last_ok_mono_ms : N;
  hl_last_attempt_mono_ms : N;
  hl_timer_generation : N;
}.

Record PendingNodeLease := mkPendingNodeLease {
  pl_spec : NodeLeaseSpec;
  pl_desired : NodeLeaseRecord;
  pl_prior : option HeldNodeLease;
  pl_readback_only : bool;
  pl_anchor_mono_ms : N;
  pl_resume_local : bool;
}.

Inductive NodeAuthority :=
| AuUnstarted
| AuReading (op : N) (pending : PendingNodeLease)
| AuWriting (op : N) (pending : PendingNodeLease)
| AuHeld (held : HeldNodeLease)
| AuRetrying (spec : NodeLeaseSpec) (generation : N)
| AuFailed
| AuFenced.

(** [ShedCut]. *)
Record ShedCut := mkShedCut {
  sc_metric : Metric;
  sc_bytes : N;
  sc_cells : N;
}.

(** [State]. *)
Record State := mkState {
  st_node : string;
  st_config : Config;
  st_fenced : bool;
  st_draining : bool;
  st_quiescing_cells : gset string;
  st_releasing_cells : gset string;
  st_adopting_cells : gset string;
  st_resuming : bool;
  st_resuming_cells : gset string;
  st_confirming : bool;
  st_confirming_cells : gset string;
  st_next_op : N;
  st_next_timer_generation : N;
  st_cells : gmap string Cell;
  st_request_cells : gmap N string;
  st_active_requests : gmap N string;
  st_active_cells : gmap string N;
  st_admitted_gates : gset N;
  st_admitted_gate_cells : gmap string N;
  st_barriers : gmap N Barrier;
  st_gate_pinned : gset N;
  st_worker_cursor : option string;
  st_activity : ActivitySnapshot;
  st_activation_waiters : list string;
  st_activation_permits : gset string;
  st_eviction_permits : gset string;
  st_eviction_notifications : gmap N (gset N);
  st_capacity_waiters : list string;
  st_capacity_requests : gset N;
  st_handoff_requests : gset N;
  st_capacity_reservations : gmap string N;
  st_capacity_samples : gmap string N;
  st_capacity_rejections : gmap string N;
  st_node_lease_cache : gmap string CachedNodeLease;
  st_retired_runtime_ops : gmap N (string * N);
  st_timed_out_runtime_starts : gset N;
  st_cell_ops : gmap N string;
  st_occupied : N;
  st_node_authority : NodeAuthority;
  st_nudge_pending : bool;
  st_now_ms : N;
  st_now_mono_ms : N;
  st_shed_floor : N;
  st_shed_cut : option ShedCut;
  st_latches : Latches;
  st_current_generation : N;
  st_generation_changed_mono_ms : N;
  st_swap_max_age_ms : N;
  st_swap_eager_classes : gset string;
  st_shedding : bool;
  st_memory_headroom : bool;
  st_shed_reason : option ShedReason;
}.

Definition State_eta (s : State) : State :=
  mkState (st_node s) (st_config s) (st_fenced s) (st_draining s) (st_quiescing_cells s)
    (st_releasing_cells s) (st_adopting_cells s) (st_resuming s) (st_resuming_cells s)
    (st_confirming s) (st_confirming_cells s) (st_next_op s) (st_next_timer_generation s)
    (st_cells s) (st_request_cells s) (st_active_requests s) (st_active_cells s)
    (st_admitted_gates s) (st_admitted_gate_cells s) (st_barriers s) (st_gate_pinned s)
    (st_worker_cursor s) (st_activity s) (st_activation_waiters s) (st_activation_permits s)
    (st_eviction_permits s) (st_eviction_notifications s) (st_capacity_waiters s)
    (st_capacity_requests s) (st_handoff_requests s) (st_capacity_reservations s)
    (st_capacity_samples s) (st_capacity_rejections s) (st_node_lease_cache s)
    (st_retired_runtime_ops s) (st_timed_out_runtime_starts s) (st_cell_ops s)
    (st_occupied s) (st_node_authority s) (st_nudge_pending s) (st_now_ms s)
    (st_now_mono_ms s) (st_shed_floor s) (st_shed_cut s) (st_latches s)
    (st_current_generation s) (st_generation_changed_mono_ms s) (st_swap_max_age_ms s)
    (st_swap_eager_classes s) (st_shedding s) (st_memory_headroom s) (st_shed_reason s).

Definition set_st_node (v : string) (s : State) : State :=
  ltac:(record_set State_eta st_node s v).
Definition set_st_config (v : Config) (s : State) : State :=
  ltac:(record_set State_eta st_config s v).
Definition set_st_fenced (v : bool) (s : State) : State :=
  ltac:(record_set State_eta st_fenced s v).
Definition set_st_draining (v : bool) (s : State) : State :=
  ltac:(record_set State_eta st_draining s v).
Definition set_st_quiescing_cells (v : gset string) (s : State) : State :=
  ltac:(record_set State_eta st_quiescing_cells s v).
Definition set_st_releasing_cells (v : gset string) (s : State) : State :=
  ltac:(record_set State_eta st_releasing_cells s v).
Definition set_st_adopting_cells (v : gset string) (s : State) : State :=
  ltac:(record_set State_eta st_adopting_cells s v).
Definition set_st_resuming (v : bool) (s : State) : State :=
  ltac:(record_set State_eta st_resuming s v).
Definition set_st_resuming_cells (v : gset string) (s : State) : State :=
  ltac:(record_set State_eta st_resuming_cells s v).
Definition set_st_confirming (v : bool) (s : State) : State :=
  ltac:(record_set State_eta st_confirming s v).
Definition set_st_confirming_cells (v : gset string) (s : State) : State :=
  ltac:(record_set State_eta st_confirming_cells s v).
Definition set_st_next_op (v : N) (s : State) : State :=
  ltac:(record_set State_eta st_next_op s v).
Definition set_st_next_timer_generation (v : N) (s : State) : State :=
  ltac:(record_set State_eta st_next_timer_generation s v).
Definition set_st_cells (v : gmap string Cell) (s : State) : State :=
  ltac:(record_set State_eta st_cells s v).
Definition set_st_request_cells (v : gmap N string) (s : State) : State :=
  ltac:(record_set State_eta st_request_cells s v).
Definition set_st_active_requests (v : gmap N string) (s : State) : State :=
  ltac:(record_set State_eta st_active_requests s v).
Definition set_st_active_cells (v : gmap string N) (s : State) : State :=
  ltac:(record_set State_eta st_active_cells s v).
Definition set_st_admitted_gates (v : gset N) (s : State) : State :=
  ltac:(record_set State_eta st_admitted_gates s v).
Definition set_st_admitted_gate_cells (v : gmap string N) (s : State) : State :=
  ltac:(record_set State_eta st_admitted_gate_cells s v).
Definition set_st_barriers (v : gmap N Barrier) (s : State) : State :=
  ltac:(record_set State_eta st_barriers s v).
Definition set_st_gate_pinned (v : gset N) (s : State) : State :=
  ltac:(record_set State_eta st_gate_pinned s v).
Definition set_st_worker_cursor (v : option string) (s : State) : State :=
  ltac:(record_set State_eta st_worker_cursor s v).
Definition set_st_activity (v : ActivitySnapshot) (s : State) : State :=
  ltac:(record_set State_eta st_activity s v).
Definition set_st_activation_waiters (v : list string) (s : State) : State :=
  ltac:(record_set State_eta st_activation_waiters s v).
Definition set_st_activation_permits (v : gset string) (s : State) : State :=
  ltac:(record_set State_eta st_activation_permits s v).
Definition set_st_eviction_permits (v : gset string) (s : State) : State :=
  ltac:(record_set State_eta st_eviction_permits s v).
Definition set_st_eviction_notifications (v : gmap N (gset N)) (s : State) : State :=
  ltac:(record_set State_eta st_eviction_notifications s v).
Definition set_st_capacity_waiters (v : list string) (s : State) : State :=
  ltac:(record_set State_eta st_capacity_waiters s v).
Definition set_st_capacity_requests (v : gset N) (s : State) : State :=
  ltac:(record_set State_eta st_capacity_requests s v).
Definition set_st_handoff_requests (v : gset N) (s : State) : State :=
  ltac:(record_set State_eta st_handoff_requests s v).
Definition set_st_capacity_reservations (v : gmap string N) (s : State) : State :=
  ltac:(record_set State_eta st_capacity_reservations s v).
Definition set_st_capacity_samples (v : gmap string N) (s : State) : State :=
  ltac:(record_set State_eta st_capacity_samples s v).
Definition set_st_capacity_rejections (v : gmap string N) (s : State) : State :=
  ltac:(record_set State_eta st_capacity_rejections s v).
Definition set_st_node_lease_cache (v : gmap string CachedNodeLease) (s : State) : State :=
  ltac:(record_set State_eta st_node_lease_cache s v).
Definition set_st_retired_runtime_ops (v : gmap N (string * N)) (s : State) : State :=
  ltac:(record_set State_eta st_retired_runtime_ops s v).
Definition set_st_timed_out_runtime_starts (v : gset N) (s : State) : State :=
  ltac:(record_set State_eta st_timed_out_runtime_starts s v).
Definition set_st_cell_ops (v : gmap N string) (s : State) : State :=
  ltac:(record_set State_eta st_cell_ops s v).
Definition set_st_occupied (v : N) (s : State) : State :=
  ltac:(record_set State_eta st_occupied s v).
Definition set_st_node_authority (v : NodeAuthority) (s : State) : State :=
  ltac:(record_set State_eta st_node_authority s v).
Definition set_st_nudge_pending (v : bool) (s : State) : State :=
  ltac:(record_set State_eta st_nudge_pending s v).
Definition set_st_now_ms (v : N) (s : State) : State :=
  ltac:(record_set State_eta st_now_ms s v).
Definition set_st_now_mono_ms (v : N) (s : State) : State :=
  ltac:(record_set State_eta st_now_mono_ms s v).
Definition set_st_shed_floor (v : N) (s : State) : State :=
  ltac:(record_set State_eta st_shed_floor s v).
Definition set_st_shed_cut (v : option ShedCut) (s : State) : State :=
  ltac:(record_set State_eta st_shed_cut s v).
Definition set_st_latches (v : Latches) (s : State) : State :=
  ltac:(record_set State_eta st_latches s v).
Definition set_st_current_generation (v : N) (s : State) : State :=
  ltac:(record_set State_eta st_current_generation s v).
Definition set_st_generation_changed_mono_ms (v : N) (s : State) : State :=
  ltac:(record_set State_eta st_generation_changed_mono_ms s v).
Definition set_st_swap_max_age_ms (v : N) (s : State) : State :=
  ltac:(record_set State_eta st_swap_max_age_ms s v).
Definition set_st_swap_eager_classes (v : gset string) (s : State) : State :=
  ltac:(record_set State_eta st_swap_eager_classes s v).
Definition set_st_shedding (v : bool) (s : State) : State :=
  ltac:(record_set State_eta st_shedding s v).
Definition set_st_memory_headroom (v : bool) (s : State) : State :=
  ltac:(record_set State_eta st_memory_headroom s v).
Definition set_st_shed_reason (v : option ShedReason) (s : State) : State :=
  ltac:(record_set State_eta st_shed_reason s v).

(** [State::new]; the constructor's assertions on the configuration. *)
Definition config_ok (config : Config) : bool :=
  (0 <? max_evictions config) && (0 <? max_releases config) && (0 <? max_activations config).

Definition new (node : string) (config : Config) : State :=
  mkState node config false false ∅ ∅ ∅ false ∅ false ∅ 1 1 ∅ ∅ ∅ ∅ ∅ ∅ ∅ ∅ None
    ActivitySnapshot_default [] ∅ ∅ ∅ [] ∅ ∅ ∅ ∅ ∅ ∅ ∅ ∅ ∅ 0 AuUnstarted false 0 0 0 None
    Latches_default 0 0 0 ∅ false false None.

Definition ActivitySnapshot_eta (a : ActivitySnapshot) : ActivitySnapshot :=
  mkActivity (acquired a) (proxied a) (expired_owner_leases a) (restored a) (advanced_epochs a)
    (handed_off a) (handoff_failed a) (rebalanced a) (rebalance_failed a)
    (remote_route_refreshes a).
Definition incr_acquired (a : ActivitySnapshot) : ActivitySnapshot :=
  ltac:(record_set ActivitySnapshot_eta acquired a (sat_add (acquired a) 1)).
Definition incr_proxied (a : ActivitySnapshot) : ActivitySnapshot :=
  ltac:(record_set ActivitySnapshot_eta proxied a (sat_add (proxied a) 1)).
Definition incr_expired_owner_leases (a : ActivitySnapshot) : ActivitySnapshot :=
  ltac:(record_set ActivitySnapshot_eta expired_owner_leases a (sat_add (expired_owner_leases a) 1)).
Definition incr_restored (a : ActivitySnapshot) : ActivitySnapshot :=
  ltac:(record_set ActivitySnapshot_eta restored a (sat_add (restored a) 1)).
Definition incr_advanced_epochs (a : ActivitySnapshot) : ActivitySnapshot :=
  ltac:(record_set ActivitySnapshot_eta advanced_epochs a (sat_add (advanced_epochs a) 1)).
Definition incr_handed_off (a : ActivitySnapshot) : ActivitySnapshot :=
  ltac:(record_set ActivitySnapshot_eta handed_off a (sat_add (handed_off a) 1)).
Definition incr_handoff_failed (a : ActivitySnapshot) : ActivitySnapshot :=
  ltac:(record_set ActivitySnapshot_eta handoff_failed a (sat_add (handoff_failed a) 1)).
Definition incr_rebalanced (a : ActivitySnapshot) : ActivitySnapshot :=
  ltac:(record_set ActivitySnapshot_eta rebalanced a (sat_add (rebalanced a) 1)).
Definition incr_rebalance_failed (a : ActivitySnapshot) : ActivitySnapshot :=
  ltac:(record_set ActivitySnapshot_eta rebalance_failed a (sat_add (rebalance_failed a) 1)).
Definition incr_remote_route_refreshes (a : ActivitySnapshot) : ActivitySnapshot :=
  ltac:(record_set ActivitySnapshot_eta remote_route_refreshes a (sat_add (remote_route_refreshes a) 1)).

(** A handler: a computation over [State] that emits [Effect]s. *)
Abbreviation dec := (M State Effect).
