(* ===== verification/CoreOps.v ===== *)
(** * The shared operations of the decision core

    Models the parts of [crates/logic/lib.rs] every handler uses: the
    read-only observers of [State], operation ids and their index, the single
    gate [set_phase] for a phase change, request completion, voluntary
    eviction with its permits, demand shedding, and the bounded queues in
    front of a cold route.

    A [&mut Cell] that the code has removed from the table is passed by value
    and returned. *)

From S2P Require Import Prelude Effects Pressure LogTier Wake Types CoreState.

(** ** Observers *)

(** The freshness test of [State::node_authoritative]. *)
Definition lease_fresh (s : State) (held : HeldNodeLease) : bool :=
  sat_sub (st_now_mono_ms s) (hl_last_ok_mono_ms held) <? ls_ttl_ms (hl_spec held).

(** [State::node_authoritative]. *)
Definition node_authoritative (s : State) : bool :=
  if negb (require_node_lease (st_config s)) then negb (st_fenced s)
  else
    match st_node_authority s with
    | AuHeld held => lease_fresh s held
    | AuReading _ pending | AuWriting _ pending => is_some_and (lease_fresh s) (pl_prior pending)
    | _ => false
    end.

(** [State::ownership_confirmed]. *)
Definition ownership_confirmed (s : State) : bool := negb (st_confirming s).

(** [State::ready_to_serve]. *)
Definition ready_to_serve (s : State) : bool :=
  if st_fenced s || st_resuming s then false else node_authoritative s.

(** [State::phase]. *)
Definition phase (s : State) (id : string) : option Phase := c_phase <$> st_cells s !! id.

(** [State::host_websockets]. *)
Definition host_websockets (s : State) : nat :=
  sum_list_with (λ cell, size (c_websockets cell)) (values (st_cells s)).

(** [State::holds_websocket]. *)
Definition holds_websocket (s : State) (id : string) (websocket : N) : bool :=
  is_some_and (λ cell, is_some (c_websockets cell !! websocket)) (st_cells s !! id).

(** [State::owned_cells]. *)
Definition owned_cells (s : State) : nat :=
  length (filter (λ cell, is_some (c_held_epoch cell)) (values (st_cells s))).

(** [State::occupied_below]. *)
Definition occupied_below (s : State) (ceiling : N) : bool := st_occupied s <? ceiling.

(** [State::residents]. *)
Definition residents (s : State) : list string :=
  (filter (λ item, is_resident_or_ensuring (c_phase item.2)) (items (st_cells s))).*1.

(** [State::drain_pins]. *)
Definition drain_pins (s : State) : list DrainPin :=
  concat ((λ item : string * Cell,
    let '(id, cell) := item in
    let active := (filter (λ e : N * string, bool_decide (e.2 = id)) (items (st_active_requests s))).*1 in
    let count kind := length (filter (λ k, k = kind) (values (c_websockets cell))) in
    let regular := count Regular in
    let outbound := count Outbound in
    match active with
    | [] => [mkDrainPin id None 0 0 regular outbound]
    | _ =>
        (λ request,
          mkDrainPin id (Some request) (length active)
            (length (filter (λ b : Barrier,
               (match b_owner b with OwnOutput held => h_request held =? request | _ => false end)
               || existsb (λ held, h_request held =? request) (b_followers b))
               (values (st_barriers s))))
            regular outbound) <$> active
    end) <$> filter (λ item : string * Cell, c_quiescing item.2) (items (st_cells s))).

(** The routable cells [State::presence_snapshot] lists. *)
Definition presence_cells (s : State) : list PresenceCell :=
  omap (λ item : string * Cell,
    match c_phase item.2 with
    | PhResident epoch | PhEnsuringDurability _ epoch => Some (mkPresenceCell item.1 epoch)
    | _ => None
    end) (items (st_cells s)).

(** [State::presence_snapshot]. *)
Definition presence_snapshot (s : State) : PresenceSnapshot :=
  mkPresenceSnapshot (ready_to_serve s) (presence_cells s) (st_activity s).

(** [State::resident_isolates]. *)
Definition resident_isolates (s : State) : list N :=
  omap c_isolate (filter (λ cell, is_resident (c_phase cell)) (values (st_cells s))).

(** [State::phase_census]. *)
Definition phase_census (s : State) : list (string * N) :=
  items (foldl (λ (counts : gmap string N) cell,
    partial_alter (λ n, Some (default 0 n + 1)) (phase_name (c_phase cell)) counts)
    ∅ (values (st_cells s))).

(** [State::activation_backlog]. *)
Definition activation_backlog (s : State) : nat :=
  (size (st_activation_permits s) + length (st_activation_waiters s))%nat.

(** [State::handoffs_in_flight]. *)
Definition handoffs_in_flight (s : State) : N :=
  sat_add (sat_add (sat_add (N.of_nat (size (st_quiescing_cells s)))
    (N.of_nat (size (st_eviction_permits s)))) (N.of_nat (size (st_releasing_cells s))))
    (N.of_nat (size (st_adopting_cells s))).

(** [State::accepted_epoch]. *)
Definition accepted_epoch (s : State) (id : string) : option N :=
  cell ← st_cells s !! id; phase_owned_epoch (c_phase cell).

(** [State::has_capacity]. *)
Definition has_capacity (s : State) : bool :=
  occupied_below s (max_resident (st_config s)) && negb (st_shedding s).

Definition is_live_transport (kind : WebSocketKind) : bool :=
  match kind with Regular | Outbound => true | Hibernatable => false end.

(** [State::is_active]. *)
Definition is_active (s : State) (id : string) : bool :=
  is_some (st_active_cells s !! id)
  || is_some_and (λ cell, existsb is_live_transport (values (c_websockets cell))) (st_cells s !! id).

(** [State::runs_gate_source]. *)
Definition runs_gate_source (s : State) (id : string) : bool :=
  default 0 (st_admitted_gate_cells s !! id) <? default 0 (st_active_cells s !! id).

(** [State::is_hibernated]. *)
Definition is_hibernated (s : State) (id : string) : bool :=
  is_some_and (λ cell, is_dormant (c_phase cell)
    && existsb (λ kind, bool_decide (kind = Hibernatable)) (values (c_websockets cell)))
    (st_cells s !! id).

(** [State::is_hibernatable]. *)
Definition is_hibernatable (s : State) (id : string) : bool :=
  is_some_and (λ cell, is_resident (c_phase cell)) (st_cells s !! id) && negb (is_active s id).

(** [State::websocket_count]. *)
Definition websocket_count (s : State) (id : string) : nat :=
  match st_cells s !! id with Some cell => size (c_websockets cell) | None => 0 end.

(** [State::hands_off]. *)
Definition hands_off (s : State) (cell : Cell) : bool := st_draining s || c_handoff cell.

(** [State::rebalances]. *)
Definition rebalances (s : State) : bool :=
  bool_decide (ownership_on_evict (st_config s) = OnEvictRelease).

(** [State::eviction_ceiling]. *)
Definition eviction_ceiling (s : State) : N :=
  if st_draining s then N.max (max_releases (st_config s)) (max_evictions (st_config s))
  else max_evictions (st_config s).

(** [State::alarm_is_imminent]. *)
Definition alarm_is_imminent (s : State) (cell : Cell) : bool :=
  match c_alarm cell with
  | Some (AlArmed at_ms _ _) | Some (AlFiring _ at_ms _ _ _) =>
      (0 <=? at_ms)%Z
      && (sat_sub (Z.to_N at_ms) (st_now_ms s) <=? alarm_resident_ms (st_config s))
  | None => false
  end.

(** The alarm an eviction may leave behind: none, or one a wake entry covers. *)
Definition alarm_releasable (cell : Cell) : bool :=
  is_none_or (λ a, match a with AlArmed _ _ covered => covered | _ => false end) (c_alarm cell).

(** ** Operation ids and the cell table *)

(** [State::op]. *)
Definition op : dec N :=
  s ← get;
  match checked_add (st_next_op s) 1 with
  | Some next => modify (set_st_next_op next) ;; mret (st_next_op s)
  | None => exhausted
  end.

(** [State::cell_op]. *)
Definition cell_op (id : string) : dec N :=
  op ← op;
  modify (λ s, set_st_cell_ops (<[op := id]> (st_cell_ops s)) s) ;;
  mret op.

(** [self.cell_ops.remove(&op)]. *)
Definition forget_cell_op (op : N) : dec unit :=
  modify (λ s, set_st_cell_ops (delete op (st_cell_ops s)) s).

(** [State::take_cell_op]. *)
Definition take_cell_op (op : N) (predicate : Cell → bool) : dec (option string) :=
  s ← get;
  match st_cell_ops s !! op with
  | None => mret None
  | Some id =>
      if is_some_and predicate (st_cells s !! id)
      then forget_cell_op op ;; mret (Some id)
      else mret None
  end.

(** A fresh timer generation: [next_timer_generation.checked_add(1).expect(..)]. *)
Definition timer_generation : dec N :=
  s ← get;
  match checked_add (st_next_timer_generation s) 1 with
  | Some next => modify (set_st_next_timer_generation next) ;; mret (st_next_timer_generation s)
  | None => exhausted
  end.

(** [self.cells.get(id)], [remove] and [insert]. *)
Definition cell_get (id : string) : dec (option Cell) := gets (λ s, st_cells s !! id).

Definition cell_remove (id : string) : dec (option Cell) :=
  cell ← cell_get id;
  modify (λ s, set_st_cells (delete id (st_cells s)) s) ;;
  mret cell.

Definition cell_insert (id : string) (cell : Cell) : dec unit :=
  modify (λ s, set_st_cells (<[id := cell]> (st_cells s)) s).

(** [.expect("cell found above")]: a lookup that must succeed. *)
Definition expect {A} (o : option A) : dec A :=
  match o with Some a => mret a | None => panic end.

(** [if let Some(cell) = self.cells.get_mut(id) { cell.f = .. }]. *)
Definition cell_update (id : string) (f : Cell → Cell) : dec unit :=
  modify (λ s, set_st_cells (alter f id (st_cells s)) s).

(** ** The phase gate *)

(** The phases a generation swap lives on. *)
Definition on_swap_path (p : Phase) : bool :=
  match p with
  | PhResident _ | PhCleaning _ _ StopSwap | PhStarting _ _ | PhPublishing _ _ => true
  | _ => false
  end.

(** The ownership a phase leaves on the cell. *)
Definition held_after (p : Phase) (held : option N) : option N :=
  match phase_owned_epoch p with
  | Some epoch => Some epoch
  | None =>
      match p with
      | PhInactive | PhRemote _ _ _ _ _ | PhFenced | PhAdopting _ _ => None
      | _ => held
      end
  end.

(** The fields [set_phase] changes on the cell. *)
Definition enter_phase (cell : Cell) (p : Phase) : Cell :=
  let cell := if is_resident p then cell else set_c_quiescing false cell in
  let cell := set_c_held_epoch (held_after p (c_held_epoch cell)) cell in
  let cell := if is_resident p then set_c_proven_position None cell else cell in
  let cell := if on_swap_path p then cell
              else set_c_swap_cancelled false (set_c_swapping false cell) in
  set_c_phase p cell.

(** [set_phase]; the decrement underflows only if the counter lost a cell. *)
Definition set_phase (cell : Cell) (p : Phase) : dec Cell :=
  match phase_occupies_capacity (c_phase cell), phase_occupies_capacity p with
  | false, true => modify (λ s, set_st_occupied (st_occupied s + 1) s)
  | true, false =>
      s ← get;
      match checked_sub (st_occupied s) 1 with
      | Some occupied => modify (set_st_occupied occupied)
      | None => panic
      end
  | _, _ => mret tt
  end ;;
  mret (enter_phase cell p).

(** [set_phase] on a cell that stays in the table. *)
Definition set_phase_in (id : string) (cell : Cell) (p : Phase) : dec Cell :=
  cell ← set_phase cell p;
  cell_insert id cell ;;
  mret cell.

(** ** Requests *)

(** [State::activate_request]. *)
Definition activate_request (request : N) (id : string) : dec unit :=
  modify (λ s, set_st_active_cells
    (<[id := default 0 (st_active_cells s !! id) + 1]> (st_active_cells s)) s) ;;
  modify (λ s, set_st_active_requests (<[request := id]> (st_active_requests s)) s).

(** [*count -= 1] and the removal of an empty count. *)
Definition decrement_count (counts : gmap string N) (id : string) : option (gmap string N) :=
  match counts !! id with
  | None => Some counts
  | Some count =>
      match checked_sub count 1 with
      | None => None
      | Some 0 => Some (delete id counts)
      | Some count => Some (<[id := count]> counts)
      end
  end.

(** [State::deactivate_request]. *)
Definition deactivate_request (request : N) : dec (option string) :=
  s ← get;
  match st_active_requests s !! request with
  | None => mret None
  | Some id =>
      modify (λ s, set_st_active_requests (delete request (st_active_requests s)) s) ;;
      counts ← expect (decrement_count (st_active_cells s) id);
      modify (set_st_active_cells counts) ;;
      when (bool_decide (request ∈ st_admitted_gates s))
        (modify (λ s, set_st_admitted_gates (st_admitted_gates s ∖ {[request]}) s) ;;
         counts ← expect (decrement_count (st_admitted_gate_cells s) id);
         modify (set_st_admitted_gate_cells counts)) ;;
      mret (Some id)
  end.

(** [State::record_local_request]. *)
Definition record_local_request (cell : Cell) (request now_mono_ms : N) : dec Cell :=
  match checked_add (c_local_request_count cell) 1 with
  | None => exhausted
  | Some count =>
      mret (set_c_local_request_count count
        (set_c_last_used_request (N.max (c_last_used_request cell) request)
        (set_c_last_used_mono_ms now_mono_ms cell)))
  end.

Definition modify_activity (f : ActivitySnapshot → ActivitySnapshot) : dec unit :=
  modify (λ s, set_st_activity (f (st_activity s)) s).

(** [State::complete_request]. *)
Definition complete_request (id : string) (request : N) (res : result Route RequestError) : dec unit :=
  modify (λ s, set_st_capacity_requests (st_capacity_requests s ∖ {[request]}) s) ;;
  modify (λ s, set_st_handoff_requests (st_handoff_requests s ∖ {[request]}) s) ;;
  match res with
  | Ok RouteLocal =>
      activate_request request id ;;
      s ← get;
      match st_cells s !! id with
      | Some cell =>
          cell ← record_local_request cell request (st_now_mono_ms s);
          cell_insert id cell
      | None => mret tt
      end
  | Ok (RouteRemote _ _ _ _) => modify_activity incr_proxied
  | Err _ => mret tt
  end ;;
  emit (FxComplete request res).

Definition is_route_local (res : result Route RequestError) : bool :=
  match res with Ok RouteLocal => true | _ => false end.

Definition remove_request_cell (request : N) : dec unit :=
  modify (λ s, set_st_request_cells (delete request (st_request_cells s)) s).

(** [State::finish_requests]. *)
Definition finish_requests (id : string) (cell : Cell) (res : result Route RequestError) : dec Cell :=
  fold_each (members (c_requests cell)) (set_c_requests ∅ cell) (λ cell request,
    remove_request_cell request ;;
    s ← get;
    cell ← (if is_route_local res then record_local_request cell request (st_now_mono_ms s)
            else mret cell);
    complete_request id request res ;;
    mret cell).

(** [State::next_writer_epoch]. *)
Definition next_writer_epoch (id : string) (cell : Cell) (previous : N) : dec (Cell * option N) :=
  match checked_add previous 1 with
  | Some epoch => mret (cell, Some epoch)
  | None =>
      cell ← set_phase cell PhInactive;
      cell ← finish_requests id cell (Err ResolveFailed);
      mret (cell, None)
  end.

(** [State::record_acquisition]. *)
Definition record_acquisition (spec : RestoreSpec) : dec unit :=
  modify_activity incr_acquired ;;
  when (rs_took_over spec) (modify_activity incr_expired_owner_leases) ;;
  when (1 <? rs_epoch spec) (modify_activity incr_advanced_epochs).

(** ** Voluntary eviction *)

(** [State::finish_eviction]. *)
Definition finish_eviction (op : N) (res : result EvictSuccess EvictError) : dec unit :=
  s ← get;
  match st_eviction_notifications s !! op with
  | None => mret tt
  | Some requests =>
      modify (λ s, set_st_eviction_notifications (delete op (st_eviction_notifications s)) s) ;;
      for_each (members requests) (λ request, emit (FxEvictionFinished request res))
  end.

Definition return_eviction_permit (id : string) : dec unit :=
  modify (λ s, set_st_eviction_permits (st_eviction_permits s ∖ {[id]}) s).

(** [State::cancel_eviction]. *)
Definition cancel_eviction (id : string) (cell : Cell) (epoch : N) (reason : EvictCancellation) :
    dec Cell :=
  with_some (phase_op (c_phase cell)) (λ op,
    forget_cell_op op ;;
    finish_eviction op (Err (Cancelled reason))) ;;
  cell ← set_phase cell (PhResident epoch);
  return_eviction_permit id ;;
  mret cell.

(** [State::begin_eviction]. *)
Definition begin_eviction (id : string) (rebalance : bool) : dec (result N EvictRefusal) :=
  s ← get;
  match st_cells s !! id with
  | None => mret (Err CellTransitioning)
  | Some cell =>
      if alarm_is_imminent s cell && negb (st_shedding s) && negb (st_draining s)
      then mret (Err AlarmImminent)
      else if is_active s id then mret (Err CellActive)
      else
        match c_phase cell with
        | PhResident epoch =>
            if negb (alarm_releasable cell) then mret (Err AlarmUncovered)
            else if eviction_ceiling s <=? N.of_nat (size (st_eviction_permits s))
            then mret (Err ConcurrencyLimit)
            else
              op ← cell_op id;
              set_phase_in id (set_c_evict_rebalance rebalance cell)
                (PhEnsuringDurability op epoch) ;;
              modify (λ s, set_st_quiescing_cells (st_quiescing_cells s ∖ {[id]}) s) ;;
              modify (λ s, set_st_eviction_permits ({[id]} ∪ st_eviction_permits s) s) ;;
              emit (FxEnsureDurable op id epoch (negb (st_draining s))) ;;
              mret (Ok op)
        | _ => mret (Err CellTransitioning)
        end
  end.

(** How many cells each isolate holds ([occupancy] in [shed_candidate_where]). *)
Definition isolate_occupancy (s : State) : gmap N N :=
  foldl (λ (acc : gmap N N) cell,
    match c_isolate cell with
    | Some isolate => <[isolate := default 0 (acc !! isolate) + 1]> acc
    | None => acc
    end) ∅ (values (st_cells s)).

(** The sort key of [shed_candidate_where]: emptiest isolate, refusal, recency, id. *)
Definition shed_key_compare (s : State) (a b : string * Cell) : comparison :=
  let emptiest (cell : Cell) :=
    default u64_max (isolate ← c_isolate cell; isolate_occupancy s !! isolate) in
  then_with (emptiest a.2 ?= emptiest b.2)
    (then_with (compare_option N.compare (c_eviction_refused_mono_ms a.2)
                 (c_eviction_refused_mono_ms b.2))
      (then_with (c_last_used_mono_ms a.2 ?= c_last_used_mono_ms b.2)
        (String.compare a.1 b.1))).

(** [State::shed_candidate_where]. *)
Definition shed_candidate_where (s : State) (keep : Cell → bool) : option string :=
  fst <$> min_by (λ a b, is_lt (shed_key_compare s a b))
    (filter (λ item : string * Cell,
       is_hibernatable s item.1 && keep item.2 && alarm_releasable item.2)
     (items (st_cells s))).

(** [State::shed_candidate]. *)
Definition shed_candidate (s : State) : option string := shed_candidate_where s (λ _, true).

(** [State::shed_one]. *)
Definition shed_one : dec unit :=
  s ← get;
  let permits := N.of_nat (size (st_eviction_permits s)) in
  if st_shedding s
     || (N.of_nat (length (st_capacity_waiters s)) <=? permits)
     || (max_evictions (st_config s) <=? permits)
  then mret tt
  else with_some (shed_candidate s) (λ victim,
         begin_eviction victim (rebalances s) ;; mret tt).
