(* ===== verification/Activation.v ===== *)
(** * Admission to a cold route

    Models the admission half of [crates/logic/lib.rs]: the Worker pool's
    resident selection, the activation permits and their queue, the residency
    cap and its FIFO of waiters, the queue deadline, and the two startup
    inventories (a certified local reload and an ownership confirmation). *)

From S2P Require Import Prelude Effects Pressure LogTier Wake Types CoreState CoreOps.

(** A resident [worker_request] may select. *)
Definition worker_candidate (s : State) (item : string * Cell) : option (string * N) :=
  let '(id, cell) := item in
  match c_phase cell with
  | PhResident epoch | PhEnsuringDurability _ epoch =>
      if c_quiescing cell || is_active s id || is_firing (c_alarm cell) then None
      else Some (id, epoch)
  | _ => None
  end.

(** The round robin of [worker_request]: the first candidate after the cursor,
    or else the first candidate. *)
Definition worker_route (s : State) : option (string * N) :=
  let candidates := omap (worker_candidate s) (items (st_cells s)) in
  match find_first (λ c : string * N,
          is_none_or (λ cursor, String.ltb cursor c.1) (st_worker_cursor s)) candidates with
  | Some c => Some c
  | None => head candidates
  end.

(** [State::worker_request]. *)
Definition worker_request (request : N) : dec unit :=
  s ← get;
  let route := worker_route s in
  with_some route (λ '(id, epoch),
    modify (set_st_worker_cursor (Some id)) ;;
    activate_request request id ;;
    cell ← cell_remove id;
    with_some cell (λ cell,
      cell ← (if is_ensuring (c_phase cell)
              then cancel_eviction id cell epoch CancelActivity else mret cell);
      s ← get;
      cell ← record_local_request cell request (st_now_mono_ms s);
      cell_insert id cell)) ;;
  emit (FxCompleteWorker request ((λ r : string * N, mkWorkerRoute r.1 r.2) <$> route)).

(** [State::watch_queued]. *)
Definition watch_queued (id : string) (cell : Cell) : dec Cell :=
  s ← get;
  match operation_deadline_ms (st_config s) with
  | None => mret cell
  | Some deadline_ms =>
      generation ← timer_generation;
      emit (FxScheduleTimer (TQueuedActivation id generation)
        (sat_add (st_now_mono_ms s) deadline_ms)) ;;
      mret (set_c_queued_generation (Some generation) cell)
  end.

(** [State::settle_confirmation]. *)
Definition settle_confirmation (id : string) : dec unit :=
  s ← get;
  modify (set_st_confirming_cells (st_confirming_cells s ∖ {[id]})) ;;
  when (bool_decide (id ∈ st_confirming_cells s)
        && is_empty_set (st_confirming_cells s ∖ {[id]}))
    (modify (set_st_confirming false)).

(** [State::settle_local_resume]. *)
Definition settle_local_resume (id : string) : dec unit :=
  s ← get;
  modify (set_st_resuming_cells (st_resuming_cells s ∖ {[id]})) ;;
  when (bool_decide (id ∈ st_resuming_cells s)
        && is_empty_set (st_resuming_cells s ∖ {[id]}))
    (modify (set_st_resuming false)) ;;
  cell_update id (set_c_resume_demand false).

(** [State::refuse_new_ownership_during_drain]. *)
Definition refuse_new_ownership_during_drain (id : string) (cell : Cell) (prior : option string) :
    dec (Cell * bool) :=
  s ← get;
  if negb (st_draining s) || bool_decide (prior = Some (st_node s)) then mret (cell, false)
  else
    cell ← set_phase (set_c_waiting_for None cell) PhInactive;
    cell ← finish_requests id cell (Err NodeUnavailable);
    mret (cell, true).

(** The claim an activation would publish during a drain is refused. *)
Definition refuse_claim (id : string) (cell : Cell) (activation : Activation) : dec (Cell * bool) :=
  match activation with
  | ActClaim claim => refuse_new_ownership_during_drain id cell (cl_prior claim)
  | ActRestore _ => mret (cell, false)
  end.

(** Every request on the cell is an ownership-only handoff. *)
Definition handoff_only (s : State) (cell : Cell) : bool :=
  negb (is_empty_set (c_requests cell))
  && forallb (λ request, bool_decide (request ∈ st_handoff_requests s)) (members (c_requests cell)).

(** [State::begin_activation]. *)
Definition begin_activation (id : string) (cell : Cell) (activation : Activation) : dec Cell :=
  '(cell, refused) ← refuse_claim id cell activation;
  if (refused : bool) then mret cell
  else
    s ← get;
    let dormant := handoff_only s cell in
    let cell := set_c_waiting_for None cell in
    op ← cell_op id;
    match activation with
    | ActClaim claim =>
        cell ← set_phase cell (PhAcquiring op claim dormant);
        emit (FxCasOwner op id (cl_guard claim) (cl_epoch claim) (cl_takeover claim)) ;;
        mret cell
    | ActRestore spec =>
        cell ← set_phase cell (PhRestoring op spec);
        emit (FxRestore op id spec) ;;
        mret cell
    end.

(** Where a cell whose activation lost its demand settles. *)
Definition undemanded_phase (activation : Activation) : Phase :=
  match activation with
  | ActClaim _ => PhInactive
  | ActRestore spec => PhDormant (rs_epoch spec)
  end.

(** [State::activate_or_wait]. *)
Definition activate_or_wait (id : string) (cell : Cell) (activation : Activation)
    (when_full : WhenFull) : dec Cell :=
  '(cell, refused) ← refuse_claim id cell activation;
  if (refused : bool) then mret cell
  else
    s ← get;
    if is_empty_set (c_requests cell) && negb (c_alarm_wake cell)
       && negb (c_resume_demand cell) && negb (c_confirming cell)
    then set_phase cell (undemanded_phase activation)
    else if has_capacity s then begin_activation id cell activation
    else
      cell ← set_phase cell PhWaitingCapacity;
      let cell := set_c_waiting_for (Some activation) cell in
      modify (λ s, set_st_capacity_waiters (st_capacity_waiters s ++ [id]) s) ;;
      cell ← watch_queued id cell;
      match when_full with ShedToAdmit => shed_one | HoldResidents => mret tt end ;;
      mret cell.

(** [State::begin_cold_route]. *)
Definition begin_cold_route (id : string) (cell : Cell) (start : ColdStart) : dec Cell :=
  let cell := set_c_waiting_activation None cell in
  match start with
  | ColdReadOwner =>
      op ← cell_op id;
      cell ← set_phase cell (PhReadingOwner op);
      emit (FxReadOwner op id) ;;
      mret cell
  | ColdRestore spec => activate_or_wait id cell (ActRestore spec) ShedToAdmit
  end.

(** [State::admit_or_queue_activation]. *)
Definition admit_or_queue_activation (id : string) (cell : Cell) (start : ColdStart) : dec Cell :=
  s ← get;
  if bool_decide (id ∈ st_activation_permits s) then begin_cold_route id cell start
  else if N.of_nat (size (st_activation_permits s)) <? max_activations (st_config s) then
    modify (λ s, set_st_activation_permits ({[id]} ∪ st_activation_permits s) s) ;;
    begin_cold_route id cell start
  else
    cell ← set_phase cell PhWaitingActivation;
    let cell := set_c_waiting_activation (Some start) cell in
    modify (λ s, set_st_activation_waiters (st_activation_waiters s ++ [id]) s) ;;
    watch_queued id cell.

(** The [retain] that opens [pump_activations]: a permit lives only while its
    cell is on a cold route. *)
Definition retained_permits (s : State) : gset string :=
  filter (λ id, is_some_and (λ cell, phase_holds_activation (c_phase cell)) (st_cells s !! id))
    (st_activation_permits s).

(** Where a waiter whose demand went away settles. *)
Definition undemanded_start (start : ColdStart) : Phase :=
  match start with
  | ColdReadOwner => PhInactive
  | ColdRestore spec => PhDormant (rs_epoch spec)
  end.

(** One turn of the [while] of [pump_activations]; [false] is the exit. *)
Definition pump_activations_turn : dec bool :=
  s ← get;
  if negb (N.of_nat (size (st_activation_permits s)) <? max_activations (st_config s))
  then mret false
  else
    match st_activation_waiters s with
    | [] => mret false
    | id :: waiters =>
        modify (set_st_activation_waiters waiters) ;;
        cell ← cell_remove id;
        match cell with
        | None => mret true
        | Some cell =>
            if negb (is_waiting_activation (c_phase cell)) then cell_insert id cell ;; mret true
            else
              match c_waiting_activation cell with
              | None => cell_insert id cell ;; mret true
              | Some start =>
                  let cell := set_c_waiting_activation None cell in
                  cell ← (if is_empty_set (c_requests cell) && negb (c_alarm_wake cell)
                             && negb (c_resume_demand cell) && negb (c_confirming cell)
                          then set_phase cell (undemanded_start start)
                          else
                            modify (λ s, set_st_activation_permits
                              ({[id]} ∪ st_activation_permits s) s) ;;
                            begin_cold_route id cell start);
                  cell_insert id cell ;;
                  mret true
              end
        end
    end.

(** [State::pump_activations]; every turn but the last pops a waiter. *)
Definition pump_activations : dec unit :=
  modify (λ s, set_st_activation_permits (retained_permits s) s) ;;
  s ← get;
  repeat_while (S (length (st_activation_waiters s))) pump_activations_turn.

(** One turn of the [while] of [pump_capacity]. *)
Definition pump_capacity_turn : dec bool :=
  s ← get;
  if negb (has_capacity s) then mret false
  else
    match st_capacity_waiters s with
    | [] => mret false
    | id :: waiters =>
        modify (set_st_capacity_waiters waiters) ;;
        cell ← cell_remove id;
        match cell with
        | None => mret true
        | Some cell =>
            if negb (is_waiting_capacity (c_phase cell)) then cell_insert id cell ;; mret true
            else
              match c_waiting_for cell with
              | None => cell_insert id cell ;; mret true
              | Some activation =>
                  let cell := set_c_waiting_for None cell in
                  cell ← (if is_empty_set (c_requests cell) && negb (c_alarm_wake cell)
                             && negb (c_resume_demand cell)
                          then set_phase cell (undemanded_phase activation)
                          else begin_activation id cell activation);
                  cell_insert id cell ;;
                  mret true
              end
        end
    end.

(** [State::pump_capacity]. *)
Definition pump_capacity : dec unit :=
  s ← get;
  repeat_while (S (length (st_capacity_waiters s))) pump_capacity_turn ;;
  shed_one.

(** ** The startup inventories *)

(** The derived order of [LocalCell], and [sort] followed by [dedup]. *)
Definition local_cell_compare (a b : LocalCell) : comparison :=
  then_with (String.compare (lc_id a) (lc_id b))
    (then_with (lc_epoch a ?= lc_epoch b) (compare_bool (lc_live a) (lc_live b))).

Fixpoint dedup {A} `{EqDecision A} (l : list A) : list A :=
  match l with
  | x :: ((y :: _) as l') => if decide (x = y) then dedup l' else x :: dedup l'
  | _ => l
  end.

Definition sort_dedup (l : list LocalCell) : list LocalCell :=
  dedup (sort_by local_cell_compare l).

(** [State::confirm_local_cells]. *)
Definition confirm_local_cells (res : result (list LocalCell) Failure) : dec unit :=
  match res with
  | Err _ => modify (set_st_confirming false)
  | Ok cells =>
      for_each (sort_dedup cells) (λ local,
        s ← get;
        if is_some (st_cells s !! lc_id local)
           || bool_decide (lc_id local ∈ st_confirming_cells s)
        then mret tt
        else
          modify (λ s, set_st_confirming_cells ({[lc_id local]} ∪ st_confirming_cells s) s) ;;
          cell ← admit_or_queue_activation (lc_id local) (set_c_confirming true Cell_default)
                   ColdReadOwner;
          cell_insert (lc_id local) cell) ;;
      s ← get;
      when (is_empty_set (st_confirming_cells s)) (modify (set_st_confirming false))
  end.

(** [State::local_cells_read]. *)
Definition local_cells_read (res : result (list LocalCell) Failure) : dec unit :=
  s ← get;
  if st_confirming s then confirm_local_cells res
  else if negb (st_resuming s) then mret tt
  else
    match res with
    | Err _ => modify (set_st_resuming false)
    | Ok cells =>
        let cells := sort_dedup (filter (λ cell, lc_live cell) cells) in
        if (max_resident (st_config s) <? N.of_nat (length cells))
           || negb (bool_decide (st_cells s = ∅))
        then modify (set_st_resuming false)
        else
          for_each cells (λ local,
            modify (λ s, set_st_resuming_cells ({[lc_id local]} ∪ st_resuming_cells s) s) ;;
            cell ← admit_or_queue_activation (lc_id local) (set_c_resume_demand true Cell_default)
                     (ColdRestore (mkRestoreSpec (lc_epoch local) false false true None));
            cell_insert (lc_id local) cell) ;;
          s ← get;
          when (is_empty_set (st_resuming_cells s)) (modify (set_st_resuming false))
    end.

(** ** The queue deadline *)

Definition remove_capacity_request (request : N) : dec unit :=
  modify (λ s, set_st_capacity_requests (st_capacity_requests s ∖ {[request]}) s).

(** The epoch a parked restore falls back to ([dormant] in [expire_queued]). *)
Definition parked_epoch (start : option ColdStart) (activation : option Activation) : option N :=
  match start, activation with
  | Some (ColdRestore spec), _ => Some (rs_epoch spec)
  | _, Some (ActRestore spec) => Some (rs_epoch spec)
  | _, _ => None
  end.

Definition is_parked (p : Phase) : bool := is_waiting_activation p || is_waiting_capacity p.

(** [State::expire_queued]. *)
Definition expire_queued (id : string) (generation : N) : dec unit :=
  s ← get;
  match st_cells s !! id with
  | None => mret tt
  | Some queued =>
      if negb (bool_decide (c_queued_generation queued = Some generation)) then mret tt
      else if negb (is_parked (c_phase queued)) then mret tt
      else
        for_each (members (c_requests queued)) (λ request,
          emit (FxComplete request (Err CapacityExhausted)) ;;
          remove_request_cell request ;;
          remove_capacity_request request ;;
          cell_update id (λ queued, set_c_requests (c_requests queued ∖ {[request]}) queued)) ;;
        queued ← cell_get id;
        with_some queued (λ queued,
          let queued := set_c_queued_generation None queued in
          cell_insert id queued ;;
          if c_alarm_wake queued || c_confirming queued then mret tt
          else
            modify (λ s, set_st_activation_waiters
              (filter (λ w, w ≠ id) (st_activation_waiters s)) s) ;;
            modify (λ s, set_st_capacity_waiters
              (filter (λ w, w ≠ id) (st_capacity_waiters s)) s) ;;
            let dormant := parked_epoch (c_waiting_activation queued) (c_waiting_for queued) in
            let settles_resume := c_resume_demand queued in
            let queued := set_c_waiting_for None (set_c_waiting_activation None queued) in
            set_phase_in id queued
              (match dormant with Some epoch => PhDormant epoch | None => PhInactive end) ;;
            when settles_resume (settle_local_resume id))
  end.
