(* ===== verification/Alarms.v ===== *)
(** * Alarms

    Models the alarm handlers of [crates/logic/lib.rs]: arming from a runtime
    observation, firing from a versioned timer, and the settlement of a fired
    alarm, whose consuming commit passes the output gate first. *)

From S2P Require Import Prelude Effects Pressure LogTier Wake Types CoreState CoreOps.
From S2P Require Import Activation.

(** [State::schedule_alarm_timer]. *)
Definition schedule_alarm_timer (id : string) (generation : N) (at_ms : Z)
    (now_ms now_mono_ms : N) : dec unit :=
  emit (FxScheduleTimer (TCellAlarm id generation)
    (sat_add now_mono_ms (sat_sub (Z.to_N at_ms) now_ms))).

(** The phases in which a cell has a runtime an observation can describe. *)
Definition observable_phase (p : Phase) : bool :=
  match p with
  | PhStarting _ _ | PhPublishing _ _ | PhResident _ | PhEnsuringDurability _ _
  | PhCleaning _ _ _ => true
  | _ => false
  end.

(** An observation older than what the cell already applied, or of another
    ownership epoch. *)
Definition stale_source (cell : Cell) (source : option PublicationId) : bool :=
  is_some_and (λ source,
    negb (bool_decide (c_held_epoch cell = Some (pub_epoch source)))
    || is_some_and (λ previous, pub_ltb source previous) (c_alarm_source cell)) source.

(** The staged observation supersedes this one. *)
Definition staged_newer (staged : option (AlarmSnapshot * bool)) (alarm : AlarmSnapshot) : bool :=
  match staged with
  | None => false
  | Some (staged, _) =>
      match snap_source staged, snap_source alarm with
      | Some staged, Some next => pub_ltb (src_id next) (src_id staged)
      | _, _ => false
      end
  end.

(** The deadline the cell holds, [-1] for none ([observed_before]). *)
Definition alarm_deadline (a : option AlarmState) : Z :=
  match a with
  | Some (AlArmed at_ms _ _) | Some (AlFiring _ at_ms _ _ _) => at_ms
  | None => (-1)%Z
  end.

(** [at_ms.filter(|at_ms| *at_ms >= 0)]. *)
Definition nonneg (at_ms : option Z) : option Z :=
  match at_ms with
  | Some at_ms => if (0 <=? at_ms)%Z then Some at_ms else None
  | None => None
  end.

(** Whether the bucket entry has to follow the settled alarm. *)
Definition must_reconcile (settled before : Z) (source : option PublicationId)
    (discovered : bool) (at_ms : option Z) (alarm_source : option PublicationId) : bool :=
  negb (settled =? before)%Z
  || is_some_and (λ source,
       (discovered && negb (is_some at_ms))
       || (negb (bool_decide (alarm_source = Some source))
           && (is_some at_ms || (0 <? pub_sequence source)))) source.

(** The tail of [State::alarm_observed]: the observation replaces the alarm. *)
Definition settle_observation (id : string) (cell : Cell) (alarm : AlarmSnapshot) (covered : bool)
    (now_ms now_mono_ms : N) : dec unit :=
  let at_ms := snap_at_ms alarm in
  let source := src_id <$> snap_source alarm in
  let before := alarm_deadline (c_alarm cell) in
  match c_alarm cell with
  | Some (AlFiring op _ _ _ _) => forget_cell_op op
  | _ => mret tt
  end ;;
  armed ← (match nonneg at_ms with
           | Some at_ms =>
               generation ← timer_generation;
               schedule_alarm_timer id generation at_ms now_ms now_mono_ms ;;
               mret (Some (AlArmed at_ms generation covered))
           | None => mret None
           end);
  let cell := set_c_alarm armed cell in
  let discovered := c_alarm_wake cell in
  let cell := if is_some (c_alarm cell) then cell else set_c_alarm_wake false cell in
  let settled := default (-1)%Z (nonneg at_ms) in
  when (must_reconcile settled before source discovered at_ms (c_alarm_source cell))
    (emit (FxReconcileWakeEntry id alarm)) ;;
  cell_insert id (if is_some source then set_c_alarm_source source cell else cell).

(** [State::alarm_observed]. *)
Definition alarm_observed (id : string) (observed : AlarmObservation) (now_ms now_mono_ms : N) :
    dec unit :=
  let alarm := ao_alarm observed in
  let covered := ao_covered observed in
  let at_ms := snap_at_ms alarm in
  let source := src_id <$> snap_source alarm in
  cell ← cell_remove id;
  with_some cell (λ cell,
    if negb (observable_phase (c_phase cell)) then cell_insert id cell
    else if stale_source cell source then cell_insert id cell
    else if (match c_phase cell with PhCleaning _ _ StopReset => true | _ => false end)
    then cell_insert id cell
    else
      s ← get;
      cell ← (match c_phase cell with
              | PhEnsuringDurability _ epoch =>
                  if st_draining s && (negb (is_some at_ms) || covered) then mret cell
                  else cancel_eviction id cell epoch CancelAlarm
              | _ => mret cell
              end);
      match (if ao_firing_settled observed then None else c_alarm cell) with
      | Some (AlFiring op firing_at_ms generation firing_covered staged) =>
          if staged_newer staged alarm then cell_insert id cell
          else if bool_decide (at_ms = Some firing_at_ms) && negb (is_some staged)
                  && bool_decide (source = c_alarm_source cell)
          then cell_insert id
                 (set_c_alarm (Some (AlFiring op firing_at_ms generation covered staged)) cell)
          else cell_insert id
                 (set_c_alarm (Some (AlFiring op firing_at_ms generation firing_covered
                    (Some (alarm, covered)))) cell)
      | _ => settle_observation id cell alarm covered now_ms now_mono_ms
      end).

(** The 100 ms retry of a timer whose cell cannot fire yet. *)
Definition retry_alarm_timer (id : string) (generation now_mono_ms : N) : dec unit :=
  emit (FxScheduleTimer (TCellAlarm id generation) (sat_add now_mono_ms 100)).

(** The end of [State::cell_alarm_timer]: the armed alarm fires. *)
Definition fire_alarm (id : string) (cell : Cell) (epoch : N) (at_ms : Z) (generation : N)
    (covered : bool) : dec unit :=
  op ← cell_op id;
  cell_insert id (set_c_alarm_wake false
    (set_c_alarm (Some (AlFiring op at_ms generation covered None)) cell)) ;;
  emit (FxFireAlarm op id epoch at_ms).

(** [i64::try_from(now_ms).unwrap_or(i64::MAX)]. *)
Definition clamp_i64 (n : N) : Z := Z.min (Z.of_N n) i64_max.

(** [State::cell_alarm_timer]. *)
Definition cell_alarm_timer (id : string) (generation now_ms now_mono_ms : N) : dec unit :=
  s ← get;
  if negb (node_authoritative s) then mret tt
  else
    cell ← cell_remove id;
    with_some cell (λ cell,
      match c_alarm cell with
      | Some (AlArmed at_ms current covered) =>
          if negb (current =? generation) then cell_insert id cell
          else if (clamp_i64 now_ms <? at_ms)%Z then
            schedule_alarm_timer id generation at_ms now_ms now_mono_ms ;;
            cell_insert id cell
          else
            match c_phase cell with
            | PhResident epoch =>
                if st_draining s && c_quiescing cell then
                  retry_alarm_timer id generation now_mono_ms ;;
                  cell_insert id cell
                else fire_alarm id cell epoch at_ms generation covered
            | PhEnsuringDurability _ epoch =>
                cell ← cancel_eviction id cell epoch CancelAlarm;
                fire_alarm id cell epoch at_ms generation covered
            | PhFenced => cell_insert id (set_c_alarm None cell)
            | PhDormant _ | PhInactive =>
                if st_draining s then cell_insert id (set_c_alarm None cell)
                else
                  cell ← admit_or_queue_activation id (set_c_alarm_wake true cell) ColdReadOwner;
                  retry_alarm_timer id generation now_mono_ms ;;
                  cell_insert id cell
            | _ =>
                retry_alarm_timer id generation now_mono_ms ;;
                cell_insert id cell
            end
      | _ => cell_insert id cell
      end).

Definition barrier_insert (op : N) (b : Barrier) : dec unit :=
  modify (λ s, set_st_barriers (<[op := b]> (st_barriers s)) s).

(** Open a barrier and ask for its proof. *)
Definition open_barrier (owner : GateOwner) (id : string) (epoch position : N) : dec unit :=
  op ← op;
  barrier_insert op (mkBarrier owner id epoch position [] false []) ;;
  emit (FxAwaitDurable op id epoch position).

(** The cell is resident at exactly this epoch. *)
Definition resident_at (s : State) (id : string) (epoch : N) : bool :=
  match st_cells s !! id with
  | Some cell => match c_phase cell with PhResident current => current =? epoch | _ => false end
  | None => false
  end.

Definition firing_op (op : N) (cell : Cell) : bool :=
  match c_alarm cell with Some (AlFiring current _ _ _ _) => current =? op | _ => false end.

(** The settlement half of [State::alarm_finished]. *)
Definition settle_alarm (op now_ms now_mono_ms : N) (res : result (AlarmSnapshot * bool) Failure) :
    dec unit :=
  id ← take_cell_op op (firing_op op);
  with_some id (λ id,
    cell ← cell_remove id;
    with_some cell (λ cell,
      match c_alarm cell with
      | Some (AlFiring _ at_ms generation covered observed) =>
          match res with
          | Ok reported =>
              cell_insert id cell ;;
              let '(alarm, covered) := default reported observed in
              alarm_observed id (mkAlarmObservation alarm covered true) now_ms now_mono_ms
          | Err _ =>
              cell_insert id (set_c_alarm (Some (AlArmed at_ms generation covered)) cell) ;;
              emit (FxScheduleTimer (TCellAlarm id generation) (sat_add now_mono_ms 500))
          end
      | _ => cell_insert id cell
      end)).

(** [State::alarm_finished]. *)
Definition alarm_finished (op : N) (fired : string) (epoch now_ms now_mono_ms : N)
    (res : result (AlarmSnapshot * bool * option N) Failure) : dec unit :=
  s ← get;
  match res with
  | Ok (snapshot, covered, Some position) =>
      if resident_at s fired epoch then open_barrier (OwnAlarm op snapshot covered) fired epoch position
      else settle_alarm op now_ms now_mono_ms (Ok (snapshot, covered))
  | Ok (snapshot, covered, None) => settle_alarm op now_ms now_mono_ms (Ok (snapshot, covered))
  | Err e => settle_alarm op now_ms now_mono_ms (Err e)
  end.
