(* ===== verification/OutputGate.v ===== *)
(** * The output gate

    Models [crates/logic/output_gate.rs] with the two handlers of
    [crates/logic/lib.rs] it settles through: [activity_finished], which
    unpins a request, and [reset_cell], which discards a runtime whose writes
    could not be proved.  An output leaves as [FxRelease _ _ (Ok tt)] only
    from here. *)

From S2P Require Import Prelude Effects Pressure LogTier Wake Types CoreState CoreOps.
From S2P Require Import Activation Alarms.

(** Whether a barrier withholds an output of the request. *)
Definition holds_request (request : N) (b : Barrier) : bool :=
  (match b_owner b with OwnOutput held => h_request held =? request | _ => false end)
  || existsb (λ held, h_request held =? request) (b_followers b).

(** [State::activity_finished]. *)
Definition activity_finished (request : N) : dec unit :=
  s ← get;
  if existsb (holds_request request) (values (st_barriers s)) then
    modify (λ s, set_st_gate_pinned ({[request]} ∪ st_gate_pinned s) s)
  else
    id ← deactivate_request request;
    with_some id (λ id,
      cell_update id (λ cell,
        set_c_last_used_request (N.max (c_last_used_request cell) request)
          (set_c_last_used_mono_ms (st_now_mono_ms s) cell))) ;;
    shed_one.

Definition emit_release (held : Held) (res : result unit RequestError) : dec unit :=
  emit (FxRelease (h_request held) (h_channel held) res).

Definition unpin_gate (request : N) : dec unit :=
  modify (λ s, set_st_gate_pinned (st_gate_pinned s ∖ {[request]}) s).

Definition barrier_remove (op : N) : dec unit :=
  modify (λ s, set_st_barriers (delete op (st_barriers s)) s).

(** [State::release_held]. *)
Definition release_held (held : Held) (res : result unit RequestError) : dec unit :=
  s ← get;
  when (bool_decide (h_request held ∈ st_gate_pinned s))
    (unpin_gate (h_request held) ;; activity_finished (h_request held)) ;;
  emit_release held res.

(** Barriers matching a predicate, in operation order. *)
Definition barriers_where (s : State) (f : N → Barrier → bool) : list N :=
  (filter (λ item : N * Barrier, f item.1 item.2) (items (st_barriers s))).*1.

(** The verdict [reset_cell] gives one doomed barrier. *)
Definition doom_barrier (b : Barrier) : dec unit :=
  match b_owner b with
  | OwnOutput held =>
      unpin_gate (h_request held) ;;
      emit_release held (Err DurabilityUnproven)
  | OwnAlarm alarm _ _ =>
      s ← get;
      alarm_finished alarm (b_cell b) (b_epoch b) (st_now_ms s) (st_now_mono_ms s) (Err Ambiguous)
  | OwnExport ticket => emit (FxExportProven (b_cell b) (b_epoch b) ticket (Err DurabilityUnproven))
  end ;;
  for_each (b_followers b) (λ held, emit_release held (Err DurabilityUnproven)) ;;
  for_each (b_riders b) (λ rider,
    emit (FxExportProven (b_cell b) (b_epoch b) (r_ticket rider) (Err DurabilityUnproven))).

(** Requests active on a cell, in request order. *)
Definition requests_on (s : State) (id : string) : list N :=
  (filter (λ item : N * string, item.2 = id) (items (st_active_requests s))).*1.

(** [State::reset_cell]. *)
Definition reset_cell (id : string) (epoch : N) : dec unit :=
  s ← get;
  if negb (resident_at s id epoch) then mret tt
  else
    for_each (barriers_where s (λ _ b, bool_decide (b_cell b = id) && (b_epoch b =? epoch)))
      (λ op,
        s ← get;
        with_some (st_barriers s !! op) (λ b, barrier_remove op ;; doom_barrier b)) ;;
    s ← get;
    for_each (requests_on s id) (λ request,
      deactivate_request request ;;
      unpin_gate request) ;;
    op ← cell_op id;
    cell ← cell_get id;
    with_some cell (λ cell,
      with_some (phase_op (c_phase cell)) forget_cell_op ;;
      modify (λ s, set_st_quiescing_cells (st_quiescing_cells s ∖ {[id]}) s) ;;
      set_phase_in id cell (PhCleaning op epoch StopReset) ;;
      mret tt) ;;
    emit (FxStopRuntime op id epoch StopReset false).

(** [State::resident_cell]. *)
Definition resident_cell (s : State) (request : N) : option (string * N) :=
  id ← st_active_requests s !! request;
  cell ← st_cells s !! id;
  match c_phase cell with PhResident epoch => Some (id, epoch) | _ => None end.

(** [State::proven_covers]. *)
Definition proven_covers (s : State) (id : string) (epoch observed : N) : bool :=
  is_some_and (λ p : N * N, (p.1 =? epoch) && (observed <=? p.2))
    (cell ← st_cells s !! id; c_proven_position cell).

(** [State::note_proven]. *)
Definition note_proven (id : string) (epoch position : N) : dec unit :=
  cell_update id (λ cell,
    set_c_proven_position (Some
      (match c_proven_position cell with
       | Some (proven_at, proven) =>
           if proven_at =? epoch then (epoch, N.max proven position) else (epoch, position)
       | None => (epoch, position)
       end)) cell).

(** [State::open_write_barrier]. *)
Definition open_write_barrier (held : Held) (position : N) : dec unit :=
  s ← get;
  match resident_cell s (h_request held) with
  | None => emit_release held (Err DurabilityUnproven)
  | Some (id, epoch) => open_barrier (OwnOutput held) id epoch position
  end.

Definition push_follower (held : Held) (b : Barrier) : Barrier :=
  mkBarrier (b_owner b) (b_cell b) (b_epoch b) (b_position b) (b_followers b ++ [held])
    (b_verifying b) (b_riders b).

Definition push_riders (riders : list Rider) (b : Barrier) : Barrier :=
  mkBarrier (b_owner b) (b_cell b) (b_epoch b) (b_position b) (b_followers b)
    (b_verifying b) (b_riders b ++ riders).

Definition start_verifying (b : Barrier) : Barrier :=
  mkBarrier (b_owner b) (b_cell b) (b_epoch b) (b_position b) (b_followers b) true (b_riders b).

Definition barrier_update (op : N) (f : Barrier → Barrier) : dec unit :=
  modify (λ s, set_st_barriers (alter f op (st_barriers s)) s).

(** [State::hold_observed]. *)
Definition hold_observed (held : Held) (id : string) (epoch observed : N) : dec unit :=
  s ← get;
  match last (barriers_where s (λ _ b, bool_decide (b_cell b = id) && (b_epoch b =? epoch)
          && (observed <=? b_position b) && trailable b)) with
  | Some op => barrier_update op (push_follower held)
  | None => open_write_barrier held observed
  end.

(** [State::trail_open_barrier]. *)
Definition trail_open_barrier (held : Held) : dec unit :=
  s ← get;
  match st_active_requests s !! h_request held with
  | None => emit_release held (Err DurabilityUnproven)
  | Some id =>
      match last (barriers_where s (λ _ b, bool_decide (b_cell b = id) && trailable b)) with
      | Some op => barrier_update op (push_follower held)
      | None => emit_release held (Ok tt)
      end
  end.

(** [State::output]. *)
Definition output (request : N) (channel : Channel) (position observed epoch : option N) : dec unit :=
  let held := mkHeld request channel in
  s ← get;
  if negb (node_authoritative s) then emit_release held (Err NodeFenced)
  else if is_some_and (λ sampled,
            is_none_or (λ r : string * N, negb (r.2 =? sampled)) (resident_cell s request)) epoch
  then emit_release held (Err DurabilityUnproven)
  else
    match position, observed with
    | Some position, _ => open_write_barrier held position
    | None, Some observed =>
        match resident_cell s request with
        | Some (id, epoch) =>
            if proven_covers s id epoch observed then trail_open_barrier held
            else hold_observed held id epoch observed
        | None => emit_release held (Err DurabilityUnproven)
        end
    | None, None => trail_open_barrier held
    end.

(** [State::open_export_barrier] and [State::reask_riders]. *)
Definition open_export_barrier (id : string) (epoch position ticket : N) : dec unit :=
  open_barrier (OwnExport ticket) id epoch position.

Definition reask_riders (id : string) (epoch : N) (riders : list Rider) : dec unit :=
  for_each riders (λ rider, open_export_barrier id epoch (r_position rider) (r_ticket rider)).

(** [State::export_ticket]. *)
Definition export_ticket (id : string) (epoch position ticket : N) : dec unit :=
  s ← get;
  if negb (node_authoritative s) then emit (FxExportProven id epoch ticket (Err NodeFenced))
  else if negb (resident_at s id epoch)
  then emit (FxExportProven id epoch ticket (Err DurabilityUnproven))
  else
    match head (barriers_where s (λ _ b, bool_decide (b_cell b = id) && (b_epoch b =? epoch)
            && negb (b_verifying b) && (position <=? b_position b))) with
    | Some host => barrier_update host (push_riders [mkRider ticket position])
    | None => open_export_barrier id epoch position ticket
    end.

(** [State::settle_gate]. *)
Definition settle_gate (op : N) (proven : bool) : dec unit :=
  s ← get;
  with_some (st_barriers s !! op) (λ gate,
    barrier_remove op ;;
    when proven (note_proven (b_cell gate) (b_epoch gate) (b_position gate)) ;;
    let res : result unit RequestError := if proven then Ok tt else Err DurabilityUnproven in
    for_each (b_riders gate) (λ rider,
      emit (FxExportProven (b_cell gate) (b_epoch gate) (r_ticket rider) res)) ;;
    let release_followers :=
      for_each (b_followers gate) (λ held, release_held held res) ;;
      when (negb proven) (reset_cell (b_cell gate) (b_epoch gate)) in
    match b_owner gate with
    | OwnOutput held => release_held held res ;; release_followers
    | OwnAlarm alarm snapshot covered =>
        s ← get;
        alarm_finished alarm (b_cell gate) (b_epoch gate) (st_now_ms s) (st_now_mono_ms s)
          (if proven then Ok (snapshot, covered, None) else Err Ambiguous) ;;
        release_followers
    | OwnExport ticket => emit (FxExportProven (b_cell gate) (b_epoch gate) ticket res)
    end).

(** The ticket of an export barrier, the rider it becomes, and its riders. *)
Definition as_riders (b : Barrier) : option (list Rider) :=
  match b_owner b with
  | OwnExport ticket => Some (mkRider ticket (b_position b) :: b_riders b)
  | _ => None
  end.

(** [State::hand_export_on]. *)
Definition hand_export_on (op : N) : dec bool :=
  s ← get;
  gate ← expect (st_barriers s !! op);
  match as_riders gate with
  | None => mret false
  | Some riders =>
      match head (barriers_where s (λ other b, negb (other =? op)
              && bool_decide (b_cell b = b_cell gate) && (b_epoch b =? b_epoch gate)
              && negb (b_verifying b) && trailable b)) with
      | None => mret false
      | Some host =>
          barrier_remove op ;;
          barrier_update host (push_riders riders) ;;
          mret true
      end
  end.

(** [State::take_export_riders]. *)
Definition take_export_riders (op : N) : dec unit :=
  s ← get;
  gate ← expect (st_barriers s !! op);
  riders ← fold_each
    (barriers_where s (λ other b, negb (other =? op)
       && bool_decide (b_cell b = b_cell gate) && (b_epoch b =? b_epoch gate)
       && negb (b_verifying b) && (b_position b <=? b_position gate)
       && negb (trailable b)))
    [] (λ riders other,
      s ← get;
      b ← expect (st_barriers s !! other);
      taken ← expect (as_riders b);
      barrier_remove other ;;
      mret (riders ++ taken));
  barrier_update op (push_riders riders).

(** [State::durable_reached]. *)
Definition durable_reached (op : N) (res : result N Failure) (source : ProofSource) : dec unit :=
  s ← get;
  with_some (st_barriers s !! op) (λ gate,
    let proven := match res with Ok durable => b_position gate <=? durable | Err _ => false end in
    match proven, source with
    | true, Bucket =>
        handed ← hand_export_on op;
        if (handed : bool) then mret tt
        else
          take_export_riders op ;;
          barrier_update op start_verifying ;;
          emit (FxVerifyOwnership op (b_cell gate) (b_epoch gate))
    | true, Fleet =>
        let riders := b_riders gate in
        barrier_update op (λ b, mkBarrier (b_owner b) (b_cell b) (b_epoch b) (b_position b)
          (b_followers b) (b_verifying b) []) ;;
        settle_gate op true ;;
        reask_riders (b_cell gate) (b_epoch gate) riders
    | false, _ => settle_gate op false
    end).

(** [State::ownership_verified]. *)
Definition ownership_verified (op : N) (res : result unit Failure) : dec unit :=
  s ← get;
  when (is_some (st_barriers s !! op)) (settle_gate op (is_ok res)).

(** [State::cancel_cell_outputs] (lib.rs). *)
Definition cancel_cell_outputs (id : string) : dec unit :=
  s ← get;
  for_each (barriers_where s (λ _ b, bool_decide (b_cell b = id)
      && match b_owner b with OwnOutput _ => true | _ => false end))
    (λ op,
      s ← get;
      with_some (st_barriers s !! op) (λ gate,
        barrier_remove op ;;
        match b_owner gate with
        | OwnOutput owner =>
            release_held owner (Err DurabilityUnproven) ;;
            for_each (b_followers gate) (λ held, release_held held (Err DurabilityUnproven)) ;;
            reask_riders (b_cell gate) (b_epoch gate) (b_riders gate)
        | _ => panic
        end)).

(** The barriers a filter selects, each once. *)
Lemma elem_of_barriers_where s f op :
  op ∈ barriers_where s f → ∃ b, st_barriers s !! op = Some b ∧ f op b = true.
Proof.
  unfold barriers_where. intros ([o b] & -> & H)%list_elem_of_fmap.
  apply list_elem_of_filter in H as [H1 H2]. apply elem_of_items in H2.
  exists b. split; [done|]. by apply Is_true_true.
Qed.

Lemma barriers_where_elem_of s f op b :
  st_barriers s !! op = Some b → f op b = true → op ∈ barriers_where s f.
Proof.
  intros E Hf. unfold barriers_where. apply list_elem_of_fmap. exists (op, b). split; [done|].
  apply list_elem_of_filter. split; [simpl; by rewrite Hf|by apply elem_of_items].
Qed.

Lemma NoDup_barriers_where s f : NoDup (barriers_where s f).
Proof.
  unfold barriers_where. eapply sublist_NoDup; [apply (NoDup_keys (st_barriers s))|].
  apply fmap_sublist, sublist_filter.
Qed.
