(* ===== verification/NodeLease.v ===== *)
(** * Node authority: the self lease and the fence

    Models the node-lease half of [crates/logic/lib.rs]: acquisition, renewal,
    readback of an ambiguous write, the adopted late write, and the fence that
    ends every cell when authority is lost. *)

From S2P Require Import Prelude Effects Pressure LogTier Wake Types CoreState CoreOps.
From S2P Require Import Activation Alarms OutputGate.

(** The verdict [fence] gives one withheld barrier. *)
Definition fence_barrier (b : Barrier) : dec unit :=
  match b_owner b with
  | OwnOutput held => emit_release held (Err NodeFenced)
  | OwnExport ticket => emit (FxExportProven (b_cell b) (b_epoch b) ticket (Err NodeFenced))
  | OwnAlarm _ _ _ => mret tt
  end ;;
  for_each (b_followers b) (λ held, emit_release held (Err NodeFenced)) ;;
  for_each (b_riders b) (λ rider,
    emit (FxExportProven (b_cell b) (b_epoch b) (r_ticket rider) (Err NodeFenced))).

(** The per-cell teardown of [fence]. *)
Definition fence_cell (id : string) : dec unit :=
  cell ← cell_remove id;
  cell ← expect cell;
  match c_phase cell with
  | PhStarting op epoch | PhPublishing op epoch =>
      modify (λ s, set_st_timed_out_runtime_starts (st_timed_out_runtime_starts s ∖ {[op]}) s) ;;
      modify (λ s, set_st_retired_runtime_ops (<[op := (id, epoch)]> (st_retired_runtime_ops s)) s)
  | _ => mret tt
  end ;;
  with_some (runtime_epoch (c_phase cell)) (λ epoch,
    op ← op;
    emit (FxStopRuntime op id epoch StopFence false)) ;;
  cell ← finish_requests id cell (Err NodeFenced);
  match c_phase cell with
  | PhEnsuringDurability op _ | PhCleaning op _ (StopEvict _) =>
      finish_eviction op (Err (Cancelled CancelNodeFenced))
  | _ => mret tt
  end ;;
  with_some (phase_op (c_phase cell)) forget_cell_op ;;
  match c_alarm cell with
  | Some (AlFiring op _ _ _ _) => forget_cell_op op
  | _ => mret tt
  end ;;
  cell ← set_phase cell PhFenced;
  cell_insert id (set_c_websockets ∅ (set_c_alarm_wake false (set_c_alarm None
    (set_c_waiting_activation None (set_c_waiting_for None cell))))).

(** The indexes [fence] clears. *)
Definition fence_indexes (s : State) : State :=
  set_st_barriers ∅ (set_st_gate_pinned ∅
  (set_st_admitted_gate_cells ∅ (set_st_admitted_gates ∅
  (set_st_active_cells ∅ (set_st_active_requests ∅
  (set_st_adopting_cells ∅ (set_st_quiescing_cells ∅
  (set_st_capacity_waiters [] (set_st_activation_permits ∅
  (set_st_activation_waiters [] (set_st_fenced true s))))))))))).

(** [State::fence]. *)
Definition fence : dec unit :=
  s ← get;
  if st_fenced s then mret tt
  else
    modify fence_indexes ;;
    for_each (values (st_barriers s)) fence_barrier ;;
    for_each (keys (st_cells s)) fence_cell.

(** [State::fence_node]. *)
Definition fence_node (reason : HaltReason) : dec unit :=
  modify (set_st_node_authority AuFenced) ;;
  fence ;;
  emit (FxHalt 3 reason).

(** [State::compensate_retired_runtime]. *)
Definition compensate_retired_runtime (op : N) (res : result unit Failure) : dec unit :=
  s ← get;
  with_some (st_retired_runtime_ops s !! op) (λ '(id, epoch),
    modify (λ s, set_st_retired_runtime_ops (delete op (st_retired_runtime_ops s)) s) ;;
    match res with
    | Err Definite => mret tt
    | _ =>
        cleanup ← CoreOps.op;
        emit (FxStopRuntime cleanup id epoch StopFence false)
    end).

(** [same_node_lease]: the etag is not compared. *)
Definition same_node_lease (l r : NodeLeaseRecord) : bool :=
  bool_decide (nl_node l = nl_node r) && bool_decide (nl_addr l = nl_addr r)
  && (nl_expires_ms l =? nl_expires_ms r) && (nl_peer_protocol l =? nl_peer_protocol r)
  && bool_decide (nl_generation l = nl_generation r)
  && bool_decide (nl_log_state l = nl_log_state r).

(** [State::begin_node_lease_acquisition]. *)
Definition begin_node_lease_acquisition (now_ms : N) (spec : NodeLeaseSpec) : dec unit :=
  s ← get;
  let desired := mkNodeLeaseRecord (st_node s) (ls_addr spec) (sat_add now_ms (ls_ttl_ms spec))
    (ls_peer_protocol spec) (ls_generation spec) None EmptyString in
  let pending := mkPendingNodeLease spec desired None false (st_now_mono_ms s) false in
  op ← op;
  modify (set_st_node_authority (AuReading op pending)) ;;
  emit (FxReadSelfNodeLease op).

(** [State::start_node_lease]. *)
Definition start_node_lease (now_ms : N) (spec : NodeLeaseSpec) : dec unit :=
  s ← get;
  match st_node_authority s with
  | AuUnstarted | AuFailed => begin_node_lease_acquisition now_ms spec
  | _ => mret tt
  end.

(** The renewal cadence: a third of the TTL, at least one millisecond. *)
Definition renew_cadence (spec : NodeLeaseSpec) : N := N.max (ls_ttl_ms spec / 3) 1.

(** [State::fail_initial_node_lease]. *)
Definition fail_initial_node_lease (spec : NodeLeaseSpec) : dec unit :=
  generation ← timer_generation;
  s ← get;
  emit (FxScheduleTimer (TNodeLeaseRenew generation)
    (sat_add (st_now_mono_ms s) (renew_cadence spec))) ;;
  modify (set_st_node_authority (AuRetrying spec generation)).

(** [std::mem::take(&mut self.nudge_pending)]. *)
Definition take_nudge : dec bool :=
  s ← get;
  modify (set_st_nudge_pending false) ;;
  mret (st_nudge_pending s).

(** [State::hold_node_lease]. *)
Definition hold_node_lease (spec : NodeLeaseSpec) (record : NodeLeaseRecord) (anchor_mono_ms : N)
    (resume_local confirm_local : bool) : dec unit :=
  generation ← timer_generation;
  nudged ← take_nudge;
  let renew_after := if (nudged : bool) then 1 else renew_cadence spec in
  emit (FxScheduleTimer (TNodeLeaseRenew generation) (sat_add anchor_mono_ms renew_after)) ;;
  emit (FxScheduleTimer (TNodeLeaseFence generation) (sat_add anchor_mono_ms (ls_ttl_ms spec))) ;;
  modify (set_st_node_authority
    (AuHeld (mkHeldNodeLease spec record anchor_mono_ms anchor_mono_ms generation))) ;;
  if resume_local then
    modify (set_st_resuming true) ;; emit FxReadLocalCells
  else if confirm_local then
    modify (set_st_confirming true) ;; emit FxReadLocalCells
  else mret tt.

(** [State::complete_node_lease_write]. *)
Definition complete_node_lease_write (pending : PendingNodeLease) (record : NodeLeaseRecord)
    (now_mono_ms : N) : dec unit :=
  let expired :=
    ls_ttl_ms (pl_spec pending) <=? sat_sub now_mono_ms (pl_anchor_mono_ms pending) in
  let hold :=
    hold_node_lease (pl_spec pending) record (pl_anchor_mono_ms pending) (pl_resume_local pending)
      (negb (is_some (pl_prior pending)) && negb (pl_resume_local pending)) in
  match pl_prior pending with
  | Some prior =>
      if expired
         || (ls_ttl_ms (hl_spec prior) <=? sat_sub now_mono_ms (hl_last_ok_mono_ms prior))
      then fence_node NodeLeaseExpired
      else hold
  | None => if expired then fail_initial_node_lease (pl_spec pending) else hold
  end.

(** The retry delay of [resume_node_lease_after_failure]. *)
Definition retry_delay (prior : HeldNodeLease) (now_mono_ms : N) : N :=
  let authority_deadline := sat_add (hl_last_ok_mono_ms prior) (ls_ttl_ms (hl_spec prior)) in
  let remaining := sat_sub authority_deadline now_mono_ms in
  let cadence := renew_cadence (hl_spec prior) in
  if cadence <=? remaining / 2 then cadence else N.max (remaining / 4) 1.

(** [State::resume_node_lease_after_failure]. *)
Definition resume_node_lease_after_failure (prior : HeldNodeLease) (now_mono_ms : N) : dec unit :=
  nudged ← take_nudge;
  let retry_after := if (nudged : bool) then 1 else retry_delay prior now_mono_ms in
  emit (FxScheduleTimer (TNodeLeaseRenew (hl_timer_generation prior))
    (sat_add now_mono_ms retry_after)) ;;
  modify (set_st_node_authority (AuHeld prior)).

(** [State::begin_node_lease_write]. *)
Definition begin_node_lease_write (pending : PendingNodeLease) (guard : CasGuard) : dec unit :=
  op ← op;
  modify (set_st_node_authority (AuWriting op pending)) ;;
  emit (FxCasNodeLease op guard (pl_desired pending)
    ((λ prior, nl_expires_ms (hl_record prior)) <$> pl_prior pending)).

Definition set_log_state (log_state : option LogState) (r : NodeLeaseRecord) : NodeLeaseRecord :=
  mkNodeLeaseRecord (nl_node r) (nl_addr r) (nl_expires_ms r) (nl_peer_protocol r)
    (nl_generation r) log_state (nl_etag r).

Definition set_etag (etag : string) (r : NodeLeaseRecord) : NodeLeaseRecord :=
  mkNodeLeaseRecord (nl_node r) (nl_addr r) (nl_expires_ms r) (nl_peer_protocol r)
    (nl_generation r) (nl_log_state r) etag.

(** The record is this process's own late write: every identity field is its
    own and only the expiry moved, no further than an attempt could write. *)
Definition own_late_write (pending : PendingNodeLease) (prior : HeldNodeLease)
    (record : NodeLeaseRecord) : bool :=
  let desired := pl_desired pending in
  bool_decide (nl_node record = nl_node desired) && bool_decide (nl_addr record = nl_addr desired)
  && (nl_peer_protocol record =? nl_peer_protocol desired)
  && bool_decide (nl_generation record = nl_generation desired)
  && bool_decide (nl_log_state record = nl_log_state desired)
  && (nl_expires_ms (hl_record prior) <? nl_expires_ms record)
  && (nl_expires_ms record <=? nl_expires_ms desired).

(** Adopt a late write: the anchor is bounded by the expiry delta and by the
    expiry observed at this readback. *)
Definition adopt_late_write (prior : HeldNodeLease) (record : NodeLeaseRecord)
    (now_ms now_mono_ms : N) : dec unit :=
  let delta := sat_sub (nl_expires_ms record) (nl_expires_ms (hl_record prior)) in
  let delta_anchor := sat_add (hl_last_ok_mono_ms prior) delta in
  let observed_remaining := sat_sub (nl_expires_ms record) now_ms in
  if observed_remaining =? 0 then fence_node NodeLeaseExpired
  else
    match checked_sub (sat_add now_mono_ms observed_remaining) (ls_ttl_ms (hl_spec prior)) with
    | None => fence_node NodeLeaseExpired
    | Some observed_anchor =>
        let prior := mkHeldNodeLease (hl_spec prior) record (N.min delta_anchor observed_anchor)
          (hl_last_attempt_mono_ms prior) (hl_timer_generation prior) in
        modify (set_st_nudge_pending true) ;;
        emit (FxScheduleTimer (TNodeLeaseFence (hl_timer_generation prior))
          (sat_add (hl_last_ok_mono_ms prior) (ls_ttl_ms (hl_spec prior)))) ;;
        resume_node_lease_after_failure prior now_mono_ms
    end.

(** A predecessor generation whose folded log still needs recovery. *)
Definition predecessor_unrecovered (pending : PendingNodeLease) (record : NodeLeaseRecord) : bool :=
  negb (bool_decide (nl_generation record = nl_generation (pl_desired pending)))
  && match nl_log_state record with None | Some LogSealed => false | _ => true end.

(** The last arms of [State::read_self_node_lease]: no lease of this process
    is at stake, so the record found is replaced. *)
Definition replace_node_lease (pending : PendingNodeLease) (found : option NodeLeaseRecord)
    (now_ms : N) : dec unit :=
  match found with
  | None => begin_node_lease_write pending Absent
  | Some record =>
      if predecessor_unrecovered pending record then fail_initial_node_lease (pl_spec pending)
      else
        let resume_local := (now_ms <? nl_expires_ms record)
          && bool_decide (ls_resume_generation (pl_spec pending) = Some (nl_generation record)) in
        begin_node_lease_write
          (mkPendingNodeLease (pl_spec pending) (pl_desired pending) (pl_prior pending)
            (pl_readback_only pending) (pl_anchor_mono_ms pending) resume_local)
          (Match (nl_etag record))
  end.

(** [State::read_self_node_lease]. *)
Definition read_self_node_lease (op now_ms now_mono_ms : N)
    (res : result (option NodeLeaseRecord) Failure) : dec unit :=
  s ← get;
  match st_node_authority s with
  | AuReading current pending =>
      if negb (current =? op) then mret tt
      else
        modify (set_st_node_authority AuFailed) ;;
        match res, pl_prior pending with
        | Err _, Some prior => resume_node_lease_after_failure prior now_mono_ms
        | Err _, None => fail_initial_node_lease (pl_spec pending)
        | Ok (Some record), prior =>
            if same_node_lease record (pl_desired pending)
            then complete_node_lease_write pending record now_mono_ms
            else
              match prior with
              | Some prior =>
                  if same_node_lease record (hl_record prior) then
                    resume_node_lease_after_failure
                      (mkHeldNodeLease (hl_spec prior) (set_etag (nl_etag record) (hl_record prior))
                        (hl_last_ok_mono_ms prior) (hl_last_attempt_mono_ms prior)
                        (hl_timer_generation prior)) now_mono_ms
                  else if own_late_write pending prior record
                  then adopt_late_write prior record now_ms now_mono_ms
                  else fence_node NodeLeaseMismatch
              | None =>
                  if pl_readback_only pending then fail_initial_node_lease (pl_spec pending)
                  else replace_node_lease pending (Some record) now_ms
              end
        | Ok None, Some _ => fence_node NodeLeaseMissing
        | Ok None, None =>
            if pl_readback_only pending then fail_initial_node_lease (pl_spec pending)
            else replace_node_lease pending None now_ms
        end
  | _ => mret tt
  end.

(** The readback after a rejected or ambiguous write. *)
Definition read_back (pending : PendingNodeLease) (readback_only : bool)
    (stamped_log_state : option LogState) : dec unit :=
  read ← CoreOps.op;
  modify (set_st_node_authority (AuReading read
    (mkPendingNodeLease (pl_spec pending) (set_log_state stamped_log_state (pl_desired pending))
      (pl_prior pending) readback_only (pl_anchor_mono_ms pending) (pl_resume_local pending)))) ;;
  emit (FxReadSelfNodeLease read).

(** [State::node_lease_cas_completed]. *)
Definition node_lease_cas_completed (op now_mono_ms : N) (res : result LeaseCasOutcome Failure)
    (stamped_log_state : option LogState) : dec unit :=
  s ← get;
  match st_node_authority s with
  | AuWriting current pending =>
      if negb (current =? op) then mret tt
      else
        modify (set_st_node_authority AuFailed) ;;
        match res with
        | Ok (LeaseApplied etag) =>
            complete_node_lease_write pending
              (set_log_state stamped_log_state (set_etag etag (pl_desired pending))) now_mono_ms
        | Ok LeaseRejected => read_back pending (pl_readback_only pending) stamped_log_state
        | Err Ambiguous => read_back pending true stamped_log_state
        | Err Definite =>
            match pl_prior pending with
            | Some prior => resume_node_lease_after_failure prior now_mono_ms
            | None => fail_initial_node_lease (pl_spec pending)
            end
        end
  | _ => mret tt
  end.
