(* ===== verification/Ingress.v ===== *)
(** * Requests and wake hints

    Models the ingress handlers of [crates/logic/lib.rs]: ordinary requests,
    capacity and ownership handoffs, socket events, output-gate admissions,
    wake hints, cancellation, and the retirement of cold work before a local
    reload. *)

From S2P Require Import Prelude Effects Pressure LogTier Wake Types CoreState CoreOps.
From S2P Require Import Activation Alarms OutputGate.

Definition request_cell_insert (request : N) (id : string) : dec unit :=
  modify (λ s, set_st_request_cells (<[request := id]> (st_request_cells s)) s).

(** A request joins the cell's waiters. *)
Definition join_waiters (request : N) (id : string) (cell : Cell) : dec Cell :=
  request_cell_insert request id ;;
  mret (set_c_requests ({[request]} ∪ c_requests cell) cell).

(** The runtime serves the request: [record_local_request] and a local route. *)
Definition serve_local (request : N) (id : string) (cell : Cell) : dec Cell :=
  s ← get;
  cell ← record_local_request cell request (st_now_mono_ms s);
  complete_request id request (Ok RouteLocal) ;;
  mret cell.

(** The default arm of [request_authorized]: wait on the cell, and start a
    cold route if nothing is bringing it up. *)
Definition wait_for_cell (request : N) (id : string) (cell : Cell) : dec Cell :=
  s ← get;
  cell ← join_waiters request id cell;
  match c_phase cell with
  | PhInactive => admit_or_queue_activation id cell ColdReadOwner
  | PhRemote _ _ _ _ cache =>
      match cache with
      | Uncached => mret tt
      | _ => modify_activity incr_remote_route_refreshes
      end ;;
      admit_or_queue_activation id cell ColdReadOwner
  | PhDormant _ =>
      if hands_off s cell then mret cell else admit_or_queue_activation id cell ColdReadOwner
  | _ => mret cell
  end.

(** [State::request_authorized]. *)
Definition request_authorized (request : N) (id : string) : dec unit :=
  found ← cell_remove id;
  let cell := default Cell_default found in
  s ← get;
  let refuse e := emit (FxComplete request (Err e)) ;; mret cell in
  cell ←
    match c_phase cell with
    | PhResident _ =>
        if c_quiescing cell then wait_for_cell request id cell else serve_local request id cell
    | PhEnsuringDurability _ epoch =>
        if st_draining s then wait_for_cell request id cell
        else
          cell ← cancel_eviction id cell epoch CancelActivity;
          serve_local request id cell
    | PhRemote node addr epoch peer_protocol cache =>
        if reusable cache (st_now_ms s) (st_now_mono_ms s) then
          emit (FxComplete request (Ok (RouteRemote node addr epoch peer_protocol))) ;; mret cell
        else wait_for_cell request id cell
    | PhFenced => refuse NodeFenced
    | PhStarting op _ =>
        if bool_decide (op ∈ st_timed_out_runtime_starts s) then refuse RuntimeFailed
        else wait_for_cell request id cell
    | PhInactive =>
        if st_draining s then refuse NodeUnavailable else wait_for_cell request id cell
    | PhCleaning op _ (StopEvict _) =>
        if st_draining s then wait_for_cell request id cell
        else
          let first := is_empty_set (c_requests cell) in
          cell ← join_waiters request id cell;
          when first (emit (FxAbandonEvictionStop op id)) ;;
          mret cell
    | PhDormant _ =>
        if bool_decide (request ∈ st_handoff_requests s) then join_waiters request id cell
        else wait_for_cell request id cell
    | _ => wait_for_cell request id cell
    end;
  cell_insert id cell.

(** [State::request]. *)
Definition request (request : N) (id : string) (capacity_handoff ownership_handoff : bool) : dec unit :=
  s ← get;
  if is_some (st_request_cells s !! request) then mret tt
  else if st_fenced s then emit (FxComplete request (Err NodeFenced))
  else
    when capacity_handoff
      (modify (λ s, set_st_capacity_requests ({[request]} ∪ st_capacity_requests s) s)) ;;
    when ownership_handoff
      (modify (λ s, set_st_handoff_requests ({[request]} ∪ st_handoff_requests s) s)) ;;
    if node_authoritative s then request_authorized request id
    else emit (FxComplete request (Err NodeUnavailable)).

(** [State::websocket_request]. *)
Definition websocket_request (req : N) (id : string) (websocket : N) : dec unit :=
  s ← get;
  if node_authoritative s
     && is_some_and (λ cell, is_resident (c_phase cell) && is_some (c_websockets cell !! websocket))
          (st_cells s !! id)
  then complete_request id req (Ok RouteLocal)
  else request req id false false.

(** [State::gate_request]. *)
Definition gate_request (req : N) (id : string) : dec unit :=
  s ← get;
  if node_authoritative s && negb (st_draining s)
     && is_some_and (λ cell, is_resident (c_phase cell) && negb (c_swap_cancelled cell)
          && (runs_gate_source s id || is_firing (c_alarm cell))) (st_cells s !! id)
  then
    complete_request id req (Ok RouteLocal) ;;
    modify (λ s, set_st_admitted_gates ({[req]} ∪ st_admitted_gates s) s) ;;
    modify (λ s, set_st_admitted_gate_cells
      (<[id := default 0 (st_admitted_gate_cells s !! id) + 1]> (st_admitted_gate_cells s)) s)
  else request req id false false.

(** [State::wake_hint_authorized]. *)
Definition wake_hint_authorized (id : string) (scope : WakeHintScope) : dec unit :=
  s ← get;
  if st_draining s then mret tt
  else if bool_decide (scope = ScopeOwned)
          && negb (is_some_and (λ cell, is_dormant (c_phase cell)) (st_cells s !! id))
  then mret tt
  else
    found ← cell_remove id;
    let cell := set_c_alarm_wake true (default Cell_default found) in
    cell ←
      match c_phase cell with
      | PhInactive | PhRemote _ _ _ _ _ | PhDormant _ =>
          admit_or_queue_activation id cell ColdReadOwner
      | _ => mret cell
      end;
    cell_insert id cell.

(** [State::wake_hint]; the entry's minute is not read. *)
Definition wake_hint (id : string) (entry_ms : Z) (scope : WakeHintScope) : dec unit :=
  s ← get;
  if st_fenced s then mret tt
  else when (node_authoritative s) (wake_hint_authorized id scope).

Definition remove_handoff_request (request : N) : dec unit :=
  modify (λ s, set_st_handoff_requests (st_handoff_requests s ∖ {[request]}) s).

(** [State::cancel]. *)
Definition cancel (request : N) : dec unit :=
  s ← get;
  when (is_some (st_active_requests s !! request)) (activity_finished request) ;;
  remove_capacity_request request ;;
  remove_handoff_request request ;;
  s ← get;
  match st_request_cells s !! request with
  | None => mret tt
  | Some id =>
      remove_request_cell request ;;
      cell ← cell_get id;
      with_some cell (λ cell,
        let cell := set_c_requests (c_requests cell ∖ {[request]}) cell in
        cell_insert id cell ;;
        let undemanded :=
          is_empty_set (c_requests cell) && negb (c_alarm_wake cell) && negb (c_resume_demand cell) in
        if undemanded && is_waiting_activation (c_phase cell) then
          set_phase_in id (set_c_waiting_activation None cell)
            (match c_waiting_activation cell with
             | Some (ColdRestore spec) => PhDormant (rs_epoch spec)
             | _ => PhInactive
             end) ;;
          modify (λ s, set_st_activation_waiters
            (filter (λ w, w ≠ id) (st_activation_waiters s)) s)
        else if undemanded && is_waiting_capacity (c_phase cell) then
          set_phase_in id (set_c_waiting_for None cell)
            (match c_waiting_for cell with
             | Some (ActRestore spec) => PhDormant (rs_epoch spec)
             | _ => PhInactive
             end) ;;
          modify (λ s, set_st_capacity_waiters
            (filter (λ w, w ≠ id) (st_capacity_waiters s)) s)
        else mret tt)
  end.

(** Where [begin_preserve] retires a cold phase to, if it retires it. *)
Definition preserve_fallback (cell : Cell) : option Phase :=
  match c_phase cell with
  | PhWaitingActivation =>
      Some (match c_waiting_activation cell with
            | Some (ColdRestore spec) => PhDormant (rs_epoch spec)
            | _ => PhInactive
            end)
  | PhReadingOwner _ | PhReadingNodeLease _ _ _ _ | PhRecoveringOwnerLog _ _
  | PhWaitingOwnerLogRecovery _ | PhReadingCapacity _ _ _ | PhAcquiring _ _ _
  | PhReconcilingAcquire _ _ _ => Some PhInactive
  | PhWaitingCapacity =>
      Some (match c_waiting_for cell with
            | Some (ActRestore spec) => PhDormant (rs_epoch spec)
            | _ => PhInactive
            end)
  | PhRestoring _ spec => Some (PhDormant (rs_epoch spec))
  | _ => None
  end.

(** One cell of [begin_preserve]. *)
Definition preserve_cell (id : string) : dec unit :=
  cell ← cell_remove id;
  cell ← expect cell;
  cell ←
    match preserve_fallback cell with
    | None => mret cell
    | Some fallback =>
        with_some (phase_op (c_phase cell)) forget_cell_op ;;
        cell ← finish_requests id cell (Err NodeFenced);
        cell ← set_phase cell fallback;
        modify (λ s, set_st_resuming_cells (st_resuming_cells s ∖ {[id]}) s) ;;
        mret (set_c_resume_demand false (set_c_alarm_wake false (set_c_waiting_activation None
          (set_c_waiting_for None (set_c_owner_log_recovery_attempts 0 cell)))))
    end;
  cell_insert id cell.

(** [State::begin_preserve]. *)
Definition begin_preserve : dec unit :=
  modify (set_st_activation_waiters []) ;;
  modify (set_st_capacity_waiters []) ;;
  s ← get;
  for_each (keys (st_cells s)) preserve_cell ;;
  s ← get;
  when (is_empty_set (st_resuming_cells s)) (modify (set_st_resuming false)) ;;
  modify (λ s, set_st_activation_permits (retained_permits s) s) ;;
  modify (λ s, set_st_capacity_requests
    (filter (λ request, is_Some (st_request_cells s !! request)) (st_capacity_requests s)) s) ;;
  modify (λ s, set_st_handoff_requests
    (filter (λ request, is_Some (st_request_cells s !! request)) (st_handoff_requests s)) s).
