(* ===== verification/Resolution.v ===== *)
(** * Ownership resolution

    Models how [crates/logic/lib.rs] finds the owner of a cell and decides
    what this node may do about it: the owner read, the foreign owner's lease
    with its takeover interlock, capacity placement of an unowned cell, and
    the conditional write that claims the next epoch. *)

From S2P Require Import Prelude Effects Pressure LogTier Wake Types CoreState CoreOps.
From S2P Require Import Activation.

(** [State::begin_capacity_lookup]. *)
Definition begin_capacity_lookup (id : string) (cell : Cell) (claim : Claim) : dec Cell :=
  op ← cell_op id;
  s ← get;
  cell ← set_phase cell (PhReadingCapacity op claim (st_now_mono_ms s));
  emit (FxReadCapacityPeers op id) ;;
  mret cell.

(** The capacity handoffs [place_unowned] refuses. *)
Definition refuse_capacity_handoffs (id : string) (cell : Cell) : dec Cell :=
  s ← get;
  fold_each (filter (λ request, request ∈ st_capacity_requests s) (members (c_requests cell))) cell
    (λ cell request,
      remove_request_cell request ;;
      complete_request id request (Err CapacityExhausted) ;;
      mret (set_c_requests (c_requests cell ∖ {[request]}) cell)).

(** [State::place_unowned]. *)
Definition place_unowned (id : string) (cell : Cell) (claim : Claim) : dec Cell :=
  '(cell, refused) ← refuse_new_ownership_during_drain id cell (cl_prior claim);
  if (refused : bool) then mret cell
  else
    s ← get;
    if has_capacity s then activate_or_wait id cell (ActClaim claim) ShedToAdmit
    else if handoff_only s cell then begin_activation id cell (ActClaim claim)
    else
      cell ← refuse_capacity_handoffs id cell;
      if is_empty_set (c_requests cell) || negb (require_node_lease (st_config s))
      then activate_or_wait id cell (ActClaim claim) ShedToAdmit
      else begin_capacity_lookup id cell claim.

(** A claim over the record read, at the next writer epoch. *)
Definition claim_record (record : OwnerRecord) (epoch : N) (takeover : bool) (reconciles : N) : Claim :=
  mkClaim (Match (or_etag record)) epoch takeover (or_node record) reconciles.

Definition fail_resolution (id : string) (cell : Cell) (e : RequestError) : dec Cell :=
  cell ← set_phase cell PhInactive;
  finish_requests id cell (Err e).

(** The lease names the record's owner, was live when the read was issued, and
    carries an address. *)
Definition lease_routable (record : OwnerRecord) (issued_ms : N) (lease : NodeLeaseRecord) : bool :=
  (issued_ms <? nl_expires_ms lease) && negb (bool_decide (nl_addr lease = EmptyString))
  && bool_decide (or_node record = Some (nl_node lease)).

(** The folded log state may hide acknowledged writes: it is neither absent
    nor sealed. *)
Definition log_unrecovered (lease : option CachedNodeLease) : bool :=
  is_some_and (λ lease,
    match nl_log_state (cnl_record lease) with None | Some LogSealed => false | _ => true end) lease.

(** The takeover arm of [apply_node_lease_result]: the owner is dead. *)
Definition take_over (id : string) (cell : Cell) (record : OwnerRecord)
    (lease : option CachedNodeLease) : dec Cell :=
  '(cell, refused) ← refuse_new_ownership_during_drain id cell (or_node record);
  if (refused : bool) then mret cell
  else if log_unrecovered lease then
    next ← cell_op id;
    cell ← set_phase cell (PhRecoveringOwnerLog next record);
    emit (FxRecoverNodeLog next id (default EmptyString (or_node record))) ;;
    mret cell
  else
    '(cell, epoch) ← next_writer_epoch id cell (or_epoch record);
    match epoch with
    | None => mret cell
    | Some epoch =>
        activate_or_wait id cell (ActClaim (claim_record record epoch true 0)) ShedToAdmit
    end.

(** [State::apply_node_lease_result]. *)
Definition apply_node_lease_result (id : string) (cell : Cell) (record : OwnerRecord)
    (issued_ms : N) (res : result (option CachedNodeLease) Failure) : dec Cell :=
  s ← get;
  match res with
  | Ok (Some cached) =>
      let lease := cnl_record cached in
      if lease_routable record issued_ms lease then
        if nl_peer_protocol lease =? cfg_peer_protocol (st_config s) then
          cell ← set_phase cell (PhRemote (nl_node lease) (nl_addr lease) (or_epoch record)
            (nl_peer_protocol lease) (OwnerLease (cnl_deadline cached)));
          finish_requests id cell (Ok (RouteRemote (nl_node lease) (nl_addr lease)
            (or_epoch record) (nl_peer_protocol lease)))
        else fail_resolution id cell PeerIncompatible
      else take_over id cell record (Some cached)
  | Ok None => take_over id cell record None
  | Err _ => fail_resolution id cell ResolveFailed
  end.

(** The reconciled acquisition of [owner_read]: the ambiguous CAS applied. *)
Definition confirm_acquisition (id : string) (cell : Cell) (claim : Claim) (epoch : N) : dec Cell :=
  let spec := mkRestoreSpec epoch (bool_decide (cl_guard claim = Absent)) (cl_takeover claim)
    false (cl_prior claim) in
  record_acquisition spec ;;
  s ← get;
  if handoff_only s cell then set_phase cell (PhDormant (rs_epoch spec))
  else activate_or_wait id cell (ActRestore spec) ShedToAdmit.

(** The foreign-owner arm of [owner_read]: reuse a cached lease or read it. *)
Definition resolve_foreign_owner (id : string) (cell : Cell) (record : OwnerRecord)
    (owner : string) (now_ms : N) : dec Cell :=
  s ← get;
  match (lease ← st_node_lease_cache s !! owner;
         if deadline_live (cnl_deadline lease) (st_now_ms s) (st_now_mono_ms s)
         then Some lease else None) with
  | Some lease => apply_node_lease_result id cell record now_ms (Ok (Some lease))
  | None =>
      modify (λ s, set_st_node_lease_cache (delete owner (st_node_lease_cache s)) s) ;;
      next ← cell_op id;
      s ← get;
      cell ← set_phase cell (PhReadingNodeLease next record now_ms (st_now_mono_ms s));
      emit (FxReadNodeLease next id owner) ;;
      mret cell
  end.

(** The claim an ambiguous acquire is reconciling, if the read serves one. *)
Definition reconciling_claim (p : Phase) : option Claim :=
  match p with PhReconcilingAcquire _ claim _ => Some claim | _ => None end.

(** The epoch of the record this node's ambiguous claim wrote, if it did. *)
Definition reconciled (s : State) (claim : option Claim) (record : OwnerRecord) : option Claim :=
  claim ← claim;
  if bool_decide (or_node record = Some (st_node s)) && (or_epoch record =? cl_epoch claim)
  then Some claim else None.

(** The [match result] of [State::owner_read]; the boolean is [true] when the
    arm returned early, on an exhausted writer epoch. *)
Definition resolve_owner (id : string) (cell : Cell) (now_ms : N)
    (res : result (option OwnerRecord) Failure) : dec (Cell * bool) :=
  s ← get;
  let claim := reconciling_claim (c_phase cell) in
  let reconciles := match claim with Some claim => cl_reconciles claim | None => 0 end in
  let continue (r : dec Cell) : dec (Cell * bool) := cell ← r; mret (cell, false) in
  match res with
  | Err _ => continue (fail_resolution id cell ResolveFailed)
  | Ok None => continue (place_unowned id cell (mkClaim Absent 1 false None reconciles))
  | Ok (Some record) =>
      match reconciled s claim record, or_node record with
      | Some claim, _ => continue (confirm_acquisition id cell claim (or_epoch record))
      | None, Some owner =>
          if bool_decide (owner = st_node s) then
            '(cell, epoch) ← next_writer_epoch id cell (or_epoch record);
            match epoch with
            | None => mret (cell, true)
            | Some epoch =>
                continue (activate_or_wait id cell
                  (ActClaim (claim_record record epoch false reconciles)) ShedToAdmit)
            end
          else continue (resolve_foreign_owner id cell record owner now_ms)
      | None, None =>
          '(cell, epoch) ← next_writer_epoch id cell (or_epoch record);
          match epoch with
          | None => mret (cell, true)
          | Some epoch => continue (place_unowned id cell (claim_record record epoch true reconciles))
          end
      end
  end.

(** The operation an owner read answers. *)
Definition reading_owner_op (op : N) (cell : Cell) : bool :=
  match c_phase cell with
  | PhReadingOwner current | PhReconcilingAcquire current _ _ => current =? op
  | _ => false
  end.

(** Where a confirmation nobody else demands settles. *)
Definition confirmed_phase (s : State) (res : result (option OwnerRecord) Failure) : Phase :=
  match res with
  | Ok (Some record) =>
      if bool_decide (or_node record = Some (st_node s)) then PhDormant (or_epoch record)
      else PhInactive
  | _ => PhInactive
  end.

(** [State::owner_read]. *)
Definition owner_read (op now_ms : N) (res : result (option OwnerRecord) Failure) : dec unit :=
  id ← take_cell_op op (reading_owner_op op);
  with_some id (λ id,
    cell ← cell_remove id;
    cell ← expect cell;
    let confirming := c_confirming cell in
    let cell := set_c_confirming false cell in
    when confirming (settle_confirmation id) ;;
    s ← get;
    if confirming && is_empty_set (c_requests cell) && negb (c_alarm_wake cell) then
      cell ← set_phase cell (confirmed_phase s res);
      cell_insert id cell
    else
      let reconciling := is_some (reconciling_claim (c_phase cell)) in
      '(cell, early) ← resolve_owner id cell now_ms res;
      cell_insert id cell ;;
      when (reconciling && negb early) pump_capacity).

(** The read's answer with the local bounds on its reuse. *)
Definition observe_lease (s : State) (issued_mono_ms now_ms : N) (record : NodeLeaseRecord) :
    CachedNodeLease :=
  mkCachedNodeLease record
    (deadline_observed (nl_expires_ms record) issued_mono_ms (N.max now_ms (st_now_ms s))).

(** [State::node_lease_read]. *)
Definition node_lease_read (op now_ms : N) (res : result (option NodeLeaseRecord) Failure) : dec unit :=
  id ← take_cell_op op (λ cell,
    match c_phase cell with PhReadingNodeLease current _ _ _ => current =? op | _ => false end);
  with_some id (λ id,
    cell ← cell_remove id;
    cell ← expect cell;
    match c_phase cell with
    | PhReadingNodeLease _ record issued_ms issued_mono_ms =>
        s ← get;
        let res := result_map (fmap (observe_lease s issued_mono_ms now_ms)) res in
        match res with
        | Ok (Some lease) =>
            when (bool_decide (or_node record = Some (nl_node (cnl_record lease)))
                  && deadline_live (cnl_deadline lease) (st_now_ms s) (st_now_mono_ms s)
                  && negb (bool_decide (nl_addr (cnl_record lease) = EmptyString)))
              (modify (λ s, set_st_node_lease_cache
                (<[nl_node (cnl_record lease) := lease]> (st_node_lease_cache s)) s))
        | _ => mret tt
        end ;;
        cell ← apply_node_lease_result id cell record issued_ms res;
        cell_insert id cell
    | _ => panic
    end).

(** A newer sample supersedes the reservations and refusals of the prior one. *)
Definition observe_sample (peer : CapacityPeer) : dec unit :=
  s ← get;
  when (default 0 (st_capacity_samples s !! cp_node peer) <? cp_sampled_ms peer)
    (modify (λ s,
      set_st_capacity_rejections (delete (cp_node peer) (st_capacity_rejections s))
      (set_st_capacity_reservations (delete (cp_node peer) (st_capacity_reservations s))
      (set_st_capacity_samples (<[cp_node peer := cp_sampled_ms peer]> (st_capacity_samples s)) s)))).

(** A peer [capacity_peers_read] may place a cell on. *)
Definition peer_eligible (s : State) (now_ms : N) (peer : CapacityPeer) : bool :=
  negb (bool_decide (cp_node peer = st_node s)) && (now_ms <? cp_expires_ms peer)
  && negb (bool_decide (cp_addr peer = EmptyString))
  && (cp_peer_protocol peer =? cfg_peer_protocol (st_config s))
  && negb (cp_sampled_ms peer =? 0) && negb (cp_pressured peer)
  && is_none_or (λ sample, sample <? cp_sampled_ms peer) (st_capacity_rejections s !! cp_node peer).

(** Residency with this node's outstanding reservations added. *)
Definition projected_load (s : State) (peer : CapacityPeer) : N :=
  sat_add (cp_resident_cells peer) (default 0 (st_capacity_reservations s !! cp_node peer)).

Definition peer_compare (s : State) (a b : CapacityPeer) : comparison :=
  then_with (projected_load s a ?= projected_load s b)
    (then_with (cp_host_websockets a ?= cp_host_websockets b)
      (then_with (default (cp_rss_bytes a) (cp_in_use_bytes a)
                  ?= default (cp_rss_bytes b) (cp_in_use_bytes b))
        (String.compare (cp_node a) (cp_node b)))).

Definition select_peer (s : State) (now_ms : N) (peers : list CapacityPeer) : option CapacityPeer :=
  min_by (λ a b, is_lt (peer_compare s a b)) (filter (λ peer, peer_eligible s now_ms peer) peers).

(** [State::capacity_peers_read]. *)
Definition capacity_peers_read (op now_ms : N) (res : result (list CapacityPeer) Failure) : dec unit :=
  id ← take_cell_op op (λ cell,
    match c_phase cell with PhReadingCapacity current _ _ => current =? op | _ => false end);
  with_some id (λ id,
    cell ← cell_remove id;
    cell ← expect cell;
    match c_phase cell with
    | PhReadingCapacity _ claim issued_mono_ms =>
        match res with
        | Err _ =>
            cell ← activate_or_wait id cell (ActClaim claim) HoldResidents;
            cell_insert id cell
        | Ok peers =>
            for_each peers observe_sample ;;
            s ← get;
            cell ←
              match select_peer s now_ms peers with
              | Some peer =>
                  modify (λ s, set_st_capacity_reservations
                    (<[cp_node peer := default 0 (st_capacity_reservations s !! cp_node peer) + 1]>
                      (st_capacity_reservations s)) s) ;;
                  cell ← set_phase cell (PhRemote (cp_node peer) (cp_addr peer) 0
                    (cp_peer_protocol peer)
                    (CapacitySample (cp_sampled_ms peer)
                      (deadline_observed (cp_expires_ms peer) issued_mono_ms
                        (N.max now_ms (st_now_ms s)))));
                  finish_requests id cell (Ok (RouteRemote (cp_node peer) (cp_addr peer) 0
                    (cp_peer_protocol peer)))
              | None => activate_or_wait id cell (ActClaim claim) ShedToAdmit
              end;
            cell_insert id cell
        end
    | _ => panic
    end).

(** A failed dead-owner log recovery: back off, or fail at the cap. *)
Definition back_off_recovery (id : string) (cell : Cell) : dec Cell :=
  s ← get;
  let attempts := N.min (c_owner_log_recovery_attempts cell + 1) u32_max in
  if cfg_owner_log_recovery_attempts (st_config s) <=? attempts then
    fail_resolution id (set_c_owner_log_recovery_attempts 0 cell) ResolveFailed
  else
    generation ← timer_generation;
    cell ← set_phase (set_c_owner_log_recovery_attempts attempts cell)
             (PhWaitingOwnerLogRecovery generation);
    emit (FxScheduleTimer (TOwnerLogRecoveryRetry id generation)
      (sat_add (st_now_mono_ms s) (owner_log_recovery_backoff_ms (st_config s)))) ;;
    mret cell.

(** [State::node_log_recovered]. *)
Definition node_log_recovered (op : N) (res : result unit Failure) : dec unit :=
  id ← take_cell_op op (λ cell,
    match c_phase cell with PhRecoveringOwnerLog current _ => current =? op | _ => false end);
  with_some id (λ id,
    cell ← cell_remove id;
    cell ← expect cell;
    match c_phase cell with
    | PhRecoveringOwnerLog _ owner =>
        match res with
        | Ok _ =>
            '(cell, epoch) ← next_writer_epoch id cell (or_epoch owner);
            match epoch with
            | None => cell_insert id cell
            | Some epoch =>
                cell ← activate_or_wait id cell (ActClaim (claim_record owner epoch true 0))
                         ShedToAdmit;
                cell_insert id (set_c_owner_log_recovery_attempts 0 cell) ;;
                pump_activations
            end
        | Err _ =>
            cell ← back_off_recovery id cell;
            cell_insert id cell ;;
            pump_activations
        end
    | _ => panic
    end).

(** [State::retry_owner_log_recovery]. *)
Definition retry_owner_log_recovery (id : string) (generation : N) : dec unit :=
  cell ← cell_remove id;
  with_some cell (λ cell,
    match c_phase cell with
    | PhWaitingOwnerLogRecovery current =>
        if negb (current =? generation) then cell_insert id cell
        else
          cell ← (if is_empty_set (c_requests cell) && negb (c_alarm_wake cell)
                     && negb (c_resume_demand cell)
                  then set_phase (set_c_owner_log_recovery_attempts 0 cell) PhInactive
                  else admit_or_queue_activation id cell ColdReadOwner);
          cell_insert id cell
    | _ => cell_insert id cell
    end).
