(* ===== verification/Shedding.v ===== *)
(** * Eviction on demand, idle eviction and the memory walk down

    Models the eviction policy of [crates/logic/lib.rs]: the explicit eviction
    request with its admission result, the proof that ends in a runtime stop,
    idle eviction, and the walk down of a node over its memory ceiling. *)

From S2P Require Import Prelude Effects Pressure LogTier Wake Types CoreState CoreOps.
From S2P Require Import Activation.

(** [State::durability_checked]. *)
Definition durability_checked (op : N) (res : result unit EvictFailure) : dec unit :=
  s ← get;
  let now := st_now_mono_ms s in
  id ← take_cell_op op (λ cell,
    match c_phase cell with PhEnsuringDurability current _ => current =? op | _ => false end);
  with_some id (λ id,
    cell ← cell_get id;
    cell ← expect cell;
    match c_phase cell with
    | PhEnsuringDurability _ epoch =>
        match res with
        | Ok _ =>
            stop ← CoreOps.op;
            s ← get;
            with_some (st_eviction_notifications s !! op) (λ requests,
              modify (λ s, set_st_eviction_notifications
                (<[stop := requests]> (delete op (st_eviction_notifications s))) s)) ;;
            modify (λ s, set_st_cell_ops (<[stop := id]> (st_cell_ops s)) s) ;;
            let rebalance := c_evict_rebalance cell in
            set_phase_in id cell (PhCleaning stop epoch (StopEvict rebalance)) ;;
            emit (FxStopRuntime stop id epoch (StopEvict rebalance) (negb (st_draining s)))
        | Err reason =>
            cell ← set_phase cell (PhResident epoch);
            cell_insert id (set_c_eviction_refused_mono_ms (Some now) cell) ;;
            return_eviction_permit id ;;
            finish_eviction op (Err (Failed reason))
        end
    | _ => panic
    end).

(** [State::evict]. *)
Definition evict (id : string) : dec unit := begin_eviction id false ;; mret tt.

(** Pending lifecycle work that forbids an eviction ([transitioning]). *)
Definition transitioning (cell : Cell) : bool :=
  is_some (c_releasing cell) || is_some (c_waiting_for cell) || is_some (c_waiting_activation cell)
  || negb (is_empty_set (c_requests cell)) || c_quiescing cell || c_swapping cell
  || c_handoff cell || c_confirming cell || c_resume_demand cell.

(** [State::admit_eviction]. *)
Definition admit_eviction (id : string) : dec (result (option N) EvictError) :=
  s ← get;
  let refuse reason := mret (Err (Refused reason)) in
  if negb (ready_to_serve s) || st_confirming s then refuse RefusedNodeUnavailable
  else if is_active s id then refuse CellActive
  else
    match st_cells s !! id with
    | None => mret (Ok None)
    | Some cell =>
        match c_phase cell with
        | PhEnsuringDurability op _ | PhCleaning op _ (StopEvict _) => mret (Ok (Some op))
        | p =>
            if transitioning cell then refuse CellTransitioning
            else
              match p with
              | PhInactive | PhDormant _ | PhRemote _ _ _ _ _ => mret (Ok None)
              | PhResident _ =>
                  res ← begin_eviction id false;
                  mret (result_map_err Refused (result_map Some res))
              | _ => refuse CellTransitioning
              end
        end
    end.

(** The answer to the requester, who waits on the operation it joined. *)
Definition report_admission (request : N) (res : result (option N) EvictError) : dec unit :=
  res ←
    match res with
    | Ok (Some op) =>
        modify (λ s, set_st_eviction_notifications
          (<[op := {[request]} ∪ default ∅ (st_eviction_notifications s !! op)]>
            (st_eviction_notifications s)) s) ;;
        mret (Ok AdmissionPending)
    | Ok None => mret (Ok AdmissionAbsent)
    | Err e => mret (Err e)
    end;
  emit (FxEvictionAdmission request res).

(** [State::evict_requested]: the admission is reported before its effects. *)
Definition evict_requested (request : N) (id : string) : dec unit :=
  '(res, admitted_effects) ← captured (admit_eviction id);
  report_admission request res ;;
  for_each admitted_effects emit.

(** The cells [evict_idle] considers cold. *)
Definition idle_long_enough (now_mono_ms idle_ms : N) (cell : Cell) : bool :=
  (idle_ms <=? sat_sub now_mono_ms (c_last_used_mono_ms cell))
  && is_none_or (λ refused, idle_ms <=? sat_sub now_mono_ms refused) (c_eviction_refused_mono_ms cell).

(** One turn of the [while] of [evict_idle]; [false] is the exit. *)
Definition evict_idle_turn (now_mono_ms idle_ms : N) : dec bool :=
  s ← get;
  if negb (N.of_nat (size (st_eviction_permits s)) <? max_evictions (st_config s)) then mret false
  else
    match shed_candidate_where s (idle_long_enough now_mono_ms idle_ms) with
    | None => mret false
    | Some candidate => res ← begin_eviction candidate false; mret (is_ok res)
    end.

(** [State::evict_idle]; every turn but the last takes a resident cell. *)
Definition evict_idle (now_mono_ms : N) : dec unit :=
  s ← get;
  match idle_evict_ms (st_config s) with
  | None => mret tt
  | Some idle_ms =>
      if st_shedding s then mret tt
      else repeat_while (S (size (st_cells s))) (evict_idle_turn now_mono_ms idle_ms)
  end.

(** One turn of the [while] of [shed_toward_floor]. *)
Definition shed_toward_floor_turn : dec bool :=
  s ← get;
  let permits := N.of_nat (size (st_eviction_permits s)) in
  if negb ((permits <? max_evictions (st_config s))
           && (st_shed_floor s <? sat_sub (st_occupied s) permits))
  then mret false
  else
    match shed_candidate s with
    | None => mret false
    | Some victim => res ← begin_eviction victim (rebalances s); mret (is_ok res)
    end.

(** [State::shed_toward_floor]. *)
Definition shed_toward_floor : dec unit :=
  s ← get;
  if negb (st_shedding s) || (st_occupied s <=? st_shed_floor s) then mret tt
  else repeat_while (S (size (st_cells s))) shed_toward_floor_turn.

(** Whether every cell of each isolate can be evicted ([evictable]). *)
Definition evictable_isolates (s : State) : gmap N bool :=
  foldl (λ (acc : gmap N bool) (item : string * Cell),
    let '(id, cell) := item in
    match c_isolate cell with
    | None => acc
    | Some isolate =>
        <[isolate := default true (acc !! isolate) && (is_hibernatable s id && alarm_releasable cell)]>
          acc
    end) ∅ (items (st_cells s)).

(** [State::can_empty_an_isolate]. *)
Definition can_empty_an_isolate (s : State) : bool :=
  (1 <? N.of_nat (size (evictable_isolates s))) && existsb id (values (evictable_isolates s)).

(** [State::shedding_can_reach_resume_line]; the product fits in 128 bits. *)
Definition shedding_can_reach_resume_line (s : State) (cut : ShedCut) (sample_bytes : N) : bool :=
  match resume_line (cfg_pressure (st_config s)) (sc_metric cut) with
  | None => false
  | Some resume_line =>
      if can_empty_an_isolate s then true
      else
        let removed := sat_sub (sc_cells cut) (st_occupied s) in
        if removed =? 0 then true
        else
          let returned := sat_sub (sc_bytes cut) sample_bytes in
          let projected := returned * st_occupied s / removed in
          sample_bytes - projected <=? resume_line
  end.

(** The stopping test of [load_sampled]: the last cut landed, the sample did
    not rise, and another cut cannot reach the resume line. *)
Definition cut_is_futile (s : State) (cut : ShedCut) (sample_bytes : N) : bool :=
  (st_occupied s <=? st_shed_floor s) && is_empty_set (st_eviction_permits s)
  && negb (sat_add (sc_bytes cut) (sc_bytes cut / 100) <? sample_bytes)
  && negb (shedding_can_reach_resume_line s cut sample_bytes).

(** [State::load_sampled]. *)
Definition load_sampled (load : Load) (now_mono_ms : N) : dec unit :=
  s ← get;
  let pressure := cfg_pressure (st_config s) in
  modify (set_st_memory_headroom (has_headroom pressure load)) ;;
  let '(latches, reason) := classify pressure load (st_latches s) in
  modify (set_st_latches latches) ;;
  modify (set_st_shed_reason reason) ;;
  modify (set_st_shedding (is_some reason)) ;;
  if negb (is_some reason) then
    modify (set_st_shed_cut None) ;;
    pump_capacity ;;
    evict_idle now_mono_ms
  else
    let metric := walk_metric latches in
    let sample_bytes := metric_bytes load metric in
    when (is_some_and (λ cut, negb (bool_decide (sc_metric cut = metric))) (st_shed_cut s))
      (modify (set_st_shed_cut None)) ;;
    s ← get;
    if is_some_and (λ cut, cut_is_futile s cut sample_bytes) (st_shed_cut s) then mret tt
    else
      modify (set_st_shed_floor (release_target (resident_cells load))) ;;
      modify (set_st_shed_cut (Some (mkShedCut metric sample_bytes (resident_cells load)))) ;;
      shed_toward_floor.
