(* ===== verification/Lifecycle.v ===== *)
(** * From a claim to a published runtime and back

    Models the completion handlers of [crates/logic/lib.rs] along a cell's
    activation: the ownership CAS, the restore, the runtime start and its
    deadline, publication, and the runtime stop with its causes. *)

From S2P Require Import Prelude Effects Pressure LogTier Wake Types CoreState CoreOps.
From S2P Require Import Activation Alarms OutputGate NodeLease Resolution Shedding.

(** The restore an applied claim authorizes. *)
Definition claim_spec (claim : Claim) : RestoreSpec :=
  mkRestoreSpec (cl_epoch claim) (bool_decide (cl_guard claim = Absent)) (cl_takeover claim) false
    (cl_prior claim).

Definition reread_owner (id : string) (cell : Cell) (p : N → Phase) : dec Cell :=
  next ← cell_op id;
  cell ← set_phase cell (p next);
  emit (FxReadOwner next id) ;;
  mret cell.

(** The [Applied] arm of [owner_cas_completed]. *)
Definition acquire_applied (id : string) (cell : Cell) (claim : Claim) (dormant : bool) : dec Cell :=
  let spec := claim_spec claim in
  record_acquisition spec ;;
  s ← get;
  if handoff_only s cell then set_phase cell (PhDormant (rs_epoch spec))
  else if dormant then activate_or_wait id cell (ActRestore spec) ShedToAdmit
  else
    next ← cell_op id;
    cell ← set_phase cell (PhRestoring next spec);
    emit (FxRestore next id spec) ;;
    mret cell.

(** [State::owner_cas_completed]. *)
Definition owner_cas_completed (op : N) (res : result CasOutcome Failure) : dec unit :=
  id ← take_cell_op op (λ cell,
    match c_phase cell with PhAcquiring current _ _ => current =? op | _ => false end);
  with_some id (λ id,
    cell ← cell_remove id;
    cell ← expect cell;
    match c_phase cell with
    | PhAcquiring _ claim dormant =>
        cell ←
          match res with
          | Ok Applied => acquire_applied id cell claim dormant
          | Ok Rejected => reread_owner id cell PhReadingOwner
          | Err Ambiguous =>
              if cl_reconciles claim <? MAX_ACQUIRE_RECONCILES then
                reread_owner id cell (λ next, PhReconcilingAcquire next
                  (mkClaim (cl_guard claim) (cl_epoch claim) (cl_takeover claim) (cl_prior claim)
                    (cl_reconciles claim + 1)) dormant)
              else fail_resolution id cell AcquireFailed
          | Err Definite => fail_resolution id cell AcquireFailed
          end;
        cell_insert id cell ;;
        pump_capacity
    | _ => panic
    end).

(** Arm the alarm the restored database already carried. *)
Definition seed_restored_alarm (id : string) (cell : Cell) (alarm : option RestoredAlarm) : dec Cell :=
  match alarm with
  | Some alarm =>
      if (0 <=? ra_at_ms alarm)%Z then
        generation ← timer_generation;
        s ← get;
        schedule_alarm_timer id generation (ra_at_ms alarm) (st_now_ms s) (st_now_mono_ms s) ;;
        mret (set_c_alarm (Some (AlArmed (ra_at_ms alarm) generation (ra_covered alarm))) cell)
      else mret cell
  | None => mret cell
  end.

Definition start_runtime (id : string) (cell : Cell) (epoch : N) : dec Cell :=
  next ← cell_op id;
  cell ← set_phase cell (PhStarting next epoch);
  emit (FxStartRuntime next id epoch) ;;
  mret cell.

(** A failed activation stage leaves the cell dormant; [true] when that also
    ends a local resume. *)
Definition fail_activation (id : string) (cell : Cell) (epoch : N) (e : RequestError) :
    dec (Cell * bool) :=
  cell ← set_phase cell (PhDormant epoch);
  cell ← finish_requests id cell (Err e);
  mret (cell, c_resume_demand cell).

(** [State::restore_completed]. *)
Definition restore_completed (op : N) (res : result RestoreOutcome Failure) : dec unit :=
  id ← take_cell_op op (λ cell,
    match c_phase cell with PhRestoring current _ => current =? op | _ => false end);
  with_some id (λ id,
    cell ← cell_remove id;
    cell ← expect cell;
    match c_phase cell with
    | PhRestoring _ spec =>
        let epoch := rs_epoch spec in
        '(cell, resume_failed) ←
          match res with
          | Ok outcome =>
              when (ro_restored outcome) (modify_activity incr_restored) ;;
              cell ← seed_restored_alarm id cell (ro_alarm outcome);
              cell ← start_runtime id cell epoch;
              mret (cell, false)
          | Err _ => fail_activation id cell epoch RestoreFailed
          end;
        cell_insert id cell ;;
        when resume_failed (settle_local_resume id) ;;
        pump_capacity
    | _ => panic
    end).

(** [State::runtime_started]. *)
Definition runtime_started (op : N) (isolate : option N) (generation : N) (res : result unit Failure) :
    dec unit :=
  id ← take_cell_op op (λ cell,
    match c_phase cell with PhStarting current _ => current =? op | _ => false end);
  match id with
  | None => compensate_retired_runtime op res
  | Some id =>
      modify (λ s, set_st_timed_out_runtime_starts (st_timed_out_runtime_starts s ∖ {[op]}) s) ;;
      cell ← cell_remove id;
      cell ← expect cell;
      match c_phase cell with
      | PhStarting _ epoch =>
          '(cell, resume_failed) ←
            match res with
            | Ok _ =>
                let cell := set_c_generation generation (set_c_isolate isolate cell) in
                next ← cell_op id;
                cell ← set_phase cell (PhPublishing next epoch);
                emit (FxPublish next id epoch) ;;
                mret (cell, false)
            | Err _ => fail_activation id cell epoch RuntimeFailed
            end;
          cell_insert id cell ;;
          when resume_failed (settle_local_resume id) ;;
          pump_capacity
      | _ => panic
      end
  end.

(** [State::runtime_start_timed_out]. *)
Definition runtime_start_timed_out (op : N) : dec unit :=
  s ← get;
  with_some (st_cell_ops s !! op) (λ id,
    cell ← cell_remove id;
    with_some cell (λ cell,
      if match c_phase cell with PhStarting current _ => current =? op | _ => false end then
        modify (λ s, set_st_timed_out_runtime_starts ({[op]} ∪ st_timed_out_runtime_starts s) s) ;;
        cell ← finish_requests id cell (Err RuntimeFailed);
        cell_insert id cell
      else cell_insert id cell)).

(** [State::published]. *)
Definition published (op : N) (res : result unit Failure) : dec unit :=
  id ← take_cell_op op (λ cell,
    match c_phase cell with PhPublishing current _ => current =? op | _ => false end);
  match id with
  | None => compensate_retired_runtime op res
  | Some id =>
      cell ← cell_remove id;
      cell ← expect cell;
      match c_phase cell with
      | PhPublishing _ epoch =>
          let completing_resume := c_resume_demand cell in
          cell ←
            match res with
            | Ok _ =>
                cell ← set_phase cell (PhResident epoch);
                finish_requests id (set_c_swap_cancelled false (set_c_swapping false cell))
                  (Ok RouteLocal)
            | Err _ =>
                next ← cell_op id;
                cell ← set_phase cell (PhCleaning next epoch StopCleanup);
                emit (FxStopRuntime next id epoch StopCleanup false) ;;
                mret cell
            end;
          cell_insert id cell ;;
          when completing_resume (settle_local_resume id)
      | _ => panic
      end
  end.

(** The [match cause] of [State::runtime_stopped]. *)
Definition settle_stop (id : string) (cell : Cell) (epoch : N) (cause : StopCause) : dec Cell :=
  s ← get;
  match cause with
  | StopCleanup =>
      cell ← set_phase cell (PhDormant epoch);
      finish_requests id cell (Err PublishFailed)
  | StopReset =>
      cell ← set_phase cell PhInactive;
      match c_alarm cell with
      | Some (AlFiring op _ _ _ _) => forget_cell_op op
      | _ => mret tt
      end ;;
      finish_requests id (set_c_websockets ∅ (set_c_alarm_wake false (set_c_alarm None cell)))
        (Err DurabilityUnproven)
  | StopEvict rebalance =>
      if is_empty_set (c_requests cell) || (st_draining s && rebalance) then
        cell ← set_phase cell (PhDormant epoch);
        return_eviction_permit id ;;
        if rebalance then
          op ← cell_op id;
          modify (λ s, set_st_releasing_cells ({[id]} ∪ st_releasing_cells s) s) ;;
          emit (FxReleaseOwner op id epoch) ;;
          mret (set_c_releasing (Some op) cell)
        else mret cell
      else
        return_eviction_permit id ;;
        admit_or_queue_activation id cell ColdReadOwner
  | StopSwap =>
      if st_draining s then
        cell ← set_phase cell (PhDormant epoch);
        finish_requests id cell (Err PublishFailed)
      else start_runtime id cell epoch
  | StopFence => panic
  end.

Definition cleaning_op (op : N) (cell : Cell) : bool :=
  match c_phase cell with PhCleaning current _ _ => current =? op | _ => false end.

(** [State::runtime_stopped]. *)
Definition runtime_stopped (op : N) : dec unit :=
  id ← take_cell_op op (cleaning_op op);
  with_some id (λ id,
    cell ← cell_remove id;
    cell ← expect cell;
    let cell := set_c_isolate None cell in
    match c_phase cell with
    | PhCleaning _ epoch cause =>
        match cause with
        | StopEvict _ => finish_eviction op (Ok Evicted)
        | _ => mret tt
        end ;;
        cell ← settle_stop id cell epoch cause;
        cell_insert id cell ;;
        pump_capacity ;;
        shed_toward_floor ;;
        s ← get;
        evict_idle (st_now_mono_ms s)
    | _ => panic
    end).

(** [State::runtime_stop_failed]: only an eviction stop is bounded. *)
Definition runtime_stop_failed (op : N) (error : EvictError) : dec unit :=
  id ← take_cell_op op (cleaning_op op);
  with_some id (λ id,
    cell ← cell_remove id;
    cell ← expect cell;
    match c_phase cell with
    | PhCleaning _ epoch (StopEvict _) =>
        finish_eviction op (Err error) ;;
        s ← get;
        let cell := set_c_eviction_refused_mono_ms (Some (st_now_mono_ms s))
          (set_c_handoff false (set_c_evict_rebalance false (set_c_isolate None cell))) in
        return_eviction_permit id ;;
        cell ← start_runtime id (set_c_swapping true cell) epoch;
        cell_insert id cell
    | _ => panic
    end).
