(* ===== verification/Handoff.v ===== *)
(** * Shutdown handoff, rebalancing and the generation swap

    Models the paced movements of [crates/logic/lib.rs]: the release of an
    owner record and its adoption by a successor, the drain pump, a balancing
    move, and the swap of resident cells to a new application generation. *)

From S2P Require Import Prelude Effects Pressure LogTier Wake Types CoreState CoreOps.
From S2P Require Import Activation Alarms OutputGate NodeLease Resolution Shedding Lifecycle.

Definition releasing_insert (id : string) : dec unit :=
  modify (λ s, set_st_releasing_cells ({[id]} ∪ st_releasing_cells s) s).

(** [queue::RESERVED_CLASS] and [is_queue_broker]. *)
Definition QUEUE_RESERVED_CLASS : string := "__Queue".

Definition is_queue_broker (id : string) : bool :=
  is_some_and (λ p : string * string, bool_decide (p.1 = QUEUE_RESERVED_CLASS)) (split_once char_colon id).

(** [State::owner_released]. *)
Definition owner_released (op : N) (res : result CasOutcome Failure) : dec unit :=
  id ← take_cell_op op (λ cell, bool_decide (c_releasing cell = Some op));
  with_some id (λ id,
    cell ← cell_remove id;
    cell ← expect cell;
    s ← get;
    let released_epoch := match c_phase cell with PhDormant epoch => Some epoch | _ => None end in
    let hands_off := hands_off s cell in
    let settled :=
      match res with Ok Applied => true | Ok Rejected => hands_off | Err _ => false end in
    adoption ← (if settled && hands_off && is_some released_epoch
                then op ← cell_op id; mret (Some op) else mret None);
    modify (λ s, set_st_releasing_cells (st_releasing_cells s ∖ {[id]}) s) ;;
    when (is_some adoption)
      (modify (λ s, set_st_adopting_cells ({[id]} ∪ st_adopting_cells s) s)) ;;
    let cell := set_c_releasing None cell in
    cell ←
      match released_epoch, adoption with
      | Some released_epoch, Some adopt =>
          cell ← set_phase cell (PhAdopting adopt released_epoch);
          emit (FxAdoptReleased adopt id released_epoch (c_handoff cell)) ;;
          mret cell
      | _, _ =>
          cell ← (if settled && is_dormant (c_phase cell) then set_phase cell PhInactive
                  else mret cell);
          let handoff := c_handoff cell in
          let cell := set_c_handoff false cell in
          if handoff && negb (is_empty_set (c_requests cell))
          then admit_or_queue_activation id cell ColdReadOwner else mret cell
      end;
    cell_insert id cell).

(** The successor's acknowledgement names another routable node at a later
    epoch, speaking this node's protocol. *)
Definition adoption_accepted (s : State) (released_epoch : N) (adopted : AdoptedCell) : bool :=
  negb (bool_decide (ac_node adopted = st_node s))
  && negb (bool_decide (ac_addr adopted = EmptyString))
  && (released_epoch <? ac_epoch adopted)
  && (ac_peer_protocol adopted =? cfg_peer_protocol (st_config s)).

(** [State::successor_adopted]. *)
Definition successor_adopted (op : N) (res : result AdoptedCell Failure) : dec unit :=
  id ← take_cell_op op (λ cell,
    match c_phase cell with PhAdopting current _ => current =? op | _ => false end);
  with_some id (λ id,
    modify (λ s, set_st_adopting_cells (st_adopting_cells s ∖ {[id]}) s) ;;
    cell ← cell_remove id;
    cell ← expect cell;
    match c_phase cell with
    | PhAdopting _ released_epoch =>
        s ← get;
        let handoff := c_handoff cell in
        let cell := set_c_handoff false cell in
        cell ←
          match match res with
                | Ok adopted => if adoption_accepted s released_epoch adopted then Some adopted else None
                | Err _ => None
                end with
          | Some adopted =>
              modify_activity incr_handed_off ;;
              when handoff (modify_activity incr_rebalanced) ;;
              cell ← set_phase cell (PhRemote (ac_node adopted) (ac_addr adopted) (ac_epoch adopted)
                (ac_peer_protocol adopted) Uncached);
              finish_requests id cell (Ok (RouteRemote (ac_node adopted) (ac_addr adopted)
                (ac_epoch adopted) (ac_peer_protocol adopted)))
          | None =>
              modify_activity incr_handoff_failed ;;
              if handoff then
                modify_activity incr_rebalance_failed ;;
                cell ← set_phase cell PhInactive;
                if is_empty_set (c_requests cell) then mret cell
                else admit_or_queue_activation id cell ColdReadOwner
              else
                cell ← set_phase cell PhInactive;
                finish_requests id cell (Err NodeUnavailable)
          end;
        cell_insert id cell
    | _ => panic
    end).

(** [State::release_dormant]. *)
Definition release_dormant (id : string) (epoch : N) : dec unit :=
  op ← cell_op id;
  s ← get;
  cell ← expect (st_cells s !! id);
  cell_insert id (set_c_handoff (negb (st_draining s)) (set_c_releasing (Some op) cell)) ;;
  releasing_insert id ;;
  when (negb (bool_decide (c_websockets cell = ∅)))
    (emit (FxCancelCellActivity id [] (keys (c_websockets cell)) None false)) ;;
  emit (FxReleaseOwner op id epoch).

(** The dormant cells [rebalance] may give away, least recently used first. *)
Definition rebalance_candidates (s : State) : list (string * N * N) :=
  sort_by (λ a b : string * N * N, then_with (a.2 ?= b.2) (String.compare a.1.1 b.1.1))
    (omap (λ item : string * Cell,
       let '(id, cell) := item in
       match c_phase cell with
       | PhDormant epoch =>
           if negb (is_some (c_releasing cell)) && is_empty_set (c_requests cell)
              && negb (alarm_is_imminent s cell)
           then Some (id, epoch, c_last_used_mono_ms cell) else None
       | _ => None
       end) (items (st_cells s))).

(** [State::rebalance]. *)
Definition rebalance (count : N) : dec unit :=
  s ← get;
  if st_draining s || st_fenced s || st_shedding s || negb (node_authoritative s) then mret tt
  else
    let budget := N.min count (sat_sub (max_releases (st_config s)) (handoffs_in_flight s)) in
    for_each (take (N.to_nat budget) (rebalance_candidates s))
      (λ c : string * N * N, release_dormant c.1.1 c.1.2).

Definition firing_alarm_op (cell : Cell) : option N :=
  match c_alarm cell with Some (AlFiring op _ _ _ _) => Some op | _ => None end.

(** The drain order of residents: queue brokers, use count, newest request,
    newest use, and the id. *)
Definition drain_compare (a b : string * Cell) : comparison :=
  then_with (compare_bool (is_queue_broker b.1) (is_queue_broker a.1))
    (then_with (c_local_request_count b.2 ?= c_local_request_count a.2)
      (then_with (c_last_used_request b.2 ?= c_last_used_request a.2)
        (then_with (c_last_used_mono_ms b.2 ?= c_last_used_mono_ms a.2)
          (String.compare a.1 b.1)))).

(** A loop that ends the pump when its batch is full: each turn spends one
    handoff; the answer is the new count and whether the pump returned. *)
Fixpoint spend_each {A} (l : list A) (limit in_flight : N) (f : A → dec unit) : dec (N * bool) :=
  match l with
  | [] => mret (in_flight, false)
  | x :: l =>
      if limit <=? in_flight then mret (in_flight, true)
      else f x ;; spend_each l limit (in_flight + 1) f
  end.

(** The dormant cells whose record the drain may release. *)
Definition dormant_cells (s : State) (keep : string → bool) : list (string * N) :=
  omap (λ item : string * Cell,
    let '(id, cell) := item in
    match c_phase cell with
    | PhDormant epoch =>
        if negb (is_some (c_releasing cell)) && keep id then Some (id, epoch) else None
    | _ => None
    end) (items (st_cells s)).

(** A dormant queue broker moves before resident work. *)
Definition release_queue (c : string * N) : dec unit :=
  let '(id, epoch) := c in
  op ← cell_op id;
  cell ← cell_get id;
  cell ← expect cell;
  cell_insert id (set_c_releasing (Some op) cell) ;;
  releasing_insert id ;;
  emit (FxReleaseOwner op id epoch).

(** One resident enters the drain batch. *)
Definition nominate_resident (id : string) : dec unit :=
  s ← get;
  cell ← expect (st_cells s !! id);
  cell_insert id (set_c_quiescing true cell) ;;
  modify (λ s, set_st_quiescing_cells ({[id]} ∪ st_quiescing_cells s) s) ;;
  cancel_cell_outputs id ;;
  emit (FxCancelCellActivity id (requests_on s id) (keys (c_websockets cell))
    (firing_alarm_op cell) false) ;;
  begin_eviction id true ;;
  mret tt.

(** [State::pump_release]. *)
Definition pump_release : dec unit :=
  s ← get;
  if negb (st_draining s) then mret tt
  else
    let in_flight := handoffs_in_flight s in
    let limit := max_releases (st_config s) in
    for_each (members (st_quiescing_cells s)) (λ id, begin_eviction id true ;; mret tt) ;;
    if limit <=? in_flight then mret tt
    else
      s ← get;
      '(in_flight, full) ← spend_each (dormant_cells s is_queue_broker) limit in_flight release_queue;
      if (full : bool) then mret tt
      else
        s ← get;
        let residents := sort_by drain_compare
          (filter (λ item : string * Cell, negb (c_quiescing item.2) && is_resident (c_phase item.2))
            (items (st_cells s))) in
        '(in_flight, full) ← spend_each (residents.*1) limit in_flight nominate_resident;
        if (full : bool) then mret tt
        else
          s ← get;
          spend_each (dormant_cells s (λ _, true)) limit in_flight
            (λ c : string * N, release_dormant c.1 c.2) ;;
          mret tt.

(** [State::release_all]. *)
Definition release_all : dec unit :=
  modify (set_st_draining true) ;;
  pump_release.

(** [State::generation_changed]. *)
Definition generation_changed (generation max_age_ms : N) (eager_classes : list string) : dec unit :=
  s ← get;
  if generation <=? st_current_generation s then mret tt
  else
    modify (λ s, set_st_swap_eager_classes (list_to_set eager_classes)
      (set_st_swap_max_age_ms max_age_ms
      (set_st_generation_changed_mono_ms (st_now_mono_ms s)
      (set_st_current_generation generation s)))).

(** [State::swap_is_eager]. *)
Definition swap_is_eager (s : State) (id : string) : bool :=
  let class := match split_once char_colon id with Some (class, _) => class | None => id end in
  bool_decide (class ∈ st_swap_eager_classes s).

(** [State::swap_safe_point]. *)
Definition swap_safe_point (s : State) (id : string) : bool :=
  match st_cells s !! id with
  | None => false
  | Some cell =>
      negb (is_some (st_active_cells s !! id))
      && negb (existsb is_live_transport (values (c_websockets cell)))
      && negb (is_firing (c_alarm cell))
      && negb (existsb (λ b, bool_decide (b_cell b = id) && trailable b) (values (st_barriers s)))
  end.

(** A resident cell on an older generation that no move holds yet. *)
Definition swap_stale (s : State) (cell : Cell) : bool :=
  is_resident (c_phase cell) && negb (c_swapping cell) && negb (c_quiescing cell)
  && negb (is_some (c_releasing cell)) && negb (c_generation cell =? st_current_generation s).

Definition swap_nominated (cell : Cell) : bool :=
  c_swapping cell && c_quiescing cell && is_resident (c_phase cell).

Definition ids_where (s : State) (f : Cell → bool) : list string :=
  (filter (λ item : string * Cell, f item.2) (items (st_cells s))).*1.

(** One nominated cell of [pump_swap]: stop it at a safe point, or cancel its
    activity once when it is forced. *)
Definition swap_cell (forced_by_age : bool) (id : string) : dec unit :=
  s ← get;
  cell ← expect (st_cells s !! id);
  if negb (swap_safe_point s id) then
    if negb (forced_by_age || swap_is_eager s id) || c_swap_cancelled cell then mret tt
    else
      cell_insert id (set_c_swap_cancelled true cell) ;;
      emit (FxCancelCellActivity id (requests_on s id)
        (filter (λ w, bool_decide (c_websockets cell !! w ≠ Some Hibernatable)) (keys (c_websockets cell)))
        (firing_alarm_op cell) true)
  else
    op ← cell_op id;
    match c_phase cell with
    | PhResident epoch =>
        set_phase_in id cell (PhCleaning op epoch StopSwap) ;;
        modify (λ s, set_st_quiescing_cells (st_quiescing_cells s ∖ {[id]}) s) ;;
        emit (FxStopRuntime op id epoch StopSwap false)
    | _ => panic
    end.

(** [State::pump_swap]. *)
Definition pump_swap : dec unit :=
  s ← get;
  if (st_current_generation s =? 0) || st_draining s || st_fenced s || negb (node_authoritative s)
  then mret tt
  else
    let forced_by_age :=
      st_swap_max_age_ms s <=? sat_sub (st_now_mono_ms s) (st_generation_changed_mono_ms s) in
    let in_flight := N.of_nat (length (ids_where s c_swapping)) in
    let room := sat_sub (max_releases (st_config s)) in_flight in
    for_each (take (N.to_nat room) (ids_where s (swap_stale s))) (λ id,
      cell ← cell_get id;
      cell ← expect cell;
      cell_insert id (set_c_quiescing true (set_c_swapping true cell)) ;;
      modify (λ s, set_st_quiescing_cells ({[id]} ∪ st_quiescing_cells s) s)) ;;
    s ← get;
    for_each (ids_where s swap_nominated) (swap_cell forced_by_age).
