(* ===== verification/Machine.v ===== *)
(** * The state machine

    Models the rest of [crates/logic/lib.rs]: the socket handlers, the
    operation deadlines, the timers, [on_event] itself, which is the only way
    the state advances, and [State::validate], the consistency gate that both
    executors run after every event of a debug build. *)

From S2P Require Import Prelude Effects Pressure LogTier Wake Types CoreState CoreOps.
From S2P Require Import Activation Alarms OutputGate NodeLease Ingress Resolution Shedding.
From S2P Require Import Lifecycle Handoff.

(** ** Sockets and cached routes *)

Definition outbound_count (cell : Cell) : nat :=
  length (filter (λ k, k = Outbound) (values (c_websockets cell))).

(** [State::outbound_pinned]. *)
Definition outbound_pinned (s : State) : nat :=
  length (filter (λ cell, (0 < outbound_count cell)%nat) (values (st_cells s))).

(** [State::websocket_opened]. *)
Definition websocket_opened (id : string) (websocket : N) (kind : WebSocketKind) : dec unit :=
  s ← get;
  if st_fenced s then mret tt
  else
    let cell := st_cells s !! id in
    let outbound := bool_decide (kind = Outbound) in
    if outbound && is_some_and c_quiescing cell then emit (FxCloseWebSocket id websocket)
    else
      let cell_outbound := match cell with Some cell => outbound_count cell | None => O end in
      if outbound
         && ((max_outbound_websockets (st_config s) <=? N.of_nat cell_outbound)
             || ((cell_outbound =? 0)%nat
                 && negb (may_pin_outbound (N.of_nat (outbound_pinned s))
                            (Some (max_resident (st_config s))))))
      then emit (FxCloseWebSocket id websocket)
      else cell_update id (λ cell, set_c_websockets (<[websocket := kind]> (c_websockets cell)) cell).

(** [State::websocket_closed]. *)
Definition websocket_closed (id : string) (websocket : N) : dec unit :=
  cell_update id (λ cell, set_c_websockets (delete websocket (c_websockets cell)) cell) ;;
  shed_one.

(** The cell is remote at exactly this node and epoch. *)
Definition remote_at (p : Phase) (node : string) (epoch : N) : option RemoteCache :=
  match p with
  | PhRemote current _ current_epoch _ cache =>
      if bool_decide (current = node) && (current_epoch =? epoch) then Some cache else None
  | _ => None
  end.

(** [State::invalidate_remote]. *)
Definition invalidate_remote (id node : string) (epoch : N) : dec unit :=
  modify (λ s, set_st_node_lease_cache (delete node (st_node_lease_cache s)) s) ;;
  cell ← cell_get id;
  with_some cell (λ cell,
    match remote_at (c_phase cell) node epoch with
    | None => mret tt
    | Some cache =>
        match cache with
        | CapacitySample sampled_ms _ =>
            modify (λ s,
              set_st_capacity_reservations (delete node (st_capacity_reservations s))
              (set_st_capacity_rejections (<[node := sampled_ms]> (st_capacity_rejections s)) s))
        | _ => mret tt
        end ;;
        set_phase_in id cell PhInactive ;;
        mret tt
    end).

(** ** Deadlines and timers *)

(** The operation an effect starts, if a deadline watches it. *)
Definition watched_op (e : Effect) : option N :=
  match e with
  | FxReadOwner op _ | FxReadNodeLease op _ _ | FxRecoverNodeLog op _ _
  | FxReadCapacityPeers op _ | FxCasOwner op _ _ _ _ | FxStartRuntime op _ _ | FxPublish op _ _
  | FxEnsureDurable op _ _ _ | FxReleaseOwner op _ _ | FxAdoptReleased op _ _ _
  | FxAwaitDurable op _ _ _ | FxFireAlarm op _ _ _ => Some op
  | _ => None
  end.

(** [State::arm_operation_deadlines]. *)
Definition arm_operation_deadlines (effects : list Effect) : dec unit :=
  s ← get;
  match operation_deadline_ms (st_config s) with
  | None => mret tt
  | Some deadline_ms =>
      for_each (omap watched_op effects) (λ op,
        emit (FxScheduleTimer (TOperationDeadline op) (sat_add (st_now_mono_ms s) deadline_ms)))
  end.

(** [State::expire_operation]. *)
Definition expire_operation (op now_ms : N) : dec unit :=
  s ← get;
  if is_some (st_barriers s !! op) then durable_reached op (Err Ambiguous) Bucket
  else
    match st_cell_ops s !! op with
    | None => mret tt
    | Some id =>
        match st_cells s !! id with
        | None => mret tt
        | Some cell =>
            if bool_decide (c_releasing cell = Some op) then owner_released op (Err Definite)
            else if match c_phase cell with PhAdopting current _ => current =? op | _ => false end
            then successor_adopted op (Err Definite)
            else if firing_op op cell then
              alarm_finished op id (match c_phase cell with PhResident epoch => epoch | _ => 0 end)
                now_ms (st_now_mono_ms s) (Err Ambiguous)
            else if negb (bool_decide (phase_op (c_phase cell) = Some op)) then mret tt
            else
              match c_phase cell with
              | PhReadingOwner _ => owner_read op 0 (Err Definite)
              | PhReadingNodeLease _ _ _ _ => node_lease_read op now_ms (Err Definite)
              | PhRecoveringOwnerLog _ _ => node_log_recovered op (Err Ambiguous)
              | PhReadingCapacity _ _ _ => capacity_peers_read op now_ms (Err Definite)
              | PhAcquiring _ _ _ => owner_cas_completed op (Err Ambiguous)
              | PhReconcilingAcquire _ _ _ => owner_read op now_ms (Err Definite)
              | PhStarting _ _ => runtime_start_timed_out op
              | PhPublishing _ _ => published op (Err Ambiguous)
              | PhEnsuringDurability _ _ => durability_checked op (Err FailDurabilityTimeout)
              | _ => mret tt
              end
        end
    end.

(** The lease whose timers are armed, if any. *)
Definition active_lease (a : NodeAuthority) : option HeldNodeLease :=
  match a with
  | AuHeld held => Some held
  | AuReading _ pending | AuWriting _ pending => pl_prior pending
  | _ => None
  end.

(** Either published bound on the lease has been reached. *)
Definition lease_expired (held : HeldNodeLease) (now_ms now_mono_ms : N) : bool :=
  (nl_expires_ms (hl_record held) <=? now_ms)
  || (ls_ttl_ms (hl_spec held) <=? sat_sub now_mono_ms (hl_last_ok_mono_ms held)).

(** The renewal: the folded log state is carried through unchanged. *)
Definition renew_lease (held : HeldNodeLease) (now_ms now_mono_ms : N) : dec unit :=
  s ← get;
  let spec := hl_spec held in
  let prior := mkHeldNodeLease spec (hl_record held) (hl_last_ok_mono_ms held) now_mono_ms
    (hl_timer_generation held) in
  let desired := mkNodeLeaseRecord (st_node s) (ls_addr spec) (sat_add now_ms (ls_ttl_ms spec))
    (ls_peer_protocol spec) (ls_generation spec) (nl_log_state (hl_record held)) EmptyString in
  modify (set_st_node_authority AuFailed) ;;
  begin_node_lease_write (mkPendingNodeLease spec desired (Some prior) false now_mono_ms false)
    (Match (nl_etag (hl_record held))).

(** The lease timers of [State::timer_fired]. *)
Definition lease_timer (renew : bool) (generation now_ms now_mono_ms : N) : dec unit :=
  s ← get;
  match st_node_authority s with
  | AuRetrying spec current =>
      when (renew && (generation =? current)) (begin_node_lease_acquisition now_ms spec)
  | authority =>
      with_some (active_lease authority) (λ held,
        if negb (generation =? hl_timer_generation held) then mret tt
        else if lease_expired held now_ms now_mono_ms then fence_node NodeLeaseExpired
        else
          match authority with
          | AuHeld held => when renew (renew_lease held now_ms now_mono_ms)
          | _ => mret tt
          end)
  end.

(** [State::timer_fired]. *)
Definition timer_fired (timer : Timer) (now_ms now_mono_ms : N) : dec unit :=
  match timer with
  | TCellAlarm id generation => cell_alarm_timer id generation now_ms now_mono_ms
  | TOperationDeadline op => expire_operation op now_ms
  | TQueuedActivation id generation =>
      expire_queued id generation ;; pump_activations ;; pump_capacity
  | TOwnerLogRecoveryRetry id generation => retry_owner_log_recovery id generation
  | TNodeLeaseRenew generation => lease_timer true generation now_ms now_mono_ms
  | TNodeLeaseFence generation => lease_timer false generation now_ms now_mono_ms
  end.

(** [Event::NudgeNodeLease]. *)
Definition nudge_node_lease (now_ms now_mono_ms : N) : dec unit :=
  s ← get;
  match st_node_authority s with
  | AuHeld held => timer_fired (TNodeLeaseRenew (hl_timer_generation held)) now_ms now_mono_ms
  | AuWriting _ _ | AuReading _ _ => modify (set_st_nudge_pending true)
  | _ => mret tt
  end.

(** ** The transition *)

(** [event_now_ms] and [event_mono_ms]. *)
Definition event_now_ms (e : Event) : option N :=
  match e with
  | EvStartNodeLease now_ms _ _ | EvSelfNodeLeaseRead _ now_ms _ _ | EvOwnerRead _ now_ms _
  | EvNodeLeaseRead _ now_ms _ | EvTimerFired _ now_ms _ | EvAlarmObserved _ _ _ now_ms _
  | EvAlarmFinished _ _ _ now_ms _ _ => Some now_ms
  | _ => None
  end.

Definition event_mono_ms (e : Event) : option N :=
  match e with
  | EvStartNodeLease _ now _ | EvSelfNodeLeaseRead _ _ now _ | EvNodeLeaseCasCompleted _ now _ _
  | EvRequestAt _ _ now | EvEvictRequested _ _ now | EvCapacityRequestAt _ _ now
  | EvHandoffRequestAt _ _ _ now | EvWebSocketRequestAt _ _ _ _ now | EvGateRequestAt _ _ now
  | EvOutputAt _ _ _ _ _ now | EvWakeHintAt _ _ _ now | EvTimerFired _ _ now
  | EvAlarmObserved _ _ _ _ now | EvAlarmFinished _ _ _ _ now _ | EvLoadSampled _ now
  | EvGenerationChanged _ now _ _ => Some now
  | _ => None
  end.

(** The clocks an event moves forward. *)
Definition advance_clocks (e : Event) (s : State) : State :=
  let s := match event_mono_ms e with
           | Some now => set_st_now_mono_ms (N.max (st_now_mono_ms s) now) s
           | None => s
           end in
  match event_now_ms e with
  | Some now => set_st_now_ms (N.max (st_now_ms s) now) s
  | None => s
  end.

(** The [match event] of [on_event]. *)
Definition handle (e : Event) : dec unit :=
  match e with
  | EvStartNodeLease now_ms _ spec => start_node_lease now_ms spec
  | EvNodeLogRecovered op res => node_log_recovered op res
  | EvNudgeNodeLease now_ms now_mono_ms => nudge_node_lease now_ms now_mono_ms
  | EvSelfNodeLeaseRead op now_ms now_mono_ms res => read_self_node_lease op now_ms now_mono_ms res
  | EvNodeLeaseCasCompleted op now_mono_ms res stamped =>
      node_lease_cas_completed op now_mono_ms res stamped
  | EvLocalCellsRead res => local_cells_read res
  | EvTimerFired timer now_ms now_mono_ms => timer_fired timer now_ms now_mono_ms
  | EvRequest req id | EvRequestAt req id _ => request req id false false
  | EvCapacityRequestAt req id _ => request req id true false
  | EvHandoffRequestAt req id _ _ => request req id true true
  | EvWebSocketRequestAt req id websocket _ _ => websocket_request req id websocket
  | EvGateRequestAt req id _ => gate_request req id
  | EvWorkerRequest req => worker_request req
  | EvBeginPreserve => begin_preserve
  | EvCancel req => cancel req
  | EvActivityFinished req => activity_finished req
  | EvOutput req channel position observed epoch
  | EvOutputAt req channel position observed epoch _ => output req channel position observed epoch
  | EvDurableReached op res source => durable_reached op res source
  | EvOwnershipVerified op res => ownership_verified op res
  | EvExportTicket id epoch position ticket => export_ticket id epoch position ticket
  | EvWebSocketOpened id websocket kind => websocket_opened id websocket kind
  | EvWebSocketClosed id websocket => websocket_closed id websocket
  | EvAlarmObserved id alarm covered now_ms now_mono_ms =>
      alarm_observed id (mkAlarmObservation alarm covered false) now_ms now_mono_ms
  | EvAlarmFinished op id epoch now_ms now_mono_ms res =>
      alarm_finished op id epoch now_ms now_mono_ms res
  | EvWakeHint id entry_ms scope | EvWakeHintAt id entry_ms scope _ => wake_hint id entry_ms scope
  | EvOwnerRead op now_ms res => owner_read op now_ms res
  | EvNodeLeaseRead op now_ms res => node_lease_read op now_ms res
  | EvCapacityPeersRead op now_ms res => capacity_peers_read op now_ms res
  | EvOwnerCasCompleted op res => owner_cas_completed op res
  | EvOwnerReleased op res => owner_released op res
  | EvSuccessorAdopted op res => successor_adopted op res
  | EvRestoreCompleted op res => restore_completed op res
  | EvRuntimeStarted op isolate generation res => runtime_started op isolate generation res
  | EvGenerationChanged generation _ max_age_ms eager =>
      generation_changed generation max_age_ms eager
  | EvPublished op res => published op res
  | EvDurabilityChecked op res => durability_checked op (result_map_err (λ _, FailDurability) res)
  | EvRuntimeStopped op => runtime_stopped op
  | EvRuntimeStopFailed op => runtime_stop_failed op (Failed FailRuntimeStop)
  | EvRuntimeStopCancelled op => runtime_stop_failed op (Cancelled CancelActivity)
  | EvEvict id => evict id
  | EvEvictRequested req id _ => evict_requested req id
  | EvLoadSampled load now_mono_ms => load_sampled load now_mono_ms
  | EvInvalidateRemote id node epoch => invalidate_remote id node epoch
  | EvNodeFenced => fence_node NodeLeaseExpired
  | EvReleaseAll => release_all
  | EvRebalance cells => rebalance cells
  end.

(** The handler and the three pumps that run after every event. *)
Definition transition (e : Event) : dec unit :=
  modify (advance_clocks e) ;;
  handle e ;;
  pump_activations ;;
  pump_release ;;
  pump_swap.

(** [on_event]. *)
Definition on_event (e : Event) : dec unit :=
  '(_, effects) ← captured (transition e);
  for_each effects emit ;;
  arm_operation_deadlines effects.

(** A run of the machine: the events in order, each handled to the end. *)
Fixpoint run (events : list Event) : dec unit :=
  match events with
  | [] => mret tt
  | e :: events => on_event e ;; run events
  end.

(** The states a node reaches from [s0] under events its environment may
    deliver: [ok s e] says that [e] is a possible input in state [s]. *)
Inductive reachable (ok : State → Event → Prop) (s0 : State) : State → Prop :=
| reach_here : reachable ok s0 s0
| reach_event s e s' es :
    reachable ok s0 s → ok s e → on_event e s = Done tt s' es → reachable ok s0 s'.

Lemma reachable_invariant (ok : State → Event → Prop) (I : State → Prop) s0 :
  I s0 →
  (∀ s e s' es, I s → ok s e → on_event e s = Done tt s' es → I s') →
  ∀ s, reachable ok s0 s → I s.
Proof. intros H0 Hstep s Hr. induction Hr; eauto. Qed.

(** The same with the history of the node, newest step first: what it was told
    and what it answered. *)
Abbreviation history := (list (Event * list Effect)).

Inductive traced (ok : history → Event → Prop) (s0 : State) : history → State → Prop :=
| traced_here : traced ok s0 [] s0
| traced_event h s e s' es :
    traced ok s0 h s → ok h e → on_event e s = Done tt s' es → traced ok s0 ((e, es) :: h) s'.

(** An effect of the history. *)
Definition emitted (h : history) (fx : Effect) : Prop := ∃ e es, (e, es) ∈ h ∧ fx ∈ es.

Definition told (h : history) (e : Event) : Prop := ∃ es, (e, es) ∈ h.
