(* ===== verification/Samples.v ===== *)
(** * Concrete runs

    A small node and a few event scripts, from which the witnesses of the
    properties are computed. *)

From S2P Require Import Prelude Effects Pressure LogTier Wake Types CoreState CoreOps.
From S2P Require Import Machine.

(** Four residents, two permits of each kind, no node lease required. *)
Definition sample_config : Config :=
  mkConfig 4 2 2 2 4 OnEvictRelease false 1 (Some 1000) 100 3 0 None (mkPressureConfig None None).

Definition sample_new : State := new "a" sample_config.

(** A cold request for cell [x] up to the published runtime. *)
Definition activation_script : list Event :=
  [EvRequest 1 "x"; EvOwnerRead 1 5 (Ok None); EvOwnerCasCompleted 2 (Ok Applied);
   EvRestoreCompleted 3 (Ok (mkRestoreOutcome false None)); EvRuntimeStarted 4 None 1 (Ok tt);
   EvPublished 5 (Ok tt)].

(** The request writes, and its response waits behind barrier 6. *)
Definition write_script : list Event :=
  activation_script ++ [EvOutput 1 Response (Some 3) None None].

(** The state a script ends in, and the effects it has on the way. *)
Definition after (events : list Event) : State :=
  match run events sample_new with Done _ s _ => s | _ => sample_new end.

Definition script_effects (events : list Event) : list Effect :=
  match run events sample_new with Done _ _ es => es | _ => [] end.

Definition effects_of (e : Event) (s : State) : list Effect :=
  match on_event e s with Done _ _ es => es | _ => [] end.

Definition next_state (e : Event) (s : State) : State :=
  match on_event e s with Done _ s' _ => s' | _ => s end.

Lemma next_reachable (ok : State → Event → Prop) s0 s e :
  reachable ok s0 s → ok s e → is_done (on_event e s) = true → reachable ok s0 (next_state e s).
Proof.
  unfold next_state. destruct (on_event e s) as [[] s' es| |] eqn:E; try done.
  intros Hr Hok _. by eapply reach_event.
Qed.

Lemma run_reachable (ok : State → Event → Prop) s0 events s s' es :
  reachable ok s0 s → run events s = Done tt s' es → (∀ s, Forall (ok s) events) →
  reachable ok s0 s'.
Proof.
  revert s es. induction events as [|e events IH]; intros s es Hr H Hok; simpl in H.
  { by injection H as -> _. }
  unfold mbind, M_bind in H. destruct (on_event e s) as [[] s1 es1| |] eqn:E1; try done.
  destruct (run events s1) as [[] s2 es2| |] eqn:E2; try done. injection H as -> _.
  eapply IH; [|exact E2|intros t; by destruct (Forall_cons_1 _ _ _ (Hok t))].
  eapply reach_event; [done| |exact E1]. by destruct (Forall_cons_1 _ _ _ (Hok s)).
Qed.

(** The state after a script is reachable where each of its events is allowed. *)
Lemma after_reachable (ok : State → Event → Prop) events :
  is_done (run events sample_new) = true →
  (∀ s, Forall (ok s) events) → reachable ok sample_new (after events).
Proof.
  unfold after. destruct (run events sample_new) as [[] s es| |] eqn:E; try done.
  intros _. eapply run_reachable; [constructor|done].
Qed.

(** The same with its history. *)
Fixpoint log_run (events : list Event) (h : history) (s : State) : option (history * State) :=
  match events with
  | [] => Some (h, s)
  | e :: events =>
      match on_event e s with
      | Done _ s' es => log_run events ((e, es) :: h) s'
      | _ => None
      end
  end.

Definition history_of (events : list Event) : history :=
  match log_run events [] sample_new with Some (h, _) => h | None => [] end.

Lemma log_run_traced (ok : history → Event → Prop) s0 events h s h' s' :
  traced ok s0 h s → log_run events h s = Some (h', s') → (∀ h, Forall (ok h) events) →
  traced ok s0 h' s'.
Proof.
  revert h s. induction events as [|e events IH]; intros h s Ht H Hok; simpl in H; [by simplify_eq|].
  destruct (on_event e s) as [[] s1 es1| |] eqn:E; try done.
  eapply IH; [|exact H|intros g; by destruct (Forall_cons_1 _ _ _ (Hok g))].
  eapply traced_event; [done| |exact E]. by destruct (Forall_cons_1 _ _ _ (Hok h)).
Qed.

Lemma log_run_run events h s h' s' :
  log_run events h s = Some (h', s') → ∃ es, run events s = Done tt s' es.
Proof.
  revert h s. induction events as [|e events IH]; intros h s H; simpl in *.
  { simplify_eq. by eexists. }
  unfold mbind, M_bind. destruct (on_event e s) as [[] s1 es1| |]; try done.
  destruct (IH _ _ H) as [es2 ->]. by eexists.
Qed.

Lemma history_traced (ok : history → Event → Prop) events :
  is_some (log_run events [] sample_new) = true → (∀ h, Forall (ok h) events) →
  traced ok sample_new (history_of events) (after events).
Proof.
  unfold history_of, after. destruct (log_run events [] sample_new) as [[h s]|] eqn:E; [|done].
  intros _ Hok. destruct (log_run_run _ _ _ _ _ E) as [es ->].
  eapply log_run_traced; [constructor|done..].
Qed.
