(* ===== verification/Validate.v ===== *)
(** * The consistency gate

    Models [State::validate] of [crates/logic/lib.rs] as a boolean: [true] is
    the code's [Ok(())].  One definition per group of checks, in the order the
    code makes them. *)

From S2P Require Import Prelude Effects Pressure LogTier Wake Types CoreState CoreOps.
From S2P Require Import Activation.

(** The ids of the cells a predicate accepts. *)
Definition cells_where (s : State) (f : Cell → bool) : gset string :=
  dom (filter (λ item : string * Cell, f item.2) (st_cells s)).

Definition all_cells (s : State) (f : string → Cell → bool) : bool :=
  forallb (λ item : string * Cell, f item.1 item.2) (items (st_cells s)).

Fixpoint no_dup {A} `{EqDecision A} (l : list A) : bool :=
  match l with
  | [] => true
  | x :: l => negb (bool_decide (x ∈ l)) && no_dup l
  end.

(** An eviction caller waits on a live eviction operation. *)
Definition eviction_op_live (s : State) (op : N) : bool :=
  is_some_and (λ cell,
    match c_phase cell with
    | PhEnsuringDurability current _ | PhCleaning current _ (StopEvict _) => current =? op
    | _ => false
    end) (id ← st_cell_ops s !! op; st_cells s !! id).

(** The ceilings: residency, evictions, handoffs and activations. *)
Definition validate_ceilings (s : State) : bool :=
  occupied_below s (sat_add (max_resident (st_config s)) 1)
  && forallb (eviction_op_live s) (keys (st_eviction_notifications s))
  && (N.of_nat (size (st_eviction_permits s)) <=? eviction_ceiling s)
  && negb (st_draining s && (max_releases (st_config s) <? handoffs_in_flight s))
  && (N.of_nat (size (st_activation_permits s)) <=? max_activations (st_config s)).

(** The activation queue and its permits. *)
Definition validate_activations (s : State) : bool :=
  no_dup (st_activation_waiters s)
  && forallb (λ id, is_some_and (λ cell,
       is_waiting_activation (c_phase cell) && is_some (c_waiting_activation cell)) (st_cells s !! id)
       && negb (bool_decide (id ∈ st_activation_permits s))) (st_activation_waiters s)
  && forallb (λ id, is_some_and (λ cell, phase_holds_activation (c_phase cell)) (st_cells s !! id))
       (members (st_activation_permits s)).

(** A balancing move stays in its pipeline. *)
Definition validate_handoff (cell : Cell) : bool :=
  negb (c_handoff cell)
  || match c_phase cell with
     | PhDormant _ => is_some (c_releasing cell)
     | PhAdopting _ _ => true
     | _ => false
     end.

(** The cell-set indexes against a walk of the table. *)
Definition validate_indexes (s : State) : bool :=
  bool_decide (cells_where s c_quiescing = st_quiescing_cells s)
  && bool_decide (cells_where s (λ c, is_some (c_releasing c)) = st_releasing_cells s)
  && bool_decide (cells_where s (λ c, is_adopting (c_phase c)) = st_adopting_cells s)
  && bool_decide (cells_where s c_confirming = st_confirming_cells s)
  && forallb (λ id, is_some_and (λ cell,
       match c_phase cell with PhReadingOwner _ | PhWaitingActivation => true | _ => false end)
       (st_cells s !! id)) (members (st_confirming_cells s))
  && (st_confirming s || is_empty_set (st_confirming_cells s))
  && bool_decide (cells_where s c_resume_demand = st_resuming_cells s)
  && (st_resuming s || is_empty_set (cells_where s c_resume_demand)).

(** The capacity queue. *)
Definition validate_capacity (s : State) : bool :=
  no_dup (st_capacity_waiters s)
  && forallb (λ id, is_some_and (λ cell,
       is_waiting_capacity (c_phase cell) && is_some (c_waiting_for cell)) (st_cells s !! id))
       (st_capacity_waiters s).

Definition op_indexed (s : State) (id : string) (op : N) : bool :=
  bool_decide (st_cell_ops s !! op = Some id).

(** The checks on one cell. *)
Definition validate_cell (s : State) (id : string) (cell : Cell) : bool :=
  (negb (c_resume_demand cell)
   || match c_phase cell with
      | PhWaitingActivation | PhWaitingCapacity | PhRestoring _ _ | PhStarting _ _
      | PhPublishing _ _ | PhFenced => true
      | _ => false
      end)
  && (negb (c_quiescing cell) || is_resident (c_phase cell))
  && (negb (c_swapping cell) || on_swap_path (c_phase cell))
  && (negb (c_swap_cancelled cell) || c_swapping cell)
  && Bool.eqb (is_waiting_activation (c_phase cell)) (bool_decide (id ∈ st_activation_waiters s))
  && (negb (phase_requires_activation_permit (c_phase cell) (c_swapping cell))
      || bool_decide (id ∈ st_activation_permits s))
  && Bool.eqb (is_waiting_capacity (c_phase cell)) (bool_decide (id ∈ st_capacity_waiters s))
  && forallb (λ request, bool_decide (st_request_cells s !! request = Some id))
       (members (c_requests cell))
  && is_none_or (op_indexed s id) (phase_op (c_phase cell))
  && match c_alarm cell with Some (AlFiring op _ _ _ _) => op_indexed s id op | _ => true end
  && is_none_or (op_indexed s id) (c_releasing cell).

(** The number of cells in a capacity-occupying phase ([walked]). *)
Definition occupied_walk (cells : gmap string Cell) : N :=
  N.of_nat (size (filter (λ item : string * Cell, phase_occupies_capacity (c_phase item.2)) cells)).

(** An indexed operation has an owning slot on its cell. *)
Definition op_owned (s : State) (op : N) (id : string) : bool :=
  is_some_and (λ cell,
    bool_decide (phase_op (c_phase cell) = Some op)
    || bool_decide (c_releasing cell = Some op)
    || match c_alarm cell with Some (AlFiring current _ _ _ _) => current =? op | _ => false end)
    (st_cells s !! id).

(** The counter, the request index, the operation index and the late starts. *)
Definition validate_ops (s : State) : bool :=
  (occupied_walk (st_cells s) =? st_occupied s)
  && forallb (λ e : N * string, is_some_and (λ cell, bool_decide (e.1 ∈ c_requests cell))
       (st_cells s !! e.2)) (items (st_request_cells s))
  && forallb (λ e : N * string, op_owned s e.1 e.2) (items (st_cell_ops s))
  && forallb (λ op, is_some_and (λ cell,
       match c_phase cell with PhStarting current _ => current =? op | _ => false end)
       (id ← st_cell_ops s !! op; st_cells s !! id)) (members (st_timed_out_runtime_starts s)).

(** How many requests of [active] target each cell ([recount]). *)
Definition recount (active : list string) : gmap string N :=
  foldl (λ (counts : gmap string N) id, <[id := default 0 (counts !! id) + 1]> counts) ∅ active.

(** The activity indexes against a recount. *)
Definition validate_activity (s : State) : bool :=
  bool_decide (recount (values (st_active_requests s)) = st_active_cells s)
  && forallb (λ request, is_some (st_active_requests s !! request)) (members (st_admitted_gates s))
  && bool_decide (recount (omap (λ request, st_active_requests s !! request)
       (members (st_admitted_gates s))) = st_admitted_gate_cells s)
  && forallb (λ e : N * string, negb (is_some (st_request_cells s !! e.1))
       && is_some_and (λ cell, is_resident_or_ensuring (c_phase cell)) (st_cells s !! e.2))
       (items (st_active_requests s)).

(** Every output a barrier withholds, owner first. *)
Definition held_outputs (b : Barrier) : list Held :=
  match b_owner b with OwnOutput held => [held] | _ => [] end ++ b_followers b.

(** Withheld outputs are pinned on their cell and unique by request and channel. *)
Definition validate_barriers (s : State) : bool :=
  forallb (λ b,
    forallb (λ held, bool_decide (st_active_requests s !! h_request held = Some (b_cell b)))
      (held_outputs b)
    && match b_owner b with OwnAlarm _ _ _ => is_some (st_cells s !! b_cell b) | _ => true end)
    (values (st_barriers s))
  && no_dup (concat (held_outputs <$> values (st_barriers s))).

(** A firing alarm and a live transport need a runtime. *)
Definition validate_residency (cell : Cell) : bool :=
  (negb (is_firing (c_alarm cell)) || is_resident (c_phase cell))
  && (negb (existsb is_live_transport (values (c_websockets cell)))
      || is_resident_or_ensuring (c_phase cell)).

(** [State::validate]. *)
Definition validate (s : State) : bool :=
  validate_ceilings s
  && validate_activations s
  && all_cells s (λ _ cell, validate_handoff cell)
  && validate_indexes s
  && validate_capacity s
  && all_cells s (validate_cell s)
  && validate_ops s
  && validate_activity s
  && validate_barriers s
  && all_cells s (λ _ cell, validate_residency cell).
