(* ===== verification/Gaps.v ===== *)
(** * Runs the consistency gate rejects

    [State::validate] runs after every event of a debug build, which panics
    where it fails; a release build goes on in the state the event left.  Each
    lemma of the first part is a short run of [on_event] from a new node, every
    event of which the shell may deliver, that passes the gate up to its last
    event and fails it there.  The second part has two runs that pass the gate and leave
    something behind. *)

From S2P Require Import Prelude Effects Pressure LogTier Wake Types CoreState CoreOps.
From S2P Require Import Machine Samples Validate.

(** A node that needs its lease, with two activation permits. *)
Definition leased_config : Config :=
  mkConfig 4 2 2 2 4 OnEvictRelease true 1 (Some 1000) 100 3 0 None (mkPressureConfig None None).

Definition leased_new : State := new "a" leased_config.

(** The first lease of a process, and the first of one that takes up the local
    cells its predecessor left. *)
Definition lease_script (resume : option string) (found : option NodeLeaseRecord) : list Event :=
  [EvStartNodeLease 5 5 (mkNodeLeaseSpec "addr" 1 "g2" resume 1000);
   EvSelfNodeLeaseRead 1 5 5 (Ok found);
   EvNodeLeaseCasCompleted 2 5 (Ok (LeaseApplied "e1")) None].

Definition first_lease : list Event := lease_script None None.

Definition resumed_lease : list Event :=
  lease_script (Some "g") (Some (mkNodeLeaseRecord "a" "addr" 1005 1 "g" None "e0")).

Definition local_cell (id : string) (epoch : N) : LocalCell := mkLocalCell id epoch true.

(** The verdicts of the gate along a run, the state it ends in with them. *)
Fixpoint gate_run (events : list Event) (s : State) : option (list bool * State) :=
  match events with
  | [] => Some ([], s)
  | e :: events =>
      match on_event e s with
      | Done _ s _ => '(verdicts, s') ← gate_run events s; Some (validate s :: verdicts, s')
      | _ => None
      end
  end.

(** The gate rejects the state after the last event, and that one only. *)
Definition rejected_last (events : list Event) (s : State) : bool :=
  match gate_run events s with
  | Some (verdicts, _) => bool_decide (verdicts = replicate (length events - 1) true ++ [false])
  | None => false
  end.

Definition ends_in (events : list Event) (s : State) (f : State → bool) : bool :=
  match gate_run events s with Some (_, s) => f s | None => false end.

(** Three local cells to confirm under two permits: the third one waits, a
    caller joins it and goes away. *)
Definition cancelled_confirmation : list Event :=
  first_lease ++ [EvLocalCellsRead (Ok [local_cell "x" 1; local_cell "y" 1; local_cell "z" 1]);
                  EvRequestAt 7 "z" 6; EvCancel 7].

(** [State::cancel] parks a cell that is confirming and leaves its mark: the
    gate rejects the state. *)
Lemma cancel_loses_confirmation : rejected_last cancelled_confirmation leased_new = true.
Proof. by vm_compute. Qed.

(** The confirmation never ends then: the reads of the other two cells settle,
    no operation and no queue is left, and the inventory is still open, so an
    eviction is refused as if the node were unavailable. *)
Lemma cancel_leaves_inventory_open :
  ends_in (cancelled_confirmation
           ++ [EvOwnerRead 3 7 (Ok (Some (mkOwnerRecord (Some "a") 1 "t")));
               EvOwnerRead 4 8 (Ok (Some (mkOwnerRecord (Some "a") 1 "t")))]) leased_new
    (λ s, negb (ownership_confirmed s) && bool_decide (st_cell_ops s = ∅)
          && bool_decide (st_activation_waiters s = []) && bool_decide (st_activation_permits s = ∅)
          && match on_event (EvEvictRequested 9 "x" 9) s with
             | Done _ _ [FxEvictionAdmission 9 (Err (Refused RefusedNodeUnavailable))] => true
             | _ => false
             end) = true.
Proof. by vm_compute. Qed.

(** [State::fence] leaves the mark on the cells it fences. *)
Lemma fence_keeps_confirmation :
  rejected_last (first_lease ++ [EvLocalCellsRead (Ok [local_cell "x" 1]); EvNodeFenced]) leased_new = true.
Proof. by vm_compute. Qed.

(** So does [State::begin_preserve], which retires the owner read. *)
Lemma preserve_keeps_confirmation :
  rejected_last (first_lease ++ [EvLocalCellsRead (Ok [local_cell "x" 1]); EvBeginPreserve]) leased_new = true.
Proof. by vm_compute. Qed.

(** A reset leaves the live transport of the cell registered while it stops
    the runtime. *)
Lemma reset_keeps_transport :
  rejected_last (activation_script ++ [EvWebSocketOpened "x" 1 Regular; EvOutput 1 Response (Some 3) None None;
                                       EvDurableReached 6 (Err Definite) Bucket]) sample_new = true.
Proof. by vm_compute. Qed.

(** Two live directories of one cell count twice in [occupied]: the second
    restore replaces the first cell in the table and not in the counter. *)
Lemma resume_counts_twice :
  rejected_last (resumed_lease ++ [EvLocalCellsRead (Ok [local_cell "x" 1; local_cell "x" 2])]) leased_new = true.
Proof. by vm_compute. Qed.

(** ** Runs that pass the gate *)

(** A fenced node starts a restore: the inventory a resuming node asked for
    may arrive after the fence, and [State::local_cells_read] does not look
    at it. *)
Lemma fenced_node_restores :
  ends_in (resumed_lease ++ [EvNodeFenced]) leased_new (λ s,
    st_fenced s
    && match on_event (EvLocalCellsRead (Ok [local_cell "x" 1])) s with
       | Done _ _ [FxRestore _ id spec] => bool_decide (id = "x") && (rs_epoch spec =? 1) && rs_resume_local spec
       | _ => false
       end) = true.
Proof. by vm_compute. Qed.

(** [State::request] remembers a handoff request before it refuses it for want
    of a lease: the caller has its answer and no cell holds the request, which
    stays in both sets until a cancel that an answered caller does not send. *)
Lemma refused_handoff_remembered :
  ends_in [EvHandoffRequestAt 1 "x" 5 5] leased_new (λ s,
    bool_decide (st_request_cells s = ∅) && bool_decide (st_cells s = ∅)
    && bool_decide (1 ∈ st_handoff_requests s) && bool_decide (1 ∈ st_capacity_requests s)) = true.
Proof. by vm_compute. Qed.
