(* ===== verification/Frame.v ===== *)
(** * What every transition preserves

    The frame of the machine: the node name and the configuration never
    change, [fenced] and [draining] are sticky, the two clocks, the operation
    ids and the timer generations never go back, the permits stay under their
    ceilings, and only the lease handlers touch the node authority.  One lemma
    per operation, in the order of the model, collected in the hint database
    [frame]. *)

From S2P Require Import Prelude Effects Pressure LogTier Wake Types CoreState CoreOps.
From S2P Require Import Activation Alarms OutputGate NodeLease Ingress Resolution Shedding.
From S2P Require Import Lifecycle Handoff Machine Samples.

(** The permits under their ceilings. *)
Definition permits_ok (s : State) : Prop :=
  N.of_nat (size (st_activation_permits s)) ≤ max_activations (st_config s)
  ∧ N.of_nat (size (st_eviction_permits s)) ≤ eviction_ceiling s.

Record frame_core (s0 s : State) : Prop := {
  fr_node : st_node s = st_node s0;
  fr_config : st_config s = st_config s0;
  fr_fenced : st_fenced s0 = true → st_fenced s = true;
  fr_draining : st_draining s0 = true → st_draining s = true;
  fr_now : st_now_ms s0 ≤ st_now_ms s;
  fr_mono : st_now_mono_ms s0 ≤ st_now_mono_ms s;
  fr_op : st_next_op s0 ≤ st_next_op s;
  fr_timer : st_next_timer_generation s0 ≤ st_next_timer_generation s;
  fr_permits : permits_ok s0 → permits_ok s;
}.

(** The frame of an operation that is not about the lease. *)
Record frame_gate (s0 s : State) : Prop := {
  fr_core : frame_core s0 s;
  fr_authority : st_node_authority s = st_node_authority s0;
}.

(** The frame of an operation that is not about the output gate either: it
    leaves the barriers alone, gives no verdict on an output and asks for no
    ownership verification. *)
Record frame (s0 s : State) : Prop := {
  fr_gate : frame_gate s0 s;
  fr_barriers : st_barriers s = st_barriers s0;
}.

Definition quiet (e : Effect) : Prop :=
  match e with FxRelease _ _ _ | FxVerifyOwnership _ _ _ => False | _ => True end.

Definition framed {A} (c : dec A) : Prop :=
  ∀ s0 s, frame s0 s → wp True quiet c (λ _, frame s0) s.

Definition framed_gate {A} (c : dec A) : Prop :=
  ∀ s0 s, frame_gate s0 s → wp True (λ _, True) c (λ _, frame_gate s0) s.

Definition framed_core {A} (c : dec A) : Prop :=
  ∀ s0 s, frame_core s0 s → wp True (λ _, True) c (λ _, frame_core s0) s.

Create HintDb frame.
Create HintDb frame_gate.
Create HintDb frame_core.

Lemma frame_core_refl s : frame_core s s.
Proof. split; auto; lia. Qed.

Lemma frame_core_trans s1 s2 s3 : frame_core s1 s2 → frame_core s2 s3 → frame_core s1 s3.
Proof. intros [] []. split; try congruence; auto; lia. Qed.

Lemma frame_gate_refl s : frame_gate s s.
Proof. split; [apply frame_core_refl|done]. Qed.

Lemma frame_gate_trans s1 s2 s3 : frame_gate s1 s2 → frame_gate s2 s3 → frame_gate s1 s3.
Proof. intros [] []. split; [by eapply frame_core_trans|congruence]. Qed.

Lemma frame_refl s : frame s s.
Proof. split; [apply frame_gate_refl|done]. Qed.

(** A stronger frame is a frame. *)
Lemma framed_framed_gate {A} (c : dec A) : framed c → framed_gate c.
Proof.
  intros Hc s0 s Hs. eapply wp_weaken; [apply (Hc s s (frame_refl s))|done|done|].
  intros a s' []. by eapply frame_gate_trans.
Qed.

Lemma framed_gate_framed_core {A} (c : dec A) : framed_gate c → framed_core c.
Proof.
  intros Hc s0 s Hs. eapply wp_mono; [apply (Hc s s (frame_gate_refl s))|].
  intros a s' []. by eapply frame_core_trans.
Qed.

#[export] Hint Resolve framed_framed_gate : frame_gate.
#[export] Hint Resolve framed_gate_framed_core : frame_core.

Lemma framed_elim {A} (c : dec A) s0 s :
  framed c → frame s0 s → wp True quiet c (λ _, frame s0) s.
Proof. auto. Qed.

Lemma framed_gate_elim {A} (c : dec A) s0 s :
  framed_gate c → frame_gate s0 s → wp True (λ _, True) c (λ _, frame_gate s0) s.
Proof. auto. Qed.

Lemma framed_core_elim {A} (c : dec A) s0 s :
  framed_core c → frame_core s0 s → wp True (λ _, True) c (λ _, frame_core s0) s.
Proof. auto. Qed.

(** A primitive update that leaves the frame's fields alone, or moves them the
    right way. *)
Ltac frame_leaf :=
  match goal with
  | H : frame ?s0 ?s |- frame ?s0 ?s => exact H
  | H : frame ?s0 _ |- frame _ _ =>
      destruct H as [[[? ? ? ? ? ? ? ? Hp] ?] ?]; split; [split; [split|]|]; simpl;
      try assumption; try lia
  | H : frame_gate ?s0 ?s |- frame_gate ?s0 ?s => exact H
  | H : frame_gate ?s0 _ |- frame_gate _ _ =>
      destruct H as [[? ? ? ? ? ? ? ? Hp] ?]; split; [split|]; simpl; try assumption; try lia
  | H : frame_core ?s0 ?s |- frame_core ?s0 ?s => exact H
  | H : frame_core ?s0 _ |- frame_core _ _ =>
      destruct H as [? ? ? ? ? ? ? ? Hp]; split; simpl; try assumption; try lia
  end.

Ltac frame_call :=
  lazymatch goal with
  | H : frame ?s0 _ |- _ =>
      eapply wp_mono; [eapply (framed_elim _ s0); [solve [auto with frame nocore]|frame_leaf]|cbv beta; intros]
  | H : frame_gate ?s0 _ |- _ =>
      eapply wp_mono;
      [eapply (framed_gate_elim _ s0);
       [solve [auto with frame_gate frame nocore]
       |frame_leaf]|cbv beta; intros]
  | H : frame_core ?s0 _ |- _ =>
      eapply wp_mono;
      [eapply (framed_core_elim _ s0);
       [solve [auto with frame_core frame_gate frame nocore]
       |frame_leaf]|cbv beta; intros]
  end.

(** The frame the proof is about, as a predicate on the current state. *)
Ltac frame_pred k :=
  lazymatch goal with
  | H : frame ?s0 _ |- _ => k (frame s0)
  | H : frame_gate ?s0 _ |- _ => k (frame_gate s0)
  | H : frame_core ?s0 _ |- _ => k (frame_core s0)
  end.

Ltac frame_step :=
  first [wp_step | done
        | lazymatch goal with
          | |- wp _ _ (for_each _ _) _ _ =>
              frame_pred ltac:(fun P => apply (wp_for_each P); [|intros|intros])
          | |- wp _ _ (fold_each _ _ _) _ _ =>
              frame_pred ltac:(fun P => apply (wp_fold_each (λ _, P)); [|intros|intros])
          | |- wp _ _ (repeat_while _ _) _ _ =>
              frame_pred ltac:(fun P => apply (wp_repeat_while_partial P); [done| |intros|intros])
          | |- wp _ _ _ _ _ => frame_call
          end
        | frame_leaf ].

Ltac frame_auto := intros ? ? ?; repeat frame_step.

(** Where a branch of the source does not decide what follows, the frame is
    re-established before the rest is considered. *)
Ltac frame_join :=
  intros ? ? ?;
  repeat first
    [lazymatch goal with
     | |- wp _ _ (mbind _ (match _ with _ => _ end)) _ _ =>
         frame_pred ltac:(fun P => apply wp_bind; eapply (wp_mono _ (λ _, P)); [|cbv beta; intros])
     | |- wp _ _ (mbind _ (with_some _ _)) _ _ =>
         frame_pred ltac:(fun P => apply wp_bind; eapply (wp_mono _ (λ _, P)); [|cbv beta; intros])
     end
    |frame_step].

(** A fresh counter value, and an insertion under a ceiling just checked. *)
Ltac frame_fresh :=
  match goal with H : checked_add _ _ = Some _ |- _ => apply checked_add_Some in H as [-> _]; lia end.

Ltac frame_insert id :=
  match goal with Hp : permits_ok _ → permits_ok ?s |- _ =>
    intros [? ?]%Hp; split; simpl; [|try done];
    first [done
          |pose proof (N_size_insert id (st_eviction_permits s)); unfold eviction_ceiling in *; simpl; lia
          |pose proof (N_size_insert id (st_activation_permits s)); lia]
  end.

(** ** Shared operations *)

Lemma op_framed : framed op.
Proof.
  unfold op. frame_auto; apply checked_add_Some in Heqo as [-> _]; lia.
Qed.
#[export] Hint Resolve op_framed : frame.

Lemma timer_generation_framed : framed timer_generation.
Proof.
  unfold timer_generation. frame_auto; apply checked_add_Some in Heqo as [-> _]; lia.
Qed.
#[export] Hint Resolve timer_generation_framed : frame.

Lemma cell_op_framed id : framed (cell_op id).
Proof. unfold cell_op. frame_auto. Qed.
#[export] Hint Resolve cell_op_framed : frame.


(** ** CoreOps *)
Lemma forget_cell_op_framed (op : N) : framed (forget_cell_op op).
Proof. unfold forget_cell_op. frame_auto. Qed.
#[export] Hint Resolve forget_cell_op_framed : frame.

Lemma take_cell_op_framed (op : N) (f : Cell → bool) : framed (take_cell_op op f).
Proof. unfold take_cell_op. frame_auto. Qed.
#[export] Hint Resolve take_cell_op_framed : frame.

Lemma cell_get_framed (id : string) : framed (cell_get id).
Proof. unfold cell_get. frame_auto. Qed.
#[export] Hint Resolve cell_get_framed : frame.

Lemma cell_remove_framed (id : string) : framed (cell_remove id).
Proof. unfold cell_remove. frame_auto. Qed.
#[export] Hint Resolve cell_remove_framed : frame.

Lemma cell_insert_framed (id : string) (c : Cell) : framed (cell_insert id c).
Proof. unfold cell_insert. frame_auto. Qed.
#[export] Hint Resolve cell_insert_framed : frame.

Lemma expect_framed {A} (o : option A) : framed (expect o).
Proof. unfold expect. frame_auto. Qed.
#[export] Hint Resolve expect_framed : frame.

Lemma cell_update_framed (id : string) (f : Cell → Cell) : framed (cell_update id f).
Proof. unfold cell_update. frame_auto. Qed.
#[export] Hint Resolve cell_update_framed : frame.

Lemma set_phase_framed (c : Cell) (p : Phase) : framed (set_phase c p).
Proof. unfold set_phase. frame_auto. Qed.
#[export] Hint Resolve set_phase_framed : frame.

Lemma set_phase_in_framed (id : string) (c : Cell) (p : Phase) : framed (set_phase_in id c p).
Proof. unfold set_phase_in. frame_auto. Qed.
#[export] Hint Resolve set_phase_in_framed : frame.

Lemma activate_request_framed (r : N) (id : string) : framed (activate_request r id).
Proof. unfold activate_request. frame_auto. Qed.
#[export] Hint Resolve activate_request_framed : frame.

Lemma deactivate_request_framed (r : N) : framed (deactivate_request r).
Proof. unfold deactivate_request. frame_auto. Qed.
#[export] Hint Resolve deactivate_request_framed : frame.

Lemma record_local_request_framed (c : Cell) (r now : N) : framed (record_local_request c r now).
Proof. unfold record_local_request. frame_auto. Qed.
#[export] Hint Resolve record_local_request_framed : frame.

Lemma modify_activity_framed f : framed (modify_activity f).
Proof. unfold modify_activity. frame_auto. Qed.
#[export] Hint Resolve modify_activity_framed : frame.

Lemma complete_request_framed (id : string) (r : N) res : framed (complete_request id r res).
Proof. unfold complete_request. frame_auto. Qed.
#[export] Hint Resolve complete_request_framed : frame.

Lemma remove_request_cell_framed (r : N) : framed (remove_request_cell r).
Proof. unfold remove_request_cell. frame_auto. Qed.
#[export] Hint Resolve remove_request_cell_framed : frame.

Lemma finish_requests_framed (id : string) (c : Cell) res : framed (finish_requests id c res).
Proof. unfold finish_requests. frame_auto. Qed.
#[export] Hint Resolve finish_requests_framed : frame.

Lemma next_writer_epoch_framed (id : string) (c : Cell) (e : N) : framed (next_writer_epoch id c e).
Proof. unfold next_writer_epoch. frame_auto. Qed.
#[export] Hint Resolve next_writer_epoch_framed : frame.

Lemma record_acquisition_framed spec : framed (record_acquisition spec).
Proof. unfold record_acquisition. frame_auto. Qed.
#[export] Hint Resolve record_acquisition_framed : frame.

Lemma finish_eviction_framed (op : N) res : framed (finish_eviction op res).
Proof. unfold finish_eviction. frame_auto. Qed.
#[export] Hint Resolve finish_eviction_framed : frame.

Lemma return_eviction_permit_framed (id : string) : framed (return_eviction_permit id).
Proof.
  unfold return_eviction_permit. frame_auto. intros [? ?]%Hp. split; simpl; [done|].
  etrans; [apply N_size_difference|done].
Qed.
#[export] Hint Resolve return_eviction_permit_framed : frame.

Lemma cancel_eviction_framed (id : string) (c : Cell) (e : N) reason : framed (cancel_eviction id c e reason).
Proof. unfold cancel_eviction. frame_auto. Qed.
#[export] Hint Resolve cancel_eviction_framed : frame.

Lemma begin_eviction_framed (id : string) (r : bool) : framed (begin_eviction id r).
Proof.
  unfold begin_eviction, cell_op, op, set_phase_in, set_phase, cell_insert.
  frame_auto; first [frame_fresh|apply N.leb_gt in Heqb2; frame_insert id].
Qed.
#[export] Hint Resolve begin_eviction_framed : frame.

Lemma shed_one_framed : framed (shed_one).
Proof. unfold shed_one. frame_auto. Qed.
#[export] Hint Resolve shed_one_framed : frame.


(** ** Activation *)
Lemma worker_request_framed (r : N) : framed (worker_request r).
Proof. unfold worker_request. frame_auto. Qed.
#[export] Hint Resolve worker_request_framed : frame.

Lemma watch_queued_framed (id : string) (c : Cell) : framed (watch_queued id c).
Proof. unfold watch_queued. frame_auto. Qed.
#[export] Hint Resolve watch_queued_framed : frame.

Lemma settle_confirmation_framed (id : string) : framed (settle_confirmation id).
Proof. unfold settle_confirmation. frame_auto. Qed.
#[export] Hint Resolve settle_confirmation_framed : frame.

Lemma settle_local_resume_framed (id : string) : framed (settle_local_resume id).
Proof. unfold settle_local_resume. frame_auto. Qed.
#[export] Hint Resolve settle_local_resume_framed : frame.

Lemma refuse_new_ownership_during_drain_framed (id : string) (c : Cell) prior : framed (refuse_new_ownership_during_drain id c prior).
Proof. unfold refuse_new_ownership_during_drain. frame_auto. Qed.
#[export] Hint Resolve refuse_new_ownership_during_drain_framed : frame.

Lemma refuse_claim_framed (id : string) (c : Cell) a : framed (refuse_claim id c a).
Proof. unfold refuse_claim. frame_auto. Qed.
#[export] Hint Resolve refuse_claim_framed : frame.

Lemma begin_activation_framed (id : string) (c : Cell) a : framed (begin_activation id c a).
Proof. unfold begin_activation. frame_auto. Qed.
#[export] Hint Resolve begin_activation_framed : frame.

Lemma activate_or_wait_framed (id : string) (c : Cell) a w : framed (activate_or_wait id c a w).
Proof. unfold activate_or_wait. frame_auto. Qed.
#[export] Hint Resolve activate_or_wait_framed : frame.

Lemma begin_cold_route_framed (id : string) (c : Cell) a : framed (begin_cold_route id c a).
Proof. unfold begin_cold_route. frame_auto. Qed.
#[export] Hint Resolve begin_cold_route_framed : frame.

Lemma admit_or_queue_activation_framed (id : string) (c : Cell) a : framed (admit_or_queue_activation id c a).
Proof.
  unfold admit_or_queue_activation. frame_auto. apply N.ltb_lt in Heqb0. frame_insert id.
Qed.
#[export] Hint Resolve admit_or_queue_activation_framed : frame.

Lemma pump_activations_turn_framed : framed (pump_activations_turn).
Proof.
  unfold pump_activations_turn, cell_remove, cell_get. frame_auto.
  apply negb_false_iff, N.ltb_lt in Heqb. frame_insert s1.
Qed.
#[export] Hint Resolve pump_activations_turn_framed : frame.

Lemma pump_activations_framed : framed (pump_activations).
Proof.
  unfold pump_activations. frame_auto. intros [? ?]%Hp. split; simpl; [|done].
  etrans; [apply N_size_filter|done].
Qed.
#[export] Hint Resolve pump_activations_framed : frame.

Lemma pump_capacity_turn_framed : framed (pump_capacity_turn).
Proof. unfold pump_capacity_turn. frame_auto. Qed.
#[export] Hint Resolve pump_capacity_turn_framed : frame.

Lemma pump_capacity_framed : framed (pump_capacity).
Proof. unfold pump_capacity. frame_auto. Qed.
#[export] Hint Resolve pump_capacity_framed : frame.

Lemma confirm_local_cells_framed res : framed (confirm_local_cells res).
Proof. unfold confirm_local_cells. frame_auto. Qed.
#[export] Hint Resolve confirm_local_cells_framed : frame.

Lemma local_cells_read_framed res : framed (local_cells_read res).
Proof. unfold local_cells_read. frame_auto. Qed.
#[export] Hint Resolve local_cells_read_framed : frame.

Lemma remove_capacity_request_framed (r : N) : framed (remove_capacity_request r).
Proof. unfold remove_capacity_request. frame_auto. Qed.
#[export] Hint Resolve remove_capacity_request_framed : frame.

Lemma expire_queued_framed (id : string) (g : N) : framed (expire_queued id g).
Proof. unfold expire_queued. frame_auto. Qed.
#[export] Hint Resolve expire_queued_framed : frame.


(** ** Alarms *)
Lemma schedule_alarm_timer_framed (id : string) (g : N) at_ms (n m : N) : framed (schedule_alarm_timer id g at_ms n m).
Proof. unfold schedule_alarm_timer. frame_auto. Qed.
#[export] Hint Resolve schedule_alarm_timer_framed : frame.

Lemma settle_observation_framed (id : string) (c : Cell) a b (n m : N) : framed (settle_observation id c a b n m).
Proof. unfold settle_observation. frame_auto. Qed.
#[export] Hint Resolve settle_observation_framed : frame.

Lemma alarm_observed_framed (id : string) o (n m : N) : framed (alarm_observed id o n m).
Proof. unfold alarm_observed. frame_auto. Qed.
#[export] Hint Resolve alarm_observed_framed : frame.

Lemma retry_alarm_timer_framed (id : string) (g n : N) : framed (retry_alarm_timer id g n).
Proof. unfold retry_alarm_timer. frame_auto. Qed.
#[export] Hint Resolve retry_alarm_timer_framed : frame.

Lemma fire_alarm_framed (id : string) (c : Cell) (e : N) at_ms (g : N) b : framed (fire_alarm id c e at_ms g b).
Proof. unfold fire_alarm. frame_auto. Qed.
#[export] Hint Resolve fire_alarm_framed : frame.

Lemma cell_alarm_timer_framed (id : string) (g n m : N) : framed (cell_alarm_timer id g n m).
Proof. unfold cell_alarm_timer. frame_auto. Qed.
#[export] Hint Resolve cell_alarm_timer_framed : frame.

Lemma barrier_insert_framed (op : N) b : framed_gate (barrier_insert op b).
Proof. unfold barrier_insert. frame_auto. Qed.
#[export] Hint Resolve barrier_insert_framed : frame_gate.

Lemma open_barrier_framed o (id : string) (e p : N) : framed_gate (open_barrier o id e p).
Proof. unfold open_barrier. frame_auto. Qed.
#[export] Hint Resolve open_barrier_framed : frame_gate.

Lemma settle_alarm_framed (op n m : N) res : framed (settle_alarm op n m res).
Proof. unfold settle_alarm. frame_auto. Qed.
#[export] Hint Resolve settle_alarm_framed : frame.

Lemma alarm_finished_framed (op : N) (id : string) (e n m : N) res : framed_gate (alarm_finished op id e n m res).
Proof. unfold alarm_finished. frame_auto. Qed.
#[export] Hint Resolve alarm_finished_framed : frame_gate.


(** ** OutputGate *)
Lemma activity_finished_framed (r : N) : framed (activity_finished r).
Proof. unfold activity_finished. frame_auto. Qed.
#[export] Hint Resolve activity_finished_framed : frame.

Lemma emit_release_framed h res : framed_gate (emit_release h res).
Proof. unfold emit_release. frame_auto. Qed.
#[export] Hint Resolve emit_release_framed : frame_gate.

Lemma unpin_gate_framed (r : N) : framed (unpin_gate r).
Proof. unfold unpin_gate. frame_auto. Qed.
#[export] Hint Resolve unpin_gate_framed : frame.

Lemma barrier_remove_framed (op : N) : framed_gate (barrier_remove op).
Proof. unfold barrier_remove. frame_auto. Qed.
#[export] Hint Resolve barrier_remove_framed : frame_gate.

Lemma release_held_framed h res : framed_gate (release_held h res).
Proof. unfold release_held. frame_auto. Qed.
#[export] Hint Resolve release_held_framed : frame_gate.

Lemma doom_barrier_framed b : framed_gate (doom_barrier b).
Proof. unfold doom_barrier. frame_auto. Qed.
#[export] Hint Resolve doom_barrier_framed : frame_gate.

Lemma reset_cell_framed (id : string) (e : N) : framed_gate (reset_cell id e).
Proof. unfold reset_cell. frame_auto. Qed.
#[export] Hint Resolve reset_cell_framed : frame_gate.

Lemma note_proven_framed (id : string) (e p : N) : framed (note_proven id e p).
Proof. unfold note_proven. frame_auto. Qed.
#[export] Hint Resolve note_proven_framed : frame.

Lemma open_write_barrier_framed h (p : N) : framed_gate (open_write_barrier h p).
Proof. unfold open_write_barrier. frame_auto. Qed.
#[export] Hint Resolve open_write_barrier_framed : frame_gate.

Lemma barrier_update_framed (op : N) f : framed_gate (barrier_update op f).
Proof. unfold barrier_update. frame_auto. Qed.
#[export] Hint Resolve barrier_update_framed : frame_gate.

Lemma hold_observed_framed h (id : string) (e o : N) : framed_gate (hold_observed h id e o).
Proof. unfold hold_observed. frame_auto. Qed.
#[export] Hint Resolve hold_observed_framed : frame_gate.

Lemma trail_open_barrier_framed h : framed_gate (trail_open_barrier h).
Proof. unfold trail_open_barrier. frame_auto. Qed.
#[export] Hint Resolve trail_open_barrier_framed : frame_gate.

Lemma output_framed (r : N) ch p o e : framed_gate (output r ch p o e).
Proof. unfold output. frame_auto. Qed.
#[export] Hint Resolve output_framed : frame_gate.

Lemma open_export_barrier_framed (id : string) (e p t : N) : framed_gate (open_export_barrier id e p t).
Proof. unfold open_export_barrier. frame_auto. Qed.
#[export] Hint Resolve open_export_barrier_framed : frame_gate.

Lemma reask_riders_framed (id : string) (e : N) rs : framed_gate (reask_riders id e rs).
Proof. unfold reask_riders. frame_auto. Qed.
#[export] Hint Resolve reask_riders_framed : frame_gate.

Lemma export_ticket_framed (id : string) (e p t : N) : framed_gate (export_ticket id e p t).
Proof. unfold export_ticket. frame_auto. Qed.
#[export] Hint Resolve export_ticket_framed : frame_gate.

Lemma settle_gate_framed (op : N) b : framed_gate (settle_gate op b).
Proof. unfold settle_gate. frame_auto. Qed.
#[export] Hint Resolve settle_gate_framed : frame_gate.

Lemma hand_export_on_framed (op : N) : framed_gate (hand_export_on op).
Proof. unfold hand_export_on. frame_auto. Qed.
#[export] Hint Resolve hand_export_on_framed : frame_gate.

Lemma take_export_riders_framed (op : N) : framed_gate (take_export_riders op).
Proof. unfold take_export_riders. frame_auto. Qed.
#[export] Hint Resolve take_export_riders_framed : frame_gate.

Lemma durable_reached_framed (op : N) res src : framed_gate (durable_reached op res src).
Proof. unfold durable_reached. frame_auto. Qed.
#[export] Hint Resolve durable_reached_framed : frame_gate.

Lemma ownership_verified_framed (op : N) res : framed_gate (ownership_verified op res).
Proof. unfold ownership_verified. frame_auto. Qed.
#[export] Hint Resolve ownership_verified_framed : frame_gate.

Lemma cancel_cell_outputs_framed (id : string) : framed_gate (cancel_cell_outputs id).
Proof. unfold cancel_cell_outputs. frame_auto. Qed.
#[export] Hint Resolve cancel_cell_outputs_framed : frame_gate.


(** ** The lease and the fence

    The fence leaves the authority alone; [fence_node] and the lease handlers
    are the operations with the weaker frame. *)

Lemma fence_barrier_framed b : framed_gate (fence_barrier b).
Proof. unfold fence_barrier. frame_auto. Qed.
#[export] Hint Resolve fence_barrier_framed : frame_gate.

Lemma fence_cell_framed (id : string) : framed (fence_cell id).
Proof. unfold fence_cell. frame_join. Qed.
#[export] Hint Resolve fence_cell_framed : frame.

Lemma fence_framed : framed_gate fence.
Proof.
  unfold fence. frame_auto. intros [? ?]%Hp. split; [|done]. apply N.le_0_l.
Qed.
#[export] Hint Resolve fence_framed : frame_gate.

Lemma compensate_retired_runtime_framed (op : N) res : framed (compensate_retired_runtime op res).
Proof. unfold compensate_retired_runtime. frame_auto. Qed.
#[export] Hint Resolve compensate_retired_runtime_framed : frame.

Lemma fence_node_framed reason : framed_core (fence_node reason).
Proof. unfold fence_node. frame_auto. Qed.
#[export] Hint Resolve fence_node_framed : frame_core.

Lemma begin_node_lease_acquisition_framed (n : N) spec : framed_core (begin_node_lease_acquisition n spec).
Proof. unfold begin_node_lease_acquisition. frame_auto. Qed.
#[export] Hint Resolve begin_node_lease_acquisition_framed : frame_core.

Lemma start_node_lease_framed (n : N) spec : framed_core (start_node_lease n spec).
Proof. unfold start_node_lease. frame_auto. Qed.
#[export] Hint Resolve start_node_lease_framed : frame_core.

Lemma fail_initial_node_lease_framed spec : framed_core (fail_initial_node_lease spec).
Proof. unfold fail_initial_node_lease. frame_auto. Qed.
#[export] Hint Resolve fail_initial_node_lease_framed : frame_core.

Lemma take_nudge_framed : framed_core take_nudge.
Proof. unfold take_nudge. frame_auto. Qed.
#[export] Hint Resolve take_nudge_framed : frame_core.

Lemma hold_node_lease_framed spec record (a : N) b1 b2 : framed_core (hold_node_lease spec record a b1 b2).
Proof. unfold hold_node_lease. frame_auto. Qed.
#[export] Hint Resolve hold_node_lease_framed : frame_core.

Lemma complete_node_lease_write_framed p r (n : N) : framed_core (complete_node_lease_write p r n).
Proof. unfold complete_node_lease_write. frame_auto. Qed.
#[export] Hint Resolve complete_node_lease_write_framed : frame_core.

Lemma resume_node_lease_after_failure_framed p (n : N) : framed_core (resume_node_lease_after_failure p n).
Proof. unfold resume_node_lease_after_failure. frame_auto. Qed.
#[export] Hint Resolve resume_node_lease_after_failure_framed : frame_core.

Lemma begin_node_lease_write_framed p g : framed_core (begin_node_lease_write p g).
Proof. unfold begin_node_lease_write. frame_auto. Qed.
#[export] Hint Resolve begin_node_lease_write_framed : frame_core.

Lemma adopt_late_write_framed p r (n m : N) : framed_core (adopt_late_write p r n m).
Proof. unfold adopt_late_write. frame_auto. Qed.
#[export] Hint Resolve adopt_late_write_framed : frame_core.

Lemma replace_node_lease_framed p r (n : N) : framed_core (replace_node_lease p r n).
Proof. unfold replace_node_lease. frame_auto. Qed.
#[export] Hint Resolve replace_node_lease_framed : frame_core.

Lemma read_self_node_lease_framed (op n m : N) res : framed_core (read_self_node_lease op n m res).
Proof. unfold read_self_node_lease. frame_auto. Qed.
#[export] Hint Resolve read_self_node_lease_framed : frame_core.

Lemma read_back_framed p b l : framed_core (read_back p b l).
Proof. unfold read_back. frame_auto. Qed.
#[export] Hint Resolve read_back_framed : frame_core.

Lemma node_lease_cas_completed_framed (op n : N) res l : framed_core (node_lease_cas_completed op n res l).
Proof. unfold node_lease_cas_completed. frame_auto. Qed.
#[export] Hint Resolve node_lease_cas_completed_framed : frame_core.


(** ** Ingress *)

Lemma request_cell_insert_framed (r : N) (id : string) : framed (request_cell_insert r id).
Proof. unfold request_cell_insert. frame_auto. Qed.
#[export] Hint Resolve request_cell_insert_framed : frame.

Lemma join_waiters_framed (r : N) (id : string) (c : Cell) : framed (join_waiters r id c).
Proof. unfold join_waiters. frame_auto. Qed.
#[export] Hint Resolve join_waiters_framed : frame.

Lemma serve_local_framed (r : N) (id : string) (c : Cell) : framed (serve_local r id c).
Proof. unfold serve_local. frame_auto. Qed.
#[export] Hint Resolve serve_local_framed : frame.

Lemma wait_for_cell_framed (r : N) (id : string) (c : Cell) : framed (wait_for_cell r id c).
Proof. unfold wait_for_cell. frame_auto. Qed.
#[export] Hint Resolve wait_for_cell_framed : frame.

Lemma request_authorized_framed (r : N) (id : string) : framed (request_authorized r id).
Proof. unfold request_authorized. frame_auto. Qed.
#[export] Hint Resolve request_authorized_framed : frame.

Lemma request_framed (r : N) (id : string) b1 b2 : framed (request r id b1 b2).
Proof. unfold request. frame_auto. Qed.
#[export] Hint Resolve request_framed : frame.

Lemma websocket_request_framed (r : N) (id : string) (w : N) : framed (websocket_request r id w).
Proof. unfold websocket_request. frame_auto. Qed.
#[export] Hint Resolve websocket_request_framed : frame.

Lemma gate_request_framed (r : N) (id : string) : framed (gate_request r id).
Proof. unfold gate_request. frame_auto. Qed.
#[export] Hint Resolve gate_request_framed : frame.

Lemma wake_hint_authorized_framed (id : string) sc : framed (wake_hint_authorized id sc).
Proof. unfold wake_hint_authorized. frame_auto. Qed.
#[export] Hint Resolve wake_hint_authorized_framed : frame.

Lemma wake_hint_framed (id : string) e sc : framed (wake_hint id e sc).
Proof. unfold wake_hint. frame_auto. Qed.
#[export] Hint Resolve wake_hint_framed : frame.

Lemma remove_handoff_request_framed (r : N) : framed (remove_handoff_request r).
Proof. unfold remove_handoff_request. frame_auto. Qed.
#[export] Hint Resolve remove_handoff_request_framed : frame.

Lemma cancel_framed (r : N) : framed (cancel r).
Proof. unfold cancel. frame_auto. Qed.
#[export] Hint Resolve cancel_framed : frame.

Lemma preserve_cell_framed (id : string) : framed (preserve_cell id).
Proof. unfold preserve_cell. frame_auto. Qed.
#[export] Hint Resolve preserve_cell_framed : frame.

Lemma begin_preserve_framed : framed begin_preserve.
Proof.
  unfold begin_preserve. frame_auto; intros [? ?]%Hp; split; simpl; try done;
  (etrans; [apply N_size_filter|done]).
Qed.
#[export] Hint Resolve begin_preserve_framed : frame.


(** ** Resolution *)

Lemma begin_capacity_lookup_framed (id : string) (c : Cell) cl : framed (begin_capacity_lookup id c cl).
Proof. unfold begin_capacity_lookup. frame_auto. Qed.
#[export] Hint Resolve begin_capacity_lookup_framed : frame.

Lemma refuse_capacity_handoffs_framed (id : string) (c : Cell) : framed (refuse_capacity_handoffs id c).
Proof. unfold refuse_capacity_handoffs. frame_auto. Qed.
#[export] Hint Resolve refuse_capacity_handoffs_framed : frame.

Lemma place_unowned_framed (id : string) (c : Cell) cl : framed (place_unowned id c cl).
Proof. unfold place_unowned. frame_auto. Qed.
#[export] Hint Resolve place_unowned_framed : frame.

Lemma fail_resolution_framed (id : string) (c : Cell) e : framed (fail_resolution id c e).
Proof. unfold fail_resolution. frame_auto. Qed.
#[export] Hint Resolve fail_resolution_framed : frame.

Lemma take_over_framed (id : string) (c : Cell) r l : framed (take_over id c r l).
Proof. unfold take_over. frame_auto. Qed.
#[export] Hint Resolve take_over_framed : frame.

Lemma apply_node_lease_result_framed (id : string) (c : Cell) r (n : N) res : framed (apply_node_lease_result id c r n res).
Proof. unfold apply_node_lease_result. frame_auto. Qed.
#[export] Hint Resolve apply_node_lease_result_framed : frame.

Lemma confirm_acquisition_framed (id : string) (c : Cell) cl (e : N) : framed (confirm_acquisition id c cl e).
Proof. unfold confirm_acquisition. frame_auto. Qed.
#[export] Hint Resolve confirm_acquisition_framed : frame.

Lemma resolve_foreign_owner_framed (id : string) (c : Cell) r (o : string) (n : N) : framed (resolve_foreign_owner id c r o n).
Proof. unfold resolve_foreign_owner. frame_auto. Qed.
#[export] Hint Resolve resolve_foreign_owner_framed : frame.

Lemma resolve_owner_framed (id : string) (c : Cell) (n : N) res : framed (resolve_owner id c n res).
Proof. unfold resolve_owner. frame_auto. Qed.
#[export] Hint Resolve resolve_owner_framed : frame.

Lemma owner_read_framed (op n : N) res : framed (owner_read op n res).
Proof. unfold owner_read. frame_auto. Qed.
#[export] Hint Resolve owner_read_framed : frame.

Lemma node_lease_read_framed (op n : N) res : framed (node_lease_read op n res).
Proof. unfold node_lease_read. frame_auto. Qed.
#[export] Hint Resolve node_lease_read_framed : frame.

Lemma observe_sample_framed p : framed (observe_sample p).
Proof. unfold observe_sample. frame_auto. Qed.
#[export] Hint Resolve observe_sample_framed : frame.

Lemma capacity_peers_read_framed (op n : N) res : framed (capacity_peers_read op n res).
Proof. unfold capacity_peers_read. frame_auto. Qed.
#[export] Hint Resolve capacity_peers_read_framed : frame.

Lemma back_off_recovery_framed (id : string) (c : Cell) : framed (back_off_recovery id c).
Proof. unfold back_off_recovery. frame_auto. Qed.
#[export] Hint Resolve back_off_recovery_framed : frame.

Lemma node_log_recovered_framed (op : N) res : framed (node_log_recovered op res).
Proof. unfold node_log_recovered. frame_auto. Qed.
#[export] Hint Resolve node_log_recovered_framed : frame.

Lemma retry_owner_log_recovery_framed (id : string) (g : N) : framed (retry_owner_log_recovery id g).
Proof. unfold retry_owner_log_recovery. frame_auto. Qed.
#[export] Hint Resolve retry_owner_log_recovery_framed : frame.


(** ** Shedding *)

Lemma durability_checked_framed (op : N) res : framed (durability_checked op res).
Proof. unfold durability_checked. frame_auto. Qed.
#[export] Hint Resolve durability_checked_framed : frame.

Lemma evict_framed (id : string) : framed (evict id).
Proof. unfold evict. frame_auto. Qed.
#[export] Hint Resolve evict_framed : frame.

Lemma admit_eviction_framed (id : string) : framed (admit_eviction id).
Proof. unfold admit_eviction. frame_auto. Qed.
#[export] Hint Resolve admit_eviction_framed : frame.

Lemma evict_requested_framed (r : N) (id : string) : framed (evict_requested r id).
Proof.
  unfold evict_requested, report_admission. frame_auto.
  all: match goal with Hes : Forall quiet ?l |- quiet ?x => by apply (Forall_forall quiet l) end.
Qed.
#[export] Hint Resolve evict_requested_framed : frame.

Lemma evict_idle_turn_framed (n i : N) : framed (evict_idle_turn n i).
Proof. unfold evict_idle_turn. frame_auto. Qed.
#[export] Hint Resolve evict_idle_turn_framed : frame.

Lemma evict_idle_framed (n : N) : framed (evict_idle n).
Proof. unfold evict_idle. frame_auto. Qed.
#[export] Hint Resolve evict_idle_framed : frame.

Lemma shed_toward_floor_turn_framed : framed shed_toward_floor_turn.
Proof. unfold shed_toward_floor_turn. frame_auto. Qed.
#[export] Hint Resolve shed_toward_floor_turn_framed : frame.

Lemma shed_toward_floor_framed : framed shed_toward_floor.
Proof. unfold shed_toward_floor. frame_auto. Qed.
#[export] Hint Resolve shed_toward_floor_framed : frame.

Lemma load_sampled_framed l (n : N) : framed (load_sampled l n).
Proof. unfold load_sampled. frame_auto. Qed.
#[export] Hint Resolve load_sampled_framed : frame.


(** ** Lifecycle *)

Lemma reread_owner_framed (id : string) (c : Cell) p : framed (reread_owner id c p).
Proof. unfold reread_owner. frame_auto. Qed.
#[export] Hint Resolve reread_owner_framed : frame.

Lemma acquire_applied_framed (id : string) (c : Cell) cl b : framed (acquire_applied id c cl b).
Proof. unfold acquire_applied. frame_auto. Qed.
#[export] Hint Resolve acquire_applied_framed : frame.

Lemma owner_cas_completed_framed (op : N) res : framed (owner_cas_completed op res).
Proof. unfold owner_cas_completed. frame_auto. Qed.
#[export] Hint Resolve owner_cas_completed_framed : frame.

Lemma seed_restored_alarm_framed (id : string) (c : Cell) a : framed (seed_restored_alarm id c a).
Proof. unfold seed_restored_alarm. frame_auto. Qed.
#[export] Hint Resolve seed_restored_alarm_framed : frame.

Lemma start_runtime_framed (id : string) (c : Cell) (e : N) : framed (start_runtime id c e).
Proof. unfold start_runtime. frame_auto. Qed.
#[export] Hint Resolve start_runtime_framed : frame.

Lemma fail_activation_framed (id : string) (c : Cell) (e : N) err : framed (fail_activation id c e err).
Proof. unfold fail_activation. frame_auto. Qed.
#[export] Hint Resolve fail_activation_framed : frame.

Lemma restore_completed_framed (op : N) res : framed (restore_completed op res).
Proof. unfold restore_completed. frame_auto. Qed.
#[export] Hint Resolve restore_completed_framed : frame.

Lemma runtime_started_framed (op : N) i (g : N) res : framed (runtime_started op i g res).
Proof. unfold runtime_started. frame_auto. Qed.
#[export] Hint Resolve runtime_started_framed : frame.

Lemma runtime_start_timed_out_framed (op : N) : framed (runtime_start_timed_out op).
Proof. unfold runtime_start_timed_out. frame_auto. Qed.
#[export] Hint Resolve runtime_start_timed_out_framed : frame.

Lemma published_framed (op : N) res : framed (published op res).
Proof. unfold published. frame_auto. Qed.
#[export] Hint Resolve published_framed : frame.

Lemma settle_stop_framed (id : string) (c : Cell) (e : N) cause : framed (settle_stop id c e cause).
Proof. unfold settle_stop. frame_auto. Qed.
#[export] Hint Resolve settle_stop_framed : frame.

Lemma runtime_stopped_framed (op : N) : framed (runtime_stopped op).
Proof. unfold runtime_stopped. frame_auto. Qed.
#[export] Hint Resolve runtime_stopped_framed : frame.

Lemma runtime_stop_failed_framed (op : N) e : framed (runtime_stop_failed op e).
Proof. unfold runtime_stop_failed. frame_auto. Qed.
#[export] Hint Resolve runtime_stop_failed_framed : frame.


(** ** Handoff *)

Lemma releasing_insert_framed (id : string) : framed (releasing_insert id).
Proof. unfold releasing_insert. frame_auto. Qed.
#[export] Hint Resolve releasing_insert_framed : frame.

Lemma owner_released_framed (op : N) res : framed (owner_released op res).
Proof. unfold owner_released. frame_auto. Qed.
#[export] Hint Resolve owner_released_framed : frame.

Lemma successor_adopted_framed (op : N) res : framed (successor_adopted op res).
Proof. unfold successor_adopted. frame_auto. Qed.
#[export] Hint Resolve successor_adopted_framed : frame.

Lemma release_dormant_framed (id : string) (e : N) : framed (release_dormant id e).
Proof. unfold release_dormant. frame_auto. Qed.
#[export] Hint Resolve release_dormant_framed : frame.

Lemma rebalance_framed (n : N) : framed (rebalance n).
Proof. unfold rebalance. frame_auto. Qed.
#[export] Hint Resolve rebalance_framed : frame.

Lemma release_queue_framed c : framed (release_queue c).
Proof. unfold release_queue. frame_auto. Qed.
#[export] Hint Resolve release_queue_framed : frame.

Lemma nominate_resident_framed (id : string) : framed_gate (nominate_resident id).
Proof. unfold nominate_resident. frame_auto. Qed.
#[export] Hint Resolve nominate_resident_framed : frame_gate.

Lemma spend_each_framed {A} (l : list A) (limit i : N) (f : A → dec unit) :
  (∀ x, framed_gate (f x)) → framed_gate (spend_each l limit i f).
Proof. intros Hf. revert i. induction l as [|x l IH]; intros i; simpl; frame_auto. Qed.

Lemma release_pair_framed (c : string * N) : framed (release_dormant c.1 c.2).
Proof. apply release_dormant_framed. Qed.
#[export] Hint Resolve release_pair_framed : frame.
#[export] Hint Resolve spend_each_framed : frame_gate.

Lemma pump_release_framed : framed_gate pump_release.
Proof. unfold pump_release. frame_auto. Qed.
#[export] Hint Resolve pump_release_framed : frame_gate.

Lemma release_all_framed : framed_gate release_all.
Proof.
  intros s0 s H. unfold release_all. wp_steps. apply pump_release_framed.
  frame_leaf. intros [? ?]%Hp. split; [done|]. unfold eviction_ceiling in *; simpl.
  destruct (st_draining s); lia.
Qed.
#[export] Hint Resolve release_all_framed : frame_gate.

Lemma generation_changed_framed (g a : N) l : framed (generation_changed g a l).
Proof. unfold generation_changed. frame_auto. Qed.
#[export] Hint Resolve generation_changed_framed : frame.

Lemma swap_cell_framed b (id : string) : framed (swap_cell b id).
Proof. unfold swap_cell. frame_auto. Qed.
#[export] Hint Resolve swap_cell_framed : frame.

Lemma pump_swap_framed : framed pump_swap.
Proof. unfold pump_swap. frame_auto. Qed.
#[export] Hint Resolve pump_swap_framed : frame.


(** ** Machine *)

Lemma websocket_opened_framed (id : string) (w : N) k : framed (websocket_opened id w k).
Proof. unfold websocket_opened. frame_auto. Qed.
#[export] Hint Resolve websocket_opened_framed : frame.

Lemma websocket_closed_framed (id : string) (w : N) : framed (websocket_closed id w).
Proof. unfold websocket_closed. frame_auto. Qed.
#[export] Hint Resolve websocket_closed_framed : frame.

Lemma invalidate_remote_framed (id node : string) (e : N) : framed (invalidate_remote id node e).
Proof. unfold invalidate_remote. frame_auto. Qed.
#[export] Hint Resolve invalidate_remote_framed : frame.

Lemma arm_operation_deadlines_framed l : framed (arm_operation_deadlines l).
Proof. unfold arm_operation_deadlines. frame_auto. Qed.
#[export] Hint Resolve arm_operation_deadlines_framed : frame.

Lemma expire_operation_framed (op n : N) : framed_gate (expire_operation op n).
Proof. unfold expire_operation. frame_auto. Qed.
#[export] Hint Resolve expire_operation_framed : frame_gate.

Lemma renew_lease_framed h (n m : N) : framed_core (renew_lease h n m).
Proof. unfold renew_lease. frame_auto. Qed.
#[export] Hint Resolve renew_lease_framed : frame_core.

Lemma lease_timer_framed b (g n m : N) : framed_core (lease_timer b g n m).
Proof. unfold lease_timer. frame_auto. Qed.
#[export] Hint Resolve lease_timer_framed : frame_core.

Lemma timer_fired_framed t (n m : N) : framed_core (timer_fired t n m).
Proof. unfold timer_fired. frame_auto. Qed.
#[export] Hint Resolve timer_fired_framed : frame_core.

Lemma nudge_node_lease_framed (n m : N) : framed_core (nudge_node_lease n m).
Proof. unfold nudge_node_lease. frame_auto. Qed.
#[export] Hint Resolve nudge_node_lease_framed : frame_core.

Lemma handle_framed e : framed_core (handle e).
Proof. unfold handle. frame_auto. Qed.
#[export] Hint Resolve handle_framed : frame_core.

Lemma advance_clocks_frame e s0 s : frame_core s0 s → frame_core s0 (advance_clocks e s).
Proof.
  intros H. unfold advance_clocks. destruct (event_mono_ms e), (event_now_ms e); frame_leaf.
Qed.

Lemma transition_framed e : framed_core (transition e).
Proof.
  intros s0 s H. apply (advance_clocks_frame e) in H. unfold transition.
  wp_step. wp_step. frame_step. repeat frame_step.
Qed.
#[export] Hint Resolve transition_framed : frame_core.

Lemma on_event_framed e : framed_core (on_event e).
Proof. unfold on_event. frame_auto. Qed.
#[export] Hint Resolve on_event_framed : frame_core.


Lemma run_framed events : framed_core (run events).
Proof. induction events; simpl; frame_auto. Qed.

(** ** Runs *)

(** Every state a run reaches has its permits under their ceilings, the node
    and configuration it was built with, and keeps what is sticky. *)
Lemma run_frame events s s' es :
  run events s = Done tt s' es → frame_core s s'.
Proof.
  intros H. pose proof (run_framed events s s (frame_core_refl s)) as Hw.
  unfold wp in Hw. rewrite H in Hw. by destruct Hw.
Qed.

Lemma reachable_frame ok s0 s : reachable ok s0 s → frame_core s0 s.
Proof.
  intros Hr. induction Hr as [|s e s' es _ IH _ E]; [apply frame_core_refl|].
  eapply frame_core_trans; [done|].
  by destruct (wp_done _ _ _ _ _ _ _ _ (on_event_framed e s s (frame_core_refl s)) E).
Qed.

(** C35: In every state the node reaches, whatever the events, the activation
    and eviction permits in use are within their ceilings, the name and the
    configuration are those it was built with, and neither clock is behind
    what any earlier state of the same run had. *)
Theorem run_ceilings ok node config s :
  reachable ok (new node config) s →
  permits_ok s ∧ st_node s = node ∧ st_config s = config
  ∧ ∀ s', reachable ok s s' →
      st_now_ms s ≤ st_now_ms s' ∧ st_now_mono_ms s ≤ st_now_mono_ms s'
      ∧ st_next_op s ≤ st_next_op s' ∧ (st_fenced s = true → st_fenced s' = true).
Proof.
  intros Hr. destruct (reachable_frame _ _ _ Hr) as [Hn Hc _ _ _ _ _ _ Hp].
  destruct Hp as [Ha He].
  { split; apply N.le_0_l. }
  split_and!; try done.
  intros s' Hr'. by destruct (reachable_frame _ _ _ Hr').
Qed.

Lemma run_ceilings_witness :
  N.of_nat (size (st_activation_permits (after (take 1 activation_script)))) ≤ 2.
Proof.
  apply (run_ceilings (λ _ _, True) "a" sample_config (after (take 1 activation_script))).
  apply after_reachable; [vm_compute; reflexivity|]. intros s. by apply Forall_true.
Defined.
