(* ===== verification/Occupancy.v ===== *)
(** * The residency counter and the absence of panics

    [State] keeps a counter of the cells that occupy capacity instead of
    walking the table.  This file shows that the counter is exact and never
    above the configured ceiling after any event, and that no handler reaches
    one of the code's [expect], [unreachable] or underflow panics: the
    invariant is carried through every operation with panics excluded, cells
    held outside the table included. *)

From S2P Require Import Prelude Effects Pressure LogTier Wake Types CoreState CoreOps.
From S2P Require Import Activation Alarms OutputGate NodeLease Ingress Resolution Shedding.
From S2P Require Import Lifecycle Handoff Machine Samples Validate Frame.

(** ** The invariant *)

(** What a cell in this phase adds to the counter. *)
Definition owed (p : Phase) : N := if phase_occupies_capacity p then 1 else 0.

(** No cell waits on the stop of a fence: [fence] does not track its stops. *)
Definition sound_phase (p : Phase) : Prop :=
  match p with PhCleaning _ _ StopFence => False | _ => True end.

(** The invariant while cells worth [k] are held outside the table. *)
Definition inv_at (k : N) (s : State) : Prop :=
  st_occupied s = occupied_walk (st_cells s) + k
  ∧ st_occupied s ≤ max_resident (st_config s)
  ∧ map_Forall (λ _ n, 0 < n) (st_active_cells s)
  ∧ map_Forall (λ _ n, 0 < n) (st_admitted_gate_cells s)
  ∧ map_Forall (λ _ cell, sound_phase (c_phase cell)) (st_cells s)
  ∧ map_Forall (λ op _, op < st_next_op s) (st_barriers s).

Definition base (D : gset string) (k : N) (s : State) : Prop :=
  dom (st_cells s) = D ∧ inv_at k s.

(** A cell taken out of the table and the state it was taken from. *)
Definition hpost (D : gset string) (k : N) (cell : Cell) (s : State) : Prop :=
  sound_phase (c_phase cell) ∧ base D (k + owed (c_phase cell)) s.

(** The part of the state the invariant reads. *)
Definition view (s : State) :=
  (st_cells s, st_occupied s, st_config s, st_active_cells s, st_admitted_gate_cells s,
   st_barriers s, st_next_op s).

(** An operation on the table, and one on a cell outside it. *)
Definition keeps {A} (c : dec A) : Prop :=
  ∀ D k s, base D k s → wp False (λ _, True) c (λ _, base D k) s.

Definition hkeeps (id : string) (cell : Cell) (c : dec Cell) : Prop :=
  ∀ D k s, id ∉ D → hpost D k cell s → wp False (λ _, True) c (hpost D k) s.

Definition hkeeps2 {B} (id : string) (cell : Cell) (c : dec (Cell * B)) : Prop :=
  ∀ D k s, id ∉ D → hpost D k cell s → wp False (λ _, True) c (λ r, hpost D k r.1) s.

(** A handler: the invariant with every cell in the table. *)
Definition stable {A} (c : dec A) : Prop :=
  ∀ s, inv_at 0 s → wp False (λ _, True) c (λ _, inv_at 0) s.

(** ** The counter under updates of the table *)

Lemma occupied_walk_insert (m : gmap string Cell) id cell :
  m !! id = None → occupied_walk (<[id := cell]> m) = occupied_walk m + owed (c_phase cell).
Proof.
  intros H. unfold occupied_walk, owed. destruct (phase_occupies_capacity (c_phase cell)) eqn:E.
  - rewrite map_filter_insert_True by (simpl; by rewrite E). rewrite map_size_insert_None; [lia|].
    apply map_lookup_filter_None. by left.
  - rewrite map_filter_insert_False by (simpl; rewrite E; by intros []). rewrite delete_id by done. lia.
Qed.

Lemma occupied_walk_delete (m : gmap string Cell) id cell :
  m !! id = Some cell → occupied_walk m = occupied_walk (delete id m) + owed (c_phase cell).
Proof.
  intros H. rewrite <- (insert_delete_id m id cell H) at 1.
  apply occupied_walk_insert. apply lookup_delete_eq.
Qed.

Lemma occupied_walk_replace (m : gmap string Cell) id old cell :
  m !! id = Some old →
  occupied_walk (<[id := cell]> m) + owed (c_phase old) = occupied_walk m + owed (c_phase cell).
Proof.
  intros H. rewrite (occupied_walk_delete m id old H).
  rewrite <- insert_delete_eq, occupied_walk_insert by apply lookup_delete_eq. lia.
Qed.

Lemma base_ext D k s s' : base D k s → view s' = view s → base D k s'.
Proof.
  intros (HD & Ho & Hm & Ha & Hg & Hp & Hf) [= E1 E2 E3 E4 E5 E6 E7]. unfold base, inv_at.
  rewrite E1, E2, E3, E4, E5, E6, E7. auto 10.
Qed.

Lemma hpost_ext D k cell cell' s s' :
  hpost D k cell s → c_phase cell' = c_phase cell → view s' = view s → hpost D k cell' s'.
Proof. unfold hpost. intros [? ?] -> Hv. split; [done|by eapply base_ext]. Qed.

Lemma base_inv D k s : base D k s → inv_at k s.
Proof. by intros [_ ?]. Qed.

Lemma base_dom D k s id : base D k s → is_Some (st_cells s !! id) ↔ id ∈ D.
Proof. intros [<- _]. by rewrite elem_of_dom. Qed.

Lemma base_sound D k s id cell :
  base D k s → st_cells s !! id = Some cell → sound_phase (c_phase cell).
Proof. intros (_ & _ & _ & _ & _ & H & _) E. exact (H id cell E). Qed.

(** A cell leaves the table, or was not there. *)
Lemma base_remove D k s id cell :
  base D k s → st_cells s !! id = Some cell →
  hpost (D ∖ {[id]}) k cell (set_st_cells (delete id (st_cells s)) s).
Proof.
  intros Hb E. split; [by eapply base_sound|].
  destruct Hb as (HD & Ho & Hm & Ha & Hg & Hp & Hf). split; simpl.
  - rewrite dom_delete_L. by subst.
  - repeat split; simpl; try done.
    + rewrite Ho, (occupied_walk_delete _ id cell E). lia.
    + by apply map_Forall_delete.
Qed.

Lemma base_remove_none D k s id :
  base D k s → st_cells s !! id = None →
  base D k (set_st_cells (delete id (st_cells s)) s) ∧ id ∉ D.
Proof.
  intros Hb E. rewrite delete_id by done. split; [exact Hb|].
  intros [? ?]%(base_dom _ _ _ _ Hb). congruence.
Qed.

(** A cell enters the table. *)
Lemma base_create D k s id cell :
  id ∉ D → hpost D k cell s →
  base ({[id]} ∪ D) k (set_st_cells (<[id := cell]> (st_cells s)) s).
Proof.
  intros Hid (Hs & HD & Ho & Hm & Ha & Hg & Hp & Hf).
  assert (E : st_cells s !! id = None) by (apply not_elem_of_dom; by rewrite HD).
  split; simpl; [by rewrite dom_insert_L, HD|]. repeat split; simpl; try done.
  - rewrite Ho, occupied_walk_insert by done. lia.
  - by apply map_Forall_insert_2.
Qed.

Lemma base_restore D k s id cell :
  id ∈ D → hpost (D ∖ {[id]}) k cell s →
  base D k (set_st_cells (<[id := cell]> (st_cells s)) s).
Proof.
  intros Hid H. replace D with ({[id]} ∪ D ∖ {[id]}) by (symmetry; by apply union_difference_singleton_L).
  apply base_create; [set_solver|done].
Qed.

(** A cell changes in the table. *)
Lemma base_replace D k s id old cell :
  base D k s → st_cells s !! id = Some old → c_phase cell = c_phase old →
  base D k (set_st_cells (<[id := cell]> (st_cells s)) s).
Proof.
  intros Hb E Hp. assert (Hid : id ∈ D) by (rewrite <- (base_dom _ _ _ _ Hb); eauto).
  pose proof (base_remove _ _ _ _ _ Hb E) as [H1 H2].
  assert (H : hpost (D ∖ {[id]}) k cell (set_st_cells (delete id (st_cells s)) s)).
  { unfold hpost. rewrite Hp. done. }
  apply (base_restore _ _ _ id cell Hid) in H. simpl in H. by rewrite insert_delete_eq in H.
Qed.

Lemma base_alter D k s id f :
  base D k s → (∀ cell, c_phase (f cell) = c_phase cell) →
  base D k (set_st_cells (alter f id (st_cells s)) s).
Proof.
  intros Hb Hf. destruct (st_cells s !! id) as [old|] eqn:E.
  - rewrite (alter_Some _ _ _ _ E). by eapply base_replace.
  - by rewrite alter_id'.
Qed.

(** ** Rules and automation *)

Create HintDb occ.

Lemma keeps_elim {A} (c : dec A) D k s :
  keeps c → base D k s → wp False (λ _, True) c (λ _, base D k) s.
Proof. auto. Qed.

Lemma keeps_stable {A} (c : dec A) : keeps c → stable c.
Proof.
  intros Hc s Hs. eapply wp_mono; [by apply (Hc (dom (st_cells s)) 0)|]. by intros ? ? [_ ?].
Qed.

Lemma hpost_keeps {A} (c : dec A) D k cell s :
  keeps c → hpost D k cell s → wp False (λ _, True) c (λ _, hpost D k cell) s.
Proof.
  intros Hc [Hp Hb]. eapply wp_mono; [by apply Hc|]. intros a s' Hb'. by split.
Qed.

Lemma hkeeps_elim id cell (c : dec Cell) D k s :
  hkeeps id cell c → id ∉ D → hpost D k cell s → wp False (λ _, True) c (hpost D k) s.
Proof. auto. Qed.

Lemma hkeeps2_elim {B} id cell (c : dec (Cell * B)) D k s :
  hkeeps2 id cell c → id ∉ D → hpost D k cell s →
  wp False (λ _, True) c (λ r, hpost D k r.1) s.
Proof. auto. Qed.

(** A cell outside the table enters a phase: the counter follows, and rises
    only where there is room. *)
Lemma wp_set_phase D k cell p s (Q : Cell → State → Prop) :
  hpost D k cell s → sound_phase p →
  (owed p ≤ owed (c_phase cell) ∨ st_occupied s < max_resident (st_config s)) →
  (∀ s', hpost D k (enter_phase cell p) s' →
     (st_config s', st_shedding s', st_handoff_requests s', st_cells s') =
       (st_config s, st_shedding s, st_handoff_requests s, st_cells s) →
     Q (enter_phase cell p) s') →
  wp False (λ _, True) (set_phase cell p) Q s.
Proof.
  intros (Hs & HD & Ho & Hm & Ha & Hg & Hp & Hf) Hsp Hr HQ.
  assert (c_phase (enter_phase cell p) = p) as Hpe by reflexivity.
  unfold set_phase, owed in *.
  destruct (phase_occupies_capacity (c_phase cell)) eqn:E1,
    (phase_occupies_capacity p) eqn:E2; wp_steps;
  try (apply checked_sub_Some in Heqo);
  try (apply checked_sub_None in Heqo);
  try (apply HQ; [|reflexivity]; split; [exact Hsp|]; split; [exact HD|];
       unfold owed; rewrite Hpe, E2; repeat split; simpl; auto; lia).
  lia.
Qed.

Lemma wp_cell_remove D k id s (Q : option Cell → State → Prop) :
  base D k s →
  (st_cells s !! id = None → id ∉ D →
   base D k (set_st_cells (delete id (st_cells s)) s) →
   Q None (set_st_cells (delete id (st_cells s)) s)) →
  (∀ cell, st_cells s !! id = Some cell → id ∈ D → id ∉ D ∖ {[id]} →
   hpost (D ∖ {[id]}) k cell (set_st_cells (delete id (st_cells s)) s) →
   Q (Some cell) (set_st_cells (delete id (st_cells s)) s)) →
  wp False (λ _, True) (cell_remove id) Q s.
Proof.
  intros Hb HN HS. unfold cell_remove, cell_get. wp_steps.
  destruct (st_cells s !! id) as [cell|] eqn:E.
  - apply HS; [done| |set_solver|by apply base_remove].
    rewrite <- (base_dom _ _ _ _ Hb). eauto.
  - destruct (base_remove_none _ _ _ _ Hb E). by apply HN.
Qed.

(** A cell in the table enters a phase. *)
Lemma base_enter D k s id old cell n :
  base D k s → st_cells s !! id = Some old → sound_phase (c_phase cell) →
  n + owed (c_phase old) = st_occupied s + owed (c_phase cell) →
  n ≤ max_resident (st_config s) →
  base D k (set_st_cells (<[id := cell]> (st_cells s)) (set_st_occupied n s)).
Proof.
  intros (HD & Ho & Hm & Ha & Hg & Hp & Hf) E Hsp Hn Hle. split; simpl.
  - rewrite dom_insert_lookup_L by eauto. done.
  - pose proof (occupied_walk_replace (st_cells s) id old cell E).
    repeat split; simpl; try done; [lia|by apply map_Forall_insert_2].
Qed.

Lemma wp_set_phase_in D k id cell old p s (Q : Cell → State → Prop) :
  base D k s → st_cells s !! id = Some old → c_phase cell = c_phase old → sound_phase p →
  (owed p ≤ owed (c_phase old) ∨ st_occupied s < max_resident (st_config s)) →
  (∀ n, let s' := set_st_cells (<[id := enter_phase cell p]> (st_cells s)) (set_st_occupied n s) in
     base D k s' → Q (enter_phase cell p) s') →
  wp False (λ _, True) (set_phase_in id cell p) Q s.
Proof.
  intros Hb E Hc Hsp Hr HQ. unfold set_phase_in, set_phase, cell_insert. rewrite Hc.
  assert (Hm : st_occupied s ≤ max_resident (st_config s)) by apply Hb.
  assert (Hge : owed (c_phase old) ≤ st_occupied s).
  { destruct Hb as (_ & Ho & _). rewrite Ho, (occupied_walk_delete _ _ _ E). lia. }
  pose proof (λ n, base_enter D k s id old (enter_phase cell p) n Hb E Hsp) as Hn.
  change (c_phase (enter_phase cell p)) with p in Hn. unfold owed in *.
  destruct (phase_occupies_capacity (c_phase old)), (phase_occupies_capacity p); wp_steps;
    try (apply checked_sub_Some in Heqo);
    try (apply checked_sub_None in Heqo);
    try (apply (HQ (st_occupied s)), Hn; lia); try (apply HQ, Hn; lia).
  lia.
Qed.

(** A fresh operation id is above every barrier's. *)
Lemma wp_op D k s (Q : N → State → Prop) :
  base D k s →
  (∀ n, base D k (set_st_next_op n s) → st_next_op s < n → Q (st_next_op s) (set_st_next_op n s)) →
  wp False (λ _, True) op Q s.
Proof.
  intros (HD & Ho & Hm & Ha & Hg & Hp & Hf) HQ. unfold op. wp_steps.
  apply checked_add_Some in Heqo as [-> _]. apply HQ; [|lia].
  split; [done|]. repeat split; simpl; try done.
  eapply map_Forall_impl; [done|]. simpl. lia.
Qed.

Lemma wp_op_held D k cell s (Q : N → State → Prop) :
  hpost D k cell s →
  (∀ n, hpost D k cell (set_st_next_op n s) → st_next_op s < n →
     Q (st_next_op s) (set_st_next_op n s)) →
  wp False (λ _, True) op Q s.
Proof.
  intros [Hs Hb] HQ. eapply wp_op; [done|]. intros n Hn ?. apply HQ; [by split|done].
Qed.

Lemma wp_expect {A} (a : A) (Q : A → State → Prop) s :
  Q a s → wp False (λ _, True) (expect (Some a)) Q s.
Proof. intros ?. by apply wp_ret. Qed.

(** An update of the table whose result is known to be consistent. *)
Lemma wp_modify_base D k f s (Q : unit → State → Prop) :
  base D k (f s) → (base D k (f s) → Q tt (f s)) →
  wp False (λ _ : Effect, True) (modify f) Q s.
Proof. intros H HQ. apply wp_modify. by apply HQ. Qed.

(** The leaves: the same facts about a state that changed elsewhere. *)
Ltac occ_phase := simpl; first [reflexivity|repeat case_match; reflexivity].

Ltac occ_hold :=
  cbv beta;
  match goal with
  | H : base _ _ ?s |- base _ _ ?s => exact H
  | H : hpost _ _ _ ?s |- hpost _ _ ?c ?s => is_evar c; exact H
  | H : hpost _ _ _ ?s |- hpost _ _ _ ?s =>
      apply (hpost_ext _ _ _ _ _ _ H); [occ_phase|reflexivity]
  | H : base _ _ _ |- base _ _ _ =>
      apply (base_ext _ _ _ _ H); unfold view; simpl; reflexivity
  | H : hpost _ _ _ _ |- hpost _ _ _ _ =>
      apply (hpost_ext _ _ _ _ _ _ H); [occ_phase|unfold view; simpl; reflexivity]
  | H : inv_at _ ?s |- inv_at _ ?s => exact H
  | H : base ?D ?k _ |- inv_at ?k _ =>
      apply (base_inv D k), (base_ext _ _ _ _ H); unfold view; simpl; reflexivity
  end.

Ltac occ_sound :=
  first [done
        |unfold undemanded_start, undemanded_phase, confirmed_phase; repeat case_match; done].

Ltac occ_room :=
  first [right; assumption
        |left; unfold owed; simpl;
         repeat match goal with
           | E : c_phase _ = _ |- _ => rewrite E; simpl
           | E : phase_occupies_capacity (c_phase _) = true |- _ => rewrite E
           end; solve [lia|done]
        |left; unfold owed, undemanded_start, undemanded_phase, confirmed_phase;
         repeat case_match; simpl in *; (done || lia)].

Ltac occ_lookup := simpl; first [eassumption|apply lookup_insert_eq].

Ltac occ_insert :=
  match goal with
  | H : hpost (?D ∖ {[?id]}) ?k _ _, Hi : ?id ∈ ?D |- wp _ _ (cell_insert ?id _) _ _ =>
      eapply (wp_modify_base D k); [apply base_restore; [exact Hi|occ_hold]|cbv beta; intros]
  | H : base ?D ?k _ |- wp _ _ (cell_insert ?id _) _ _ =>
      eapply (wp_modify_base D k);
      [eapply base_replace; [occ_hold|occ_lookup|simpl; congruence]|cbv beta; intros]
  | H : hpost ?D ?k _ _, Hi : ?id ∉ ?D |- wp _ _ (cell_insert ?id _) _ _ =>
      eapply (wp_modify_base ({[id]} ∪ D) k);
      [apply base_create; [exact Hi|occ_hold]|cbv beta; intros]
  end.

Ltac occ_leaf := cbv beta; first [occ_hold|done].

(** A branch the guard of the handler excludes. *)
Ltac occ_absurd :=
  exfalso;
  first
    [contradiction
    |simpl in *;
     match goal with
     | E : st_cells ?s !! ?id = _, B : context [st_cells ?s !! ?id] |- _ =>
         assert_fails (constr_eq E B); rewrite E in B; simpl in B;
         first [discriminate B
               |match goal with Ep : c_phase _ = _ |- _ => rewrite Ep in B; discriminate B end]
     end].

Ltac occ_call :=
  first
    [eapply wp_mono; [eapply hkeeps_elim; [solve [eauto with occ nocore]|eassumption|occ_hold]
                     |cbv beta; intros]
    |eapply wp_mono; [eapply hkeeps2_elim; [solve [eauto with occ nocore]|eassumption|occ_hold]
                     |cbv beta; intros [? ?] ? ?; simpl in *]
    |eapply wp_mono; [eapply hpost_keeps; [solve [auto with occ nocore]|occ_hold]
                     |cbv beta; intros]
    |eapply wp_mono; [eapply keeps_elim; [solve [auto with occ nocore]|occ_hold]
                     |cbv beta; intros]].

Ltac occ_step :=
  first
    [wp_step
    |exact I
    |lazymatch goal with
     | |- wp _ _ (set_phase _ _) _ _ =>
         eapply wp_set_phase; [occ_hold|occ_sound|occ_room|intros ? ? ?]
     | |- wp _ _ (set_phase_in _ _ _) _ _ =>
         eapply wp_set_phase_in;
         [occ_hold|occ_lookup|simpl; congruence|occ_sound|occ_room|cbv zeta; intros]
     | |- wp _ _ (cell_remove _) _ _ =>
         eapply wp_cell_remove; [occ_hold|intros|intros]
     | H : hpost ?D ?k _ _ |- wp _ _ (fold_each _ _ _) _ _ =>
         apply (wp_fold_each (hpost D k)); [occ_hold|intros|intros]
     | H : hpost ?D ?k ?c _ |- wp _ _ (for_each _ _) _ _ =>
         apply (wp_for_each (hpost D k c)); [occ_hold|intros|intros]
     | H : base ?D ?k _ |- wp _ _ (for_each _ _) _ _ =>
         apply (wp_for_each (base D k)); [occ_hold|intros|intros]
     | |- wp _ _ op _ _ =>
         first [eapply wp_op_held; [occ_hold|intros]|eapply wp_op; [occ_hold|intros]]
     | |- wp _ _ (cell_op _) _ _ => unfold cell_op
     | |- wp _ _ (forget_cell_op _) _ _ => unfold forget_cell_op
     | |- wp _ _ (take_cell_op _ _) _ _ => unfold take_cell_op
     | |- wp _ _ timer_generation _ _ => unfold timer_generation
     | |- wp _ _ (cell_insert _ _) _ _ => occ_insert
     | H : base ?D ?k _ |- wp _ _ (cell_update _ _) _ _ =>
         eapply (wp_modify_base D k); [apply base_alter; [occ_hold|done]|cbv beta; intros]
     | |- wp _ _ (cell_get _) _ _ => unfold cell_get
     | |- wp _ _ (expect (Some _)) _ _ => apply wp_expect
     | |- wp _ _ (expect None) _ _ => occ_absurd
     | |- wp _ _ (expect ?o) _ _ => let E := fresh "Ex" in destruct o eqn:E; simpl in E
     | |- False => occ_absurd
     | |- wp _ _ _ _ _ => occ_call
     end
    |occ_leaf].

Ltac occ_auto := cbv beta; intros; repeat occ_step.

(** Only the newest fact about the state is current. *)
Ltac occ_is_fact T := lazymatch T with hpost _ _ _ _ => idtac | base _ _ _ => idtac end.

Ltac occ_forget :=
  match goal with
  | H : ?T |- _ =>
      occ_is_fact T;
      repeat match goal with
        | H' : ?T' |- _ => occ_is_fact T'; assert_fails (constr_eq H H'); clear H'
        end
  end.

(** Where the branches of the source meet again, so do the cases. *)
Ltac occ_meet Q := apply wp_bind; eapply (wp_mono _ Q); [|cbv beta; intros; occ_forget].

Ltac occ_join_step :=
  lazymatch goal with
  | |- wp _ _ (mbind _ ?m) _ _ =>
      lazymatch m with
      | match _ with _ => _ end => idtac
      | with_some _ _ => idtac
      | when _ _ => idtac
      end;
      match goal with
      | H : ?T |- _ =>
          lazymatch T with
          | hpost ?D ?k ?c _ =>
              lazymatch type of m with
              | M _ _ Cell => occ_meet (hpost D k)
              | M _ _ (Cell * _)%type => occ_meet (λ r : Cell * _, hpost D k r.1)
              | _ => occ_meet (λ (_ : unit), hpost D k c)
              end
          | base ?D ?k _ => occ_meet (λ (_ : unit), base D k)
          end
      end
  end.

Ltac occ_join := cbv beta; intros; repeat first [occ_join_step|occ_step].

(** ** Shared operations *)

Lemma activate_request_keeps r id : keeps (activate_request r id).
Proof.
  unfold activate_request. intros D k s (HD & Ho & Hm & Ha & Hg & Hp & Hf). wp_steps.
  split; [done|]. repeat split; try done. apply map_Forall_insert_2; [lia|done].
Qed.
#[export] Hint Resolve activate_request_keeps : occ.

Lemma decrement_count_positive (m : gmap string N) id :
  map_Forall (λ _ n, 0 < n) m →
  ∃ m', decrement_count m id = Some m' ∧ map_Forall (λ _ n, 0 < n) m'.
Proof.
  intros Hm. unfold decrement_count. destruct (m !! id) as [n|] eqn:E; [|by eauto].
  destruct (checked_sub n 1) as [[|c]|] eqn:Es.
  - eexists; split; [done|]. by apply map_Forall_delete.
  - eexists; split; [done|]. apply map_Forall_insert_2; [lia|done].
  - apply checked_sub_None in Es. specialize (Hm id n E). simpl in Hm. lia.
Qed.

Lemma deactivate_request_keeps r : keeps (deactivate_request r).
Proof.
  unfold deactivate_request. intros D k s Hb.
  pose proof Hb as (HD & Ho & Hm & Ha & Hg & Hp & Hf).
  wp_step. wp_step. cbv beta. destruct (st_active_requests s !! r) as [id|]; [|occ_auto].
  destruct (decrement_count_positive _ id Ha) as (m & -> & Hpm).
  destruct (decrement_count_positive _ id Hg) as (g & -> & Hpg).
  unfold expect. wp_steps; (split; [done|]); repeat split; done.
Qed.
#[export] Hint Resolve deactivate_request_keeps : occ.

Lemma record_local_request_phase cell r now s (Q : Cell → State → Prop) :
  (∀ cell', c_phase cell' = c_phase cell → c_requests cell' = c_requests cell → Q cell' s) →
  wp False (λ _, True) (record_local_request cell r now) Q s.
Proof. intros HQ. unfold record_local_request. wp_steps. by apply HQ. Qed.

Lemma hpost_phase D k cell cell' s :
  hpost D k cell s → c_phase cell' = c_phase cell → hpost D k cell' s.
Proof. unfold hpost. by intros H ->. Qed.

Lemma record_local_request_hkeeps id cell r now : hkeeps id cell (record_local_request cell r now).
Proof.
  intros D k s Hid H. apply record_local_request_phase. intros. by eapply hpost_phase.
Qed.
#[export] Hint Resolve record_local_request_hkeeps : occ.

Lemma modify_activity_keeps f : keeps (modify_activity f).
Proof. unfold modify_activity. intros D k s Hb. occ_auto. Qed.
#[export] Hint Resolve modify_activity_keeps : occ.

Lemma complete_request_keeps id r res : keeps (complete_request id r res).
Proof.
  unfold complete_request. intros D k s Hb. occ_auto.
  apply record_local_request_phase. intros. occ_auto.
Qed.
#[export] Hint Resolve complete_request_keeps : occ.

Lemma remove_request_cell_keeps r : keeps (remove_request_cell r).
Proof. unfold remove_request_cell. intros D k s Hb. occ_auto. Qed.
#[export] Hint Resolve remove_request_cell_keeps : occ.

Lemma phase_occupies_at cell p :
  c_phase cell = p → phase_occupies_capacity p = true →
  phase_occupies_capacity (c_phase cell) = true.
Proof. by intros ->. Qed.

Lemma is_ensuring_occupies p : is_ensuring p = true → phase_occupies_capacity p = true.
Proof. by destruct p. Qed.
#[export] Hint Resolve is_ensuring_occupies : occ.

#[export] Hint Extern 1 (phase_occupies_capacity (c_phase _) = true) =>
  (simpl; eapply phase_occupies_at; [eassumption|reflexivity]) : occ.

Lemma finish_requests_hkeeps id (cell : Cell) res : hkeeps id cell (finish_requests id cell res).
Proof. unfold finish_requests. intros D k s Hid H. occ_auto. Qed.
#[export] Hint Resolve finish_requests_hkeeps : occ.

Lemma next_writer_epoch_hkeeps id (cell : Cell) (p : N) : hkeeps2 id cell (next_writer_epoch id cell p).
Proof. unfold next_writer_epoch. intros D k s Hid H. occ_auto. Qed.
#[export] Hint Resolve next_writer_epoch_hkeeps : occ.

Lemma record_acquisition_keeps spec : keeps (record_acquisition spec).
Proof. unfold record_acquisition. intros D k s Hb. occ_auto. Qed.
#[export] Hint Resolve record_acquisition_keeps : occ.

Lemma finish_eviction_keeps (op : N) res : keeps (finish_eviction op res).
Proof. unfold finish_eviction. intros D k s Hb. occ_auto. Qed.
#[export] Hint Resolve finish_eviction_keeps : occ.

Lemma return_eviction_permit_keeps id : keeps (return_eviction_permit id).
Proof. unfold return_eviction_permit. intros D k s Hb. occ_auto. Qed.
#[export] Hint Resolve return_eviction_permit_keeps : occ.

Lemma cancel_eviction_hkeeps id (cell : Cell) (e : N) reason : phase_occupies_capacity (c_phase cell) = true → hkeeps id cell (cancel_eviction id cell e reason).
Proof.
  intros Ho D k s Hid H. unfold cancel_eviction. occ_auto.
Qed.
#[export] Hint Resolve cancel_eviction_hkeeps : occ.

Lemma begin_eviction_keeps id b : keeps (begin_eviction id b).
Proof. unfold begin_eviction. intros D k s Hb. occ_auto. Qed.
#[export] Hint Resolve begin_eviction_keeps : occ.

Lemma shed_one_keeps : keeps shed_one.
Proof. unfold shed_one. intros D k s Hb. occ_auto. Qed.
#[export] Hint Resolve shed_one_keeps : occ.

Lemma worker_request_keeps (r : N) : keeps (worker_request r).
Proof. unfold worker_request. intros D k s Hb. occ_auto. Qed.
#[export] Hint Resolve worker_request_keeps : occ.

Lemma watch_queued_hkeeps id (cell : Cell) : hkeeps id cell (watch_queued id cell).
Proof. unfold watch_queued. intros D k s Hid H. occ_auto. Qed.
#[export] Hint Resolve watch_queued_hkeeps : occ.

Lemma settle_confirmation_keeps id : keeps (settle_confirmation id).
Proof. unfold settle_confirmation. intros D k s Hb. occ_auto. Qed.
#[export] Hint Resolve settle_confirmation_keeps : occ.

Lemma settle_local_resume_keeps id : keeps (settle_local_resume id).
Proof. unfold settle_local_resume. intros D k s Hb. occ_auto. Qed.
#[export] Hint Resolve settle_local_resume_keeps : occ.

Lemma refuse_new_ownership_during_drain_hkeeps id (cell : Cell) prior : hkeeps2 id cell (refuse_new_ownership_during_drain id cell prior).
Proof. unfold refuse_new_ownership_during_drain. intros D k s Hid H. occ_auto. Qed.
#[export] Hint Resolve refuse_new_ownership_during_drain_hkeeps : occ.

(** ** Admission *)

Lemma wp_refuse_claim D k id cell act s (Q : Cell * bool → State → Prop) :
  id ∉ D → hpost D k cell s →
  (∀ cell' s', hpost D k cell' s' → Q (cell', true) s') → Q (cell, false) s →
  wp False (λ _, True) (refuse_claim id cell act) Q s.
Proof.
  intros Hid H HT HF. unfold refuse_claim, refuse_new_ownership_during_drain.
  occ_auto; first [done|by apply HT].
Qed.

Lemma has_capacity_room s : has_capacity s = true → st_occupied s < max_resident (st_config s).
Proof. unfold has_capacity, occupied_below. intros [H%N.ltb_lt _]%andb_prop. done. Qed.

(** An activation starts under the ceiling, or as a handoff without residency. *)
Lemma begin_activation_held D k id cell act s :
  id ∉ D → hpost D k cell s →
  (st_occupied s < max_resident (st_config s)
   ∨ ∃ claim, act = ActClaim claim ∧ handoff_only s cell = true) →
  wp False (λ _, True) (begin_activation id cell act) (hpost D k) s.
Proof.
  intros Hid H Hroom. unfold begin_activation. wp_step.
  eapply wp_refuse_claim; [done..|intros; occ_auto|]. cbv beta iota.
  do 3 wp_step. unfold cell_op. wp_step. eapply wp_op_held; [occ_hold|]. intros n Hn _.
  wp_steps; (eapply wp_set_phase; [occ_hold|done| |intros; occ_auto]); simpl.
  - destruct Hroom as [?|(claim' & [= ->] & ->)]; [by right|left; unfold owed; simpl; lia].
  - destruct Hroom as [?|(claim' & [=] & _)]. by right.
Qed.

Lemma activate_or_wait_hkeeps id cell act full : hkeeps id cell (activate_or_wait id cell act full).
Proof.
  intros D k s Hid H. unfold activate_or_wait. wp_step.
  eapply wp_refuse_claim; [done..|intros; occ_auto|]. cbv beta iota.
  wp_step. wp_step. cbv beta. destruct (_ && _).
  { destruct act; occ_auto. }
  destruct (has_capacity s) eqn:Hc.
  { apply begin_activation_held; [done..|]. left. by apply has_capacity_room. }
  occ_auto.
Qed.
#[export] Hint Resolve activate_or_wait_hkeeps : occ.

Lemma begin_cold_route_hkeeps id cell start : hkeeps id cell (begin_cold_route id cell start).
Proof. intros D k s Hid H. unfold begin_cold_route. occ_auto. Qed.
#[export] Hint Resolve begin_cold_route_hkeeps : occ.

Lemma admit_or_queue_activation_hkeeps id cell start :
  hkeeps id cell (admit_or_queue_activation id cell start).
Proof. intros D k s Hid H. unfold admit_or_queue_activation. occ_auto. Qed.
#[export] Hint Resolve admit_or_queue_activation_hkeeps : occ.

(** ** The two queues

    Every turn of a pump takes the head of its queue, and what it starts does
    not put a cell back, so the length of the queue bounds the loop. *)

Definition preserves {X A} (f : State → X) (c : dec A) : Prop :=
  ∀ s x, f s = x → wp True (λ _, True) c (λ _ s', f s' = x) s.

Definition queues (s : State) : list string * list string :=
  (st_activation_waiters s, st_capacity_waiters s).

Create HintDb queue.

Lemma preserves_elim {X A} (f : State → X) (c : dec A) s x :
  preserves f c → f s = x → wp True (λ _, True) c (λ _ s', f s' = x) s.
Proof. auto. Qed.

Lemma preserves_activation {A} (c : dec A) : preserves queues c → preserves st_activation_waiters c.
Proof.
  intros Hc s x <-. eapply wp_mono; [by apply Hc|]. by intros ? ? [= ? ?].
Qed.

Lemma preserves_capacity {A} (c : dec A) : preserves queues c → preserves st_capacity_waiters c.
Proof.
  intros Hc s x <-. eapply wp_mono; [by apply Hc|]. by intros ? ? [= ? ?].
Qed.
#[export] Hint Resolve preserves_activation preserves_capacity : queue.

Ltac queue_hold := simpl; unfold queues in *; simpl in *; assumption.

Ltac queue_step :=
  first
    [wp_step
    |exact I
    |match goal with
     | H : ?f _ = ?x |- wp _ _ (fold_each _ _ _) (λ _ _, ?f _ = ?x) _ =>
         apply (wp_fold_each (λ _ s', f s' = x)); [queue_hold|cbv beta; intros|cbv beta; intros]
     | H : ?f _ = ?x |- wp _ _ (for_each _ _) _ _ =>
         apply (wp_for_each (λ s', f s' = x)); [queue_hold|cbv beta; intros|cbv beta; intros]
     | H : ?f _ = ?x |- wp _ _ _ _ _ =>
         eapply wp_mono; [eapply (preserves_elim f _ _ x);
                          [solve [eauto with queue nocore]|queue_hold]|cbv beta; intros]
     end
    |queue_hold].

Ltac queue_auto := intros ? ? ?; repeat queue_step.

Lemma op_queues : preserves queues op.
Proof. unfold op. queue_auto. Qed.
#[export] Hint Resolve op_queues : queue.

Lemma cell_op_queues (id : string) : preserves queues (cell_op id).
Proof. unfold cell_op. queue_auto. Qed.
#[export] Hint Resolve cell_op_queues : queue.

Lemma forget_cell_op_queues (o : N) : preserves queues (forget_cell_op o).
Proof. unfold forget_cell_op. queue_auto. Qed.
#[export] Hint Resolve forget_cell_op_queues : queue.

Lemma timer_generation_queues : preserves queues timer_generation.
Proof. unfold timer_generation. queue_auto. Qed.
#[export] Hint Resolve timer_generation_queues : queue.

Lemma cell_insert_queues id c : preserves queues (cell_insert id c).
Proof. unfold cell_insert. queue_auto. Qed.
#[export] Hint Resolve cell_insert_queues : queue.

Lemma activate_request_queues r id : preserves queues (activate_request r id).
Proof. unfold activate_request. queue_auto. Qed.
#[export] Hint Resolve activate_request_queues : queue.

Lemma record_local_request_queues c r n : preserves queues (record_local_request c r n).
Proof. unfold record_local_request. queue_auto. Qed.
#[export] Hint Resolve record_local_request_queues : queue.

Lemma modify_activity_queues f : preserves queues (modify_activity f).
Proof. unfold modify_activity. queue_auto. Qed.
#[export] Hint Resolve modify_activity_queues : queue.

Lemma complete_request_queues id r res : preserves queues (complete_request id r res).
Proof. unfold complete_request. queue_auto. Qed.
#[export] Hint Resolve complete_request_queues : queue.

Lemma remove_request_cell_queues r : preserves queues (remove_request_cell r).
Proof. unfold remove_request_cell. queue_auto. Qed.
#[export] Hint Resolve remove_request_cell_queues : queue.

Lemma set_phase_queues c p : preserves queues (set_phase c p).
Proof. unfold set_phase. queue_auto. Qed.
#[export] Hint Resolve set_phase_queues : queue.

Lemma set_phase_in_queues id c p : preserves queues (set_phase_in id c p).
Proof. unfold set_phase_in. queue_auto. Qed.
#[export] Hint Resolve set_phase_in_queues : queue.

Lemma finish_requests_queues id c res : preserves queues (finish_requests id c res).
Proof. unfold finish_requests. queue_auto. Qed.
#[export] Hint Resolve finish_requests_queues : queue.

Lemma begin_eviction_queues id b : preserves queues (begin_eviction id b).
Proof. unfold begin_eviction. queue_auto. Qed.
#[export] Hint Resolve begin_eviction_queues : queue.

Lemma shed_one_queues : preserves queues shed_one.
Proof. unfold shed_one. queue_auto. Qed.
#[export] Hint Resolve shed_one_queues : queue.

Lemma watch_queued_queues id c : preserves queues (watch_queued id c).
Proof. unfold watch_queued. queue_auto. Qed.
#[export] Hint Resolve watch_queued_queues : queue.

Lemma refuse_new_ownership_during_drain_queues id c p : preserves queues (refuse_new_ownership_during_drain id c p).
Proof. unfold refuse_new_ownership_during_drain. queue_auto. Qed.
#[export] Hint Resolve refuse_new_ownership_during_drain_queues : queue.

Lemma refuse_claim_queues id c a : preserves queues (refuse_claim id c a).
Proof. unfold refuse_claim. queue_auto. Qed.
#[export] Hint Resolve refuse_claim_queues : queue.

Lemma begin_activation_queues id c a : preserves queues (begin_activation id c a).
Proof. unfold begin_activation. queue_auto. Qed.
#[export] Hint Resolve begin_activation_queues : queue.

Lemma activate_or_wait_waiters id c a w : preserves st_activation_waiters (activate_or_wait id c a w).
Proof. unfold activate_or_wait. queue_auto. Qed.
#[export] Hint Resolve activate_or_wait_waiters : queue.

Lemma begin_cold_route_waiters id c st : preserves st_activation_waiters (begin_cold_route id c st).
Proof. unfold begin_cold_route. queue_auto. Qed.
#[export] Hint Resolve begin_cold_route_waiters : queue.

(** A turn takes one waiter off. *)
Definition shrinks (f : State → nat) (c : dec bool) : Prop :=
  ∀ s, wp True (λ _, True) c (λ b s', b = true → (f s' < f s)%nat) s.

Lemma keeps_loop (f : State → nat) (turn : dec bool) fuel D k s :
  keeps turn → shrinks f turn → base D k s → (f s < fuel)%nat →
  wp False (λ _, True) (repeat_while fuel turn) (λ _, base D k) s.
Proof.
  intros Hk Hm Hb Hfuel. apply (wp_repeat_while (base D k) f); [done..| |done].
  intros s' Hb'. eapply wp_weaken; [apply wp_conj; [by apply Hk|apply Hm]|..]; simpl; tauto.
Qed.

Ltac shrink_auto :=
  intros ?;
  repeat first
    [wp_step
    |exact I
    |progress unfold cell_remove, cell_get, cell_insert
    |match goal with
     | E : ?f ?s = ?x :: ?l |- wp _ _ _ _ ?s' =>
         assert_fails (is_var s');
         eapply wp_mono; [eapply (preserves_elim f _ s' l); [solve [eauto with queue nocore]|simpl; reflexivity]
                         |cbv beta; intros]
     end
    |simpl; intros; first [discriminate|lia|match goal with E : _ = _ |- _ => rewrite E; lia end]].

Lemma pump_activations_turn_keeps : keeps pump_activations_turn.
Proof. intros D k s Hb. unfold pump_activations_turn. occ_auto. Qed.

Lemma pump_activations_turn_shrinks : shrinks (λ s, length (st_activation_waiters s)) pump_activations_turn.
Proof. unfold pump_activations_turn. shrink_auto. Qed.

Lemma pump_activations_keeps : keeps pump_activations.
Proof.
  intros D k s Hb. unfold pump_activations. do 4 wp_step.
  eapply keeps_loop; [apply pump_activations_turn_keeps|apply pump_activations_turn_shrinks|occ_hold|].
  simpl. lia.
Qed.
#[export] Hint Resolve pump_activations_keeps : occ.

Lemma pump_capacity_turn_keeps : keeps pump_capacity_turn.
Proof. intros D k s Hb. unfold pump_capacity_turn. occ_auto.
  all: apply negb_false_iff, has_capacity_room in Heqb; eapply wp_mono;
    [eapply begin_activation_held; [eassumption|occ_hold|by left]|occ_auto].
Qed.

Lemma pump_capacity_turn_shrinks : shrinks (λ s, length (st_capacity_waiters s)) pump_capacity_turn.
Proof. unfold pump_capacity_turn. shrink_auto. Qed.

Lemma pump_capacity_keeps : keeps pump_capacity.
Proof.
  intros D k s Hb. unfold pump_capacity. do 3 wp_step.
  eapply wp_mono; [eapply keeps_loop;
    [apply pump_capacity_turn_keeps|apply pump_capacity_turn_shrinks|done|simpl; lia]|].
  occ_auto.
Qed.
#[export] Hint Resolve pump_capacity_keeps : occ.

(** ** Startup and the queue deadline *)

Lemma inv_base s : inv_at 0 s → base (dom (st_cells s)) 0 s.
Proof. by split. Qed.

Lemma hpost_new D k cell s : base D k s → c_phase cell = PhInactive → hpost D k cell s.
Proof. unfold hpost. intros Hb ->. split; [done|]. unfold owed; simpl. by rewrite N.add_0_r. Qed.

Lemma base_absent D k s id : base D k s → st_cells s !! id = None → id ∉ D.
Proof. intros [<- _] ?. by apply not_elem_of_dom. Qed.

Lemma create_cell_stable id cell start :
  c_phase cell = PhInactive → ∀ s, inv_at 0 s → st_cells s !! id = None →
  wp False (λ _, True)
    (cell ← admit_or_queue_activation id cell start; cell_insert id cell)
    (λ _ s', inv_at 0 s' ∧ dom (st_cells s') = {[id]} ∪ dom (st_cells s)) s.
Proof.
  intros Hp s Hs%inv_base E. assert (Hid := base_absent _ _ _ _ Hs E).
  pose proof (hpost_new _ _ cell _ Hs Hp) as H. wp_step.
  eapply wp_mono; [by apply admit_or_queue_activation_hkeeps|].
  intros cell' s' H'. unfold cell_insert. wp_step.
  pose proof (base_create _ _ _ _ _ Hid H') as [? ?]. done.
Qed.

Lemma confirm_local_cells_stable res : stable (confirm_local_cells res).
Proof.
  intros s Hs. destruct res as [cells|]; simpl; wp_steps.
  - apply (wp_for_each (inv_at 0)); [done| |].
    + intros local s' _ Hs'. do 2 wp_step. cbv beta.
      destruct (st_cells s' !! lc_id local) eqn:E; simpl; [by wp_steps|].
      wp_step; [by wp_steps|]. do 2 wp_step.
      eapply wp_mono; [apply create_cell_stable; [done| |exact E]|by intros ? ? []].
      exact Hs'.
    + intros s' Hs'. wp_steps; exact Hs'.
  - exact Hs.
Qed.

(** The local inventory names each live cell at most once. *)
Definition inventory_ok (res : result (list LocalCell) Failure) : Prop :=
  match res with
  | Ok cells => NoDup (lc_id <$> sort_dedup (filter (λ cell, lc_live cell) cells))
  | Err _ => True
  end.

Lemma resume_cells_stable (l : list LocalCell) (f : LocalCell → dec unit) s :
  (∀ local s, inv_at 0 s → st_cells s !! lc_id local = None →
     wp False (λ _, True) (f local)
       (λ _ s', inv_at 0 s' ∧ dom (st_cells s') = {[lc_id local]} ∪ dom (st_cells s)) s) →
  NoDup (lc_id <$> l) → (∀ local, local ∈ l → lc_id local ∉ dom (st_cells s)) → inv_at 0 s →
  wp False (λ _, True) (for_each l f) (λ _, inv_at 0) s.
Proof.
  intros Hf. revert s. induction l as [|local l IH]; intros s Hnd Hfresh Hs; simpl.
  { by apply wp_ret. }
  apply NoDup_cons in Hnd as [Hn Hnd]. wp_step. eapply wp_mono.
  { apply Hf; [done|]. apply not_elem_of_dom, Hfresh. left. }
  intros [] s' [Hs' Hdom]. apply IH; [done| |done]. intros x Hx. rewrite Hdom.
  apply not_elem_of_union. split; [|apply Hfresh; by right].
  intros E%elem_of_singleton. apply Hn. rewrite <- E. by apply list_elem_of_fmap_2.
Qed.

Lemma local_cells_read_stable res s :
  inventory_ok res → inv_at 0 s → wp False (λ _, True) (local_cells_read res) (λ _, inv_at 0) s.
Proof.
  intros Hok Hs. unfold local_cells_read. do 2 wp_step. cbv beta.
  destruct (st_confirming s); [by apply confirm_local_cells_stable|].
  destruct (negb _); [by wp_steps|]. destruct res as [cells|]; [|by wp_steps].
  cbv zeta. destruct (_ || negb (bool_decide (st_cells s = ∅))) eqn:E; [by wp_steps|].
  apply orb_false_iff in E as [_ E%negb_false_iff%bool_decide_eq_true].
  wp_step. eapply wp_mono; [eapply resume_cells_stable; [|exact Hok|by rewrite E, dom_empty_L|done]|].
  - intros local s' Hs' Hn. do 2 wp_step.
    eapply wp_mono; [apply create_cell_stable; [done|exact Hs'|exact Hn]|done].
  - intros ? s' Hs'. wp_steps; exact Hs'.
Qed.

Lemma remove_capacity_request_keeps r : keeps (remove_capacity_request r).
Proof. unfold remove_capacity_request. intros D k s Hb. occ_auto. Qed.
#[export] Hint Resolve remove_capacity_request_keeps : occ.

Lemma expire_queued_keeps id g : keeps (expire_queued id g).
Proof. unfold expire_queued. intros D k s Hb. occ_auto. Qed.
#[export] Hint Resolve expire_queued_keeps : occ.

(** ** Alarms and the output gate *)

Lemma schedule_alarm_timer_keeps id g at_ms n m : keeps (schedule_alarm_timer id g at_ms n m).
Proof. unfold schedule_alarm_timer. intros D k s Hb. occ_auto. Qed.
#[export] Hint Resolve schedule_alarm_timer_keeps : occ.

Lemma alarm_observed_keeps id o n m : keeps (alarm_observed id o n m).
Proof. unfold alarm_observed, settle_observation. intros D k s Hb. occ_join. Qed.
#[export] Hint Resolve alarm_observed_keeps : occ.

Lemma retry_alarm_timer_keeps id g n : keeps (retry_alarm_timer id g n).
Proof. unfold retry_alarm_timer. intros D k s Hb. occ_auto. Qed.
#[export] Hint Resolve retry_alarm_timer_keeps : occ.

Lemma cell_alarm_timer_keeps id g n m : keeps (cell_alarm_timer id g n m).
Proof. unfold cell_alarm_timer, fire_alarm. intros D k s Hb. occ_auto. Qed.
#[export] Hint Resolve cell_alarm_timer_keeps : occ.

Lemma barrier_insert_base D k op b s :
  base D k s → op < st_next_op s → base D k (set_st_barriers (<[op := b]> (st_barriers s)) s).
Proof.
  intros (HD & Ho & Hm & Ha & Hg & Hp & Hf) Hlt. split; [done|]. repeat split; try done.
  by apply map_Forall_insert_2.
Qed.

Lemma barrier_delete_base D k op s :
  base D k s → base D k (set_st_barriers (delete op (st_barriers s)) s).
Proof.
  intros (HD & Ho & Hm & Ha & Hg & Hp & Hf). split; [done|]. repeat split; try done.
  by apply map_Forall_delete.
Qed.

Lemma barrier_alter_base D k f op s :
  base D k s → base D k (set_st_barriers (alter f op (st_barriers s)) s).
Proof.
  intros (HD & Ho & Hm & Ha & Hg & Hp & Hf). split; [done|]. repeat split; try done; simpl.
  intros o b. rewrite lookup_alter. case_decide; [subst|by apply Hf].
  destruct (st_barriers s !! o) eqn:E; [|done]. intros _. by eapply Hf.
Qed.

Lemma open_barrier_keeps owner id e p : keeps (open_barrier owner id e p).
Proof.
  intros D k s Hb. unfold open_barrier, barrier_insert. wp_step. eapply wp_op; [occ_hold|].
  intros n Hn Hlt. wp_steps; [done|]. by apply barrier_insert_base.
Qed.
#[export] Hint Resolve open_barrier_keeps : occ.

Lemma barrier_remove_keeps op : keeps (barrier_remove op).
Proof. intros D k s Hb. unfold barrier_remove. wp_steps. by apply barrier_delete_base. Qed.
#[export] Hint Resolve barrier_remove_keeps : occ.

Lemma barrier_update_keeps op f : keeps (barrier_update op f).
Proof. intros D k s Hb. unfold barrier_update. wp_steps. by apply barrier_alter_base. Qed.
#[export] Hint Resolve barrier_update_keeps : occ.

Lemma settle_alarm_keeps op n m res : keeps (settle_alarm op n m res).
Proof. unfold settle_alarm. intros D k s Hb. occ_auto. Qed.
#[export] Hint Resolve settle_alarm_keeps : occ.

Lemma alarm_finished_keeps op f e n m res : keeps (alarm_finished op f e n m res).
Proof. unfold alarm_finished. intros D k s Hb. occ_auto. Qed.
#[export] Hint Resolve alarm_finished_keeps : occ.

Lemma activity_finished_keeps r : keeps (activity_finished r).
Proof. unfold activity_finished. intros D k s Hb. occ_auto. Qed.
#[export] Hint Resolve activity_finished_keeps : occ.

Lemma emit_release_keeps h res : keeps (emit_release h res).
Proof. unfold emit_release. intros D k s Hb. occ_auto. Qed.
#[export] Hint Resolve emit_release_keeps : occ.

Lemma unpin_gate_keeps r : keeps (unpin_gate r).
Proof. unfold unpin_gate. intros D k s Hb. occ_auto. Qed.
#[export] Hint Resolve unpin_gate_keeps : occ.

Lemma release_held_keeps h res : keeps (release_held h res).
Proof. unfold release_held. intros D k s Hb. occ_auto. Qed.
#[export] Hint Resolve release_held_keeps : occ.

Lemma doom_barrier_keeps b : keeps (doom_barrier b).
Proof. unfold doom_barrier. intros D k s Hb. occ_auto. Qed.
#[export] Hint Resolve doom_barrier_keeps : occ.

(** Dooming the barriers of a cell leaves its phase alone. *)
Definition phase_of (id : string) (s : State) : option Phase := c_phase <$> st_cells s !! id.

Lemma keeps_and {X A} (f : State → X) (c : dec A) D k s :
  keeps c → preserves f c → base D k s →
  wp False (λ _, True) c (λ _ s', base D k s' ∧ f s' = f s) s.
Proof.
  intros Hk Hp Hb. eapply wp_weaken; [apply wp_conj; [by apply Hk|by apply Hp]|..]; simpl; tauto.
Qed.

Lemma resident_at_phase s id e :
  resident_at s id e = true → phase_of id s = Some (PhResident e).
Proof.
  unfold resident_at, phase_of. destruct (st_cells s !! id) as [c|]; [|done]. simpl.
  destruct (c_phase c); try done. by intros ->%N.eqb_eq.
Qed.

Ltac phase_leaf :=
  unfold phase_of in *; simpl in *; subst;
  rewrite ?insert_delete_eq; rewrite ?delete_id by assumption;
  first [reflexivity
        |rewrite lookup_insert; case_decide; [subst|reflexivity];
         match goal with E : _ !! _ = Some _ |- _ => rewrite E; reflexivity end].

Lemma doom_barrier_phase id b : preserves (phase_of id) (doom_barrier b).
Proof.
  intros s x Hx. unfold doom_barrier, alarm_finished, settle_alarm, emit_release, unpin_gate.
  wp_step. eapply (wp_mono _ (λ _ s', phase_of id s' = x)).
  - unfold take_cell_op, cell_remove, cell_get, cell_insert, forget_cell_op. wp_steps;
      first [exact I|phase_leaf].
  - cbv beta. intros _ s' Hs'. wp_step.
    apply (wp_for_each (λ s', phase_of id s' = x)); [done|by intros; wp_steps|].
    intros. by apply (wp_for_each (λ s', phase_of id s' = x)); [|intros; wp_steps|].
Qed.

Lemma deactivate_request_phase id r : preserves (phase_of id) (deactivate_request r).
Proof. intros s x Hx. unfold deactivate_request, expect. by wp_steps. Qed.

Lemma reset_cell_keeps id e : keeps (reset_cell id e).
Proof.
  intros D k s Hb. unfold reset_cell. do 2 wp_step. cbv beta.
  destruct (resident_at s id e) eqn:Er; simpl; [|occ_auto].
  apply resident_at_phase in Er.
  set (I s' := base D k s' ∧ phase_of id s' = Some (PhResident e)). wp_step.
  apply (wp_for_each I); [by split| |].
  { intros o s' _ [Hb' Hp']. do 2 wp_step. cbv beta. unfold with_some.
    destruct (st_barriers s' !! o); [|by wp_steps]. wp_step.
    eapply wp_mono; [eapply (keeps_and (phase_of id)); [apply barrier_remove_keeps|by intros ? ? ?|done]|].
    cbv beta. intros _ s1 [H1 E1]. eapply wp_mono;
      [eapply (keeps_and (phase_of id)); [apply doom_barrier_keeps|apply doom_barrier_phase|done]|].
    cbv beta. intros _ s2 [H2 E2]. split; congruence. }
  intros s1 [H1 E1]. wp_step. wp_step. wp_step. apply (wp_for_each I); [by split| |].
  { intros r s' _ [Hb' Hp']. wp_step. eapply wp_mono;
      [eapply (keeps_and (phase_of id)); [apply deactivate_request_keeps|apply deactivate_request_phase|done]|].
    cbv beta. intros _ s2 [H2 E2]. unfold unpin_gate. wp_steps. split; [occ_hold|unfold phase_of in *; simpl; congruence]. }
  intros s2 [H2 E2]. unfold phase_of in E2. occ_auto; simpl in *.
  all: match goal with E : st_cells _ !! _ = Some _ |- _ => rewrite E in E2; simplify_eq/= end.
  all: occ_auto.
Qed.
#[export] Hint Resolve reset_cell_keeps : occ.

Lemma note_proven_keeps id e p : keeps (note_proven id e p).
Proof. unfold note_proven. intros D k s Hb. occ_auto. Qed.
#[export] Hint Resolve note_proven_keeps : occ.

Lemma open_write_barrier_keeps h p : keeps (open_write_barrier h p).
Proof. unfold open_write_barrier. intros D k s Hb. occ_auto. Qed.
#[export] Hint Resolve open_write_barrier_keeps : occ.

Lemma hold_observed_keeps h id e o : keeps (hold_observed h id e o).
Proof. unfold hold_observed. intros D k s Hb. occ_auto. Qed.
#[export] Hint Resolve hold_observed_keeps : occ.

Lemma trail_open_barrier_keeps h : keeps (trail_open_barrier h).
Proof. unfold trail_open_barrier. intros D k s Hb. occ_auto. Qed.
#[export] Hint Resolve trail_open_barrier_keeps : occ.

Lemma output_keeps r c p o e : keeps (output r c p o e).
Proof. unfold output. intros D k s Hb. occ_auto. Qed.
#[export] Hint Resolve output_keeps : occ.

Lemma open_export_barrier_keeps id e p t : keeps (open_export_barrier id e p t).
Proof. unfold open_export_barrier. intros D k s Hb. occ_auto. Qed.
#[export] Hint Resolve open_export_barrier_keeps : occ.

Lemma reask_riders_keeps id e rs : keeps (reask_riders id e rs).
Proof. unfold reask_riders. intros D k s Hb. occ_auto. Qed.
#[export] Hint Resolve reask_riders_keeps : occ.

Lemma export_ticket_keeps id e p t : keeps (export_ticket id e p t).
Proof. unfold export_ticket. intros D k s Hb. occ_auto. Qed.
#[export] Hint Resolve export_ticket_keeps : occ.

Lemma settle_gate_keeps op b : keeps (settle_gate op b).
Proof. unfold settle_gate. intros D k s Hb. occ_join. Qed.
#[export] Hint Resolve settle_gate_keeps : occ.

Lemma hand_export_on_spec D k op gate s :
  base D k s → st_barriers s !! op = Some gate →
  wp False (λ _, True) (hand_export_on op) (λ b s', base D k s' ∧ (b = false → s' = s)) s.
Proof.
  intros Hb E. unfold hand_export_on, expect. do 2 wp_step. cbv beta. rewrite E.
  wp_steps; try by split. eapply wp_mono; [by apply barrier_remove_keeps|]. cbv beta. intros _ s1 H1.
  wp_step. eapply wp_mono; [by apply barrier_update_keeps|]. by split.
Qed.

(** The loop of [take_export_riders] over barriers that are all there. *)
Lemma take_loop_spec (l : list N) (acc : list Rider) D k s :
  base D k s → NoDup l →
  (∀ o, o ∈ l → ∃ b, st_barriers s !! o = Some b ∧ trailable b = false) →
  wp False (λ _, True)
    (fold_each l acc (λ riders other,
      s ← get;
      b ← expect (st_barriers s !! other);
      taken ← expect (as_riders b);
      barrier_remove other ;;
      mret (riders ++ taken)))
    (λ _, base D k) s.
Proof.
  revert acc s. induction l as [|o l IH]; intros acc s Hb Hnd Hall; simpl; [by apply wp_ret|].
  apply NoDup_cons in Hnd as [Hn Hnd].
  destruct (Hall o) as (b & E & Ht); [left|]. do 3 wp_step. cbv beta. rewrite E. unfold expect.
  do 2 wp_step. cbv beta. unfold trailable in Ht. unfold as_riders.
  destruct (b_owner b); try done. do 2 wp_step. cbv beta. unfold barrier_remove. wp_step. wp_step. wp_step.
  apply IH; [by apply barrier_delete_base|done|]. intros o' Ho'. simpl.
  destruct (Hall o') as (b' & E' & Ht'); [by right|]. exists b'.
  rewrite lookup_delete_ne by (intros ->; done). done.
Qed.

Lemma take_export_riders_spec D k op gate s :
  base D k s → st_barriers s !! op = Some gate →
  wp False (λ _, True) (take_export_riders op) (λ _, base D k) s.
Proof.
  intros Hb E. unfold take_export_riders. do 2 wp_step. cbv beta. rewrite E.
  wp_step. apply wp_expect. wp_step. eapply wp_mono; [apply take_loop_spec; [done|apply NoDup_barriers_where|]|].
  - intros o (b & Eb & Hf)%elem_of_barriers_where. exists b. split; [done|].
    apply andb_true_iff in Hf as [_ Hf]. by apply negb_true_iff in Hf.
  - cbv beta. intros. by apply barrier_update_keeps.
Qed.

Lemma durable_reached_keeps op res src : keeps (durable_reached op res src).
Proof.
  intros D k s Hb. unfold durable_reached. do 2 wp_step. unfold with_some. cbv beta.
  destruct (st_barriers s !! op) as [gate|] eqn:E; [|by wp_steps]. cbv zeta.
  destruct (match res with Ok _ => _ | Err _ => _ end); [destruct src|]; [occ_auto| |occ_auto].
  wp_step. eapply wp_mono; [by eapply hand_export_on_spec|]. cbv beta.
  intros [] s1 [H1 Hs1]; [by wp_steps|]. rewrite (Hs1 eq_refl). wp_step.
  eapply wp_mono; [by eapply take_export_riders_spec|]. occ_auto.
Qed.
#[export] Hint Resolve durable_reached_keeps : occ.

Lemma ownership_verified_keeps op res : keeps (ownership_verified op res).
Proof. unfold ownership_verified. intros D k s Hb. occ_auto. Qed.
#[export] Hint Resolve ownership_verified_keeps : occ.

(** *** Cancelling the outputs of a cell

    The loop visits the output barriers it found first; what it opens on the
    way has a fresh id, so a barrier below the first id is one it found. *)

Lemma framed_barriers {A} (c : dec A) : framed c → preserves st_barriers c.
Proof.
  intros Hc s x <-. eapply wp_weaken; [apply (Hc s s (frame_refl s))|done|done|]. by intros a s' [].
Qed.

Lemma release_held_barriers h res : preserves st_barriers (release_held h res).
Proof.
  unfold release_held, emit_release, unpin_gate. intros s x Hx. wp_steps; try exact Hx; try exact I.
  eapply wp_mono; [by apply (framed_barriers _ (activity_finished_framed _))|]. intros. by wp_steps.
Qed.

Definition older_barriers (s0 s : State) : Prop :=
  st_next_op s0 ≤ st_next_op s
  ∧ ∀ op b, op < st_next_op s0 → st_barriers s !! op = Some b → st_barriers s0 !! op = Some b.

(** An operation outside the gate's index keeps the older barriers. *)
Lemma wp_older {A} (c : dec A) D k s0 s :
  keeps c → preserves st_barriers c → framed_gate c → base D k s → older_barriers s0 s →
  wp False (λ _, True) c (λ _ s', base D k s' ∧ older_barriers s0 s') s.
Proof.
  intros Hk Hp Hf Hb [Hn Ho].
  eapply wp_weaken;
    [apply wp_conj; [by apply (keeps_and st_barriers)|apply (Hf s s (frame_gate_refl s))]|tauto|done|].
  intros a s' [[Hb' E] [[]]]. split; [done|]. split; [lia|]. rewrite E. done.
Qed.

Lemma open_export_older D k s0 id e p t s :
  base D k s → older_barriers s0 s →
  wp False (λ _, True) (open_export_barrier id e p t)
    (λ _ s', base D k s' ∧ older_barriers s0 s') s.
Proof.
  intros Hb [Hn Ho]. unfold open_export_barrier, open_barrier, barrier_insert. wp_step.
  eapply wp_op; [done|]. intros n Hb' Hlt. wp_steps; [done|].
  split; [by apply barrier_insert_base|]. split; [simpl; lia|]. simpl. intros op b Hop.
  rewrite lookup_insert_ne by lia. by apply Ho.
Qed.

Lemma base_barrier_fresh D k s op b :
  base D k s → st_barriers s !! op = Some b → op < st_next_op s.
Proof. intros (_ & _ & _ & _ & _ & _ & Hf) E. exact (Hf op b E). Qed.

Lemma cancel_cell_outputs_keeps id : keeps (cancel_cell_outputs id).
Proof.
  intros D k s Hb. unfold cancel_cell_outputs. do 2 wp_step. cbv beta.
  set (I s' := base D k s' ∧ older_barriers s s').
  apply (wp_for_each I); [split; [done|split; [lia|done]]| |by intros ? []].
  intros op s1 (b & Eb & Hf)%elem_of_barriers_where [H1 O1]. do 2 wp_step. unfold with_some. cbv beta.
  destruct (st_barriers s1 !! op) as [gate|] eqn:E; [|by wp_steps].
  assert (gate = b) as ->.
  { destruct O1 as [_ O1]. apply O1 in E; [congruence|]. by eapply base_barrier_fresh. }
  apply andb_true_iff in Hf as [_ Hf]. wp_step. eapply (wp_mono _ (λ _, I)).
  { unfold barrier_remove. wp_step. split; [by apply barrier_delete_base|].
    destruct O1 as [? O1]. split; [done|]. simpl. intros o b' Ho [_ Eo]%lookup_delete_Some. by apply O1. }
  cbv beta. intros _ s2 [H2 O2]. destruct (b_owner b) as [owner| |]; try done. wp_step.
  assert (Hrel : ∀ h res s', I s' → wp False (λ _, True) (release_held h res) (λ _, I) s').
  { intros h res s' [? ?]. apply wp_older; auto using release_held_barriers with occ frame_gate. }
  eapply wp_mono; [by apply Hrel|]. cbv beta. intros _ s3 I3. wp_step.
  apply (wp_for_each I); [done|by intros; apply Hrel|]. intros s4 I4. unfold reask_riders.
  apply (wp_for_each I); [done| |done]. intros rider s5 _ [H5 O5]. by apply open_export_older.
Qed.
#[export] Hint Resolve cancel_cell_outputs_keeps : occ.

(** ** The lease and the fence *)

Lemma fence_barrier_keeps b : keeps (fence_barrier b).
Proof. unfold fence_barrier. intros D k s Hb. occ_auto. Qed.
#[export] Hint Resolve fence_barrier_keeps : occ.

Lemma fence_cell_spec D k id s :
  base D k s → id ∈ D → wp False (λ _, True) (fence_cell id) (λ _, base D k) s.
Proof. intros Hb Hid. unfold fence_cell. occ_join. Qed.

Lemma fence_keeps : keeps fence.
Proof.
  intros D k s Hb. unfold fence. do 2 wp_step. cbv beta. destruct (st_fenced s); [by wp_steps|].
  wp_step. wp_step. assert (H : base D k (fence_indexes s)).
  { destruct Hb as (HD & Ho & Hm & Ha & Hg & Hp & Hf). split; [done|]. by repeat split. }
  wp_step. apply (wp_for_each (base D k)); [done|by intros; apply fence_barrier_keeps|].
  intros s1 H1. apply (wp_for_each (base D k)); [done| |done].
  intros id s2 Hid H2. apply fence_cell_spec; [done|].
  apply elem_of_keys, elem_of_dom in Hid. by destruct Hb as [<- _].
Qed.
#[export] Hint Resolve fence_keeps : occ.

Lemma compensate_retired_runtime_keeps op res : keeps (compensate_retired_runtime op res).
Proof. unfold compensate_retired_runtime. intros D k s Hb. occ_auto. Qed.
#[export] Hint Resolve compensate_retired_runtime_keeps : occ.

Lemma fence_node_keeps reason : keeps (fence_node reason).
Proof. unfold fence_node. intros D k s Hb. occ_auto. Qed.
#[export] Hint Resolve fence_node_keeps : occ.

Lemma begin_node_lease_acquisition_keeps n spec : keeps (begin_node_lease_acquisition n spec).
Proof. unfold begin_node_lease_acquisition. intros D k s Hb. occ_auto. Qed.
#[export] Hint Resolve begin_node_lease_acquisition_keeps : occ.

Lemma start_node_lease_keeps n spec : keeps (start_node_lease n spec).
Proof. unfold start_node_lease. intros D k s Hb. occ_auto. Qed.
#[export] Hint Resolve start_node_lease_keeps : occ.

Lemma fail_initial_node_lease_keeps spec : keeps (fail_initial_node_lease spec).
Proof. unfold fail_initial_node_lease. intros D k s Hb. occ_auto. Qed.
#[export] Hint Resolve fail_initial_node_lease_keeps : occ.

Lemma take_nudge_keeps : keeps take_nudge.
Proof. unfold take_nudge. intros D k s Hb. occ_auto. Qed.
#[export] Hint Resolve take_nudge_keeps : occ.

Lemma hold_node_lease_keeps spec r a b1 b2 : keeps (hold_node_lease spec r a b1 b2).
Proof. unfold hold_node_lease. intros D k s Hb. occ_auto. Qed.
#[export] Hint Resolve hold_node_lease_keeps : occ.

Lemma complete_node_lease_write_keeps p r n : keeps (complete_node_lease_write p r n).
Proof. unfold complete_node_lease_write. intros D k s Hb. occ_auto. Qed.
#[export] Hint Resolve complete_node_lease_write_keeps : occ.

Lemma resume_node_lease_after_failure_keeps p n : keeps (resume_node_lease_after_failure p n).
Proof. unfold resume_node_lease_after_failure. intros D k s Hb. occ_auto. Qed.
#[export] Hint Resolve resume_node_lease_after_failure_keeps : occ.

Lemma begin_node_lease_write_keeps p g : keeps (begin_node_lease_write p g).
Proof. unfold begin_node_lease_write. intros D k s Hb. occ_auto. Qed.
#[export] Hint Resolve begin_node_lease_write_keeps : occ.

Lemma adopt_late_write_keeps p r n m : keeps (adopt_late_write p r n m).
Proof. unfold adopt_late_write. intros D k s Hb. occ_auto. Qed.
#[export] Hint Resolve adopt_late_write_keeps : occ.

Lemma replace_node_lease_keeps p r n : keeps (replace_node_lease p r n).
Proof. unfold replace_node_lease. intros D k s Hb. occ_auto. Qed.
#[export] Hint Resolve replace_node_lease_keeps : occ.

Lemma read_self_node_lease_keeps op n m res : keeps (read_self_node_lease op n m res).
Proof. unfold read_self_node_lease. intros D k s Hb. occ_auto. Qed.
#[export] Hint Resolve read_self_node_lease_keeps : occ.

Lemma read_back_keeps p b l : keeps (read_back p b l).
Proof. unfold read_back. intros D k s Hb. occ_auto. Qed.
#[export] Hint Resolve read_back_keeps : occ.

Lemma node_lease_cas_completed_keeps op n res l : keeps (node_lease_cas_completed op n res l).
Proof. unfold node_lease_cas_completed. intros D k s Hb. occ_auto. Qed.
#[export] Hint Resolve node_lease_cas_completed_keeps : occ.

(** ** Requests *)

(** [cells.remove(&id).unwrap_or_default()]. *)
Lemma wp_cell_take id s (Q : option Cell → State → Prop) :
  inv_at 0 s →
  (∀ found D, id ∉ D → let s' := set_st_cells (delete id (st_cells s)) s in
     hpost D 0 (default Cell_default found) s' → Q found s') →
  wp False (λ _, True) (cell_remove id) Q s.
Proof.
  intros Hs%inv_base HQ. eapply wp_cell_remove; [done| |].
  - intros _ Hid Hb. apply (HQ None (dom (st_cells s))); [done|]. by apply hpost_new.
  - intros cell _ _ Hid H. by apply (HQ (Some cell) (dom (st_cells s) ∖ {[id]})).
Qed.

Lemma request_cell_insert_keeps r id : keeps (request_cell_insert r id).
Proof. unfold request_cell_insert. intros D k s Hb. occ_auto. Qed.
#[export] Hint Resolve request_cell_insert_keeps : occ.

Lemma join_waiters_hkeeps r id (cell : Cell) : hkeeps id cell (join_waiters r id cell).
Proof. unfold join_waiters. intros D k s Hid H. occ_auto. Qed.
#[export] Hint Resolve join_waiters_hkeeps : occ.

Lemma serve_local_hkeeps r id (cell : Cell) : hkeeps id cell (serve_local r id cell).
Proof. unfold serve_local. intros D k s Hid H. occ_auto. Qed.
#[export] Hint Resolve serve_local_hkeeps : occ.

Lemma wait_for_cell_hkeeps r id (cell : Cell) : hkeeps id cell (wait_for_cell r id cell).
Proof. unfold wait_for_cell. intros D k s Hid H. occ_auto. Qed.
#[export] Hint Resolve wait_for_cell_hkeeps : occ.

Lemma request_authorized_stable r id : stable (request_authorized r id).
Proof.
  intros s Hs. unfold request_authorized. wp_step. eapply wp_cell_take; [done|].
  intros found D Hid s' H. do 3 wp_step. cbv zeta. set (cell := default Cell_default found) in *.
  clearbody cell s'. occ_join.
Qed.

Lemma stable_elim {A} (c : dec A) s :
  stable c → inv_at 0 s → wp False (λ _, True) c (λ _, inv_at 0) s.
Proof. auto. Qed.

Lemma inv_ext s s' : inv_at 0 s → view s' = view s → inv_at 0 s'.
Proof. intros H%inv_base E. by eapply base_inv, base_ext. Qed.

#[export] Hint Resolve request_authorized_stable keeps_stable : occ.

(** A handler composed of stable operations. *)
Ltac stable_hold :=
  match goal with
  | H : inv_at 0 _ |- inv_at 0 _ => apply (inv_ext _ _ H); unfold view; simpl; reflexivity
  end.

Ltac stable_step :=
  first
    [wp_step
    |exact I
    |lazymatch goal with
     | |- wp _ _ _ _ _ =>
         eapply wp_mono; [eapply stable_elim; [solve [eauto with occ nocore]|stable_hold]
                         |cbv beta; intros]
     end
    |stable_hold].

Ltac stable_auto := intros ? ?; repeat stable_step.

Lemma request_stable r id b1 b2 : stable (request r id b1 b2).
Proof. unfold request. stable_auto. Qed.
#[export] Hint Resolve request_stable : occ.

Lemma websocket_request_stable r id w : stable (websocket_request r id w).
Proof. unfold websocket_request. stable_auto. Qed.
#[export] Hint Resolve websocket_request_stable : occ.

Lemma gate_request_stable r id : stable (gate_request r id).
Proof.
  intros s Hs. unfold gate_request. do 2 wp_step. cbv beta. case_match; [|by apply request_stable].
  wp_step. eapply wp_mono; [by apply (keeps_stable _ (complete_request_keeps _ _ _))|].
  cbv beta. intros _ s' (Ho & Hm & Ha & Hg & Hp & Hf). wp_steps. repeat split; try done.
  apply map_Forall_insert_2; [lia|done].
Qed.
#[export] Hint Resolve gate_request_stable : occ.

Lemma wake_hint_authorized_stable id sc : stable (wake_hint_authorized id sc).
Proof.
  intros s Hs. unfold wake_hint_authorized. do 2 wp_step. cbv beta.
  case_match; [by wp_steps|]. case_match; [by wp_steps|]. wp_step. eapply wp_cell_take; [done|].
  intros found D Hid s' Hd. cbv zeta. set (cell := default Cell_default found) in *.
  clearbody cell s'. occ_join.
Qed.
#[export] Hint Resolve wake_hint_authorized_stable : occ.

Lemma wake_hint_stable id e sc : stable (wake_hint id e sc).
Proof. unfold wake_hint. stable_auto. Qed.
#[export] Hint Resolve wake_hint_stable : occ.

Lemma remove_handoff_request_keeps r : keeps (remove_handoff_request r).
Proof. unfold remove_handoff_request. intros D k s Hb. occ_auto. Qed.
#[export] Hint Resolve remove_handoff_request_keeps : occ.

Lemma cancel_keeps r : keeps (cancel r).
Proof. unfold cancel. intros D k s Hb. occ_join. Qed.
#[export] Hint Resolve cancel_keeps : occ.

Lemma preserve_fallback_free cell p :
  preserve_fallback cell = Some p → sound_phase p ∧ owed p = 0.
Proof. unfold preserve_fallback. intros E. repeat case_match; simplify_eq; done. Qed.

Lemma preserve_cell_spec D k id s :
  base D k s → id ∈ D → wp False (λ _, True) (preserve_cell id) (λ _, base D k) s.
Proof.
  intros Hb Hid. unfold preserve_cell. wp_step. eapply wp_cell_remove; [done|done|].
  intros cell E _ Hid' H. wp_step. apply wp_expect. wp_step.
  eapply (wp_mono _ (hpost (D ∖ {[id]}) k)); [|occ_auto].
  destruct (preserve_fallback cell) as [p|] eqn:Ep; [|occ_auto].
  apply preserve_fallback_free in Ep as [Hp H0]. occ_join_step; [occ_auto|]. wp_step.
  eapply wp_mono; [eapply finish_requests_hkeeps; [done|occ_hold]|]. cbv beta. intros c s1 Hc. wp_step.
  eapply wp_set_phase; [occ_hold|done|left; rewrite H0; lia|]. occ_auto.
Qed.

Lemma begin_preserve_keeps : keeps begin_preserve.
Proof.
  intros D k s Hb. unfold begin_preserve. do 7 wp_step. cbv beta.
  apply (wp_for_each (base D k)); [occ_hold| |occ_join].
  intros id s' Hid Hb'. apply preserve_cell_spec; [done|].
  apply elem_of_keys, elem_of_dom in Hid. simpl in Hid. by destruct Hb as [<- _].
Qed.
#[export] Hint Resolve begin_preserve_keeps : occ.

(** ** Ownership resolution *)

Lemma begin_capacity_lookup_hkeeps id (cell : Cell) cl : hkeeps id cell (begin_capacity_lookup id cell cl).
Proof. unfold begin_capacity_lookup. intros D k s Hid H. occ_auto. Qed.
#[export] Hint Resolve begin_capacity_lookup_hkeeps : occ.

Lemma refuse_capacity_handoffs_hkeeps id (cell : Cell) : hkeeps id cell (refuse_capacity_handoffs id cell).
Proof. unfold refuse_capacity_handoffs. intros D k s Hid H. occ_auto. Qed.
#[export] Hint Resolve refuse_capacity_handoffs_hkeeps : occ.

Lemma place_unowned_hkeeps id cell cl : hkeeps id cell (place_unowned id cell cl).
Proof.
  intros D k s Hid H. unfold place_unowned. wp_step.
  eapply wp_mono; [by apply refuse_new_ownership_during_drain_hkeeps|]. cbv beta.
  intros [c []] s1 H1; simpl in *; [occ_auto|]. do 2 wp_step. cbv beta.
  destruct (has_capacity s1); [by apply activate_or_wait_hkeeps|].
  destruct (handoff_only s1 c) eqn:Eh.
  { apply begin_activation_held; [done..|]. right. by exists cl. }
  occ_auto.
Qed.
#[export] Hint Resolve place_unowned_hkeeps : occ.

Lemma fail_resolution_hkeeps id (cell : Cell) e : hkeeps id cell (fail_resolution id cell e).
Proof. unfold fail_resolution. intros D k s Hid H. occ_auto. Qed.
#[export] Hint Resolve fail_resolution_hkeeps : occ.

Lemma take_over_hkeeps id (cell : Cell) r l : hkeeps id cell (take_over id cell r l).
Proof. unfold take_over. intros D k s Hid H. occ_auto. Qed.
#[export] Hint Resolve take_over_hkeeps : occ.

Lemma apply_node_lease_result_hkeeps id (cell : Cell) r n res : hkeeps id cell (apply_node_lease_result id cell r n res).
Proof. unfold apply_node_lease_result. intros D k s Hid H. occ_auto. Qed.
#[export] Hint Resolve apply_node_lease_result_hkeeps : occ.

Lemma confirm_acquisition_hkeeps id (cell : Cell) cl e : hkeeps id cell (confirm_acquisition id cell cl e).
Proof. unfold confirm_acquisition. intros D k s Hid H. occ_auto. Qed.
#[export] Hint Resolve confirm_acquisition_hkeeps : occ.

Lemma resolve_foreign_owner_hkeeps id (cell : Cell) r o n : hkeeps id cell (resolve_foreign_owner id cell r o n).
Proof. unfold resolve_foreign_owner. intros D k s Hid H. occ_auto. Qed.
#[export] Hint Resolve resolve_foreign_owner_hkeeps : occ.

Lemma resolve_owner_hkeeps id (cell : Cell) n res : hkeeps2 id cell (resolve_owner id cell n res).
Proof. unfold resolve_owner. intros D k s Hid H. occ_join. Qed.
#[export] Hint Resolve resolve_owner_hkeeps : occ.

Lemma owner_read_keeps op n res : keeps (owner_read op n res).
Proof. unfold owner_read. intros D k s Hb. occ_join. Qed.
#[export] Hint Resolve owner_read_keeps : occ.

Lemma node_lease_read_keeps op n res : keeps (node_lease_read op n res).
Proof. unfold node_lease_read. intros D k s Hb. occ_join. Qed.
#[export] Hint Resolve node_lease_read_keeps : occ.

Lemma observe_sample_keeps p : keeps (observe_sample p).
Proof. unfold observe_sample. intros D k s Hb. occ_auto. Qed.
#[export] Hint Resolve observe_sample_keeps : occ.

Lemma capacity_peers_read_keeps op n res : keeps (capacity_peers_read op n res).
Proof. unfold capacity_peers_read. intros D k s Hb. occ_join. Qed.
#[export] Hint Resolve capacity_peers_read_keeps : occ.

Lemma back_off_recovery_hkeeps id (cell : Cell) : hkeeps id cell (back_off_recovery id cell).
Proof. unfold back_off_recovery. intros D k s Hid H. occ_auto. Qed.
#[export] Hint Resolve back_off_recovery_hkeeps : occ.

Lemma node_log_recovered_keeps op res : keeps (node_log_recovered op res).
Proof. unfold node_log_recovered. intros D k s Hb. occ_join. Qed.
#[export] Hint Resolve node_log_recovered_keeps : occ.

Lemma retry_owner_log_recovery_keeps id g : keeps (retry_owner_log_recovery id g).
Proof. unfold retry_owner_log_recovery. intros D k s Hb. occ_join. Qed.
#[export] Hint Resolve retry_owner_log_recovery_keeps : occ.

(** ** Eviction *)

Lemma base_same_owed D k s id old cell :
  base D k s → st_cells s !! id = Some old → sound_phase (c_phase cell) →
  owed (c_phase cell) = owed (c_phase old) →
  base D k (set_st_cells (<[id := cell]> (st_cells s)) s).
Proof.
  intros Hb E Hs Ho. apply (base_enter D k s id old cell (st_occupied s)); try done; [lia|apply Hb].
Qed.

Lemma durability_checked_keeps op res : keeps (durability_checked op res).
Proof.
  intros D k s Hb. unfold durability_checked. occ_auto.
  unfold set_phase. rewrite Heqp. simpl. wp_steps. unfold cell_insert.
  eapply (wp_modify_base D k); [eapply base_same_owed; [occ_hold|occ_lookup|done|by rewrite Heqp]|].
  occ_auto.
Qed.
#[export] Hint Resolve durability_checked_keeps : occ.

Lemma evict_keeps id : keeps (evict id).
Proof. unfold evict. intros D k s Hb. occ_auto. Qed.
#[export] Hint Resolve evict_keeps : occ.

Lemma admit_eviction_keeps id : keeps (admit_eviction id).
Proof. unfold admit_eviction. intros D k s Hb. occ_auto. Qed.
#[export] Hint Resolve admit_eviction_keeps : occ.

Lemma evict_requested_keeps r id : keeps (evict_requested r id).
Proof. unfold evict_requested, report_admission. intros D k s Hb. occ_join. Qed.
#[export] Hint Resolve evict_requested_keeps : occ.

Lemma evict_idle_turn_keeps n i : keeps (evict_idle_turn n i).
Proof. unfold evict_idle_turn. intros D k s Hb. occ_auto. Qed.
#[export] Hint Resolve evict_idle_turn_keeps : occ.

Lemma shed_toward_floor_turn_keeps : keeps shed_toward_floor_turn.
Proof. unfold shed_toward_floor_turn. intros D k s Hb. occ_auto. Qed.
#[export] Hint Resolve shed_toward_floor_turn_keeps : occ.

Definition resident_count (s : State) : nat :=
  size (filter (λ item : string * Cell, is_resident (c_phase item.2)) (st_cells s)).

Lemma resident_count_bound s : (resident_count s ≤ size (st_cells s))%nat.
Proof. unfold resident_count. apply map_subseteq_size, map_filter_subseteq. Qed.

Lemma resident_count_leave (m : gmap string Cell) id old cell :
  m !! id = Some old → is_resident (c_phase old) = true → is_resident (c_phase cell) = false →
  (size (filter (λ item : string * Cell, is_resident (c_phase item.2)) (<[id := cell]> m))
   < size (filter (λ item : string * Cell, is_resident (c_phase item.2)) m))%nat.
Proof.
  intros E Ho Hc. rewrite map_filter_insert_False by (simpl; rewrite Hc; by intros []).
  assert (Hin : filter (λ item : string * Cell, is_resident (c_phase item.2)) m !! id = Some old).
  { apply map_lookup_filter_Some. simpl. by rewrite Ho. }
  rewrite map_filter_delete, map_size_delete_Some by eauto.
  assert (size (filter (λ item : string * Cell, is_resident (c_phase item.2)) m) ≠ 0)%nat; [|lia].
  intros Hz%map_size_empty_iff. by rewrite Hz, lookup_empty in Hin.
Qed.

(** A successful eviction takes a resident. *)
Lemma begin_eviction_shrinks id b s :
  wp True (λ _, True) (begin_eviction id b)
    (λ r s', is_ok r = true → (resident_count s' < resident_count s)%nat) s.
Proof.
  unfold begin_eviction, cell_op, op, set_phase_in, set_phase, cell_insert.
  wp_steps; try done; simpl; intros _; unfold resident_count; simpl in *.
  all: eapply resident_count_leave; [eassumption|by rewrite Heqp|done].
Qed.

Lemma evict_idle_turn_shrinks n i : shrinks resident_count (evict_idle_turn n i).
Proof.
  intros s. unfold evict_idle_turn. wp_steps; try done.
  eapply wp_mono; [apply begin_eviction_shrinks|]. cbv beta. intros. by wp_steps.
Qed.

Lemma shed_toward_floor_turn_shrinks : shrinks resident_count shed_toward_floor_turn.
Proof.
  intros s. unfold shed_toward_floor_turn. wp_steps; try done.
  eapply wp_mono; [apply begin_eviction_shrinks|]. cbv beta. intros. by wp_steps.
Qed.

Lemma evict_idle_keeps n : keeps (evict_idle n).
Proof.
  intros D k s Hb. unfold evict_idle. wp_steps; try done. pose proof (resident_count_bound s).
  eapply keeps_loop; [apply evict_idle_turn_keeps|apply evict_idle_turn_shrinks|done|lia].
Qed.
#[export] Hint Resolve evict_idle_keeps : occ.

Lemma shed_toward_floor_keeps : keeps shed_toward_floor.
Proof.
  intros D k s Hb. unfold shed_toward_floor. wp_steps; try done. pose proof (resident_count_bound s).
  eapply keeps_loop; [apply shed_toward_floor_turn_keeps|apply shed_toward_floor_turn_shrinks|done|lia].
Qed.
#[export] Hint Resolve shed_toward_floor_keeps : occ.

Lemma load_sampled_keeps l n : keeps (load_sampled l n).
Proof. unfold load_sampled. intros D k s Hb. occ_join. Qed.
#[export] Hint Resolve load_sampled_keeps : occ.

(** ** Activation stages and stops *)

Lemma reread_owner_held D k id cell (p : N → Phase) s :
  id ∉ D → hpost D k cell s → (∀ n, sound_phase (p n) ∧ owed (p n) ≤ owed (c_phase cell)) →
  wp False (λ _, True) (reread_owner id cell p) (hpost D k) s.
Proof.
  intros Hid H Hp. unfold reread_owner, cell_op. wp_step. wp_step. eapply wp_op_held; [done|].
  intros n Hn _. wp_steps. eapply wp_set_phase; [occ_hold|apply Hp|left; apply Hp|]. occ_auto.
Qed.

Lemma seed_restored_alarm_hkeeps id (cell : Cell) a : hkeeps id cell (seed_restored_alarm id cell a).
Proof. unfold seed_restored_alarm. intros D k s Hid H. occ_auto. Qed.
#[export] Hint Resolve seed_restored_alarm_hkeeps : occ.

Lemma fail_activation_hkeeps id (cell : Cell) e err : hkeeps2 id cell (fail_activation id cell e err).
Proof. unfold fail_activation. intros D k s Hid H. occ_auto. Qed.
#[export] Hint Resolve fail_activation_hkeeps : occ.

Lemma runtime_start_timed_out_keeps op : keeps (runtime_start_timed_out op).
Proof. unfold runtime_start_timed_out. intros D k s Hb. occ_auto. Qed.
#[export] Hint Resolve runtime_start_timed_out_keeps : occ.

Lemma start_runtime_hkeeps id cell e :
  phase_occupies_capacity (c_phase cell) = true → hkeeps id cell (start_runtime id cell e).
Proof. intros Ho D k s Hid H. unfold start_runtime. occ_auto. Qed.
#[export] Hint Resolve start_runtime_hkeeps : occ.

Lemma acquire_applied_held D k id cell op cl dormant s :
  id ∉ D → hpost D k cell s → c_phase cell = PhAcquiring op cl dormant →
  wp False (λ _, True) (acquire_applied id cell cl dormant) (hpost D k) s.
Proof. intros Hid H E. unfold acquire_applied. destruct dormant; occ_auto. Qed.

Lemma owner_cas_completed_keeps op res : keeps (owner_cas_completed op res).
Proof.
  intros D k s Hb. unfold owner_cas_completed. occ_join.
  - by eapply acquire_applied_held.
  - apply reread_owner_held; [done..|]. intros n. split; [done|]. unfold owed; simpl; lia.
  - apply reread_owner_held; [done..|]. intros n. split; [done|]. rewrite Heqp. done.
Qed.
#[export] Hint Resolve owner_cas_completed_keeps : occ.

Lemma restore_completed_keeps op res : keeps (restore_completed op res).
Proof. unfold restore_completed, seed_restored_alarm. intros D k s Hb. occ_auto. Qed.
#[export] Hint Resolve restore_completed_keeps : occ.

Lemma runtime_started_keeps op i g res : keeps (runtime_started op i g res).
Proof. unfold runtime_started. intros D k s Hb. occ_join. Qed.
#[export] Hint Resolve runtime_started_keeps : occ.

Lemma published_keeps op res : keeps (published op res).
Proof. unfold published. intros D k s Hb. occ_join. Qed.
#[export] Hint Resolve published_keeps : occ.

Lemma settle_stop_held D k id cell op e cause s :
  id ∉ D → hpost D k cell s → c_phase cell = PhCleaning op e cause →
  wp False (λ _, True) (settle_stop id cell e cause) (hpost D k) s.
Proof.
  intros Hid H E. unfold settle_stop. assert (Hs := proj1 H). rewrite E in Hs. simpl in Hs.
  destruct cause; try done; occ_join.
Qed.

Lemma runtime_stopped_keeps op : keeps (runtime_stopped op).
Proof.
  intros D k s Hb. unfold runtime_stopped, cleaning_op. occ_join.
  all: eapply wp_mono; [eapply settle_stop_held; [eassumption|occ_hold|done]|occ_join].
Qed.
#[export] Hint Resolve runtime_stopped_keeps : occ.

(** Only an eviction stop can fail or be cancelled: the other causes are
    unbounded, so the executor never reports those outcomes for them. *)
Definition bounded_stop (s : State) (op : N) : Prop :=
  ∀ id cell e cause, st_cell_ops s !! op = Some id → st_cells s !! id = Some cell →
    c_phase cell = PhCleaning op e cause → ∃ b, cause = StopEvict b.

Lemma runtime_stop_failed_spec D k op err s :
  base D k s → bounded_stop s op →
  wp False (λ _, True) (runtime_stop_failed op err) (λ _, base D k) s.
Proof.
  intros Hb Hst. unfold runtime_stop_failed, cleaning_op. occ_auto; simpl in *.
  all: rewrite H in Heqb; simpl in Heqb; rewrite Heqp in Heqb; apply N.eqb_eq in Heqb; subst.
  all: by destruct (Hst _ _ _ _ Heqo H Heqp).
Qed.

(** ** Handoff and the generation swap *)

Lemma releasing_insert_keeps id : keeps (releasing_insert id).
Proof. unfold releasing_insert. intros D k s Hb. occ_auto. Qed.
#[export] Hint Resolve releasing_insert_keeps : occ.

Lemma owner_released_keeps op res : keeps (owner_released op res).
Proof. unfold owner_released. intros D k s Hb. occ_join. Qed.
#[export] Hint Resolve owner_released_keeps : occ.

Lemma successor_adopted_keeps op res : keeps (successor_adopted op res).
Proof. unfold successor_adopted. intros D k s Hb. occ_join. Qed.
#[export] Hint Resolve successor_adopted_keeps : occ.

Lemma base_lookup D k s id : base D k s → id ∈ D → ∃ cell, st_cells s !! id = Some cell.
Proof. intros Hb Hid. by apply (base_dom _ _ _ _ Hb) in Hid as [cell ?]; eauto. Qed.

Lemma release_dormant_spec D k id e s :
  base D k s → id ∈ D → wp False (λ _, True) (release_dormant id e) (λ _, base D k) s.
Proof.
  intros Hb Hid. destruct (base_lookup _ _ _ _ Hb Hid) as [cell E].
  unfold release_dormant. occ_auto.
Qed.

Lemma release_queue_spec D k c s :
  base D k s → c.1 ∈ D → wp False (λ _, True) (release_queue c) (λ _, base D k) s.
Proof.
  intros Hb Hid. destruct (base_lookup _ _ _ _ Hb Hid) as [cell E]. destruct c as [id e].
  unfold release_queue. simpl in *. occ_auto.
Qed.

Lemma nominate_resident_spec D k id s :
  base D k s → id ∈ D → wp False (λ _, True) (nominate_resident id) (λ _, base D k) s.
Proof.
  intros Hb Hid. destruct (base_lookup _ _ _ _ Hb Hid) as [cell E].
  unfold nominate_resident. occ_auto.
Qed.

Lemma rebalance_candidates_dom s c : c ∈ rebalance_candidates s → c.1.1 ∈ dom (st_cells s).
Proof.
  unfold rebalance_candidates. rewrite sort_by_Permutation.
  intros ([id cell] & Hin & E)%list_elem_of_omap. apply elem_of_items in Hin.
  repeat case_match; simplify_eq/=. by eapply elem_of_dom_2.
Qed.

Lemma rebalance_keeps n : keeps (rebalance n).
Proof.
  intros D k s Hb. unfold rebalance. do 2 wp_step. cbv beta. case_match; [by wp_steps|]. cbv zeta.
  apply (wp_for_each (base D k)); [done| |done]. intros c s' Hc Hb'.
  apply release_dormant_spec; [done|]. apply elem_of_take in Hc as (i & Hc & _).
  apply list_elem_of_lookup_2, rebalance_candidates_dom in Hc. by destruct Hb as [<- _].
Qed.
#[export] Hint Resolve rebalance_keeps : occ.

Lemma spend_each_spec {A} D k (l : list A) limit i (f : A → dec unit) s :
  base D k s →
  (∀ x s', x ∈ l → base D k s' → wp False (λ _, True) (f x) (λ _, base D k) s') →
  wp False (λ _, True) (spend_each l limit i f) (λ _, base D k) s.
Proof.
  revert i s. induction l as [|x l IH]; intros i s Hb Hf; simpl; [by apply wp_ret|].
  wp_step; [by wp_steps|]. wp_step. eapply wp_mono; [apply Hf; [left|done]|].
  cbv beta. intros _ s' Hb'. apply IH; [done|]. intros y s2 Hy. apply Hf. by right.
Qed.

Lemma dormant_cells_dom s keep c : c ∈ dormant_cells s keep → c.1 ∈ dom (st_cells s).
Proof.
  unfold dormant_cells. intros ([id cell] & Hin & E)%list_elem_of_omap.
  apply elem_of_items in Hin. repeat case_match; simplify_eq/=. by eapply elem_of_dom_2.
Qed.

Lemma pump_release_keeps : keeps pump_release.
Proof.
  intros D k s Hb. unfold pump_release. do 2 wp_step. cbv beta. case_match; [by wp_steps|]. cbv zeta.
  wp_step. apply (wp_for_each (base D k)); [done|by intros; occ_auto|]. intros s1 H1.
  case_match; [by wp_steps|]. do 3 wp_step. cbv beta.
  eapply wp_mono; [apply spend_each_spec; [done|]|].
  { intros c s' Hc%dormant_cells_dom Hb'. apply release_queue_spec; [done|]. by destruct H1 as [<- _]. }
  cbv beta. intros [i []] s2 H2; [by wp_steps|]. do 3 wp_step. cbv beta.
  eapply wp_mono; [apply spend_each_spec; [done|]|].
  { intros id s' Hid Hb'. apply nominate_resident_spec; [done|]. destruct H2 as [<- _].
    apply list_elem_of_fmap in Hid as ([id' cell] & -> & Hin). rewrite sort_by_Permutation in Hin.
    apply list_elem_of_filter in Hin as [_ Hin%elem_of_items]. by eapply elem_of_dom_2. }
  cbv beta. intros [i' []] s3 H3; [by wp_steps|]. do 3 wp_step. cbv beta.
  eapply wp_mono; [apply spend_each_spec; [done|]|by intros; wp_steps].
  intros c s' Hc%dormant_cells_dom Hb'. apply release_dormant_spec; [done|]. by destruct H3 as [<- _].
Qed.
#[export] Hint Resolve pump_release_keeps : occ.

Lemma release_all_keeps : keeps release_all.
Proof. unfold release_all. intros D k s Hb. occ_auto. Qed.
#[export] Hint Resolve release_all_keeps : occ.

Lemma generation_changed_keeps g a l : keeps (generation_changed g a l).
Proof. unfold generation_changed. intros D k s Hb. occ_auto. Qed.
#[export] Hint Resolve generation_changed_keeps : occ.

(** A nominated cell is resident, and its swap touches no other cell. *)
Lemma swap_cell_spec D k b id e s :
  base D k s → phase_of id s = Some (PhResident e) →
  wp False (λ _, True) (swap_cell b id)
    (λ _ s', base D k s' ∧ ∀ id', id' ≠ id → phase_of id' s' = phase_of id' s) s.
Proof.
  intros Hb Hp. unfold phase_of in Hp. destruct (st_cells s !! id) as [cell|] eqn:E; [|done].
  simpl in Hp. injection Hp as Hp. unfold swap_cell. do 2 wp_step. cbv beta. rewrite E.
  wp_step. apply wp_expect. rewrite Hp. unfold phase_of.
  assert (Hother : ∀ c id', id' ≠ id → c_phase <$> <[id := c]> (st_cells s) !! id' = c_phase <$> st_cells s !! id').
  { intros c id' ?. by rewrite lookup_insert_ne. }
  case_match; [case_match; [by wp_steps|]|].
  - wp_step. occ_insert. wp_step; [done|]. split; [done|]. simpl. auto.
  - wp_step. unfold cell_op. wp_step. eapply wp_op; [done|]. intros n Hn _. do 3 wp_step. wp_step.
    eapply wp_set_phase_in; [occ_hold|occ_lookup|done|done|occ_room|]. cbv zeta. intros m Hm.
    wp_steps; [done|]. split; [occ_hold|]. simpl. auto.
Qed.

Lemma swap_cells_spec D k b (l : list string) s :
  base D k s → NoDup l → (∀ id, id ∈ l → ∃ e, phase_of id s = Some (PhResident e)) →
  wp False (λ _, True) (for_each l (swap_cell b)) (λ _, base D k) s.
Proof.
  revert s. induction l as [|id l IH]; intros s Hb Hnd Hres; simpl; [by apply wp_ret|].
  apply NoDup_cons in Hnd as [Hn Hnd]. destruct (Hres id) as [e He]; [left|]. wp_step.
  eapply wp_mono; [by eapply swap_cell_spec|]. cbv beta. intros _ s' [Hb' Ho].
  apply IH; [done..|]. intros id' Hid'. rewrite Ho by (intros ->; done). apply Hres. by right.
Qed.

Lemma NoDup_ids_where s f : NoDup (ids_where s f).
Proof.
  unfold ids_where. eapply sublist_NoDup; [apply (NoDup_keys (st_cells s))|].
  apply fmap_sublist, sublist_filter.
Qed.

Lemma elem_of_ids_where s f id :
  id ∈ ids_where s f → ∃ cell, st_cells s !! id = Some cell ∧ f cell = true.
Proof.
  unfold ids_where. intros ([i c] & -> & [Hf Hin]%list_elem_of_filter)%list_elem_of_fmap.
  apply elem_of_items in Hin. exists c. split; [done|]. by apply Is_true_true.
Qed.

Lemma pump_swap_keeps : keeps pump_swap.
Proof.
  intros D k s Hb. unfold pump_swap. do 2 wp_step. cbv beta. case_match; [by wp_steps|]. cbv zeta.
  wp_step. apply (wp_for_each (base D k)); [done| |].
  { intros id s' Hid Hb'. apply elem_of_take in Hid as (i & Hid & _).
    apply list_elem_of_lookup_2, elem_of_ids_where in Hid as (c & Ec & _).
    destruct (base_lookup D k s' id Hb') as [c' Ec'].
    { destruct Hb as [<- _]. by eapply elem_of_dom_2. }
    occ_auto. }
  intros s1 H1. do 2 wp_step. cbv beta.
  apply swap_cells_spec; [done|apply NoDup_ids_where|]. intros id (c & Ec & Hc)%elem_of_ids_where.
  unfold swap_nominated, phase_of in *. rewrite Ec. simpl.
  apply andb_true_iff in Hc as [_ Hc]. destruct (c_phase c); try done. eauto.
Qed.
#[export] Hint Resolve pump_swap_keeps : occ.

(** ** The machine *)

Lemma websocket_opened_keeps id w k : keeps (websocket_opened id w k).
Proof. unfold websocket_opened. intros D k' s Hb. occ_auto. Qed.
#[export] Hint Resolve websocket_opened_keeps : occ.

Lemma websocket_closed_keeps id w : keeps (websocket_closed id w).
Proof. unfold websocket_closed. intros D k s Hb. occ_auto. Qed.
#[export] Hint Resolve websocket_closed_keeps : occ.

Lemma invalidate_remote_keeps id n e : keeps (invalidate_remote id n e).
Proof.
  unfold invalidate_remote, remote_at. intros D k s Hb. occ_auto.
Qed.
#[export] Hint Resolve invalidate_remote_keeps : occ.

Lemma arm_operation_deadlines_keeps l : keeps (arm_operation_deadlines l).
Proof. unfold arm_operation_deadlines. intros D k s Hb. occ_auto. Qed.
#[export] Hint Resolve arm_operation_deadlines_keeps : occ.

Lemma expire_operation_keeps op n : keeps (expire_operation op n).
Proof. unfold expire_operation. intros D k s Hb. occ_join. Qed.
#[export] Hint Resolve expire_operation_keeps : occ.

Lemma renew_lease_keeps h n m : keeps (renew_lease h n m).
Proof. unfold renew_lease. intros D k s Hb. occ_auto. Qed.
#[export] Hint Resolve renew_lease_keeps : occ.

Lemma lease_timer_keeps b g n m : keeps (lease_timer b g n m).
Proof. unfold lease_timer. intros D k s Hb. occ_auto. Qed.
#[export] Hint Resolve lease_timer_keeps : occ.

Lemma timer_fired_keeps t n m : keeps (timer_fired t n m).
Proof. unfold timer_fired. intros D k s Hb. occ_auto. Qed.
#[export] Hint Resolve timer_fired_keeps : occ.

Lemma nudge_node_lease_keeps n m : keeps (nudge_node_lease n m).
Proof. unfold nudge_node_lease. intros D k s Hb. occ_auto. Qed.
#[export] Hint Resolve nudge_node_lease_keeps : occ.


(** What the environment promises: a local inventory without repeats, and no
    failed or cancelled stop but an eviction's. *)
Definition event_ok (s : State) (e : Event) : Prop :=
  match e with
  | EvLocalCellsRead res => inventory_ok res
  | EvRuntimeStopFailed op | EvRuntimeStopCancelled op => bounded_stop s op
  | _ => True
  end.

Lemma handle_stable e s :
  inv_at 0 s → event_ok s e → wp False (λ _, True) (handle e) (λ _, inv_at 0) s.
Proof.
  intros Hs Hok. unfold handle.
  destruct e; try (apply stable_elim; [solve [eauto with occ nocore]|exact Hs]).
  - by apply local_cells_read_stable.
  - eapply wp_mono; [eapply runtime_stop_failed_spec; [by apply inv_base|done]|].
    intros ? ? H. exact (base_inv _ _ _ H).
  - eapply wp_mono; [eapply runtime_stop_failed_spec; [by apply inv_base|done]|].
    intros ? ? H. exact (base_inv _ _ _ H).
Qed.

Lemma advance_clocks_view e s : view (advance_clocks e s) = view s.
Proof. unfold advance_clocks. by destruct (event_mono_ms e), (event_now_ms e). Qed.

Lemma advance_clocks_ok e s : event_ok s e → event_ok (advance_clocks e s) e.
Proof.
  unfold event_ok, bounded_stop, advance_clocks.
  destruct e; try done; destruct (event_mono_ms _), (event_now_ms _); done.
Qed.

Lemma on_event_stable e s :
  inv_at 0 s → event_ok s e → wp False (λ _, True) (on_event e) (λ _, inv_at 0) s.
Proof.
  intros Hs Hok. unfold on_event, transition. do 5 wp_step.
  apply (λ H, inv_ext _ _ H (advance_clocks_view e s)) in Hs. apply advance_clocks_ok in Hok.
  eapply wp_mono; [by apply handle_stable|]. cbv beta. intros _ s1 H1.
  repeat stable_step. apply (wp_for_each (inv_at 0)); [done|by intros; wp_steps|].
  intros s2 H4. repeat stable_step.
Qed.

Lemma new_inv node config : inv_at 0 (new node config).
Proof.
  split; [done|]. split; [simpl; lia|]. repeat split; apply map_Forall_empty.
Qed.

Lemma reachable_inv node config s : reachable event_ok (new node config) s → inv_at 0 s.
Proof.
  apply reachable_invariant; [apply new_inv|]. intros s1 e s2 es H1 Hok E.
  by destruct (wp_done _ _ _ _ _ _ _ _ (on_event_stable e s1 H1 Hok) E).
Qed.

(** ** Properties *)

(** On every state a node reaches, the residency counter is exactly the
    number of cells in a capacity-occupying phase, and it does not exceed the
    configured ceiling. *)
Theorem occupied_exact node config s :
  reachable event_ok (new node config) s →
  st_occupied s = occupied_walk (st_cells s) ∧ st_occupied s ≤ max_resident config.
Proof.
  intros Hr. pose proof (reachable_inv _ _ _ Hr) as (Ho & Hm & _).
  rewrite (fr_config _ _ (reachable_frame _ _ _ Hr)) in Hm. split; [lia|done].
Qed.

Lemma occupied_exact_witness :
  st_occupied (after activation_script) = 1 ∧
  st_occupied (after activation_script) = occupied_walk (st_cells (after activation_script)) ∧
  st_occupied (after activation_script) ≤ max_resident sample_config.
Proof.
  split; [vm_compute; reflexivity|]. apply (occupied_exact "a" sample_config).
  apply after_reachable; [vm_compute; reflexivity|]. intros s. by repeat constructor.
Defined.


