(* ===== verification/GateFlow.v ===== *)
(** * What the output gate promises

    Every output the runtime hands over is answered exactly once or is still
    withheld, whatever happens to its cell: the outputs submitted are, as a
    multiset, the outputs withheld and the verdicts given.  A positive verdict
    has one of three causes: nothing was left to prove, a fleet proof covered
    the barrier that held the output, or its ownership was verified. *)

From S2P Require Import Prelude Effects Pressure LogTier Wake Types CoreState CoreOps.
From S2P Require Import Activation Alarms OutputGate NodeLease Ingress Resolution Shedding.
From S2P Require Import Lifecycle Handoff Machine Samples Validate Frame.

(** ** Withheld outputs and verdicts *)

Definition held_in (m : gmap N Barrier) : list Held :=
  map_to_list m ≫= λ item, held_outputs item.2.

Definition held (s : State) : list Held := held_in (st_barriers s).

Definition verdict (e : Effect) : option Held :=
  match e with FxRelease request channel _ => Some (mkHeld request channel) | _ => None end.

Definition released (es : list Effect) : list Held := omap verdict es.

Definition submitted (e : Event) : list Held :=
  match e with
  | EvOutput request channel _ _ _ | EvOutputAt request channel _ _ _ _ => [mkHeld request channel]
  | _ => []
  end.

(** Any effect but a positive verdict or the verification that leads to one. *)
Definition denied (e : Effect) : Prop :=
  match e with FxRelease _ _ (Ok _) | FxVerifyOwnership _ _ _ => False | _ => True end.

(** A barrier keeps its cell, epoch and position, and its id is not reused. *)
Definition ages (s s' : State) : Prop :=
  st_next_op s ≤ st_next_op s'
  ∧ ∀ op b', st_barriers s' !! op = Some b' → op < st_next_op s →
      ∃ b, st_barriers s !! op = Some b
        ∧ b_cell b' = b_cell b ∧ b_epoch b' = b_epoch b ∧ b_position b' = b_position b.

(** Barriers are below the next operation id, and an export has no followers. *)
Definition gate_ok (s : State) : Prop :=
  map_Forall (λ op b, op < st_next_op s ∧ (trailable b = false → b_followers b = []))
    (st_barriers s).

Lemma held_in_insert m op b :
  m !! op = None → held_in (<[op := b]> m) ≡ₚ held_outputs b ++ held_in m.
Proof. intros H. unfold held_in. by rewrite map_to_list_insert. Qed.

Lemma held_in_delete m op b :
  m !! op = Some b → held_in m ≡ₚ held_outputs b ++ held_in (delete op m).
Proof.
  intros H. rewrite <- (insert_delete_id m op b H) at 1. apply held_in_insert, lookup_delete_eq.
Qed.

Lemma held_in_alter f m op b d :
  m !! op = Some b → held_outputs (f b) ≡ₚ d ++ held_outputs b →
  held_in (alter f op m) ≡ₚ d ++ held_in m.
Proof.
  intros H Hd. rewrite (alter_Some _ _ _ _ H), <- insert_delete_eq.
  rewrite held_in_insert by apply lookup_delete_eq.
  rewrite Hd, (held_in_delete m op b H). by rewrite app_assoc.
Qed.

Lemma ages_refl s : ages s s.
Proof. split; [lia|]. eauto. Qed.

Lemma ages_trans s1 s2 s3 : ages s1 s2 → ages s2 s3 → ages s1 s3.
Proof.
  intros [H1 A1] [H2 A2]. split; [lia|]. intros op b3 E3 Hop.
  destruct (A2 op b3 E3) as (b2 & E2 & -> & -> & ->); [lia|]. by apply A1.
Qed.

Lemma ages_same s s' :
  st_next_op s ≤ st_next_op s' → st_barriers s' = st_barriers s → ages s s'.
Proof. intros Hn Hb. split; [done|]. rewrite Hb. eauto. Qed.

Lemma released_app es1 es2 : released (es1 ++ es2) = released es1 ++ released es2.
Proof. apply omap_app. Qed.

Lemma released_quiet es : Forall quiet es → released es = [].
Proof. induction 1 as [|[] es He _ IH]; try done. Qed.

Lemma quiet_denied e : quiet e → denied e.
Proof. by destruct e. Qed.

(** ** Flows

    [flow PE d c]: started with the outputs [d] owed a verdict, [c] conserves
    outputs and emits only effects in [PE]. *)

Create HintDb flow.

Section flow.
Context (PE : Effect → Prop) (HPE : ∀ e, denied e → PE e).

Definition flow_at {A} (d : list Held) (c : dec A) (s : State) : Prop :=
  gate_ok s →
  wpe True c (λ _ s' es, gate_ok s' ∧ d ++ held s ≡ₚ held s' ++ released es ∧ Forall PE es ∧ ages s s') s.

Definition flow {A} (d : list Held) (c : dec A) : Prop := ∀ s, flow_at d c s.

Lemma flow_framed {A} (c : dec A) : framed c → flow [] c.
Proof.
  intros Hc s Hg. eapply wpe_mono; [apply wp_wpe, (Hc s s (frame_refl s))|].
  intros a s' es [[[Hcore _] Hb] Hq]. unfold gate_ok, held. rewrite Hb. split; [|split].
  - eapply map_Forall_impl; [exact Hg|]. simpl. intros op b [? ?].
    pose proof (fr_op _ _ Hcore). split; [lia|done].
  - rewrite released_quiet by done. by rewrite app_nil_r.
  - split; [|apply ages_same; [apply Hcore|done]].
    eapply Forall_impl; [done|]. intros e He. by apply HPE, quiet_denied.
Qed.

Lemma flow_ret {A} (a : A) s : flow_at [] (mret a) s.
Proof. intros Hg. split; [done|]. split; [by rewrite app_nil_r|split; [done|apply ages_refl]]. Qed.

Lemma flow_bind {A B} d1 d2 (m : dec A) (f : A → dec B) s :
  flow_at d1 m s → (∀ a s', gate_ok s' → flow_at d2 (f a) s') → flow_at (d1 ++ d2) (m ≫= f) s.
Proof.
  intros Hm Hf Hg. apply wpe_bind. eapply wpe_mono; [by apply Hm|].
  intros a s1 es1 (Hg1 & Hp1 & He1 & Ha1). eapply wpe_mono; [by apply Hf|].
  intros b s2 es2 (Hg2 & Hp2 & He2 & Ha2). split; [done|].
  split; [|split; [by apply Forall_app|by eapply ages_trans]].
  rewrite released_app. rewrite <- (Permutation_app_comm d2 d1), <- app_assoc, Hp1.
  rewrite app_assoc, Hp2, <- app_assoc. by rewrite (Permutation_app_comm (released es2)).
Qed.

Lemma flow_bind_nil {A B} d (m : dec A) (f : A → dec B) s :
  flow_at [] m s → (∀ a s', gate_ok s' → flow_at d (f a) s') → flow_at d (m ≫= f) s.
Proof. apply (flow_bind [] d). Qed.

Lemma flow_bind_last {A B} d (m : dec A) (f : A → dec B) s :
  flow_at d m s → (∀ a s', gate_ok s' → flow_at [] (f a) s') → flow_at d (m ≫= f) s.
Proof. intros Hm Hf. rewrite <- (app_nil_r d). by apply flow_bind; [|]. Qed.

Lemma flow_get {B} d (f : State → dec B) s : flow_at d (f s) s → flow_at d (get ≫= f) s.
Proof.
  intros Hf Hg. apply wpe_bind. unfold wpe at 1. simpl. exact (Hf Hg).
Qed.

Lemma flow_expect {A B} d (o : option A) (f : A → dec B) s :
  (∀ a, o = Some a → flow_at d (f a) s) → flow_at d (expect o ≫= f) s.
Proof.
  intros Hf Hg. destruct o as [a|]; [|done]. apply wpe_bind. unfold wpe at 1. simpl.
  exact (Hf a eq_refl Hg).
Qed.

Lemma flow_fold_nil {A C} (l : list A) (acc : C) (f : C → A → dec C) s :
  (∀ acc x s, flow_at [] (f acc x) s) → flow_at [] (fold_each l acc f) s.
Proof.
  intros Hf. revert acc s. induction l as [|x l IH]; intros acc s; simpl; [apply flow_ret|].
  apply flow_bind_nil; [apply Hf|]. intros. apply IH.
Qed.

Lemma flow_emit e s : verdict e = None → PE e → flow_at [] (emit e) s.
Proof.
  intros Hv He Hg. split; [done|]. split; [|split; [by repeat constructor|apply ages_refl]].
  unfold released. simpl. by rewrite Hv, app_nil_r.
Qed.

Lemma flow_release h res s :
  PE (FxRelease (h_request h) (h_channel h) res) → flow_at [h] (emit_release h res) s.
Proof.
  intros He Hg. split; [done|]. split; [|split; [by repeat constructor|apply ages_refl]].
  destruct h. simpl. by rewrite Permutation_cons_append.
Qed.

Lemma flow_for_each {A} (d : A → list Held) (l : list A) (f : A → dec unit) s :
  (∀ x s, x ∈ l → flow_at (d x) (f x) s) → flow_at (l ≫= d) (for_each l f) s.
Proof.
  revert s. induction l as [|x l IH]; intros s Hf; simpl; [apply flow_ret|].
  apply flow_bind; [apply Hf; left|]. intros _ s' _. apply IH. intros. apply Hf. by right.
Qed.

Lemma flow_for_each_nil {A} (l : list A) (f : A → dec unit) s :
  (∀ x s, x ∈ l → flow_at [] (f x) s) → flow_at [] (for_each l f) s.
Proof.
  intros Hf. replace [] with (l ≫= λ _ : A, @nil Held); [by apply flow_for_each|].
  clear Hf. by induction l.
Qed.

Lemma ages_delete op s : ages s (set_st_barriers (delete op (st_barriers s)) s).
Proof. split; [simpl; lia|]. simpl. intros o b [_ E]%lookup_delete_Some _. eauto. Qed.

Lemma ages_alter f op s :
  (∀ b, b_cell (f b) = b_cell b ∧ b_epoch (f b) = b_epoch b ∧ b_position (f b) = b_position b) →
  ages s (set_st_barriers (alter f op (st_barriers s)) s).
Proof.
  intros Hf. split; [simpl; lia|]. simpl. intros o b. rewrite lookup_alter. case_decide; [subst o|eauto].
  destruct (st_barriers s !! op) as [b0|]; [|done]. intros [= <-] _. exists b0. split; [done|]. apply Hf.
Qed.

(** A barrier leaves the index and its outputs are owed; one enters. *)
Lemma flow_remove {B} d op b (f : unit → dec B) s :
  st_barriers s !! op = Some b →
  (∀ s', gate_ok s' → flow_at (held_outputs b ++ d) (f tt) s') →
  flow_at d (barrier_remove op ≫= f) s.
Proof.
  intros E Hf Hg. apply wpe_bind. unfold wpe at 1, barrier_remove. simpl.
  set (s' := set_st_barriers _ s). eapply wpe_mono; [apply Hf; [|]|].
  1,2: by apply map_Forall_delete.
  intros a s2 es (Hg2 & Hp & He & Ha). split; [done|].
  split; [|split; [done|eapply ages_trans; [|exact Ha]]]; [rewrite <- Hp|apply ages_delete].
  unfold held. rewrite (held_in_delete _ _ _ E). simpl. by rewrite <- !app_assoc, !(Permutation_app_comm d), <-app_assoc.
Qed.

Lemma gate_ok_alter f op s :
  gate_ok s →
  (∀ b, st_barriers s !! op = Some b →
    trailable (f b) = trailable b ∧ (trailable b = false → b_followers (f b) = b_followers b)) →
  gate_ok (set_st_barriers (alter f op (st_barriers s)) s).
Proof.
  intros Hg Hf o b. simpl. rewrite lookup_alter. case_decide; [subst o|by apply Hg].
  destruct (st_barriers s !! op) as [b'|] eqn:E; [|done]. intros [= <-].
  destruct (Hg op b' E) as [? ?], (Hf b') as [Ht Hb]; [done|]. split; [done|].
  rewrite Ht. intros Hn. rewrite Hb; auto.
Qed.

Lemma flow_update op b f d s :
  st_barriers s !! op = Some b → held_outputs (f b) ≡ₚ d ++ held_outputs b →
  trailable (f b) = trailable b → (trailable b = false → b_followers (f b) = b_followers b) →
  (∀ b, b_cell (f b) = b_cell b ∧ b_epoch (f b) = b_epoch b ∧ b_position (f b) = b_position b) →
  flow_at d (barrier_update op f) s.
Proof.
  intros E Hd Ht Hn Hf Hg. unfold wpe, barrier_update, modify.
  split; [|split; [|split; [done|by apply ages_alter]]].
  - apply gate_ok_alter; [done|]. intros b' E'. by simplify_eq.
  - unfold held. simpl. rewrite (held_in_alter _ _ _ _ d E Hd). by rewrite app_nil_r.
Qed.

(** An update of the riders or of the verification mark. *)
Definition marks (f : Barrier → Barrier) : Prop :=
  ∀ b, (b_owner (f b) = b_owner b ∧ b_followers (f b) = b_followers b)
    ∧ b_cell (f b) = b_cell b ∧ b_epoch (f b) = b_epoch b ∧ b_position (f b) = b_position b.

Lemma flow_mark op f s : marks f → flow_at [] (barrier_update op f) s.
Proof.
  intros Hf. destruct (st_barriers s !! op) as [b|] eqn:E.
  - destruct (Hf b) as [[Ho Hb] _].
    eapply flow_update; [done| | |done|intros; apply Hf];
      unfold held_outputs, trailable; by rewrite ?Ho, ?Hb.
  - intros Hg. unfold wpe, barrier_update, modify. rewrite alter_id' by done.
    destruct (flow_ret tt s Hg) as (? & ? & ? & ?). split; [done|].
    split; [|split; [done|by apply ages_same]]. by rewrite app_nil_r.
Qed.

Lemma flow_open owner id e p s :
  flow_at (match owner with OwnOutput h => [h] | _ => [] end) (open_barrier owner id e p) s.
Proof.
  unfold open_barrier, op. intros Hg. unfold wpe, mbind, M_bind, get, modify, mret, M_ret; simpl.
  destruct (checked_add (st_next_op s) 1) as [n|] eqn:En; simpl; [|done].
  apply checked_add_Some in En as [-> _].
  assert (Hfresh : st_barriers s !! st_next_op s = None).
  { destruct (st_barriers s !! st_next_op s) eqn:E; [|done]. destruct (Hg _ _ E). lia. }
  split; [|split; [|split]].
  - apply map_Forall_insert_2; simpl; [split; [lia|done]|].
    eapply map_Forall_impl; [exact Hg|]. simpl. intros ? ? [? ?]. split; [lia|done].
  - unfold held. simpl. rewrite (held_in_insert _ _ _ Hfresh). unfold held_outputs. simpl.
    by rewrite !app_nil_r.
  - repeat constructor. by apply HPE.
  - split; [simpl; lia|]. simpl. intros o b. rewrite lookup_insert_Some.
    intros [[<- _]|[_ Eo]] Hlt; [lia|eauto].
Qed.

(** ** The operations of the gate *)

Lemma flow_match_nil {A} (c : dec A) s : framed c → flow_at [] c s.
Proof. intros Hc. by apply flow_framed. Qed.

(** Closes a flow that neither owes nor gives a verdict. *)
Ltac flow_quiet := apply flow_match_nil; solve [auto with frame nocore|frame_auto].

Lemma flow_release_held h res s :
  PE (FxRelease (h_request h) (h_channel h) res) → flow_at [h] (release_held h res) s.
Proof.
  intros He. unfold release_held. apply flow_get, flow_bind_nil; [flow_quiet|].
  intros _ s' _. by apply flow_release.
Qed.

Lemma flow_followers (l : list Held) res s :
  (∀ h, h ∈ l → PE (FxRelease (h_request h) (h_channel h) res)) →
  flow_at l (for_each l (λ h, release_held h res)) s.
Proof.
  intros He. replace l with (l ≫= λ h, [h]) at 1 by (clear; by induction l; f_equal/=).
  apply flow_for_each. intros h s' Hh. by apply flow_release_held, He.
Qed.

Lemma flow_verdicts (l : list Held) res s :
  (∀ h, h ∈ l → PE (FxRelease (h_request h) (h_channel h) res)) →
  flow_at l (for_each l (λ h, emit_release h res)) s.
Proof.
  intros He. replace l with (l ≫= λ h, [h]) at 1 by (clear; by induction l; f_equal/=).
  apply flow_for_each. intros h s' Hh. by apply flow_release, He.
Qed.

Lemma flow_riders id e (l : list Rider) res s :
  flow_at [] (for_each l (λ rider, emit (FxExportProven id e (r_ticket rider) res))) s.
Proof. apply flow_for_each_nil. intros r s' _. apply flow_emit; [done|by apply HPE]. Qed.

Lemma flow_alarm_finished op f e n m res s : flow_at [] (alarm_finished op f e n m res) s.
Proof.
  unfold alarm_finished. apply flow_get.
  destruct res as [[[snapshot covered] [position|]]|]; [|flow_quiet..].
  case_match; [apply flow_open|flow_quiet].
Qed.

Lemma flow_doom_barrier b s : flow_at (held_outputs b) (doom_barrier b) s.
Proof.
  unfold doom_barrier, held_outputs. apply flow_bind.
  - destruct (b_owner b) as [h|alarm sn cv|t].
    + apply flow_bind_nil; [flow_quiet|]. intros _ s' _. by apply flow_release, HPE.
    + apply flow_get, flow_alarm_finished.
    + by apply flow_emit, HPE.
  - intros _ s' _. apply flow_bind_last; [|intros; apply flow_riders].
    apply flow_verdicts. intros. by apply HPE.
Qed.

Lemma flow_reset_cell id e s : flow_at [] (reset_cell id e) s.
Proof.
  unfold reset_cell. apply flow_get. case_match; [apply flow_ret|].
  apply flow_bind_nil; [|intros _ s1 _; flow_quiet].
  apply flow_for_each_nil. intros op s1 _. apply flow_get. unfold with_some.
  destruct (st_barriers s1 !! op) as [b|] eqn:E; [|apply flow_ret].
  eapply flow_remove; [done|]. intros s2 _. rewrite app_nil_r. apply flow_doom_barrier.
Qed.

Lemma flow_settle_gate op (proven : bool) s :
  (∀ b h, st_barriers s !! op = Some b → h ∈ held_outputs b →
     PE (FxRelease (h_request h) (h_channel h) (if proven then Ok tt else Err DurabilityUnproven))) →
  flow_at [] (settle_gate op proven) s.
Proof.
  intros He. unfold settle_gate. apply flow_get. unfold with_some.
  destruct (st_barriers s !! op) as [b|] eqn:E; [|apply flow_ret]. intros Hg.
  destruct (Hg op b E) as [_ Hexp]. specialize (He b). revert Hg.
  eapply flow_remove; [done|]. intros s1 _. rewrite app_nil_r.
  apply flow_bind_nil; [flow_quiet|]. intros _ s2 _. cbv zeta.
  apply flow_bind_nil; [apply flow_riders|]. intros _ s3 _. unfold held_outputs in *.
  assert (Hrest : ∀ s, flow_at (b_followers b)
    (for_each (b_followers b) (λ h, release_held h (if proven then Ok tt else Err DurabilityUnproven)) ;;
     when (negb proven) (reset_cell (b_cell b) (b_epoch b))) s).
  { intros s4. apply flow_bind_last; [apply flow_followers; set_solver|]. intros _ s5 _.
    destruct proven; [apply flow_ret|apply flow_reset_cell]. }
  destruct (b_owner b) as [h|alarm sn cv|t] eqn:Eo.
  - apply (flow_bind [h]); [apply flow_release_held; set_solver|]. intros. apply Hrest.
  - apply flow_get, flow_bind_nil; [apply flow_alarm_finished|]. intros. apply Hrest.
  - rewrite Hexp by (unfold trailable; by rewrite Eo). by apply flow_emit, HPE.
Qed.

Lemma flow_open_write_barrier h p s :
  PE (FxRelease (h_request h) (h_channel h) (Err DurabilityUnproven)) →
  flow_at [h] (open_write_barrier h p) s.
Proof.
  intros He. unfold open_write_barrier. apply flow_get.
  destruct (resident_cell s (h_request h)) as [[id e]|]; [|by apply flow_release].
  apply (flow_open (OwnOutput h)).
Qed.

(** The output trails the last barrier a filter selects. *)
Lemma flow_follow h (f : N → Barrier → bool) (c : dec unit) s :
  (∀ op b, f op b = true → trailable b = true) →
  (last (barriers_where s f) = None → flow_at [h] c s) →
  flow_at [h] (match last (barriers_where s f) with
               | Some op => barrier_update op (push_follower h)
               | None => c
               end) s.
Proof.
  intros Hf Hc. destruct (last (barriers_where s f)) as [op|] eqn:E; [|by apply Hc].
  apply last_Some_elem_of, elem_of_barriers_where in E as (b & Eb & Hb).
  eapply flow_update; [exact Eb| |done|intros Hn; by rewrite (Hf _ _ Hb) in Hn|done].
  unfold held_outputs. simpl. rewrite app_assoc. by rewrite (Permutation_app_comm _ [h]).
Qed.

Lemma flow_hold_observed h id e o s :
  PE (FxRelease (h_request h) (h_channel h) (Err DurabilityUnproven)) →
  flow_at [h] (hold_observed h id e o) s.
Proof.
  intros He. unfold hold_observed. apply flow_get, flow_follow.
  - by intros op b [_ ?]%andb_prop.
  - intros _. by apply flow_open_write_barrier.
Qed.

(** Nothing is left to prove for the cell the request runs on. *)
Definition nothing_owed (s : State) (request : N) : Prop :=
  ∃ id, st_active_requests s !! request = Some id
    ∧ ∀ op b, st_barriers s !! op = Some b → b_cell b = id → trailable b = false.

Lemma flow_trail_open_barrier h s :
  PE (FxRelease (h_request h) (h_channel h) (Err DurabilityUnproven)) →
  (nothing_owed s (h_request h) → PE (FxRelease (h_request h) (h_channel h) (Ok tt))) →
  flow_at [h] (trail_open_barrier h) s.
Proof.
  intros He Hok. unfold trail_open_barrier. apply flow_get.
  destruct (st_active_requests s !! h_request h) as [id|] eqn:Ea; [|by apply flow_release].
  apply flow_follow; [by intros op b [_ ?]%andb_prop|]. intros Hnone.
  apply flow_release, Hok. exists id. split; [done|]. intros op b Eb Hid.
  destruct (trailable b) eqn:Ht; [|done]. apply last_None in Hnone.
  assert (Hin : op ∈ barriers_where s (λ _ b, bool_decide (b_cell b = id) && trailable b)).
  { apply barriers_where_elem_of with b; [done|]. by rewrite bool_decide_true, Ht. }
  rewrite Hnone in Hin. by apply elem_of_nil in Hin.
Qed.

(** The observation of an output without a write of its own is proved. *)
Definition observed_proven (s : State) (request : N) (observed : option N) : Prop :=
  match observed with
  | None => True
  | Some observed => ∃ id epoch,
      resident_cell s request = Some (id, epoch) ∧ proven_covers s id epoch observed = true
  end.

Lemma flow_output request channel position observed epoch s :
  (∀ err, PE (FxRelease request channel (Err err))) →
  (position = None → node_authoritative s = true → observed_proven s request observed →
   nothing_owed s request → PE (FxRelease request channel (Ok tt))) →
  flow_at [mkHeld request channel] (output request channel position observed epoch) s.
Proof.
  intros He Hok. unfold output. cbv zeta. apply flow_get.
  destruct (node_authoritative s) eqn:Ea; simpl; [|by apply flow_release].
  case_match; [by apply flow_release|]. destruct position as [p|]; [by apply flow_open_write_barrier|].
  destruct observed as [o|]; [|apply flow_trail_open_barrier; [by apply He|intros; by apply Hok]].
  destruct (resident_cell s request) as [[id e]|] eqn:Er; [|by apply flow_release].
  destruct (proven_covers s id e o) eqn:Ep; [|by apply flow_hold_observed].
  apply flow_trail_open_barrier; [by apply He|]. apply Hok; [done..|]. simpl. eauto.
Qed.

Lemma flow_reask_riders id e rs s : flow_at [] (reask_riders id e rs) s.
Proof. apply flow_for_each_nil. intros r s' _. apply (flow_open (OwnExport _)). Qed.

Lemma flow_export_ticket id e p t s : flow_at [] (export_ticket id e p t) s.
Proof.
  unfold export_ticket. apply flow_get. case_match; [by apply flow_emit, HPE|].
  case_match; [by apply flow_emit, HPE|]. case_match; [by apply flow_mark|apply (flow_open (OwnExport _))].
Qed.

(** An export barrier that changes host holds no output. *)
Lemma flow_drop_export {B} op b (f : unit → dec B) s :
  st_barriers s !! op = Some b → is_some (as_riders b) = true →
  (∀ s', gate_ok s' → flow_at [] (f tt) s') → flow_at [] (barrier_remove op ≫= f) s.
Proof.
  intros E Hr Hf Hg. destruct (Hg op b E) as [_ Hexp]. revert Hg.
  eapply flow_remove; [done|]. intros s' Hg'. unfold held_outputs.
  unfold as_riders, trailable in *. destruct (b_owner b); try done.
  rewrite Hexp by done. by apply Hf.
Qed.

Lemma flow_hand_export_on op s : flow_at [] (hand_export_on op) s.
Proof.
  unfold hand_export_on. apply flow_get, flow_expect. intros b E.
  destruct (as_riders b) as [riders|] eqn:Er; [|apply flow_ret].
  case_match; [|apply flow_ret]. eapply flow_drop_export; [done|by rewrite Er|]. intros s1 _.
  apply flow_bind_nil; [by apply flow_mark|]. intros. apply flow_ret.
Qed.

Lemma flow_take_export_riders op s : flow_at [] (take_export_riders op) s.
Proof.
  unfold take_export_riders. apply flow_get, flow_expect. intros b E.
  apply flow_bind_nil; [|intros; by apply flow_mark]. apply flow_fold_nil.
  intros acc o s1. apply flow_get, flow_expect. intros b1 E1. apply flow_expect. intros taken Et.
  eapply flow_drop_export; [done|by rewrite Et|]. intros. apply flow_ret.
Qed.

(** The verdicts a proof of barrier [op] may give. *)
Definition proof_covers (op : N) (res : result N Failure) (s : State) (b : Barrier) : Prop :=
  st_barriers s !! op = Some b ∧ ∃ durable, res = Ok durable ∧ b_position b ≤ durable.

Lemma flow_mark_bind {B} d op f (g : unit → dec B) s :
  marks f →
  flow_at d (g tt) (set_st_barriers (alter f op (st_barriers s)) s) →
  flow_at d (barrier_update op f ≫= g) s.
Proof.
  intros Hf Hd Hg. destruct (flow_mark op f s Hf Hg) as (Hg' & Hp & _ & Ha).
  apply wpe_bind. unfold wpe at 1. simpl in *. eapply wpe_mono; [by apply Hd|].
  intros b s2 es (? & ? & ? & ?). split; [done|].
  split; [|split; [done|by eapply ages_trans]]. by rewrite Hp, app_nil_r.
Qed.

Lemma flow_durable_reached op res src s :
  (∀ b h, src = Fleet → proof_covers op res s b → h ∈ held_outputs b →
     PE (FxRelease (h_request h) (h_channel h) (Ok tt))) →
  (∀ b, src = Bucket → proof_covers op res s b → PE (FxVerifyOwnership op (b_cell b) (b_epoch b))) →
  flow_at [] (durable_reached op res src) s.
Proof.
  intros Hok Hver. unfold durable_reached. apply flow_get. unfold with_some.
  destruct (st_barriers s !! op) as [b|] eqn:E; [|apply flow_ret]. cbv zeta.
  destruct (match res with Ok _ => _ | Err _ => _ end) eqn:Ep; [destruct src|].
  - apply flow_mark_bind; [done|]. apply flow_bind_nil; [|intros; apply flow_reask_riders].
    apply flow_settle_gate. simpl. intros b' h. rewrite lookup_alter, decide_True, E by done.
    intros [= <-] Hh. apply (Hok b); [done| |exact Hh]. split; [done|].
    destruct res as [n|]; [|done]. apply N.leb_le in Ep. eauto.
  - apply flow_bind_nil; [apply flow_hand_export_on|]. intros [] s1 _; [apply flow_ret|].
    apply flow_bind_nil; [apply flow_take_export_riders|]. intros _ s2 _.
    apply flow_bind_nil; [by apply flow_mark|]. intros. apply flow_emit; [done|].
    apply Hver; [done|]. split; [done|]. destruct res as [n|]; [|done]. apply N.leb_le in Ep. eauto.
  - apply flow_settle_gate. intros. by apply HPE.
Qed.

Lemma flow_ownership_verified op res s :
  (∀ b h, is_ok res = true → st_barriers s !! op = Some b → h ∈ held_outputs b →
     PE (FxRelease (h_request h) (h_channel h) (Ok tt))) →
  flow_at [] (ownership_verified op res) s.
Proof.
  intros Hok. unfold ownership_verified. apply flow_get. unfold when. case_match; [|apply flow_ret].
  apply flow_settle_gate. intros b h E Hh. destruct res; simpl; [by eapply Hok|by apply HPE].
Qed.

Lemma flow_cancel_cell_outputs id s : flow_at [] (cancel_cell_outputs id) s.
Proof.
  unfold cancel_cell_outputs. apply flow_get, flow_for_each_nil. intros op s1 _. apply flow_get.
  unfold with_some. destruct (st_barriers s1 !! op) as [b|] eqn:E; [|apply flow_ret].
  eapply flow_remove; [done|]. intros s2 _. rewrite app_nil_r. unfold held_outputs.
  destruct (b_owner b) as [h| |]; [|by intros _..].
  apply (flow_bind [h]); [by apply flow_release_held, HPE|]. intros _ s3 _.
  apply flow_bind_last; [|intros; apply flow_reask_riders]. apply flow_followers. intros. by apply HPE.
Qed.

Lemma flow_fence_barrier b s : flow_at (held_outputs b) (fence_barrier b) s.
Proof.
  unfold fence_barrier, held_outputs. apply flow_bind.
  - destruct (b_owner b); [by apply flow_release, HPE|apply flow_ret|by apply flow_emit, HPE].
  - intros _ s' _. apply flow_bind_last; [|intros; apply flow_riders].
    apply flow_verdicts. intros. by apply HPE.
Qed.

Lemma held_values (m : gmap N Barrier) : held_in m ≡ₚ values m ≫= held_outputs.
Proof.
  assert (H : ∀ l : list (N * Barrier), l.*2 ≫= held_outputs = l ≫= λ i, held_outputs i.2).
  { induction l as [|x l IH]; csimpl; [done|]. by rewrite IH. }
  unfold held_in, values, items. rewrite H. by rewrite merge_sort_Permutation.
Qed.

Lemma flow_fence s : flow_at [] fence s.
Proof.
  unfold fence. apply flow_get. case_match; [apply flow_ret|]. intros Hg.
  apply wpe_bind. unfold wpe at 1. simpl.
  assert (Hg' : gate_ok (fence_indexes s)) by apply map_Forall_empty.
  eapply wpe_mono; [eapply (flow_bind_last (values (st_barriers s) ≫= held_outputs)); [| |exact Hg']|].
  - apply flow_for_each. intros. apply flow_fence_barrier.
  - intros _ s1 _. flow_quiet.
  - intros _ s1 es (? & Hp & ? & Ha). split; [done|].
    split; [|split; [done|eapply ages_trans; [|exact Ha]]]; [rewrite <- Hp|by split].
    unfold held. simpl. by rewrite held_values, app_nil_r.
Qed.

(** ** The rest of the machine *)

Lemma flow_modify f s :
  st_barriers (f s) = st_barriers s → st_next_op (f s) = st_next_op s → flow_at [] (modify f) s.
Proof.
  intros Hb Hn Hg. unfold wpe, modify, gate_ok, held in *. rewrite Hb, Hn.
  split; [done|]. split; [by rewrite app_nil_r|]. split; [done|]. apply ages_same; [by rewrite Hn|done].
Qed.

Lemma flow_denied_durable op res src s :
  is_ok res = false → flow_at [] (durable_reached op res src) s.
Proof.
  intros Hr. apply flow_durable_reached; intros b; intros; by destruct res, H0 as (? & ? & ? & ?).
Qed.

#[local] Hint Resolve flow_fence flow_cancel_cell_outputs flow_export_ticket flow_alarm_finished
  flow_reset_cell : flow.

Ltac flow_step :=
  cbv beta zeta;
  lazymatch goal with
  | |- flow_at _ (mbind _ get) _ => apply flow_get
  | |- flow_at _ (mbind _ _) _ => apply flow_bind_nil; [|intros ? ? _]
  | |- flow_at _ (mret _) _ => apply flow_ret
  | |- flow_at _ (emit _) _ => apply flow_emit; [reflexivity|apply HPE; exact I]
  | |- flow_at _ (modify _) _ => apply flow_modify; reflexivity
  | |- flow_at _ (when _ _) _ => unfold when
  | |- flow_at _ (with_some _ _) _ => unfold with_some
  | |- flow_at _ (match ?x with _ => _ end) _ => destruct x eqn:?
  | |- flow_at _ (durable_reached _ (Err _) _) _ => by apply flow_denied_durable
  | |- flow_at _ _ _ => first [solve [auto with flow nocore]|flow_quiet]
  end.

Ltac flow_auto := repeat flow_step.

Lemma flow_spend_each {A} (l : list A) limit i (f : A → dec unit) s :
  (∀ x s, flow_at [] (f x) s) → flow_at [] (spend_each l limit i f) s.
Proof.
  intros Hf. revert i s. induction l as [|x l IH]; intros i s; simpl; [apply flow_ret|].
  case_match; [apply flow_ret|]. apply flow_bind_nil; [apply Hf|]. intros. apply IH.
Qed.

Lemma flow_begin_node_lease_acquisition n spec s : flow_at [] (begin_node_lease_acquisition n spec) s.
Proof. unfold begin_node_lease_acquisition. flow_auto. Qed.
#[local] Hint Resolve flow_begin_node_lease_acquisition : flow.

Lemma flow_start_node_lease n spec s : flow_at [] (start_node_lease n spec) s.
Proof. unfold start_node_lease. flow_auto. Qed.
#[local] Hint Resolve flow_start_node_lease : flow.

Lemma flow_fail_initial_node_lease spec s : flow_at [] (fail_initial_node_lease spec) s.
Proof. unfold fail_initial_node_lease. flow_auto. Qed.
#[local] Hint Resolve flow_fail_initial_node_lease : flow.

Lemma flow_take_nudge s : flow_at [] take_nudge s.
Proof. unfold take_nudge. flow_auto. Qed.
#[local] Hint Resolve flow_take_nudge : flow.

Lemma flow_hold_node_lease spec r a b1 b2 s : flow_at [] (hold_node_lease spec r a b1 b2) s.
Proof. unfold hold_node_lease. flow_auto. Qed.
#[local] Hint Resolve flow_hold_node_lease : flow.

Lemma flow_fence_node r s : flow_at [] (fence_node r) s.
Proof. unfold fence_node. flow_auto. Qed.
#[local] Hint Resolve flow_fence_node : flow.

Lemma flow_complete_node_lease_write p r n s : flow_at [] (complete_node_lease_write p r n) s.
Proof. unfold complete_node_lease_write. flow_auto. Qed.
#[local] Hint Resolve flow_complete_node_lease_write : flow.

Lemma flow_resume_node_lease_after_failure p n s : flow_at [] (resume_node_lease_after_failure p n) s.
Proof. unfold resume_node_lease_after_failure. flow_auto. Qed.
#[local] Hint Resolve flow_resume_node_lease_after_failure : flow.

Lemma flow_begin_node_lease_write p g s : flow_at [] (begin_node_lease_write p g) s.
Proof. unfold begin_node_lease_write. flow_auto. Qed.
#[local] Hint Resolve flow_begin_node_lease_write : flow.

Lemma flow_adopt_late_write p r n m s : flow_at [] (adopt_late_write p r n m) s.
Proof. unfold adopt_late_write. flow_auto. Qed.
#[local] Hint Resolve flow_adopt_late_write : flow.

Lemma flow_replace_node_lease p r n s : flow_at [] (replace_node_lease p r n) s.
Proof. unfold replace_node_lease. flow_auto. Qed.
#[local] Hint Resolve flow_replace_node_lease : flow.

Lemma flow_read_self_node_lease op n m res s : flow_at [] (read_self_node_lease op n m res) s.
Proof. unfold read_self_node_lease. flow_auto. Qed.
#[local] Hint Resolve flow_read_self_node_lease : flow.

Lemma flow_read_back p b l s : flow_at [] (read_back p b l) s.
Proof. unfold read_back. flow_auto. Qed.
#[local] Hint Resolve flow_read_back : flow.

Lemma flow_node_lease_cas_completed op n res l s : flow_at [] (node_lease_cas_completed op n res l) s.
Proof. unfold node_lease_cas_completed. flow_auto. Qed.
#[local] Hint Resolve flow_node_lease_cas_completed : flow.

Lemma flow_nominate_resident id s : flow_at [] (nominate_resident id) s.
Proof. unfold nominate_resident. flow_auto. Qed.
#[local] Hint Resolve flow_nominate_resident : flow.

Lemma flow_pump_release s : flow_at [] pump_release s.
Proof.
  unfold pump_release. flow_auto; apply flow_spend_each; intros; flow_auto.
Qed.
#[local] Hint Resolve flow_pump_release : flow.

Lemma flow_release_all s : flow_at [] release_all s.
Proof. unfold release_all. flow_auto. Qed.
#[local] Hint Resolve flow_release_all : flow.

Lemma flow_expire_operation op n s : flow_at [] (expire_operation op n) s.
Proof. unfold expire_operation. flow_auto. Qed.
#[local] Hint Resolve flow_expire_operation : flow.

Lemma flow_renew_lease h n m s : flow_at [] (renew_lease h n m) s.
Proof. unfold renew_lease. flow_auto. Qed.
#[local] Hint Resolve flow_renew_lease : flow.

Lemma flow_lease_timer b g n m s : flow_at [] (lease_timer b g n m) s.
Proof. unfold lease_timer. flow_auto. Qed.
#[local] Hint Resolve flow_lease_timer : flow.

Lemma flow_timer_fired t n m s : flow_at [] (timer_fired t n m) s.
Proof. unfold timer_fired. flow_auto. Qed.
#[local] Hint Resolve flow_timer_fired : flow.

Lemma flow_nudge_node_lease n m s : flow_at [] (nudge_node_lease n m) s.
Proof. unfold nudge_node_lease. flow_auto. Qed.
#[local] Hint Resolve flow_nudge_node_lease : flow.

End flow.

(** ** Why an output may leave *)

(** The causes of a positive verdict on [h], for event [e] in state [s]. *)
Inductive release_cause (s : State) (e : Event) (h : Held) : Prop :=
| cause_nothing_owed observed epoch :
    (e = EvOutput (h_request h) (h_channel h) None observed epoch
     ∨ ∃ now, e = EvOutputAt (h_request h) (h_channel h) None observed epoch now) →
    node_authoritative s = true → observed_proven s (h_request h) observed →
    nothing_owed s (h_request h) → release_cause s e h
| cause_fleet_proof op durable b :
    e = EvDurableReached op (Ok durable) Fleet → st_barriers s !! op = Some b →
    b_position b ≤ durable → h ∈ held_outputs b → release_cause s e h
| cause_ownership_verified op b :
    e = EvOwnershipVerified op (Ok tt) → st_barriers s !! op = Some b →
    h ∈ held_outputs b → release_cause s e h.

(** An ownership verification follows a bucket proof of the barrier. *)
Definition verify_cause (s : State) (e : Event) (op : N) (cell : string) (epoch : N) : Prop :=
  ∃ durable b, e = EvDurableReached op (Ok durable) Bucket ∧ st_barriers s !! op = Some b
    ∧ b_cell b = cell ∧ b_epoch b = epoch ∧ b_position b ≤ durable.

Definition allowed (s : State) (e : Event) (fx : Effect) : Prop :=
  match fx with
  | FxRelease request channel (Ok _) => release_cause s e (mkHeld request channel)
  | FxVerifyOwnership op cell epoch => verify_cause s e op cell epoch
  | _ => True
  end.

Lemma denied_allowed s e fx : denied fx → allowed s e fx.
Proof. by destruct fx as [| | | | | | | | | | | | | | | | | | | | | | | | |? ? []| | | |]. Qed.

Lemma allowed_release s e h :
  release_cause s e h → allowed s e (FxRelease (h_request h) (h_channel h) (Ok tt)).
Proof. by destruct h. Qed.

Lemma handle_output_flow e request channel position observed epoch s :
  (e = EvOutput request channel position observed epoch
   ∨ ∃ now, e = EvOutputAt request channel position observed epoch now) →
  flow_at (allowed s e) [mkHeld request channel] (output request channel position observed epoch) s.
Proof.
  intros He. apply flow_output; [apply denied_allowed|done|]. intros -> ? ? ?.
  by eapply cause_nothing_owed.
Qed.

Lemma handle_flow e s : flow_at (allowed s e) (submitted e) (handle e) s.
Proof.
  pose proof (denied_allowed s e) as HPE. unfold handle.
  destruct e; simpl;
    try (by apply flow_framed; [|solve [auto with frame nocore]]);
    try (apply handle_output_flow; eauto).
  - by apply flow_start_node_lease.
  - by apply flow_read_self_node_lease.
  - by apply flow_node_lease_cas_completed.
  - by apply flow_timer_fired.
  - apply flow_durable_reached; [done| |].
    + intros b h -> (E & n & -> & ?) Hh. by eapply allowed_release, cause_fleet_proof.
    + intros b -> (E & n & -> & ?). by exists n, b.
  - by apply flow_export_ticket.
  - apply flow_ownership_verified; [done|]. intros b h Hr E Hh. destruct res as [[]|]; [|done].
    by eapply allowed_release, cause_ownership_verified.
  - by apply flow_alarm_finished.
  - by apply flow_nudge_node_lease.
  - by apply flow_fence_node.
  - by apply flow_release_all.
Qed.

(** ** The transition *)

Lemma advance_clocks_gate e s :
  st_barriers (advance_clocks e s) = st_barriers s
  ∧ st_next_op (advance_clocks e s) = st_next_op s.
Proof. unfold advance_clocks. by destruct (event_mono_ms e), (event_now_ms e). Qed.

Lemma transition_flow e s :
  flow_at (allowed (advance_clocks e s) e) (submitted e) (transition e) s.
Proof.
  pose proof (denied_allowed (advance_clocks e s) e) as HPE.
  destruct (advance_clocks_gate e s) as [Hb Hn]. unfold transition. intros Hg. apply wpe_bind.
  unfold wpe at 1. simpl.
  assert (Hg' : gate_ok (advance_clocks e s)) by (unfold gate_ok; by rewrite Hb, Hn).
  assert (Hf : flow_at (allowed (advance_clocks e s) e) (submitted e)
    (handle e ;; pump_activations ;; pump_release ;; pump_swap) (advance_clocks e s)).
  { apply flow_bind_last; [apply handle_flow|]. intros _ s1 _.
    apply flow_bind_nil; [by apply flow_framed; [|auto with frame nocore]|]. intros _ s2 _.
    apply flow_bind_nil; [by apply flow_pump_release|]. intros _ s3 _.
    by apply flow_framed; [|auto with frame nocore]. }
  eapply wpe_mono; [by apply Hf|]. intros _ s1 es (? & Hp & ? & Ha). split; [done|].
  split; [|split; [done|eapply ages_trans; [|exact Ha]; apply ages_same; [by rewrite Hn|done]]].
  unfold held in *. by rewrite Hb in Hp.
Qed.

Lemma on_event_flow e s : flow_at (allowed (advance_clocks e s) e) (submitted e) (on_event e) s.
Proof.
  intros Hg. pose proof (transition_flow e s Hg) as Ht.
  unfold on_event. apply wpe_bind. unfold wpe at 1, captured. unfold wpe in Ht.
  destruct (transition e s) as [u s1 es| |]; [|done|done]. destruct Ht as (Hg1 & Hp1 & He1 & Ha1).
  apply wpe_bind. unfold wpe at 1. rewrite for_each_emit.
  eapply wpe_mono; [by apply (flow_framed _ (denied_allowed (advance_clocks e s) e) _ (arm_operation_deadlines_framed es))|].
  intros _ s2 es2 (Hg2 & Hp2 & He2 & Ha2). split; [done|]. simpl in *.
  split; [|split; [by apply Forall_app|by eapply ages_trans]].
  rewrite released_app, Hp1, Hp2, <- app_assoc. by rewrite (Permutation_app_comm (released es2)).
Qed.

Lemma new_gate_ok node config : gate_ok (new node config).
Proof. apply map_Forall_empty. Qed.

Lemma reachable_gate_ok ok node config s : reachable ok (new node config) s → gate_ok s.
Proof.
  apply reachable_invariant; [apply new_gate_ok|]. intros s1 e s2 es H1 _ E.
  by destruct (wpe_done _ _ _ _ _ _ _ (on_event_flow e s1 H1) E).
Qed.

Lemma run_flow events s :
  gate_ok s →
  wpe True (run events) (λ _ s' es, gate_ok s' ∧ (events ≫= submitted) ++ held s ≡ₚ held s' ++ released es) s.
Proof.
  revert s. induction events as [|e events IH]; intros s Hg; simpl.
  { split; [done|]. by rewrite app_nil_r. }
  apply wpe_bind. eapply wpe_mono; [by apply on_event_flow|]. intros _ s1 es1 (Hg1 & Hp1 & _).
  eapply wpe_mono; [by apply IH|]. intros _ s2 es2 (Hg2 & Hp2). split; [done|]. csimpl.
  rewrite released_app, (Permutation_app_comm (submitted e)), <- app_assoc, Hp1.
  rewrite app_assoc, Hp2, <- app_assoc. by rewrite (Permutation_app_comm (released es2)).
Qed.

Lemma advance_clocks_owed e s request :
  nothing_owed (advance_clocks e s) request → nothing_owed s request.
Proof.
  unfold nothing_owed, advance_clocks. by destruct (event_mono_ms e), (event_now_ms e).
Qed.

(** *** Verdicts over a whole history *)

(** A verification is only answered after it was asked for. *)
Definition verification_asked (h : history) (e : Event) : Prop :=
  match e with
  | EvOwnershipVerified op _ => ∃ cell epoch, emitted h (FxVerifyOwnership op cell epoch)
  | _ => True
  end.

(** Every verification asked for so far names a barrier that a bucket proof
    had covered, and no other barrier has that id since. *)
Definition verifications_proven (h : history) (s : State) : Prop :=
  ∀ op cell epoch, emitted h (FxVerifyOwnership op cell epoch) →
    op < st_next_op s
    ∧ ∀ b, st_barriers s !! op = Some b →
        ∃ durable, told h (EvDurableReached op (Ok durable) Bucket) ∧ b_position b ≤ durable.

Lemma verifications_step h s e s' es :
  gate_ok s → verifications_proven h s → on_event e s = Done tt s' es →
  verifications_proven ((e, es) :: h) s'.
Proof.
  intros Hg Hv E.
  destruct (wpe_done _ _ _ _ _ _ _ (on_event_flow e s Hg) E) as (_ & _ & Hall & Hn & Ha).
  rewrite Forall_forall in Hall. destruct (advance_clocks_gate e s) as [Hb _].
  intros op cell epoch (e' & es' & [[= -> ->]|Hin]%elem_of_cons & Hfx).
  - destruct (Hall _ Hfx) as (n & b & -> & Eb & _ & _ & Hle). rewrite Hb in Eb.
    destruct (Hg op b Eb) as [Hlt _]. split; [lia|]. intros b' Eb'.
    destruct (Ha op b' Eb' Hlt) as (b0 & E0 & _ & _ & ->). simplify_eq.
    exists n. split; [|done]. exists es. left.
  - destruct (Hv op cell epoch) as [Hlt Hpos]; [by exists e', es'|]. split; [lia|]. intros b' Eb'.
    destruct (Ha op b' Eb' Hlt) as (b0 & E0 & _ & _ & ->).
    destruct (Hpos b0 E0) as (n & [es0 ?] & ?). exists n. split; [|done]. exists es0. by right.
Qed.

Lemma traced_verifications ok node config h s :
  traced ok (new node config) h s → gate_ok s ∧ verifications_proven h s.
Proof.
  intros Ht. induction Ht as [|h s e s' es _ [IHg IHv] _ E].
  { split; [apply new_gate_ok|]. intros ? ? ? (? & ? & []%elem_of_nil & _). }
  split; [|by eapply verifications_step].
  by destruct (wpe_done _ _ _ _ _ _ _ (on_event_flow e s IHg) E).
Qed.

(** ** Properties *)

(** C27: Over any run of a node, the outputs submitted are exactly the outputs
    still withheld by a barrier and the outputs a verdict was given for, each
    as often as it was submitted: none is lost and none is answered twice. *)
Theorem outputs_conserved node config events s es :
  run events (new node config) = Done tt s es →
  events ≫= submitted ≡ₚ held s ++ released es.
Proof.
  intros H. pose proof (run_flow events (new node config) (new_gate_ok node config)) as Hf.
  unfold wpe in Hf. rewrite H in Hf. destruct Hf as [_ Hp]. by rewrite <- Hp, app_nil_r.
Qed.

Lemma outputs_conserved_witness :
  run write_script sample_new = Done tt (after write_script) (script_effects write_script) ∧
  write_script ≫= submitted ≡ₚ held (after write_script) ++ released (script_effects write_script).
Proof.
  assert (H : run write_script sample_new = Done tt (after write_script) (script_effects write_script))
    by (vm_compute; reflexivity).
  split; [exact H|]. exact (outputs_conserved "a" sample_config _ _ _ H).
Defined.


Definition proven_script : list Event := write_script ++ [EvDurableReached 6 (Ok 3) Bucket].

