(* ===== verification/Ownership.v ===== *)
(** * Where a writer epoch comes from

    A node runs a cell at epoch [e] only after the bucket said so: its own
    conditional write at [e] was applied, a read of the owner record returned
    the node at [e], or the certified local inventory listed the live cell at
    [e].  A claim over a record is at the epoch after the one read, guarded by
    the etag read, and takes a record away from another node only when the
    lease of that node was gone, with its write log absent, sealed or
    recovered.

    The pass below tracks these facts through every handler, over abstract
    predicates for what the history has shown; the last section instantiates
    them with the history of the node. *)

From S2P Require Import Prelude Effects Pressure LogTier Wake Types CoreState CoreOps.
From S2P Require Import Activation Alarms OutputGate NodeLease Ingress Resolution Shedding.
From S2P Require Import Lifecycle Handoff Machine Samples Frame.

#[local] Arguments enter_phase : simpl never.

(** What the owner's lease record shows once it no longer vouches for the
    owner at [issued]: expired, unaddressed or another node's, and its folded
    log has nothing left to recover. *)
Definition lease_lapsed (owner : string) (issued : N) (lease : option NodeLeaseRecord) : Prop :=
  match lease with
  | None => True
  | Some lease =>
      (nl_expires_ms lease ≤ issued ∨ nl_addr lease = EmptyString ∨ nl_node lease ≠ owner)
      ∧ (nl_log_state lease = None ∨ nl_log_state lease = Some LogSealed)
  end.

Create HintDb own.

Section ownership.
Context (node : string).
(** The effects emitted, the answers to owner reads, the epochs this node
    holds, the owners shown gone, and the instants owner reads arrived at. *)
Context (Em : Effect → Prop) (Rec : string → option OwnerRecord → Prop).
Context (Own : string → N → Prop) (Gone : string → Prop) (Iss : N → Prop).
Hypothesis RecOwn : ∀ id r, Rec id (Some r) → or_node r = Some node → Own id (or_epoch r).

Definition claim_over (id : string) (guard : CasGuard) (epoch : N) : Prop :=
  (guard = Absent ∧ epoch = 1 ∧ Rec id None)
  ∨ ∃ r, guard = Match (or_etag r) ∧ epoch = or_epoch r + 1 ∧ Rec id (Some r)
      ∧ (∀ owner, or_node r = Some owner → owner ≠ node → Gone owner).

Definition claim_ok (id : string) (c : Claim) : Prop := claim_over id (cl_guard c) (cl_epoch c).

Definition phase_ok (id : string) (p : Phase) : Prop :=
  match p with
  | PhReadingOwner op => Em (FxReadOwner op id)
  | PhReconcilingAcquire op claim _ => Em (FxReadOwner op id) ∧ claim_ok id claim
  | PhReadingNodeLease op r issued _ =>
      Rec id (Some r) ∧ Iss issued
      ∧ ∃ owner, or_node r = Some owner ∧ owner ≠ node ∧ Em (FxReadNodeLease op id owner)
  | PhRecoveringOwnerLog op r =>
      Rec id (Some r) ∧ ∃ owner, or_node r = Some owner ∧ Em (FxRecoverNodeLog op id owner)
  | PhReadingCapacity _ claim _ => claim_ok id claim
  | PhAcquiring op claim _ =>
      claim_ok id claim ∧ Em (FxCasOwner op id (cl_guard claim) (cl_epoch claim) (cl_takeover claim))
  | PhRestoring _ spec => Own id (rs_epoch spec)
  | PhStarting _ e | PhPublishing _ e | PhEnsuringDurability _ e | PhCleaning _ e _
  | PhDormant e | PhResident e => Own id e
  | _ => True
  end.

Definition act_ok (id : string) (a : option Activation) : Prop :=
  match a with
  | Some (ActClaim claim) => claim_ok id claim
  | Some (ActRestore spec) => Own id (rs_epoch spec)
  | None => True
  end.

Definition start_ok (id : string) (a : option ColdStart) : Prop :=
  match a with Some (ColdRestore spec) => Own id (rs_epoch spec) | _ => True end.

Definition cell_ok (id : string) (c : Cell) : Prop :=
  phase_ok id (c_phase c) ∧ act_ok id (c_waiting_for c) ∧ start_ok id (c_waiting_activation c).

(** A cached lease is stored under its own node and is routable. *)
Definition cache_ok (k : string) (l : CachedNodeLease) : Prop :=
  nl_node (cnl_record l) = k ∧ nl_addr (cnl_record l) ≠ EmptyString
  ∧ dl_expires_ms (cnl_deadline l) = nl_expires_ms (cnl_record l).

Definition table_ok (n : string) (cells : gmap string Cell) (cache : gmap string CachedNodeLease) : Prop :=
  n = node ∧ map_Forall cell_ok cells ∧ map_Forall cache_ok cache.

Definition own_ok (s : State) : Prop :=
  table_ok (st_node s) (st_cells s) (st_node_lease_cache s).

(** The effects that act on an ownership epoch. *)
Definition fx_ok (e : Effect) : Prop :=
  match e with
  | FxCasOwner _ id guard epoch _ => claim_over id guard epoch
  | FxRestore _ id spec => Own id (rs_epoch spec)
  | FxStartRuntime _ id e | FxPublish _ id e | FxEnsureDurable _ id e _ | FxReleaseOwner _ id e
  | FxFireAlarm _ id e _ => Own id e
  | _ => True
  end.

Abbreviation wpo := (wpr Em fx_ok).

Definition keeps {A} (c : dec A) : Prop := ∀ s, own_ok s → wpo c (λ _, own_ok) s.

Definition hkeeps (id : string) (cell : Cell) (c : dec Cell) : Prop :=
  ∀ s, cell_ok id cell → own_ok s → wpo c (λ cell' s', own_ok s' ∧ cell_ok id cell') s.

Lemma table_insert n m k id c : table_ok n m k → cell_ok id c → table_ok n (<[id := c]> m) k.
Proof. intros (? & ? & ?) ?. split_and!; [done| |done]. by apply map_Forall_insert_2. Qed.

Lemma table_delete n m k id : table_ok n m k → table_ok n (delete id m) k.
Proof. intros (? & ? & ?). split_and!; [done| |done]. by apply map_Forall_delete. Qed.

Lemma table_alter n m k id f :
  table_ok n m k → (∀ c, cell_ok id c → cell_ok id (f c)) → table_ok n (alter f id m) k.
Proof.
  intros (? & Hm & ?) Hf. split_and!; [done| |done]. intros i c. rewrite lookup_alter_Some.
  intros [(-> & c' & E & ->)|[_ E]]; [apply Hf|]; by apply (Hm _ _ E).
Qed.

Lemma table_uncache n m k o : table_ok n m k → table_ok n m (delete o k).
Proof. intros (? & ? & ?). split_and!; [done|done|]. by apply map_Forall_delete. Qed.

Lemma own_ok_cell s id c : own_ok s → st_cells s !! id = Some c → cell_ok id c.
Proof. intros (_ & H & _). apply H. Qed.

Lemma own_ok_node s : own_ok s → st_node s = node.
Proof. by intros [H _]. Qed.

Lemma c_phase_enter c p : c_phase (enter_phase c p) = p.
Proof. done. Qed.

Lemma c_waiting_for_enter c p : c_waiting_for (enter_phase c p) = c_waiting_for c.
Proof. unfold enter_phase. by destruct (is_resident p), (on_swap_path p). Qed.

Lemma c_waiting_activation_enter c p :
  c_waiting_activation (enter_phase c p) = c_waiting_activation c.
Proof. unfold enter_phase. by destruct (is_resident p), (on_swap_path p). Qed.

Lemma default_cell_ok id : cell_ok id Cell_default.
Proof. done. Qed.

Lemma cell_ok_phase id c p : cell_ok id c → c_phase c = p → phase_ok id p.
Proof. by intros [H _] <-. Qed.

Lemma cell_ok_waiting_for id c a : cell_ok id c → c_waiting_for c = Some a → act_ok id (Some a).
Proof. by intros (_ & H & _) <-. Qed.

Lemma cell_ok_waiting_activation id c a :
  cell_ok id c → c_waiting_activation c = Some a → start_ok id (Some a).
Proof. by intros (_ & _ & H) <-. Qed.

Lemma undemanded_phase_ok id a : act_ok id (Some a) → phase_ok id (undemanded_phase a).
Proof. by destruct a. Qed.

Lemma undemanded_start_ok id a : start_ok id (Some a) → phase_ok id (undemanded_start a).
Proof. by destruct a. Qed.

Lemma own_keeps_elim {A} (c : dec A) s : keeps c → own_ok s → wpo c (λ _, own_ok) s.
Proof. intros H. apply H. Qed.

Lemma own_hkeeps_elim id cell (c : dec Cell) s :
  hkeeps id cell c → cell_ok id cell → own_ok s →
  wpo c (λ cell' s', own_ok s' ∧ cell_ok id cell') s.
Proof. intros H. apply H. Qed.

(** ** Automation *)

(** Facts the phase of a cell carries. *)
Ltac own_facts :=
  repeat match goal with
  | E : st_cells (_ _ _) !! _ = _ |- _ => progress simpl in E
  | E : c_phase (_ _ _) = _ |- _ => progress simpl in E
  | H : own_ok ?s, E : st_cells ?s !! ?id = Some ?c |- _ =>
      lazymatch goal with
      | _ : cell_ok id c |- _ => fail
      | _ => pose proof (own_ok_cell s id c H E)
      end
  | H : cell_ok ?id ?c, E : c_phase ?c = ?p |- _ =>
      let T := eval simpl in (phase_ok id p) in
      lazymatch T with True => fail | _ => idtac end;
      lazymatch goal with
      | _ : T |- _ => fail
      | _ => assert T by exact (cell_ok_phase id c p H E)
      end
  | H : cell_ok ?id ?c, E : c_waiting_for ?c = Some ?a |- _ =>
      lazymatch goal with
      | _ : act_ok id (Some a) |- _ => fail
      | _ => pose proof (cell_ok_waiting_for id c a H E)
      end
  | H : cell_ok ?id ?c, E : c_waiting_activation ?c = Some ?a |- _ =>
      lazymatch goal with
      | _ : start_ok id (Some a) |- _ => fail
      | _ => pose proof (cell_ok_waiting_activation id c a H E)
      end
  end.

Ltac own_table :=
  cbv beta;
  first
    [assumption
    |match goal with
     | H : own_ok ?s |- own_ok _ => unfold own_ok in H |- *; simpl; assumption
     end
    |own_facts; unfold own_ok in *; simpl;
     repeat first
       [assumption
       |apply table_insert
       |apply table_delete
       |apply table_uncache
       |apply table_alter; [|intros]]].

Ltac own_done :=
  first
    [assumption|done
    |match goal with H : cell_ok ?id ?c |- phase_ok ?id (c_phase ?c) => exact (proj1 H) end
    |match goal with H : cell_ok ?id ?c |- act_ok ?id (c_waiting_for ?c) => exact (proj1 (proj2 H)) end
    |match goal with H : cell_ok ?id ?c |- start_ok ?id (c_waiting_activation ?c) => exact (proj2 (proj2 H)) end
    |own_facts; first [apply undemanded_phase_ok|apply undemanded_start_ok]; assumption
    |own_facts; destruct_and?; split_and?; simpl in *; solve [assumption|done|eauto]
    |unfold parked_epoch; repeat case_match; simplify_eq; own_facts; simpl in *;
     solve [assumption|done]].

Ltac own_cell :=
  cbv beta;
  try match goal with H : cell_ok ?i _ |- cell_ok ?id _ => is_evar id; unify id i end;
  first
    [assumption
    |apply default_cell_ok
    |match goal with
     | |- cell_ok ?id ?c =>
         own_facts; unfold cell_ok;
         rewrite ?c_phase_enter, ?c_waiting_for_enter, ?c_waiting_activation_enter; simpl;
         rewrite ?c_phase_enter, ?c_waiting_for_enter, ?c_waiting_activation_enter; simpl;
         split_and!; own_done
     end
    |repeat match goal with
       | |- context [if ?b then set_c_alarm_wake _ _ else _] => destruct b
       | |- context [if ?b then _ else set_c_alarm_wake _ _] => destruct b
       | |- cell_ok _ (if ?b then _ else _) => destruct b
       end; unfold cell_ok; simpl; split_and!; own_done].

Ltac own_leaf :=
  cbv beta; simpl;
  lazymatch goal with
  | |- own_ok _ => own_table; own_cell
  | |- own_ok _ ∧ _ => split; [own_leaf|own_leaf]
  | |- cell_ok _ _ ∧ _ => split; [own_leaf|own_leaf]
  | |- cell_ok _ _ => own_cell
  | |- _ => own_done
  end.

Lemma wpr_set_phase c p (Q : Cell → State → Prop) s :
  own_ok s → (∀ s', own_ok s' → Q (enter_phase c p) s') → wpo (set_phase c p) Q s.
Proof.
  intros Hs HQ. unfold set_phase. repeat wpr_step; apply HQ; own_leaf.
Qed.

Lemma wpr_set_phase_in id c p (Q : Cell → State → Prop) s :
  own_ok s → cell_ok id (enter_phase c p) →
  (∀ s', own_ok s' → Q (enter_phase c p) s') → wpo (set_phase_in id c p) Q s.
Proof.
  intros Hs Hc HQ. unfold set_phase_in, cell_insert. wpr_step.
  apply wpr_set_phase; [done|]. intros s' Hs'. repeat wpr_step. apply HQ. own_leaf.
Qed.

Lemma wpr_cell_remove id (Q : option Cell → State → Prop) s :
  own_ok s →
  (∀ c, st_cells s !! id = Some c → cell_ok id c →
     Q (Some c) (set_st_cells (delete id (st_cells s)) s)) →
  (st_cells s !! id = None → Q None (set_st_cells (delete id (st_cells s)) s)) →
  wpo (cell_remove id) Q s.
Proof.
  intros Hs HQ HN. unfold cell_remove, cell_get. repeat wpr_step.
  destruct (st_cells s !! id) as [c|] eqn:E; [|by apply HN].
  apply HQ; [done|]. exact (own_ok_cell s id c Hs E).
Qed.

Lemma wpr_take_cell_op op f (Q : option string → State → Prop) s :
  own_ok s →
  (∀ id c, st_cells s !! id = Some c → f c = true →
     Q (Some id) (set_st_cell_ops (delete op (st_cell_ops s)) s)) →
  Q None s → wpo (take_cell_op op f) Q s.
Proof.
  intros Hs HQ HN. unfold take_cell_op, forget_cell_op. repeat wpr_step; try done.
  destruct (st_cells s !! s0) as [c|] eqn:E; [|done]. by apply (HQ s0 c).
Qed.

Definition hkeeps2 {B} (id : string) (cell : Cell) (c : dec (Cell * B)) : Prop :=
  ∀ s, cell_ok id cell → own_ok s → wpo c (λ r s', own_ok s' ∧ cell_ok id r.1) s.

Lemma own_hkeeps2_elim {B} id cell (c : dec (Cell * B)) s :
  hkeeps2 id cell c → cell_ok id cell → own_ok s →
  wpo c (λ r s', own_ok s' ∧ cell_ok id r.1) s.
Proof. intros H. apply H. Qed.

#[local] Hint Extern 2 (Own _ _) => own_done : own.
#[local] Hint Extern 2 (claim_ok _ _) => own_done : own.
#[local] Hint Extern 2 (act_ok _ _) => own_done : own.
#[local] Hint Extern 2 (start_ok _ _) => own_done : own.
#[local] Hint Extern 2 (cell_ok _ _) => own_cell : own.

Ltac own_call :=
  own_facts;
  first
    [eapply wpr_mono; [eapply own_hkeeps_elim; [solve [eauto with own nocore]|own_cell|own_leaf]
                      |cbv beta; intros ? ? [? ?]]
    |eapply wpr_mono; [eapply own_hkeeps2_elim; [solve [eauto with own nocore]|own_cell|own_leaf]
                      |cbv beta; intros [? ?] ? [? ?]; simpl in *]
    |eapply wpr_mono; [eapply own_keeps_elim; [solve [eauto with own nocore]|own_leaf]
                      |cbv beta; intros]].

(** The operation a completion names is the one the cell waits for. *)
Ltac own_same :=
  repeat match goal with
  | E1 : st_cells _ !! ?id = Some _, E2 : st_cells _ !! ?id = Some _ |- _ =>
      assert_fails (constr_eq E1 E2); simpl in E1, E2; rewrite E1 in E2; injection E2 as ?; subst
  | E : c_phase ?c = ?p, Hf : context [c_phase ?c] |- _ =>
      assert_fails (constr_eq E Hf); lazymatch type of Hf with _ = true => idtac end;
      rewrite E in Hf; simpl in Hf; first [discriminate Hf|idtac]
  | Hf : (_ =? _) = true |- _ => apply N.eqb_eq in Hf; subst
  end.

Ltac own_step :=
  first
    [wpr_step
    |exact I
    |lazymatch goal with
     | |- wpr _ _ (set_phase _ _) _ _ => apply wpr_set_phase; [own_leaf|intros]
     | |- wpr _ _ (set_phase_in _ _ _) _ _ => apply wpr_set_phase_in; [own_leaf|own_leaf|intros]
     | |- wpr _ _ (cell_remove _) _ _ => apply wpr_cell_remove; [own_leaf|intros|intros]
     | |- wpr _ _ (take_cell_op _ _) _ _ => apply wpr_take_cell_op; [own_leaf|intros|]
     | |- wpr _ _ (fold_each _ [] _) _ _ =>
         apply (wpr_fold_each (λ _, own_ok)); [own_leaf|cbv beta; intros|cbv beta; intros]
     | H : cell_ok ?id _ |- wpr _ _ (fold_each _ _ _) _ _ =>
         apply (wpr_fold_each (λ c' s', own_ok s' ∧ cell_ok id c'));
         [own_leaf|cbv beta; intros ? ? ? ? [? ?]|cbv beta; intros ? ? [? ?]]
     | |- wpr _ _ (for_each _ _) _ _ => apply (wpr_for_each own_ok); [own_leaf|intros|intros]
     | |- wpr _ _ (repeat_while _ _) _ _ =>
         apply (wpr_repeat_while own_ok); [own_leaf|intros|intros]
     | |- wpr _ _ (cell_insert _ _) _ _ => unfold cell_insert
     | |- wpr _ _ (cell_update _ _) _ _ => unfold cell_update
     | |- wpr _ _ (cell_get _) _ _ => unfold cell_get
     | |- wpr _ _ (expect _) _ _ => unfold expect
     | |- wpr _ _ _ _ _ => own_call
     end
    |solve [own_leaf]].

Ltac own_auto := cbv beta; intros; repeat own_step.

(** Where the branches of the source meet again, so do the cases. *)
Ltac own_join_step :=
  lazymatch goal with
  | |- wpr _ _ (mbind _ ?m) _ _ =>
      lazymatch m with
      | match _ with _ => _ end => idtac
      | with_some _ _ => idtac
      | when _ _ => idtac
      end;
      lazymatch type of m with
      | M _ _ Cell =>
          match goal with
          | _ : cell_ok ?id _ |- _ =>
              apply wpr_bind; eapply (wpr_mono _ (λ c' s', own_ok s' ∧ cell_ok id c'));
              [|cbv beta; intros ? ? [? ?]]
          end
      | M _ _ unit => apply wpr_bind; eapply (wpr_mono _ (λ _, own_ok)); [|cbv beta; intros]
      end
  end.

Ltac own_join := cbv beta; intros; repeat first [own_join_step|own_step].

(** ** Shared operations *)

Lemma op_own : keeps (op).
Proof. intros s Hs. unfold op. own_auto. Qed.
#[local] Hint Resolve op_own : own.

Lemma cell_op_own id : keeps (cell_op id).
Proof. intros s Hs. unfold cell_op. own_auto. Qed.
#[local] Hint Resolve cell_op_own : own.

Lemma forget_cell_op_own (o : N) : keeps (forget_cell_op o).
Proof. intros s Hs. unfold forget_cell_op. own_auto. Qed.
#[local] Hint Resolve forget_cell_op_own : own.

Lemma timer_generation_own : keeps (timer_generation).
Proof. intros s Hs. unfold timer_generation. own_auto. Qed.
#[local] Hint Resolve timer_generation_own : own.

Lemma activate_request_own r id : keeps (activate_request r id).
Proof. intros s Hs. unfold activate_request. own_auto. Qed.
#[local] Hint Resolve activate_request_own : own.

Lemma deactivate_request_own r : keeps (deactivate_request r).
Proof. intros s Hs. unfold deactivate_request. own_auto. Qed.
#[local] Hint Resolve deactivate_request_own : own.

Lemma record_local_request_own id c r n : hkeeps id c (record_local_request c r n).
Proof. intros s Hc Hs. unfold record_local_request. own_auto. Qed.
#[local] Hint Resolve record_local_request_own : own.

Lemma modify_activity_own f : keeps (modify_activity f).
Proof. intros s Hs. unfold modify_activity. own_auto. Qed.
#[local] Hint Resolve modify_activity_own : own.

Lemma complete_request_own id r res : keeps (complete_request id r res).
Proof. intros s Hs. unfold complete_request. own_auto. Qed.
#[local] Hint Resolve complete_request_own : own.

Lemma remove_request_cell_own r : keeps (remove_request_cell r).
Proof. intros s Hs. unfold remove_request_cell. own_auto. Qed.
#[local] Hint Resolve remove_request_cell_own : own.

Lemma finish_requests_own id c res : hkeeps id c (finish_requests id c res).
Proof. intros s Hc Hs. unfold finish_requests. own_auto. Qed.
#[local] Hint Resolve finish_requests_own : own.

Lemma record_acquisition_own spec : keeps (record_acquisition spec).
Proof. intros s Hs. unfold record_acquisition. own_auto. Qed.
#[local] Hint Resolve record_acquisition_own : own.

Lemma finish_eviction_own o res : keeps (finish_eviction o res).
Proof. intros s Hs. unfold finish_eviction. own_auto. Qed.
#[local] Hint Resolve finish_eviction_own : own.

Lemma return_eviction_permit_own id : keeps (return_eviction_permit id).
Proof. intros s Hs. unfold return_eviction_permit. own_auto. Qed.
#[local] Hint Resolve return_eviction_permit_own : own.

Lemma cancel_eviction_own id c e reason : Own id e → hkeeps id c (cancel_eviction id c e reason).
Proof. intros H1 s Hc Hs. unfold cancel_eviction. own_auto. Qed.
#[local] Hint Resolve cancel_eviction_own : own.

Lemma begin_eviction_own id r : keeps (begin_eviction id r).
Proof. intros s Hs. unfold begin_eviction. own_auto. Qed.
#[local] Hint Resolve begin_eviction_own : own.

Lemma shed_one_own : keeps (shed_one).
Proof. intros s Hs. unfold shed_one. own_auto. Qed.
#[local] Hint Resolve shed_one_own : own.

Lemma watch_queued_own id c : hkeeps id c (watch_queued id c).
Proof. intros s Hc Hs. unfold watch_queued. own_auto. Qed.
#[local] Hint Resolve watch_queued_own : own.

Lemma settle_confirmation_own id : keeps (settle_confirmation id).
Proof. intros s Hs. unfold settle_confirmation. own_auto. Qed.
#[local] Hint Resolve settle_confirmation_own : own.

Lemma settle_local_resume_own id : keeps (settle_local_resume id).
Proof. intros s Hs. unfold settle_local_resume. own_auto. Qed.
#[local] Hint Resolve settle_local_resume_own : own.

Lemma refuse_new_ownership_during_drain_own id c p :
  hkeeps2 id c (refuse_new_ownership_during_drain id c p).
Proof. intros s Hc Hs. unfold refuse_new_ownership_during_drain. own_auto. Qed.
#[local] Hint Resolve refuse_new_ownership_during_drain_own : own.

Lemma refuse_claim_own id c a : hkeeps2 id c (refuse_claim id c a).
Proof. intros s Hc Hs. unfold refuse_claim. own_auto. Qed.
#[local] Hint Resolve refuse_claim_own : own.

Lemma begin_activation_own id c a : act_ok id (Some a) → hkeeps id c (begin_activation id c a).
Proof. intros H1 s Hc Hs. unfold begin_activation. own_auto. Qed.
#[local] Hint Resolve begin_activation_own : own.

Lemma activate_or_wait_own id c a w : act_ok id (Some a) → hkeeps id c (activate_or_wait id c a w).
Proof. intros H1 s Hc Hs. unfold activate_or_wait. own_auto. Qed.
#[local] Hint Resolve activate_or_wait_own : own.

Lemma begin_cold_route_own id c a : start_ok id (Some a) → hkeeps id c (begin_cold_route id c a).
Proof. intros H1 s Hc Hs. unfold begin_cold_route. own_auto. Qed.
#[local] Hint Resolve begin_cold_route_own : own.

Lemma admit_or_queue_activation_own id c a :
  start_ok id (Some a) → hkeeps id c (admit_or_queue_activation id c a).
Proof. intros H1 s Hc Hs. unfold admit_or_queue_activation. own_auto. Qed.
#[local] Hint Resolve admit_or_queue_activation_own : own.

Lemma pump_activations_turn_own : keeps (pump_activations_turn).
Proof. intros s Hs. unfold pump_activations_turn. own_auto. Qed.
#[local] Hint Resolve pump_activations_turn_own : own.

Lemma pump_activations_own : keeps (pump_activations).
Proof. intros s Hs. unfold pump_activations. own_auto. Qed.
#[local] Hint Resolve pump_activations_own : own.

Lemma pump_capacity_turn_own : keeps (pump_capacity_turn).
Proof. intros s Hs. unfold pump_capacity_turn. own_auto. Qed.
#[local] Hint Resolve pump_capacity_turn_own : own.

Lemma pump_capacity_own : keeps (pump_capacity).
Proof. intros s Hs. unfold pump_capacity. own_auto. Qed.
#[local] Hint Resolve pump_capacity_own : own.

Lemma confirm_local_cells_own res : keeps (confirm_local_cells res).
Proof. intros s Hs. unfold confirm_local_cells. own_auto. Qed.
#[local] Hint Resolve confirm_local_cells_own : own.

Lemma remove_capacity_request_own r : keeps (remove_capacity_request r).
Proof. intros s Hs. unfold remove_capacity_request. own_auto. Qed.
#[local] Hint Resolve remove_capacity_request_own : own.

Lemma expire_queued_own id g : keeps (expire_queued id g).
Proof. intros s Hs. unfold expire_queued. own_auto. Qed.
#[local] Hint Resolve expire_queued_own : own.

(** ** Alarms and the output gate *)

Lemma schedule_alarm_timer_own id g a n m : keeps (schedule_alarm_timer id g a n m).
Proof. intros s Hs. unfold schedule_alarm_timer. own_auto. Qed.
#[local] Hint Resolve schedule_alarm_timer_own : own.

Lemma settle_observation_own id c a b n m : cell_ok id c → keeps (settle_observation id c a b n m).
Proof. intros H1 s Hs. unfold settle_observation. own_auto. Qed.
#[local] Hint Resolve settle_observation_own : own.

Lemma alarm_observed_own id o n m : keeps (alarm_observed id o n m).
Proof. intros s Hs. unfold alarm_observed. own_auto. Qed.
#[local] Hint Resolve alarm_observed_own : own.

Lemma retry_alarm_timer_own id g n : keeps (retry_alarm_timer id g n).
Proof. intros s Hs. unfold retry_alarm_timer. own_auto. Qed.
#[local] Hint Resolve retry_alarm_timer_own : own.

Lemma fire_alarm_own id c e a g b : cell_ok id c → Own id e → keeps (fire_alarm id c e a g b).
Proof. intros H1 H2 s Hs. unfold fire_alarm. own_auto. Qed.
#[local] Hint Resolve fire_alarm_own : own.

Lemma cell_alarm_timer_own id g n m : keeps (cell_alarm_timer id g n m).
Proof. intros s Hs. unfold cell_alarm_timer. own_auto. Qed.
#[local] Hint Resolve cell_alarm_timer_own : own.

Lemma open_barrier_own o id e p : keeps (open_barrier o id e p).
Proof. intros s Hs. unfold open_barrier, barrier_insert. own_auto. Qed.
#[local] Hint Resolve open_barrier_own : own.

Lemma settle_alarm_own o n m res : keeps (settle_alarm o n m res).
Proof. intros s Hs. unfold settle_alarm. own_auto. Qed.
#[local] Hint Resolve settle_alarm_own : own.

Lemma alarm_finished_own o id e n m res : keeps (alarm_finished o id e n m res).
Proof. intros s Hs. unfold alarm_finished. own_auto. Qed.
#[local] Hint Resolve alarm_finished_own : own.

Lemma activity_finished_own r : keeps (activity_finished r).
Proof. intros s Hs. unfold activity_finished. own_auto. Qed.
#[local] Hint Resolve activity_finished_own : own.

Lemma release_held_own h res : keeps (release_held h res).
Proof. intros s Hs. unfold release_held, emit_release, unpin_gate. own_auto. Qed.
#[local] Hint Resolve release_held_own : own.

Lemma doom_barrier_own b : keeps (doom_barrier b).
Proof. intros s Hs. unfold doom_barrier, emit_release, unpin_gate. own_auto. Qed.
#[local] Hint Resolve doom_barrier_own : own.

Lemma resident_at_own s id e : own_ok s → resident_at s id e = true → Own id e.
Proof.
  unfold resident_at. intros Hs Hr. repeat case_match; try done. apply N.eqb_eq in Hr as ->.
  own_facts. done.
Qed.

Lemma reset_cell_own id e : keeps (reset_cell id e).
Proof.
  intros s Hs. unfold reset_cell, barrier_remove, unpin_gate. wpr_step. wpr_step. cbv beta.
  destruct (resident_at s id e) eqn:Er; simpl; [pose proof (resident_at_own _ _ _ Hs Er)|]; own_auto.
Qed.
#[local] Hint Resolve reset_cell_own : own.

Lemma note_proven_own id e p : keeps (note_proven id e p).
Proof. intros s Hs. unfold note_proven. own_auto. Qed.
#[local] Hint Resolve note_proven_own : own.

Lemma open_write_barrier_own h p : keeps (open_write_barrier h p).
Proof. intros s Hs. unfold open_write_barrier, emit_release. own_auto. Qed.
#[local] Hint Resolve open_write_barrier_own : own.

Lemma barrier_update_own o f : keeps (barrier_update o f).
Proof. intros s Hs. unfold barrier_update. own_auto. Qed.
#[local] Hint Resolve barrier_update_own : own.

Lemma hold_observed_own h id e o : keeps (hold_observed h id e o).
Proof. intros s Hs. unfold hold_observed. own_auto. Qed.
#[local] Hint Resolve hold_observed_own : own.

Lemma trail_open_barrier_own h : keeps (trail_open_barrier h).
Proof. intros s Hs. unfold trail_open_barrier, emit_release. own_auto. Qed.
#[local] Hint Resolve trail_open_barrier_own : own.

Lemma output_own r ch p o e : keeps (output r ch p o e).
Proof. intros s Hs. unfold output, emit_release. own_auto. Qed.
#[local] Hint Resolve output_own : own.

Lemma reask_riders_own id e rs : keeps (reask_riders id e rs).
Proof. intros s Hs. unfold reask_riders, open_export_barrier. own_auto. Qed.
#[local] Hint Resolve reask_riders_own : own.

Lemma export_ticket_own id e p t : keeps (export_ticket id e p t).
Proof. intros s Hs. unfold export_ticket, open_export_barrier. own_auto. Qed.
#[local] Hint Resolve export_ticket_own : own.

Lemma settle_gate_own o b : keeps (settle_gate o b).
Proof. intros s Hs. unfold settle_gate, barrier_remove. own_auto. Qed.
#[local] Hint Resolve settle_gate_own : own.

Lemma hand_export_on_own o : keeps (hand_export_on o).
Proof. intros s Hs. unfold hand_export_on, barrier_remove. own_auto. Qed.
#[local] Hint Resolve hand_export_on_own : own.

Lemma take_export_riders_own o : keeps (take_export_riders o).
Proof. intros s Hs. unfold take_export_riders, barrier_remove. own_auto. Qed.
#[local] Hint Resolve take_export_riders_own : own.

Lemma durable_reached_own o res src : keeps (durable_reached o res src).
Proof. intros s Hs. unfold durable_reached. own_auto. Qed.
#[local] Hint Resolve durable_reached_own : own.

Lemma ownership_verified_own o res : keeps (ownership_verified o res).
Proof. intros s Hs. unfold ownership_verified. own_auto. Qed.
#[local] Hint Resolve ownership_verified_own : own.

Lemma cancel_cell_outputs_own id : keeps (cancel_cell_outputs id).
Proof. intros s Hs. unfold cancel_cell_outputs, barrier_remove. own_auto. Qed.
#[local] Hint Resolve cancel_cell_outputs_own : own.

Lemma worker_route_own s id e : own_ok s → worker_route s = Some (id, e) → Own id e.
Proof.
  intros Hs Hr.
  assert ((id, e) ∈ omap (worker_candidate s) (items (st_cells s))) as Hin.
  { unfold worker_route in Hr. destruct (find_first _ _) eqn:Ef.
    - simplify_eq. by apply find_first_Some in Ef as [? _].
    - by apply head_Some_elem_of. }
  apply list_elem_of_omap in Hin as ([i c] & Hi & Hc). apply elem_of_items in Hi.
  unfold worker_candidate in Hc. repeat case_match; simplify_eq; by own_facts.
Qed.

Lemma worker_request_own r : keeps (worker_request r).
Proof.
  intros s Hs. unfold worker_request. wpr_step. wpr_step. cbv beta zeta.
  destruct (worker_route s) as [[id e]|] eqn:Er; simpl; [pose proof (worker_route_own _ _ _ Hs Er)|]; own_auto.
Qed.
#[local] Hint Resolve worker_request_own : own.

(** ** Node authority *)

Lemma fence_barrier_own b : keeps (fence_barrier b).
Proof. intros s Hs. unfold fence_barrier, emit_release. own_auto. Qed.
#[local] Hint Resolve fence_barrier_own : own.

Lemma fence_cell_own id : keeps (fence_cell id).
Proof. intros s Hs. unfold fence_cell. own_join. Qed.
#[local] Hint Resolve fence_cell_own : own.

Lemma fence_own : keeps (fence).
Proof. intros s Hs. unfold fence, fence_indexes. own_auto. Qed.
#[local] Hint Resolve fence_own : own.

Lemma fence_node_own reason : keeps (fence_node reason).
Proof. intros s Hs. unfold fence_node. own_auto. Qed.
#[local] Hint Resolve fence_node_own : own.

Lemma compensate_retired_runtime_own o res : keeps (compensate_retired_runtime o res).
Proof. intros s Hs. unfold compensate_retired_runtime. own_auto. Qed.
#[local] Hint Resolve compensate_retired_runtime_own : own.

Lemma begin_node_lease_acquisition_own n spec : keeps (begin_node_lease_acquisition n spec).
Proof. intros s Hs. unfold begin_node_lease_acquisition. own_auto. Qed.
#[local] Hint Resolve begin_node_lease_acquisition_own : own.

Lemma start_node_lease_own n spec : keeps (start_node_lease n spec).
Proof. intros s Hs. unfold start_node_lease. own_auto. Qed.
#[local] Hint Resolve start_node_lease_own : own.

Lemma fail_initial_node_lease_own spec : keeps (fail_initial_node_lease spec).
Proof. intros s Hs. unfold fail_initial_node_lease. own_auto. Qed.
#[local] Hint Resolve fail_initial_node_lease_own : own.

Lemma take_nudge_own : keeps (take_nudge).
Proof. intros s Hs. unfold take_nudge. own_auto. Qed.
#[local] Hint Resolve take_nudge_own : own.

Lemma hold_node_lease_own spec r a b1 b2 : keeps (hold_node_lease spec r a b1 b2).
Proof. intros s Hs. unfold hold_node_lease. own_auto. Qed.
#[local] Hint Resolve hold_node_lease_own : own.

Lemma complete_node_lease_write_own p r n : keeps (complete_node_lease_write p r n).
Proof. intros s Hs. unfold complete_node_lease_write. own_auto. Qed.
#[local] Hint Resolve complete_node_lease_write_own : own.

Lemma resume_node_lease_after_failure_own p n : keeps (resume_node_lease_after_failure p n).
Proof. intros s Hs. unfold resume_node_lease_after_failure. own_auto. Qed.
#[local] Hint Resolve resume_node_lease_after_failure_own : own.

Lemma begin_node_lease_write_own p g : keeps (begin_node_lease_write p g).
Proof. intros s Hs. unfold begin_node_lease_write. own_auto. Qed.
#[local] Hint Resolve begin_node_lease_write_own : own.

Lemma adopt_late_write_own p r n m : keeps (adopt_late_write p r n m).
Proof. intros s Hs. unfold adopt_late_write. own_auto. Qed.
#[local] Hint Resolve adopt_late_write_own : own.

Lemma replace_node_lease_own p r n : keeps (replace_node_lease p r n).
Proof. intros s Hs. unfold replace_node_lease. own_auto. Qed.
#[local] Hint Resolve replace_node_lease_own : own.

Lemma read_self_node_lease_own o n m res : keeps (read_self_node_lease o n m res).
Proof. intros s Hs. unfold read_self_node_lease. own_auto. Qed.
#[local] Hint Resolve read_self_node_lease_own : own.

Lemma read_back_own p b l : keeps (read_back p b l).
Proof. intros s Hs. unfold read_back. own_auto. Qed.
#[local] Hint Resolve read_back_own : own.

Lemma node_lease_cas_completed_own o n res l : keeps (node_lease_cas_completed o n res l).
Proof. intros s Hs. unfold node_lease_cas_completed. own_auto. Qed.
#[local] Hint Resolve node_lease_cas_completed_own : own.

(** ** Ingress *)

Lemma join_waiters_own id c r : hkeeps id c (join_waiters r id c).
Proof. intros s Hc Hs. unfold join_waiters, request_cell_insert. own_auto. Qed.
#[local] Hint Resolve join_waiters_own : own.

Lemma serve_local_own id c r : hkeeps id c (serve_local r id c).
Proof. intros s Hc Hs. unfold serve_local. own_auto. Qed.
#[local] Hint Resolve serve_local_own : own.

Lemma wait_for_cell_own id c r : hkeeps id c (wait_for_cell r id c).
Proof. intros s Hc Hs. unfold wait_for_cell. own_auto. Qed.
#[local] Hint Resolve wait_for_cell_own : own.

Lemma request_authorized_own r id : keeps (request_authorized r id).
Proof. intros s Hs. unfold request_authorized. own_auto. Qed.
#[local] Hint Resolve request_authorized_own : own.

Lemma request_own r id b1 b2 : keeps (request r id b1 b2).
Proof. intros s Hs. unfold request. own_auto. Qed.
#[local] Hint Resolve request_own : own.

Lemma websocket_request_own r id w : keeps (websocket_request r id w).
Proof. intros s Hs. unfold websocket_request. own_auto. Qed.
#[local] Hint Resolve websocket_request_own : own.

Lemma gate_request_own r id : keeps (gate_request r id).
Proof. intros s Hs. unfold gate_request. own_auto. Qed.
#[local] Hint Resolve gate_request_own : own.

Lemma wake_hint_authorized_own id sc : keeps (wake_hint_authorized id sc).
Proof. intros s Hs. unfold wake_hint_authorized. own_auto. Qed.
#[local] Hint Resolve wake_hint_authorized_own : own.

Lemma wake_hint_own id n sc : keeps (wake_hint id n sc).
Proof. intros s Hs. unfold wake_hint. own_auto. Qed.
#[local] Hint Resolve wake_hint_own : own.

Lemma cancel_own r : keeps (cancel r).
Proof. intros s Hs. unfold cancel, remove_handoff_request. own_auto. Qed.
#[local] Hint Resolve cancel_own : own.

Lemma preserve_fallback_ok id c p : cell_ok id c → preserve_fallback c = Some p → phase_ok id p.
Proof.
  unfold preserve_fallback. intros Hc Hp. repeat case_match; simplify_eq; own_facts; simpl in *; done.
Qed.

Lemma preserve_cell_own id : keeps (preserve_cell id).
Proof.
  intros s Hs. unfold preserve_cell. wpr_step. own_step; [|own_auto].
  destruct (preserve_fallback c) as [p|] eqn:Ep; [pose proof (preserve_fallback_ok _ _ _ H0 Ep)|];
    unfold expect; repeat wpr_step; rewrite ?Ep; own_auto.
Qed.
#[local] Hint Resolve preserve_cell_own : own.

Lemma begin_preserve_own : keeps (begin_preserve).
Proof. intros s Hs. unfold begin_preserve. own_auto. Qed.
#[local] Hint Resolve begin_preserve_own : own.

(** ** Resolution *)

Lemma begin_capacity_lookup_own id c cl :
  claim_ok id cl → hkeeps id c (begin_capacity_lookup id c cl).
Proof. intros Hcl s Hc Hs. unfold begin_capacity_lookup. own_auto. Qed.
#[local] Hint Resolve begin_capacity_lookup_own : own.

Lemma refuse_capacity_handoffs_own id c : hkeeps id c (refuse_capacity_handoffs id c).
Proof. intros s Hc Hs. unfold refuse_capacity_handoffs. own_auto. Qed.
#[local] Hint Resolve refuse_capacity_handoffs_own : own.

Lemma place_unowned_own id c cl : claim_ok id cl → hkeeps id c (place_unowned id c cl).
Proof. intros Hcl s Hc Hs. unfold place_unowned. own_auto. Qed.
#[local] Hint Resolve place_unowned_own : own.

Lemma fail_resolution_own id c e : hkeeps id c (fail_resolution id c e).
Proof. intros s Hc Hs. unfold fail_resolution. own_auto. Qed.
#[local] Hint Resolve fail_resolution_own : own.

Lemma wpr_next_writer_epoch id c prev (Q : Cell * option N → State → Prop) s :
  cell_ok id c → own_ok s →
  (∀ s', own_ok s' → Q (c, Some (prev + 1)) s') →
  (∀ c' s', cell_ok id c' → own_ok s' → Q (c', None) s') →
  wpo (next_writer_epoch id c prev) Q s.
Proof.
  intros Hc Hs HS HN. unfold next_writer_epoch. destruct (checked_add prev 1) eqn:E.
  - apply checked_add_Some in E as [-> _]. wpr_step. by apply HS.
  - own_auto.
Qed.

Lemma claim_record_ok id r t k :
  Rec id (Some r) → (∀ owner, or_node r = Some owner → owner ≠ node → Gone owner) →
  claim_ok id (claim_record r (or_epoch r + 1) t k).
Proof. intros Hr Hg. right. by exists r. Qed.

Lemma take_over_own id c r owner lease :
  Rec id (Some r) → or_node r = Some owner → owner ≠ node →
  (log_unrecovered lease = false → Gone owner) →
  hkeeps id c (take_over id c r lease).
Proof.
  intros Hr Ho Hn Hg s Hc Hs. unfold take_over. rewrite Ho. simpl. own_step. own_call.
  destruct b; [own_auto|]. destruct (log_unrecovered lease) eqn:El; [own_auto|].
  wpr_step. apply wpr_next_writer_epoch; [done|done|intros s1 Hs1|own_auto].
  assert (claim_ok id (claim_record r (or_epoch r + 1) true 0)).
  { apply claim_record_ok; [done|]. intros o Ho'. simplify_eq. auto. }
  own_auto.
Qed.

Lemma apply_node_lease_result_own id c r owner issued res :
  Rec id (Some r) → or_node r = Some owner → owner ≠ node →
  (∀ lease, res = Ok lease →
     is_some_and (λ l, lease_routable r issued (cnl_record l)) lease = false →
     log_unrecovered lease = false → Gone owner) →
  hkeeps id c (apply_node_lease_result id c r issued res).
Proof.
  intros Hr Ho Hn Hg s Hc Hs. unfold apply_node_lease_result. wpr_step. wpr_step. cbv beta.
  destruct res as [[l|]|f]; [|by apply (take_over_own _ _ _ owner); eauto|own_auto].
  simpl. destruct (lease_routable r issued (cnl_record l)) eqn:El; [own_auto|].
  apply (take_over_own _ _ _ owner); eauto.
Qed.

Lemma confirm_acquisition_own id c cl e : Own id e → hkeeps id c (confirm_acquisition id c cl e).
Proof. intros He s Hc Hs. unfold confirm_acquisition. own_auto. Qed.
#[local] Hint Resolve confirm_acquisition_own : own.

(** A lease served from the cache still vouches for its owner. *)
Lemma cached_routable s r owner now lease :
  own_ok s → st_node_lease_cache s !! owner = Some lease →
  deadline_live (cnl_deadline lease) (st_now_ms s) (st_now_mono_ms s) = true →
  or_node r = Some owner → now ≤ st_now_ms s →
  lease_routable r now (cnl_record lease) = true.
Proof.
  intros (_ & _ & Hc) El Hd Ho Hnow. destruct (Hc _ _ El) as (Hn & Ha & Hx).
  unfold deadline_live in Hd. apply andb_true_iff in Hd as [Hd _]. apply N.ltb_lt in Hd.
  unfold lease_routable. rewrite Hn, Ho, !andb_true_iff, negb_true_iff, N.ltb_lt.
  split_and!; [lia|by apply bool_decide_eq_false_2|by apply bool_decide_eq_true_2].
Qed.

Lemma resolve_foreign_owner_own id c r owner now s :
  Rec id (Some r) → or_node r = Some owner → owner ≠ node → Iss now → now ≤ st_now_ms s →
  cell_ok id c → own_ok s →
  wpo (resolve_foreign_owner id c r owner now) (λ c' s', own_ok s' ∧ cell_ok id c') s.
Proof.
  intros Hr Ho Hn Hi Hnow Hc Hs. unfold resolve_foreign_owner. do 2 wpr_step. cbv beta.
  destruct (_ ≫= _) as [lease|] eqn:El; [|own_auto].
  apply bind_Some in El as (l & El & Hl). destruct (deadline_live _ _ _) eqn:Ed; simplify_eq.
  apply (apply_node_lease_result_own _ _ _ owner); try done. intros ? [= <-]. simpl.
  by rewrite (cached_routable s r owner now lease).
Qed.

Lemma resolve_owner_own id c now res s :
  (∀ ro, res = Ok ro → Rec id ro ∧ Iss now ∧ now ≤ st_now_ms s) →
  cell_ok id c → own_ok s →
  wpo (resolve_owner id c now res) (λ r s', own_ok s' ∧ cell_ok id r.1) s.
Proof.
  intros Hres Hc Hs. pose proof (own_ok_node _ Hs) as Hnode.
  unfold resolve_owner. do 2 wpr_step. cbv beta zeta.
  destruct res as [[r|]|f]; [| |own_auto].
  - destruct (Hres _ eq_refl) as (Hr & Hi & Hnow). clear Hres.
    destruct (reconciled s _ r) as [cl|] eqn:Erec.
    + assert (Own id (or_epoch r)).
      { apply RecOwn; [done|]. unfold reconciled in Erec. destruct (reconciling_claim _); [|done].
        simpl in Erec. case_match; [|done]. rewrite Hnode in *. by case_bool_decide. }
      own_auto.
    + destruct (or_node r) as [owner|] eqn:Eo.
      * case_bool_decide as Hself.
        -- wpr_step. apply wpr_next_writer_epoch; [done|done|intros s1 Hs1|own_auto].
           assert (claim_ok id (claim_record r (or_epoch r + 1) false
             match reconciling_claim (c_phase c) with Some claim => cl_reconciles claim | None => 0 end)).
           { apply claim_record_ok; [done|]. congruence. }
           own_auto.
        -- wpr_step. eapply wpr_mono; [apply resolve_foreign_owner_own; try done; congruence|].
           cbv beta. intros ? ? [? ?]. own_auto.
      * wpr_step. apply wpr_next_writer_epoch; [done|done|intros s1 Hs1|own_auto].
        assert (claim_ok id (claim_record r (or_epoch r + 1) true
          match reconciling_claim (c_phase c) with Some claim => cl_reconciles claim | None => 0 end)).
        { apply claim_record_ok; [done|]. congruence. }
        own_auto.
  - destruct (Hres _ eq_refl) as (Hr & _ & _).
    assert (claim_ok id (mkClaim Absent 1 false None
      match reconciling_claim (c_phase c) with Some claim => cl_reconciles claim | None => 0 end)).
    { by left. }
    own_auto.
Qed.

Lemma confirmed_phase_ok s id res :
  own_ok s → (∀ ro, res = Ok ro → Rec id ro) → phase_ok id (confirmed_phase s res).
Proof.
  intros Hs Hr. unfold confirmed_phase. rewrite (own_ok_node s Hs).
  destruct res as [[r|]|]; [|done|done]. case_bool_decide; [|done]. apply RecOwn; auto.
Qed.

Lemma reading_owner_asked op id c :
  cell_ok id c → reading_owner_op op c = true → Em (FxReadOwner op id).
Proof.
  intros Hc. unfold reading_owner_op. destruct (c_phase c) eqn:E; try done;
    intros ->%N.eqb_eq; own_facts; by destruct_and?.
Qed.

Lemma settle_confirmation_now id s :
  own_ok s →
  wpo (settle_confirmation id) (λ _ s', own_ok s' ∧ st_now_ms s' = st_now_ms s) s.
Proof. intros Hs. unfold settle_confirmation. own_auto. Qed.

Lemma owner_read_own op now res s :
  (∀ ro id, res = Ok ro → Em (FxReadOwner op id) → Rec id ro) →
  (∀ ro, res = Ok ro → Iss now ∧ now ≤ st_now_ms s) →
  own_ok s → wpo (owner_read op now res) (λ _, own_ok) s.
Proof.
  intros Hres Hnow Hs. unfold owner_read. wpr_step.
  apply wpr_take_cell_op; [done|intros id c E Hop|own_auto]. simpl.
  wpr_step. apply wpr_cell_remove; [own_leaf|simpl; intros c' E' Hc|own_auto].
  rewrite E in E'. simplify_eq. pose proof (reading_owner_asked _ _ _ Hc Hop) as Hask.
  unfold expect. do 2 wpr_step. cbv zeta. wpr_step.
  eapply (wpr_mono _ (λ _ s', own_ok s' ∧ st_now_ms s' = st_now_ms s)).
  { unfold when. case_match; [|wpr_step; own_leaf].
    eapply wpr_mono; [apply settle_confirmation_now; own_leaf|]. cbv beta. by intros ? ? [? ->]. }
  cbv beta. intros [] s1 [Hs1 Et]. do 2 wpr_step. cbv beta. case_match.
  - assert (phase_ok id (confirmed_phase s1 res)) by (apply confirmed_phase_ok; eauto). own_auto.
  - wpr_step. eapply wpr_mono; [apply resolve_owner_own; [|own_cell|done]|].
    + intros ro ->. rewrite Et. eauto.
    + cbv beta. intros [c2 early] s2 [? ?]. own_auto.
Qed.

Lemma lapsed_lease r owner issued (l : option CachedNodeLease) :
  or_node r = Some owner →
  is_some_and (λ l, lease_routable r issued (cnl_record l)) l = false →
  log_unrecovered l = false → lease_lapsed owner issued (cnl_record <$> l).
Proof.
  destruct l as [l|]; [|done]. simpl. unfold lease_routable, log_unrecovered. intros -> Hr Hl.
  simpl in Hl.
  split; [|destruct (nl_log_state (cnl_record l)) as [[]|]; first [done|by left|by right]].
  rewrite !andb_false_iff, N.ltb_ge, negb_false_iff in Hr.
  destruct Hr as [[?|?%bool_decide_eq_true]|?%bool_decide_eq_false]; [auto|auto|].
  right; right. congruence.
Qed.

Lemma table_cache n m k o l : table_ok n m k → cache_ok o l → table_ok n m (<[o := l]> k).
Proof. intros (? & ? & ?) ?. split_and!; [done|done|]. by apply map_Forall_insert_2. Qed.

Lemma node_lease_read_own op now res :
  (∀ lease id owner issued, res = Ok lease → Em (FxReadNodeLease op id owner) → Iss issued →
     lease_lapsed owner issued lease → Gone owner) →
  keeps (node_lease_read op now res).
Proof.
  intros Hg s Hs. unfold node_lease_read. wpr_step.
  apply wpr_take_cell_op; [done|intros id c E Hop|own_auto]. simpl.
  wpr_step. apply wpr_cell_remove; [own_leaf|simpl; intros c' E' Hc|own_auto].
  rewrite E in E'. simplify_eq. unfold expect. do 2 wpr_step.
  destruct (c_phase c') as [| | |o r issued mono| | | | | | | | | | | | | | | |] eqn:Ep; try done.
  apply N.eqb_eq in Hop as ->. own_facts. destruct H as (Hr & Hi & owner & Ho & Hn & Hask).
  do 2 wpr_step. cbv beta zeta. set (res' := result_map _ _).
  wpr_step. eapply (wpr_mono _ (λ _, own_ok)).
  { destruct res as [[l|]|f]; [|own_auto|own_auto]. simpl. unfold when. case_match; [|own_auto].
    wpr_step. rewrite !andb_true_iff, negb_true_iff in H. destruct H as [[_ _] Ha].
    apply bool_decide_eq_false in Ha. unfold own_ok in *. simpl.
    apply table_cache; [by apply table_delete|done]. }
  cbv beta. intros [] s1 Hs1. wpr_step.
  eapply wpr_mono; [apply (apply_node_lease_result_own _ _ _ owner)|]; try done.
  - intros l Hl Hrt Hlog. destruct res as [l0|]; [|done]. injection Hl as <-.
    apply (Hg l0 id owner issued); try done.
    pose proof (lapsed_lease _ _ _ _ Ho Hrt Hlog) as Hlap. by destruct l0.
  - cbv beta. intros c2 s2 [? ?]. own_auto.
Qed.

Lemma observe_sample_own p : keeps (observe_sample p).
Proof. intros s Hs. unfold observe_sample. own_auto. Qed.
#[local] Hint Resolve observe_sample_own : own.

Lemma capacity_peers_read_own o n res : keeps (capacity_peers_read o n res).
Proof. intros s Hs. unfold capacity_peers_read. own_auto. Qed.
#[local] Hint Resolve capacity_peers_read_own : own.

Lemma back_off_recovery_own id c : hkeeps id c (back_off_recovery id c).
Proof. intros s Hc Hs. unfold back_off_recovery. own_auto. Qed.
#[local] Hint Resolve back_off_recovery_own : own.

Lemma node_log_recovered_own op res :
  (∀ id owner, res = Ok tt → Em (FxRecoverNodeLog op id owner) → Gone owner) →
  keeps (node_log_recovered op res).
Proof.
  intros Hg s Hs. unfold node_log_recovered. wpr_step.
  apply wpr_take_cell_op; [done|intros id c E Hop|own_auto]. simpl.
  wpr_step. apply wpr_cell_remove; [own_leaf|simpl; intros c' E' Hc|own_auto].
  rewrite E in E'. simplify_eq. unfold expect. do 2 wpr_step.
  destruct (c_phase c') as [| | | |o r| | | | | | | | | | | | | | |] eqn:Ep; try done.
  apply N.eqb_eq in Hop as ->. own_facts. destruct H as (Hr & owner & Ho & Hask).
  destruct res as [[]|f]; [|own_auto].
  wpr_step. apply wpr_next_writer_epoch; [done|own_leaf|intros s1 Hs1|own_auto].
  assert (claim_ok id (claim_record r (or_epoch r + 1) true 0)).
  { apply claim_record_ok; [done|]. intros o' Ho' _. simplify_eq. eauto. }
  own_auto.
Qed.

Lemma retry_owner_log_recovery_own id g : keeps (retry_owner_log_recovery id g).
Proof. intros s Hs. unfold retry_owner_log_recovery. own_auto. Qed.
#[local] Hint Resolve retry_owner_log_recovery_own : own.

Lemma elem_of_dedup {A} `{EqDecision A} (l : list A) x : x ∈ dedup l → x ∈ l.
Proof.
  induction l as [|y [|z l] IH]; [done|done|]. intros Hx.
  change (x ∈ (if decide (y = z) then dedup (z :: l) else y :: dedup (z :: l))) in Hx. case_decide.
  - right. by apply IH.
  - apply elem_of_cons in Hx as [->|Hx]; [left|right; by apply IH].
Qed.

Lemma local_cells_read_own res :
  (∀ cells c, res = Ok cells → c ∈ cells → lc_live c = true → Own (lc_id c) (lc_epoch c)) →
  keeps (local_cells_read res).
Proof.
  intros Hl s Hs. unfold local_cells_read. do 2 wpr_step. cbv beta.
  destruct (st_confirming s); [own_auto|]. destruct (negb (st_resuming s)); [own_auto|].
  destruct res as [cells|f]; [|own_auto]. cbv zeta. destruct (_ || _); [own_auto|].
  wpr_step. apply (wpr_for_each own_ok); [done| |own_auto].
  intros c s' Hc Hs'. apply elem_of_dedup in Hc. rewrite sort_by_Permutation in Hc.
  apply list_elem_of_filter in Hc as [Hlive Hc]. apply Is_true_true in Hlive.
  pose proof (Hl cells c eq_refl Hc Hlive).
  assert (cell_ok (lc_id c) (set_c_resume_demand true Cell_default)) by done. own_auto.
Qed.

(** ** Eviction *)

Lemma durability_checked_own o res : keeps (durability_checked o res).
Proof. intros s Hs. unfold durability_checked. own_auto. Qed.
#[local] Hint Resolve durability_checked_own : own.

Lemma evict_own id : keeps (evict id).
Proof. intros s Hs. unfold evict. own_auto. Qed.
#[local] Hint Resolve evict_own : own.

Lemma admit_eviction_own id : keeps (admit_eviction id).
Proof. intros s Hs. unfold admit_eviction. own_auto. Qed.
#[local] Hint Resolve admit_eviction_own : own.

Lemma report_admission_own r res : keeps (report_admission r res).
Proof. intros s Hs. unfold report_admission. own_auto. Qed.
#[local] Hint Resolve report_admission_own : own.

Lemma evict_requested_own r id : keeps (evict_requested r id).
Proof.
  intros s Hs. unfold evict_requested.
  apply (wpr_captured (admit_eviction id) (report_admission r)). own_auto.
Qed.
#[local] Hint Resolve evict_requested_own : own.

Lemma evict_idle_turn_own n i : keeps (evict_idle_turn n i).
Proof. intros s Hs. unfold evict_idle_turn. own_auto. Qed.
#[local] Hint Resolve evict_idle_turn_own : own.

Lemma evict_idle_own n : keeps (evict_idle n).
Proof. intros s Hs. unfold evict_idle. own_auto. Qed.
#[local] Hint Resolve evict_idle_own : own.

Lemma shed_toward_floor_turn_own : keeps (shed_toward_floor_turn).
Proof. intros s Hs. unfold shed_toward_floor_turn. own_auto. Qed.
#[local] Hint Resolve shed_toward_floor_turn_own : own.

Lemma shed_toward_floor_own : keeps (shed_toward_floor).
Proof. intros s Hs. unfold shed_toward_floor. own_auto. Qed.
#[local] Hint Resolve shed_toward_floor_own : own.

Lemma load_sampled_own l n : keeps (load_sampled l n).
Proof. intros s Hs. unfold load_sampled. own_auto. Qed.
#[local] Hint Resolve load_sampled_own : own.

(** ** Activation *)

Lemma reread_owner_own id c p :
  (∀ o, Em (FxReadOwner o id) → phase_ok id (p o)) → hkeeps id c (reread_owner id c p).
Proof. intros Hp s Hc Hs. unfold reread_owner. own_auto. Qed.

Lemma acquire_applied_own id c cl b :
  Own id (cl_epoch cl) → hkeeps id c (acquire_applied id c cl b).
Proof. intros H1 s Hc Hs. unfold acquire_applied. own_auto. Qed.
#[local] Hint Resolve acquire_applied_own : own.

Lemma owner_cas_completed_own op res :
  (∀ id g e t, res = Ok Applied → Em (FxCasOwner op id g e t) → Own id e) →
  keeps (owner_cas_completed op res).
Proof.
  intros Hg s Hs. unfold owner_cas_completed. wpr_step.
  apply wpr_take_cell_op; [done|intros id c E Hop|own_auto]. simpl.
  wpr_step. apply wpr_cell_remove; [own_leaf|simpl; intros c' E' Hc|own_auto].
  rewrite E in E'. simplify_eq. unfold expect. do 2 wpr_step.
  destruct (c_phase c') as [| | | | | | | |o cl d| | | | | | | | | | |] eqn:Ep; try done.
  apply N.eqb_eq in Hop as ->. own_facts. destruct H as [Hcl Hask].
  wpr_step. eapply (wpr_mono _ (λ c2 s2, own_ok s2 ∧ cell_ok id c2)); [|cbv beta; intros ? ? [? ?]; own_auto].
  destruct res as [[]|[]]; [|by apply reread_owner_own; [|done|own_leaf]|own_auto|].
  - assert (Own id (cl_epoch cl)) by eauto. own_auto.
  - case_match; [|own_auto]. apply reread_owner_own; [|done|own_leaf]. intros o Ho. by split.
Qed.

Lemma seed_restored_alarm_own id c a : hkeeps id c (seed_restored_alarm id c a).
Proof. intros s Hc Hs. unfold seed_restored_alarm. own_auto. Qed.
#[local] Hint Resolve seed_restored_alarm_own : own.

Lemma start_runtime_own id c e : Own id e → hkeeps id c (start_runtime id c e).
Proof. intros H1 s Hc Hs. unfold start_runtime. own_auto. Qed.
#[local] Hint Resolve start_runtime_own : own.

Lemma fail_activation_own id c e err : Own id e → hkeeps2 id c (fail_activation id c e err).
Proof. intros H1 s Hc Hs. unfold fail_activation. own_auto. Qed.
#[local] Hint Resolve fail_activation_own : own.

Lemma restore_completed_own o res : keeps (restore_completed o res).
Proof. intros s Hs. unfold restore_completed. own_auto. Qed.
#[local] Hint Resolve restore_completed_own : own.

Lemma runtime_started_own o i g res : keeps (runtime_started o i g res).
Proof. intros s Hs. unfold runtime_started. own_auto. Qed.
#[local] Hint Resolve runtime_started_own : own.

Lemma runtime_start_timed_out_own o : keeps (runtime_start_timed_out o).
Proof. intros s Hs. unfold runtime_start_timed_out. own_auto. Qed.
#[local] Hint Resolve runtime_start_timed_out_own : own.

Lemma published_own o res : keeps (published o res).
Proof. intros s Hs. unfold published. own_auto. Qed.
#[local] Hint Resolve published_own : own.

Lemma settle_stop_own id c e cause : Own id e → hkeeps id c (settle_stop id c e cause).
Proof. intros H1 s Hc Hs. unfold settle_stop. own_auto. Qed.
#[local] Hint Resolve settle_stop_own : own.

Lemma runtime_stopped_own o : keeps (runtime_stopped o).
Proof. intros s Hs. unfold runtime_stopped. own_auto. Qed.
#[local] Hint Resolve runtime_stopped_own : own.

Lemma runtime_stop_failed_own o e : keeps (runtime_stop_failed o e).
Proof. intros s Hs. unfold runtime_stop_failed. own_auto. Qed.
#[local] Hint Resolve runtime_stop_failed_own : own.

(** ** Handoff, swap and the machine *)

Lemma releasing_insert_own id : keeps (releasing_insert id).
Proof. intros s Hs. unfold releasing_insert. own_auto. Qed.
#[local] Hint Resolve releasing_insert_own : own.

Lemma owner_released_own o res : keeps (owner_released o res).
Proof. intros s Hs. unfold owner_released. own_auto. Qed.
#[local] Hint Resolve owner_released_own : own.

Lemma successor_adopted_own o res : keeps (successor_adopted o res).
Proof. intros s Hs. unfold successor_adopted. own_auto. Qed.
#[local] Hint Resolve successor_adopted_own : own.

Lemma release_dormant_own id e : Own id e → keeps (release_dormant id e).
Proof. intros H1 s Hs. unfold release_dormant. own_auto. Qed.
#[local] Hint Resolve release_dormant_own : own.

Lemma rebalance_candidates_own s id e n :
  own_ok s → (id, e, n) ∈ rebalance_candidates s → Own id e.
Proof.
  unfold rebalance_candidates. rewrite sort_by_Permutation.
  intros Hs ([i c] & Hi & Hc)%list_elem_of_omap. apply elem_of_items in Hi.
  repeat case_match; simplify_eq; by own_facts.
Qed.

Lemma dormant_cells_own s keep id e : own_ok s → (id, e) ∈ dormant_cells s keep → Own id e.
Proof.
  unfold dormant_cells. intros Hs ([i c] & Hi & Hc)%list_elem_of_omap. apply elem_of_items in Hi.
  repeat case_match; simplify_eq; by own_facts.
Qed.

Lemma rebalance_own n : keeps (rebalance n).
Proof.
  intros s Hs. unfold rebalance. do 2 wpr_step. cbv beta. case_match; [own_auto|]. cbv zeta.
  apply (wpr_for_each own_ok); [done| |done]. intros [[id e] t] s' Hx Hs'.
  apply elem_of_take in Hx as (i & Hx%list_elem_of_lookup_2 & _).
  apply release_dormant_own; [exact (rebalance_candidates_own s id e t Hs Hx)|done].
Qed.
#[local] Hint Resolve rebalance_own : own.

Lemma spend_each_own {A} (l : list A) lim n f :
  (∀ x, x ∈ l → keeps (f x)) → keeps (spend_each l lim n f).
Proof.
  intros Hf. revert n. induction l as [|x l IH]; intros n s Hs; simpl; [own_auto|].
  case_match; [own_auto|]. wpr_step. eapply wpr_mono; [apply Hf; [left|done]|]. cbv beta.
  intros _ s' Hs'. apply IH; [|done]. intros y Hy. apply Hf. by right.
Qed.

Lemma release_queue_own p : Own p.1 p.2 → keeps (release_queue p).
Proof. intros H1 s Hs. unfold release_queue. destruct p as [id e]. simpl in *. own_auto. Qed.
#[local] Hint Resolve release_queue_own : own.

Lemma nominate_resident_own id : keeps (nominate_resident id).
Proof. intros s Hs. unfold nominate_resident. own_auto. Qed.
#[local] Hint Resolve nominate_resident_own : own.

Lemma dormant_spent s keep lim n (f : string * N → dec unit) :
  own_ok s → (∀ x, Own x.1 x.2 → keeps (f x)) → keeps (spend_each (dormant_cells s keep) lim n f).
Proof. intros Hs Hf. apply spend_each_own. intros [id e] Hx. apply Hf. by eapply dormant_cells_own. Qed.

Lemma pump_release_own : keeps (pump_release).
Proof.
  intros s Hs. unfold pump_release. pose proof dormant_spent as Hd.
  assert (∀ x : string * N, Own x.1 x.2 → keeps (release_dormant x.1 x.2)) by auto with own.
  pose proof release_queue_own as Hq.
  assert (∀ l lim n, keeps (spend_each l lim n nominate_resident)).
  { intros. apply spend_each_own. auto with own. }
  own_auto.
Qed.
#[local] Hint Resolve pump_release_own : own.

Lemma release_all_own : keeps (release_all).
Proof. intros s Hs. unfold release_all. own_auto. Qed.
#[local] Hint Resolve release_all_own : own.

Lemma generation_changed_own g a l : keeps (generation_changed g a l).
Proof. intros s Hs. unfold generation_changed. own_auto. Qed.
#[local] Hint Resolve generation_changed_own : own.

Lemma swap_cell_own b id : keeps (swap_cell b id).
Proof. intros s Hs. unfold swap_cell. own_auto. Qed.
#[local] Hint Resolve swap_cell_own : own.

Lemma pump_swap_own : keeps (pump_swap).
Proof. intros s Hs. unfold pump_swap. own_auto. Qed.
#[local] Hint Resolve pump_swap_own : own.

Lemma websocket_opened_own id w k : keeps (websocket_opened id w k).
Proof. intros s Hs. unfold websocket_opened. own_auto. Qed.
#[local] Hint Resolve websocket_opened_own : own.

Lemma websocket_closed_own id w : keeps (websocket_closed id w).
Proof. intros s Hs. unfold websocket_closed. own_auto. Qed.
#[local] Hint Resolve websocket_closed_own : own.

Lemma invalidate_remote_own id n e : keeps (invalidate_remote id n e).
Proof. intros s Hs. unfold invalidate_remote. own_auto. Qed.
#[local] Hint Resolve invalidate_remote_own : own.

Lemma arm_operation_deadlines_own l : keeps (arm_operation_deadlines l).
Proof. intros s Hs. unfold arm_operation_deadlines. own_auto. Qed.
#[local] Hint Resolve arm_operation_deadlines_own : own.

(** An operation that failed shows nothing. *)
Lemma owner_read_failed o n f : keeps (owner_read o n (Err f)).
Proof. intros s Hs. by apply owner_read_own. Qed.

Lemma node_lease_read_failed o n f : keeps (node_lease_read o n (Err f)).
Proof. by apply node_lease_read_own. Qed.

Lemma node_log_recovered_failed o f : keeps (node_log_recovered o (Err f)).
Proof. by apply node_log_recovered_own. Qed.

Lemma owner_cas_failed o f : keeps (owner_cas_completed o (Err f)).
Proof. by apply owner_cas_completed_own. Qed.
#[local] Hint Resolve owner_read_failed node_lease_read_failed : own.
#[local] Hint Resolve node_log_recovered_failed owner_cas_failed : own.

Lemma expire_operation_own o n : keeps (expire_operation o n).
Proof. intros s Hs. unfold expire_operation. own_auto. Qed.
#[local] Hint Resolve expire_operation_own : own.

Lemma renew_lease_own h n m : keeps (renew_lease h n m).
Proof. intros s Hs. unfold renew_lease. own_auto. Qed.
#[local] Hint Resolve renew_lease_own : own.

Lemma lease_timer_own b g n m : keeps (lease_timer b g n m).
Proof. intros s Hs. unfold lease_timer. own_auto. Qed.
#[local] Hint Resolve lease_timer_own : own.

Lemma timer_fired_own t n m : keeps (timer_fired t n m).
Proof. intros s Hs. unfold timer_fired. own_auto. Qed.
#[local] Hint Resolve timer_fired_own : own.

Lemma nudge_node_lease_own n m : keeps (nudge_node_lease n m).
Proof. intros s Hs. unfold nudge_node_lease. own_auto. Qed.
#[local] Hint Resolve nudge_node_lease_own : own.

(** What each answer of the environment shows. *)
Definition shows (e : Event) : Prop :=
  match e with
  | EvOwnerRead op now (Ok ro) => Iss now ∧ ∀ id, Em (FxReadOwner op id) → Rec id ro
  | EvNodeLeaseRead op _ (Ok lease) =>
      ∀ id owner issued, Em (FxReadNodeLease op id owner) → Iss issued →
        lease_lapsed owner issued lease → Gone owner
  | EvNodeLogRecovered op (Ok _) => ∀ id owner, Em (FxRecoverNodeLog op id owner) → Gone owner
  | EvOwnerCasCompleted op (Ok Applied) => ∀ id g e t, Em (FxCasOwner op id g e t) → Own id e
  | EvLocalCellsRead (Ok cells) =>
      ∀ c, c ∈ cells → lc_live c = true → Own (lc_id c) (lc_epoch c)
  | _ => True
  end.

Lemma handle_own e s :
  shows e → (∀ now, event_now_ms e = Some now → now ≤ st_now_ms s) → own_ok s →
  wpo (handle e) (λ _, own_ok) s.
Proof.
  intros He Hnow Hs. destruct e; simpl in He |- *; try (own_auto; fail).
  - apply local_cells_read_own; [|done]. intros cells c ->. apply He.
  - apply owner_read_own; [| |done].
    + intros ro id ->. apply He.
    + intros ro ->. split; [apply He|]. by apply Hnow.
  - apply node_log_recovered_own; [|done]. intros id owner ->. apply He.
  - apply node_lease_read_own; [|done]. intros lease id owner issued ->. apply He.
  - apply owner_cas_completed_own; [|done]. intros id g e t ->. apply He.
Qed.

Lemma advance_clocks_now e s now :
  event_now_ms e = Some now → now ≤ st_now_ms (advance_clocks e s).
Proof. intros E. unfold advance_clocks. rewrite E. simpl. lia. Qed.

Lemma advance_clocks_own e s : own_ok s → own_ok (advance_clocks e s).
Proof. unfold advance_clocks. by destruct (event_mono_ms e), (event_now_ms e). Qed.

Lemma transition_own e s : shows e → own_ok s → wpo (transition e) (λ _, own_ok) s.
Proof.
  intros He Hs. unfold transition. do 2 wpr_step. wpr_step.
  eapply wpr_mono; [apply handle_own; [done| |by apply advance_clocks_own]|own_auto].
  intros now. apply advance_clocks_now.
Qed.

Lemma on_event_own e s : shows e → own_ok s → wpo (on_event e) (λ _, own_ok) s.
Proof.
  intros He Hs. apply (wpr_replayed (transition e) arm_operation_deadlines).
  eapply wpr_mono; [by apply transition_own|]. cbv beta. intros _ s' Hs' es. own_auto.
Qed.

End ownership.

(** ** What the history shows *)

(** The bucket answered a read of the owner record of [id] with [ro]. *)
Definition read_answer (h : history) (id : string) (ro : option OwnerRecord) : Prop :=
  ∃ op now, emitted h (FxReadOwner op id) ∧ told h (EvOwnerRead op now (Ok ro)).

Definition read_at (h : history) (now : N) : Prop := ∃ op res, told h (EvOwnerRead op now res).

(** The owner may be superseded: its lease lapsed by the time its record was
    read, with nothing left in its log, or its log was recovered. *)
Definition owner_gone (h : history) (owner : string) : Prop :=
  (∃ op id now lease issued,
     emitted h (FxReadNodeLease op id owner) ∧ told h (EvNodeLeaseRead op now (Ok lease))
     ∧ read_at h issued ∧ lease_lapsed owner issued lease)
  ∨ ∃ op id, emitted h (FxRecoverNodeLog op id owner) ∧ told h (EvNodeLogRecovered op (Ok tt)).

(** The bucket, or the certified local inventory, gave [node] the epoch. *)
Definition epoch_granted (node : string) (h : history) (id : string) (e : N) : Prop :=
  (∃ op guard takeover,
     emitted h (FxCasOwner op id guard e takeover) ∧ told h (EvOwnerCasCompleted op (Ok Applied)))
  ∨ (∃ r, read_answer h id (Some r) ∧ or_node r = Some node ∧ or_epoch r = e)
  ∨ ∃ cells c, told h (EvLocalCellsRead (Ok cells)) ∧ c ∈ cells ∧ lc_live c = true
      ∧ lc_id c = id ∧ lc_epoch c = e.

(** The instantiation of the pass at a history. *)
Definition owned_after (node : string) (h : history) : State → Prop :=
  own_ok node (emitted h) (read_answer h) (epoch_granted node h) (owner_gone h) (read_at h).

Definition grounded (node : string) (h : history) : Effect → Prop :=
  fx_ok node (read_answer h) (epoch_granted node h) (owner_gone h).

Lemma emitted_cons h x fx : emitted h fx → emitted (x :: h) fx.
Proof. intros (e & es & ? & ?). exists e, es. split; [by right|done]. Qed.

Lemma told_cons h x e : told h e → told (x :: h) e.
Proof. intros (es & ?). exists es. by right. Qed.

Lemma read_answer_cons h x id ro : read_answer h id ro → read_answer (x :: h) id ro.
Proof. intros (op & now & ? & ?). exists op, now. auto using emitted_cons, told_cons. Qed.

Lemma read_at_cons h x now : read_at h now → read_at (x :: h) now.
Proof. intros (op & res & ?). exists op, res. by apply told_cons. Qed.

Lemma owner_gone_cons h x owner : owner_gone h owner → owner_gone (x :: h) owner.
Proof.
  intros [(op & id & now & lease & issued & ? & ? & ? & ?)|(op & id & ? & ?)].
  - left. exists op, id, now, lease, issued. auto using emitted_cons, told_cons, read_at_cons.
  - right. exists op, id. auto using emitted_cons, told_cons.
Qed.

Lemma epoch_granted_cons node h x id e : epoch_granted node h id e → epoch_granted node (x :: h) id e.
Proof.
  intros [(op & g & t & ? & ?)|[(r & ? & ? & ?)|(cells & c & ? & ?)]].
  - left. exists op, g, t. auto using emitted_cons, told_cons.
  - right; left. exists r. auto using read_answer_cons.
  - right; right. exists cells, c. auto using told_cons.
Qed.
#[local] Hint Resolve emitted_cons told_cons read_answer_cons read_at_cons : own.
#[local] Hint Resolve owner_gone_cons epoch_granted_cons : own.

Lemma claim_over_cons node h x id g e :
  claim_over node (read_answer h) (owner_gone h) id g e →
  claim_over node (read_answer (x :: h)) (owner_gone (x :: h)) id g e.
Proof.
  intros [(? & ? & ?)|(r & ? & ? & ? & ?)]; [left|right; exists r]; split_and?; eauto with own.
Qed.
#[local] Hint Resolve claim_over_cons : own.

Lemma grounded_cons node h x fx : grounded node h fx → grounded node (x :: h) fx.
Proof. unfold grounded. destruct fx; simpl; eauto with own. Qed.

Lemma cell_ok_cons node h x id c :
  cell_ok node (emitted h) (read_answer h) (epoch_granted node h) (owner_gone h) (read_at h) id c →
  cell_ok node (emitted (x :: h)) (read_answer (x :: h)) (epoch_granted node (x :: h))
    (owner_gone (x :: h)) (read_at (x :: h)) id c.
Proof.
  unfold cell_ok, claim_ok. intros (Hp & Hw & Ha). split_and!.
  - destruct (c_phase c); simpl in *; unfold claim_ok in *; destruct_and?; eauto with own;
      naive_solver eauto with own.
  - destruct (c_waiting_for c) as [[]|]; simpl in *; unfold claim_ok in *; eauto with own.
  - destruct (c_waiting_activation c) as [[]|]; simpl in *; eauto with own.
Qed.

Lemma owned_after_cons node h x s : owned_after node h s → owned_after node (x :: h) s.
Proof.
  intros (? & Hc & ?). split_and!; [done| |done].
  eapply map_Forall_impl; [exact Hc|]. intros. by apply cell_ok_cons.
Qed.

(** What an event shows is in the history it extends. *)
Lemma told_shows node h e es :
  shows (emitted ((e, es) :: h)) (read_answer ((e, es) :: h)) (epoch_granted node ((e, es) :: h))
    (owner_gone ((e, es) :: h)) (read_at ((e, es) :: h)) e.
Proof.
  assert (Ht : told ((e, es) :: h) e) by (exists es; left).
  destruct e; simpl; try done.
  - destruct res as [cells|]; [|done]. intros c Hc Hl. right; right. by exists cells, c.
  - destruct res as [ro|]; [|done]. split; [by eexists _, _|]. intros id Hf. by eexists _, _.
  - destruct res as [[]|]; [|done]. intros id owner Hf. right. by exists op, id.
  - destruct res as [lease|]; [|done]. intros id owner issued Hf Hi Hl. left.
    by exists op, id, now_ms, lease, issued.
  - destruct res as [[]|]; [|done|done]. intros id g ep t Hf. left. by exists op, g, t.
Qed.

Lemma traced_owned ok node config h s :
  traced ok (new node config) h s →
  owned_after node h s ∧ ∀ fx, emitted h fx → grounded node h fx.
Proof.
  induction 1 as [|h s e s' es Ht [IHs IHe] _ E].
  - split; [split_and!; [done|apply map_Forall_empty..]|]. intros fx (? & ? & Hin & _). inversion Hin.
  - assert (Hself : ∀ id r, read_answer ((e, es) :: h) id (Some r) → or_node r = Some node →
      epoch_granted node ((e, es) :: h) id (or_epoch r)) by (intros; right; left; eauto).
    pose proof (on_event_own node _ _ _ _ _ Hself e s (told_shows node h e es)
      (owned_after_cons _ _ _ _ IHs)) as Hw.
    unfold wpr in Hw. rewrite E in Hw. destruct Hw as [Hs Hfx].
    { apply Forall_forall. intros fx Hin. exists e, es. split; [left|done]. }
    split; [done|]. intros fx (e' & es' & [[= -> ->]|Hin]%elem_of_cons & Hf).
    + rewrite Forall_forall in Hfx. by apply Hfx.
    + apply grounded_cons, IHe. by exists e', es'.
Qed.

(** C28: every ownership claim a node sends to the bucket follows an answer to
    its own read of that cell's record: either the record was absent and the
    claim creates epoch 1, or the claim is at exactly the next epoch, guarded by
    the etag read; and a record of another node is claimed only when that
    owner is gone (its lease lapsed with nothing left in its write log, or the
    log was recovered). *)
Theorem claims_follow_reads node config h s op id guard epoch takeover :
  traced (λ _ _, True) (new node config) h s →
  emitted h (FxCasOwner op id guard epoch takeover) →
  (guard = Absent ∧ epoch = 1 ∧ read_answer h id None)
  ∨ ∃ r, guard = Match (or_etag r) ∧ epoch = or_epoch r + 1 ∧ read_answer h id (Some r)
      ∧ ∀ owner, or_node r = Some owner → owner ≠ node → owner_gone h owner.
Proof. intros Ht Hfx. exact (proj2 (traced_owned _ _ _ _ _ Ht) _ Hfx). Qed.

(** A dead owner [b] at epoch 7 is superseded at epoch 8. *)
Definition takeover_script : list Event :=
  [EvRequest 1 "x"; EvOwnerRead 1 5 (Ok (Some (mkOwnerRecord (Some "b") 7 "t")));
   EvNodeLeaseRead 2 6 (Ok (Some (mkNodeLeaseRecord "b" "h" 4 1 "g" None "l")))].

Lemma claims_follow_reads_witness :
  emitted (history_of takeover_script) (FxCasOwner 3 "x" (Match "t") 8 true) ∧
  ((Match "t" = Absent ∧ 8 = 1 ∧ read_answer (history_of takeover_script) "x" None)
   ∨ ∃ r, Match "t" = Match (or_etag r) ∧ 8 = or_epoch r + 1
       ∧ read_answer (history_of takeover_script) "x" (Some r)
       ∧ ∀ owner, or_node r = Some owner → owner ≠ "a" → owner_gone (history_of takeover_script) owner).
Proof.
  assert (Hfx : emitted (history_of takeover_script) (FxCasOwner 3 "x" (Match "t") 8 true)).
  { eexists _, _. split; [vm_compute; left|]. vm_compute. left. }
  split; [exact Hfx|].
  refine (claims_follow_reads "a" sample_config _ (after takeover_script) _ _ _ _ _ _ Hfx).
  apply history_traced; [vm_compute; reflexivity|]. intros h. by repeat constructor.
Defined.

(** The cell and epoch an effect runs, writes or gives up. *)
Definition runs_epoch (fx : Effect) : option (string * N) :=
  match fx with
  | FxRestore _ id spec => Some (id, rs_epoch spec)
  | FxStartRuntime _ id e | FxPublish _ id e | FxEnsureDurable _ id e _ | FxReleaseOwner _ id e
  | FxFireAlarm _ id e _ => Some (id, e)
  | _ => None
  end.

(** a node accepts traffic for a cell at epoch [e], and restores, starts,
    publishes, proves, fires alarms of or releases it at [e], only if that
    epoch was granted to it: its own claim at [e] was applied, the owner record
    it read names it at [e], or its certified local inventory lists the live
    cell at [e]. *)
Theorem epochs_are_granted node config h s id e :
  traced (λ _ _, True) (new node config) h s →
  accepted_epoch s id = Some e ∨ (∃ fx, emitted h fx ∧ runs_epoch fx = Some (id, e)) →
  epoch_granted node h id e.
Proof.
  intros Ht. destruct (traced_owned _ _ _ _ _ Ht) as [(_ & Hc & _) Hfx].
  intros [Ha|(fx & Hin & Hr)].
  - apply bind_Some in Ha as (c & Ec & He). destruct (Hc _ _ Ec) as [Hp _].
    destruct (c_phase c); simpl in *; by simplify_eq.
  - specialize (Hfx _ Hin). unfold grounded in Hfx. destruct fx; simpl in *; by simplify_eq.
Qed.

Lemma epochs_are_granted_witness :
  accepted_epoch (after activation_script) "x" = Some 1
  ∧ epoch_granted "a" (history_of activation_script) "x" 1.
Proof.
  assert (Ha : accepted_epoch (after activation_script) "x" = Some 1) by (vm_compute; reflexivity).
  split; [exact Ha|].
  refine (epochs_are_granted "a" sample_config _ (after activation_script) "x" 1 _ (or_introl Ha)).
  apply history_traced; [vm_compute; reflexivity|]. intros h. by repeat constructor.
Defined.
