(* ===== verification/OpIds.v ===== *)
(** * Operation ids are never reused

    A completion names only the operation it answers.  Every effect that
    starts an operation carries an id no earlier effect carried: over a whole
    history the ids started are strictly increasing, so an answer belongs to
    exactly one request of the node. *)

From S2P Require Import Prelude Effects Pressure LogTier Wake Types CoreState CoreOps.
From S2P Require Import Activation Alarms OutputGate NodeLease Ingress Resolution Shedding.
From S2P Require Import Lifecycle Handoff Machine Samples Frame.

(** The operation an effect starts.  [FxVerifyOwnership] and
    [FxAbandonEvictionStop] name one already running. *)
Definition starts (e : Effect) : option N :=
  match e with
  | FxReadSelfNodeLease op | FxCasNodeLease op _ _ _ | FxReadOwner op _ | FxReadNodeLease op _ _
  | FxRecoverNodeLog op _ _ | FxReadCapacityPeers op _ | FxCasOwner op _ _ _ _
  | FxReleaseOwner op _ _ | FxAdoptReleased op _ _ _ | FxRestore op _ _ | FxStartRuntime op _ _
  | FxPublish op _ _ | FxEnsureDurable op _ _ _ | FxAwaitDurable op _ _ _
  | FxStopRuntime op _ _ _ _ | FxFireAlarm op _ _ _ => Some op
  | _ => None
  end.

Definition started (es : list Effect) : list N := omap starts es.

(** [rising lo l hi]: strictly increasing, from [lo] on and below [hi]. *)
Fixpoint rising (lo : N) (l : list N) (hi : N) : Prop :=
  match l with
  | [] => lo = hi
  | x :: l => lo ≤ x ∧ rising (x + 1) l hi
  end.

Lemma rising_app lo l1 mid l2 hi : rising lo l1 mid → rising mid l2 hi → rising lo (l1 ++ l2) hi.
Proof.
  revert lo. induction l1 as [|x l1 IH]; simpl; intros lo; [by intros ->|].
  intros [? ?] ?. split; [done|by apply IH].
Qed.

Lemma rising_elem_of lo l hi x : rising lo l hi → x ∈ l → lo ≤ x.
Proof.
  revert lo. induction l as [|y l IH]; simpl; intros lo; [by intros _ ?%elem_of_nil|].
  intros [? Hr] [->|Hx]%elem_of_cons; [done|]. specialize (IH _ Hr Hx). lia.
Qed.

Lemma rising_NoDup lo l hi : rising lo l hi → NoDup l.
Proof.
  revert lo. induction l as [|x l IH]; simpl; intros lo; [constructor|].
  intros [? Hr]. constructor; [|by eapply IH]. intros Hx.
  pose proof (rising_elem_of _ _ _ _ Hr Hx). lia.
Qed.

(** The judgement: started from ids at or above [lo], the ids started by [m]
    rise to the bound the postcondition gets. *)
Definition wpi {A} (lo : N) (m : dec A) (Q : A → State → N → Prop) (s : State) : Prop :=
  match m s with
  | Done a s' es => ∃ hi, rising lo (started es) hi ∧ Q a s' hi
  | _ => True
  end.

Lemma started_app es1 es2 : started (es1 ++ es2) = started es1 ++ started es2.
Proof. apply omap_app. Qed.

Lemma wpi_ret {A} lo (a : A) Q s : Q a s lo → wpi lo (mret a) Q s.
Proof. intros ?. by exists lo. Qed.

Lemma wpi_bind {A B} lo (m : dec A) (f : A → dec B) Q s :
  wpi lo m (λ a s' mid, wpi mid (f a) Q s') s → wpi lo (m ≫= f) Q s.
Proof.
  unfold wpi, mbind, M_bind. destruct (m s) as [a s1 es1| |]; [|done|done].
  intros (mid & H1 & H2). destruct (f a s1) as [b s2 es2| |]; [|done|done].
  destruct H2 as (hi & H2 & HQ). exists hi. split; [|done].
  rewrite started_app. by eapply rising_app.
Qed.

Lemma wpi_mono {A} lo (m : dec A) (Q R : A → State → N → Prop) s :
  wpi lo m Q s → (∀ a s' hi, Q a s' hi → R a s' hi) → wpi lo m R s.
Proof.
  unfold wpi. destruct (m s) as [a s1 es1| |]; [|done|done].
  intros (hi & ? & ?) HR. exists hi. auto.
Qed.

Lemma wpi_gets {A} lo (f : State → A) Q s : Q (f s) s lo → wpi lo (gets f) Q s.
Proof. intros ?. by exists lo. Qed.

Lemma wpi_get lo Q s : Q s s lo → wpi lo get Q s.
Proof. intros ?. by exists lo. Qed.

Lemma wpi_modify lo f Q s : Q tt (f s) lo → wpi lo (modify f) Q s.
Proof. intros ?. by exists lo. Qed.

Lemma wpi_emit lo e Q s :
  match starts e with
  | Some x => lo ≤ x ∧ Q tt s (x + 1)
  | None => Q tt s lo
  end → wpi lo (emit e) Q s.
Proof.
  unfold wpi, emit, started. simpl. destruct (starts e) as [x|].
  - intros [? ?]. exists (x + 1). by repeat split.
  - intros ?. by exists lo.
Qed.

Lemma wpi_for_each {A} lo (I : State → N → Prop) (l : list A) f Q s :
  I s lo → (∀ x s' lo', I s' lo' → wpi lo' (f x) (λ _, I) s') →
  (∀ s' lo', I s' lo' → Q tt s' lo') → wpi lo (for_each l f) Q s.
Proof.
  intros HI Hf HQ. revert s lo HI. induction l as [|x l IH]; intros s lo HI; simpl.
  { apply wpi_ret. by apply HQ. }
  apply wpi_bind. eapply wpi_mono; [by apply Hf|]. intros [] s' lo' HI'. by apply IH.
Qed.

Lemma wpi_fold_each {A B} lo (I : State → N → Prop) (l : list A) (acc : B) f
    (Q : B → State → N → Prop) s :
  I s lo → (∀ b x s' lo', I s' lo' → wpi lo' (f b x) (λ _, I) s') →
  (∀ b s' lo', I s' lo' → Q b s' lo') → wpi lo (fold_each l acc f) Q s.
Proof.
  intros HI Hf HQ. revert s lo acc HI. induction l as [|x l IH]; intros s lo acc HI; simpl.
  { apply wpi_ret. by apply HQ. }
  apply wpi_bind. eapply wpi_mono; [by apply Hf|]. intros b s' lo' HI'. by apply IH.
Qed.

Lemma wpi_repeat_while lo (I : State → N → Prop) (f : dec bool) Q fuel s :
  I s lo → (∀ s' lo', I s' lo' → wpi lo' f (λ _, I) s') →
  (∀ s' lo', I s' lo' → Q tt s' lo') → wpi lo (repeat_while fuel f) Q s.
Proof.
  intros HI Hf HQ. revert s lo HI. induction fuel as [|fuel IH]; intros s lo HI; simpl; [done|].
  apply wpi_bind. eapply wpi_mono; [by apply Hf|].
  intros [] s' lo' HI'; simpl; [by apply IH|]. apply wpi_ret. by apply HQ.
Qed.

(** [silent c] starts no operation; [rises c] starts fresh ones only. *)
Definition silent {A} (c : dec A) : Prop :=
  ∀ lo s, wpi lo c (λ _ s' lo', lo' = lo ∧ st_next_op s ≤ st_next_op s') s.

Definition rises {A} (c : dec A) : Prop :=
  ∀ lo s, lo ≤ st_next_op s → wpi lo c (λ _ s' lo', lo' ≤ st_next_op s') s.

Lemma silent_at {A} (c : dec A) lo s n :
  silent c → n ≤ st_next_op s → wpi lo c (λ _ s' lo', lo' = lo ∧ n ≤ st_next_op s') s.
Proof.
  intros Hc Hn. eapply wpi_mono; [apply Hc|]. cbv beta. intros _ s' lo' [-> ?]. split; [done|lia].
Qed.

Lemma rises_at {A} (c : dec A) lo s :
  rises c → lo ≤ st_next_op s → wpi lo c (λ _ s' lo', lo' ≤ st_next_op s') s.
Proof. intros Hc. apply Hc. Qed.

Create HintDb silent.
Create HintDb rises.

Ltac wpi_step :=
  cbv beta;
  lazymatch goal with
  | |- wpi _ (mbind _ _) _ _ => apply wpi_bind
  | |- wpi _ (mret _) _ _ => apply wpi_ret
  | |- wpi _ (gets _) _ _ => apply wpi_gets
  | |- wpi _ get _ _ => apply wpi_get
  | |- wpi _ (modify _) _ _ => apply wpi_modify
  | |- wpi _ (emit _) _ _ => apply wpi_emit; simpl
  | |- wpi _ panic _ _ => exact I
  | |- wpi _ exhausted _ _ => exact I
  | |- wpi _ (when _ _) _ _ => unfold when
  | |- wpi _ (with_some _ _) _ _ => unfold with_some
  | |- wpi _ (let _ := _ in _) _ _ => cbv zeta
  | |- wpi _ (match ?x with _ => _ end) _ _ => destruct x
  end.

(** What holds between calls: for a silent computation the bound is unchanged,
    otherwise it stays at or below the next id. *)
Ltac ids_leaf := cbv beta; simpl in *; first [done|lia|split; [done|lia]|split; lia].

Lemma op_ids lo s :
  wpi lo op (λ x s' lo', lo' = lo ∧ x = st_next_op s ∧ st_next_op s' = x + 1) s.
Proof.
  unfold op. wpi_step. wpi_step. cbv beta. destruct (checked_add _ _) eqn:E; [|done].
  apply checked_add_Some in E as [-> _]. by repeat wpi_step.
Qed.

Lemma cell_op_ids id lo s :
  wpi lo (cell_op id) (λ x s' lo', lo' = lo ∧ x = st_next_op s ∧ st_next_op s' = x + 1) s.
Proof.
  unfold cell_op. wpi_step. eapply wpi_mono; [apply op_ids|]. cbv beta.
  intros x s' lo' (-> & -> & ?). by repeat wpi_step.
Qed.

Ltac ids_call :=
  first
    [eapply wpi_mono;
     [lazymatch goal with |- wpi ?lo ?c _ ?s =>
        let H := fresh in assert (H : silent c) by (auto with silent nocore); exact (H lo s) end
     |cbv beta; intros ? ? ? [-> ?]]
    |eapply wpi_mono; [eapply rises_at; [solve [auto with rises nocore]|ids_leaf]
                      |cbv beta; intros]].

Ltac ids_step :=
  first
    [wpi_step
    |exact I
    |lazymatch goal with
     | |- wpi _ op _ _ => eapply wpi_mono; [apply op_ids|cbv beta; intros ? ? ? (-> & ? & ?)]
     | |- wpi _ (cell_op _) _ _ =>
         eapply wpi_mono; [apply cell_op_ids|cbv beta; intros ? ? ? (-> & ? & ?)]
     | |- wpi ?lo (for_each _ _) _ ?s =>
         first
           [apply (wpi_for_each _ (λ s' lo', lo' = lo ∧ st_next_op s ≤ st_next_op s'));
            [done|solve [cbv beta; intros ? ? ? [-> ?]; repeat ids_step]|cbv beta; intros ? ? [-> ?]]
           |apply (wpi_for_each _ (λ s' lo', lo' ≤ st_next_op s'));
            [ids_leaf|cbv beta; intros|cbv beta; intros]]
     | |- wpi ?lo (fold_each _ _ _) _ ?s =>
         apply (wpi_fold_each _ (λ s' lo', lo' = lo ∧ st_next_op s ≤ st_next_op s'));
         [done|cbv beta; intros ? ? ? ? [-> ?]|cbv beta; intros ? ? ? [-> ?]]
     | |- wpi _ (repeat_while _ _) _ _ =>
         apply (wpi_repeat_while _ (λ s' lo', lo' ≤ st_next_op s')); [ids_leaf|cbv beta; intros|cbv beta; intros]
     | |- wpi _ _ _ _ => ids_call
     | |- _ ≤ _ ∧ wpi _ _ _ _ => split; [ids_leaf|]
     | |- _ ≤ _ ∧ _ => ids_leaf
     | |- _ ≤ _ => ids_leaf
     | |- _ = _ ∧ _ => ids_leaf
     end].

Ltac ids_auto := cbv beta; intros; repeat ids_step.

Lemma forget_cell_op_silent (o : N) : silent (forget_cell_op o).
Proof. unfold forget_cell_op. intros lo s. ids_auto. Qed.
#[export] Hint Resolve forget_cell_op_silent : silent.

(** ** Shared operations *)

Lemma timer_generation_silent : silent timer_generation.
Proof. unfold timer_generation. intros lo s. ids_auto. Qed.
#[export] Hint Resolve timer_generation_silent : silent.

Lemma take_cell_op_silent (o : N) f : silent (take_cell_op o f).
Proof. unfold take_cell_op. intros lo s. ids_auto. Qed.
#[export] Hint Resolve take_cell_op_silent : silent.

Lemma cell_get_silent id : silent (cell_get id).
Proof. unfold cell_get. intros lo s. ids_auto. Qed.
#[export] Hint Resolve cell_get_silent : silent.

Lemma cell_remove_silent id : silent (cell_remove id).
Proof. unfold cell_remove. intros lo s. ids_auto. Qed.
#[export] Hint Resolve cell_remove_silent : silent.

Lemma cell_insert_silent id c : silent (cell_insert id c).
Proof. unfold cell_insert. intros lo s. ids_auto. Qed.
#[export] Hint Resolve cell_insert_silent : silent.

Lemma expect_silent {A} (o : option A) : silent (expect o).
Proof. unfold expect. intros lo s. ids_auto. Qed.
#[export] Hint Resolve expect_silent : silent.

Lemma cell_update_silent id f : silent (cell_update id f).
Proof. unfold cell_update. intros lo s. ids_auto. Qed.
#[export] Hint Resolve cell_update_silent : silent.

Lemma set_phase_silent c p : silent (set_phase c p).
Proof. unfold set_phase. intros lo s. ids_auto. Qed.
#[export] Hint Resolve set_phase_silent : silent.

Lemma set_phase_in_silent id c p : silent (set_phase_in id c p).
Proof. unfold set_phase_in. intros lo s. ids_auto. Qed.
#[export] Hint Resolve set_phase_in_silent : silent.

Lemma activate_request_silent r id : silent (activate_request r id).
Proof. unfold activate_request. intros lo s. ids_auto. Qed.
#[export] Hint Resolve activate_request_silent : silent.

Lemma deactivate_request_silent r : silent (deactivate_request r).
Proof. unfold deactivate_request. intros lo s. ids_auto. Qed.
#[export] Hint Resolve deactivate_request_silent : silent.

Lemma record_local_request_silent c r n : silent (record_local_request c r n).
Proof. unfold record_local_request. intros lo s. ids_auto. Qed.
#[export] Hint Resolve record_local_request_silent : silent.

Lemma modify_activity_silent f : silent (modify_activity f).
Proof. unfold modify_activity. intros lo s. ids_auto. Qed.
#[export] Hint Resolve modify_activity_silent : silent.

Lemma complete_request_silent id r res : silent (complete_request id r res).
Proof. unfold complete_request. intros lo s. ids_auto. Qed.
#[export] Hint Resolve complete_request_silent : silent.

Lemma remove_request_cell_silent r : silent (remove_request_cell r).
Proof. unfold remove_request_cell. intros lo s. ids_auto. Qed.
#[export] Hint Resolve remove_request_cell_silent : silent.

Lemma finish_requests_silent id c res : silent (finish_requests id c res).
Proof. unfold finish_requests. intros lo s. ids_auto. Qed.
#[export] Hint Resolve finish_requests_silent : silent.

Lemma next_writer_epoch_silent id c e : silent (next_writer_epoch id c e).
Proof. unfold next_writer_epoch. intros lo s. ids_auto. Qed.
#[export] Hint Resolve next_writer_epoch_silent : silent.

Lemma record_acquisition_silent spec : silent (record_acquisition spec).
Proof. unfold record_acquisition. intros lo s. ids_auto. Qed.
#[export] Hint Resolve record_acquisition_silent : silent.

Lemma finish_eviction_silent (o : N) res : silent (finish_eviction o res).
Proof. unfold finish_eviction. intros lo s. ids_auto. Qed.
#[export] Hint Resolve finish_eviction_silent : silent.

Lemma return_eviction_permit_silent id : silent (return_eviction_permit id).
Proof. unfold return_eviction_permit. intros lo s. ids_auto. Qed.
#[export] Hint Resolve return_eviction_permit_silent : silent.

Lemma cancel_eviction_silent id c e reason : silent (cancel_eviction id c e reason).
Proof. unfold cancel_eviction. intros lo s. ids_auto. Qed.
#[export] Hint Resolve cancel_eviction_silent : silent.

Lemma begin_eviction_rises id b : rises (begin_eviction id b).
Proof. unfold begin_eviction. intros lo s Hlo. ids_auto. Qed.
#[export] Hint Resolve begin_eviction_rises : rises.

Lemma shed_one_rises : rises shed_one.
Proof. unfold shed_one. intros lo s Hlo. ids_auto. Qed.
#[export] Hint Resolve shed_one_rises : rises.

(** ** Admission *)

Lemma worker_request_silent r : silent (worker_request r).
Proof. unfold worker_request. intros lo s. ids_auto. Qed.
#[export] Hint Resolve worker_request_silent : silent.

Lemma watch_queued_silent id c : silent (watch_queued id c).
Proof. unfold watch_queued. intros lo s. ids_auto. Qed.
#[export] Hint Resolve watch_queued_silent : silent.

Lemma settle_confirmation_silent id : silent (settle_confirmation id).
Proof. unfold settle_confirmation. intros lo s. ids_auto. Qed.
#[export] Hint Resolve settle_confirmation_silent : silent.

Lemma settle_local_resume_silent id : silent (settle_local_resume id).
Proof. unfold settle_local_resume. intros lo s. ids_auto. Qed.
#[export] Hint Resolve settle_local_resume_silent : silent.

Lemma refuse_new_ownership_during_drain_silent id c p : silent (refuse_new_ownership_during_drain id c p).
Proof. unfold refuse_new_ownership_during_drain. intros lo s. ids_auto. Qed.
#[export] Hint Resolve refuse_new_ownership_during_drain_silent : silent.

Lemma refuse_claim_silent id c a : silent (refuse_claim id c a).
Proof. unfold refuse_claim. intros lo s. ids_auto. Qed.
#[export] Hint Resolve refuse_claim_silent : silent.

Lemma begin_activation_rises id c a : rises (begin_activation id c a).
Proof. unfold begin_activation. intros lo s Hlo. ids_auto. Qed.
#[export] Hint Resolve begin_activation_rises : rises.

Lemma activate_or_wait_rises id c a w : rises (activate_or_wait id c a w).
Proof. unfold activate_or_wait. intros lo s Hlo. ids_auto. Qed.
#[export] Hint Resolve activate_or_wait_rises : rises.

Lemma begin_cold_route_rises id c a : rises (begin_cold_route id c a).
Proof. unfold begin_cold_route. intros lo s Hlo. ids_auto. Qed.
#[export] Hint Resolve begin_cold_route_rises : rises.

Lemma admit_or_queue_activation_rises id c a : rises (admit_or_queue_activation id c a).
Proof. unfold admit_or_queue_activation. intros lo s Hlo. ids_auto. Qed.
#[export] Hint Resolve admit_or_queue_activation_rises : rises.

Lemma pump_activations_turn_rises : rises pump_activations_turn.
Proof. unfold pump_activations_turn. intros lo s Hlo. ids_auto. Qed.
#[export] Hint Resolve pump_activations_turn_rises : rises.

Lemma pump_activations_rises : rises pump_activations.
Proof. unfold pump_activations. intros lo s Hlo. ids_auto. Qed.
#[export] Hint Resolve pump_activations_rises : rises.

Lemma pump_capacity_turn_rises : rises pump_capacity_turn.
Proof. unfold pump_capacity_turn. intros lo s Hlo. ids_auto. Qed.
#[export] Hint Resolve pump_capacity_turn_rises : rises.

Lemma pump_capacity_rises : rises pump_capacity.
Proof. unfold pump_capacity. intros lo s Hlo. ids_auto. Qed.
#[export] Hint Resolve pump_capacity_rises : rises.

Lemma confirm_local_cells_rises res : rises (confirm_local_cells res).
Proof. unfold confirm_local_cells. intros lo s Hlo. ids_auto. Qed.
#[export] Hint Resolve confirm_local_cells_rises : rises.

Lemma local_cells_read_rises res : rises (local_cells_read res).
Proof. unfold local_cells_read. intros lo s Hlo. ids_auto. Qed.
#[export] Hint Resolve local_cells_read_rises : rises.

Lemma remove_capacity_request_silent r : silent (remove_capacity_request r).
Proof. unfold remove_capacity_request. intros lo s. ids_auto. Qed.
#[export] Hint Resolve remove_capacity_request_silent : silent.

Lemma expire_queued_silent id g : silent (expire_queued id g).
Proof. unfold expire_queued. intros lo s. ids_auto. Qed.
#[export] Hint Resolve expire_queued_silent : silent.

(** ** Alarms and the output gate *)

Lemma schedule_alarm_timer_silent id g a n m : silent (schedule_alarm_timer id g a n m).
Proof. unfold schedule_alarm_timer. intros lo s. ids_auto. Qed.
#[export] Hint Resolve schedule_alarm_timer_silent : silent.

Lemma settle_observation_silent id c a b n m : silent (settle_observation id c a b n m).
Proof. unfold settle_observation. intros lo s. ids_auto. Qed.
#[export] Hint Resolve settle_observation_silent : silent.

Lemma alarm_observed_silent id ob n m : silent (alarm_observed id ob n m).
Proof. unfold alarm_observed. intros lo s. ids_auto. Qed.
#[export] Hint Resolve alarm_observed_silent : silent.

Lemma retry_alarm_timer_silent id g n : silent (retry_alarm_timer id g n).
Proof. unfold retry_alarm_timer. intros lo s. ids_auto. Qed.
#[export] Hint Resolve retry_alarm_timer_silent : silent.

Lemma fire_alarm_rises id c e a g b : rises (fire_alarm id c e a g b).
Proof. unfold fire_alarm. intros lo s Hlo. ids_auto. Qed.
#[export] Hint Resolve fire_alarm_rises : rises.

Lemma cell_alarm_timer_rises id g n m : rises (cell_alarm_timer id g n m).
Proof. unfold cell_alarm_timer. intros lo s Hlo. ids_auto. Qed.
#[export] Hint Resolve cell_alarm_timer_rises : rises.

Lemma open_barrier_rises ow id e p : rises (open_barrier ow id e p).
Proof. unfold open_barrier, barrier_insert. intros lo s Hlo. ids_auto. Qed.
#[export] Hint Resolve open_barrier_rises : rises.

Lemma settle_alarm_silent (o : N) n m res : silent (settle_alarm o n m res).
Proof. unfold settle_alarm. intros lo s. ids_auto. Qed.
#[export] Hint Resolve settle_alarm_silent : silent.

Lemma alarm_finished_rises (o : N) id e n m res : rises (alarm_finished o id e n m res).
Proof. unfold alarm_finished. intros lo s Hlo. ids_auto. Qed.
#[export] Hint Resolve alarm_finished_rises : rises.

Lemma activity_finished_rises r : rises (activity_finished r).
Proof. unfold activity_finished. intros lo s Hlo. ids_auto. Qed.
#[export] Hint Resolve activity_finished_rises : rises.

Lemma emit_release_silent h res : silent (emit_release h res).
Proof. unfold emit_release. intros lo s. ids_auto. Qed.
#[export] Hint Resolve emit_release_silent : silent.

Lemma unpin_gate_silent r : silent (unpin_gate r).
Proof. unfold unpin_gate. intros lo s. ids_auto. Qed.
#[export] Hint Resolve unpin_gate_silent : silent.

Lemma barrier_remove_silent (o : N) : silent (barrier_remove o).
Proof. unfold barrier_remove. intros lo s. ids_auto. Qed.
#[export] Hint Resolve barrier_remove_silent : silent.

Lemma release_held_rises h res : rises (release_held h res).
Proof. unfold release_held. intros lo s Hlo. ids_auto. Qed.
#[export] Hint Resolve release_held_rises : rises.

Lemma doom_barrier_rises b : rises (doom_barrier b).
Proof. unfold doom_barrier. intros lo s Hlo. ids_auto. Qed.
#[export] Hint Resolve doom_barrier_rises : rises.

Lemma reset_cell_rises id e : rises (reset_cell id e).
Proof. unfold reset_cell. intros lo s Hlo. ids_auto. Qed.
#[export] Hint Resolve reset_cell_rises : rises.

Lemma note_proven_silent id e p : silent (note_proven id e p).
Proof. unfold note_proven. intros lo s. ids_auto. Qed.
#[export] Hint Resolve note_proven_silent : silent.

Lemma open_write_barrier_rises h p : rises (open_write_barrier h p).
Proof. unfold open_write_barrier. intros lo s Hlo. ids_auto. Qed.
#[export] Hint Resolve open_write_barrier_rises : rises.

Lemma barrier_update_silent (o : N) f : silent (barrier_update o f).
Proof. unfold barrier_update. intros lo s. ids_auto. Qed.
#[export] Hint Resolve barrier_update_silent : silent.

Lemma hold_observed_rises h id e ob : rises (hold_observed h id e ob).
Proof. unfold hold_observed. intros lo s Hlo. ids_auto. Qed.
#[export] Hint Resolve hold_observed_rises : rises.

Lemma trail_open_barrier_silent h : silent (trail_open_barrier h).
Proof. unfold trail_open_barrier. intros lo s. ids_auto. Qed.
#[export] Hint Resolve trail_open_barrier_silent : silent.

Lemma output_rises r ch p ob e : rises (output r ch p ob e).
Proof. unfold output. intros lo s Hlo. ids_auto. Qed.
#[export] Hint Resolve output_rises : rises.

Lemma open_export_barrier_rises id e p t : rises (open_export_barrier id e p t).
Proof. unfold open_export_barrier. intros lo s Hlo. ids_auto. Qed.
#[export] Hint Resolve open_export_barrier_rises : rises.

Lemma reask_riders_rises id e rs : rises (reask_riders id e rs).
Proof. unfold reask_riders. intros lo s Hlo. ids_auto. Qed.
#[export] Hint Resolve reask_riders_rises : rises.

Lemma export_ticket_rises id e p t : rises (export_ticket id e p t).
Proof. unfold export_ticket. intros lo s Hlo. ids_auto. Qed.
#[export] Hint Resolve export_ticket_rises : rises.

Lemma settle_gate_rises (o : N) b : rises (settle_gate o b).
Proof. unfold settle_gate. intros lo s Hlo. ids_auto. Qed.
#[export] Hint Resolve settle_gate_rises : rises.

Lemma hand_export_on_silent (o : N) : silent (hand_export_on o).
Proof. unfold hand_export_on. intros lo s. ids_auto. Qed.
#[export] Hint Resolve hand_export_on_silent : silent.

Lemma take_export_riders_silent (o : N) : silent (take_export_riders o).
Proof. unfold take_export_riders. intros lo s. ids_auto. Qed.
#[export] Hint Resolve take_export_riders_silent : silent.

Lemma durable_reached_rises (o : N) res src : rises (durable_reached o res src).
Proof. unfold durable_reached. intros lo s Hlo. ids_auto. Qed.
#[export] Hint Resolve durable_reached_rises : rises.

Lemma ownership_verified_rises (o : N) res : rises (ownership_verified o res).
Proof. unfold ownership_verified. intros lo s Hlo. ids_auto. Qed.
#[export] Hint Resolve ownership_verified_rises : rises.

Lemma cancel_cell_outputs_rises id : rises (cancel_cell_outputs id).
Proof. unfold cancel_cell_outputs. intros lo s Hlo. ids_auto. Qed.
#[export] Hint Resolve cancel_cell_outputs_rises : rises.


(** Where the branches of the source meet again, so do the cases. *)
Ltac ids_join :=
  cbv beta; intros;
  repeat first
    [lazymatch goal with
     | |- wpi _ (mbind _ ?m) _ _ =>
         lazymatch m with
         | match _ with _ => _ end => idtac
         | with_some _ _ => idtac
         | when _ _ => idtac
         end;
         apply wpi_bind; eapply (wpi_mono _ _ (λ _ s' lo', lo' ≤ st_next_op s'));
         [|cbv beta; intros]
     end
    |ids_step].

(** ** Node authority *)

Lemma fence_barrier_silent b : silent (fence_barrier b).
Proof. unfold fence_barrier. intros lo s. ids_auto. Qed.
#[export] Hint Resolve fence_barrier_silent : silent.

Lemma fence_cell_rises id : rises (fence_cell id).
Proof. unfold fence_cell. intros lo s Hlo. ids_join. Qed.
#[export] Hint Resolve fence_cell_rises : rises.

Lemma fence_rises : rises fence.
Proof. unfold fence. intros lo s Hlo. ids_auto. Qed.
#[export] Hint Resolve fence_rises : rises.

Lemma compensate_retired_runtime_rises (o : N) res : rises (compensate_retired_runtime o res).
Proof. unfold compensate_retired_runtime. intros lo s Hlo. ids_auto. Qed.
#[export] Hint Resolve compensate_retired_runtime_rises : rises.

Lemma fence_node_rises reason : rises (fence_node reason).
Proof. unfold fence_node. intros lo s Hlo. ids_auto. Qed.
#[export] Hint Resolve fence_node_rises : rises.

Lemma begin_node_lease_acquisition_rises n spec : rises (begin_node_lease_acquisition n spec).
Proof. unfold begin_node_lease_acquisition. intros lo s Hlo. ids_auto. Qed.
#[export] Hint Resolve begin_node_lease_acquisition_rises : rises.

Lemma start_node_lease_rises n spec : rises (start_node_lease n spec).
Proof. unfold start_node_lease. intros lo s Hlo. ids_auto. Qed.
#[export] Hint Resolve start_node_lease_rises : rises.

Lemma fail_initial_node_lease_silent spec : silent (fail_initial_node_lease spec).
Proof. unfold fail_initial_node_lease. intros lo s. ids_auto. Qed.
#[export] Hint Resolve fail_initial_node_lease_silent : silent.

Lemma take_nudge_silent : silent take_nudge.
Proof. unfold take_nudge. intros lo s. ids_auto. Qed.
#[export] Hint Resolve take_nudge_silent : silent.

Lemma hold_node_lease_silent spec r a b1 b2 : silent (hold_node_lease spec r a b1 b2).
Proof. unfold hold_node_lease. intros lo s. ids_auto. Qed.
#[export] Hint Resolve hold_node_lease_silent : silent.

Lemma complete_node_lease_write_rises p r n : rises (complete_node_lease_write p r n).
Proof. unfold complete_node_lease_write. intros lo s Hlo. ids_auto. Qed.
#[export] Hint Resolve complete_node_lease_write_rises : rises.

Lemma resume_node_lease_after_failure_silent p n : silent (resume_node_lease_after_failure p n).
Proof. unfold resume_node_lease_after_failure. intros lo s. ids_auto. Qed.
#[export] Hint Resolve resume_node_lease_after_failure_silent : silent.

Lemma begin_node_lease_write_rises p g : rises (begin_node_lease_write p g).
Proof. unfold begin_node_lease_write. intros lo s Hlo. ids_auto. Qed.
#[export] Hint Resolve begin_node_lease_write_rises : rises.

Lemma adopt_late_write_rises p r n m : rises (adopt_late_write p r n m).
Proof. unfold adopt_late_write. intros lo s Hlo. ids_auto. Qed.
#[export] Hint Resolve adopt_late_write_rises : rises.

Lemma replace_node_lease_rises p r n : rises (replace_node_lease p r n).
Proof. unfold replace_node_lease. intros lo s Hlo. ids_auto. Qed.
#[export] Hint Resolve replace_node_lease_rises : rises.

Lemma read_self_node_lease_rises (o : N) n m res : rises (read_self_node_lease o n m res).
Proof. unfold read_self_node_lease. intros lo s Hlo. ids_auto. Qed.
#[export] Hint Resolve read_self_node_lease_rises : rises.

Lemma read_back_rises p b l : rises (read_back p b l).
Proof. unfold read_back. intros lo s Hlo. ids_auto. Qed.
#[export] Hint Resolve read_back_rises : rises.

Lemma node_lease_cas_completed_rises (o : N) n res l : rises (node_lease_cas_completed o n res l).
Proof. unfold node_lease_cas_completed. intros lo s Hlo. ids_auto. Qed.
#[export] Hint Resolve node_lease_cas_completed_rises : rises.

(** ** Ingress *)

Lemma request_cell_insert_silent r id : silent (request_cell_insert r id).
Proof. unfold request_cell_insert. intros lo s. ids_auto. Qed.
#[export] Hint Resolve request_cell_insert_silent : silent.

Lemma join_waiters_silent r id c : silent (join_waiters r id c).
Proof. unfold join_waiters. intros lo s. ids_auto. Qed.
#[export] Hint Resolve join_waiters_silent : silent.

Lemma serve_local_silent r id c : silent (serve_local r id c).
Proof. unfold serve_local. intros lo s. ids_auto. Qed.
#[export] Hint Resolve serve_local_silent : silent.

Lemma wait_for_cell_rises r id c : rises (wait_for_cell r id c).
Proof. unfold wait_for_cell. intros lo s Hlo. ids_auto. Qed.
#[export] Hint Resolve wait_for_cell_rises : rises.

Lemma request_authorized_rises r id : rises (request_authorized r id).
Proof. unfold request_authorized. intros lo s Hlo. ids_auto. Qed.
#[export] Hint Resolve request_authorized_rises : rises.

Lemma request_rises r id b1 b2 : rises (request r id b1 b2).
Proof. unfold request. intros lo s Hlo. ids_auto. Qed.
#[export] Hint Resolve request_rises : rises.

Lemma websocket_request_rises r id w : rises (websocket_request r id w).
Proof. unfold websocket_request. intros lo s Hlo. ids_auto. Qed.
#[export] Hint Resolve websocket_request_rises : rises.

Lemma gate_request_rises r id : rises (gate_request r id).
Proof. unfold gate_request. intros lo s Hlo. ids_auto. Qed.
#[export] Hint Resolve gate_request_rises : rises.

Lemma wake_hint_authorized_rises id sc : rises (wake_hint_authorized id sc).
Proof. unfold wake_hint_authorized. intros lo s Hlo. ids_auto. Qed.
#[export] Hint Resolve wake_hint_authorized_rises : rises.

Lemma wake_hint_rises id n sc : rises (wake_hint id n sc).
Proof. unfold wake_hint. intros lo s Hlo. ids_auto. Qed.
#[export] Hint Resolve wake_hint_rises : rises.

Lemma remove_handoff_request_silent r : silent (remove_handoff_request r).
Proof. unfold remove_handoff_request. intros lo s. ids_auto. Qed.
#[export] Hint Resolve remove_handoff_request_silent : silent.

Lemma cancel_rises r : rises (cancel r).
Proof. unfold cancel. intros lo s Hlo. ids_auto. Qed.
#[export] Hint Resolve cancel_rises : rises.

Lemma preserve_cell_silent id : silent (preserve_cell id).
Proof. unfold preserve_cell. intros lo s. ids_auto. Qed.
#[export] Hint Resolve preserve_cell_silent : silent.

Lemma begin_preserve_silent : silent begin_preserve.
Proof. unfold begin_preserve. intros lo s. ids_auto. Qed.
#[export] Hint Resolve begin_preserve_silent : silent.

(** ** Resolution *)

Lemma begin_capacity_lookup_rises id c cl : rises (begin_capacity_lookup id c cl).
Proof. unfold begin_capacity_lookup. intros lo s Hlo. ids_auto. Qed.
#[export] Hint Resolve begin_capacity_lookup_rises : rises.

Lemma refuse_capacity_handoffs_silent id c : silent (refuse_capacity_handoffs id c).
Proof. unfold refuse_capacity_handoffs. intros lo s. ids_auto. Qed.
#[export] Hint Resolve refuse_capacity_handoffs_silent : silent.

Lemma place_unowned_rises id c cl : rises (place_unowned id c cl).
Proof. unfold place_unowned. intros lo s Hlo. ids_auto. Qed.
#[export] Hint Resolve place_unowned_rises : rises.

Lemma fail_resolution_silent id c e : silent (fail_resolution id c e).
Proof. unfold fail_resolution. intros lo s. ids_auto. Qed.
#[export] Hint Resolve fail_resolution_silent : silent.

Lemma take_over_rises id c r l : rises (take_over id c r l).
Proof. unfold take_over. intros lo s Hlo. ids_auto. Qed.
#[export] Hint Resolve take_over_rises : rises.

Lemma apply_node_lease_result_rises id c r n res : rises (apply_node_lease_result id c r n res).
Proof. unfold apply_node_lease_result. intros lo s Hlo. ids_auto. Qed.
#[export] Hint Resolve apply_node_lease_result_rises : rises.

Lemma confirm_acquisition_rises id c cl e : rises (confirm_acquisition id c cl e).
Proof. unfold confirm_acquisition. intros lo s Hlo. ids_auto. Qed.
#[export] Hint Resolve confirm_acquisition_rises : rises.

Lemma resolve_foreign_owner_rises id c r ow n : rises (resolve_foreign_owner id c r ow n).
Proof. unfold resolve_foreign_owner. intros lo s Hlo. ids_auto. Qed.
#[export] Hint Resolve resolve_foreign_owner_rises : rises.

Lemma resolve_owner_rises id c n res : rises (resolve_owner id c n res).
Proof. unfold resolve_owner. intros lo s Hlo. ids_auto. Qed.
#[export] Hint Resolve resolve_owner_rises : rises.

Lemma owner_read_rises (o : N) n res : rises (owner_read o n res).
Proof. unfold owner_read. intros lo s Hlo. ids_auto. Qed.
#[export] Hint Resolve owner_read_rises : rises.

Lemma node_lease_read_rises (o : N) n res : rises (node_lease_read o n res).
Proof. unfold node_lease_read. intros lo s Hlo. ids_auto. Qed.
#[export] Hint Resolve node_lease_read_rises : rises.

Lemma observe_sample_silent p : silent (observe_sample p).
Proof. unfold observe_sample. intros lo s. ids_auto. Qed.
#[export] Hint Resolve observe_sample_silent : silent.

Lemma capacity_peers_read_rises (o : N) n res : rises (capacity_peers_read o n res).
Proof. unfold capacity_peers_read. intros lo s Hlo. ids_auto. Qed.
#[export] Hint Resolve capacity_peers_read_rises : rises.

Lemma back_off_recovery_silent id c : silent (back_off_recovery id c).
Proof. unfold back_off_recovery. intros lo s. ids_auto. Qed.
#[export] Hint Resolve back_off_recovery_silent : silent.

Lemma node_log_recovered_rises (o : N) res : rises (node_log_recovered o res).
Proof. unfold node_log_recovered. intros lo s Hlo. ids_auto. Qed.
#[export] Hint Resolve node_log_recovered_rises : rises.

Lemma retry_owner_log_recovery_rises id g : rises (retry_owner_log_recovery id g).
Proof. unfold retry_owner_log_recovery. intros lo s Hlo. ids_auto. Qed.
#[export] Hint Resolve retry_owner_log_recovery_rises : rises.

(** ** Eviction *)

Lemma durability_checked_rises (o : N) res : rises (durability_checked o res).
Proof. unfold durability_checked. intros lo s Hlo. ids_auto. Qed.
#[export] Hint Resolve durability_checked_rises : rises.

Lemma evict_rises id : rises (evict id).
Proof. unfold evict. intros lo s Hlo. ids_auto. Qed.
#[export] Hint Resolve evict_rises : rises.

Lemma admit_eviction_rises id : rises (admit_eviction id).
Proof. unfold admit_eviction. intros lo s Hlo. ids_auto. Qed.
#[export] Hint Resolve admit_eviction_rises : rises.

Lemma report_admission_silent r res : silent (report_admission r res).
Proof. unfold report_admission. intros lo s. ids_auto. Qed.
#[export] Hint Resolve report_admission_silent : silent.


Lemma rising_le lo l hi : rising lo l hi → lo ≤ hi.
Proof.
  revert lo. induction l as [|x l IH]; simpl; intros lo; [by intros ->|].
  intros [? Hr%IH]. lia.
Qed.

Lemma rising_nil lo l : rising lo l lo → l = [].
Proof. destruct l as [|x l]; [done|]. simpl. intros [? Hr%rising_le]. lia. Qed.

(** A captured computation whose effects are emitted after a silent one, and
    one whose effects are emitted at once. *)
Lemma wpi_captured {A} lo (c : dec A) (f : A → dec unit) s :
  (∀ a, silent (f a)) → rises c → lo ≤ st_next_op s →
  wpi lo ('(a, es) ← captured c; f a ;; for_each es emit) (λ _ s' lo', lo' ≤ st_next_op s') s.
Proof.
  intros Hf Hc Hlo. pose proof (Hc lo s Hlo) as H. unfold wpi, captured, mbind, M_bind in *.
  destruct (c s) as [a s1 es1| |]; [|done|done]. destruct H as (mid & H1 & Hmid). simpl.
  pose proof (Hf a 0 s1) as H2. unfold wpi in H2.
  destruct (f a s1) as [[] s2 es2| |]; [|done|done]. destruct H2 as (z & Hz & -> & Hn).
  rewrite for_each_emit. simpl. exists mid. split; [|lia].
  by rewrite started_app, (rising_nil _ _ Hz).
Qed.

Lemma wpi_replayed {A} lo (c : dec A) (k : list Effect → dec unit) s :
  (∀ es, silent (k es)) → rises c → lo ≤ st_next_op s →
  wpi lo ('(_, es) ← captured c; for_each es emit ;; k es) (λ _ s' lo', lo' ≤ st_next_op s') s.
Proof.
  intros Hk Hc Hlo. pose proof (Hc lo s Hlo) as H. unfold wpi, captured, mbind, M_bind in *.
  destruct (c s) as [a s1 es1| |]; [|done|done]. destruct H as (mid & H1 & Hmid). simpl.
  rewrite for_each_emit. pose proof (Hk es1 mid s1) as H2. unfold wpi in H2.
  destruct (k es1 s1) as [[] s2 es2| |]; [|done|done]. destruct H2 as (z & Hz & -> & Hn).
  simpl. exists mid. split; [|lia]. rewrite started_app. by eapply rising_app.
Qed.

Lemma evict_requested_rises r id : rises (evict_requested r id).
Proof.
  intros lo s Hlo. apply (wpi_captured lo (admit_eviction id) (report_admission r)); auto with silent rises.
Qed.
#[export] Hint Resolve evict_requested_rises : rises.

Lemma evict_idle_turn_rises n i : rises (evict_idle_turn n i).
Proof. unfold evict_idle_turn. intros lo s Hlo. ids_auto. Qed.
#[export] Hint Resolve evict_idle_turn_rises : rises.

Lemma evict_idle_rises n : rises (evict_idle n).
Proof. unfold evict_idle. intros lo s Hlo. ids_auto. Qed.
#[export] Hint Resolve evict_idle_rises : rises.

Lemma shed_toward_floor_turn_rises : rises shed_toward_floor_turn.
Proof. unfold shed_toward_floor_turn. intros lo s Hlo. ids_auto. Qed.
#[export] Hint Resolve shed_toward_floor_turn_rises : rises.

Lemma shed_toward_floor_rises : rises shed_toward_floor.
Proof. unfold shed_toward_floor. intros lo s Hlo. ids_auto. Qed.
#[export] Hint Resolve shed_toward_floor_rises : rises.

Lemma load_sampled_rises l n : rises (load_sampled l n).
Proof. unfold load_sampled. intros lo s Hlo. ids_auto. Qed.
#[export] Hint Resolve load_sampled_rises : rises.

(** ** Activation *)

Lemma reread_owner_rises id c p : rises (reread_owner id c p).
Proof. unfold reread_owner. intros lo s Hlo. ids_auto. Qed.
#[export] Hint Resolve reread_owner_rises : rises.

Lemma acquire_applied_rises id c cl b : rises (acquire_applied id c cl b).
Proof. unfold acquire_applied. intros lo s Hlo. ids_auto. Qed.
#[export] Hint Resolve acquire_applied_rises : rises.

Lemma owner_cas_completed_rises (o : N) res : rises (owner_cas_completed o res).
Proof. unfold owner_cas_completed. intros lo s Hlo. ids_auto. Qed.
#[export] Hint Resolve owner_cas_completed_rises : rises.

Lemma seed_restored_alarm_silent id c a : silent (seed_restored_alarm id c a).
Proof. unfold seed_restored_alarm. intros lo s. ids_auto. Qed.
#[export] Hint Resolve seed_restored_alarm_silent : silent.

Lemma start_runtime_rises id c e : rises (start_runtime id c e).
Proof. unfold start_runtime. intros lo s Hlo. ids_auto. Qed.
#[export] Hint Resolve start_runtime_rises : rises.

Lemma fail_activation_silent id c e err : silent (fail_activation id c e err).
Proof. unfold fail_activation. intros lo s. ids_auto. Qed.
#[export] Hint Resolve fail_activation_silent : silent.

Lemma restore_completed_rises (o : N) res : rises (restore_completed o res).
Proof. unfold restore_completed. intros lo s Hlo. ids_auto. Qed.
#[export] Hint Resolve restore_completed_rises : rises.

Lemma runtime_started_rises (o : N) i g res : rises (runtime_started o i g res).
Proof. unfold runtime_started. intros lo s Hlo. ids_auto. Qed.
#[export] Hint Resolve runtime_started_rises : rises.

Lemma runtime_start_timed_out_silent (o : N) : silent (runtime_start_timed_out o).
Proof. unfold runtime_start_timed_out. intros lo s. ids_auto. Qed.
#[export] Hint Resolve runtime_start_timed_out_silent : silent.

Lemma published_rises (o : N) res : rises (published o res).
Proof. unfold published. intros lo s Hlo. ids_auto. Qed.
#[export] Hint Resolve published_rises : rises.

Lemma settle_stop_rises id c e cause : rises (settle_stop id c e cause).
Proof. unfold settle_stop. intros lo s Hlo. ids_auto. Qed.
#[export] Hint Resolve settle_stop_rises : rises.

Lemma runtime_stopped_rises (o : N) : rises (runtime_stopped o).
Proof. unfold runtime_stopped. intros lo s Hlo. ids_auto. Qed.
#[export] Hint Resolve runtime_stopped_rises : rises.

Lemma runtime_stop_failed_rises (o : N) e : rises (runtime_stop_failed o e).
Proof. unfold runtime_stop_failed. intros lo s Hlo. ids_auto. Qed.
#[export] Hint Resolve runtime_stop_failed_rises : rises.

(** ** Handoff, swap and the machine *)

Lemma releasing_insert_silent id : silent (releasing_insert id).
Proof. unfold releasing_insert. intros lo s. ids_auto. Qed.
#[export] Hint Resolve releasing_insert_silent : silent.

Lemma owner_released_rises (o : N) res : rises (owner_released o res).
Proof. unfold owner_released. intros lo s Hlo. ids_auto. Qed.
#[export] Hint Resolve owner_released_rises : rises.

Lemma successor_adopted_rises (o : N) res : rises (successor_adopted o res).
Proof. unfold successor_adopted. intros lo s Hlo. ids_auto. Qed.
#[export] Hint Resolve successor_adopted_rises : rises.

Lemma release_dormant_rises id e : rises (release_dormant id e).
Proof. unfold release_dormant. intros lo s Hlo. ids_auto. Qed.
#[export] Hint Resolve release_dormant_rises : rises.

Lemma rebalance_rises n : rises (rebalance n).
Proof. unfold rebalance. intros lo s Hlo. ids_auto. Qed.
#[export] Hint Resolve rebalance_rises : rises.

Lemma release_queue_rises p : rises (release_queue p).
Proof. unfold release_queue. intros lo s Hlo. ids_auto. Qed.
#[export] Hint Resolve release_queue_rises : rises.

Lemma nominate_resident_rises id : rises (nominate_resident id).
Proof. unfold nominate_resident. intros lo s Hlo. ids_auto. Qed.
#[export] Hint Resolve nominate_resident_rises : rises.

Lemma spend_each_rises {A} (l : list A) lim n f :
  (∀ x, rises (f x)) → rises (spend_each l lim n f).
Proof.
  intros Hf. revert n. induction l as [|x l IH]; intros n lo s Hlo; simpl; [ids_auto|].
  case_match; [ids_auto|]. wpi_step. eapply wpi_mono; [by apply Hf|]. cbv beta.
  intros _ s' lo' H'. by apply IH.
Qed.
#[export] Hint Resolve spend_each_rises : rises.

Lemma pump_release_rises : rises pump_release.
Proof. unfold pump_release. intros lo s Hlo. ids_auto. Qed.
#[export] Hint Resolve pump_release_rises : rises.

Lemma release_all_rises : rises release_all.
Proof. unfold release_all. intros lo s Hlo. ids_auto. Qed.
#[export] Hint Resolve release_all_rises : rises.

Lemma generation_changed_silent g a l : silent (generation_changed g a l).
Proof. unfold generation_changed. intros lo s. ids_auto. Qed.
#[export] Hint Resolve generation_changed_silent : silent.

Lemma swap_cell_rises b id : rises (swap_cell b id).
Proof. unfold swap_cell. intros lo s Hlo. ids_auto. Qed.
#[export] Hint Resolve swap_cell_rises : rises.

Lemma pump_swap_rises : rises pump_swap.
Proof. unfold pump_swap. intros lo s Hlo. ids_auto. Qed.
#[export] Hint Resolve pump_swap_rises : rises.

Lemma websocket_opened_silent id w k : silent (websocket_opened id w k).
Proof. unfold websocket_opened. intros lo s. ids_auto. Qed.
#[export] Hint Resolve websocket_opened_silent : silent.

Lemma websocket_closed_rises id w : rises (websocket_closed id w).
Proof. unfold websocket_closed. intros lo s Hlo. ids_auto. Qed.
#[export] Hint Resolve websocket_closed_rises : rises.

Lemma invalidate_remote_silent id n e : silent (invalidate_remote id n e).
Proof. unfold invalidate_remote. intros lo s. ids_auto. Qed.
#[export] Hint Resolve invalidate_remote_silent : silent.

Lemma arm_operation_deadlines_silent l : silent (arm_operation_deadlines l).
Proof. unfold arm_operation_deadlines. intros lo s. ids_auto. Qed.
#[export] Hint Resolve arm_operation_deadlines_silent : silent.

Lemma expire_operation_rises (o : N) n : rises (expire_operation o n).
Proof. unfold expire_operation. intros lo s Hlo. ids_auto. Qed.
#[export] Hint Resolve expire_operation_rises : rises.

Lemma renew_lease_rises h n m : rises (renew_lease h n m).
Proof. unfold renew_lease. intros lo s Hlo. ids_auto. Qed.
#[export] Hint Resolve renew_lease_rises : rises.

Lemma lease_timer_rises b g n m : rises (lease_timer b g n m).
Proof. unfold lease_timer. intros lo s Hlo. ids_auto. Qed.
#[export] Hint Resolve lease_timer_rises : rises.

Lemma timer_fired_rises t n m : rises (timer_fired t n m).
Proof. unfold timer_fired. intros lo s Hlo. ids_auto. Qed.
#[export] Hint Resolve timer_fired_rises : rises.

Lemma nudge_node_lease_rises n m : rises (nudge_node_lease n m).
Proof. unfold nudge_node_lease. intros lo s Hlo. ids_auto. Qed.
#[export] Hint Resolve nudge_node_lease_rises : rises.

Lemma handle_rises e : rises (handle e).
Proof. intros lo s Hlo. destruct e; simpl; ids_auto. Qed.
#[export] Hint Resolve handle_rises : rises.

Lemma advance_clocks_next_op e s : st_next_op (advance_clocks e s) = st_next_op s.
Proof. unfold advance_clocks. by destruct (event_mono_ms e), (event_now_ms e). Qed.

Lemma transition_rises e : rises (transition e).
Proof.
  intros lo s Hlo. unfold transition. do 2 wpi_step. cbv beta.
  rewrite <- (advance_clocks_next_op e s) in Hlo. generalize dependent (advance_clocks e s). ids_auto.
Qed.

Lemma on_event_rises e : rises (on_event e).
Proof.
  intros lo s Hlo. apply (wpi_replayed lo (transition e) arm_operation_deadlines); auto with silent.
  apply transition_rises.
Qed.


(** ** Over a history *)

(** The effects of a history in the order they were emitted. *)
Definition trace_effects (h : history) : list Effect := concat (rev h.*2).

Lemma trace_effects_cons e es h : trace_effects ((e, es) :: h) = trace_effects h ++ es.
Proof. unfold trace_effects. simpl. rewrite concat_app. simpl. by rewrite app_nil_r. Qed.

Lemma elem_of_trace_effects h fx : fx ∈ trace_effects h ↔ emitted h fx.
Proof.
  induction h as [|[e es] h IH].
  - split; [by intros ?%elem_of_nil|]. intros (? & ? & Hin & _). inversion Hin.
  - rewrite trace_effects_cons, elem_of_app, IH. split.
    + intros [(e' & es' & ? & ?)|?]; [exists e', es'; split; [by right|done]|].
      exists e, es. split; [left|done].
    + intros (e' & es' & [[= -> ->]|?]%elem_of_cons & ?); [by right|]. left. by exists e', es'.
Qed.

Lemma traced_rising ok node config h s :
  traced ok (new node config) h s →
  ∃ hi, rising 1 (started (trace_effects h)) hi ∧ hi ≤ st_next_op s.
Proof.
  induction 1 as [|h s e s' es Ht (mid & Hr & Hm) _ E]; [by exists 1|].
  pose proof (on_event_rises e mid s Hm) as H. unfold wpi in H. rewrite E in H.
  destruct H as (hi & Hr' & Hhi). exists hi. split; [|done].
  rewrite trace_effects_cons, started_app. by eapply rising_app.
Qed.

Lemma omap_inj {A B} (f : A → option B) (l : list A) x y b :
  NoDup (omap f l) → x ∈ l → y ∈ l → f x = Some b → f y = Some b → x = y.
Proof.
  induction l as [|z l IH]; [by intros _ ?%elem_of_nil|].
  intros Hn [->|Hx]%elem_of_cons [->|Hy]%elem_of_cons Ex Ey; [done|..]; simpl in Hn.
  - rewrite Ex in Hn. apply NoDup_cons in Hn as [Hn _]. destruct Hn.
    apply list_elem_of_omap. by exists y.
  - rewrite Ey in Hn. apply NoDup_cons in Hn as [Hn _]. destruct Hn.
    apply list_elem_of_omap. by exists x.
  - apply IH; try done. destruct (f z); [by apply NoDup_cons in Hn as [_ ?]|done].
Qed.

(** An operation id names one effect of the history. *)
Lemma starts_inj ok node config h s fx1 fx2 op :
  traced ok (new node config) h s → emitted h fx1 → emitted h fx2 →
  starts fx1 = Some op → starts fx2 = Some op → fx1 = fx2.
Proof.
  intros (hi & Hr & _)%traced_rising H1%elem_of_trace_effects H2%elem_of_trace_effects.
  apply (omap_inj starts (trace_effects h)); [by eapply rising_NoDup|done..].
Qed.


