(* ===== verification/Cluster.v ===== *)
(** * One writer per epoch, across the fleet

    Composes any number of nodes with the bucket their owner records live in.
    The bucket half models the owner-record operations of
    [crates/celld/ownership_store.rs] over the conditional write of
    [crates/celld/bucket.rs]: an object keeps the list of its versions, newest
    first, and a conditional write is applied only against the version whose
    token it names.  Messages are asynchronous: a write a node asked for may
    be applied at any later time, also after the node restarted, and an answer
    may report any version the object ever had.

    The abstract specification is a ledger that assigns each epoch of a cell to
    one node, once: claims append to it and nothing else changes it.  The fleet
    refines it, and a node runs a cell only at epochs the ledger assigns it. *)

From S2P Require Import Prelude Effects Pressure LogTier Wake Types CoreState CoreOps.
From S2P Require Import Activation Alarms OutputGate NodeLease Ingress Resolution Shedding.
From S2P Require Import Lifecycle Handoff Machine Samples Frame Ownership OpIds.

(** ** The owner record in the bucket *)

(** The versions of one [cells/<cell>/own.json], newest first. *)
Abbreviation versions := (list OwnerRecord).

(** [OwnerWire] and its reading in [BucketOwnership::read_owner]: an empty node
    name is an unowned cell. *)
Definition wire_owner (node : string) : option string :=
  if bool_decide (node = EmptyString) then None else Some node.

(** [Bucket::put_cas]: create an absent object, or replace the version whose
    token is named; [etag] is the token the store gives the new version. *)
Definition put_cas (node : string) (epoch : N) (token : option string) (etag : string)
    (log : versions) : option versions :=
  let allowed :=
    match token, log with
    | None, [] => true
    | Some token, r :: _ => bool_decide (or_etag r = token)
    | _, _ => false
    end in
  if allowed then Some (mkOwnerRecord (wire_owner node) epoch etag :: log) else None.

(** [BucketOwnership::cas_owner]; [Some] is [CasOutcome::Applied]. *)
Definition cas_owner (node : string) (guard : CasGuard) (epoch : N) (etag : string)
    (log : versions) : option versions :=
  put_cas node epoch (match guard with Absent => None | Match token => Some token end) etag log.

(** [BucketOwnership::release_owner]: the read that decides, with the token of
    the version it saw, and the conditional write that follows it. *)
Definition release_read (node : string) (epoch : N) (current : option OwnerRecord) : option string :=
  match current with
  | Some r =>
      if bool_decide (or_node r = Some node) && (or_epoch r =? epoch) then Some (or_etag r) else None
  | None => None
  end.

Definition release_owner (epoch : N) (token etag : string) (log : versions) : option versions :=
  put_cas EmptyString epoch (Some token) etag log.

(** A token identifies the content it was given to. *)
Definition honest_token (r : OwnerRecord) (log : versions) : Prop :=
  ∀ r', r' ∈ log → or_etag r' = or_etag r → r' = r.

(** ** The fleet *)

(** One process of a node: its number, its history and its state. *)
Record Process := mkProcess {
  pr_number : nat;
  pr_config : Config;
  pr_history : history;
  pr_state : State;
}.

Record Fleet := mkFleet {
  fl_owner : gmap string versions;
  fl_nodes : gmap string Process;
  (** every effect any process ever sent, and the claims the bucket applied *)
  fl_sent : list (string * nat * Effect);
  fl_applied : list (string * nat * N);
}.

Definition versions_of (f : Fleet) (id : string) : versions := default [] (fl_owner f !! id).

(** What the executor may answer a process: a read returns a version the
    object had, an applied claim was applied, and the certified local
    inventory lists cells the node had claimed. *)
Definition answer_ok (f : Fleet) (node : string) (p : Process) (e : Event) : Prop :=
  match e with
  | EvOwnerRead op _ (Ok (Some r)) =>
      ∃ id, emitted (pr_history p) (FxReadOwner op id) ∧ r ∈ versions_of f id
  | EvOwnerCasCompleted op (Ok Applied) => (node, pr_number p, op) ∈ fl_applied f
  | EvLocalCellsRead (Ok cells) =>
      ∀ c, c ∈ cells → lc_live c = true →
        ∃ r, r ∈ versions_of f (lc_id c) ∧ or_node r = Some node ∧ or_epoch r = lc_epoch c
  | _ => True
  end.

Inductive fleet_step : Fleet → Fleet → Prop :=
(** a new process of a node starts *)
| step_start f node config number :
    node ≠ EmptyString →
    (∀ n fx, (node, n, fx) ∈ fl_sent f → (n < number)%nat) →
    fleet_step f
      (mkFleet (fl_owner f) (<[node := mkProcess number config [] (new node config)]> (fl_nodes f))
         (fl_sent f) (fl_applied f))
(** a process handles an event *)
| step_event f node p e s es :
    fl_nodes f !! node = Some p →
    answer_ok f node p e →
    on_event e (pr_state p) = Done tt s es →
    fleet_step f
      (mkFleet (fl_owner f)
         (<[node := mkProcess (pr_number p) (pr_config p) ((e, es) :: pr_history p) s]> (fl_nodes f))
         (((λ fx, (node, pr_number p, fx)) <$> es) ++ fl_sent f) (fl_applied f))
(** a claim sent by some process reaches the bucket and is applied *)
| step_claim f node number op id guard epoch takeover etag log :
    (node, number, FxCasOwner op id guard epoch takeover) ∈ fl_sent f →
    cas_owner node guard epoch etag (versions_of f id) = Some log →
    honest_token (mkOwnerRecord (wire_owner node) epoch etag) (versions_of f id) →
    fleet_step f
      (mkFleet (<[id := log]> (fl_owner f)) (fl_nodes f) (fl_sent f)
         ((node, number, op) :: fl_applied f))
(** a release sent by some process is applied, against a version it read *)
| step_release f node number op id epoch seen token etag log :
    (node, number, FxReleaseOwner op id epoch) ∈ fl_sent f →
    seen ∈ versions_of f id → release_read node epoch (Some seen) = Some token →
    release_owner epoch token etag (versions_of f id) = Some log →
    honest_token (mkOwnerRecord (wire_owner EmptyString) epoch etag) (versions_of f id) →
    fleet_step f (mkFleet (<[id := log]> (fl_owner f)) (fl_nodes f) (fl_sent f) (fl_applied f)).

Definition fleet_start : Fleet := mkFleet ∅ ∅ [] [].

Inductive fleet_reachable : Fleet → Prop :=
| fleet_here : fleet_reachable fleet_start
| fleet_next f f' : fleet_reachable f → fleet_step f f' → fleet_reachable f'.

(** ** The ledger *)

(** The owners of a cell, the claimant of epoch [e] at index [e - 1]. *)
Definition owners (log : versions) : list string := reverse (omap or_node log).

Definition ledger (f : Fleet) (id : string) : list string := owners (versions_of f id).

Definition assigned (f : Fleet) (id : string) (epoch : N) (node : string) : Prop :=
  0 < epoch ∧ ledger f id !! N.to_nat (epoch - 1) = Some node.

(** The abstract step: one claim appends one owner to one cell, or nothing. *)
Definition ledger_step (l l' : string → list string) : Prop :=
  (∀ id, l' id = l id)
  ∨ ∃ cell node, ∀ id, l' id = if bool_decide (id = cell) then l id ++ [node] else l id.

(** ** The versions of a record form a chain of epochs *)

Definition last_epoch (log : versions) : N := match log with [] => 0 | r :: _ => or_epoch r end.

Inductive chain : versions → Prop :=
| chain_nil : chain []
| chain_claim log node etag :
    chain log → honest_token (mkOwnerRecord (Some node) (last_epoch log + 1) etag) log →
    chain (mkOwnerRecord (Some node) (last_epoch log + 1) etag :: log)
| chain_release r log etag :
    chain (r :: log) → honest_token (mkOwnerRecord None (or_epoch r) etag) (r :: log) →
    chain (mkOwnerRecord None (or_epoch r) etag :: r :: log).

Lemma chain_tokens log r r' :
  chain log → r ∈ log → r' ∈ log → or_etag r = or_etag r' → r = r'.
Proof.
  intros Hc. revert r r'.
  assert (Hstep : ∀ new log, honest_token new log →
    (∀ r r', r ∈ log → r' ∈ log → or_etag r = or_etag r' → r = r') →
    ∀ r r', r ∈ new :: log → r' ∈ new :: log → or_etag r = or_etag r' → r = r').
  { intros new l Hn IH r r' [->|Hr]%elem_of_cons [->|Hr']%elem_of_cons He;
      [done|symmetry; by apply Hn|by apply Hn|by apply IH]. }
  induction Hc as [|log node etag _ IH Hn|r0 log etag _ IH Hn]; [by intros ? ? ?%elem_of_nil|..];
    by apply Hstep.
Qed.

Lemma owners_cons r log :
  owners (r :: log) = owners log ++ match or_node r with Some n => [n] | None => [] end.
Proof.
  unfold owners. simpl. destruct (or_node r); [by rewrite reverse_cons|by rewrite app_nil_r].
Qed.

Lemma chain_length log : chain log → length (owners log) = N.to_nat (last_epoch log).
Proof.
  induction 1 as [|log node etag _ IH _|r log etag _ IH _]; [done|..]; rewrite owners_cons; simpl.
  - rewrite length_app, IH. simpl. lia.
  - by rewrite app_nil_r.
Qed.

Lemma chain_owner log r node :
  chain log → r ∈ log → or_node r = Some node →
  0 < or_epoch r ∧ owners log !! N.to_nat (or_epoch r - 1) = Some node.
Proof.
  intros Hc. revert r node. induction Hc as [|log n etag Hc IH _|r0 log etag _ IH _].
  - by intros ? ? ?%elem_of_nil.
  - intros r node [->|Hr]%elem_of_cons Hn; rewrite owners_cons; simpl in *.
    + injection Hn as ->. split; [lia|]. replace (last_epoch log + 1 - 1) with (last_epoch log) by lia.
      rewrite <- (chain_length log Hc). by rewrite list_lookup_middle.
    + destruct (IH r node Hr Hn). split; [done|]. by apply lookup_app_l_Some.
  - intros r node [->|Hr]%elem_of_cons Hn; [done|]. rewrite owners_cons. simpl.
    rewrite app_nil_r. by apply IH.
Qed.

(** ** The invariant of the fleet *)

Definition claimed (f : Fleet) (id node : string) (epoch : N) : Prop :=
  ∃ r, r ∈ versions_of f id ∧ or_node r = Some node ∧ or_epoch r = epoch.

(** A claim names a version the object had and the epoch after it, and a cell
    is run at an epoch its node claimed. *)
Definition sent_ok (f : Fleet) (node : string) (fx : Effect) : Prop :=
  node ≠ EmptyString
  ∧ match fx with
    | FxCasOwner _ id guard epoch _ =>
        (guard = Absent ∧ epoch = 1)
        ∨ ∃ r, r ∈ versions_of f id ∧ guard = Match (or_etag r) ∧ epoch = or_epoch r + 1
    | _ => True
    end
  ∧ ∀ id epoch, runs_epoch fx = Some (id, epoch) → claimed f id node epoch.

Record process_ok (f : Fleet) (node : string) (p : Process) : Prop := {
  po_name : node ≠ EmptyString;
  po_traced : traced (λ _ _, True) (new node (pr_config p)) (pr_history p) (pr_state p);
  po_sent : ∀ fx, (node, pr_number p, fx) ∈ fl_sent f → emitted (pr_history p) fx;
  po_told : ∀ e, told (pr_history p) e → answer_ok f node p e;
}.

Definition applied_ok (f : Fleet) : Prop :=
  ∀ node n op, (node, n, op) ∈ fl_applied f →
    ∃ id guard epoch takeover,
      (node, n, FxCasOwner op id guard epoch takeover) ∈ fl_sent f ∧ claimed f id node epoch.

Record fleet_ok (f : Fleet) : Prop := {
  fo_chain : ∀ id, chain (versions_of f id);
  fo_sent : ∀ node n fx, (node, n, fx) ∈ fl_sent f → sent_ok f node fx;
  fo_applied : applied_ok f;
  fo_nodes : ∀ node p, fl_nodes f !! node = Some p → process_ok f node p;
}.

(** A fleet whose records and answers only grew. *)
Definition grows (f f' : Fleet) : Prop :=
  (∀ id r, r ∈ versions_of f id → r ∈ versions_of f' id)
  ∧ (∀ x, x ∈ fl_applied f → x ∈ fl_applied f').

Lemma claimed_mono f f' id node e : grows f f' → claimed f id node e → claimed f' id node e.
Proof. intros [Hg _] (r & ? & ? & ?). exists r. auto. Qed.

Lemma sent_ok_mono f f' node fx : grows f f' → sent_ok f node fx → sent_ok f' node fx.
Proof.
  intros Hg (? & Hc & Hr). split_and!; [done| |eauto using claimed_mono].
  destruct fx; try done. destruct Hc as [?|(r & ? & ? & ?)]; [by left|]. right. exists r.
  split_and!; [by apply Hg|done..].
Qed.

Lemma answer_ok_mono f f' node p p' e :
  grows f f' → pr_number p' = pr_number p →
  (∀ fx, emitted (pr_history p) fx → emitted (pr_history p') fx) →
  answer_ok f node p e → answer_ok f' node p' e.
Proof.
  intros [Hv Ha] Hn He. destruct e; try done; simpl; destruct res as [res|]; try done.
  - intros Hc c H1 H2. destruct (Hc c H1 H2) as (r & ? & ?). exists r. auto.
  - destruct res as [r|]; [|done]. intros (id & ? & ?). exists id. auto.
  - destruct res; [|done]. rewrite Hn. auto.
Qed.

(** What a history grants, the bucket holds. *)
Lemma granted_claimed f node p id e :
  applied_ok f → process_ok f node p →
  epoch_granted node (pr_history p) id e → claimed f id node e.
Proof.
  intros Hf [_ Ht Hs Ha] [(op & g & t & Hfx & Htold)|[(r & (op & now & Hfx & Htold) & Hn & He)|H]].
  - destruct (Hf _ _ _ (Ha _ Htold)) as (id' & g' & e' & t' & Hin & Hc).
    pose proof (starts_inj _ _ _ _ _ _ _ op Ht Hfx (Hs _ Hin) eq_refl eq_refl) as Heq.
    by injection Heq as -> -> -> ->.
  - destruct (Ha _ Htold) as (id' & Hfx' & Hr).
    pose proof (starts_inj _ _ _ _ _ _ _ op Ht Hfx Hfx' eq_refl eq_refl) as Heq.
    injection Heq as ->. by exists r.
  - destruct H as (cells & c & Htold & Hin & Hl & <- & <-). exact (Ha _ Htold c Hin Hl).
Qed.

Lemma read_version f node p id r :
  process_ok f node p → read_answer (pr_history p) id (Some r) → r ∈ versions_of f id.
Proof.
  intros [_ Ht Hs Ha] (op & now & Hfx & Htold). destruct (Ha _ Htold) as (id' & Hfx' & Hr).
  pose proof (starts_inj _ _ _ _ _ _ _ op Ht Hfx Hfx' eq_refl eq_refl) as Heq. by injection Heq as ->.
Qed.

Lemma process_sent_ok f node p fx :
  applied_ok f → process_ok f node p → emitted (pr_history p) fx → sent_ok f node fx.
Proof.
  intros Hf Hp Hfx. pose proof (traced_owned _ _ _ _ _ (po_traced _ _ _ Hp)) as [_ Hg].
  specialize (Hg fx Hfx). split_and!; [apply Hp| |].
  - destruct fx; try done. destruct Hg as [(? & ? & _)|(r & ? & ? & Hr & _)]; [by left|].
    right. exists r. split_and!; [by eapply read_version|done..].
  - intros id e Hr. eapply granted_claimed; [done..|].
    destruct fx; simpl in *; by simplify_eq.
Qed.

(** ** Every step preserves it *)

Lemma grows_refl f f' : fl_owner f' = fl_owner f → fl_applied f' = fl_applied f → grows f f'.
Proof. intros Ho Ha. unfold grows, versions_of. by rewrite Ho, Ha. Qed.

Lemma process_ok_mono f f' node p :
  grows f f' → (∀ fx, (node, pr_number p, fx) ∈ fl_sent f' → (node, pr_number p, fx) ∈ fl_sent f) →
  process_ok f node p → process_ok f' node p.
Proof.
  intros Hg Hs [Hn Ht Hin Ha]. split; [done|done|auto|].
  intros e He. eapply answer_ok_mono; eauto.
Qed.

Lemma applied_ok_mono f f' :
  grows f f' → fl_applied f' = fl_applied f → (∀ x, x ∈ fl_sent f → x ∈ fl_sent f') →
  applied_ok f → applied_ok f'.
Proof.
  intros Hg Ha Hs H node n op. rewrite Ha. intros (id & g & e & t & ? & ?)%H.
  exists id, g, e, t. eauto using claimed_mono.
Qed.

Lemma start_ok_step f node config number :
  node ≠ EmptyString → (∀ n fx, (node, n, fx) ∈ fl_sent f → (n < number)%nat) → fleet_ok f →
  fleet_ok (mkFleet (fl_owner f)
    (<[node := mkProcess number config [] (new node config)]> (fl_nodes f))
    (fl_sent f) (fl_applied f)).
Proof.
  intros Hname Hnum [Hc Hs Ha Hn]. split; [done|done|done|].
  simpl. intros n p [[<- <-]|[Hne E]]%lookup_insert_Some; [|by destruct (Hn n p E)].
  split; simpl; [done|constructor| |].
  - intros fx Hin%Hnum. lia.
  - intros e (es & Hin). inversion Hin.
Qed.

Lemma event_ok_step f node p e s es :
  fl_nodes f !! node = Some p → answer_ok f node p e → on_event e (pr_state p) = Done tt s es →
  fleet_ok f →
  fleet_ok (mkFleet (fl_owner f)
    (<[node := mkProcess (pr_number p) (pr_config p) ((e, es) :: pr_history p) s]> (fl_nodes f))
    (((λ fx, (node, pr_number p, fx)) <$> es) ++ fl_sent f) (fl_applied f)).
Proof.
  intros Ep Hans E [Hc Hs Ha Hn]. set (p' := mkProcess _ _ _ _). set (f' := mkFleet _ _ _ _).
  assert (Hg : grows f f') by by apply grows_refl.
  assert (Ha' : applied_ok f').
  { eapply applied_ok_mono; [done|done| |done]. intros x Hx. apply elem_of_app. by right. }
  pose proof (Hn _ _ Ep) as Hp.
  assert (Hp' : process_ok f' node p').
  { destruct Hp as [Hname Ht Hin Htold]. split; [done|by eapply traced_event| |].
    - intros fx [(fx' & [= <-] & Hfx)%list_elem_of_fmap|Hfx]%elem_of_app.
      + exists e, es. split; [left|done].
      + by apply emitted_cons, Hin.
    - intros e' (es' & [[= -> ->]|He']%elem_of_cons);
        apply (answer_ok_mono f f' node p p'); auto; try (intros; by apply emitted_cons).
      apply Htold. by exists es'. }
  split; [done| |done|].
  - intros n m fx [(fx' & [= -> -> ->] & Hfx)%list_elem_of_fmap|Hfx]%elem_of_app.
    + apply (process_sent_ok f' node p'); [done|done|]. exists e, es. split; [left|done].
    + eapply sent_ok_mono; [done|by eapply Hs].
  - simpl. intros n q [[<- <-]|[Hne Eq]]%lookup_insert_Some; [done|].
    eapply process_ok_mono; [done| |by apply Hn].
    intros fx [(fx' & [= ? ? ?] & _)%list_elem_of_fmap|Hfx]%elem_of_app; [by subst|done].
Qed.

(** A conditional write that was applied put one version on top. *)
Lemma put_cas_Some node epoch token etag log log' :
  put_cas node epoch token etag log = Some log' →
  log' = mkOwnerRecord (wire_owner node) epoch etag :: log
  ∧ match token with
    | None => log = []
    | Some token => ∃ r rest, log = r :: rest ∧ or_etag r = token
    end.
Proof.
  unfold put_cas. destruct token as [token|], log as [|r rest]; try done; simpl.
  - case_bool_decide; [|done]. intros [= <-]. split; [done|by exists r, rest].
  - by intros [= <-].
Qed.

Lemma versions_of_insert f id log nodes sent applied id' :
  versions_of (mkFleet (<[id := log]> (fl_owner f)) nodes sent applied) id'
  = if bool_decide (id' = id) then log else versions_of f id'.
Proof.
  unfold versions_of. simpl. case_bool_decide as H; [subst; by rewrite lookup_insert_eq|].
  by rewrite lookup_insert_ne.
Qed.

(** A version on top of one record keeps the rest of the fleet in order. *)
Lemma write_ok_step f id r applied' :
  fleet_ok f → chain (r :: versions_of f id) →
  (∀ x, x ∈ fl_applied f → x ∈ applied') →
  let f' := mkFleet (<[id := r :: versions_of f id]> (fl_owner f)) (fl_nodes f) (fl_sent f) applied' in
  applied_ok f' → fleet_ok f'.
Proof.
  intros [Hc Hs Ha Hn] Hr Hsub f' Ha'.
  assert (Hg : grows f f').
  { split; [|done]. intros id' r' Hin. unfold f'. rewrite versions_of_insert.
    case_bool_decide as H; [subst; by right|done]. }
  split; [| |done|].
  - intros id'. unfold f'. rewrite versions_of_insert. by case_bool_decide.
  - intros node n fx Hin. eapply sent_ok_mono; [done|by eapply Hs].
  - intros node p E. eapply process_ok_mono; [done|done|by apply Hn].
Qed.

Lemma wire_owner_name node : node ≠ EmptyString → wire_owner node = Some node.
Proof. intros. unfold wire_owner. by case_bool_decide. Qed.

(** The version a claim replaced was the one its node had read. *)
Lemma claim_chain f node id op guard epoch takeover etag log :
  fleet_ok f → sent_ok f node (FxCasOwner op id guard epoch takeover) →
  cas_owner node guard epoch etag (versions_of f id) = Some log →
  honest_token (mkOwnerRecord (wire_owner node) epoch etag) (versions_of f id) →
  log = mkOwnerRecord (Some node) epoch etag :: versions_of f id ∧ chain log.
Proof.
  intros Hf (Hname & Hcl & _) [-> Ht]%put_cas_Some Hh. rewrite (wire_owner_name _ Hname) in *.
  split; [done|]. pose proof (fo_chain f Hf id) as Hc.
  assert (epoch = last_epoch (versions_of f id) + 1) as ->.
  { destruct Hcl as [[-> ->]|(r & Hr & -> & ->)]; simpl in Ht; [by rewrite Ht|].
    destruct Ht as (r' & rest & E & Het). rewrite E in *. simpl.
    by rewrite (chain_tokens _ r' r Hc (list_elem_of_here _ _) Hr Het). }
  by apply chain_claim.
Qed.

Lemma claim_ok_step f node number op id guard epoch takeover etag log :
  (node, number, FxCasOwner op id guard epoch takeover) ∈ fl_sent f →
  cas_owner node guard epoch etag (versions_of f id) = Some log →
  honest_token (mkOwnerRecord (wire_owner node) epoch etag) (versions_of f id) →
  fleet_ok f →
  fleet_ok (mkFleet (<[id := log]> (fl_owner f)) (fl_nodes f) (fl_sent f)
    ((node, number, op) :: fl_applied f)).
Proof.
  intros Hsent Hw Hh Hf.
  destruct (claim_chain _ _ _ _ _ _ _ _ _ Hf (fo_sent f Hf _ _ _ Hsent) Hw Hh) as [-> Hc].
  apply write_ok_step; [done|done|by right|].
  intros n m o [[= -> -> ->]|Hin]%elem_of_cons.
  - exists id, guard, epoch, takeover. split; [done|]. eexists. rewrite versions_of_insert.
    rewrite bool_decide_eq_true_2 by done. split; [left|done].
  - destruct (fo_applied f Hf _ _ _ Hin) as (id' & g & e & t & ? & r & ? & ?).
    exists id', g, e, t. split; [done|]. exists r. rewrite versions_of_insert.
    case_bool_decide as H'; [subst; split; [by right|done]|done].
Qed.

Lemma release_ok_step f node number op id epoch seen token etag log :
  (node, number, FxReleaseOwner op id epoch) ∈ fl_sent f →
  seen ∈ versions_of f id → release_read node epoch (Some seen) = Some token →
  release_owner epoch token etag (versions_of f id) = Some log →
  honest_token (mkOwnerRecord (wire_owner EmptyString) epoch etag) (versions_of f id) →
  fleet_ok f →
  fleet_ok (mkFleet (<[id := log]> (fl_owner f)) (fl_nodes f) (fl_sent f) (fl_applied f)).
Proof.
  intros _ Hseen Hread Hput Hh Hf. unfold release_owner in Hput.
  apply put_cas_Some in Hput as [-> (r & rest & E & Het)].
  unfold release_read in Hread. case_match eqn:Hcond; [|done]. injection Hread as <-.
  apply andb_true_iff in Hcond as [Hn%bool_decide_eq_true He%N.eqb_eq].
  pose proof (fo_chain f Hf id) as Hc.
  assert (r = seen) as -> by (eapply chain_tokens; [exact Hc|rewrite E; left|done|done]).
  apply write_ok_step; [done| |done|].
  - unfold wire_owner in *. simpl in *. rewrite E in *. subst epoch. by apply chain_release.
  - apply (applied_ok_mono f); [|done|done|apply Hf]. split; [|done].
    intros id' r' Hin. rewrite versions_of_insert. case_bool_decide; [subst; by right|done].
Qed.

Lemma fleet_reachable_ok f : fleet_reachable f → fleet_ok f.
Proof.
  induction 1 as [|f f' _ IH Hstep].
  - split.
    + intros id. apply chain_nil.
    + intros node n fx Hin. inversion Hin.
    + intros node n op Hin. inversion Hin.
    + intros node p E. inversion E.
  - destruct Hstep; eauto using start_ok_step, event_ok_step, claim_ok_step, release_ok_step.
Qed.

Lemma claimed_assigned f id node e : fleet_ok f → claimed f id node e → assigned f id e node.
Proof.
  intros Hf (r & Hr & Hn & <-). exact (chain_owner _ r node (fo_chain f Hf id) Hr Hn).
Qed.

Lemma process_assigned f node p id e :
  fleet_ok f → fl_nodes f !! node = Some p → accepted_epoch (pr_state p) id = Some e →
  assigned f id e node.
Proof.
  intros Hf E Ha. pose proof (fo_nodes f Hf _ _ E) as Hp. apply claimed_assigned; [done|].
  eapply granted_claimed; [apply Hf|done|].
  destruct (traced_owned _ _ _ _ _ (po_traced _ _ _ Hp)) as [(_ & Hc & _) _].
  apply bind_Some in Ha as (c & Ec & He). destruct (Hc _ _ Ec) as [Hph _].
  destruct (c_phase c); simpl in *; by simplify_eq.
Qed.

Lemma assigned_inj f id e n1 n2 : assigned f id e n1 → assigned f id e n2 → n1 = n2.
Proof. intros [_ H1] [_ H2]. congruence. Qed.

(** A node runs a cell at an epoch: its process accepts traffic there, or some
    process of it sent an effect that restores, starts, publishes, proves,
    fires an alarm of or releases the cell at that epoch. *)
Definition runs_at (f : Fleet) (node id : string) (epoch : N) : Prop :=
  (∃ p, fl_nodes f !! node = Some p ∧ accepted_epoch (pr_state p) id = Some epoch)
  ∨ ∃ number fx, (node, number, fx) ∈ fl_sent f ∧ runs_epoch fx = Some (id, epoch).

Lemma runs_assigned f node id e : fleet_ok f → runs_at f node id e → assigned f id e node.
Proof.
  intros Hf [(p & E & Ha)|(n & fx & Hin & Hr)]; [by eapply process_assigned|].
  apply claimed_assigned; [done|]. destruct (fo_sent f Hf _ _ _ Hin) as (_ & _ & H). by apply H.
Qed.

(** ** A concrete fleet *)

Definition deliver (node : string) (e : Event) (f : Fleet) : Fleet :=
  match fl_nodes f !! node with
  | None => f
  | Some p =>
      match on_event e (pr_state p) with
      | Done _ s es =>
          mkFleet (fl_owner f)
            (<[node := mkProcess (pr_number p) (pr_config p) ((e, es) :: pr_history p) s]> (fl_nodes f))
            (((λ fx, (node, pr_number p, fx)) <$> es) ++ fl_sent f) (fl_applied f)
      | _ => f
      end
  end.

Definition process (node : string) (f : Fleet) : Process :=
  default (mkProcess 0 sample_config [] sample_new) (fl_nodes f !! node).

Lemma deliver_step node e f :
  is_some (fl_nodes f !! node) = true → answer_ok f node (process node f) e →
  is_done (on_event e (pr_state (process node f))) = true → fleet_step f (deliver node e f).
Proof.
  intros Hp Ha Hd. unfold deliver, process in *.
  destruct (fl_nodes f !! node) as [p|] eqn:E; [|done]. simpl in Hd.
  destruct (on_event e (pr_state p)) as [[] s es| |] eqn:Ee; [|done|done]. by apply step_event.
Qed.

Lemma deliver_reachable node e f :
  fleet_reachable f → is_some (fl_nodes f !! node) = true → answer_ok f node (process node f) e →
  is_done (on_event e (pr_state (process node f))) = true → fleet_reachable (deliver node e f).
Proof. intros. eapply fleet_next; [done|]. by apply deliver_step. Qed.

Definition boot (node : string) (f : Fleet) : Fleet :=
  mkFleet (fl_owner f) (<[node := mkProcess 0 sample_config [] (new node sample_config)]> (fl_nodes f))
    (fl_sent f) (fl_applied f).

Definition claim (node : string) (op : N) (id : string) (guard : CasGuard) (epoch : N)
    (etag : string) (f : Fleet) : Fleet :=
  match cas_owner node guard epoch etag (versions_of f id) with
  | Some log =>
      mkFleet (<[id := log]> (fl_owner f)) (fl_nodes f) (fl_sent f) ((node, 0%nat, op) :: fl_applied f)
  | None => f
  end.

Lemma claim_reachable node op id guard epoch takeover etag f :
  fleet_reachable f → (node, 0%nat, FxCasOwner op id guard epoch takeover) ∈ fl_sent f →
  honest_token (mkOwnerRecord (wire_owner node) epoch etag) (versions_of f id) →
  fleet_reachable (claim node op id guard epoch etag f).
Proof.
  intros Hf Hin Hh. unfold claim. destruct (cas_owner _ _ _ _ _) eqn:E; [|done].
  eapply fleet_next; [exact Hf|]. by eapply step_claim.
Qed.

(** Node [a] claims [x] and is restoring it when node [b] takes it over. *)
Definition fleet_a : Fleet :=
  deliver "a" (EvOwnerCasCompleted 2 (Ok Applied))
  (claim "a" 2 "x" Absent 1 "t1"
  (deliver "a" (EvOwnerRead 1 5 (Ok None))
  (deliver "a" (EvRequest 1 "x") (boot "a" fleet_start)))).

Definition fleet_ab : Fleet :=
  deliver "b" (EvOwnerCasCompleted 3 (Ok Applied))
  (claim "b" 3 "x" (Match "t1") 2 "t2"
  (deliver "b" (EvNodeLeaseRead 2 9 (Ok None))
  (deliver "b" (EvOwnerRead 1 9 (Ok (Some (mkOwnerRecord (Some "a") 1 "t1"))))
  (deliver "b" (EvRequest 1 "x") (boot "b" fleet_a))))).

(** The [k]-th element of a computed list. *)
Ltac fleet_member k := apply (list_elem_of_lookup_2 _ k); vm_compute; reflexivity.

Lemma fleet_a_reachable : fleet_reachable fleet_a.
Proof.
  unfold fleet_a.
  apply deliver_reachable; [|vm_compute; reflexivity|vm_compute; left|vm_compute; reflexivity].
  apply (claim_reachable _ _ _ _ _ false); [|fleet_member 0%nat|intros r Hr; inversion Hr].
  do 2 (apply deliver_reachable; [|vm_compute; reflexivity|exact I|vm_compute; reflexivity]).
  eapply fleet_next; [constructor|]. apply step_start; [done|]. intros n fx Hin. inversion Hin.
Qed.

Lemma fleet_ab_reachable : fleet_reachable fleet_ab.
Proof.
  unfold fleet_ab.
  apply deliver_reachable; [|vm_compute; reflexivity|vm_compute; left|vm_compute; reflexivity].
  apply (claim_reachable _ _ _ _ _ true); [|fleet_member 0%nat|].
  - apply deliver_reachable; [|vm_compute; reflexivity|exact I|vm_compute; reflexivity].
    apply deliver_reachable; [|vm_compute; reflexivity| |vm_compute; reflexivity].
    + apply deliver_reachable; [|vm_compute; reflexivity|exact I|vm_compute; reflexivity].
      eapply fleet_next; [apply fleet_a_reachable|]. apply step_start; [done|].
      intros n fx Hin. exfalso. revert Hin. vm_compute. intros Hin.
      repeat (apply elem_of_cons in Hin as [Hin|Hin]; [discriminate Hin|]). inversion Hin.
    + exists "x". split; [|fleet_member 0%nat].
      eexists _, _. split; [vm_compute; left|]. vm_compute. left.
  - intros r Hr. apply (list_elem_of_lookup_1 _ _) in Hr as [i Hi].
    revert Hi. vm_compute. destruct i as [|i]; [intros [= <-]|destruct i; discriminate]. discriminate.
Qed.



(** C12: a node runs a cell only at epochs the ledger assigns to it: its process
    accepts traffic, and every process it ever had restores, starts, publishes,
    proves, fires alarms of and releases the cell, at those epochs only. *)
Theorem runs_are_assigned f node id epoch :
  fleet_reachable f → runs_at f node id epoch → assigned f id epoch node.
Proof. intros Hf%fleet_reachable_ok. by apply runs_assigned. Qed.

Lemma fleet_ab_runs : runs_at fleet_ab "a" "x" 1 ∧ runs_at fleet_ab "b" "x" 2.
Proof.
  split; left; [exists (process "a" fleet_ab)|exists (process "b" fleet_ab)];
    (split; [vm_compute; reflexivity|vm_compute; reflexivity]).
Qed.

Lemma runs_are_assigned_witness :
  assigned fleet_ab "x" 1 "a" ∧ assigned fleet_ab "x" 2 "b".
Proof.
  split; apply runs_are_assigned; (apply fleet_ab_reachable || apply fleet_ab_runs).
Defined.

(** C1: single writer.  No two nodes of the fleet ever run the same cell at the
    same epoch. *)
Theorem single_writer_per_epoch f n1 n2 id epoch :
  fleet_reachable f → runs_at f n1 id epoch → runs_at f n2 id epoch → n1 = n2.
Proof.
  intros Hf%fleet_reachable_ok H1 H2.
  eapply assigned_inj; eapply runs_assigned; eassumption.
Qed.

Lemma single_writer_per_epoch_witness : runs_at fleet_ab "b" "x" 2 ∧ "b" = "b".
Proof.
  split; [apply fleet_ab_runs|].
  apply (single_writer_per_epoch fleet_ab "b" "b" "x" 2 fleet_ab_reachable); apply fleet_ab_runs.
Defined.
