(* ===== verification/Lease.v ===== *)
(** * Node authority ends before the published lease does

    A node measures its authority on its monotonic clock, from the instant it
    issued the write that published the lease.  Peers measure the lease on the
    wall clock, against the expiry in the record.  Where the two clocks of a
    node advance together, the node stops treating itself as authoritative
    strictly before any peer may consider its lease expired, through
    renewals, ambiguous writes, readbacks and adopted late writes. *)

From S2P Require Import Prelude Effects Pressure LogTier Wake Types CoreState CoreOps.
From S2P Require Import Activation Alarms OutputGate NodeLease Ingress Resolution Shedding.
From S2P Require Import Lifecycle Handoff Machine Samples Frame.

Create HintDb lease.

Section lease.
(** The offset between the two clocks of the node, and a bound on the TTLs it
    is configured with. *)
Context (k : Z) (ttl_max : N).

Definition synced (now_ms now_mono_ms : N) : Prop := Z.of_N now_ms = (Z.of_N now_mono_ms + k)%Z.

(** Authority anchored at [anchor] for [ttl] is over by [expires]. *)
Definition anchored (anchor ttl expires : N) : Prop :=
  (Z.of_N anchor + Z.of_N ttl + k ≤ Z.of_N expires)%Z.

Definition held_ok (h : HeldNodeLease) : Prop :=
  anchored (hl_last_ok_mono_ms h) (ls_ttl_ms (hl_spec h)) (nl_expires_ms (hl_record h))
  ∧ ls_ttl_ms (hl_spec h) ≤ ttl_max.

Definition pending_ok (p : PendingNodeLease) : Prop :=
  anchored (pl_anchor_mono_ms p) (ls_ttl_ms (pl_spec p)) (nl_expires_ms (pl_desired p))
  ∧ ls_ttl_ms (pl_spec p) ≤ ttl_max
  ∧ match pl_prior p with Some prior => held_ok prior | None => True end.

Definition authority_ok (a : NodeAuthority) : Prop :=
  match a with
  | AuReading _ p | AuWriting _ p => pending_ok p
  | AuHeld h => held_ok h
  | AuRetrying spec _ => ls_ttl_ms spec ≤ ttl_max
  | _ => True
  end.

(** A reading of both clocks: synchronized, not in the past, and far from the
    end of the 64-bit range. *)
Definition reading_ok (s : State) (now_ms now_mono_ms : N) : Prop :=
  synced now_ms now_mono_ms ∧ st_now_mono_ms s ≤ now_mono_ms ∧ now_ms + ttl_max ≤ u64_max.

Definition clock_ok (s : State) (e : Event) : Prop :=
  match e with
  | EvStartNodeLease now_ms now_mono_ms spec =>
      reading_ok s now_ms now_mono_ms ∧ ls_ttl_ms spec ≤ ttl_max
  | EvSelfNodeLeaseRead _ now_ms now_mono_ms _ | EvTimerFired _ now_ms now_mono_ms
  | EvNudgeNodeLease now_ms now_mono_ms => reading_ok s now_ms now_mono_ms
  | _ => True
  end.

Abbreviation wpl := (wp True (λ _ : Effect, True)).

Definition lawful {A} (c : dec A) : Prop :=
  ∀ s, authority_ok (st_node_authority s) →
    wpl c (λ _ s', authority_ok (st_node_authority s')) s.

Lemma lawful_framed {A} (c : dec A) : framed_gate c → lawful c.
Proof.
  intros Hc s Ha. eapply wp_mono; [apply (Hc s s (frame_gate_refl s))|].
  cbv beta. intros _ s' [_ ->]. done.
Qed.

(** What a handler of the lease leaves behind, whatever it started from. *)
Definition settles {A} (c : dec A) : Prop :=
  ∀ s, wpl c (λ _ s', authority_ok (st_node_authority s')) s.

Lemma settles_then {A B} (c : dec A) (f : A → dec B) :
  settles c → (∀ a, lawful (f a)) → settles (c ≫= f).
Proof. intros Hc Hf s. wp_step. eapply wp_mono; [apply Hc|]. cbv beta. intros a s'. apply Hf. Qed.

Lemma fence_node_settles reason : settles (fence_node reason).
Proof.
  intros s. unfold fence_node. do 2 wp_step. wp_step.
  eapply wp_mono; [apply (lawful_framed _ fence_framed); exact I|]. cbv beta. intros _ s' Ha.
  by wp_step.
Qed.

Lemma timer_generation_authority s :
  wpl timer_generation (λ _ s', st_node_authority s' = st_node_authority s) s.
Proof. unfold timer_generation. by wp_steps. Qed.

Lemma op_authority s :
  wpl op (λ _ s', st_node_authority s' = st_node_authority s ∧ st_node s' = st_node s) s.
Proof. unfold op. by wp_steps. Qed.

Ltac lease_fact := unfold held_ok, pending_ok, anchored, synced in *; simpl in *; lia.

Lemma fail_initial_settles spec : ls_ttl_ms spec ≤ ttl_max → settles (fail_initial_node_lease spec).
Proof.
  intros Ht s. unfold fail_initial_node_lease. wp_step.
  eapply wp_mono; [apply timer_generation_authority|]. cbv beta. intros g s' _. by wp_steps.
Qed.

Lemma hold_settles spec record anchor b1 b2 :
  anchored anchor (ls_ttl_ms spec) (nl_expires_ms record) → ls_ttl_ms spec ≤ ttl_max →
  settles (hold_node_lease spec record anchor b1 b2).
Proof.
  intros Ha Ht s. unfold hold_node_lease, take_nudge. wp_step.
  eapply wp_mono; [apply timer_generation_authority|]. cbv beta. intros g s' _. by wp_steps.
Qed.

Lemma complete_settles pending record now :
  pending_ok pending → nl_expires_ms record = nl_expires_ms (pl_desired pending) →
  settles (complete_node_lease_write pending record now).
Proof.
  intros (Ha & Ht & Hp) He s. unfold complete_node_lease_write. cbv zeta.
  rewrite <- He in Ha.
  destruct (pl_prior pending); repeat case_match;
    first [apply fence_node_settles|by apply hold_settles|by apply fail_initial_settles].
Qed.

Lemma resume_settles prior now : held_ok prior → settles (resume_node_lease_after_failure prior now).
Proof. intros Hp s. unfold resume_node_lease_after_failure, take_nudge. by wp_steps. Qed.

Lemma write_settles pending guard : pending_ok pending → settles (begin_node_lease_write pending guard).
Proof.
  intros Hp s. unfold begin_node_lease_write. wp_step. eapply wp_mono; [apply op_authority|].
  cbv beta. intros o s' _. by wp_steps.
Qed.

Lemma read_back_settles pending b l : pending_ok pending → settles (read_back pending b l).
Proof.
  intros Hp s. unfold read_back. wp_step. eapply wp_mono; [apply op_authority|].
  cbv beta. intros o s' _. by wp_steps.
Qed.

(** The anchor of an adopted late write is bounded by what is left of it. *)
Lemma adopt_settles prior record now_ms now_mono_ms :
  held_ok prior → synced now_ms now_mono_ms →
  settles (adopt_late_write prior record now_ms now_mono_ms).
Proof.
  intros [Ha Ht] Hs s. unfold adopt_late_write. cbv zeta. case_match; [apply fence_node_settles|].
  destruct (checked_sub _ _) as [anchor|] eqn:E; [|apply fence_node_settles].
  apply checked_sub_Some in E. repeat wp_step; [done|]. apply resume_settles. split; [|done].
  unfold anchored, synced, sat_add, sat_sub in *. simpl. apply N.eqb_neq in H. unfold sat_sub in H. lia.
Qed.

Lemma replace_settles pending found now_ms :
  pending_ok pending → settles (replace_node_lease pending found now_ms).
Proof.
  intros Hp s. unfold replace_node_lease. destruct found as [record|]; [|by apply write_settles].
  case_match; [apply fail_initial_settles, Hp|]. cbv zeta. by apply write_settles.
Qed.

Lemma same_node_lease_expires l r : same_node_lease l r = true → nl_expires_ms l = nl_expires_ms r.
Proof. unfold same_node_lease. rewrite !andb_true_iff, N.eqb_eq. naive_solver. Qed.

Lemma read_self_lawful op now_ms now_mono_ms res :
  synced now_ms now_mono_ms → lawful (read_self_node_lease op now_ms now_mono_ms res).
Proof.
  intros Hs s Ha. unfold read_self_node_lease. do 2 wp_step. cbv beta.
  destruct (st_node_authority s) as [|o pending| | | | |] eqn:E; try (wp_step; by rewrite E).
  case_match; [wp_step; by rewrite E|]. do 2 wp_step. simpl in Ha.
  pose proof Ha as (_ & Ht & Hprior).
  destruct res as [[record|]|f], (pl_prior pending) as [prior|];
    repeat case_match;
    first [by apply resume_settles|by apply fail_initial_settles|apply fence_node_settles
          |by apply adopt_settles|by apply replace_settles
          |apply complete_settles; [done|by apply same_node_lease_expires]].
Qed.

Lemma cas_completed_lawful op now res l : lawful (node_lease_cas_completed op now res l).
Proof.
  intros s Ha. unfold node_lease_cas_completed. do 2 wp_step. cbv beta.
  destruct (st_node_authority s) as [| |o pending| | | |] eqn:E; try (wp_step; by rewrite E).
  case_match; [wp_step; by rewrite E|]. do 2 wp_step. simpl in Ha.
  pose proof Ha as (_ & Ht & Hprior).
  destruct res as [[]|[]]; try (by apply read_back_settles); [by apply complete_settles|].
  destruct (pl_prior pending); [by apply resume_settles|by apply fail_initial_settles].
Qed.

Lemma acquisition_settles now_ms spec s :
  synced now_ms (st_now_mono_ms s) → now_ms + ttl_max ≤ u64_max → ls_ttl_ms spec ≤ ttl_max →
  wpl (begin_node_lease_acquisition now_ms spec)
    (λ _ s', authority_ok (st_node_authority s')) s.
Proof.
  intros Hs Hm Ht. unfold begin_node_lease_acquisition. do 2 wp_step. cbv beta zeta. wp_step.
  eapply wp_mono; [apply op_authority|]. cbv beta. intros o s' _. do 2 wp_step. wp_step; [done|].
  simpl. split_and!; [|done|done]. unfold anchored, synced, sat_add in *. simpl. lia.
Qed.

Lemma start_lawful now_ms spec s :
  synced now_ms (st_now_mono_ms s) → now_ms + ttl_max ≤ u64_max → ls_ttl_ms spec ≤ ttl_max →
  authority_ok (st_node_authority s) →
  wpl (start_node_lease now_ms spec) (λ _ s', authority_ok (st_node_authority s')) s.
Proof.
  intros Hs Hm Ht Ha. unfold start_node_lease. do 2 wp_step. cbv beta.
  destruct (st_node_authority s) eqn:E; try (wp_step; by rewrite E); by apply acquisition_settles.
Qed.

Lemma renew_settles held now_ms now_mono_ms :
  held_ok held → synced now_ms now_mono_ms → now_ms + ttl_max ≤ u64_max →
  settles (renew_lease held now_ms now_mono_ms).
Proof.
  intros [Ha Ht] Hs Hm s. unfold renew_lease. do 2 wp_step. cbv beta zeta. do 2 wp_step.
  apply write_settles. split_and!; [|done|done].
  unfold anchored, synced, sat_add in *. simpl. lia.
Qed.

Lemma lease_timer_lawful renew generation now_ms now_mono_ms s :
  synced now_ms now_mono_ms → now_ms + ttl_max ≤ u64_max →
  (∀ spec g, st_node_authority s = AuRetrying spec g → st_now_mono_ms s = now_mono_ms) →
  authority_ok (st_node_authority s) →
  wpl (lease_timer renew generation now_ms now_mono_ms)
    (λ _ s', authority_ok (st_node_authority s')) s.
Proof.
  intros Hs Hm Hmono Ha. unfold lease_timer. do 2 wp_step. cbv beta.
  destruct (st_node_authority s) as [|o p|o p|h|spec g| |] eqn:E; simpl in Ha; unfold with_some, when;
    simpl; repeat case_match; try (wp_step; by rewrite E); try apply fence_node_settles.
  - by apply renew_settles.
  - apply acquisition_settles; [by erewrite Hmono|done|done].
Qed.

Lemma lawful_at {A} (c : dec A) s :
  lawful c → authority_ok (st_node_authority s) →
  wpl c (λ _ s', authority_ok (st_node_authority s')) s.
Proof. intros Hc. apply Hc. Qed.

Lemma lawful_bind {A B} (c : dec A) (f : A → dec B) :
  lawful c → (∀ a, lawful (f a)) → lawful (c ≫= f).
Proof. intros Hc Hf s Ha. wp_step. eapply wp_mono; [by apply Hc|]. cbv beta. intros a s'. apply Hf. Qed.

Lemma lawful_frame {A} (c : dec A) : framed c → lawful c.
Proof. intros Hc. by apply lawful_framed, framed_framed_gate. Qed.
#[local] Hint Resolve lawful_bind : lease.
#[local] Hint Extern 1 (lawful _) => apply lawful_frame; solve [auto with frame nocore] : lease.
#[local] Hint Extern 1 (lawful _) => apply lawful_framed; solve [auto with frame_gate nocore] : lease.

Lemma timer_fired_lawful t now_ms now_mono_ms s :
  synced now_ms now_mono_ms → now_ms + ttl_max ≤ u64_max →
  (∀ spec g, st_node_authority s = AuRetrying spec g → st_now_mono_ms s = now_mono_ms) →
  authority_ok (st_node_authority s) →
  wpl (timer_fired t now_ms now_mono_ms) (λ _ s', authority_ok (st_node_authority s')) s.
Proof.
  intros Hs Hm Hmono Ha. unfold timer_fired.
  destruct t as [g|g|id g|o|id g|id g]; try (by apply lease_timer_lawful);
    (apply lawful_at; [auto with lease|done]).
Qed.

Lemma nudge_lawful now_ms now_mono_ms :
  synced now_ms now_mono_ms → now_ms + ttl_max ≤ u64_max → lawful (nudge_node_lease now_ms now_mono_ms).
Proof.
  intros Hs Hm s Ha. unfold nudge_node_lease. do 2 wp_step. cbv beta.
  destruct (st_node_authority s) eqn:E; try (wp_step; simpl; by rewrite E).
  apply timer_fired_lawful; rewrite ?E; done.
Qed.

Lemma advance_clocks_authority e s : st_node_authority (advance_clocks e s) = st_node_authority s.
Proof. unfold advance_clocks. by destruct (event_mono_ms e), (event_now_ms e). Qed.

Lemma advance_clocks_mono e s now :
  event_mono_ms e = Some now → st_now_mono_ms s ≤ now → st_now_mono_ms (advance_clocks e s) = now.
Proof.
  intros E Hn. unfold advance_clocks. rewrite E. destruct (event_now_ms e); simpl; lia.
Qed.

Lemma handle_lawful e s :
  clock_ok s e → authority_ok (st_node_authority s) →
  wpl (handle e) (λ _ s', authority_ok (st_node_authority s')) (advance_clocks e s).
Proof.
  intros He Ha. rewrite <- (advance_clocks_authority e s) in Ha.
  destruct e; cbn [handle clock_ok] in *; try (apply lawful_at; [by auto with lease|done]).
  - destruct He as ((Hs & Hn & Hm) & Ht). apply start_lawful; try done.
    by rewrite (advance_clocks_mono _ _ now_mono_ms).
  - apply lawful_at; [|done]. by apply read_self_lawful, He.
  - apply lawful_at; [|done]. apply cas_completed_lawful.
  - destruct He as (Hs & Hn & Hm). apply timer_fired_lawful; try done.
    intros _ _ _. by apply advance_clocks_mono.
  - apply lawful_at; [|done]. apply nudge_lawful; apply He.
  - apply fence_node_settles.
Qed.

Lemma replay_lawful (es : list Effect) : lawful (for_each es emit).
Proof.
  intros s Ha. apply (wp_for_each (λ s, authority_ok (st_node_authority s))); [done| |done].
  intros e t _ Ht. by wp_step.
Qed.
#[local] Hint Resolve replay_lawful : lease.

Lemma on_event_lawful e s :
  clock_ok s e → authority_ok (st_node_authority s) →
  wpl (on_event e) (λ _ s', authority_ok (st_node_authority s')) s.
Proof.
  intros He Ha. unfold on_event. wp_step. apply wp_captured. unfold transition. do 2 wp_step.
  wp_step. eapply wp_mono; [by apply handle_lawful|]. cbv beta. intros _ s1 H1.
  eapply wp_mono; [apply lawful_at; [|exact H1]; auto with lease|]. cbv beta. intros _ s2 H2 es Hes.
  cbv beta iota. apply lawful_at; [|done]. auto with lease.
Qed.

Lemma reachable_authority node config s :
  reachable clock_ok (new node config) s →
  authority_ok (st_node_authority s) ∧ st_config s = config.
Proof.
  intros Hr. split; [|apply (fr_config _ _ (reachable_frame _ _ _ Hr))].
  revert s Hr. apply reachable_invariant; [done|]. intros s e s' es Ha He E.
  by eapply (wp_done _ _ _ _ _ _ _ _ (on_event_lawful e s He Ha) E).
Qed.

(** The lease that carries the authority of a node: the held one, or the one it
    is renewing. *)
Definition active_lease (a : NodeAuthority) : option HeldNodeLease :=
  match a with
  | AuHeld held => Some held
  | AuReading _ pending | AuWriting _ pending => pl_prior pending
  | _ => None
  end.

End lease.

(** A node with a required lease that acquires it: the wall clock is 90 ahead
    of the monotonic clock. *)
Definition leased_config : Config :=
  mkConfig 4 2 2 2 4 OnEvictRelease true 1 (Some 1000) 100 3 0 None (mkPressureConfig None None).

Definition lease_spec : NodeLeaseSpec := mkNodeLeaseSpec "addr" 1 "g" None 30.

Definition lease_held : State :=
  next_state (EvNodeLeaseCasCompleted 2 12 (Ok (LeaseApplied "t")) None)
    (next_state (EvSelfNodeLeaseRead 1 101 11 (Ok None))
       (next_state (EvStartNodeLease 100 10 lease_spec) (new "a" leased_config))).

Ltac lease_reading :=
  repeat split; vm_compute; first [reflexivity|discriminate].

